(* ===== verification/_CoqProject ===== *)
-Q . S2P
Prelude.v
JsValue.v
RangePrefetch.v
LoadProfiles.v
Fenwick.v
RangeProfile.v
RangeProfileFacts.v
BootAnalysis.v
StartupPrefetch.v
StartupPrefetchFacts.v
PieceStore.v
Hex.v
Bencode.v
Protocol.v
ProtocolFacts.v
Metadata.v
Records.v
WorkerChannel.v
DiskBuffer.v
TouchInput.v
RelayNetwork.v
DirectPointer.v
MachineState.v
DiskControls.v
VaultWorker.v
VaultWorkerFacts.v
VaultHandles.v
VaultSources.v
VaultSessions.v
VaultProgress.v
TorrentPort.v
TorrentBridge.v
DriveImages.v
StateFormat.v
StateFormatFacts.v
StateRoundTrip.v
StateWiping.v
CryptoWorker.v
CryptoHandles.v
CryptoClient.v
CryptoCalls.v
CryptoSystem.v
StateInput.v
TorrentRemote.v
TorrentRemoteFacts.v
TorrentScope.v
NetworkSources.v
NetworkFacts.v
WindowPieces.v
WindowCovered.v
WindowStartup.v
WindowOpening.v
WindowSeeds.v
WindowDiscovery.v
WindowDiscoveryFacts.v
WindowPrefetch.v
WindowPrefetchFacts.v
WindowScan.v
WindowScanFacts.v
WindowEntries.v
WindowEntriesFacts.v
WindowProbes.v
WindowProbesFacts.v
ReadKey.v
Descriptor.v
RemoteOpen.v
RemoteOpenFacts.v
Session.v
SessionFacts.v
HostPanel.v
HostPanelFacts.v
DiskPanel.v
AgentInput.v
AgentInputFacts.v
AgentStore.v
AgentStoreFacts.v
AgentDisk.v
AgentRuntime.v
AgentRuntimeFacts.v
AgentMedia.v
