(* ===== verification/Prelude.v ===== *)
(** * my98: a verification development

    my98 runs Windows 98 in the browser from an encrypted disk.  Rust code compiled to
    WebAssembly (the Vault) encrypts; the JavaScript of src/src/browser,
    src/src/disk/web, src/src/crypto/web and src/src/disk/scripts, which is what this
    library models, moves requests, ciphertext and machine states between the page, a Worker, the
    network and the emulator.  This file is the prelude all others require; the
    documentation of the whole library comes first.

    ** The program's parts and the files that model them

    The page and the emulator:
    - MachineState.v: machine-state.js, capturing and restoring a machine as
      sequences of awaited calls with their cleanup;
    - Session.v, SessionFacts.v: disk-session.js together with the machine's host in
      win98.js, which own the client, the buffer and the machine;
    - DiskBuffer.v: the class DiskBuffer of disk/web/client.js, the emulator's disk,
      a queue with one request in flight;
    - DirectPointer.v, TouchInput.v: direct-pointer.js and vm-input.js, pointer and
      touch gestures as streams of mouse messages;
    - RelayNetwork.v: relay-network.js, the authenticated Ethernet relay;
    - DiskControls.v: disk-controls.js and disk-progress.js, what the panel offers
      and displays; DiskPanel.v: disk-ui.js, what its buttons ask the user and the session;
    - HostPanel.v, HostPanelFacts.v: win98.js, the machine's buttons, its media and
      the flag that keeps them apart from the disk's operations; DriveImages.v: the
      images for its drives.

    The development agent (scripts/agent, scripts/agent.mjs):
    - AgentInput.v, AgentInputFacts.v: input.js, texts and key combinations as scan
      codes, and the keyboard that reads them;
    - AgentRuntime.v, AgentRuntimeFacts.v: runtime.js, the commands of the page that
      holds the machine;
    - AgentStore.v, AgentStoreFacts.v: store.mjs with checkpoint() of agent.mjs, the
      checkpoints on disk, over a file system that may crash;
    - AgentDisk.v: the working disk's requests; AgentMedia.v: media.mjs, transfer CDs.

    The disk's Worker:
    - WorkerChannel.v: the class Slop86Disk of client.js and worker-protocol.js, the
      call protocol between the page and the Worker and its cancellation epochs;
    - VaultWorker.v: worker.js, every request the Worker executes, in a state and
      error monad over an arbitrary environment (the Vault, the network, the user's
      cancellations); VaultWorkerFacts.v has its weakest preconditions, VaultHandles.v
      the allocation of Vaults, VaultSources.v the sources they read through,
      VaultSessions.v read-only sessions and prepared states, VaultProgress.v
      termination;
    - ReadKey.v: the text of read-only keys in client.js;
    - StateFormat.v: state-format.js, the framing of saved states as
      encryption, decryption and the pull of their stream; StateFormatFacts.v,
      StateRoundTrip.v and StateWiping.v prove it; StateInput.v: the stream of a
      published state (torrent-remote.js: stateInput);
    - TorrentPort.v, TorrentBridge.v: torrent-port.js, the remote calls from the
      Worker to the window, each port and both together.

    Published disks:
    - Bencode.v, Hex.v, Protocol.v, ProtocolFacts.v, Metadata.v: torrent-protocol.js,
      canonical bencoding, signed records and torrent metadata;
    - Records.v: torrent-records.js, the newest record a browser remembers;
    - PieceStore.v: torrent-store.js, the pieces kept in IndexedDB and memory;
    - TorrentRemote.v (TorrentRemoteFacts.v, TorrentScope.v): torrent-remote.js, the
      Worker's client of a publication; RemoteOpen.v, RemoteOpenFacts.v: how one is
      opened and closed; Descriptor.v: its descriptor (torrent-protocol.js);
    - torrent-window.js, the window's side: WindowDiscovery.v finds metadata; WindowOpening.v
      shares the opening of a torrent between readers, WindowEntries.v has the torrents
      themselves with failures, recovery, removal and closing; WindowProbes.v and
      WindowSeeds.v test webseeds and let them take turns; WindowScan.v checks cached pieces;
      WindowPieces.v (WindowCovered.v, WindowStartup.v) has verified bytes, reads and the
      startup window, WindowPrefetch.v prefetch and background download.  The files
      named after them with Facts prove them;
    - NetworkSources.v, NetworkFacts.v: torrent-sources.js, network-config.js,
      relay-discovery.js and cancellable-webseed.js, what may be connected to and what
      a webseed has to send.

    What to download first:
    - RangeProfile.v over Fenwick.v (facts in RangeProfileFacts.v): range-profile.mjs,
      the optimal choice of ranges by dynamic programming;
    - RangePrefetch.v, LoadProfiles.v: range-prefetch.js and load-profiles.js, the
      order of prefetches and the validation of profiles;
    - BootAnalysis.v: boot-analysis.js, recording a profile;
    - StartupPrefetch.v, StartupPrefetchFacts.v: startup-prefetch.js, the job that
      downloads a profile while a state is restored.

    The stand-alone crypto Worker (crypto/web):
    - CryptoWorker.v: worker.js, its handles and the execution of requests;
      CryptoHandles.v proves that no handle is used after it was freed;
    - CryptoClient.v: client.js, the checks of arguments and the calls; CryptoCalls.v
      shows what a request contains; CryptoSystem.v puts both ends together with the
      queues between them.

    JsValue.v has JavaScript's values, where code looks at untrusted ones.

    ** How state and operations correspond to the code

    Each part's state is a record with the fields of the class or closure; each method,
    listener or continuation after an [await] is a definition with the code's guards
    in the code's order.  What runs between two awaits is one step.  Events are the
    next callback of the browser, so a theorem over all lists of events is one over
    all interleavings.  Thrown errors are values of [result].  Numbers are [Z] where
    the code has checked that they are safe integers (or where their bounds make
    double arithmetic exact); [jsval] keeps the other cases apart.  Code outside src/
    and the Rust code enter as parameters or as outcomes of events.

    ** What the theorems show

    Secrets and storage: the Worker never uses a freed Vault, leaks neither Vaults nor
    sources, keeps read-only sessions read-only, commits a prepared state whole and
    once, and ends every request.  A saved state decodes to what was saved; whatever is
    accepted was encrypted with the expected context; plaintext buffers are wiped on
    every path.  Read-only keys round-trip and have one spelling.  The crypto Worker
    uses only live handles, and every call settles once.

    The page: between the session's methods exactly the machine, buffer and client it
    holds are alive; a restored machine replaces the old one whole or not at all.  The
    disk buffer is first in, first out.  No gesture leaves a button pressed; frames
    pass the relay only after authentication.  One operation is under way at a time, media
    change on a stopped machine, a reset takes two clicks, and nothing is lost without
    a confirmation.  Drives get aligned images of whole volumes.  Typed text arrives
    as it was, and the agent leaves no key pressed, whatever fails; no crash loses its
    last checkpoint.  Calls to the Worker and over the torrent
    bridge settle once, in order, with the outcome of their own execution.

    The network: records and metadata are accepted only when authentic and canonical,
    and a browser never goes back to an older record.  Connections go to encrypted or
    local addresses only, a webseed's answer is exactly the range asked for, and a
    search for metadata returns only what verifies.  The piece store returns what was
    put, within its budget; a publication that fails to open leaves nothing open, and
    what opens is what its newest record named.  In the window at most one torrent of an
    infohash is alive, its webseeds are sources that answered, no late answer of the
    store undoes a download, and prefetches verify what they promise and hold no
    selection longer than they should.

    Ranges: the selection of ranges is optimal, its output is accepted by the
    validators that read it, prefetching covers exactly the requested units and the
    startup job settles once.

    Where a theorem needs something of the environment, a named hypothesis says so and a
    witness applies it to a concrete environment.  Some examples show where the code
    departs from what it means to do.

    ** Fuel and bounds

    [bdecode] starts with fuel 800; the node limit needs at most 515 ([parse_fuel]).
    [drain] in RangePrefetch.v needs one unit of fuel for each unit of the disk.  The
    loops of VaultWorker.v have a fuel argument and answer [None] when it runs out;
    [requests_end] says how much is enough.  In StateFormat.v, [into] has two more than
    the chunks that are left, and the drain of a stream one for each of the at most 64
    pieces of each record and one more; StateRoundTrip.v shows that this suffices.
    [transfer] in AgentStore.v has as many as the state has bytes; each part has one at least.
    [count_bits] has 8, the bits of a byte.  Other loops are structural.

    ** Not modelled

    - In disk/web: the making of the WebTorrent client and its throttled progress
      (torrent-window.js).  WebTorrent itself is installed.
    - browser/control-icons.js, bootstrap.js, publication-options.js, machine-factory.js
      and the rest of win98.js and disk-ui.js bind DOM elements and the emulator;
      vm-input.js's keyboard is part of that.
    - the rest of scripts/agent.mjs drives processes, sockets and a browser; the other
      scripts bundle, serve and test.  The emulator and the icons are vendored or installed.
    - The Rust (Vault, crypto, relay), C and Python (publisher) programs are other
      languages; the Vault appears as the environment of VaultWorker.v, and the crypto
      code as that of CryptoWorker.v. *)
From stdpp Require Export prelude gmap strings list sorting relations.
From Stdlib Require Export ZArith Lia.

#[global] Open Scope Z_scope.

(** ** Exceptions and results

    The JavaScript code throws [Error] objects that may carry a [code]
    property; [exn] keeps both parts.  A function that can throw returns a
    [result]. *)
Record exn := Exn { exn_code : option string; exn_message : string }.

Inductive result (A : Type) :=
| Ok (a : A)
| Throw (e : exn).
Arguments Ok {A} a.
Arguments Throw {A} e.

#[export] Instance exn_eq_dec : EqDecision exn.
Proof. solve_decision. Defined.
#[export] Instance result_eq_dec `{EqDecision A} : EqDecision (result A).
Proof. solve_decision. Defined.

#[export] Instance result_ret : MRet result := @Ok.
#[export] Instance result_bind : MBind result := λ A B f m,
  match m with Ok a => f a | Throw e => Throw e end.
#[export] Instance result_fmap : FMap result := λ A B f m,
  match m with Ok a => Ok (f a) | Throw e => Throw e end.

(** [throw code message] is the [throw fail(code,message)] of the sources;
    [throw_plain message] is [throw new Error(message)]. *)
Definition throw {A} (code message : string) : result A :=
  Throw (Exn (Some code) message).
Definition throw_plain {A} (message : string) : result A :=
  Throw (Exn None message).

Definition is_ok {A} (r : result A) : bool :=
  match r with Ok _ => true | Throw _ => false end.

Definition result_code {A} (r : result A) : option string :=
  match r with Ok _ => None | Throw e => exn_code e end.

(** [assert_or c code message]: the guard [if(!c) throw fail(code,message)]. *)
Definition assert_or (c : bool) (code message : string) : result unit :=
  if c then Ok tt else throw code message.

(** ** Numbers

    JavaScript numbers that the code treats as integers are modelled in [Z];
    [MAX_SAFE_INTEGER] is the bound below which double arithmetic on them is
    exact. *)
Definition MAX_SAFE_INTEGER : Z := 2 ^ 53 - 1.
Definition is_safe (z : Z) : bool :=
  (- MAX_SAFE_INTEGER <=? z) && (z <=? MAX_SAFE_INTEGER).

(** [Math.ceil(a/b)] on non-negative integers. *)
Definition ceil_div (a b : Z) : Z := (a + b - 1) / b.

(** ** Tactics *)

(** Split the head match or conditional of a hypothesis or of the goal. *)
Ltac case_head :=
  match goal with
  | H : context [match ?x with _ => _ end] |- _ =>
      lazymatch type of H with
      | _ = _ => let E := fresh "E" in destruct x eqn:E
      end
  end.

(** Turn boolean tests of hypotheses into propositions. *)
Ltac bools :=
  repeat match goal with
  | H : (_ && _) = true |- _ => apply andb_true_iff in H as [??]
  | H : (_ || _) = false |- _ => apply orb_false_iff in H as [??]
  | H : negb _ = true |- _ => apply negb_true_iff in H
  | H : negb _ = false |- _ => apply negb_false_iff in H
  | H : (_ <? _) = true |- _ => apply Z.ltb_lt in H
  | H : (_ <? _) = false |- _ => apply Z.ltb_ge in H
  | H : (_ <=? _) = true |- _ => apply Z.leb_le in H
  | H : (_ <=? _) = false |- _ => apply Z.leb_gt in H
  | H : (_ =? _) = true |- _ => apply Z.eqb_eq in H
  | H : (_ =? _) = false |- _ => apply Z.eqb_neq in H
  | H : bool_decide _ = true |- _ => apply bool_decide_eq_true in H
  | H : bool_decide _ = false |- _ => apply bool_decide_eq_false in H
  end.

(** Invert equations between results and split the binds that produced them. *)
Ltac inv_result :=
  repeat match goal with
  | H : Ok _ = Ok _ |- _ => injection H as H
  | H : Throw _ = Throw _ |- _ => injection H as H
  | H : Ok _ = Throw _ |- _ => discriminate H
  | H : Throw _ = Ok _ |- _ => discriminate H
  | H : throw _ _ = Ok _ |- _ => discriminate H
  | H : throw_plain _ = Ok _ |- _ => discriminate H
  | H : mret _ = Ok _ |- _ => injection H as H
  end.

Lemma bind_ok {A B} (m : result A) (f : A → result B) b :
  (m ≫= f) = Ok b → ∃ a, m = Ok a ∧ f a = Ok b.
Proof. destruct m as [a|e]; cbn; [eauto | discriminate]. Qed.

Lemma assert_or_ok c code msg u : assert_or c code msg = Ok u → c = true.
Proof. destruct c; [done | discriminate]. Qed.

Ltac inv_bind :=
  repeat match goal with
  | H : (_ ≫= _) = Ok _ |- _ =>
      let a := fresh "a" in let H1 := fresh "H" in
      apply bind_ok in H as (a & H1 & H)
  | H : assert_or _ _ _ = Ok _ |- _ => apply assert_or_ok in H
  end; inv_result.

Create HintDb my98.

(** ** Reachability

    A component whose operations interleave is a step relation; its invariants
    are proved by induction on the reflexive transitive closure [rtc]. *)
Lemma rtc_invariant {S} (R : relation S) (I : S → Prop) :
  (∀ s s', I s → R s s' → I s') → ∀ s s', I s → rtc R s s' → I s'.
Proof. intros Hstep s s' Hs. induction 1; eauto. Qed.

(** ** Lists *)
Definition sum_list_Z (l : list Z) : Z := foldr Z.add 0 l.

Lemma sum_list_Z_app l1 l2 :
  sum_list_Z (l1 ++ l2) = sum_list_Z l1 + sum_list_Z l2.
Proof. unfold sum_list_Z. induction l1; cbn in *; lia. Qed.

Lemma sum_list_Z_nonneg l : Forall (λ z, 0 ≤ z) l → 0 ≤ sum_list_Z l.
Proof. unfold sum_list_Z. induction 1; cbn in *; lia. Qed.

Lemma sum_list_Z_perm l1 l2 : l1 ≡ₚ l2 → sum_list_Z l1 = sum_list_Z l2.
Proof. unfold sum_list_Z. induction 1; cbn in *; lia. Qed.

Lemma filter_all {A} (P : A → Prop) `{∀ x, Decision (P x)} l : Forall P l → filter P l = l.
Proof. induction 1 as [|x l Hx _ IH]; [done|]. rewrite filter_cons_True by done. by rewrite IH. Qed.

Lemma filter_none {A} (P : A → Prop) `{∀ x, Decision (P x)} l :
  Forall (λ x, ¬ P x) l → filter P l = [].
Proof. induction 1 as [|x l Hx _ IH]; [done|]. by rewrite filter_cons_False. Qed.

Lemma elem_of_concat_fmap {A B} (f : A → list B) l x :
  x ∈ concat (f <$> l) ↔ ∃ y, y ∈ l ∧ x ∈ f y.
Proof.
  induction l as [|y l IH]; cbn.
  - split; [by intros ?%elem_of_nil|]. by intros (y & ?%elem_of_nil & _).
  - rewrite elem_of_app, IH. setoid_rewrite elem_of_cons. naive_solver.
Qed.

Lemma StronglySorted_snoc {A} (R : A → A → Prop) l x :
  StronglySorted R (l ++ [x]) ↔ StronglySorted R l ∧ Forall (λ y, R y x) l.
Proof.
  induction l as [|y l IH]; cbn.
  { split; [|intros _; repeat constructor]. by repeat constructor. }
  split.
  - intros [H1 H2]%StronglySorted_inv. apply IH in H1 as [H1 H3].
    apply Forall_app in H2 as [H2 H4]. apply Forall_cons in H4 as [H4 _].
    split; [by constructor|by constructor].
  - intros [[H1 H2]%StronglySorted_inv H3]. apply Forall_cons in H3 as [H3 H4].
    constructor; [by apply IH|]. apply Forall_app. split; [done|]. by repeat constructor.
Qed.

(** A symmetric relation between all pairs does not depend on the order. *)
Lemma ForallOrdPairs_perm {A} (R : A → A → Prop) l1 l2 :
  (∀ x y, R x y → R y x) → l1 ≡ₚ l2 → ForallOrdPairs R l1 → ForallOrdPairs R l2.
Proof.
  intros Hsym. induction 1 as [|x l1 l2 Hp IH|x y l|l1 l2 l3 _ IH1 _ IH2]; intros H.
  - constructor.
  - inversion_clear H as [|?? H1 H2]. constructor; [by rewrite <- Hp | auto].
  - inversion_clear H as [|?? Hs H1]. inversion_clear H1 as [|?? Hr H2].
    apply Forall_cons in Hs as [??]. constructor; [|by constructor].
    constructor; [by apply Hsym | done].
  - auto.
Qed.

Lemma StronglySorted_OrdPairs {A} (R S : A → A → Prop) l :
  (∀ x y, R x y → S x y) → StronglySorted R l → ForallOrdPairs S l.
Proof.
  intros HRS. induction 1 as [|x l Hl IH Hx]; constructor; [|done].
  eapply Forall_impl; [exact Hx|]. auto.
Qed.

(** [past_ok P l]: each element of the log [l] is related by [P] to the elements
    before it. *)
Definition past_ok {A} (P : list A → A → Prop) (l : list A) : Prop :=
  ∀ i x, l !! i = Some x → P (take i l) x.

Lemma past_ok_snoc {A} (P : list A → A → Prop) l x :
  past_ok P l → P l x → past_ok P (l ++ [x]).
Proof.
  intros H Hx i y Hi. apply lookup_app_Some in Hi as [Hi|[Hge Hi]].
  - rewrite take_app_le by (apply Nat.lt_le_incl; by eapply lookup_lt_Some). eauto.
  - apply list_lookup_singleton_Some in Hi as [Hi <-].
    assert (i = length l) as -> by lia. by rewrite take_app_length.
Qed.

Lemma past_ok_split {A} (P : list A → A → Prop) l l1 x l2 :
  past_ok P l → l = l1 ++ x :: l2 → P l1 x.
Proof.
  intros H ->. specialize (H (length l1) x). rewrite take_app_length in H. apply H.
  by rewrite list_lookup_middle.
Qed.

Lemma past_ok_snoc_inv {A} (P : list A → A → Prop) l x : past_ok P (l ++ [x]) → past_ok P l ∧ P l x.
Proof.
  intros H. split; [|by eapply past_ok_split]. intros i y Hi. specialize (H i y).
  rewrite take_app_le in H by (apply Nat.lt_le_incl; by eapply lookup_lt_Some). apply H. by apply lookup_app_l_Some.
Qed.

(** The integers [first, first+1, ..., first+count-1]. *)
Definition zrange (first : Z) (count : nat) : list Z :=
  (λ k, first + Z.of_nat k) <$> seq 0 count.

Lemma elem_of_zrange x first count :
  x ∈ zrange first count ↔ first ≤ x < first + Z.of_nat count.
Proof.
  unfold zrange. rewrite list_elem_of_fmap. setoid_rewrite elem_of_seq. split.
  - intros (k & -> & ?). lia.
  - intros. exists (Z.to_nat (x - first)). lia.
Qed.

Lemma NoDup_zrange first count : NoDup (zrange first count).
Proof.
  unfold zrange. apply NoDup_fmap_2; [intros ???; lia | apply NoDup_seq].
Qed.

Lemma length_zrange first count : length (zrange first count) = count.
Proof. unfold zrange. by rewrite length_fmap, length_seq. Qed.

Lemma zrange_S first count :
  zrange first (S count) = first :: zrange (first + 1) count.
Proof.
  unfold zrange. cbn. f_equal; [lia|].
  rewrite <- fmap_S_seq, <- list_fmap_compose.
  apply list_fmap_ext. intros. cbn. lia.
Qed.

Lemma zrange_snoc first count :
  zrange first (S count) = zrange first count ++ [first + Z.of_nat count].
Proof. unfold zrange. by rewrite seq_S, fmap_app. Qed.

#[export] Hint Resolve NoDup_zrange : my98.

(** ** Byte arrays

    A [Uint8Array] is the list of its bytes; [slice] is [subarray] or [slice] with
    bounds inside the array. *)
Definition bytes : Type := list Z.
Definition byteLength (b : bytes) : Z := Z.of_nat (length b).
Definition slice {A} (l : list A) (first last : Z) : list A :=
  take (Z.to_nat (last - first)) (drop (Z.to_nat first) l).

Lemma length_slice {A} (l : list A) a b :
  0 ≤ a ≤ b → b ≤ Z.of_nat (length l) → Z.of_nat (length (slice l a b)) = b - a.
Proof. intros. unfold slice. rewrite length_take, length_drop. lia. Qed.

(** ** Little-endian numbers

    Saved states and encryption units carry unsigned numbers as little-endian bytes.
    [le_bytes] is the loop the code writes (the low eight bits, then a shift), and
    [le_value] reads the bytes back. *)
Fixpoint le_bytes (n : nat) (v : Z) : list Z :=
  match n with
  | O => []
  | S n => Z.land v 255 :: le_bytes n (Z.shiftr v 8)
  end.

Fixpoint le_value (l : list Z) : Z :=
  match l with
  | [] => 0
  | b :: l => Z.lor (Z.land b 255) (Z.shiftl (le_value l) 8)
  end.

Definition is_byte (b : Z) : Prop := 0 ≤ b < 256.

Lemma land_255 v : Z.land v 255 = v mod 256.
Proof. exact (Z.land_ones v 8 ltac:(lia)). Qed.

Lemma le_value_cons b l : le_value (b :: l) = b mod 256 + 256 * le_value l.
Proof.
  cbn [le_value]. rewrite land_255, Z.shiftl_mul_pow2 by lia. change (2 ^ 8) with 256.
  rewrite Z.mul_comm. symmetry. apply Z.add_nocarry_lor. apply Z.bits_inj'. intros k Hk. rewrite Z.land_spec, Z.bits_0.
  change 256 with (2 ^ 8). destruct (decide (k < 8)).
  - by rewrite Z.mul_comm, Z.mul_pow2_bits_low, andb_false_r by lia.
  - by rewrite Z.mod_pow2_bits_high by lia.
Qed.

Lemma length_le_bytes n v : length (le_bytes n v) = n.
Proof. revert v. induction n as [|n IH]; intros v; cbn; [done|]. by rewrite IH. Qed.

Lemma le_bytes_bytes n v : Forall is_byte (le_bytes n v).
Proof.
  revert v. induction n as [|n IH]; intros v; constructor; [|apply IH].
  rewrite land_255. unfold is_byte. apply Z.mod_pos_bound. lia.
Qed.

Lemma le_value_bounds l : 0 ≤ le_value l < 256 ^ Z.of_nat (length l).
Proof.
  induction l as [|b l IH]; [cbn; lia|]. rewrite le_value_cons. pose proof (Z.mod_pos_bound b 256 ltac:(lia)).
  replace (Z.of_nat (length (b :: l))) with (Z.of_nat (length l) + 1) by (cbn [length]; lia).
  rewrite Z.pow_add_r, Z.pow_1_r by lia. lia.
Qed.

(** Both round trips. *)
Lemma le_value_bytes n v : 0 ≤ v < 256 ^ Z.of_nat n → le_value (le_bytes n v) = v.
Proof.
  revert v. induction n as [|n IH]; intros v Hv; [cbn in *; lia|].
  replace (Z.of_nat (S n)) with (Z.of_nat n + 1) in Hv by lia. rewrite Z.pow_add_r, Z.pow_1_r in Hv by lia.
  cbn [le_bytes]. rewrite le_value_cons, land_255, Z.mod_mod, Z.shiftr_div_pow2 by lia. change (2 ^ 8) with 256.
  rewrite IH; [pose proof (Z.div_mod v 256); lia|]. split; [apply Z.div_pos; lia|].
  apply Z.div_lt_upper_bound; lia.
Qed.

Lemma le_bytes_value l : Forall is_byte l → le_bytes (length l) (le_value l) = l.
Proof.
  induction l as [|b l IH]; intros H; [done|]. apply Forall_cons in H as [Hb Hl].
  pose proof (Z.mod_small b 256 Hb) as Eb. cbn [length le_bytes]. rewrite le_value_cons, Eb.
  rewrite land_255, Z.shiftr_div_pow2 by lia. change (2 ^ 8) with 256. unfold is_byte in Hb.
  f_equal.
  - rewrite Z.mul_comm, Z.mod_add, Z.mod_small by lia. done.
  - rewrite Z.mul_comm, Z.div_add, Z.div_small by lia. by apply IH.
Qed.

Lemma le_bytes_inj n v w :
  0 ≤ v < 256 ^ Z.of_nat n → 0 ≤ w < 256 ^ Z.of_nat n → le_bytes n v = le_bytes n w → v = w.
Proof. intros Hv Hw E. by rewrite <- (le_value_bytes n v Hv), E, le_value_bytes. Qed.

(** ** Association lists with integer keys: a [Map] in insertion order *)
Fixpoint map_get {V} (k : Z) (m : list (Z * V)) : option V :=
  match m with
  | [] => None
  | (k', v) :: m => if k' =? k then Some v else map_get k m
  end.
Definition map_delete {V} (k : Z) (m : list (Z * V)) : list (Z * V) :=
  List.filter (λ p : Z * V, negb (p.1 =? k)) m.

(** [m.set(k,v)]: a present key keeps its place. *)
Definition map_set {V} (k : Z) (v : V) (m : list (Z * V)) : list (Z * V) :=
  match map_get k m with
  | Some _ => (λ p : Z * V, if p.1 =? k then (k, v) else p) <$> m
  | None => m ++ [(k, v)]
  end.

Lemma map_get_elem {V} k (v : V) m : map_get k m = Some v → (k, v) ∈ m.
Proof.
  induction m as [|[k' v'] m IH]; cbn; [done|]. destruct (k' =? k) eqn:E; bools.
  - intros [= ->]. subst. constructor.
  - intros ?%IH. by right.
Qed.

Lemma map_get_None {V} k (m : list (Z * V)) : map_get k m = None ↔ k ∉ m.*1.
Proof.
  induction m as [|[k' v] m IH]; cbn; [split; [intros _; apply not_elem_of_nil|done]|].
  rewrite not_elem_of_cons, <- IH. destruct (k' =? k) eqn:E; bools; naive_solver.
Qed.

Lemma elem_of_map_get {V} k (v : V) m : NoDup m.*1 → (k, v) ∈ m → map_get k m = Some v.
Proof.
  induction m as [|[k' v'] m IH]; cbn; [by intros _ ?%elem_of_nil|].
  intros [Hni Hnd]%NoDup_cons [[= -> ->]|Hin]%elem_of_cons.
  - by rewrite Z.eqb_refl.
  - destruct (k' =? k) eqn:E; bools; [|auto]. subst. destruct Hni.
    by apply (list_elem_of_fmap_2 fst) in Hin.
Qed.

Lemma elem_of_map_delete {V} k (p : Z * V) m : p ∈ map_delete k m ↔ p ∈ m ∧ p.1 ≠ k.
Proof.
  unfold map_delete. rewrite !list_elem_of_In, filter_In. by rewrite negb_true_iff, Z.eqb_neq.
Qed.

Lemma map_delete_keys {V} k (m : list (Z * V)) : NoDup m.*1 → NoDup (map_delete k m).*1.
Proof.
  induction m as [|[k' v] m IH]; [done|]. cbn [fmap list_fmap fst]. intros [Hni Hnd]%NoDup_cons.
  unfold map_delete. cbn [List.filter fst]. fold (map_delete k m).
  destruct (negb (k' =? k)); cbn; [|auto]. constructor; [|auto].
  rewrite list_elem_of_fmap. intros ([k2 v2] & -> & [Hin _]%elem_of_map_delete).
  apply Hni. by apply (list_elem_of_fmap_2 fst) in Hin.
Qed.

Lemma map_delete_absent {V} k (m : list (Z * V)) : map_get k m = None → map_delete k m = m.
Proof.
  induction m as [|[k' v] m IH]; cbn; [done|]. destruct (k' =? k) eqn:E; [done|]. cbn.
  intros H. f_equal. by apply IH.
Qed.

Lemma map_delete_get {V} k (m : list (Z * V)) : k ∉ (map_delete k m).*1.
Proof. rewrite list_elem_of_fmap. intros ([? ?] & -> & [_ H]%elem_of_map_delete). done. Qed.

Lemma map_set_keys {V} k (v : V) m v0 : map_get k m = Some v0 → (map_set k v m).*1 = m.*1.
Proof.
  intros H. unfold map_set. rewrite H. rewrite <- list_fmap_compose. apply list_fmap_ext.
  intros i [k' v'] _. cbn. destruct (k' =? k) eqn:E; bools; [by subst|done].
Qed.

Lemma map_set_new {V} k (v : V) m : map_get k m = None → map_set k v m = m ++ [(k, v)].
Proof. intros H. unfold map_set. by rewrite H. Qed.

Lemma elem_of_map_set {V} k (v : V) m p : p ∈ map_set k v m → p = (k, v) ∨ p ∈ m.
Proof.
  unfold map_set. destruct (map_get k m).
  - intros ([k' v'] & -> & Hin)%list_elem_of_fmap. cbn. destruct (k' =? k); auto.
  - intros [?|?%list_elem_of_singleton]%elem_of_app; auto.
Qed.

Lemma map_get_app {V} k (m1 m2 : list (Z * V)) :
  map_get k (m1 ++ m2) = match map_get k m1 with Some v => Some v | None => map_get k m2 end.
Proof. induction m1 as [|[k' v] m IH]; cbn; [done|]. by destruct (k' =? k). Qed.

Lemma map_get_replace {V} k (v : V) m k' :
  map_get k' ((λ p : Z * V, if p.1 =? k then (k, v) else p) <$> m) =
  if k' =? k then (λ _, v) <$> map_get k' m else map_get k' m.
Proof.
  induction m as [|[j u] m IH]; cbn [fmap list_fmap map_get fst].
  { by destruct (k' =? k). }
  destruct (j =? k) eqn:Ejk; cbn [map_get]; rewrite IH; bools; subst.
  - rewrite (Z.eqb_sym k k'). by destruct (k' =? k).
  - destruct (j =? k') eqn:E; [|done]. bools. subst. by rewrite (proj2 (Z.eqb_neq k' k)).
Qed.

Lemma map_get_set {V} k (v : V) m k' :
  map_get k' (map_set k v m) = if k' =? k then Some v else map_get k' m.
Proof.
  unfold map_set. destruct (map_get k m) as [v0|] eqn:E.
  - rewrite map_get_replace. destruct (k' =? k) eqn:Ek; [|done]. bools. subst. by rewrite E.
  - rewrite map_get_app. cbn. rewrite (Z.eqb_sym k k'). destruct (k' =? k) eqn:Ek; bools.
    + subst. by rewrite E.
    + by destruct (map_get k' m).
Qed.

Lemma map_delete_entry {V} k (v : V) m : NoDup m.*1 → map_get k m = Some v → m ≡ₚ (k, v) :: map_delete k m.
Proof.
  induction m as [|[k' v'] m IH]; [done|]. cbn. intros [Hni Hnd]%NoDup_cons. destruct (k' =? k) eqn:E; bools; cbn.
  - subst. intros [= ->]. constructor. fold (map_delete k m). rewrite map_delete_absent; [done|]. by apply map_get_None.
  - intros H. fold (map_delete k m). rewrite perm_swap. constructor. by apply IH.
Qed.

Lemma map_delete_perm {V} k (v : V) m :
  NoDup m.*1 → map_get k m = Some v → m.*1 ≡ₚ k :: (map_delete k m).*1.
Proof.
  induction m as [|[k' v'] m IH]; [done|]. intros [Hni Hnd]%NoDup_cons Hg.
  cbn [map_get] in Hg. unfold map_delete. cbn [List.filter fst]. fold (map_delete k m).
  destruct (k' =? k) eqn:E; bools; cbn [negb].
  - subst k'. rewrite map_delete_absent by (by apply map_get_None). done.
  - cbn. rewrite IH at 1 by done. constructor.
Qed.

(** ** Sorting

    [sort_on key l] is [l.sort((a,b)=>key(a)-key(b))]: JavaScript's sort is
    stable, so an element is inserted after those with an equal key. *)
Section sort_on.
Context {A : Type} (key : A → Z).

Fixpoint insert_on (x : A) (l : list A) : list A :=
  match l with
  | [] => [x]
  | y :: l' => if key x <? key y then x :: l else y :: insert_on x l'
  end.

Definition sort_on (l : list A) : list A :=
  foldl (λ acc x, insert_on x acc) [] l.

Definition key_sorted (l : list A) : Prop :=
  StronglySorted (λ x y, key x ≤ key y) l.

Lemma insert_on_perm x l : insert_on x l ≡ₚ x :: l.
Proof.
  induction l as [|y l IH]; cbn; [done|].
  destruct (key x <? key y); [done|]. rewrite IH. constructor.
Qed.

Lemma insert_on_sorted x l : key_sorted l → key_sorted (insert_on x l).
Proof.
  unfold key_sorted. induction 1 as [|y l Hl IH Hy]; cbn; [repeat constructor|].
  destruct (key x <? key y) eqn:E; bools; constructor; auto.
  - by constructor.
  - constructor; [lia|]. eapply Forall_impl; [exact Hy|]. cbn. lia.
  - rewrite insert_on_perm. constructor; [lia|done].
Qed.

Lemma foldl_insert_on l acc :
  foldl (λ acc x, insert_on x acc) acc l ≡ₚ l ++ acc ∧
  (key_sorted acc → key_sorted (foldl (λ acc x, insert_on x acc) acc l)).
Proof.
  revert acc. induction l as [|x l IH]; intros acc; cbn; [done|].
  destruct (IH (insert_on x acc)) as [Hp Hs]. split.
  - rewrite Hp, insert_on_perm. by rewrite <- Permutation_middle.
  - intros H. by apply Hs, insert_on_sorted.
Qed.

Lemma sort_on_perm l : sort_on l ≡ₚ l.
Proof. unfold sort_on. rewrite (proj1 (foldl_insert_on l [])). by rewrite app_nil_r. Qed.

Lemma sort_on_sorted l : key_sorted (sort_on l).
Proof. apply foldl_insert_on. constructor. Qed.
End sort_on.

#[export] Hint Resolve sort_on_perm sort_on_sorted : my98.
