(* ===== verification/JsValue.v ===== *)
(** * JavaScript values

    The validators of the code take values of unknown shape (the result of
    [JSON.parse], or a structured clone posted by another thread).  [jsval] is
    the universe of such values; the accessors below are the operators the
    validators use on them. *)
From S2P Require Import Prelude.
From Stdlib Require Import QArith.
#[local] Open Scope Z_scope.

(** A number is an integer of any magnitude, a finite non-integer, an infinity
    or [NaN].  [-0] and [0] are identified: no test of the code tells them
    apart. *)
Inductive number :=
| NInt (z : Z)
| NFrac (q : Q)
| NInfinity (negative : bool)
| NNaN.

Inductive jsval :=
| JUndefined
| JNull
| JBool (b : bool)
| JNum (n : number)
| JStr (s : string)
| JArr (l : list jsval)
| JObj (fields : list (string * jsval)).

(** ** Objects *)
Fixpoint assoc {V} (k : string) (l : list (string * V)) : option V :=
  match l with
  | [] => None
  | (k', v) :: l => if bool_decide (k' = k) then Some v else assoc k l
  end.

(** [v.k] where [v] is neither [null] nor [undefined]; every field the code
    asks for is absent from the primitives and from arrays. *)
Definition get (v : jsval) (k : string) : jsval :=
  match v with
  | JObj fields => default JUndefined (assoc k fields)
  | _ => JUndefined
  end.

(** One field of an object literal. *)
Definition field (k : string) (v : jsval) : string * jsval := (k, v).

(** The object spread [{...v, k:x}] of an object [v]. *)
Definition set_field (v : jsval) (k : string) (x : jsval) : jsval :=
  match v with
  | JObj fields => JObj ((k, x) :: filter (λ p, p.1 ≠ k) fields)
  | _ => JObj [(k, x)]
  end.

Lemma get_set_field_ne p k x k' : k ≠ k' → get (set_field p k x) k' = get p k'.
Proof.
  intros Hk. destruct p as [| | | | | |fields]; cbn; rewrite bool_decide_false by done; try done.
  f_equal. induction fields as [|[a v] l IH]; [done|]. rewrite filter_cons. cbn.
  case_decide as Ha; cbn in *; [by rewrite IH|].
  assert (a = k) as -> by (by destruct (decide (a = k))).
  by rewrite IH, bool_decide_false.
Qed.

Lemma get_set_field_eq p k x : get (set_field p k x) k = x.
Proof. destruct p; cbn; by rewrite bool_decide_true. Qed.

(** ** Operators *)

(** [!v] is [negb (truthy v)]. *)
Definition truthy (v : jsval) : bool :=
  match v with
  | JUndefined | JNull => false
  | JBool b => b
  | JNum (NInt z) => negb (z =? 0)
  | JNum (NFrac _) | JNum (NInfinity _) => true
  | JNum NNaN => false
  | JStr s => negb (bool_decide (s = ""%string))
  | JArr _ | JObj _ => true
  end.

(** Strict equality with an integer, a string, [null] and [undefined]. *)
Definition is_int (v : jsval) (z : Z) : bool :=
  match v with JNum (NInt z') => z' =? z | _ => false end.
Definition is_str (v : jsval) (s : string) : bool :=
  match v with JStr s' => bool_decide (s' = s) | _ => false end.
(** [a === b].  Objects and arrays are compared by identity; the values the code
    compares come from separate messages and documents, so two of them are
    never one object. *)
Definition strict_eq (a b : jsval) : bool :=
  match a, b with
  | JUndefined, JUndefined | JNull, JNull => true
  | JBool x, JBool y => bool_decide (x = y)
  | JNum (NInt x), JNum (NInt y) => x =? y
  | JNum (NFrac x), JNum (NFrac y) => Qeq_bool x y
  | JNum (NInfinity x), JNum (NInfinity y) => bool_decide (x = y)
  | JStr x, JStr y => bool_decide (x = y)
  | _, _ => false
  end.
Definition is_null (v : jsval) : bool :=
  match v with JNull => true | _ => false end.
Definition is_undefined (v : jsval) : bool :=
  match v with JUndefined => true | _ => false end.
Definition is_false (v : jsval) : bool :=
  match v with JBool false => true | _ => false end.

(** [Number.isSafeInteger] and [Number.isFinite]. *)
Definition as_safe_integer (v : jsval) : option Z :=
  match v with
  | JNum (NInt z) => if is_safe z then Some z else None
  | _ => None
  end.
Definition isSafeInteger (v : jsval) : bool :=
  match as_safe_integer v with Some _ => true | None => false end.
Definition as_finite (v : jsval) : option Q :=
  match v with
  | JNum (NInt z) => Some (inject_Z z)
  | JNum (NFrac q) => Some q
  | _ => None
  end.

(** [Array.isArray]. *)
Definition as_array (v : jsval) : option (list jsval) :=
  match v with JArr l => Some l | _ => None end.
Definition as_string (v : jsval) : option string :=
  match v with JStr s => Some s | _ => None end.

(** ** Lower-case hexadecimal strings *)
Definition is_hex_char (c : Ascii.ascii) : bool :=
  let n := Z.of_nat (Ascii.nat_of_ascii c) in
  ((48 <=? n) && (n <=? 57)) || ((97 <=? n) && (n <=? 102)).

Fixpoint string_forall (f : Ascii.ascii → bool) (s : string) : bool :=
  match s with
  | EmptyString => true
  | String c s => f c && string_forall f s
  end.

Definition str_len (s : string) : Z := Z.of_nat (String.length s).

(** [/^[0-9a-f]{n}$/.test(s)] on a string. *)
Definition hex_string (n : Z) (s : string) : bool :=
  (str_len s =? n) && string_forall is_hex_char s.

(** [/^[0-9a-f]{n}$/.test(v)] on any value, for the [n] of the code (40 and
    64).  [test] converts its argument to a string first.  An array of one
    element converts as that element; a longer array contains a comma and the
    empty array is empty.  A number prints at most 21 digits, or a sign, a point
    or an exponent; the remaining values print letters beyond [f]. *)
Fixpoint hex_test (n : Z) (v : jsval) : bool :=
  match v with
  | JStr s => hex_string n s
  | JArr [x] => hex_test n x
  | _ => false
  end.

Lemma as_safe_integer_Some v z :
  as_safe_integer v = Some z ↔ v = JNum (NInt z) ∧ is_safe z = true.
Proof.
  split.
  - destruct v as [| | |[z'| | |] | | |]; cbn; try discriminate.
    destruct (is_safe z') eqn:E; [|discriminate]. by intros [= <-].
  - intros [-> H]. cbn. by rewrite H.
Qed.

Lemma is_int_true v z : is_int v z = true ↔ v = JNum (NInt z).
Proof.
  destruct v as [| | |[z'| | |] | | |]; cbn; split; try discriminate.
  - intros ?. bools. by subst.
  - intros [= ->]. lia.
Qed.

Lemma is_str_true v s : is_str v s = true ↔ v = JStr s.
Proof.
  destruct v; cbn; split; try discriminate.
  - intros ?. bools. by subst.
  - intros [= ->]. by apply bool_decide_eq_true.
Qed.
