(* ===== verification/RangePrefetch.v ===== *)
(** * Range hints (src/src/disk/web/range-prefetch.js)

    [matchingRanges] validates the ranges of a load profile; the class
    [RangePrefetchOrder] orders the 64 KiB units to download: it follows the
    range of the latest demand and skips the resident units. *)
From S2P Require Import Prelude JsValue.

Definition RANGE_SLOTS : Z := 32.
Definition UNIT : Z := 65536.

Definition range : Type := Z * Z.

(** ** Validation *)

(** One entry of [profile.ranges]: [None] is the early [return undefined],
    [Some None] the [continue] of an empty slot. *)
Definition check_range (units : Z) (r : jsval) : option (option range) :=
  match r with
  | JNull => Some None
  | JArr [a; b] =>
      match as_safe_integer a, as_safe_integer b with
      | Some a, Some b =>
          if (a <? 0) || (b <? a) || (units <=? b) then None else Some (Some (a, b))
      | _, _ => None
      end
  | _ => None
  end.

Fixpoint collect_ranges (units : Z) (l : list jsval) : option (list range) :=
  match l with
  | [] => Some []
  | r :: l =>
      match check_range units r with
      | None => None
      | Some o =>
          rs ← collect_ranges units l;
          Some (match o with Some r => r :: rs | None => rs end)
      end
  end.

(** [sorted.some((r,i)=>i && sorted[i-1][1]>=r[0])]. *)
Fixpoint some_overlap (sorted : list range) : bool :=
  match sorted with
  | r1 :: ((r2 :: _) as l) => (r2.1 <=? r1.2) || some_overlap l
  | _ => false
  end.

Definition profile_header_ok (profile infoHash : jsval) : bool :=
  match infoHash with
  | JStr h =>
      negb (bool_decide (h = ""%string)) && truthy profile &&
      is_int (get profile "version") 1 && is_str (get profile "infoHash") h &&
      is_int (get profile "unitBytes") UNIT
  | _ => false
  end.

Definition matchingRanges (profile infoHash : jsval) (units : Z) :
    option (list range) :=
  if negb (profile_header_ok profile infoHash) then None else
  match get profile "ranges" with
  | JArr l =>
      if negb (Z.of_nat (length l) =? RANGE_SLOTS) then None else
      ranges ← collect_ranges units l;
      if some_overlap (sort_on fst ranges) then None else Some ranges
  | _ => None
  end.

(** ** The prefetch order *)
Record order := Order {
  ranges : list range;
  coverage : list bool;   (** the shared [Uint8Array] of resident units *)
  seen : list bool;
  active : nat;
  cursor : Z
}.

(** Reading past the end of a typed array gives [undefined], which is falsy. *)
Definition bit (l : list bool) (i : Z) : bool :=
  if i <? 0 then false else default false (l !! Z.to_nat i).

Definition new_order (ranges : list range) (coverage : list bool) : order :=
  Order ranges coverage (replicate (length coverage) false) 0
    (match ranges with [] => 0 | r :: _ => r.1 end).

(** The cursor left behind by [unit] in the range [(start,end)]. *)
Definition advance (r : range) (unit : Z) : Z :=
  if unit =? r.2 then r.1 else unit + 1.

Definition in_range (unit : Z) (r : range) : bool :=
  (r.1 <=? unit) && (unit <=? r.2).

(** [ranges.findIndex(([start,end])=>unit>=start && unit<=end)]. *)
Fixpoint find_range (rs : list range) (unit : Z) (index : nat) : option (nat * range) :=
  match rs with
  | [] => None
  | r :: rs => if in_range unit r then Some (index, r) else find_range rs unit (S index)
  end.

Definition observe_unit (o : order) (unit : Z) : order :=
  if bit (seen o) unit then o else
  let seen' := <[Z.to_nat unit := true]> (seen o) in
  match find_range (ranges o) unit 0 with
  | None => Order (ranges o) (coverage o) seen' (active o) (cursor o)
  | Some (index, r) => Order (ranges o) (coverage o) seen' index (advance r unit)
  end.

(** [observe] is called for guest reads: [offset] and [length] are not negative. *)
Definition observe (o : order) (offset length_ : Z) : order :=
  let first := offset / UNIT in
  let last := Z.min (Z.of_nat (length (seen o)) - 1) ((offset + length_ - 1) / UNIT) in
  foldl observe_unit o (zrange first (Z.to_nat (last - first + 1))).

(** The inner [for] of [scan]: the first uncovered unit met from [cursor],
    wrapping around at the end of the range. *)
Fixpoint scan_loop (cov : list bool) (r : range) (cursor : Z) (n : Z) (todo : nat) :
    option Z :=
  match todo with
  | O => None
  | S todo =>
      let unit := r.1 + (cursor - r.1 + n) mod (r.2 - r.1 + 1) in
      if bit cov unit then scan_loop cov r cursor (n + 1) todo else Some unit
  end.

Definition scan (o : order) (index : nat) (cursor : Z) : option (Z * order) :=
  match ranges o !! index with
  | None => None
  | Some r =>
      unit ← scan_loop (coverage o) r cursor 0 (Z.to_nat (r.2 - r.1 + 1));
      Some (unit, Order (ranges o) (coverage o) (seen o) index (advance r unit))
  end.

(** The loop over all ranges, in order of first use. *)
Fixpoint scan_all (o : order) (rs : list range) (index : nat) : option (Z * order) :=
  match rs with
  | [] => None
  | r :: rs =>
      match scan o index r.1 with
      | Some res => Some res
      | None => scan_all o rs (S index)
      end
  end.

(** [next]: [None] is the result [-1]. *)
Definition next (o : order) : option (Z * order) :=
  match (if bool_decide (ranges o = []) then None else scan o (active o) (cursor o)) with
  | Some res => Some res
  | None => scan_all o (ranges o) 0
  end.

(** The transport downloads [unit] and sets its byte of [coverage]. *)
Definition mark (o : order) (unit : Z) : order :=
  Order (ranges o) (<[Z.to_nat unit := true]> (coverage o)) (seen o) (active o) (cursor o).

(** The consumer's loop: ask for a unit, download it, repeat. *)
Fixpoint drain (fuel : nat) (o : order) : list Z * order :=
  match fuel with
  | O => ([], o)
  | S fuel =>
      match next o with
      | None => ([], o)
      | Some (unit, o') =>
          let '(l, o'') := drain fuel (mark o' unit) in (unit :: l, o'')
      end
  end.

Definition range_units (r : range) : list Z := zrange r.1 (Z.to_nat (r.2 - r.1 + 1)).

(** [stats()]: the ranges, their units, and how many of these are resident. *)
Definition stats (o : order) : Z * Z * Z :=
  (Z.of_nat (length (ranges o)),
   sum_list_Z ((λ r, Z.of_nat (length (range_units r))) <$> ranges o),
   sum_list_Z ((λ r, sum_list_Z ((λ u, if bit (coverage o) u then 1 else 0) <$> range_units r))
     <$> ranges o)).

(** ** Validated ranges *)
Definition valid_range (units : Z) (r : range) : Prop :=
  0 ≤ r.1 ≤ r.2 ∧ r.2 < units ∧ r.2 ≤ MAX_SAFE_INTEGER.

Definition apart (r s : range) : Prop := r.2 < s.1 ∨ s.2 < r.1.

(** Pairwise disjoint, in any order. *)
Definition disjoint_ranges (rs : list range) : Prop := ForallOrdPairs apart rs.

(** The JSON value of a slot. *)
Definition slot_of (o : option range) : jsval :=
  match o with
  | None => JNull
  | Some (a, b) => JArr [JNum (NInt a); JNum (NInt b)]
  end.

Lemma apart_sym r s : apart r s → apart s r.
Proof. unfold apart. lia. Qed.

Lemma disjoint_ranges_perm rs1 rs2 :
  rs1 ≡ₚ rs2 → disjoint_ranges rs1 → disjoint_ranges rs2.
Proof. apply ForallOrdPairs_perm, apart_sym. Qed.

Lemma no_overlap_sorted units rs :
  Forall (valid_range units) rs → key_sorted fst rs →
  some_overlap rs = false ↔ disjoint_ranges rs.
Proof.
  intros Hv Hs. induction Hs as [|r rs Hs IH Hr]; [split; [constructor|done]|].
  inversion_clear Hv as [|?? Hvr Hvs]. specialize (IH Hvs).
  destruct rs as [|s rs].
  { split; [repeat constructor|done]. }
  cbn [some_overlap]. rewrite orb_false_iff, IH. unfold disjoint_ranges. split.
  - intros [H1 H2]. bools. constructor; [|done]. constructor; [left; lia|].
    apply StronglySorted_inv in Hs as [_ Hs].
    eapply Forall_impl; [exact Hs|]. intros x Hx. cbn in Hx. left. lia.
  - inversion_clear 1 as [|?? H1 H2]. split; [|done].
    apply Forall_cons in H1 as [[H1|H1] _]; [by apply Z.leb_gt|].
    apply Forall_cons in Hr as [Hr _]. apply Forall_cons in Hvs as [Hvs _].
    cbn in Hr. unfold valid_range in *. lia.
Qed.

Lemma check_range_spec units v o :
  check_range units v = Some o ↔
  v = slot_of o ∧ (∀ r, o = Some r → valid_range units r).
Proof.
  split.
  - destruct v as [| | | | |l|]; cbn; try discriminate.
    { intros [= <-]. naive_solver. }
    destruct l as [|a [|b [|? ?]]]; try discriminate.
    destruct (as_safe_integer a) as [za|] eqn:Ea; [|discriminate].
    destruct (as_safe_integer b) as [zb|] eqn:Eb; [|discriminate].
    apply as_safe_integer_Some in Ea as [-> Ha], Eb as [-> Hb].
    destruct (_ || _) eqn:E; [discriminate|]. intros [= <-]. bools.
    split; [done|]. intros r [= <-]. unfold is_safe in Hb. bools.
    unfold valid_range; cbn; lia.
  - intros [-> H]. destruct o as [[a b]|]; [|done].
    destruct (H _ eq_refl) as (? & ? & ?); cbn in *.
    assert (Ha : is_safe a = true) by (unfold is_safe, MAX_SAFE_INTEGER in *; lia).
    assert (Hb : is_safe b = true) by (unfold is_safe, MAX_SAFE_INTEGER in *; lia).
    rewrite Ha, Hb. destruct (_ || _) eqn:E; [lia|done].
Qed.

Lemma collect_ranges_spec units l rs :
  collect_ranges units l = Some rs ↔
  ∃ slots, l = slot_of <$> slots ∧ rs = omap id slots ∧ Forall (valid_range units) rs.
Proof.
  revert rs. induction l as [|v l IH]; intros rs; cbn.
  - split; [intros [= <-]; by exists []|]. intros (slots & E & -> & _).
    by destruct slots.
  - split.
    + destruct (check_range units v) as [o|] eqn:Ev; [|discriminate].
      apply check_range_spec in Ev as [-> Ho].
      destruct (collect_ranges units l) as [rs'|]; [|discriminate].
      destruct (proj1 (IH rs') eq_refl) as (slots & -> & -> & Hv).
      intros [= <-]. exists (o :: slots).
      destruct o as [r|]; cbn; (split; [done|]); split; auto.
    + intros (slots & E & -> & Hv). destruct slots as [|o slots]; [done|].
      injection E as -> ->.
      rewrite (proj2 (check_range_spec units (slot_of o) o)).
      2:{ split; [done|]. intros r ->. cbn in Hv. by apply Forall_cons in Hv as [? _]. }
      rewrite (proj2 (IH (omap id slots))).
      * by destruct o.
      * exists slots. split; [done|]. split; [done|].
        destruct o; cbn in Hv; [by apply Forall_cons in Hv as [_ ?] | done].
Qed.

(** ** Correctness of the validation *)

Lemma matchingRanges_iff profile infoHash units rs :
  matchingRanges profile infoHash units = Some rs ↔
  profile_header_ok profile infoHash = true ∧
  ∃ slots : list (option range),
    get profile "ranges" = JArr (slot_of <$> slots) ∧
    Z.of_nat (length slots) = RANGE_SLOTS ∧
    rs = omap id slots ∧
    Forall (valid_range units) rs ∧
    disjoint_ranges rs.
Proof.
  unfold matchingRanges. destruct (profile_header_ok profile infoHash); cbn.
  2:{ split; [done|]. by intros [??]. }
  assert (Hov : ∀ rs, Forall (valid_range units) rs →
    some_overlap (sort_on fst rs) = false ↔ disjoint_ranges rs).
  { intros rs' Hv. rewrite (no_overlap_sorted units).
    - split; apply disjoint_ranges_perm; [|symmetry]; apply sort_on_perm.
    - by rewrite sort_on_perm.
    - apply sort_on_sorted. }
  split.
  - destruct (get profile "ranges") as [| | | | |l|]; try discriminate.
    destruct (_ =? _) eqn:El; [|discriminate]. bools. cbn.
    destruct (collect_ranges units l) as [rs'|] eqn:Ec; [|discriminate]. cbn.
    destruct (some_overlap _) eqn:Eo; [discriminate|]. intros [= ->].
    apply collect_ranges_spec in Ec as (slots & -> & -> & Hv).
    rewrite length_fmap in El. split; [done|]. exists slots.
    split_and!; try done. by apply Hov.
  - intros (_ & slots & -> & El & -> & Hv & Hd).
    rewrite length_fmap, El. cbn.
    rewrite (proj2 (collect_ranges_spec units _ (omap id slots))) by eauto. cbn.
    by rewrite (proj2 (Hov _ Hv) Hd).
Qed.

(** [matchingRanges] accepts exactly the profiles whose header matches, whose
    [ranges] array has the 32 slots, each [null] or a pair of safe integers
    with [0 <= a <= b < units], no two of them overlapping; the result is the
    list of the occupied slots in their stored order. *)
Theorem matchingRanges_spec profile infoHash units rs :
  matchingRanges profile infoHash units = Some rs ↔
  profile_header_ok profile infoHash = true ∧
  ∃ slots : list (option range),
    get profile "ranges" = JArr (slot_of <$> slots) ∧
    Z.of_nat (length slots) = RANGE_SLOTS ∧
    rs = omap id slots ∧
    Forall (valid_range units) rs ∧
    disjoint_ranges rs.
Proof. exact (matchingRanges_iff profile infoHash units rs). Qed.

(** ** Correctness of the order *)

(** [u] is a unit of some range that is not resident yet. *)
Definition missing (o : order) (u : Z) : Prop :=
  (∃ r, r ∈ ranges o ∧ in_range u r = true) ∧ bit (coverage o) u = false.

(** The invariant of the class: the ranges lie on the disk and the cursor points
    into the active one. *)
Record wf (o : order) : Prop := {
  wf_ranges : Forall (λ r, 0 ≤ r.1 ≤ r.2 ∧ r.2 < Z.of_nat (length (coverage o))) (ranges o);
  wf_cursor : ranges o ≠ [] → ∃ r, ranges o !! active o = Some r ∧ in_range (cursor o) r = true
}.

Lemma advance_in_range r u : in_range u r = true → in_range (advance r u) r = true.
Proof. unfold in_range, advance. intros ?. bools. destruct (u =? r.2) eqn:E; bools; lia. Qed.

Lemma scan_loop_Some cov r cur n todo u :
  0 ≤ r.1 ≤ r.2 → scan_loop cov r cur n todo = Some u →
  in_range u r = true ∧ bit cov u = false.
Proof.
  intros Hr. revert n. induction todo as [|todo IH]; intros n; cbn; [done|].
  destruct (bit cov (_ + _)) eqn:E; [apply IH|]. intros [= <-]. split; [|done].
  pose proof (Z.mod_pos_bound (cur - r.1 + n) (r.2 - r.1 + 1) ltac:(lia)).
  unfold in_range. lia.
Qed.

Lemma scan_loop_None cov r cur n todo :
  scan_loop cov r cur n todo = None →
  ∀ k, n ≤ k < n + Z.of_nat todo →
    bit cov (r.1 + (cur - r.1 + k) mod (r.2 - r.1 + 1)) = true.
Proof.
  revert n. induction todo as [|todo IH]; intros n; cbn; [lia|].
  destruct (bit cov (_ + _)) eqn:E; [|done]. intros H k Hk.
  destruct (decide (k = n)) as [->|]; [done|]. apply (IH (n + 1)); [done|lia].
Qed.

(** A failed scan has looked at every unit of its range. *)
Lemma scan_loop_complete cov r cur u :
  in_range u r = true → in_range cur r = true →
  scan_loop cov r cur 0 (Z.to_nat (r.2 - r.1 + 1)) = None → bit cov u = true.
Proof.
  unfold in_range. intros Hu Hc H. bools.
  pose proof (scan_loop_None _ _ _ _ _ H ((u - cur) mod (r.2 - r.1 + 1))) as Hk.
  pose proof (Z.mod_pos_bound (u - cur) (r.2 - r.1 + 1) ltac:(lia)).
  rewrite Zplus_mod_idemp_r in Hk.
  replace (cur - r.1 + (u - cur)) with (u - r.1) in Hk by lia.
  rewrite (Z.mod_small (u - r.1)) in Hk by lia.
  replace (r.1 + (u - r.1)) with u in Hk by lia. apply Hk. lia.
Qed.

Lemma scan_Some o index cur u o' :
  wf o → scan o index cur = Some (u, o') →
  missing o u ∧ wf o' ∧ ranges o' = ranges o ∧ coverage o' = coverage o.
Proof.
  intros [Hr Hc]. unfold scan. destruct (ranges o !! index) as [r|] eqn:Ei; [|done].
  destruct (scan_loop _ _ _ _ _) as [v|] eqn:Es; [|done]. cbn. intros [= <- <-].
  pose proof (list_elem_of_lookup_2 _ _ _ Ei) as Hin.
  pose proof (proj1 (Forall_forall _ _) Hr _ Hin) as Hv. cbn in Hv.
  apply scan_loop_Some in Es as [Hu Hb]; [|lia].
  split; [by split; [exists r|]|]. split; [|done].
  split; cbn; [done|]. intros _. exists r. split; [done|]. by apply advance_in_range.
Qed.

Lemma scan_None o index cur r u :
  ranges o !! index = Some r → in_range cur r = true → in_range u r = true →
  scan o index cur = None → bit (coverage o) u = true.
Proof.
  intros Ei Hc Hu. unfold scan. rewrite Ei.
  destruct (scan_loop (coverage o) r cur 0 _) eqn:Es; [discriminate|]. intros _.
  exact (scan_loop_complete _ _ _ _ Hu Hc Es).
Qed.

Lemma scan_all_Some o rs index u o' :
  wf o → scan_all o rs index = Some (u, o') →
  missing o u ∧ wf o' ∧ ranges o' = ranges o ∧ coverage o' = coverage o.
Proof.
  intros Hwf. revert index. induction rs as [|r rs IH]; intros index; cbn; [done|].
  destruct (scan o index r.1) as [[v o2]|] eqn:Es; [|apply IH].
  intros [= <- <-]. eapply scan_Some; eauto.
Qed.

Lemma scan_all_None o rs index r u :
  wf o → (∀ i r, rs !! i = Some r → ranges o !! (index + i)%nat = Some r) →
  scan_all o rs index = None → r ∈ rs → in_range u r = true →
  bit (coverage o) u = true.
Proof.
  intros Hwf. revert index. induction rs as [|s rs IH]; intros index Hix; cbn;
    [by intros _ ?%elem_of_nil|].
  destruct (scan o index s.1) as [[? ?]|] eqn:Es; [done|].
  intros Ha [->|Hin]%elem_of_cons Hu.
  - assert (Hs : ranges o !! index = Some s).
    { specialize (Hix 0%nat s eq_refl). by rewrite Nat.add_0_r in Hix. }
    refine (scan_None _ _ _ _ _ Hs _ Hu Es).
    unfold in_range. pose proof (list_elem_of_lookup_2 _ _ _ Hs) as Hin.
    pose proof (proj1 (Forall_forall _ _) (wf_ranges _ Hwf) _ Hin) as Hv. cbn in Hv. lia.
  - eapply (IH (S index)); eauto. intros i r' Hi. specialize (Hix (S i) r' Hi).
    by replace (S index + i)%nat with (index + S i)%nat by lia.
Qed.

Lemma next_Some o u o' :
  wf o → next o = Some (u, o') →
  missing o u ∧ wf o' ∧ ranges o' = ranges o ∧ coverage o' = coverage o.
Proof.
  intros Hwf. unfold next. case_bool_decide.
  - by apply scan_all_Some.
  - destruct (scan o _ _) as [[? ?]|] eqn:Es; [|by apply scan_all_Some].
    intros [= <- <-]. eapply scan_Some; eauto.
Qed.

Lemma next_None o u : wf o → next o = None → ¬ missing o u.
Proof.
  intros Hwf Hn ((r & Hin & Hu) & Hb).
  assert (Ha : scan_all o (ranges o) 0 = None).
  { revert Hn. unfold next. case_bool_decide; [done|].
    by destruct (scan o _ _). }
  pose proof (scan_all_None o (ranges o) 0 r u Hwf (λ _ _ H, H) Ha Hin Hu). congruence.
Qed.

Lemma bit_mark l u v :
  0 ≤ u < Z.of_nat (length l) →
  bit (<[Z.to_nat u := true]> l) v = if bool_decide (u = v) then true else bit l v.
Proof.
  intros Hu. unfold bit. destruct (v <? 0) eqn:E; bools.
  - case_bool_decide; [lia|done].
  - case_bool_decide as Huv.
    + subst v. by rewrite list_lookup_insert_eq by lia.
    + by rewrite list_lookup_insert_ne by lia.
Qed.

Lemma missing_bound o u : wf o → missing o u → 0 ≤ u < Z.of_nat (length (coverage o)).
Proof.
  intros Hwf ((r & Hin & Hu) & _).
  pose proof (proj1 (Forall_forall _ _) (wf_ranges _ Hwf) _ Hin) as Hv. cbn in Hv.
  unfold in_range in Hu. bools. lia.
Qed.

Lemma mark_missing o u v :
  wf o → missing o u → missing (mark o u) v ↔ missing o v ∧ v ≠ u.
Proof.
  intros Hwf Hm. pose proof (missing_bound _ _ Hwf Hm). unfold missing, mark; cbn.
  rewrite bit_mark by done. case_bool_decide; naive_solver.
Qed.

Lemma mark_wf o u : wf o → wf (mark o u).
Proof. intros [Hr Hc]. split; cbn; [by rewrite length_insert|done]. Qed.

Lemma drain_spec fuel o l o' :
  wf o → drain fuel o = (l, o') →
  NoDup l ∧ wf o' ∧ ranges o' = ranges o ∧
  (∀ u, u ∈ l → missing o u) ∧
  (∀ u, missing o' u ↔ missing o u ∧ u ∉ l) ∧
  (length l < fuel → next o' = None)%nat.
Proof.
  revert o l o'. induction fuel as [|fuel IH]; intros o l o' Hwf; cbn.
  { intros [= <- <-]. split_and!; try done; [constructor|set_solver|set_solver|lia]. }
  destruct (next o) as [[u o1]|] eqn:En.
  2:{ intros [= <- <-]. split_and!; try done; [constructor|set_solver|set_solver]. }
  destruct (next_Some _ _ _ Hwf En) as (Hm & Hwf1 & Hr1 & Hc1).
  assert (Hm1 : ∀ v, missing o1 v ↔ missing o v).
  { intros v. unfold missing. by rewrite Hr1, Hc1. }
  destruct (drain fuel (mark o1 u)) as [l' o2] eqn:Ed. intros [= <- <-].
  destruct (IH _ _ _ (mark_wf _ u Hwf1) Ed) as (Hnd & Hwf2 & Hr2 & Hl & Hm2 & Hend).
  assert (Hmu : ∀ v, missing (mark o1 u) v ↔ missing o v ∧ v ≠ u).
  { intros v. rewrite mark_missing by (done || by apply Hm1). by rewrite Hm1. }
  split_and!.
  - constructor; [|done]. intros Hin%Hl%Hmu. by destruct Hin.
  - done.
  - rewrite Hr2. cbn. done.
  - intros v [->|Hin]%elem_of_cons; [done|]. by apply Hl, Hmu in Hin as [? _].
  - intros v. rewrite Hm2, Hmu, not_elem_of_cons. tauto.
  - cbn. intros. apply Hend. lia.
Qed.

Lemma new_order_wf rs cov :
  Forall (λ r, 0 ≤ r.1 ≤ r.2 ∧ r.2 < Z.of_nat (length cov)) rs → wf (new_order rs cov).
Proof.
  intros H. split; cbn; [done|]. destruct rs as [|r rs]; [done|]. intros _.
  exists r. split; [done|]. apply Forall_cons in H as [? _]. unfold in_range. lia.
Qed.

Lemma find_range_Some rs u i j r :
  find_range rs u i = Some (j, r) →
  (∃ k, j = (i + k)%nat ∧ rs !! k = Some r) ∧ in_range u r = true.
Proof.
  revert i. induction rs as [|s rs IH]; intros i; cbn; [done|].
  destruct (in_range u s) eqn:E.
  - intros [= <- <-]. split; [|done]. exists 0%nat. by rewrite Nat.add_0_r.
  - intros (( k & -> & ?) & ?)%IH. split; [|done]. exists (S k). split; [lia|done].
Qed.

Lemma observe_unit_wf o u : wf o → wf (observe_unit o u).
Proof.
  intros [Hr Hc]. unfold observe_unit. destruct (bit (seen o) u); [by split|].
  destruct (find_range _ _ _) as [[i r]|] eqn:E; split; cbn; try done.
  apply find_range_Some in E as [(k & -> & Hk) Hu]. intros _. exists r.
  split; [done|]. by apply advance_in_range.
Qed.

Lemma observe_wf o off len : wf o → wf (observe o off len).
Proof.
  unfold observe. generalize (zrange (off / UNIT)
    (Z.to_nat (Z.min (Z.of_nat (length (seen o)) - 1) ((off + len - 1) / UNIT) - off / UNIT + 1))).
  intros l. revert o. induction l as [|u l IH]; intros o Hwf; cbn; [done|].
  by apply IH, observe_unit_wf.
Qed.

Lemma observe_fixed o off len :
  ranges (observe o off len) = ranges o ∧ coverage (observe o off len) = coverage o.
Proof.
  unfold observe. generalize (zrange (off / UNIT)
    (Z.to_nat (Z.min (Z.of_nat (length (seen o)) - 1) ((off + len - 1) / UNIT) - off / UNIT + 1))).
  intros l. revert o. induction l as [|u l IH]; intros o; cbn; [done|].
  destruct (IH (observe_unit o u)) as [-> ->]. unfold observe_unit.
  destruct (bit _ _); [done|]. by destruct (find_range _ _ _) as [[? ?]|].
Qed.

(** The state after a sequence of guest reads. *)
Definition observe_all (o : order) (reads : list (Z * Z)) : order :=
  foldl (λ o r, observe o r.1 r.2) o reads.

Lemma observe_all_spec o reads :
  wf o → wf (observe_all o reads) ∧
  ranges (observe_all o reads) = ranges o ∧ coverage (observe_all o reads) = coverage o.
Proof.
  revert o. induction reads as [|[a b] l IH]; intros o Hwf; [done|].
  destruct (IH (observe o a b) (observe_wf _ _ _ Hwf)) as (? & Hr & Hc).
  destruct (observe_fixed o a b) as [Hr' Hc'].
  unfold observe_all in *. cbn. split; [done|]. split; congruence.
Qed.

Lemma missing_length o l :
  wf o → NoDup l → (∀ u, u ∈ l → missing o u) → (length l ≤ length (coverage o))%nat.
Proof.
  intros Hwf Hnd Hl. rewrite <- (length_zrange 0 (length (coverage o))).
  apply submseteq_length, NoDup_submseteq; [done|]. intros u Hu.
  apply elem_of_zrange. pose proof (missing_bound _ _ Hwf (Hl _ Hu)). lia.
Qed.

(** Whatever the guest has read before, the loop that asks [next] for a unit
    and downloads it ends; it visits every non-resident unit of the ranges
    exactly once, no other unit, and then [next] answers [-1]. *)
Theorem drain_complete (rs : list range) (cov : list bool) (reads : list (Z * Z)) l o' :
  Forall (λ r, 0 ≤ r.1 ≤ r.2 ∧ r.2 < Z.of_nat (length cov)) rs →
  drain (S (length cov)) (observe_all (new_order rs cov) reads) = (l, o') →
  NoDup l ∧
  (∀ u, u ∈ l ↔ (∃ r, r ∈ rs ∧ in_range u r = true) ∧ bit cov u = false) ∧
  next o' = None.
Proof.
  intros Hrs Hd. pose proof (new_order_wf rs cov Hrs) as Hwf0.
  destruct (observe_all_spec _ reads Hwf0) as (Hwf & Hr & Hc).
  destruct (drain_spec _ _ _ _ Hwf Hd) as (Hnd & Hwf' & _ & Hl & Hm & Hend).
  assert (Hn : next o' = None).
  { apply Hend. pose proof (missing_length _ _ Hwf Hnd Hl) as Hlen.
    rewrite Hc in Hlen. cbn in Hlen. lia. }
  assert (Hspec : ∀ u, missing (observe_all (new_order rs cov) reads) u ↔
    (∃ r, r ∈ rs ∧ in_range u r = true) ∧ bit cov u = false).
  { intros u. unfold missing. by rewrite Hr, Hc. }
  split; [done|]. split; [|done]. intros u. rewrite <- Hspec. split; [apply Hl|].
  intros Hu. destruct (decide (u ∈ l)) as [|Hni]; [done|]. exfalso.
  by apply (next_None o' u); [| |apply Hm].
Qed.

Lemma drain_complete_witness :
  drain 7 (observe_all (new_order [(3, 5); (0, 1)] [false; false; false; false; true; false])
             [(65536, 1)]) =
    ([0; 1; 3; 5], snd (drain 7 (observe_all (new_order [(3, 5); (0, 1)]
        [false; false; false; false; true; false]) [(65536, 1)]))) ∧
  NoDup [0; 1; 3; 5].
Proof.
  split; [vm_compute; reflexivity|].
  refine (proj1 (drain_complete [(3, 5); (0, 1)] [false; false; false; false; true; false]
    [(65536, 1)] _ _ _ _)).
  - repeat constructor; cbn; lia.
  - vm_compute. reflexivity.
Defined.
