(* ===== verification/LoadProfiles.v ===== *)
(** * Load profiles (src/src/disk/web/load-profiles.js)

    A published disk may carry up to two load profiles: one for booting it and
    one for resuming a saved state.  [validateLoadProfiles] is the gate every
    downloaded document passes before its ranges steer any prefetch. *)
From S2P Require Import Prelude JsValue RangePrefetch.
From Stdlib Require Import QArith.
#[local] Open Scope Z_scope.

Definition sameOrigin (a b : jsval) : bool :=
  strict_eq (get a "kind") (get b "kind") &&
  (is_str (get a "kind") "boot" || strict_eq (get a "sha256") (get b "sha256")).

Definition invalid {A} : result A := throw "INVALID_PROFILE" "Invalid load profiles.".

Definition header_ok (p infoHash : jsval) : bool :=
  truthy p && is_int (get p "version") 2 && strict_eq (get p "infoHash") infoHash &&
  is_int (get p "unitBytes") 65536 && truthy (get p "origin").

(** [['boot','state'].includes(p.origin.kind)]: the kind, when it is one. *)
Definition origin_kind (p : jsval) : option string :=
  k ← as_string (get (get p "origin") "kind");
  if bool_decide (k = "boot"%string) || bool_decide (k = "state"%string) then Some k else None.

Definition origin_sha_ok (p : jsval) (kind : string) : bool :=
  let sha256 := get (get p "origin") "sha256" in
  negb (bool_decide (kind = "state"%string) && negb (hex_test 64 sha256)) &&
  negb (bool_decide (kind = "boot"%string) && negb (is_undefined sha256)).

Definition utilization_ok (p : jsval) : bool :=
  let v := get p "minUtilization" in
  is_undefined v ||
  match as_finite v with
  | Some q => negb (Qle_bool q 0) && Qle_bool q 1
  | None => false
  end.

Definition count_ok (p : jsval) (units : Z) (key : string) : bool :=
  let v := get p key in
  is_undefined v ||
  match as_safe_integer v with
  | Some z => (0 <=? z) && (z <=? units)
  | None => false
  end.

(** One iteration of the loop: the new set [kinds]. *)
Definition check_profile (infoHash : jsval) (units : Z) (kinds : list string) (p : jsval) :
    result (list string) :=
  if negb (header_ok p infoHash) then invalid else
  match origin_kind p with
  | None => invalid
  | Some kind =>
      if bool_decide (kind ∈ kinds) then invalid else
      if negb (hex_test 40 (get p "infoHash")) then invalid else
      if negb (origin_sha_ok p kind) then invalid else
      match matchingRanges (set_field p "version" (JNum (NInt 1))) infoHash units with
      | None => invalid
      | Some _ =>
          if negb (utilization_ok p) then invalid else
          if negb (forallb (count_ok p units)
                     ["observedUnits"; "coveredUnits"; "downloadUnits"]%string)
          then invalid else Ok (kinds ++ [kind])
      end
  end.

Fixpoint check_profiles (infoHash : jsval) (units : Z) (kinds : list string)
    (l : list jsval) : result (list string) :=
  match l with
  | [] => Ok kinds
  | p :: l =>
      kinds ← check_profile infoHash units kinds p;
      check_profiles infoHash units kinds l
  end.

Definition validateLoadProfiles (value infoHash : jsval) (units : Z) : result jsval :=
  match as_array value with
  | None => invalid
  | Some l =>
      if 2 <? Z.of_nat (length l) then invalid else
      _ ← check_profiles infoHash units [] l;
      Ok value
  end.

(** ** What an accepted document is *)

(** The fields of a profile of kind [kind] with the given range slots. *)
Record valid_profile (h : string) (units : Z) (p : jsval) (kind : string)
    (slots : list (option range)) : Prop := {
  vp_version : get p "version" = JNum (NInt 2);
  vp_infoHash : get p "infoHash" = JStr h;
  vp_hex : hex_string 40 h = true;
  vp_unit : get p "unitBytes" = JNum (NInt UNIT);
  vp_origin : truthy (get p "origin") = true;
  vp_kind : get (get p "origin") "kind" = JStr kind;
  vp_sha : (kind = "boot"%string ∧ get (get p "origin") "sha256" = JUndefined) ∨
           (kind = "state"%string ∧ hex_test 64 (get (get p "origin") "sha256") = true);
  vp_slots : get p "ranges" = JArr (slot_of <$> slots);
  vp_length : Z.of_nat (length slots) = RANGE_SLOTS;
  vp_bounds : Forall (valid_range units) (omap id slots);
  vp_disjoint : disjoint_ranges (omap id slots);
  vp_utilization : utilization_ok p = true;
  vp_counts : Forall (λ key, count_ok p units key = true)
                ["observedUnits"; "coveredUnits"; "downloadUnits"]%string
}.

Lemma strict_eq_str v s : strict_eq v (JStr s) = true ↔ v = JStr s.
Proof.
  destruct v as [| | |[]| | |]; cbn; try (split; congruence).
  rewrite bool_decide_eq_true. split; congruence.
Qed.

Lemma truthy_version p x : truthy p = true → truthy (set_field p "version" x) = true.
Proof. by destruct p. Qed.

(** The guards of one iteration, together with the kind they establish. *)
Lemma check_profile_spec h units kinds p kinds' :
  check_profile (JStr h) units kinds p = Ok kinds' ↔
  ∃ kind slots, valid_profile h units p kind slots ∧ kind ∉ kinds ∧ kinds' = kinds ++ [kind].
Proof.
  unfold check_profile. split.
  - intros H. destruct (header_ok p (JStr h)) eqn:Eh; [cbn in H|done].
    unfold header_ok in Eh. bools. rewrite is_int_true in *.
    rewrite strict_eq_str in *.
    destruct (origin_kind p) as [kind|] eqn:Ek; [|done].
    case_bool_decide as Hin; [done|].
    destruct (hex_test 40 _) eqn:E40; [cbn in H|done].
    destruct (origin_sha_ok p kind) eqn:Esha; [cbn in H|done].
    destruct (matchingRanges _ _ _) as [rs|] eqn:Em; [|done].
    destruct (utilization_ok p) eqn:Eu; [cbn in H|done].
    destruct (count_ok p units "observedUnits") eqn:Ec1; [|done].
    destruct (count_ok p units "coveredUnits") eqn:Ec2; [|done].
    destruct (count_ok p units "downloadUnits") eqn:Ec3; [|done]. cbn in H. inv_result.
    apply matchingRanges_iff in Em as (_ & slots & Hs & Hlen & -> & Hv & Hd).
    rewrite get_set_field_ne in Hs by done.
    unfold origin_kind in Ek. destruct (get (get p "origin") "kind") as [| | | |k| |] eqn:Eo; try done.
    cbn in Ek. destruct (_ || _) eqn:Ek2; [|done]. injection Ek as ->.
    unfold origin_sha_ok in Esha. exists kind, slots. split; [|done]. assert (Hi : get p "infoHash" = JStr h) by done.
    rewrite Hi in E40. split; try done.
    + apply orb_true_iff in Ek2 as [E|E];
        apply bool_decide_eq_true in E as ->; cbn in Esha.
      * left. split; [done|]. by destruct (get _ "sha256").
      * right. split; [done|]. by destruct (hex_test 64 _).
    + by repeat constructor.
  - intros (kind & slots & [] & Hni & ->).
    assert (Hh : header_ok p (JStr h) = true).
    { unfold header_ok. rewrite vp_version0, vp_infoHash0, vp_unit0, vp_origin0. cbn.
      rewrite bool_decide_true by done. by destruct p. }
    rewrite Hh. cbn. unfold origin_kind. rewrite vp_kind0. cbn.
    replace (bool_decide (kind = "boot"%string) || bool_decide (kind = "state"%string)) with true
      by (destruct vp_sha0 as [[-> _]|[-> _]]; done).
    rewrite bool_decide_false by done. rewrite vp_infoHash0. cbn. rewrite vp_hex0.
    replace (origin_sha_ok p kind) with true.
    2:{ unfold origin_sha_ok. destruct vp_sha0 as [[-> ->]|[-> ->]]; done. }
    cbn. rewrite (proj2 (matchingRanges_iff _ _ _ (omap id slots))).
    + apply Forall_cons in vp_counts0 as [-> [-> [-> _]%Forall_cons]%Forall_cons].
      by rewrite vp_utilization0.
    + split.
      * unfold profile_header_ok. rewrite get_set_field_eq, !get_set_field_ne by done.
        rewrite vp_infoHash0, vp_unit0. cbn. rewrite (bool_decide_false (h = ""%string)) by (by intros ->).
        rewrite bool_decide_true by done. by destruct p.
      * exists slots. rewrite get_set_field_ne by done. done.
Qed.

Lemma check_profiles_spec h units l kinds kinds' :
  check_profiles (JStr h) units kinds l = Ok kinds' ↔
  ∃ new, kinds' = kinds ++ new ∧ NoDup new ∧ (∀ k, k ∈ new → k ∉ kinds) ∧
    Forall2 (λ p k, ∃ slots, valid_profile h units p k slots) l new.
Proof.
  revert kinds. induction l as [|p l IH]; intros kinds; cbn.
  { split.
    - intros [= <-]. exists []. rewrite app_nil_r. split_and!; try done; try constructor. set_solver.
    - intros (new & -> & _ & _ & Hf). apply Forall2_nil_inv_l in Hf as ->. by rewrite app_nil_r. }
  split.
  - intros H. inv_bind. apply check_profile_spec in H0 as (kind & slots & Hv & Hni & ->).
    apply IH in H as (new & -> & Hnd & Hk & Hf). exists (kind :: new).
    rewrite <- app_assoc. cbn. split_and!; try done.
    + constructor; [|done]. intros Hin. apply (Hk _ Hin). set_solver.
    + intros k [->|Hin]%elem_of_cons; [done|]. pose proof (Hk _ Hin). set_solver.
    + constructor; eauto.
  - intros (new & -> & Hnd & Hk & Hf). apply Forall2_cons_inv_l in Hf as (kind & new' & (slots & Hv) & Hf & ->).
    apply NoDup_cons in Hnd as [Hni Hnd].
    rewrite (proj2 (check_profile_spec h units kinds p (kinds ++ [kind]))).
    + cbn. apply IH. exists new'. rewrite <- app_assoc. cbn. split_and!; try done.
      intros k Hin. rewrite not_elem_of_app, list_elem_of_singleton. split.
      * apply Hk. by right.
      * by intros ->.
    + exists kind, slots. split_and!; try done. apply Hk. by left.
Qed.

Lemma validateLoadProfiles_iff value h units :
  match validateLoadProfiles value (JStr h) units with
  | Ok out => out = value ∧
      ∃ l kinds, value = JArr l ∧ NoDup kinds ∧
        Forall2 (λ p k, ∃ slots, valid_profile h units p k slots) l kinds
  | Throw e => exn_code e = Some "INVALID_PROFILE"%string ∧
      ¬ ∃ l kinds, value = JArr l ∧ NoDup kinds ∧
        Forall2 (λ p k, ∃ slots, valid_profile h units p k slots) l kinds
  end.
Proof.
  unfold validateLoadProfiles. destruct (as_array value) as [l|] eqn:Ea; cbn.
  2:{ split; [done|]. intros (l & ? & -> & _). done. }
  destruct value as [| | | | |l'|]; try done. injection Ea as ->.
  assert (Hkinds : ∀ kinds, NoDup kinds →
    Forall2 (λ p k, ∃ slots, valid_profile h units p k slots) l kinds → Z.of_nat (length l) ≤ 2).
  { intros kinds Hnd Hf. rewrite (Forall2_length _ _ _ Hf). apply (inj_le _ 2).
    apply (submseteq_length kinds ["boot"; "state"]%string), NoDup_submseteq; [done|].
    intros k Hk. apply list_elem_of_lookup in Hk as [i Hk].
    destruct (Forall2_lookup_r _ _ _ _ _ Hf Hk) as (p & _ & slots & []).
    destruct vp_sha0 as [[-> _]|[-> _]]; set_solver. }
  destruct (2 <? Z.of_nat (length l)) eqn:El; bools; cbn.
  { split; [done|]. intros (l' & kinds & [= <-] & Hnd & Hf). specialize (Hkinds _ Hnd Hf). lia. }
  destruct (check_profiles (JStr h) units [] l) as [kinds|e] eqn:Ec; cbn.
  - split; [done|]. exists l, kinds. apply check_profiles_spec in Ec as (new & -> & Hnd & _ & Hf). done.
  - split.
    + clear -Ec. revert Ec. generalize (@nil string). induction l as [|p l IH]; intros ks; cbn; [done|].
      destruct (check_profile (JStr h) units ks p) as [ks'|e'] eqn:E; cbn; [apply IH|].
      intros [= <-]. revert E. unfold check_profile, invalid, throw.
      repeat (case_match; try (by intros [= <-]); try done).
    + intros (l' & kinds & [= <-] & Hnd & Hf).
      rewrite (proj2 (check_profiles_spec h units l [] kinds)) in Ec; [done|].
      exists kinds. split_and!; try done. set_solver.
Qed.

(** The validator accepts exactly the arrays of at most one [boot] profile
    and at most one [state] profile of this disk (version 2, 40 hex digits of
    infohash, 64 KiB units) whose 32 range slots hold disjoint ranges below
    [units] and whose optional statistics are in range; it returns the document
    it was given.  A kind other than these two, a duplicate kind, or any other
    value throws [INVALID_PROFILE]. *)
Theorem validateLoadProfiles_spec value h units :
  match validateLoadProfiles value (JStr h) units with
  | Ok out => out = value ∧
      ∃ l kinds, value = JArr l ∧ NoDup kinds ∧
        Forall2 (λ p k, ∃ slots, valid_profile h units p k slots) l kinds
  | Throw e => exn_code e = Some "INVALID_PROFILE"%string ∧
      ¬ ∃ l kinds, value = JArr l ∧ NoDup kinds ∧
        Forall2 (λ p k, ∃ slots, valid_profile h units p k slots) l kinds
  end.
Proof. exact (validateLoadProfiles_iff value h units). Qed.
