(* ===== verification/Fenwick.v ===== *)
(** * Prefix maxima in a Fenwick tree (src/src/disk/scripts/range-profile.mjs)

    [selectBootRanges] looks for the best interval start among those whose key
    is small enough with a binary indexed tree.  The two loops over the tree
    ([at+=at&-at] and [at-=at&-at]) are modelled here for any comparison; the
    theorems relate them to the maximum over a prefix of positions. *)
From S2P Require Import Prelude.

(** [at&-at]. *)
Definition lowbit (a : Z) : Z := Z.land a (- a).

(** [tree[at]] of an [Int32Array], inside its bounds. *)
Definition cell (tree : list Z) (at_ : Z) : Z := default (-1) (tree !! Z.to_nat at_).

Section loops.
(** [wins(a,b)] of the code: [b<0] or [a] is better than [b]. *)
Context (wins : Z → Z → bool).

(** [for(let at=positions[i];at<tree.length;at+=at&-at)if(wins(i,tree[at]))tree[at]=i;] *)
Fixpoint tree_update (fuel : nat) (tree : list Z) (at_ i : Z) : list Z :=
  match fuel with
  | O => tree
  | S fuel =>
      if at_ <? Z.of_nat (length tree) then
        let tree' := if wins i (cell tree at_) then <[Z.to_nat at_ := i]> tree else tree in
        tree_update fuel tree' (at_ + lowbit at_) i
      else tree
  end.

(** [for(let at=...;at>0;at-=at&-at) if(tree[at]>=0 && wins(tree[at],start))start=tree[at];] *)
Fixpoint tree_query (fuel : nat) (tree : list Z) (at_ start : Z) : Z :=
  match fuel with
  | O => start
  | S fuel =>
      if 0 <? at_ then
        let start' := if (0 <=? cell tree at_) && wins (cell tree at_) start
                      then cell tree at_ else start in
        tree_query fuel tree (at_ - lowbit at_) start'
      else start
  end.
End loops.

(** ** The low bit *)
Lemma lowbit_double a : lowbit (2 * a) = 2 * lowbit a.
Proof.
  unfold lowbit. replace (- (2 * a)) with (2 * - a) by lia.
  apply Z.bits_inj'. intros [|n|n] Hn; [| |lia].
  - by rewrite Z.land_spec, !Z.testbit_even_0.
  - rewrite Z.land_spec. replace (Z.pos n) with (Z.succ (Z.pred (Z.pos n))) by lia.
    by rewrite !Z.testbit_even_succ, Z.land_spec by lia.
Qed.

Lemma lowbit_odd a : lowbit (2 * a + 1) = 1.
Proof.
  unfold lowbit. replace (- (2 * a + 1)) with (2 * (- a - 1) + 1) by lia.
  apply Z.bits_inj'. intros [|n|n] Hn; [| |lia].
  - by rewrite Z.land_spec, !Z.testbit_odd_0.
  - rewrite Z.land_spec. replace (Z.pos n) with (Z.succ (Z.pred (Z.pos n))) by lia.
    rewrite !Z.testbit_odd_succ by lia.
    replace (- a - 1) with (Z.lnot a) by (unfold Z.lnot; lia).
    rewrite Z.lnot_spec, andb_negb_r by lia.
    change 1 with (2 * 0 + 1). by rewrite Z.testbit_odd_succ, Z.bits_0 by lia.
Qed.

(** Every positive number is an odd multiple of its low bit, a power of two. *)
Lemma lowbit_spec a :
  0 < a → ∃ k c, 0 ≤ k ∧ 0 ≤ c ∧ a = (2 * c + 1) * 2 ^ k ∧ lowbit a = 2 ^ k.
Proof.
  intros Ha. destruct a as [|p|p]; [lia| |lia]. clear Ha.
  induction p as [p IH|p IH|].
  - exists 0, (Z.pos p). rewrite Z.pow_0_r. split_and!; [lia..|].
    change (Z.pos p~1) with (2 * Z.pos p + 1). apply lowbit_odd.
  - destruct IH as (k & c & Hk & Hc & Ha & Hl). exists (Z.succ k), c.
    change (Z.pos p~0) with (2 * Z.pos p). rewrite lowbit_double, Hl, Z.pow_succ_r by done.
    split_and!; try done; nia.
  - exists 0, 0. by split_and!.
Qed.

Lemma lowbit_bounds a : 0 < a → 1 ≤ lowbit a ≤ a.
Proof.
  intros Ha. destruct (lowbit_spec a Ha) as (k & c & Hk & Hc & -> & ->).
  pose proof (Z.pow_pos_nonneg 2 k ltac:(lia) Hk). nia.
Qed.

(** Cell [a] of the tree summarises the positions in [(a - lowbit a, a]]. *)
Definition covers (a p : Z) : Prop := a - lowbit a < p ≤ a.
#[export] Instance covers_dec a p : Decision (covers a p).
Proof. unfold covers. apply _. Defined.

(** Two low bits are comparable: one is a multiple of the other. *)
Lemma pow2_le_multiple k m : 0 ≤ m ≤ k → ∃ t, 1 ≤ t ∧ 2 ^ k = t * 2 ^ m.
Proof.
  intros. exists (2 ^ (k - m)). split.
  - pose proof (Z.pow_pos_nonneg 2 (k - m)). lia.
  - rewrite <- Z.pow_add_r by lia. f_equal. lia.
Qed.

Lemma covers_up a p : 0 < p → covers a p → a ≠ p → p + lowbit p ≤ a.
Proof.
  intros Hp [H1 H2] Hne. assert (Ha : 0 < a) by lia.
  destruct (lowbit_spec a Ha) as (k & c & Hk & Hc & Ea & La).
  destruct (lowbit_spec p Hp) as (m & d & Hm & Hd & Ep & Lp). rewrite La in H1. rewrite Lp.
  pose proof (Z.pow_pos_nonneg 2 m ltac:(lia) Hm).
  pose proof (Z.pow_pos_nonneg 2 k ltac:(lia) Hk).
  destruct (decide (m ≤ k)) as [Hmk|Hmk].
  - destruct (pow2_le_multiple k m ltac:(lia)) as (t & Ht & E). rewrite E in *.
    assert (2 * d + 1 < (2 * c + 1) * t) by nia. nia.
  - destruct (pow2_le_multiple m k ltac:(lia)) as (t & Ht & E). rewrite E in *.
    assert (2 * c < (2 * d + 1) * t < 2 * c + 1) by nia. lia.
Qed.

Lemma covers_down a p : 0 < p → covers a (p + lowbit p) → covers a p.
Proof.
  intros Hp [H1 H2]. pose proof (lowbit_bounds p Hp). split; [|lia].
  destruct (decide (a - lowbit a < p)) as [|Hn]; [done|exfalso].
  assert (Ha : 0 < a) by lia.
  destruct (lowbit_spec a Ha) as (k & c & Hk & Hc & Ea & La).
  destruct (lowbit_spec p Hp) as (m & d & Hm & Hd & Ep & Lp). rewrite La, Lp in *.
  pose proof (Z.pow_pos_nonneg 2 m ltac:(lia) Hm).
  pose proof (Z.pow_pos_nonneg 2 k ltac:(lia) Hk).
  destruct (decide (m ≤ k)) as [Hmk|Hmk].
  - destruct (pow2_le_multiple k m ltac:(lia)) as (t & Ht & E). rewrite E in *.
    assert (2 * d + 1 ≤ 2 * (c * t) < 2 * d + 2) by nia. lia.
  - destruct (pow2_le_multiple m (k + 1) ltac:(lia)) as (t & Ht & E).
    rewrite Z.pow_add_r in E by lia. change (2 ^ 1) with 2 in E. rewrite E in *.
    assert (2 * c < 4 * ((d + 1) * t) ≤ 2 * c + 1) by nia. lia.
Qed.

Lemma covers_step a p : 0 < p → covers a p ↔ a = p ∨ covers a (p + lowbit p).
Proof.
  intros Hp. pose proof (lowbit_bounds p Hp). split.
  - intros Hc. destruct (decide (a = p)) as [|Hne]; [by left|right].
    pose proof (covers_up _ _ Hp Hc Hne). destruct Hc. split; lia.
  - intros [->|Hc]; [split; lia|]. by apply covers_down.
Qed.

(** ** Best elements

    [better] is the strict part of a total preorder; ties keep the older entry. *)
Section best.
Context (better : Z → Z → bool)
  (better_irrefl : ∀ a, better a a = false)
  (better_asym : ∀ a b, better a b = true → better b a = false)
  (total : ∀ a b c, better a b = false → better b c = false → better a c = false).

(** [wins] of the code. *)
Definition wins (a b : Z) : bool := (b <? 0) || better a b.

(** [s] is a best element of [P], or [-1] when [P] is empty. *)
Definition best_of (P : Z → Prop) (s : Z) : Prop :=
  (s = -1 ∧ ∀ i, ¬ P i) ∨ (0 ≤ s ∧ P s ∧ ∀ i, P i → better i s = false).

Lemma best_of_ext P Q s : (∀ i, P i ↔ Q i) → best_of P s → best_of Q s.
Proof. unfold best_of. intros H. setoid_rewrite H. done. Qed.

(** Merging the best element of [P] with a best element of [Q]. *)
Lemma best_of_union P Q s t :
  best_of P s → best_of Q t → 
  best_of (λ i, P i ∨ Q i) (if (0 <=? t) && wins t s then t else s).
Proof.
  unfold best_of, wins. intros [[-> HP]|(Hs & HP & HPm)] [[-> HQ]|(Ht & HQ & HQm)]; cbn.
  - left. naive_solver.
  - right. replace (0 <=? t) with true by lia. cbn. naive_solver.
  - right. naive_solver.
  - right. replace (0 <=? t) with true by lia. replace (s <? 0) with false by lia. cbn.
    destruct (better t s) eqn:E.
    + split_and!; [lia|by right|]. intros i [Hi|Hi]; [|auto].
      apply (total _ s); [auto|]. by apply better_asym.
    + split_and!; [lia|by left|]. intros i [Hi|Hi]; [auto|].
      apply (total _ t); auto.
Qed.

Lemma best_of_single i : 0 ≤ i → best_of (λ j, j = i) i.
Proof. intros. right. split_and!; [done..|]. intros j ->. apply better_irrefl. Qed.

Lemma best_of_insert P s i :
  0 ≤ i → best_of P s → best_of (λ j, P j ∨ j = i) (if wins i s then i else s).
Proof.
  intros Hi HP. pose proof (best_of_union _ _ _ _ HP (best_of_single i Hi)) as H.
  by replace (0 <=? i) with true in H by lia.
Qed.

(** *** The tree

    [P] is the set of inserted indices and [pos] their positions: cell [a]
    holds a best index among those whose position it covers. *)
Definition tree_ok (pos : Z → Z) (P : Z → Prop) (tree : list Z) : Prop :=
  ∀ a, 1 ≤ a < Z.of_nat (length tree) →
    best_of (λ i, P i ∧ covers a (pos i)) (cell tree a).

Lemma cell_insert tree a b x :
  0 ≤ a < Z.of_nat (length tree) → 0 ≤ b →
  cell (<[Z.to_nat a := x]> tree) b = if bool_decide (a = b) then x else cell tree b.
Proof.
  intros Ha Hb. unfold cell. case_bool_decide as E.
  - subst b. by rewrite list_lookup_insert_eq by lia.
  - by rewrite list_lookup_insert_ne by lia.
Qed.

(** The update loop touches exactly the cells that cover its position. *)
Lemma tree_update_spec fuel tree p i :
  0 < p → (Z.to_nat (Z.of_nat (length tree) - p) < fuel)%nat →
  length (tree_update wins fuel tree p i) = length tree ∧
  ∀ a, 1 ≤ a < Z.of_nat (length tree) →
    cell (tree_update wins fuel tree p i) a =
    if bool_decide (covers a p) then (if wins i (cell tree a) then i else cell tree a)
    else cell tree a.
Proof.
  revert tree p. induction fuel as [|fuel IH]; intros tree p Hp Hf; [lia|]. cbn.
  destruct (p <? Z.of_nat (length tree)) eqn:E; bools.
  2:{ split; [done|]. intros a Ha. rewrite bool_decide_eq_false_2; [done|].
      unfold covers. lia. }
  pose proof (lowbit_bounds p Hp) as Hlb.
  set (tree' := if wins i (cell tree p) then _ else tree).
  assert (Hl : length tree' = length tree).
  { unfold tree'. destruct (wins _ _); [apply length_insert|done]. }
  destruct (IH tree' (p + lowbit p)) as [IH1 IH2]; [lia|rewrite Hl; lia|].
  split; [congruence|]. intros a Ha. rewrite IH2 by (rewrite Hl; lia).
  assert (Hc : cell tree' a = if bool_decide (a = p)
    then (if wins i (cell tree a) then i else cell tree a) else cell tree a).
  { unfold tree'. case_bool_decide; subst.
    - destruct (wins i (cell tree p)); [|done]. rewrite cell_insert by lia.
      by rewrite bool_decide_eq_true_2.
    - destruct (wins i (cell tree p)); [|done]. rewrite cell_insert by lia.
      by rewrite bool_decide_eq_false_2. }
  pose proof (covers_step a p Hp) as Hs. rewrite Hc.
  destruct (decide (a = p)) as [->|Hne].
  - rewrite (bool_decide_eq_false_2 (covers p (p + lowbit p))) by (unfold covers; lia).
    rewrite !bool_decide_eq_true_2; [done|tauto|done].
  - rewrite (bool_decide_eq_false_2 (a = p)) by done.
    by rewrite (bool_decide_ext (covers a p) (covers a (p + lowbit p))) by tauto.
Qed.

Lemma tree_update_ok pos P tree i fuel :
  tree_ok pos P tree → 0 ≤ i → 0 < pos i → (length tree < fuel)%nat →
  tree_ok pos (λ j, P j ∨ j = i) (tree_update wins fuel tree (pos i) i) ∧
  length (tree_update wins fuel tree (pos i) i) = length tree.
Proof.
  intros Ht Hi Hp Hf. destruct (tree_update_spec fuel tree (pos i) i) as [Hl Hc]; [lia..|].
  split; [|done]. intros a Ha. rewrite Hl in Ha. rewrite Hc by done.
  case_bool_decide as Hcov.
  - eapply best_of_ext; [|apply best_of_insert; [done|apply Ht, Ha]]. naive_solver.
  - eapply best_of_ext; [|apply Ht, Ha]. naive_solver.
Qed.

(** The query loop merges cells that partition the positions [1..at]. *)
Lemma tree_query_spec pos P Q tree fuel p s :
  tree_ok pos P tree → (∀ i, P i → 0 < pos i) → p < Z.of_nat (length tree) →
  (Z.to_nat p < fuel)%nat → best_of Q s →
  best_of (λ i, Q i ∨ (P i ∧ pos i ≤ p)) (tree_query wins fuel tree p s).
Proof.
  intros Ht Hpos. revert p Q s. induction fuel as [|fuel IH]; intros p Q s Hp Hf Hs; [lia|].
  cbn. destruct (0 <? p) eqn:E; bools.
  2:{ eapply best_of_ext; [|exact Hs]. intros i. split; [by left|].
      intros [?|[Hi ?]]; [done|]. specialize (Hpos _ Hi). lia. }
  pose proof (lowbit_bounds p E) as Hlb.
  pose proof (best_of_union _ _ _ _ Hs (Ht p ltac:(lia))) as Hu.
  eapply best_of_ext; [|apply (IH (p - lowbit p) _ _ ltac:(lia) ltac:(lia) Hu)].
  intros i. unfold covers. split.
  - intros [[?|(? & ?)]|(? & ?)]; [by left|right..]; (split; [done|lia]).
  - intros [?|(? & ?)]; [by left; left|].
    destruct (decide (p - lowbit p < pos i)); [left; right|right]; (split; [done|lia]).
Qed.
End best.
