(* ===== verification/RangeProfile.v ===== *)
(** * Selection of load-profile ranges (src/src/disk/scripts/range-profile.mjs)

    [selectBootRanges] picks at most 32 disjoint ranges of 64 KiB units, each
    with at least [percent] % observed units, that cover the most observed
    units, then download the fewest, then were used the earliest.  It is a
    dynamic program over the sorted observed units; a Fenwick tree finds the
    best interval start in logarithmic time.

    The three typed arrays [hits], [size] and [rank] are one list of [score]
    records here.  All numbers stay far below [2^53] (at most [2^24] units), so
    double arithmetic is exact and [Z] models it. *)
From S2P Require Import Prelude JsValue RangePrefetch Fenwick.
From Stdlib Require Import QArith Qround Qabs.
#[local] Open Scope Z_scope.

(** Reading a typed array inside its bounds. *)
Definition at_ {A} (d : A) (l : list A) (i : Z) : A := default d (l !! Z.to_nat i).

(** ** [bound]: binary search *)
Fixpoint bound_loop (fuel : nat) (values : list Z) (x : Z) (inclusive : bool) (lo hi : Z) : Z :=
  match fuel with
  | O => lo
  | S fuel =>
      if lo <? hi then
        let mid := Z.shiftr (lo + hi) 1 in
        if (at_ 0 values mid <? x) || (inclusive && (at_ 0 values mid =? x))
        then bound_loop fuel values x inclusive (mid + 1) hi
        else bound_loop fuel values x inclusive lo mid
      else lo
  end.
Definition bound (values : list Z) (x : Z) (inclusive : bool) : Z :=
  bound_loop (S (length values)) values x inclusive 0 (Z.of_nat (length values)).

(** ** Scores *)
Record score := Score { s_hits : Z; s_size : Z; s_rank : Z }.

Definition better (a b : score) : bool :=
  (s_hits b <? s_hits a) ||
  ((s_hits a =? s_hits b) &&
   ((s_size a <? s_size b) || ((s_size a =? s_size b) && (s_rank a <? s_rank b)))).

Definition zero : score := Score 0 0 0.

(** ** The keys of a [Map] or [Set], in insertion order *)
Definition distinct (l : list Z) : list Z :=
  foldl (λ acc u, if bool_decide (u ∈ acc) then acc else acc ++ [u]) [] l.

(** [ranks.get(unit)] for a [Map] filled in insertion order. *)
Fixpoint position (u : Z) (l : list Z) : Z :=
  match l with
  | [] => 0
  | v :: l => if v =? u then 0 else 1 + position u l
  end.

(** [rankPrefix]: partial sums, from 0. *)
Fixpoint partial_sums (acc : Z) (l : list Z) : list Z :=
  match l with
  | [] => [acc]
  | x :: l => acc :: partial_sums (acc + x) l
  end.

(** ** The dynamic program *)
Section program.
Context (percent : Z) (units rankPrefix : list Z).

Definition n_units : Z := Z.of_nat (length units).
Definition unit_at (i : Z) : Z := at_ 0 units i.
Definition prefix_at (i : Z) : Z := at_ 0 rankPrefix i.

Definition keys : list Z :=
  (λ i, 100 * i - percent * unit_at i) <$> zrange 0 (length units).
Definition sorted_keys : list Z := sort_on id (distinct keys).
Definition positions : list Z := (λ key, bound sorted_keys key false + 1) <$> keys.

(** [hits[a]-a], [size[a]-units[a]], [rank[a]-rankPrefix[a]]. *)
Definition relative (prev : list score) (a : Z) : score :=
  let s := at_ zero prev a in
  Score (s_hits s - a) (s_size s - unit_at a) (s_rank s - prefix_at a).
Definition start_better (prev : list score) (a b : Z) : bool :=
  better (relative prev a) (relative prev b).

Record slot_state := Slot { sl_tree : list Z; sl_next : list score; sl_pick : list Z }.

(** The body of the loop over [j]. *)
Definition column (prev : list score) (st : slot_state) (j : Z) : slot_state :=
  let i := j - 1 in
  let tree := tree_update (wins (start_better prev)) (S (length (sl_tree st))) (sl_tree st)
                (at_ 0 positions i) i in
  let at0 := bound sorted_keys (100 * j - percent * (unit_at (j - 1) + 1)) true in
  let start := tree_query (wins (start_better prev)) (S (length tree)) tree at0 (-1) in
  let old := at_ zero (sl_next st) (j - 1) in
  let s := at_ zero prev start in
  let cand := Score (s_hits s + j - start)
                (s_size s + unit_at (j - 1) - unit_at start + 1)
                (s_rank s + prefix_at j - prefix_at start) in
  if (0 <=? start) && better cand old
  then Slot tree (sl_next st ++ [cand]) (sl_pick st ++ [start])
  else Slot tree (sl_next st ++ [old]) (sl_pick st ++ [-1]).

(** One iteration of the loop over [slot]. *)
Definition fill_slot (prev : list score) : slot_state :=
  foldl (column prev) (Slot (replicate (S (length sorted_keys)) (-1)) [zero] [-1])
    (zrange 1 (length units)).

Fixpoint fill_slots (k : nat) : list (list Z) * list score :=
  match k with
  | O => ([], replicate (S (length units)) zero)
  | S k =>
      let '(choices, prev) := fill_slots k in
      let st := fill_slot prev in
      (choices ++ [sl_pick st], sl_next st)
  end.

(** The backtracking loop; [fuel] bounds [j]. *)
Fixpoint backtrack (fuel : nat) (choices : list (list Z)) (slot j : Z) : list (Z * Z) :=
  match fuel with
  | O => []
  | S fuel =>
      if (0 <=? slot) && (0 <? j) then
        let start := at_ (-1) (at_ [] choices slot) j in
        if start <? 0 then backtrack fuel choices slot (j - 1)
        else (start, j) :: backtrack fuel choices (slot - 1) start
      else []
  end.
End program.

(** ** From intervals of indices to merged ranges of units *)
Definition merge_step (merged : list range) (r : range) : list range :=
  match last merged with
  | Some l =>
      if l.2 + 1 =? r.1 then removelast merged ++ [(l.1, r.2)] else merged ++ [r]
  | None => merged ++ [r]
  end.
Definition merge_ranges (l : list range) : list range := foldl merge_step [] l.

Record detail := Detail {
  d_range : range; d_used : Z; d_utilization : Q; d_firstUse : Z
}.

(** Every finite double is below this number. *)
Definition INFINITY : Z := 2 ^ 1024.

Definition describe_range (ranks units : list Z) (r : range) : detail :=
  let observed := filter (λ u, r.1 ≤ u ∧ u ≤ r.2) units in
  Detail r (Z.of_nat (length observed))
    (inject_Z (Z.of_nat (length observed)) / inject_Z (r.2 - r.1 + 1))
    (foldl (λ first u, Z.min first (position u ranks)) INFINITY observed).

(** ** The whole function *)
Record selection := Selection {
  r_ranges : list (option range); r_minUtilization : Q;
  r_observedUnits : Z; r_coveredUnits : Z; r_downloadUnits : Z; r_rankSum : Z;
  r_details : list detail
}.

(** The percentage, with [Math.round] and the whole-percentage test. *)
Definition percent_of (minUtilization : number) : result (Q * Z) :=
  match as_finite (JNum minUtilization) with
  | None => throw_plain "Utilization must be a whole percentage from 1 to 100"
  | Some q =>
      let percent := Qfloor (q * inject_Z 100 + (1 # 2)) in
      if (percent <? 1) || (100 <? percent) ||
         negb (Qle_bool (Qabs (inject_Z percent / inject_Z 100 - q)) (1 # 1000000000))
      then throw_plain "Utilization must be a whole percentage from 1 to 100"
      else Ok (q, percent)
  end.

Definition unit_valid (u : Z) : bool := is_safe u && (0 <=? u) && (u <? 2 ^ 24).

Definition selectBootRanges (firstTouchUnits : list Z) (minUtilization : number) :
    result selection :=
  '(q, percent) ← percent_of minUtilization;
  if negb (forallb unit_valid firstTouchUnits) then throw_plain "Invalid 64 KiB unit" else
  let ranks := distinct firstTouchUnits in
  let units := sort_on id ranks in
  let n := Z.of_nat (length units) in
  let rankPrefix := partial_sums 0 ((λ u, position u ranks) <$> units) in
  let '(choices, final) := fill_slots percent units rankPrefix (Z.to_nat RANGE_SLOTS) in
  let selected := (λ p, (at_ 0 units p.1, at_ 0 units (p.2 - 1))) <$>
    backtrack (S (length units)) choices (RANGE_SLOTS - 1) n in
  let merged := merge_ranges (sort_on fst selected) in
  let details := sort_on d_firstUse (sort_on (fst ∘ d_range)
    (describe_range ranks units <$> merged)) in
  let total := at_ zero final n in
  Ok (Selection
    ((Some ∘ d_range <$> details) ++
       replicate (Z.to_nat (RANGE_SLOTS - Z.of_nat (length details))) None)
    q n (s_hits total) (s_size total) (s_rank total) details).

(** The repository's own example: three consecutive units and a repeat. *)
Example select_few :
  (λ r, (take 2 (r_ranges r), r_coveredUnits r, r_downloadUnits r, r_rankSum r)) <$>
    selectBootRanges [8; 9; 8; 10] (NFrac (1 # 2)) =
  Ok ([Some (8, 10); None], 3, 3, 3).
Proof. vm_compute. reflexivity. Qed.
