(* ===== verification/RangeProfileFacts.v ===== *)
(** * Optimality of the range selection

    The theorems of this file relate [RangeProfile.selectBootRanges] to its
    specification: among all families of at most 32 disjoint ranges that respect
    the utilization floor, the one returned has the best score, and the reported
    totals are those of the returned ranges. *)
From S2P Require Import Prelude JsValue RangePrefetch Fenwick RangeProfile.
From Stdlib Require Import QArith Qround Qabs.
#[local] Open Scope Z_scope.

(** ** The order on scores *)
Lemma better_spec a b :
  better a b = true ↔
  s_hits b < s_hits a ∨
  (s_hits a = s_hits b ∧ (s_size a < s_size b ∨ (s_size a = s_size b ∧ s_rank a < s_rank b))).
Proof. unfold better. rewrite !orb_true_iff, !andb_true_iff, !orb_true_iff, !andb_true_iff. lia. Qed.

Lemma better_false a b :
  better a b = false ↔
  s_hits a < s_hits b ∨
  (s_hits a = s_hits b ∧ (s_size b < s_size a ∨ (s_size a = s_size b ∧ s_rank b ≤ s_rank a))).
Proof. rewrite <- not_true_iff_false, better_spec. lia. Qed.

Lemma better_irrefl a : better a a = false.
Proof. apply better_false. lia. Qed.
Lemma better_asym a b : better a b = true → better b a = false.
Proof. rewrite better_spec, better_false. lia. Qed.
Lemma better_trans_false a b c : better a b = false → better b c = false → better a c = false.
Proof. rewrite !better_false. lia. Qed.

#[export] Hint Resolve better_irrefl better_asym better_trans_false : my98.

Definition plus (a b : score) : score :=
  Score (s_hits a + s_hits b) (s_size a + s_size b) (s_rank a + s_rank b).

Lemma better_plus a b c : better (plus a c) (plus b c) = better a b.
Proof.
  destruct (better a b) eqn:E.
  - apply better_spec in E. apply better_spec. cbn. lia.
  - apply better_false in E. apply better_false. cbn. lia.
Qed.

(** ** Arrays *)
Lemma at_app_l {A} (d : A) l l' i : 0 ≤ i < Z.of_nat (length l) → at_ d (l ++ l') i = at_ d l i.
Proof. intros. unfold at_. by rewrite lookup_app_l by lia. Qed.

Lemma at_app_end {A} (d : A) l x i : i = Z.of_nat (length l) → at_ d (l ++ [x]) i = x.
Proof. intros ->. unfold at_. rewrite lookup_app_r by lia. by rewrite Nat2Z.id, Nat.sub_diag. Qed.

Lemma at_fmap {A B} (f : A → B) d d' l i :
  0 ≤ i < Z.of_nat (length l) → at_ d (f <$> l) i = f (at_ d' l i).
Proof.
  intros. unfold at_. rewrite list_lookup_fmap.
  destruct (lookup_lt_is_Some_2 l (Z.to_nat i)) as [x ->]; [lia|done].
Qed.

Lemma at_zrange first count i : 0 ≤ i < Z.of_nat count → at_ 0 (zrange first count) i = first + i.
Proof.
  intros. unfold at_, zrange. rewrite list_lookup_fmap, lookup_seq_lt by lia. cbn. lia.
Qed.

Lemma at_lookup {A} (d : A) l i x :
  0 ≤ i → l !! Z.to_nat i = Some x → at_ d l i = x.
Proof. intros ? H. unfold at_. by rewrite H. Qed.

(** ** Binary search *)
Section bound.
Context (values : list Z) (x : Z) (inclusive : bool).
Definition below (v : Z) : bool := (v <? x) || (inclusive && (v =? x)).
Context (mono : ∀ i j, 0 ≤ i ≤ j → j < Z.of_nat (length values) →
  at_ 0 values i ≤ at_ 0 values j).

Lemma bound_loop_spec fuel lo hi :
  0 ≤ lo ≤ hi → hi ≤ Z.of_nat (length values) → (Z.to_nat (hi - lo) < fuel)%nat →
  (∀ k, 0 ≤ k < lo → below (at_ 0 values k) = true) →
  (∀ k, hi ≤ k < Z.of_nat (length values) → below (at_ 0 values k) = false) →
  let r := bound_loop fuel values x inclusive lo hi in
  0 ≤ r ≤ Z.of_nat (length values) ∧
  (∀ k, 0 ≤ k < r → below (at_ 0 values k) = true) ∧
  (∀ k, r ≤ k < Z.of_nat (length values) → below (at_ 0 values k) = false).
Proof.
  revert lo hi. induction fuel as [|fuel IH]; intros lo hi Hlh Hhi Hf Hb Ha; [lia|]. cbn.
  destruct (lo <? hi) eqn:E; bools.
  2:{ assert (lo = hi) as -> by lia. split_and!; [lia..|done|done]. }
  rewrite Z.shiftr_div_pow2 by lia. change (2 ^ 1) with 2.
  pose proof (Z.div_mod (lo + hi) 2 ltac:(lia)). pose proof (Z.mod_pos_bound (lo + hi) 2 ltac:(lia)).
  set (mid := (lo + hi) / 2) in *. assert (Hmid : lo ≤ mid < hi) by lia.
  destruct (_ || _) eqn:Em.
  - apply IH; [lia|lia|lia| |done]. intros k Hk.
    pose proof (mono k mid ltac:(lia) ltac:(lia)). unfold below. clear IH Hb Ha. destruct inclusive; cbn in *; lia.
  - apply IH; [lia|lia|lia|done|]. intros k Hk.
    pose proof (mono mid k ltac:(lia) ltac:(lia)). unfold below. clear IH Hb Ha. destruct inclusive; cbn in *; lia.
Qed.

Lemma bound_spec :
  let r := bound values x inclusive in
  0 ≤ r ≤ Z.of_nat (length values) ∧
  (∀ k, 0 ≤ k < r → below (at_ 0 values k) = true) ∧
  (∀ k, r ≤ k < Z.of_nat (length values) → below (at_ 0 values k) = false).
Proof. apply bound_loop_spec; lia. Qed.
End bound.

(** ** Distinct elements *)
Lemma distinct_app_spec l acc :
  NoDup acc →
  let r := foldl (λ acc u, if bool_decide (u ∈ acc) then acc else acc ++ [u]) acc l in
  NoDup r ∧ (∀ u : Z, u ∈ r ↔ u ∈ acc ∨ u ∈ l).
Proof.
  revert acc. induction l as [|u l IH]; intros acc Hnd; cbn.
  { split; [done|set_solver]. }
  case_bool_decide as Hu.
  - destruct (IH acc Hnd) as [? IH2]. split; [done|]. intros v. rewrite IH2. set_solver.
  - destruct (IH (acc ++ [u])) as [? IH2].
    + apply NoDup_app. split_and!; [done|set_solver|apply NoDup_singleton].
    + split; [done|]. intros v. rewrite IH2. set_solver.
Qed.

Lemma NoDup_distinct l : NoDup (distinct l).
Proof. apply distinct_app_spec. constructor. Qed.
Lemma elem_of_distinct u l : u ∈ distinct l ↔ u ∈ l.
Proof. destruct (distinct_app_spec l [] (NoDup_nil_2 )) as [_ H]. rewrite (H u). set_solver. Qed.

Lemma key_sorted_lookup {A} (key : A → Z) l i j x y :
  key_sorted key l → l !! i = Some x → l !! j = Some y → (i < j)%nat → key x ≤ key y.
Proof.
  intros Hs. revert i j. induction Hs as [|z l Hs IH Hz]; intros i j Hi Hj Hij; [done|].
  destruct j as [|j]; [lia|]. cbn in Hj. destruct i as [|i]; cbn in Hi.
  - injection Hi as ->. apply (proj1 (Forall_forall _ _) Hz), (list_elem_of_lookup_2 _ _ _ Hj).
  - eapply IH; eauto. lia.
Qed.

Lemma key_sorted_at {A} (key : A → Z) (d : A) l i j :
  key_sorted key l → 0 ≤ i ≤ j → j < Z.of_nat (length l) →
  key (at_ d l i) ≤ key (at_ d l j).
Proof.
  intros Hs Hij Hj. destruct (decide (i = j)) as [->|Hne]; [lia|]. unfold at_.
  destruct (lookup_lt_is_Some_2 l (Z.to_nat i)) as [x Hx]; [lia|].
  destruct (lookup_lt_is_Some_2 l (Z.to_nat j)) as [y Hy]; [lia|]. rewrite Hx, Hy. cbn.
  eapply key_sorted_lookup; eauto. lia.
Qed.

Lemma NoDup_at (l : list Z) i j :
  NoDup l → 0 ≤ i < Z.of_nat (length l) → 0 ≤ j < Z.of_nat (length l) →
  at_ 0 l i = at_ 0 l j → i = j.
Proof.
  intros Hnd Hi Hj. unfold at_.
  destruct (lookup_lt_is_Some_2 l (Z.to_nat i)) as [x Hx]; [lia|].
  destruct (lookup_lt_is_Some_2 l (Z.to_nat j)) as [y Hy]; [lia|]. rewrite Hx, Hy. cbn.
  intros ->. pose proof (NoDup_lookup _ _ _ _ Hnd Hx Hy). lia.
Qed.

(** Sorting distinct integers gives a strictly increasing array. *)
Lemma sorted_distinct_lt l i j :
  NoDup l → 0 ≤ i < j → j < Z.of_nat (length l) →
  at_ 0 (sort_on id l) i < at_ 0 (sort_on id l) j.
Proof.
  intros Hnd Hij Hj. pose proof (sort_on_perm id l) as Hp.
  assert (Hl : length (sort_on id l) = length l) by by rewrite Hp.
  pose proof (key_sorted_at id 0 _ i j (sort_on_sorted id l) ltac:(lia) ltac:(lia)) as Hle.
  cbn in Hle. assert (at_ 0 (sort_on id l) i ≠ at_ 0 (sort_on id l) j); [|lia].
  intros E. apply NoDup_at in E; try lia. by rewrite Hp.
Qed.

(** ** The dynamic program *)
Section optimum.
Context (percent : Z) (units rankPrefix : list Z).

Notation n := (Z.of_nat (length units)).
Notation u := (unit_at units).
Notation key i := (100 * i - percent * u i).
Notation better_from prev := (start_better units rankPrefix prev).

(** The half-open interval of indices [i, j) respects the utilization floor. *)
Definition dense (i j : Z) : Prop := percent * (u (j - 1) - u i + 1) ≤ 100 * (j - i).
Definition cost (i j : Z) : score :=
  Score (j - i) (u (j - 1) - u i + 1) (prefix_at rankPrefix j - prefix_at rankPrefix i).

(** At most [k] disjoint dense intervals below [j], the last one first. *)
Inductive chosen : nat → Z → list (Z * Z) → Prop :=
| chosen_nil k j : chosen k j []
| chosen_cons k i j' j l :
    chosen k i l → 0 ≤ i < j' → j' ≤ j → dense i j' → chosen (S k) j ((i, j') :: l).

Fixpoint total (l : list (Z * Z)) : score :=
  match l with
  | [] => zero
  | (i, j) :: l => plus (total l) (cost i j)
  end.

(** [v] is the best score of such a family. *)
Definition opt (k : nat) (j : Z) (v : score) : Prop :=
  (∃ l, chosen k j l ∧ total l = v) ∧
  (∀ l, chosen k j l → better (total l) v = false).

Lemma chosen_mono k j j' l : chosen k j l → j ≤ j' → chosen k j' l.
Proof. destruct 1; intros; econstructor; eauto. lia. Qed.

Lemma better_plus_r a b c : better (plus a c) (plus b c) = better a b.
Proof. apply better_plus. Qed.

(** *** Keys and positions *)
Lemma sorted_keys_lt i j :
  0 ≤ i < j → j < Z.of_nat (length (sorted_keys percent units)) →
  at_ 0 (sorted_keys percent units) i < at_ 0 (sorted_keys percent units) j.
Proof.
  intros. unfold sorted_keys in *.
  assert (Hl : length (sort_on id (distinct (keys percent units))) =
    length (distinct (keys percent units))) by by rewrite sort_on_perm.
  apply sorted_distinct_lt; [apply NoDup_distinct|lia|lia].
Qed.

Lemma sorted_keys_le i j :
  0 ≤ i ≤ j → j < Z.of_nat (length (sorted_keys percent units)) →
  at_ 0 (sorted_keys percent units) i ≤ at_ 0 (sorted_keys percent units) j.
Proof.
  intros. destruct (decide (i = j)) as [->|]; [lia|].
  pose proof (sorted_keys_lt i j). lia.
Qed.

Lemma keys_at i : 0 ≤ i < n → at_ 0 (keys percent units) i = key i.
Proof.
  intros. unfold keys. rewrite (at_fmap _ _ 0) by by rewrite length_zrange.
  by rewrite at_zrange by done.
Qed.

Lemma key_in_sorted i :
  0 ≤ i < n → ∃ m, 0 ≤ m < Z.of_nat (length (sorted_keys percent units)) ∧
    at_ 0 (sorted_keys percent units) m = key i.
Proof.
  intros Hi. assert (Hin : key i ∈ sorted_keys percent units).
  { unfold sorted_keys. rewrite sort_on_perm, elem_of_distinct.
    unfold keys. apply list_elem_of_fmap. exists i. split; [done|].
    apply elem_of_zrange. lia. }
  apply list_elem_of_lookup in Hin as [m Hm]. exists (Z.of_nat m).
  pose proof (lookup_lt_Some _ _ _ Hm). split; [lia|].
  apply at_lookup; [lia|]. by rewrite Nat2Z.id.
Qed.

Notation pos i := (at_ 0 (positions percent units) i).

(** The position of an index orders it among the queries. *)
Lemma position_spec i x :
  0 ≤ i < n →
  (1 ≤ pos i ≤ Z.of_nat (length (sorted_keys percent units))) ∧
  (pos i ≤ bound (sorted_keys percent units) x true ↔ key i ≤ x).
Proof.
  intros Hi. pose proof sorted_keys_lt as Hlt. set (S := sorted_keys percent units) in *.
  assert (Hp : pos i = bound S (key i) false + 1).
  { unfold positions. rewrite (at_fmap _ _ 0).
    - by rewrite keys_at.
    - unfold keys. by rewrite length_fmap, length_zrange. }
  destruct (bound_spec S (key i) false sorted_keys_le) as (Hr & Hb & Ha).
  destruct (bound_spec S x true sorted_keys_le) as (Hr' & Hb' & Ha').
  set (r := bound S (key i) false) in *. set (r' := bound S x true) in *.
  destruct (key_in_sorted i Hi) as (m & Hm & Em). fold S in Hm, Em.
  unfold below in *.
  assert (r = m) as ->.
  { destruct (Z.lt_trichotomy r m) as [Hrm|[?|Hrm]]; [|done|].
    - pose proof (Hlt r m ltac:(lia) ltac:(lia)).
      pose proof (Ha r ltac:(lia)) as Hx. cbn [andb orb] in Hx. lia.
    - pose proof (Hb m ltac:(lia)) as Hx. cbn [andb orb] in Hx. lia. }
  rewrite Hp. split; [lia|]. split; intros Hle.
  - pose proof (Hb' m ltac:(lia)) as Hx. cbn [andb orb] in Hx. lia.
  - destruct (decide (m < r')) as [|Hge]; [lia|].
    pose proof (Ha' m ltac:(lia)) as Hx. cbn [andb orb] in Hx. lia.
Qed.

Lemma dense_key i j :
  dense i j ↔ key i ≤ 100 * j - percent * (u (j - 1) + 1).
Proof. unfold dense. lia. Qed.

(** *** One column

    [inv k prev m st]: after [m] columns of the slot that follows [prev]. *)
Record inv (k : nat) (prev : list score) (m : Z) (st : slot_state) : Prop := {
  inv_tree_len : length (sl_tree st) = S (length (sorted_keys percent units));
  inv_tree : tree_ok (better_from prev) (λ i, pos i) (λ i, 0 ≤ i < m) (sl_tree st);
  inv_next_len : Z.of_nat (length (sl_next st)) = m + 1;
  inv_pick_len : Z.of_nat (length (sl_pick st)) = m + 1;
  inv_opt : ∀ j, 0 ≤ j ≤ m → opt (S k) j (at_ zero (sl_next st) j);
  inv_pick : ∀ j, 1 ≤ j ≤ m →
    let p := at_ (-1) (sl_pick st) j in
    (p < 0 ∧ at_ zero (sl_next st) j = at_ zero (sl_next st) (j - 1)) ∨
    (0 ≤ p < j ∧ dense p j ∧
     at_ zero (sl_next st) j = plus (at_ zero prev p) (cost p j))
}.

Lemma from_irrefl prev a : better_from prev a a = false.
Proof. apply better_irrefl. Qed.
Lemma from_asym prev a b : better_from prev a b = true → better_from prev b a = false.
Proof. apply better_asym. Qed.
Lemma from_trans prev a b c :
  better_from prev a b = false → better_from prev b c = false → better_from prev a c = false.
Proof. apply better_trans_false. Qed.

(** Comparing interval starts is comparing the candidates they lead to. *)
Lemma better_from_plus prev a b j :
  better_from prev a b =
  better (plus (at_ zero prev a) (cost a j)) (plus (at_ zero prev b) (cost b j)).
Proof.
  unfold start_better. rewrite <- (better_plus (relative _ _ _ a) _
    (Score j (u (j - 1) + 1) (prefix_at rankPrefix j))).
  unfold relative, plus, cost; cbn. f_equal; f_equal; lia.
Qed.

(** The tree answers the query of column [j = m + 1]. *)
Lemma query_start k prev m st :
  inv k prev m st → 0 ≤ m < n →
  let tree := tree_update (wins (better_from prev)) (S (length (sl_tree st)))
                (sl_tree st) (pos m) m in
  let start := tree_query (wins (better_from prev)) (S (length tree)) tree
    (bound (sorted_keys percent units) (100 * (m + 1) - percent * (u m + 1)) true) (-1) in
  (length tree = S (length (sorted_keys percent units)) ∧
   tree_ok (better_from prev) (λ i, pos i) (λ i, 0 ≤ i < m + 1) tree) ∧
  best_of (better_from prev) (λ i, 0 ≤ i < m + 1 ∧ dense i (m + 1)) start.
Proof.
  intros Hinv Hm. cbv zeta.
  destruct (position_spec m 0 Hm) as [Hpm _].
  destruct (tree_update_ok _ (from_irrefl prev) (from_asym prev) (from_trans prev)
    (λ i, pos i) _ _ m (S (length (sl_tree st))) (inv_tree _ _ _ _ Hinv))
    as [Ht Hl]; [lia|cbv beta; lia|lia|].
  set (tree := tree_update _ _ _ _ _) in *.
  assert (Ht' : tree_ok (better_from prev) (λ i, pos i) (λ i, 0 ≤ i < m + 1) tree).
  { intros a Ha. eapply best_of_ext; [|apply Ht, Ha]. cbv beta. intros i.
    split; intros [? ?]; (split; [lia|done]). }
  rewrite (inv_tree_len _ _ _ _ Hinv) in Hl. split; [by split|].
  destruct (bound_spec (sorted_keys percent units)
    (100 * (m + 1) - percent * (u m + 1)) true sorted_keys_le) as ((Hb1 & Hb2) & _).
  set (b := bound _ _ _) in *.
  pose proof (tree_query_spec _ (from_asym prev) (from_trans prev) (λ i, pos i)
    (λ i, 0 ≤ i < m + 1) (λ _, False) tree (S (length tree)) b (-1) Ht') as Hq.
  eapply best_of_ext; [|apply Hq].
  - intros i. cbn. split.
    + intros [[]|[Hi Hpos]]. split; [done|]. apply dense_key.
      replace (m + 1 - 1) with m by lia. by apply position_spec in Hpos; [|lia].
    + intros [Hi Hd]. right. split; [done|]. apply dense_key in Hd.
      replace (m + 1 - 1) with m in Hd by lia. by apply position_spec; [lia|].
  - intros i Hi. pose proof (proj1 (position_spec i 0 ltac:(lia))). cbn. lia.
  - lia.
  - lia.
  - left. split; [done|]. by intros ? ?.
Qed.

(** The better of the old score and the candidate is optimal. *)
Lemma opt_column k prev j v old start :
  1 ≤ j ≤ n → (∀ i, 0 ≤ i ≤ n → opt k i (at_ zero prev i)) →
  opt (S k) (j - 1) old →
  best_of (better_from prev) (λ i, 0 ≤ i < j ∧ dense i j) start →
  v = (if (0 <=? start) && better (plus (at_ zero prev start) (cost start j)) old
       then plus (at_ zero prev start) (cost start j) else old) →
  opt (S k) j v.
Proof.
  intros Hj Hprev [(l0 & Hl0 & Eold) Hold] Hbest ->.
  set (cand := plus (at_ zero prev start) (cost start j)).
  set (v := if (0 <=? start) && better cand old then cand else old).
  assert (Hold_v : better old v = false).
  { unfold v. destruct (_ && _) eqn:E; [|apply better_irrefl].
    apply andb_true_iff in E as [_ E]. by apply better_asym. }
  split.
  - unfold v. destruct (_ && _) eqn:E.
    + bools. destruct Hbest as [[? _]|(_ & [Hs Hd] & _)]; [lia|].
      destruct (Hprev start ltac:(lia)) as [(l & Hl & El) _].
      exists ((start, j) :: l). split; [|cbn; unfold cand; congruence].
      econstructor; eauto; lia.
    + exists l0. split; [|done]. eapply chosen_mono; eauto. lia.
  - clear l0 Hl0 Eold. assert (Hshort : ∀ l, chosen (S k) (j - 1) l → better (total l) v = false).
    { intros l Hl. eapply better_trans_false; [by apply Hold|done]. }
    intros l Hl. inversion Hl as [|k' i j' ? l' Hl' Hij Hj' Hd]; subst.
    { apply Hshort. constructor. }
    destruct (decide (j' = j)) as [->|]; [|apply Hshort; econstructor; eauto; lia].
    destruct Hbest as [[_ Hnone]|(Hs0 & [Hs Hds] & Hmax)].
    { exfalso. by apply (Hnone i). }
    assert (Hcand_v : better cand v = false).
    { unfold v. replace (0 <=? start) with true by lia. cbn.
      destruct (better cand old) eqn:E; [apply better_irrefl|done]. }
    cbn. eapply better_trans_false; [|exact Hcand_v].
    eapply better_trans_false; [|unfold cand; rewrite <- better_from_plus; by apply Hmax].
    rewrite better_plus. destruct (Hprev i ltac:(lia)) as [_ Hub]. by apply Hub.
Qed.

Lemma column_inv k prev m st :
  inv k prev m st → 0 ≤ m < n → (∀ i, 0 ≤ i ≤ n → opt k i (at_ zero prev i)) →
  inv k prev (m + 1) (column percent units rankPrefix prev st (m + 1)).
Proof.
  intros Hinv Hm Hprev. destruct (query_start k prev m st Hinv Hm) as [[Hl Ht] Hbest].
  destruct Hinv as [_ _ Hnl Hpl Hopt Hpick].
  unfold column. replace (m + 1 - 1) with m by lia.
  set (tree := tree_update _ _ _ _ _) in *. set (start := tree_query _ _ _ _ _) in *.
  set (old := at_ zero (sl_next st) m) in *.
  set (s := at_ zero prev start).
  set (cand := Score (s_hits s + (m + 1) - start) _ _).
  assert (Ecand : cand = plus s (cost start (m + 1))).
  { unfold cand, plus, cost. cbn. replace (m + 1 - 1) with m by lia. f_equal; lia. }
  assert (Hold : opt (S k) (m + 1 - 1) old).
  { replace (m + 1 - 1) with m by lia. apply Hopt. lia. }
  pose proof (opt_column k prev (m + 1) _ old start ltac:(lia) Hprev Hold Hbest eq_refl) as Hv.
  fold s in Hv. rewrite <- Ecand in Hv.
  assert (Hkeep : ∀ x j, 0 ≤ j ≤ m →
    at_ zero (sl_next st ++ [x]) j = at_ zero (sl_next st) j).
  { intros. apply at_app_l. lia. }
  assert (Hkeepp : ∀ x j, 0 ≤ j ≤ m →
    at_ (-1) (sl_pick st ++ [x]) j = at_ (-1) (sl_pick st) j).
  { intros. apply at_app_l. lia. }
  destruct ((0 <=? start) && better cand old) eqn:E; cbn [sl_tree sl_next sl_pick] in *;
    (split; cbn [sl_tree sl_next sl_pick]; [done|done|rewrite length_app; cbn; lia
      |rewrite length_app; cbn; lia| |]); intros j Hj;
    (destruct (decide (j = m + 1)) as [->|]; [rewrite ?at_app_end by lia|]).
  - done.
  - rewrite Hkeep by lia. apply Hopt. lia.
  - right. apply andb_true_iff in E as [E _]. bools.
    destruct Hbest as [[? _]|(_ & [? ?] & _)]; [lia|]. done.
  - rewrite Hkeepp, !Hkeep by lia. apply Hpick. lia.
  - done.
  - rewrite Hkeep by lia. apply Hopt. lia.
  - left. split; [lia|]. rewrite Hkeep by lia. by replace (m + 1 - 1) with m by lia.
  - rewrite Hkeepp, !Hkeep by lia. apply Hpick. lia.
Qed.

Lemma opt_zero k : opt k 0 zero.
Proof.
  split; [by exists []; split; [constructor|]|].
  intros l Hl. inversion Hl; subst; [apply better_irrefl|lia].
Qed.

Lemma fill_slot_inv k prev :
  (∀ i, 0 ≤ i ≤ n → opt k i (at_ zero prev i)) →
  inv k prev n (fill_slot percent units rankPrefix prev).
Proof.
  intros Hprev. unfold fill_slot.
  assert (H : ∀ c, (c ≤ length units)%nat → inv k prev (Z.of_nat c)
    (foldl (column percent units rankPrefix prev)
      (Slot (replicate (S (length (sorted_keys percent units))) (-1)) [zero] [-1])
      (zrange 1 c))); [|by apply H].
  induction c as [|c IH]; intros Hc.
  - change (zrange 1 0) with (@nil Z). cbn [foldl].
    split; cbn [sl_tree sl_next sl_pick].
    + by rewrite length_replicate.
    + intros a Ha. rewrite length_replicate in Ha. left. split; [|lia].
      unfold cell. by rewrite lookup_replicate_2 by lia.
    + done.
    + done.
    + intros j Hj. replace j with 0 by lia. apply opt_zero.
    + intros j Hj. lia.
  - rewrite zrange_snoc, foldl_app. cbn [foldl].
    replace (1 + Z.of_nat c) with (Z.of_nat c + 1) by lia.
    replace (Z.of_nat (S c)) with (Z.of_nat c + 1) by lia.
    apply column_inv; [apply IH; lia|lia|done].
Qed.

Lemma fill_slots_opt k choices final :
  fill_slots percent units rankPrefix k = (choices, final) →
  length choices = k ∧ ∀ j, 0 ≤ j ≤ n → opt k j (at_ zero final j).
Proof.
  revert choices final. induction k as [|k IH]; intros choices final; cbn.
  - intros [= <- <-]. split; [done|]. intros j Hj. unfold at_.
    change (zero :: replicate (length units) zero) with (replicate (S (length units)) zero).
    rewrite lookup_replicate_2 by lia. cbn. split.
    + exists []. by split; [constructor|].
    + intros l Hl. inversion Hl. apply better_irrefl.
  - destruct (fill_slots percent units rankPrefix k) as [ch prev].
    intros [= <- <-]. destruct (IH _ _ eq_refl) as [Hl Hp]. split.
    + rewrite length_app. cbn. lia.
    + apply inv_opt with prev. by apply fill_slot_inv.
Qed.

(** *** The backtracking loop rebuilds an optimal family *)
Lemma backtrack_spec k choices final rest fuel j :
  fill_slots percent units rankPrefix k = (choices, final) →
  0 ≤ j ≤ n → (Z.to_nat j < fuel)%nat →
  let l := backtrack fuel (choices ++ rest) (Z.of_nat k - 1) j in
  chosen k j l ∧ total l = at_ zero final j.
Proof.
  revert choices final rest fuel j. induction k as [|k IHk]; intros choices final rest fuel j Hf.
  { intros Hj Hfuel. destruct (fill_slots_opt _ _ _ Hf) as [_ Ho].
    destruct (Ho j Hj) as [(l & Hl & <-) _]. inversion Hl; subst.
    destruct fuel; [lia|]. cbn. by split; [constructor|]. }
  pose proof Hf as Hf'. cbn in Hf'.
  destruct (fill_slots percent units rankPrefix k) as [ch prev] eqn:Ek.
  injection Hf' as <- <-. destruct (fill_slots_opt _ _ _ Ek) as [Hlen Hprev].
  destruct (fill_slot_inv k prev Hprev) as [_ _ _ _ Hopt Hpick].
  set (st := fill_slot percent units rankPrefix prev) in *.
  revert j. induction fuel as [|fuel IHf]; intros j Hj Hfuel; [lia|].
  cbn [backtrack]. replace (Z.of_nat (S k) - 1) with (Z.of_nat k) by lia.
  replace (0 <=? Z.of_nat k) with true by lia. cbn [andb].
  destruct (0 <? j) eqn:Ej; bools.
  2:{ replace j with 0 by lia. destruct (Hopt 0 ltac:(lia)) as [(l & Hl & <-) _].
      inversion Hl; subst; [|lia]. by split; [constructor|]. }
  assert (Ep : at_ [] ((ch ++ [sl_pick st]) ++ rest) (Z.of_nat k) = sl_pick st).
  { rewrite at_app_l by (rewrite length_app; cbn; lia). apply at_app_end. lia. }
  rewrite Ep. destruct (Hpick j ltac:(lia)) as [[Hp Ev]|(Hp & Hd & Ev)];
    set (p := at_ (-1) (sl_pick st) j) in *.
  - replace (p <? 0) with true by lia.
    replace (Z.of_nat (S k) - 1) with (Z.of_nat k) in IHf by lia.
    destruct (IHf (j - 1) ltac:(lia) ltac:(lia)) as [Hc Ht]. rewrite Ev. split; [|done].
    eapply chosen_mono; [exact Hc|lia].
  - replace (p <? 0) with false by lia. rewrite <- app_assoc.
    destruct (IHk ch prev ([sl_pick st] ++ rest) fuel p eq_refl ltac:(lia) ltac:(lia)) as [Hc Ht].
    split.
    + econstructor; eauto; lia.
    + cbn [total]. rewrite Ev. by f_equal.
Qed.
End optimum.

(** ** Families of ranges of units

    The specification speaks about ranges of units, not about indices: [seen] is
    the list of distinct observed units in first-use order. *)
Definition used_units (seen : list Z) (r : range) : list Z :=
  filter (λ u, r.1 ≤ u ∧ u ≤ r.2) seen.

Definition range_score (seen : list Z) (r : range) : score :=
  Score (Z.of_nat (length (used_units seen r))) (r.2 - r.1 + 1)
    (sum_list_Z ((λ u, position u seen) <$> used_units seen r)).

Definition family_score (seen : list Z) (fam : list range) : score :=
  foldr (λ r acc, plus (range_score seen r) acc) zero fam.

(** At most 32 disjoint ranges, each with [percent] % of its units observed. *)
Record family_ok (percent : Z) (seen : list Z) (fam : list range) : Prop := {
  fam_slots : Z.of_nat (length fam) ≤ RANGE_SLOTS;
  fam_ranges : Forall (λ r, r.1 ≤ r.2) fam;
  fam_disjoint : disjoint_ranges fam;
  fam_dense : Forall (λ r, percent * s_size (range_score seen r) ≤
                           100 * s_hits (range_score seen r)) fam
}.

Lemma plus_comm a b : plus a b = plus b a.
Proof. unfold plus. f_equal; lia. Qed.
Lemma plus_assoc a b c : plus a (plus b c) = plus (plus a b) c.
Proof. unfold plus; cbn. f_equal; lia. Qed.
Lemma plus_zero_l a : plus zero a = a.
Proof. destruct a. done. Qed.
Lemma plus_zero_r a : plus a zero = a.
Proof. by rewrite plus_comm, plus_zero_l. Qed.

Lemma family_score_perm seen f1 f2 : f1 ≡ₚ f2 → family_score seen f1 = family_score seen f2.
Proof.
  unfold family_score.
  induction 1 as [|r f1 f2 _ IH|r s f|f1 f2 f3 _ IH1 _ IH2]; cbn; [done|by rewrite IH| |congruence].
  rewrite !plus_assoc. f_equal. apply plus_comm.
Qed.

Lemma family_score_app seen f1 f2 :
  family_score seen (f1 ++ f2) = plus (family_score seen f1) (family_score seen f2).
Proof.
  unfold family_score. induction f1 as [|r f1 IH]; cbn; [by rewrite plus_zero_l|].
  by rewrite IH, plus_assoc.
Qed.

(** [range_score] does not depend on the order of [seen] except through the
    ranks, which are those of the first-use list. *)
Definition weighted (f : Z → Z) (P : Z → Prop) `{∀ u, Decision (P u)} (l : list Z) : Z :=
  sum_list_Z (f <$> filter P l).

Lemma weighted_perm f P `{∀ u, Decision (P u)} l1 l2 :
  l1 ≡ₚ l2 → weighted f P l1 = weighted f P l2.
Proof. intros Hp. unfold weighted. apply sum_list_Z_perm. by rewrite Hp. Qed.

Lemma weighted_split f a b l :
  a ≤ b + 1 →
  weighted f (λ u, a ≤ u ∧ u ≤ b) l =
  weighted f (λ u, u < b + 1) l - weighted f (λ u, u < a) l.
Proof.
  intros Hab. unfold weighted. induction l as [|x l IH]; [done|].
  rewrite !filter_cons. repeat case_decide; cbn; unfold sum_list_Z in *; cbn in *; lia.
Qed.

Lemma weighted_one P `{∀ u, Decision (P u)} l :
  weighted (λ _, 1) P l = Z.of_nat (length (filter P l)).
Proof.
  unfold weighted, sum_list_Z. induction (filter P l) as [|x l' IH]; cbn in *; [done|]. lia.
Qed.

Lemma range_score_weighted seen r :
  range_score seen r =
  Score (weighted (λ _, 1) (λ u, r.1 ≤ u ∧ u ≤ r.2) seen) (r.2 - r.1 + 1)
    (weighted (λ u, position u seen) (λ u, r.1 ≤ u ∧ u ≤ r.2) seen).
Proof. unfold range_score. by rewrite weighted_one. Qed.

Lemma range_score_adjacent seen a b c :
  a ≤ b + 1 → b ≤ c →
  range_score seen (a, c) = plus (range_score seen (a, b)) (range_score seen (b + 1, c)).
Proof.
  intros. rewrite !range_score_weighted. unfold plus. cbn [fst snd s_hits s_size s_rank].
  rewrite !weighted_split by lia. f_equal; lia.
Qed.

Lemma at_partial_sums acc l i :
  0 ≤ i ≤ Z.of_nat (length l) →
  at_ 0 (partial_sums acc l) i = acc + sum_list_Z (take (Z.to_nat i) l).
Proof.
  unfold sum_list_Z. revert acc i. induction l as [|x l IH]; intros acc i Hi; cbn in Hi.
  - replace i with 0 by lia. unfold at_. rewrite Z2Nat.inj_0. cbn. lia.
  - unfold at_. cbn [partial_sums]. destruct (decide (i = 0)) as [->|]; [rewrite Z2Nat.inj_0; cbn; lia|].
    replace (Z.to_nat i) with (S (Z.to_nat (i - 1))) by lia.
    change (default 0 (partial_sums (acc + x) l !! Z.to_nat (i - 1)) =
      acc + (x + foldr Z.add 0 (take (Z.to_nat (i - 1)) l))).
    specialize (IH (acc + x) (i - 1) ltac:(lia)). unfold at_ in IH. rewrite IH. lia.
Qed.

(** ** Counting below a bound in the sorted array *)
Section sorted_units.
Context (seen : list Z) (nodup : NoDup seen).
Notation units := (sort_on id seen).
Notation n := (Z.of_nat (length units)).
Notation u := (unit_at units).
Notation rankPrefix := (partial_sums 0 ((λ v, position v seen) <$> units)).

Definition count_below (x : Z) : Z := Z.of_nat (length (filter (λ v, v < x) seen)).

Lemma units_length : length units = length seen.
Proof. by rewrite sort_on_perm. Qed.

Lemma units_lt i j : 0 ≤ i < j → j < n → u i < u j.
Proof. intros. apply sorted_distinct_lt; [done|lia|]. rewrite units_length in *. lia. Qed.

Lemma units_le i j : 0 ≤ i ≤ j → j < n → u i ≤ u j.
Proof. intros. destruct (decide (i = j)) as [->|]; [lia|]. pose proof (units_lt i j). lia. Qed.

Lemma filter_below x c :
  0 ≤ c ≤ n → (∀ k, 0 ≤ k < c → u k < x) → (∀ k, c ≤ k < n → x ≤ u k) →
  filter (λ v, v < x) units = take (Z.to_nat c) units.
Proof.
  intros Hc Hb Ha. rewrite <- (take_drop (Z.to_nat c) units) at 1.
  rewrite filter_app, filter_all.
  2:{ apply Forall_lookup. intros i v Hi. rewrite lookup_take_Some in Hi. destruct Hi as [Hi ?].
      specialize (Hb (Z.of_nat i) ltac:(lia)). unfold unit_at, at_ in Hb.
      rewrite Nat2Z.id in Hb. by rewrite Hi in Hb. }
  rewrite filter_none; [by rewrite app_nil_r|].
  apply Forall_lookup. intros i v Hi. rewrite lookup_drop in Hi.
  pose proof (lookup_lt_Some _ _ _ Hi).
  specialize (Ha (Z.of_nat (Z.to_nat c + i)) ltac:(lia)). unfold unit_at, at_ in Ha.
  rewrite Nat2Z.id, Hi in Ha. cbn in Ha. lia.
Qed.

Lemma count_below_eq x c :
  0 ≤ c ≤ n → (∀ k, 0 ≤ k < c → u k < x) → (∀ k, c ≤ k < n → x ≤ u k) →
  count_below x = c.
Proof.
  intros Hc Hb Ha. unfold count_below.
  assert (Hp : filter (λ v, v < x) seen ≡ₚ filter (λ v, v < x) units).
  { by rewrite sort_on_perm. }
  rewrite Hp, (filter_below x c) by done. rewrite length_take. lia.
Qed.

(** [bound] finds such a split point for every [x]. *)
Lemma split_point x :
  ∃ c, 0 ≤ c ≤ n ∧ (∀ k, 0 ≤ k < c → u k < x) ∧ (∀ k, c ≤ k < n → x ≤ u k).
Proof.
  destruct (bound_spec units x false units_le) as (Hr & Hb & Ha).
  exists (bound units x false). split; [done|]. unfold below, unit_at in *.
  split; intros k Hk; [specialize (Hb k Hk)|specialize (Ha k Hk)]; cbn [andb] in *; lia.
Qed.

Lemma count_below_spec x :
  0 ≤ count_below x ≤ n ∧ (∀ k, 0 ≤ k < count_below x → u k < x) ∧
  (∀ k, count_below x ≤ k < n → x ≤ u k).
Proof.
  destruct (split_point x) as (c & Hc & Hb & Ha). by rewrite (count_below_eq x c).
Qed.

Lemma count_below_mono x y : x ≤ y → count_below x ≤ count_below y.
Proof.
  intros. destruct (count_below_spec x) as (Hx & Hxb & _).
  destruct (count_below_spec y) as (Hy & _ & Hya).
  destruct (decide (count_below x ≤ count_below y)); [done|].
  specialize (Hxb (count_below y) ltac:(lia)). specialize (Hya (count_below y) ltac:(lia)). lia.
Qed.

Lemma prefix_below x :
  prefix_at rankPrefix (count_below x) = weighted (λ v, position v seen) (λ v, v < x) seen.
Proof.
  destruct (count_below_spec x) as (Hc & Hb & Ha). unfold prefix_at.
  rewrite at_partial_sums by (rewrite length_fmap; lia).
  rewrite (weighted_perm _ _ seen units) by by rewrite sort_on_perm.
  unfold weighted. rewrite (filter_below x (count_below x)) by done.
  by rewrite fmap_take.
Qed.

(** The score of a range, as a cost between split points. *)
Lemma range_score_counts a b :
  a ≤ b + 1 →
  range_score seen (a, b) =
  Score (count_below (b + 1) - count_below a) (b - a + 1)
    (prefix_at rankPrefix (count_below (b + 1)) - prefix_at rankPrefix (count_below a)).
Proof.
  intros. rewrite range_score_weighted, !weighted_split, !prefix_below by (cbn; lia). cbn.
  by rewrite !weighted_one.
Qed.

Lemma range_score_cost i j :
  0 ≤ i < j → j ≤ n →
  range_score seen (u i, u (j - 1)) = cost units rankPrefix i j.
Proof.
  intros. assert (Hi : count_below (u i) = i).
  { apply count_below_eq; [lia| |]; intros k Hk; [apply units_lt|apply units_le]; lia. }
  assert (Hj : count_below (u (j - 1) + 1) = j).
  { apply count_below_eq; [lia| |]; intros k Hk.
    - pose proof (units_le k (j - 1)). lia.
    - pose proof (units_lt (j - 1) k). lia. }
  pose proof (units_le i (j - 1)). rewrite range_score_counts, Hi, Hj by lia. done.
Qed.
End sorted_units.

(** ** Between families of units and families of indices *)
Section families.
Context (percent : Z) (seen : list Z) (nodup : NoDup seen) (positive : 1 ≤ percent).
Notation units := (sort_on id seen).
Notation n := (Z.of_nat (length units)).
Notation u := (unit_at units).
Notation rankPrefix := (partial_sums 0 ((λ v, position v seen) <$> units)).
Notation below := (count_below seen).
Definition range_dense (r : range) : Prop :=
  percent * s_size (range_score seen r) ≤ 100 * s_hits (range_score seen r).

(** A dense range holds an observed unit; its trimmed version is a dense
    interval of indices that is at least as good. *)
Lemma trim_range a b :
  a ≤ b → range_dense (a, b) →
  let i := below a in let j := below (b + 1) in
  0 ≤ i < j ∧ j ≤ n ∧ dense percent units i j ∧
  better (range_score seen (a, b)) (cost units rankPrefix i j) = false.
Proof.
  intros Hab Hd. cbv zeta. unfold range_dense in Hd.
  rewrite (range_score_counts seen nodup a b ltac:(lia)) in *. cbn in Hd.
  destruct (count_below_spec seen nodup a) as (Hi & _ & Hia).
  destruct (count_below_spec seen nodup (b + 1)) as (Hj & Hjb & _).
  set (i := below a) in *. set (j := below (b + 1)) in *.
  assert (Hij : i < j) by nia.
  specialize (Hia i ltac:(lia)). specialize (Hjb (j - 1) ltac:(lia)).
  split; [lia|]. split; [lia|]. split.
  - unfold dense. nia.
  - apply better_false. cbn. lia.
Qed.

Lemma better_plus2 a b c d :
  better a b = false → better c d = false → better (plus a c) (plus b d) = false.
Proof.
  intros H1 H2. apply (better_trans_false _ (plus b c)).
  - by rewrite better_plus.
  - rewrite !(plus_comm b). by rewrite better_plus.
Qed.

(** Descending families. *)
Lemma family_to_chosen (ds : list range) x :
  Forall (λ r, r.1 ≤ r.2) ds → Forall range_dense ds →
  StronglySorted (λ r s, s.2 < r.1) ds → Forall (λ r, r.2 < x) ds →
  ∃ l, chosen percent units (length ds) (below x) l ∧
    better (family_score seen ds) (total units rankPrefix l) = false.
Proof.
  intros Hr Hd Hs. revert x. induction Hs as [|[a b] ds Hs IH Hlt]; intros x Hx.
  { exists []. split; [constructor|]. apply better_irrefl. }
  inversion_clear Hr as [|?? Hab Hr']. inversion_clear Hd as [|?? Hdab Hd'].
  inversion_clear Hx as [|?? Hbx _]. cbn in Hab, Hbx.
  destruct (IH Hr' Hd' a Hlt) as (l & Hl & Hbl).
  destruct (trim_range a b Hab Hdab) as (Hij & Hjn & Hdij & Hb).
  exists ((below a, below (b + 1)) :: l). split.
  - econstructor; eauto. apply count_below_mono; [done|lia].
  - cbn [family_score foldr total length]. rewrite plus_comm.
    by apply better_plus2.
Qed.

Lemma sorted_disjoint_lt fam :
  Forall (λ r : range, r.1 ≤ r.2) fam → key_sorted fst fam → disjoint_ranges fam →
  StronglySorted (λ r s, r.2 < s.1) fam.
Proof.
  intros Hr Hs Hd. induction Hs as [|r fam Hs IH Hle]; [constructor|].
  inversion_clear Hr as [|?? Hr1 Hr2]. inversion_clear Hd as [|?? Hd1 Hd2].
  constructor; [auto|]. apply Forall_forall. intros s Hin.
  pose proof (proj1 (Forall_forall _ _) Hle s Hin).
  pose proof (proj1 (Forall_forall _ _) Hr2 s Hin).
  pose proof (proj1 (Forall_forall _ _) Hd1 s Hin) as [|]; cbn in *; lia.
Qed.

Lemma StronglySorted_reverse {A} (R : A → A → Prop) l :
  StronglySorted R l → StronglySorted (flip R) (reverse l).
Proof.
  induction 1 as [|x l Hl IH Hx]; [constructor|]. rewrite reverse_cons.
  apply StronglySorted_snoc. split; [done|]. by rewrite reverse_Permutation.
Qed.

(** Every admissible family is dominated by a family of index intervals. *)
Lemma family_dominated fam :
  family_ok percent seen fam →
  ∃ k l, (k ≤ Z.to_nat RANGE_SLOTS)%nat ∧ chosen percent units k n l ∧
    better (family_score seen fam) (total units rankPrefix l) = false.
Proof.
  intros [Hlen Hr Hdis Hdense].
  set (ds := reverse (sort_on fst fam)).
  assert (Hp : ds ≡ₚ fam) by by (unfold ds; rewrite reverse_Permutation, sort_on_perm).
  assert (Hx : ∃ x, Forall (λ r : range, r.2 < x) ds).
  { clear. induction ds as [|r l [x Hx]]; [by exists 0|].
    exists (Z.max x (r.2 + 1)). constructor; [lia|].
    eapply Forall_impl; [exact Hx|]. cbn. lia. }
  destruct Hx as [x Hx].
  destruct (family_to_chosen ds x) as (l & Hl & Hb).
  - by rewrite Hp.
  - by rewrite Hp.
  - apply (StronglySorted_reverse (λ r s : range, r.2 < s.1)), sorted_disjoint_lt.
    + by rewrite sort_on_perm.
    + apply sort_on_sorted.
    + eapply disjoint_ranges_perm; [symmetry; apply sort_on_perm|done].
  - done.
  - exists (length ds), l. rewrite <- (family_score_perm seen ds fam) by done.
    split; [rewrite Hp; apply Nat2Z.inj_le; rewrite Z2Nat.id by done; exact Hlen|]. split; [|done].
    eapply chosen_mono; [exact Hl|]. by apply count_below_spec.
Qed.

Lemma chosen_slots k k' j l :
  chosen percent units k j l → (k ≤ k')%nat → chosen percent units k' j l.
Proof.
  intros H. revert k'. induction H as [|k i j' j l Hl IH]; intros k' Hk; [constructor|].
  destruct k' as [|k']; [lia|]. econstructor; eauto. apply IH. lia.
Qed.

Definition to_ranges (l : list (Z * Z)) : list range :=
  (λ p, (at_ 0 units p.1, at_ 0 units (p.2 - 1))) <$> l.

(** Both ends of the range were observed. *)
Definition observed_ends (r : range) : Prop := r.1 ∈ seen ∧ r.2 ∈ seen.

Lemma unit_at_seen i : 0 ≤ i < n → u i ∈ seen.
Proof.
  intros Hi. unfold unit_at, at_.
  destruct (lookup_lt_is_Some_2 units (Z.to_nat i)) as [x Hx]; [lia|].
  rewrite Hx. cbn. rewrite <- (sort_on_perm id seen). by eapply list_elem_of_lookup_2.
Qed.

(** The ranges of a family of index intervals. *)
Lemma chosen_ranges k j l :
  chosen percent units k j l → j ≤ n →
  (length l ≤ k)%nat ∧
  Forall (λ r, r.1 ≤ r.2) (to_ranges l) ∧ disjoint_ranges (to_ranges l) ∧
  Forall range_dense (to_ranges l) ∧
  family_score seen (to_ranges l) = total units rankPrefix l ∧
  Forall (λ r : range, ∃ i, 0 ≤ i < j ∧ r.2 = u i) (to_ranges l) ∧
  Forall observed_ends (to_ranges l).
Proof.
  induction 1 as [|k i j' j l Hl IH Hij Hj' Hd]; intros Hj.
  { cbn. split_and!; try constructor; lia. }
  destruct IH as (Hlen & Hr & Hdis & Hden & Hsc & Hend & Hobs); [lia|].
  assert (Hcost : range_score seen (u i, u (j' - 1)) = cost units rankPrefix i j').
  { apply range_score_cost; [done|lia|lia]. }
  unfold unit_at in Hcost. cbn [to_ranges fmap list_fmap fst snd].
  pose proof (units_le seen nodup i (j' - 1) ltac:(lia) ltac:(lia)) as Hle.
  split_and!.
  - cbn. lia.
  - constructor; [exact Hle|done].
  - constructor; [|done]. eapply Forall_impl; [exact Hend|].
    intros r (m & Hm & E). right. cbn. rewrite E. apply (units_lt seen nodup m i); lia.
  - constructor; [|done]. unfold range_dense. rewrite Hcost. exact Hd.
  - cbn [family_score foldr total]. rewrite Hcost, plus_comm. by f_equal.
  - constructor.
    + exists (j' - 1). split; [lia|done].
    + eapply Forall_impl; [exact Hend|]. intros r (m & Hm & E). exists m. split; [lia|done].
  - constructor; [|done]. split; apply unit_at_seen; lia.
Qed.

(** *** Merging

    [chain acc l]: the merged ranges [acc] leave gaps, and the ranges [l] still
    to merge follow them in increasing order. *)
Record chain (acc l : list range) : Prop := {
  chain_le : Forall (λ r : range, r.1 ≤ r.2) (acc ++ l);
  chain_dense : Forall range_dense (acc ++ l);
  chain_lt : StronglySorted (λ r s : range, r.2 < s.1) (acc ++ l);
  chain_gap : StronglySorted (λ r s : range, r.2 + 1 < s.1) acc;
  chain_ends : Forall observed_ends (acc ++ l)
}.

Lemma snoc_app {A} (l1 : list A) x l2 : l1 ++ x :: l2 = (l1 ++ [x]) ++ l2.
Proof. by rewrite <- app_assoc. Qed.

Lemma chain_push acc r l :
  chain acc (r :: l) → Forall (λ y : range, y.2 + 1 < r.1) acc → chain (acc ++ [r]) l.
Proof.
  intros [H1 H2 H3 H4 H5] Hg. rewrite snoc_app in H1, H2, H3, H5. split; try done.
  by apply StronglySorted_snoc.
Qed.

(** The last merged range lies before the next range. *)
Lemma chain_last acc s r l :
  chain (acc ++ [s]) (r :: l) → s.2 < r.1 ∧ Forall (λ y : range, y.2 + 1 < r.1) acc.
Proof.
  intros [H1 _ H3 H4 _]. apply StronglySorted_snoc in H4 as [_ H4].
  rewrite <- app_assoc in H1, H3. cbn in H1, H3.
  assert (Hs : s.1 ≤ s.2).
  { apply Forall_app in H1 as [_ H1]. by apply Forall_cons in H1 as [? _]. }
  assert (Hsr : s.2 < r.1).
  { clear -H3. induction acc as [|y acc IH]; cbn in H3; apply StronglySorted_inv in H3 as [G1 G2].
    - by apply Forall_cons in G2 as [? _].
    - by apply IH. }
  split; [done|]. eapply Forall_impl; [exact H4|]. cbn. lia.
Qed.

Lemma chain_join acc s1 s2 r2 l :
  chain (acc ++ [(s1, s2)]) ((s2 + 1, r2) :: l) →
  range_score seen (s1, r2) =
    plus (range_score seen (s1, s2)) (range_score seen (s2 + 1, r2)) ∧
  chain (acc ++ [(s1, r2)]) l.
Proof.
  intros [H1 H2 H3 H4 H5]. rewrite <- app_assoc in H1, H2, H3, H5. cbn in H1, H2, H3, H5.
  rewrite Forall_app, !Forall_cons in H1, H2, H5. destruct H1 as (H1 & Hs & Hr & Hl).
  destruct H2 as (H2 & Ds & Dr & Dl). cbn in Hs, Hr.
  pose proof (range_score_adjacent seen s1 s2 r2 ltac:(lia) ltac:(lia)) as Hadj.
  split; [done|]. split; rewrite <- ?app_assoc; cbn.
  - rewrite Forall_app, Forall_cons. split_and!; [done|cbn; lia|done].
  - rewrite Forall_app, Forall_cons. split_and!; [done| |done].
    unfold range_dense in *. rewrite Hadj. cbn in *. lia.
  - clear -H3 Hr. induction acc as [|y acc IH]; cbn in *; apply StronglySorted_inv in H3 as [G1 G2].
    + apply StronglySorted_inv in G1 as [G1 G3]. by constructor.
    + constructor; [by apply IH|]. rewrite Forall_app, !Forall_cons in *. naive_solver.
  - apply StronglySorted_snoc in H4 as [H4 H6]. by apply StronglySorted_snoc.
  - rewrite Forall_app, Forall_cons. unfold observed_ends in *. naive_solver.
Qed.

Lemma merge_step_spec acc r l :
  chain acc (r :: l) →
  chain (merge_step acc r) l ∧
  family_score seen (merge_step acc r ++ l) = family_score seen (acc ++ r :: l) ∧
  (length (merge_step acc r ++ l) ≤ length (acc ++ r :: l))%nat.
Proof.
  intros Hc. unfold merge_step. destruct acc as [|s acc _] using rev_ind.
  { cbn. split_and!; [|done|done]. by apply (chain_push []). }
  rewrite last_snoc. destruct (chain_last _ _ _ _ Hc) as [Hsr Hacc].
  destruct (s.2 + 1 =? r.1) eqn:E; bools.
  - rewrite removelast_last. destruct s as [s1 s2], r as [r1 r2]; cbn in *. subst r1.
    destruct (chain_join _ _ _ _ _ Hc) as [Hadj Hc']. split_and!; [done| |].
    + rewrite <- !app_assoc, !(family_score_app seen acc). cbn. f_equal.
      by rewrite Hadj, plus_assoc.
    + rewrite !length_app. cbn. lia.
  - rewrite (snoc_app (acc ++ [s]) r l). split_and!; [|done|done].
    apply chain_push; [done|]. apply Forall_app. split; [done|].
    repeat constructor. lia.
Qed.

Lemma merge_spec l acc :
  chain acc l →
  chain (foldl merge_step acc l) [] ∧
  family_score seen (foldl merge_step acc l) = family_score seen (acc ++ l) ∧
  (length (foldl merge_step acc l) ≤ length (acc ++ l))%nat.
Proof.
  revert acc. induction l as [|r l IH]; intros acc Hc; cbn [foldl].
  { rewrite app_nil_r. by split_and!. }
  destruct (merge_step_spec acc r l Hc) as (Hc' & <- & Hlen).
  destruct (IH _ Hc') as (? & -> & ?). split_and!; [done|done|lia].
Qed.
End families.

(** ** The whole function *)

(** The parts of a successful run. *)
Lemma select_inv touched q res :
  selectBootRanges touched q = Ok res →
  ∃ percent choices final,
    let seen := distinct touched in
    let units := sort_on id seen in
    let rankPrefix := partial_sums 0 ((λ v, position v seen) <$> units) in
    percent_of q = Ok (r_minUtilization res, percent) ∧
    forallb unit_valid touched = true ∧
    fill_slots percent units rankPrefix (Z.to_nat RANGE_SLOTS) = (choices, final) ∧
    let l := backtrack (S (length units)) choices (RANGE_SLOTS - 1) (Z.of_nat (length units)) in
    d_range <$> r_details res ≡ₚ merge_ranges (sort_on fst (to_ranges seen l)) ∧
    Score (r_coveredUnits res) (r_downloadUnits res) (r_rankSum res) =
      at_ zero final (Z.of_nat (length units)).
Proof.
  unfold selectBootRanges. intros H. inv_bind. destruct a as [m percent].
  destruct (forallb unit_valid touched) eqn:Ev; cbn [negb] in H; [|discriminate].
  destruct (fill_slots _ _ _ _) as [choices final] eqn:Ef. injection H as <-.
  exists percent, choices, final. cbn. split_and!; [done..| |by destruct (at_ zero final _)].
  rewrite !sort_on_perm, <- list_fmap_compose. cbn. by rewrite list_fmap_id.
Qed.

Lemma percent_of_range q m p : percent_of q = Ok (m, p) → 1 ≤ p ≤ 100.
Proof.
  unfold percent_of. destruct (as_finite _) as [x|]; [|discriminate].
  cbv zeta. generalize (Qfloor (x * inject_Z 100 + (1 # 2))). intros f.
  destruct (_ || _) eqn:E; [discriminate|]. intros [= <- <-]. bools. lia.
Qed.

(** The ranges of the details are those of a merged chain with the optimal score. *)
Lemma select_core touched q res :
  selectBootRanges touched q = Ok res →
  ∃ percent m,
    percent_of q = Ok (r_minUtilization res, percent) ∧
    let seen := distinct touched in
    let best := Score (r_coveredUnits res) (r_downloadUnits res) (r_rankSum res) in
    d_range <$> r_details res ≡ₚ m ∧ chain percent seen m [] ∧
    Z.of_nat (length m) ≤ RANGE_SLOTS ∧
    family_score seen m = best ∧
    (∀ fam, family_ok percent seen fam → better (family_score seen fam) best = false).
Proof.
  intros H. destruct (select_inv _ _ _ H) as (percent & choices & final & Hp & _ & Hf & Hfam & Hbest).
  exists percent. cbv zeta in *. pose proof (percent_of_range _ _ _ Hp) as Hpr.
  set (seen := distinct touched) in *. assert (Hnd : NoDup seen) by apply NoDup_distinct.
  set (units := sort_on id seen) in *. set (rp := partial_sums _ _) in *.
  destruct (backtrack_spec percent units rp _ _ _ [] (S (length units))
    (Z.of_nat (length units)) Hf ltac:(lia) ltac:(lia)) as [Hc Ht].
  rewrite app_nil_r in Hc, Ht. change (Z.of_nat (Z.to_nat RANGE_SLOTS)) with RANGE_SLOTS in Hc, Ht.
  set (l := backtrack _ _ _ _) in *. rewrite Hbest, <- Ht.
  destruct (chosen_ranges percent seen Hnd _ _ _ Hc (Z.le_refl _))
    as (Hlen & Hr & Hdis & Hden & Hsc & _ & Hobs).
  set (rs := to_ranges seen l) in *.
  assert (Hchain : chain percent seen [] (sort_on fst rs)).
  { split; cbn [app]; [by rewrite sort_on_perm..| |constructor|by rewrite sort_on_perm].
    apply sorted_disjoint_lt; [by rewrite sort_on_perm|apply sort_on_sorted|].
    eapply disjoint_ranges_perm; [symmetry; apply sort_on_perm|done]. }
  destruct (merge_spec percent seen (sort_on fst rs) [] Hchain) as (Mchain & Msc & Mlen).
  exists (merge_ranges (sort_on fst rs)). split_and!; [done..| | |].
  - change RANGE_SLOTS with (Z.of_nat (Z.to_nat RANGE_SLOTS)). apply inj_le.
    etrans; [exact Mlen|]. etrans; [|exact Hlen]. apply Nat.eq_le_incl.
    etrans; [apply Permutation_length, sort_on_perm|]. apply length_fmap.
  - etrans; [exact Msc|]. etrans; [|exact Hsc]. apply family_score_perm, sort_on_perm.
  - intros fam Hfam'.
    destruct (family_dominated percent seen Hnd (proj1 Hpr) fam Hfam') as (k & l' & Hk & Hl' & Hb).
    eapply better_trans_false; [exact Hb|]. rewrite Ht.
    apply (fill_slots_opt percent units rp _ _ _ Hf);
      [split; [apply Nat2Z.is_nonneg|apply Z.le_refl]|].
    by eapply chosen_slots.
Qed.

Lemma select_best touched q res :
  selectBootRanges touched q = Ok res →
  ∃ percent,
    percent_of q = Ok (r_minUtilization res, percent) ∧
    let seen := distinct touched in
    let fam := d_range <$> r_details res in
    let best := Score (r_coveredUnits res) (r_downloadUnits res) (r_rankSum res) in
    family_ok percent seen fam ∧
    family_score seen fam = best ∧
    (∀ fam', family_ok percent seen fam' → better (family_score seen fam') best = false).
Proof.
  intros H.
  destruct (select_core _ _ _ H) as (percent & m & Hp & Hfam & [M1 M2 _ M4 _] & Hlen & Hsc & Hopt).
  rewrite app_nil_r in M1, M2. exists percent. cbv zeta. split_and!; [done| | |done].
  - split.
    + by rewrite (Permutation_length Hfam).
    + by rewrite Hfam.
    + eapply disjoint_ranges_perm; [symmetry; exact Hfam|].
      eapply StronglySorted_OrdPairs; [|exact M4]. intros r t Hrt. left. cbv beta in Hrt. lia.
    + by rewrite Hfam.
  - etrans; [apply (family_score_perm _ _ _ Hfam)|exact Hsc].
Qed.

(** C27: a successful selection is an admissible family: at most 32 disjoint
    ranges, each with at least the requested percentage of observed units; the
    reported totals are those of its ranges; and no admissible family of ranges
    of units, however chosen, is better. *)
Theorem select_optimal touched q res :
  selectBootRanges touched q = Ok res →
  ∃ percent,
    percent_of q = Ok (r_minUtilization res, percent) ∧
    let seen := distinct touched in
    let fam := d_range <$> r_details res in
    let best := Score (r_coveredUnits res) (r_downloadUnits res) (r_rankSum res) in
    family_ok percent seen fam ∧
    family_score seen fam = best ∧
    (∀ fam', family_ok percent seen fam' → better (family_score seen fam') best = false).
Proof. exact (select_best touched q res). Qed.

Lemma select_optimal_witness :
  ∃ res percent,
    selectBootRanges [8; 9; 8; 10; 40] (NFrac (1 # 2)) = Ok res ∧
    percent_of (NFrac (1 # 2)) = Ok (r_minUtilization res, percent) ∧
    family_ok percent [8; 9; 10; 40] (d_range <$> r_details res).
Proof.
  destruct (selectBootRanges [8; 9; 8; 10; 40] (NFrac (1 # 2))) as [res|e] eqn:E.
  - destruct (select_optimal _ _ _ E) as (percent & Hp & Hf & _).
    exists res, percent. split; [reflexivity|]. split; [exact Hp|exact Hf].
  - exfalso. vm_compute in E. discriminate E.
Defined.

Lemma omap_slots (details : list detail) k :
  omap id ((Some ∘ d_range <$> details) ++ replicate k None) = d_range <$> details.
Proof.
  induction details as [|d l IH]; cbn; [|by f_equal]. by induction k.
Qed.

Lemma filter_Permutation_length {A} (P : A → Prop) `{∀ x, Decision (P x)} l1 l2 :
  l1 ≡ₚ l2 → length (filter P l1) = length (filter P l2).
Proof. by intros ->. Qed.

Lemma select_slots touched q res :
  selectBootRanges touched q = Ok res →
  Z.of_nat (length (r_ranges res)) = RANGE_SLOTS ∧
  omap id (r_ranges res) = d_range <$> r_details res ∧
  key_sorted d_firstUse (r_details res) ∧
  ForallOrdPairs (λ r s : range, r.2 + 1 < s.1 ∨ s.2 + 1 < r.1) (d_range <$> r_details res) ∧
  Forall (λ r : range, r.1 ≤ r.2 ∧ r.1 ∈ touched ∧ r.2 ∈ touched) (d_range <$> r_details res) ∧
  Forall (λ d, d_used d = s_hits (range_score (distinct touched) (d_range d))) (r_details res) ∧
  r_observedUnits res = Z.of_nat (length (distinct touched)).
Proof.
  intros H.
  destruct (select_core _ _ _ H) as (percent & m & Hp & Hfam & [M1 _ _ M4 M5] & Hlen & _).
  rewrite app_nil_r in M1, M5.
  assert (Hd : length (r_details res) = length m).
  { by rewrite <- (Permutation_length Hfam), length_fmap. }
  unfold selectBootRanges in H. inv_bind. destruct a as [m' p].
  destruct (forallb unit_valid touched); cbn [negb] in H; [|discriminate].
  destruct (fill_slots _ _ _ _) as [choices final]. injection H as <-.
  cbn [r_ranges r_details r_observedUnits] in *. set (details := sort_on d_firstUse _) in *.
  split_and!.
  - rewrite length_app, length_fmap, length_replicate. lia.
  - apply omap_slots.
  - apply sort_on_sorted.
  - eapply ForallOrdPairs_perm; [|symmetry; exact Hfam|].
    + intros r t [?|?]; [by right|by left].
    + eapply StronglySorted_OrdPairs; [|exact M4]. intros r t Hrt. by left.
  - rewrite Hfam. clear -M1 M5. induction M1; inversion_clear M5 as [|?? [??]]; constructor; auto.
    by rewrite <- !(elem_of_distinct _ touched).
  - unfold details. rewrite !sort_on_perm. apply Forall_fmap, Forall_true.
    intros r. cbn. f_equal. unfold used_units.
    by rewrite <- (filter_Permutation_length _ _ _ (sort_on_perm id (distinct touched))).
  - by rewrite (Permutation_length (sort_on_perm id _)).
Qed.

(** The 32 slots of the exported profile hold the ranges of the details, in
    order of first use, followed by empty slots; the ranges leave a gap between
    each other (adjacent ones are merged) and both ends of each were observed;
    every detail reports the number of observed units of its range. *)
Theorem select_layout touched q res :
  selectBootRanges touched q = Ok res →
  Z.of_nat (length (r_ranges res)) = RANGE_SLOTS ∧
  omap id (r_ranges res) = d_range <$> r_details res ∧
  key_sorted d_firstUse (r_details res) ∧
  ForallOrdPairs (λ r s : range, r.2 + 1 < s.1 ∨ s.2 + 1 < r.1) (d_range <$> r_details res) ∧
  Forall (λ r : range, r.1 ≤ r.2 ∧ r.1 ∈ touched ∧ r.2 ∈ touched) (d_range <$> r_details res) ∧
  Forall (λ d, d_used d = s_hits (range_score (distinct touched) (d_range d))) (r_details res) ∧
  r_observedUnits res = Z.of_nat (length (distinct touched)).
Proof. exact (select_slots touched q res). Qed.

Lemma select_layout_witness :
  ∃ res, selectBootRanges [8; 9; 8; 10; 40] (NFrac (1 # 2)) = Ok res ∧
    omap id (r_ranges res) = d_range <$> r_details res ∧
    Z.of_nat (length (r_ranges res)) = RANGE_SLOTS.
Proof.
  destruct (selectBootRanges [8; 9; 8; 10; 40] (NFrac (1 # 2))) as [res|e] eqn:E.
  - destruct (select_layout _ _ _ E) as (Hl & Ho & _). exists res. by split_and!.
  - exfalso. vm_compute in E. discriminate E.
Defined.
