(* ===== verification/BootAnalysis.v ===== *)
(** * Boot analysis (src/src/disk/web/boot-analysis.js)

    [BootAnalysis] records which 64 KiB units the guest touches, in first-touch
    order, and exports the load profile [selectBootRanges] computes from them.
    The exported document is what [validateLoadProfiles] accepts. *)
From S2P Require Import Prelude JsValue RangePrefetch Fenwick RangeProfile RangeProfileFacts LoadProfiles.
From Stdlib Require Import QArith.
#[local] Open Scope Z_scope.

Definition MAX_ANALYSIS_UNITS : Z := 200000.

Record analysis := Analysis {
  a_infoHash : string;
  a_size : Z;
  a_origin : jsval;
  a_units : list Z;      (** the [Set], in insertion order *)
  a_recording : bool;
  a_overflow : bool
}.

Definition new_analysis (infoHash : string) (size : Z) (origin : jsval) : analysis :=
  Analysis infoHash size origin [] true false.

(** The loop of [observe]; the boolean is the early [return true]. *)
Fixpoint add_units (units l : list Z) : list Z * bool :=
  match l with
  | [] => (units, false)
  | u :: l =>
      if bool_decide (u ∈ units) then add_units units l
      else if Z.of_nat (length units) =? MAX_ANALYSIS_UNITS then (units, true)
      else add_units (units ++ [u]) l
  end.

(** The units a read touches: none when [observe] ignores it. *)
Definition touched_units (size : Z) (offset len : jsval) : list Z :=
  if negb (truthy len) then [] else
  match as_safe_integer offset, as_safe_integer len with
  | Some o, Some n =>
      if (o <? 0) || (n <? 0) || (size <? o + n) then []
      else zrange (o / UNIT) (Z.to_nat ((o + n - 1) / UNIT - o / UNIT + 1))
  | _, _ => []
  end.

Definition observe_read (a : analysis) (offset len : jsval) : analysis * bool :=
  if negb (a_recording a) then (a, false) else
  let '(units, full) := add_units (a_units a) (touched_units (a_size a) offset len) in
  (Analysis (a_infoHash a) (a_size a) (a_origin a) units
     (negb full) (a_overflow a || full), full).

Definition profile_fields (a : analysis) (s : selection) : jsval :=
  JObj ([field "version" (JNum (NInt (if truthy (a_origin a) then 2 else 1)));
         field "infoHash" (JStr (a_infoHash a))] ++
        (if truthy (a_origin a) then [field "origin" (a_origin a)] else []) ++
        [field "unitBytes" (JNum (NInt UNIT));
         field "ranges" (JArr (slot_of <$> r_ranges s));
         field "minUtilization" (JNum (NFrac (r_minUtilization s)));
         field "observedUnits" (JNum (NInt (r_observedUnits s)));
         field "coveredUnits" (JNum (NInt (r_coveredUnits s)));
         field "downloadUnits" (JNum (NInt (r_downloadUnits s)))]).

Definition finish (a : analysis) : result jsval * analysis :=
  let a' := Analysis (a_infoHash a) (a_size a) (a_origin a) (a_units a) false (a_overflow a) in
  (if a_overflow a
   then throw "ANALYSIS_INCOMPLETE" "Analysis exceeded 200,000 distinct blocks. No partial profile was exported."
   else profile ← selectBootRanges (a_units a) (NFrac (1 # 2));
        Ok (JArr [profile_fields a profile]), a').

(** A run: the reads of the guest in order, and what each call returned. *)
Definition read : Type := jsval * jsval.
Fixpoint run (a : analysis) (reads : list read) : analysis * list bool :=
  match reads with
  | [] => (a, [])
  | r :: reads =>
      let '(a1, b) := observe_read a r.1 r.2 in
      let '(a2, bs) := run a1 reads in (a2, b :: bs)
  end.

(** ** The recorded units *)
Definition touch (units : list Z) (u : Z) : list Z :=
  if bool_decide (u ∈ units) then units else units ++ [u].

Lemma touch_prefix l units : units `prefix_of` foldl touch units l.
Proof.
  revert units. induction l as [|u l IH]; intros units; cbn; [done|].
  etrans; [|apply IH]. unfold touch. case_bool_decide; [done|]. by apply prefix_app_r.
Qed.

Lemma add_units_spec l units :
  Z.of_nat (length units) ≤ MAX_ANALYSIS_UNITS →
  let all := foldl touch units l in
  add_units units l =
    if Z.of_nat (length all) <=? MAX_ANALYSIS_UNITS then (all, false)
    else (take (Z.to_nat MAX_ANALYSIS_UNITS) all, true).
Proof.
  revert units. induction l as [|u l IH]; intros units Hlen; cbn.
  { by replace (Z.of_nat (length units) <=? MAX_ANALYSIS_UNITS) with true by lia. }
  unfold touch at 2 4 6. case_bool_decide as Hu; [by apply IH|].
  destruct (Z.of_nat (length units) =? MAX_ANALYSIS_UNITS) eqn:E; bools.
  - destruct (touch_prefix l (units ++ [u])) as [k Hk]. rewrite Hk.
    rewrite !length_app. cbn.
    rewrite (proj2 (Z.leb_gt _ _)) by lia.
    rewrite <- app_assoc, take_app_le by lia. by rewrite firstn_all2 by lia.
  - apply IH. rewrite length_app. cbn. lia.
Qed.

(** Everything the reads touch, without the limit. *)
Definition touched_by (size : Z) (reads : list read) : list Z :=
  concat ((λ r, touched_units size r.1 r.2) <$> reads).

Lemma run_stopped reads a : a_recording a = false → run a reads = (a, replicate (length reads) false).
Proof.
  intros Ha. induction reads as [|r reads IH]; cbn; [done|].
  unfold observe_read. rewrite Ha. cbn. by rewrite IH.
Qed.

Lemma run_spec reads a :
  a_recording a = true → a_overflow a = false →
  Z.of_nat (length (a_units a)) ≤ MAX_ANALYSIS_UNITS →
  let all := foldl touch (a_units a) (touched_by (a_size a) reads) in
  let '(a', bs) := run a reads in
  if Z.of_nat (length all) <=? MAX_ANALYSIS_UNITS
  then a' = Analysis (a_infoHash a) (a_size a) (a_origin a) all true false ∧
       bs = replicate (length reads) false
  else a' = Analysis (a_infoHash a) (a_size a) (a_origin a)
              (take (Z.to_nat MAX_ANALYSIS_UNITS) all) false true ∧
       ∃ i j, bs = replicate i false ++ true :: replicate j false ∧ (i + j + 1 = length reads)%nat.
Proof.
  revert a. induction reads as [|r reads IH]; intros a Hr Ho Hlen; cbn [run].
  { cbn. replace (Z.of_nat (length (a_units a)) <=? MAX_ANALYSIS_UNITS) with true by lia.
    split; [|done]. destruct a; cbn in *; by subst. }
  unfold observe_read. rewrite Hr, Ho. cbn [negb].
  pose proof (add_units_spec (touched_units (a_size a) r.1 r.2) (a_units a) Hlen) as Ha.
  cbn zeta in Ha. rewrite Ha. clear Ha.
  change (touched_by (a_size a) (r :: reads))
    with (touched_units (a_size a) r.1 r.2 ++ touched_by (a_size a) reads).
  rewrite foldl_app. set (mid := foldl touch (a_units a) (touched_units _ _ _)).
  destruct (Z.of_nat (length mid) <=? MAX_ANALYSIS_UNITS) eqn:E; bools.
  - specialize (IH (Analysis (a_infoHash a) (a_size a) (a_origin a) mid true false) eq_refl eq_refl E).
    cbn [a_units a_size a_infoHash a_origin] in IH. cbn [negb orb].
    destruct (run _ reads) as [a' bs]. cbv zeta in IH.
    destruct (_ <=? MAX_ANALYSIS_UNITS).
    + destruct IH as [-> ->]. done.
    + destruct IH as [-> (i & j & -> & Hij)]. split; [done|]. exists (S i), j. split; [done|cbn; lia].
  - rewrite run_stopped by done. cbn [negb orb].
    destruct (touch_prefix (touched_by (a_size a) reads) mid) as [k Hk]. rewrite Hk.
    rewrite length_app. rewrite (proj2 (Z.leb_gt _ _)) by lia.
    rewrite take_app_le by lia. split; [done|]. exists 0%nat, (length reads). split; [done|cbn; lia].
Qed.

Lemma run_records h size origin reads :
  let all := distinct (touched_by size reads) in
  let '(a, reports) := run (new_analysis h size origin) reads in
  a_size a = size ∧ a_infoHash a = h ∧ a_origin a = origin ∧
  a_units a = take (Z.to_nat MAX_ANALYSIS_UNITS) all ∧
  a_recording a = negb (a_overflow a) ∧
  (a_overflow a = true ↔ MAX_ANALYSIS_UNITS < Z.of_nat (length all)) ∧
  length (filter (λ b, b = true) reports) = (if a_overflow a then 1 else 0)%nat.
Proof.
  cbv zeta.
  assert (Hlen : Z.of_nat (length (a_units (new_analysis h size origin))) ≤ MAX_ANALYSIS_UNITS) by done.
  pose proof (run_spec reads (new_analysis h size origin) eq_refl eq_refl Hlen) as H.
  cbn [a_units a_size a_infoHash a_origin new_analysis] in H. cbv zeta in H.
  change (foldl touch [] (touched_by size reads)) with (distinct (touched_by size reads)) in H.
  assert (Hf : ∀ n, filter (λ b : bool, b = true) (replicate n false) = []).
  { intros n. by apply filter_none, Forall_replicate. }
  destruct (run _ reads) as [a bs].
  destruct (_ <=? MAX_ANALYSIS_UNITS) eqn:E; bools.
  - destruct H as [-> ->]. cbn. rewrite Hf. rewrite firstn_all2 by lia.
    split_and!; try done. split; [done|lia].
  - destruct H as [-> (i & j & -> & _)]. cbn -[filter].
    rewrite filter_app, filter_cons, !Hf. split_and!; try done.
Qed.

(** A fresh analysis records exactly the distinct units its reads touch, in
    first-touch order, as long as there are at most 200,000 of them; with more,
    it keeps the first 200,000, stops recording, and exactly one call reports
    the overflow. *)
Theorem analysis_records h size origin reads :
  let all := distinct (touched_by size reads) in
  let '(a, reports) := run (new_analysis h size origin) reads in
  a_size a = size ∧ a_infoHash a = h ∧ a_origin a = origin ∧
  a_units a = take (Z.to_nat MAX_ANALYSIS_UNITS) all ∧
  a_recording a = negb (a_overflow a) ∧
  (a_overflow a = true ↔ MAX_ANALYSIS_UNITS < Z.of_nat (length all)) ∧
  length (filter (λ b, b = true) reports) = (if a_overflow a then 1 else 0)%nat.
Proof. exact (run_records h size origin reads). Qed.

(** ** The exported profile *)
Lemma touched_units_bound size o n u :
  u ∈ touched_units size o n → 0 ≤ u ∧ u * UNIT < size.
Proof.
  unfold touched_units. destruct (truthy n) eqn:Hn; cbn; [|by intros ?%elem_of_nil].
  destruct (as_safe_integer o) as [o'|] eqn:Eo; [|by intros ?%elem_of_nil].
  destruct (as_safe_integer n) as [n'|] eqn:En; [|by intros ?%elem_of_nil].
  destruct (_ || _) eqn:E; [by intros ?%elem_of_nil|]. bools.
  apply as_safe_integer_Some in En as [-> _]. cbn in Hn. bools.
  rewrite elem_of_zrange. unfold UNIT in *. intros Hu.
  pose proof (Z.div_pos o' 65536 ltac:(lia) ltac:(lia)).
  assert (Hlast : u ≤ (o' + n' - 1) / 65536) by lia.
  pose proof (Z.mul_div_le (o' + n' - 1) 65536 ltac:(lia)). lia.
Qed.

Lemma touched_by_bound size reads u : u ∈ touched_by size reads → 0 ≤ u ∧ u * UNIT < size.
Proof.
  unfold touched_by. intros (r & _ & Hu)%elem_of_concat_fmap. by apply touched_units_bound in Hu.
Qed.

Lemma range_units_le N (rs : list range) :
  0 ≤ N → Forall (λ r : range, 0 ≤ r.1 ≤ r.2 ∧ r.2 < N) rs → disjoint_ranges rs →
  sum_list_Z ((λ r : range, r.2 - r.1 + 1) <$> rs) ≤ N.
Proof.
  intros HN Hb Hd.
  assert (H : sum_list_Z ((λ r : range, r.2 - r.1 + 1) <$> rs) =
              Z.of_nat (length (concat (range_units <$> rs)))).
  { clear Hd. induction Hb as [|r rs Hr Hb IH]; [done|]. cbn. rewrite length_app.
    unfold range_units at 1. rewrite length_zrange. unfold sum_list_Z in *. cbn in *. rewrite IH. lia. }
  rewrite H, <- (Z2Nat.id N) by done. apply inj_le. rewrite <- (length_zrange 0 (Z.to_nat N)).
  apply submseteq_length, NoDup_submseteq.
  - clear H. induction Hd as [|r rs Hr Hd IH]; cbn; [constructor|].
    apply Forall_cons in Hb as [Hb1 Hb]. apply NoDup_app. split_and!; [apply NoDup_zrange| |auto].
    intros u Hu (s & Hs & Hu')%elem_of_concat_fmap.
    rewrite Forall_forall in Hr, Hb. specialize (Hr s Hs). specialize (Hb s Hs). cbn in Hb.
    unfold range_units, apart in *. rewrite elem_of_zrange in Hu, Hu'. lia.
  - intros u (s & Hs & Hu)%elem_of_concat_fmap.
    rewrite Forall_forall in Hb. specialize (Hb s Hs). cbn in Hb.
    unfold range_units in Hu. rewrite elem_of_zrange in *. lia.
Qed.

Lemma used_le_size seen (r : range) :
  NoDup seen → r.1 ≤ r.2 → s_hits (range_score seen r) ≤ s_size (range_score seen r).
Proof.
  intros Hnd Hr. cbn. rewrite <- (Z2Nat.id (r.2 - r.1 + 1)) by lia. apply inj_le.
  rewrite <- (length_zrange r.1 (Z.to_nat _)). apply submseteq_length, NoDup_submseteq.
  - by apply NoDup_filter.
  - intros u. unfold used_units. rewrite list_elem_of_filter, elem_of_zrange. lia.
Qed.

Lemma family_score_bounds N seen fam :
  0 ≤ N → NoDup seen → Forall (λ r : range, 0 ≤ r.1 ≤ r.2 ∧ r.2 < N) fam → disjoint_ranges fam →
  0 ≤ s_hits (family_score seen fam) ≤ s_size (family_score seen fam) ∧
  s_size (family_score seen fam) ≤ N.
Proof.
  intros HN Hnd Hb Hd. pose proof (range_units_le N fam HN Hb Hd) as Hle.
  assert (Hs : s_size (family_score seen fam) = sum_list_Z ((λ r : range, r.2 - r.1 + 1) <$> fam)).
  { clear. unfold sum_list_Z, family_score. induction fam as [|r fam IH]; cbn in *; [done|].
    by rewrite IH. }
  split; [|lia]. clear -Hnd Hb. unfold family_score. induction Hb as [|r fam Hr Hb IH]; [done|].
  pose proof (used_le_size seen r Hnd ltac:(lia)). cbn in *. lia.
Qed.

(** With the default utilization the selection succeeds on valid units. *)
Lemma select_ok touched :
  Forall (λ u, 0 ≤ u < 2 ^ 24) touched →
  ∃ res, selectBootRanges touched (NFrac (1 # 2)) = Ok res ∧ r_minUtilization res = 1 # 2.
Proof.
  intros Ht. unfold selectBootRanges.
  change (percent_of (NFrac (1 # 2))) with (Ok (1 # 2, 50)). cbn [mbind result_bind].
  rewrite (proj2 (forallb_forall _ _)); cbn [negb].
  - destruct (fill_slots _ _ _ _) as [ch fin]. by eexists.
  - intros u Hu%list_elem_of_In. rewrite Forall_forall in Ht. specialize (Ht u Hu).
    unfold unit_valid, is_safe, MAX_SAFE_INTEGER. cbv beta in Ht.
    rewrite !andb_true_iff. lia.
Qed.

Lemma NoDup_length_bound N (l : list Z) :
  0 ≤ N → NoDup l → Forall (λ u, 0 ≤ u < N) l → Z.of_nat (length l) ≤ N.
Proof.
  intros HN Hnd Hb. rewrite <- (Z2Nat.id N) by done. apply inj_le.
  rewrite <- (length_zrange 0 (Z.to_nat N)). apply submseteq_length, NoDup_submseteq; [done|].
  intros u Hu. rewrite Forall_forall in Hb. specialize (Hb u Hu). cbv beta in Hb.
  apply elem_of_zrange. lia.
Qed.

(** What [selectBootRanges] promises about units below [N]. *)
Lemma selection_fits N touched res :
  0 ≤ N → Forall (λ u, 0 ≤ u < N) touched →
  selectBootRanges touched (NFrac (1 # 2)) = Ok res →
  Z.of_nat (length (r_ranges res)) = RANGE_SLOTS ∧
  Forall (λ r : range, 0 ≤ r.1 ≤ r.2 ∧ r.2 < N) (omap id (r_ranges res)) ∧
  disjoint_ranges (omap id (r_ranges res)) ∧
  Forall (λ z, 0 ≤ z ≤ N) [r_observedUnits res; r_coveredUnits res; r_downloadUnits res].
Proof.
  intros HN Ht H.
  destruct (select_slots _ _ _ H) as (Hlen & Hom & _ & _ & Hends & _ & Hobs).
  destruct (select_best _ _ _ H) as (percent & _ & Hfam & Hsc & _).
  rewrite Hom. destruct Hfam as [_ _ Hdis _].
  assert (Hb : Forall (λ r : range, 0 ≤ r.1 ≤ r.2 ∧ r.2 < N) (d_range <$> r_details res)).
  { eapply Forall_impl; [exact Hends|]. intros r (Hr & H1 & H2). rewrite Forall_forall in Ht.
    pose proof (Ht _ H1) as Hb1. pose proof (Ht _ H2) as Hb2. cbv beta in Hb1, Hb2. lia. }
  split_and!; [done|done|done|].
  - destruct (family_score_bounds N (distinct touched) _ HN (NoDup_distinct _) Hb Hdis) as [Hh Hs].
    rewrite Hsc in Hh, Hs. cbn in Hh, Hs.
    assert (Hn : 0 ≤ r_observedUnits res ≤ N).
    { rewrite Hobs. split; [lia|]. apply NoDup_length_bound; [done|apply NoDup_distinct|].
      apply Forall_forall. intros u Hu. rewrite elem_of_distinct in Hu. rewrite Forall_forall in Ht. exact (Ht u Hu). }
    repeat (apply Forall_cons; split; [lia|]); constructor.
Qed.

(** The disk origins: a boot, or a state named by its SHA-256. *)
Definition origin_ok (origin : jsval) : Prop :=
  (get origin "kind" = JStr "boot" ∧ get origin "sha256" = JUndefined) ∨
  (get origin "kind" = JStr "state" ∧ hex_test 64 (get origin "sha256") = true).

Lemma exported_valid h units a res :
  hex_string 40 h = true → a_infoHash a = h → origin_ok (a_origin a) →
  r_minUtilization res = 1 # 2 →
  Z.of_nat (length (r_ranges res)) = RANGE_SLOTS →
  Forall (valid_range units) (omap id (r_ranges res)) →
  disjoint_ranges (omap id (r_ranges res)) →
  Forall (λ z, 0 ≤ z ≤ units ∧ z ≤ 2 ^ 24) [r_observedUnits res; r_coveredUnits res; r_downloadUnits res] →
  ∃ kind, valid_profile h units (profile_fields a res) kind (r_ranges res).
Proof.
  intros Hh Ha Ho Hu Hlen Hb Hd Hc.
  assert (Ht : truthy (a_origin a) = true).
  { destruct Ho as [[E _]|[E _]]; by destruct (a_origin a). }
  apply Forall_cons in Hc as [Hc1 [Hc2 [Hc3 _]%Forall_cons]%Forall_cons].
  assert (Hcount : ∀ z, 0 ≤ z ≤ units ∧ z ≤ 2 ^ 24 → is_safe z && ((0 <=? z) && (z <=? units)) = true).
  { intros z Hz. unfold is_safe, MAX_SAFE_INTEGER. rewrite !andb_true_iff. lia. }
  assert (Hcok : ∀ z, 0 ≤ z ≤ units ∧ z ≤ 2 ^ 24 →
    match (if is_safe z then Some z else None) with
    | Some z => (0 <=? z) && (z <=? units) | None => false end = true).
  { intros z Hz. specialize (Hcount z Hz). destruct (is_safe z); [|done]. done. }
  exists (if is_str (get (a_origin a) "kind") "boot" then "boot"%string else "state"%string).
  unfold profile_fields. rewrite Ht. split; try done.
  - by rewrite <- Ha.
  - destruct Ho as [[E _]|[E _]]; cbn; by rewrite E.
  - cbn. destruct Ho as [[E1 E2]|[E1 E2]]; rewrite E1; cbn; auto.
  - unfold utilization_ok. cbn. by rewrite Hu.
  - apply Forall_cons; split; [exact (Hcok _ Hc1)|]. apply Forall_cons; split; [exact (Hcok _ Hc2)|].
    apply Forall_cons; split; [exact (Hcok _ Hc3)|constructor].
Qed.

(** For a disk of at most 1 TiB, whatever the guest reads, [finish] either
    throws [ANALYSIS_INCOMPLETE], exactly when more than 200,000 distinct units
    were touched, or exports a document that [validateLoadProfiles] accepts for
    this disk.  Reads after [finish] do not change what it answers. *)
Theorem finish_validates h size origin reads units :
  hex_string 40 h = true → origin_ok origin →
  size ≤ 2 ^ 40 → 0 ≤ units → size ≤ units * UNIT →
  let '(r, a) := finish (run (new_analysis h size origin) reads).1 in
  match r with
  | Ok v => Z.of_nat (length (distinct (touched_by size reads))) ≤ MAX_ANALYSIS_UNITS ∧
            validateLoadProfiles v (JStr h) units = Ok v
  | Throw e => MAX_ANALYSIS_UNITS < Z.of_nat (length (distinct (touched_by size reads))) ∧
               exn_code e = Some "ANALYSIS_INCOMPLETE"%string
  end ∧
  ∀ more, finish (run a more).1 = (r, a).
Proof.
  intros Hh Ho Hsize Hunits Hfit. pose proof (run_records h size origin reads) as H.
  cbv zeta in H. destruct (run _ reads) as [a reports].
  destruct H as (Es & Eh & Eo & Eu & _ & Eov & _). cbn [fst]. unfold finish.
  split; [|intros more; by rewrite run_stopped].
  destruct (a_overflow a); [split; [by apply Eov|done]|].
  assert (Hsmall : Z.of_nat (length (distinct (touched_by size reads))) ≤ MAX_ANALYSIS_UNITS).
  { apply Z.nlt_ge. intros Hlt. by apply Eov in Hlt. }
  rewrite firstn_all2 in Eu by lia.
  assert (Hb : Forall (λ u, 0 ≤ u ∧ u * UNIT < size) (a_units a)).
  { rewrite Eu. apply Forall_forall. intros u Hu. rewrite elem_of_distinct in Hu. by eapply touched_by_bound. }
  unfold UNIT in *.
  assert (H24 : Forall (λ u, 0 ≤ u < 2 ^ 24) (a_units a)).
  { eapply Forall_impl; [exact Hb|]. cbn. lia. }
  assert (Hun : Forall (λ u, 0 ≤ u < units) (a_units a)).
  { eapply Forall_impl; [exact Hb|]. cbn. lia. }
  destruct (select_ok _ H24) as (res & Hres & Hutil). rewrite Hres. cbn [mbind result_bind].
  split; [done|].
  destruct (selection_fits _ _ _ Hunits Hun Hres) as (Hl & Hv & Hd & Hc).
  destruct (selection_fits (2 ^ 24) _ _ ltac:(lia) H24 Hres) as (_ & Hv' & _ & Hc').
  destruct (exported_valid h units a res Hh Eh) as (kind & Hval); try done; [by rewrite Eo| | |].
  { eapply Forall_impl; [apply Forall_and; split; [exact Hv|exact Hv']|].
    intros [x y]. unfold valid_range, MAX_SAFE_INTEGER. cbn. lia. }
  { eapply Forall_impl; [apply Forall_and; split; [exact Hc|exact Hc']|]. cbn. lia. }
  pose proof (validateLoadProfiles_iff (JArr [profile_fields a res]) h units) as Hspec.
  destruct (validateLoadProfiles _ _ _) as [v|e]; [by destruct Hspec as [-> _]|].
  destruct Hspec as [_ []]. exists [profile_fields a res], [kind].
  split_and!; [done|apply NoDup_singleton|]. constructor; [by exists (r_ranges res)|constructor].
Qed.

Lemma finish_validates_witness :
  let h := "0123456789012345678901234567890123456789"%string in
  let a := (run (new_analysis h 1048576 (JObj [field "kind" (JStr "boot")]))
    [(JNum (NInt 524288), JNum (NInt 512)); (JNum (NInt 65535), JNum (NInt 65538))]).1 in
  a_units a = [8; 0; 1; 2] ∧
  ∃ v, (finish a).1 = Ok v ∧ validateLoadProfiles v (JStr h) 16 = Ok v.
Proof.
  cbv zeta. split; [vm_compute; reflexivity|].
  pose proof (finish_validates "0123456789012345678901234567890123456789" 1048576
    (JObj [field "kind" (JStr "boot")])
    [(JNum (NInt 524288), JNum (NInt 512)); (JNum (NInt 65535), JNum (NInt 65538))] 16
    eq_refl (or_introl (conj eq_refl eq_refl)) ltac:(done) ltac:(done) ltac:(done)) as H.
  destruct (finish _) as [[v|e] a']; cbn in H |- *; destruct H as [[H1 H2] _].
  - exists v. split; [reflexivity|exact H2].
  - exfalso. revert H1. vm_compute. discriminate.
Defined.
