(* ===== verification/StartupPrefetch.v ===== *)
(** * Startup prefetch (src/src/disk/web/startup-prefetch.js)

    While a saved state is restored, a [StartupPrefetch] job downloads the disk
    ranges of the state's load profile.  It is optional work: whatever happens,
    the job settles at most once, with a [complete] or [fallback] outcome.

    The job is a state machine.  [j_phase] is the [await] at which the [async]
    method [run] is suspended; an [event] is either the settlement of the promise
    that [run] awaits or a call from the owner, the clock or a progress message.
    The notices are the calls of [onProgress] and [onOutcome]. *)
From stdpp Require Import pretty.
From S2P Require Import Prelude JsValue RangePrefetch LoadProfiles.
#[local] Open Scope Z_scope.

Definition PIECE : Z := 262144.

(** ** Options *)
Record sp_options := SpOptions { maxAttempts : Z; postRestoreBudgetMs : Z; windowPieces : Z }.

(** [{...defaults,...value}.key]. *)
Definition option_value (fields : list (string * jsval)) (key : string) (dflt : jsval) : jsval :=
  default dflt (assoc key fields).

Definition bounded (v : jsval) (lo hi : Z) : option Z :=
  z ← as_safe_integer v; if (z <? lo) || (hi <? z) then None else Some z.

Definition startupPrefetchOptions (value : jsval) : result sp_options :=
  let bad := throw "INVALID_PROFILE" "Invalid startup prefetch options" in
  match value with
  | JObj fields =>
      if negb (forallb (λ f : string * jsval, bool_decide
          (f.1 ∈ ["scope"; "maxAttempts"; "postRestoreBudgetMs"; "windowPieces"]%string)) fields)
      then bad else
      if negb (is_str (option_value fields "scope" (JStr "profile")) "profile") then bad else
      match bounded (option_value fields "maxAttempts" (JNum (NInt 3))) 1 3,
            bounded (option_value fields "postRestoreBudgetMs" (JNum (NInt 10000))) 0 60000,
            bounded (option_value fields "windowPieces" (JNum (NInt 8))) 1 16 with
      | Some a, Some b, Some w => Ok (SpOptions a b w)
      | _, _, _ => bad
      end
  | _ => bad
  end.

(** ** The target: ciphertext ranges and the bytes of their pieces *)
Definition startup_range (diskSize : Z) (r : range) : result range :=
  let begin := 198 + r.1 * (65536 + 62) in
  let end_ := Z.min diskSize (198 + (r.2 + 1) * (65536 + 62)) in
  if negb (is_safe begin) || negb (is_safe end_) || (begin <? 0) || (end_ <=? begin)
  then throw "INVALID_PROFILE" "Invalid startup profile range"
  else Ok (begin, end_ - begin).

Fixpoint map_result {A B} (f : A → result B) (l : list A) : result (list B) :=
  match l with
  | [] => Ok []
  | x :: l => y ← f x; ys ← map_result f l; Ok (y :: ys)
  end.

Definition piece_interval (r : range) : range :=
  (r.1 / PIECE, (r.1 + r.2 - 1) / PIECE).

Definition join_step (merged : list range) (interval : range) : list range :=
  match last merged with
  | Some l =>
      if interval.1 <=? l.2 + 1 then removelast merged ++ [(l.1, Z.max l.2 interval.2)]
      else merged ++ [interval]
  | None => merged ++ [interval]
  end.

Definition interval_bytes (diskSize : Z) (i : range) : Z :=
  Z.min diskSize ((i.2 + 1) * PIECE) - i.1 * PIECE.

Definition startupRanges (slots : list (option range)) (diskSize : Z) : result (list range * Z) :=
  ranges ← map_result (startup_range diskSize) (omap id slots);
  let intervals := sort_on fst (piece_interval <$> ranges) in
  let merged := foldl join_step [] intervals in
  let total := foldl (λ bytes i, bytes + interval_bytes diskSize i) 0 merged in
  Ok (ranges, total).

(** ** The job *)

(** The fields of a validated profile the job reads. *)
Record sprofile := SProfile { sp_origin : jsval; sp_slots : list (option range) }.

Inductive phase :=
| PStart                     (** before the first microtask *)
| PPrepare                   (** awaits [prepare] *)
| PRecover (kind : string)   (** awaits [recover(kind)] *)
| PLoad                      (** awaits [loadProfiles] *)
| PFetch (total : Z)         (** awaits [prefetch] of that target *)
| PDone.                     (** [run] has returned *)

Inductive outcome := Outcome (kind : string) (attempts : Z) (reason : option string).

Inductive notice :=
| OnProgress (completed total : Z)
| OnOutcome (o : outcome)
| CallRecover (kind : string) (attempt : Z)
| CallLoad (units attempt : Z)
| CallPrefetch (id : string) (ranges : list range) (windowPieces : Z).

(** What the constructor is given and never changes. *)
Record config := Config {
  c_id : string; c_options : sp_options; c_logicalSize : Z; c_diskSize : Z;
  c_stateHash : jsval; c_profileHash : jsval
}.

Record job := Job {
  j_phase : phase;
  j_attempts : Z;
  j_attemptId : string;
  j_profileCompleted : Z;
  j_stateCompleted : Z;
  j_lastCompleted : Z;
  j_committed : bool;
  j_settled : bool;
  j_timer : bool;
  j_outcome : option outcome;
  j_origin : option jsval;
  j_profile : option sprofile;
  j_profileTotal : option Z;
  j_stateTotal : option Z;
  j_downloadComplete : bool;
  j_log : list notice
}.

Definition new_job : job :=
  Job PStart 0 "" 0 0 0 false false false None None None None None false [].

Definition set_phase (v : phase) (j : job) : job :=
  Job v (j_attempts j) (j_attemptId j) (j_profileCompleted j) (j_stateCompleted j) (j_lastCompleted j) (j_committed j) (j_settled j) (j_timer j) (j_outcome j) (j_origin j) (j_profile j) (j_profileTotal j) (j_stateTotal j) (j_downloadComplete j) (j_log j).
Definition set_attempts (v : Z) (j : job) : job :=
  Job (j_phase j) v (j_attemptId j) (j_profileCompleted j) (j_stateCompleted j) (j_lastCompleted j) (j_committed j) (j_settled j) (j_timer j) (j_outcome j) (j_origin j) (j_profile j) (j_profileTotal j) (j_stateTotal j) (j_downloadComplete j) (j_log j).
Definition set_attemptId (v : string) (j : job) : job :=
  Job (j_phase j) (j_attempts j) v (j_profileCompleted j) (j_stateCompleted j) (j_lastCompleted j) (j_committed j) (j_settled j) (j_timer j) (j_outcome j) (j_origin j) (j_profile j) (j_profileTotal j) (j_stateTotal j) (j_downloadComplete j) (j_log j).
Definition set_profileCompleted (v : Z) (j : job) : job :=
  Job (j_phase j) (j_attempts j) (j_attemptId j) v (j_stateCompleted j) (j_lastCompleted j) (j_committed j) (j_settled j) (j_timer j) (j_outcome j) (j_origin j) (j_profile j) (j_profileTotal j) (j_stateTotal j) (j_downloadComplete j) (j_log j).
Definition set_stateCompleted (v : Z) (j : job) : job :=
  Job (j_phase j) (j_attempts j) (j_attemptId j) (j_profileCompleted j) v (j_lastCompleted j) (j_committed j) (j_settled j) (j_timer j) (j_outcome j) (j_origin j) (j_profile j) (j_profileTotal j) (j_stateTotal j) (j_downloadComplete j) (j_log j).
Definition set_lastCompleted (v : Z) (j : job) : job :=
  Job (j_phase j) (j_attempts j) (j_attemptId j) (j_profileCompleted j) (j_stateCompleted j) v (j_committed j) (j_settled j) (j_timer j) (j_outcome j) (j_origin j) (j_profile j) (j_profileTotal j) (j_stateTotal j) (j_downloadComplete j) (j_log j).
Definition set_committed (v : bool) (j : job) : job :=
  Job (j_phase j) (j_attempts j) (j_attemptId j) (j_profileCompleted j) (j_stateCompleted j) (j_lastCompleted j) v (j_settled j) (j_timer j) (j_outcome j) (j_origin j) (j_profile j) (j_profileTotal j) (j_stateTotal j) (j_downloadComplete j) (j_log j).
Definition set_settled (v : bool) (j : job) : job :=
  Job (j_phase j) (j_attempts j) (j_attemptId j) (j_profileCompleted j) (j_stateCompleted j) (j_lastCompleted j) (j_committed j) v (j_timer j) (j_outcome j) (j_origin j) (j_profile j) (j_profileTotal j) (j_stateTotal j) (j_downloadComplete j) (j_log j).
Definition set_timer (v : bool) (j : job) : job :=
  Job (j_phase j) (j_attempts j) (j_attemptId j) (j_profileCompleted j) (j_stateCompleted j) (j_lastCompleted j) (j_committed j) (j_settled j) v (j_outcome j) (j_origin j) (j_profile j) (j_profileTotal j) (j_stateTotal j) (j_downloadComplete j) (j_log j).
Definition set_outcome (v : option outcome) (j : job) : job :=
  Job (j_phase j) (j_attempts j) (j_attemptId j) (j_profileCompleted j) (j_stateCompleted j) (j_lastCompleted j) (j_committed j) (j_settled j) (j_timer j) v (j_origin j) (j_profile j) (j_profileTotal j) (j_stateTotal j) (j_downloadComplete j) (j_log j).
Definition set_origin (v : option jsval) (j : job) : job :=
  Job (j_phase j) (j_attempts j) (j_attemptId j) (j_profileCompleted j) (j_stateCompleted j) (j_lastCompleted j) (j_committed j) (j_settled j) (j_timer j) (j_outcome j) v (j_profile j) (j_profileTotal j) (j_stateTotal j) (j_downloadComplete j) (j_log j).
Definition set_profile (v : option sprofile) (j : job) : job :=
  Job (j_phase j) (j_attempts j) (j_attemptId j) (j_profileCompleted j) (j_stateCompleted j) (j_lastCompleted j) (j_committed j) (j_settled j) (j_timer j) (j_outcome j) (j_origin j) v (j_profileTotal j) (j_stateTotal j) (j_downloadComplete j) (j_log j).
Definition set_profileTotal (v : option Z) (j : job) : job :=
  Job (j_phase j) (j_attempts j) (j_attemptId j) (j_profileCompleted j) (j_stateCompleted j) (j_lastCompleted j) (j_committed j) (j_settled j) (j_timer j) (j_outcome j) (j_origin j) (j_profile j) v (j_stateTotal j) (j_downloadComplete j) (j_log j).
Definition set_stateTotal (v : option Z) (j : job) : job :=
  Job (j_phase j) (j_attempts j) (j_attemptId j) (j_profileCompleted j) (j_stateCompleted j) (j_lastCompleted j) (j_committed j) (j_settled j) (j_timer j) (j_outcome j) (j_origin j) (j_profile j) (j_profileTotal j) v (j_downloadComplete j) (j_log j).
Definition set_downloadComplete (v : bool) (j : job) : job :=
  Job (j_phase j) (j_attempts j) (j_attemptId j) (j_profileCompleted j) (j_stateCompleted j) (j_lastCompleted j) (j_committed j) (j_settled j) (j_timer j) (j_outcome j) (j_origin j) (j_profile j) (j_profileTotal j) (j_stateTotal j) v (j_log j).
Definition set_log (v : list notice) (j : job) : job :=
  Job (j_phase j) (j_attempts j) (j_attemptId j) (j_profileCompleted j) (j_stateCompleted j) (j_lastCompleted j) (j_committed j) (j_settled j) (j_timer j) (j_outcome j) (j_origin j) (j_profile j) (j_profileTotal j) (j_stateTotal j) (j_downloadComplete j) v.

Definition notify (n : notice) (j : job) : job := set_log (j_log j ++ [n]) j.

(** [error?.code||'TRANSPORT_ERROR']. *)
Definition error_code (e : exn) : string :=
  match exn_code e with
  | Some c => if bool_decide (c = ""%string) then "TRANSPORT_ERROR" else c
  | None => "TRANSPORT_ERROR"
  end.

Definition permanent (code : string) : bool :=
  bool_decide (code ∈ ["INVALID_PROFILE"; "INVALID_PUBLICATION"; "INVALID_RANGE"; "INVALID_STATE"]%string).

(** The job's own [AbortController] is aborted only by [finish], which has
    settled the job by then: [current()] is [!settled]. *)
Definition current (j : job) : bool := negb (j_settled j).

Definition finish (kind : string) (reason : option string) (j : job) : job :=
  if j_settled j then j else
  let o := Outcome kind (j_attempts j) reason in
  notify (OnOutcome o) (set_outcome (Some o) (set_timer false (set_settled true j))).

Definition fallback (reason : string) : job → job := finish "fallback" (Some reason).

Definition complete (j : job) : job :=
  match j_origin j, j_profile j with
  | Some origin, Some profile =>
      if current j && j_downloadComplete j && sameOrigin (sp_origin profile) origin
      then finish "complete" None j else j
  | _, _ => j
  end.

Definition validate (origin : jsval) (j : job) : job :=
  if negb (current j) then j else
  let j := set_origin (if truthy origin then Some origin else None) j in
  match j_profile j with
  | Some profile =>
      if negb (sameOrigin (sp_origin profile) origin) then fallback "PROFILE_MISMATCH" j
      else complete j
  | None => complete j
  end.

Definition commit (j : job) : job :=
  if j_committed j || j_settled j then j else
  complete (set_timer true (set_committed true j)).

Definition emit (j : job) : job :=
  match j_stateTotal j, j_profileTotal j with
  | Some st, Some pt =>
      if negb (current j) then j else
      let total := st + pt in
      let completed := Z.min total
        (Z.max (j_lastCompleted j) (j_stateCompleted j + j_profileCompleted j)) in
      notify (OnProgress completed total) (set_lastCompleted completed j)
  | _, _ => j
  end.

(** The two halves of [progress]: the state's own download, then the job's. *)
Definition state_progress (cfg : config) (value : jsval) (j : job) : option job :=
  match as_safe_integer (get value "size"), as_safe_integer (get value "coveredBytes") with
  | Some size, Some covered =>
      if strict_eq (get value "infoHash") (c_stateHash cfg) && (0 <? size) &&
         (0 <=? covered) && (covered <=? size)
      then match j_stateTotal j with
           | Some t => if t =? size
                       then Some (set_stateCompleted (Z.max (j_stateCompleted j) covered) j)
                       else None
           | None => Some (set_stateCompleted (Z.max (j_stateCompleted j) covered)
                             (set_stateTotal (Some size) j))
           end
      else Some j
  | _, _ => Some j
  end.

Definition prefetch_progress (value : jsval) (j : job) : job :=
  let p := get value "startupPrefetch" in
  match j_profileTotal j, as_safe_integer (get p "completed") with
  | Some total, Some completed =>
      if truthy p && is_str (get p "id") (j_attemptId j) && is_int (get p "total") total &&
         (0 <=? completed) && (completed <=? total)
      then set_profileCompleted (Z.max (j_profileCompleted j) completed) j else j
  | _, _ => j
  end.

Definition progress (cfg : config) (value : jsval) (j : job) : job :=
  if negb (current j) then j else
  match state_progress cfg value j with
  | None => j
  | Some j => emit (prefetch_progress value j)
  end.

(** ** [run] *)

(** The head of the [while] loop, up to the next [await].  [failedKind] is what
    the previous attempt failed at. *)
Definition start_load (cfg : config) (j : job) : job :=
  notify (CallLoad (ceil_div (c_logicalSize cfg) 65536) (j_attempts j)) (set_phase PLoad j).

Definition attempt (cfg : config) (failedKind : option string) (j : job) : job :=
  if negb (current j && (j_attempts j <? maxAttempts (c_options cfg))) then set_phase PDone j else
  let j := set_attempts (j_attempts j + 1) j in
  let j := set_attemptId (c_id cfg +:+ ":" +:+ pretty (j_attempts j)) j in
  match failedKind with
  | Some kind => notify (CallRecover kind (j_attempts j)) (set_phase (PRecover kind) j)
  | None => start_load cfg j
  end.

(** The [catch] block; [stage] is what the attempt was doing. *)
Definition attempt_failed (cfg : config) (stage : string) (e : exn) (j : job) : job :=
  if negb (current j) then set_phase PDone j else
  let code := error_code e in
  if permanent code || bool_decide (code = "CANCELLED"%string) ||
     (j_attempts j =? maxAttempts (c_options cfg))
  then fallback code (set_phase PDone j)
  else attempt cfg (Some stage) j.

Definition prepared (cfg : config) (r : result unit) (j : job) : job :=
  match r with
  | Throw e => fallback (error_code e) (set_phase PDone j)
  | Ok _ =>
      if negb (current j) then set_phase PDone j else
      if negb (truthy (c_profileHash cfg)) then fallback "NO_PROFILE" (set_phase PDone j) else
      attempt cfg None j
  end.

Definition recovered (cfg : config) (kind : string) (r : result unit) (j : job) : job :=
  match r with
  | Throw e => attempt_failed cfg kind e j
  | Ok _ => if negb (current j) then set_phase PDone j else start_load cfg j
  end.

Definition find_state (profiles : list sprofile) : option sprofile :=
  List.find (λ p, is_str (get (sp_origin p) "kind") "state") profiles.

Definition origin_mismatch (profile : sprofile) (j : job) : bool :=
  match j_origin j with
  | Some origin => negb (sameOrigin (sp_origin profile) origin)
  | None => false
  end.

Definition total_changed (total : Z) (j : job) : bool :=
  match j_profileTotal j with Some t => negb (t =? total) | None => false end.

Definition loaded (cfg : config) (r : result (list sprofile)) (j : job) : job :=
  match r with
  | Throw e => attempt_failed cfg "profile" e j
  | Ok profiles =>
      if negb (current j) then set_phase PDone j else
      match find_state profiles with
      | None => fallback "NO_PROFILE" (set_phase PDone j)
      | Some profile =>
          if origin_mismatch profile j then fallback "PROFILE_MISMATCH" (set_phase PDone j) else
          let j := set_profile (Some profile) j in
          match startupRanges (sp_slots profile) (c_diskSize cfg) with
          | Throw e => attempt_failed cfg "profile" e j
          | Ok (ranges, total) =>
              if total_changed total j
              then attempt_failed cfg "profile"
                     (Exn (Some "INVALID_PROFILE"%string) "Startup target changed within one publication") j
              else
                let j := emit (set_profileTotal (Some total) j) in
                notify (CallPrefetch (j_attemptId j) ranges (windowPieces (c_options cfg)))
                  (set_phase (PFetch total) j)
          end
      end
  end.

Definition fetched (cfg : config) (total : Z) (r : result jsval) (j : job) : job :=
  match r with
  | Throw e => attempt_failed cfg "disk" e j
  | Ok v =>
      if negb (current j) then set_phase PDone j else
      if negb (is_int (get v "completed") total && is_int (get v "total") total)
      then attempt_failed cfg "disk"
             (Exn (Some "TRANSPORT_ERROR"%string) "Startup prefetch did not verify its target") j
      else set_phase PDone (complete (emit (set_downloadComplete true (set_profileCompleted total j))))
  end.

Inductive event :=
| EStart
| EPrepared (r : result unit)
| ERecovered (r : result unit)
| ELoaded (r : result (list sprofile))
| EFetched (r : result jsval)
| EValidate (origin : jsval)
| ECommit
| ECancel (reason : string)   (** [cancel], or the owner's signal *)
| ETimeout
| EProgress (value : jsval).

(** An event that settles a promise [run] does not await, or a timer that is not
    armed, changes nothing: it cannot happen. *)
Definition step (cfg : config) (j : job) (e : event) : job :=
  match e, j_phase j with
  | EStart, PStart => if current j then set_phase PPrepare j else set_phase PDone j
  | EPrepared r, PPrepare => prepared cfg r j
  | ERecovered r, PRecover kind => recovered cfg kind r j
  | ELoaded r, PLoad => loaded cfg r j
  | EFetched r, PFetch total => fetched cfg total r j
  | EValidate origin, _ => validate origin j
  | ECommit, _ => commit j
  | ECancel reason, _ => fallback reason j
  | ETimeout, _ => if j_timer j then fallback "PREFETCH_TIMEOUT" j else j
  | EProgress value, _ => progress cfg value j
  | _, _ => j
  end.

Definition run_job (cfg : config) (events : list event) : job :=
  foldl (step cfg) new_job events.
