(* ===== verification/StartupPrefetchFacts.v ===== *)
(** * Startup prefetch: correctness

    First the target: [startupRanges] counts each ciphertext piece once.  Then
    the job: an invariant of every reachable state, from which follow the claims
    about settlement, attempts and progress. *)
From stdpp Require Import pretty.
From S2P Require Import Prelude JsValue RangePrefetch LoadProfiles StartupPrefetch.
#[local] Open Scope Z_scope.

(** ** Merging the piece intervals *)
Definition covers_piece (l : list range) (p : Z) : Prop := ∃ r, r ∈ l ∧ r.1 ≤ p ≤ r.2.

Record joined (m : list range) : Prop := {
  joined_gap : StronglySorted (λ r s : range, r.2 + 1 < s.1) m;
  joined_le : Forall (λ r : range, r.1 ≤ r.2) m
}.

Lemma covers_app l1 l2 p : covers_piece (l1 ++ l2) p ↔ covers_piece l1 p ∨ covers_piece l2 p.
Proof. unfold covers_piece. setoid_rewrite elem_of_app. naive_solver. Qed.

Lemma covers_one r p : covers_piece [r] p ↔ r.1 ≤ p ≤ r.2.
Proof. unfold covers_piece. setoid_rewrite list_elem_of_singleton. naive_solver. Qed.

Lemma covers_perm l1 l2 p : l1 ≡ₚ l2 → covers_piece l1 p ↔ covers_piece l2 p.
Proof. intros Hp. unfold covers_piece. by setoid_rewrite Hp. Qed.

Lemma join_step_spec m (i : range) :
  joined m → Forall (λ r : range, r.1 ≤ i.1) m → i.1 ≤ i.2 →
  joined (join_step m i) ∧ Forall (λ r : range, r.1 ≤ i.1) (join_step m i) ∧
  ∀ p, covers_piece (join_step m i) p ↔ covers_piece m p ∨ i.1 ≤ p ≤ i.2.
Proof.
  intros [Hg Hle] Hi Hv. unfold join_step.
  destruct (last m) as [l|] eqn:El.
  2:{ apply last_None in El as ->. cbn. split_and!.
      - split; repeat constructor; done.
      - repeat constructor. lia.
      - intros p. rewrite covers_one. unfold covers_piece. split; [auto|].
        intros [(r & ?%elem_of_nil & _)|]; done. }
  apply last_Some in El as [m' ->]. rewrite removelast_last.
  apply StronglySorted_snoc in Hg as [Hg Hg2].
  apply Forall_app in Hle as [Hle Hl]. apply Forall_app in Hi as [Hi Hil].
  apply Forall_cons in Hl as [Hl _]. apply Forall_cons in Hil as [Hil _]. cbv beta in Hl, Hil.
  destruct (i.1 <=? l.2 + 1) eqn:E; bools.
  - split_and!.
    + split; [apply StronglySorted_snoc; split; [done|]|apply Forall_app; split; [done|]].
      * eapply Forall_impl; [exact Hg2|]. cbn. done.
      * repeat constructor. cbn. lia.
    + apply Forall_app. split; [done|]. repeat constructor. done.
    + intros p. rewrite !covers_app, !covers_one. cbn.
      assert (l.1 ≤ p ≤ l.2 `max` i.2 ↔ l.1 ≤ p ≤ l.2 ∨ i.1 ≤ p ≤ i.2) by lia. tauto.
  - split_and!.
    + split; [apply StronglySorted_snoc; split|].
      * by apply StronglySorted_snoc.
      * apply Forall_app. split; [|repeat constructor; lia].
        eapply Forall_impl; [exact Hg2|]. intros r Hr. cbv beta in *. lia.
      * apply Forall_app. split; [apply Forall_app; split; [done|]|]; repeat constructor; lia.
    + apply Forall_app. split; [apply Forall_app; split; [done|]|]; repeat constructor; lia.
    + intros p. by rewrite (covers_app (m' ++ [l])), covers_one.
Qed.

Lemma join_spec l m :
  joined m → key_sorted fst l → Forall (λ i : range, i.1 ≤ i.2) l →
  Forall (λ i : range, Forall (λ r : range, r.1 ≤ i.1) m) l →
  joined (foldl join_step m l) ∧
  ∀ p, covers_piece (foldl join_step m l) p ↔ covers_piece m p ∨ covers_piece l p.
Proof.
  revert m. induction l as [|i l IH]; intros m Hm Hs Hv Hml; cbn.
  { split; [done|]. intros p. split; [auto|]. intros [?|(r & ?%elem_of_nil & _)]; done. }
  apply StronglySorted_inv in Hs as [Hs Hi]. apply Forall_cons in Hv as [Hv1 Hv].
  apply Forall_cons in Hml as [Hm1 Hml].
  destruct (join_step_spec m i Hm Hm1 Hv1) as (Hj & Hle & Hc).
  destruct (IH (join_step m i) Hj Hs Hv) as [Hj' Hc'].
  - eapply Forall_impl; [exact Hi|]. intros j Hj'. eapply Forall_impl; [exact Hle|].
    intros r Hr. cbv beta in *. etrans; [exact Hr|exact Hj'].
  - split; [done|]. intros p. rewrite Hc', Hc. change (i :: l) with ([i] ++ l).
    rewrite covers_app, covers_one. tauto.
Qed.

(** ** The bytes of a set of pieces *)
Definition piece_bytes (diskSize p : Z) : Z := Z.min diskSize ((p + 1) * PIECE) - p * PIECE.

Definition pieces_bytes (diskSize : Z) (pieces : list Z) : Z :=
  sum_list_Z (piece_bytes diskSize <$> pieces).

Lemma interval_bytes_sum diskSize lo n :
  (lo + Z.of_nat n) * PIECE < diskSize →
  pieces_bytes diskSize (zrange lo (S n)) = interval_bytes diskSize (lo, lo + Z.of_nat n).
Proof.
  unfold pieces_bytes, interval_bytes, piece_bytes, PIECE. cbn [fst snd].
  induction n as [|n IH]; intros H.
  - unfold zrange. cbn. rewrite !Z.add_0_r. unfold sum_list_Z. cbn. lia.
  - rewrite zrange_snoc, fmap_app, sum_list_Z_app, IH by lia. unfold sum_list_Z. cbn. lia.
Qed.

Lemma merged_pieces diskSize m :
  joined m → Forall (λ r : range, r.2 * PIECE < diskSize) m →
  let pieces := concat (range_units <$> m) in
  NoDup pieces ∧ (∀ p, p ∈ pieces ↔ covers_piece m p) ∧
  sum_list_Z (interval_bytes diskSize <$> m) = pieces_bytes diskSize pieces.
Proof.
  intros [Hg Hle] Hb pieces.
  assert (Hin : ∀ m' p, Forall (λ r : range, r.1 ≤ r.2) m' →
    p ∈ concat (range_units <$> m') ↔ covers_piece m' p).
  { intros m' p Hm'. rewrite elem_of_concat_fmap. unfold covers_piece, range_units.
    split; intros (r & Hr & Hp); exists r; (split; [done|]); rewrite elem_of_zrange in *;
      rewrite Forall_forall in Hm'; specialize (Hm' r Hr); cbv beta in Hm'; lia. }
  split_and!; [|by intros; apply Hin|]; subst pieces.
  - clear Hb. induction m as [|r m IH]; cbn; [constructor|].
    apply StronglySorted_inv in Hg as [Hg Hr]. apply Forall_cons in Hle as [Hle1 Hle].
    apply NoDup_app. split_and!; [apply NoDup_zrange| |auto].
    intros p Hp (s & Hs & Hsp)%(Hin m p Hle). rewrite Forall_forall in Hr.
    specialize (Hr s Hs). unfold range_units in Hp. rewrite elem_of_zrange in Hp.
    cbv beta in Hr. lia.
  - clear Hg. induction m as [|r m IH]; cbn; [done|].
    apply Forall_cons in Hle as [Hle1 Hle]. apply Forall_cons in Hb as [Hb1 Hb].
    unfold pieces_bytes in *. rewrite fmap_app, sum_list_Z_app, <- IH by done.
    change (foldr Z.add 0) with sum_list_Z. f_equal.
    destruct r as [lo hi]. cbn in Hle1, Hb1. unfold range_units. cbn [fst snd].
    replace (Z.to_nat (hi - lo + 1)) with (S (Z.to_nat (hi - lo))) by lia.
    etrans; [|symmetry; apply (interval_bytes_sum diskSize lo (Z.to_nat (hi - lo)))].
    + f_equal. f_equal. lia.
    + replace (lo + Z.of_nat (Z.to_nat (hi - lo))) with hi by lia. done.
Qed.

(** ** The target of a profile *)
Lemma map_result_Ok {A B} (f : A → result B) l ys :
  map_result f l = Ok ys ↔ Forall2 (λ x y, f x = Ok y) l ys.
Proof.
  revert ys. induction l as [|x l IH]; intros ys; cbn.
  - split; [intros [= <-]; constructor|]. by intros ->%Forall2_nil_inv_l.
  - split.
    + intros H. inv_bind. subst ys. constructor; [done|]. by apply IH.
    + intros (y & ys' & Hy & Hys & ->)%Forall2_cons_inv_l. rewrite Hy. cbn.
      by rewrite (proj2 (IH ys') Hys).
Qed.

(** The ciphertext bytes of the logical units of a range. *)
Definition cipher_range (diskSize : Z) (r : range) : range :=
  (198 + r.1 * 65598, Z.min diskSize (198 + (r.2 + 1) * 65598) - (198 + r.1 * 65598)).

Definition in_disk (diskSize : Z) (r : range) : Prop :=
  0 ≤ r.1 ∧ 0 < r.2 ∧ r.1 + r.2 ≤ diskSize.

Lemma startup_range_Ok diskSize r c :
  startup_range diskSize r = Ok c → c = cipher_range diskSize r ∧ in_disk diskSize c.
Proof.
  unfold startup_range. destruct (_ || _) eqn:E; [done|]. intros [= <-]. bools.
  unfold in_disk, cipher_range. cbn. split; [done|]. lia.
Qed.

Lemma foldl_sum (f : range → Z) (l : list range) acc :
  foldl (λ bytes i, bytes + f i) acc l = acc + sum_list_Z (f <$> l).
Proof.
  revert acc. induction l as [|x l IH]; intros acc; cbn; [lia|]. rewrite IH.
  unfold sum_list_Z. cbn. lia.
Qed.

(** The pieces that hold some byte of the ranges, each once. *)
Definition pieces_of (ranges : list range) (pieces : list Z) : Prop :=
  NoDup pieces ∧
  ∀ p, p ∈ pieces ↔ ∃ r b, r ∈ ranges ∧ r.1 ≤ b < r.1 + r.2 ∧ p = b / PIECE.

Lemma piece_interval_spec diskSize r p :
  in_disk diskSize r →
  (piece_interval r).1 ≤ p ≤ (piece_interval r).2 ↔ ∃ b, r.1 ≤ b < r.1 + r.2 ∧ p = b / PIECE.
Proof.
  intros (H1 & H2 & H3). unfold piece_interval, PIECE. cbn. split.
  - intros [Hlo Hhi]. exists (Z.max r.1 (p * 262144)). split.
    + pose proof (Z.mul_div_le (r.1 + r.2 - 1) 262144 ltac:(lia)). lia.
    + destruct (Z.max_spec r.1 (p * 262144)) as [[? ->]|[? ->]].
      * by rewrite Z.div_mul.
      * apply Z.le_antisymm; [|done]. apply Z.div_le_lower_bound; lia.
  - intros (b & Hb & ->). split; apply Z.div_le_mono; lia.
Qed.

Lemma startupRanges_spec slots diskSize ranges total :
  startupRanges slots diskSize = Ok (ranges, total) →
  ranges = cipher_range diskSize <$> omap id slots ∧
  Forall (in_disk diskSize) ranges ∧
  ∃ pieces, pieces_of ranges pieces ∧ total = pieces_bytes diskSize pieces ∧ 0 ≤ total.
Proof.
  unfold startupRanges. intros H. apply bind_ok in H as (rs & H0 & [= -> <-]).
  apply map_result_Ok in H0.
  assert (Hr : ranges = cipher_range diskSize <$> omap id slots ∧ Forall (in_disk diskSize) ranges).
  { revert H0. generalize (omap id slots). clear. intros l. induction 1 as [|r c l rs Hc _ [-> IH]].
    - by split.
    - apply startup_range_Ok in Hc as [-> Hc]. split; [done|]. by constructor. }
  destruct Hr as [Hr Hd]. split; [done|]. split; [done|]. clear H0.
  set (intervals := sort_on fst (piece_interval <$> ranges)).
  assert (Hp : intervals ≡ₚ piece_interval <$> ranges) by apply sort_on_perm.
  destruct (join_spec intervals []) as [Hj Hc].
  - split; constructor.
  - apply sort_on_sorted.
  - rewrite Hp. apply Forall_fmap. eapply Forall_impl; [exact Hd|]. intros r (? & ? & ?).
    unfold piece_interval. cbn. apply Z.div_le_mono; unfold PIECE; lia.
  - apply Forall_true. constructor.
  - assert (Hc' : ∀ p, covers_piece (foldl join_step [] intervals) p ↔
      ∃ r b, r ∈ ranges ∧ r.1 ≤ b < r.1 + r.2 ∧ p = b / PIECE).
    { intros p. rewrite Hc, (covers_perm _ _ _ Hp). unfold covers_piece. split.
      - intros [(r & ?%elem_of_nil & _)|(i & Hi & Hpi)]; [done|].
        apply list_elem_of_fmap in Hi as (r & -> & Hr').
        apply (piece_interval_spec diskSize) in Hpi as (b & Hb); [by exists r, b|].
        by eapply Forall_forall in Hd.
      - intros (r & b & Hr' & Hb). right. exists (piece_interval r).
        split; [by apply list_elem_of_fmap_2|]. apply (piece_interval_spec diskSize); [|by exists b].
        by eapply Forall_forall in Hd. }
    assert (Hlast : ∀ p, covers_piece (foldl join_step [] intervals) p → p * PIECE < diskSize).
    { intros p (r & b & Hr' & Hb & ->)%Hc'. eapply Forall_forall in Hd; [|exact Hr'].
      destruct Hd as (? & ? & ?). unfold PIECE. pose proof (Z.mul_div_le b 262144 ltac:(lia)). lia. }
    destruct (merged_pieces diskSize _ Hj) as (Hnd & Hin & Hsum).
    { apply Forall_forall. intros r Hr'. apply Hlast. exists r. split; [done|].
      pose proof (proj1 (Forall_forall _ _) (joined_le _ Hj) r Hr') as Hle. cbv beta in Hle. lia. }
    eexists. split; [split; [exact Hnd|]|split].
    + intros p. by rewrite Hin, Hc'.
    + rewrite foldl_sum, <- Hsum. lia.
    + rewrite foldl_sum, Hsum. apply sum_list_Z_nonneg, Forall_fmap, Forall_forall.
      intros p Hp'%Hin%Hlast. cbn. unfold piece_bytes, PIECE in *. lia.
Qed.

(** For a validated profile of a disk whose file holds its logical units, the
    startup target exists; its ranges are the ciphertext of the profile's units
    clipped to the file, and its total counts the bytes of every 256 KiB piece
    they touch exactly once. *)
Theorem startupRanges_target slots units diskSize :
  Forall (valid_range units) (omap id slots) →
  198 + (units - 1) * 65598 < diskSize ≤ MAX_SAFE_INTEGER →
  ∃ ranges pieces,
    startupRanges slots diskSize = Ok (ranges, pieces_bytes diskSize pieces) ∧
    ranges = cipher_range diskSize <$> omap id slots ∧
    Forall (in_disk diskSize) ranges ∧ pieces_of ranges pieces.
Proof.
  intros Hv Hd.
  destruct (startupRanges slots diskSize) as [[ranges total]|e] eqn:E.
  - destruct (startupRanges_spec _ _ _ _ E) as (Hr & Hin & pieces & Hp & -> & _).
    by exists ranges, pieces.
  - exfalso. revert E. unfold startupRanges.
    assert (Hok : map_result (startup_range diskSize) (omap id slots) =
      Ok (cipher_range diskSize <$> omap id slots)).
    { apply map_result_Ok, Forall2_fmap_r, Forall_Forall2_diag. eapply Forall_impl; [exact Hv|].
      intros r (? & ? & ?). unfold startup_range.
      replace (_ || _) with false; [done|]. symmetry. unfold is_safe, MAX_SAFE_INTEGER in *.
      rewrite !orb_false_iff, !negb_false_iff, !andb_true_iff. lia. }
    by rewrite Hok.
Qed.

Lemma startupRanges_target_witness :
  ∃ ranges pieces,
    startupRanges [Some (3, 5); None; Some (0, 0)] (198 + 8 * 65598) =
      Ok (ranges, pieces_bytes (198 + 8 * 65598) pieces) ∧ pieces_of ranges pieces.
Proof.
  destruct (startupRanges_target [Some (3, 5); None; Some (0, 0)] 8 (198 + 8 * 65598))
    as (ranges & pieces & H & _ & _ & Hp).
  - repeat constructor; done.
  - done.
  - exists ranges, pieces. split; [exact H|exact Hp].
Defined.

(** ** The job invariant *)
Definition outcomes (l : list notice) : list outcome :=
  omap (λ n, match n with OnOutcome o => Some o | _ => None end) l.
Definition progresses (l : list notice) : list (Z * Z) :=
  omap (λ n, match n with OnProgress c t => Some (c, t) | _ => None end) l.

#[local] Arguments outcomes l : simpl never.
#[local] Arguments progresses l : simpl never.

(** The profile in hand has this target. *)
Definition has_target (cfg : config) (j : job) (total : Z) : Prop :=
  j_profileTotal j = Some total ∧
  ∃ p ranges, j_profile j = Some p ∧ startupRanges (sp_slots p) (c_diskSize cfg) = Ok (ranges, total).

(** What a [complete] outcome means: the profile's target is downloaded and the
    profile belongs to the origin the restored state turned out to have. *)
Definition verified (cfg : config) (j : job) : Prop :=
  ∃ total p origin, has_target cfg j total ∧ j_profileCompleted j = total ∧
    j_profile j = Some p ∧ j_origin j = Some origin ∧ sameOrigin (sp_origin p) origin = true.

(** The part of the invariant that does not look at the suspension point... *)
Record core_ok (cfg : config) (j : job) : Prop := {
  ok_attempts : 0 ≤ j_attempts j ≤ maxAttempts (c_options cfg);
  ok_settled : outcomes (j_log j) = match j_outcome j with Some o => [o] | None => [] end;
  ok_settled_flag : j_settled j = match j_outcome j with Some _ => true | None => false end;
  ok_timer : j_committed j = true → j_settled j = false → j_timer j = true;
  ok_complete : ∀ n r, j_outcome j = Some (Outcome "complete" n r) → verified cfg j;
  ok_download : j_downloadComplete j = true →
    ∃ total, has_target cfg j total ∧ j_profileCompleted j = total;
  ok_total : ∀ t, j_profileTotal j = Some t → 0 ≤ t;
  ok_state : ∀ t, j_stateTotal j = Some t → 0 < t;
  ok_progress : match j_stateTotal j, j_profileTotal j with
    | Some st, Some pt =>
        Forall (λ p, p.2 = st + pt ∧ p.1 ≤ j_lastCompleted j) (progresses (j_log j)) ∧
        StronglySorted Z.le (progresses (j_log j)).*1 ∧ 0 ≤ j_lastCompleted j ≤ st + pt
    | _, _ => progresses (j_log j) = [] ∧ j_lastCompleted j = 0
    end
}.

(** ... and the part that does: [run] only returns when the job is settled or
    its download is complete. *)
Definition phase_ok (cfg : config) (j : job) : Prop :=
  match j_phase j with
  | PDone => j_settled j = true ∨ j_downloadComplete j = true
  | PFetch total => j_downloadComplete j = false ∧ (j_settled j = true ∨ has_target cfg j total)
  | PStart | PPrepare => j_downloadComplete j = false ∧ j_attempts j = 0
  | _ => j_downloadComplete j = false
  end.

Definition job_ok (cfg : config) (j : job) : Prop := core_ok cfg j ∧ phase_ok cfg j.

(** What the calls from outside [run] leave alone. *)
Record frame (j j' : job) : Prop := {
  fr_phase : j_phase j' = j_phase j;
  fr_attempts : j_attempts j' = j_attempts j;
  fr_download : j_downloadComplete j' = j_downloadComplete j;
  fr_profile : j_profile j' = j_profile j;
  fr_total : j_profileTotal j' = j_profileTotal j;
  fr_settled : j_settled j = true → j_settled j' = true
}.

Lemma frame_refl j : frame j j.
Proof. by split. Qed.
Lemma frame_trans j1 j2 j3 : frame j1 j2 → frame j2 j3 → frame j1 j3.
Proof. intros [] []. split; try congruence; auto. Qed.

Lemma frame_phase_ok cfg j j' : frame j j' → phase_ok cfg j → phase_ok cfg j'.
Proof.
  intros [H1 H0 H2 H3 H4 H5]. unfold phase_ok, has_target. rewrite H1, H0, H2, H3, H4.
  destruct (j_phase j); naive_solver.
Qed.

#[local] Hint Resolve frame_refl : core.

Lemma outcomes_app l1 l2 : outcomes (l1 ++ l2) = outcomes l1 ++ outcomes l2.
Proof. apply omap_app. Qed.
Lemma progresses_app l1 l2 : progresses (l1 ++ l2) = progresses l1 ++ progresses l2.
Proof. apply omap_app. Qed.

(** Open an invariant whose state is a concrete record. *)
Ltac open_core H := destruct H; cbn in *; split; cbn in *.

Lemma core_set_phase cfg ph j : core_ok cfg j → core_ok cfg (set_phase ph j).
Proof. intros H. by open_core H. Qed.
Lemma core_attemptId cfg s j : core_ok cfg j → core_ok cfg (set_attemptId s j).
Proof. intros H. by open_core H. Qed.

(** A notice that is neither progress nor an outcome. *)
Definition is_call (n : notice) : bool :=
  match n with OnProgress _ _ | OnOutcome _ => false | _ => true end.

Lemma core_notify cfg n j : is_call n = true → core_ok cfg j → core_ok cfg (notify n j).
Proof.
  intros Hn H.
  assert (Ho : outcomes (j_log j ++ [n]) = outcomes (j_log j)).
  { rewrite outcomes_app. destruct n; try done; cbn; apply app_nil_r. }
  assert (Hp : progresses (j_log j ++ [n]) = progresses (j_log j)).
  { rewrite progresses_app. destruct n; try done; cbn; apply app_nil_r. }
  destruct H; split; cbn; rewrite ?Ho, ?Hp; done.
Qed.

Lemma finish_core cfg kind reason j :
  (kind = "complete"%string → verified cfg j) →
  core_ok cfg j → core_ok cfg (finish kind reason j) ∧ j_settled (finish kind reason j) = true.
Proof.
  intros Hk H. unfold finish. destruct (j_settled j) eqn:Es; [done|]. split; [|done].
  destruct H as [? Hs Hf]. rewrite Hf in Es. destruct (j_outcome j) eqn:Eo; [done|].
  split; cbn; rewrite ?outcomes_app, ?progresses_app, ?Hs; cbn; rewrite ?app_nil_r; try done.
  intros n r [= E _ _]. by apply Hk.
Qed.

Lemma finish_frame kind reason j : frame j (finish kind reason j).
Proof. unfold finish. destruct (j_settled j) eqn:E; [done|]. by split. Qed.

Lemma fallback_core cfg reason j :
  core_ok cfg j → core_ok cfg (fallback reason j) ∧ j_settled (fallback reason j) = true.
Proof. by apply finish_core. Qed.

Lemma complete_core cfg j : core_ok cfg j → core_ok cfg (complete j).
Proof.
  intros H. unfold complete. destruct (j_origin j) as [o|] eqn:Eo; [|done].
  destruct (j_profile j) as [p|] eqn:Ep; [|done].
  destruct (_ && _) eqn:E; [|done]. bools. apply finish_core; [|done]. intros _.
  destruct (ok_download _ _ H) as (total & Ht & Hc); [done|]. by exists total, p, o.
Qed.

Lemma complete_frame j : frame j (complete j).
Proof.
  unfold complete. destruct (j_origin j); [|done]. destruct (j_profile j); [|done].
  destruct (_ && _); [apply finish_frame|done].
Qed.

(** An origin is only installed while the job is not settled. *)
Lemma core_set_origin cfg o j :
  j_settled j = false → core_ok cfg j → core_ok cfg (set_origin o j).
Proof.
  intros Hs H. open_core H; try done. intros n r Hn. rewrite Hs, Hn in *. done.
Qed.

Lemma validate_core cfg origin j : core_ok cfg j → core_ok cfg (validate origin j).
Proof.
  intros H. unfold validate, current. destruct (j_settled j) eqn:Es; [done|]. cbn [negb].
  pose proof (core_set_origin cfg (if truthy origin then Some origin else None) j Es H) as Ho.
  cbn. destruct (j_profile j) as [p|]; [|by apply complete_core].
  destruct (negb _); [by apply fallback_core|by apply complete_core].
Qed.

Lemma validate_frame origin j : frame j (validate origin j).
Proof.
  unfold validate. destruct (negb (current j)); [done|]. cbn.
  eapply frame_trans with (set_origin (if truthy origin then Some origin else None) j); [done|].
  destruct (j_profile j); [|apply complete_frame].
  destruct (negb _); [apply finish_frame|apply complete_frame].
Qed.

Lemma commit_core cfg j : core_ok cfg j → core_ok cfg (commit j).
Proof.
  intros H. unfold commit. destruct (_ || _) eqn:E; [done|]. apply complete_core.
  by open_core H.
Qed.

Lemma commit_frame j : frame j (commit j).
Proof.
  unfold commit. destruct (_ || _); [done|].
  eapply frame_trans with (set_timer true (set_committed true j)); [done|apply complete_frame].
Qed.

Lemma emit_core cfg j : core_ok cfg j → core_ok cfg (emit j).
Proof.
  intros H. unfold emit. destruct (j_stateTotal j) as [st|] eqn:Est; [|done].
  destruct (j_profileTotal j) as [pt|] eqn:Ept; [|done].
  destruct (negb (current j)); [done|].
  destruct H; split; cbn; rewrite ?outcomes_app, ?progresses_app; try done.
  - cbn. by rewrite app_nil_r.
  - rewrite Est, Ept in *. destruct ok_progress0 as (Hf & Hs & Hl).
    set (c := Z.min (st + pt) (Z.max (j_lastCompleted j) (j_stateCompleted j + j_profileCompleted j))).
    assert (Hc : j_lastCompleted j ≤ c ≤ st + pt) by lia. clearbody c.
    change (progresses [OnProgress c (st + pt)]) with [(c, st + pt)].
    rewrite fmap_app. split_and!; try lia.
    + apply Forall_app. split; [|repeat constructor; cbn; lia].
      eapply Forall_impl; [exact Hf|]. cbn. lia.
    + apply StronglySorted_snoc. split; [done|]. apply Forall_fmap.
      eapply Forall_impl; [exact Hf|]. cbn. lia.
Qed.

Lemma emit_frame j : frame j (emit j).
Proof.
  unfold emit. destruct (j_stateTotal j); [|done]. destruct (j_profileTotal j); [|done].
  by destruct (negb _).
Qed.

Lemma state_progress_core cfg value j j' :
  state_progress cfg value j = Some j' → core_ok cfg j → core_ok cfg j' ∧ frame j j'.
Proof.
  unfold state_progress. intros E H.
  destruct (as_safe_integer _) as [size|]; [|by injection E as <-].
  destruct (as_safe_integer _) as [covered|]; [|by injection E as <-].
  destruct (_ && _) eqn:Eg; [|by injection E as <-]. bools.
  destruct (j_stateTotal j) as [t|] eqn:Et.
  - destruct (t =? size); [|done]. injection E as <-. split; [by open_core H|done].
  - injection E as <-. split; [|done]. open_core H; try done.
    + intros t [= <-]. done.
    + rewrite Et in *. destruct ok_progress0 as [Hp Hl]. rewrite Hp, Hl.
      destruct (j_profileTotal j) as [pt|] eqn:Ept; [|done].
      split_and!; cbn; try constructor; try lia. specialize (ok_total0 pt eq_refl). lia.
Qed.

Lemma prefetch_progress_core cfg value j :
  core_ok cfg j → core_ok cfg (prefetch_progress value j) ∧ frame j (prefetch_progress value j).
Proof.
  intros H. unfold prefetch_progress. destruct (j_profileTotal j) as [t|] eqn:Et; [|done].
  destruct (as_safe_integer _) as [c|]; [|done]. destruct (_ && _) eqn:Eg; [|done]. bools.
  split; [|done].
  assert (Hm : ∀ total, has_target cfg j total ∧ j_profileCompleted j = total →
    has_target cfg j total ∧ Z.max (j_profileCompleted j) c = total).
  { intros total [Ht Hc]. split; [done|]. destruct Ht as [Ht _]. rewrite Et in Ht.
    injection Ht as <-. lia. }
  open_core H; try done.
  - intros n r Hn. destruct (ok_complete0 n r Hn) as (total & p & o & Ht & Hc & Hp & Ho & Hso).
    exists total, p, o. destruct (Hm total (conj Ht Hc)). done.
  - intros Hd. destruct (ok_download0 Hd) as (total & Ht). exists total. by apply Hm.
Qed.

Lemma progress_core cfg value j :
  core_ok cfg j → core_ok cfg (progress cfg value j) ∧ frame j (progress cfg value j).
Proof.
  intros H. unfold progress. destruct (negb (current j)); [done|].
  destruct (state_progress cfg value j) as [j'|] eqn:E; [|done].
  destruct (state_progress_core _ _ _ _ E H) as [H1 F1].
  destruct (prefetch_progress_core cfg value j' H1) as [H2 F2].
  split; [by apply emit_core|]. eapply frame_trans; [exact F1|].
  eapply frame_trans; [exact F2|apply emit_frame].
Qed.

(** ** The steps of [run] *)
Section run.
Context (cfg : config) (Hmax : 1 ≤ maxAttempts (c_options cfg)).

Lemma fallback_done reason j : core_ok cfg j → job_ok cfg (fallback reason (set_phase PDone j)).
Proof using Type.
  intros H. destruct (fallback_core cfg reason _ (core_set_phase cfg PDone j H)) as [Hc Hs].
  split; [done|]. unfold phase_ok.
  destruct (finish_frame "fallback" (Some reason) (set_phase PDone j)) as [Hp _ _ _ _ _].
  unfold fallback in *. rewrite Hp. cbn. by left.
Qed.

Lemma start_load_ok j : core_ok cfg j → j_downloadComplete j = false → job_ok cfg (start_load cfg j).
Proof using Type.
  intros H Hd. split; [|done]. apply core_notify; [done|]. by apply core_set_phase.
Qed.

Lemma stopped_ok j : core_ok cfg j → current j = false → job_ok cfg (set_phase PDone j).
Proof using Type.
  intros H Hc. split; [by apply core_set_phase|]. unfold current in Hc. bools. by left.
Qed.

Lemma attempt_ok failed j :
  core_ok cfg j → j_downloadComplete j = false → current j = true →
  j_attempts j < maxAttempts (c_options cfg) → job_ok cfg (attempt cfg failed j).
Proof using Type.
  intros H Hd Hc Ha. unfold attempt. rewrite Hc. replace (_ <? _) with true by lia. cbn [negb andb].
  cbv zeta. set (id := (_ +:+ _)%string).
  assert (H1 : core_ok cfg (set_attempts (j_attempts j + 1) j)).
  { open_core H; try done. lia. }
  destruct failed as [kind|].
  - split; [|done]. apply core_notify; [done|]. by apply core_set_phase, core_attemptId.
  - apply start_load_ok; [|done]. by apply core_attemptId.
Qed.

Lemma attempt_failed_ok stage e j :
  core_ok cfg j → j_downloadComplete j = false → job_ok cfg (attempt_failed cfg stage e j).
Proof using Type.
  intros H Hd. unfold attempt_failed.
  destruct (current j) eqn:Ec; cbn [negb]; [|by apply stopped_ok].
  destruct (_ || _) eqn:E; [by apply fallback_done|]. bools.
  apply attempt_ok; try done. pose proof (ok_attempts _ _ H). lia.
Qed.

Lemma prepared_ok r j :
  core_ok cfg j → j_downloadComplete j = false → j_attempts j = 0 → job_ok cfg (prepared cfg r j).
Proof using Hmax.
  intros H Hd Ha. unfold prepared. destruct r as [u|e]; [|by apply fallback_done].
  destruct (current j) eqn:Ec; cbn [negb]; [|by apply stopped_ok].
  destruct (truthy _); cbn [negb]; [|by apply fallback_done]. apply attempt_ok; try done. lia.
Qed.

Lemma recovered_ok kind r j :
  core_ok cfg j → j_downloadComplete j = false → job_ok cfg (recovered cfg kind r j).
Proof using Type.
  intros H Hd. unfold recovered. destruct r as [u|e]; [|by apply attempt_failed_ok].
  destruct (current j) eqn:Ec; cbn [negb]; [by apply start_load_ok|by apply stopped_ok].
Qed.

Lemma core_set_profile p j :
  j_settled j = false → j_downloadComplete j = false → core_ok cfg j → core_ok cfg (set_profile p j).
Proof using Type.
  intros Hs Hd H. open_core H; try done; [|by rewrite Hd].
  intros n r Hn. rewrite Hs, Hn in *. done.
Qed.

Lemma core_set_total total j :
  0 ≤ total → j_settled j = false → j_downloadComplete j = false →
  total_changed total j = false → core_ok cfg j → core_ok cfg (set_profileTotal (Some total) j).
Proof using Type.
  intros Ht Hs Hd Hch H. unfold total_changed in Hch. open_core H; try done.
  - intros n r Hn. rewrite Hs, Hn in *. done.
  - by rewrite Hd.
  - by intros t [= <-].
  - destruct (j_profileTotal j) as [t|].
    + bools. by subst.
    + destruct (j_stateTotal j) as [st|]; [|done]. destruct ok_progress0 as [-> ->].
      specialize (ok_state0 st eq_refl). split_and!; try constructor; lia.
Qed.

Lemma loaded_ok r j :
  core_ok cfg j → j_downloadComplete j = false → job_ok cfg (loaded cfg r j).
Proof using Type.
  intros H Hd. unfold loaded. destruct r as [profiles|e]; [|by apply attempt_failed_ok].
  destruct (current j) eqn:Ec; cbn [negb]; [|by apply stopped_ok].
  assert (Hs : j_settled j = false) by (unfold current in Ec; by bools).
  destruct (find_state profiles) as [p|]; [|by apply fallback_done].
  destruct (origin_mismatch p j); [by apply fallback_done|].
  pose proof (core_set_profile (Some p) j Hs Hd H) as H1.
  destruct (startupRanges _ _) as [[ranges total]|e] eqn:Er; [|by apply attempt_failed_ok].
  cbv zeta. destruct (total_changed _ _) eqn:Et; [by apply attempt_failed_ok|].
  destruct (startupRanges_spec _ _ _ _ Er) as (_ & _ & pieces & _ & _ & Hpos).
  pose proof (core_set_total total (set_profile (Some p) j) Hpos Hs Hd Et H1) as H2.
  set (j2 := set_profileTotal (Some total) (set_profile (Some p) j)) in *.
  destruct (emit_frame j2) as [_ _ F2 F3 F4 _].
  split; [apply core_notify; [done|]; by apply core_set_phase, emit_core|].
  unfold phase_ok, has_target. cbn. rewrite F2, F3, F4. cbn. split; [done|]. right.
  split; [done|]. by exists p, ranges.
Qed.

Lemma fetched_ok total r j :
  core_ok cfg j → j_downloadComplete j = false → j_settled j = true ∨ has_target cfg j total →
  job_ok cfg (fetched cfg total r j).
Proof using Type.
  intros H Hd Ht. unfold fetched. destruct r as [v|e]; [|by apply attempt_failed_ok].
  destruct (current j) eqn:Ec; cbn [negb]; [|by apply stopped_ok].
  assert (Hs : j_settled j = false) by (unfold current in Ec; by bools).
  destruct Ht as [Ht|Ht]; [congruence|].
  destruct (negb _) eqn:Ev; [by apply attempt_failed_ok|].
  set (j2 := set_downloadComplete true (set_profileCompleted total j)).
  assert (H2 : core_ok cfg j2).
  { open_core H; try done.
    - intros n r Hn. rewrite Hs, Hn in *. done.
    - intros _. by exists total. }
  split; [by apply core_set_phase, complete_core, emit_core|].
  unfold phase_ok. cbn. right. destruct (complete_frame (emit j2)) as [_ _ -> _ _ _].
  by destruct (emit_frame j2) as [_ _ -> _ _ _].
Qed.

Lemma step_ok j e : job_ok cfg j → job_ok cfg (step cfg j e).
Proof using Hmax.
  intros [H Hp].
  assert (Hframe : ∀ j', core_ok cfg j' → frame j j' → job_ok cfg j').
  { intros j' Hc Hf. split; [done|]. by eapply frame_phase_ok. }
  unfold phase_ok in Hp.
  assert (Hsame : job_ok cfg j) by done.
  destruct e; cbn;
    try match goal with |- context [match j_phase j with _ => _ end] => destruct (j_phase j) eqn:Eph; try done end.
  - destruct (current j) eqn:Ec; [|by apply stopped_ok].
    split; [by apply core_set_phase|exact Hp].
  - destruct Hp. by apply prepared_ok.
  - by apply recovered_ok.
  - by apply loaded_ok.
  - destruct Hp. by apply fetched_ok.
  - apply Hframe; [by apply validate_core|apply validate_frame].
  - apply Hframe; [by apply commit_core|apply commit_frame].
  - apply Hframe; [by apply fallback_core|apply finish_frame].
  - destruct (j_timer j); [|by apply Hframe].
    apply Hframe; [by apply fallback_core|apply finish_frame].
  - apply Hframe; by apply progress_core.
Qed.

Lemma run_job_ok events : job_ok cfg (run_job cfg events).
Proof using Hmax.
  unfold run_job. assert (H0 : job_ok cfg new_job).
  { split; [|done]. split; cbn; try done. lia. }
  revert H0. generalize new_job. induction events as [|e es IH]; intros j Hj; cbn; [done|].
  apply IH. by apply step_ok.
Qed.
End run.

(** ** What only grows *)
Record grows (j j' : job) : Prop := {
  gr_committed : j_committed j = true → j_committed j' = true;
  gr_settled : j_settled j = true → j_settled j' = true ∧ j_outcome j' = j_outcome j ∧
    progresses (j_log j') = progresses (j_log j)
}.

Lemma grows_refl j : grows j j.
Proof. by split. Qed.
Lemma grows_trans j1 j2 j3 : grows j1 j2 → grows j2 j3 → grows j1 j3.
Proof.
  intros [C1 S1] [C2 S2]. split; [auto|]. intros (Hs & Ho & Hp)%S1.
  destruct (S2 Hs) as (? & ? & ?). split_and!; congruence.
Qed.
#[local] Hint Resolve grows_refl : core.

Lemma grows_finish kind r j : grows j (finish kind r j).
Proof. unfold finish. destruct (j_settled j) eqn:E; [done|]. split; cbn; [done|congruence]. Qed.

(** Updates of the fields that neither commit, settle nor report. *)
Lemma grows_call n j : is_call n = true → grows j (notify n j).
Proof.
  intros Hn. split; cbn; [done|]. intros Hs. split_and!; try done.
  rewrite progresses_app. destruct n; try done; apply app_nil_r.
Qed.

Lemma grows_complete j : grows j (complete j).
Proof.
  unfold complete. destruct (j_origin j); [|done]. destruct (j_profile j); [|done].
  destruct (_ && _); [apply grows_finish|done].
Qed.

Lemma grows_emit j : grows j (emit j).
Proof.
  unfold emit, current. destruct (j_stateTotal j); [|done]. destruct (j_profileTotal j); [|done].
  destruct (j_settled j) eqn:E; [done|]. split; cbn; [done|congruence].
Qed.

(** A setter between two functions of this kind. *)
Ltac grow_via mid := apply grows_trans with mid; [by split|].

Lemma grows_attempt cfg k j : grows j (attempt cfg k j).
Proof.
  unfold attempt, start_load. destruct (negb _); [by split|]. cbv zeta.
  destruct k; (eapply grows_trans; [|by apply grows_call]); by split.
Qed.

Lemma grows_attempt_failed cfg k e j : grows j (attempt_failed cfg k e j).
Proof.
  unfold attempt_failed. destruct (negb _); [by split|]. destruct (_ || _); [|apply grows_attempt].
  grow_via (set_phase PDone j). apply grows_finish.
Qed.

Lemma grows_done r j : grows j (fallback r (set_phase PDone j)).
Proof. grow_via (set_phase PDone j). apply grows_finish. Qed.

Lemma grows_loaded cfg r j : grows j (loaded cfg r j).
Proof.
  unfold loaded. destruct r as [l|e]; [|apply grows_attempt_failed].
  destruct (negb _); [by split|]. destruct (find_state l) as [p|]; [|apply grows_done].
  destruct (origin_mismatch p j); [apply grows_done|]. cbv zeta.
  grow_via (set_profile (Some p) j).
  destruct (startupRanges _ _) as [[rs t]|e]; [|apply grows_attempt_failed].
  destruct (total_changed _ _); [apply grows_attempt_failed|].
  grow_via (set_profileTotal (Some t) (set_profile (Some p) j)).
  eapply grows_trans; [apply grows_emit|]. eapply grows_trans; [|by apply grows_call]. by split.
Qed.

Lemma grows_fetched cfg t r j : grows j (fetched cfg t r j).
Proof.
  unfold fetched. destruct r as [v|e]; [|apply grows_attempt_failed].
  destruct (negb (current j)); [by split|]. destruct (negb _); [apply grows_attempt_failed|].
  set (j2 := set_downloadComplete true _). grow_via j2.
  eapply grows_trans; [apply grows_emit|]. eapply grows_trans; [apply grows_complete|]. by split.
Qed.

Lemma grows_validate o j : grows j (validate o j).
Proof.
  unfold validate. destruct (negb (current j)); [done|]. cbv zeta.
  set (j2 := set_origin _ j). grow_via j2. destruct (j_profile j2); [|apply grows_complete].
  destruct (negb _); [apply grows_finish|apply grows_complete].
Qed.

Lemma grows_progress cfg v j : grows j (progress cfg v j).
Proof.
  unfold progress, current. destruct (j_settled j) eqn:E; [done|]. cbn [negb].
  destruct (state_progress cfg v j) as [j'|] eqn:Ep; [|done].
  assert (H1 : grows j j').
  { unfold state_progress in Ep. repeat case_match; inversion Ep; subst; done. }
  eapply grows_trans; [exact H1|]. eapply grows_trans; [|apply grows_emit].
  unfold prefetch_progress. repeat case_match; done.
Qed.

Lemma step_grows cfg j e : grows j (step cfg j e).
Proof.
  destruct e; cbn;
    try match goal with |- context [match j_phase j with _ => _ end] => destruct (j_phase j) eqn:Eph; try done end.
  - destruct (current j); by split.
  - unfold prepared. destruct r; [|apply grows_done]. destruct (negb (current j)); [by split|].
    destruct (negb _); [apply grows_done|apply grows_attempt].
  - unfold recovered. destruct r; [|apply grows_attempt_failed].
    destruct (negb _); [by split|]. eapply grows_trans; [|by apply grows_call]. by split.
  - apply grows_loaded.
  - apply grows_fetched.
  - apply grows_validate.
  - unfold commit. destruct (_ || _); [done|].
    grow_via (set_timer true (set_committed true j)). apply grows_complete.
  - apply grows_finish.
  - destruct (j_timer j); [apply grows_finish|done].
  - apply grows_progress.
Qed.

Lemma run_grows cfg events j : grows j (foldl (step cfg) j events).
Proof.
  revert j. induction events as [|e es IH]; intros j; cbn; [done|].
  eapply grows_trans; [apply step_grows|apply IH].
Qed.

Lemma commit_takes j : j_committed (commit j) = true ∨ j_settled (commit j) = true.
Proof.
  unfold commit. destruct (j_committed j || j_settled j) eqn:E.
  - apply orb_true_iff in E. tauto.
  - left. destruct (grows_complete (set_timer true (set_committed true j))) as [Hc _]. by apply Hc.
Qed.

(** ** The claims about a job *)

(** In every run the job makes at most [maxAttempts] attempts and reports at
    most one outcome; [complete] is reported only when the whole target was
    downloaded and the profile is that of the validated origin; nothing after
    the outcome changes it or reports progress; and once the restore is
    committed, the timer settles the job if nothing else has. *)
Theorem job_settles_once cfg events later :
  1 ≤ maxAttempts (c_options cfg) →
  let j := run_job cfg events in
  j_attempts j ≤ maxAttempts (c_options cfg) ∧
  (length (outcomes (j_log j)) ≤ 1)%nat ∧
  (∀ n r, Outcome "complete" n r ∈ outcomes (j_log j) → verified cfg j) ∧
  (j_settled j = true →
     let j' := foldl (step cfg) j later in
     outcomes (j_log j') = outcomes (j_log j) ∧ progresses (j_log j') = progresses (j_log j)) ∧
  (ECommit ∈ events → j_settled (step cfg j ETimeout) = true).
Proof.
  intros Hmax j. destruct (run_job_ok cfg Hmax events) as [H Hp]. fold j in H, Hp.
  pose proof (ok_settled _ _ H) as Ho. pose proof (ok_settled_flag _ _ H) as Hf.
  split_and!.
  - apply (ok_attempts _ _ H).
  - rewrite Ho. destruct (j_outcome j); cbn; lia.
  - intros n r Hn. rewrite Ho in Hn. destruct (j_outcome j) as [o|] eqn:Eo.
    + apply list_elem_of_singleton in Hn. subst o. by eapply ok_complete.
    + by apply elem_of_nil in Hn.
  - intros Hs j'. destruct (gr_settled _ _ (run_grows cfg later j) Hs) as (Hs' & Ho' & Hp').
    assert (H' : job_ok cfg j').
    { subst j' j. unfold run_job. rewrite <- foldl_app. by apply run_job_ok. }
    split; [|done]. etrans; [exact (ok_settled _ _ (proj1 H'))|]. by rewrite Ho, <- Ho'.
  - intros Hc. apply list_elem_of_split in Hc as (es1 & es2 & ->).
    assert (Hcs : j_committed j = true ∨ j_settled j = true).
    { subst j. unfold run_job. rewrite foldl_app. cbn [foldl]. set (j1 := foldl _ new_job es1).
      destruct (run_grows cfg es2 (step cfg j1 ECommit)) as [Gc Gs].
      destruct (commit_takes j1) as [Hc|Hs]; [left; by apply Gc|right; by apply Gs]. }
    cbn. destruct (j_settled j) eqn:Es.
    + destruct (j_timer j); [|done]. exact (proj2 (fallback_core cfg _ j H)).
    + destruct Hcs as [Hcs|]; [|done]. rewrite (ok_timer _ _ H Hcs Es).
      exact (proj2 (fallback_core cfg _ j H)).
Qed.

Definition demo_config : config :=
  Config "job" (SpOptions 3 10000 8) (8 * 65536) (198 + 8 * 65598) (JStr "state") (JStr "profile").
Definition demo_origin : jsval := JObj [field "kind" (JStr "state"); field "sha256" (JStr "aa")].
(** The target is 2 of the file's 3 pieces, the last one cut short by the end. *)
Definition demo_events : list event :=
  [EStart; EPrepared (Ok tt); ECommit;
   ELoaded (throw "NETWORK" "offline"); ERecovered (Ok tt);
   EProgress (JObj [field "infoHash" (JStr "state"); field "size" (JNum (NInt 100));
                    field "coveredBytes" (JNum (NInt 40))]);
   ELoaded (Ok [SProfile demo_origin [Some (4, 7)]]);
   EProgress (JObj [field "startupPrefetch" (JObj [field "id" (JStr "job:2");
     field "total" (JNum (NInt 262838)); field "completed" (JNum (NInt 262144))])]);
   EFetched (Ok (JObj [field "completed" (JNum (NInt 262838)); field "total" (JNum (NInt 262838))]));
   EValidate demo_origin].

Lemma job_settles_once_witness :
  outcomes (j_log (run_job demo_config demo_events)) = [Outcome "complete" 2 None] ∧
  verified demo_config (run_job demo_config demo_events).
Proof.
  split; [vm_compute; reflexivity|].
  destruct (job_settles_once demo_config demo_events [] ltac:(done)) as (_ & _ & H & _).
  apply (H 2 None). vm_compute. constructor.
Defined.

(** The progress a job reports never decreases, never exceeds its total, and
    the total is the same in every report. *)
Theorem job_progress_monotone cfg events :
  1 ≤ maxAttempts (c_options cfg) →
  let reports := progresses (j_log (run_job cfg events)) in
  StronglySorted Z.le reports.*1 ∧
  ∃ total, Forall (λ p, p.1 ≤ p.2 ∧ p.2 = total) reports.
Proof.
  intros Hmax reports. destruct (run_job_ok cfg Hmax events) as [H _].
  pose proof (ok_progress _ _ H) as Hp. fold reports in Hp.
  destruct (j_stateTotal _) as [st|].
  2:{ destruct Hp as [-> _]. split; [constructor|by exists 0]. }
  destruct (j_profileTotal _) as [pt|].
  2:{ destruct Hp as [-> _]. split; [constructor|by exists 0]. }
  destruct Hp as (Hf & Hs & Hl). split; [done|]. exists (st + pt).
  eapply Forall_impl; [exact Hf|]. cbn. lia.
Qed.

Lemma job_progress_monotone_witness :
  progresses (j_log (run_job demo_config demo_events)) =
    [(40, 262938); (262184, 262938); (262878, 262938)] ∧
  StronglySorted Z.le (progresses (j_log (run_job demo_config demo_events))).*1.
Proof.
  split; [vm_compute; reflexivity|].
  destruct (job_progress_monotone demo_config demo_events ltac:(done)) as [H _]. exact H.
Defined.

(** ** [run] returns *)

(** The event settles the promise that [run] awaits. *)
Definition resumes (j : job) (e : event) : bool :=
  match e, j_phase j with
  | EStart, PStart | EPrepared _, PPrepare | ERecovered _, PRecover _
  | ELoaded _, PLoad | EFetched _, PFetch _ => true
  | _, _ => false
  end.

Fixpoint resumptions (cfg : config) (j : job) (events : list event) : Z :=
  match events with
  | [] => 0
  | e :: es => (if resumes j e then 1 else 0) + resumptions cfg (step cfg j e) es
  end.

(** How many awaits [run] can still reach. *)
Definition rank (cfg : config) (j : job) : Z :=
  4 * (maxAttempts (c_options cfg) - j_attempts j) +
  match j_phase j with
  | PStart => 5 | PPrepare => 4 | PRecover _ => 3 | PLoad => 2 | PFetch _ => 1
  | PDone => 0
  end.

Lemma rank_frame cfg j j' : frame j j' → rank cfg j' = rank cfg j.
Proof. intros [Hp Ha _ _ _ _]. unfold rank. by rewrite Hp, Ha. Qed.

Lemma rank_done cfg r j :
  rank cfg (fallback r (set_phase PDone j)) = 4 * (maxAttempts (c_options cfg) - j_attempts j).
Proof.
  rewrite (rank_frame cfg (set_phase PDone j)) by apply finish_frame. unfold rank. cbn. lia.
Qed.

Lemma rank_attempt cfg k j :
  rank cfg (attempt cfg k j) ≤ 4 * (maxAttempts (c_options cfg) - j_attempts j).
Proof.
  unfold attempt. destruct (negb _); [unfold rank; cbn; lia|]. cbv zeta.
  destruct k; unfold rank; cbn; lia.
Qed.

Lemma rank_attempt_failed cfg k e j :
  rank cfg (attempt_failed cfg k e j) ≤ 4 * (maxAttempts (c_options cfg) - j_attempts j).
Proof.
  unfold attempt_failed. destruct (negb _); [unfold rank; cbn; lia|].
  destruct (_ || _); [by rewrite rank_done|apply rank_attempt].
Qed.

Lemma rank_step cfg j e : rank cfg (step cfg j e) + (if resumes j e then 1 else 0) ≤ rank cfg j.
Proof.
  assert (Hf : ∀ j', frame j j' → rank cfg j' + 0 ≤ rank cfg j).
  { intros j' Hj'. rewrite (rank_frame _ _ _ Hj'). lia. }
  assert (Hd : rank cfg (set_phase PDone j) = 4 * (maxAttempts (c_options cfg) - j_attempts j)).
  { unfold rank; cbn; lia. }
  pose proof (rank_attempt cfg None j) as Ha.
  assert (Haf := λ k x, rank_attempt_failed cfg k x j).
  assert (Hdone := λ r, rank_done cfg r j).
  assert (Hld : rank cfg (start_load cfg j) = 4 * (maxAttempts (c_options cfg) - j_attempts j) + 2) by done.
  unfold resumes.
  destruct e; cbn [step];
    try match goal with |- context [match j_phase j with _ => _ end] => destruct (j_phase j) eqn:Eph; try lia end;
    unfold rank at 2; rewrite ?Eph.
  - destruct (current j); [unfold rank; cbn; lia|lia].
  - unfold prepared. repeat case_match; rewrite ?Hdone, ?Hd; lia.
  - unfold recovered. repeat case_match; rewrite ?Hdone, ?Hd; try lia. specialize (Haf kind e). lia.
  - unfold loaded. cbv zeta.
    assert (Hl : ∀ k x p, rank cfg (attempt_failed cfg k x (set_profile (Some p) j)) ≤
      4 * (maxAttempts (c_options cfg) - j_attempts j)) by
      (intros k x p; exact (rank_attempt_failed cfg k x (set_profile (Some p) j))).
    assert (Hn : ∀ n t p x, rank cfg (notify n (set_phase (PFetch t) (emit (set_profileTotal x (set_profile p j))))) =
      4 * (maxAttempts (c_options cfg) - j_attempts j) + 1).
    { intros n t p x. unfold rank. cbn.
      by destruct (emit_frame (set_profileTotal x (set_profile p j))) as [_ -> _ _ _ _]. }
    specialize (Haf "profile"%string). repeat case_match; rewrite ?Hdone, ?Hd, ?Hn; try lia.
    + etrans; [apply Z.add_le_mono_r, Hl|]. lia.
    + etrans; [apply Z.add_le_mono_r, Hl|]. lia.
    + etrans; [apply Z.add_le_mono_r, Haf|]. lia.
  - unfold fetched. specialize (Haf "disk"%string). repeat case_match; rewrite ?Hd; try lia;
      try (etrans; [apply Z.add_le_mono_r, Haf|]; lia).
    unfold rank. cbn. set (j2 := set_downloadComplete true _).
    destruct (complete_frame (emit j2)) as [_ -> _ _ _ _]. destruct (emit_frame j2) as [_ -> _ _ _ _].
    cbn. lia.
  - apply Hf, validate_frame.
  - apply Hf, commit_frame.
  - apply Hf, finish_frame.
  - apply Hf. destruct (j_timer j); [apply finish_frame|done].
  - apply Hf. unfold progress. destruct (negb _); [done|].
    destruct (state_progress cfg value j) as [j1|] eqn:E; [|done].
    assert (F : frame j j1) by (unfold state_progress in E; repeat case_match; inversion E; subst; done).
    eapply frame_trans; [exact F|]. eapply frame_trans; [|apply emit_frame].
    unfold prefetch_progress. repeat case_match; done.
Qed.

(** [run] awaits at most [4 maxAttempts + 5] promises, so it returns once they
    all settle; when it has returned the job is settled, or its download is
    complete and only the validation of the origin is outstanding. *)
Theorem run_returns cfg events :
  1 ≤ maxAttempts (c_options cfg) →
  resumptions cfg new_job events ≤ 4 * maxAttempts (c_options cfg) + 5 ∧
  let j := run_job cfg events in
  j_phase j = PDone →
    j_settled j = true ∨ ∃ total, has_target cfg j total ∧ j_profileCompleted j = total.
Proof.
  intros Hmax. split.
  - assert (H : ∀ es j, job_ok cfg j → resumptions cfg j es ≤ rank cfg j).
    { induction es as [|e es IH]; intros j Hj; cbn.
      - destruct Hj as [Hc _]. pose proof (ok_attempts _ _ Hc). unfold rank.
        destruct (j_phase j); lia.
      - specialize (IH _ (step_ok cfg Hmax j e Hj)). pose proof (rank_step cfg j e). lia. }
    etrans; [apply H, (run_job_ok cfg Hmax [])|]. unfold rank. cbn. lia.
  - intros j Hd. destruct (run_job_ok cfg Hmax events) as [Hc Hp].
    unfold phase_ok in Hp. subst j. rewrite Hd in Hp. destruct Hp as [Hp|Hp]; [by left|].
    right. by apply ok_download.
Qed.

Lemma run_returns_witness :
  j_phase (run_job demo_config demo_events) = PDone ∧
  resumptions demo_config new_job demo_events = 6 ∧ 6 ≤ 4 * 3 + 5.
Proof.
  split; [vm_compute; reflexivity|]. split; [vm_compute; reflexivity|].
  exact (proj1 (run_returns demo_config demo_events ltac:(done))).
Defined.
