(* ===== verification/PieceStore.v ===== *)
(** * The torrent piece store (src/src/disk/web/torrent-store.js)

    [TorrentPieceStore] keeps ciphertext pieces in IndexedDB and the recently
    used ones in memory, within a byte budget.  Its operations are asynchronous:
    a piece is remembered only when its transaction has ended.

    The database is outside the code.  What it answers are events: the work of a
    pending operation starts, and later its transaction ends with a result.  The
    callbacks are recorded in order. *)
From S2P Require Import Prelude JsValue.
#[local] Open Scope Z_scope.

Definition PIECE_LENGTH : Z := 256 * 1024.

(** What the database fails with: a [QuotaExceededError] or any other error. *)
Inductive db_error := Quota | Other (e : exn).

Definition storageError (e : db_error) : exn :=
  match e with
  | Quota => Exn (Some "STORAGE_FULL"%string) "Not enough browser storage for this torrent"
  | Other e =>
      match exn_code e with
      | Some _ => e
      | None => Exn (Some "STORAGE_ERROR"%string) "Torrent storage is unavailable"
      end
  end.

(** The end of a [transaction]: its result, or the error it was aborted with. *)
Definition db_result (A : Type) : Type := A + db_error.
Definition transaction {A} (r : db_result A) : result A :=
  match r with inl a => Ok a | inr e => Throw (storageError e) end.

(** ** Opening the database *)
Inductive open_event := OpenError (e : db_error) | OpenBlocked | OpenSuccess.
Inductive open_effect := Resolved | Rejected (e : exn) | ConnectionClosed.

(** The handlers of [openTorrentDatabase]; the state is [settled].  Rejecting a
    promise that is already settled has no effect, so it is recorded only when
    the promise is still pending. *)
Definition open_step (settled : bool) (e : open_event) : bool * list open_effect :=
  match e with
  | OpenError x => (true, if settled then [] else [Rejected (storageError x)])
  | OpenBlocked => (true, if settled then [] else
      [Rejected (Exn (Some "STORAGE_BLOCKED"%string) "Close other my98 tabs to update torrent storage")])
  | OpenSuccess => (true, if settled then [ConnectionClosed] else [Resolved])
  end.

(** ** The store *)
Record row := Row { row_length : jsval; row_chunkLength : jsval; row_data : option bytes }.

Inductive work :=
| WPut (index : jsval) (input : option bytes)   (** [None]: not a [Uint8Array] *)
| WGet (index offset len : jsval).

(** Where a pending operation is: not started, or in its transaction. *)
Inductive stage :=
| SQueued (w : work)
| SPutTx (index : Z) (data : bytes)
| SGetTx (index size offset len : Z).

Inductive answer := AnswerPut | AnswerGet (data : bytes).

Record store := Store {
  s_length : Z;
  s_chunkLength : Z;
  s_count : Z;
  s_budget : Z;
  s_cache : list (Z * bytes);             (** a [Map], oldest entry first *)
  s_memoryBytes : Z;
  s_pending : list (Z * stage);           (** operations by number *)
  s_next : Z;                             (** the next operation's number *)
  s_closed : bool;
  s_callbacks : list (Z * result answer)  (** the callbacks made, in order *)
}.

Definition new_store (chunkLength : Z) (infoHash len : jsval) (ramBytes : jsval) : result store :=
  match as_safe_integer len with
  | Some n =>
      if negb (hex_test 40 infoHash) || negb (chunkLength =? PIECE_LENGTH) || (n <? 1)
      then throw "INVALID_TORRENT" "Expected a v1 torrent with 256 KiB pieces" else
      let budget := match ramBytes with JUndefined | JNull => JNum (NInt (2 * 1024 * 1024)) | v => v end in
      match as_safe_integer budget with
      | Some b =>
          if (b <? 0) || (8 * 1024 * 1024 <? b)
          then throw "INVALID_TORRENT" "Invalid torrent RAM cache budget"
          else Ok (Store n chunkLength (ceil_div n chunkLength) b [] 0 [] 0 false [])
      | None => throw "INVALID_TORRENT" "Invalid torrent RAM cache budget"
      end
  | None => throw "INVALID_TORRENT" "Expected a v1 torrent with 256 KiB pieces"
  end.

Definition set_cache (cache : list (Z * bytes)) (memory : Z) (s : store) : store :=
  Store (s_length s) (s_chunkLength s) (s_count s) (s_budget s) cache memory
    (s_pending s) (s_next s) (s_closed s) (s_callbacks s).
Definition set_pending (pending : list (Z * stage)) (s : store) : store :=
  Store (s_length s) (s_chunkLength s) (s_count s) (s_budget s) (s_cache s) (s_memoryBytes s)
    pending (s_next s) (s_closed s) (s_callbacks s).
Definition callback (id : Z) (r : result answer) (s : store) : store :=
  Store (s_length s) (s_chunkLength s) (s_count s) (s_budget s) (s_cache s) (s_memoryBytes s)
    (s_pending s) (s_next s) (s_closed s) (s_callbacks s ++ [(id, r)]).

(** [size(index)], with the index it has checked. *)
Definition size_of (s : store) (i : Z) : Z :=
  Z.min (s_chunkLength s) (s_length s - i * s_chunkLength s).
Definition piece_size (s : store) (index : jsval) : result (Z * Z) :=
  match as_safe_integer index with
  | Some i =>
      if (i <? 0) || (s_count s <=? i) then throw "INVALID_RANGE" "Torrent piece is out of range"
      else Ok (i, size_of s i)
  | None => throw "INVALID_RANGE" "Torrent piece is out of range"
  end.

(** The eviction loop of [remember]. *)
Fixpoint evict (budget : Z) (cache : list (Z * bytes)) (memory : Z) : list (Z * bytes) * Z :=
  match cache with
  | [] => ([], memory)
  | (key, value) :: rest =>
      if budget <? memory then evict budget rest (memory - byteLength value) else (cache, memory)
  end.

Definition remember (index : Z) (data : bytes) (s : store) : store :=
  let '(cache, memory) := match map_get index (s_cache s) with
    | Some previous => (map_delete index (s_cache s), s_memoryBytes s - byteLength previous)
    | None => (s_cache s, s_memoryBytes s)
    end in
  if s_budget s <? byteLength data then set_cache cache memory s else
  let '(cache, memory) := evict (s_budget s) (cache ++ [(index, data)]) (memory + byteLength data) in
  set_cache cache memory s.

(** [perform]: on a closed store the callback fails in a microtask. *)
Definition perform (w : work) (s : store) : store :=
  let id := s_next s in
  let s := Store (s_length s) (s_chunkLength s) (s_count s) (s_budget s) (s_cache s)
    (s_memoryBytes s) (s_pending s) (id + 1) (s_closed s) (s_callbacks s) in
  if s_closed s then callback id (throw "STORAGE_CLOSED" "Torrent piece store is closed") s
  else set_pending (map_set id (SQueued w) (s_pending s)) s.

(** The operation's promise settles: it leaves [pending] and calls back. *)
Definition settle (id : Z) (r : result answer) (s : store) : store :=
  let r := match r with Ok a => Ok a | Throw e => Throw (storageError (Other e)) end in
  callback id r (set_pending (map_delete id (s_pending s)) s).

Definition option_or (v : jsval) (dflt : Z) : option Z :=
  match v with JUndefined | JNull => Some dflt | _ => as_safe_integer v end.

(** The work up to its first [await]. *)
Definition start (id : Z) (w : work) (s : store) : store :=
  match w with
  | WPut index input =>
      match piece_size s index with
      | Throw e => settle id (Throw e) s
      | Ok (i, size) =>
          match input with
          | Some data =>
              if byteLength data =? size then set_pending (map_set id (SPutTx i data) (s_pending s)) s
              else settle id (throw "INVALID_RANGE" "Incorrect torrent piece size") s
          | None => settle id (throw "INVALID_RANGE" "Incorrect torrent piece size") s
          end
      end
  | WGet index offset len =>
      match piece_size s index with
      | Throw e => settle id (Throw e) s
      | Ok (i, size) =>
          let bad := settle id (throw "INVALID_RANGE" "Torrent piece range is out of bounds") s in
          match option_or offset 0 with
          | None => bad
          | Some o =>
              match option_or len (size - o) with
              | None => bad
              | Some n =>
                  if negb (is_safe n) || (o <? 0) || (n <? 0) || (size <? o + n) then bad else
                  match map_get i (s_cache s) with
                  | Some data =>
                      settle id (Ok (AnswerGet (slice data o (o + n))))
                        (set_cache (map_delete i (s_cache s) ++ [(i, data)]) (s_memoryBytes s) s)
                  | None => set_pending (map_set id (SGetTx i size o n) (s_pending s)) s
                  end
              end
          end
      end
  end.

Definition row_ok (s : store) (size : Z) (r : option row) : option bytes :=
  r ← r;
  data ← row_data r;
  if is_int (row_length r) (s_length s) && is_int (row_chunkLength r) (s_chunkLength s) &&
     (byteLength data =? size) then Some data else None.

Inductive event :=
| Put (index : jsval) (input : option bytes)
| Get (index offset len : jsval)
| Start (id : Z)                              (** the microtask of [perform] *)
| Written (id : Z) (r : db_result unit)          (** the put's transaction ended *)
| Read (id : Z) (r : db_result (option row))     (** the get's transaction ended *)
| Close
| Closed.  (** every promise that was pending at [Close] has settled *)

Definition step (s : store) (e : event) : store :=
  match e with
  | Put index input => perform (WPut index input) s
  | Get index offset len => perform (WGet index offset len) s
  | Start id =>
      match map_get id (s_pending s) with
      | Some (SQueued w) => start id w s
      | _ => s
      end
  | Written id r =>
      match map_get id (s_pending s) with
      | Some (SPutTx i data) =>
          match transaction r with
          | Throw e => settle id (Throw e) s
          | Ok _ => settle id (Ok AnswerPut) (remember i data s)
          end
      | _ => s
      end
  | Read id r =>
      match map_get id (s_pending s) with
      | Some (SGetTx i size o n) =>
          match transaction r with
          | Throw e => settle id (Throw e) s
          | Ok r =>
              match row_ok s size r with
              | Some data => settle id (Ok (AnswerGet (slice data o (o + n)))) (remember i data s)
              | None => settle id (throw "ENOENT" "Torrent piece is not cached") s
              end
          end
      | _ => s
      end
  | Close =>
      Store (s_length s) (s_chunkLength s) (s_count s) (s_budget s) (s_cache s) (s_memoryBytes s)
        (s_pending s) (s_next s) true (s_callbacks s)
  | Closed => if s_closed s && bool_decide (s_pending s = []) then set_cache [] 0 s else s
  end.

Definition run_store (s : store) (events : list event) : store := foldl step s events.

(** ** The memory cache *)
Definition cache_bytes (cache : list (Z * bytes)) : Z :=
  sum_list_Z ((λ p : Z * bytes, byteLength p.2) <$> cache).

Lemma cache_bytes_cons p c : cache_bytes (p :: c) = byteLength p.2 + cache_bytes c.
Proof. done. Qed.
Lemma cache_bytes_app c1 c2 : cache_bytes (c1 ++ c2) = cache_bytes c1 + cache_bytes c2.
Proof. unfold cache_bytes. by rewrite fmap_app, sum_list_Z_app. Qed.
Lemma cache_bytes_nonneg c : 0 ≤ cache_bytes c.
Proof. apply sum_list_Z_nonneg, Forall_fmap, Forall_true. intros p. cbn. unfold byteLength. lia. Qed.
Lemma cache_bytes_delete i d c :
  NoDup c.*1 → map_get i c = Some d → cache_bytes (map_delete i c) = cache_bytes c - byteLength d.
Proof.
  induction c as [|[k v] c IH]; [done|]. intros [Hni Hnd]%NoDup_cons Hg.
  cbn [map_get] in Hg. unfold map_delete. cbn [List.filter fst]. fold (map_delete i c).
  rewrite cache_bytes_cons. destruct (k =? i) eqn:E; bools; cbn [negb].
  - injection Hg as ->. subst k. rewrite map_delete_absent; [cbn; lia|].
    by apply map_get_None.
  - rewrite cache_bytes_cons, IH by done. cbn. lia.
Qed.

(** Eviction drops the shortest prefix that brings the rest within the budget. *)
Lemma evict_spec budget c m :
  0 ≤ budget → m = cache_bytes c →
  ∃ dropped, c = dropped ++ (evict budget c m).1 ∧
    (evict budget c m).2 = cache_bytes (evict budget c m).1 ∧
    (evict budget c m).2 ≤ budget ∧
    ∀ d1 p, dropped = d1 ++ [p] → budget < cache_bytes (p :: (evict budget c m).1).
Proof.
  intros Hb. revert m. induction c as [|[k v] c IH]; intros m ->; cbn [evict].
  - exists []. split_and!; try done. intros d1 p E. by destruct d1.
  - destruct (budget <? cache_bytes ((k, v) :: c)) eqn:E; bools; cbn [fst snd].
    + rewrite cache_bytes_cons in *. cbn [snd] in *.
      destruct (IH (byteLength v + cache_bytes c - byteLength v) ltac:(lia)) as (dr & Hc & Hm & Hle & Hmin).
      exists ((k, v) :: dr). cbn [app]. split_and!; [by f_equal|done|done|].
      intros d1 p Ed. destruct d1 as [|q d1]; [|injection Ed as _ Ed; by eapply Hmin].
      injection Ed as <- ->. cbn [app] in Hc.
      rewrite cache_bytes_cons. cbn [snd]. rewrite <- Hc. done.
    + exists []. split_and!; try done. intros d1 p Ed. by destruct d1.
Qed.

(** The part of the store's invariant about the cache. *)
Record cache_ok (s : store) : Prop := {
  co_budget : 0 ≤ s_budget s;
  co_keys : NoDup (s_cache s).*1;
  co_bytes : s_memoryBytes s = cache_bytes (s_cache s);
  co_fits : s_memoryBytes s ≤ s_budget s
}.

Lemma remember_unfold i d s :
  cache_ok s →
  remember i d s =
    let cache := map_delete i (s_cache s) in
    if s_budget s <? byteLength d then set_cache cache (cache_bytes cache) s else
    let '(cache, memory) := evict (s_budget s) (cache ++ [(i, d)]) (cache_bytes (cache ++ [(i, d)])) in
    set_cache cache memory s.
Proof.
  intros [Hb Hk Hm Hf]. unfold remember. rewrite cache_bytes_app.
  assert (E : ∀ m, m = cache_bytes (map_delete i (s_cache s)) →
    m + byteLength d = cache_bytes (map_delete i (s_cache s)) + cache_bytes [(i, d)]).
  { intros m ->. rewrite (cache_bytes_cons (i, d)). cbn. lia. }
  destruct (map_get i (s_cache s)) as [prev|] eqn:Eg.
  - rewrite (E (s_memoryBytes s - byteLength prev)); by rewrite (cache_bytes_delete i prev), Hm.
  - rewrite (map_delete_absent i) in * by done. rewrite (E (s_memoryBytes s)); by rewrite Hm.
Qed.

Lemma remember_spec i d s :
  cache_ok s →
  let s' := remember i d s in
  cache_ok s' ∧
  if s_budget s <? byteLength d then s_cache s' = map_delete i (s_cache s)
  else ∃ dropped kept,
    map_delete i (s_cache s) = dropped ++ kept ∧
    s_cache s' = kept ++ [(i, d)] ∧
    map_get i (s_cache s') = Some d ∧
    ∀ older p, dropped = older ++ [p] → s_budget s < cache_bytes (p :: s_cache s').
Proof.
  intros H s'. subst s'. rewrite remember_unfold by done. destruct H as [Hb Hk Hm Hf]. cbv zeta.
  pose proof (map_delete_keys i _ Hk) as Hk'. pose proof (map_delete_get i (s_cache s)) as Hni.
  destruct (s_budget s <? byteLength d) eqn:E; bools.
  - split; [|done]. split; cbn; try done.
    destruct (map_get i (s_cache s)) as [prev|] eqn:Eg.
    + rewrite (cache_bytes_delete i prev) by done. unfold byteLength. lia.
    + rewrite map_delete_absent by done. lia.
  - set (old := map_delete i (s_cache s)) in *.
    destruct (evict_spec (s_budget s) (old ++ [(i, d)]) _ Hb eq_refl) as (dr & Hc & Hmem & Hle & Hmin).
    destruct (evict _ _ _) as [c m] eqn:Ee. cbn [fst snd] in *.
    assert (Hkeys : NoDup (old ++ [(i, d)]).*1).
    { rewrite fmap_app. apply NoDup_app. split_and!; [done| |apply NoDup_singleton].
      intros x Hx ->%list_elem_of_singleton. done. }
    destruct (exists_last (l := c)) as (kept & last & ->).
    { intros ->. rewrite app_nil_r in Hc. specialize (Hmin old (i, d) (eq_sym Hc)).
      rewrite cache_bytes_cons in Hmin. cbn in Hmin. lia. }
    rewrite app_assoc in Hc. apply app_inj_tail in Hc as [Hold <-].
    rewrite Hold, <- app_assoc, fmap_app in Hkeys. apply NoDup_app in Hkeys as (_ & _ & Hkeys).
    split; [by split|]. exists dr, kept. split_and!; [done|done| |exact Hmin].
    apply elem_of_map_get; [done|]. apply elem_of_app. right. constructor.
Qed.

(** Remembering a piece makes it the newest entry unless it exceeds the
    budget alone; the entries that go are the oldest ones, no more of them than
    needed; the byte count stays exact and within the budget. *)
Theorem remember_lru i d s :
  cache_ok s →
  let s' := remember i d s in
  cache_ok s' ∧
  if s_budget s <? byteLength d then s_cache s' = map_delete i (s_cache s)
  else ∃ dropped kept,
    map_delete i (s_cache s) = dropped ++ kept ∧
    s_cache s' = kept ++ [(i, d)] ∧
    map_get i (s_cache s') = Some d ∧
    ∀ older p, dropped = older ++ [p] → s_budget s < cache_bytes (p :: s_cache s').
Proof. exact (remember_spec i d s). Qed.

Lemma remember_lru_witness :
  let s := Store 1000000 PIECE_LENGTH 4 5 [(0, [1; 2]); (3, [3]); (1, [4; 5])] 5 [] 0 false [] in
  s_cache (remember 2 [6; 7; 8] s) = [(1, [4; 5]); (2, [6; 7; 8])] ∧ cache_ok (remember 2 [6; 7; 8] s).
Proof.
  cbv zeta. split; [vm_compute; reflexivity|].
  refine (proj1 (remember_lru 2 [6; 7; 8] _ _)). split; cbn.
  - lia.
  - by apply (bool_decide_unpack _).
  - reflexivity.
  - lia.
Defined.

(** ** What the callbacks answer

    A history of the run beside the store: the requests by number, and the pieces
    the database has confirmed (written by a put whose transaction completed, or
    read from a row that passed the checks). *)
Record history := History { h_requests : list (Z * work); h_confirmed : list (Z * bytes) }.

Definition watch (s : store) (e : event) (h : history) : history :=
  match e with
  | Put index input => History (h_requests h ++ [(s_next s, WPut index input)]) (h_confirmed h)
  | Get index offset len => History (h_requests h ++ [(s_next s, WGet index offset len)]) (h_confirmed h)
  | Written id (inl _) =>
      match map_get id (s_pending s) with
      | Some (SPutTx i data) => History (h_requests h) (h_confirmed h ++ [(i, data)])
      | _ => h
      end
  | Read id (inl r) =>
      match map_get id (s_pending s) with
      | Some (SGetTx i size o n) =>
          match row_ok s size r with
          | Some data => History (h_requests h) (h_confirmed h ++ [(i, data)])
          | None => h
          end
      | _ => h
      end
  | _ => h
  end.

Fixpoint run_history (s : store) (h : history) (events : list event) : store * history :=
  match events with
  | [] => (s, h)
  | e :: events => run_history (step s e) (watch s e h) events
  end.

(** Request [id] is a put of [data] at piece [i]. *)
Definition asked_put (h : history) (id i : Z) (data : bytes) : Prop :=
  ∃ index, (id, WPut index (Some data)) ∈ h_requests h ∧ as_safe_integer index = Some i.

(** Request [id] is a get of the bytes [o .. o+n) of piece [i]. *)
Definition asked_get (s : store) (h : history) (id i o n : Z) : Prop :=
  ∃ index offset len, (id, WGet index offset len) ∈ h_requests h ∧
    as_safe_integer index = Some i ∧ option_or offset 0 = Some o ∧
    option_or len (size_of s i - o) = Some n ∧ 0 ≤ o ∧ 0 ≤ n ∧ o + n ≤ size_of s i.

Definition in_store (s : store) (i : Z) : Prop := 0 ≤ i < s_count s.

Definition stage_ok (s : store) (h : history) (id : Z) (st : stage) : Prop :=
  match st with
  | SQueued w => (id, w) ∈ h_requests h
  | SPutTx i data => asked_put h id i data ∧ in_store s i ∧ byteLength data = size_of s i
  | SGetTx i size o n => asked_get s h id i o n ∧ in_store s i ∧ size = size_of s i
  end.

(** An answer of the store: a put answers when its bytes are confirmed, a get with
    the requested part of a confirmed piece. *)
Definition answer_ok (s : store) (h : history) (id : Z) (r : result answer) : Prop :=
  match r with
  | Throw _ => True
  | Ok AnswerPut => ∃ i data, asked_put h id i data ∧ (i, data) ∈ h_confirmed h
  | Ok (AnswerGet out) => ∃ i o n data, asked_get s h id i o n ∧ (i, data) ∈ h_confirmed h ∧
      out = slice data o (o + n) ∧ byteLength out = n
  end.

Record store_ok (s : store) (h : history) : Prop := {
  so_cache : cache_ok s;
  so_cached : ∀ i data, (i, data) ∈ s_cache s → (i, data) ∈ h_confirmed h;
  so_confirmed : ∀ i data, (i, data) ∈ h_confirmed h → in_store s i ∧ byteLength data = size_of s i;
  so_next : 0 ≤ s_next s;
  so_requests : (h_requests h).*1 = zrange 0 (Z.to_nat (s_next s));
  so_ids : (s_pending s).*1 ++ (s_callbacks s).*1 ≡ₚ zrange 0 (Z.to_nat (s_next s));
  so_pending : ∀ id st, (id, st) ∈ s_pending s → stage_ok s h id st;
  so_callbacks : ∀ id r, (id, r) ∈ s_callbacks s → answer_ok s h id r
}.

(** The part that does not change: where pieces are. *)
Definition same_shape (s s' : store) : Prop :=
  s_length s' = s_length s ∧ s_chunkLength s' = s_chunkLength s ∧ s_count s' = s_count s ∧
  s_budget s' = s_budget s.

Lemma stage_mono s s' h h' id st :
  same_shape s s' → h_requests h ⊆ h_requests h' → stage_ok s h id st → stage_ok s' h' id st.
Proof.
  intros (H1 & H2 & H3 & _) Hr. unfold stage_ok, asked_put, asked_get, in_store, size_of.
  rewrite H1, H2, H3. destruct st; naive_solver.
Qed.

Lemma answer_mono s s' h h' id r :
  same_shape s s' → h_requests h ⊆ h_requests h' → h_confirmed h ⊆ h_confirmed h' →
  answer_ok s h id r → answer_ok s' h' id r.
Proof.
  intros (H1 & H2 & _) Hr Hc. unfold answer_ok, asked_put, asked_get, size_of.
  rewrite H1, H2. destruct r as [[|out]|]; [naive_solver| |done].
  intros (i & o & n & data & (index & offset & len & ?) & ? & ?).
  exists i, o, n, data. split_and!; [|by apply Hc|naive_solver..].
  exists index, offset, len. naive_solver.
Qed.

(** ** Preservation *)
Lemma remember_shape i d s :
  same_shape s (remember i d s) ∧ s_pending (remember i d s) = s_pending s ∧
  s_next (remember i d s) = s_next s ∧ s_callbacks (remember i d s) = s_callbacks s.
Proof.
  unfold remember. destruct (map_get i (s_cache s)); cbn;
    destruct (s_budget s <? byteLength d); try done; by destruct (evict _ _ _).
Qed.

Lemma remember_elem i d s p :
  cache_ok s → p ∈ s_cache (remember i d s) → p ∈ s_cache s ∨ p = (i, d).
Proof.
  intros H. destruct (remember_spec i d s H) as [_ Hs].
  destruct (s_budget s <? byteLength d).
  - rewrite Hs. intros [? _]%elem_of_map_delete. auto.
  - destruct Hs as (dr & kept & Hd & -> & _). intros [Hp|Hp%list_elem_of_singleton]%elem_of_app; auto.
    assert (Hin : p ∈ map_delete i (s_cache s)) by (rewrite Hd; set_solver).
    apply elem_of_map_delete in Hin as [? _]. auto.
Qed.

Lemma remember_ok i d s h :
  store_ok s h → (i, d) ∈ h_confirmed h → store_ok (remember i d s) h.
Proof.
  intros [Hc Hcd Hcf Hn Hr Hi Hp Hb] Hin.
  destruct (remember_shape i d s) as (Hsh & Ep & En & Eb).
  destruct (remember_spec i d s Hc) as [Hc' _]. split; rewrite ?Ep, ?En, ?Eb; try done.
  - intros j data [?|[= -> ->]]%remember_elem; auto.
  - intros j data Hj%Hcf. unfold in_store, size_of in *. destruct Hsh as (-> & -> & -> & _). done.
  - intros id st Hst. eapply stage_mono; [exact Hsh|done|]. by apply Hp.
  - intros id r Hr'. eapply answer_mono; [exact Hsh|done..|]. by apply Hb.
Qed.

Lemma confirm_ok i d s h :
  store_ok s h → in_store s i → byteLength d = size_of s i →
  store_ok s (History (h_requests h) (h_confirmed h ++ [(i, d)])).
Proof.
  intros [Hc Hcd Hcf Hn Hr Hi Hp Hb] Hs Hl. split; cbn; try done.
  - intros j data Hj%Hcd. set_solver.
  - intros j data [Hj%Hcf|[= -> ->]%list_elem_of_singleton]%elem_of_app; done.
  - intros id r Hr'. eapply (answer_mono s s h); [done|done| |by apply Hb]. cbn. set_solver.
Qed.

Lemma NoDup_pending s h : store_ok s h → NoDup (s_pending s).*1.
Proof.
  intros H. assert (Hnd : NoDup ((s_pending s).*1 ++ (s_callbacks s).*1)).
  { rewrite (so_ids _ _ H). apply NoDup_zrange. }
  by apply NoDup_app in Hnd as [? _].
Qed.

(** Close the goals of an invariant that speak about unchanged fields. *)
Ltac same_fields := cbn; try done; try match goal with
  | H : cache_ok ?s |- cache_ok _ => destruct H; split; done end.

Lemma settle_ok id st r s h :
  store_ok s h → map_get id (s_pending s) = Some st → answer_ok s h id r →
  store_ok (settle id r s) h.
Proof.
  intros H Hg Ha. pose proof (NoDup_pending _ _ H) as Hnd. destruct H as [Hc Hcd Hcf Hn Hr Hi Hp Hb].
  unfold settle, callback, set_pending. split; same_fields.
  - etrans; [|exact Hi]. rewrite fmap_app, (map_delete_perm id st (s_pending s)) by done. cbn.
    rewrite (Permutation_app_comm (s_callbacks s).*1 [id]). cbn. by rewrite <- Permutation_middle.
  - intros id' st' [Hin _]%elem_of_map_delete. exact (Hp _ _ Hin).
  - intros id' r' [Hin|[= -> ->]%list_elem_of_singleton]%elem_of_app; [exact (Hb _ _ Hin)|].
    destruct r as [a|e]; [exact Ha|done].
Qed.

Lemma advance_ok id st st' s h :
  store_ok s h → map_get id (s_pending s) = Some st → stage_ok s h id st' →
  store_ok (set_pending (map_set id st' (s_pending s)) s) h.
Proof.
  intros [Hc Hcd Hcf Hn Hr Hi Hp Hb] Hg Hs. split; same_fields.
  - by rewrite (map_set_keys id st' _ st).
  - intros id' s' [[= -> ->]|Hin]%elem_of_map_set; [done|exact (Hp _ _ Hin)].
Qed.

Lemma touch_ok i data s h :
  store_ok s h → map_get i (s_cache s) = Some data →
  store_ok (set_cache (map_delete i (s_cache s) ++ [(i, data)]) (s_memoryBytes s) s) h.
Proof.
  intros [[Cb Ck Cm Cf] Hcd Hcf Hn Hr Hi Hp Hb] Hg. split; cbn; try done.
  - split; cbn [s_budget s_cache s_memoryBytes set_cache]; try done.
    + rewrite fmap_app. apply NoDup_app. split_and!; [by apply map_delete_keys| |apply NoDup_singleton].
      intros x Hx ->%list_elem_of_singleton. by apply (map_delete_get i (s_cache s)).
    + rewrite cache_bytes_app, (cache_bytes_delete i data), cache_bytes_cons by done. cbn. lia.
  - intros j d [[Hj _]%elem_of_map_delete|[= -> ->]%list_elem_of_singleton]%elem_of_app.
    + by apply Hcd.
    + apply Hcd. by apply map_get_elem.
Qed.

Lemma piece_size_Ok s index i size :
  piece_size s index = Ok (i, size) → as_safe_integer index = Some i ∧ in_store s i ∧ size = size_of s i.
Proof.
  unfold piece_size. destruct (as_safe_integer index) as [j|]; [|done].
  destruct (_ || _) eqn:E; [done|]. intros [= <- <-]. bools. unfold in_store. split_and!; done || lia.
Qed.

Lemma start_ok id w s h :
  store_ok s h → map_get id (s_pending s) = Some (SQueued w) → store_ok (start id w s) h.
Proof.
  intros H Hg. pose proof (so_pending _ _ H _ _ (map_get_elem _ _ _ Hg)) as Hreq. cbn in Hreq.
  assert (Hfail : ∀ e, store_ok (settle id (Throw e) s) h) by (intros; by eapply settle_ok).
  unfold start. destruct w as [index input|index offset len].
  - destruct (piece_size s index) as [[i size]|e] eqn:Es; [|done].
    apply piece_size_Ok in Es as (Ei & Hin & ->). destruct input as [data|]; [|apply Hfail].
    destruct (byteLength data =? _) eqn:El; [|apply Hfail]. bools.
    eapply advance_ok; [done|done|]. split; [by exists index|done].
  - destruct (piece_size s index) as [[i size]|e] eqn:Es; [|done].
    apply piece_size_Ok in Es as (Ei & Hin & ->). cbv zeta.
    destruct (option_or offset 0) as [o|] eqn:Eo; [|apply Hfail].
    destruct (option_or len _) as [n|] eqn:En; [|apply Hfail].
    destruct (_ || _) eqn:Eb; [apply Hfail|]. bools.
    assert (Hask : asked_get s h id i o n).
    { exists index, offset, len. split_and!; done || lia. }
    destruct (map_get i (s_cache s)) as [data|] eqn:Ec.
    + pose proof (so_cached _ _ H _ _ (map_get_elem _ _ _ Ec)) as Hcf.
      destruct (so_confirmed _ _ H _ _ Hcf) as [_ Hlen].
      eapply settle_ok; [by apply touch_ok|done|]. exists i, o, n, data. split_and!; try done.
      unfold byteLength in *. rewrite length_slice by lia. lia.
    + eapply advance_ok; [done|done|]. done.
Qed.

Lemma request_ok w s h :
  store_ok s h →
  store_ok (perform w s) (History (h_requests h ++ [(s_next s, w)]) (h_confirmed h)).
Proof.
  intros H. pose proof H as [Hc Hcd Hcf Hn Hr Hi Hp Hb].
  assert (Hnew : s_next s ∉ zrange 0 (Z.to_nat (s_next s))) by (rewrite elem_of_zrange; lia).
  assert (Hz : zrange 0 (Z.to_nat (s_next s + 1)) = zrange 0 (Z.to_nat (s_next s)) ++ [s_next s]).
  { replace (Z.to_nat (s_next s + 1)) with (S (Z.to_nat (s_next s))) by lia.
    rewrite zrange_snoc. do 2 f_equal. lia. }
  assert (Hst : ∀ s' id st, same_shape s s' → (id, st) ∈ s_pending s →
    stage_ok s' (History (h_requests h ++ [(s_next s, w)]) (h_confirmed h)) id st).
  { intros s' id st Hs Hin. eapply (stage_mono s s' h); [done| |by apply Hp]. cbn. set_solver. }
  assert (Han : ∀ s' id r, same_shape s s' → (id, r) ∈ s_callbacks s →
    answer_ok s' (History (h_requests h ++ [(s_next s, w)]) (h_confirmed h)) id r).
  { intros s' id r Hs Hin. eapply (answer_mono s s' h); [done| |done|by apply Hb]. cbn. set_solver. }
  assert (Hgn : map_get (s_next s) (s_pending s) = None).
  { apply map_get_None. intros Hin. apply Hnew. rewrite <- Hi. set_solver. }
  unfold perform. destruct (s_closed s) eqn:Ecl; cbn [s_closed].
  - split; same_fields; try lia.
    + by rewrite Hz, fmap_app, Hr.
    + rewrite Hz, fmap_app, app_assoc, Hi. done.
    + intros id st Hin. by apply Hst.
    + intros id r [Hin|[= -> ->]%list_elem_of_singleton]%elem_of_app; [|done]. by apply Han.
  - split; same_fields; try lia.
    + by rewrite Hz, fmap_app, Hr.
    + rewrite Hz, map_set_new, fmap_app by done. cbn.
      rewrite <- app_assoc. cbn. rewrite <- Permutation_middle, Hi.
      apply Permutation_cons_append.
    + rewrite map_set_new by done.
      intros id st [Hin|[= -> ->]%list_elem_of_singleton]%elem_of_app; [by apply Hst|].
      cbn. set_solver.
    + intros id r Hin. by apply Han.
Qed.

Lemma step_store_ok s h e : store_ok s h → store_ok (step s e) (watch s e h).
Proof.
  intros H. destruct e as [index input|index offset len|id|id r|id r| |]; cbn.
  - by apply request_ok.
  - by apply request_ok.
  - destruct (map_get id (s_pending s)) as [[w| |]|] eqn:Eg; try done. by apply start_ok.
  - destruct (map_get id (s_pending s)) as [[|i data|]|] eqn:Eg; try (by destruct r).
    pose proof (so_pending _ _ H _ _ (map_get_elem _ _ _ Eg)) as (Hask & Hin & Hlen).
    destruct r as [u|e]; cbn; [|by eapply settle_ok].
    pose proof (confirm_ok i data s h H Hin Hlen) as Hc.
    eapply settle_ok; [apply remember_ok; [exact Hc|cbn; set_solver]| |].
    + destruct (remember_shape i data s) as (_ & -> & _). exact Eg.
    + exists i, data. split; [|cbn; set_solver]. exact Hask.
  - destruct (map_get id (s_pending s)) as [[| |i size o n]|] eqn:Eg; try (by destruct r).
    pose proof (so_pending _ _ H _ _ (map_get_elem _ _ _ Eg)) as (Hask & Hin & ->).
    destruct r as [r|e]; cbn; [|by eapply settle_ok].
    destruct (row_ok s (size_of s i) r) as [data|] eqn:Er; [|by eapply settle_ok].
    assert (Hlen : byteLength data = size_of s i).
    { unfold row_ok in Er. destruct r as [r|]; [|done]. cbn in Er.
      destruct (row_data r) as [d|]; [|done]. cbn in Er. destruct (_ && _) eqn:E; [|done].
      injection Er as <-. by bools. }
    pose proof (confirm_ok i data s h H Hin Hlen) as Hc.
    destruct (remember_shape i data s) as (Hsh & Ep & _).
    eapply settle_ok; [apply remember_ok; [exact Hc|cbn; set_solver]|by rewrite Ep|].
    exists i, o, n, data. split_and!; [|cbn; set_solver|done|].
    + destruct Hask as (ix & off & ln & Ha). exists ix, off, ln.
      destruct Hsh as (E1 & E2 & _). unfold size_of in *. by rewrite E1, E2.
    + destruct Hask as (_ & _ & _ & _ & _ & _ & _ & ? & ? & ?). unfold byteLength in *.
      rewrite length_slice by lia. lia.
  - destruct H as [Hc Hcd Hcf Hn Hr Hi Hp Hb]. split; same_fields.
  - destruct (_ && _); [|done]. destruct H as [[? ? ? ?] Hcd Hcf Hn Hr Hi Hp Hb].
    split; same_fields; [split; cbn; try done; constructor|].
    by intros i data ?%elem_of_nil.
Qed.

Lemma run_store_ok s h events :
  store_ok s h → store_ok (run_history s h events).1 (run_history s h events).2.
Proof.
  revert s h. induction events as [|e es IH]; intros s h H; cbn; [done|].
  apply IH. by apply step_store_ok.
Qed.

Lemma new_store_ok chunkLength infoHash len ramBytes s :
  new_store chunkLength infoHash len ramBytes = Ok s → store_ok s (History [] []).
Proof.
  unfold new_store. destruct (as_safe_integer len) as [n|]; [|done].
  destruct (_ || _); [done|]. cbv zeta.
  destruct (as_safe_integer _) as [b|]; [|done]. destruct (_ || _) eqn:Eb; [done|].
  intros [= <-]. bools. split; cbn; try done; try (by intros ? ? ?%elem_of_nil).
  split; cbn; try done. constructor.
Qed.

(** C9: in every run of the store, whatever the database answers: memory holds
    only pieces the database has confirmed, each once, and their exact byte
    count is within the budget; every operation is either pending or has been
    called back exactly once; a successful put was confirmed, and a successful
    get returns the requested bytes of a confirmed piece at that index. *)
Theorem piece_store_correct chunkLength infoHash len ramBytes s0 events :
  new_store chunkLength infoHash len ramBytes = Ok s0 →
  let '(s, h) := run_history s0 (History [] []) events in
  (s_memoryBytes s = cache_bytes (s_cache s) ∧ s_memoryBytes s ≤ s_budget s ∧
   NoDup (s_cache s).*1 ∧ s_cache s ⊆ h_confirmed h) ∧
  (s_pending s).*1 ++ (s_callbacks s).*1 ≡ₚ (h_requests h).*1 ∧ NoDup (h_requests h).*1 ∧
  (∀ id r, (id, r) ∈ s_callbacks s → answer_ok s h id r).
Proof.
  intros H0%new_store_ok. pose proof (run_store_ok _ _ events H0) as H.
  destruct (run_history s0 _ events) as [s h]. cbn [fst snd] in H.
  destruct H as [[? ? ? ?] Hcd Hcf Hn Hr Hi Hp Hb].
  split_and!; try done.
  - intros [i data]. apply Hcd.
  - by rewrite Hr.
  - rewrite Hr. apply NoDup_zrange.
Qed.

Lemma piece_store_correct_witness :
  let hash := JStr "0123456789012345678901234567890123456789" in
  let events := [Put (JNum (NInt 1)) (Some [7; 8; 9]); Start 0; Written 0 (inl tt);
                 Get (JNum (NInt 1)) (JNum (NInt 1)) JUndefined; Start 1;
                 Get (JNum (NInt 5)) JUndefined JUndefined; Start 2] in
  ∃ s0, new_store PIECE_LENGTH hash (JNum (NInt (PIECE_LENGTH + 3))) JUndefined = Ok s0 ∧
    s_callbacks (run_history s0 (History [] []) events).1 =
      [(0, Ok AnswerPut); (1, Ok (AnswerGet [8; 9]));
       (2, throw "INVALID_RANGE" "Torrent piece is out of range")] ∧
    NoDup (s_cache (run_history s0 (History [] []) events).1).*1.
Proof.
  cbv zeta. eexists. split; [reflexivity|]. split; [vm_compute; reflexivity|].
  refine (proj1 (proj2 (proj2 (proj1 (piece_store_correct PIECE_LENGTH
    (JStr "0123456789012345678901234567890123456789") (JNum (NInt (PIECE_LENGTH + 3))) JUndefined
    _ [Put (JNum (NInt 1)) (Some [7; 8; 9]); Start 0; Written 0 (inl tt);
       Get (JNum (NInt 1)) (JNum (NInt 1)) JUndefined; Start 1;
       Get (JNum (NInt 5)) JUndefined JUndefined; Start 2] eq_refl))))).
Defined.
