(* ===== verification/Hex.v ===== *)
(** * Hexadecimal values (src/src/disk/web/torrent-protocol.js)

    [hex] and [unhex] convert between byte arrays and the canonical lower-case
    hexadecimal spelling of keys, signatures and infohashes. *)
From S2P Require Import Prelude JsValue.
From Stdlib Require Import Ascii.
#[local] Open Scope Z_scope.

Definition invalid_publication {A} (message : string) : result A :=
  throw "INVALID_PUBLICATION" message.

Definition hex_digit (n : Z) : ascii :=
  ascii_of_nat (Z.to_nat (if n <? 10 then 48 + n else 87 + n)).

(** [b.toString(16).padStart(2,"0")] of one byte. *)
Fixpoint hex (l : bytes) : string :=
  match l with
  | [] => EmptyString
  | b :: l => String (hex_digit (b / 16)) (String (hex_digit (b mod 16)) (hex l))
  end.

(** [parseInt(digit,16)] of one digit the pattern has accepted. *)
Definition hex_value (c : ascii) : Z :=
  let n := Z.of_nat (nat_of_ascii c) in if n <? 58 then n - 48 else n - 87.

(** [value.match(/../g)], each part parsed. *)
Fixpoint parse_pairs (s : string) : bytes :=
  match s with
  | String a (String b s) => (16 * hex_value a + hex_value b) :: parse_pairs s
  | _ => []
  end.

(** [/^[0-9a-f]+$/.test(value)]. *)
Definition unhex (value : jsval) (length_ : Z) : result bytes :=
  match value with
  | JStr s =>
      if negb (str_len s =? length_ * 2) || negb (string_forall is_hex_char s) ||
         bool_decide (s = EmptyString)
      then invalid_publication "Invalid canonical hexadecimal value"
      else Ok (parse_pairs s)
  | _ => invalid_publication "Invalid canonical hexadecimal value"
  end.

Definition infoHash (value : jsval) : result jsval :=
  _ ← unhex value 20; Ok value.

(** ** Round trips *)
Definition byte_ok (b : Z) : Prop := 0 ≤ b < 256.

Lemma hex_digit_spec n :
  0 ≤ n < 16 → hex_value (hex_digit n) = n ∧ is_hex_char (hex_digit n) = true.
Proof.
  intros Hn. unfold hex_value, is_hex_char, hex_digit.
  rewrite nat_ascii_embedding by (destruct (n <? 10) eqn:E; bools; lia).
  destruct (n <? 10) eqn:E; bools; rewrite Z2Nat.id by lia.
  - replace (48 + n <? 58) with true by lia. split; [lia|].
    rewrite !orb_true_iff, !andb_true_iff. lia.
  - replace (87 + n <? 58) with false by (symmetry; apply Z.ltb_ge; lia). split; [lia|].
    rewrite !orb_true_iff, !andb_true_iff. lia.
Qed.

Lemma hex_char_digit c : is_hex_char c = true → hex_digit (hex_value c) = c ∧ 0 ≤ hex_value c < 16.
Proof.
  unfold is_hex_char, hex_digit, hex_value. intros H.
  assert (Hc : ascii_of_nat (nat_of_ascii c) = c) by apply ascii_nat_embedding.
  set (n := Z.of_nat (nat_of_ascii c)) in *.
  apply orb_true_iff in H as [H|H]; bools.
  - replace (n <? 58) with true by lia. replace (n - 48 <? 10) with true by lia.
    split; [|lia]. rewrite <- Hc. f_equal. lia.
  - replace (n <? 58) with false by (symmetry; apply Z.ltb_ge; lia).
    replace (n - 87 <? 10) with false by (symmetry; apply Z.ltb_ge; lia).
    split; [|lia]. rewrite <- Hc. f_equal. lia.
Qed.

Lemma str_len_String c s : str_len (String c s) = 1 + str_len s.
Proof. unfold str_len. cbn. lia. Qed.

Lemma hex_string_ok l :
  Forall byte_ok l →
  parse_pairs (hex l) = l ∧ string_forall is_hex_char (hex l) = true ∧
  str_len (hex l) = 2 * byteLength l.
Proof.
  unfold byteLength. induction 1 as [|b l Hb Hl (IH1 & IH2 & IH3)]; [done|].
  unfold byte_ok in Hb. pose proof (Z.mod_pos_bound b 16 ltac:(lia)).
  pose proof (Z.div_lt_upper_bound b 16 16 ltac:(lia) ltac:(lia)).
  pose proof (Z.div_pos b 16 ltac:(lia) ltac:(lia)).
  destruct (hex_digit_spec (b / 16)) as [Hv1 Hc1]; [lia|].
  destruct (hex_digit_spec (b mod 16)) as [Hv2 Hc2]; [lia|].
  cbn [hex parse_pairs string_forall]. rewrite Hv1, Hv2, Hc1, Hc2, IH1, IH2.
  rewrite !str_len_String, IH3. split_and!; [|done|cbn [length]; lia].
  f_equal. pose proof (Z.div_mod b 16). lia.
Qed.

Lemma parse_pairs_hex n s :
  str_len s = 2 * Z.of_nat n → string_forall is_hex_char s = true →
  hex (parse_pairs s) = s ∧ Forall byte_ok (parse_pairs s) ∧ length (parse_pairs s) = n.
Proof.
  revert s. induction n as [|n IH]; intros s Hl Hs.
  - destruct s as [|c s]; [|rewrite str_len_String in Hl; unfold str_len in Hl; lia].
    split_and!; [done|constructor|done].
  - destruct s as [|a [|b s]]; [unfold str_len in Hl; cbn in Hl; lia..|].
    cbn [string_forall] in Hs. bools. rewrite !str_len_String in Hl.
    destruct (IH s ltac:(lia)) as (IH1 & IH2 & IH3); [done|].
    destruct (hex_char_digit a) as [Ha Ha']; [done|]. destruct (hex_char_digit b) as [Hb Hb']; [done|].
    cbn [parse_pairs hex length]. rewrite IH1, IH3. split_and!; [|constructor; [unfold byte_ok; lia|done]|done].
    replace ((16 * hex_value a + hex_value b) / 16) with (hex_value a).
    2:{ rewrite (Z.mul_comm 16), Z.div_add_l by lia. rewrite Z.div_small by lia. lia. }
    replace ((16 * hex_value a + hex_value b) mod 16) with (hex_value b).
    2:{ rewrite (Z.mul_comm 16), Z.add_comm, Z_mod_plus_full. by rewrite Z.mod_small. }
    by rewrite Ha, Hb.
Qed.

Lemma unhex_Ok v n b :
  0 ≤ n → unhex v n = Ok b →
  v = JStr (hex b) ∧ Forall byte_ok b ∧ byteLength b = n ∧ hex_string (2 * n) (hex b) = true.
Proof.
  intros Hn. unfold unhex. destruct v as [| | | |s| |]; try done.
  destruct (_ || _) eqn:E; [done|]. intros [= <-]. bools.
  destruct (parse_pairs_hex (Z.to_nat n) s) as (Hh & Hb & Hl); [lia|done|].
  rewrite Hh. unfold byteLength. rewrite Hl. split_and!; [done|done|lia|].
  unfold hex_string. apply andb_true_iff. split; [apply Z.eqb_eq; lia|done].
Qed.

Lemma unhex_hex l : l ≠ [] → Forall byte_ok l → unhex (JStr (hex l)) (byteLength l) = Ok l.
Proof.
  intros Hne Hl. destruct (hex_string_ok l Hl) as (Hp & Hc & Hlen). unfold unhex.
  rewrite Hlen, Hc, Hp. replace (2 * byteLength l =? byteLength l * 2) with true by lia.
  rewrite bool_decide_false; [done|]. by destruct l.
Qed.

(** C20: [hex] and [unhex] are inverse to each other on the values of the
    protocol: a non-empty byte array is recovered from its spelling, and every
    value [unhex] accepts is the spelling of the bytes it returns, of exactly
    the requested length. *)
Theorem hex_unhex l v n b :
  l ≠ [] → Forall byte_ok l → 0 ≤ n →
  unhex (JStr (hex l)) (byteLength l) = Ok l ∧
  (unhex v n = Ok b → v = JStr (hex b) ∧ byteLength b = n ∧ Forall byte_ok b).
Proof.
  intros Hne Hl Hn. split; [by apply unhex_hex|]. intros (H1 & H2 & H3 & _)%unhex_Ok; done.
Qed.

Lemma hex_unhex_witness :
  unhex (JStr (hex [0; 171; 255])) 3 = Ok [0; 171; 255] ∧ hex [0; 171; 255] = "00abff"%string.
Proof.
  split; [|reflexivity].
  refine (proj1 (hex_unhex [0; 171; 255] JNull 0 [] _ _ _)); [done| |done].
  repeat (apply Forall_cons; split; [unfold byte_ok; lia|]). constructor.
Defined.
