(* ===== verification/Bencode.v ===== *)
(** * Canonical bencoding (src/src/disk/web/torrent-protocol.js: bdecode)

    [bdecode] is the recursive-descent decoder of torrent metadata: it accepts
    canonical bencoding only (minimal integers, sorted dictionary keys) and
    bounds the depth and the number of nodes.

    The decoder's [offset] is modelled by the input that remains; where the code
    records [start] and [end] of a dictionary value the model records the bytes
    between them.  The parser is defined by recursion on fuel; [bdecode] starts
    it with more than the node limit lets it use (see [parse_fuel]). *)
From S2P Require Import Prelude JsValue Hex.
#[local] Open Scope Z_scope.

(** ** [TextDecoder("utf-8",{fatal:true})]

    The result is a JavaScript string: its UTF-16 code units.  [None] is the
    [TypeError] of malformed input.  The decoder removes a leading byte order
    mark. *)
Definition continuation (lo hi b : Z) : bool := (lo <=? b) && (b <=? hi).

Definition code_units (c : Z) : list Z :=
  if c <? 65536 then [c]
  else [55296 + (c - 65536) / 1024; 56320 + (c - 65536) mod 1024].

Fixpoint utf8 (l : bytes) : option (list Z) :=
  match l with
  | [] => Some []
  | b0 :: l0 =>
      if b0 <? 128 then cons b0 <$> utf8 l0 else
      match l0 with
      | b1 :: l1 =>
          if (194 <=? b0) && (b0 <=? 223) && continuation 128 191 b1
          then cons ((b0 - 192) * 64 + (b1 - 128)) <$> utf8 l1 else
          match l1 with
          | b2 :: l2 =>
              if (224 <=? b0) && (b0 <=? 239) &&
                 continuation (if b0 =? 224 then 160 else 128) (if b0 =? 237 then 159 else 191) b1 &&
                 continuation 128 191 b2
              then cons ((b0 - 224) * 4096 + (b1 - 128) * 64 + (b2 - 128)) <$> utf8 l2 else
              match l2 with
              | b3 :: l3 =>
                  if (240 <=? b0) && (b0 <=? 244) &&
                     continuation (if b0 =? 240 then 144 else 128) (if b0 =? 244 then 143 else 191) b1 &&
                     continuation 128 191 b2 && continuation 128 191 b3
                  then app (code_units ((b0 - 240) * 262144 + (b1 - 128) * 4096 +
                                        (b2 - 128) * 64 + (b3 - 128))) <$> utf8 l3
                  else None
              | [] => None
              end
          | [] => None
          end
      | [] => None
      end
  end.

Definition decode_text (l : bytes) : option (list Z) :=
  match l with
  | 239 :: 187 :: 191 :: l => utf8 l
  | _ => utf8 l
  end.

(** [a<=b] on strings: code unit order. *)
Fixpoint units_le (a b : list Z) : bool :=
  match a, b with
  | [], _ => true
  | _, [] => false
  | x :: a, y :: b => (x <? y) || ((x =? y) && units_le a b)
  end.

(** ** Integers *)

(** The text up to the terminator [end_], and what follows it. *)
Fixpoint split_at_end (end_ : Z) (l : bytes) : option (bytes * bytes) :=
  match l with
  | [] => None
  | b :: l =>
      if b =? end_ then Some ([], l) else
      '(text, rest) ← split_at_end end_ l; Some (b :: text, rest)
  end.

Definition is_digit (c : Z) : bool := (48 <=? c) && (c <=? 57).

(** The patterns of [number]: [0], or digits without a leading zero; with
    [negative], a minus sign may precede the latter. *)
Definition canonical_natural (t : list Z) : bool :=
  match t with
  | [48] => true
  | d :: t => (49 <=? d) && (d <=? 57) && forallb is_digit t
  | [] => false
  end.
Definition canonical_integer (negative : bool) (t : list Z) : bool :=
  canonical_natural t ||
  (negative && match t with
               | 45 :: d :: t => (49 <=? d) && (d <=? 57) && forallb is_digit t
               | _ => false
               end).

Definition digits_value (t : list Z) : Z := foldl (λ n d, 10 * n + (d - 48)) 0 t.
Definition text_value (t : list Z) : Z :=
  match t with 45 :: t => - digits_value t | _ => digits_value t end.

Definition number (end_ : Z) (negative : bool) (l : bytes) : result (Z * bytes) :=
  match split_at_end end_ l with
  | None => invalid_publication "Invalid torrent integer"
  | Some (text, rest) =>
      if 17 <? byteLength text then invalid_publication "Invalid torrent integer" else
      match decode_text text with
      | None => throw_plain "The encoded data was not valid"
      | Some t =>
          if negb (canonical_integer negative t) || negb (is_safe (text_value t))
          then invalid_publication "Unsafe or noncanonical torrent integer"
          else Ok (text_value t, rest)
      end
  end.

(** ** Values *)
Inductive bvalue :=
| BInt (z : Z)
| BStr (b : bytes)
| BList (l : list bvalue)
| BDict (fields : list (list Z * (bytes * bvalue))).  (** name, exact bytes, value *)

Definition out_of_fuel : exn := Exn (Some "OUT_OF_FUEL"%string) "".

(** The bytes between two positions: what [rest] lacks of [input]. *)
Definition consumed (input rest : bytes) : bytes := take (length input - length rest) input.

Fixpoint parse (fuel : nat) (depth nodes : Z) (input : bytes) {struct fuel} :
    result (bvalue * Z * bytes) :=
  match fuel with
  | O => Throw out_of_fuel
  | S fuel =>
      let nodes := nodes + 1 in
      if (256 <? nodes) || (8 <? depth)
      then invalid_publication "Torrent metadata structure exceeds limits" else
      match input with
      | [] => invalid_publication "Torrent metadata structure exceeds limits"
      | type :: rest =>
          if type =? 105 then
            '(z, rest) ← number 101 true rest; Ok (BInt z, nodes, rest)
          else if type =? 100 then
            '(fields, nodes, rest) ← parse_fields fuel depth nodes None rest;
            Ok (BDict fields, nodes, rest)
          else if type =? 108 then
            '(l, nodes, rest) ← parse_items fuel depth nodes rest;
            Ok (BList l, nodes, rest)
          else if is_digit type then
            '(len, rest) ← number 58 false input;
            if (len <? 0) || (byteLength rest <? len)
            then invalid_publication "Truncated torrent string"
            else Ok (BStr (take (Z.to_nat len) rest), nodes, drop (Z.to_nat len) rest)
          else invalid_publication "Invalid torrent bencoding"
      end
  end
with parse_fields (fuel : nat) (depth nodes : Z) (previous : option (list Z)) (input : bytes)
    {struct fuel} : result (list (list Z * (bytes * bvalue)) * Z * bytes) :=
  match fuel with
  | O => Throw out_of_fuel
  | S fuel =>
      match input with
      | 101 :: rest => Ok ([], nodes, rest)
      | _ =>
          '(key, nodes, r1) ← parse fuel (depth + 1) nodes input;
          match key with
          | BStr k =>
              match decode_text k with
              | None => throw_plain "The encoded data was not valid"
              | Some name =>
                  if match previous with Some p => units_le name p | None => false end
                  then invalid_publication "Noncanonical torrent dictionary" else
                  '(value, nodes, r2) ← parse fuel (depth + 1) nodes r1;
                  '(fields, nodes, r3) ← parse_fields fuel depth nodes (Some name) r2;
                  Ok ((name, (consumed r1 r2, value)) :: fields, nodes, r3)
              end
          | _ => invalid_publication "Invalid torrent dictionary key"
          end
      end
  end
with parse_items (fuel : nat) (depth nodes : Z) (input : bytes) {struct fuel} :
    result (list bvalue * Z * bytes) :=
  match fuel with
  | O => Throw out_of_fuel
  | S fuel =>
      match input with
      | 101 :: rest => Ok ([], nodes, rest)
      | _ =>
          '(v, nodes, r1) ← parse fuel (depth + 1) nodes input;
          '(l, nodes, r2) ← parse_items fuel depth nodes r1;
          Ok (v :: l, nodes, r2)
      end
  end.

(** Every parse or loop iteration below the limit takes at most two fuel. *)
Definition FUEL : nat := 800.

Definition bdecode_with (fuel : nat) (input : bytes) : result bvalue :=
  '(v, _, rest) ← parse fuel 0 0 input;
  if bool_decide (rest = []) then Ok v else invalid_publication "Trailing torrent metadata".
Definition bdecode (input : bytes) : result bvalue := bdecode_with FUEL input.

Example bdecode_dict :
  (* d1:ai7e1:bl2:xyee *)
  bdecode [100; 49; 58; 97; 105; 55; 101; 49; 58; 98; 108; 50; 58; 120; 121; 101; 101] =
  Ok (BDict [([97], ([105; 55; 101], BInt 7));
             ([98], ([108; 50; 58; 120; 121; 101], BList [BStr [120; 121]]))]).
Proof. vm_compute. reflexivity. Qed.

(** ** The parser reads a prefix of its input, and nothing else *)
Lemma split_at_end_spec e l text rest :
  split_at_end e l = Some (text, rest) →
  l = text ++ e :: rest ∧ ∀ post, split_at_end e (text ++ e :: post) = Some (text, post).
Proof.
  revert text rest. induction l as [|b l IH]; intros text rest; cbn; [done|].
  destruct (b =? e) eqn:E.
  - intros [= <- <-]. bools. subst. split; [done|]. intros post. cbn. by rewrite Z.eqb_refl.
  - destruct (split_at_end e l) as [[t r]|]; [|done]. cbn. intros [= <- <-].
    destruct (IH t r eq_refl) as [-> Hp]. split; [done|]. intros post. cbn. by rewrite E, Hp.
Qed.

Lemma number_local e neg l z rest :
  number e neg l = Ok (z, rest) →
  ∃ raw, l = raw ++ rest ∧ raw ≠ [] ∧ ∀ post, number e neg (raw ++ post) = Ok (z, post).
Proof.
  unfold number. destruct (split_at_end e l) as [[text r]|] eqn:Es; [|done].
  apply split_at_end_spec in Es as [-> Hp].
  destruct (17 <? byteLength text) eqn:El; [done|].
  destruct (decode_text text) as [t|] eqn:Et; [|done].
  destruct (_ || _) eqn:E; [done|]. intros [= <- <-].
  exists (text ++ [e]). rewrite <- app_assoc. split; [done|]. split; [by destruct text|].
  intros post. rewrite <- app_assoc. cbn. by rewrite Hp, El, Et, E.
Qed.

Lemma consumed_app raw rest : consumed (raw ++ rest) rest = raw.
Proof.
  unfold consumed. rewrite length_app, Nat.add_sub, take_app_le by lia. by apply firstn_all.
Qed.

(** [p] reads a prefix of [input]; on any input with that prefix, with at least as
    much fuel, at most the depth and at most as many nodes so far, it does the
    same. *)
Definition reads {A} (p : nat → Z → Z → bytes → result (A * Z * bytes)) (fuel : nat)
    (depth nodes : Z) (input : bytes) (r : A * Z * bytes) : Prop :=
  ∃ raw, input = raw ++ r.2 ∧ raw ≠ [] ∧ nodes ≤ r.1.2 ∧
    ∀ fuel' depth' nodes' post, (fuel ≤ fuel')%nat → depth' ≤ depth → nodes' ≤ nodes →
      p fuel' depth' nodes' (raw ++ post) = Ok (r.1.1, nodes' + (r.1.2 - nodes), post).

Definition local_at (fuel : nat) : Prop :=
  (∀ depth nodes input r, parse fuel depth nodes input = Ok r →
     reads parse fuel depth nodes input r) ∧
  (∀ depth nodes previous input r, parse_fields fuel depth nodes previous input = Ok r →
     reads (λ f d n, parse_fields f d n previous) fuel depth nodes input r) ∧
  (∀ depth nodes input r, parse_items fuel depth nodes input = Ok r →
     reads parse_items fuel depth nodes input r).

Lemma reads_end {A} (p : nat → Z → Z → bytes → result (A * Z * bytes)) fuel depth nodes c rest v :
  (∀ fuel' depth' nodes' post, (fuel ≤ fuel')%nat →
     p fuel' depth' nodes' (c :: post) = Ok (v, nodes', post)) →
  reads p fuel depth nodes (c :: rest) (v, nodes, rest).
Proof.
  intros H. exists [c]. cbn. split_and!; try done; try lia. intros f d n post Hf Hd Hn.
  rewrite H by done. by rewrite Z.sub_diag, Z.add_0_r.
Qed.

(** The head of a loop iteration: not the terminator. *)
Lemma loop_head (A : Type) (raw rest : bytes) (x : bytes → A) (y : A) :
  raw ≠ [] → (∀ r, raw ++ rest ≠ 101 :: r) →
  ∀ post, match raw ++ post with 101 :: r => x r | _ => y end = y.
Proof.
  intros Hne H post. destruct raw as [|c raw]; [done|]. cbn.
  destruct (decide (c = 101)) as [->|Hc]; [by destruct (H (raw ++ rest))|].
  repeat (case_match; try done).
Qed.

Lemma terminator_or_not (input : bytes) :
  (∃ rest, input = 101 :: rest) ∨
  ((∀ r, input ≠ 101 :: r) ∧
   ∀ (A : Type) (x : bytes → A) y, match input with 101 :: r => x r | _ => y end = y).
Proof.
  destruct input as [|c l]; [by right|]. destruct (decide (c = 101)) as [->|Hc]; [left; by exists l|].
  right. split; [congruence|]. intros A x y. repeat (case_match; try done).
Qed.

Lemma fields_local fuel : local_at fuel →
  ∀ depth nodes previous input r, parse_fields (S fuel) depth nodes previous input = Ok r →
  reads (λ f d n, parse_fields f d n previous) (S fuel) depth nodes input r.
Proof.
  intros (Hp & Hf & _) depth nodes previous input r H.
  destruct (terminator_or_not input) as [[rest ->]|[Hne Hhead]].
  { cbn in H. injection H as <-. apply reads_end. intros [|f] d n post Hle; [lia|done]. }
  cbn [parse_fields] in H. rewrite Hhead in H.
  destruct (parse fuel (depth + 1) nodes input) as [[[k n1] r1]|e] eqn:E1; [|done]. cbn in H.
  destruct k as [|k| |]; try done. destruct (decode_text k) as [name|] eqn:Ed; [|done].
  destruct (match previous with Some p => units_le name p | None => false end) eqn:Ele; [done|].
  destruct (parse fuel (depth + 1) n1 r1) as [[[v n2] r2]|e] eqn:E2; [|done]. cbn in H.
  destruct (parse_fields fuel depth n2 (Some name) r2) as [[[fs n3] r3]|e] eqn:E3; [|done].
  cbn in H. injection H as <-.
  apply Hp in E1 as (raw1 & -> & Hr1 & Hn1 & P1). apply Hp in E2 as (raw2 & Er1 & Hr2 & Hn2 & P2).
  apply Hf in E3 as (raw3 & Er2 & Hr3 & Hn3 & P3). cbn in *. subst r2. subst r1.
  exists (raw1 ++ raw2 ++ raw3). cbn. rewrite <- !app_assoc.
  split_and!; [done|by destruct raw1|lia|].
  intros [|f] d n post Hle Hdep Hn; [lia|]. cbn [parse_fields]. rewrite <- !app_assoc.
  rewrite (loop_head _ raw1 (raw2 ++ raw3 ++ r3)) by done.
  rewrite P1 by lia. cbn. rewrite Ed, Ele. rewrite P2 by lia. cbn. rewrite P3 by lia. cbn.
  rewrite !consumed_app. do 2 f_equal. f_equal. lia.
Qed.

Lemma items_local fuel : local_at fuel →
  ∀ depth nodes input r, parse_items (S fuel) depth nodes input = Ok r →
  reads parse_items (S fuel) depth nodes input r.
Proof.
  intros (Hp & _ & Hi) depth nodes input r H.
  destruct (terminator_or_not input) as [[rest ->]|[Hne Hhead]].
  { cbn in H. injection H as <-. apply reads_end. intros [|f] d n post Hle; [lia|done]. }
  cbn [parse_items] in H. rewrite Hhead in H.
  destruct (parse fuel (depth + 1) nodes input) as [[[v n1] r1]|e] eqn:E1; [|done]. cbn in H.
  destruct (parse_items fuel depth n1 r1) as [[[l n2] r2]|e] eqn:E2; [|done].
  cbn in H. injection H as <-.
  apply Hp in E1 as (raw1 & -> & Hr1 & Hn1 & P1). apply Hi in E2 as (raw2 & Er1 & Hr2 & Hn2 & P2).
  cbn in *. subst r1. exists (raw1 ++ raw2). cbn. rewrite <- !app_assoc.
  split_and!; [done|by destruct raw1|lia|].
  intros [|f] d n post Hle Hdep Hn; [lia|]. cbn [parse_items]. rewrite <- !app_assoc.
  rewrite (loop_head _ raw1 (raw2 ++ r2)) by done.
  rewrite P1 by lia. cbn. rewrite P2 by lia. cbn. do 2 f_equal. f_equal. lia.
Qed.

Lemma parse_local fuel : local_at fuel →
  ∀ depth nodes input r, parse (S fuel) depth nodes input = Ok r →
  reads parse (S fuel) depth nodes input r.
Proof.
  intros (Hp & Hf & Hi) depth nodes input r H. cbn [parse] in H.
  destruct (_ || _) eqn:Elim; [done|]. bools.
  destruct input as [|c rest]; [done|].
  assert (Hlim : ∀ n d, n ≤ nodes → d ≤ depth → (256 <? n + 1) || (8 <? d) = false).
  { intros n d Hn Hd. apply orb_false_iff. rewrite !Z.ltb_ge. lia. }
  destruct (c =? 105) eqn:E105; [|destruct (c =? 100) eqn:E100; [|destruct (c =? 108) eqn:E108]].
  - destruct (number 101 true rest) as [[z r1]|e] eqn:En; [|done]. cbn in H. injection H as <-.
    apply number_local in En as (raw & -> & Hne & P). exists (c :: raw). cbn.
    split_and!; try done; try lia. intros [|f] d n post Hle Hdep Hn; [lia|]. cbn [parse app].
    rewrite Hlim, E105, P by done. cbn. do 3 f_equal. lia.
  - destruct (parse_fields fuel depth (nodes + 1) None rest) as [[[fs n1] r1]|e] eqn:En; [|done].
    cbn in H. injection H as <-. apply Hf in En as (raw & -> & Hne & Hn1 & P). exists (c :: raw). cbn in *.
    split_and!; try done; try lia. intros [|f] d n post Hle Hdep Hn; [lia|]. cbn [parse app].
    rewrite Hlim, E105, E100, P by lia. cbn. do 2 f_equal. f_equal. lia.
  - destruct (parse_items fuel depth (nodes + 1) rest) as [[[fs n1] r1]|e] eqn:En; [|done].
    cbn in H. injection H as <-. apply Hi in En as (raw & -> & Hne & Hn1 & P). exists (c :: raw). cbn in *.
    split_and!; try done; try lia. intros [|f] d n post Hle Hdep Hn; [lia|]. cbn [parse app].
    rewrite Hlim, E105, E100, E108, P by lia. cbn. do 2 f_equal. f_equal. lia.
  - destruct (is_digit c) eqn:Ed; [|done].
    destruct (number 58 false (c :: rest)) as [[len r1]|e] eqn:En; [|done]. cbn in H.
    destruct (_ || _) eqn:El; [done|]. injection H as <-.
    apply orb_false_iff in El as [El1 El2]. apply Z.ltb_ge in El1, El2. unfold byteLength in *.
    apply number_local in En as (raw & Eraw & Hne & P).
    exists (raw ++ take (Z.to_nat len) r1). cbn. rewrite <- app_assoc, take_drop.
    split_and!; [done|by destruct raw|lia|].
    intros [|f] d n post Hle Hdep Hn; [lia|]. cbn [parse].
    destruct raw as [|c' raw]; [done|]. injection Eraw as <- Erest. cbn [app].
    rewrite Hlim, E105, E100, E108, Ed by lia.
    change (c :: (raw ++ take (Z.to_nat len) r1) ++ post)
      with ((c :: (raw ++ take (Z.to_nat len) r1)) ++ post).
    replace ((c :: (raw ++ take (Z.to_nat len) r1)) ++ post)
      with ((c :: raw) ++ (take (Z.to_nat len) r1 ++ post)) by (cbn; by rewrite app_assoc).
    rewrite P. cbn. unfold byteLength. rewrite length_app, length_take.
    replace (_ || _) with false.
    2:{ symmetry. apply orb_false_iff. rewrite !Z.ltb_ge. lia. }
    assert (Hl : length (take (Z.to_nat len) r1) = Z.to_nat len) by (rewrite length_take; lia).
    rewrite take_app_le, firstn_all2 by lia. rewrite drop_app_ge by lia. rewrite Hl, Nat.sub_diag.
    cbn. do 2 f_equal. f_equal. lia.
Qed.

Lemma local fuel : local_at fuel.
Proof.
  induction fuel as [|fuel IH]; [by split_and!|].
  split_and!; [by apply parse_local|by apply fields_local|by apply items_local].
Qed.

(** ** The fuel is enough *)
Definition within {A} (nodes : Z) (r : result (A * Z * bytes)) : Prop :=
  match r with Ok (_, n, _) => nodes ≤ n ≤ 256 | Throw e => e ≠ out_of_fuel end.

Lemma number_fuel e neg l : number e neg l ≠ Throw out_of_fuel.
Proof. unfold number. repeat (case_match; try done). Qed.

Lemma fuel_enough fuel :
  (∀ depth nodes input, nodes ≤ 256 → 2 * (257 - nodes) + 1 ≤ Z.of_nat fuel →
     within (nodes + 1) (parse fuel depth nodes input)) ∧
  (∀ depth nodes previous input, nodes ≤ 256 → 2 * (257 - nodes) + 2 ≤ Z.of_nat fuel →
     within nodes (parse_fields fuel depth nodes previous input)) ∧
  (∀ depth nodes input, nodes ≤ 256 → 2 * (257 - nodes) + 2 ≤ Z.of_nat fuel →
     within nodes (parse_items fuel depth nodes input)).
Proof.
  induction fuel as [|fuel (IHp & IHf & IHi)]; [split_and!; intros; lia|]. split_and!.
  - intros depth nodes input Hn Hf. cbn [parse]. destruct (_ || _) eqn:El; [done|]. bools.
    destruct input as [|c rest]; [done|].
    destruct (c =? 105); [|destruct (c =? 100); [|destruct (c =? 108)]].
    + pose proof (number_fuel 101 true rest). destruct (number _ _ _) as [[z r]|e]; cbn; [lia|congruence].
    + specialize (IHf depth (nodes + 1) None rest ltac:(lia) ltac:(lia)).
      destruct (parse_fields _ _ _ _ _) as [[[fs n] r]|e]; exact IHf.
    + specialize (IHi depth (nodes + 1) rest ltac:(lia) ltac:(lia)).
      destruct (parse_items _ _ _ _) as [[[l n] r]|e]; exact IHi.
    + destruct (is_digit c); [|done]. pose proof (number_fuel 58 false (c :: rest)).
      destruct (number _ _ _) as [[z r]|e]; cbn; [|congruence].
      destruct (_ || _); cbn; [done|lia].
  - intros depth nodes previous input Hn Hf. cbn [parse_fields].
    destruct (terminator_or_not input) as [[rest ->]|[_ ->]]; [cbn; lia|].
    pose proof (IHp (depth + 1) nodes input ltac:(lia) ltac:(lia)) as H1.
    destruct (parse _ _ _ input) as [[[k n1] r1]|e]; [|exact H1]. cbn in *.
    destruct k as [|k| |]; try done. destruct (decode_text k) as [name|]; [|done].
    destruct (match previous with Some p => units_le name p | None => false end); [done|].
    pose proof (IHp (depth + 1) n1 r1 ltac:(lia) ltac:(lia)) as H2.
    destruct (parse _ _ _ r1) as [[[v n2] r2]|e]; [|exact H2]. cbn in *.
    pose proof (IHf depth n2 (Some name) r2 ltac:(lia) ltac:(lia)) as H3.
    destruct (parse_fields _ _ _ _ r2) as [[[fs n3] r3]|e]; [|exact H3]. cbn in *. lia.
  - intros depth nodes input Hn Hf. cbn [parse_items].
    destruct (terminator_or_not input) as [[rest ->]|[_ ->]]; [cbn; lia|].
    pose proof (IHp (depth + 1) nodes input ltac:(lia) ltac:(lia)) as H1.
    destruct (parse _ _ _ input) as [[[v n1] r1]|e]; [|exact H1]. cbn in *.
    pose proof (IHi depth n1 r1 ltac:(lia) ltac:(lia)) as H2.
    destruct (parse_items _ _ _ r1) as [[[l n2] r2]|e]; [|exact H2]. cbn in *. lia.
Qed.

Lemma bdecode_fuel fuel input : 515 ≤ Z.of_nat fuel → bdecode_with fuel input ≠ Throw out_of_fuel.
Proof.
  intros Hf. unfold bdecode_with. destruct (fuel_enough fuel) as (Hp & _).
  specialize (Hp 0 0 input ltac:(lia) ltac:(lia)).
  destruct (parse _ _ _ _) as [[[v n] r]|e]; cbn in *; [|congruence]. by case_bool_decide.
Qed.

(** ** What an accepted value is *)

(** [units_lt a b]: [!(b<=a)]. *)
Definition units_lt (a b : list Z) : Prop := units_le b a = false.

Lemma units_lt_trans a b c : units_lt a b → units_lt b c → units_lt a c.
Proof.
  unfold units_lt. revert b c. induction a as [|x a IH]; intros [|y b] [|z c]; cbn; try done.
  rewrite !orb_false_iff, !andb_false_iff, !Z.ltb_ge, !Z.eqb_neq.
  intros [H1 H2] [H3 H4]. split; [lia|].
  destruct (decide (z = x)) as [->|]; [|by left]. right.
  assert (x = y) as -> by lia. apply (IH b); [by destruct H2|by destruct H4].
Qed.

Lemma units_lt_irrefl a : ¬ units_lt a a.
Proof. unfold units_lt. induction a as [|x a IH]; cbn; [done|].
  rewrite Z.eqb_refl, orb_false_iff. by intros [_ ?].
Qed.

(** Safe integers, strictly increasing (so distinct) names, and for each entry the
    exact bytes of its value: decoding them again gives the value. *)
Inductive well_formed (decode : bytes → result bvalue) : bvalue → Prop :=
| wf_int z : is_safe z = true → well_formed decode (BInt z)
| wf_str b : well_formed decode (BStr b)
| wf_list l : Forall (well_formed decode) l → well_formed decode (BList l)
| wf_dict fields :
    StronglySorted units_lt fields.*1 →
    Forall (λ f : list Z * (bytes * bvalue),
      well_formed decode f.2.2 ∧ decode f.2.1 = Ok f.2.2) fields →
    well_formed decode (BDict fields).

Lemma parse_raw full fuel depth nodes raw rest v n :
  (fuel ≤ full)%nat → 0 ≤ depth → 0 ≤ nodes →
  parse fuel depth nodes (raw ++ rest) = Ok (v, n, rest) → bdecode_with full raw = Ok v.
Proof.
  intros Hf Hd Hn H. destruct (proj1 (local fuel) _ _ _ _ H) as (raw' & Er & _ & _ & P).
  cbn in Er. apply app_inv_tail in Er as <-. unfold bdecode_with.
  specialize (P full 0 0 [] Hf Hd Hn). rewrite app_nil_r in P. by rewrite P.
Qed.

Lemma accepted_wf full fuel :
  (fuel ≤ full)%nat →
  (∀ depth nodes input v n rest, 0 ≤ depth → 0 ≤ nodes →
     parse fuel depth nodes input = Ok (v, n, rest) → well_formed (bdecode_with full) v) ∧
  (∀ depth nodes previous input fs n rest, 0 ≤ depth → 0 ≤ nodes →
     parse_fields fuel depth nodes previous input = Ok (fs, n, rest) →
     match previous with Some p => Forall (units_lt p) fs.*1 | None => True end ∧
     well_formed (bdecode_with full) (BDict fs)) ∧
  (∀ depth nodes input l n rest, 0 ≤ depth → 0 ≤ nodes →
     parse_items fuel depth nodes input = Ok (l, n, rest) → Forall (well_formed (bdecode_with full)) l).
Proof.
  induction fuel as [|fuel IH]; [done|]. intros Hfuel.
  destruct (IH ltac:(lia)) as (IHp & IHf & IHi). destruct (local fuel) as (Lp & _ & _).
  split_and!.
  - intros depth nodes input v n rest Hd Hn H. cbn [parse] in H.
    destruct (_ || _); [done|]. destruct input as [|c l]; [done|].
    destruct (c =? 105); [|destruct (c =? 100); [|destruct (c =? 108)]].
    + unfold number in H. destruct (split_at_end _ _) as [[t r]|]; [|done].
      destruct (_ <? _); [done|]. destruct (decode_text t) as [u|]; [|done].
      destruct (_ || _) eqn:E; [done|]. cbn in H. injection H as <- <- <-. bools. by constructor.
    + destruct (parse_fields _ _ _ _ _) as [[[fs n1] r1]|e] eqn:E; [|done]. cbn in H.
      injection H as <- <- <-. eapply IHf in E as [_ Hw]; [exact Hw|lia|lia].
    + destruct (parse_items _ _ _ _) as [[[l1 n1] r1]|e] eqn:E; [|done]. cbn in H.
      injection H as <- <- <-. constructor. eapply IHi; [|..|exact E]; lia.
    + destruct (is_digit c); [|done]. destruct (number _ _ _) as [[z r]|e]; [|done]. cbn in H.
      destruct (_ || _); [done|]. injection H as <- <- <-. constructor.
  - intros depth nodes previous input fs n rest Hd Hn H. cbn [parse_fields] in H.
    destruct (terminator_or_not input) as [[r0 ->]|[_ Hhead]].
    { injection H as <- <- <-. split; [|constructor; constructor].
      destruct previous; [constructor|done]. }
    rewrite Hhead in H.
    destruct (parse fuel (depth + 1) nodes input) as [[[k n1] r1]|e] eqn:E1; [|done]. cbn in H.
    destruct k as [|k| |]; try done. destruct (decode_text k) as [name|]; [|done].
    destruct (match previous with Some p => units_le name p | None => false end) eqn:Ele; [done|].
    destruct (parse fuel (depth + 1) n1 r1) as [[[v n2] r2]|e] eqn:E2; [|done]. cbn in H.
    destruct (parse_fields fuel depth n2 (Some name) r2) as [[[fs' n3] r3]|e] eqn:E3; [|done].
    cbn in H. injection H as <- <- <-.
    destruct (Lp _ _ _ _ E1) as (_ & _ & _ & Hn1 & _). cbn in Hn1.
    destruct (Lp _ _ _ _ E2) as (raw2 & Er & _ & Hn2 & _). cbn in Hn2, Er. subst r1.
    destruct (IHf _ _ _ _ _ _ _ Hd (ltac:(lia) : 0 ≤ n2) E3) as [Hlt Hw]. cbn in Hlt.
    inversion_clear Hw as [| | |? Hs Hfs].
    split.
    + destruct previous as [p|]; [|done]. cbn. constructor; [done|].
      eapply Forall_impl; [exact Hlt|]. intros u. by apply units_lt_trans.
    + constructor; [cbn; by constructor|]. constructor; [|exact Hfs]. cbn [fst snd]. rewrite consumed_app.
      split; [eapply IHp; [| |exact E2]; lia|]. eapply (parse_raw full fuel); [| | |exact E2]; lia.
  - intros depth nodes input l n rest Hd Hn H. cbn [parse_items] in H.
    destruct (terminator_or_not input) as [[r0 ->]|[_ Hhead]].
    { injection H as <- <- <-. constructor. }
    rewrite Hhead in H.
    destruct (parse fuel (depth + 1) nodes input) as [[[v n1] r1]|e] eqn:E1; [|done]. cbn in H.
    destruct (parse_items fuel depth n1 r1) as [[[l' n2] r2]|e] eqn:E2; [|done].
    cbn in H. injection H as <- <- <-.
    destruct (Lp _ _ _ _ E1) as (_ & _ & _ & Hn1 & _). cbn in Hn1.
    constructor; [eapply IHp; [| |exact E1]; lia|]. eapply IHi; [| |exact E2]; lia.
Qed.

Lemma bdecode_accepts fuel input v :
  bdecode_with fuel input = Ok v →
  well_formed (bdecode_with fuel) v ∧
  ∀ post, post ≠ [] → bdecode_with fuel (input ++ post) = invalid_publication "Trailing torrent metadata".
Proof.
  unfold bdecode_with at 1. intros H.
  destruct (parse fuel 0 0 input) as [[[v' n] rest]|e] eqn:E; [|done].
  cbn in H. case_bool_decide as Hr; [|done]. injection H as ->. subst rest. split.
  - destruct (accepted_wf fuel fuel (Nat.le_refl _)) as (Hp & _). eapply Hp; [| |exact E]; lia.
  - intros post Hpost. destruct (proj1 (local fuel) _ _ _ _ E) as (raw & Er & _ & _ & P).
    cbn in Er. rewrite app_nil_r in Er. subst raw. unfold bdecode_with.
    rewrite (P fuel 0 0 post) by lia. cbn. by rewrite bool_decide_false.
Qed.

(** [bdecode] always ends with a verdict.  A value it accepts has safe
    integers and strictly increasing dictionary names, and the bytes recorded
    for each dictionary entry decode to the entry's value on their own; an
    accepted document followed by anything is rejected. *)
Theorem bdecode_canonical input :
  match bdecode input with
  | Ok v => well_formed bdecode v ∧ ∀ post, post ≠ [] →
      bdecode (input ++ post) = invalid_publication "Trailing torrent metadata"
  | Throw e => e ≠ out_of_fuel
  end.
Proof.
  unfold bdecode. assert (Hf : 515 ≤ Z.of_nat FUEL) by (vm_compute; discriminate).
  revert Hf. generalize FUEL. intros fuel Hf.
  pose proof (bdecode_fuel fuel input Hf) as Hfuel.
  destruct (bdecode_with fuel input) as [v|e] eqn:E; [|congruence].
  exact (bdecode_accepts fuel input v E).
Qed.

(** [TextDecoder] drops a leading byte order mark, so an integer spelled with one is
    accepted although it is not canonical. *)
Example bdecode_byte_order_mark :
  bdecode [105; 239; 187; 191; 55; 101] = Ok (BInt 7).
Proof. vm_compute. reflexivity. Qed.
