(* ===== verification/Protocol.v ===== *)
(** * Signed records (src/src/disk/web/torrent-protocol.js)

    A publication record names the current descriptor torrent of a disk; a
    locations record lists its seedboxes.  Both are Ed25519-signed in the format
    of mutable DHT items.  The signature verifier is the Rust module the Worker
    supplies and the URL parser is the browser's: both are parameters. *)
From S2P Require Import Prelude JsValue Hex Bencode.
From Stdlib Require Import Ascii.
#[local] Open Scope Z_scope.

(** ** Text *)

(** [encoder.encode] of an ASCII string. *)
Fixpoint ascii_bytes (s : string) : bytes :=
  match s with
  | EmptyString => []
  | String c s => Z.of_nat (nat_of_ascii c) :: ascii_bytes s
  end.

(** The digits of a non-negative integer. *)
Fixpoint digits (fuel : nat) (n : Z) (acc : bytes) : bytes :=
  match fuel with
  | O => acc
  | S fuel =>
      let acc := (48 + n mod 10) :: acc in
      if n <? 10 then acc else digits fuel (n / 10) acc
  end.
Definition decimal (n : Z) : bytes := digits (S (Z.to_nat (Z.log2 n))) n [].

Definition PUBLICATION_SALT : string := "my98/publication/v1".
Definition LOCATIONS_SALT : string := "my98/locations/v1".

(** [keysAre]: an object with exactly these keys. *)
Definition has_own (fields : list (string * jsval)) (key : string) : bool :=
  match assoc key fields with Some _ => true | None => false end.
Definition keysAre (value : jsval) (keys : list string) : bool :=
  match value with
  | JObj fields =>
      (Z.of_nat (length fields) =? Z.of_nat (length keys)) && forallb (has_own fields) keys
  | _ => false
  end.

(** ** Records *)
Inductive content := InfoHash (h : string) | Origins (l : list string).
#[export] Instance content_eq_dec : EqDecision content.
Proof. solve_decision. Defined.

(** A verified record: the fields of the frozen object.  The salt is the one of
    the kind of content. *)
Record record := SignedRecord {
  r_publicKey : string;
  r_sequence : Z;
  r_content : content;
  r_signature : string
}.

Definition salt_of (c : content) : string :=
  match c with InfoHash _ => PUBLICATION_SALT | Origins _ => LOCATIONS_SALT end.

(** The object a record is stored and published as. *)
Definition to_js (r : record) : jsval :=
  JObj [field "publicKey" (JStr (r_publicKey r));
        field "sequence" (JNum (NInt (r_sequence r)));
        match r_content r with
        | InfoHash h => field "infoHash" (JStr h)
        | Origins l => field "origins" (JArr (JStr <$> l))
        end;
        field "signature" (JStr (r_signature r));
        field "salt" (JStr (hex (ascii_bytes (salt_of (r_content r)))))].

(** The signed bytes: salt, sequence and value of the DHT item. *)
Definition payload (salt : string) (sequence : Z) (value : bytes) : bytes :=
  ascii_bytes "4:salt" ++ decimal (str_len salt) ++ ascii_bytes ":" ++ ascii_bytes salt ++
  ascii_bytes "3:seqi" ++ decimal sequence ++ ascii_bytes "e1:v" ++ value.

Definition publication_value (ih : bytes) : bytes :=
  ascii_bytes "d2:ih20:" ++ ih ++ ascii_bytes "e".

Section verify.
Context (verifySignature : bytes → bytes → bytes → bool).

(** The fields both kinds of record share. *)
Definition common_ok (value : jsval) (key : string) (expectedKey : jsval) (salt : string) : bool :=
  keysAre value ["publicKey"%string; "sequence"%string; key; "signature"%string; "salt"%string] &&
  strict_eq (get value "publicKey") expectedKey &&
  is_str (get value "salt") (hex (ascii_bytes salt)).

Definition positive_sequence (value : jsval) : option Z :=
  z ← as_safe_integer (get value "sequence"); if z <? 1 then None else Some z.

Definition text_of (v : jsval) : string := default ""%string (as_string v).

Definition verifyRecord (value expectedKey : jsval) : result record :=
  let bad := invalid_publication "Invalid signed publication destination or sequence" in
  if negb (common_ok value "infoHash" expectedKey PUBLICATION_SALT) then bad else
  match positive_sequence value with
  | None => bad
  | Some sequence =>
      key ← unhex (get value "publicKey") 32;
      signature ← unhex (get value "signature") 64;
      ih ← unhex (get value "infoHash") 20;
      if verifySignature key (payload PUBLICATION_SALT sequence (publication_value ih)) signature
      then Ok (SignedRecord (text_of (get value "publicKey")) sequence
                 (InfoHash (text_of (get value "infoHash"))) (text_of (get value "signature")))
      else invalid_publication "Invalid publication signature"
  end.

(** ** Locations *)

(** The parts of [new URL(origin)] the code looks at. *)
Record url := Url {
  u_username : string; u_password : string; u_hash : string; u_search : string;
  u_pathname : string; u_protocol : string; u_hostname : string
}.
Context (parse_url : string → option url).

(** [/^[\x21-\x7e]+$/], [endsWith("/")] and the order of two origins. *)
Definition visible (c : ascii) : bool :=
  let n := Z.of_nat (nat_of_ascii c) in (33 <=? n) && (n <=? 126).
Fixpoint ends_with_slash (s : string) : bool :=
  match s with
  | EmptyString => false
  | String c EmptyString => bool_decide (c = "/"%char)
  | String _ s => ends_with_slash s
  end.
Definition origin_text_ok (previous : option string) (s : string) : bool :=
  negb (bool_decide (s = ""%string)) && string_forall visible s && negb (ends_with_slash s) &&
  match previous with
  | Some p => negb (units_le (ascii_bytes s) (ascii_bytes p))
  | None => true
  end.

Definition empty (s : string) : bool := bool_decide (s = ""%string).
Definition origin_url_ok (u : url) : bool :=
  empty (u_username u) && empty (u_password u) && empty (u_hash u) && empty (u_search u) &&
  bool_decide (u_pathname u = "/"%string) &&
  (bool_decide (u_protocol u = "https:"%string) ||
   (bool_decide (u_protocol u = "http:"%string) &&
    bool_decide (u_hostname u ∈ ["localhost"; "127.0.0.1"; "[::1]"]%string))).

Fixpoint check_origins (previous : option string) (l : list jsval) : result (list string) :=
  match l with
  | [] => Ok []
  | v :: l =>
      match as_string v with
      | None => invalid_publication "Noncanonical seedbox origins"
      | Some s =>
          if negb (origin_text_ok previous s)
          then invalid_publication "Noncanonical seedbox origins" else
          match parse_url s with
          | None => invalid_publication "Invalid seedbox origin"
          | Some u =>
              if negb (origin_url_ok u)
              then invalid_publication "Use an HTTPS seedbox origin without a path" else
              rest ← check_origins (Some s) l; Ok (s :: rest)
          end
      end
  end.

Definition encode_origin (s : string) : bytes :=
  decimal (str_len s) ++ ascii_bytes ":" ++ ascii_bytes s.
Definition locations_value (origins : list string) : bytes :=
  ascii_bytes "d7:originsl" ++ concat (encode_origin <$> origins) ++ ascii_bytes "e7:versioni1ee".

Definition verifyLocations (value expectedKey : jsval) : result record :=
  let bad := invalid_publication "Invalid signed locations" in
  if negb (common_ok value "origins" expectedKey LOCATIONS_SALT) then bad else
  match positive_sequence value, as_array (get value "origins") with
  | Some sequence, Some ((_ :: _) as l) =>
      origins ← check_origins None l;
      let wire := locations_value origins in
      if 1000 <? byteLength wire
      then invalid_publication "Seedbox locations exceed BEP44 size limit" else
      key ← unhex (get value "publicKey") 32;
      signature ← unhex (get value "signature") 64;
      if verifySignature key (payload LOCATIONS_SALT sequence wire) signature
      then Ok (SignedRecord (text_of (get value "publicKey")) sequence (Origins origins)
                 (text_of (get value "signature")))
      else invalid_publication "Invalid locations signature"
  | _, _ => bad
  end.
End verify.

(** ** The order of records *)
Definition compareRecords (previous : option record) (candidate : record) : result bool :=
  match previous with
  | None => Ok true
  | Some p =>
      if negb (bool_decide (r_publicKey p = r_publicKey candidate))
      then invalid_publication "Cannot compare different publication identities" else
      if r_sequence candidate <? r_sequence p
      then throw "PUBLICATION_CONFLICT" "Publication is older than the highest observed version" else
      if r_sequence candidate =? r_sequence p then
        if negb (bool_decide (r_content candidate = r_content p))
        then throw "PUBLICATION_CONFLICT" "Conflicting publications have the same sequence"
        else Ok false
      else Ok true
  end.
