(* ===== verification/ProtocolFacts.v ===== *)
(** * Signed records: correctness

    The signed bytes determine the record, so a record passes verification only
    if its publisher signed exactly that sequence and content. *)
From S2P Require Import Prelude JsValue Hex Bencode Protocol.
From Stdlib Require Import Ascii.
#[local] Open Scope Z_scope.

(** ** Decimal numbers *)
Definition all_digits (l : bytes) : Prop := Forall (λ c, 48 ≤ c ≤ 57) l.

Lemma digits_app fuel n acc : digits fuel n acc = digits fuel n [] ++ acc.
Proof.
  revert n acc. induction fuel as [|fuel IH]; intros n acc; cbn; [done|].
  destruct (n <? 10); [done|]. rewrite IH, (IH (n / 10) [_]), <- app_assoc. done.
Qed.

Lemma digits_value_snoc l d : digits_value (l ++ [d]) = 10 * digits_value l + (d - 48).
Proof. unfold digits_value. by rewrite foldl_app. Qed.

Lemma digits_spec fuel n :
  0 ≤ n < 2 ^ Z.of_nat fuel → (fuel ≠ 0)%nat →
  digits_value (digits fuel n []) = n ∧ all_digits (digits fuel n []) ∧ digits fuel n [] ≠ [].
Proof.
  revert n. induction fuel as [|fuel IH]; intros n Hn Hf; [done|].
  pose proof (Z.mod_pos_bound n 10 ltac:(lia)). cbn [digits].
  destruct (n <? 10) eqn:E; bools.
  - rewrite Z.mod_small by lia. split_and!; [|repeat constructor; lia|done].
    unfold digits_value. cbn. lia.
  - rewrite Nat2Z.inj_succ, Z.pow_succ_r in Hn by lia.
    assert (Hd : 0 ≤ n / 10 < 2 ^ Z.of_nat fuel).
    { split; [apply Z.div_pos; lia|]. apply Z.div_lt_upper_bound; lia. }
    destruct (IH (n / 10) Hd) as (H1 & H2 & H3).
    { intros ->. cbn in Hd. pose proof (Z.div_le_lower_bound n 10 1 ltac:(lia) ltac:(lia)). lia. }
    rewrite digits_app, digits_value_snoc, H1. split_and!.
    + pose proof (Z.div_mod n 10). lia.
    + apply Forall_app. split; [done|]. repeat constructor; lia.
    + by destruct (digits fuel (n / 10) []).
Qed.

Lemma decimal_spec n :
  0 ≤ n → digits_value (decimal n) = n ∧ all_digits (decimal n) ∧ decimal n ≠ [].
Proof.
  intros Hn. unfold decimal. apply digits_spec; [|done]. split; [done|].
  rewrite Nat2Z.inj_succ, Z2Nat.id by apply Z.log2_nonneg.
  destruct (decide (n = 0)) as [->|]; [done|]. apply Z.log2_spec. lia.
Qed.

Lemma decimal_inj a b : 0 ≤ a → 0 ≤ b → decimal a = decimal b → a = b.
Proof.
  intros Ha Hb E. destruct (decimal_spec a Ha) as [<- _]. destruct (decimal_spec b Hb) as [<- _].
  by rewrite E.
Qed.

(** A number followed by a non-digit ends where the digits end. *)
Lemma digits_end a b c x y :
  all_digits a → all_digits b → ¬ 48 ≤ c ≤ 57 → a ++ c :: x = b ++ c :: y → a = b ∧ x = y.
Proof.
  intros Ha Hb Hc. revert b Hb. induction Ha as [|d a Hd Ha IH]; intros b Hb E.
  - destruct b as [|d' b]; [by injection E as ->|]. apply Forall_cons in Hb as [Hb _].
    injection E as -> _. done.
  - destruct b as [|d' b]; [injection E as -> _; done|]. apply Forall_cons in Hb as [_ Hb].
    injection E as -> E. destruct (IH b Hb E) as [-> ->]. done.
Qed.

Lemma decimal_end a b c x y :
  0 ≤ a → 0 ≤ b → ¬ 48 ≤ c ≤ 57 → decimal a ++ c :: x = decimal b ++ c :: y → a = b ∧ x = y.
Proof.
  intros Ha Hb Hc E. destruct (decimal_spec a Ha) as (_ & Da & _).
  destruct (decimal_spec b Hb) as (_ & Db & _).
  destruct (digits_end _ _ c x y Da Db Hc E) as [Ed ->]. split; [by apply decimal_inj|done].
Qed.

(** ** The signed bytes *)
Lemma ascii_bytes_length s : Z.of_nat (length (ascii_bytes s)) = str_len s.
Proof. unfold str_len. induction s as [|c s IH]; cbn in *; lia. Qed.

Lemma ascii_bytes_inj s t : ascii_bytes s = ascii_bytes t → s = t.
Proof.
  revert t. induction s as [|c s IH]; intros [|d t]; cbn; try done. intros [= E1 E2].
  f_equal; [|auto]. rewrite <- (ascii_nat_embedding c), <- (ascii_nat_embedding d).
  f_equal. lia.
Qed.

Lemma payload_inj salt s1 v1 s2 v2 :
  0 ≤ s1 → 0 ≤ s2 → payload salt s1 v1 = payload salt s2 v2 → s1 = s2 ∧ v1 = v2.
Proof.
  intros H1 H2 E. unfold payload in E.
  do 5 apply app_inv_head in E.
  change (ascii_bytes "e1:v") with [101; 49; 58; 118] in E. cbn [app] in E.
  apply decimal_end in E as [-> E]; [|done|done|lia]. by injection E.
Qed.

Lemma payload_salts s1 v1 s2 v2 :
  payload PUBLICATION_SALT s1 v1 ≠ payload LOCATIONS_SALT s2 v2.
Proof.
  unfold payload. rewrite !app_assoc.
  set (a := ((ascii_bytes "4:salt" ++ decimal (str_len PUBLICATION_SALT)))).
  set (b := ((ascii_bytes "4:salt" ++ decimal (str_len LOCATIONS_SALT)))).
  assert (Ea : a = [52; 58; 115; 97; 108; 116; 49; 57]) by reflexivity.
  assert (Eb : b = [52; 58; 115; 97; 108; 116; 49; 55]) by reflexivity.
  rewrite Ea, Eb. cbn. congruence.
Qed.

Lemma publication_value_inj a b :
  length a = length b → publication_value a = publication_value b → a = b.
Proof.
  intros Hl E. unfold publication_value in E. apply app_inv_head in E.
  by apply app_inj_1 in E as [-> _].
Qed.

Lemma encode_origins_inj l1 l2 x y :
  concat (encode_origin <$> l1) ++ 101 :: x = concat (encode_origin <$> l2) ++ 101 :: y →
  l1 = l2 ∧ x = y.
Proof.
  assert (Hpos : ∀ s, 0 ≤ str_len s) by (unfold str_len; lia).
  assert (Hne : ∀ s l z z', concat (encode_origin <$> s :: l) ++ z ≠ 101 :: z').
  { intros s l z z'. change (concat (encode_origin <$> s :: l))
      with ((decimal (str_len s) ++ ascii_bytes ":" ++ ascii_bytes s) ++ concat (encode_origin <$> l)).
    destruct (decimal_spec (str_len s) (Hpos s)) as (_ & Hd & Hn).
    destruct (decimal (str_len s)) as [|d ds]; [done|]. apply Forall_cons in Hd as [Hd _].
    cbn. intros E. inversion E. lia. }
  revert l2. induction l1 as [|s l1 IH]; intros [|t l2] E.
  - by injection E.
  - symmetry in E. by apply Hne in E.
  - by apply Hne in E.
  - change (concat (encode_origin <$> s :: l1)) with (encode_origin s ++ concat (encode_origin <$> l1)) in E.
    change (concat (encode_origin <$> t :: l2)) with (encode_origin t ++ concat (encode_origin <$> l2)) in E.
    unfold encode_origin at 1 3 in E. change (ascii_bytes ":") with [58] in E. rewrite <- !app_assoc in E. cbn [app] in E.
    apply decimal_end in E as [El E]; [|done|done|lia].
    apply app_inj_1 in E as [Es E].
    2:{ apply Nat2Z.inj. by rewrite !ascii_bytes_length. }
    apply ascii_bytes_inj in Es as ->. destruct (IH l2 E) as [-> ->]. done.
Qed.

Lemma locations_value_inj l1 l2 : locations_value l1 = locations_value l2 → l1 = l2.
Proof.
  unfold locations_value. intros E. apply app_inv_head in E.
  change (ascii_bytes "e7:versioni1ee")
    with (101 :: ascii_bytes "7:versioni1ee") in E.
  by apply encode_origins_inj in E as [-> _].
Qed.

(** ** What verification establishes *)
Definition signed_bytes (sequence : Z) (c : content) : bytes :=
  match c with
  | InfoHash h => payload PUBLICATION_SALT sequence (publication_value (parse_pairs h))
  | Origins l => payload LOCATIONS_SALT sequence (locations_value l)
  end.

(** The contents a publisher can sign: a canonical infohash, or any origins. *)
Definition content_ok (c : content) : Prop :=
  match c with InfoHash h => hex_string 40 h = true | Origins _ => True end.

Lemma signed_bytes_inj s1 c1 s2 c2 :
  0 ≤ s1 → 0 ≤ s2 → content_ok c1 → content_ok c2 →
  signed_bytes s1 c1 = signed_bytes s2 c2 → s1 = s2 ∧ c1 = c2.
Proof.
  intros H1 H2 C1 C2 E. destruct c1 as [h1|l1], c2 as [h2|l2]; cbn [signed_bytes content_ok] in *.
  - apply payload_inj in E as [-> E]; [|done|done]. split; [done|].
    unfold hex_string in *. bools.
    destruct (parse_pairs_hex 20 h1) as (P1 & _ & L1); [lia|done|].
    destruct (parse_pairs_hex 20 h2) as (P2 & _ & L2); [lia|done|].
    apply publication_value_inj in E; [|congruence]. by rewrite <- P1, <- P2, E.
  - by apply payload_salts in E.
  - symmetry in E. by apply payload_salts in E.
  - apply payload_inj in E as [-> E]; [|done|done]. by apply locations_value_inj in E as ->.
Qed.

Section verified.
Context (verifySignature : bytes → bytes → bytes → bool) (parse_url : string → option url).

(** The facts about a verified record of the key [key]. *)
Definition verified_record (key : string) (r : record) : Prop :=
  r_publicKey r = key ∧ 1 ≤ r_sequence r ≤ MAX_SAFE_INTEGER ∧ content_ok (r_content r) ∧
  ∃ k sig, unhex (JStr key) 32 = Ok k ∧ unhex (JStr (r_signature r)) 64 = Ok sig ∧
    verifySignature k (signed_bytes (r_sequence r) (r_content r)) sig = true.

Lemma common_ok_key value name key salt :
  common_ok value name (JStr key) salt = true → get value "publicKey" = JStr key.
Proof. unfold common_ok. intros H. bools. by destruct (get value "publicKey") as [| | |[]| | |]; cbn in *; bools; subst. Qed.

Lemma positive_sequence_Some value s :
  positive_sequence value = Some s → get value "sequence" = JNum (NInt s) ∧ 1 ≤ s ≤ MAX_SAFE_INTEGER.
Proof.
  unfold positive_sequence. destruct (as_safe_integer _) as [z|] eqn:E; [|done]. cbn.
  apply as_safe_integer_Some in E as [-> Hs]. destruct (z <? 1) eqn:E1; [done|]. intros [= <-].
  unfold is_safe in Hs. bools. done.
Qed.

Lemma verifyRecord_Ok value key r :
  verifyRecord verifySignature value (JStr key) = Ok r → verified_record key r.
Proof using Type.
  unfold verifyRecord. destruct (common_ok _ _ _ _) eqn:Ec; [|done]. cbn [negb].
  apply common_ok_key in Ec.
  destruct (positive_sequence value) as [s|] eqn:Es; [|done].
  apply positive_sequence_Some in Es as [_ Hs]. rewrite Ec. intros H.
  apply bind_ok in H as (k & Hk & H). apply bind_ok in H as (sig & Hsig & H).
  apply bind_ok in H as (ih & Hih & H).
  destruct (verifySignature _ _ _) eqn:Ev; [|done]. injection H as <-.
  apply unhex_Ok in Hih as (Eih & Hb & Hl & Hhex); [|lia]. rewrite Eih in *.
  destruct (unhex_Ok _ 64 _ ltac:(lia) Hsig) as (Esig & _). rewrite Esig in *.
  destruct (hex_string_ok ih Hb) as (Hp & _ & _).
  split; [done|]. split; [done|]. split; [done|]. exists k, sig.
  split; [done|]. split; [done|]. change (verifySignature k (payload PUBLICATION_SALT s
    (publication_value (parse_pairs (hex ih)))) sig = true). by rewrite Hp.
Qed.

Lemma verifyLocations_Ok value key r :
  verifyLocations verifySignature parse_url value (JStr key) = Ok r → verified_record key r.
Proof using Type.
  unfold verifyLocations. destruct (common_ok _ _ _ _) eqn:Ec; [|done]. cbn [negb].
  apply common_ok_key in Ec.
  destruct (positive_sequence value) as [s|] eqn:Es; [|done].
  apply positive_sequence_Some in Es as [_ Hs].
  destruct (as_array _) as [[|v l]|]; try done. rewrite Ec. intros H.
  apply bind_ok in H as (origins & Ho & H). cbv zeta in H.
  destruct (1000 <? _); [done|].
  apply bind_ok in H as (k & Hk & H). apply bind_ok in H as (sig & Hsig & H).
  destruct (verifySignature _ _ _) eqn:Ev; [|done]. injection H as <-.
  destruct (unhex_Ok _ 64 _ ltac:(lia) Hsig) as (Esig & _). rewrite Esig in *.
  split; [done|]. split; [done|]. split; [done|]. exists k, sig. done.
Qed.
End verified.

(** C7: if the key's owner signed only the sequences and contents of [signed] (the
    verifier accepts no other bytes), then every record and every locations
    document that verification accepts under that key carries one of them, with
    that exact sequence; a signature never passes for the other kind. *)
Theorem records_authentic verify parse_url key k (signed : list (Z * content)) :
  unhex (JStr key) 32 = Ok k →
  Forall (λ p : Z * content, 0 ≤ p.1 ∧ content_ok p.2) signed →
  (∀ message sig, verify k message sig = true → ∃ p, p ∈ signed ∧ message = signed_bytes p.1 p.2) →
  (∀ value r, verifyRecord verify value (JStr key) = Ok r →
     (r_sequence r, r_content r) ∈ signed ∧ r_publicKey r = key) ∧
  (∀ value r, verifyLocations verify parse_url value (JStr key) = Ok r →
     (r_sequence r, r_content r) ∈ signed ∧ r_publicKey r = key).
Proof.
  intros Hk Hs Hv.
  assert (H : ∀ r, verified_record verify key r →
    (r_sequence r, r_content r) ∈ signed ∧ r_publicKey r = key).
  { intros r (Hkey & Hseq & Hc & k' & sig & Hk' & _ & Hver). split; [|done].
    rewrite Hk in Hk'. injection Hk' as <-.
    destruct (Hv _ _ Hver) as ([s c] & Hin & E). rewrite Forall_forall in Hs.
    destruct (Hs _ Hin) as [Hs0 Hc0]. cbn [fst snd] in *.
    apply signed_bytes_inj in E as [-> ->]; [done|lia|done..]. }
  split; intros value r Hr; apply H; [by eapply verifyRecord_Ok|by eapply verifyLocations_Ok].
Qed.

Definition demo_key : string := hex (replicate 32 7).
Definition demo_content : content := InfoHash (hex (replicate 20 171)).
Definition demo_record : record :=
  SignedRecord demo_key 5 demo_content (hex (replicate 64 9)).
(** A verifier that accepts exactly one message. *)
Definition demo_verify (_ message _ : bytes) : bool := bool_decide (message = signed_bytes 5 demo_content).

Lemma records_authentic_witness :
  verifyRecord demo_verify (to_js demo_record) (JStr demo_key) = Ok demo_record ∧
  (5, demo_content) ∈ [(5, demo_content)].
Proof.
  assert (H : verifyRecord demo_verify (to_js demo_record) (JStr demo_key) = Ok demo_record)
    by (vm_compute; reflexivity).
  split; [exact H|].
  refine (proj1 (proj1 (records_authentic demo_verify (λ _, None) demo_key (replicate 32 7)
    [(5, demo_content)] _ _ _) _ _ H)).
  - vm_compute. reflexivity.
  - repeat constructor. done.
  - intros message sig Hm. apply bool_decide_eq_true in Hm. exists (5, demo_content).
    split; [constructor|exact Hm].
Defined.

(** ** A verified record can be stored and verified again *)
Lemma common_ok_stored r :
  common_ok (to_js r) (match r_content r with InfoHash _ => "infoHash" | Origins _ => "origins" end)
    (JStr (r_publicKey r)) (salt_of (r_content r)) = true.
Proof.
  unfold common_ok, to_js. destruct (r_content r); cbn [salt_of];
    rewrite !andb_true_iff; (split; [split|]);
    try reflexivity; cbn; by apply bool_decide_eq_true.
Qed.

Lemma positive_stored r :
  1 ≤ r_sequence r ≤ MAX_SAFE_INTEGER → positive_sequence (to_js r) = Some (r_sequence r).
Proof.
  intros Hs. unfold positive_sequence.
  change (get (to_js r) "sequence") with (JNum (NInt (r_sequence r))). unfold as_safe_integer.
  replace (is_safe (r_sequence r)) with true.
  - change (Some (r_sequence r) ≫= ?f) with (f (r_sequence r)). cbv beta.
    by rewrite (proj2 (Z.ltb_ge _ _)) by lia.
  - symmetry. unfold is_safe. rewrite andb_true_iff. unfold MAX_SAFE_INTEGER in *. lia.
Qed.

Lemma check_origins_strings parse_url previous l strs :
  check_origins parse_url previous l = Ok strs → l = JStr <$> strs.
Proof.
  revert previous strs. induction l as [|v l IH]; intros previous strs; cbn.
  { by intros [= <-]. }
  destruct v as [| | | |s| |]; try done. cbn. destruct (negb _); [done|].
  destruct (parse_url s) as [u|]; [|done]. destruct (negb _); [done|]. intros H.
  apply bind_ok in H as (rest & Hrest & [= <-]). apply IH in Hrest as ->. done.
Qed.

(** [(locations?verifyLocations:verifyRecord)]. *)
Definition verify_kind (verify : bytes → bytes → bytes → bool) (parse_url : string → option url)
    (locations : bool) (value expectedKey : jsval) : result record :=
  if locations then verifyLocations verify parse_url value expectedKey
  else verifyRecord verify value expectedKey.

Lemma reverify_record verify value key r :
  verifyRecord verify value (JStr key) = Ok r → verifyRecord verify (to_js r) (JStr key) = Ok r.
Proof.
  intros H. pose proof (verifyRecord_Ok verify value key r H) as (Hkey & Hseq & Hc & k & sig & Hk & Hsig & Hv).
  unfold verifyRecord in H. destruct (negb _); [done|].
  destruct (positive_sequence value) as [s|]; [|done]. inv_bind.
  destruct (verify _ _ _); [|done]. injection H as H. clear H0 H1 H2.
  destruct r as [rk rs rc rsig]. cbn in Hkey. subst rk. injection H as _ _ <- _. cbn [r_sequence r_content r_signature content_ok signed_bytes] in Hseq, Hc, Hv, Hsig.
  set (ih := text_of (get value "infoHash")) in *. set (r := SignedRecord key rs (InfoHash ih) rsig).
  pose proof (common_ok_stored r) as Hcommon. cbn [r r_content r_publicKey salt_of] in Hcommon.
  unfold verifyRecord. rewrite Hcommon. cbn [negb].
  rewrite (positive_stored r) by done.
  change (get (to_js r) "publicKey") with (JStr key).
  change (get (to_js r) "signature") with (JStr rsig). change (get (to_js r) "infoHash") with (JStr ih).
  rewrite Hk, Hsig. cbn [mbind result_bind].
  assert (Hih : unhex (JStr ih) 20 = Ok (parse_pairs ih)).
  { unfold hex_string in Hc. apply andb_true_iff in Hc as [Hl Hf]. apply Z.eqb_eq in Hl.
    unfold unhex. rewrite Hl, Hf, bool_decide_false; [done|]. intros E. by rewrite E in Hl. }
  rewrite Hih. cbn [mbind result_bind]. cbn [r r_sequence]. by rewrite Hv.
Qed.

Lemma reverify_locations verify parse_url value key r :
  verifyLocations verify parse_url value (JStr key) = Ok r →
  verifyLocations verify parse_url (to_js r) (JStr key) = Ok r.
Proof.
  intros H. pose proof (verifyLocations_Ok verify parse_url value key r H)
    as (Hkey & Hseq & Hc & k & sig & Hk & Hsig & Hv).
  unfold verifyLocations in H. destruct (negb _); [done|].
  destruct (positive_sequence value) as [s|]; [|done].
  destruct (as_array _) as [[|v l]|]; try done. apply bind_ok in H as (origins & Ho & H). cbv zeta in H.
  destruct (1000 <? _) eqn:Elen; [done|]. inv_bind. destruct (verify _ _ _); [|done]. injection H as H. clear H0 H1.
  destruct r as [rk rs rc rsig]. cbn in Hkey. subst rk. injection H as _ _ <- _. cbn [r_sequence r_content r_signature content_ok signed_bytes] in Hseq, Hc, Hv, Hsig.
  set (r := SignedRecord key rs (Origins origins) rsig).
  pose proof (common_ok_stored r) as Hcommon. cbn [r r_content r_publicKey salt_of] in Hcommon.
  unfold verifyLocations. rewrite Hcommon. cbn [negb]. rewrite (positive_stored r) by done.
  change (get (to_js r) "origins") with (JArr (JStr <$> origins)). cbn [as_array].
  pose proof (check_origins_strings _ _ _ _ Ho) as El. rewrite El in Ho.
  destruct (JStr <$> origins) as [|v' l'] eqn:Eo; [done|]. rewrite Ho. cbn [mbind result_bind]. cbv zeta.
  rewrite Elen. change (get (to_js r) "publicKey") with (JStr key).
  change (get (to_js r) "signature") with (JStr rsig). rewrite Hk, Hsig. cbn [mbind result_bind r r_sequence].
  by rewrite Hv.
Qed.

Lemma reverify verify parse_url locations value key r :
  verify_kind verify parse_url locations value (JStr key) = Ok r →
  verify_kind verify parse_url locations (to_js r) (JStr key) = Ok r.
Proof. destruct locations; [apply reverify_locations|apply reverify_record]. Qed.

Lemma verify_kind_Ok verify parse_url locations value key r :
  verify_kind verify parse_url locations value (JStr key) = Ok r → verified_record verify key r.
Proof. destruct locations; [apply verifyLocations_Ok|apply verifyRecord_Ok]. Qed.
