(* ===== verification/Metadata.v ===== *)
(** * Torrent metadata (src/src/disk/web/torrent-protocol.js: verifyMetadata)

    A metadata document from the network is accepted only if its canonical info
    dictionary hashes to the expected infohash; only that dictionary is kept.
    SHA-1 is the browser's and a parameter. *)
From S2P Require Import Prelude JsValue Hex Bencode Protocol.
From Stdlib Require Import Ascii.
#[local] Open Scope Z_scope.

Inductive component := Descriptor | Disk | State | Profile.
#[export] Instance component_eq_dec : EqDecision component.
Proof. solve_decision. Defined.

(** [COMPONENT_NAMES], in the order of [Object.keys], and [limits]. *)
Definition components : list component := [Descriptor; Disk; State; Profile].
Definition COMPONENT_NAMES (c : component) : string :=
  match c with
  | Descriptor => "publication.json"
  | Disk => "disk.my98"
  | State => "state.my98state"
  | Profile => "profile.json"
  end.
Definition limits (c : component) : Z :=
  match c with
  | Descriptor => 4096
  | Disk => 2 ^ 40 + 2 ^ 30 + 198
  | State => 2 ^ 30 + 65536
  | Profile => 65536
  end.

Record metadata := Metadata {
  m_infoHash : string; m_kind : component; m_filename : string;
  m_size : Z; m_pieces : Z; m_metadata : bytes
}.

(** A field of a decoded dictionary: its exact bytes and its value. *)
Fixpoint lookup (name : list Z) (fields : list (list Z * (bytes * bvalue))) : option (bytes * bvalue) :=
  match fields with
  | [] => None
  | (n, v) :: fields => if bool_decide (n = name) then Some v else lookup name fields
  end.
Definition field_of (v : bvalue) (name : string) : option (bytes * bvalue) :=
  match v with BDict fields => lookup (ascii_bytes name) fields | _ => None end.

(** [keysAre(info.value,["name","length","piece length","pieces"])]: the values of
    these fields when they are the only ones. *)
Definition info_fields (v : bvalue) : option (bvalue * bvalue * bvalue * bvalue) :=
  match v with
  | BDict fields =>
      if Z.of_nat (length fields) =? 4 then
        name ← field_of v "name"; len ← field_of v "length";
        piece ← field_of v "piece length"; pieces ← field_of v "pieces";
        Some (name.2, len.2, piece.2, pieces.2)
      else None
  | _ => None
  end.

Definition find_component (filename : list Z) : option component :=
  List.find (λ c, bool_decide (ascii_bytes (COMPONENT_NAMES c) = filename)) components.

Definition piece_length : Z := 256 * 1024.

(** [concat(encoder.encode("d4:info"),raw,encoder.encode("e"))]. *)
Definition rebuild (raw : bytes) : bytes := ascii_bytes "d4:info" ++ raw ++ ascii_bytes "e".

Section verify.
Context (sha1 : bytes → bytes).

(** The checks on the info dictionary: its component, size and number of pieces. *)
Definition check_info (kind : option component) (info : bvalue) : result (component * Z) :=
  match info_fields info with
  | None => invalid_publication "Only single-file v1 torrents are accepted"
  | Some (name, len, piece, pieces) =>
      match (match name with BStr b => decode_text b | _ => Some [] end) with
      | None => throw_plain "The encoded data was not valid"
      | Some filename =>
          match find_component filename with
          | None => invalid_publication "Incorrect torrent component filename"
          | Some actual =>
              if match kind with Some k => negb (bool_decide (k = actual)) | None => false end
              then invalid_publication "Incorrect torrent component filename" else
              match len, piece, pieces with
              | BInt size, BInt pl, BStr hashes =>
                  if negb (is_safe size) || (size <? 1) || (limits actual <? size) ||
                     negb (pl =? piece_length) ||
                     negb (byteLength hashes =? 20 * ceil_div size piece_length)
                  then invalid_publication "Invalid torrent size, piece length or piece hashes"
                  else Ok (actual, size)
              | _, _, _ => invalid_publication "Invalid torrent size, piece length or piece hashes"
              end
          end
      end
  end.

Definition metadata_limit (kind : option component) : Z :=
  if bool_decide (kind = Some Descriptor) then 16384 else 96 * 1024 * 1024.

Definition verifyMetadata (input : option bytes) (expected : string) (kind : option component) :
    result metadata :=
  _ ← infoHash (JStr expected);
  match input with
  | None => invalid_publication "Invalid torrent metadata size"
  | Some input =>
      if bool_decide (input = []) || (metadata_limit kind <? byteLength input)
      then invalid_publication "Invalid torrent metadata size" else
      match bdecode input with
      | Throw e => invalid_publication ("Invalid canonical torrent metadata: " +:+ exn_message e)
      | Ok document =>
          match field_of document "info" with
          | None => invalid_publication "Only single-file v1 torrents are accepted"
          | Some (raw, info) =>
              '(actual, size) ← check_info kind info;
              let actualHash := hex (sha1 raw) in
              if negb (bool_decide (actualHash = expected))
              then invalid_publication "Torrent metadata does not match the publication infohash"
              else Ok (Metadata actualHash actual (COMPONENT_NAMES actual) size
                         (ceil_div size piece_length) (rebuild raw))
          end
      end
  end.
End verify.

(** ** The entry of a dictionary parses again after ["d4:info"] *)
Lemma utf8_length l t : utf8 l = Some t → (length t ≤ length l)%nat.
Proof.
  revert t. induction l as [l IH] using (induction_ltof1 _ (@length Z)). unfold ltof in IH.
  intros t H. destruct l as [|b0 l0]; [by injection H as <-|]. cbn [utf8] in H.
  assert (Hc : ∀ x (l' : bytes) t', (length l' < length (b0 :: l0))%nat →
    cons x <$> utf8 l' = Some t' → (length t' ≤ S (length l'))%nat).
  { intros x l' t' Hl Ht. destruct (utf8 l') as [u|] eqn:E; [|done]. injection Ht as <-.
    cbn. specialize (IH l' Hl u E). lia. }
  destruct (b0 <? 128); [apply Hc in H; cbn in *; lia|].
  destruct l0 as [|b1 l1]; [done|].
  destruct (_ && _); [apply Hc in H; cbn in *; lia|].
  destruct l1 as [|b2 l2]; [done|].
  destruct (_ && _); [apply Hc in H; cbn in *; lia|].
  destruct l2 as [|b3 l3]; [done|]. destruct (_ && _); [|done].
  destruct (utf8 l3) as [u|] eqn:E; [|done]. injection H as <-.
  rewrite length_app. specialize (IH l3 ltac:(cbn; lia) u E).
  unfold code_units. destruct (_ <? _); cbn; lia.
Qed.

Lemma decode_text_length l t : decode_text l = Some t → (length t ≤ length l)%nat.
Proof.
  unfold decode_text. intros H.
  destruct l as [|a [|b [|c l]]]; try (by apply utf8_length);
    repeat (case_match; try (by apply utf8_length)); apply utf8_length in H; cbn; lia.
Qed.

Lemma parse_nodes fuel depth nodes input v n rest :
  parse fuel depth nodes input = Ok (v, n, rest) → nodes + 1 ≤ n.
Proof.
  destruct fuel as [|fuel]; [done|]. destruct (local fuel) as (_ & Lf & Li). cbn [parse].
  destruct (_ || _); [done|]. destruct input as [|c l]; [done|].
  destruct (c =? 105); [|destruct (c =? 100); [|destruct (c =? 108)]]; intros H.
  - destruct (number _ _ _) as [[z r]|e]; [|done]. injection H as _ <- _. lia.
  - destruct (parse_fields _ _ _ _ _) as [[[fs m] r]|e] eqn:E; [|done]. cbn in H. injection H as _ <- _.
    by destruct (Lf _ _ _ _ _ E) as (_ & _ & _ & Hn & _).
  - destruct (parse_items _ _ _ _) as [[[fs m] r]|e] eqn:E; [|done]. cbn in H. injection H as _ <- _.
    by destruct (Li _ _ _ _ E) as (_ & _ & _ & Hn & _).
  - destruct (is_digit c); [|done]. destruct (number _ _ _) as [[z r]|e]; [|done]. cbn in H.
    destruct (_ || _); [done|]. injection H as _ <- _. lia.
Qed.

(** A string takes at least a digit, a colon and its bytes. *)
Lemma parse_string_length fuel depth nodes input b n rest :
  parse fuel depth nodes input = Ok (BStr b, n, rest) →
  (length b + 2 + length rest ≤ length input)%nat.
Proof.
  destruct fuel as [|fuel]; [done|]. cbn [parse].
  destruct (_ || _); [done|]. destruct input as [|c l]; [done|].
  destruct (c =? 105); [|destruct (c =? 100); [|destruct (c =? 108)]]; intros H.
  - by destruct (number _ _ _) as [[z r]|e].
  - by destruct (parse_fields _ _ _ _ _) as [[[fs m] r]|e].
  - by destruct (parse_items _ _ _ _) as [[[fs m] r]|e].
  - destruct (is_digit c) eqn:Ed; [|done].
    destruct (number 58 false (c :: l)) as [[len r]|e] eqn:En; [|done]. cbn in H.
    destruct (_ || _) eqn:El; [done|]. injection H as <- _ <-. bools. unfold byteLength in *.
    unfold number in En. destruct (split_at_end 58 (c :: l)) as [[t r']|] eqn:Es; [|done].
    apply split_at_end_spec in Es as [Eq _]. destruct (17 <? _); [done|].
    destruct (decode_text t) as [u|] eqn:Et; [|done]. destruct (_ || _); [done|]. injection En as _ ->.
    rewrite Eq, length_app, length_take, length_drop. cbn [length].
    assert (t ≠ []).
    { intros ->. injection Eq as -> _. done. }
    destruct t; [done|]. cbn [length]. lia.
Qed.

Lemma field_parses fuel depth nodes previous input fs n rest name raw v :
  parse_fields fuel depth nodes previous input = Ok (fs, n, rest) → (name, (raw, v)) ∈ fs →
  (length raw + length name + length rest + 3 ≤ length input)%nat ∧
  ∀ fuel' nodes' post, (fuel ≤ S fuel')%nat → nodes' ≤ nodes + 1 →
    ∃ m, parse fuel' (depth + 1) nodes' (raw ++ post) = Ok (v, m, post).
Proof.
  revert nodes previous input fs n rest. induction fuel as [|fuel IH]; intros nodes previous input fs n rest H Hin; [done|].
  cbn [parse_fields] in H. destruct (terminator_or_not input) as [[r0 ->]|[_ Hhead]].
  { injection H as <- _ _. by apply elem_of_nil in Hin. }
  rewrite Hhead in H. destruct (local fuel) as (Lp & Lf & _).
  destruct (parse fuel (depth + 1) nodes input) as [[[k n1] r1]|e] eqn:E1; [|done]. cbn in H.
  destruct k as [|k| |]; try done. destruct (decode_text k) as [name'|] eqn:Ed; [|done].
  destruct (match previous with Some p => units_le name' p | None => false end); [done|].
  destruct (parse fuel (depth + 1) n1 r1) as [[[v' n2] r2]|e] eqn:E2; [|done]. cbn in H.
  destruct (parse_fields fuel depth n2 (Some name') r2) as [[[fs' n3] r3]|e] eqn:E3; [|done].
  cbn in H. injection H as <- <- <-.
  pose proof (parse_string_length _ _ _ _ _ _ _ E1) as Hk.
  pose proof (decode_text_length _ _ Ed) as Hdl. pose proof (parse_nodes _ _ _ _ _ _ _ E1) as Hn1.
  pose proof (parse_nodes _ _ _ _ _ _ _ E2) as Hn2.
  destruct (Lp _ _ _ _ E2) as (raw2 & Er & _ & _ & P2). cbn in Er, P2. subst r1.
  destruct (Lf _ _ _ _ _ E3) as (raw3 & Er3 & Hne3 & _). cbn in Er3.
  rewrite length_app in Hk. apply elem_of_cons in Hin as [E|Hin].
  - injection E as -> -> ->. rewrite consumed_app. split.
    + subst r2. rewrite length_app in Hk. destruct raw3; [done|]. cbn [length] in *. lia.
    + intros fuel' nodes' post Hf Hn'. eexists. apply P2; lia.
  - destruct (IH _ _ _ _ _ _ E3 Hin) as [Hlen Hp]. split; [lia|].
    intros fuel' nodes' post Hf Hn'. apply Hp; lia.
Qed.

Lemma lookup_elem name fs x : lookup name fs = Some x → (name, x) ∈ fs.
Proof.
  induction fs as [|[n y] fs IH]; cbn; [done|]. case_bool_decide as E.
  - intros [= ->]. subst. constructor.
  - intros ?%IH. by right.
Qed.

Lemma number_info (post : bytes) :
  number 58 false (ascii_bytes "4:info" ++ post) = Ok (4, ascii_bytes "info" ++ post).
Proof. reflexivity. Qed.

(** The rebuilt document decodes to the one entry, and is no longer. *)
Lemma rebuild_decodes fuel input document raw info :
  (3 ≤ fuel)%nat → bdecode_with fuel input = Ok document → field_of document "info" = Some (raw, info) →
  bdecode_with fuel (rebuild raw) = Ok (BDict [(ascii_bytes "info", (raw, info))]) ∧
  (length (rebuild raw) ≤ length input)%nat.
Proof.
  intros Hfuel H Hf. unfold bdecode_with in H.
  destruct fuel as [|[|[|fuel]]]; try lia.
  destruct (parse (S (S (S fuel))) 0 0 input) as [[[v n] rest]|e] eqn:E; [|done]. cbn in H.
  case_bool_decide as Hr; [|done]. injection H as ->. subst rest.
  cbn [parse] in E. destruct (_ || _); [done|]. destruct input as [|c l]; [done|].
  destruct (c =? 105); [by destruct (number _ _ _) as [[? ?]|]; [|done]; injection E as <- _ _|].
  destruct (c =? 100).
  2:{ exfalso. destruct (c =? 108).
      - destruct (parse_items _ _ _ _) as [[[? ?] ?]|]; [|done]. cbn in E. by injection E as <- _ _.
      - destruct (is_digit c); [|done]. destruct (number _ _ _) as [[? ?]|]; [|done]. cbn in E.
        destruct (_ || _); [done|]. by injection E as <- _ _. }
  destruct (parse_fields (S (S fuel)) 0 (0 + 1) None l) as [[[fs m] r]|e] eqn:Ef; [|done]. cbn in E.
  injection E as <- -> ->. cbn [field_of] in Hf. apply lookup_elem in Hf.
  destruct (field_parses _ _ _ _ _ _ _ _ _ _ _ Ef Hf) as [Hlen Hp]. split.
  2:{ unfold rebuild. rewrite !length_app. cbn in *. lia. }
  destruct (Hp (S fuel) 2 (ascii_bytes "e") ltac:(lia) ltac:(lia)) as (m' & Hm).
  unfold bdecode_with, rebuild.
  change (ascii_bytes "d4:info" ++ raw ++ ascii_bytes "e")
    with (100 :: ascii_bytes "4:info" ++ raw ++ ascii_bytes "e").
  assert (Hkey : parse (S fuel) (0 + 1) (0 + 1) (ascii_bytes "4:info" ++ raw ++ ascii_bytes "e") =
    Ok (BStr (ascii_bytes "info"), 2, raw ++ ascii_bytes "e")).
  { cbn [parse]. change (ascii_bytes "4:info" ++ raw ++ ascii_bytes "e")
      with (52 :: ascii_bytes ":info" ++ raw ++ ascii_bytes "e"). cbn [Z.eqb Pos.eqb].
    change (is_digit 52) with true. cbn iota.
    change (52 :: ascii_bytes ":info" ++ raw ++ ascii_bytes "e")
      with (ascii_bytes "4:info" ++ raw ++ ascii_bytes "e"). rewrite number_info. cbn [mbind result_bind].
    unfold byteLength. rewrite length_app. cbn [Z.ltb Z.compare orb].
    change ((256 <? 0 + 1 + 1) || (8 <? 0 + 1)) with false. cbn iota.
    rewrite (proj2 (Z.ltb_ge _ _)); [reflexivity|]. cbn [length ascii_bytes]. lia. }
  cbn [parse Z.eqb Pos.eqb Z.ltb Z.compare orb Z.add Pos.add]. cbn iota.
  assert (Hfields : parse_fields (S (S fuel)) 0 1 None (ascii_bytes "4:info" ++ raw ++ ascii_bytes "e") =
    Ok ([(ascii_bytes "info", (raw, info))], m', [])).
  { assert (Hh : ∀ (A : Type) (x : bytes → A) y,
      match ascii_bytes "4:info" ++ raw ++ ascii_bytes "e" with 101 :: r => x r | _ => y end = y) by done.
    cbn [parse_fields]. rewrite Hh. change (parse (S fuel) (0 + 1) 1) with (parse (S fuel) (0 + 1) (0 + 1)).
    rewrite Hkey. cbn [mbind result_bind]. change (decode_text (ascii_bytes "info")) with (Some (ascii_bytes "info")).
    cbn iota. rewrite Hm. cbn [mbind result_bind]. rewrite consumed_app. done. }
  change (0 + 1) with 1. rewrite Hfields. done.
Qed.

Lemma verifyMetadata_ok sha1 input expected kind m :
  verifyMetadata sha1 (Some input) expected kind = Ok m →
  (∃ raw info, m_metadata m = rebuild raw ∧ hex (sha1 raw) = expected ∧
     bdecode (m_metadata m) = Ok (BDict [(ascii_bytes "info", (raw, info))])) ∧
  m_infoHash m = expected ∧ m_filename m = COMPONENT_NAMES (m_kind m) ∧
  (∀ k, kind = Some k → m_kind m = k) ∧
  1 ≤ m_size m ≤ limits (m_kind m) ∧ m_pieces m = ceil_div (m_size m) piece_length ∧
  byteLength (m_metadata m) ≤ byteLength input ∧
  verifyMetadata sha1 (Some (m_metadata m)) expected kind = Ok m.
Proof.
  unfold verifyMetadata, bdecode. assert (Hf : (3 ≤ FUEL)%nat) by (apply Nat.leb_le; reflexivity).
  revert Hf. generalize FUEL. intros fuel Hf H. apply bind_ok in H as (ih & Hih & H). rewrite Hih.
  destruct (_ || _) eqn:El; [done|]. destruct (bdecode_with fuel input) as [document|e] eqn:Ed; [|done].
  destruct (field_of document "info") as [[raw info]|] eqn:Ei; [|done].
  destruct (check_info kind info) as [[actual size]|e] eqn:Ec; [|done]. cbn [mbind result_bind] in *.
  destruct (negb _) eqn:Eh; [done|]. injection H as <-. bools.
  destruct (rebuild_decodes fuel input document raw info Hf Ed Ei) as [Hr Hlen].
  cbn [m_metadata m_infoHash m_kind m_filename m_size m_pieces].
  assert (Hinfo : (∀ k, kind = Some k → actual = k) ∧ 1 ≤ size ≤ limits actual).
  { unfold check_info in Ec. destruct (info_fields info) as [[[[name len] piece] pieces]|]; [|done].
    destruct (match name with BStr b => decode_text b | _ => Some [] end) as [fn|]; [|done].
    destruct (find_component fn) as [a|]; [|done].
    destruct (match kind with Some k => _ | None => false end) eqn:Ek; [done|].
    destruct len as [sz| | |], piece as [pl| | |], pieces as [|hs| |]; try done.
    destruct (_ || _) eqn:E; [done|]. injection Ec as <- <-. bools. split; [|lia].
    intros k ->. by bools. }
  destruct Hinfo as [Hk Hsize]. split_and!; try done; try lia.
  - exists raw, info. done.
  - unfold byteLength. lia.
  - rewrite Hr. assert (Hsmall : bool_decide (rebuild raw = []) ||
      (metadata_limit kind <? byteLength (rebuild raw)) = false).
    { apply orb_false_iff. split; [done|]. apply Z.ltb_ge. unfold byteLength in *. lia. }
    rewrite Hsmall. cbn [field_of lookup]. rewrite bool_decide_true by done.
    rewrite Ec. cbn [mbind result_bind]. by rewrite bool_decide_true.
Qed.
(** C8: accepted metadata has the expected infohash, a component of the requested
    kind, a size within the component's limit and its number of pieces; the kept
    document holds nothing but the hashed info dictionary, is no longer than
    the input, and verifies again with the same result. *)
Theorem verifyMetadata_correct sha1 input expected kind m :
  verifyMetadata sha1 (Some input) expected kind = Ok m →
  (∃ raw info, m_metadata m = rebuild raw ∧ hex (sha1 raw) = expected ∧
     bdecode (m_metadata m) = Ok (BDict [(ascii_bytes "info", (raw, info))])) ∧
  m_infoHash m = expected ∧ m_filename m = COMPONENT_NAMES (m_kind m) ∧
  (∀ k, kind = Some k → m_kind m = k) ∧
  1 ≤ m_size m ≤ limits (m_kind m) ∧ m_pieces m = ceil_div (m_size m) piece_length ∧
  byteLength (m_metadata m) ≤ byteLength input ∧
  verifyMetadata sha1 (Some (m_metadata m)) expected kind = Ok m.
Proof. apply verifyMetadata_ok. Qed.

(** A descriptor torrent of one piece, with a toy hash, and an unsigned announce
    address that does not survive. *)
Definition demo_info : bytes :=
  ascii_bytes "d6:lengthi9e4:name16:publication.json12:piece lengthi262144e6:pieces20:" ++
  replicate 20 65 ++ ascii_bytes "e".
Definition demo_document : bytes :=
  ascii_bytes "d8:announce3:udp4:info" ++ demo_info ++ ascii_bytes "e".
Definition demo_sha1 (b : bytes) : bytes := replicate 20 (byteLength b mod 256).

Lemma verifyMetadata_correct_witness :
  let expected := hex (demo_sha1 demo_info) in
  ∃ m, verifyMetadata demo_sha1 (Some demo_document) expected (Some Descriptor) = Ok m ∧
    m_metadata m = rebuild demo_info ∧ m_size m = 9 ∧
    verifyMetadata demo_sha1 (Some (m_metadata m)) expected (Some Descriptor) = Ok m.
Proof.
  cbv zeta. destruct (verifyMetadata demo_sha1 (Some demo_document) (hex (demo_sha1 demo_info))
    (Some Descriptor)) as [m|e] eqn:E.
  - destruct (verifyMetadata_correct _ _ _ _ _ E) as (_ & _ & _ & _ & _ & _ & _ & H).
    exists m. split; [reflexivity|]. split; [|split; [|exact H]];
      vm_compute in E; injection E as <-; vm_compute; reflexivity.
  - exfalso. vm_compute in E. discriminate E.
Defined.
