(* ===== verification/Records.v ===== *)
(** * The publication records of a browser (src/src/disk/web/torrent-records.js)

    A browser remembers, per public key, the newest record it has verified; it
    never goes back.  [resolveRecord] asks every configured source, folds the
    answers and commits the best one.

    The database row of the key is explicit state: [db : option jsval].  Its
    transactions are atomic, so an observation is one step; the rows are verified
    again whenever they are read.  Fetching is outside the code: each source
    yields a response body or an error. *)
From S2P Require Import Prelude JsValue Hex Bencode Protocol ProtocolFacts.
#[local] Open Scope Z_scope.

(** ** [boundedBytes] *)

(** [/^[0-9]+$/] and [Number] of a header. *)
Definition digit_char (c : Ascii.ascii) : bool := is_digit (Z.of_nat (Ascii.nat_of_ascii c)).
Definition content_length_ok (header : option string) (limit : Z) : bool :=
  match header with
  | None => true
  | Some s => negb (bool_decide (s = ""%string)) && string_forall digit_char s &&
              (digits_value (ascii_bytes s) <=? limit)
  end.

(** The read loop: the chunks kept so far and the chunks still to come; [None] in
    the stream is a read that fails. *)
Fixpoint read_chunks (limit size : Z) (parts : list bytes) (stream : list (option bytes)) :
    result (list bytes) :=
  match stream with
  | [] => Ok parts
  | None :: _ => throw_plain "network error"
  | Some value :: stream =>
      let size := size + byteLength value in
      if limit <? size
      then throw "INVALID_PUBLICATION" "Publication response exceeds its size limit"
      else read_chunks limit size (parts ++ [value]) stream
  end.

Definition boundedBytes (header : option string) (body : option (list (option bytes))) (limit : Z) :
    result bytes :=
  if negb (content_length_ok header limit)
  then throw "INVALID_PUBLICATION" "Publication response is too large" else
  match body with
  | None => throw "PUBLICATION_UNAVAILABLE" "Publication response has no body"
  | Some stream => parts ← read_chunks limit 0 [] stream; Ok (concat parts)
  end.

(** ** Folding the answers of the sources *)

(** What a source's promise settles with: a record, [null] for a 404, an error. *)
Definition response : Type := result (option record).

(** The [Map] from sequence to content, and the best record so far. *)
Record tally := Tally { t_seen : list (Z * content); t_best : option record }.

Definition new_tally (best : option record) : tally :=
  Tally (match best with Some b => [(r_sequence b, r_content b)] | None => [] end) best.

Definition conflict {A} : result A :=
  throw "PUBLICATION_CONFLICT" "Sources returned conflicting publications with the same sequence".

Definition newer (candidate : record) (best : option record) : bool :=
  match best with Some b => r_sequence b <? r_sequence candidate | None => true end.

Definition count (t : tally) (r : response) : result tally :=
  match r with
  | Ok (Some candidate) =>
      if match map_get (r_sequence candidate) (t_seen t) with
         | Some previous => negb (bool_decide (previous = r_content candidate))
         | None => false
         end
      then conflict
      else Ok (Tally (map_set (r_sequence candidate) (r_content candidate) (t_seen t))
                 (if newer candidate (t_best t) then Some candidate else t_best t))
  | _ => Ok t
  end.

Fixpoint count_all (t : tally) (responses : list response) : result tally :=
  match responses with
  | [] => Ok t
  | r :: responses => t ← count t r; count_all t responses
  end.

Section records.
Context (verifySignature : bytes → bytes → bytes → bool) (parse_url : string → option url).
Context (locations : bool) (publicKey : string).

Definition verify_js (value : jsval) : result record :=
  verify_kind verifySignature parse_url locations value (JStr publicKey).

(** ** The durable row *)
Definition stored (db : option jsval) : result (option record) :=
  match db with
  | None => Ok None
  | Some row => r ← verify_js row; Ok (Some r)
  end.

Definition cachedRecord (db : option jsval) : result (option record) :=
  _ ← unhex (JStr publicKey) 32;
  stored db.

(** One read-write transaction: it aborts, leaving the row, when a check throws. *)
Definition observeRecord (value : jsval) (db : option jsval) : result record * option jsval :=
  match verify_js value with
  | Throw e => (Throw e, db)
  | Ok record =>
      match (previous ← stored db; compareRecords previous record) with
      | Throw e => (Throw e, db)
      | Ok true => (Ok record, Some (to_js record))
      | Ok false => (Ok record, db)
      end
  end.

(** ** The end of [resolveRecord] *)

(** The end of [resolveRecord], once every source has settled: [cached] is the
    record read at the start, [db] the row now. *)
Definition finish_resolve (cached : option record) (responses : list response) (db : option jsval) :
    result (option record) * option jsval :=
  match count_all (new_tally cached) responses with
  | Throw e => (Throw e, db)
  | Ok t =>
      match t_best t with
      | Some best =>
          let '(r, db) := observeRecord (to_js best) db in
          (match r with Ok r => Ok (Some r) | Throw e => Throw e end, db)
      | None =>
          if existsb is_ok responses then (Ok None, db)
          else (throw "PUBLICATION_UNAVAILABLE" "No signed publication source is available", db)
      end
  end.

(** ** Early observations

    With [onRecord], each verified answer is also observed as it arrives; these
    observations run one after another.  [st_reported] are the records given to
    [onRecord]. *)
Record streaming := Streaming {
  st_streamed : list (Z * content);
  st_observed : option record;
  st_conflict : bool;
  st_reported : list record
}.

Definition new_streaming (best : option record) : streaming :=
  Streaming (t_seen (new_tally best)) best false [].

(** One observation.  [aborted] is the controller's signal; [db] may have been
    changed by another tab since the last one. *)
Definition observe_early (aborted : bool) (record : record) (s : streaming) (db : option jsval) :
    streaming * option jsval :=
  if aborted then (s, db) else
  if match map_get (r_sequence record) (st_streamed s) with
     | Some previous => negb (bool_decide (previous = r_content record))
     | None => false
     end
  then (Streaming (st_streamed s) (st_observed s) true (st_reported s), db) else
  let streamed := map_set (r_sequence record) (r_content record) (st_streamed s) in
  if st_conflict s then (Streaming streamed (st_observed s) true (st_reported s), db) else
  let observed := if newer record (st_observed s) then Some record else st_observed s in
  match cachedRecord db with
  | Throw _ => (Streaming streamed observed (st_conflict s) (st_reported s), db)
  | Ok current =>
      let observed := match current with
        | Some c => if newer c observed then Some c else observed
        | None => observed
        end in
      match observed with
      | None => (Streaming streamed observed (st_conflict s) (st_reported s), db)
      | Some o =>
          let '(r, db) := if locations then (Ok o, db) else observeRecord (to_js o) db in
          (Streaming streamed observed (st_conflict s)
             (if is_ok r then st_reported s ++ [o] else st_reported s), db)
      end
  end.

(** ** Correctness *)

(** A row holding a verified record; rows are only ever written by [observeRecord]. *)
Definition row_of (r : record) (db : option jsval) : Prop := stored db = Ok (Some r).

Lemma verify_stored value r : verify_js value = Ok r → row_of r (Some (to_js r)).
Proof using Type. intros H. unfold row_of, stored, verify_js in *. by rewrite (reverify _ _ _ _ _ _ H). Qed.

Lemma compareRecords_Ok previous candidate b :
  compareRecords previous candidate = Ok b →
  match previous with
  | None => b = true
  | Some p => r_publicKey p = r_publicKey candidate ∧
      if b then r_sequence p < r_sequence candidate
      else r_sequence p = r_sequence candidate ∧ r_content p = r_content candidate
  end.
Proof using Type.
  unfold compareRecords. destruct previous as [p|]; [|by intros [= <-]].
  case_bool_decide as Ek; [|done]. cbn [negb].
  destruct (_ <? _) eqn:El; [done|]. destruct (_ =? _) eqn:Ee; bools.
  - case_bool_decide as Ec; [|done]. intros [= <-]. done.
  - intros [= <-]. split; [done|]. lia.
Qed.

(** One observation moves the row forward or leaves it. *)
Lemma observe_forward value db r db' p :
  observeRecord value db = (r, db') → row_of p db →
  ∃ q, row_of q db' ∧ r_sequence p ≤ r_sequence q ∧
    (r_sequence q = r_sequence p → r_content q = r_content p) ∧
    match r with Ok v => r_sequence v = r_sequence q ∧ r_content v = r_content q
               | Throw _ => db' = db end.
Proof using Type.
  unfold observeRecord, row_of. intros H Hp. destruct (verify_js value) as [v|e] eqn:Ev.
  2:{ injection H as <- <-. by exists p. }
  rewrite Hp in H. cbn [mbind result_bind] in H.
  destruct (compareRecords (Some p) v) as [b|e] eqn:Ec.
  - apply compareRecords_Ok in Ec as [_ Hb]. destruct b; injection H as <- <-.
    + exists v. split; [by eapply verify_stored|]. split; [lia|]. split; [lia|done].
    + exists p. split; [done|]. destruct Hb. split; [lia|]. done.
  - injection H as <- <-. by exists p.
Qed.

(** The rows a sequence of observations leaves. *)
Fixpoint observe_values (values : list jsval) (db : option jsval) : option jsval :=
  match values with
  | [] => db
  | v :: values => observe_values values (observeRecord v db).2
  end.

Lemma observe_empty value r db' :
  observeRecord value None = (r, db') →
  match r with Ok v => row_of v db' | Throw _ => db' = None end.
Proof using Type.
  unfold observeRecord. destruct (verify_js value) as [v|e] eqn:Ev; cbn.
  - intros [= <- <-]. by eapply verify_stored.
  - by intros [= <- <-].
Qed.

Lemma observe_values_forward values db p :
  row_of p db → ∃ q, row_of q (observe_values values db) ∧ r_sequence p ≤ r_sequence q ∧
    (r_sequence q = r_sequence p → r_content q = r_content p).
Proof using Type.
  revert db p. induction values as [|v values IH]; intros db p Hp; cbn [observe_values]; [by exists p|].
  destruct (observeRecord v db) as [r db'] eqn:E. cbn [snd].
  destruct (observe_forward _ _ _ _ _ E Hp) as (q & Hq & Hle & Hc & _).
  destruct (IH db' q Hq) as (q' & Hq' & Hle' & Hc'). exists q'. split; [done|]. split; [lia|].
  intros Heq. assert (r_sequence q = r_sequence p) by lia. rewrite Hc' by lia. auto.
Qed.


Lemma observe_values_rows values db :
  (db = None ∨ ∃ p, row_of p db) →
  observe_values values db = None ∨ ∃ p, row_of p (observe_values values db).
Proof using Type.
  revert db. induction values as [|v values IH]; intros db Hdb; [done|]. cbn [observe_values]. apply IH.
  destruct (observeRecord v db) as [x db'] eqn:E. cbn [snd]. destruct Hdb as [->|[p Hp]].
  - apply observe_empty in E. destruct x as [w|e]; [right; by exists w|by left].
  - destruct (observe_forward _ _ _ _ _ E Hp) as (q & Hq & _). right. by exists q.
Qed.
End records.

(** The answers that are records. *)
Definition fulfilled (responses : list response) : list record :=
  omap (λ r : response, match r with Ok (Some c) => Some c | _ => None end) responses.

(** [t] tallies the records [l]. *)
Record tallies (t : tally) (l : list record) : Prop := {
  ta_seen : ∀ c, c ∈ l → map_get (r_sequence c) (t_seen t) = Some (r_content c);
  ta_from : ∀ s x, map_get s (t_seen t) = Some x → ∃ c, c ∈ l ∧ r_sequence c = s ∧ r_content c = x;
  ta_best : match t_best t with
    | None => l = []
    | Some b => b ∈ l ∧ ∀ c, c ∈ l → r_sequence c ≤ r_sequence b
    end
}.

Definition consistent (l : list record) : Prop :=
  ∀ c c', c ∈ l → c' ∈ l → r_sequence c = r_sequence c' → r_content c = r_content c'.

Lemma new_tally_ok cached : tallies (new_tally cached) (option_list cached).
Proof.
  destruct cached as [b|]; split; cbn; try done.
  - intros c ->%list_elem_of_singleton. by rewrite Z.eqb_refl.
  - intros s x. destruct (_ =? s) eqn:E; [|done]. intros [= <-]. bools. exists b. by split; [constructor|].
  - split; [constructor|]. by intros c ->%list_elem_of_singleton.
  - by intros c ?%elem_of_nil.
Qed.

Lemma count_spec t l c :
  tallies t l →
  match count t (Ok (Some c)) with
  | Ok t' => tallies t' (l ++ [c])
  | Throw e => exn_code e = Some "PUBLICATION_CONFLICT"%string ∧ ¬ consistent (l ++ [c])
  end.
Proof.
  intros [Hs Hf Hb]. unfold count.
  destruct (match map_get (r_sequence c) (t_seen t) with
            | Some previous => negb (bool_decide (previous = r_content c)) | None => false end) eqn:E; cbn.
  - split; [done|]. destruct (map_get _ _) as [x|] eqn:Eg; [|done]. bools. intros Hc.
    destruct (Hf _ _ Eg) as (c' & Hin & Hq & Hx). apply E. rewrite <- Hx. apply Hc; [set_solver..|done].
  - assert (Hsame : ∀ c', c' ∈ l → r_sequence c' = r_sequence c → r_content c' = r_content c).
    { intros c' Hin Hq. rewrite <- Hq, (Hs c' Hin) in E. by bools. }
    split; cbn.
    + intros c' Hin. rewrite map_get_set. destruct (_ =? _) eqn:Eq; bools.
      * apply elem_of_app in Hin as [Hin| ->%list_elem_of_singleton]; [|done].
        by rewrite (Hsame c' Hin).
      * apply elem_of_app in Hin as [Hin| ->%list_elem_of_singleton]; [auto|done].
    + intros s x. rewrite map_get_set. destruct (s =? _) eqn:Eq; bools.
      * intros [= <-]. exists c. set_solver.
      * intros (c' & ? & ? & ?)%Hf. exists c'. set_solver.
    + unfold newer. destruct (t_best t) as [b|].
      * destruct Hb as [Hb1 Hb2]. destruct (_ <? _) eqn:El; bools; (split; [set_solver|]);
          intros c' [Hin| ->%list_elem_of_singleton]%elem_of_app; try lia;
          specialize (Hb2 c' Hin); lia.
      * subst l. split; [set_solver|]. intros c' [?%elem_of_nil| ->%list_elem_of_singleton]%elem_of_app; done.
Qed.

Lemma count_all_spec responses t l :
  tallies t l →
  match count_all t responses with
  | Ok t' => tallies t' (l ++ fulfilled responses) ∧ consistent (l ++ fulfilled responses)
  | Throw e => exn_code e = Some "PUBLICATION_CONFLICT"%string ∧ ¬ consistent (l ++ fulfilled responses)
  end.
Proof.
  revert t l. induction responses as [|r responses IH]; intros t l Ht; cbn [count_all].
  { cbn. rewrite app_nil_r. split; [done|]. intros c c' Hc Hc' Hq.
    pose proof (ta_seen _ _ Ht c Hc) as H1. pose proof (ta_seen _ _ Ht c' Hc') as H2.
    rewrite Hq in H1. congruence. }
  destruct r as [[c|]|e]; [|exact (IH t l Ht)|exact (IH t l Ht)].
  change (fulfilled (Ok (Some c) :: responses)) with (c :: fulfilled responses).
  replace (l ++ c :: fulfilled responses) with ((l ++ [c]) ++ fulfilled responses)
    by (by rewrite <- app_assoc).
  pose proof (count_spec t l c Ht) as Hc. destruct (count t (Ok (Some c))) as [t'|e]; cbn [mbind result_bind].
  - exact (IH t' _ Hc).
  - destruct Hc as [He Hn]. split; [done|]. intros Hcons. apply Hn. intros x y Hx Hy.
    apply Hcons; set_solver.
Qed.

(** C6: a record that was once accepted for a key is never rolled back: whatever
    is observed before and after, by any tab, the stored record keeps its
    sequence and content until a record with a greater sequence replaces it. *)
Theorem observe_never_rolls_back verify parse_url locations key before value after r :
  let observe_all := observe_values verify parse_url locations key in
  let db := observe_all before None in
  (observeRecord verify parse_url locations key value db).1 = Ok r →
  ∃ q, row_of verify parse_url locations key q
         (observe_all after (observeRecord verify parse_url locations key value db).2) ∧
    r_sequence r ≤ r_sequence q ∧ (r_sequence q = r_sequence r → r_content q = r_content r).
Proof.
  cbv zeta. intros H.
  set (db := observe_values verify parse_url locations key before None) in *.
  assert (Hdb : db = None ∨ ∃ p, row_of verify parse_url locations key p db)
    by (apply observe_values_rows; by left).
  destruct (observeRecord _ _ _ _ value db) as [x db'] eqn:E. cbn [fst snd] in *. subst x.
  assert (Hrow : ∃ q, row_of verify parse_url locations key q db' ∧
    r_sequence r = r_sequence q ∧ r_content r = r_content q).
  { destruct Hdb as [->|[p Hp]].
    - apply observe_empty in E. by exists r.
    - destruct (observe_forward _ _ _ _ _ _ _ _ _ E Hp) as (q & Hq & _ & _ & Hr). by exists q. }
  destruct Hrow as (q & Hq & Hs & Hc).
  destruct (observe_values_forward verify parse_url locations key after db' q Hq) as (q' & Hq' & Hle & Hc').
  exists q'. split; [done|]. split; [lia|]. rewrite Hs, Hc. exact Hc'.
Qed.

(** The verifier of [demo_record] also accepts an older sequence here. *)
Definition demo_verify_any (_ _ _ : bytes) : bool := true.
Definition demo_older : record :=
  SignedRecord demo_key 4 demo_content (hex (replicate 64 9)).

Lemma observe_never_rolls_back_witness :
  let observe := observeRecord demo_verify_any (λ _, None) false demo_key in
  (observe (to_js demo_record) None).1 = Ok demo_record ∧
  result_code (observe (to_js demo_older) (observe (to_js demo_record) None).2).1 =
    Some "PUBLICATION_CONFLICT"%string ∧
  ∃ q, row_of demo_verify_any (λ _, None) false demo_key q
    (observe_values demo_verify_any (λ _, None) false demo_key [to_js demo_older]
       (observe (to_js demo_record) None).2) ∧ 5 ≤ r_sequence q.
Proof.
  cbv zeta. split; [vm_compute; reflexivity|]. split; [vm_compute; reflexivity|].
  destruct (observe_never_rolls_back demo_verify_any (λ _, None) false demo_key []
    (to_js demo_record) [to_js demo_older] demo_record) as (q & Hq & Hle & _).
  - vm_compute. reflexivity.
  - exists q. split; [exact Hq|exact Hle].
Defined.

(** When every source has settled, [resolveRecord] fails with
    [PUBLICATION_CONFLICT] if two of the records (the cached one and the verified
    answers) share a sequence but differ in content; otherwise its result is one
    of them with the greatest sequence, the row now holds that sequence and
    content, and it answers [null] only when there is no record at all. *)
Theorem resolve_newest verify parse_url locations key cached responses db :
  let candidates := option_list cached ++ fulfilled responses in
  let '(res, db') := finish_resolve verify parse_url locations key cached responses db in
  (¬ consistent candidates → result_code res = Some "PUBLICATION_CONFLICT"%string ∧ db' = db) ∧
  match res with
  | Throw _ => True
  | Ok None => candidates = [] ∧ db' = db ∧ existsb is_ok responses = true
  | Ok (Some r) => consistent candidates ∧
      ∃ best, best ∈ candidates ∧ (∀ c, c ∈ candidates → r_sequence c ≤ r_sequence best) ∧
        verify_js verify parse_url locations key (to_js best) = Ok r
  end.
Proof.
  cbv zeta. unfold finish_resolve.
  pose proof (count_all_spec responses (new_tally cached) (option_list cached) (new_tally_ok cached)) as H.
  destruct (count_all (new_tally cached) responses) as [t|e].
  2:{ destruct H as [He Hn]. split; [|done]. intros _. split; [exact He|done]. }
  destruct H as [[_ _ Hb] Hc]. destruct (t_best t) as [best|].
  2:{ destruct (existsb is_ok responses) eqn:E; (split; [by intros []|]); done. }
  destruct Hb as [Hin Hmax].
  destruct (observeRecord verify parse_url locations key (to_js best) db) as [[v|e] db'] eqn:Eo;
    (split; [by intros []|]); [|done].
  split; [done|]. exists best. split; [done|]. split; [done|].
  unfold observeRecord in Eo. destruct (verify_js _ _ _ _ (to_js best)) as [w|e] eqn:Ev; [|done].
  destruct (stored _ _ _ _ db) as [p|]; [|done]. cbn [mbind result_bind] in Eo.
  destruct (compareRecords p w) as [[]|]; try done; injection Eo; congruence.
Qed.

(** ** Response bodies *)
Lemma read_chunks_spec limit size parts stream :
  size = byteLength (concat parts) → size ≤ limit →
  match read_chunks limit size parts stream with
  | Ok all => ∃ chunks, stream = Some <$> chunks ∧ all = parts ++ chunks ∧ byteLength (concat all) ≤ limit
  | Throw e => In None stream ∨ (exn_code e = Some "INVALID_PUBLICATION"%string ∧
      limit < byteLength (concat parts) + sum_list_Z (default 0 <$> (fmap byteLength <$> stream)))
  end.
Proof.
  revert size parts. induction stream as [|[value|] stream IH]; intros size parts Hs Hl; cbn [read_chunks].
  - exists []. split_and!; [done|by rewrite app_nil_r|lia].
  - cbv zeta. destruct (limit <? _) eqn:E; bools.
    + right. split; [done|]. cbn. unfold sum_list_Z.
      assert (0 ≤ foldr Z.add 0 (default 0 <$> (fmap byteLength <$> stream))); [|lia].
      apply sum_list_Z_nonneg, Forall_fmap, Forall_fmap, Forall_true. intros [v|]; cbn; [|lia].
      unfold byteLength. lia.
    + assert (Hn : size + byteLength value = byteLength (concat (parts ++ [value]))).
      { rewrite concat_app. cbn. unfold byteLength in *. rewrite !length_app. cbn. lia. }
      specialize (IH (size + byteLength value) (parts ++ [value]) Hn E).
      destruct (read_chunks _ _ _ stream) as [all|e].
      * destruct IH as (chunks & -> & -> & Hle). exists (value :: chunks).
        split_and!; [done|by rewrite <- app_assoc|done].
      * destruct IH as [IH|[He IH]]; [left; by right|right]. split; [done|].
        rewrite <- Hn in IH. cbn in *. unfold sum_list_Z in *. lia.
  - left. by left.
Qed.

(** C19: [boundedBytes] returns the whole body and never more than [limit] bytes of
    it; a body it refuses failed to arrive, was absent, or announced or had more
    than [limit] bytes. *)
Theorem boundedBytes_spec header body limit :
  0 ≤ limit →
  match boundedBytes header body limit with
  | Ok b => ∃ chunks, body = Some (Some <$> chunks) ∧ b = concat chunks ∧ byteLength b ≤ limit
  | Throw _ => content_length_ok header limit = false ∨ body = None ∨
      ∃ stream, body = Some stream ∧
        (In None stream ∨ limit < sum_list_Z (default 0 <$> (fmap byteLength <$> stream)))
  end.
Proof.
  intros Hl. unfold boundedBytes. destruct (content_length_ok header limit); cbn [negb]; [|by left].
  destruct body as [stream|]; [|right; by left].
  pose proof (read_chunks_spec limit 0 (@nil bytes) stream eq_refl Hl) as H.
  destruct (read_chunks limit 0 [] stream) as [all|e]; cbn [mbind result_bind].
  - destruct H as (chunks & -> & -> & Hle). exists chunks. done.
  - right. right. exists stream. split; [done|]. destruct H as [H|[_ H]]; [by left|right].
    change (byteLength (concat [])) with 0 in H. lia.
Qed.

Lemma boundedBytes_spec_witness :
  boundedBytes (Some "5"%string) (Some [Some [1; 2; 3]; Some [4; 5]]) 8 = Ok [1; 2; 3; 4; 5] ∧
  byteLength [1; 2; 3; 4; 5] ≤ 8.
Proof.
  split; [vm_compute; reflexivity|].
  pose proof (boundedBytes_spec (Some "5"%string) (Some [Some [1; 2; 3]; Some [4; 5]]) 8 ltac:(done)) as H.
  hnf in H. destruct H as (chunks & _ & _ & Hle). exact Hle.
Defined.
