(* ===== verification/WorkerChannel.v ===== *)
(** * Calls to the disk Worker
    (src/src/disk/web/client.js: Slop86Disk; src/src/disk/web/worker-protocol.js)

    [Slop86Disk] numbers its calls and keeps a map of the pending ones;
    [WorkerProtocol] serialises the requests in the Worker and posts one reply to
    each.  Cancellation is an epoch: the client stores the new one in shared
    memory and posts it, and a request of an older epoch is refused.

    Both sides and the two message queues between them form one state; a step is
    whatever either thread or the environment does next, so a run is an
    interleaving of the two threads. *)
From S2P Require Import Prelude JsValue.
#[local] Open Scope Z_scope.

(** ** Messages *)
Record request := Request { q_id : Z; q_op : string; q_args : jsval; q_epoch : Z }.

Inductive to_worker := MRequest (q : request) | MCancel (epoch : Z).

Definition answer : Type := result jsval.

Inductive to_client := MReply (id : Z) (r : answer) | MProgress | MFatal (message : string).

(** ** The client *)
Record client := Client {
  c_pending : list Z;                         (** the keys of the [pending] map *)
  c_waiting : list (string * jsval * Z);      (** calls that still await [ready] *)
  c_next : Z;
  c_closed : bool;
  c_ready : bool;
  c_cancelEpoch : Z;
  c_terminated : bool                         (** [worker.terminate()] was called *)
}.

(** ** The Worker *)
Record worker := Worker {
  w_queue : list request;                     (** the chain of [sequence] *)
  w_active : option request;                  (** inside [execute] *)
  w_cancelEpoch : Z;
  w_activeEpoch : Z
}.

Record system := System {
  s_client : client;
  s_worker : worker;
  s_down : list to_worker;                    (** posted to the Worker, in order *)
  s_up : list to_client;                      (** posted to the client, in order *)
  s_view : option Z;                          (** the shared epoch, with isolation *)
  s_ready : bool;                             (** the Worker's [ready] has settled *)
  s_initError : option exn;
  s_settled : list (Z * answer);              (** calls settled, in order *)
  s_executed : list (request * option Z * Z)  (** executions, with the shared and the
                                                  received epoch at their start *)
}.

Definition new_client : client := Client [] [] 0 false false 0 false.
Definition new_worker : worker := Worker [] None 0 0.
Definition new_system (isolated : bool) (initError : option exn) : system :=
  System new_client new_worker [] [] (if isolated then Some 0 else None) false initError [] [].

Definition with_client (c : client) (s : system) : system :=
  System c (s_worker s) (s_down s) (s_up s) (s_view s) (s_ready s) (s_initError s)
    (s_settled s) (s_executed s).
Definition with_worker (w : worker) (s : system) : system :=
  System (s_client s) w (s_down s) (s_up s) (s_view s) (s_ready s) (s_initError s)
    (s_settled s) (s_executed s).
Definition with_down (d : list to_worker) (s : system) : system :=
  System (s_client s) (s_worker s) d (s_up s) (s_view s) (s_ready s) (s_initError s)
    (s_settled s) (s_executed s).
Definition with_up (u : list to_client) (s : system) : system :=
  System (s_client s) (s_worker s) (s_down s) u (s_view s) (s_ready s) (s_initError s)
    (s_settled s) (s_executed s).
Definition with_settled (l : list (Z * answer)) (s : system) : system :=
  System (s_client s) (s_worker s) (s_down s) (s_up s) (s_view s) (s_ready s) (s_initError s)
    l (s_executed s).

(** ** Client operations *)

(** [call(op,args)]: the epoch is read before [ready] is awaited. *)
Definition call (op : string) (args : jsval) (s : system) : system :=
  let c := s_client s in
  with_client (Client (c_pending c) (c_waiting c ++ [(op, args, c_cancelEpoch c)]) (c_next c)
                 (c_closed c) (c_ready c) (c_cancelEpoch c) (c_terminated c)) s.

(** The rest of the oldest waiting call, once [ready] has settled.  A call that
    finds the disk closed throws before it has a number. *)
Definition post (s : system) : system :=
  let c := s_client s in
  match c_waiting c with
  | (op, args, epoch) :: waiting =>
      if c_closed c then
        with_client (Client (c_pending c) waiting (c_next c) true (c_ready c) (c_cancelEpoch c)
                       (c_terminated c)) s
      else if c_ready c then
        let id := c_next c + 1 in
        with_down (s_down s ++ [MRequest (Request id op args epoch)])
          (with_client (Client (c_pending c ++ [id]) waiting id false true (c_cancelEpoch c)
                          (c_terminated c)) s)
      else s
  | [] => s
  end.

(** [(this.cancelEpoch+1)|0]. *)
Definition next_epoch (e : Z) : Z := (e + 1 + 2 ^ 31) mod 2 ^ 32 - 2 ^ 31.

Definition cancel (s : system) : system :=
  let c := s_client s in
  let epoch := next_epoch (c_cancelEpoch c) in
  System (Client (c_pending c) (c_waiting c) (c_next c) (c_closed c) (c_ready c) epoch (c_terminated c))
    (s_worker s) (s_down s ++ [MCancel epoch]) (s_up s)
    (match s_view s with Some _ => Some epoch | None => None end)
    (s_ready s) (s_initError s) (s_settled s) (s_executed s).

(** [fail(error)]: every pending call is rejected and the Worker terminated. *)
Definition fail (error : exn) (s : system) : system :=
  let c := s_client s in
  with_settled (s_settled s ++ ((λ id, (id, Throw error)) <$> c_pending c))
    (with_client (Client [] (c_waiting c) (c_next c) true (c_ready c) (c_cancelEpoch c) true) s).

(** [onmessage]. *)
Definition on_message (m : to_client) (s : system) : system :=
  let c := s_client s in
  match m with
  | MProgress => s
  | MFatal message => fail (Exn None message) s
  | MReply id r =>
      if bool_decide (id ∈ c_pending c) then
        with_settled (s_settled s ++ [(id, r)])
          (with_client (Client (filter (λ i, i ≠ id) (c_pending c)) (c_waiting c) (c_next c) (c_closed c)
                          (c_ready c) (c_cancelEpoch c) (c_terminated c)) s)
      else s
  end.

(** ** Worker operations *)
Definition CANCELLED : exn := Exn (Some "CANCELLED"%string) "Operation cancelled".

(** [cancelled()]. *)
Definition cancelled (s : system) : bool :=
  let w := s_worker s in
  negb (w_activeEpoch w =? w_cancelEpoch w) ||
  match s_view s with Some v => negb (v =? w_activeEpoch w) | None => false end.

(** [handle(data)]. *)
Definition handle (m : to_worker) (s : system) : system :=
  let w := s_worker s in
  match m with
  | MCancel epoch => with_worker (Worker (w_queue w) (w_active w) epoch (w_activeEpoch w)) s
  | MRequest q => with_worker (Worker (w_queue w ++ [q]) (w_active w) (w_cancelEpoch w) (w_activeEpoch w)) s
  end.

Definition reply (id : Z) (r : answer) (s : system) : system := with_up (s_up s ++ [MReply id r]) s.

(** The next request of the chain, up to the call of [execute].  With an init
    error the epoch is not updated and the error is replied, unless the epoch of
    the previous request is cancelled. *)
Definition start (s : system) : system :=
  let w := s_worker s in
  match w_active w, w_queue w with
  | None, q :: queue =>
      match s_initError s with
      | Some e =>
          reply (q_id q) (Throw (if cancelled s then CANCELLED else e))
            (with_worker (Worker queue None (w_cancelEpoch w) (w_activeEpoch w)) s)
      | None =>
          let idle := with_worker (Worker queue None (w_cancelEpoch w) (q_epoch q)) s in
          if cancelled idle then reply (q_id q) (Throw CANCELLED) idle else
          System (s_client s) (Worker queue (Some q) (w_cancelEpoch w) (q_epoch q)) (s_down s) (s_up s)
            (s_view s) (s_ready s) (s_initError s) (s_settled s) (s_executed s ++ [(q, s_view s, w_cancelEpoch w)])
      end
  | _, _ => s
  end.

(** [execute] settles. *)
Definition executed (r : answer) (s : system) : system :=
  let w := s_worker s in
  match w_active w with
  | Some q =>
      let r := match r with
        | Ok v => Ok v
        | Throw e => Throw (if cancelled s then CANCELLED else e)
        end in
      reply (q_id q) r (with_worker (Worker (w_queue w) None (w_cancelEpoch w) (w_activeEpoch w)) s)
  | None => s
  end.

(** ** Interleavings *)
Inductive step : system → system → Prop :=
| step_call op args s : step s (call op args s)
| step_post s : step s (post s)
| step_cancel s : step s (cancel s)
| step_fail e s : step s (fail e s)                      (** timeout, [onerror], [terminate] *)
| step_ready s : c_closed (s_client s) = false →         (** the [ready] message *)
    step s (with_client (Client (c_pending (s_client s)) (c_waiting (s_client s)) (c_next (s_client s))
      false true (c_cancelEpoch (s_client s)) (c_terminated (s_client s))) s)
| step_up m up s : s_up s = m :: up → step s (on_message m (with_up up s))
| step_notice m s : (∀ id r, m ≠ MReply id r) → step s (with_up (s_up s ++ [m]) s)
| step_down m down s : c_terminated (s_client s) = false → s_down s = m :: down →
    step s (handle m (with_down down s))
| step_init s : step s (System (s_client s) (s_worker s) (s_down s) (s_up s) (s_view s) true
      (s_initError s) (s_settled s) (s_executed s))
| step_start s : c_terminated (s_client s) = false → s_ready s = true → step s (start s)
| step_executed r s : c_terminated (s_client s) = false → step s (executed r s).

Definition run : system → system → Prop := rtc step.

(** ** The invariant *)
Definition down_ids (l : list to_worker) : list Z :=
  omap (λ m, match m with MRequest q => Some (q_id q) | MCancel _ => None end) l.
Definition up_replies (l : list to_client) : list (Z * answer) :=
  omap (λ m, match m with MReply id r => Some (id, r) | _ => None end) l.
Definition active_ids (w : worker) : list Z :=
  match w_active w with Some q => [q_id q] | None => [] end.
Definition queued_ids (s : system) : list Z :=
  (q_id <$> w_queue (s_worker s)) ++ down_ids (s_down s).
Definition executed_ids (s : system) : list Z := (λ x, q_id x.1.1) <$> s_executed s.

(** The calls that are on their way to the Worker, in it, or on their way back. *)
Definition in_flight (s : system) : list Z :=
  queued_ids s ++ active_ids (s_worker s) ++ (up_replies (s_up s)).*1.

Definition answered (s : system) (p : Z * answer) : Prop :=
  match p.2 with Ok _ => p.1 ∈ executed_ids s | Throw _ => True end.

Record channel_ok (s : system) : Prop := {
  ch_next : 0 ≤ c_next (s_client s);
  ch_ids : c_pending (s_client s) ++ (s_settled s).*1 ≡ₚ zrange 1 (Z.to_nat (c_next (s_client s)));
  ch_open : c_closed (s_client s) = false → c_pending (s_client s) ≡ₚ in_flight s;
  ch_closed : c_closed (s_client s) = true → c_pending (s_client s) = [];
  ch_terminated : c_terminated (s_client s) = c_closed (s_client s);
  ch_order : StronglySorted Z.lt (executed_ids s ++ queued_ids s);
  ch_bound : Forall (λ id, id ≤ c_next (s_client s)) (executed_ids s ++ queued_ids s);
  ch_active : ∀ id, id ∈ active_ids (s_worker s) → id ∈ executed_ids s;
  ch_epochs : Forall (λ x : request * option Z * Z, x.2 = q_epoch x.1.1 ∧
      match x.1.2 with Some v => v = q_epoch x.1.1 | None => True end) (s_executed s);
  ch_answers : Forall (answered s) (s_settled s ++ up_replies (s_up s))
}.

Lemma down_ids_app l1 l2 : down_ids (l1 ++ l2) = down_ids l1 ++ down_ids l2.
Proof. apply omap_app. Qed.
Lemma up_replies_app l1 l2 : up_replies (l1 ++ l2) = up_replies l1 ++ up_replies l2.
Proof. apply omap_app. Qed.

#[local] Arguments down_ids l : simpl never.
#[local] Arguments up_replies l : simpl never.

Lemma new_system_ok isolated initError : channel_ok (new_system isolated initError).
Proof. split; cbn; try done; try constructor. Qed.

(** Steps that change neither the calls, the queues nor the Worker. *)
Lemma same_ok s s' :
  c_pending (s_client s') = c_pending (s_client s) → c_next (s_client s') = c_next (s_client s) →
  c_closed (s_client s') = c_closed (s_client s) → c_terminated (s_client s') = c_terminated (s_client s) →
  (q_id <$> w_queue (s_worker s')) ++ down_ids (s_down s') = queued_ids s →
  w_active (s_worker s') = w_active (s_worker s) → up_replies (s_up s') = up_replies (s_up s) →
  s_settled s' = s_settled s → s_executed s' = s_executed s →
  channel_ok s → channel_ok s'.
Proof.
  intros E1 E2 E3 E4 E5 E6 E7 E8 E9 [Hn Hi Ho Hc Ht Hs Hb Ha He Hw].
  assert (Ex : executed_ids s' = executed_ids s) by (unfold executed_ids; by rewrite E9).
  assert (Eq : queued_ids s' = queued_ids s) by exact E5.
  assert (Ea : active_ids (s_worker s') = active_ids (s_worker s)) by (unfold active_ids; by rewrite E6).
  split; rewrite ?E1, ?E2, ?E3, ?E4, ?E8, ?E9, ?Ex, ?Eq, ?Ea; try done.
  - unfold in_flight. by rewrite Eq, Ea, E7.
  - rewrite E7. eapply Forall_impl; [exact Hw|]. intros p. unfold answered. by rewrite Ex.
Qed.

Lemma reply_ids id r s : (up_replies (s_up (reply id r s))).*1 = (up_replies (s_up s)).*1 ++ [id].
Proof. cbn. by rewrite up_replies_app, fmap_app. Qed.

Lemma post_ok s : channel_ok s → channel_ok (post s).
Proof.
  intros H. unfold post. destruct (c_waiting (s_client s)) as [|[[op args] epoch] waiting]; [done|].
  destruct (c_closed (s_client s)) eqn:Ecl; [by eapply same_ok; [..|exact H]; cbn|].
  destruct (c_ready (s_client s)); [|done]. destruct H as [Hn Hi Ho Hc Ht Hs Hb Ha He Hw].
  set (id := c_next (s_client s) + 1).
  assert (Hq : ∀ l, (q_id <$> w_queue (s_worker s)) ++ down_ids (s_down s ++ [MRequest l]) = queued_ids s ++ [q_id l]).
  { intros l. rewrite down_ids_app. by rewrite app_assoc. }
  split; cbn; try done; try lia.
  - replace (Z.to_nat id) with (S (Z.to_nat (c_next (s_client s)))) by lia.
    rewrite zrange_snoc, <- Hi. replace (1 + _) with id by lia.
    rewrite <- !app_assoc. apply Permutation_app_head. apply Permutation_app_comm.
  - intros _. unfold in_flight, queued_ids. cbn. rewrite Hq. cbn.
    rewrite (Ho Ecl). unfold in_flight. rewrite <- !app_assoc. apply Permutation_app_head.
    rewrite (app_assoc (active_ids _)). apply Permutation_app_comm.
  - by rewrite Ecl in Ht.
  - unfold queued_ids. cbn. rewrite Hq, app_assoc. apply StronglySorted_snoc. split; [exact Hs|].
    eapply Forall_impl; [exact Hb|]. cbn. lia.
  - unfold queued_ids. cbn. rewrite Hq, app_assoc. apply Forall_app. split; [|repeat constructor; cbn; lia].
    eapply Forall_impl; [exact Hb|]. cbn. lia.
Qed.

Lemma fail_ok e s : channel_ok s → channel_ok (fail e s).
Proof.
  intros [Hn Hi Ho Hc Ht Hs Hb Ha He Hw]. split; cbn; try done.
  - rewrite fmap_app, <- list_fmap_compose. cbn.
    change (fst ∘ (λ id : Z, (id, Throw e))) with (λ id : Z, id).
    rewrite list_fmap_id. by rewrite (Permutation_app_comm (s_settled s).*1).
  - apply Forall_app in Hw as [Hw1 Hw2]. rewrite <- app_assoc. apply Forall_app. split; [exact Hw1|].
    apply Forall_app. split; [|exact Hw2]. apply Forall_fmap, Forall_true. done.
Qed.

Lemma on_message_ok m up s : s_up s = m :: up → channel_ok s → channel_ok (on_message m (with_up up s)).
Proof.
  intros Eup H. assert (Hnote : (∀ id r, m ≠ MReply id r) → channel_ok (with_up up s)).
  { intros Hm. eapply same_ok; [..|exact H]; try done. cbn. rewrite Eup.
    destruct m; try done. by destruct (Hm id r). }
  destruct m as [id r| |message]; [|by apply Hnote|by apply fail_ok, Hnote]. clear Hnote.
  destruct H as [Hn Hi Ho Hc Ht Hs Hb Ha He Hw]. rewrite Eup in *.
  change (up_replies (MReply id r :: up)) with ((id, r) :: up_replies up) in *.
  assert (Hnd : NoDup (c_pending (s_client s) ++ (s_settled s).*1)) by (rewrite Hi; apply NoDup_zrange).
  apply NoDup_app in Hnd as (Hnd & Hdisj & _).
  apply Forall_app in Hw as [Hw1 Hw2]. apply Forall_cons in Hw2 as [Hr Hw2].
  cbn [on_message with_up s_client]. case_bool_decide as Hin.
  - destruct (c_closed (s_client s)) eqn:Ecl; [rewrite (Hc eq_refl) in Hin; by apply elem_of_nil in Hin|].
    assert (Hp : c_pending (s_client s) ≡ₚ id :: filter (λ i, i ≠ id) (c_pending (s_client s))).
    { clear -Hnd Hin. induction (c_pending (s_client s)) as [|x l IH]; [by apply elem_of_nil in Hin|].
      apply NoDup_cons in Hnd as [Hx Hnd]. rewrite filter_cons. case_decide as E.
      - apply elem_of_cons in Hin as [->|Hin]; [done|]. rewrite (IH Hnd Hin) at 1. constructor.
      - assert (x = id) as -> by (by destruct (decide (x = id))). constructor. rewrite filter_all; [done|].
        apply Forall_forall. by intros y Hy ->. }
    split; cbn; try done.
    + rewrite fmap_app. etrans; [|exact Hi].
      etrans; [|apply Permutation_app_tail; symmetry; exact Hp]. cbn.
      rewrite app_assoc. symmetry. apply Permutation_cons_append.
    + intros _. apply (Permutation_cons_inv (a := id)). etrans; [symmetry; exact Hp|].
      etrans; [exact (Ho eq_refl)|]. unfold in_flight. cbn. rewrite Eup. change (up_replies (MReply id r :: up)) with ((id, r) :: up_replies up).
      cbn. rewrite !app_assoc. by rewrite <- Permutation_middle.
    + apply Forall_app. split; [|exact Hw2]. apply Forall_app. split; [exact Hw1|]. by repeat constructor.
  - split; cbn; try done.
    + intros Ecl. exfalso. apply Hin. rewrite (Ho Ecl). unfold in_flight. rewrite Eup.
      change (up_replies (MReply id r :: up)) with ((id, r) :: up_replies up). set_solver.
    + apply Forall_app. done.
Qed.

Lemma handle_ok m down s : s_down s = m :: down → channel_ok s → channel_ok (handle m (with_down down s)).
Proof.
  intros Ed H. eapply same_ok; [..|exact H]; try by destruct m.
  unfold queued_ids. rewrite Ed. destruct m as [q|epoch]; [|done].
  change (down_ids (MRequest q :: down)) with (q_id q :: down_ids down).
  cbn. rewrite fmap_app. cbn. by rewrite <- app_assoc.
Qed.

(** A reply to the request at the head of the queue. *)
Lemma refuse_ok q queue r epoch active s :
  channel_ok s → w_active (s_worker s) = None → w_queue (s_worker s) = q :: queue →
  (∀ v, r ≠ Ok v) → channel_ok (reply (q_id q) r (with_worker (Worker queue None epoch active) s)).
Proof.
  intros [Hn Hi Ho Hc Ht Hs Hb Ha He Hw] Ea Eq Hr.
  assert (Hq : queued_ids s = q_id q :: (q_id <$> queue) ++ down_ids (s_down s)).
  { unfold queued_ids. by rewrite Eq. }
  split; try done.
  - intros Ecl. etrans; [exact (Ho Ecl)|]. unfold in_flight. rewrite reply_ids, Hq.
    unfold active_ids. rewrite Ea. cbn. unfold queued_ids. cbn.
    rewrite app_assoc. apply Permutation_cons_append.
  - rewrite Hq in Hs. unfold queued_ids, executed_ids in *. cbn.
    apply StronglySorted_app in Hs as (Hs1 & Hs2 & Hs3).
    apply StronglySorted_inv in Hs3 as [Hs3 _]. apply StronglySorted_app. split_and!; [|done|done].
    intros x y Hx Hy. apply Hs1; [done|]. by right.
  - rewrite Hq in Hb. unfold queued_ids, executed_ids in *. cbn.
    apply Forall_app in Hb as [Hb1 Hb2]. apply Forall_cons in Hb2 as [_ Hb2].
    by apply Forall_app.
  - by intros id ?%elem_of_nil.
  - cbn. rewrite up_replies_app, app_assoc. apply Forall_app. split; [exact Hw|].
    apply Forall_cons. split; [|constructor]. destruct r as [v|e]; [by destruct (Hr v)|done].
Qed.

Lemma channel_start_ok s : channel_ok s → channel_ok (start s).
Proof.
  intros H. unfold start. destruct (w_active (s_worker s)) as [a|] eqn:Ea; [done|].
  destruct (w_queue (s_worker s)) as [|q queue] eqn:Eq; [done|].
  destruct (s_initError s) as [e|]; [by eapply refuse_ok|].
  destruct (cancelled _) eqn:Ec; [by eapply refuse_ok|].
  destruct H as [Hn Hi Ho Hc Ht Hs Hb Ha He Hw].
  assert (Hq : queued_ids s = q_id q :: (q_id <$> queue) ++ down_ids (s_down s)).
  { unfold queued_ids. by rewrite Eq. }
  unfold executed_ids in *.
  split; unfold executed_ids; cbn [s_client s_settled s_executed s_up s_worker]; try done.
  - intros Ecl. etrans; [exact (Ho Ecl)|]. unfold in_flight. rewrite Hq. unfold active_ids. rewrite Ea. cbn.
    unfold queued_ids. cbn. by rewrite Permutation_middle.
  - rewrite fmap_app. cbn. rewrite Hq in Hs. by rewrite <- app_assoc.
  - rewrite fmap_app. cbn. rewrite Hq in Hb. by rewrite <- app_assoc.
  - intros id ->%list_elem_of_singleton. rewrite fmap_app. set_solver.
  - apply Forall_app. split; [done|]. apply Forall_cons. split; [|constructor].
    unfold cancelled in Ec. cbn in Ec. bools. cbn. split; [by symmetry|].
    destruct (s_view s) as [v|]; [|done]. by bools.
  - eapply Forall_impl; [exact Hw|]. intros p Hp. unfold answered, executed_ids in *. cbn.
    destruct (p.2); [|done]. rewrite fmap_app. set_solver.
Qed.

Lemma executed_ok r s : channel_ok s → channel_ok (executed r s).
Proof.
  intros H. unfold executed. destruct (w_active (s_worker s)) as [q|] eqn:Ea; [|done].
  destruct H as [Hn Hi Ho Hc Ht Hs Hb Ha He Hw].
  assert (Hex : q_id q ∈ executed_ids s).
  { apply Ha. unfold active_ids. rewrite Ea. constructor. }
  split; try done.
  - intros Ecl. etrans; [exact (Ho Ecl)|]. unfold in_flight. rewrite reply_ids.
    unfold active_ids. rewrite Ea. cbn. unfold queued_ids. cbn.
    apply Permutation_app_head, Permutation_cons_append.
  - by intros id ?%elem_of_nil.
  - cbn. rewrite up_replies_app, app_assoc. apply Forall_app. split; [exact Hw|].
    apply Forall_cons. split; [|constructor]. by destruct r.
Qed.

Lemma step_channel_ok s s' : channel_ok s → step s s' → channel_ok s'.
Proof.
  intros H. destruct 1 as [op args s|s|s|e s|s Hcl|m up s E|m s Hm|m down s Ht E|s|s Ht Hr|r s Ht].
  - by eapply same_ok; [..|exact H].
  - by apply post_ok.
  - eapply same_ok; [..|exact H]; try done. unfold queued_ids. cbn.
    rewrite down_ids_app. change (down_ids [MCancel _]) with (@nil Z). by rewrite app_nil_r.
  - by apply fail_ok.
  - by eapply same_ok; [..|exact H]; cbn.
  - by apply on_message_ok.
  - eapply same_ok; [..|exact H]; try done. cbn. rewrite up_replies_app.
    destruct m as [id r| |]; [by destruct (Hm id r)|apply app_nil_r|apply app_nil_r].
  - by apply handle_ok.
  - by eapply same_ok; [..|exact H].
  - by apply channel_start_ok.
  - by apply executed_ok.
Qed.

Lemma run_ok isolated initError s : run (new_system isolated initError) s → channel_ok s.
Proof. apply (rtc_invariant step channel_ok step_channel_ok), new_system_ok. Qed.

(** ** The claims *)



(** ** Executable runs *)
Inductive action :=
| ACall (op : string) (args : jsval) | APost | ACancel | AFail (e : exn) | AReady | AUp
| ADown | AInit | AStart | AExecuted (r : answer).

(** The step an action takes; [None] when it cannot happen. *)
Definition act (a : action) (s : system) : option system :=
  match a with
  | ACall op args => Some (call op args s)
  | APost => Some (post s)
  | ACancel => Some (cancel s)
  | AFail e => Some (fail e s)
  | AReady =>
      if c_closed (s_client s) then None else
      Some (with_client (Client (c_pending (s_client s)) (c_waiting (s_client s)) (c_next (s_client s))
        false true (c_cancelEpoch (s_client s)) (c_terminated (s_client s))) s)
  | AUp => match s_up s with m :: up => Some (on_message m (with_up up s)) | [] => None end
  | ADown =>
      if c_terminated (s_client s) then None else
      match s_down s with m :: down => Some (handle m (with_down down s)) | [] => None end
  | AInit => Some (System (s_client s) (s_worker s) (s_down s) (s_up s) (s_view s) true
      (s_initError s) (s_settled s) (s_executed s))
  | AStart => if c_terminated (s_client s) || negb (s_ready s) then None else Some (start s)
  | AExecuted r => if c_terminated (s_client s) then None else Some (executed r s)
  end.

Fixpoint act_all (l : list action) (s : system) : option system :=
  match l with
  | [] => Some s
  | a :: l => match act a s with Some s => act_all l s | None => None end
  end.

Lemma act_step a s s' : act a s = Some s' → step s s'.
Proof.
  destruct a; cbn; try (intros [= <-]; by constructor).
  - destruct (c_closed (s_client s)) eqn:E; [done|]. intros [= <-]. by constructor.
  - destruct (s_up s) as [|m up] eqn:E; [done|]. intros [= <-]. by constructor.
  - destruct (c_terminated (s_client s)) eqn:E; [done|].
    destruct (s_down s) as [|m down] eqn:Ed; [done|]. intros [= <-]. by constructor.
  - destruct (c_terminated (s_client s)) eqn:E; [done|].
    destruct (s_ready s) eqn:Er; [|done]. intros [= <-]. by constructor.
  - destruct (c_terminated (s_client s)) eqn:E; [done|]. intros [= <-]. by constructor.
Qed.

Lemma act_all_run l s s' : act_all l s = Some s' → run s s'.
Proof.
  revert s. induction l as [|a l IH]; intros s; cbn; [intros [= ->]; apply rtc_refl|].
  destruct (act a s) as [s1|] eqn:E; [|done]. intros H.
  eapply rtc_l; [by eapply act_step|by apply IH].
Qed.

(** A read, and a second one that is cancelled before it starts. *)
Definition demo_actions : list action :=
  [AReady; AInit; ACall "read" (JNum (NInt 0)); ACall "read" (JNum (NInt 512)); APost; APost;
   ADown; ADown; AStart; ACancel; AExecuted (Ok (JStr "data")); AStart; AUp; AUp; ADown].
Definition demo_state : system :=
  default (new_system true None) (act_all demo_actions (new_system true None)).

Lemma demo_run : run (new_system true None) demo_state.
Proof. apply (act_all_run demo_actions). vm_compute. reflexivity. Qed.


