(* ===== verification/DiskBuffer.v ===== *)
(** * The emulator's disk buffer (src/src/disk/web/client.js: DiskBuffer)

    [DiskBuffer] gives the emulator an asynchronous disk: requests are queued and
    one [pump] sends them to the Worker, one at a time.  A failed request stays at
    the head of the queue and stops the pump until [retry].

    A state is a point between two synchronous runs of the code; an event is the
    next thing that happens: a call of the emulator, the answer to the request in
    flight, the end of a callback or of [onError].  A callback may call the buffer
    again, which the [Calling] phase allows.  [request.bytes.fill(0)] wipes a copy
    nothing reads any more and is not represented; callbacks are taken not to
    throw. *)
From S2P Require Import Prelude.
#[local] Open Scope Z_scope.

Module DiskBuffer.

(** [r_caching] marks a request of [get_and_cache], whose callback keeps the boot
    sector; [r_callback] names the emulator's callback. *)
Record request := Request {
  r_offset : Z;
  r_length : Z;
  r_bytes : option bytes;
  r_caching : bool;
  r_callback : Z
}.

Inductive outcome := Served (data : bytes) | Rejected (error : exn).

(** Where [pump] is: not running, awaiting the client for a request, inside the
    callback of a finished request, or awaiting [onError]. *)
Inductive phase := Idle | Serving (r : request) | Calling | Failing.

Record buffer := Buffer {
  b_byteLength : Z;
  b_queue : list request;
  b_phase : phase;
  b_failed : bool;
  b_disposed : bool;
  b_error : option exn;
  b_bootSector : option bytes;
  b_resuming : nat;                      (** [retry]s that await [resumePrefetch] *)
  (** history *)
  b_accepted : list request;             (** requests that entered the queue *)
  b_calls : list (request * outcome);    (** the client's answers, in order *)
  b_completed : list (request * bytes);  (** callbacks made, in order *)
  b_rejected : bool                      (** the last [resumePrefetch] was rejected *)
}.

Definition new_buffer (size : Z) : buffer :=
  Buffer size [] Idle false false None None 0 [] [] [] false.

Definition pumping (b : buffer) : bool :=
  match b_phase b with Idle => false | _ => true end.

Definition with_phase (p : phase) (b : buffer) : buffer :=
  Buffer (b_byteLength b) (b_queue b) p (b_failed b) (b_disposed b) (b_error b) (b_bootSector b)
    (b_resuming b) (b_accepted b) (b_calls b) (b_completed b) (b_rejected b).
Definition with_boot (s : option bytes) (b : buffer) : buffer :=
  Buffer (b_byteLength b) (b_queue b) (b_phase b) (b_failed b) (b_disposed b) (b_error b) s
    (b_resuming b) (b_accepted b) (b_calls b) (b_completed b) (b_rejected b).
Definition with_failed (failed : bool) (e : option exn) (b : buffer) : buffer :=
  Buffer (b_byteLength b) (b_queue b) (b_phase b) failed (b_disposed b) e (b_bootSector b)
    (b_resuming b) (b_accepted b) (b_calls b) (b_completed b) (b_rejected b).
Definition with_queue (q : list request) (b : buffer) : buffer :=
  Buffer (b_byteLength b) q (b_phase b) (b_failed b) (b_disposed b) (b_error b) (b_bootSector b)
    (b_resuming b) (b_accepted b) (b_calls b) (b_completed b) (b_rejected b).
Definition with_accepted (l : list request) (b : buffer) : buffer :=
  Buffer (b_byteLength b) (b_queue b) (b_phase b) (b_failed b) (b_disposed b) (b_error b) (b_bootSector b)
    (b_resuming b) l (b_calls b) (b_completed b) (b_rejected b).
Definition with_calls (l : list (request * outcome)) (b : buffer) : buffer :=
  Buffer (b_byteLength b) (b_queue b) (b_phase b) (b_failed b) (b_disposed b) (b_error b) (b_bootSector b)
    (b_resuming b) (b_accepted b) l (b_completed b) (b_rejected b).
Definition with_completed (l : list (request * bytes)) (b : buffer) : buffer :=
  Buffer (b_byteLength b) (b_queue b) (b_phase b) (b_failed b) (b_disposed b) (b_error b) (b_bootSector b)
    (b_resuming b) (b_accepted b) (b_calls b) l (b_rejected b).
Definition with_resuming (n : nat) (rejected : bool) (b : buffer) : buffer :=
  Buffer (b_byteLength b) (b_queue b) (b_phase b) (b_failed b) (b_disposed b) (b_error b) (b_bootSector b)
    n (b_accepted b) (b_calls b) (b_completed b) rejected.

(** The loop of [pump]: its test, and the request it sends. *)
Definition loop (b : buffer) : buffer :=
  match b_queue b with
  | r :: _ => if negb (b_failed b) && negb (b_disposed b) then with_phase (Serving r) b
              else with_phase Idle b
  | [] => with_phase Idle b
  end.

Definition pump (b : buffer) : buffer :=
  if pumping b || b_failed b || b_disposed b then b else loop b.

Definition enqueue (r : request) (b : buffer) : buffer :=
  if b_disposed b then b
  else pump (with_accepted (b_accepted b ++ [r]) (with_queue (b_queue b ++ [r]) b)).

Definition get (offset length callback : Z) (b : buffer) : buffer :=
  enqueue (Request offset length None false callback) b.
Definition get_and_cache (offset length callback : Z) (b : buffer) : buffer :=
  enqueue (Request offset length None true callback) b.
Definition set (offset : Z) (data : bytes) (callback : Z) (b : buffer) : buffer :=
  enqueue (Request offset (byteLength data) (Some data) false callback)
    (if offset <? 512 then with_boot None b else b).

Definition get_from_cache (offset length : Z) (b : buffer) : option bytes :=
  match b_bootSector b with
  | Some s => if (0 <=? offset) && (offset + length <=? byteLength s)
              then Some (slice s offset (offset + length)) else None
  | None => None
  end.

(** The callback that [get] or [get_and_cache] queued. *)
Definition callback (r : request) (data : bytes) (b : buffer) : buffer :=
  let b := if r_caching r && (r_offset r =? 0) && (r_length r =? 512)
           then with_boot (Some data) b else b in
  with_completed (b_completed b ++ [(r, data)]) b.

(** The client's answer to the request in flight. *)
Definition answered (o : outcome) (b : buffer) : buffer :=
  match b_phase b with
  | Serving r =>
      let b := with_calls (b_calls b ++ [(r, o)]) b in
      match o with
      | Rejected e => with_phase Failing (with_failed true (Some e) b)
      | Served data =>
          if b_disposed b then with_phase Idle b
          else with_phase Calling (callback r data (with_queue (tail (b_queue b)) b))
      end
  | _ => b
  end.

(** The callback has returned: the loop goes on. *)
Definition called (b : buffer) : buffer :=
  match b_phase b with Calling => loop b | _ => b end.

(** The promise of [onError] has settled. *)
Definition error_handled (b : buffer) : buffer :=
  match b_phase b with Failing => with_phase Idle b | _ => b end.

(** [retry], up to its first [await]. *)
Definition retry (b : buffer) : result buffer :=
  if pumping b then throw_plain "Disk is still stopping"
  else if b_disposed b then throw_plain "Disk adapter is closed"
  else Ok (with_resuming (S (b_resuming b)) false (with_failed false None b)).

(** The rest of [retry], once [resumePrefetch] has settled. *)
Definition resumed (ok : bool) (b : buffer) : buffer :=
  match b_resuming b with
  | O => b
  | S n => if ok then pump (with_resuming n (b_rejected b) b) else with_resuming n true b
  end.

Definition fail (error : exn) (b : buffer) : buffer :=
  if b_failed b then b else with_failed true (Some error) b.

Definition dispose (b : buffer) : buffer :=
  Buffer (b_byteLength b) [] (b_phase b) (b_failed b) true (b_error b) None
    (b_resuming b) (b_accepted b) (b_calls b) (b_completed b) (b_rejected b).

(** One turn of [drain]: [None] is another wait. *)
Definition drain (b : buffer) : option (result unit) :=
  let unavailable := Throw (default (Exn None "Disk adapter unavailable") (b_error b)) in
  if b_failed b || b_disposed b then Some unavailable
  else if pumping b || negb (bool_decide (b_queue b = [])) then None
  else Some (Ok tt).

Definition get_state (snapshotReady : bool) (b : buffer) : result (Z * Z) :=
  if negb snapshotReady || pumping b || negb (bool_decide (b_queue b = [])) || b_failed b
  then throw_plain "Capture requires a stopped, drained disk"
  else Ok (1, b_byteLength b).

(** [set_state(state)] for an array of numbers; [None] is a value that is no
    array. *)
Definition set_state (snapshotReady : bool) (state : option (list Z)) (b : buffer) : result buffer :=
  match state with
  | Some [version; size] =>
      if snapshotReady && (version =? 1) && (size =? b_byteLength b)
      then Ok (with_boot None b) else throw_plain "Incompatible state disk adapter"
  | _ => throw_plain "Incompatible state disk adapter"
  end.

(** ** Events *)
Inductive event :=
| Get (offset length callback : Z)
| GetAndCache (offset length callback : Z)
| Set_ (offset : Z) (data : bytes) (callback : Z)
| Answered (o : outcome)
| Called
| ErrorHandled
| Retry
| Resumed (ok : bool)
| Failed (error : exn)
| Dispose
| SetState (snapshotReady : bool) (state : option (list Z)).

Definition act (e : event) (b : buffer) : buffer :=
  match e with
  | Get o l k => get o l k b
  | GetAndCache o l k => get_and_cache o l k b
  | Set_ o d k => set o d k b
  | Answered o => answered o b
  | Called => called b
  | ErrorHandled => error_handled b
  | Retry => match retry b with Ok b => b | Throw _ => b end
  | Resumed ok => resumed ok b
  | Failed e => fail e b
  | Dispose => dispose b
  | SetState r st => match set_state r st b with Ok b => b | Throw _ => b end
  end.

Definition run (l : list event) (b : buffer) : buffer := foldl (λ b e, act e b) b l.

(** The requests the client answered successfully. *)
Definition success (c : request * outcome) : option (request * bytes) :=
  match c.2 with Served d => Some (c.1, d) | Rejected _ => None end.

Definition successes (l : list (request * outcome)) : list (request * bytes) := omap success l.
#[local] Arguments successes l : simpl never.

(** Every answered request was the first one of the accepted requests that had
    not been answered successfully before. *)
Definition in_order (accepted : list request) (calls : list (request * outcome)) : Prop :=
  ∀ i r o, calls !! i = Some (r, o) → accepted !! length (successes (take i calls)) = Some r.

Lemma successes_app l1 l2 : successes (l1 ++ l2) = successes l1 ++ successes l2.
Proof. apply omap_app. Qed.

Lemma in_order_accept accepted calls r : in_order accepted calls → in_order (accepted ++ [r]) calls.
Proof. intros H i r' o Hi. apply lookup_app_l_Some. eauto. Qed.

Lemma in_order_answer accepted calls r o :
  in_order accepted calls → accepted !! length (successes calls) = Some r →
  in_order accepted (calls ++ [(r, o)]).
Proof.
  intros H Hr i r' o' Hi. destruct (decide (i < length calls)%nat) as [Hlt|Hge].
  - rewrite lookup_app_l in Hi by done. rewrite take_app_le by lia. eauto.
  - assert (i = length calls) as ->.
    { apply lookup_lt_Some in Hi. rewrite length_app in Hi. cbn in Hi. lia. }
    rewrite take_app_length. rewrite lookup_app_r, Nat.sub_diag in Hi by done.
    cbn in Hi. by injection Hi as <- <-.
Qed.

(** ** The invariant *)
Record inv (b : buffer) : Prop := {
  inv_open : b_disposed b = false →
    b_accepted b = (b_completed b).*1 ++ b_queue b ∧ b_completed b = successes (b_calls b);
  inv_disposed : b_disposed b = true →
    b_queue b = [] ∧ (b_completed b).*1 `prefix_of` b_accepted b ∧
    b_completed b `prefix_of` successes (b_calls b);
  inv_order : in_order (b_accepted b) (b_calls b);
  inv_serving r : b_phase b = Serving r →
    (b_disposed b = false → ∃ q, b_queue b = r :: q) ∧
    b_accepted b !! length (successes (b_calls b)) = Some r;
  inv_failing : b_phase b = Failing → b_failed b = true;
  inv_idle : b_phase b = Idle → b_failed b = false →
    b_queue b = [] ∨ (0 < b_resuming b)%nat ∨ b_rejected b = true
}.

(** The facts of the invariant that do not concern [pump]. *)
Record settled_inv (b : buffer) : Prop := {
  si_open : b_disposed b = false →
    b_accepted b = (b_completed b).*1 ++ b_queue b ∧ b_completed b = successes (b_calls b);
  si_disposed : b_disposed b = true →
    b_queue b = [] ∧ (b_completed b).*1 `prefix_of` b_accepted b ∧
    b_completed b `prefix_of` successes (b_calls b);
  si_order : in_order (b_accepted b) (b_calls b)
}.

Lemma inv_settled b : inv b → settled_inv b.
Proof. intros []. by split. Qed.

Lemma buffer_inv_new size : inv (new_buffer size).
Proof. split; cbn; try done; try (by auto). Qed.

Lemma inv_loop b : settled_inv b → inv (loop b).
Proof.
  intros [Ho Hd Hr]. unfold loop. destruct (b_queue b) as [|r q] eqn:Eq.
  { split; cbn; rewrite ?Eq; try done. by left. }
  destruct (b_failed b) eqn:Ef, (b_disposed b) eqn:Ed; cbn [negb andb];
    split; cbn; rewrite ?Eq, ?Ef, ?Ed; try done; try (by destruct (Hd eq_refl)).
  intros r' [= <-]. split; [by eauto|]. destruct (Ho eq_refl) as [Ha Hc].
  rewrite Ha, <- Hc. rewrite lookup_app_r by (by rewrite length_fmap).
  by rewrite length_fmap, Nat.sub_diag.
Qed.

Lemma inv_pump b :
  settled_inv b →
  (pumping b = true ∨ b_failed b = true ∨ b_disposed b = true → inv b) → inv (pump b).
Proof.
  intros Hs Hi. unfold pump. destruct (pumping b || b_failed b || b_disposed b) eqn:E.
  - apply Hi. apply orb_true_iff in E as [[?|?]%orb_true_iff|?]; auto.
  - by apply inv_loop.
Qed.

Lemma inv_enqueue r b : inv b → inv (enqueue r b).
Proof.
  intros Hi. unfold enqueue. destruct (b_disposed b) eqn:Ed; [done|].
  destruct Hi as [Ho Hd Hr Hsv Hf Hid].
  assert (Hs : settled_inv (with_accepted (b_accepted b ++ [r]) (with_queue (b_queue b ++ [r]) b))).
  { split; cbn; rewrite ?Ed; try done.
    - intros _. destruct (Ho Ed) as [-> ?]. by rewrite <- app_assoc.
    - by apply in_order_accept. }
  apply inv_pump; [done|]. intros Hp. destruct Hs as [Hso Hsd Hsr]. split; cbn in *; try done.
  - intros r' Hph. destruct (Hsv r' Hph) as [H1 H2]. split.
    + intros Hd'. destruct (H1 Hd') as [q ->]. by eexists.
    + by apply lookup_app_l_Some.
  - intros Hph Hfl. unfold pumping in Hp. cbn in Hp. rewrite Hph, Hfl, Ed in Hp. naive_solver.
Qed.

Lemma inv_boot s b : inv b → inv (with_boot s b).
Proof. by intros []. Qed.

Lemma inv_answered o b : inv b → inv (answered o b).
Proof.
  intros [Ho Hd Hr Hsv Hf Hid]. unfold answered. destruct (b_phase b) as [|r| |] eqn:Ep; try (by split; rewrite ?Ep).
  destruct (Hsv r eq_refl) as [Hq Ha].
  pose proof (in_order_answer _ _ _ o Hr Ha) as Hr'. destruct o as [d|e].
  - cbn. destruct (b_disposed b) eqn:Ed.
    + destruct (Hd eq_refl) as (Hq0 & Hc1 & Hc2). split; cbn; rewrite ?Ed; try done.
      * intros _. split_and!; [done|done|]. rewrite successes_app. by apply prefix_app_r.
      * intros _ _. by left.
    + destruct (Hq eq_refl) as [q Eq]. destruct (Ho eq_refl) as [Hacc Hc]. unfold callback. cbn.
      destruct (r_caching r && (r_offset r =? 0) && (r_length r =? 512)); split; cbn; rewrite ?Ed; try done;
        intros _; rewrite successes_app, fmap_app, Hacc, Eq, <- app_assoc; cbn; by rewrite Hc.
  - cbn. split; cbn; try done; rewrite successes_app; cbn; by rewrite app_nil_r.
Qed.

Lemma inv_act e b : inv b → inv (act e b).
Proof.
  intros Hi. destruct e as [o l k|o l k|o d k|o| | | |ok|er| |rd st]; cbn [act].
  - by apply inv_enqueue.
  - by apply inv_enqueue.
  - apply inv_enqueue. destruct (o <? 512); [by apply inv_boot|done].
  - by apply inv_answered.
  - unfold called. destruct (b_phase b) eqn:Ep; try done. by apply inv_loop, inv_settled.
  - unfold error_handled. destruct (b_phase b) eqn:Ep; try done. destruct Hi as [? ? ? ? Hf ?].
    split; cbn; try done. intros _. by rewrite Hf.
  - unfold retry. destruct (pumping b) eqn:Ep; [done|]. unfold pumping in Ep.
    destruct (b_disposed b) eqn:Ed; [done|]. destruct Hi as [? ? ? Hsv Hf Hid].
    destruct (b_phase b) eqn:E; try done. split; cbn; rewrite ?Ed, ?E; auto; try done. intros _ _. right. left. lia.
  - unfold resumed. destruct (b_resuming b) as [|n] eqn:En; [done|]. destruct ok.
    + apply inv_pump; destruct Hi as [? ? ? Hsv Hf Hid]; [by split|]. unfold pumping. cbn.
      intros Hp. split; cbn; try done. intros Hph Hfl. rewrite Hph, Hfl in Hp.
      destruct Hp as [?|[?|Hdd]]; try done. left. by apply inv_disposed0.
    + destruct Hi. split; cbn; try done. intros. by right; right.
  - unfold fail. destruct (b_failed b) eqn:Ef; [done|]. destruct Hi. by split.
  - destruct Hi as [Ho Hd Hr Hsv Hf Hid]. unfold dispose. split; cbn; try done.
    + intros _. destruct (b_disposed b) eqn:Ed; [by destruct (Hd eq_refl)|].
      destruct (Ho eq_refl) as [-> ->]. split_and!; [done| |done]. by eexists.
    + intros r Hp. destruct (Hsv r Hp). done.
    + by left.
  - unfold set_state. destruct st as [[|v [|sz [|]]]|]; try done.
    by destruct (rd && (v =? 1) && (sz =? b_byteLength b)); [apply inv_boot|].
Qed.

Lemma buffer_run_inv size l : inv (run l (new_buffer size)).
Proof.
  unfold run. generalize (buffer_inv_new size). generalize (new_buffer size).
  induction l as [|e l IH]; intros b H; cbn; [done|]. by apply IH, inv_act.
Qed.

(** ** The boot sector *)

(** An event that drops the boot sector. *)
Definition drops (e : event) (b : buffer) : Prop :=
  match e with
  | Set_ offset _ _ => offset < 512
  | Dispose => True
  | SetState r st => is_ok (set_state r st b) = true
  | _ => False
  end.

(** The callback of a [get_and_cache(0,512)] that has just kept [s]. *)
Definition keeps (s : bytes) (e : event) (b : buffer) : Prop :=
  e = Answered (Served s) ∧ b_disposed b = false ∧
  ∃ callback, b_phase b = Serving (Request 0 512 None true callback).

Lemma loop_boot b : b_bootSector (loop b) = b_bootSector b.
Proof.
  unfold loop. destruct (b_queue b); [done|]. by destruct (negb (b_failed b) && negb (b_disposed b)).
Qed.

Lemma pump_boot b : b_bootSector (pump b) = b_bootSector b.
Proof. unfold pump. destruct (pumping b || b_failed b || b_disposed b); [done|apply loop_boot]. Qed.

Lemma enqueue_boot r b : b_bootSector (enqueue r b) = b_bootSector b.
Proof. unfold enqueue. destruct (b_disposed b); [done|]. by rewrite pump_boot. Qed.

(** Requests that carry bytes come from [set], which never caches. *)
Definition well_formed (r : request) : Prop := r_caching r = true → r_bytes r = None.

Definition all_formed (b : buffer) : Prop :=
  Forall well_formed (b_queue b) ∧ ∀ r, b_phase b = Serving r → well_formed r.

Lemma loop_formed b : Forall well_formed (b_queue b) → all_formed (loop b).
Proof.
  intros H. unfold loop. destruct (b_queue b) eqn:E; [by split; cbn; rewrite ?E|].
  destruct (negb (b_failed b) && negb (b_disposed b)); split; cbn; rewrite ?E; try done.
  apply Forall_cons in H as [? _]. by intros ? [= <-].
Qed.

Lemma pump_formed b : all_formed b → all_formed (pump b).
Proof.
  intros H. unfold pump. destruct (pumping b || b_failed b || b_disposed b); [done|].
  by apply loop_formed, H.
Qed.

Lemma enqueue_formed r b : well_formed r → all_formed b → all_formed (enqueue r b).
Proof.
  intros Hr [H1 H2]. unfold enqueue. destruct (b_disposed b); [done|]. apply pump_formed.
  split; cbn; [|done]. apply Forall_app. by repeat constructor.
Qed.

Lemma act_formed e b : all_formed b → all_formed (act e b).
Proof.
  intros H. destruct e as [o l k|o l k|o d k|o| | | |ok|er| |rd st]; cbn [act].
  - by apply enqueue_formed.
  - by apply enqueue_formed.
  - apply enqueue_formed; [done|]. by destruct (o <? 512).
  - unfold answered. destruct (b_phase b) eqn:E; try done. destruct o; cbn.
    + destruct (b_disposed b); [by split; [apply H|]|]. destruct H as [H _].
      unfold callback. destruct (r_caching r && (r_offset r =? 0) && (r_length r =? 512));
        (split; cbn; [by destruct H|done]).
    + by split; [apply H|].
  - unfold called. destruct (b_phase b); try done. by apply loop_formed, H.
  - unfold error_handled. destruct (b_phase b); try done. by split; [apply H|].
  - unfold retry. by destruct (pumping b), (b_disposed b).
  - unfold resumed. destruct (b_resuming b); [done|]. destruct ok; [by apply pump_formed|done].
  - unfold fail. by destruct (b_failed b).
  - destruct H as [_ H]. by split.
  - unfold set_state. destruct st as [[|v [|sz [|]]]|]; try done.
    by destruct (rd && (v =? 1) && (sz =? b_byteLength b)).
Qed.

(** One event: the boot sector it leaves was kept by it, or was there before and
    is not dropped. *)
Lemma act_boot e b s :
  all_formed b → b_bootSector (act e b) = Some s →
  keeps s e b ∨ (b_bootSector b = Some s ∧ ¬ drops e b).
Proof.
  intros [_ Hf]. destruct e as [o l k|o l k|o d k|o| | | |ok|er| |rd st]; cbn [act drops].
  - unfold get. rewrite enqueue_boot. auto.
  - unfold get_and_cache. rewrite enqueue_boot. auto.
  - unfold set. rewrite enqueue_boot. destruct (o <? 512) eqn:E; bools; [done|]. intros. right. split; [done|lia].
  - unfold answered. destruct (b_phase b) as [|r| |] eqn:Ep; auto. destruct o as [d|e]; [|auto].
    cbn. destruct (b_disposed b) eqn:Ed; [auto|]. unfold callback.
    destruct (r_caching r && (r_offset r =? 0) && (r_length r =? 512)) eqn:Ec; [|auto].
    cbn. intros [= ->]. left. split_and!; try done. specialize (Hf r eq_refl). bools.
    destruct r as [o l by_ c k]. unfold well_formed in Hf. cbn in *. subst. rewrite (Hf eq_refl) in Ep. by exists k.
  - unfold called. destruct (b_phase b); try rewrite loop_boot; auto.
  - unfold error_handled. destruct (b_phase b); auto.
  - unfold retry. destruct (pumping b), (b_disposed b); auto.
  - unfold resumed. destruct (b_resuming b); [auto|]. destruct ok; [rewrite pump_boot|]; auto.
  - unfold fail. destruct (b_failed b); auto.
  - done.
  - destruct (set_state rd st b) eqn:E; [|auto]. revert E. unfold set_state.
    destruct st as [[|v [|sz [|]]]|]; try done.
    destruct (rd && (v =? 1) && (sz =? b_byteLength b)); [|done]. by intros [= <-].
Qed.

Lemma run_snoc l e b : run (l ++ [e]) b = act e (run l b).
Proof. unfold run. by rewrite foldl_app. Qed.

Lemma run_formed size l : all_formed (run l (new_buffer size)).
Proof.
  induction l as [|e l IH] using rev_ind; [by split|]. rewrite run_snoc. by apply act_formed.
Qed.

(** ** Properties *)

(** C19: the buffer is a queue.  Whatever the order of requests, answers, failures,
    retries and disposal, the client is called for the accepted requests in order:
    every call is for the first accepted request that has not succeeded yet, so a
    failed request is repeated and none is skipped or sent twice after it succeeded.
    Until disposal the callbacks made, with their data, are exactly the successful
    calls, and together with the queue they are the accepted requests; disposal
    empties the queue and no callback is made out of order. *)
Theorem disk_buffer_fifo (size : Z) (l : list event) :
  let b := run l (new_buffer size) in
  in_order (b_accepted b) (b_calls b) ∧
  (∀ r, b_phase b = Serving r → b_accepted b !! length (successes (b_calls b)) = Some r) ∧
  (if b_disposed b
   then b_queue b = [] ∧ (b_completed b).*1 `prefix_of` b_accepted b ∧
        b_completed b `prefix_of` successes (b_calls b)
   else b_accepted b = (b_completed b).*1 ++ b_queue b ∧ b_completed b = successes (b_calls b)).
Proof.
  cbv zeta. destruct (buffer_run_inv size l) as [Ho Hd Hr Hs _ _].
  split_and!; [done|intros r Hp; apply (Hs r Hp)|].
  destruct (b_disposed (run l (new_buffer size))); auto.
Qed.

(** A failed read is repeated before the write behind it. *)
Lemma disk_buffer_fifo_witness :
  let b := run [Get 0 4 1; Set_ 8 [9] 2; Answered (Rejected (Exn None "lost")); ErrorHandled; Retry;
                Resumed true; Answered (Served [1;2;3;4]); Called] (new_buffer 1024) in
  b_calls b = [(Request 0 4 None false 1, Rejected (Exn None "lost"));
               (Request 0 4 None false 1, Served [1;2;3;4])] ∧
  b_accepted b !! 1%nat = Some (Request 8 1 (Some [9]) false 2).
Proof.
  set (l := [Get 0 4 1; Set_ 8 [9] 2; Answered (Rejected (Exn None "lost")); ErrorHandled; Retry;
             Resumed true; Answered (Served [1;2;3;4]); Called]).
  destruct (disk_buffer_fifo 1024 l) as (_ & H & _). split; [reflexivity|].
  exact (H (Request 8 1 (Some [9]) false 2) eq_refl).
Defined.

(** The buffer never forgets a request.  When nothing runs, the buffer has not
    failed and no [retry] is still resuming the prefetch nor was cut short by a
    rejected resumption, the queue is empty; so [drain] reports success or a
    failure as soon as the pump stops, and a state is captured only when every
    accepted request has been answered. *)
Theorem disk_buffer_drains (size : Z) (l : list event) :
  let b := run l (new_buffer size) in
  (pumping b = false → b_failed b = false → b_resuming b = 0%nat → b_rejected b = false →
   b_queue b = [] ∧ drain b ≠ None) ∧
  (drain b = Some (Ok tt) →
   get_state true b = Ok (1, b_byteLength b) ∧ b_accepted b = (b_completed b).*1) ∧
  (∀ ready st, get_state ready b = Ok st →
   ready = true ∧ b_failed b = false ∧ pumping b = false ∧ b_queue b = [] ∧
   (b_disposed b = false → b_accepted b = (b_completed b).*1)).
Proof.
  cbv zeta. destruct (buffer_run_inv size l) as [Ho Hd Hr Hs Hf Hi].
  set (b := run l (new_buffer size)) in *. unfold drain, get_state. split_and!.
  - intros Hp Hfl Hrs Hrj. unfold pumping in Hp.
    assert (b_queue b = []) as Hq.
    { destruct (b_phase b); try done. destruct (Hi eq_refl Hfl) as [?|[?|?]]; [done|lia|congruence]. }
    split; [done|]. rewrite Hfl, Hq. unfold pumping. destruct (b_phase b), (b_disposed b); done.
  - destruct (b_failed b), (b_disposed b); cbn [orb]; try done.
    destruct (pumping b); [done|]. destruct (decide (b_queue b = [])) as [Hq|Hq];
      [rewrite bool_decide_eq_true_2 by done|by rewrite bool_decide_eq_false_2].
    cbn. intros _. split; [done|]. destruct (Ho eq_refl) as [-> _]. by rewrite Hq, app_nil_r.
  - intros ready st. destruct ready, (pumping b), (b_failed b); cbn [negb orb]; try done;
      rewrite ?orb_true_r; try done.
    destruct (decide (b_queue b = [])) as [Hq|Hq];
      [rewrite bool_decide_eq_true_2 by done|by rewrite bool_decide_eq_false_2].
    intros _. split_and!; try done. intros Hop. destruct (Ho Hop) as [-> _]. by rewrite Hq, app_nil_r.
Qed.

Lemma disk_buffer_drains_witness :
  let b := run [Get 0 4 1; Answered (Served [1;2;3;4]); Called] (new_buffer 1024) in
  b_queue b = [] ∧ b_accepted b = (b_completed b).*1.
Proof.
  set (l := [Get 0 4 1; Answered (Served [1;2;3;4]); Called]).
  destruct (disk_buffer_drains 1024 l) as (H1 & H2 & _).
  exact (conj (proj1 (H1 eq_refl eq_refl eq_refl eq_refl)) (proj2 (H2 eq_refl))).
Defined.

(** [get_from_cache] serves only bytes that the disk returned.  A boot sector in
    the cache is the answer to a [get_and_cache(0,512)] request, and since that
    answer no write to the first 512 bytes was requested, no state was restored
    and the buffer was not disposed of. *)
Theorem bootSector_provenance (size : Z) (l : list event) (offset length : Z) (data : bytes) :
  get_from_cache offset length (run l (new_buffer size)) = Some data →
  ∃ s l1 e l2,
    data = slice s offset (offset + length) ∧ l = l1 ++ e :: l2 ∧
    keeps s e (run l1 (new_buffer size)) ∧
    ∀ l3 e' l4, l2 = l3 ++ e' :: l4 → ¬ drops e' (run (l1 ++ e :: l3) (new_buffer size)).
Proof.
  unfold get_from_cache. destruct (b_bootSector (run l (new_buffer size))) as [s|] eqn:Eb; [|done].
  destruct ((0 <=? offset) && (offset + length <=? byteLength s)); [|done]. intros [= <-].
  exists s. revert Eb. induction l as [|e l IH] using rev_ind; [done|]. rewrite run_snoc.
  intros [Hk|[Hb Hnd]]%act_boot; [| |apply run_formed].
  - exists l, e, []. split_and!; try done. intros l3 e' l4 Hn. by destruct l3.
  - destruct (IH Hb) as (l1 & e1 & l2 & _ & -> & Hk & Hno). exists l1, e1, (l2 ++ [e]).
    split_and!; [done|by rewrite <- app_assoc|done|].
    intros l3 e' l4 Heq. destruct l4 as [|x l4 _] using rev_ind.
    + apply app_inj_tail in Heq as [-> ->]. done.
    + rewrite app_comm_cons, app_assoc in Heq. apply app_inj_tail in Heq as [-> _]. by eapply Hno.
Qed.

Lemma bootSector_provenance_witness :
  ∃ s l1 e l2, [7;8;9] = slice s 1 (1 + 3) ∧
    [GetAndCache 0 512 1; Answered (Served [6;7;8;9]); Called; Set_ 512 [0] 2] = l1 ++ e :: l2 ∧
    keeps s e (run l1 (new_buffer 1024)) ∧
    ∀ l3 e' l4, l2 = l3 ++ e' :: l4 → ¬ drops e' (run (l1 ++ e :: l3) (new_buffer 1024)).
Proof. apply (bootSector_provenance 1024 _ 1 3). reflexivity. Defined.

(** A write to the boot sector that is requested while a [get_and_cache(0,512)] is
    in flight does not keep the older bytes out of the cache: they stay there once
    the write has been carried out. *)
Example stale_boot_sector :
  let b := run [GetAndCache 0 512 1; Set_ 0 [1] 2; Answered (Served [0;0]); Called; Answered (Served []);
                Called] (new_buffer 1024) in
  b_completed b = [(Request 0 512 None true 1, [0;0]); (Request 0 1 (Some [1]) false 2, [])] ∧
  get_from_cache 0 2 b = Some [0;0].
Proof. by vm_compute. Qed.

(** When the resumption of the prefetch is rejected, [retry] leaves a buffer that
    has not failed and does not pump: [drain] waits for a request to come. *)
Example rejected_resumption :
  let b := run [Get 0 4 1; Answered (Rejected (Exn None "lost")); ErrorHandled; Retry; Resumed false]
             (new_buffer 1024) in
  b_failed b = false ∧ pumping b = false ∧ b_queue b = [Request 0 4 None false 1] ∧ drain b = None.
Proof. by vm_compute. Qed.

End DiskBuffer.
