(* ===== verification/TouchInput.v ===== *)
(** * Touch input and fullscreen (src/src/browser/vm-input.js)

    [setupTouch] turns touch gestures into messages of the emulator's mouse bus;
    [setupFullscreen] keeps the expanded view and the browser's fullscreen in step.
    Each function is modelled as the state of its closure and one definition per
    event listener.  Focus, labels, icons and the size of the view are effects on
    the page that no listener reads back; they are left out. *)
From S2P Require Import Prelude.
#[local] Open Scope Z_scope.

Module Touch.

(** ** State *)

(** Coordinates and distances are numbers of 2^-20 pixels. *)
Definition pixel : Z := 2 ^ 20.

Record gesture := Gesture {
  g_id : Z;               (** the pointer *)
  g_vm : Z;               (** the machine the gesture began on *)
  g_x : Z;
  g_y : Z;
  g_distance : Z;
  g_started : Z;          (** milliseconds *)
  g_dragging : bool
}.

(** A message on the bus of a machine; [Click] holds the three buttons. *)
Inductive message :=
| Click (left middle right : bool)
| PointerLock (locked : bool)
| Delta (dx dy : Z).

Record touch := TouchState {
  t_gesture : option gesture;
  t_dragArmed : bool;                 (** also the button's [aria-pressed] *)
  t_captured : list Z;                (** the pointers the display has captured *)
  t_sent : list (Z * message)         (** messages to each machine, in order *)
}.

Definition new_touch : touch := TouchState None false [] [].

(** [vm.bus.send]. *)
Definition send (vm : Z) (m : message) (t : touch) : touch :=
  TouchState (t_gesture t) (t_dragArmed t) (t_captured t) (t_sent t ++ [(vm, m)]).
Definition with_gesture (g : option gesture) (t : touch) : touch :=
  TouchState g (t_dragArmed t) (t_captured t) (t_sent t).
Definition with_captured (l : list Z) (t : touch) : touch :=
  TouchState (t_gesture t) (t_dragArmed t) l (t_sent t).

(** ** Operations *)
Definition arm (value : bool) (t : touch) : touch :=
  TouchState (t_gesture t) value (t_captured t) (t_sent t).

(** [releasePointerCapture], guarded by [hasPointerCapture]. *)
Definition release_capture (id : Z) (t : touch) : touch :=
  if bool_decide (id ∈ t_captured t)
  then with_captured (filter (λ i, i ≠ id) (t_captured t)) t else t.

Definition release (t : touch) : touch :=
  let t' := with_gesture None t in
  arm false
    match t_gesture t with
    | Some previous =>
        release_capture (g_id previous)
          (if g_dragging previous then send (g_vm previous) (Click false false false) t' else t')
    | None => t'
    end.

Definition click (vm : Z) (secondary : bool) (t : touch) : touch :=
  send vm (Click false false false) (send vm (Click (negb secondary) false secondary) t).

(** [Math.hypot]. *)
Definition hypot (dx dy : Z) : Z := Z.sqrt (dx * dx + dy * dy).

(** ** Event listeners

    [vm] is what [machine()] returns during the event: the running machine. *)

(** [pointerdown] of a pointer that is not the mouse. *)
Definition pointerdown (vm : option Z) (id : Z) (isPrimary : bool) (x y now : Z) (t : touch) : touch :=
  match t_gesture t with
  | Some _ => release t
  | None =>
      match vm with
      | Some vm =>
          if negb isPrimary then t
          else
            let t := with_captured (t_captured t ++ [id]) t in
            let t := with_gesture (Some (Gesture id vm x y 0 now (t_dragArmed t))) t in
            let t := send vm (PointerLock true) t in
            if t_dragArmed t then send vm (Click true false false) t else t
      | None => t
      end
  end.

Definition pointermove (vm : option Z) (id x y : Z) (t : touch) : touch :=
  match t_gesture t with
  | Some g =>
      if negb (g_id g =? id) then t
      else if bool_decide (vm ≠ Some (g_vm g)) then release t
      else
        let dx := x - g_x g in
        let dy := y - g_y g in
        let g' := Gesture (g_id g) (g_vm g) x y (g_distance g + hypot dx dy) (g_started g) (g_dragging g) in
        send (g_vm g) (Delta dx (- dy)) (with_gesture (Some g') t)
  | None => t
  end.

Definition tap (g : gesture) (now : Z) : bool :=
  negb (g_dragging g) && (g_distance g <=? 8 * pixel) && (now - g_started g <? 350).

Definition pointerup (vm : option Z) (id now : Z) (t : touch) : touch :=
  match t_gesture t with
  | Some g =>
      if negb (g_id g =? id) then t
      else
        let t := release t in
        if tap g now && bool_decide (vm = Some (g_vm g)) then click (g_vm g) false t else t
  | None => t
  end.

(** [pointercancel] and [lostpointercapture]. *)
Definition pointercancel (id : Z) (t : touch) : touch :=
  match t_gesture t with
  | Some g => if g_id g =? id then release t else t
  | None => t
  end.

(** [pointerdown] of the mouse. *)
Definition mousedown (vm : option Z) (locked : bool) (t : touch) : touch :=
  let t := release t in
  match vm with Some vm => send vm (PointerLock locked) t | None => t end.

Definition drag_click (vm : option Z) (t : touch) : touch :=
  let next := negb (t_dragArmed t) in
  let t := release t in
  match vm with Some _ => arm next t | None => t end.

Definition right_click (vm : option Z) (t : touch) : touch :=
  let t := release t in
  match vm with Some vm => click vm true t | None => t end.

Inductive event :=
| PointerDown (vm : option Z) (id : Z) (isPrimary : bool) (x y now : Z)
| PointerMove (vm : option Z) (id x y : Z)
| PointerUp (vm : option Z) (id now : Z)
| PointerCancel (id : Z)
| CaptureLost (id : Z)                (** the browser ends a capture *)
| MouseDown (vm : option Z) (locked : bool)
| DragButton (vm : option Z)
| RightButton (vm : option Z)
| Blur
| VisibilityChange (hidden : bool)
| Release.                            (** the [release] that [setupTouch] returns *)

Definition handle (e : event) (t : touch) : touch :=
  match e with
  | PointerDown vm id p x y now => pointerdown vm id p x y now t
  | PointerMove vm id x y => pointermove vm id x y t
  | PointerUp vm id now => pointerup vm id now t
  | PointerCancel id => pointercancel id t
  | CaptureLost id => pointercancel id (with_captured (filter (λ i, i ≠ id) (t_captured t)) t)
  | MouseDown vm locked => mousedown vm locked t
  | DragButton vm => drag_click vm t
  | RightButton vm => right_click vm t
  | Blur => release t
  | VisibilityChange hidden => if hidden then release t else t
  | Release => release t
  end.

Definition run (l : list event) : touch := foldl (λ t e, handle e t) new_touch l.

(** ** The guest's view: the buttons a machine holds after the messages sent *)
Definition held_step (vm : Z) (held : bool * bool * bool) (m : Z * message) : bool * bool * bool :=
  match m with
  | (vm', Click l mid r) => if vm' =? vm then (l, mid, r) else held
  | _ => held
  end.
Definition held (vm : Z) (sent : list (Z * message)) : bool * bool * bool :=
  foldl (held_step vm) (false, false, false) sent.

(** The buttons the closure means the machine to hold. *)
Definition intended (vm : Z) (t : touch) : bool * bool * bool :=
  match t_gesture t with
  | Some g => (g_dragging g && (g_vm g =? vm), false, false)
  | None => (false, false, false)
  end.

#[local] Arguments held vm sent : simpl never.

Lemma touch_held_snoc vm l m : held vm (l ++ [m]) = held_step vm (held vm l) m.
Proof. unfold held. by rewrite foldl_app. Qed.

Definition inv (t : touch) : Prop :=
  (∀ vm, held vm (t_sent t) = intended vm t) ∧
  (∀ id, id ∈ t_captured t → ∃ g, t_gesture t = Some g ∧ g_id g = id).

Lemma inv_send vm m t :
  (∀ v, held_step v (intended v t) (vm, m) = intended v t) → inv t → inv (send vm m t).
Proof.
  intros Hm [H1 H2]. split; [|exact H2]. intros v. cbn. rewrite touch_held_snoc, H1. apply Hm.
Qed.

Lemma inv_lock vm b t : inv t → inv (send vm (PointerLock b) t).
Proof. by apply inv_send. Qed.

Lemma inv_arm v t : inv t → inv (arm v t).
Proof. done. Qed.

Lemma release_fields t :
  t_gesture (release t) = None ∧ t_dragArmed (release t) = false.
Proof.
  unfold release, release_capture. split; [|done]. destruct (t_gesture t) as [g|]; [|done].
  cbn. case_bool_decide; cbn; by destruct (g_dragging g).
Qed.

Lemma release_sent t :
  t_sent (release t) = t_sent t ++
    match t_gesture t with
    | Some g => if g_dragging g then [(g_vm g, Click false false false)] else []
    | None => []
    end.
Proof.
  unfold release, release_capture. destruct (t_gesture t) as [g|]; cbn; [|by rewrite app_nil_r].
  case_bool_decide; cbn; destruct (g_dragging g); cbn; by rewrite ?app_nil_r.
Qed.

Lemma release_captured t :
  t_captured (release t) =
    match t_gesture t with
    | Some g => filter (λ i, i ≠ g_id g) (t_captured t)
    | None => t_captured t
    end.
Proof.
  unfold release, release_capture. destruct (t_gesture t) as [g|]; [|done].
  assert (∀ b : bool, t_captured (if b then send (g_vm g) (Click false false false) (with_gesture None t)
                       else with_gesture None t) = t_captured t) as Hc by by intros [].
  rewrite Hc. case_bool_decide as Hin; [done|]. cbn. rewrite Hc.
  symmetry. apply filter_all. apply Forall_forall. by intros i Hi ->.
Qed.

Lemma touch_inv_release t : inv t → inv (release t).
Proof.
  intros [H1 H2]. destruct (release_fields t) as [Hg _]. split.
  - intros vm. unfold intended at 1. rewrite Hg, release_sent. specialize (H1 vm). unfold intended in H1.
    destruct (t_gesture t) as [g|]; [|by rewrite app_nil_r].
    destruct (g_dragging g); [|by rewrite app_nil_r]. rewrite touch_held_snoc, H1. cbn.
    by destruct (g_vm g =? vm).
  - intros id. rewrite release_captured, Hg. destruct (t_gesture t) as [g|] eqn:Eg.
    + intros [Hne Hin]%list_elem_of_filter. destruct (H2 id Hin) as (g' & [= <-] & <-). done.
    + intros Hin. by destruct (H2 id Hin) as (g' & ? & _).
Qed.

Lemma inv_click vm s t : t_gesture t = None → inv t → inv (click vm s t).
Proof.
  intros Hg [H1 H2]. split; [|intros id Hid; destruct (H2 id Hid) as (g & Hg2 & _); congruence].
  intros v. unfold click. cbn. rewrite !touch_held_snoc. specialize (H1 v).
  unfold intended in *. cbn. rewrite Hg in H1 |- *. cbn. by destruct (vm =? v).
Qed.

Lemma touch_inv_handle e t : inv t → inv (handle e t).
Proof.
  intros Hi. destruct e as [vm id p x y now|vm id x y|vm id now|id|id|vm b|vm|vm| |h|]; cbn [handle].
  - unfold pointerdown. destruct (t_gesture t) as [g|] eqn:Eg; [by apply touch_inv_release|].
    destruct vm as [vm|]; [|done]. destruct p; [|done]. cbn [negb].
    destruct Hi as [H1 H2]. cbn. assert (∀ v, held v (t_sent t) = (false, false, false)) as H0.
    { intros v. rewrite H1. unfold intended. by rewrite Eg. }
    assert (t_captured t = []) as Hc.
    { destruct (t_captured t) as [|i l]; [done|]. destruct (H2 i) as (? & ? & _); [constructor|congruence]. }
    destruct (t_dragArmed t); split; cbn; rewrite ?Hc;
      try (intros i ->%list_elem_of_singleton; by eexists);
      intros v; rewrite !touch_held_snoc, H0; cbn; by destruct (vm =? v).
  - unfold pointermove. destruct (t_gesture t) as [g|] eqn:Eg; [|done].
    destruct (negb (g_id g =? id)); [done|]. case_bool_decide; [by apply touch_inv_release|].
    apply inv_send; [done|]. destruct Hi as [H1 H2]. split.
    + intros v. cbn. rewrite H1. unfold intended. by rewrite Eg.
    + intros i Hi. destruct (H2 i Hi) as (g' & Hg' & <-). rewrite Eg in Hg'. injection Hg' as <-. by eexists.
  - unfold pointerup. destruct (t_gesture t) as [g|] eqn:Eg; [|done].
    destruct (negb (g_id g =? id)); [done|].
    destruct (tap g now && bool_decide (vm = Some (g_vm g))); [|by apply touch_inv_release].
    apply inv_click; [apply release_fields|by apply touch_inv_release].
  - unfold pointercancel. destruct (t_gesture t) as [g|]; [|done].
    destruct (g_id g =? id); [by apply touch_inv_release|done].
  - assert (inv (with_captured (filter (λ i, i ≠ id) (t_captured t)) t)) as Hi'.
    { destruct Hi as [H1 H2]. split; [done|]. cbn. intros i [_ Hi]%list_elem_of_filter. auto. }
    unfold pointercancel. destruct (t_gesture _) as [g|]; [|done].
    destruct (g_id g =? id); [by apply touch_inv_release|done].
  - unfold mousedown. destruct vm; [apply inv_lock|]; by apply touch_inv_release.
  - unfold drag_click. destruct vm; [apply inv_arm|]; by apply touch_inv_release.
  - unfold right_click. destruct vm; [|by apply touch_inv_release].
    apply inv_click; [apply release_fields|by apply touch_inv_release].
  - by apply touch_inv_release.
  - destruct h; [by apply touch_inv_release|done].
  - by apply touch_inv_release.
Qed.

Lemma touch_run_inv l : inv (run l).
Proof.
  induction l as [|e l IH] using rev_ind; [split; cbn; [done|by intros ? ?%elem_of_nil]|].
  unfold run. rewrite foldl_app. by apply touch_inv_handle.
Qed.

(** The events after which nothing may be held. *)
Definition releases (e : event) (t : touch) : bool :=
  match e with
  | Blur | Release | MouseDown _ _ | RightButton _ | DragButton _ => true
  | VisibilityChange hidden => hidden
  | PointerUp _ id _ | PointerCancel id | CaptureLost id =>
      match t_gesture t with Some g => g_id g =? id | None => true end
  | PointerDown _ _ _ _ _ _ => match t_gesture t with Some _ => true | None => false end
  | PointerMove vm id _ _ =>
      match t_gesture t with
      | Some g => (g_id g =? id) && bool_decide (vm ≠ Some (g_vm g))
      | None => true
      end
  end.

Lemma releases_gesture e t : releases e t = true → t_gesture (handle e t) = None.
Proof.
  destruct (release_fields t) as [Hr _].
  destruct e as [vm id p x y now|vm id x y|vm id now|id|id|vm b|vm|vm| |h|]; cbn [handle releases].
  - unfold pointerdown. by destruct (t_gesture t).
  - unfold pointermove. destruct (t_gesture t) as [g|] eqn:Eg; [|by rewrite Eg].
    intros [-> ->]%andb_true_iff. done.
  - unfold pointerup. destruct (t_gesture t) as [g|] eqn:Eg; [|by rewrite Eg]. intros ->. cbn [negb].
    destruct (tap g now && bool_decide (vm = Some (g_vm g))); done.
  - unfold pointercancel. destruct (t_gesture t) as [g|] eqn:Eg; [by intros ->|by rewrite Eg].
  - unfold pointercancel. cbn. destruct (t_gesture t) as [g|] eqn:Eg; [intros ->|done]. apply release_fields.
  - by destruct vm.
  - by destruct vm.
  - by destruct vm.
  - done.
  - by intros ->.
  - done.
Qed.

(** ** Properties *)

(** No mouse button sticks.  After any sequence of events each machine holds
    exactly the buttons the gesture in progress means it to hold: the left one while
    a drag that began on that machine is in progress, and none otherwise.  A lifted,
    cancelled or lost pointer, a second finger, a blur, a hidden page, a mouse, a
    button of the toolbar and a machine that stopped all end the gesture, and then
    every machine holds nothing and no pointer stays captured. *)
Theorem no_stuck_button (l : list event) :
  (∀ vm, held vm (t_sent (run l)) = intended vm (run l)) ∧
  (∀ e, releases e (run l) = true →
    t_captured (run (l ++ [e])) = [] ∧ ∀ vm, held vm (t_sent (run (l ++ [e]))) = (false, false, false)).
Proof.
  split; [apply touch_run_inv|]. intros e He.
  destruct (touch_run_inv (l ++ [e])) as [H1 H2].
  assert (t_gesture (run (l ++ [e])) = None) as Hg.
  { unfold run. rewrite foldl_app. by apply releases_gesture. }
  split.
  - destruct (t_captured _) as [|i c]; [done|]. destruct (H2 i) as (? & ? & _); [constructor|congruence].
  - intros vm. rewrite H1. unfold intended. by rewrite Hg.
Qed.

(** An armed drag whose window loses the focus. *)
Lemma no_stuck_button_witness :
  let l := [DragButton (Some 1); PointerDown (Some 1) 7 true 0 0 0; PointerMove (Some 1) 7 40 0] in
  held 1 (t_sent (run l)) = (true, false, false) ∧ held 1 (t_sent (run (l ++ [Blur]))) = (false, false, false).
Proof.
  cbv zeta. set (l := [DragButton (Some 1); PointerDown (Some 1) 7 true 0 0 0; PointerMove (Some 1) 7 40 0]).
  destruct (no_stuck_button l) as [H1 H2]. split; [exact (H1 1)|]. exact (proj2 (H2 Blur eq_refl) 1).
Defined.

(** ** A whole gesture *)

(** The movements of a gesture that starts at [(x,y)] and visits [path]. *)
Fixpoint deltas (vm x y : Z) (path : list (Z * Z)) : list (Z * message) :=
  match path with
  | [] => []
  | (x', y') :: path => (vm, Delta (x' - x) (- (y' - y))) :: deltas vm x' y' path
  end.

(** The length of the way. *)
Fixpoint travelled (x y : Z) (path : list (Z * Z)) : Z :=
  match path with
  | [] => 0
  | (x', y') :: path => hypot (x' - x) (y' - y) + travelled x' y' path
  end.

Definition moves (vm id : Z) (path : list (Z * Z)) : list event :=
  (λ p, PointerMove (Some vm) id p.1 p.2) <$> path.

Definition run_from (t : touch) (l : list event) : touch := foldl (λ t e, handle e t) t l.

Lemma run_moves vm id path x y d s a t :
  t_gesture t = Some (Gesture id vm x y d s a) →
  let t' := run_from t (moves vm id path) in
  t_sent t' = t_sent t ++ deltas vm x y path ∧ t_captured t' = t_captured t ∧
  ∃ x' y', t_gesture t' = Some (Gesture id vm x' y' (d + travelled x y path) s a).
Proof.
  revert x y d t. induction path as [|[x' y'] path IH]; intros x y d t Hg; cbn.
  - rewrite app_nil_r, Z.add_0_r. eauto.
  - set (g' := Gesture id vm x' y' (d + hypot (x' - x) (y' - y)) s a).
    set (t1 := send vm (Delta (x' - x) (- (y' - y))) (with_gesture (Some g') t)).
    assert (handle (PointerMove (Some vm) id x' y') t = t1) as He.
    { cbn [handle]. unfold pointermove. rewrite Hg. cbn [g_id g_vm]. by rewrite Z.eqb_refl, bool_decide_eq_false_2 by naive_solver. }
    cbn [handle] in He. rewrite He. destruct (IH x' y' (d + hypot (x' - x) (y' - y)) t1 eq_refl) as (H1 & H2 & H3).
    split_and!.
    + etrans; [exact H1|]. cbn. by rewrite <- app_assoc.
    + etrans; [exact H2|]. done.
    + destruct H3 as (x2 & y2 & H3). exists x2, y2. etrans; [exact H3|]. by rewrite Z.add_assoc.
Qed.

(** What one finger sends.  From a state without a gesture, a primary pointer
    that goes down on a running machine, follows a path and is lifted sends the
    relative mode, one relative movement for each point of the path (upwards
    positive) and, depending on the drag button, either the left button around the
    movements or, when the way is at most 8 pixels and took less than 350 ms, a
    click after them; then nothing is armed, captured or held. *)
Theorem gesture_messages (t : touch) (vm id x y down up : Z) (path : list (Z * Z)) :
  t_gesture t = None → t_captured t = [] →
  let armed := t_dragArmed t in
  let t' := run_from t (PointerDown (Some vm) id true x y down :: moves vm id path ++
                        [PointerUp (Some vm) id up]) in
  let short := (travelled x y path <=? 8 * pixel) && (up - down <? 350) in
  t_sent t' = t_sent t ++ [(vm, PointerLock true)] ++
    (if armed then [(vm, Click true false false)] else []) ++ deltas vm x y path ++
    (if armed then [(vm, Click false false false)]
     else if short then [(vm, Click true false false); (vm, Click false false false)] else []) ∧
  t_gesture t' = None ∧ t_dragArmed t' = false ∧ t_captured t' = [].
Proof.
  intros Hg Hc. cbv zeta.
  unfold run_from at 1 2 3 4. cbn [foldl handle].
  set (t1 := pointerdown (Some vm) id true x y down t).
  assert (t_gesture t1 = Some (Gesture id vm x y 0 down (t_dragArmed t)) ∧ t_captured t1 = [id] ∧
    t_sent t1 = t_sent t ++ [(vm, PointerLock true)] ++
      (if t_dragArmed t then [(vm, Click true false false)] else [])) as (Hg1 & Hc1 & Hs1).
  { unfold t1, pointerdown. rewrite Hg. cbn. rewrite Hc. destruct (t_dragArmed t); cbn; [|done].
    by rewrite <- app_assoc. }
  clearbody t1. rewrite foldl_app. fold (run_from t1 (moves vm id path)).
  destruct (run_moves vm id path _ _ _ _ _ _ Hg1) as (Hs2 & Hc2 & x' & y' & Hg2).
  set (t2 := run_from t1 (moves vm id path)) in *. clearbody t2.
  cbn [foldl handle]. unfold pointerup. rewrite Hg2. cbn [g_id g_vm]. rewrite Z.eqb_refl. cbn [negb].
  rewrite (bool_decide_eq_true_2 (Some vm = Some vm)) by done. rewrite andb_true_r.
  destruct (release_fields t2) as [Hr1 Hr2]. pose proof (release_sent t2) as Hr3.
  pose proof (release_captured t2) as Hr4. rewrite Hg2 in Hr3, Hr4. cbn [g_dragging g_vm g_id] in Hr3, Hr4.
  rewrite Hc2, Hc1, filter_none in Hr4 by (repeat constructor; cbn; congruence).
  set (t3 := release t2) in *. clearbody t3.
  unfold tap. cbn [g_dragging g_distance g_started]. rewrite Z.add_0_l.
  destruct (t_dragArmed t) eqn:Ea; cbn [negb andb].
  - rewrite Hr3, Hs2, Hs1, <- !app_assoc. done.
  - destruct ((travelled x y path <=? 8 * pixel) && (up - down <? 350)).
    + unfold click, send. cbn [t_sent t_gesture t_dragArmed t_captured]. rewrite Hr3, Hs2, Hs1, <- !app_assoc. done.
    + rewrite Hr3, Hs2, Hs1, <- !app_assoc. done.
Qed.

Lemma gesture_messages_witness :
  t_sent (run_from new_touch
    [PointerDown (Some 1) 3 true 0 0 10; PointerMove (Some 1) 3 (3 * pixel) (4 * pixel); PointerUp (Some 1) 3 200]) =
  [(1, PointerLock true); (1, Delta (3 * pixel) (- (4 * pixel))); (1, Click true false false);
   (1, Click false false false)].
Proof.
  exact (proj1 (gesture_messages new_touch 1 3 0 0 10 200 [(3 * pixel, 4 * pixel)] eq_refl eq_refl)).
Defined.

End Touch.

Module Fullscreen.

(** [document.fullscreenElement], as far as the code looks at it. *)
Inductive element := NoElement | View | OtherElement.

#[export] Instance element_eq_dec : EqDecision element.
Proof. solve_decision. Defined.

Record view := ViewState {
  v_expanded : bool;                  (** also the place of the button and the page's classes *)
  v_native : bool;
  v_revision : Z;
  v_element : element;
  v_requests : list Z;                (** [enter]s that await the browser, by their [current] *)
  v_granted : list Z;                 (** granted requests whose [enter] has not resumed *)
  v_exits : list (bool * bool);       (** calls of [exitNative]: whether it asked the browser,
                                          and whether [exit] awaits it *)
  v_changes : list bool;              (** the calls of [change] *)
  v_refused : bool                    (** history: the browser refused to leave fullscreen *)
}.

Definition new_view : view := ViewState false false 0 NoElement [] [] [] [] false.

Definition show (value : bool) (v : view) : view :=
  ViewState value (v_native v) (v_revision v) (v_element v) (v_requests v) (v_granted v) (v_exits v)
    (if bool_decide (v_expanded v ≠ value) then v_changes v ++ [value] else v_changes v) (v_refused v).

(** [exitNative()], up to its [await]; [from_exit] when [exit] called it. *)
Definition exitNative (from_exit : bool) (v : view) : view :=
  ViewState (v_expanded v) (v_native v) (v_revision v) (v_element v) (v_requests v) (v_granted v)
    (v_exits v ++ [(bool_decide (v_element v = View), from_exit)]) (v_changes v) (v_refused v).

Definition with_revision (n : Z) (v : view) : view :=
  ViewState (v_expanded v) (v_native v) n (v_element v) (v_requests v) (v_granted v) (v_exits v)
    (v_changes v) (v_refused v).
Definition with_native (b : bool) (v : view) : view :=
  ViewState (v_expanded v) b (v_revision v) (v_element v) (v_requests v) (v_granted v) (v_exits v)
    (v_changes v) (v_refused v).
Definition with_element (e : element) (v : view) : view :=
  ViewState (v_expanded v) (v_native v) (v_revision v) e (v_requests v) (v_granted v) (v_exits v)
    (v_changes v) (v_refused v).
Definition with_requests (r g : list Z) (v : view) : view :=
  ViewState (v_expanded v) (v_native v) (v_revision v) (v_element v) r g (v_exits v)
    (v_changes v) (v_refused v).

Definition exit (v : view) : view :=
  exitNative true (show false (with_revision (v_revision v + 1) v)).

(** [enter], up to its [await]; [supported] when the view has a request method. *)
Definition enter (supported : bool) (v : view) : view :=
  if v_expanded v then v
  else
    let current := v_revision v + 1 in
    let v := show true (with_revision current v) in
    if supported then with_requests (v_requests v ++ [current]) (v_granted v) v else v.

(** The browser grants or rejects the [k]-th request. *)
Definition answer_request (k : nat) (granted : bool) (v : view) : view :=
  match v_requests v !! k with
  | Some current =>
      let rest : list Z := delete k (v_requests v) in
      if granted then with_element View (with_requests rest (v_granted v ++ [current]) v)
      else with_requests rest (v_granted v) v
  | None => v
  end.

(** The rest of [enter] after a granted request. *)
Definition entered (k : nat) (v : view) : view :=
  match v_granted v !! k with
  | Some current =>
      let v := with_requests (v_requests v) (delete k (v_granted v)) v in
      if current =? v_revision v then with_native (bool_decide (v_element v = View)) v
      else exitNative false v
  | None => v
  end.

(** The [k]-th [exitNative] ends; [ok] when the browser left fullscreen. *)
Definition exited (k : nat) (ok : bool) (v : view) : view :=
  match (v_exits v !! k : option (bool * bool)) with
  | Some (asked, from_exit) =>
      ViewState (v_expanded v) (if from_exit then false else v_native v) (v_revision v)
        (if asked && ok then NoElement else v_element v)
        (v_requests v) (v_granted v) (delete k (v_exits v)) (v_changes v)
        (v_refused v || asked && negb ok)
  | None => v
  end.

(** [fullscreenchange]. *)
Definition fullscreenchange (v : view) : view :=
  if bool_decide (v_element v = View) then with_native true v
  else if v_native v then show false (with_revision (v_revision v + 1) (with_native false v))
  else v.

(** [keydown] of the Escape key. *)
Definition escape (v : view) : view :=
  if v_expanded v && bool_decide (v_element v = NoElement) then exit v else v.

Inductive fs_event :=
| Toggle (supported : bool)
| Enter (supported : bool)
| Exit
| AnswerRequest (k : nat) (granted : bool)
| Entered (k : nat)
| Exited (k : nat) (ok : bool)
| FullscreenChange
| Escape
| BrowserLeaves (other : bool).       (** the user or another element ends the view's fullscreen *)

Definition fs_handle (e : fs_event) (v : view) : view :=
  match e with
  | Toggle s => if v_expanded v then exit v else enter s v
  | Enter s => enter s v
  | Exit => exit v
  | AnswerRequest k g => answer_request k g v
  | Entered k => entered k v
  | Exited k ok => exited k ok v
  | FullscreenChange => fullscreenchange v
  | Escape => escape v
  | BrowserLeaves other => with_element (if other then OtherElement else NoElement) v
  end.

Definition fs_run (l : list fs_event) : view := foldl (λ v e, fs_handle e v) new_view l.

(** ** The invariant *)

(** Whether each call of [change] reports a change, and the last one the state. *)
Fixpoint alternates (now : bool) (changes : list bool) (last : bool) : Prop :=
  match changes with
  | [] => now = last
  | c :: changes => c = negb now ∧ alternates c changes last
  end.

(** The browser will still be asked to leave fullscreen, or has been. *)
Definition leaving (v : view) : Prop :=
  v_granted v ≠ [] ∨ (∃ from_exit, (true, from_exit) ∈ v_exits v) ∨ v_refused v = true.

Record inv (v : view) : Prop := {
  inv_current c : c ∈ v_requests v ∨ c ∈ v_granted v →
    c ≤ v_revision v ∧ (c = v_revision v → v_expanded v = true);
  inv_leaving : v_expanded v = false → v_element v = View → leaving v;
  inv_changes : alternates false (v_changes v) (v_expanded v)
}.

Lemma alternates_snoc now l last c :
  c = negb last → alternates now l last → alternates now (l ++ [c]) c.
Proof.
  intros ->. revert now. induction l as [|d l IH]; cbn; [by intros ? ->|].
  intros now [-> H]. by split; [|apply IH].
Qed.

Lemma show_changes b v :
  alternates false (v_changes v) (v_expanded v) → alternates false (v_changes (show b v)) b.
Proof.
  cbn. case_bool_decide as H.
  - apply alternates_snoc. by destruct b, (v_expanded v).
  - intros Ha. destruct (v_expanded v), b; naive_solver.
Qed.

Lemma inv_exit v : inv v → inv (exit v).
Proof.
  intros [H1 H2 H3]. split.
  - cbn. intros c Hc. specialize (H1 c Hc). lia.
  - cbn. intros _ He. right. left. exists true. cbn. rewrite bool_decide_eq_true_2 by done.
    apply elem_of_app. right. by apply list_elem_of_singleton.
  - by apply (show_changes false (with_revision (v_revision v + 1) v)).
Qed.

Lemma inv_enter s v : inv v → inv (enter s v).
Proof.
  intros Hi. unfold enter. destruct (v_expanded v) eqn:Ee; [done|]. destruct Hi as [H1 H2 H3].
  assert (Hc : alternates false (v_changes (show true (with_revision (v_revision v + 1) v))) true)
    by by apply show_changes.
  destruct s; split; try exact Hc; cbn; try done.
  - intros c [[Hin| ->%list_elem_of_singleton]%elem_of_app|Hin]; (split; [|done]).
    + destruct (H1 c (or_introl Hin)). lia.
    + lia.
    + destruct (H1 c (or_intror Hin)). lia.
  - intros c Hin. split; [|done]. specialize (H1 c Hin). lia.
Qed.

Lemma elem_of_delete {A} k (l : list A) x : x ∈ delete k l → x ∈ l.
Proof.
  intros [i Hi]%list_elem_of_lookup. destruct (decide (i < k)%nat).
  - rewrite list_lookup_delete_lt in Hi by done. by eapply list_elem_of_lookup_2.
  - rewrite list_lookup_delete_ge in Hi by lia. by eapply list_elem_of_lookup_2.
Qed.

Lemma fs_inv_handle e v : inv v → inv (fs_handle e v).
Proof.
  intros Hi. destruct e as [s|s| |k g|k|k ok| | |o]; cbn [fs_handle].
  - destruct (v_expanded v); [by apply inv_exit|by apply inv_enter].
  - by apply inv_enter.
  - by apply inv_exit.
  - unfold answer_request. destruct (v_requests v !! k) as [c|] eqn:Ek; [|done].
    apply list_elem_of_lookup_2 in Ek. destruct Hi as [H1 H2 H3]. destruct g; split; cbn; try done.
    + intros c' [?%elem_of_delete|[?| ->%list_elem_of_singleton]%elem_of_app]; auto.
    + intros _ _. left. cbn. by destruct (v_granted v).
    + intros c' [?%elem_of_delete|?]; auto.
  - unfold entered. destruct (v_granted v !! k) as [c|] eqn:Ek; [|done].
    apply list_elem_of_lookup_2 in Ek. destruct Hi as [H1 H2 H3].
    assert (Hd : ∀ c', c' ∈ v_requests v ∨ c' ∈ delete k (v_granted v) →
      c' ≤ v_revision v ∧ (c' = v_revision v → v_expanded v = true)).
    { intros c' [?|?%elem_of_delete]; auto. }
    cbn. destruct (c =? v_revision v) eqn:Ec; bools; split; cbn; try done.
    + intros He. destruct (H1 c (or_intror Ek)) as [_ Hx]. by rewrite (Hx Ec) in He.
    + intros _ He. right. left. exists false. cbn. rewrite bool_decide_eq_true_2 by done.
      apply elem_of_app. right. by apply list_elem_of_singleton.
  - unfold exited. destruct (v_exits v !! k) as [[asked from]|] eqn:Ek; [|done].
    destruct Hi as [H1 H2 H3]. split; cbn; try done. intros He.
    destruct asked, ok; cbn; try done; intros Hv; unfold leaving; cbn; rewrite ?orb_true_r, ?orb_false_r; auto;
      destruct (H2 He Hv) as [?|[[f Hf]|?]]; auto; right; left; exists f;
      apply list_elem_of_lookup in Hf as [i Hi'];
      (destruct (decide (i = k)) as [->|Hne]; [congruence|]);
      (destruct (decide (i < k)%nat);
        [apply (list_elem_of_lookup_2 _ i); by rewrite list_lookup_delete_lt
        |apply (list_elem_of_lookup_2 _ (pred i)); rewrite list_lookup_delete_ge by lia;
         by rewrite Nat.succ_pred_pos by lia]).
  - unfold fullscreenchange. case_bool_decide as He; [by destruct Hi|].
    destruct (v_native v); [|done]. destruct Hi as [H1 H2 H3]. split; cbn; try done.
    + intros c Hc. specialize (H1 c Hc). lia.
    + by apply (show_changes false (with_revision (v_revision v + 1) (with_native false v))).
  - unfold escape. destruct (v_expanded v && bool_decide (v_element v = NoElement)); [by apply inv_exit|done].
  - destruct Hi as [H1 H2 H3]. split; cbn; try done. by destruct o.
Qed.

Lemma fs_run_inv l : inv (fs_run l).
Proof.
  induction l as [|e l IH] using rev_ind.
  - split; cbn; [|done|done]. by intros c [?%elem_of_nil|?%elem_of_nil].
  - unfold fs_run. rewrite foldl_app. by apply fs_inv_handle.
Qed.

(** ** Properties *)

(** Leaving the expanded view leaves the browser's fullscreen.  In whatever order
    the browser answers requests, reports changes and ends fullscreen, once no
    request and no exit is outstanding and the browser refused no exit, a view that
    is not expanded is not the fullscreen element; an [enter] that was overtaken by
    an [exit] does not bring it back.  Each call of [change] reports a change, and
    the last one the present state. *)
Theorem fullscreen_follows (l : list fs_event) :
  let v := fs_run l in
  (v_granted v = [] → v_exits v = [] → v_refused v = false → v_expanded v = false → v_element v ≠ View) ∧
  alternates false (v_changes v) (v_expanded v).
Proof.
  cbv zeta. destruct (fs_run_inv l) as [_ H2 H3]. split; [|done]. intros Hg Hx Hr He Hv.
  destruct (H2 He Hv) as [?|[[f Hf]|?]]; [done| |congruence]. rewrite Hx in Hf. by apply elem_of_nil in Hf.
Qed.

(** An exit that overtakes the request, which the browser then grants. *)
Lemma fullscreen_follows_witness :
  let l := [Toggle true; Toggle true; AnswerRequest 0 true; FullscreenChange; Entered 0; Exited 0 true;
            Exited 0 true; FullscreenChange] in
  v_element (fs_run (take 4 l)) = View ∧ v_element (fs_run l) ≠ View ∧ alternates false [true; false] false.
Proof.
  cbv zeta. set (l := [Toggle true; Toggle true; AnswerRequest 0 true; FullscreenChange; Entered 0; Exited 0 true;
            Exited 0 true; FullscreenChange]).
  destruct (fullscreen_follows l) as [H1 H2]. split; [reflexivity|].
  split; [exact (H1 eq_refl eq_refl eq_refl eq_refl)|exact H2].
Defined.

End Fullscreen.
