(* ===== verification/RelayNetwork.v ===== *)
(** * The Ethernet relay (src/src/browser/relay-network.js)

    [RelayNetworkAdapter] connects the emulator's network card to a relay over a
    WebSocket.  The relay sends a challenge, the disk's Worker signs it, and frames
    pass only once the relay has accepted the signature.  Each [connect] starts a
    generation; whatever belongs to an older one is ignored.

    An event is the next callback the browser runs.  Everything the adapter does to
    the outside is an entry of the log [a_log], in order.  An older generation's
    socket is closed and its handlers return at once, so only the newest socket is
    kept.  [onState] is taken not to call the adapter, a fixed URL is not the empty
    string, and the origin is a string. *)
From S2P Require Import Prelude JsValue Hex.
#[local] Open Scope Z_scope.

Module RelayNetwork.

Inductive status := Connecting | Offline | Rejected | Online | IdentityClosed | Closed.

Inductive phase := PHello | PSigning | PAuthenticated | PReady | PRejected.

#[export] Instance phase_eq_dec : EqDecision phase.
Proof. solve_decision. Defined.
#[export] Instance status_eq_dec : EqDecision status.
Proof. solve_decision. Defined.

(** Effects.  The integer is the generation of the socket. *)
Inductive output :=
| State (s : status)                                     (** [onState] *)
| Dial (g : Z) (url : string)                            (** [new WebSocket(url)] *)
| SendHello (g : Z) (publicKey : string)
| Sign (g : Z) (url origin : string) (nonce : bytes) (expires now : Z)
| SendAuthenticate (g : Z) (signature : string)
| FrameOut (g : Z) (frame : bytes)                       (** to the relay *)
| FrameIn (g : Z) (frame : bytes)                        (** to the network card *)
| RetryIn (delay : Z).                                   (** the reconnection timer *)

Record socket := Socket {
  k_gen : Z;
  k_key : string;          (** the public key of the hello *)
  k_phase : phase;
  k_signing : bool;        (** [onmessage] awaits the signer *)
  k_open : bool;           (** [readyState===1] *)
  k_done : bool            (** [onclose] has run *)
}.

(** Where a [connect] of some generation awaits. *)
Inductive step := AwaitKey | AwaitURL (publicKey : string).

Record adapter := Adapter {
  a_fixedURL : option string;
  a_origin : string;
  a_url : string;
  a_delay : Z;
  a_ready : bool;
  a_closed : bool;
  a_generation : Z;
  a_status : status;
  a_socket : option socket;
  a_steps : list (Z * step);
  a_retryTimer : bool;
  a_authTimer : bool;
  a_watching : bool;       (** [stopWatching] is set and the bus is registered *)
  a_log : list output
}.

Definition blank (fixedURL : option string) (origin : string) : adapter :=
  Adapter fixedURL origin (default EmptyString fixedURL) 1000 false false 0 Closed None [] false false true [].

Definition emit (o : output) (a : adapter) : adapter :=
  Adapter (a_fixedURL a) (a_origin a) (a_url a) (a_delay a) (a_ready a) (a_closed a) (a_generation a)
    (a_status a) (a_socket a) (a_steps a) (a_retryTimer a) (a_authTimer a) (a_watching a) (a_log a ++ [o]).
Definition with_status (s : status) (a : adapter) : adapter :=
  Adapter (a_fixedURL a) (a_origin a) (a_url a) (a_delay a) (a_ready a) (a_closed a) (a_generation a)
    s (a_socket a) (a_steps a) (a_retryTimer a) (a_authTimer a) (a_watching a) (a_log a).
Definition with_socket (k : option socket) (a : adapter) : adapter :=
  Adapter (a_fixedURL a) (a_origin a) (a_url a) (a_delay a) (a_ready a) (a_closed a) (a_generation a)
    (a_status a) k (a_steps a) (a_retryTimer a) (a_authTimer a) (a_watching a) (a_log a).
Definition with_ready (b : bool) (a : adapter) : adapter :=
  Adapter (a_fixedURL a) (a_origin a) (a_url a) (a_delay a) b (a_closed a) (a_generation a)
    (a_status a) (a_socket a) (a_steps a) (a_retryTimer a) (a_authTimer a) (a_watching a) (a_log a).
Definition with_delay (d : Z) (a : adapter) : adapter :=
  Adapter (a_fixedURL a) (a_origin a) (a_url a) d (a_ready a) (a_closed a) (a_generation a)
    (a_status a) (a_socket a) (a_steps a) (a_retryTimer a) (a_authTimer a) (a_watching a) (a_log a).
Definition with_steps (l : list (Z * step)) (a : adapter) : adapter :=
  Adapter (a_fixedURL a) (a_origin a) (a_url a) (a_delay a) (a_ready a) (a_closed a) (a_generation a)
    (a_status a) (a_socket a) l (a_retryTimer a) (a_authTimer a) (a_watching a) (a_log a).
Definition with_timers (retry auth : bool) (a : adapter) : adapter :=
  Adapter (a_fixedURL a) (a_origin a) (a_url a) (a_delay a) (a_ready a) (a_closed a) (a_generation a)
    (a_status a) (a_socket a) (a_steps a) retry auth (a_watching a) (a_log a).

(** [state(status)]. *)
Definition state (s : status) (a : adapter) : adapter := emit (State s) (with_status s a).

Definition with_phase (p : phase) (k : socket) : socket :=
  Socket (k_gen k) (k_key k) p (k_signing k) (k_open k) (k_done k).

(** [socket.close()]: [readyState] leaves 1 at once, [onclose] runs later. *)
Definition close (k : socket) : socket :=
  Socket (k_gen k) (k_key k) (k_phase k) (k_signing k) false (k_done k).
Definition with_signing (b : bool) (k : socket) : socket :=
  Socket (k_gen k) (k_key k) (k_phase k) b (k_open k) (k_done k).

(** [connect()], up to its first [await]. *)
Definition connect (a : adapter) : adapter :=
  let generation := a_generation a + 1 in
  let a := Adapter (a_fixedURL a) (a_origin a) (a_url a) (a_delay a) false (a_closed a) generation
             (a_status a) (close <$> a_socket a) (a_steps a) false false (a_watching a) (a_log a) in
  if a_closed a then a
  else let a := state Connecting a in with_steps (a_steps a ++ [(generation, AwaitKey)]) a.

Definition new_adapter (fixedURL : option string) (origin : string) : adapter :=
  connect (blank fixedURL origin).

(** [destroy(update)]. *)
Definition destroy (update : bool) (a : adapter) : adapter :=
  if a_closed a then a
  else
    let a := Adapter (a_fixedURL a) (a_origin a) (a_url a) (a_delay a) false true (a_generation a + 1)
               (a_status a) (close <$> a_socket a) (a_steps a) false false false (a_log a) in
    if update then state Closed a else a.

(** [reconnect(generation)]. *)
Definition reconnect (g : Z) (a : adapter) : adapter :=
  if a_closed a || negb (g =? a_generation a) then a
  else
    let a := state Offline (with_ready false a) in
    with_timers true (a_authTimer a)
      (with_delay (Z.min 30000 (a_delay a * 2)) (emit (RetryIn (a_delay a)) a)).

(** [connect] once the URL is known or could not be found; [dialled] when the
    WebSocket constructor accepted it. *)
Definition url_known (g : Z) (publicKey : string) (r : result string) (dialled : bool) (a : adapter) : adapter :=
  match r with
  | Throw _ => reconnect g a
  | Ok url =>
      if negb (g =? a_generation a) || a_closed a then a
      else
        let a := Adapter (a_fixedURL a) (a_origin a) url (a_delay a) (a_ready a) (a_closed a) (a_generation a)
                   (a_status a) (a_socket a) (a_steps a) (a_retryTimer a) (a_authTimer a) (a_watching a) (a_log a) in
        if dialled then
          with_timers (a_retryTimer a) true
            (emit (Dial g url) (with_socket (Some (Socket g publicKey PHello false false false)) a))
        else reconnect g a
  end.

(** [relayPublicKey()] has settled. *)
Definition key_known (g : Z) (r : result bytes) (dialled : bool) (a : adapter) : adapter :=
  match map_get g (a_steps a) with
  | Some AwaitKey =>
      let a := with_steps (map_delete g (a_steps a)) a in
      match r with
      | Throw _ => if g =? a_generation a then destroy false (state IdentityClosed a) else a
      | Ok key =>
          if negb (g =? a_generation a) || a_closed a then a
          else
            match a_fixedURL a with
            | Some url => url_known g (hex key) (Ok url) dialled a
            | None => with_steps (a_steps a ++ [(g, AwaitURL (hex key))]) a
            end
      end
  | _ => a
  end.

(** [resolveURL()] has settled. *)
Definition url_resolved (g : Z) (r : result string) (dialled : bool) (a : adapter) : adapter :=
  match map_get g (a_steps a) with
  | Some (AwaitURL key) => url_known g key r dialled (with_steps (map_delete g (a_steps a)) a)
  | _ => a
  end.

(** [current()] for the newest socket. *)
Definition current (k : socket) (a : adapter) : bool :=
  (k_gen k =? a_generation a) && negb (a_closed a).

(** [phase='rejected'; this.state('rejected'); socket.close()]. *)
Definition reject (k : socket) (a : adapter) : adapter :=
  with_socket (Some (close (with_phase PRejected k))) (state Rejected a).

Definition onopen (protocol_ok : bool) (a : adapter) : adapter :=
  match a_socket a with
  | Some k =>
      let k := Socket (k_gen k) (k_key k) (k_phase k) (k_signing k) true (k_done k) in
      let a := with_socket (Some k) a in
      if negb (current k a) then a
      else if negb protocol_ok then reject k a
      else emit (SendHello (k_gen k) (k_key k)) a
  | None => a
  end.

(** A message: a binary one, or a text with what [JSON.parse] makes of it. *)
Inductive message := Binary (data : bytes) | Text (parsed : result jsval).

(** The private [unhex] of a nonce. *)
Definition unhex_nonce (v : jsval) : option bytes :=
  match v with JStr s => if hex_string 64 s then Some (parse_pairs s) else None | _ => None end.

(** The challenge condition, with [message.expires]. *)
Definition challenge_ok (m : jsval) (k : socket) (now : Z) (a : adapter) : option Z :=
  match as_safe_integer (get m "expires") with
  | Some expires =>
      if is_str (get m "type") "challenge" && bool_decide (k_phase k = PHello) &&
         is_str (get m "url") (a_url a) && is_str (get m "origin") (a_origin a) &&
         (now - 1000 <=? expires * 1000) && (expires * 1000 <=? now + 11000)
      then Some expires else None
  | None => None
  end.

Definition onmessage (m : message) (now : Z) (a : adapter) : adapter :=
  match a_socket a with
  | Some k =>
      if negb (current k a) then a
      else
        match m with
        | Binary data =>
            if negb (a_ready a) || (byteLength data <? 14) || (1514 <? byteLength data) then reject k a
            else emit (FrameIn (k_gen k) data) a
        | Text (Throw _) => reject k a
        | Text (Ok v) =>
            match challenge_ok v k now a with
            | Some expires =>
                match unhex_nonce (get v "nonce") with
                | Some nonce =>
                    emit (Sign (k_gen k) (a_url a) (a_origin a) nonce expires now)
                      (with_socket (Some (with_signing true (with_phase PSigning k))) a)
                | None => reject k a
                end
            | None =>
                if is_str (get v "type") "ready" && bool_decide (k_phase k = PAuthenticated)
                then state Online
                       (with_timers (a_retryTimer a) false
                         (with_delay 1000 (with_ready true (with_socket (Some (with_phase PReady k)) a))))
                else reject k a
            end
        end
  | None => a
  end.

(** [signRelayChallenge] of generation [g] has settled. *)
Definition signed (g : Z) (r : result bytes) (a : adapter) : adapter :=
  match a_socket a with
  | Some k =>
      if negb (k_gen k =? g) || negb (k_signing k) then a
      else
        let k := with_signing false k in
        let a := with_socket (Some k) a in
        match r with
        | Throw _ => if current k a then reject k a else a
        | Ok signature =>
            if negb (current k a) || negb (k_open k) then a
            else emit (SendAuthenticate g (hex signature)) (with_socket (Some (with_phase PAuthenticated k)) a)
        end
  | None => a
  end.

(** [onclose] with the code of the close event. *)
Definition onclose (code : Z) (a : adapter) : adapter :=
  match a_socket a with
  | Some k =>
      let k := Socket (k_gen k) (k_key k) (k_phase k) (k_signing k) false true in
      let a := with_socket (Some k) a in
      if negb (current k a) then a
      else
        let a := with_ready false (with_timers (a_retryTimer a) false a) in
        if (code =? 1008) || bool_decide (k_phase k = PRejected) then state Rejected a
        else reconnect (k_gen k) a
  | None => a
  end.

(** The 15 s timer of the handshake. *)
Definition auth_timeout (a : adapter) : adapter :=
  if a_authTimer a then
    let a := with_timers (a_retryTimer a) false a in
    match a_socket a with
    | Some k => if current k a && negb (a_ready a) then with_socket (Some (close k)) a else a
    | None => a
    end
  else a.

Definition retry_timeout (a : adapter) : adapter :=
  if a_retryTimer a then connect (with_timers false (a_authTimer a) a) else a.

(** [retry()]. *)
Definition retry (a : adapter) : adapter :=
  if a_closed a then a else connect (with_delay 1000 a).

(** The watcher of the signer. *)
Definition identity_closed (a : adapter) : adapter :=
  if a_watching a then destroy false (state IdentityClosed a) else a.

(** [send(frame)]. *)
Definition send (frame : bytes) (bufferedAmount : Z) (a : adapter) : adapter :=
  match a_socket a with
  | Some k =>
      if negb (a_ready a) || negb (k_open k) then a
      else if (1514 <? byteLength frame) || (65536 <? bufferedAmount) then a
      else emit (FrameOut (k_gen k) frame) a
  | None => a
  end.

Inductive event :=
| KeyKnown (g : Z) (r : result bytes) (dialled : bool)
| UrlResolved (g : Z) (r : result string) (dialled : bool)
| Opened (protocol_ok : bool)
| Message (m : message) (now : Z)
| Signed (g : Z) (r : result bytes)
| SocketClosed (code : Z)
| AuthTimeout
| RetryTimeout
| Retry
| IdentityGone
| SendFrame (frame : bytes) (bufferedAmount : Z)
| Destroy (update : bool).

(** A socket has no event after its close event. *)
Definition live (a : adapter) : bool :=
  match a_socket a with Some k => negb (k_done k) | None => false end.

Definition handle (e : event) (a : adapter) : adapter :=
  match e with
  | KeyKnown g r d => key_known g r d a
  | UrlResolved g r d => url_resolved g r d a
  | Opened ok => if live a then onopen ok a else a
  | Message m now => if live a then onmessage m now a else a
  | Signed g r => signed g r a
  | SocketClosed code => if live a then onclose code a else a
  | AuthTimeout => auth_timeout a
  | RetryTimeout => retry_timeout a
  | Retry => retry a
  | IdentityGone => identity_closed a
  | SendFrame f b => send f b a
  | Destroy u => destroy u a
  end.

Definition run (fixedURL : option string) (origin : string) (l : list event) : adapter :=
  foldl (λ a e, handle e a) (new_adapter fixedURL origin) l.

(** ** The invariant *)

Definition authenticated (g : Z) (log : list output) : Prop := ∃ s, SendAuthenticate g s ∈ log.
Definition challenged (g : Z) (log : list output) : Prop :=
  ∃ url origin nonce expires now, Sign g url origin nonce expires now ∈ log.

(** What an effect requires of the effects before it. *)
Definition justified (origin : string) (past : list output) (o : output) : Prop :=
  match o with
  | Sign g url o' nonce expires now =>
      Dial g url ∈ past ∧ o' = origin ∧ now - 1000 ≤ expires * 1000 ≤ now + 11000
  | SendAuthenticate g _ => challenged g past
  | FrameOut g f => authenticated g past ∧ byteLength f ≤ 1514
  | FrameIn g f => authenticated g past ∧ 14 ≤ byteLength f ≤ 1514
  | RetryIn d => 1000 ≤ d ≤ 30000
  | _ => True
  end.

(** What the newest socket requires. *)
Record socket_fine (generation : Z) (url : string) (log : list output) (k : socket) : Prop := {
  so_gen : k_gen k ≤ generation;
  so_dialled : k_gen k = generation → Dial (k_gen k) url ∈ log;
  so_signing : k_signing k = true → challenged (k_gen k) log;
  so_authenticated : k_phase k = PAuthenticated ∨ k_phase k = PReady → authenticated (k_gen k) log
}.
Notation socket_ok a k := (socket_fine (a_generation a) (a_url a) (a_log a) k).

Section invariant.
Context (origin : string).

Record inv (a : adapter) : Prop := {
  inv_origin : a_origin a = origin;
  inv_log : past_ok (justified origin) (a_log a);
  inv_delay : 1000 ≤ a_delay a ≤ 30000;
  inv_socket k : a_socket a = Some k → socket_ok a k;
  inv_steps g : g ∈ (a_steps a).*1 →
    g ≤ a_generation a ∧
    (g = a_generation a → a_closed a = false ∧ ∀ k, a_socket a = Some k → k_gen k ≠ g);
  inv_ready : a_ready a = true → a_closed a = false ∧
    ∃ k, a_socket a = Some k ∧ k_gen k = a_generation a ∧ authenticated (k_gen k) (a_log a);
  inv_closed : a_closed a = true → a_retryTimer a = false ∧ a_watching a = false ∧
    (∀ k, a_socket a = Some k → k_gen k < a_generation a)
}.

(** An adapter that is open and was not rejected has something under way. *)
Definition under_way (a : adapter) : Prop :=
  a_closed a = false → a_status a ≠ Rejected →
  a_retryTimer a = true ∨ a_generation a ∈ (a_steps a).*1 ∨
  ∃ k, a_socket a = Some k ∧ k_gen k = a_generation a ∧ k_done k = false.

Lemma authenticated_app g l o : authenticated g l → authenticated g (l ++ [o]).
Proof. intros [s H]. exists s. by apply elem_of_app; left. Qed.
Lemma challenged_app g l o : challenged g l → challenged g (l ++ [o]).
Proof. intros (u & og & n & e & t & H). exists u, og, n, e, t. by apply elem_of_app; left. Qed.

Lemma relay_inv_emit o a : inv a → justified origin (a_log a) o → inv (emit o a).
Proof.
  intros [Ho0 Hl Hd Hk Hs Hr Hc] Ho. split; cbn; try done.
  - by apply past_ok_snoc.
  - intros k Hk'. destruct (Hk k Hk') as [H1 H2 H3 H4]. split; cbn; auto using authenticated_app, challenged_app.
    intros Hg. apply elem_of_app. auto.
  - intros Hre. destruct (Hr Hre) as (Hcl & k & H1 & H2 & H3). split; [done|].
    exists k. split_and!; auto using authenticated_app.
Qed.

Lemma inv_status s a : inv a → inv (with_status s a).
Proof. by intros []; split. Qed.

Lemma inv_state s a : inv a → inv (state s a).
Proof. intros. by apply relay_inv_emit; [apply inv_status|]. Qed.

Lemma inv_delay_set d a : 1000 ≤ d ≤ 30000 → inv a → inv (with_delay d a).
Proof. by intros ? []; split. Qed.

Lemma inv_unready a : inv a → inv (with_ready false a).
Proof. by intros []; split. Qed.

Lemma inv_timers r t a : a_closed a = false ∨ r = false → inv a → inv (with_timers r t a).
Proof. intros Hr [Ho0 Hl Hd Hk Hs Hre Hc]. split; cbn; try done. intros Hcl. destruct Hr; [congruence|]. by destruct (Hc Hcl). Qed.

(** The newest socket changes, not its generation. *)
Lemma inv_with_socket k k' a :
  inv a → a_socket a = Some k → k_gen k' = k_gen k → socket_ok a k' → inv (with_socket (Some k') a).
Proof.
  intros [Ho0 Hl Hd Hk Hs Hr Hc] Ek Hg [H1 H2 H3 H4]. split; cbn; try done.
  - by intros k2 [= <-].
  - intros g Hin. destruct (Hs g Hin) as [Hle Hx]. split; [done|]. intros He.
    destruct (Hx He) as [Hcl Hk2]. split; [done|]. intros k2 [= <-]. rewrite Hg. auto.
  - intros Hre. destruct (Hr Hre) as (Hcl & k2 & E2 & G2 & A2). split; [done|].
    exists k'. rewrite Ek in E2. injection E2 as <-. split_and!; [done|congruence|by rewrite Hg].
  - intros Hcl. destruct (Hc Hcl) as (? & ? & Hx). split_and!; try done. intros k2 [= <-]. rewrite Hg. auto.
Qed.

Lemma inv_emit_socket o k k' a :
  inv a → a_socket a = Some k → k_gen k' = k_gen k → justified origin (a_log a) o →
  socket_ok (emit o a) k' → inv (emit o (with_socket (Some k') a)).
Proof.
  intros Hi Ek Hg Ho Hk. change (inv (with_socket (Some k') (emit o a))).
  eapply inv_with_socket; [by apply relay_inv_emit|exact Ek|done|done].
Qed.

Lemma socket_ok_close a k : socket_ok a k → socket_ok a (close k).
Proof. by intros []; split. Qed.

Lemma inv_close_socket k a : inv a → a_socket a = Some k → inv (with_socket (Some (close k)) a).
Proof. intros Hi Ek. eapply inv_with_socket; eauto. by apply socket_ok_close, Hi. Qed.

Lemma inv_reject k k0 a :
  inv a → a_socket a = Some k0 → k_gen k = k_gen k0 → socket_ok a k → inv (reject k a).
Proof.
  intros Hi Ek Hg [H1 H2 H3 H4]. unfold reject. eapply inv_with_socket; [by apply inv_state|exact Ek|done|].
  split; cbn; auto using challenged_app.
  - intros He. apply elem_of_app. auto.
  - intros []; done.
Qed.

Lemma inv_connect a : inv a → a_closed a = false → inv (connect a).
Proof.
  intros [Ho0 Hl Hd Hk Hs Hr Hc] Hcl. unfold connect. cbn. rewrite Hcl.
  split; cbn; rewrite ?Hcl; try done.
  - by apply past_ok_snoc.
  - intros k. destruct (a_socket a) as [k0|]; [|done]. cbn. intros [= <-].
    destruct (Hk k0 eq_refl) as [H1 H2 H3 H4]. split; cbn; auto using authenticated_app, challenged_app; lia.
  - intros g. rewrite fmap_app, elem_of_app. intros [Hin| ->%list_elem_of_singleton].
    + destruct (Hs g Hin). split; lia.
    + cbn. split; [lia|]. intros _. split; [done|]. intros k. destruct (a_socket a) as [k0|]; [|done].
      cbn. intros [= <-]. cbn. destruct (Hk k0 eq_refl). lia.
Qed.

Lemma inv_destroy u a : inv a → inv (destroy u a).
Proof.
  intros Hi. unfold destroy. destruct (a_closed a) eqn:Hcl; [done|].
  assert (Hd : inv (Adapter (a_fixedURL a) (a_origin a) (a_url a) (a_delay a) false true (a_generation a + 1)
    (a_status a) (close <$> a_socket a) (a_steps a) false false false (a_log a))).
  { destruct Hi as [Ho0 Hl Hd Hk Hs Hr Hc]. split; cbn; try done.
    - intros k. destruct (a_socket a) as [k0|]; [|done]. cbn. intros [= <-].
      destruct (Hk k0 eq_refl) as [H1 H2 H3 H4]. split; cbn; auto; lia.
    - intros g Hin. destruct (Hs g Hin). split; lia.
    - intros _. split_and!; try done. intros k. destruct (a_socket a) as [k0|]; [|done]. cbn. intros [= <-].
      cbn. destruct (Hk k0 eq_refl). lia. }
  destruct u; [by apply inv_state|done].
Qed.

Lemma inv_reconnect g a : inv a → inv (reconnect g a).
Proof.
  intros Hi. unfold reconnect. destruct (a_closed a) eqn:Hcl; [done|].
  destruct (negb (g =? a_generation a)); [done|]. cbn [orb]. pose proof (inv_delay a Hi).
  apply inv_timers; [by left|]. apply inv_delay_set; [cbn; lia|].
  apply relay_inv_emit; [by apply inv_state, inv_unready|]. done.
Qed.

Lemma inv_steps_delete g a : inv a → inv (with_steps (map_delete g (a_steps a)) a).
Proof.
  intros [Ho0 Hl Hd Hk Hs Hr Hc]. split; cbn; try done. intros g'.
  rewrite list_elem_of_fmap. intros ([g2 st] & -> & [Hin _]%elem_of_map_delete).
  apply Hs. by apply (list_elem_of_fmap_2 fst) in Hin.
Qed.

(** The URL is known and its generation has no other step and no socket. *)
Lemma inv_url_known g key r d a :
  inv a → (g = a_generation a → g ∉ (a_steps a).*1 ∧ ∀ k, a_socket a = Some k → k_gen k ≠ g) →
  inv (url_known g key r d a).
Proof.
  intros Hi Hg. unfold url_known. destruct r as [url|e]; [|by apply inv_reconnect].
  destruct (g =? a_generation a) eqn:Eg; [|done]. bools. destruct (a_closed a) eqn:Hcl; [done|].
  cbn [negb orb]. destruct (Hg Eg) as [Hns Hnk]. destruct Hi as [Ho0 Hl Hd Hk Hs Hr Hc].
  assert (Hu : inv (Adapter (a_fixedURL a) (a_origin a) url (a_delay a) (a_ready a) false (a_generation a)
    (a_status a) (a_socket a) (a_steps a) (a_retryTimer a) (a_authTimer a) (a_watching a) (a_log a))).
  { split; cbn; rewrite -> ?Hcl in *; try done. intros k Ek. destruct (Hk k Ek) as [H1 H2 H3 H4].
    split; cbn; try done. intros He. destruct (Hnk k Ek). congruence. }
  destruct d; [|by apply inv_reconnect]. destruct Hu as [Ho2 Hl2 Hd2 Hk2 Hs2 Hr2 Hc2].
  split; cbn in *; try done.
  - by apply past_ok_snoc.
  - intros k [= <-]. split; cbn; try done; [lia| |by intros []].
    intros _. apply elem_of_app. right. by apply list_elem_of_singleton.
  - intros g' Hin. destruct (Hs2 g' Hin) as [Hle Hx]. split; [done|]. intros He. split; [done|].
    intros k [= <-]. cbn. intros ->. done.
  - intros Hre. destruct (Hr2 Hre) as (_ & k & Ek & Gk & _). destruct (Hnk k Ek). congruence.
Qed.

Lemma key_step_fresh g st a :
  inv a → map_get g (a_steps a) = Some st →
  g = a_generation a → g ∉ (map_delete g (a_steps a)).*1 ∧ ∀ k, a_socket a = Some k → k_gen k ≠ g.
Proof.
  intros Hi Hm Hg. split; [apply map_delete_get|].
  apply map_get_elem in Hm. apply (list_elem_of_fmap_2 fst) in Hm. by apply (inv_steps a Hi g Hm).
Qed.

Lemma inv_key_known g r d a : inv a → inv (key_known g r d a).
Proof.
  intros Hi. unfold key_known. destruct (map_get g (a_steps a)) as [[|key]|] eqn:Em; try done.
  pose proof (inv_steps_delete g a Hi) as Hi'. pose proof (key_step_fresh g _ a Hi Em) as Hf.
  destruct r as [key|e].
  - cbn [with_steps a_generation a_closed a_fixedURL a_steps].
    destruct (g =? a_generation a) eqn:Eg; [|done]. bools. cbn [negb orb].
    destruct (a_closed a) eqn:Hcl; [done|]. destruct (a_fixedURL a) as [url|].
    { by apply (inv_url_known g (hex key) (Ok url) d (with_steps (map_delete g (a_steps a)) a)). }
    destruct (Hf Eg) as [Hns Hnk]. destruct Hi' as [Ho0 Hl Hd Hk Hs Hr Hc]. split; cbn in *; try done.
    intros g'. rewrite fmap_app, elem_of_app. intros [?| ->%list_elem_of_singleton]; [auto|].
    cbn. split; [lia|]. auto.
  - cbn. destruct (g =? a_generation a); [by apply inv_destroy, inv_state|done].
Qed.

Lemma inv_url_resolved g r d a : inv a → inv (url_resolved g r d a).
Proof.
  intros Hi. unfold url_resolved. destruct (map_get g (a_steps a)) as [[|key]|] eqn:Em; try done.
  apply inv_url_known; [by apply inv_steps_delete|]. exact (key_step_fresh g _ a Hi Em).
Qed.

Lemma current_true k a : current k a = true → k_gen k = a_generation a ∧ a_closed a = false.
Proof. unfold current. intros. bools. auto. Qed.

Lemma inv_onopen ok a : inv a → inv (onopen ok a).
Proof.
  intros Hi. unfold onopen. destruct (a_socket a) as [k|] eqn:Ek; [|done].
  set (k1 := Socket (k_gen k) (k_key k) (k_phase k) (k_signing k) true (k_done k)).
  assert (Hk : socket_ok a k1) by by destruct (inv_socket a Hi k Ek).
  assert (Hi1 : inv (with_socket (Some k1) a)) by (by eapply inv_with_socket).
  destruct (negb (current k1 (with_socket (Some k1) a))); [done|].
  destruct ok; [by apply relay_inv_emit|]. by eapply inv_reject.
Qed.

Lemma challenge_ok_spec v k now a e :
  challenge_ok v k now a = Some e → now - 1000 ≤ e * 1000 ≤ now + 11000.
Proof.
  unfold challenge_ok. destruct (as_safe_integer (get v "expires")) as [e'|]; [|done].
  destruct (is_str (get v "type") "challenge" && _ && _ && _ && _ && _) eqn:E; [|done].
  intros [= <-]. bools. lia.
Qed.

Lemma inv_onmessage m now a : inv a → inv (onmessage m now a).
Proof.
  intros Hi. unfold onmessage. destruct (a_socket a) as [k|] eqn:Ek; [|done].
  destruct (current k a) eqn:Ec; [|done]. apply current_true in Ec as [Hg Hcl]. cbn [negb].
  pose proof (inv_socket a Hi k Ek) as Hk.
  assert (Hrj : inv (reject k a)) by by eapply inv_reject.
  destruct m as [data|[v|e]]; [| |done].
  - destruct (a_ready a) eqn:Er; [|done]. cbn [negb orb].
    destruct ((byteLength data <? 14) || (1514 <? byteLength data)) eqn:El; [done|]. bools.
    apply relay_inv_emit; [done|]. cbn. split; [|lia].
    destruct (inv_ready a Hi Er) as (_ & k' & Ek' & _ & Ha). rewrite Ek in Ek'. by injection Ek' as <-.
  - destruct (challenge_ok v k now a) as [e|] eqn:Ech.
    + apply challenge_ok_spec in Ech. destruct (unhex_nonce _) as [nonce|]; [|done].
      destruct Hk as [H1 H2 H3 H4]. apply (inv_emit_socket _ k); [done|done|done|by split; [apply H2|split; [apply Hi|]]|].
      split; cbn; [done| | |by intros []].
      * intros He. apply elem_of_app. auto.
      * intros _. do 5 eexists. apply elem_of_app. right. by apply list_elem_of_singleton.
    + destruct (is_str (get v "type") "ready" && bool_decide (k_phase k = PAuthenticated)) eqn:Et; [|done].
      bools. apply inv_state, inv_timers; [by left|]. apply inv_delay_set; [lia|].
      destruct Hk as [H1 H2 H3 H4].
      assert (Hi1 : inv (with_socket (Some (with_phase PReady k)) a)).
      { eapply inv_with_socket; [done|done|done|]. split; cbn; auto. }
      destruct Hi1. split; cbn in *; try done. intros _. split; [done|]. eexists. split_and!; [done|done|].
      apply H4. by left.
Qed.

Lemma inv_signed g r a : inv a → inv (signed g r a).
Proof.
  intros Hi. unfold signed. destruct (a_socket a) as [k|] eqn:Ek; [|done].
  destruct (negb (k_gen k =? g)) eqn:Eg; [done|]. destruct (k_signing k) eqn:Es; [|done]. bools. subst g.
  cbn [orb negb]. pose proof (inv_socket a Hi k Ek) as [H1 H2 H3 H4].
  assert (Hk : socket_ok a (with_signing false k)) by by split.
  assert (Hi1 : inv (with_socket (Some (with_signing false k)) a)) by by eapply inv_with_socket.
  destruct r as [sig|e].
  - destruct (negb (current _ _) || negb _); [done|].
    set (k2 := with_phase PAuthenticated (with_signing false k)).
    apply (inv_emit_socket _ (with_signing false k)); [done|done|done|by apply H3|].
    split; cbn; [done| |done|].
    + intros He. apply elem_of_app. auto.
    + intros _. eexists. apply elem_of_app. right. by apply list_elem_of_singleton.
  - destruct (current _ _); [|done]. by eapply inv_reject.
Qed.

Lemma inv_onclose code a : inv a → inv (onclose code a).
Proof.
  intros Hi. unfold onclose. destruct (a_socket a) as [k|] eqn:Ek; [|done].
  set (k1 := Socket (k_gen k) (k_key k) (k_phase k) (k_signing k) false true).
  assert (Hi1 : inv (with_socket (Some k1) a)).
  { eapply inv_with_socket; [done|done|done|]. by destruct (inv_socket a Hi k Ek). }
  destruct (current k1 (with_socket (Some k1) a)) eqn:Ec; [|done]. cbn [negb].
  apply current_true in Ec as [_ Hcl].
  destruct ((code =? 1008) || bool_decide (k_phase k1 = PRejected));
    [apply inv_state|apply inv_reconnect]; apply inv_unready, inv_timers; auto.
Qed.

Lemma relay_inv_handle e a : inv a → inv (handle e a).
Proof.
  intros Hi. destruct e as [g r d|g r d|ok|m now|g r|code| | | | |f b|u]; cbn [handle].
  - by apply inv_key_known.
  - by apply inv_url_resolved.
  - destruct (live a); [by apply inv_onopen|done].
  - destruct (live a); [by apply inv_onmessage|done].
  - by apply inv_signed.
  - destruct (live a); [by apply inv_onclose|done].
  - unfold auth_timeout. destruct (a_authTimer a); [|done].
    assert (Hi1 : inv (with_timers (a_retryTimer a) false a)).
    { apply inv_timers; [|done]. destruct (a_closed a) eqn:E; [|by left]. right. by apply (inv_closed a Hi). }
    destruct (a_socket _) as [k|] eqn:Ek; [|done].
    destruct (current _ _ && _); [|done]. by apply inv_close_socket.
  - unfold retry_timeout. destruct (a_retryTimer a) eqn:E; [|done].
    assert (a_closed a = false) as Hcl.
    { destruct (a_closed a) eqn:Ec; [|done]. destruct (inv_closed a Hi Ec). congruence. }
    apply inv_connect; [|done]. apply inv_timers; auto.
  - unfold retry. destruct (a_closed a) eqn:Ec; [done|]. apply inv_connect; [|done].
    by apply inv_delay_set.
  - unfold identity_closed. destruct (a_watching a); [by apply inv_destroy, inv_state|done].
  - unfold send. destruct (a_socket a) as [k|] eqn:Ek; [|done].
    destruct (a_ready a) eqn:Er; [|done]. destruct (k_open k); [|done]. cbn [negb orb].
    destruct ((1514 <? byteLength f) || (65536 <? b)) eqn:El; [done|]. bools. apply relay_inv_emit; [done|].
    cbn. split; [|lia]. destruct (inv_ready a Hi Er) as (_ & k' & Ek' & _ & Ha).
    rewrite Ek in Ek'. by injection Ek' as <-.
  - by apply inv_destroy.
Qed.

Lemma relay_run_inv fixedURL l : inv (run fixedURL origin l).
Proof.
  induction l as [|e l IH] using rev_ind.
  - unfold run, new_adapter. cbn [foldl]. apply inv_connect; [|done].
    split; cbn; try done. by intros g ?%elem_of_nil.
  - unfold run. rewrite foldl_app. by apply relay_inv_handle.
Qed.

End invariant.

(** ** Something is always under way *)
Lemma under_way_reconnect a : under_way (reconnect (a_generation a) a).
Proof.
  unfold reconnect. rewrite Z.eqb_refl. destruct (a_closed a) eqn:E; intros Hc Hs; cbn in *; [congruence|].
  by left.
Qed.

Lemma under_way_connect a : under_way (connect a).
Proof.
  unfold connect. cbn. destruct (a_closed a) eqn:E; intros Hc Hs; cbn in *; [congruence|].
  right. left. rewrite fmap_app. apply elem_of_app. right. by apply list_elem_of_singleton.
Qed.

Lemma under_way_reject k a : under_way (reject k a).
Proof. by intros _ []. Qed.

Lemma under_way_destroy u a : a_closed a = false → under_way (destroy u a).
Proof. intros H. unfold destroy. rewrite H. by destruct u. Qed.

(** The newest socket, if it is current, still has its close event to come. *)
Lemma under_way_socket k k' a :
  a_socket a = Some k → k_gen k' = k_gen k → k_done k' = k_done k →
  under_way a → under_way (with_socket (Some k') a).
Proof.
  intros Ek Hg Hd Hu Hc Hs. destruct (Hu Hc Hs) as [?|[?|(k2 & E2 & G2 & D2)]]; [by left|by right; left|].
  right. right. exists k'. rewrite Ek in E2. injection E2 as <-. split_and!; [done|cbn; congruence|congruence].
Qed.

Lemma under_way_url_known key r d a :
  under_way (url_known (a_generation a) key r d a).
Proof.
  unfold url_known. destruct r as [url|e]; [|apply under_way_reconnect].
  rewrite Z.eqb_refl. destruct (a_closed a) eqn:Hcl; cbn [negb orb].
  { intros Hc. cbn in Hc. congruence. }
  destruct d.
  - intros _ _. right. right. eexists. by split_and!.
  - apply (under_way_reconnect (Adapter _ _ _ _ _ _ (a_generation a) _ _ _ _ _ _ _)).
Qed.

(** A step of another generation does not matter. *)
Lemma under_way_delete g a :
  g ≠ a_generation a → under_way a → under_way (with_steps (map_delete g (a_steps a)) a).
Proof.
  intros Hg Hu Hc Hs. destruct (Hu Hc Hs) as [?|[Hin|?]]; [by left| |by right; right].
  right. left. apply list_elem_of_fmap in Hin as ([g' st] & E & Hin). cbn in E. subst g'.
  apply list_elem_of_fmap. exists (a_generation a, st). split; [done|]. apply elem_of_map_delete. cbn. auto.
Qed.

Lemma under_way_url_known_other g key r d a :
  g ≠ a_generation a → url_known g key r d a = a.
Proof.
  intros Hg. apply Z.eqb_neq in Hg. unfold url_known, reconnect. rewrite Hg. cbn.
  rewrite orb_true_r. by destruct r.
Qed.

Lemma under_way_key_known g r d a : under_way a → under_way (key_known g r d a).
Proof.
  intros Hu. unfold key_known. destruct (map_get g (a_steps a)) as [[|key]|]; try done.
  destruct (decide (g = a_generation a)) as [->|Hne].
  - cbn [with_steps a_generation a_closed a_fixedURL a_steps]. rewrite Z.eqb_refl. destruct r as [key|e].
    + destruct (a_closed a) eqn:Hcl; cbn [negb orb].
      { intros Hc. cbn in Hc. congruence. }
      destruct (a_fixedURL a) as [url|].
      * apply (under_way_url_known (hex key) (Ok url) d (with_steps _ a)).
      * intros _ _. right. left. cbn. rewrite fmap_app. apply elem_of_app. right. by apply list_elem_of_singleton.
    + destruct (a_closed a) eqn:Hcl; [|by apply under_way_destroy].
      unfold destroy. cbn. rewrite Hcl. intros Hc. cbn in Hc. congruence.
  - pose proof (under_way_delete g a Hne Hu) as Hu'. cbn [with_steps a_generation a_closed].
    rewrite (proj2 (Z.eqb_neq _ _) Hne). cbn [negb orb]. by destruct r.
Qed.

Lemma under_way_url_resolved g r d a : under_way a → under_way (url_resolved g r d a).
Proof.
  intros Hu. unfold url_resolved. destruct (map_get g (a_steps a)) as [[|key]|]; try done.
  destruct (decide (g = a_generation a)) as [->|Hne].
  - apply (under_way_url_known key r d (with_steps _ a)).
  - rewrite under_way_url_known_other by done. by apply under_way_delete.
Qed.

Lemma under_way_onmessage m now a : live a = true → under_way a → under_way (onmessage m now a).
Proof.
  intros Hl Hu. unfold live in Hl. unfold onmessage. destruct (a_socket a) as [k|] eqn:Ek; [|done].
  destruct (current k a) eqn:Ec; [|done]. apply current_true in Ec as [Hg Hcl]. cbn [negb]. bools.
  destruct m as [data|[v|e]]; [| |apply under_way_reject].
  - destruct (negb (a_ready a) || _ || _); [apply under_way_reject|exact Hu].
  - destruct (challenge_ok v k now a); [destruct (unhex_nonce _); [|apply under_way_reject]|].
    + by apply (under_way_socket k _ a Ek).
    + destruct (is_str (get v "type") "ready" && _); [|apply under_way_reject].
      intros _ _. right. right. eexists. by split_and!.
Qed.

Lemma under_way_signed g r a : under_way a → under_way (signed g r a).
Proof.
  intros Hu. unfold signed. destruct (a_socket a) as [k|] eqn:Ek; [|done].
  destruct (negb (k_gen k =? g) || _); [done|].
  assert (Hu1 : under_way (with_socket (Some (with_signing false k)) a)) by by eapply under_way_socket.
  destruct r as [sig|e]; [destruct (_ || _); [done|]|destruct (current _ _); [apply under_way_reject|done]].
  by apply (under_way_socket (with_signing false k) _ (with_socket (Some (with_signing false k)) a)).
Qed.

Lemma under_way_onclose code a : under_way a → under_way (onclose code a).
Proof.
  intros Hu. unfold onclose. destruct (a_socket a) as [k|] eqn:Ek; [|done].
  set (k1 := Socket (k_gen k) (k_key k) (k_phase k) (k_signing k) false true).
  unfold current. cbn [k_gen k1 a_generation a_closed with_socket].
  destruct (k_gen k =? a_generation a) eqn:Eg; bools; cbn [andb negb].
  - destruct (a_closed a) eqn:Hcl; cbn [negb].
    { intros Hc. cbn in Hc. congruence. }
    destruct ((code =? 1008) || bool_decide (k_phase k1 = PRejected)); [by intros _ []|].
    rewrite Eg. apply (under_way_reconnect (with_ready false (with_timers _ false (with_socket (Some k1) a)))).
  - intros Hc Hs. destruct (Hu Hc Hs) as [?|[?|(k2 & E2 & G2 & _)]]; [by left|by right; left|].
    rewrite Ek in E2. injection E2 as <-. congruence.
Qed.

Lemma under_way_handle origin e a : inv origin a → under_way a → under_way (handle e a).
Proof.
  intros Hi Hu. destruct e as [g r d|g r d|ok|m now|g r|code| | | | |f b|u]; cbn [handle].
  - by apply under_way_key_known.
  - by apply under_way_url_resolved.
  - destruct (live a); [|done]. unfold onopen. destruct (a_socket a) as [k|] eqn:Ek; [|done].
    destruct (negb _); [by eapply under_way_socket|]. destruct ok; [|apply under_way_reject].
    by apply (under_way_socket k _ a Ek).
  - destruct (live a) eqn:El; [by apply under_way_onmessage|done].
  - by apply under_way_signed.
  - destruct (live a); [by apply under_way_onclose|done].
  - unfold auth_timeout. destruct (a_authTimer a); [|done].
    destruct (a_socket _) as [k|] eqn:Ek; [|done]. destruct (current _ _ && _); [|done].
    by apply (under_way_socket k _ a Ek).
  - unfold retry_timeout. destruct (a_retryTimer a); [apply under_way_connect|done].
  - unfold retry. destruct (a_closed a); [done|apply under_way_connect].
  - unfold identity_closed. destruct (a_watching a) eqn:E; [|done]. apply under_way_destroy.
    cbn. destruct (a_closed a) eqn:Hcl; [|done]. destruct (inv_closed origin a Hi Hcl) as (_ & ? & _). congruence.
  - unfold send. destruct (a_socket a); [|done]. destruct (_ || _); [done|]. by destruct (_ || _).
  - unfold destroy. destruct (a_closed a) eqn:E; [done|]. by destruct u.
Qed.

Lemma run_under_way fixedURL origin l : under_way (run fixedURL origin l).
Proof.
  induction l as [|e l IH] using rev_ind; [apply under_way_connect|].
  unfold run. rewrite foldl_app. eapply under_way_handle; [apply relay_run_inv|done].
Qed.

(** ** A closed adapter is silent *)
Lemma closed_current k a :
  k_gen k < a_generation a → current k a = false.
Proof. intros H. unfold current. by rewrite (proj2 (Z.eqb_neq _ _)) by lia. Qed.

Lemma closed_silent origin e a :
  inv origin a → a_closed a = true →
  a_closed (handle e a) = true ∧ a_log (handle e a) = a_log a.
Proof.
  intros Hi Hcl. destruct (inv_closed origin a Hi Hcl) as (Hrt & Hw & Hk).
  assert (Hready : a_ready a = false).
  { destruct (a_ready a) eqn:E; [|done]. destruct (inv_ready origin a Hi E). congruence. }
  assert (Hstep : ∀ g st, map_get g (a_steps a) = Some st → g =? a_generation a = false).
  { intros g st Hm. apply Z.eqb_neq. intros Hg. apply map_get_elem in Hm.
    apply (list_elem_of_fmap_2 fst) in Hm. destruct (inv_steps origin a Hi g Hm) as [_ Hx].
    destruct (Hx Hg). congruence. }
  assert (Hu : ∀ g key r d b, a_closed b = true → url_known g key r d b = b).
  { intros g key r d b Hb. unfold url_known, reconnect. rewrite Hb. rewrite orb_true_r. by destruct r. }
  destruct e as [g r d|g r d|ok|m now|g r|code| | | | |f b|u]; cbn [handle].
  - unfold key_known. destruct (map_get g (a_steps a)) as [[|]|] eqn:E; try done.
    cbn. rewrite (Hstep g _ E). by destruct r.
  - unfold url_resolved. destruct (map_get g (a_steps a)) as [[|]|] eqn:E; try done. by rewrite Hu.
  - destruct (live a); [|done]. unfold onopen. destruct (a_socket a) as [k|]; [|done].
    by rewrite closed_current by (cbn; auto).
  - destruct (live a); [|done]. unfold onmessage. destruct (a_socket a) as [k|]; [|done].
    by rewrite closed_current by auto.
  - unfold signed. destruct (a_socket a) as [k|]; [|done]. destruct (_ || _); [done|].
    rewrite closed_current by (cbn; auto). by destruct r.
  - destruct (live a); [|done]. unfold onclose. destruct (a_socket a) as [k|]; [|done].
    by rewrite closed_current by (cbn; auto).
  - unfold auth_timeout. destruct (a_authTimer a); [|done]. cbn. destruct (a_socket a) as [k|]; [|done].
    by rewrite closed_current by (cbn; auto).
  - unfold retry_timeout. by rewrite Hrt.
  - unfold retry. by rewrite Hcl.
  - unfold identity_closed. by rewrite Hw.
  - unfold send. rewrite Hready. by destruct (a_socket a).
  - unfold destroy. by rewrite Hcl.
Qed.

(** ** Properties *)

(** C26: only an authenticated relay exchanges frames.  In every run each frame sent
    or received belongs to a socket on which the adapter has answered a challenge,
    and respects the Ethernet bounds; a signature is sent only after the Worker was
    asked to sign a challenge of that socket, for the address that was dialled, the
    page's own origin and an expiry at most 11 s ahead and 1 s past; and every
    reconnection waits between 1 and 30 s. *)
Theorem relay_authenticated (fixedURL : option string) (origin : string) (l : list event)
    (past future : list output) (o : output) :
  a_log (run fixedURL origin l) = past ++ o :: future →
  justified origin past o.
Proof. apply past_ok_split, relay_run_inv. Qed.

(** A handshake on a fixed address, and a frame. *)
Definition sample_origin : string := "https://x".
Definition sample_challenge : jsval :=
  JObj [field "type" (JStr "challenge"); field "url" (JStr "wss://r"); field "origin" (JStr "https://x");
        field "expires" (JNum (NInt 100));
        field "nonce" (JStr "00112233445566778899aabbccddeeff00112233445566778899aabbccddeeff")].
Definition sample_run : list event :=
  [KeyKnown 1 (Ok [1;2]) true; Opened true; Message (Text (Ok sample_challenge)) 95000; Signed 1 (Ok [3]);
   Message (Text (Ok (JObj [field "type" (JStr "ready")]))) 95100; SendFrame [0;0] 0].

Lemma relay_authenticated_witness :
  let past := take 6 (a_log (run (Some "wss://r"%string) sample_origin sample_run)) in
  State Online ∈ past ∧ justified sample_origin past (FrameOut 1 [0;0]).
Proof.
  cbv zeta. split; [|eapply (relay_authenticated (Some "wss://r"%string) sample_origin sample_run _ [])].
  - apply (list_elem_of_lookup_2 _ 5). vm_compute. reflexivity.
  - vm_compute. reflexivity.
Defined.

(** The adapter neither stops for good nor comes back.  An adapter that is open
    and that the relay has not rejected always has a reconnection timer, a step of
    its connection or a current socket whose close event is still to come, so it
    tries again whatever fails; once destroyed it stays closed and no event makes
    it call the page, dial, sign, or pass a frame. *)
Theorem relay_lifecycle (fixedURL : option string) (origin : string) (l : list event) (e : event) :
  let a := run fixedURL origin l in
  under_way a ∧
  (a_closed a = true → a_closed (handle e a) = true ∧ a_log (handle e a) = a_log a) ∧
  (a_ready a = true → a_closed a = false ∧
   ∃ k, a_socket a = Some k ∧ k_gen k = a_generation a ∧ authenticated (k_gen k) (a_log a)).
Proof.
  cbv zeta. split_and!.
  - apply run_under_way.
  - intros Hc. eapply closed_silent; [apply relay_run_inv|done].
  - eapply inv_ready, relay_run_inv.
Qed.

(** A signer that fails destroys the adapter; a late answer changes nothing. *)
Lemma relay_lifecycle_witness :
  let a := run None sample_origin [Retry; KeyKnown 2 (Throw (Exn None "locked")) true] in
  a_closed a = true ∧ a_log (handle (KeyKnown 1 (Ok [1]) true) a) = a_log a.
Proof.
  cbv zeta. split; [reflexivity|].
  destruct (relay_lifecycle None sample_origin [Retry; KeyKnown 2 (Throw (Exn None "locked")) true]
    (KeyKnown 1 (Ok [1]) true)) as (_ & H & _).
  exact (proj2 (H eq_refl)).
Defined.

End RelayNetwork.
