(* ===== verification/DirectPointer.v ===== *)
(** * Absolute pointer input (src/src/browser/direct-pointer.js)

    [setupDirectPointer] sends the host pointer's position to a guest that accepts
    absolute packets.  The state is that of the closure with what it changes
    outside: the cursor of the display, the flag of each machine's own mouse adapter
    and the pointer captures.  One definition per listener; the event carries what
    the listener reads from the page.  Coordinates are numbers of 2^-20 pixels. *)
From S2P Require Import Prelude.
#[local] Open Scope Z_scope.

Module DirectPointer.

Definition pixel : Z := 2 ^ 20.

(** What a listener reads: the current machine and whether it runs, the bounds of
    the surface (left, top, width, height) and whether a pointer lock is held. *)
Record page := Page {
  p_machine : option Z;
  p_running : bool;
  p_surface : option (Z * Z * Z * Z);
  p_locked : bool
}.

Inductive gesture :=
| TouchGesture (id x y : Z) (cancelled : bool)
| MouseGesture (id : Z).

Definition gesture_id (g : gesture) : Z :=
  match g with TouchGesture id _ _ _ => id | MouseGesture id => id end.

Definition buttons : Type := bool * bool * bool.
Definition no_buttons : buttons := (false, false, false).
Definition some_button (b : buttons) : bool := let '(l, m, r) := b in l || m || r.

Inductive output :=
| Click (vm : Z) (b : buttons)
| Absolute (vm : Z) (x y width height : Z)
| PointerLock (vm : Z) (locked : bool)
| Wheel (vm : Z) (dy dx : Z)
| LegacyMouseUp (button : Z)
| ExitPointerLock.

Record pointer := Pointer {
  t_enabled : bool;
  t_vm : option Z;
  t_gesture : option gesture;
  t_buttons : buttons;
  t_previousMouse : bool;
  t_previousCursor : string;
  t_cursor : string;                 (** [display.style.cursor] *)
  t_mouse : list (Z * bool);         (** [emu_enabled] of each machine's mouse adapter *)
  t_captured : list Z;
  t_sent : list output
}.

Definition new_pointer (cursor : string) (mouse : list (Z * bool)) : pointer :=
  Pointer false None None no_buttons true EmptyString cursor mouse [] [].

Definition emit (o : output) (t : pointer) : pointer :=
  Pointer (t_enabled t) (t_vm t) (t_gesture t) (t_buttons t) (t_previousMouse t) (t_previousCursor t)
    (t_cursor t) (t_mouse t) (t_captured t) (t_sent t ++ [o]).
Definition with_gesture (g : option gesture) (t : pointer) : pointer :=
  Pointer (t_enabled t) (t_vm t) g (t_buttons t) (t_previousMouse t) (t_previousCursor t)
    (t_cursor t) (t_mouse t) (t_captured t) (t_sent t).
Definition with_buttons (b : buttons) (t : pointer) : pointer :=
  Pointer (t_enabled t) (t_vm t) (t_gesture t) b (t_previousMouse t) (t_previousCursor t)
    (t_cursor t) (t_mouse t) (t_captured t) (t_sent t).
Definition with_captured (l : list Z) (t : pointer) : pointer :=
  Pointer (t_enabled t) (t_vm t) (t_gesture t) (t_buttons t) (t_previousMouse t) (t_previousCursor t)
    (t_cursor t) (t_mouse t) l (t_sent t).
Definition with_vm (vm : option Z) (t : pointer) : pointer :=
  Pointer (t_enabled t) vm (t_gesture t) (t_buttons t) (t_previousMouse t) (t_previousCursor t)
    (t_cursor t) (t_mouse t) (t_captured t) (t_sent t).

(** A message to [vm], if there is one. *)
Definition to_vm (o : Z → output) (t : pointer) : pointer :=
  match t_vm t with Some vm => emit (o vm) t | None => t end.

(** [running()]. *)
Definition running (p : page) (t : pointer) : bool :=
  match t_vm t with
  | Some vm => bool_decide (p_machine p = Some vm) && p_running p
  | None => false
  end.

(** [position(event,clamp)]. *)
Definition position (p : page) (clientX clientY : Z) (clamp : bool) : option (Z * Z * Z * Z) :=
  match p_surface p with
  | Some (left_, top, width, height) =>
      if (width <=? 0) || (height <=? 0) then None
      else
        let x := clientX - left_ in
        let y := clientY - top in
        if negb clamp && ((x <? 0) || (y <? 0) || (width <=? x) || (height <=? y)) then None
        else Some (Z.max 0 (Z.min width x), Z.max 0 (Z.min height y), width, height)
  | None => None
  end.

(** [move(point)]. *)
Definition move (point : Z * Z * Z * Z) (t : pointer) : pointer :=
  let '(x, y, width, height) := point in
  to_vm (λ vm, Absolute vm x y width height) (to_vm (λ vm, PointerLock vm false) t).

(** [release()]. *)
Definition release (t : pointer) : pointer :=
  let previous := t_gesture t in
  let t := with_gesture None t in
  let t := if some_button (t_buttons t) then to_vm (λ vm, Click vm no_buttons) t else t in
  let t := with_buttons no_buttons t in
  match previous with
  | Some g =>
      if bool_decide (gesture_id g ∈ t_captured t)
      then with_captured (filter (λ i, i ≠ gesture_id g) (t_captured t)) t else t
  | None => t
  end.

(** [unlocked()]. *)
Definition unlocked (p : page) (t : pointer) : pointer :=
  if t_enabled t then
    to_vm (λ vm, PointerLock vm false) (if p_locked p then emit ExitPointerLock t else t)
  else t.

(** [vm.mouse_set_enabled(value)]: nothing without a mouse adapter. *)
Definition mouse_set_enabled (vm : Z) (value : bool) (mouse : list (Z * bool)) : list (Z * bool) :=
  match map_get vm mouse with Some _ => map_set vm value mouse | None => mouse end.

(** [setEnabled(value)]. *)
Definition setEnabled (value : bool) (p : page) (t : pointer) : pointer :=
  if bool_decide (value = t_enabled t) then t
  else
    let t := release t in
    if value then
      let t := with_vm (p_machine p) t in
      match p_machine p with
      | Some vm =>
          let t := emit (LegacyMouseUp 2) (emit (LegacyMouseUp 1) (emit (LegacyMouseUp 0) t)) in
          let t := emit (Click vm no_buttons) t in
          unlocked p
            (Pointer true (t_vm t) (t_gesture t) (t_buttons t) (default true (map_get vm (t_mouse t)))
               (t_cursor t) "none" (mouse_set_enabled vm false (t_mouse t)) (t_captured t) (t_sent t))
      | None => t
      end
    else
      Pointer false None (t_gesture t) (t_buttons t) (t_previousMouse t) (t_previousCursor t)
        (t_previousCursor t)
        (match t_vm t with
         | Some vm => mouse_set_enabled vm (t_previousMouse t) (t_mouse t)
         | None => t_mouse t
         end) (t_captured t) (t_sent t).

(** The three buttons of an event's [buttons] mask. *)
Definition mask (b : Z) : buttons := (Z.testbit b 0, Z.testbit b 2, Z.testbit b 1).

Definition hypot (dx dy : Z) : Z := Z.sqrt (dx * dx + dy * dy).

Definition is_touch (g : option gesture) : bool :=
  match g with Some (TouchGesture _ _ _ _) => true | _ => false end.

(** The fields of a pointer event. *)
Record pointer_event := PointerEvent {
  e_id : Z; e_mouse : bool; e_primary : bool; e_x : Z; e_y : Z; e_button : Z; e_buttons : Z
}.

(** ** Listeners of the display *)
Definition pointerdown (p : page) (e : pointer_event) (t : pointer) : pointer :=
  if negb (t_enabled t) then t
  else if negb (running p t) || p_locked p then t
  else
    let point := position p (e_x e) (e_y e) false in
    let capture t := with_captured (e_id e :: filter (λ i, i ≠ e_id e) (t_captured t)) t in
    if negb (e_mouse e) then
      if bool_decide (is_Some (t_gesture t)) || negb (e_primary e) then release t
      else
        match point with
        | None => t
        | Some _ => capture (with_gesture (Some (TouchGesture (e_id e) (e_x e) (e_y e) false)) t)
        end
    else
      match point with
      | None => t
      | Some point =>
          if 2 <? e_button e then t
          else
            let t := if is_touch (t_gesture t) then release t else t in
            let t := with_buttons (mask (e_buttons e)) (move point t) in
            let t := to_vm (λ vm, Click vm (t_buttons t)) t in
            capture (with_gesture (Some (MouseGesture (e_id e))) t)
      end.

(** The end of [pointermove]: buttons that changed while the pointer moved. *)
Definition move_buttons (e : pointer_event) (t : pointer) : pointer :=
  match t_gesture t with
  | Some _ =>
      let next := mask (e_buttons e) in
      if bool_decide (next = t_buttons t) then t
      else to_vm (λ vm, Click vm next) (with_buttons next t)
  | None => t
  end.

Definition pointermove (p : page) (e : pointer_event) (t : pointer) : pointer :=
  if negb (t_enabled t) then t
  else if negb (running p t) then release t
  else
    match t_gesture t with
    | Some (TouchGesture id x y cancelled) =>
        if (id =? e_id e) && (8 * pixel <? hypot (e_x e - x) (e_y e - y))
        then with_gesture (Some (TouchGesture id x y true)) t else t
    | _ =>
        if negb (e_mouse e) || p_locked p then t
        else
          let t := if bool_decide (is_Some (t_gesture t)) && (e_buttons e =? 0) then release t else t in
          let t := match position p (e_x e) (e_y e) (bool_decide (is_Some (t_gesture t))) with
                   | Some point => move point t
                   | None => t
                   end in
          move_buttons e t
    end.

Definition pointerup (p : page) (e : pointer_event) (t : pointer) : pointer :=
  if negb (t_enabled t) then t
  else
    match t_gesture t with
    | None => t
    | Some g =>
        if negb (gesture_id g =? e_id e) then t
        else if negb (running p t) then release t
        else
          match g with
          | TouchGesture _ x y cancelled =>
              let point := position p (e_x e) (e_y e) false in
              let t := release t in
              match point with
              | Some point =>
                  if negb cancelled && (hypot (e_x e - x) (e_y e - y) <=? 8 * pixel)
                  then to_vm (λ vm, Click vm no_buttons)
                         (to_vm (λ vm, Click vm (true, false, false)) (move point t))
                  else t
              | None => t
              end
          | MouseGesture _ =>
              let t := match position p (e_x e) (e_y e) true with
                       | Some point => move point t
                       | None => t
                       end in
              let t := with_buttons (mask (e_buttons e)) t in
              let t := to_vm (λ vm, Click vm (t_buttons t)) t in
              if some_button (t_buttons t) then t else release t
          end
    end.

(** [pointercancel] and [lostpointercapture]. *)
Definition pointercancel (id : Z) (t : pointer) : pointer :=
  match t_gesture t with
  | Some g => if t_enabled t && (gesture_id g =? id) then release t else t
  | None => t
  end.

(** [pointerdown] anywhere in the document. *)
Definition document_pointerdown (e : pointer_event) (t : pointer) : pointer :=
  match t_gesture t with
  | Some g => if t_enabled t && negb (e_mouse e) && negb (e_id e =? gesture_id g) then release t else t
  | None => t
  end.

Definition wheel (p : page) (x y deltaX deltaY : Z) (t : pointer) : pointer :=
  if negb (t_enabled t) then t
  else
    match position p x y false with
    | Some point =>
        if negb (running p t) || p_locked p then t
        else to_vm (λ vm, Wheel vm (- Z.sgn deltaY) (- Z.sgn deltaX)) (move point t)
    | None => t
    end.

Inductive event :=
| PointerDown (e : pointer_event)
| PointerMove (e : pointer_event)
| PointerUp (e : pointer_event)
| PointerCancel (id : Z)
| CaptureLost (id : Z)
| DocumentPointerDown (e : pointer_event)
| WheelTurned (x y deltaX deltaY : Z)
| Blur
| VisibilityChange (hidden : bool)
| PointerLockChange
| Release
| SetEnabled (value : bool).          (** [activate], [deactivate] and [destroy] *)

Definition handle (p : page) (e : event) (t : pointer) : pointer :=
  match e with
  | PointerDown e => pointerdown p e t
  | PointerMove e => pointermove p e t
  | PointerUp e => pointerup p e t
  | PointerCancel id => pointercancel id t
  | CaptureLost id => pointercancel id (with_captured (filter (λ i, i ≠ id) (t_captured t)) t)
  | DocumentPointerDown e => document_pointerdown e t
  | WheelTurned x y dx dy => wheel p x y dx dy t
  | Blur => release t
  | VisibilityChange hidden => if hidden then release t else t
  | PointerLockChange => unlocked p t
  | Release => release t
  | SetEnabled value => setEnabled value p t
  end.

Definition run (l : list (page * event)) (t : pointer) : pointer :=
  foldl (λ t pe, handle pe.1 pe.2 t) t l.

(** ** The guest's view *)
Definition held_step (vm : Z) (held : buttons) (o : output) : buttons :=
  match o with Click vm' b => if vm' =? vm then b else held | _ => held end.
Definition held (vm : Z) (sent : list output) : buttons := foldl (held_step vm) no_buttons sent.
#[local] Arguments held vm sent : simpl never.

(** The buttons a machine should hold. *)
Definition intended (vm : Z) (t : pointer) : buttons :=
  if bool_decide (t_vm t = Some vm) then t_buttons t else no_buttons.

(** Positions lie in a surface that is not empty. *)
Definition in_bounds (o : output) : Prop :=
  match o with
  | Absolute _ x y w h => 0 ≤ x ≤ w ∧ 0 ≤ y ≤ h ∧ 0 < w ∧ 0 < h
  | _ => True
  end.

Record inv (t : pointer) : Prop := {
  inv_held vm : held vm (t_sent t) = intended vm t;
  inv_buttons : some_button (t_buttons t) = true → ∃ id, t_gesture t = Some (MouseGesture id);
  inv_enabled : if t_enabled t then is_Some (t_vm t) else t_vm t = None ∧ t_gesture t = None;
  inv_bounds : Forall in_bounds (t_sent t)
}.

Lemma pointer_held_snoc vm l o : held vm (l ++ [o]) = held_step vm (held vm l) o.
Proof. unfold held. by rewrite foldl_app. Qed.

Lemma no_buttons_spec b : some_button b = false → b = no_buttons.
Proof. destruct b as [[[] []] []]; done. Qed.

Lemma inv_no_gesture t : inv t → is_touch (t_gesture t) = true ∨ t_gesture t = None → t_buttons t = no_buttons.
Proof.
  intros [_ Hb _ _] Hg. apply no_buttons_spec. destruct (some_button (t_buttons t)); [|done].
  destruct (Hb eq_refl) as [id E]. rewrite E in Hg. by destruct Hg.
Qed.

(** An output that presses or releases nothing. *)
Definition quiet (o : output) : Prop := match o with Click _ _ => False | _ => in_bounds o end.

Lemma pointer_inv_emit o t : quiet o → inv t → inv (emit o t).
Proof.
  intros Hq [H1 H2 H3 H4]. split; cbn; try done.
  - intros vm. rewrite pointer_held_snoc, H1. by destruct o.
  - apply Forall_app. split; [done|]. repeat constructor. by destruct o.
Qed.

Lemma inv_to_vm (o : Z → output) t : (∀ vm, quiet (o vm)) → inv t → inv (to_vm o t).
Proof. intros Hq Hi. unfold to_vm. destruct (t_vm t); [by apply pointer_inv_emit|done]. Qed.

Lemma inv_captured l t : inv t → inv (with_captured l t).
Proof. by intros []. Qed.

Lemma to_vm_fields (o : Z → output) t :
  t_vm (to_vm o t) = t_vm t ∧ t_gesture (to_vm o t) = t_gesture t ∧ t_buttons (to_vm o t) = t_buttons t ∧
  t_enabled (to_vm o t) = t_enabled t.
Proof. unfold to_vm. destruct (t_vm t) eqn:E; cbn; by rewrite ?E. Qed.

(** New buttons for the machine, under a gesture of the mouse if any is pressed. *)
Lemma inv_press b t :
  inv t → (some_button b = true → ∃ id, t_gesture t = Some (MouseGesture id)) →
  inv (to_vm (λ vm, Click vm b) (with_buttons b t)).
Proof.
  intros [H1 H2 H3 H4] Hb. unfold to_vm. cbn [t_vm with_buttons]. destruct (t_vm t) as [vm|] eqn:Ev.
  - split; cbn; rewrite ?Ev; try done.
    + intros v. rewrite pointer_held_snoc, H1. unfold intended. cbn. rewrite Ev. destruct (vm =? v) eqn:E; bools.
      * subst. by rewrite bool_decide_eq_true_2.
      * by rewrite !bool_decide_eq_false_2 by congruence.
    + apply Forall_app. split; [done|]. by repeat constructor.
  - split; cbn; rewrite ?Ev; try done.
    intros v. rewrite H1. unfold intended. cbn. by rewrite Ev.
Qed.

(** Nothing to send when no button is pressed. *)
Lemma inv_press_none t : inv t → t_buttons t = no_buttons → inv (with_buttons no_buttons t).
Proof. intros [H1 H2 H3 H4] Hb. split; cbn; try done. intros vm. rewrite H1. unfold intended. cbn. by rewrite Hb. Qed.

Lemma release_eq t :
  inv t →
  inv (release t) ∧ t_gesture (release t) = None ∧ t_vm (release t) = t_vm t ∧
  t_enabled (release t) = t_enabled t ∧ t_buttons (release t) = no_buttons.
Proof.
  intros Hi. unfold release.
  set (t2 := with_buttons no_buttons (if some_button (t_buttons (with_gesture None t))
    then to_vm (λ vm, Click vm no_buttons) (with_gesture None t) else with_gesture None t)).
  assert (H : inv t2 ∧ t_gesture t2 = None ∧ t_vm t2 = t_vm t ∧ t_enabled t2 = t_enabled t ∧ t_buttons t2 = no_buttons).
  { pose proof (inv_press no_buttons t Hi (λ H, False_ind _ (Bool.diff_false_true H))) as [H1 H2 H3 H4].
    unfold t2. cbn [t_buttons with_gesture]. destruct (some_button (t_buttons t)) eqn:Eb.
    - unfold to_vm in *. cbn [t_vm with_gesture with_buttons] in *.
      destruct (t_vm t) as [vm|] eqn:Ev; cbn in *; rewrite ?Ev in *; split_and!; try done;
        (split; cbn; rewrite ?Ev; try done; destruct (t_enabled t); naive_solver).
    - apply no_buttons_spec in Eb. destruct Hi as [G1 G2 G3 G4]. split_and!; try done.
      split; cbn; try done.
      + intros vm. rewrite G1. unfold intended. cbn. by rewrite Eb.
      + destruct (t_enabled t); naive_solver. }
  clearbody t2. destruct H as (H1 & H2 & H3 & H4 & H5).
  destruct (t_gesture t) as [g|]; [case_bool_decide|]; split_and!; try done; by apply inv_captured.
Qed.

Lemma pointer_inv_release t : inv t → inv (release t).
Proof. intros. by apply release_eq. Qed.

Lemma position_bounds p x y c point vm :
  position p x y c = Some point → let '(px, py, w, h) := point in in_bounds (Absolute vm px py w h).
Proof.
  unfold position. destruct (p_surface p) as [[[[l tp] w] h]|]; [|done].
  destruct ((w <=? 0) || (h <=? 0)) eqn:E; [done|]. bools. destruct (negb c && _); [done|].
  intros [= <-]. cbn. lia.
Qed.

Lemma inv_move p x y c point t : position p x y c = Some point → inv t → inv (move point t).
Proof.
  intros Hp Hi. unfold move. destruct point as [[[px py] w] h].
  apply inv_to_vm; [|by apply inv_to_vm]. intros vm. exact (position_bounds p x y c _ vm Hp).
Qed.

Lemma move_fields point t :
  t_vm (move point t) = t_vm t ∧ t_gesture (move point t) = t_gesture t ∧ t_buttons (move point t) = t_buttons t ∧
  t_enabled (move point t) = t_enabled t.
Proof. destruct point as [[[px py] w] h]. unfold move, to_vm. destruct (t_vm t) eqn:E; cbn; by rewrite ?E. Qed.

(** A gesture that presses nothing, or one of the mouse. *)
Lemma inv_with_gesture g t :
  inv t → t_enabled t = true → t_buttons t = no_buttons ∨ is_touch g = false ∧ g ≠ None → inv (with_gesture g t).
Proof.
  intros [H1 H2 H3 H4] He Hg. split; cbn; try done.
  - intros Hb. destruct Hg as [Hn|[Ht Hn]]; [by rewrite Hn in Hb|]. destruct g as [[]|]; try done. by eexists.
  - rewrite He in H3 |- *. done.
Qed.

Lemma running_vm p t : running p t = true → ∃ vm, t_vm t = Some vm ∧ p_machine p = Some vm.
Proof. unfold running. destruct (t_vm t) as [vm|]; [|done]. intros. bools. eauto. Qed.

Lemma inv_capture id t : inv t → inv (with_captured (id :: filter (λ i, i ≠ id) (t_captured t)) t).
Proof. apply inv_captured. Qed.

Lemma inv_pointerdown p e t : inv t → inv (pointerdown p e t).
Proof.
  intros Hi. unfold pointerdown. destruct (t_enabled t) eqn:He; [|done].
  cbn [negb]. destruct (negb (running p t) || p_locked p); [done|].
  destruct (e_mouse e); cbn [negb].
  - destruct (position p (e_x e) (e_y e) false) as [point|] eqn:Ep; [|done].
    destruct (2 <? e_button e); [done|].
    set (t1 := if is_touch (t_gesture t) then release t else t).
    assert (H1 : inv t1 ∧ t_enabled t1 = true).
    { unfold t1. destruct (is_touch _); [|done]. destruct (release_eq t Hi) as (? & _ & _ & Hen & _).
      split; [done|congruence]. }
    destruct H1 as [Hi1 He1]. destruct (move_fields point t1) as (_ & _ & _ & Hme).
    pose proof (inv_move p _ _ _ _ t1 Ep Hi1) as Hm. apply inv_capture.
    set (t2 := move point t1) in *. clearbody t2.
    assert (Hg : inv (with_gesture (Some (MouseGesture (e_id e))) t2)).
    { apply inv_with_gesture; [done|congruence|right; done]. }
    pose proof (inv_press (mask (e_buttons e)) _ Hg (λ _, ex_intro _ (e_id e) eq_refl)) as Hpr.
    unfold to_vm in *. cbn [t_vm with_gesture with_buttons t_buttons] in *. destruct (t_vm t2); exact Hpr.
  - destruct (bool_decide (is_Some (t_gesture t)) || negb (e_primary e)) eqn:Eg; [by apply pointer_inv_release|]. bools.
    destruct (position p (e_x e) (e_y e) false); [|done]. apply inv_capture, inv_with_gesture; [done|done|].
    left. apply inv_no_gesture; [done|]. right. by apply eq_None_not_Some.
Qed.

Lemma inv_move_if p x y c t :
  inv t → inv (match position p x y c with Some point => move point t | None => t end).
Proof. intros Hi. destruct (position p x y c) eqn:E; [by eapply inv_move|done]. Qed.

Lemma move_if_fields p x y c t :
  let t' := match position p x y c with Some point => move point t | None => t end in
  t_vm t' = t_vm t ∧ t_gesture t' = t_gesture t ∧ t_buttons t' = t_buttons t ∧ t_enabled t' = t_enabled t.
Proof. cbv zeta. destruct (position p x y c); [apply move_fields|done]. Qed.

Lemma inv_pointermove p e t : inv t → inv (pointermove p e t).
Proof.
  intros Hi. unfold pointermove. destruct (t_enabled t) eqn:He; [|done]. cbn [negb].
  destruct (running p t); [|by apply pointer_inv_release]. cbn [negb].
  assert (Hmb : ∀ t', inv t' → is_touch (t_gesture t') = false → inv (move_buttons e t')).
  { intros t' Hi' Hg'. unfold move_buttons. destruct (t_gesture t') as [[|id]|] eqn:Eg; [done| |done].
    case_bool_decide; [done|]. apply inv_press; [done|]. intros _. by exists id. }
  destruct (t_gesture t) as [[id x y c|id]|] eqn:Eg.
  - destruct (_ && _); [|done]. apply inv_with_gesture; [done|done|]. left. apply inv_no_gesture; [done|].
    rewrite Eg. by left.
  - destruct (negb (e_mouse e) || p_locked p); [done|].
    set (t1 := if bool_decide (is_Some (Some (MouseGesture id))) && (e_buttons e =? 0) then release t else t).
    assert (H1 : inv t1 ∧ is_touch (t_gesture t1) = false).
    { unfold t1. destruct (_ && _); [|by rewrite Eg]. destruct (release_eq t Hi) as (? & -> & _). done. }
    destruct H1 as [Hi1 Hg1]. apply Hmb; [by apply inv_move_if|].
    edestruct move_if_fields as (_ & -> & _). done.
  - destruct (negb (e_mouse e) || p_locked p); [done|].
    rewrite (bool_decide_eq_false_2 (is_Some None)) by (apply is_Some_None). cbn [andb].
    apply Hmb; [by apply inv_move_if|]. edestruct move_if_fields as (_ & -> & _). by rewrite Eg.
Qed.

Lemma inv_pointerup p e t : inv t → inv (pointerup p e t).
Proof.
  intros Hi. unfold pointerup. destruct (t_enabled t) eqn:He; [|done]. cbn [negb].
  destruct (t_gesture t) as [g|] eqn:Eg; [|done]. destruct (negb (gesture_id g =? e_id e)); [done|].
  destruct (running p t); [|by apply pointer_inv_release]. cbn [negb]. destruct g as [id x y c|id].
  - destruct (release_eq t Hi) as (Hi1 & Hg1 & _ & _ & Hb1).
    destruct (position p (e_x e) (e_y e) false) as [point|] eqn:Ep; [|done].
    destruct (_ && _); [|done]. pose proof (inv_move p _ _ _ _ _ Ep Hi1) as Him.
    destruct (move_fields point (release t)) as (_ & _ & Hb & _). rewrite Hb1 in Hb.
    set (t2 := move point (release t)) in *. clearbody t2. unfold to_vm. destruct (t_vm t2) as [vm|] eqn:Ev; [|by rewrite Ev].
    destruct Him as [H1 H2 H3 H4]. cbn [t_vm emit]. rewrite Ev. split; cbn; rewrite ?Ev; try done.
    + intros v. rewrite !pointer_held_snoc, H1. unfold intended. cbn. rewrite Ev, Hb.
      destruct (vm =? v) eqn:E; bools; cbn; [by destruct (bool_decide _)|].
      by rewrite !bool_decide_eq_false_2 by congruence.
    + rewrite Ev in H3. by destruct (t_enabled t2).
    + rewrite !Forall_app. repeat split; try done; by repeat constructor.
  - set (t1 := match position p (e_x e) (e_y e) true with Some point => move point t | None => t end).
    assert (Hi1 : inv t1) by by apply inv_move_if.
    assert (Hg1 : t_gesture t1 = Some (MouseGesture id)).
    { unfold t1. edestruct move_if_fields as (_ & -> & _). done. }
    pose proof (inv_press (mask (e_buttons e)) t1 Hi1 (λ _, ex_intro _ id Hg1)) as Hp.
    cbn [t_buttons with_buttons]. set (t2 := to_vm _ _) in *. destruct (some_button _); [done|by apply pointer_inv_release].
Qed.

Lemma inv_setEnabled v p t : inv t → inv (setEnabled v p t).
Proof.
  intros Hi. unfold setEnabled. case_bool_decide as Hv; [done|].
  destruct (release_eq t Hi) as (Hi1 & Hg & Hvm & Hen & Hb). set (t1 := release t) in *. clearbody t1.
  destruct Hi1 as [H1 H2 H3 H4]. destruct v.
  - rewrite Hen in H3. destruct (t_enabled t); [done|]. destruct H3 as [Hv1 _].
    assert (Hn : ∀ vm', held vm' (t_sent t1) = no_buttons).
    { intros vm'. rewrite H1. unfold intended. by rewrite Hv1. }
    destruct (p_machine p) as [vm|] eqn:Em.
    + unfold unlocked. cbn [t_enabled]. apply inv_to_vm; [done|].
      assert (Hs : inv (Pointer true (Some vm) (t_gesture t1) (t_buttons t1) (default true (map_get vm (t_mouse t1)))
        (t_cursor t1) "none" (mouse_set_enabled vm false (t_mouse t1)) (t_captured t1)
        ((((t_sent t1 ++ [LegacyMouseUp 0]) ++ [LegacyMouseUp 1]) ++ [LegacyMouseUp 2]) ++ [Click vm no_buttons]))).
      { split; cbn; try done.
        - intros v. rewrite !pointer_held_snoc, Hn. unfold intended. cbn. rewrite Hb.
          by destruct (vm =? v), (bool_decide _).
        - rewrite !Forall_app. repeat split; try done; by repeat constructor. }
      destruct (p_locked p); [by apply pointer_inv_emit|done].
    + split; cbn; try done. { by rewrite Hen. }
  - split; cbn; try done. intros vm. rewrite H1. unfold intended. cbn. rewrite Hb. by destruct (bool_decide _).
Qed.

Lemma inv_pointercancel id t : inv t → inv (pointercancel id t).
Proof. intros Hi. unfold pointercancel. destruct (t_gesture t); [|done]. destruct (_ && _); [by apply pointer_inv_release|done]. Qed.

Lemma pointer_inv_handle p e t : inv t → inv (handle p e t).
Proof.
  intros Hi. destruct e as [e|e|e|id|id|e|x y dx dy| |h| | |v]; cbn [handle].
  - by apply inv_pointerdown.
  - by apply inv_pointermove.
  - by apply inv_pointerup.
  - by apply inv_pointercancel.
  - by apply inv_pointercancel, inv_captured.
  - unfold document_pointerdown. destruct (t_gesture t); [|done]. destruct (_ && _); [by apply pointer_inv_release|done].
  - unfold wheel. destruct (negb (t_enabled t)); [done|]. destruct (position p x y false) eqn:Ep; [|done].
    destruct (_ || _); [done|]. apply inv_to_vm; [done|]. by eapply inv_move.
  - by apply pointer_inv_release.
  - destruct h; [by apply pointer_inv_release|done].
  - unfold unlocked. destruct (t_enabled t); [|done]. apply inv_to_vm; [done|].
    destruct (p_locked p); [by apply pointer_inv_emit|done].
  - by apply pointer_inv_release.
  - by apply inv_setEnabled.
Qed.

Lemma pointer_run_inv l t : inv t → inv (run l t).
Proof. revert t. unfold run. induction l as [|[p e] l IH]; intros t Hi; cbn; [done|]. by apply IH, pointer_inv_handle. Qed.

Lemma pointer_inv_new cursor mouse : inv (new_pointer cursor mouse).
Proof. by split. Qed.

(** ** What only [setEnabled] changes *)
Definition frame (t : pointer) : bool * option Z * bool * string * string * list (Z * bool) :=
  (t_enabled t, t_vm t, t_previousMouse t, t_previousCursor t, t_cursor t, t_mouse t).

Lemma frame_to_vm o t : frame (to_vm o t) = frame t.
Proof. unfold to_vm. destruct (t_vm t) eqn:E; [|done]. done. Qed.

Lemma frame_move point t : frame (move point t) = frame t.
Proof. destruct point as [[[x y] w] h]. unfold move. by rewrite !frame_to_vm. Qed.

Lemma frame_move_if p x y c t :
  frame (match position p x y c with Some point => move point t | None => t end) = frame t.
Proof. destruct (position p x y c); [apply frame_move|done]. Qed.

Lemma frame_release t : frame (release t) = frame t.
Proof.
  unfold release. set (t1 := if some_button _ then _ else _).
  assert (frame t1 = frame t) as H by (unfold t1; destruct (some_button _); [by rewrite frame_to_vm|done]).
  destruct (t_gesture t); [destruct (bool_decide _)|]; exact H.
Qed.

Definition is_setEnabled (e : event) : bool := match e with SetEnabled _ => true | _ => false end.

Lemma frame_handle p e t : is_setEnabled e = false → frame (handle p e t) = frame t.
Proof.
  intros He. destruct e as [e|e|e|id|id|e|x y dx dy| |h| | |v]; cbn [handle]; try done.
  - unfold pointerdown. destruct (negb (t_enabled t)); [done|]. destruct (_ || _); [done|].
    destruct (negb (e_mouse e)).
    + destruct (_ || _); [apply frame_release|]. by destruct (position _ _ _ _).
    + destruct (position _ _ _ _) as [pt|]; [|done]. destruct (2 <? e_button e); [done|].
      set (t1 := if is_touch (t_gesture t) then release t else t).
      assert (frame t1 = frame t) as H1 by (unfold t1; destruct (is_touch _); [apply frame_release|done]).
      rewrite <- H1, <- (frame_move pt t1). apply (frame_to_vm _ (with_buttons _ (move pt t1))).
  - unfold pointermove. destruct (negb (t_enabled t)); [done|].
    destruct (negb (running p t)); [apply frame_release|].
    assert (Hm : ∀ t', frame (move_buttons e t') = frame t').
    { intros t'. unfold move_buttons. destruct (t_gesture t'); [|done]. case_bool_decide; [done|].
      apply (frame_to_vm _ (with_buttons _ t')). }
    destruct (t_gesture t) as [[]|]; [by destruct (_ && _)| |];
      (destruct (_ || _); [done|]; rewrite Hm, frame_move_if; destruct (_ && _); [apply frame_release|done]).
  - unfold pointerup. destruct (negb (t_enabled t)); [done|]. destruct (t_gesture t) as [g|]; [|done].
    destruct (negb (_ =? _)); [done|]. destruct (negb (running p t)); [apply frame_release|]. destruct g.
    + destruct (position _ _ _ _) as [pt|]; [|apply frame_release].
      destruct (_ && _); [|apply frame_release]. by rewrite !frame_to_vm, frame_move, frame_release.
    + set (t1 := match position _ _ _ _ with Some point => move point t | None => t end).
      assert (frame t1 = frame t) as H1 by apply frame_move_if.
      assert (∀ o, frame (to_vm o (with_buttons (mask (e_buttons e)) t1)) = frame t) as H2.
      { intros o. rewrite <- H1. apply (frame_to_vm _ (with_buttons _ t1)). }
      destruct (some_button _); [apply H2|]. by rewrite frame_release, H2.
  - unfold pointercancel. destruct (t_gesture t); [|done]. destruct (_ && _); [apply frame_release|done].
  - unfold pointercancel. cbn [t_gesture with_captured]. destruct (t_gesture t); [|done].
    destruct (_ && _); [by rewrite frame_release|done].
  - unfold document_pointerdown. destruct (t_gesture t); [|done]. destruct (_ && _); [apply frame_release|done].
  - unfold wheel. destruct (negb _); [done|]. destruct (position _ _ _ _); [|done].
    destruct (_ || _); [done|]. by rewrite frame_to_vm, frame_move.
  - apply frame_release.
  - destruct h; [apply frame_release|done].
  - unfold unlocked. destruct (t_enabled t); [|done]. rewrite frame_to_vm. by destruct (p_locked p).
  - apply frame_release.
Qed.

Lemma frame_run l t : Forall (λ pe, is_setEnabled pe.2 = false) l → frame (run l t) = frame t.
Proof.
  unfold run. intros Hl. revert t. induction Hl as [|[p e] l He _ IH]; intros t; cbn [foldl]; [done|].
  rewrite IH. by apply frame_handle.
Qed.

(** Writing a flag back. *)
Lemma mouse_restored vm m :
  NoDup m.*1 → mouse_set_enabled vm (default true (map_get vm m)) (mouse_set_enabled vm false m) = m.
Proof.
  intros Hnd. unfold mouse_set_enabled. destruct (map_get vm m) as [b|] eqn:E; [|by rewrite E].
  rewrite map_get_set, Z.eqb_refl. cbn [default]. unfold map_set at 2. rewrite E.
  unfold map_set. rewrite map_get_replace, Z.eqb_refl, E. cbn. rewrite <- list_fmap_compose.
  rewrite <- (list_fmap_id m) at 2. apply list_fmap_ext. intros i [k b'] Hi. cbn.
  destruct (k =? vm) eqn:Ek; bools; cbn; [|by rewrite (proj2 (Z.eqb_neq _ _) Ek)].
  subst. rewrite Z.eqb_refl. f_equal. apply list_elem_of_lookup_2 in Hi.
  apply (elem_of_map_get vm b' m Hnd) in Hi. congruence.
Qed.

(** ** Properties *)

(** The events that end a gesture, with [enabled] read where the code reads it. *)
Definition ends (e : event) (t : pointer) : bool :=
  match e with
  | Blur | Release => true
  | VisibilityChange hidden => hidden
  | SetEnabled v => negb (eqb v (t_enabled t))
  | PointerCancel id | CaptureLost id =>
      match t_gesture t with Some g => t_enabled t && (gesture_id g =? id) | None => true end
  | _ => false
  end.

(** The guest's buttons and position are always sound.  After any events the
    current machine holds exactly the buttons the closure remembers, every other
    machine holds none, and a button is remembered only during a gesture of the
    mouse; a blur, a hidden page, a cancelled or lost pointer, [release], activation
    and deactivation leave every machine without a pressed button.  Every position
    sent lies in a surface that is not empty. *)
Theorem direct_pointer_sound (cursor : string) (mouse : list (Z * bool)) (l : list (page * event)) :
  let t := run l (new_pointer cursor mouse) in
  (∀ vm, held vm (t_sent t) = intended vm t) ∧
  (some_button (t_buttons t) = true → ∃ id, t_gesture t = Some (MouseGesture id)) ∧
  (∀ p e vm, ends e t = true → held vm (t_sent (handle p e t)) = no_buttons) ∧
  Forall in_bounds (t_sent t).
Proof.
  cbv zeta. pose proof (pointer_run_inv l _ (pointer_inv_new cursor mouse)) as Hi.
  set (t := run l (new_pointer cursor mouse)) in *. clearbody t. split_and!; [apply Hi|apply Hi| |apply Hi].
  intros p e vm He. rewrite (inv_held _ (pointer_inv_handle p e t Hi)). unfold intended.
  case_bool_decide as Hvm; [|done]. apply inv_no_gesture; [by apply pointer_inv_handle|]. right.
  destruct (release_eq t Hi) as (_ & Hg & _).
  destruct e as [e|e|e|id|id|e|x y dx dy| |h| | |v]; cbn [handle ends] in *; try done.
  - unfold pointercancel. destruct (t_gesture t) eqn:E; [by rewrite He|done].
  - pose proof (release_eq _ (inv_captured (filter (λ i, i ≠ id) (t_captured t)) t Hi)) as (_ & Hg2 & _).
    unfold pointercancel. cbn [t_gesture with_captured] in *. destruct (t_gesture t) eqn:E; [|by cbn].
    cbn [t_enabled with_captured]. by rewrite He.
  - by rewrite He.
  - unfold setEnabled in *. apply negb_true_iff, eqb_false_iff in He.
    rewrite bool_decide_eq_false_2 in * by done. destruct v; [|done]. destruct (p_machine p); [|done].
    unfold unlocked. cbn [t_enabled]. rewrite (proj1 (proj2 (to_vm_fields _ _))). by destruct (p_locked p).
Qed.

(** A drag of the left button interrupted by a blur. *)
Definition sample_page : page := Page (Some 1) true (Some (0, 0, 640, 480)) false.
Definition sample_drag : list (page * event) :=
  [(sample_page, SetEnabled true); (sample_page, PointerDown (PointerEvent 5 true true 10 20 0 1))].

Lemma direct_pointer_sound_witness :
  let t := run sample_drag (new_pointer "auto" [(1, true)]) in
  held 1 (t_sent t) = (true, false, false) ∧ held 1 (t_sent (handle sample_page Blur t)) = no_buttons.
Proof.
  cbv zeta. destruct (direct_pointer_sound "auto" [(1, true)] sample_drag) as (H1 & _ & H2 & _).
  split; [rewrite H1; reflexivity|]. exact (H2 sample_page Blur 1 eq_refl).
Defined.

(** Deactivation restores what activation changed.  From a disabled pointer,
    whatever input comes between an activation and the next deactivation, the cursor
    of the display and the flag of every machine's own mouse adapter are as before;
    in between the cursor is hidden and that adapter is off. *)
Theorem deactivation_restores (p p' : page) (vm : Z) (l : list (page * event)) (t : pointer) :
  t_enabled t = false → p_machine p = Some vm → NoDup (t_mouse t).*1 →
  Forall (λ pe, is_setEnabled pe.2 = false) l →
  let active := run l (setEnabled true p t) in
  let after := setEnabled false p' active in
  t_enabled active = true ∧ t_cursor active = "none"%string ∧
  map_get vm (t_mouse active) = (λ _, false) <$> map_get vm (t_mouse t) ∧
  t_enabled after = false ∧ t_vm after = None ∧ t_cursor after = t_cursor t ∧ t_mouse after = t_mouse t.
Proof.
  intros He Hm Hnd Hl. cbv zeta.
  assert (Ha : frame (setEnabled true p t) =
    (true, Some vm, default true (map_get vm (t_mouse t)), t_cursor t, "none"%string,
     mouse_set_enabled vm false (t_mouse t))).
  { unfold setEnabled. rewrite bool_decide_eq_false_2 by congruence. rewrite Hm. unfold unlocked. cbn [t_enabled].
    rewrite frame_to_vm. pose proof (frame_release t) as Hr. unfold frame in Hr. injection Hr as _ _ _ _ Hc Hms.
    destruct (p_locked p); unfold frame; cbn; by rewrite Hc, Hms. }
  pose proof (frame_run l (setEnabled true p t) Hl) as Hf. rewrite Ha in Hf.
  set (active := run l (setEnabled true p t)) in *. clearbody active. unfold frame in Hf.
  injection Hf as H1 H2 H3 H4 H5 H6.
  pose proof (frame_release active) as Hr. unfold frame in Hr. injection Hr as G1 G2 G3 G4 G5 G6.
  unfold setEnabled. rewrite bool_decide_eq_false_2 by congruence.
  cbn [t_enabled t_vm t_cursor t_mouse]. split_and!; try done.
  - rewrite H6. unfold mouse_set_enabled. destruct (map_get vm (t_mouse t)) eqn:E; [|by rewrite E].
    by rewrite map_get_set, Z.eqb_refl.
  - congruence.
  - rewrite G2, H2, G3, H3, G6, H6. by apply mouse_restored.
Qed.

Lemma deactivation_restores_witness :
  let t := new_pointer "auto" [(1, true); (2, false)] in
  let after := setEnabled false sample_page
    (run [(sample_page, PointerDown (PointerEvent 5 true true 10 20 0 1))] (setEnabled true sample_page t)) in
  t_cursor after = "auto"%string ∧ t_mouse after = [(1, true); (2, false)].
Proof.
  assert (NoDup (t_mouse (new_pointer "auto" [(1, true); (2, false)])).*1) as Hnd.
  { apply (bool_decide_unpack _). vm_compute. exact I. }
  assert (Forall (λ pe : page * event, is_setEnabled pe.2 = false)
    [(sample_page, PointerDown (PointerEvent 5 true true 10 20 0 1))]) as Hl by by repeat constructor.
  destruct (deactivation_restores sample_page sample_page 1 _ (new_pointer "auto" [(1, true); (2, false)])
    eq_refl eq_refl Hnd Hl)
    as (_ & _ & _ & _ & _ & H1 & H2).
  exact (conj H1 H2).
Defined.

End DirectPointer.
