(* ===== verification/MachineState.v ===== *)
(** * Saving and restoring the machine (src/src/browser/machine-state.js)

    [captureMachineState] stops the machine, drains its disk and saves both;
    [restoreMachineState] builds a second machine from a saved state and replaces
    the first one only when the disk has committed to the state.  Both are sequences
    of awaited calls with a [finally]: the model is a state and error monad whose
    state is the log of the calls made and the local variables the [finally] reads.
    The outcome of each call is an argument. *)
From S2P Require Import Prelude JsValue.
#[local] Open Scope Z_scope.

Module MachineState.

(** ** The configuration *)

(** [Number.isInteger(v)] with its bounds and [v%1048576===0]. *)
Definition size_ok (v : jsval) (low high : Z) : bool :=
  match v with
  | JNum (NInt z) => negb ((z <? low) || (high <? z) || negb (Z.rem z 1048576 =? 0))
  | _ => false
  end.

Definition MiB : Z := 1024 * 1024.

Definition validateConfig (c : jsval) : result jsval :=
  if negb (truthy c) || negb (size_ok (get c "memory_size") (16 * MiB) (512 * MiB)) ||
     negb (size_ok (get c "vga_memory_size") MiB (16 * MiB)) ||
     negb (is_int (get c "boot_order") 786) || negb (is_false (get c "acpi")) ||
     negb (is_str (get c "network") "ne2k")
  then throw_plain "Unsupported saved machine configuration"
  else Ok c.

Definition DEFAULT_CONFIG : jsval :=
  JObj [field "memory_size" (JNum (NInt (256 * MiB))); field "vga_memory_size" (JNum (NInt (8 * MiB)));
        field "boot_order" (JNum (NInt 786)); field "acpi" (JBool false); field "network" (JStr "ne2k")].

(** ** Calls *)
Inductive call :=
| StopMachine                 (** of the machine in use *)
| DrainAdapter
| SnapshotReady (b : bool)    (** the assignment to the adapter of the machine in use *)
| SaveMachine
| SaveDisk (running : bool)   (** [disk.saveState], with [running] of the metadata *)
| AddAbort
| RemoveAbort
| RunMachine                  (** of the machine in use *)
| PrepareState
| NewAdapter                  (** the candidate's adapter, ready for a snapshot *)
| CreateCandidate (config : jsval)
| RestoreCandidate
| DrainCandidate
| Commit (token : Z)
| CandidateCommitted          (** [view.committed=true;adapter.snapshotReady=false] *)
| DestroyCandidate
| DisposeAdapter
| Discard (token : Z).

(** What [disk.prepareState] returns. *)
Record prepared := Prepared { pr_token : Z; pr_metadata : jsval; pr_prefetchId : option jsval }.

(** ** The monad: a log, the locals, and exceptions *)
Record locals := Locals {
  l_log : list call;
  l_prepared : option prepared;
  l_candidate : bool;
  l_adapter : bool;
  l_committed : bool
}.

Definition M (A : Type) : Type := locals → locals * result A.

#[export] Instance M_ret : MRet M := λ A a l, (l, Ok a).
#[export] Instance M_bind : MBind M := λ A B f m l,
  match m l with (l, Ok a) => f a l | (l, Throw e) => (l, Throw e) end.

(** One call with its outcome. *)
Definition invoke {A} (c : call) (r : result A) : M A := λ l,
  (Locals (l_log l ++ [c]) (l_prepared l) (l_candidate l) (l_adapter l) (l_committed l), r).
Definition lift {A} (r : result A) : M A := λ l, (l, r).
Definition modify (f : locals → locals) : M unit := λ l, (f l, Ok tt).
Definition set_prepared (p : prepared) : M unit :=
  modify (λ l, Locals (l_log l) (Some p) (l_candidate l) (l_adapter l) (l_committed l)).
Definition set_candidate : M unit :=
  modify (λ l, Locals (l_log l) (l_prepared l) true (l_adapter l) (l_committed l)).
Definition set_adapter : M unit :=
  modify (λ l, Locals (l_log l) (l_prepared l) (l_candidate l) true (l_committed l)).
Definition set_committed : M unit :=
  modify (λ l, Locals (l_log l) (l_prepared l) (l_candidate l) (l_adapter l) true).

(** [try { m } finally { f }] where [f] reads the locals and does not throw. *)
Definition finally {A} (m : M A) (f : locals → list call) : M A := λ l,
  let '(l, r) := m l in
  (Locals (l_log l ++ f l) (l_prepared l) (l_candidate l) (l_adapter l) (l_committed l), r).

Definition when (b : bool) (m : M unit) : M unit := if b then m else mret tt.
Definition if_ (b : bool) (c : list call) : list call := if b then c else [].

Definition CANCELLED : exn := Exn (Some "CANCELLED"%string) "State operation cancelled".

(** [check(signal)]. *)
Definition check (aborted : bool) : M unit := lift (if aborted then Throw CANCELLED else Ok tt).
Definition assert_plain (b : bool) (message : string) : M unit :=
  lift (if b then Ok tt else throw_plain message).

Definition start : locals := Locals [] None false false false.

(** ** Capture *)

(** The outcomes of the awaited calls; [c_aborted] is the signal at each check. *)
Record capture_env := CaptureEnv {
  c_present : bool;                 (** a machine and an adapter, and no media inserted *)
  c_running : bool;
  c_aborted : bool * bool * bool;
  c_stop : result unit;
  c_drain : result unit;
  c_save : result unit;
  c_disk : result jsval;
  c_failed : bool                   (** [adapter.failed] at the end *)
}.

Definition captureMachineState (e : capture_env) (config : jsval) : M jsval :=
  let '(ab1, ab2, ab3) := c_aborted e in
  assert_plain (c_present e) "Eject the CD and both floppies before saving a state" ;;
  lift (validateConfig config) ;;
  check ab1 ;;
  invoke StopMachine (c_stop e) ;;
  finally
    (invoke DrainAdapter (c_drain e) ;;
     check ab2 ;;
     invoke (SnapshotReady true) (Ok tt) ;;
     invoke SaveMachine (c_save e) ;;
     check ab3 ;;
     invoke AddAbort (Ok tt) ;;
     invoke (SaveDisk (c_running e)) (c_disk e))
    (λ _, [RemoveAbort; SnapshotReady false] ++ if_ (c_running e && negb (c_failed e)) [RunMachine]).

(** ** Restore *)
Record restore_env := RestoreEnv {
  r_current : option bool;          (** [current], with [is_running()] of its machine *)
  r_aborted : bool * bool * bool * bool * bool;
  r_stop : result unit;
  r_drain : result unit;
  r_prepare : result prepared;
  r_create : result unit;
  r_restore : result unit;
  r_media : bool;                   (** [emptyMedia(candidate)] *)
  r_drain_candidate : result unit;
  r_commit : result jsval;
  r_failed : bool                   (** [current.adapter.failed] at the end *)
}.

Definition metadata_ok (m : jsval) (compatibility : string) : bool :=
  is_int (get m "version") 1 && match get m "running" with JBool _ => true | _ => false end &&
  is_str (get m "compatibility") compatibility.

Definition is_running (e : restore_env) : bool := default false (r_current e).

(** The result: the configuration, [running], the description and the prefetch. *)
Definition restored : Type := jsval * jsval * jsval * option jsval.

Definition restoreMachineState (e : restore_env) (compatibility : string) : M restored :=
  let '(ab1, ab2, ab3, ab4, ab5) := r_aborted e in
  check ab1 ;;
  finally
    (when (bool_decide (is_Some (r_current e)))
       (invoke StopMachine (r_stop e) ;; invoke DrainAdapter (r_drain e)) ;;
     check ab2 ;;
     invoke AddAbort (Ok tt) ;;
     prepared ← invoke PrepareState (r_prepare e) ;
     set_prepared prepared ;;
     check ab3 ;;
     let m := pr_metadata prepared in
     assert_plain (metadata_ok m compatibility) "State requires the same emulator and BIOS build" ;;
     config ← lift (validateConfig (get m "config")) ;
     invoke NewAdapter (Ok tt) ;;
     set_adapter ;;
     invoke (CreateCandidate config) (r_create e) ;;
     set_candidate ;;
     check ab4 ;;
     invoke RestoreCandidate (r_restore e) ;;
     check ab5 ;;
     assert_plain (r_media e) "Saved state contains removable media" ;;
     invoke DrainCandidate (r_drain_candidate e) ;;
     description ← invoke (Commit (pr_token prepared)) (r_commit e) ;
     set_committed ;;
     invoke CandidateCommitted (Ok tt) ;;
     mret (config, get m "running", description, pr_prefetchId prepared))
    (λ l, [RemoveAbort] ++
      if_ (negb (l_committed l))
        (if_ (l_candidate l) [DestroyCandidate] ++
         if_ (l_adapter l) [DisposeAdapter] ++
         match l_prepared l with Some p => [Discard (pr_token p)] | None => [] end ++
         if_ (is_running e && negb (r_failed e)) [RunMachine])).

(** ** Properties *)

(** The calls of a complete capture and of a complete restoration. *)
Definition capture_calls (running : bool) : list call :=
  [DrainAdapter; SnapshotReady true; SaveMachine; AddAbort; SaveDisk running].
Definition restore_calls (current : bool) (p : prepared) (config : jsval) : list call :=
  if_ current [StopMachine; DrainAdapter] ++
  [AddAbort; PrepareState; NewAdapter; CreateCandidate config; RestoreCandidate; DrainCandidate;
   Commit (pr_token p); CandidateCommitted].

Lemma validateConfig_ok c c' : validateConfig c = Ok c' → c' = c.
Proof. unfold validateConfig. destruct (_ || _); [done|]. by intros [= <-]. Qed.

Definition sample_capture : capture_env :=
  CaptureEnv true true (false, false, true) (Ok tt) (Ok tt) (Ok tt) (Ok JNull) false.

(** Evaluate the calls whose outcome is known. *)
Ltac calls :=
  cbv [mbind M_bind mret M_ret invoke lift modify check assert_plain finally when set_prepared set_candidate
       set_adapter set_committed start l_log l_prepared l_candidate l_adapter l_committed];
  cbn [bool_decide].

Ltac stops_at n := right; right; split_and!; [done|done|by exists n].

(** A capture never loses the running machine.  Nothing is called when media
    are inserted, the configuration is unsupported or the operation was cancelled
    first.  Otherwise, once the machine has stopped, the calls are a prefix of
    drain, ready, save the machine, save the disk; whatever fails or is cancelled,
    the abort listener and the snapshot flag are taken back and the machine runs
    again exactly if it ran before and its disk has not failed; and a capture
    succeeds only with all the calls made and the disk's answer. *)
Theorem capture_spec (e : capture_env) (config : jsval) :
  let '(l, r) := captureMachineState e config start in
  (l_log l = [] ∧ is_ok r = false) ∨
  (l_log l = [StopMachine] ∧ is_ok r = false ∧ is_ok (c_stop e) = false) ∨
  (c_present e = true ∧ validateConfig config = Ok config ∧
   ∃ n, l_log l = StopMachine :: take n (capture_calls (c_running e)) ++
          [RemoveAbort; SnapshotReady false] ++ if_ (c_running e && negb (c_failed e)) [RunMachine] ∧
        (is_ok r = true → n = 5%nat ∧ r = c_disk e)).
Proof.
  destruct e as [present running [[ab1 ab2] ab3] stop drain save disk failed].
  unfold captureMachineState. cbn [c_aborted c_present c_running c_stop c_drain c_save c_disk c_failed].
  destruct present; calls; [|by left].
  destruct (validateConfig config) as [c|err] eqn:Ec; [|by left].
  apply validateConfig_ok in Ec as Hc. subst c.
  destruct ab1; [by left|]. destruct stop as [[]|err]; [|by right; left].
  destruct drain as [[]|err]; [|stops_at 1%nat]. destruct ab2; [stops_at 1%nat|].
  destruct save as [[]|err]; [|stops_at 3%nat]. destruct ab3; [stops_at 3%nat|]. stops_at 5%nat.
Qed.

(** Cancelled after the machine was saved: it runs again. *)
Lemma capture_spec_witness :
  ∃ n, l_log (captureMachineState sample_capture DEFAULT_CONFIG start).1 =
    StopMachine :: take n (capture_calls true) ++ [RemoveAbort; SnapshotReady false; RunMachine].
Proof.
  destruct (capture_spec sample_capture DEFAULT_CONFIG) as [[H _]|[[H _]|(_ & _ & n & H & _)]];
    [discriminate H|discriminate H|exists n; exact H].
Defined.

(** A failing branch: its calls, and the cleanup the log shows. *)
Ltac in_cleanup :=
  unfold if_ in *; cbn [negb app is_ok] in *;
  repeat match goal with
  | H : context [if ?b then _ else _] |- _ => destruct b eqn:?
  | |- context [if ?b then _ else _] => destruct b eqn:?
  | H : (_ && _) = false |- _ => apply andb_false_iff in H as [?|?]
  end; bools; cbn [app] in *; rewrite ?elem_of_cons, ?elem_of_nil in *;
  first [naive_solver | intuition congruence].
Ltac fails_after c :=
  right; eexists c, _; split; [reflexivity|]; split_and!; intros; in_cleanup.

Ltac restore_rest prepare create restore drain2 commit ab2 ab3 ab4 ab5 media compatibility pre :=
  destruct ab2; [fails_after pre|];
  destruct prepare as [p|err]; [|fails_after (pre ++ [AddAbort; PrepareState])];
  destruct ab3; [fails_after (pre ++ [AddAbort; PrepareState])|];
  destruct (metadata_ok (pr_metadata p) compatibility) eqn:Em; [|fails_after (pre ++ [AddAbort; PrepareState])];
  destruct (validateConfig (get (pr_metadata p) "config")) as [config|err] eqn:Ec;
    [|fails_after (pre ++ [AddAbort; PrepareState])];
  destruct create as [[]|err]; [|fails_after (pre ++ [AddAbort; PrepareState; NewAdapter; CreateCandidate config])];
  destruct ab4; [fails_after (pre ++ [AddAbort; PrepareState; NewAdapter; CreateCandidate config])|];
  destruct restore as [[]|err];
    [|fails_after (pre ++ [AddAbort; PrepareState; NewAdapter; CreateCandidate config; RestoreCandidate])];
  destruct ab5;
    [fails_after (pre ++ [AddAbort; PrepareState; NewAdapter; CreateCandidate config; RestoreCandidate])|];
  destruct media;
    [|fails_after (pre ++ [AddAbort; PrepareState; NewAdapter; CreateCandidate config; RestoreCandidate])];
  destruct drain2 as [[]|err];
    [|fails_after (pre ++ [AddAbort; PrepareState; NewAdapter; CreateCandidate config; RestoreCandidate; DrainCandidate])];
  destruct commit as [d|err];
    [by exists p
    |fails_after (pre ++ [AddAbort; PrepareState; NewAdapter; CreateCandidate config; RestoreCandidate; DrainCandidate;
                   Commit (pr_token p)])].

(** C18: restoring replaces the machine completely or not at all.  A restoration
    that succeeds has made every call in order with a validated configuration and
    matching metadata, ends with the disk's commitment, and neither restarts the old
    machine nor destroys the new one.  One that fails, at whatever call or check,
    has not handed the candidate over: the candidate that was created is destroyed,
    its adapter disposed of, the prepared state discarded, and the old machine runs
    again exactly if it ran and its disk has not failed. *)
Theorem restore_transaction (e : restore_env) (compatibility : string) :
  let '(l, r) := restoreMachineState e compatibility start in
  match r with
  | Ok (config, running, description, prefetch) =>
      ∃ p, r_prepare e = Ok p ∧ metadata_ok (pr_metadata p) compatibility = true ∧
        validateConfig (get (pr_metadata p) "config") = Ok config ∧ r_commit e = Ok description ∧
        l_log l = restore_calls (bool_decide (is_Some (r_current e))) p config ++ [RemoveAbort]
  | Throw _ =>
      l_log l = [] ∨
      ∃ calls cleanup, l_log l = calls ++ [RemoveAbort] ++ cleanup ∧ CandidateCommitted ∉ calls ∧
        (∀ p, r_prepare e = Ok p → PrepareState ∈ calls → Discard (pr_token p) ∈ cleanup) ∧
        (∀ token, Discard token ∈ cleanup → PrepareState ∈ calls ∧ is_ok (r_prepare e) = true) ∧
        (NewAdapter ∈ calls ↔ DisposeAdapter ∈ cleanup) ∧
        (∀ config, CreateCandidate config ∈ calls → is_ok (r_create e) = true → DestroyCandidate ∈ cleanup) ∧
        (RunMachine ∈ cleanup ↔ is_running e = true ∧ r_failed e = false)
  end.
Proof.
  destruct e as [current [[[[ab1 ab2] ab3] ab4] ab5] stop drain prepare create restore media drain2 commit failed].
  unfold restoreMachineState, is_running.
  cbn [r_current r_aborted r_stop r_drain r_prepare r_create r_restore r_media r_drain_candidate r_commit r_failed].
  destruct ab1; calls; [by left|].
  destruct (bool_decide (is_Some current)) eqn:Ecur.
  - destruct stop as [[]|err]; [|fails_after [StopMachine]].
    destruct drain as [[]|err]; [|fails_after [StopMachine; DrainAdapter]].
    restore_rest prepare create restore drain2 commit ab2 ab3 ab4 ab5 media compatibility [StopMachine; DrainAdapter].
  - restore_rest prepare create restore drain2 commit ab2 ab3 ab4 ab5 media compatibility (@nil call).
Qed.

Definition sample_prepared : prepared :=
  Prepared 9 (JObj [field "version" (JNum (NInt 1)); field "running" (JBool true);
                    field "compatibility" (JStr "v1"); field "config" DEFAULT_CONFIG]) None.

Definition sample_restore : restore_env :=
  RestoreEnv (Some true) (false, false, false, false, false) (Ok tt) (Ok tt) (Ok sample_prepared) (Ok tt) (Ok tt) true
    (Ok tt) (Ok JNull) false.

Lemma restore_transaction_witness :
  ∃ p, r_prepare sample_restore = Ok p ∧
    l_log (restoreMachineState sample_restore "v1" start).1 = restore_calls true p DEFAULT_CONFIG ++ [RemoveAbort].
Proof.
  pose proof (restore_transaction sample_restore "v1") as H.
  destruct (restoreMachineState sample_restore "v1" start) as [l [[[[c run] d] pf]|err]] eqn:E; vm_compute in E;
    [|discriminate E].
  destruct H as (p & H1 & _ & _ & _ & H2). exists p. split; [exact H1|].
  injection E as _ <- _ _ _. exact H2.
Defined.

End MachineState.
