(* ===== verification/DiskControls.v ===== *)
(** * The disk panel (src/src/browser/disk-controls.js, src/src/browser/disk-progress.js)

    [diskControls] says which actions of the panel are offered and which are
    enabled.  [setupDiskProgress] polls the Worker's statistics for the session on
    display and shows how much of the disk has been read. *)
From S2P Require Import Prelude.
#[local] Open Scope Z_scope.

Module DiskControls.

(** The truth value of each argument and of each field the function reads. *)
Record panel := Panel {
  busy : bool;
  working : bool;
  client : bool;
  open : bool;                (** [!!state] *)
  remote : bool;              (** [!!state?.remote] *)
  stateInfoHash : bool;       (** [!!state?.remote?.stateInfoHash] *)
  readOnly : bool;
  dirty : bool;               (** [!!state?.dirty_bytes] *)
  active : bool;
  failed : bool;              (** [!!adapter?.failed] *)
  analyzing : bool;
  prepared : bool;
  capturing : bool;
  stateAbort : bool
}.

Definition locked (p : panel) : bool := busy p || working p.
Definition publishedState (p : panel) : bool := stateInfoHash p.
Definition stateInProgress (p : panel) : bool := stateAbort p.

Definition unavailable (p : panel) : list (string * bool) :=
  [("empty"%string, open p);
   ("empty-size"%string, open p);
   ("empty-submit"%string, open p);
   ("empty-cancel"%string, open p);
   ("create"%string, open p);
   ("open"%string, open p);
   ("relay-key"%string, readOnly p);
   ("boot"%string, negb (open p) || active p || failed p);
   ("save"%string, readOnly p || negb (open p) || negb (active p) || failed p || analyzing p);
   ("download"%string, negb (open p) || dirty p || analyzing p);
   ("discard"%string, negb (open p) || analyzing p);
   ("verify"%string, negb (open p) || analyzing p);
   ("clear-cache"%string, negb (open p) || analyzing p);
   ("resume-state"%string, negb (publishedState p) || active p || analyzing p || failed p);
   ("analyze"%string, negb (analyzing p) && (negb (remote p) || failed p));
   ("analyze-boot"%string, negb (remote p) || dirty p || analyzing p);
   ("analyze-resume"%string, negb (publishedState p) || analyzing p);
   ("analyze-file"%string, negb (remote p) || analyzing p);
   ("retry"%string, negb (prepared p) || analyzing p);
   ("resume"%string, negb (failed p));
   ("load-state"%string, negb (open p) || analyzing p);
   ("save-state"%string, readOnly p || negb (active p) || analyzing p || failed p);
   ("cancel-state"%string, false);
   ("cancel"%string, negb (capturing p) && negb (stateInProgress p))].

Definition disabled (p : panel) : list (string * bool) :=
  (λ e : string * bool,
     let '(id, value) := e in
     (id, if String.eqb id "cancel" then value
          else if String.eqb id "cancel-state" then false
          else locked p || value)) <$> unavailable p.

(** The object the function returns. *)
Record controls := Controls {
  authenticated : bool;
  hideEmptyForm : bool;
  c_analyzing : bool;
  showRetry : bool;
  showCancel : bool;
  showStateCancel : bool;
  hidden : list (string * bool);
  c_disabled : list (string * bool)
}.

Definition diskControls (p : panel) : controls :=
  Controls (client p) (negb (client p) || open p) (analyzing p) (failed p)
    (capturing p || stateInProgress p) (stateInProgress p) (unavailable p) (disabled p).

Definition enabled (id : string) (p : panel) : bool :=
  existsb (λ e : string * bool, String.eqb e.1 id && negb e.2) (c_disabled (diskControls p)).

(** The panels the application builds: the fields of a state need a state. *)
Definition consistent (p : panel) : bool :=
  (open p || negb (remote p || stateInfoHash p || readOnly p || dirty p)) &&
  (remote p || negb (stateInfoHash p)).

(** ** All panels *)
Definition bools : list bool := [false; true].
Definition all_panels : list panel :=
  a ← bools; b ← bools; c ← bools; d ← bools; e ← bools; f ← bools; g ← bools;
  h ← bools; i ← bools; j ← bools; k ← bools; l ← bools; m ← bools; n ← bools;
  [Panel a b c d e f g h i j k l m n].

Lemma elem_of_bools b : b ∈ bools.
Proof. destruct b; repeat constructor. Qed.

Lemma elem_of_all_panels p : p ∈ all_panels.
Proof.
  destruct p as [a b c d e f g h i j k l m n]. unfold all_panels.
  do 14 (apply list_elem_of_bind; eexists; split; [|apply elem_of_bools]). by constructor.
Qed.

Lemma check_panels (P : panel → bool) : forallb P all_panels = true → ∀ p, P p = true.
Proof. intros H p. rewrite forallb_forall in H. apply H, list_elem_of_In, elem_of_all_panels. Qed.

Definition all_disabled (ids : list string) (p : panel) : bool := forallb (λ id, negb (enabled id p)) ids.

(** The actions that replace or change the open disk, and those that need none. *)
Definition opening : list string := ["empty"; "empty-size"; "empty-submit"; "empty-cancel"; "create"; "open"]%string.
Definition on_disk : list string :=
  ["boot"; "save"; "download"; "discard"; "verify"; "clear-cache"; "resume-state"; "analyze-boot";
   "analyze-resume"; "analyze-file"; "load-state"]%string.
Definition always : list string := ["cancel"; "cancel-state"]%string.

Notation implies a b := (if a then b else true).

(** What the panel promises, as a test. *)
Definition controls_ok (p : panel) : bool :=
  implies (consistent p)
    (implies (locked p)
       (forallb (λ e : string * bool, e.2 || existsb (String.eqb e.1) always) (c_disabled (diskControls p))) &&
     forallb (λ e : string * bool, implies (enabled e.1 p) (negb e.2)) (hidden (diskControls p)) &&
     implies (enabled "save" p || enabled "save-state" p)
       (active p && negb (readOnly p) && negb (failed p) && negb (analyzing p)) &&
     implies (enabled "boot" p || enabled "resume-state" p) (open p && negb (active p) && negb (failed p)) &&
     implies (open p) (all_disabled opening p) && implies (negb (open p)) (all_disabled on_disk p) &&
     implies (negb (locked p))
       (existsb (λ e : string * bool, negb e.2 && negb (existsb (String.eqb e.1) always)) (c_disabled (diskControls p))) &&
     Bool.eqb (enabled "cancel" p) (capturing p || stateAbort p)).

Lemma controls_checked : forallb controls_ok all_panels = true.
Proof. vm_compute. reflexivity. Qed.

Lemma enabled_spec id p : enabled id p = true ↔ (id, false) ∈ c_disabled (diskControls p).
Proof.
  unfold enabled. rewrite existsb_exists. split.
  - intros ([i b] & Hin & He). apply andb_true_iff in He as [Hi Hb]. cbn in *.
    apply String.eqb_eq in Hi as ->. destruct b; [done|]. by apply list_elem_of_In.
  - intros Hin. exists (id, false). split; [by apply list_elem_of_In|]. cbn. by rewrite String.eqb_refl.
Qed.

Lemma implies_true (a b : bool) : implies a b = true ↔ (a = true → b = true).
Proof. destruct a; naive_solver. Qed.

Lemma all_disabled_spec ids p : all_disabled ids p = true ↔ ∀ id, id ∈ ids → enabled id p = false.
Proof.
  unfold all_disabled. rewrite forallb_forall. setoid_rewrite <- list_elem_of_In.
  setoid_rewrite negb_true_iff. done.
Qed.

Lemma mem_always id : existsb (String.eqb id) always = true ↔ id ∈ always.
Proof.
  rewrite existsb_exists. setoid_rewrite <- list_elem_of_In. split.
  - by intros (x & Hx & ->%String.eqb_eq).
  - intros H. exists id. by rewrite String.eqb_refl.
Qed.

(** ** Property *)

(** The panel never offers what the session cannot do, and never leaves the
    user without an action.  For every panel whose state is consistent: while an
    operation is under way only the cancel buttons are enabled; an enabled action is
    shown; a save needs a running, writable machine whose disk has not failed and
    that is not being analysed; a boot or a resume needs an open disk and no running
    machine; with a disk open none can be opened over it, without one no disk action
    is enabled; when nothing is under way some action is enabled; and cancelling is
    possible exactly during a capture or a state operation. *)
Theorem controls_sound (p : panel) :
  consistent p = true →
  (locked p = true → ∀ id, enabled id p = true → id ∈ always) ∧
  (∀ id b, (id, b) ∈ hidden (diskControls p) → enabled id p = true → b = false) ∧
  (enabled "save" p = true ∨ enabled "save-state" p = true →
     active p = true ∧ readOnly p = false ∧ failed p = false ∧ analyzing p = false) ∧
  (enabled "boot" p = true ∨ enabled "resume-state" p = true →
     open p = true ∧ active p = false ∧ failed p = false) ∧
  (open p = true → ∀ id, id ∈ opening → enabled id p = false) ∧
  (open p = false → ∀ id, id ∈ on_disk → enabled id p = false) ∧
  (locked p = false → ∃ id, id ∉ always ∧ enabled id p = true) ∧
  enabled "cancel" p = capturing p || stateAbort p.
Proof.
  intros Hc. pose proof (check_panels _ controls_checked p) as H. unfold controls_ok in H.
  rewrite Hc in H. rewrite !andb_true_iff, !implies_true in H.
  destruct H as (((((((H1 & H2) & H3) & H4) & H5) & H6) & H7) & H8). split_and!.
  - intros Hl id [He Hn]%enabled_spec%(conj Hl). apply mem_always.
    specialize (H1 Hl). rewrite forallb_forall in H1. apply list_elem_of_In in Hn. by specialize (H1 _ Hn).
  - intros id b Hin He. rewrite forallb_forall in H2. apply list_elem_of_In in Hin.
    specialize (H2 _ Hin). cbn [fst snd] in H2. rewrite He in H2. by apply negb_true_iff.
  - rewrite <- orb_true_iff. intros He. specialize (H3 He). bools. done.
  - rewrite <- orb_true_iff. intros He. specialize (H4 He). bools. done.
  - intros Ho. by apply all_disabled_spec, H5.
  - intros Ho. apply all_disabled_spec, H6. by rewrite Ho.
  - intros Hl. rewrite Hl in H7. specialize (H7 eq_refl). apply existsb_exists in H7 as ([id b] & Hin & He).
    apply andb_true_iff in He as [Hb Ha]. cbn [fst snd] in Hb, Ha. apply negb_true_iff in Hb as ->. apply negb_true_iff in Ha.
    exists id. split; [|by apply enabled_spec, list_elem_of_In]. intros Hm%mem_always. congruence.
  - by apply eqb_prop.
Qed.

Lemma controls_sound_witness :
  let p := Panel false false true true true false false false true false false false false false in
  enabled "create" p = false ∧ ∃ id, id ∉ always ∧ enabled id p = true.
Proof.
  set (p := Panel false false true true true false false false true false false false false false).
  destruct (controls_sound p eq_refl) as (_ & _ & _ & _ & H1 & _ & H2 & _).
  split; [|exact (H2 eq_refl)]. apply H1; [reflexivity|]. do 4 right. left.
Defined.

End DiskControls.

Module DiskProgress.

(** The session on display. *)
Record session := Session { s_client : Z; s_adapter : Z; s_infoHash : Z; s_busy : bool }.

(** The statistics of a poll: [stats.remote], if the numbers are safe integers. *)
Record stats := Stats { coveredBytes : Z; totalBytes : Z }.

(** The text of the label with the numbers it comes from. *)
Record shown := Shown { percent : Z; s_covered : Z; s_total : Z; s_of : session }.

Record progress := Progress {
  p_source : option session;
  p_generation : Z;
  p_poll : option (session * Z);     (** the poll in flight ([pending]) and its epoch *)
  p_timer : bool;
  p_shown : option shown             (** [None] when the element is hidden *)
}.

Definition new_progress : progress := Progress None 0 None false None.

Definition same_key (a b : session) : bool :=
  (s_client a =? s_client b) && (s_adapter a =? s_adapter b) && (s_infoHash a =? s_infoHash b).
Definition same (a b : option session) : bool :=
  match a, b with
  | Some a, Some b => same_key a b
  | None, None => true
  | _, _ => false
  end.

Definition hide (p : progress) : progress :=
  Progress (p_source p) (p_generation p) (p_poll p) (p_timer p) None.

(** [schedule()]; [hidden] is [document.hidden]. *)
Definition schedule (hidden : bool) (p : progress) : progress :=
  Progress (p_source p) (p_generation p) (p_poll p)
    (match p_source p with Some _ => negb hidden | None => false end) (p_shown p).

(** [update()], with the session [getSession()] returns. *)
Definition update (current : option session) (hidden : bool) (p : progress) : progress :=
  let p := Progress (p_source p) (p_generation p) (p_poll p) false (p_shown p) in
  let p := if same current (p_source p) then p
           else hide (Progress (p_source p) (p_generation p + 1) (p_poll p) (p_timer p) (p_shown p)) in
  let p := Progress current (p_generation p) (p_poll p) (p_timer p) (p_shown p) in
  match current with
  | None => hide p
  | Some c =>
      if hidden then p
      else
        match p_poll p with
        | None => if s_busy c then schedule hidden p
                  else Progress (p_source p) (p_generation p) (Some (c, p_generation p)) (p_timer p) (p_shown p)
        | Some _ => schedule hidden p
        end
  end.

(** The percentage: [Math.floor] of the quotient, at most 99 before the end. *)
Definition percentage (covered total : Z) : Z :=
  if covered =? total then 100 else Z.min 99 (100 * covered / total).

Definition stats_ok (s : stats) : bool :=
  (0 <? totalBytes s) && (0 <=? coveredBytes s) && (coveredBytes s <=? totalBytes s).

(** The rest of [poll]: the statistics have arrived, or [None] if they are not safe
    integers. *)
Definition polled (latest : option session) (hidden : bool) (s : option stats) (p : progress) : progress :=
  match p_poll p with
  | None => p
  | Some (current, epoch) =>
      let stale := negb (epoch =? p_generation p) || negb (same (Some current) latest) ||
                   match latest with Some l => s_busy l | None => false end || hidden in
      let p :=
        if stale then p
        else
          match s with
          | Some s => if stats_ok s
                      then Progress (p_source p) (p_generation p) (p_poll p) (p_timer p)
                             (Some (Shown (percentage (coveredBytes s) (totalBytes s)) (coveredBytes s)
                                      (totalBytes s) current))
                      else hide p
          | None => hide p
          end in
      schedule hidden (Progress (p_source p) (p_generation p) None (p_timer p) (p_shown p))
  end.

(** The poll was rejected. *)
Definition poll_failed (latest : option session) (hidden : bool) (p : progress) : progress :=
  match p_poll p with
  | None => p
  | Some (current, epoch) =>
      let p := if (epoch =? p_generation p) && same (Some current) latest then hide p else p in
      schedule hidden (Progress (p_source p) (p_generation p) None (p_timer p) (p_shown p))
  end.

(** [update] is called by the application, by the timer and by [visibilitychange]. *)
Inductive event :=
| Update (current : option session) (hidden : bool)
| Polled (latest : option session) (hidden : bool) (s : option stats)
| PollFailed (latest : option session) (hidden : bool).

Definition handle (e : event) (p : progress) : progress :=
  match e with
  | Update c h => update c h p
  | Polled l h s => polled l h s p
  | PollFailed l h => poll_failed l h p
  end.

Definition run (l : list event) : progress := foldl (λ p e, handle e p) new_progress l.

(** ** The invariant *)
Definition shown_ok (p : progress) (w : shown) : Prop :=
  0 ≤ s_covered w ≤ s_total w ∧ 0 < s_total w ∧ percent w = percentage (s_covered w) (s_total w) ∧
  ∃ s, p_source p = Some s ∧ same_key s (s_of w) = true.

Record inv (p : progress) : Prop := {
  inv_shown w : p_shown p = Some w → shown_ok p w;
  inv_poll s epoch : p_poll p = Some (s, epoch) →
    epoch ≤ p_generation p ∧
    (epoch = p_generation p → ∃ s', p_source p = Some s' ∧ same_key s' s = true)
}.

Lemma same_key_trans a b c : same_key a b = true → same_key b c = true → same_key a c = true.
Proof. unfold same_key. intros. bools. rewrite !andb_true_iff. lia. Qed.
Lemma same_key_refl a : same_key a a = true.
Proof. unfold same_key. by rewrite !Z.eqb_refl. Qed.

Lemma inv_update c h p : inv p → inv (update c h p).
Proof.
  intros [H1 H2]. unfold update. cbv zeta.
  set (p1 := Progress (p_source p) (p_generation p) (p_poll p) false (p_shown p)).
  set (p2 := if same c (p_source p1) then p1 else _).
  set (p3 := Progress c (p_generation p2) (p_poll p2) (p_timer p2) (p_shown p2)).
  assert (H3 : inv p3).
  { unfold p3, p2. cbn. destruct (same c (p_source p)) eqn:Es; split; cbn; try done.
    - intros w Hw. destruct (H1 w Hw) as (? & ? & ? & s & Hs & Hk). split_and!; try lia. rewrite Hs in Es.
      destruct c as [c|]; [|done]. exists c. split; [done|]. by eapply same_key_trans.
    - intros s e He. destruct (H2 s e He) as [? Hx]. split; [done|]. intros Heq.
      destruct (Hx Heq) as (s' & Hs & Hk). rewrite Hs in Es. destruct c as [c|]; [|done].
      exists c. split; [done|]. by eapply same_key_trans.
    - intros s e He. destruct (H2 s e He). split; lia. }
  assert (Hc : p_source p3 = c) by done. clearbody p3. clear p2.
  destruct c as [c|]; [|destruct H3 as [_ G2]; by split].
  destruct h; [done|]. destruct H3 as [G1 G2].
  destruct (p_poll p3) eqn:Ep; [by split; cbn; rewrite ?Ep|]. destruct (s_busy c); [by split; cbn; rewrite ?Ep|].
  split; cbn; [done|]. intros s e [= <- <-]. split; [lia|]. intros _. exists c. split; [done|apply same_key_refl].
Qed.

Lemma inv_schedule h p : inv p → inv (schedule h p).
Proof. by intros []; split. Qed.

Lemma inv_poll_done p : inv p → inv (Progress (p_source p) (p_generation p) None (p_timer p) (p_shown p)).
Proof. by intros []; split. Qed.

Lemma inv_hide p : inv p → inv (hide p).
Proof. by intros []; split. Qed.

Lemma progress_inv_handle e p : inv p → inv (handle e p).
Proof.
  intros Hi. destruct e as [c h|l h s|l h]; cbn [handle].
  - by apply inv_update.
  - unfold polled. destruct (p_poll p) as [[cur epoch]|] eqn:Ep; [|done].
    apply inv_schedule. destruct (_ || _ || _ || h) eqn:Est; [by apply (inv_poll_done p)|].
    bools. destruct s as [s|]; [|by apply (inv_poll_done (hide p)), inv_hide].
    destruct (stats_ok s) eqn:Eok; [|by apply (inv_poll_done (hide p)), inv_hide].
    destruct Hi as [I1 I2]. destruct (I2 _ _ Ep) as [_ Hx]. subst epoch. destruct (Hx eq_refl) as (s' & Hs & Hk).
    unfold stats_ok in Eok. bools. split; cbn; [|done]. intros w [= <-]. cbn.
    split_and!; try lia; try done. by exists s'.
  - unfold poll_failed. destruct (p_poll p) as [[cur epoch]|]; [|done]. apply inv_schedule.
    destruct (_ && _); [by apply (inv_poll_done (hide p)), inv_hide|by apply inv_poll_done].
Qed.

Lemma progress_run_inv l : inv (run l).
Proof.
  induction l as [|e l IH] using rev_ind; [by split|]. unfold run. rewrite foldl_app. by apply progress_inv_handle.
Qed.

Lemma percentage_bounds c t :
  0 ≤ c ≤ t → 0 < t → 0 ≤ percentage c t ≤ 100 ∧ (percentage c t = 100 ↔ c = t).
Proof.
  intros. unfold percentage. destruct (c =? t) eqn:E; bools; [lia|].
  assert (0 ≤ 100 * c / t) by (apply Z.div_pos; lia). lia.
Qed.

Definition event_hidden (e : event) : bool :=
  match e with Update _ h | Polled _ h _ | PollFailed _ h => h end.

Lemma schedule_polls p :
  let p' := schedule false p in p_source p' = None ∨ is_Some (p_poll p') ∨ p_timer p' = true.
Proof. cbn. destruct (p_source p); auto. Qed.

Lemma handle_keeps_polling e p :
  event_hidden e = false →
  (p_source p = None ∨ is_Some (p_poll p) ∨ p_timer p = true) →
  let p' := handle e p in p_source p' = None ∨ is_Some (p_poll p') ∨ p_timer p' = true.
Proof.
  intros Hh Hp. cbv zeta. destruct e as [c h|l h s|l h]; cbn [handle event_hidden] in *; subst.
  - unfold update. cbv zeta. destruct c as [c|]; [|by left].
    match goal with |- context [match ?x with Some _ => _ | None => _ end] => destruct x end; [by right; right|].
    destruct (s_busy c); [by right; right|]. right. left. by eexists.
  - unfold polled. destruct (p_poll p) as [[cur epoch]|] eqn:E; [|rewrite E; naive_solver].
    apply schedule_polls.
  - unfold poll_failed. destruct (p_poll p) as [[cur epoch]|] eqn:E; [|rewrite E; naive_solver].
    apply schedule_polls.
Qed.

(** ** Property *)

(** The progress on display belongs to the session on display.  Whatever
    answers arrive in whatever order, a percentage that is shown comes from
    statistics polled for the current client, adapter and image: a late answer for
    another session is dropped.  It lies between 0 and 100 and is 100 exactly when
    everything is covered.  While the page is visible and there is a session, a poll
    or a timer is pending, so the display does not freeze. *)
Theorem progress_sound (l : list event) :
  (∀ w, p_shown (run l) = Some w →
     (∃ s, p_source (run l) = Some s ∧ same_key s (s_of w) = true) ∧
     0 ≤ percent w ≤ 100 ∧ (percent w = 100 ↔ s_covered w = s_total w)) ∧
  (∀ e, event_hidden e = false → (p_source (run l) = None ∨ is_Some (p_poll (run l)) ∨ p_timer (run l) = true) →
     let p := run (l ++ [e]) in p_source p = None ∨ is_Some (p_poll p) ∨ p_timer p = true).
Proof.
  split.
  - intros w Hw. destruct (inv_shown _ (progress_run_inv l) w Hw) as (H1 & H2 & H3 & H4). split; [done|].
    rewrite H3. by apply percentage_bounds.
  - intros e He Hp. cbv zeta. unfold run. rewrite foldl_app. by apply (handle_keeps_polling e (run l)).
Qed.

(** An answer for the previous session arrives after the next one was selected. *)
Lemma progress_sound_witness :
  let a := Session 1 1 1 false in
  let b := Session 1 1 2 false in
  let l := [Update (Some a) false; Polled (Some a) false (Some (Stats 999 1000))] in
  (∃ s, p_source (run l) = Some s ∧ same_key s a = true) ∧
  p_shown (run [Update (Some a) false; Update (Some b) false; Polled (Some b) false (Some (Stats 1 1))]) = None.
Proof.
  cbv zeta. split; [|reflexivity].
  destruct (progress_sound [Update (Some (Session 1 1 1 false)) false;
    Polled (Some (Session 1 1 1 false)) false (Some (Stats 999 1000))]) as [H _].
  exact (proj1 (H (Shown 99 999 1000 (Session 1 1 1 false)) eq_refl)).
Defined.

End DiskProgress.
