(* ===== verification/VaultWorker.v ===== *)
(** * The disk Worker (src/src/disk/web/worker.js)

    [execute] carries out one request of the client against the Vault (compiled from
    Rust), the sources its encrypted bytes come from, and the publication that may
    be one of them.  [WorkerProtocol] runs the requests one after the other
    (WorkerChannel.v), so the Worker is a sequential program.

    It is written in a state and error monad.  Everything outside this file is a
    [call]; the parameter [env] gives the answer to a call from the calls made so
    far, so a theorem for every [env] is a theorem for every behaviour of the Vault,
    the network and the user's cancellations.  The state keeps the log of the calls
    with their success.  [VaultFree], [SourceClose] and the discarding of a startup
    prefetch do not throw (RemotePublication.close catches its errors).

    Posted progress messages, wiped buffers, pauses of the event loop and the network
    counters are left out. *)
From S2P Require Import Prelude JsValue.
From S2P Require BootAnalysis.
#[local] Open Scope Z_scope.

Module VaultWorker.

(** ** Data *)

(** What [vault.describe()] reports, as far as the Worker looks at it. *)
Record description := Description { d_size : Z; d_dirty : bool; d_revision : Z }.

(** The origin of a load profile: a boot or a state with its hash. *)
Inductive origin := OBoot | OState (sha256 : string).

(** What [decodeState] returns: the base the metadata names, [None] when it names
    none, and the hash of the state. *)
Record decoded := Decoded { e_baseInfoHash : option string; e_sha256 : string }.

(** The methods of a Vault. *)
Inductive vault_method :=
| Identity | Describe | Header | Next | Accept (source size : Z) | Cancel | BeginCreate (source size : Z)
| OpenDisk (source size : Z) | BeginSave | AcceptUnchanged | DiscardWrites | VerifyStart | VerifyStep | ClearCache
| ReadDisk (offset length : jsval) | WriteDisk (offset : jsval) | ExportReadKey | RelayPublicKey
| SignRelayChallenge | SealState | OpenState.

(** The methods of a publication. *)
Inductive remote_method :=
| StartPrefetch
| SetLoadPrefetch (o : origin) (scope : string)
| StateInput
| StartStartup
| ValidateStartup (id : Z) (o : origin)
| CommitStartup (id : Z)
| WaitStartup (id : jsval)
| ClearRemote
| HasState.                              (** [remote.stateInput] exists: it is a publication *)

Inductive call :=
| Cancelled                              (** [slopDiskCancelled()] *)
| VaultNew (h : Z)
| VaultOpenReadOnly (h source size : Z)
| VaultFork (h from : Z)
| VaultFree (h : Z)
| VaultCall (h : Z) (m : vault_method)
| OpenPublication                        (** [RemotePublication.open] *)
| Remote (source : Z) (m : remote_method)
| DiscardStartup (source : Z) (id : option Z)
| SourceRead (source offset length : Z)
| SourceClose (source : Z)
| ClearStorage.

Definition vault_answer (m : vault_method) : Type :=
  match m with
  | Describe => description
  | Header => Z                          (** the length of the bytes *)
  | Next => option Z                     (** the length of the next bytes, if any *)
  | BeginSave => bool
  | VerifyStep => bool                   (** whether the hash is complete *)
  | OpenState => decoded
  | _ => unit
  end.
Definition remote_answer (m : remote_method) : Type :=
  match m with StartStartup => Z | _ => unit end.

Definition answer (c : call) : Type :=
  match c with
  | Cancelled => bool
  | VaultCall _ m => vault_answer m
  | OpenPublication => Z * string        (** the size and the infohash of the disk *)
  | Remote _ m => remote_answer m
  | SourceRead _ _ _ => Z
  | _ => unit
  end.

(** An entry of [sources]. *)
Inductive source_kind := BlobSource | ZeroSource | RemoteSource (infoHash : string).
Record source := Source { src_size : Z; src_kind : source_kind }.

Record candidate := Candidate {
  k_vault : Z; k_token : Z; k_revision : Z; k_source : option Z; k_origin : origin; k_prefetchId : option Z
}.

(** The prepared download: its number and size. *)
Definition download : Type := Z * Z.

Record worker := Worker {
  w_vault : option Z;
  w_identity : bool;
  w_sources : list (Z * source);
  w_sourceId : Z;
  w_current : option Z;
  w_prepared : option download;
  w_nextDownload : Z;
  w_analysis : option BootAnalysis.analysis;
  w_restored : option origin;
  w_fresh : bool;
  w_candidate : option candidate;
  w_serial : Z;
  w_io : bool;                           (** [torrentIO] is set *)
  w_readBytes : Z;
  w_readCalls : Z;
  w_handles : Z;                         (** the Vaults allocated so far *)
  w_log : list (call * bool)
}.

Definition new_worker (io : bool) : worker :=
  Worker None false [] 0 None None 0 None None false None 0 io 0 0 0 [].

(** ** Updates *)
Definition set_vault (x : option Z) (w : worker) : worker :=
  Worker x (w_identity w) (w_sources w) (w_sourceId w) (w_current w) (w_prepared w) (w_nextDownload w) (w_analysis w)
    (w_restored w) (w_fresh w) (w_candidate w) (w_serial w) (w_io w) (w_readBytes w) (w_readCalls w) (w_handles w) (w_log w).
Definition set_identity (x : bool) (w : worker) : worker :=
  Worker (w_vault w) x (w_sources w) (w_sourceId w) (w_current w) (w_prepared w) (w_nextDownload w) (w_analysis w)
    (w_restored w) (w_fresh w) (w_candidate w) (w_serial w) (w_io w) (w_readBytes w) (w_readCalls w) (w_handles w) (w_log w).
Definition set_sources (x : list (Z * source)) (n : Z) (w : worker) : worker :=
  Worker (w_vault w) (w_identity w) x n (w_current w) (w_prepared w) (w_nextDownload w) (w_analysis w)
    (w_restored w) (w_fresh w) (w_candidate w) (w_serial w) (w_io w) (w_readBytes w) (w_readCalls w) (w_handles w) (w_log w).
Definition set_current (x : option Z) (w : worker) : worker :=
  Worker (w_vault w) (w_identity w) (w_sources w) (w_sourceId w) x (w_prepared w) (w_nextDownload w) (w_analysis w)
    (w_restored w) (w_fresh w) (w_candidate w) (w_serial w) (w_io w) (w_readBytes w) (w_readCalls w) (w_handles w) (w_log w).
Definition set_prepared (x : option download) (n : Z) (w : worker) : worker :=
  Worker (w_vault w) (w_identity w) (w_sources w) (w_sourceId w) (w_current w) x n (w_analysis w)
    (w_restored w) (w_fresh w) (w_candidate w) (w_serial w) (w_io w) (w_readBytes w) (w_readCalls w) (w_handles w) (w_log w).
Definition set_analysis (x : option BootAnalysis.analysis) (w : worker) : worker :=
  Worker (w_vault w) (w_identity w) (w_sources w) (w_sourceId w) (w_current w) (w_prepared w) (w_nextDownload w) x
    (w_restored w) (w_fresh w) (w_candidate w) (w_serial w) (w_io w) (w_readBytes w) (w_readCalls w) (w_handles w) (w_log w).
Definition set_origin (x : option origin) (fresh : bool) (w : worker) : worker :=
  Worker (w_vault w) (w_identity w) (w_sources w) (w_sourceId w) (w_current w) (w_prepared w) (w_nextDownload w) (w_analysis w)
    x fresh (w_candidate w) (w_serial w) (w_io w) (w_readBytes w) (w_readCalls w) (w_handles w) (w_log w).
Definition set_candidate (x : option candidate) (n : Z) (w : worker) : worker :=
  Worker (w_vault w) (w_identity w) (w_sources w) (w_sourceId w) (w_current w) (w_prepared w) (w_nextDownload w) (w_analysis w)
    (w_restored w) (w_fresh w) x n (w_io w) (w_readBytes w) (w_readCalls w) (w_handles w) (w_log w).
Definition set_counters (bytes calls : Z) (w : worker) : worker :=
  Worker (w_vault w) (w_identity w) (w_sources w) (w_sourceId w) (w_current w) (w_prepared w) (w_nextDownload w) (w_analysis w)
    (w_restored w) (w_fresh w) (w_candidate w) (w_serial w) (w_io w) bytes calls (w_handles w) (w_log w).
Definition set_log (n : Z) (l : list (call * bool)) (w : worker) : worker :=
  Worker (w_vault w) (w_identity w) (w_sources w) (w_sourceId w) (w_current w) (w_prepared w) (w_nextDownload w) (w_analysis w)
    (w_restored w) (w_fresh w) (w_candidate w) (w_serial w) (w_io w) (w_readBytes w) (w_readCalls w) n l.

(** ** The monad; [None] is a loop that needs more fuel *)
Definition M (A : Type) : Type := worker → option (worker * result A).

#[export] Instance M_ret : MRet M := λ A a w, Some (w, Ok a).
#[export] Instance M_bind : MBind M := λ A B f m w,
  match m w with
  | Some (w, Ok a) => f a w
  | Some (w, Throw e) => Some (w, Throw e)
  | None => None
  end.

Definition get : M worker := λ w, Some (w, Ok w).
Definition modify (f : worker → worker) : M unit := λ w, Some (f w, Ok tt).
Definition lift {A} (r : result A) : M A := λ w, Some (w, r).
Definition fail {A} (code message : string) : M A := lift (throw code message).
Definition rethrow {A} (e : exn) : M A := lift (Throw e).

(** [try { m } catch(error) { h }] and [try { m } finally { f }]. *)
Definition catch {A} (m : M A) (h : exn → M A) : M A := λ w,
  match m w with Some (w, Throw e) => h e w | r => r end.
Definition finally {A} (m : M A) (f : M unit) : M A := λ w,
  match m w with
  | Some (w, r) => match f w with
                   | Some (w, Ok _) => Some (w, r)
                   | Some (w, Throw e) => Some (w, Throw e)
                   | None => None
                   end
  | None => None
  end.

Definition when (b : bool) (m : M unit) : M unit := if b then m else mret tt.
Definition guard (b : bool) (code message : string) : M unit := if b then mret tt else fail code message.

(** ** Requests and replies *)

(** The arguments of a publication: their keys and the prefetch scope. *)
Record remote_args := RemoteArgs { ra_keys : list string; ra_scope : jsval }.

(** The arguments of [signRelayChallenge]: the URL, if it parses, as its protocol and
    whether it has neither credentials nor hash nor search; whether the origin is the
    page's; the expiry, and the clock. *)
Record relay_args := RelayArgs {
  rl_url : option (string * bool); rl_origin : bool; rl_expires : jsval; rl_now : Z
}.

Inductive op :=
| OpUnlock
| OpOpenReadOnly (keyLength : option Z) (file : option Z)
| OpOpenRemoteReadOnly (a : remote_args) (keyLength : option Z)
| OpCreate (file : Z)
| OpCreateEmpty (sizeBytes : jsval)
| OpOpen (file : Z)
| OpOpenRemote (a : remote_args) (hasReadKey : bool)
| OpStartLoadAnalysis (origin : jsval)
| OpSetLoadPrefetch (origin scope : jsval)
| OpStartBootAnalysis
| OpFinishAnalysis
| OpCancelAnalysis
| OpSaveState
| OpPrepareState (published prefetch : bool)
| OpCandidateRead (token offset length : jsval)
| OpDiscardState (token : jsval)
| OpCommitState (token : jsval)
| OpWaitLoadPrefetch (id : jsval)
| OpRelayPublicKey
| OpSignRelayChallenge (a : relay_args)
| OpExportReadOnlyKey
| OpDescribe
| OpRead (offset length : jsval)
| OpWrite (offset : jsval)
| OpSave
| OpDownload
| OpRetry
| OpDiscard
| OpVerify
| OpReadStats
| OpReadTrace
| OpResumePrefetch
| OpClearCaches
| OpClose
| OpUnknown (name : string).

Definition op_name (o : op) : string :=
  match o with
  | OpUnlock => "unlock" | OpOpenReadOnly _ _ => "openReadOnly" | OpOpenRemoteReadOnly _ _ => "openRemoteReadOnly"
  | OpCreate _ => "create" | OpCreateEmpty _ => "createEmpty" | OpOpen _ => "open" | OpOpenRemote _ _ => "openRemote"
  | OpStartLoadAnalysis _ => "startLoadAnalysis" | OpSetLoadPrefetch _ _ => "setLoadPrefetch"
  | OpStartBootAnalysis => "startBootAnalysis" | OpFinishAnalysis => "finishLoadAnalysis"
  | OpCancelAnalysis => "cancelLoadAnalysis" | OpSaveState => "saveState" | OpPrepareState _ _ => "prepareState"
  | OpCandidateRead _ _ _ => "candidateRead" | OpDiscardState _ => "discardState" | OpCommitState _ => "commitState"
  | OpWaitLoadPrefetch _ => "waitLoadPrefetch" | OpRelayPublicKey => "relayPublicKey"
  | OpSignRelayChallenge _ => "signRelayChallenge" | OpExportReadOnlyKey => "exportReadOnlyKey"
  | OpDescribe => "describe" | OpRead _ _ => "read" | OpWrite _ => "write" | OpSave => "save"
  | OpDownload => "download" | OpRetry => "retry" | OpDiscard => "discard" | OpVerify => "verify"
  | OpReadStats => "readStats" | OpReadTrace => "readTrace" | OpResumePrefetch => "resumePrefetch"
  | OpClearCaches => "clearCaches" | OpClose => "close" | OpUnknown name => name
  end%string.

(** Operations that need an identity, and those a boot analysis excludes. *)
Definition needs_identity : list string :=
  ["unlock"; "create"; "createEmpty"; "open"; "openRemote"; "save"; "exportReadOnlyKey"; "saveState"]%string.
Definition excluded_by_analysis : list string :=
  ["create"; "createEmpty"; "open"; "openRemote"; "save"; "download"; "retry"; "discard"; "verify"; "saveState";
   "prepareState"]%string.
Definition includes (l : list string) (s : string) : bool := existsb (String.eqb s) l.

Inductive reply :=
| RNull
| RIdentity
| RDescription (d : description) (remote : option string)
| RCreated (d : description) (download : download)
| RUnchanged (d : description)
| RState (token size : Z) (prefetchId : option Z)
| RProfile (profile : jsval)
| RDownload (d : download)
| RStats (readBytes readCalls : Z)
| RData.                                (** bytes or text of the Vault or the publication *)

Section worker.
Context (env : ∀ (past : list (call * bool)) (c : call), result (answer c)).

Definition invoke (c : call) : M (answer c) := λ w,
  let r := env (w_log w) c in
  Some (set_log (w_handles w) (w_log w ++ [(c, is_ok r)]) w, r).

(** A call that does not throw. *)
Definition emit (c : call) : M unit := modify (λ w, set_log (w_handles w) (w_log w ++ [(c, true)]) w).

(** A new Vault's handle. *)
Definition fresh_handle : M Z := λ w, Some (set_log (w_handles w + 1) (w_log w) w, Ok (w_handles w + 1)).

Definition check : M unit :=
  invoke Cancelled ≫= λ c : bool, if c then fail "CANCELLED" "Operation cancelled" else mret tt.

(** A property of [undefined]. *)
Definition type_error {A} : M A := lift (throw_plain "undefined is not an object").

Definition the_vault : M Z := w ← get; match w_vault w with Some h => mret h | None => type_error end.
Definition vault_call (m : vault_method) : M (vault_answer m) := h ← the_vault; invoke (VaultCall h m).
Definition remote_call (id : Z) (m : remote_method) : M (remote_answer m) := invoke (Remote id m).

Definition find_source (id : option Z) (w : worker) : option source :=
  id ≫= λ id, map_get id (w_sources w).
Definition remote_of (s : option source) : option string :=
  match s with Some (Source _ (RemoteSource hash)) => Some hash | _ => None end.

Definition describe : M (description * option string) :=
  vault_call Describe ≫= λ d : description,
  w ← get;
  mret (d, remote_of (find_source (w_current w) w)).
Definition described : M reply := p ← describe; mret (RDescription p.1 p.2).

(** [source(value)], or a source of another kind with the next number. *)
Definition add_source (s : source) : M Z := λ w,
  let id := w_sourceId w + 1 in Some (set_sources (w_sources w ++ [(id, s)]) id w, Ok id).

Definition remove (id : Z) : M unit :=
  w ← get;
  modify (set_sources (map_delete id (w_sources w)) (w_sourceId w)) ;;
  match remote_of (map_get id (w_sources w)) with Some _ => emit (SourceClose id) | None => mret tt end.
Definition remove_if (id : option Z) : M unit := match id with Some id => remove id | None => mret tt end.

(** [sources.get(current)?.method?.()] for a method only publications have. *)
Definition on_remote (m : Z → M unit) : M unit :=
  w ← get;
  match w_current w, remote_of (find_source (w_current w) w) with
  | Some id, Some _ => m id
  | _, _ => mret tt
  end.
Definition start_prefetch : M unit := on_remote (λ id, remote_call id StartPrefetch).
Definition set_load_prefetch (o : origin) (scope : string) : M unit :=
  on_remote (λ id, _ ← describe; remote_call id (SetLoadPrefetch o scope)).

Definition dropState : M unit :=
  w ← get;
  match w_candidate w with
  | Some k =>
      match k_prefetchId k with
      | Some p =>
          match k_source k, find_source (k_source k) w with
          | Some id, Some (Source _ (RemoteSource _)) => emit (DiscardStartup id (Some p))
          | _, Some _ => type_error
          | _, None => mret tt
          end
      | None => mret tt
      end ;;
      emit (VaultFree (k_vault k)) ;;
      modify (set_candidate None (w_serial w))
  | None => mret tt
  end.

Definition originFor (kind : jsval) : M origin :=
  w ← get;
  if is_str kind "boot" then mret OBoot
  else match is_str kind "restored", w_restored w with
       | true, Some o => mret o
       | _, _ => fail "OPERATION_FAILED" "Restore a state before selecting its load profile"
       end.
Definition origin_value (o : origin) : jsval :=
  match o with
  | OBoot => JObj [field "kind" (JStr "boot")]
  | OState sha => JObj [field "kind" (JStr "state"); field "sha256" (JStr sha)]
  end.

Definition remoteArguments (a : remote_args) : M unit :=
  w ← get;
  guard (forallb (includes ["publicKey"; "infoHash"; "sources"; "readKey"; "prefetchScope"]%string) (ra_keys a))
    "INVALID_PUBLICATION" "Unknown publication argument" ;;
  guard (is_undefined (ra_scope a) || is_str (ra_scope a) "none" || is_str (ra_scope a) "disk")
    "INVALID_PROFILE" "Initial prefetch scope must be none or disk" ;;
  guard (w_io w) "IO_ERROR" "Ciphertext bridge is unavailable".

(** [slopDiskRead(id,offset,length)], which the Vault calls; the answer of the source
    is the number of bytes it returned. *)
Definition slopDiskRead (id : Z) (offset length : jsval) : M Z :=
  check ;;
  w ← get;
  match map_get id (w_sources w), as_safe_integer offset, as_safe_integer length with
  | Some input, Some o, Some n =>
      if (o <? 0) || (n <? 0) || (src_size input <? o + n) then fail "IO_ERROR" "Source range unavailable"
      else
        invoke (SourceRead id o n) ≫= λ got : Z,
        check ;;
        guard (got =? n) "IO_ERROR" "Short source read" ;;
        modify (λ w, set_counters (w_readBytes w + n) (w_readCalls w + 1) w) ;;
        mret got
  | _, _, _ => fail "IO_ERROR" "Source range unavailable"
  end.

(** The loop of [build]: the size of the blob. *)
Fixpoint build_loop (fuel : nat) (size : Z) : M Z :=
  match fuel with
  | O => λ _, None
  | S fuel =>
      check ;;
      vault_call Next ≫= λ bytes : option Z,
      match bytes with
      | Some n => build_loop fuel (size + n)
      | None => mret size
      end
  end.

Definition cancel_build {A} (e : exn) : M A := vault_call Cancel ;; rethrow e.

Definition build (fuel : nat) : M reply :=
  vault_call Header ≫= λ first : Z,
  size ← catch (size ← build_loop fuel first; check ;; check ;; mret size) cancel_build;
  id ← add_source (Source size BlobSource);
  catch
    (vault_call (Accept id size) ;;
     w ← get;
     modify (set_current (Some id)) ;;
     modify (set_origin None false) ;;
     modify (set_prepared (Some (w_nextDownload w + 1, size)) (w_nextDownload w + 1)) ;;
     remove_if (w_current w) ;;
     describe ;; describe ;;
     p ← describe;
     mret (RCreated p.1 (w_nextDownload w + 1, size)))
    (λ e, w ← get;
          when (bool_decide (w_current w ≠ Some id)) (remove id) ;;
          cancel_build e).

(** ** Operations *)
Definition openReadOnly (keyLength file : option Z) : M reply :=
  w ← get;
  guard (bool_decide (w_vault w = None)) "OPERATION_FAILED" "Close the current disk or identity first" ;;
  guard (bool_decide (keyLength = Some 64)) "INVALID_READ_KEY" "Invalid read key" ;;
  match file with
  | None => fail "IO_ERROR" "An encrypted local file is required"
  | Some size =>
      id ← add_source (Source size BlobSource);
      h ← fresh_handle;
      catch (invoke (VaultOpenReadOnly h id size) ;; mret tt) (λ e, remove id ;; rethrow e) ;;
      catch
        (check ;;
         modify (set_vault (Some h)) ;;
         modify (set_current (Some id)) ;;
         modify (set_prepared None (w_nextDownload w)) ;;
         described)
        (λ e, emit (VaultFree h) ;; remove id ;; rethrow e)
  end.

Definition openRemoteReadOnly (a : remote_args) (keyLength : option Z) : M reply :=
  w ← get;
  guard (bool_decide (w_vault w = None)) "OPERATION_FAILED" "Close the current disk or identity first" ;;
  guard (bool_decide (keyLength = Some 64)) "INVALID_READ_KEY" "Invalid read key" ;;
  remoteArguments a ;;
  invoke OpenPublication ≫= λ p : Z * string,
  id ← add_source (Source p.1 (RemoteSource p.2));
  h ← fresh_handle;
  let undo {A} (e : exn) : M A :=
    modify (set_vault None) ;; modify (set_current None) ;; remove id ;; rethrow e in
  catch (invoke (VaultOpenReadOnly h id p.1) ;; mret tt) undo ;;
  catch
    (check ;;
     modify (set_vault (Some h)) ;;
     modify (set_current (Some id)) ;;
     modify (set_prepared None (w_nextDownload w)) ;;
     start_prefetch ;;
     described)
    (λ e, emit (VaultFree h) ;; undo e).

Definition unlock : M reply :=
  w ← get;
  guard (bool_decide (w_vault w = None)) "OPERATION_FAILED" "Close the previous identity first" ;;
  h ← fresh_handle;
  invoke (VaultNew h) ;;
  modify (set_vault (Some h)) ;;
  vault_call Identity ;;
  modify (set_identity true) ;;
  mret RIdentity.

Definition startLoadAnalysis (kind : jsval) : M reply :=
  p ← describe;
  o ← originFor kind;
  w ← get;
  match w_analysis w, p.2 with
  | None, Some hash =>
      if (if is_str kind "boot" then d_dirty p.1 else negb (w_fresh w))
      then fail "OPERATION_FAILED" "Analysis requires a clean remote boot or a freshly restored remote state"
      else
        modify (set_analysis (Some (BootAnalysis.new_analysis hash (d_size p.1) (origin_value o)))) ;;
        modify (set_origin (w_restored w) false) ;;
        mret RNull
  | _, _ => fail "OPERATION_FAILED" "Analysis requires a clean remote boot or a freshly restored remote state"
  end.

Definition setLoadPrefetch (kind scope : jsval) : M reply :=
  o ← originFor kind;
  match scope with
  | JStr s =>
      guard (includes ["none"; "profile"; "disk"; "auto"]%string s)
        "OPERATION_FAILED" "Invalid load prefetch scope" ;;
      set_load_prefetch o s ;;
      mret RNull
  | _ => fail "OPERATION_FAILED" "Invalid load prefetch scope"
  end.

Definition startBootAnalysis : M reply :=
  p ← describe;
  w ← get;
  match w_analysis w, p.2 with
  | None, Some hash =>
      if d_dirty p.1
      then fail "OPERATION_FAILED" "Boot analysis requires a clean remote disk and no existing analysis"
      else
        modify (set_analysis (Some (BootAnalysis.new_analysis hash (d_size p.1) JUndefined))) ;;
        mret RNull
  | _, _ => fail "OPERATION_FAILED" "Boot analysis requires a clean remote disk and no existing analysis"
  end.

Definition finishAnalysis : M reply :=
  w ← get;
  match w_analysis w with
  | None => fail "OPERATION_FAILED" "No boot analysis is available"
  | Some a =>
      let '(r, a') := BootAnalysis.finish a in
      modify (set_analysis (Some a')) ;;
      profile ← lift r;
      modify (set_analysis None) ;;
      mret (RProfile profile)
  end.

Definition create_from (s : source) (fuel : nat) : M reply :=
  id ← add_source s;
  finally (vault_call (BeginCreate id (src_size s)) ;; build fuel) (remove id).

Definition createEmpty (sizeBytes : jsval) (fuel : nat) : M reply :=
  match as_safe_integer sizeBytes with
  | Some size =>
      if (size <=? 0) || (2 ^ 40 <? size) || negb (Z.rem size 512 =? 0)
      then fail "INVALID_SIZE" "Size must be a positive whole number of 512-byte sectors, up to 1 TiB."
      else create_from (Source size ZeroSource) fuel
  | None => fail "INVALID_SIZE" "Size must be a positive whole number of 512-byte sectors, up to 1 TiB."
  end.

(** The new source becomes the current one. *)
Definition make_current (id : Z) : M unit :=
  w ← get;
  modify (set_current (Some id)) ;;
  modify (set_prepared None (w_nextDownload w)) ;;
  modify (set_origin None false) ;;
  remove_if (w_current w).

Definition open_file (size : Z) : M reply :=
  id ← add_source (Source size BlobSource);
  catch (vault_call (OpenDisk id size) ;; make_current id ;; described)
        (λ e, remove id ;; rethrow e).

Definition openRemote (a : remote_args) (hasReadKey : bool) : M reply :=
  guard (negb hasReadKey) "INVALID_READ_KEY" "Use the read-only publication operation" ;;
  remoteArguments a ;;
  invoke OpenPublication ≫= λ p : Z * string,
  id ← add_source (Source p.1 (RemoteSource p.2));
  catch (vault_call (OpenDisk id p.1) ;; check ;; make_current id ;; start_prefetch ;; described)
        (λ e, remove id ;; rethrow e).

Definition saveState : M reply :=
  describe ;; vault_call SealState ;; check ;; mret RData.

(** The startup prefetch that [prepareState] begins, if it was asked to. *)
Definition begin_prefetch (published prefetch : bool) (id : option Z) (remote : option string) : M (option Z) :=
  if published then
    match id, remote with
    | Some id, Some _ =>
        if prefetch then describe ;; remote_call id StartStartup ≫= λ p : Z, mret (Some p) else mret None
    | _, _ => fail "NO_PUBLISHED_STATE" "Open a publication with a state first"
    end
  else if prefetch then fail "INVALID_PROFILE" "Startup prefetch requires a published state"
  else mret None.

(** The rest of [prepareState], from the input to the candidate. *)
Definition make_candidate (published : bool) (id : option Z) (remote : option string) (prefetchId : option Z) :
    M reply :=
  match published, id with
  | true, Some id => remote_call id StateInput
  | _, _ => mret tt
  end ;;
  vault_call OpenState ≫= λ decoded : decoded,
  guard (match e_baseInfoHash decoded, remote with
         | Some reference, Some hash => bool_decide (reference = hash)
         | _, _ => true
         end) "INVALID_STATE" "State belongs to a different published disk" ;;
  let o := OState (e_sha256 decoded) in
  match prefetchId, id with
  | Some p, Some id => remote_call id (ValidateStartup p o)
  | _, _ => mret tt
  end ;;
  check ;;
  from ← the_vault;
  h ← fresh_handle;
  invoke (VaultFork h from) ;;
  w ← get;
  let token := w_serial w + 1 in
  modify (set_candidate (w_candidate w) token) ;;
  p ← describe;
  modify (set_candidate (Some (Candidate h token (d_revision p.1) (w_current w) o prefetchId)) token) ;;
  p ← describe;
  mret (RState token (d_size p.1) prefetchId).

Definition prepareState (published prefetch : bool) : M reply :=
  dropState ;;
  w ← get;
  let id := w_current w in
  let remote := remote_of (find_source id w) in
  when (negb prefetch) (on_remote (λ id, emit (DiscardStartup id None))) ;;
  prefetchId ← begin_prefetch published prefetch id remote;
  catch (make_candidate published id remote prefetchId)
    (λ e, match prefetchId, id with
          | Some p, Some id => emit (DiscardStartup id (Some p))
          | _, _ => mret tt
          end ;; rethrow e).

(** [stateCandidate && a.token===stateCandidate.token]. *)
Definition matching (token : jsval) (w : worker) : option candidate :=
  match w_candidate w with
  | Some k => if is_int token (k_token k) then Some k else None
  | None => None
  end.

Definition candidateRead (token offset length : jsval) : M reply :=
  w ← get;
  match matching token w with
  | Some k => invoke (VaultCall (k_vault k) (ReadDisk offset length)) ;; mret RData
  | None => fail "INVALID_STATE" "Expired state candidate"
  end.

(** [stateCandidate?.token===a.token]: without a candidate both may be [undefined],
    and [dropState] does nothing. *)
Definition discardState (token : jsval) : M reply :=
  w ← get;
  match matching token w with Some _ => dropState | None => mret tt end ;;
  mret RNull.

Definition commitState (token : jsval) : M reply :=
  w ← get;
  match matching token w with
  | Some k =>
      p ← describe;
      guard ((k_revision k =? d_revision p.1) && bool_decide (k_source k = w_current w))
        "INVALID_STATE" "Disk changed during restoration" ;;
      check ;;
      old ← the_vault;
      modify (set_vault (Some (k_vault k))) ;;
      modify (set_origin (Some (k_origin k)) true) ;;
      modify (set_candidate None (w_serial w)) ;;
      emit (VaultFree old) ;;
      modify (set_prepared None (w_nextDownload w)) ;;
      match k_prefetchId k with
      | Some p =>
          match w_current w, remote_of (find_source (w_current w) w) with
          | Some id, Some _ => remote_call id (CommitStartup p)
          | _, _ => type_error
          end
      | None => set_load_prefetch (k_origin k) "none"
      end ;;
      described
  | None => fail "INVALID_STATE" "Disk changed during restoration"
  end.

Definition waitLoadPrefetch (id : jsval) : M reply :=
  w ← get;
  guard (negb match w_candidate w ≫= k_prefetchId with Some p => is_int id p | None => is_undefined id end)
    "INVALID_STATE" "Commit the state before waiting for startup prefetch" ;;
  match w_current w, remote_of (find_source (w_current w) w) with
  | Some current, Some _ => remote_call current (WaitStartup id) ;; check ;; mret RData
  | _, _ => fail "INVALID_PROFILE" "No startup prefetch is available"
  end.

Definition signRelayChallenge (a : relay_args) : M reply :=
  w ← get;
  guard (w_identity w) "READ_ONLY" "Relay authentication requires an unlocked identity" ;;
  match rl_url a with
  | None => lift (throw_plain "Invalid URL")
  | Some (protocol, plain) =>
      guard (String.eqb protocol "wss:" && plain && rl_origin a &&
             match as_safe_integer (rl_expires a) with
             | Some e => (rl_now a - 1000 <=? e * 1000) && (e * 1000 <=? rl_now a + 11000)
             | None => false
             end) "OPERATION_FAILED" "Invalid relay challenge" ;;
      vault_call SignRelayChallenge ;; mret RData
  end.

Definition read (offset length : jsval) : M reply :=
  w ← get;
  modify (set_origin (w_restored w) false) ;;
  guard match as_safe_integer length with Some n => (0 <=? n) && (n <=? 4294967295) | None => false end
    "IO_ERROR" "Invalid read length" ;;
  modify (set_analysis ((λ a, (BootAnalysis.observe_read a offset length).1) <$> w_analysis w)) ;;
  vault_call (ReadDisk offset length) ;; mret RData.

Definition write (offset : jsval) : M reply :=
  w ← get;
  modify (set_origin (w_restored w) false) ;;
  vault_call (WriteDisk offset) ;; described.

Definition save (fuel : nat) : M reply :=
  vault_call BeginSave ≫= λ changed : bool,
  if changed then build fuel
  else check ;; vault_call AcceptUnchanged ;; p ← describe; mret (RUnchanged p.1).

(** The loop that reads a source whose blob is not at hand. *)
Fixpoint download_loop (fuel : nat) (id offset size : Z) : M unit :=
  if size <=? offset then mret tt
  else match fuel with
       | O => λ _, None
       | S fuel =>
           check ;;
           invoke (SourceRead id offset (Z.min 1048576 (size - offset))) ;;
           check ;;
           download_loop fuel id (offset + 1048576) size
       end.

Definition download_ (fuel : nat) : M reply :=
  p ← describe;
  guard (negb (d_dirty p.1)) "OPERATION_FAILED" "Save or discard pending writes before downloading" ;;
  w ← get;
  match w_prepared w with
  | Some d => mret (RDownload d)
  | None =>
      match w_current w, find_source (w_current w) w with
      | Some id, Some s =>
          match src_kind s with
          | BlobSource => mret tt
          | _ => download_loop fuel id 0 (src_size s) ;; check
          end ;;
          let d := (w_nextDownload w + 1, src_size s) in
          modify (set_prepared (Some d) (w_nextDownload w + 1)) ;;
          mret (RDownload d)
      | _, _ => type_error
      end
  end.

Definition discard : M reply :=
  vault_call DiscardWrites ;;
  modify (set_origin None false) ;;
  set_load_prefetch OBoot "none" ;;
  described.

Fixpoint verify_loop (fuel : nat) (count : Z) : M unit :=
  match fuel with
  | O => λ _, None
  | S fuel =>
      check ;;
      vault_call VerifyStep ≫= λ done : bool,
      let count := count + 1 in
      if done then check ;; describe ;; describe ;; mret tt
      else when (count mod 16 =? 0) (describe ;; mret tt) ;; verify_loop fuel count
  end.

Definition verify (fuel : nat) : M reply :=
  vault_call VerifyStart ;;
  catch (verify_loop fuel 0 ;; mret RData) (λ e, vault_call Cancel ;; rethrow e).

Definition clearCaches : M reply :=
  vault_call ClearCache ;;
  w ← get;
  match w_current w, remote_of (find_source (w_current w) w) with
  | Some id, Some _ => remote_call id ClearRemote
  | _, _ => when (w_io w) (invoke ClearStorage)
  end ;;
  mret RNull.

Definition remove_all (ids : list Z) : M unit := foldr (λ id m, remove id ;; m) (mret tt) ids.

Definition close : M reply :=
  dropState ;;
  modify (set_analysis None) ;;
  modify (set_origin None false) ;;
  h ← the_vault;
  emit (VaultFree h) ;;
  modify (set_vault None) ;;
  w ← get;
  remove_all (w_sources w).*1 ;;
  modify (set_identity false) ;;
  modify (set_current None) ;;
  modify (set_prepared None (w_nextDownload w)) ;;
  mret RNull.

(** The [switch] of [execute]. *)
Definition dispatch (o : op) (fuel : nat) : M reply :=
  match o with
  | OpStartLoadAnalysis kind => startLoadAnalysis kind
  | OpSetLoadPrefetch kind scope => setLoadPrefetch kind scope
  | OpStartBootAnalysis => startBootAnalysis
  | OpFinishAnalysis => finishAnalysis
  | OpCancelAnalysis => modify (set_analysis None) ;; mret RNull
  | OpCreateEmpty size => createEmpty size fuel
  | OpCreate size => create_from (Source size BlobSource) fuel
  | OpOpen size => open_file size
  | OpOpenRemote a k => openRemote a k
  | OpSaveState => saveState
  | OpPrepareState published prefetch => prepareState published prefetch
  | OpCandidateRead t o l => candidateRead t o l
  | OpDiscardState t => discardState t
  | OpCommitState t => commitState t
  | OpWaitLoadPrefetch id => waitLoadPrefetch id
  | OpRelayPublicKey => vault_call RelayPublicKey ;; mret RData
  | OpSignRelayChallenge a => signRelayChallenge a
  | OpExportReadOnlyKey => vault_call ExportReadKey ;; mret RData
  | OpDescribe => described
  | OpRead offset length => read offset length
  | OpWrite offset => write offset
  | OpSave => save fuel
  | OpDownload => download_ fuel
  | OpRetry => w ← get; match w_prepared w with
                        | Some d => mret (RDownload d)
                        | None => fail "OPERATION_FAILED" "No prepared download"
                        end
  | OpDiscard => discard
  | OpVerify => verify fuel
  | OpReadStats => w ← get; mret (RStats (w_readBytes w) (w_readCalls w))
  | OpReadTrace => mret RData
  | OpResumePrefetch => start_prefetch ;; mret RNull
  | OpClearCaches => clearCaches
  | OpClose => close
  | _ => fail "OPERATION_FAILED" "Unknown disk operation"
  end.

Definition execute (o : op) (fuel : nat) : M reply :=
  w ← get;
  let no_vault := bool_decide (w_vault w = None) in
  match o with
  | OpClose => if no_vault then mret RNull else dispatch o fuel
  | _ =>
      if negb no_vault && negb (w_identity w) && includes needs_identity (op_name o)
      then fail "READ_ONLY" "Operation unavailable in read-only mode"
      else
        match o with
        | OpOpenReadOnly k f => openReadOnly k f
        | OpOpenRemoteReadOnly a k => openRemoteReadOnly a k
        | OpUnlock => unlock
        | _ =>
            if no_vault then fail "OPERATION_FAILED" "Identity is closed"
            else if bool_decide (is_Some (w_analysis w)) && includes excluded_by_analysis (op_name o)
            then fail "OPERATION_FAILED" "Finish or cancel the boot analysis first"
            else dispatch o fuel
        end
  end.

(** The requests one after the other: each result, or [None] where a request needs
    more fuel and never ends. *)
Fixpoint run (l : list op) (fuel : nat) (w : worker) : option (worker * list (result reply)) :=
  match l with
  | [] => Some (w, [])
  | o :: l =>
      '(w, r) ← execute o fuel w;
      '(w, rs) ← run l fuel w;
      Some (w, r :: rs)
  end.

End worker.
End VaultWorker.
