(* ===== verification/VaultWorkerFacts.v ===== *)
(** * The disk Worker: facts

    Three invariants of VaultWorker.v for every behaviour of the Vault, the network
    and the user: the Vaults are used and freed soundly, no source is leaked, and a
    read-only session asks nothing of the Vault that needs an identity; and what a
    token of a prepared state stands for.  A program of the monad is followed with
    weakest preconditions; most operations are neutral for an invariant, which is
    closed under the combinators and decided by a hint database. *)
From S2P Require Import Prelude JsValue VaultWorker.
From S2P Require BootAnalysis.
#[local] Open Scope Z_scope.
Import VaultWorker.

Create HintDb neutral.

(** ** A concrete environment

    The calls [bad] selects throw; the others succeed, with a small disk, no
    cancellation, an encryption of one block and a hash that is ready at once. *)
Definition plain_vault (m : vault_method) : vault_answer m :=
  match m with
  | Describe => Description 1024 false 7
  | Header => 64
  | Next => None
  | BeginSave => true
  | VerifyStep => true
  | OpenState => Decoded None "state"
  | _ => tt
  end.
Definition plain_answer (c : call) : answer c :=
  match c with
  | Cancelled => false
  | VaultCall _ m => plain_vault m
  | OpenPublication => (1024, "disk"%string)
  | Remote _ StartStartup => 3
  | Remote _ _ => tt
  | SourceRead _ _ n => n
  | _ => tt
  end.
Definition script (bad : call → bool) (past : list (call * bool)) (c : call) : result (answer c) :=
  if bad c then throw "IO_ERROR" "Source range unavailable" else Ok (plain_answer c).

(** ** Weakest preconditions *)
Definition wp {A} (m : M A) (Q : result A → worker → Prop) (w : worker) : Prop :=
  match m w with Some (w', r) => Q r w' | None => True end.

Lemma wp_mono {A} (m : M A) (Q Q' : result A → worker → Prop) w :
  wp m Q w → (∀ r w', Q r w' → Q' r w') → wp m Q' w.
Proof. unfold wp. destruct (m w) as [[w' r]|]; auto. Qed.

Lemma wp_bind {A B} (m : M A) (f : A → M B) Q w :
  wp m (λ r w', match r with Ok a => wp (f a) Q w' | Throw e => Q (Throw e) w' end) w → wp (m ≫= f) Q w.
Proof. unfold wp, mbind, M_bind. by destruct (m w) as [[w' [a|e]]|]. Qed.

Lemma wp_ret {A} (a : A) (Q : result A → worker → Prop) w : Q (Ok a) w → wp (mret a : M A) Q w.
Proof. done. Qed.

Lemma wp_lift {A} (r : result A) (Q : result A → worker → Prop) w : Q r w → wp (lift r) Q w.
Proof. done. Qed.

Lemma wp_fail {A} c msg (Q : result A → worker → Prop) w : (∀ e, Q (Throw e) w) → wp (fail c msg) Q w.
Proof. intros H. apply H. Qed.

Lemma wp_modify f Q w : Q (Ok tt) (f w) → wp (modify f) Q w.
Proof. done. Qed.

Lemma wp_get Q w : Q (Ok w) w → wp get Q w.
Proof. done. Qed.

Lemma wp_catch {A} (m : M A) h Q w :
  wp m (λ r w', match r with Ok a => Q (Ok a) w' | Throw e => wp (h e) Q w' end) w → wp (catch m h) Q w.
Proof. unfold wp, catch. by destruct (m w) as [[w' [a|e]]|]. Qed.

Lemma wp_finally {A} (m : M A) f Q w :
  wp m (λ r w', wp f (λ r' w', Q (match r' with Ok _ => r | Throw e => Throw e end) w') w') w → wp (finally m f) Q w.
Proof.
  unfold wp, finally. destruct (m w) as [[w' r]|]; [|done]. by destruct (f w') as [[w2 [u|e]]|].
Qed.

Lemma wp_guard b c msg (Q : result unit → worker → Prop) w :
  (b = true → Q (Ok tt) w) → (∀ e, Q (Throw e) w) → wp (guard b c msg) Q w.
Proof. destruct b; intros H1 H2; [by apply H1|apply H2]. Qed.

(** ** Programs that preserve a relation between the states before and after

    A relation that is reflexive and transitive gives a notion of neutral program
    that all combinators preserve. *)
Section neutral.
Context (R : worker → worker → Prop) `{!Reflexive R, !Transitive R}.

Definition neutral {A} (m : M A) : Prop := ∀ w, wp m (λ _ w', R w w') w.

Lemma neutral_ret {A} (a : A) : neutral (mret a : M A).
Proof using Type*. intros w. apply wp_ret. reflexivity. Qed.
Lemma neutral_lift {A} (r : result A) : neutral (lift r).
Proof using Type*. intros w. apply wp_lift. reflexivity. Qed.
Lemma neutral_fail {A} c msg : neutral (fail c msg : M A).
Proof using Type*. apply neutral_lift. Qed.
Lemma neutral_get : neutral get.
Proof using Type*. intros w. apply wp_get. reflexivity. Qed.
Lemma neutral_bind {A B} (m : M A) (f : A → M B) : neutral m → (∀ a, neutral (f a)) → neutral (m ≫= f).
Proof using Type*.
  intros Hm Hf w. apply wp_bind. eapply wp_mono; [apply Hm|]. intros [a|e] w' HR; [|done].
  eapply wp_mono; [apply Hf|]. intros r w2 HR2. by transitivity w'.
Qed.
Lemma neutral_catch {A} (m : M A) h : neutral m → (∀ e, neutral (h e)) → neutral (catch m h).
Proof using Type*.
  intros Hm Hh w. apply wp_catch. eapply wp_mono; [apply Hm|]. intros [a|e] w' HR; [done|].
  eapply wp_mono; [apply Hh|]. intros r w2 HR2. by transitivity w'.
Qed.
Lemma neutral_finally {A} (m : M A) f : neutral m → neutral f → neutral (finally m f).
Proof using Type*.
  intros Hm Hf w. apply wp_finally. eapply wp_mono; [apply Hm|]. intros r w' HR.
  eapply wp_mono; [apply Hf|]. intros r2 w2 HR2. by transitivity w'.
Qed.
Lemma neutral_modify f : (∀ w, R w (f w)) → neutral (modify f).
Proof using Type*. intros H w. apply wp_modify, H. Qed.
Lemma neutral_when (b : bool) m : neutral m → neutral (when b m).
Proof using Type*. destruct b; [done|]. intros _. apply neutral_ret. Qed.
Lemma neutral_guard b c msg : neutral (guard b c msg).
Proof using Type*. destruct b; [apply neutral_ret|apply neutral_fail]. Qed.
Lemma neutral_stuck {A} : neutral (λ _, None : option (worker * result A)).
Proof using Type*. by intros w. Qed.

End neutral.

(** Follow the structure of a program; the hint database knows the operations. *)
Ltac class := lazymatch goal with
  | |- Reflexive _ => typeclasses eauto
  | |- Transitive _ => typeclasses eauto
  | _ => idtac
  end.
Ltac neutral_step :=
  lazymatch goal with
  | |- neutral _ (mret _) => apply neutral_ret; class
  | |- neutral _ (lift _) => apply neutral_lift; class
  | |- neutral _ (rethrow _) => apply neutral_lift; class
  | |- neutral _ (fail _ _) => apply neutral_fail; class
  | |- neutral _ type_error => apply neutral_lift; class
  | |- neutral _ get => apply neutral_get; class
  | |- neutral _ (guard _ _ _) => apply neutral_guard; class
  | |- neutral _ (when _ _) => apply neutral_when; class
  | |- neutral _ (modify _) => apply neutral_modify; class
  | |- neutral _ (mbind _ _) => apply neutral_bind; class; [|intros ?]
  | |- neutral _ (catch _ _) => apply neutral_catch; class; [|intros ?]
  | |- neutral _ (finally _ _) => apply neutral_finally; class
  | |- neutral _ (λ _, None) => apply neutral_stuck; class
  | |- neutral _ (match ?x with _ => _ end) => destruct x
  | |- neutral _ (let _ := _ in _) => cbv zeta
  end.
Ltac neutral := repeat first [solve [eauto with neutral] | neutral_step].
(** ** The operations that leave the Vaults and the sources alone

    They are neutral for every relation that allows the calls they make and the
    changes of the analysis, the origin, the download and the counters. *)
Section quiet.
Context (env : ∀ (past : list (call * bool)) (c : call), result (answer c)).
Context (R : worker → worker → Prop) `{!Reflexive R, !Transitive R}.
Context (P : vault_method → bool).

(** Calls that concern no Vault, and the methods [P] of the current Vault. *)
Definition outside (c : call) : bool :=
  match c with
  | VaultNew _ | VaultOpenReadOnly _ _ _ | VaultFork _ _ | VaultFree _ | VaultCall _ _ => false
  | _ => true
  end.
Record permits : Prop := Permits {
  p_invoke : ∀ c, outside c = true → neutral R (invoke env c);
  p_emit : ∀ c, outside c = true → neutral R (emit c);
  p_call : ∀ m, P m = true → neutral R (vault_call env m);
  p_analysis : ∀ x w, R w (set_analysis x w);
  p_origin : ∀ x b w, R w (set_origin x b w);
  p_prepared : ∀ x n w, R w (set_prepared x n w);
  p_counters : ∀ x n w, R w (set_counters x n w)
}.
Context (HR : permits).

Ltac quiet :=
  repeat first [ solve [auto with neutral]
               | neutral_step
               | match goal with
                 | |- neutral _ (invoke _ ?c) => exact (p_invoke HR c eq_refl)
                 | |- neutral _ (remote_call _ ?id ?m) => exact (p_invoke HR (Remote id m) eq_refl)
                 | |- neutral _ (emit ?c) => exact (p_emit HR c eq_refl)
                 | |- neutral _ (vault_call _ ?m) => refine (p_call HR m _); assumption
                 end
               | intros; apply (p_analysis HR) || apply (p_origin HR) || apply (p_prepared HR) || apply (p_counters HR) ].

Lemma quiet_check : neutral R (check env).
Proof using Type*. unfold check. quiet. Qed.
Lemma quiet_remote id m : neutral R (remote_call env id m).
Proof using Type*. unfold remote_call. quiet. Qed.
#[local] Hint Resolve quiet_check quiet_remote : neutral.
Lemma quiet_on_remote m : (∀ id, neutral R (m id)) → neutral R (on_remote m).
Proof using Type*. intros H. unfold on_remote. quiet. Qed.
Lemma quiet_start_prefetch : neutral R (start_prefetch env).
Proof using Type*. apply quiet_on_remote. intros id. quiet. Qed.
Lemma quiet_origin kind : neutral R (originFor kind).
Proof using Type*. unfold originFor. quiet. Qed.
Lemma quiet_arguments a : neutral R (remoteArguments a).
Proof using Type*. unfold remoteArguments. quiet. Qed.
#[local] Hint Resolve quiet_start_prefetch quiet_origin quiet_arguments : neutral.

Context (Pdescribe : P Describe = true).
Lemma quiet_describe : neutral R (describe env).
Proof using Type*. unfold describe. quiet. Qed.
#[local] Hint Resolve quiet_describe : neutral.
Lemma quiet_described : neutral R (described env).
Proof using Type*. unfold described. quiet. Qed.
Lemma quiet_set_load_prefetch o s : neutral R (set_load_prefetch env o s).
Proof using Type*. apply quiet_on_remote. intros id. quiet. Qed.
#[local] Hint Resolve quiet_described quiet_set_load_prefetch : neutral.

Lemma quiet_build_loop fuel size : P Next = true → neutral R (build_loop env fuel size).
Proof using Type*. intros HP. revert size. induction fuel as [|fuel IH]; intros size; cbn [build_loop]; quiet. Qed.
Lemma quiet_download_loop fuel id o size : neutral R (download_loop env fuel id o size).
Proof using Type*. revert o. induction fuel as [|fuel IH]; intros o; cbn [download_loop]; quiet. Qed.
Lemma quiet_verify_loop fuel count : P VerifyStep = true → neutral R (verify_loop env fuel count).
Proof using Type*. intros HP. revert count. induction fuel as [|fuel IH]; intros c; cbn [verify_loop]; quiet. Qed.
#[local] Hint Resolve quiet_download_loop : neutral.

(** The operations of the list below change neither the Vaults nor the sources. *)
Definition quiet_op (o : op) : bool :=
  match o with
  | OpStartLoadAnalysis _ | OpSetLoadPrefetch _ _ | OpStartBootAnalysis | OpFinishAnalysis | OpCancelAnalysis
  | OpDescribe | OpDownload | OpRetry | OpReadStats | OpReadTrace | OpResumePrefetch | OpWaitLoadPrefetch _ => true
  | OpSaveState => P SealState
  | OpRelayPublicKey => P RelayPublicKey
  | OpSignRelayChallenge _ => P SignRelayChallenge
  | OpExportReadOnlyKey => P ExportReadKey
  | OpRead o l => P (ReadDisk o l)
  | OpWrite o => P (WriteDisk o)
  | OpDiscard => P DiscardWrites
  | OpVerify => P VerifyStart && P VerifyStep && P Cancel
  | OpClearCaches => P ClearCache
  | _ => false
  end.

Lemma quiet_dispatch o fuel : quiet_op o = true → neutral R (dispatch env o fuel).
Proof using Type*.
  destruct o; try discriminate; intros HP; cbn [quiet_op] in HP; cbn [dispatch];
    unfold startLoadAnalysis, setLoadPrefetch, startBootAnalysis, finishAnalysis, saveState, waitLoadPrefetch,
      signRelayChallenge, read, write, download_, discard, verify, clearCaches; try solve [quiet].
  apply andb_prop in HP as [[HP1 HP2]%andb_prop HP3].
  pose proof (quiet_verify_loop fuel 0 HP2). quiet.
Qed.

(** ** The operations that leave the Vaults alone, when the sources may change *)
Record permits_sources : Prop := PermitsSources {
  p_sources : ∀ x n w, R w (set_sources x n w);
  p_current : ∀ x w, R w (set_current x w)
}.
Context (HS : permits_sources).

Ltac loud := repeat first [ progress quiet | intros; first [apply (p_sources HS) | apply (p_current HS)] ].

Lemma loud_add_source s : neutral R (add_source s).
Proof using Type*. intros w. apply (p_sources HS). Qed.
Lemma loud_remove id : neutral R (remove id).
Proof using Type*. unfold remove. loud. Qed.
#[local] Hint Resolve loud_add_source loud_remove : neutral.
Lemma loud_remove_if id : neutral R (remove_if id).
Proof using Type*. unfold remove_if. loud. Qed.
#[local] Hint Resolve loud_remove_if : neutral.
Lemma loud_remove_all ids : neutral R (remove_all ids).
Proof using Type*. unfold remove_all. induction ids as [|id ids IH]; simpl; loud. Qed.
Lemma loud_make_current id : neutral R (make_current id).
Proof using Type*. unfold make_current. loud. Qed.
#[local] Hint Resolve loud_make_current : neutral.

Lemma loud_build fuel :
  P Header = true → P Next = true → (∀ i n, P (Accept i n) = true) → P Cancel = true → neutral R (build env fuel).
Proof using Type*.
  intros H1 H2 H3 H4. assert (∀ size, neutral R (build_loop env fuel size)) by (intros size; by apply quiet_build_loop).
  unfold build, cancel_build. loud. refine (p_call HR (Accept _ _) _); apply H3.
Qed.

Definition loud_op (o : op) : bool :=
  match o with OpCreate _ | OpCreateEmpty _ | OpOpen _ | OpOpenRemote _ _ | OpSave => true | _ => quiet_op o end.

Lemma loud_dispatch o fuel :
  (∀ m, P m = true) → loud_op o = true → neutral R (dispatch env o fuel).
Proof using Type*.
  intros HP Ho. assert (HB : neutral R (build env fuel)) by (apply loud_build; intros; apply HP).
  assert (HM : ∀ m, neutral R (vault_call env m)) by (intros m; apply (p_call HR), HP).
  destruct o; try (apply quiet_dispatch; exact Ho); cbn [dispatch];
    unfold createEmpty, create_from, open_file, openRemote, save;
    repeat first [ progress loud | match goal with |- neutral _ (vault_call _ ?m) => exact (HM m) end ].
Qed.
End quiet.
#[global] Arguments p_invoke {env R P}.
#[global] Arguments p_emit {env R P}.
#[global] Arguments p_call {env R P}.
