(* ===== verification/VaultHandles.v ===== *)
(** * The disk Worker: the Vaults' memory

    A Vault lives in the memory of the WebAssembly module and is freed by hand: a
    freed Vault must never be used or freed again, and a Vault that nothing refers to
    is lost.  [replay] reads the log of a run as the module's allocator would; the
    theorem says that it accepts every run of the Worker, and that the Vaults alive
    afterwards are the ones the Worker still owns. *)
From S2P Require Import Prelude JsValue VaultWorker VaultWorkerFacts.
#[local] Open Scope Z_scope.
Import VaultWorker.

(** ** The allocator's view of a log *)
Record heap := Heap { live : gset Z; freed : gset Z }.

Definition allocate (h : Z) (ok : bool) (s : heap) : option heap :=
  if ok then if decide (h ∈ live s ∪ freed s) then None else Some (Heap ({[h]} ∪ live s) (freed s))
  else Some s.
Definition use (h : Z) (s : heap) : option heap := if decide (h ∈ live s) then Some s else None.

Definition heap_step (e : call * bool) (s : heap) : option heap :=
  match e.1 with
  | VaultNew h | VaultOpenReadOnly h _ _ => allocate h e.2 s
  | VaultFork h from => use from s ≫= allocate h e.2
  | VaultFree h => use h s ≫= λ s, Some (Heap (live s ∖ {[h]}) ({[h]} ∪ freed s))
  | VaultCall h _ => use h s
  | _ => Some s
  end.
Definition replay (log : list (call * bool)) : option heap :=
  foldl (λ s e, s ≫= heap_step e) (Some (Heap ∅ ∅)) log.
#[local] Arguments replay : simpl never.

(** The Vaults the Worker refers to. *)
Definition held (o : option Z) : gset Z := match o with Some h => {[h]} | None => ∅ end.
Definition owned (w : worker) : gset Z := held (w_vault w) ∪ held (k_vault <$> w_candidate w).

(** Replaying the log succeeds; the Vaults alive are the owned ones and [X]. *)
Definition sound (X : gset Z) (w : worker) : Prop :=
  ∃ s, replay (w_log w) = Some s ∧ live s = owned w ∪ X ∧ X ## owned w ∧
    held (w_vault w) ## held (k_vault <$> w_candidate w) ∧
    ∀ h, h ∈ live s ∪ freed s → h ≤ w_handles w.

(** A Vault that has an open disk describes it. *)
Definition has_disk (past : list (call * bool)) (h : Z) : Prop :=
  (∃ id size, (VaultOpenReadOnly h id size, true) ∈ past) ∨ (∃ h', (VaultFork h' h, true) ∈ past).

Lemma replay_snoc log e : replay (log ++ [e]) = replay log ≫= heap_step e.
Proof. unfold replay. by rewrite foldl_app. Qed.

Lemma sound_new io : sound ∅ (new_worker io).
Proof. exists (Heap ∅ ∅). cbn. split_and!; try done; set_solver. Qed.

(** ** Steps that use only the current Vault *)
Definition uses_vault (w w' : worker) : Prop :=
  w_vault w' = w_vault w ∧ w_candidate w' = w_candidate w ∧ w_handles w' = w_handles w ∧
  w_log w `prefix_of` w_log w' ∧
  ∀ s, replay (w_log w) = Some s → held (w_vault w) ⊆ live s → replay (w_log w') = Some s.

#[export] Instance uses_vault_refl : Reflexive uses_vault.
Proof. intros w. by split_and!. Qed.
#[export] Instance uses_vault_trans : Transitive uses_vault.
Proof.
  intros w1 w2 w3 (V1 & C1 & H1 & L1 & S1) (V2 & C2 & H2 & L2 & S2). split_and!; try congruence.
  - by etrans.
  - intros s Hs Hl. apply S2; [by apply S1|]. by rewrite V1.
Qed.

Lemma sound_uses X w w' : sound X w → uses_vault w w' → sound X w'.
Proof.
  intros (s & Hs & Hl & HX & Hd & Hb) (V & C & H & _ & S). exists s. unfold owned in *. rewrite V, C, H.
  split_and!; try done. apply S; [done|]. set_solver.
Qed.

Lemma has_disk_prefix l l' h : has_disk l h → l `prefix_of` l' → has_disk l' h.
Proof.
  intros Hd [k ->]. destruct Hd as [(id & n & H)|(h' & H)]; [left; exists id, n|right; exists h']; set_solver.
Qed.

Section handles.
Context (env : ∀ (past : list (call * bool)) (c : call), result (answer c)).

Lemma uses_entry c b w :
  (∀ s, replay (w_log w) = Some s → held (w_vault w) ⊆ live s → heap_step (c, b) s = Some s) →
  uses_vault w (set_log (w_handles w) (w_log w ++ [(c, b)]) w).
Proof using Type.
  intros H. split_and!; try done; cbn.
  - by apply prefix_app_r.
  - intros s Hs Hl. rewrite replay_snoc, Hs. cbn. by apply H.
Qed.

Lemma use_held w s h : w_vault w = Some h → held (w_vault w) ⊆ live s → use h s = Some s.
Proof using Type. intros E H. rewrite E in H. cbn in H. unfold use. case_decide; set_solver. Qed.

Lemma handles_permits : permits env uses_vault (λ _, true).
Proof using Type.
  split; try done.
  - intros c Hc w. apply uses_entry. intros s _ _. by destruct c.
  - intros c Hc w. apply uses_entry. intros s _ _. by destruct c.
  - intros m _ w. unfold vault_call, the_vault. apply wp_bind, wp_bind, wp_get.
    destruct (w_vault w) as [h|] eqn:E.
    + apply wp_ret. apply uses_entry. intros s _ Hl. by eapply use_held.
    + exact (uses_vault_refl w).
Qed.
Lemma handles_sources : permits_sources uses_vault.
Proof using Type. by split. Qed.


Lemma wp_conj {A} (m : M A) Q1 Q2 w : wp m Q1 w → wp m Q2 w → wp m (λ r w', Q1 r w' ∧ Q2 r w') w.
Proof using Type. unfold wp. destruct (m w) as [[w' r]|]; auto. Qed.

(** What is alive may move between the Worker's references and [X]. *)
Lemma sound_move X X' w w' :
  sound X w → w_log w' = w_log w → w_handles w' = w_handles w →
  owned w' ∪ X' = owned w ∪ X → X' ## owned w' → held (w_vault w') ## held (k_vault <$> w_candidate w') →
  sound X' w'.
Proof using Type.
  intros (s & Hs & Hl & HX & Hd & Hb) EL EH EO HX' Hd'. exists s. rewrite EL, EH. split_and!; try done. congruence.
Qed.

Lemma sound_free X h w :
  sound ({[h]} ∪ X) w → h ∉ X → sound X (set_log (w_handles w) (w_log w ++ [(VaultFree h, true)]) w).
Proof using Type.
  intros (s & Hs & Hl & HX & Hd & Hb) Hh. exists (Heap (live s ∖ {[h]}) ({[h]} ∪ freed s)). split_and!; try done.
  - cbn. rewrite replay_snoc, Hs. cbn. unfold heap_step, use. cbn. case_decide; [done|set_solver].
  - cbn. unfold owned in *. cbn. rewrite Hl. set_solver.
  - unfold owned in *. cbn. set_solver.
  - intros x Hx. cbn in Hx. apply Hb. set_solver.
Qed.

(** A handle that no log has named. *)
Definition fresh (X : gset Z) (h : Z) (w : worker) : Prop :=
  sound X w ∧ h = w_handles w ∧ ∀ s, replay (w_log w) = Some s → h ∉ live s ∪ freed s.

Lemma fresh_spec X w :
  sound X w → wp fresh_handle (λ r w', ∃ h, r = Ok h ∧ fresh X h w' ∧
    w' = set_log (w_handles w + 1) (w_log w) w) w.
Proof using Type.
  intros (s & Hs & Hl & HX & Hd & Hb). unfold wp, fresh_handle. exists (w_handles w + 1). split; [done|]. split; [|done].
  split; [|split; [done|]].
  - exists s. split_and!; try done. cbn. intros h Hh%Hb. lia.
  - intros s' Hs' Hh. change (replay (w_log w) = Some s') in Hs'. rewrite Hs in Hs'. injection Hs' as <-. apply Hb in Hh. lia.
Qed.

Lemma fresh_alloc X h c b w :
  fresh X h w → (∀ s, replay (w_log w) = Some s → heap_step (c, b) s = allocate h b s) →
  sound (if b then {[h]} ∪ X else X) (set_log (w_handles w) (w_log w ++ [(c, b)]) w).
Proof using Type.
  intros ((s & Hs & Hl & HX & Hd & Hb) & -> & Hf) Hc. specialize (Hf s Hs). specialize (Hc s Hs).
  exists (if b then Heap ({[w_handles w]} ∪ live s) (freed s) else s). cbn [set_log w_log w_handles w_vault w_candidate].
  rewrite replay_snoc, Hs. cbn [mbind option_bind]. unfold owned in *. cbn [set_log w_vault w_candidate].
  destruct b; split_and!; try done.
  - rewrite Hc. unfold allocate. case_decide; [done|done].
  - cbn. rewrite Hl. set_solver.
  - set_solver.
  - intros x Hx. cbn in Hx. destruct (decide (x = w_handles w)) as [->|]; [lia|]. apply Hb. set_solver.
Qed.

Lemma keeps_neutral {A} X (m : M A) w :
  neutral uses_vault m → sound X w → wp m (λ _ w', sound X w' ∧ uses_vault w w') w.
Proof using Type.
  intros Hm Hw. eapply wp_mono; [apply Hm|]. cbn. intros r w' H. split; [|done]. by eapply sound_uses.
Qed.

Lemma neutral_alive {A} (m : M A) w : neutral uses_vault m → wp m (λ _ w', uses_vault w w') w.
Proof using Type. intros H. apply H. Qed.

Lemma drop_spec w :
  sound ∅ w →
  wp dropState (λ r w', sound ∅ w' ∧ w_vault w' = w_vault w ∧ (r = Ok tt → w_candidate w' = None)) w.
Proof using env.
  intros Hw. unfold dropState. apply wp_bind, wp_get. destruct (w_candidate w) as [k|] eqn:Ek; [|by apply wp_ret].
  apply wp_bind. eapply wp_mono.
  { apply (keeps_neutral ∅); [|exact Hw]. neutral. exact (p_emit handles_permits (DiscardStartup _ _) eq_refl). }
  intros [[]|e] w1 [H1 HU]; pose proof HU as (V & C & _); [|by split_and!].
  unfold wp, emit, modify, mbind, M_bind. split_and!; [|done|done].
  assert (H2 : sound ({[k_vault k]} ∪ ∅) (set_candidate None (w_serial w) w1)).
  { eapply sound_move; [exact H1|done|done|..]; destruct H1 as (s & _ & _ & _ & Hd & _);
      unfold owned in *; cbn in *; rewrite C, Ek in *; cbn in *; set_solver. }
  apply (sound_free _ _ _ H2). set_solver.
Qed.

(** Giving up a Vault the Worker has just opened: from [X] if [vault] is not set yet. *)
Lemma sound_give_up h w :
  (w_vault w = None ∧ sound {[h]} w) ∨ (w_vault w = Some h ∧ sound ∅ w) →
  sound ∅ (set_vault None (set_log (w_handles w) (w_log w ++ [(VaultFree h, true)]) w)).
Proof using Type.
  intros H. assert (HX : sound ({[h]} ∪ ∅) (set_vault None w)); [|apply (sound_free _ _ _ HX); set_solver].
  destruct H as [[Hv H]|[Hv H]]; pose proof H as (s & _ & _ & HX & Hd & _);
    (eapply sound_move; [exact H|done|done|..]; unfold owned in *; cbn in *; rewrite Hv in *; cbn in *; set_solver).
Qed.

(** The Worker takes the Vault it has opened. *)
Lemma sound_take h w n w' :
  w_vault w = None → sound {[h]} w →
  w' = set_prepared None n (set_current (w_current w') (set_vault (Some h) w)) → sound ∅ w'.
Proof using Type.
  intros Hv H ->. pose proof H as (s & _ & _ & HX & Hc & _).
  eapply sound_move; [exact H|done|done|..]; unfold owned in *; cbn in *; rewrite Hv in *; cbn in *; set_solver.
Qed.

Context (describe_open : ∀ past h, has_disk past h → is_ok (env past (VaultCall h Describe)) = true).

(** ** The operations that allocate or free *)
Definition keeps {A} (m : M A) : Prop := ∀ w, sound ∅ w → wp m (λ _ w', sound ∅ w') w.

Lemma describe_ok h w :
  w_vault w = Some h → has_disk (w_log w) h →
  wp (describe env) (λ r w', uses_vault w w' ∧ ∃ x, r = Ok x) w.
Proof using All.
  intros Hv Hd. apply wp_conj; [apply (quiet_describe env uses_vault _ handles_permits eq_refl)|].
  unfold wp, describe, vault_call, the_vault, get, mbind, M_bind, mret, M_ret, invoke. rewrite Hv.
  pose proof (describe_open _ _ Hd) as H. destruct (env (w_log w) (VaultCall h Describe)); [by eexists|done].
Qed.

Lemma described_ok h w :
  w_vault w = Some h → has_disk (w_log w) h →
  wp (described env) (λ r w', uses_vault w w' ∧ ∃ x, r = Ok x) w.
Proof using All.
  intros Hv Hd. unfold described. apply wp_bind. eapply wp_mono; [by eapply describe_ok|].
  intros r w' [Hu [x ->]]. apply wp_ret. eauto.
Qed.

Lemma unlock_keeps : keeps (unlock env).
Proof using All.
  intros w Hw. unfold unlock. apply wp_bind, wp_get. unfold guard. case_bool_decide as HV; [|exact Hw].
  apply wp_bind, wp_ret, wp_bind. eapply wp_mono; [by apply fresh_spec|]. intros r w1 (h & -> & Hf & ->).
  apply wp_bind. unfold wp at 1. cbn [invoke].
  set (b := is_ok _). pose proof (fresh_alloc _ h (VaultNew h) b _ Hf (λ s _, eq_refl)) as Ha. subst b.
  destruct (env _ (VaultNew h)); cbn in Ha |- *; [|exact Ha].
  apply wp_bind, wp_modify. set (w2 := set_vault _ _).
  assert (H2 : sound ∅ w2).
  { eapply sound_move; [exact Ha|done|done|..]; destruct Ha as (s & _ & _ & HX & Hd & _);
      unfold owned in *; cbn in *; rewrite HV in *; cbn in *; set_solver. }
  apply wp_bind. eapply wp_mono.
  { apply (keeps_neutral ∅); [|exact H2]. exact (p_call handles_permits Identity eq_refl). }
  intros [[]|e] w3 [H3 _]; [|done]. apply wp_bind, wp_modify, wp_ret. by eapply sound_uses.
Qed.

(** [w1] is [w] after the Vault [h] has been opened read-only. *)
Definition opened (h : Z) (w1 : worker) : Prop :=
  w_vault w1 = None ∧ sound {[h]} w1 ∧ has_disk (w_log w1) h.

Lemma wp_rethrow {A B} (m : M A) e (I : worker → Prop) w :
  wp m (λ _ w', I w') w → wp (m ;; rethrow e : M B) (λ r w', I w' ∧ is_ok r = false) w.
Proof using Type. intros H. apply wp_bind. eapply wp_mono; [exact H|]. by intros [a|e'] w' HI. Qed.

Lemma open_keeps h id size {B} (undo : exn → M unit) (k : M B) w :
  fresh ∅ h w → w_vault w = None →
  (∀ e w1, sound ∅ w1 → w_vault w1 = None → wp (undo e) (λ r w', sound ∅ w' ∧ is_ok r = false) w1) →
  (∀ w1, opened h w1 → wp k (λ _ w', sound ∅ w') w1) →
  wp (catch (invoke env (VaultOpenReadOnly h id size) ;; mret tt) undo ;; k) (λ _ w', sound ∅ w') w.
Proof using All.
  intros Hf Hv Hu Hk. apply wp_bind, wp_catch, wp_bind. unfold wp at 1. cbn [invoke].
  set (b := is_ok _). pose proof (fresh_alloc _ h (VaultOpenReadOnly h id size) b _ Hf (λ s _, eq_refl)) as Ha. subst b.
  destruct (env _ (VaultOpenReadOnly h id size)) as [[]|e]; cbn in Ha |- *.
  - apply Hk. split_and!; [done| |].
    + by replace {[h]} with ({[h]} ∪ ∅ : gset Z) by set_solver.
    + left. exists id, size. cbn. set_solver.
  - eapply wp_mono; [by apply Hu|]. by intros [[]|e'] w' [H HF].
Qed.

Lemma remove_neutral id : neutral uses_vault (remove id).
Proof using All. apply (loud_remove env uses_vault _ handles_permits eq_refl handles_sources). Qed.

Lemma remove_rethrow {B} id e w :
  sound ∅ w → wp (remove id ;; rethrow e : M B) (λ r w', sound ∅ w' ∧ is_ok r = false) w.
Proof using All.
  intros H. apply wp_rethrow. eapply wp_mono; [apply (keeps_neutral ∅ _ _ (remove_neutral id) H)|]. by intros r w' [].
Qed.

Lemma openReadOnly_keeps k f : keeps (openReadOnly env k f).
Proof using All.
  intros w Hw. unfold openReadOnly. apply wp_bind, wp_get, wp_bind, wp_guard; [|done]. intros HV%bool_decide_eq_true.
  apply wp_bind, wp_guard; [|done]. intros _. destruct f as [size|]; [|exact Hw].
  apply wp_bind. eapply wp_mono; [apply (keeps_neutral ∅ _ _ (loud_add_source env _ _ handles_permits eq_refl handles_sources _) Hw)|].
  intros [id|e] w1 [H1 (V1 & _)]; [|done]. apply wp_bind. eapply wp_mono; [by apply fresh_spec|].
  intros r w2 (h & -> & Hf & ->).
  apply (open_keeps h id size (λ e, remove id ;; rethrow e)); [exact Hf|by cbn; rewrite V1|intros; by apply remove_rethrow|].
  intros w3 (Hv & H3 & Hd). apply wp_catch, wp_bind.
  eapply wp_mono; [apply (keeps_neutral {[h]} _ _ (quiet_check env _ _ handles_permits) H3)|].
  intros [[]|e] w4 [H4 (V4 & _ & _ & L4 & _)].
  2: { apply wp_bind. unfold wp at 1. cbn [emit modify]. eapply wp_mono; [apply remove_rethrow|by intros r w' []].
       eapply sound_free; [|set_solver]. by replace ({[h]} ∪ ∅ : gset Z) with ({[h]} : gset Z) by set_solver. }
  apply wp_bind, wp_modify, wp_bind, wp_modify, wp_bind, wp_modify. set (w5 := set_prepared _ _ _).
  assert (H5 : sound ∅ w5).
  { eapply (sound_take h w4); [congruence|exact H4|done]. }
  eapply wp_mono; [eapply (described_ok h w5); [done|by eapply has_disk_prefix]|].
  intros r w6 [HU [x ->]]. by eapply sound_uses.
Qed.

Lemma undo_remote {B} id e w :
  sound ∅ (set_vault None w) →
  wp (modify (set_vault None) ;; modify (set_current None) ;; remove id ;; rethrow e : M B)
    (λ r w', sound ∅ w' ∧ is_ok r = false) w.
Proof using All. intros H. apply wp_bind, wp_modify, wp_bind, wp_modify, remove_rethrow, H. Qed.

Lemma openRemoteReadOnly_keeps a k : keeps (openRemoteReadOnly env a k).
Proof using All.
  intros w Hw. unfold openRemoteReadOnly. apply wp_bind, wp_get, wp_bind, wp_guard; [|done]. intros HV%bool_decide_eq_true.
  apply wp_bind, wp_guard; [|done]. intros _. apply wp_bind.
  eapply wp_mono; [apply (keeps_neutral ∅ _ _ (quiet_arguments env _ _ handles_permits a) Hw)|].
  intros [[]|e] w1 [H1 (V1 & _)]; [|done]. apply wp_bind.
  eapply wp_mono; [apply (keeps_neutral ∅ _ _ (p_invoke handles_permits OpenPublication eq_refl) H1)|].
  intros [[size hash]|e] w2 [H2 (V2 & _)]; [|done]. apply wp_bind.
  eapply wp_mono; [apply (keeps_neutral ∅ _ _ (loud_add_source env _ _ handles_permits eq_refl handles_sources _) H2)|].
  intros [id|e] w3 [H3 (V3 & _)]; [|done]. apply wp_bind. eapply wp_mono; [by apply fresh_spec|].
  intros r w4 (h & -> & Hf & ->). cbn zeta.
  apply (open_keeps h id size); [exact Hf|by cbn; rewrite V3, V2, V1|..].
  { intros e w5 H5 HN. apply undo_remote. eapply sound_move; [exact H5|done|done|..];
      destruct H5 as (s & _ & _ & HX & Hc & _); unfold owned in *; cbn; rewrite HN in *; set_solver. }
  intros w5 (Hv & H5 & Hd). apply wp_catch, wp_bind.
  eapply wp_mono; [apply (keeps_neutral {[h]} _ _ (quiet_check env _ _ handles_permits) H5)|].
  intros [[]|e] w6 [H6 (V6 & _ & _ & L6 & _)].
  2: { eapply wp_mono; [apply (undo_remote id e), sound_give_up; left; split; [congruence|exact H6]|by intros r w' []]. }
  apply wp_bind, wp_modify, wp_bind, wp_modify, wp_bind, wp_modify. set (w7 := set_prepared _ _ _).
  assert (H7 : sound ∅ w7) by (eapply (sound_take h w6); [congruence|exact H6|done]).
  assert (HU : wp (start_prefetch env ;; described env) (λ _ w', uses_vault w7 w') w7).
  { apply neutral_bind; [apply _|apply _|apply (quiet_start_prefetch env _ _ handles_permits)|].
    intros []. apply (quiet_described env _ _ handles_permits eq_refl). }
  eapply wp_mono; [exact HU|]. intros [x|e] w8 H8; [by eapply sound_uses|].
  eapply wp_mono; [apply (undo_remote id e), sound_give_up; right|by intros r w' []].
  split; [by destruct H8 as [-> _]|by eapply sound_uses].
Qed.

Lemma discardState_keeps t : keeps (discardState t).
Proof using All.
  intros w Hw. unfold discardState. apply wp_bind, wp_get, wp_bind.
  assert (H : wp (match matching t w with Some _ => dropState | None => mret tt end) (λ _ w', sound ∅ w') w).
  { destruct (matching t w); [|done]. eapply wp_mono; [by apply drop_spec|]. by intros r w' []. }
  eapply wp_mono; [exact H|]. by intros [[]|e] w' H'.
Qed.

Lemma matching_candidate t w k : matching t w = Some k → w_candidate w = Some k.
Proof using Type. unfold matching. destruct (w_candidate w) as [c|]; [|done]. destruct (is_int t _); congruence. Qed.

Lemma candidateRead_keeps t o l : keeps (candidateRead env t o l).
Proof using All.
  intros w Hw. unfold candidateRead. apply wp_bind, wp_get. destruct (matching t w) as [k|] eqn:Ek; [|done].
  apply matching_candidate in Ek. apply wp_bind. unfold wp at 1. cbn [invoke].
  match goal with |- context [set_log _ (_ ++ [(_, ?b)]) _] =>
    assert (H : sound ∅ (set_log (w_handles w) (w_log w ++ [(VaultCall (k_vault k) (ReadDisk o l), b)]) w)) end.
  { destruct Hw as (s & Hs & Hl & HX & Hd & Hb). exists s. split_and!; try done. cbn. rewrite replay_snoc, Hs. cbn.
    unfold heap_step, use. cbn. case_decide; [done|]. unfold owned in Hl. rewrite Ek in Hl. cbn in Hl. set_solver. }
  destruct (env _ _); exact H.
Qed.

Lemma close_keeps : keeps close.
Proof using All.
  intros w Hw. unfold close. apply wp_bind. eapply wp_mono; [by apply drop_spec|].
  intros [[]|e] w1 (H1 & _ & _); [|done]. apply wp_bind, wp_modify, wp_bind, wp_modify.
  apply wp_bind. unfold the_vault. apply wp_bind, wp_get. cbn [set_origin set_analysis w_vault].
  destruct (w_vault w1) as [h|] eqn:Hv; [|exact H1]. apply wp_ret, wp_bind. unfold wp at 1. cbn [emit modify].
  apply wp_bind, wp_modify, wp_bind, wp_get, wp_bind.
  eapply wp_mono.
  { apply (keeps_neutral ∅); [apply (loud_remove_all env _ _ handles_permits eq_refl handles_sources)|].
    apply (sound_give_up h (set_origin None false (set_analysis None w1))). by right. }
  intros [[]|e] w2 [H2 _]; [|done]. apply wp_bind, wp_modify, wp_bind, wp_modify, wp_bind, wp_modify. exact H2.
Qed.

(** The rest of [prepareState] after [OpenState]. *)
Lemma make_candidate_keeps published id remote p w :
  sound ∅ w → w_candidate w = None → wp (make_candidate env published id remote p) (λ _ w', sound ∅ w') w.
Proof using All.
  intros Hw HC. unfold make_candidate. apply wp_bind.
  match goal with |- wp ?m _ _ => assert (N : neutral uses_vault m) end.
  { neutral. exact (p_invoke handles_permits (Remote _ StateInput) eq_refl). }
  eapply wp_mono; [apply (keeps_neutral ∅ _ _ N Hw)|]. clear N. intros [[]|e] w1 [H1 (_ & C1 & _)]; [|done].
  apply wp_bind. eapply wp_mono; [apply (keeps_neutral ∅ _ _ (p_call handles_permits OpenState eq_refl) H1)|].
  intros [d|e] w2 [H2 (_ & C2 & _)]; [|done]. apply wp_bind, wp_guard; [|done]. intros _. cbv zeta. apply wp_bind.
  match goal with |- wp ?m _ _ => assert (N : neutral uses_vault m) end.
  { neutral. exact (p_invoke handles_permits (Remote _ (ValidateStartup _ _)) eq_refl). }
  eapply wp_mono; [apply (keeps_neutral ∅ _ _ N H2)|]. clear N. intros [[]|e] w3 [H3 (_ & C3 & _)]; [|done].
  apply wp_bind. eapply wp_mono; [apply (keeps_neutral ∅ _ _ (quiet_check env _ _ handles_permits) H3)|].
  intros [[]|e] w4 [H4 (_ & C4 & _)]; [|done].
  apply wp_bind. unfold the_vault. apply wp_bind, wp_get. destruct (w_vault w4) as [from|] eqn:Hv; [|exact H4].
  apply wp_ret, wp_bind. eapply wp_mono; [by apply fresh_spec|]. intros r w5 (h & -> & Hf & ->).
  apply wp_bind. unfold wp at 1. cbn [invoke].
  set (b := is_ok _). epose proof (fresh_alloc _ h (VaultFork h from) b _ Hf) as Ha. subst b.
  assert (HU : ∀ b s, replay (w_log (set_log (w_handles w4 + 1) (w_log w4) w4)) = Some s →
    heap_step (VaultFork h from, b) s = allocate h b s).
  { intros b s Hs. unfold heap_step. cbn [fst snd]. rewrite (use_held w4 s from Hv); [done|].
    destruct H4 as (s' & Hs' & Hl & _). cbn in Hs. rewrite Hs in Hs'. injection Hs' as <-. rewrite Hl. set_solver. }
  specialize (Ha (HU _)). destruct (env _ (VaultFork h from)) as [[]|e]; cbn [is_ok] in Ha |- *; [|exact Ha].
  set (w6 := set_log _ (_ ++ _) _) in *. apply wp_bind, wp_get, wp_bind, wp_modify, wp_bind.
  set (w7 := set_candidate _ _ _).
  assert (HD : has_disk (w_log w7) from) by (right; exists h; cbn; set_solver).
  assert (CN : w_candidate w7 = None) by (cbn; congruence).
  assert (H7 : sound {[h]} w7).
  { replace ({[h]} : gset Z) with ({[h]} ∪ ∅ : gset Z) by set_solver. pose proof Ha as (s & _ & _ & HX & Hc & _).
    eapply sound_move; [exact Ha|done|done|..]; unfold owned in *; cbn in *; done. }
  eapply wp_mono; [by apply (describe_ok from w7)|]. intros r w8 [HU8 [x ->]].
  apply wp_bind, wp_modify. set (w9 := set_candidate _ _ w8).
  assert (H9 : sound ∅ w9).
  { pose proof (sound_uses _ _ _ H7 HU8) as H8. destruct HU8 as (V8 & C8 & _).
    pose proof H8 as (s & _ & _ & HX & Hc & _).
    eapply sound_move; [exact H8|done|done|..]; unfold owned in *; cbn in *; rewrite C8, CN in *; cbn in *; set_solver. }
  apply wp_bind. eapply wp_mono; [apply (keeps_neutral ∅ _ _ (quiet_describe env _ _ handles_permits eq_refl) H9)|].
  intros [y|e] w10 [H10 _]; exact H10.
Qed.

Lemma prepareState_keeps published prefetch : keeps (prepareState env published prefetch).
Proof using All.
  intros w Hw. unfold prepareState. apply wp_bind. eapply wp_mono; [by apply drop_spec|].
  intros [[]|e] w1 (H1 & _ & C1); [|done]. specialize (C1 eq_refl). apply wp_bind, wp_get. cbv zeta. apply wp_bind.
  match goal with |- wp ?m _ _ => assert (N : neutral uses_vault m) end.
  { apply neutral_when; class. apply (quiet_on_remote env _ _ handles_permits). intros id.
    exact (p_emit handles_permits (DiscardStartup _ _) eq_refl). }
  eapply wp_mono; [apply (keeps_neutral ∅ _ _ N H1)|]. clear N. intros [[]|e] w2 [H2 (_ & C2 & _)]; [|done].
  apply wp_bind. match goal with |- wp ?m _ _ => assert (N : neutral uses_vault m) end.
  { pose proof (quiet_describe env _ _ handles_permits eq_refl). unfold begin_prefetch. neutral.
    exact (p_invoke handles_permits (Remote _ StartStartup) eq_refl). }
  eapply wp_mono; [apply (keeps_neutral ∅ _ _ N H2)|]. clear N. intros [p|e] w3 [H3 (_ & C3 & _)]; [|done].
  apply wp_catch. eapply wp_mono; [apply make_candidate_keeps; [exact H3|congruence]|].
  intros [x|e] w4 H4; [done|]. apply wp_bind.
  match goal with |- wp ?m _ _ => assert (N : neutral uses_vault m) end.
  { neutral. exact (p_emit handles_permits (DiscardStartup _ _) eq_refl). }
  eapply wp_mono; [apply (keeps_neutral ∅ _ _ N H4)|]. clear N. by intros [[]|e'] w5 [H5 _].
Qed.

Lemma commitState_keeps t : keeps (commitState env t).
Proof using All.
  intros w Hw. unfold commitState. apply wp_bind, wp_get. destruct (matching t w) as [k|] eqn:Ek; [|exact Hw].
  apply matching_candidate in Ek.
  apply wp_bind. eapply wp_mono; [apply (keeps_neutral ∅ _ _ (quiet_describe env _ _ handles_permits eq_refl) Hw)|].
  intros [x|e] w1 [H1 (_ & C1 & _)]; [|done]. apply wp_bind, wp_guard; [|done]. intros _. apply wp_bind.
  eapply wp_mono; [apply (keeps_neutral ∅ _ _ (quiet_check env _ _ handles_permits) H1)|].
  intros [[]|e] w2 [H2 (_ & C2 & _)]; [|done].
  apply wp_bind. unfold the_vault. apply wp_bind, wp_get. destruct (w_vault w2) as [old|] eqn:Hv; [|exact H2].
  apply wp_ret, wp_bind, wp_modify, wp_bind, wp_modify, wp_bind, wp_modify, wp_bind. set (w3 := set_candidate _ _ _).
  assert (H3 : sound ({[old]} ∪ ∅) w3).
  { pose proof H2 as (s & _ & _ & HX & Hc & _).
    eapply sound_move; [exact H2|done|done|..]; unfold owned in *; cbn in *; rewrite Hv, C2, C1, Ek in *; cbn in *; set_solver. }
  unfold wp at 1. cbn [emit modify]. apply wp_bind, wp_modify. set (w4 := set_prepared _ _ _).
  assert (H4 : sound ∅ w4) by (eapply (sound_uses ∅); [apply (sound_free ∅ old w3 H3); set_solver|done]).
  match goal with |- wp ?m _ _ => assert (N : neutral uses_vault m) end.
  { pose proof (quiet_described env _ _ handles_permits eq_refl).
    pose proof (quiet_set_load_prefetch env _ _ handles_permits eq_refl (k_origin k) "none").
    neutral. exact (p_invoke handles_permits (Remote _ (CommitStartup _)) eq_refl). }
  eapply wp_mono; [apply (keeps_neutral ∅ _ _ N H4)|]. by intros r w5 [].
Qed.

Lemma dispatch_keeps o fuel : keeps (dispatch env o fuel).
Proof using All.
  assert (HQ : loud_op (λ _, true) o = true → keeps (dispatch env o fuel)).
  { intros Ho w Hw. eapply wp_mono.
    - apply (keeps_neutral ∅); [|exact Hw].
      by apply (loud_dispatch env _ _ handles_permits eq_refl handles_sources).
    - by intros r w' []. }
  destruct o; try (by apply HQ); clear HQ; cbn [dispatch]; try (by intros w Hw).
  - apply prepareState_keeps.
  - apply candidateRead_keeps.
  - apply discardState_keeps.
  - apply commitState_keeps.
  - apply close_keeps.
Qed.

Lemma execute_keeps o fuel : keeps (execute env o fuel).
Proof using All.
  intros w Hw. unfold execute. apply wp_bind, wp_get. cbv zeta. pose proof (dispatch_keeps o fuel w Hw) as HD.
  pose proof (unlock_keeps w Hw) as HU.
  assert (HF : ∀ c m, wp (fail c m : M reply) (λ _ w', sound ∅ w') w) by done.
  destruct o; try (by destruct (bool_decide (w_vault w = None)));
    (destruct (_ && _ && _); [apply HF|]);
    try (by apply openReadOnly_keeps); try (by apply openRemoteReadOnly_keeps); try exact HU;
    (destruct (bool_decide (w_vault w = None)); [apply HF|]; destruct (_ && _); [apply HF|exact HD]).
Qed.

Lemma run_sound l fuel w w' rs : sound ∅ w → run env l fuel w = Some (w', rs) → sound ∅ w'.
Proof using All.
  revert w rs. induction l as [|o l IH]; intros w rs Hw; cbn [run]; [by intros [= <- <-]|].
  pose proof (execute_keeps o fuel w Hw) as H. unfold wp in H. destruct (execute _ _ _ _) as [[w1 r]|]; [|done]. cbn.
  destruct (run env l fuel w1) as [[w2 rs2]|] eqn:E; [|done]. intros [= <- <-]. by eapply IH.
Qed.

End handles.

(** C1: the Worker neither uses nor frees a Vault that is freed, never allocates one
    under an old handle, and loses none: after any requests, whatever the Vault, the
    network and the user's cancellations did, the log of the calls replays and the
    Vaults alive are the current one and the prepared candidate's, which are distinct;
    with no Vault open and no candidate, none is alive.  The one thing asked of the
    Vault is that [describe] does not throw once a disk is open. *)
Theorem vaults_sound (env : ∀ (past : list (call * bool)) (c : call), result (answer c)) io l fuel w rs :
  (∀ past h, has_disk past h → is_ok (env past (VaultCall h Describe)) = true) →
  run env l fuel (new_worker io) = Some (w, rs) →
  ∃ s, replay (w_log w) = Some s ∧ live s = owned w ∧
    match w_vault w, w_candidate w with
    | Some h, Some k => h ≠ k_vault k ∧ size (live s) = 2%nat
    | Some h, None => live s = {[h]}
    | None, Some k => live s = {[k_vault k]}
    | None, None => live s = ∅
    end.
Proof.
  intros Hlaw Hrun. destruct (run_sound env Hlaw l fuel _ _ _ (sound_new io) Hrun) as (s & Hs & Hl & HX & Hd & Hb).
  exists s. split_and!; [done|set_solver|]. unfold owned in Hl.
  destruct (w_vault w) as [h|], (w_candidate w) as [k|]; cbn in *; [|set_solver..].
  assert (h ≠ k_vault k) by set_solver. split; [done|].
  rewrite Hl, union_empty_r_L, size_union, !size_singleton by set_solver. done.
Qed.

Definition sample : list op :=
  [OpUnlock; OpOpen 1024; OpPrepareState false false; OpPrepareState false false; OpCommitState (JNum (NInt 2));
   OpPrepareState false false].
Lemma vaults_sound_witness :
  ∃ w rs s, run (script (λ _, false)) sample 4 (new_worker true) = Some (w, rs) ∧ length rs = 6%nat ∧
    replay (w_log w) = Some s ∧ live s = owned w ∧ size (live s) = 2%nat ∧ freed s = {[2; 1]}.
Proof.
  destruct (run (script (λ _, false)) sample 4 (new_worker true)) as [[w rs]|] eqn:E; [|by vm_compute in E].
  pose proof (vaults_sound (script (λ _, false)) true sample 4 w rs (λ past h _, eq_refl) E) as (s & Hs & Hl & Hn).
  vm_compute in E. injection E as <- <-. eexists _, _, s. split; [reflexivity|]. split; [reflexivity|].
  split; [exact Hs|]. split; [exact Hl|]. split; [exact (proj2 Hn)|].
  vm_compute in Hs. injection Hs as <-. vm_compute. reflexivity.
Defined.
