(* ===== verification/VaultSources.v ===== *)
(** * The disk Worker: the sources

    [sources] maps the names the Vault reads through to the files and publications
    behind them; each publication holds a torrent session.  An entry that is not the
    current disk's can never be reached again, so it would be leaked.  The theorem
    says that none is left behind, on success or failure of any request.  The
    converse fails for one request: [openRemote_drops_current_source]. *)
From S2P Require Import Prelude JsValue VaultWorker VaultWorkerFacts.
#[local] Open Scope Z_scope.
Import VaultWorker.

Definition keys (w : worker) : list Z := (w_sources w).*1.

(** Every source is the open disk's or in [X]; the names do not repeat. *)
Definition tidy (X : gset Z) (w : worker) : Prop :=
  NoDup (keys w) ∧
  ∀ id, id ∈ keys w → id ≤ w_sourceId w ∧ (id ∈ X ∨ (w_current w = Some id ∧ w_vault w ≠ None)).

(** What [tidy] looks at. *)
Definition same_sources (w w' : worker) : Prop :=
  w_sources w' = w_sources w ∧ w_sourceId w' = w_sourceId w ∧ w_current w' = w_current w ∧ w_vault w' = w_vault w.

#[export] Instance same_sources_refl : Reflexive same_sources.
Proof. by intros w. Qed.
#[export] Instance same_sources_trans : Transitive same_sources.
Proof. intros w1 w2 w3 (? & ? & ? & ?) (? & ? & ? & ?). split_and!; congruence. Qed.

Lemma tidy_same X w w' : tidy X w → same_sources w w' → tidy X w'.
Proof. unfold tidy, keys. intros H (E1 & E2 & E3 & E4). by rewrite E1, E2, E3, E4. Qed.

Section sources.
Context (env : ∀ (past : list (call * bool)) (c : call), result (answer c)).

Lemma same_invoke c : neutral same_sources (invoke env c).
Proof using Type. by intros w. Qed.
Lemma same_emit c : neutral same_sources (emit c).
Proof using Type. by intros w. Qed.
Lemma same_vault_call m : neutral same_sources (vault_call env m).
Proof using Type.
  unfold vault_call, the_vault. neutral. apply same_invoke.
Qed.
Lemma same_permits : permits env same_sources (λ _, true).
Proof using Type. split; intros; try apply same_invoke; try apply same_emit; try apply same_vault_call; done. Qed.

Lemma same_dropState : neutral same_sources dropState.
Proof using Type. unfold dropState. neutral; try apply same_emit. by intros w. Qed.

(** ** Rules for [tidy] *)
Definition tidies {A} (X : gset Z) (m : M A) : Prop := ∀ w, tidy X w → wp m (λ _ w', tidy X w') w.

Lemma tidies_neutral {A} X (m : M A) : neutral same_sources m → tidies X m.
Proof using Type. intros Hm w Hw. eapply wp_mono; [apply Hm|]. cbn. intros r w' H. by eapply tidy_same. Qed.

Lemma tidy_mono X Y w : tidy X w → X ⊆ Y → tidy Y w.
Proof using Type. intros [HN H] HX. split; [done|]. intros id Hid. destruct (H id Hid) as [? [?|?]]; split; set_solver. Qed.

Lemma add_spec X s w :
  tidy X w → wp (add_source s) (λ r w', ∃ id, r = Ok id ∧ tidy ({[id]} ∪ X) w' ∧
    w_vault w' = w_vault w ∧ w_current w' = w_current w ∧ w_log w' = w_log w) w.
Proof using Type.
  intros [HN H]. unfold wp, add_source. exists (w_sourceId w + 1). split; [done|]. split; [|done].
  unfold tidy, keys in *. cbn. rewrite fmap_app. split.
  - apply NoDup_app. split_and!; [done| |apply NoDup_singleton].
    intros id Hid%H. cbn. rewrite list_elem_of_singleton. lia.
  - intros id. rewrite elem_of_app. cbn. rewrite list_elem_of_singleton. intros [Hid%H| ->]; [|set_solver by lia].
    destruct Hid as [? [?|?]]; (split; [lia|]); set_solver.
Qed.

Lemma remove_spec X id w :
  tidy ({[id]} ∪ X) w →
  wp (remove id) (λ r w', tidy X w' ∧ r = Ok tt ∧ w_current w' = w_current w ∧ w_vault w' = w_vault w) w.
Proof using Type.
  intros [HN H]. unfold remove. apply wp_bind, wp_get, wp_bind, wp_modify.
  assert (HT : tidy X (set_sources (map_delete id (w_sources w)) (w_sourceId w) w)).
  { split; [by apply map_delete_keys|]. unfold keys in *. cbn. intros k Hk.
    assert (k ≠ id) by (intros ->; by eapply map_delete_get).
    apply list_elem_of_fmap in Hk as ([k' s] & -> & [Hk _]%elem_of_map_delete). cbn.
    destruct (H k') as [? [?|?]]; [by apply (list_elem_of_fmap_2 fst _ (k', s))|split; [done|set_solver]|by split; [|right]]. }
  destruct (remote_of _); by unfold wp.
Qed.

Lemma fails_remove_rethrow {A} X id e w :
  tidy ({[id]} ∪ X) w → wp (remove id ;; rethrow e : M A) (λ r w', tidy X w' ∧ is_ok r = false) w.
Proof using Type. intros H. apply wp_bind. eapply wp_mono; [by apply remove_spec|]. by intros [[]|e'] w' []. Qed.
Lemma tidies_remove_rethrow {A} X id e w :
  tidy ({[id]} ∪ X) w → wp (remove id ;; rethrow e : M A) (λ _ w', tidy X w') w.
Proof using Type. intros H. eapply wp_mono; [by apply fails_remove_rethrow|]. by intros r w' []. Qed.

(** Once the new source [id] is current, the previous one goes away. *)
Lemma remove_previous X id w w1 :
  tidy ({[id]} ∪ X) w → w_sources w1 = w_sources w → w_sourceId w1 = w_sourceId w → w_vault w1 ≠ None →
  w_current w1 = Some id →
  wp (remove_if (w_current w)) (λ r w', tidy X w' ∧ r = Ok tt ∧ w_current w' = Some id ∧ w_vault w' = w_vault w1) w1.
Proof using Type.
  intros [HN H] ES EN Hv HC. destruct (w_current w) as [k|] eqn:Ek; cbn [remove_if].
  - eapply wp_mono; [apply (remove_spec X)|by intros r w' (HT & -> & -> & ->)].
    unfold tidy, keys. rewrite ES, EN. split; [exact HN|]. intros i Hi.
    destruct (H i Hi) as [? [?|[? ?]]]; (split; [done|]); [|set_solver].
    destruct (decide (i = id)) as [->|]; [by right|set_solver].
  - apply wp_ret. split_and!; [|done..]. unfold tidy, keys. rewrite ES, EN. split; [exact HN|].
    intros i Hi. destruct (H i Hi) as [? [?|[? ?]]]; (split; [done|]); [|congruence].
    destruct (decide (i = id)) as [->|]; [by right|set_solver].
Qed.

Lemma make_current_tidy X id w :
  tidy ({[id]} ∪ X) w → w_vault w ≠ None →
  wp (make_current id) (λ r w', tidy X w' ∧ r = Ok tt ∧ w_current w' = Some id ∧ w_vault w' = w_vault w) w.
Proof using Type.
  intros HT Hv. unfold make_current. apply wp_bind, wp_get, wp_bind, wp_modify, wp_bind, wp_modify, wp_bind, wp_modify.
  by eapply wp_mono; [apply (remove_previous X id w)|].
Qed.

Lemma tidy_weaken X id w : tidy X w → tidy ({[id]} ∪ X) w.
Proof using Type. intros H. eapply tidy_mono; [exact H|set_solver]. Qed.

(** An answered call of the Vault shows that there is one. *)
Lemma vault_call_some m w :
  wp (vault_call env m) (λ r w', same_sources w w' ∧ (is_ok r = true → w_vault w ≠ None)) w.
Proof using Type.
  unfold vault_call, the_vault. apply wp_bind, wp_bind, wp_get. destruct (w_vault w) eqn:E; [|done].
  apply wp_ret. by unfold wp, invoke.
Qed.

Lemma same_cancel_build {A} e : neutral same_sources (cancel_build env e : M A).
Proof using Type. unfold cancel_build. neutral. apply same_vault_call. Qed.
Lemma same_described : neutral same_sources (described env).
Proof using Type. by apply (quiet_described env _ _ same_permits). Qed.
Lemma same_describe : neutral same_sources (describe env).
Proof using Type. by apply (quiet_describe env _ _ same_permits). Qed.
Lemma same_check : neutral same_sources (check env).
Proof using Type. by apply (quiet_check env _ _ same_permits). Qed.
Lemma same_start_prefetch : neutral same_sources (start_prefetch env).
Proof using Type. by apply (quiet_start_prefetch env _ _ same_permits). Qed.
#[local] Hint Resolve same_vault_call same_cancel_build same_described same_describe same_check
  same_start_prefetch : neutral.

Lemma build_tidies X fuel : tidies X (build env fuel).
Proof using Type.
  intros w Hw. unfold build. apply wp_bind.
  eapply wp_mono; [apply (vault_call_some Header)|]. intros [first|e] w1 [H1 HV1]; [|by eapply tidy_same].
  specialize (HV1 eq_refl). pose proof (tidy_same _ _ _ Hw H1) as HT1. apply wp_bind.
  assert (N : neutral same_sources (catch (size ← build_loop env fuel first; check env ;; check env ;; mret size)
                                          (cancel_build env))).
  { assert (∀ n, neutral same_sources (build_loop env fuel n)) by (intros n; by apply (quiet_build_loop env _ _ same_permits)).
    neutral. }
  eapply wp_mono; [apply N|]. clear N. intros r w2 H2. pose proof (tidy_same _ _ _ HT1 H2) as HT2.
  destruct r as [size|e]; [|exact HT2]. apply wp_bind. eapply wp_mono; [by apply add_spec|].
  intros r w3 (id & -> & HT3 & V3 & _). assert (HV3 : w_vault w3 ≠ None).
  { destruct H1 as (_ & _ & _ & E1), H2 as (_ & _ & _ & E2). congruence. }
  apply wp_catch. eapply wp_mono with (Q := λ r w', match r with Ok _ => tidy X w' | Throw _ => tidy ({[id]} ∪ X) w' ∧ w_vault w' ≠ None end).
  { apply wp_bind. eapply wp_mono; [apply (same_vault_call (Accept id size))|]. intros r w4 H4.
    pose proof (tidy_same _ _ _ HT3 H4) as HT4. destruct H4 as (_ & _ & _ & E4).
    destruct r as [[]|e]; [|split; [exact HT4|congruence]].
    apply wp_bind, wp_get, wp_bind, wp_modify, wp_bind, wp_modify, wp_bind, wp_modify, wp_bind.
    eapply wp_mono; [apply (remove_previous X id w4); try done; cbn; congruence|].
    intros r w5 (HT5 & -> & _ & E5). cbn in E5. eapply wp_mono.
    { apply (neutral_bind same_sources); [apply same_describe|intros _]. neutral. }
    intros r w6 H6. pose proof (tidy_same _ _ _ HT5 H6) as HT6. destruct H6 as (_ & _ & _ & E6).
    destruct r; [exact HT6|]. split; [by apply tidy_weaken|congruence]. }
  intros [x|e] w4; [done|]. intros [H4 HV4]. apply wp_bind, wp_get, wp_bind.
  case_bool_decide as HC; cbn [when].
  - eapply wp_mono; [by apply remove_spec|]. intros r w5 (H5 & -> & _).
    apply (tidies_neutral X _ (same_cancel_build e) _ H5).
  - apply wp_ret. apply (tidies_neutral X _ (same_cancel_build e)).
    destruct H4 as [HN H]. split; [exact HN|]. intros i Hi. destruct (H i Hi) as [? [Hx|?]]; split; try done; [|by right].
    apply elem_of_union in Hx as [->%elem_of_singleton|?]; [by right|by left].
Qed.

(** An operation that adds a source and removes it unless it succeeds. *)
Lemma adopt_tidies {A} X id (m : M A) w :
  tidy ({[id]} ∪ X) w →
  wp m (λ r w', match r with Ok _ => tidy X w' | Throw _ => tidy ({[id]} ∪ X) w' end) w →
  wp (catch m (λ e, remove id ;; rethrow e)) (λ _ w', tidy X w') w.
Proof using Type.
  intros Hw Hm. apply wp_catch. eapply wp_mono; [exact Hm|]. intros [x|e] w1 H1; [done|].
  by apply tidies_remove_rethrow.
Qed.


Lemma create_tidies s fuel : tidies ∅ (create_from env s fuel).
Proof using Type.
  intros w Hw. unfold create_from. apply wp_bind. eapply wp_mono; [by apply add_spec|].
  intros r w1 (id & -> & H1 & _). apply wp_finally.
  assert (HB : wp (vault_call env (BeginCreate id (src_size s)) ;; build env fuel) (λ _ w', tidy ({[id]} ∪ ∅) w') w1).
  { apply wp_bind. eapply wp_mono; [apply (tidies_neutral _ _ (same_vault_call (BeginCreate id (src_size s))) _ H1)|].
    intros [u|e] w2 H2; [by apply build_tidies|done]. }
  eapply wp_mono; [exact HB|]. intros r w2 H2. eapply wp_mono; [apply remove_spec; exact H2|]. intros r' w3 [H3 _]; exact H3.
Qed.

(** The common part of [open_file] and [openRemote]. *)
Lemma open_tidies {A} id size (m : M unit) (k : M A) w :
  neutral same_sources m → neutral same_sources k → tidy ({[id]} ∪ ∅) w →
  wp (catch (vault_call env (OpenDisk id size) ;; m ;; make_current id ;; k) (λ e, remove id ;; rethrow e))
    (λ _ w', tidy ∅ w') w.
Proof using Type.
  intros Nm Nk Hw. apply adopt_tidies; [done|]. apply wp_bind.
  eapply wp_mono; [apply (vault_call_some (OpenDisk id size))|].
  intros [u|e] w1 [H1 HV1]; [|by eapply tidy_same]. specialize (HV1 eq_refl).
  pose proof (tidy_same _ _ _ Hw H1) as HT1. apply wp_bind. eapply wp_mono; [apply Nm|].
  intros r w2 H2. pose proof (tidy_same _ _ _ HT1 H2) as HT2. destruct r; [|done].
  apply wp_bind. eapply wp_mono; [apply make_current_tidy; [exact HT2|]|].
  { destruct H1 as (_ & _ & _ & E1), H2 as (_ & _ & _ & E2). congruence. }
  intros r w3 (HT3 & -> & _). eapply wp_mono; [apply (tidies_neutral _ _ Nk _ HT3)|].
  intros [x|e] w4 H4; [done|by apply tidy_weaken].
Qed.

Lemma open_file_tidies size : tidies ∅ (open_file env size).
Proof using Type.
  intros w Hw. unfold open_file. apply wp_bind. eapply wp_mono; [by apply add_spec|]. intros r w1 (id & -> & H1 & _).
  exact (open_tidies id size (mret tt) _ w1 (neutral_ret _ tt) same_described H1).
Qed.

Lemma openRemote_tidies a b : tidies ∅ (openRemote env a b).
Proof using Type.
  intros w Hw. unfold openRemote. apply wp_bind, wp_guard; [|done]. intros _. apply wp_bind.
  eapply wp_mono; [apply (tidies_neutral _ _ (quiet_arguments env _ _ same_permits a) _ Hw)|].
  intros [u|e] w1 H1; [|done]. apply wp_bind.
  eapply wp_mono; [apply (tidies_neutral _ _ (same_invoke OpenPublication) _ H1)|].
  intros [[size hash]|e] w2 H2; [|done]. apply wp_bind. eapply wp_mono; [by apply add_spec|].
  intros r w3 (id & -> & H3 & _).
  apply (open_tidies id size (check env)); [apply same_check|neutral|exact H3].
Qed.

Lemma openReadOnly_tidies k f : tidies ∅ (openReadOnly env k f).
Proof using Type.
  intros w Hw. unfold openReadOnly. apply wp_bind, wp_get, wp_bind, wp_guard; [|done]. intros HV%bool_decide_eq_true.
  apply wp_bind, wp_guard; [|done]. intros _. destruct f as [size|]; [|exact Hw].
  apply wp_bind. eapply wp_mono; [by apply add_spec|]. intros r w1 (id & -> & H1 & HV1 & _). rewrite HV in HV1.
  apply wp_bind. unfold wp at 1. cbn [fresh_handle]. set (w2 := set_log _ _ _).
  apply wp_bind, wp_catch.
  assert (N : neutral same_sources (invoke env (VaultOpenReadOnly (w_handles w1 + 1) id size) ;; mret tt))
    by (neutral; apply same_invoke).
  eapply wp_mono; [apply N|]. clear N. intros r w3 H3.
  assert (HT3 : tidy ({[id]} ∪ ∅) w3) by exact (tidy_same _ _ _ H1 H3).
  destruct r as [u|e]; [|eapply wp_mono; [by apply (fails_remove_rethrow ∅)|by intros [v|e'] w' []]].
  apply wp_catch, wp_bind. eapply wp_mono; [apply same_check|]. intros r w4 H4.
  pose proof (tidy_same _ _ _ HT3 H4) as HT4.
  destruct r as [v|e].
  - apply wp_bind, wp_modify, wp_bind, wp_modify, wp_bind, wp_modify.
    set (w5 := set_prepared _ _ _). assert (HT5 : tidy ∅ w5).
    { destruct HT4 as [HN H]. split; [exact HN|]. intros i Hi. destruct (H i Hi) as [? [Hx|[_ Hx]]]; (split; [done|]).
      - right. cbn. split; [|done]. by apply elem_of_union in Hx as [->%elem_of_singleton|?].
      - destruct H3 as (_ & _ & _ & E3), H4 as (_ & _ & _ & E4). cbn in E3. congruence. }
    eapply wp_mono; [apply (tidies_neutral _ _ same_described _ HT5)|]. intros [x|e] w6 H6; [exact H6|].
    apply wp_bind, wp_modify. by apply tidies_remove_rethrow, tidy_weaken.
  - apply wp_bind, wp_modify. by apply tidies_remove_rethrow.
Qed.

(** Every source is [id]. *)
Definition only (id : Z) (w : worker) : Prop := NoDup (keys w) ∧ ∀ i, i ∈ keys w → i ≤ w_sourceId w ∧ i = id.

Lemma fails_undo {A} id e w :
  only id w →
  wp (modify (set_vault None) ;; modify (set_current None) ;; remove id ;; rethrow e : M A)
    (λ r w', tidy ∅ w' ∧ is_ok r = false) w.
Proof using Type.
  intros [HN H]. apply wp_bind, wp_modify, wp_bind, wp_modify. apply fails_remove_rethrow. split; [exact HN|].
  intros i Hi. destruct (H i Hi) as [? ->]. split; [done|]. left. set_solver.
Qed.
Lemma undo_tidies {A} id e w :
  only id w →
  wp (modify (set_vault None) ;; modify (set_current None) ;; remove id ;; rethrow e : M A) (λ _ w', tidy ∅ w') w.
Proof using Type. intros H. eapply wp_mono; [by apply fails_undo|]. by intros r w' []. Qed.

Lemma only_same id w w' : only id w → same_sources w w' → only id w'.
Proof using Type. unfold only, keys. intros H (E1 & E2 & _). by rewrite E1, E2. Qed.

Lemma openRemoteReadOnly_tidies a k : tidies ∅ (openRemoteReadOnly env a k).
Proof using Type.
  intros w Hw. unfold openRemoteReadOnly. apply wp_bind, wp_get, wp_bind, wp_guard; [|done]. intros HV%bool_decide_eq_true.
  apply wp_bind, wp_guard; [|done]. intros _. apply wp_bind.
  eapply wp_mono; [apply (quiet_arguments env _ _ same_permits a)|]. intros r w1 H1.
  pose proof (tidy_same _ _ _ Hw H1) as HT1. destruct r; [|exact HT1]. apply wp_bind.
  eapply wp_mono; [apply (same_invoke OpenPublication)|]. intros r w2 H2.
  pose proof (tidy_same _ _ _ HT1 H2) as HT2. destruct r as [[size hash]|]; [|exact HT2]. apply wp_bind.
  eapply wp_mono; [by apply add_spec|]. intros r w3 (id & -> & H3 & HV3 & _).
  assert (HO : only id w3).
  { destruct H3 as [HN H]. split; [exact HN|]. intros i Hi. destruct (H i Hi) as [? [Hx|[_ Hx]]]; [set_solver|].
    destruct H1 as (_ & _ & _ & E1), H2 as (_ & _ & _ & E2). congruence. }
  apply wp_bind. unfold wp at 1. cbn [fresh_handle]. cbv zeta. set (w4 := set_log _ _ _).
  apply wp_bind, wp_catch.
  assert (N : neutral same_sources (invoke env (VaultOpenReadOnly (w_handles w3 + 1) id size) ;; mret tt))
    by (neutral; apply same_invoke).
  eapply wp_mono; [apply N|]. clear N. intros r w5 H5.
  assert (HO5 : only id w5) by exact (only_same _ _ _ HO H5).
  destruct r as [u|e]; [|eapply wp_mono; [by apply fails_undo|by intros [v|e'] w' []]].
  apply wp_catch, wp_bind. eapply wp_mono; [apply same_check|]. intros r w6 H6.
  pose proof (only_same _ _ _ HO5 H6) as HO6. destruct r as [v|e]; [|apply wp_bind, wp_modify; by apply undo_tidies].
  apply wp_bind, wp_modify, wp_bind, wp_modify, wp_bind, wp_modify. set (w7 := set_prepared _ _ _).
  assert (HO7 : only id w7) by exact HO6.
  assert (N : neutral same_sources (start_prefetch env ;; described env)) by neutral.
  eapply wp_mono; [apply N|]. clear N. intros r w8 H8. pose proof (only_same _ _ _ HO7 H8) as HO8.
  destruct r as [x|e]; [|apply wp_bind, wp_modify; by apply undo_tidies].
  destruct HO8 as [HN H]. split; [exact HN|]. intros i Hi. destruct (H i Hi) as [? ->]. split; [done|]. right.
  destruct H8 as (_ & _ & E1 & E2). rewrite E1, E2. done.
Qed.

(** Setting [vault] to a Vault forgets nothing. *)
Lemma tidy_set_vault X h w : tidy X w → tidy X (set_vault (Some h) w).
Proof using Type.
  intros [HN H]. split; [exact HN|]. intros i Hi. destruct (H i Hi) as [? [?|[? _]]]; (split; [done|]); [by left|by right].
Qed.

Lemma unlock_tidies : tidies ∅ (unlock env).
Proof using Type.
  intros w Hw. unfold unlock. apply wp_bind, wp_get, wp_bind, wp_guard; [|done]. intros _.
  apply wp_bind. unfold wp at 1. cbn [fresh_handle].
  apply wp_bind. eapply wp_mono; [apply (same_invoke (VaultNew _))|]. intros r w1 H1.
  assert (HT1 : tidy ∅ w1) by exact (tidy_same _ _ _ Hw H1). destruct r; [|exact HT1].
  apply wp_bind, wp_modify. apply (tidy_set_vault _ (w_handles w + 1)) in HT1. revert HT1.
  generalize (set_vault (Some (w_handles w + 1)) w1). intros w2 HT2. apply (tidies_neutral ∅); [|exact HT2].
  apply neutral_bind; class; [apply (same_vault_call Identity)|intros _]. neutral. by intros w'.
Qed.

Lemma same_prepareState published prefetch : neutral same_sources (prepareState env published prefetch).
Proof using Type.
  assert (N : ∀ f : Z → M unit, (∀ id, neutral same_sources (f id)) → neutral same_sources (on_remote f))
    by (intros f Hf; by apply (quiet_on_remote env _ _ same_permits)).
  unfold prepareState, begin_prefetch, make_candidate, the_vault, remote_call.
  pose proof same_dropState. pose proof same_invoke as NI. pose proof same_emit as NE.
  neutral; try (apply N; intros ?); try apply NE;
    try match goal with |- neutral _ (invoke _ ?c) => exact (NI c) | |- neutral _ (vault_call _ ?m) => exact (same_vault_call m) end;
    by intros w.
Qed.

Lemma same_discardState t : neutral same_sources (discardState t).
Proof using Type. unfold discardState. pose proof same_dropState. neutral. Qed.
Lemma same_candidateRead t o l : neutral same_sources (candidateRead env t o l).
Proof using Type. unfold candidateRead. neutral. exact (same_invoke (VaultCall _ (ReadDisk o l))). Qed.

Lemma commitState_tidies t : tidies ∅ (commitState env t).
Proof using Type.
  intros w Hw. unfold commitState. apply wp_bind, wp_get. destruct (matching t w) as [k|]; [|exact Hw].
  apply wp_bind. eapply wp_mono; [apply (tidies_neutral _ _ same_describe _ Hw)|]. intros [x|e] w1 H1; [|exact H1].
  apply wp_bind, wp_guard; [|by intros]. intros _. apply wp_bind.
  eapply wp_mono; [apply (tidies_neutral _ _ same_check _ H1)|]. intros [[]|e] w2 H2; [|exact H2].
  apply wp_bind. assert (N : neutral same_sources the_vault) by (unfold the_vault; neutral).
  eapply wp_mono; [apply (tidies_neutral _ _ N _ H2)|]. clear N. intros [old|e] w3 H3; [|exact H3].
  apply wp_bind, wp_modify. apply (tidy_set_vault _ (k_vault k)) in H3. revert H3.
  generalize (set_vault (Some (k_vault k)) w3). intros w4 H4. apply (tidies_neutral ∅); [|exact H4].
  pose proof (quiet_set_load_prefetch env _ _ same_permits eq_refl (k_origin k) "none").
  neutral; try apply same_emit; try exact (same_invoke (Remote _ (CommitStartup _))); by intros w'.
Qed.

Lemma remove_keys id w :
  NoDup (keys w) →
  wp (remove id) (λ r w', r = Ok tt ∧ NoDup (keys w') ∧ ∀ i, i ∈ keys w' → i ∈ keys w ∧ i ≠ id) w.
Proof using Type.
  intros HN. unfold remove. apply wp_bind, wp_get, wp_bind, wp_modify.
  assert (HQ : NoDup (map_delete id (w_sources w)).*1 ∧ ∀ i, i ∈ (map_delete id (w_sources w)).*1 → i ∈ keys w ∧ i ≠ id).
  { split; [by apply map_delete_keys|]. intros k Hk. split; [|by intros ->; eapply map_delete_get].
    apply list_elem_of_fmap in Hk as ([k' s] & -> & [Hk _]%elem_of_map_delete).
    by apply (list_elem_of_fmap_2 fst _ (k', s)). }
  destruct (remote_of _); by split.
Qed.

Lemma remove_all_empty ids w :
  NoDup (keys w) → (∀ i, i ∈ keys w → i ∈ ids) → wp (remove_all ids) (λ r w', keys w' = [] ∧ r = Ok tt) w.
Proof using Type.
  revert w. induction ids as [|id ids IH]; intros w HN H; cbn [remove_all foldr].
  - apply wp_ret. split; [|done]. destruct (keys w) as [|i l]; [done|]. specialize (H i). set_solver.
  - apply wp_bind. eapply wp_mono; [by apply remove_keys|]. intros r w' (-> & HN' & H'). apply IH; [done|].
    intros i [Hi Hne]%H'. specialize (H i Hi). set_solver.
Qed.

Lemma close_tidies : tidies ∅ close.
Proof using Type.
  intros w Hw. unfold close. apply wp_bind. eapply wp_mono; [apply (tidies_neutral _ _ same_dropState _ Hw)|].
  intros [[]|e] w1 H1; [|exact H1]. apply wp_bind, wp_modify, wp_bind, wp_modify, wp_bind.
  assert (N : neutral same_sources the_vault) by (unfold the_vault; neutral).
  eapply wp_mono; [apply (tidies_neutral ∅ _ N)|].
  { eapply tidy_same; [exact H1|done]. }
  intros [h|e] w2 H2; [|exact H2]. apply wp_bind, wp_modify, wp_bind, wp_modify, wp_bind, wp_get, wp_bind.
  eapply wp_mono; [apply remove_all_empty; [exact (proj1 H2)|done]|]. intros r w3 [H3 ->].
  apply wp_bind, wp_modify, wp_bind, wp_modify, wp_bind, wp_modify, wp_ret. split; unfold keys in *; cbn; rewrite H3.
  - constructor.
  - intros i Hi. set_solver.
Qed.

Lemma dispatch_tidies o fuel : tidies ∅ (dispatch env o fuel).
Proof using Type.
  destruct o; try (apply tidies_neutral; by apply (quiet_dispatch env _ _ same_permits));
    cbn [dispatch]; try (by intros w Hw).
  - apply create_tidies.
  - unfold createEmpty. destruct (as_safe_integer _); [|by intros w Hw]. destruct (_ || _); [by intros w Hw|]. apply create_tidies.
  - apply open_file_tidies.
  - apply openRemote_tidies.
  - apply tidies_neutral, same_prepareState.
  - apply tidies_neutral, same_candidateRead.
  - apply tidies_neutral, same_discardState.
  - apply commitState_tidies.
  - intros w Hw. unfold save. apply wp_bind. eapply wp_mono; [apply (tidies_neutral _ _ (same_vault_call BeginSave) _ Hw)|].
    intros [changed|e] w1 H1; [|exact H1]. destruct changed; [by apply build_tidies|].
    apply (tidies_neutral ∅); [|exact H1]. neutral.
  - apply close_tidies.
Qed.

Lemma execute_tidies o fuel : tidies ∅ (execute env o fuel).
Proof using Type.
  intros w Hw. unfold execute. apply wp_bind, wp_get. cbv zeta. pose proof (dispatch_tidies o fuel w Hw) as HD.
  pose proof (unlock_tidies w Hw) as HU.
  assert (HF : ∀ c m, wp (fail c m : M reply) (λ _ w', tidy ∅ w') w) by done.
  destruct o; try (by destruct (bool_decide (w_vault w = None)));
    (destruct (_ && _ && _); [apply HF|]);
    try (by apply openReadOnly_tidies); try (by apply openRemoteReadOnly_tidies); try exact HU;
    (destruct (bool_decide (w_vault w = None)); [apply HF|]; destruct (_ && _); [apply HF|exact HD]).
Qed.

Lemma run_tidy l fuel w w' rs : tidy ∅ w → run env l fuel w = Some (w', rs) → tidy ∅ w'.
Proof using Type.
  revert w rs. induction l as [|o l IH]; intros w rs Hw; cbn [run]; [by intros [= <- <-]|].
  pose proof (execute_tidies o fuel w Hw) as H. unfold wp in H. destruct (execute _ _ _ _) as [[w1 r]|]; [|done]. cbn.
  destruct (run env l fuel w1) as [[w2 rs2]|] eqn:E; [|done]. intros [= <- <-]. by eapply IH.
Qed.
End sources.

(** A publication whose prefetch cannot start: [openRemote] fails after the new source
    became the current one and removes it.  The Vault keeps the disk open over a
    source that is gone: it can neither be read nor, until it is closed, replaced. *)
Example openRemote_drops_current_source :
  match run (script (λ c, match c with Remote _ StartPrefetch => true | _ => false end))
          [OpUnlock; OpOpenRemote (RemoteArgs [] JUndefined) false] 1 (new_worker true) with
  | Some (w, [r1; r2]) =>
      w_vault w = Some 1 ∧ w_current w = Some 1 ∧ w_sources w = [] ∧ is_ok r1 = true ∧ is_ok r2 = false
  | _ => False
  end.
Proof. vm_compute. by split_and!. Qed.

(** C2: no source is leaked: after any requests, failed and cancelled ones included, at
    most one source is left and it is the open disk's; with no Vault there is none. *)
Theorem sources_tidy (env : ∀ (past : list (call * bool)) (c : call), result (answer c)) io l fuel w rs :
  run env l fuel (new_worker io) = Some (w, rs) →
  (∀ id s, map_get id (w_sources w) = Some s → w_current w = Some id) ∧
  (length (w_sources w) ≤ 1)%nat ∧
  (w_vault w = None → w_sources w = []).
Proof.
  intros Hrun. assert (H0 : tidy ∅ (new_worker io)) by (split; [constructor|intros i Hi; by apply elem_of_nil in Hi]).
  destruct (run_tidy env l fuel _ _ _ H0 Hrun) as [HN H]. clear Hrun H0. unfold keys in *.
  assert (HC : ∀ id s, (id, s) ∈ w_sources w → w_current w = Some id ∧ w_vault w ≠ None).
  { intros id s Hs. destruct (H id) as [_ [?|?]]; [by apply (list_elem_of_fmap_2 fst _ (id, s))|set_solver|done]. }
  split_and!.
  - intros id s Hs%map_get_elem. by apply (HC id s).
  - destruct (w_sources w) as [|[i s] [|[j s'] m]]; cbn; try lia. exfalso.
    destruct (HC i s) as [E1 _]; [set_solver|]. destruct (HC j s') as [E2 _]; [set_solver|].
    cbn in HN. assert (i = j) by congruence. apply NoDup_cons in HN as [HN _]. set_solver.
  - intros HV. destruct (w_sources w) as [|[i s] m]; [done|]. destruct (HC i s) as [_ ?]; [set_solver|done].
Qed.

Definition sample_sources : list op :=
  [OpUnlock; OpCreateEmpty (JNum (NInt 1024)); OpOpen 4096; OpOpenRemote (RemoteArgs [] JUndefined) false].
Lemma sources_tidy_witness :
  ∃ w rs, run (script (λ _, false)) sample_sources 4 (new_worker true) = Some (w, rs) ∧
    w_sourceId w = 4 ∧ w_current w = Some 4 ∧ ∀ id s, map_get id (w_sources w) = Some s → w_current w = Some id.
Proof.
  destruct (run (script (λ _, false)) sample_sources 4 (new_worker true)) as [[w rs]|] eqn:E; [|by vm_compute in E].
  exists w, rs. pose proof (sources_tidy (script (λ _, false)) true sample_sources 4 w rs E) as [Hs _].
  split; [reflexivity|]. vm_compute in E. injection E as <- <-. split; [reflexivity|]. split; [reflexivity|exact Hs].
Defined.
