(* ===== verification/VaultSessions.v ===== *)
(** * The disk Worker: read-only sessions and prepared states

    A session opened with a read key has a Vault but no identity: what it can ask of
    the Vault is bounded.  A prepared state is a second Vault that waits for a token:
    it is committed as a whole or not at all, and no token is accepted twice. *)
From S2P Require Import Prelude JsValue VaultWorker VaultWorkerFacts.
#[local] Open Scope Z_scope.
Import VaultWorker.

(** ** Read-only sessions *)

(** The methods of a Vault that create, sign, seal or export with the identity. *)
Definition protected (m : vault_method) : bool :=
  match m with
  | OpenDisk _ _ | BeginCreate _ _ | BeginSave | Header | Next | Accept _ _ | AcceptUnchanged | ExportReadKey
  | SignRelayChallenge | SealState => true
  | _ => false
  end.
Definition harmless (e : call * bool) : bool :=
  match e.1 with
  | VaultCall _ m => negb (protected m)
  | VaultNew _ | VaultOpenReadOnly _ _ _ => false
  | _ => true
  end.

Definition readonly (w : worker) : Prop := w_vault w ≠ None ∧ w_identity w = false.

Definition stays_readonly (w w' : worker) : Prop :=
  (readonly w → readonly w') ∧ ∃ new, w_log w' = w_log w ++ new ∧ Forall (λ e, harmless e = true) new.

#[export] Instance stays_readonly_refl : Reflexive stays_readonly.
Proof. intros w. split; [done|]. exists []. by rewrite app_nil_r. Qed.
#[export] Instance stays_readonly_trans : Transitive stays_readonly.
Proof.
  intros w1 w2 w3 [H1 (n1 & L1 & F1)] [H2 (n2 & L2 & F2)]. split; [auto|]. exists (n1 ++ n2).
  rewrite L2, L1, app_assoc. split; [done|]. by apply Forall_app.
Qed.

Lemma stays_call c b w :
  harmless (c, b) = true → stays_readonly w (set_log (w_handles w) (w_log w ++ [(c, b)]) w).
Proof. intros H. split; [done|]. exists [(c, b)]. split; [done|]. by constructor. Qed.

(** A step that changes neither the log nor the session. *)
Lemma stays_state w w' :
  w_log w' = w_log w → w_identity w' = w_identity w → (w_vault w ≠ None → w_vault w' ≠ None) → stays_readonly w w'.
Proof. intros L I V. split; [intros [? ?]; split; [auto|congruence]|]. exists []. rewrite app_nil_r. by rewrite L. Qed.

Section readonly.
Context (env : ∀ (past : list (call * bool)) (c : call), result (answer c)).

Lemma readonly_permits : permits env stays_readonly (λ m, negb (protected m)).
Proof using Type.
  split; try (intros; by apply stays_state).
  - intros c Hc w. apply stays_call. by destruct c.
  - intros c Hc w. apply stays_call. by destruct c.
  - intros m Hm w. unfold vault_call, the_vault. apply wp_bind, wp_bind, wp_get.
    destruct (w_vault w); [|exact (stays_readonly_refl w)]. apply wp_ret. apply stays_call. exact Hm.
Qed.

Lemma readonly_free h : neutral stays_readonly (emit (VaultFree h)).
Proof using Type. intros w. by apply stays_call. Qed.
Lemma readonly_fork h from : neutral stays_readonly (invoke env (VaultFork h from)).
Proof using Type. intros w. by apply stays_call. Qed.
Lemma readonly_fresh : neutral stays_readonly fresh_handle.
Proof using Type. intros w. by apply stays_state. Qed.
Lemma readonly_candidate : ∀ x n w, stays_readonly w (set_candidate x n w).
Proof using Type. intros. by apply stays_state. Qed.
Lemma readonly_swap h : neutral stays_readonly (modify (set_vault (Some h))).
Proof using Type. intros w. by apply stays_state. Qed.
Lemma readonly_the_vault : neutral stays_readonly the_vault.
Proof using Type. unfold the_vault. neutral. Qed.
Lemma readonly_discard_startup id p : neutral stays_readonly (emit (DiscardStartup id p)).
Proof using env. by apply (p_emit readonly_permits). Qed.
Lemma readonly_remote id m : neutral stays_readonly (remote_call env id m).
Proof using Type. exact (p_invoke readonly_permits (Remote id m) eq_refl). Qed.
Lemma readonly_describe : neutral stays_readonly (describe env).
Proof using Type. by apply (quiet_describe env _ _ readonly_permits). Qed.
Lemma readonly_check : neutral stays_readonly (check env).
Proof using Type. by apply (quiet_check env _ _ readonly_permits). Qed.
#[local] Hint Resolve readonly_free readonly_fork readonly_fresh readonly_swap readonly_the_vault
  readonly_discard_startup readonly_remote readonly_describe readonly_check readonly_candidate : neutral.

Lemma readonly_dropState : neutral stays_readonly dropState.
Proof using env. unfold dropState. neutral. Qed.
#[local] Hint Resolve readonly_dropState : neutral.

Ltac session := neutral; try apply readonly_candidate; try (intros; by apply stays_state).

Lemma readonly_prepare published prefetch : neutral stays_readonly (prepareState env published prefetch).
Proof using Type.
  assert (N : ∀ f : Z → M unit, (∀ id, neutral stays_readonly (f id)) → neutral stays_readonly (on_remote f))
    by (intros f Hf; by apply (quiet_on_remote env _ _ readonly_permits)).
  pose proof (p_call readonly_permits OpenState eq_refl) as NO.
  unfold prepareState, begin_prefetch, make_candidate. session; try (apply N; intros ?; session);
    try exact NO; exact (readonly_remote _ _).
Qed.

Lemma readonly_commit t : neutral stays_readonly (commitState env t).
Proof using Type.
  pose proof (quiet_described env _ _ readonly_permits eq_refl).
  assert (NS : ∀ o s, neutral stays_readonly (set_load_prefetch env o s))
    by (intros; by apply (quiet_set_load_prefetch env _ _ readonly_permits)).
  unfold commitState. session; try apply NS; exact (readonly_remote _ (CommitStartup _)).
Qed.

Lemma readonly_candidateRead t o l : neutral stays_readonly (candidateRead env t o l).
Proof using Type.
  unfold candidateRead. neutral. intros w. by apply (stays_call (VaultCall _ (ReadDisk o l))).
Qed.

Definition needs (o : op) : bool := includes needs_identity (op_name o).

Lemma readonly_execute o fuel w :
  o ≠ OpClose → readonly w →
  wp (execute env o fuel) (λ r w', stays_readonly w w' ∧
    (needs o = true → r = throw "READ_ONLY" "Operation unavailable in read-only mode")) w.
Proof using Type.
  intros Ho [HV HI]. unfold execute. apply wp_bind, wp_get. rewrite bool_decide_eq_false_2 by done. rewrite HI. cbv zeta.
  cbn [negb andb].
  assert (HF : ∀ c m, needs o = false → wp (fail c m : M reply) (λ r w', stays_readonly w w' ∧
    (needs o = true → r = throw "READ_ONLY" "Operation unavailable in read-only mode")) w)
    by (intros c m E; split; [reflexivity|congruence]).
  fold (needs o). destruct (needs o) eqn:EN; [destruct o; try done; by split|].
  assert (HN : ∀ m : M reply, neutral stays_readonly m → wp m (λ r w', stays_readonly w w' ∧
    (false = true → r = throw "READ_ONLY" "Operation unavailable in read-only mode")) w).
  { intros m Hm. eapply wp_mono; [apply Hm|]. by intros r w' H. }
  destruct o; try discriminate EN; try done.
  all: try (apply wp_bind, wp_get, wp_bind, wp_guard; [by intros ?%bool_decide_eq_true|intros e; by split]).
  all: try (destruct (_ && _); [by apply HF|]).
  all: try (apply HN; by apply (quiet_dispatch env _ _ readonly_permits)).
  all: cbn [dispatch]; try (by apply HF).
  - apply HN, readonly_prepare.
  - apply HN, readonly_candidateRead.
  - apply HN. unfold discardState. neutral.
  - apply HN, readonly_commit.
  - unfold signRelayChallenge. apply wp_bind, wp_get. rewrite HI. by apply wp_bind, HF.
Qed.
End readonly.

(** C13: a read-only session stays one and cannot use the identity it does not have: over
    any requests but [close], no method that creates, encrypts, signs, seals a state
    or exports a key is called on any Vault and no other Vault is opened; the requests
    that need an identity fail with READ_ONLY; and the session is still read-only. *)
Theorem readonly_sound (env : ∀ (past : list (call * bool)) (c : call), result (answer c)) l fuel w w' rs :
  w_vault w ≠ None → w_identity w = false → OpClose ∉ l → run env l fuel w = Some (w', rs) →
  w_vault w' ≠ None ∧ w_identity w' = false ∧
  (∃ new, w_log w' = w_log w ++ new ∧ Forall (λ e, harmless e = true) new) ∧
  Forall2 (λ o r, needs o = true → r = throw "READ_ONLY" "Operation unavailable in read-only mode") l rs.
Proof.
  intros HV HI Hl Hrun. cut (stays_readonly w w' ∧ Forall2 (λ o r, needs o = true →
    r = throw "READ_ONLY" "Operation unavailable in read-only mode") l rs).
  { intros [[HR HN] HF]. destruct HR; [by split|]. by split_and!. }
  assert (Hw : readonly w) by done. clear HV HI. revert w rs Hw Hrun.
  induction l as [|o l IH]; intros w rs Hw; cbn [run]; [by intros [= <- <-]|].
  apply not_elem_of_cons in Hl as [Ho Hl].
  pose proof (readonly_execute env o fuel w (not_eq_sym Ho) Hw) as H. unfold wp in H.
  destruct (execute _ _ _ _) as [[w1 r]|]; [|done]. cbn. destruct H as [HS HR].
  destruct (run env l fuel w1) as [[w2 rs2]|] eqn:E; [|done]. intros [= <- <-].
  destruct (IH Hl w1 rs2 (proj1 HS Hw) E) as [HS2 HR2]. split; [by transitivity w1|by constructor].
Qed.

Definition sample_readonly : list op :=
  [OpRead (JNum (NInt 0)) (JNum (NInt 512)); OpSave; OpWrite (JNum (NInt 0)); OpExportReadOnlyKey;
   OpPrepareState false false; OpCommitState (JNum (NInt 1)); OpUnlock].
Definition sample_session : worker :=
  match run (script (λ _, false)) [OpOpenReadOnly (Some 64) (Some 4096)] 1 (new_worker true) with
  | Some (w, _) => w
  | None => new_worker true
  end.
Lemma readonly_sound_witness :
  ∃ w' rs, run (script (λ _, false)) sample_readonly 3 sample_session = Some (w', rs) ∧
    (is_ok <$> rs) = [true; false; true; false; true; true; false] ∧ w_vault w' = Some 2 ∧ w_identity w' = false.
Proof.
  assert (HV : w_vault sample_session ≠ None) by (vm_compute; discriminate).
  assert (HI : w_identity sample_session = false) by (vm_compute; reflexivity).
  assert (HC : OpClose ∉ sample_readonly) by (unfold sample_readonly; set_solver).
  destruct (run (script (λ _, false)) sample_readonly 3 sample_session) as [[w' rs]|] eqn:E; [|by vm_compute in E].
  pose proof (readonly_sound (script (λ _, false)) sample_readonly 3 sample_session w' rs HV HI HC E) as (_ & HI' & _).
  exists w', rs. split; [reflexivity|]. vm_compute in E. injection E as <- <-.
  split; [reflexivity|]. split; [reflexivity|exact HI'].
Defined.

(** ** Prepared states *)

(** [matching token] names the candidate, which must still belong to this disk. *)
Definition ready (token : jsval) (k : candidate) (w : worker) : Prop :=
  w_candidate w = Some k ∧ token = JNum (NInt (k_token k)) ∧ k_source k = w_current w.

Section states.
Context (env : ∀ (past : list (call * bool)) (c : call), result (answer c)).

(** What a quiet program leaves alone. *)
Definition same_state (w w' : worker) : Prop :=
  w_vault w' = w_vault w ∧ w_candidate w' = w_candidate w ∧ w_serial w' = w_serial w ∧
  w_current w' = w_current w ∧ ∃ new, w_log w' = w_log w ++ new.

#[local] Instance same_state_refl : Reflexive same_state.
Proof using Type. intros w. split_and!; try done. exists []. by rewrite app_nil_r. Qed.
#[local] Instance same_state_trans : Transitive same_state.
Proof using Type.
  intros w1 w2 w3 (? & ? & ? & ? & n1 & L1) (? & ? & ? & ? & n2 & L2). split_and!; try congruence.
  exists (n1 ++ n2). by rewrite L2, L1, app_assoc.
Qed.

Lemma same_state_step w w' :
  w_vault w' = w_vault w → w_candidate w' = w_candidate w → w_serial w' = w_serial w → w_current w' = w_current w →
  w_log w' = w_log w → same_state w w'.
Proof using Type. intros. split_and!; try done. exists []. by rewrite app_nil_r. Qed.

Lemma state_invoke c : neutral same_state (invoke env c).
Proof using Type. intros w. split_and!; try done. by eexists. Qed.
Lemma state_emit c : neutral same_state (emit c).
Proof using Type. intros w. split_and!; try done. by eexists. Qed.
Lemma state_permits : permits env same_state (λ _, true).
Proof using Type.
  split; try (intros; by apply same_state_step); intros; try apply state_invoke; try apply state_emit.
  unfold vault_call, the_vault. neutral. apply state_invoke.
Qed.
Lemma state_describe : neutral same_state (describe env).
Proof using Type. by apply (quiet_describe env _ _ state_permits). Qed.
Lemma state_check : neutral same_state (check env).
Proof using Type. by apply (quiet_check env _ _ state_permits). Qed.

(** The last part of [commitState], once the state is the Worker's. *)
Lemma commit_end k w :
  neutral same_state
    (match k_prefetchId k with
     | Some p =>
         match w_current w, remote_of (find_source (w_current w) w) with
         | Some id, Some _ => remote_call env id (CommitStartup p)
         | _, _ => type_error
         end
     | None => set_load_prefetch env (k_origin k) "none"
     end ;; described env).
Proof using Type.
  pose proof (quiet_described env _ _ state_permits eq_refl).
  pose proof (quiet_set_load_prefetch env _ _ state_permits eq_refl (k_origin k) "none").
  neutral. exact (state_invoke (Remote _ (CommitStartup _))).
Qed.

(** [commitState] either changes nothing of this, or it swaps the Vaults. *)
Definition swapped (k : candidate) (w w' : worker) : Prop :=
  w_vault w' = Some (k_vault k) ∧ w_candidate w' = None ∧ w_serial w' = w_serial w ∧ w_current w' = w_current w ∧
  ∃ old new1 new2, w_vault w = Some old ∧ w_log w' = w_log w ++ new1 ++ (VaultFree old, true) :: new2.

Lemma commit_cases t w :
  wp (commitState env t) (λ r w',
    (same_state w w' ∧ is_ok r = false) ∨
    ∃ k, ready t k w ∧ swapped k w w' ∧
      ∃ d, env (w_log w) (VaultCall (default 0 (w_vault w)) Describe) = Ok d ∧ d_revision d = k_revision k) w.
Proof using Type.
  unfold commitState. apply wp_bind, wp_get. unfold matching.
  destruct (w_candidate w) as [k|] eqn:Ek; [|by left].
  destruct (is_int t (k_token k)) eqn:Et; [|by left]. apply is_int_true in Et.
  apply wp_bind. eapply wp_mono with (Q := λ r w', same_state w w' ∧ match r with
    | Ok p => env (w_log w) (VaultCall (default 0 (w_vault w)) Describe) = Ok p.1 | _ => True end).
  { pose proof (state_describe w) as HD. unfold wp in *. unfold describe, vault_call, the_vault in *.
    revert HD. unfold get, mbind, M_bind, mret, M_ret, invoke. destruct (w_vault w) as [h|]; [|done].
    destruct (env (w_log w) (VaultCall h Describe)) as [d|e] eqn:E; intros HD; (split; [exact HD|done]). }
  intros r w1 [H1 HD]. destruct r as [p|e]; [|by left]. 
  apply wp_bind, wp_guard; [|by left]. intros [Hr Hs]%andb_prop. apply Z.eqb_eq in Hr. apply bool_decide_eq_true in Hs.
  apply wp_bind. eapply wp_mono; [apply state_check|]. intros r w2 H2.
  assert (H12 : same_state w w2) by (by etrans). clear H1 H2.
  destruct r as [[]|e]; [|by left]. apply wp_bind. unfold the_vault. apply wp_bind, wp_get.
  destruct (w_vault w2) as [old|] eqn:Ev; [|by left]. apply wp_ret.
  apply wp_bind, wp_modify, wp_bind, wp_modify, wp_bind, wp_modify, wp_bind. unfold wp at 1. cbn [emit modify].
  apply wp_bind, wp_modify. set (w3 := set_prepared _ _ _).
  eapply wp_mono; [apply commit_end|]. intros r w4 (V4 & C4 & S4 & U4 & new2 & L4). right. exists k.
  destruct H12 as (V & C & S & U & new1 & L). subst w3. cbn in V4, C4, S4, U4, L4.
  split; [by split_and!|]. split; [split_and!; try congruence|].
  - exists old, new1, new2. split; [congruence|]. rewrite L4. by rewrite L, <- !app_assoc.
  - by exists p.1.
Qed.

(** ** Tokens *)
Definition same_token (w w' : worker) : Prop := w_candidate w' = w_candidate w ∧ w_serial w' = w_serial w.
#[local] Instance same_token_refl : Reflexive same_token.
Proof using Type. by intros w. Qed.
#[local] Instance same_token_trans : Transitive same_token.
Proof using Type. intros w1 w2 w3 [? ?] [? ?]. split; congruence. Qed.

Lemma token_invoke c : neutral same_token (invoke env c).
Proof using Type. by intros w. Qed.
Lemma token_emit c : neutral same_token (emit c).
Proof using Type. by intros w. Qed.
Lemma token_fresh : neutral same_token fresh_handle.
Proof using Type. by intros w. Qed.
Lemma token_vault_call m : neutral same_token (vault_call env m).
Proof using Type. unfold vault_call, the_vault. neutral. apply token_invoke. Qed.
Lemma token_permits : permits env same_token (λ _, true).
Proof using Type. split; intros; try apply token_invoke; try apply token_emit; try apply token_vault_call; done. Qed.
Lemma token_sources : permits_sources same_token.
Proof using Type. by split. Qed.

(** A new candidate has a new token. *)
Definition advances (w w' : worker) : Prop :=
  w_serial w ≤ w_serial w' ∧
  (w_candidate w' = w_candidate w ∨ ∀ k, w_candidate w' = Some k → w_serial w < k_token k ≤ w_serial w').
#[local] Instance advances_refl : Reflexive advances.
Proof using Type. intros w. split; [done|by left]. Qed.
#[local] Instance advances_trans : Transitive advances.
Proof using Type.
  intros w1 w2 w3 [H1 C1] [H2 C2]. split; [lia|]. destruct C2 as [E|C2].
  - rewrite E. destruct C1 as [C1|C1]; [by left|right]. intros k Hk%C1. lia.
  - right. intros k Hk%C2. lia.
Qed.
Lemma token_advances {A} (m : M A) : neutral same_token m → neutral advances m.
Proof using Type. intros H w. eapply wp_mono; [apply H|]. cbn. intros r w' [E1 E2]. split; [lia|by left]. Qed.

Lemma advances_drop : neutral advances dropState.
Proof using Type.
  intros w. unfold dropState. apply wp_bind, wp_get. destruct (w_candidate w) as [k|]; [|exact (advances_refl w)].
  apply wp_bind.
  match goal with |- wp ?m _ _ => assert (N : neutral same_token m) by (neutral; apply token_emit) end.
  eapply wp_mono; [apply N|]. intros r w1 [E1 E2]. destruct r as [u|e]; [|split; [lia|by left]].
  apply wp_bind. unfold wp. cbn. split; [done|by right].
Qed.

Lemma advances_make_candidate published id remote p : neutral advances (make_candidate env published id remote p).
Proof using Type.
  unfold make_candidate.
  pose proof token_invoke as NI. pose proof (quiet_check env _ _ token_permits) as NC.
  pose proof (token_vault_call OpenState) as NO.
  apply neutral_bind; class; [apply token_advances; neutral; exact (NI (Remote _ StateInput))|intros _].
  apply neutral_bind; class; [apply token_advances, NO|intros d].
  apply neutral_bind; class; [apply token_advances; neutral|intros _]. cbv zeta.
  apply neutral_bind; class; [apply token_advances; neutral; exact (NI (Remote _ (ValidateStartup _ _)))|intros _].
  apply neutral_bind; class; [apply token_advances, NC|intros _].
  apply neutral_bind; class; [apply token_advances; unfold the_vault; neutral|intros from].
  apply neutral_bind; class; [apply token_advances, token_fresh|intros h].
  apply neutral_bind; class; [apply token_advances; exact (NI (VaultFork h from))|intros _].
  intros w. apply wp_bind, wp_get, wp_bind, wp_modify, wp_bind.
  eapply wp_mono; [apply (quiet_describe env _ _ token_permits eq_refl)|]. intros r w1 [C1 S1]. cbn in C1, S1.
  assert (H1 : advances w w1) by (split; [lia|by left]). destruct r as [x|e]; [|exact H1].
  apply wp_bind, wp_modify, wp_bind. eapply wp_mono; [apply (quiet_describe env _ _ token_permits eq_refl)|].
  intros r w2 [C2 S2]. cbn in C2, S2.
  assert (H2 : advances w w2) by (split; [lia|right; intros k Hk; rewrite C2 in Hk; injection Hk as <-; cbn; lia]).
  by destruct r.
Qed.

Lemma advances_prepare published prefetch : neutral advances (prepareState env published prefetch).
Proof using Type.
  unfold prepareState. pose proof advances_drop. pose proof token_emit as NE.
  pose proof (quiet_describe env _ _ token_permits eq_refl).
  assert (NB : ∀ id remote, neutral advances (begin_prefetch env published prefetch id remote)).
  { intros id remote. apply token_advances. unfold begin_prefetch, remote_call. neutral.
    exact (token_invoke (Remote _ StartStartup)). }
  assert (ND : neutral advances (on_remote (λ id, emit (DiscardStartup id None)))).
  { apply token_advances, (quiet_on_remote env _ _ token_permits). intros id. apply NE. }
  neutral; try apply NB; try apply advances_make_candidate; by apply token_advances, NE.
Qed.

Lemma advances_commit t : neutral advances (commitState env t).
Proof using Type.
  intros w. eapply wp_mono; [apply commit_cases|]. cbn.
  intros r w' [[(_ & C & S & _) _]|(k & _ & (_ & C & S & _) & _)]; (split; [lia|]); [by left|right; congruence].
Qed.

Lemma advances_close : neutral advances close.
Proof using env.
  unfold close. apply neutral_bind; class; [apply advances_drop|intros _]. apply token_advances.
  pose proof (loud_remove_all env _ _ token_permits eq_refl token_sources) as NR. unfold the_vault.
  neutral; try apply token_emit; try apply NR; by intros w.
Qed.

Lemma advances_execute o fuel : neutral advances (execute env o fuel).
Proof using Type.
  assert (HF : ∀ c m, neutral advances (fail c m : M reply)) by (intros; apply neutral_fail; class).
  assert (HR : ∀ id, neutral same_token (remove id))
    by (intros; apply (loud_remove env _ _ token_permits eq_refl token_sources)).
  assert (HA : ∀ s, neutral same_token (add_source s))
    by (intros; apply (loud_add_source env _ _ token_permits eq_refl token_sources)).
  assert (HC := quiet_check env _ _ token_permits). assert (HG := quiet_arguments env _ _ token_permits).
  assert (HP := quiet_start_prefetch env _ _ token_permits).
  assert (HD := quiet_described env _ _ token_permits eq_refl).
  assert (D : neutral advances (dispatch env o fuel)).
  { destruct o; try (apply token_advances; by apply (loud_dispatch env _ _ token_permits eq_refl token_sources));
      cbn [dispatch]; try apply HF.
    - apply advances_prepare.
    - apply token_advances. unfold candidateRead. neutral. exact (token_invoke (VaultCall _ (ReadDisk _ _))).
    - unfold discardState. pose proof advances_drop. neutral.
    - apply advances_commit.
    - apply advances_close. }
  unfold execute. apply neutral_bind; class; [apply neutral_get; class|intros w; cbv zeta].
  destruct o; try (destruct (bool_decide _); [apply neutral_ret; class|exact D]);
    (destruct (_ && _ && _); [apply HF|]);
    try (destruct (bool_decide _); [apply HF|]; destruct (_ && _); [apply HF|exact D]); apply token_advances.
  - unfold unlock. neutral; try apply token_fresh; try exact (token_vault_call Identity);
      try exact (token_invoke (VaultNew _)); by intros w'.
  - unfold openReadOnly. neutral; try apply token_fresh; try apply token_emit;
      try exact (token_invoke (VaultOpenReadOnly _ _ _)); by intros w'.
  - unfold openRemoteReadOnly. neutral; try apply token_fresh; try apply token_emit;
      try exact (token_invoke (VaultOpenReadOnly _ _ _)); try exact (token_invoke OpenPublication); by intros w'.
Qed.

Lemma advances_run l fuel w w' rs : run env l fuel w = Some (w', rs) → advances w w'.
Proof using Type.
  revert w rs. induction l as [|o l IH]; intros w rs; cbn [run]; [by intros [= <- <-]|].
  pose proof (advances_execute o fuel w) as H. unfold wp in H. destruct (execute _ _ _ _) as [[w1 r]|]; [|done]. cbn.
  destruct (run env l fuel w1) as [[w2 rs2]|] eqn:E; [|done]. intros [= <- <-]. etrans; [exact H|by eapply IH].
Qed.
End states.


Definition sample_states : list op := [OpUnlock; OpOpen 1024; OpPrepareState false false].
Definition state_of (o : option (worker * list (result reply))) : worker :=
  match o with Some (w, _) => w | None => new_worker true end.
