(* ===== verification/VaultProgress.v ===== *)
(** * The disk Worker: every request ends

    The Worker loops while it encrypts ([build_loop]), reads a source to download it
    ([download_loop]) and hashes ([verify_loop]).  The number of blocks is the
    Vault's: with a bound on it, and fuel beyond the bound, every request ends. *)
From S2P Require Import Prelude JsValue VaultWorker VaultWorkerFacts.
From S2P Require BootAnalysis.
#[local] Open Scope Z_scope.
Import VaultWorker.

(** The calls of [next] since the last [header], and of [verify_step] since the last
    [verify_start]. *)
Definition tick (start step : vault_method → bool) (n : nat) (e : call * bool) : nat :=
  match e.1 with
  | VaultCall _ m => if start m then 0%nat else if step m then S n else n
  | _ => n
  end.
Definition is_header (m : vault_method) : bool := match m with Header => true | _ => false end.
Definition is_next (m : vault_method) : bool := match m with Next => true | _ => false end.
Definition is_start (m : vault_method) : bool := match m with VerifyStart => true | _ => false end.
Definition is_step (m : vault_method) : bool := match m with VerifyStep => true | _ => false end.
Definition nexts (log : list (call * bool)) : nat := foldl (tick is_header is_next) 0%nat log.
Definition steps (log : list (call * bool)) : nat := foldl (tick is_start is_step) 0%nat log.

Lemma nexts_snoc log e : nexts (log ++ [e]) = tick is_header is_next (nexts log) e.
Proof. unfold nexts. by rewrite foldl_app. Qed.
Lemma steps_snoc log e : steps (log ++ [e]) = tick is_start is_step (steps log) e.
Proof. unfold steps. by rewrite foldl_app. Qed.

(** ** Programs that end *)
Definition ends {A} (m : M A) (w : worker) : Prop := m w ≠ None.
Definition total {A} (m : M A) : Prop := ∀ w, ends m w.

Lemma ends_bind {A B} (m : M A) (f : A → M B) w :
  ends m w → wp m (λ r w', ∀ a, r = Ok a → ends (f a) w') w → ends (m ≫= f) w.
Proof. unfold ends, wp, mbind, M_bind. destruct (m w) as [[w' [a|e]]|]; [|done..]. intros _ H. by apply H. Qed.
Lemma ends_catch {A} (m : M A) h w : ends m w → (∀ e, total (h e)) → ends (catch m h) w.
Proof. unfold ends, catch. destruct (m w) as [[w' [a|e]]|]; [done| |done]. intros _ H. apply H. Qed.
Lemma ends_finally {A} (m : M A) f w : ends m w → total f → ends (finally m f) w.
Proof.
  unfold ends, finally. destruct (m w) as [[w' r]|]; [|done]. intros _ H. specialize (H w').
  unfold ends in H. by destruct (f w') as [[w2 [u|e]]|].
Qed.

Lemma total_ret {A} (a : A) : total (mret a : M A).
Proof. done. Qed.
Lemma total_bind {A B} (m : M A) (f : A → M B) : total m → (∀ a, total (f a)) → total (m ≫= f).
Proof.
  intros Hm Hf w. apply ends_bind; [apply Hm|]. unfold wp. destruct (m w) as [[w' r]|]; [|done]. intros a _. apply Hf.
Qed.
Lemma total_catch {A} (m : M A) h : total m → (∀ e, total (h e)) → total (catch m h).
Proof. intros Hm Hh w. by apply ends_catch. Qed.
Lemma total_finally {A} (m : M A) f : total m → total f → total (finally m f).
Proof. intros Hm Hf w. by apply ends_finally. Qed.

Lemma total_ends {A} (m : M A) w : total m → ends m w.
Proof. intros H. apply H. Qed.

Lemma total_guard b c msg : total (guard b c msg).
Proof. by destruct b. Qed.

Ltac total_step :=
  lazymatch goal with
  | |- total (guard _ _ _) => apply total_guard
  | |- total (mbind _ _) => apply total_bind; [|intros ?]
  | |- total (catch _ _) => apply total_catch; [|intros ?]
  | |- total (finally _ _) => apply total_finally
  | |- total (match ?x with _ => _ end) => destruct x
  | |- total (let _ := _ in _) => cbv zeta
  end.
Ltac total := repeat first [assumption | total_step | by intros ?w].

(** A relation on the log that a call keeps unless it is a tick. *)
Definition count_same (count : list (call * bool) → nat) (w w' : worker) : Prop := count (w_log w') = count (w_log w).
#[export] Instance count_same_refl count : Reflexive (count_same count).
Proof. by intros w. Qed.
#[export] Instance count_same_trans count : Transitive (count_same count).
Proof. intros w1 w2 w3 H1 H2. unfold count_same in *. congruence. Qed.

Section progress.
Context (env : ∀ (past : list (call * bool)) (c : call), result (answer c)).
Context (bound : nat).
Context (next_ends : ∀ past h n, env past (VaultCall h Next) = Ok (Some n) → (nexts past < bound)%nat).
Context (verify_ends : ∀ past h, env past (VaultCall h VerifyStep) = Ok false → (steps past < bound)%nat).

Lemma total_vault_call m : total (vault_call env m).
Proof using Type. unfold vault_call, the_vault. total. Qed.
Lemma total_check : total (check env).
Proof using Type. unfold check. total. Qed.
Lemma total_describe : total (describe env).
Proof using Type. unfold describe. pose proof (total_vault_call Describe). total. Qed.
Lemma total_on_remote m : (∀ id, total (m id)) → total (on_remote m).
Proof using Type. intros H. unfold on_remote. total; apply H. Qed.
Lemma total_remove id : total (remove id).
Proof using Type. unfold remove. total. Qed.
Lemma total_remove_if id : total (remove_if id).
Proof using Type. destruct id; [apply total_remove|done]. Qed.
Lemma total_drop : total dropState.
Proof using Type. unfold dropState. total. Qed.

Lemma count_permits count P :
  (∀ log c b, outside c = true → count (log ++ [(c, b)]) = count log) →
  (∀ log h m b, P m = true → count (log ++ [(VaultCall h m, b)]) = count log) →
  permits env (count_same count) P.
Proof using Type.
  intros H1 H2. split; try done.
  - intros c Hc w. by apply H1.
  - intros c Hc w. by apply H1.
  - intros m Hm w. unfold vault_call, the_vault. apply wp_bind, wp_bind, wp_get. destruct (w_vault w); [|done].
    apply wp_ret. unfold wp, invoke, count_same. cbn. by apply H2.
Qed.

Lemma nexts_permits : permits env (count_same nexts) (λ m, negb (is_header m || is_next m)).
Proof using Type. apply count_permits; intros; rewrite nexts_snoc; unfold tick; cbn; [by destruct c|by destruct m]. Qed.
Lemma steps_permits : permits env (count_same steps) (λ m, negb (is_start m || is_step m)).
Proof using Type. apply count_permits; intros; rewrite steps_snoc; unfold tick; cbn; [by destruct c|by destruct m]. Qed.

(** A tick of the Vault, whatever it answers. *)
Lemma tick_spec m w :
  wp (vault_call env m) (λ r w', match w_vault w with
    | Some h => r = env (w_log w) (VaultCall h m) ∧ ∃ b, w_log w' = w_log w ++ [(VaultCall h m, b)]
    | None => is_ok r = false
    end) w.
Proof using Type.
  unfold vault_call, the_vault. apply wp_bind, wp_bind, wp_get. destruct (w_vault w); [|done].
  apply wp_ret. unfold wp, invoke. cbn. split; [done|by eexists].
Qed.

Lemma build_loop_ends fuel size w :
  (nexts (w_log w) ≤ bound < nexts (w_log w) + fuel)%nat → ends (build_loop env fuel size) w.
Proof using All.
  revert size w. induction fuel as [|fuel IH]; intros size w Hf; [lia|]; cbn [build_loop].
  apply ends_bind; [apply total_check|]. eapply wp_mono; [apply (quiet_check env _ _ nexts_permits)|].
  intros r w1 E1 u _. apply ends_bind; [apply (total_vault_call Next)|].
  eapply wp_mono; [apply (tick_spec Next)|]. cbn. intros r2 w2 H a ->. destruct (w_vault w1) as [h|]; [|done].
  destruct H as [HE [b EL]]. destruct a as [n|]; [|done]. symmetry in HE. apply next_ends in HE.
  apply IH. unfold count_same in E1. rewrite EL, nexts_snoc. cbn. lia.
Qed.

Lemma build_total fuel : (bound < fuel)%nat → total (build env fuel).
Proof using All.
  intros Hf w. unfold build. pose proof total_describe. pose proof total_check.
  assert (HC : ∀ A e, total (cancel_build env e : M A)).
  { intros A e. unfold cancel_build. pose proof (total_vault_call Cancel). total. }
  apply ends_bind; [apply (total_vault_call Header)|]. eapply wp_mono; [apply (tick_spec Header)|].
  cbn. intros r w1 H1 first ->. apply ends_bind.
  - apply ends_catch; [|apply HC]. destruct (w_vault w) as [h|]; [|done]. destruct H1 as [_ [b EL]].
    apply ends_bind.
    + apply build_loop_ends. rewrite EL, nexts_snoc. cbn. lia.
    + unfold wp. destruct (build_loop _ _ _ _) as [[w2 r2]|]; [|done]. intros n _. apply total_ends. total.
  - unfold wp. destruct (catch _ _ w1) as [[w2 r2]|]; [|done]. intros n _. apply total_ends.
    assert (HA : ∀ a b, total (vault_call env (Accept a b))) by (intros a b; exact (total_vault_call (Accept a b))).
    pose proof total_remove. pose proof total_remove_if.
    unfold when. total; try apply HA; try apply HC; auto.
Qed.

Lemma download_loop_ends fuel id offset size w :
  size - offset ≤ Z.of_nat fuel * 1048576 → ends (download_loop env fuel id offset size) w.
Proof using Type.
  revert offset w. induction fuel as [|fuel IH]; intros offset w H; cbn [download_loop];
    (destruct (size <=? offset) eqn:E; [done|]); apply Z.leb_gt in E; [lia|].
  apply ends_bind; [apply total_check|]. unfold wp. destruct (check env w) as [[w1 r1]|]; [|done]. intros a _.
  apply ends_bind; [done|]. unfold wp. destruct (invoke env _ w1) as [[w2 r2]|]; [|done]. intros b _.
  apply ends_bind; [apply total_check|]. unfold wp. destruct (check env w2) as [[w3 r3]|]; [|done]. intros c _.
  apply IH. lia.
Qed.

Lemma verify_loop_ends fuel count w :
  (steps (w_log w) ≤ bound < steps (w_log w) + fuel)%nat → ends (verify_loop env fuel count) w.
Proof using All.
  pose proof total_describe as TD.
  revert count w. induction fuel as [|fuel IH]; intros count w Hf; [lia|]; cbn [verify_loop].
  apply ends_bind; [apply total_check|]. eapply wp_mono; [apply (quiet_check env _ _ steps_permits)|].
  intros r w1 E1 u _. apply ends_bind; [apply (total_vault_call VerifyStep)|].
  eapply wp_mono; [apply (tick_spec VerifyStep)|]. cbn. intros r2 w2 H a ->. destruct (w_vault w1) as [h|]; [|done].
  destruct H as [HE [b EL]]. unfold count_same in E1. destruct a.
  { pose proof total_check as TC. apply total_ends. total. }
  symmetry in HE. apply verify_ends in HE. apply ends_bind.
  - apply total_ends. unfold when. total.
  - assert (N : neutral (count_same steps) (when ((count + 1) mod 16 =? 0) (describe env ;; mret tt))).
    { pose proof (quiet_describe env _ _ steps_permits eq_refl). neutral. }
    eapply wp_mono; [apply N|]. intros r3 w3 E3 v _. unfold count_same in E3. apply IH. rewrite E3, EL, steps_snoc. cbn. lia.
Qed.

(** ** Every request *)
Definition fits (fuel : nat) (w : worker) : Prop :=
  ∀ s, find_source (w_current w) w = Some s → src_size s ≤ Z.of_nat fuel * 1048576.

Lemma total_remove_all ids : total (remove_all ids).
Proof using Type. unfold remove_all. pose proof total_remove. induction ids; cbn; total; auto. Qed.

Lemma verify_total fuel : (bound < fuel)%nat → total (verify env fuel).
Proof using All.
  intros Hf w. unfold verify. apply ends_bind; [apply (total_vault_call VerifyStart)|].
  eapply wp_mono; [apply (tick_spec VerifyStart)|]. cbn. intros r w1 H1 u ->.
  apply ends_catch; [|intros e; pose proof (total_vault_call Cancel); total].
  destruct (w_vault w) as [h|]; [|done]. destruct H1 as [_ [b EL]]. apply ends_bind.
  - apply verify_loop_ends. rewrite EL, steps_snoc. cbn. lia.
  - unfold wp. by destruct (verify_loop _ _ _ _) as [[w2 r2]|].
Qed.

Lemma download_ends fuel w : fits fuel w → ends (download_ env fuel) w.
Proof using All.
  intros HF. unfold download_. apply ends_bind; [apply total_describe|].
  assert (N : wp (describe env) (λ _ w', w_current w' = w_current w ∧ w_sources w' = w_sources w) w).
  { unfold wp, describe, vault_call, the_vault, get, mbind, M_bind, mret, M_ret, invoke.
    destruct (w_vault w); [|done]. by destruct (env _ _). }
  eapply wp_mono; [exact N|]. cbn. intros r w1 [EC ES] p ->. apply ends_bind; [by destruct (d_dirty _)|].
  unfold wp, guard, fail, lift, mret, M_ret. destruct (negb _); [|done]. intros _ _.
  apply ends_bind; [done|]. intros w2 [= <-]. destruct (w_prepared w1); [done|].
  destruct (w_current w1) as [id|] eqn:Ec; [|done]. destruct (find_source (Some id) w1) as [s|] eqn:Es; [|done].
  assert (HS : src_size s ≤ Z.of_nat fuel * 1048576).
  { apply HF. unfold find_source in *. by rewrite <- EC, <- ES. }
  assert (HK : ∀ m : M unit, ends m w1 → ends (m ;; modify (set_prepared (Some (w_nextDownload w1 + 1, src_size s))
    (w_nextDownload w1 + 1)) ;; mret (RDownload (w_nextDownload w1 + 1, src_size s))) w1).
  { intros m Hm. apply ends_bind; [done|]. unfold wp. by destruct (m w1) as [[w3 [u|e]]|]. }
  apply HK. destruct (src_kind s); [done|..]; (apply ends_bind; [apply download_loop_ends; lia|]);
    unfold wp; (destruct (download_loop _ _ _ _ _ _) as [[w3 r3]|]; [|done]); intros u _; apply total_check.
Qed.

Lemma dispatch_ends o fuel w : (bound < fuel)%nat → fits fuel w → ends (dispatch env o fuel) w.
Proof using All.
  intros Hf HF. pose proof total_describe as TD. pose proof total_check as TC. pose proof total_remove as TR.
  pose proof total_remove_if as TRI. pose proof total_vault_call as TV. pose proof total_drop as TDr.
  pose proof (build_total fuel Hf) as TB. pose proof total_on_remote as TO.
  assert (TP : total (start_prefetch env)) by (apply TO; intros; by intros w').
  assert (TL : ∀ x s, total (set_load_prefetch env x s)) by (intros; apply TO; intros; unfold remote_call; total).
  assert (Td : total (described env)) by (unfold described; total).
  assert (TF : ∀ s, total (create_from env s fuel)) by (intros; unfold create_from; total; try apply TV; auto).
  destruct o; try (by apply download_ends); try (by apply verify_total); apply total_ends; cbn [dispatch];
    unfold startLoadAnalysis, originFor, setLoadPrefetch, startBootAnalysis, finishAnalysis, createEmpty, open_file,
      openRemote, remoteArguments, make_current, saveState, prepareState, begin_prefetch, make_candidate, candidateRead,
      discardState, commitState, waitLoadPrefetch, signRelayChallenge, read, write, save, discard, clearCaches, close,
      the_vault, remote_call, when, originFor;
    total; try match goal with |- total (vault_call _ ?m) => exact (TV m) end; try apply TR; try apply TRI; try apply TL; try apply TF; try apply total_remove_all;
    try (apply TO; by intros ? ?).
Qed.

Lemma execute_ends o fuel w : (bound < fuel)%nat → fits fuel w → ends (execute env o fuel) w.
Proof using All.
  intros Hf HF. pose proof (dispatch_ends o fuel w Hf HF) as HD.
  pose proof total_remove as TR. pose proof total_check as TC. pose proof total_describe.
  assert (TP : total (start_prefetch env)) by (apply total_on_remote; intros; by intros w').
  assert (Td : total (described env)) by (unfold described; total).
  unfold execute. apply ends_bind; [done|]. intros w' [= <-]. cbv zeta.
  destruct o; try (destruct (bool_decide _); [done|exact HD]); (destruct (_ && _ && _); [done|]);
    try (destruct (bool_decide _); [done|]; destruct (_ && _); [done|exact HD]); apply total_ends.
  - pose proof (total_vault_call Identity). unfold unlock. total; exact (total_vault_call Identity).
  - unfold openReadOnly. total; apply TR.
  - unfold openRemoteReadOnly, remoteArguments. total; apply TR.
Qed.
End progress.

(** C14: every request ends.  The Vault bounds its own work: after [bound] blocks since the
    header, [next] returns none or throws, and after [bound] steps [verify_step] is
    done.  With fuel beyond the bound, and one unit for each MiB of the source that
    [download] may read, every request in every state returns a result. *)
Theorem requests_end (env : ∀ (past : list (call * bool)) (c : call), result (answer c)) bound o fuel w :
  (∀ past h n, env past (VaultCall h Next) = Ok (Some n) → (nexts past < bound)%nat) →
  (∀ past h, env past (VaultCall h VerifyStep) = Ok false → (steps past < bound)%nat) →
  (bound < fuel)%nat → (∀ s, find_source (w_current w) w = Some s → src_size s ≤ Z.of_nat fuel * 1048576) →
  ∃ w' r, execute env o fuel w = Some (w', r).
Proof.
  intros HN HV Hf HF. pose proof (execute_ends env bound HN HV o fuel w Hf HF) as H. unfold ends in H.
  destruct (execute env o fuel w) as [[w' r]|]; [by eexists _, _|done].
Qed.

(** A Vault with three blocks to encrypt and to hash. *)
Definition three (past : list (call * bool)) (c : call) : result (answer c) :=
  match c return result (answer c) with
  | VaultCall h Next => Ok (if decide (nexts past < 3)%nat then Some 65536 else None)
  | VaultCall h VerifyStep => Ok (bool_decide (3 ≤ steps past)%nat)
  | c => Ok (plain_answer c)
  end.
Lemma requests_end_witness :
  ∃ w' r, execute three (OpCreateEmpty (JNum (NInt 1024))) 4 (set_vault (Some 1) (set_identity true (new_worker true))) =
    Some (w', r) ∧ is_ok r = true.
Proof.
  destruct (requests_end three 3 (OpCreateEmpty (JNum (NInt 1024))) 4
    (set_vault (Some 1) (set_identity true (new_worker true)))) as (w' & r & H).
  - intros past h n. cbn. by case_decide.
  - intros past h. cbn. intros [= E%bool_decide_eq_false]. lia.
  - lia.
  - intros s Hs. discriminate Hs.
  - exists w', r. split; [exact H|]. vm_compute in H. by injection H as <- <-.
Defined.
