(* ===== verification/TorrentPort.v ===== *)
(** * The torrent bridge (src/src/disk/web/torrent-port.js)

    The disk Worker asks the window, where WebRTC lives, for ciphertext.
    [TorrentPort] is the Worker's end: it numbers calls and settles them by the
    window's replies, an abort signal or the closing of the port.  [WindowTorrentPort]
    is the window's: it runs each request against the transport of its session.

    An event is the next callback either side runs.  A transport is a number; what
    its methods return or throw is an argument of the event.  The requests of
    [WindowTorrentPort] are its tasks: each leaves [requests] when it has been answered.
    [createTransport] and the methods called before the first [await] may throw;
    [deferSources] does not. *)
From S2P Require Import Prelude JsValue.
#[local] Open Scope Z_scope.

(** A thrown [Error]: its [code], if that is a string, its name and message. *)
Record thrown := Thrown { th_code : option string; th_name : string; th_message : string }.
Inductive outcome := Value (v : jsval) | Fails (e : thrown).

(** [errorValue(error)], which crosses the port. *)
Definition errorValue (e : thrown) : exn :=
  Exn (Some match th_code e with
            | Some code => code
            | None => if String.eqb (th_name e) "AbortError" then "CANCELLED"%string else "TRANSPORT_ERROR"%string
            end)
      (if String.eqb (th_message e) "" then th_name e else th_message e).
Definition answer (o : outcome) : result jsval :=
  match o with Value v => Ok v | Fails e => Throw (errorValue e) end.
Definition fail (code message : string) : outcome := Fails (Thrown (Some code) "Error" message).

(** Messages to the window and to the Worker. *)
Inductive down :=
| Call (id : Z) (op : string) (args : jsval)
| Abort (id : Z)
| Notify (op : string) (args : jsval).
Inductive up :=
| Reply (id : option Z) (r : result jsval)
| Progress (session : string) (value : jsval).

(** ** The Worker's end *)
Module WorkerPort.

Record port := Port {
  p_pending : list (Z * option Z);       (** with their signals *)
  p_next : Z;
  p_closed : bool;
  p_aborted : list (Z * exn);            (** the aborted signals, with their reasons *)
  p_settled : list (Z * result jsval)
}.
Definition new_port : port := Port [] 0 false [] [].

Definition settle (id : Z) (r : result jsval) (p : port) : port :=
  Port (map_delete id (p_pending p)) (p_next p) (p_closed p) (p_aborted p) (p_settled p ++ [(id, r)]).

Definition CLOSED : exn := Exn (Some "TRANSPORT_ERROR"%string) "Ciphertext bridge is closed".

(** [call(op,args,signal)]; [posting] is what [postMessage] throws.  The result is the
    error the call is rejected with before it has a number. *)
Definition call (op : string) (args : jsval) (signal : option Z) (posting : option exn) (p : port) :
    port * list down * option exn :=
  if p_closed p then (p, [], Some CLOSED)
  else match signal ≫= λ s, map_get s (p_aborted p) with
       | Some reason => (p, [], Some reason)
       | None =>
           let id := p_next p + 1 in
           let p := Port (p_pending p ++ [(id, signal)]) id (p_closed p) (p_aborted p) (p_settled p) in
           match posting with
           | Some e => (settle id (Throw e) p, [], None)
           | None => (p, [Call id op args], None)
           end
       end.

(** The listener of one call, once its signal is aborted. *)
Definition abort (reason : exn) (x : port * list down) (id : Z) : port * list down :=
  (settle id (Throw reason) x.1, x.2 ++ [Abort id]).
Definition listeners (s : Z) (p : port) : list Z :=
  (filter (λ q : Z * option Z, q.2 = Some s) (p_pending p)).*1.
(** [controller.abort(reason)] of the signal [s]: its listeners run in their order. *)
Definition abort_signal (s : Z) (reason : exn) (p : port) : port * list down :=
  match map_get s (p_aborted p) with
  | Some _ => (p, [])
  | None =>
      foldl (abort reason)
        (Port (p_pending p) (p_next p) (p_closed p) (p_aborted p ++ [(s, reason)]) (p_settled p), []) (listeners s p)
  end.

Definition notify (op : string) (args : jsval) (p : port) : list down :=
  if p_closed p then [] else [Notify op args].

Definition close (e : exn) (p : port) : port :=
  Port [] (p_next p) true (p_aborted p) (p_settled p ++ ((λ q : Z * option Z, (q.1, Throw e)) <$> p_pending p)).

(** [onmessage]. *)
Definition onmessage (m : up) (p : port) : port :=
  match m with
  | Reply (Some id) r => match map_get id (p_pending p) with Some _ => settle id r p | None => p end
  | _ => p
  end.

Definition onmessageerror (p : port) : port :=
  close (Exn (Some "TRANSPORT_ERROR"%string) "Invalid ciphertext bridge response") p.

End WorkerPort.

(** ** The window's end *)
Module WindowPort.

Inductive transport_call :=
| TCreate (sources : jsval) | TDefer | TSetSources (sources : jsval)
| TOpen (args : jsval) (cancellable : bool) | TMetadata (infoHash : jsval) | TRead (args : jsval)
| TRecover (args : jsval) | TPrefetchStartup (args : jsval)
| TSetBackground (infoHash enabled : jsval) | TStopPrefetch (infoHash : jsval)
| TPrefetch (infoHash ranges : jsval) | TDescribe (infoHash : jsval) | TClear | TClose | TCancel.
Inductive effect := On (transport : Z) (c : transport_call) | ClearStorage.

(** Where the promise of a request stands. *)
Inductive stage :=
| Done (o : outcome)                     (** settled, the reply is still to be posted *)
| AwaitResult                            (** a method whose result is the reply *)
| AwaitNull                              (** a method whose result is dropped *)
| AwaitOpen (transport : Z) (infoHash : jsval)
| AwaitClosed.                           (** every transport closes, before [clearStorage()] *)

(** A request: its id, its op and arguments, and whether its controller is aborted. *)
Record task := Task { k_id : option Z; k_op : string; k_args : jsval; k_stage : stage; k_aborted : bool }.

Record window := Window {
  v_sessions : gmap string Z;
  v_transports : Z;                      (** the transports created so far *)
  v_tasks : list task;
  v_closed : bool;
  v_calls : list effect
}.
Definition new_window : window := Window ∅ 0 [] false [].

Definition effects (l : list effect) (w : window) : window :=
  Window (v_sessions w) (v_transports w) (v_tasks w) (v_closed w) (v_calls w ++ l).
Definition with_tasks (l : list task) (w : window) : window :=
  Window (v_sessions w) (v_transports w) l (v_closed w) (v_calls w).
Definition with_sessions (m : gmap string Z) (w : window) : window :=
  Window m (v_transports w) (v_tasks w) (v_closed w) (v_calls w).

(** [/^torrent:[0-9]+$/.test(s)]. *)
Definition is_digit (c : Ascii.ascii) : bool :=
  (48 <=? Z.of_nat (Ascii.nat_of_ascii c)) && (Z.of_nat (Ascii.nat_of_ascii c) <=? 57).
Definition session_name (s : string) : bool :=
  String.eqb (String.substring 0 8 s) "torrent:" &&
  (let digits := String.substring 8 (String.length s) s in
   negb (String.eqb digits "") && string_forall is_digit digits).

Definition close_all (w : window) : list effect := (λ p : string * Z, On p.2 TClose) <$> map_to_list (v_sessions w).

(** [execute(op,args,signal)] up to its first [await]; [now] is the outcome of the
    method it calls synchronously. *)
Definition execute (op : string) (args : jsval) (now : outcome) (w : window) : window * stage :=
  let closed (o : outcome) := match o with Value _ => Value JNull | e => e end in
  match (if truthy args then get args "session" else JUndefined) with
  | JStr session =>
      if negb (session_name session) then (w, Done (fail "TRANSPORT_ERROR" "Invalid ciphertext session"))
      else if String.eqb op "clearStorage" then (effects (close_all w) w, AwaitClosed)
      else if String.eqb op "create" then
        match v_sessions w !! session with
        | Some _ => (w, Done (fail "TRANSPORT_ERROR" "Ciphertext session already exists"))
        | None =>
            match now with
            | Fails e => (w, Done (Fails e))
            | Value _ =>
                let n := v_transports w + 1 in
                let w := effects (On n (TCreate (get args "sources")) ::
                                  if truthy (get args "sourcesPending") then [On n TDefer] else []) w in
                (Window (<[session := n]> (v_sessions w)) n (v_tasks w) (v_closed w) (v_calls w), Done (Value JNull))
            end
        end
      else
        match v_sessions w !! session with
        | None => (w, Done (fail "TRANSPORT_ERROR" "Ciphertext session is closed"))
        | Some n =>
            let hash := get args "infoHash" in
            let cancellable := truthy (get args "startup") in
            if String.eqb op "sources" then (effects [On n (TSetSources (get args "sources"))] w, Done (closed now))
            else if String.eqb op "open" then (effects [On n (TOpen args cancellable)] w, AwaitResult)
            else if String.eqb op "metadata" then (effects [On n (TOpen args cancellable)] w, AwaitOpen n hash)
            else if String.eqb op "read" then (effects [On n (TRead args)] w, AwaitResult)
            else if String.eqb op "recover" then (effects [On n (TRecover args)] w, AwaitResult)
            else if String.eqb op "prefetchStartup" then (effects [On n (TPrefetchStartup args)] w, AwaitResult)
            else if String.eqb op "background" then
              (effects [On n (TSetBackground hash (get args "enabled"))] w, Done (closed now))
            else if String.eqb op "stopPrefetch" then (effects [On n (TStopPrefetch hash)] w, AwaitNull)
            else if String.eqb op "prefetch" then
              (effects [On n (TPrefetch hash (get args "ranges"))] w, Done (Value JNull))
            else if String.eqb op "stats" then (effects [On n (TDescribe hash)] w, Done now)
            else if String.eqb op "clear" then (effects [On n TClear] w, AwaitNull)
            else if String.eqb op "close" then
              (effects [On n TClose] (with_sessions (delete session (v_sessions w)) w), AwaitNull)
            else (w, Done (fail "TRANSPORT_ERROR" "Unknown ciphertext bridge operation"))
        end
  | _ => (w, Done (fail "TRANSPORT_ERROR" "Invalid ciphertext session"))
  end.

Definition has_id (id : Z) (k : task) : bool := bool_decide (k_id k = Some id).
Definition cancel_task (k : task) : task := Task (k_id k) (k_op k) (k_args k) (k_stage k) true.

(** [onmessage]. *)
Definition request (id : option Z) (op : string) (args : jsval) (now : outcome) (w : window) : window :=
  let '(w, s) := execute op args now w in with_tasks (v_tasks w ++ [Task id op args s false]) w.
Definition receive (m : down) (now : outcome) (w : window) : window :=
  if v_closed w then w
  else match m with
       | Abort id => with_tasks ((λ k, if has_id id k then cancel_task k else k) <$> v_tasks w) w
       | Notify op args =>
           if String.eqb op "cancel" then
             match get args "session" with
             | JStr session => match v_sessions w !! session with
                               | Some n => effects [On n TCancel] w
                               | None => w
                               end
             | _ => w
             end
           else request None op args now w
       | Call id op args => request (Some id) op args now w
       end.

(** The promise the request awaits settles with [o]; [now] is the outcome of
    [entry(infoHash).metadata.slice()].  A finished request gives its reply. *)
Definition advance (k : task) (o now : outcome) (w : window) : window * (stage + outcome) :=
  match k_stage k with
  | Done r => (w, inr r)
  | AwaitResult => (w, inr o)
  | AwaitNull => (w, inr match o with Value _ => Value JNull | e => e end)
  | AwaitOpen n hash =>
      match o with
      | Fails e => (w, inr (Fails e))
      | Value _ => if k_aborted k then (w, inr (fail "CANCELLED" "Ciphertext operation cancelled"))
                   else (effects [On n (TMetadata hash)] w, inr now)
      end
  | AwaitClosed => (effects [ClearStorage] (with_sessions ∅ w), inl AwaitNull)
  end.

(** The [i]-th request goes on. *)
Definition settle_task (i : nat) (o now : outcome) (w : window) : window * list up * option (task * outcome) :=
  match v_tasks w !! i with
  | Some k =>
      match advance k o now w with
      | (w, inl s) => (with_tasks (<[i := Task (k_id k) (k_op k) (k_args k) s (k_aborted k)]> (v_tasks w)) w, [], None)
      | (w, inr r) =>
          (with_tasks (delete i (v_tasks w)) w, if v_closed w then [] else [Reply (k_id k) (answer r)], Some (k, r))
      end
  | None => (w, [], None)
  end.

(** A transport's progress, and a prefetch that fails. *)
Definition progress (session : string) (value : jsval) (w : window) : list up :=
  if v_closed w then [] else [Progress session value].
Definition prefetch_failed (session : string) (infoHash : jsval) (e : thrown) (w : window) : list up :=
  if bool_decide (th_code e = Some "CANCELLED"%string) then []
  else progress session (JObj [field "infoHash" infoHash;
    field "prefetchError" (JObj [field "code" (JStr (default EmptyString (exn_code (errorValue e))));
                                 field "message" (JStr (exn_message (errorValue e)))])]) w.

(** [close()], and its end once every transport has closed. *)
Definition close_window (w : window) : window :=
  effects (close_all w)
    (Window (v_sessions w) (v_transports w) (cancel_task <$> v_tasks w) true (v_calls w)).
Definition window_closed (w : window) : window := with_sessions ∅ w.

End WindowPort.
