(* ===== verification/TorrentBridge.v ===== *)
(** * The torrent bridge: both ends together

    Two ports connected by queues, and the theorem that a call is answered by its own
    execution in the window. *)
From S2P Require Import Prelude JsValue TorrentPort.
#[local] Open Scope Z_scope.
Import WorkerPort WindowPort.

(** ** The system *)
Record bridge := Bridge {
  b_port : port;
  b_window : window;
  b_down : list down;                          (** posted to the window, oldest first *)
  b_up : list up;
  b_sent : list (Z * (string * jsval));        (** every call that was posted *)
  b_done : list (Z * (string * jsval) * outcome);  (** every request that was answered *)
  b_errors : list exn                          (** the errors given from outside *)
}.
Definition new_bridge : bridge := Bridge new_port new_window [] [] [] [] [].

Inductive event :=
| ECall (op : string) (args : jsval) (signal : option Z) (posting : option exn)
| ESignal (s : Z) (reason : exn)
| ENotify (op : string) (args : jsval)
| ECloseWorker (e : exn)
| EMessageError
| EDown (now : outcome)                        (** the window receives a message *)
| ESettle (i : nat) (o now : outcome)          (** the [i]-th request's promise settles *)
| EUp                                          (** the Worker receives a message *)
| EProgress (session : string) (value : jsval)
| EPrefetchFailed (session : string) (infoHash : jsval) (e : thrown)
| ECloseWindow
| EClosed.

Definition call_of (m : down) : option (Z * (string * jsval)) :=
  match m with Call id op args => Some (id, (op, args)) | _ => None end.
Definition record_done (x : option (task * outcome)) (l : list (Z * (string * jsval) * outcome)) :=
  match x with
  | Some (k, o) => match k_id k with Some id => l ++ [(id, (k_op k, k_args k), o)] | None => l end
  | None => l
  end.

Definition step (e : event) (b : bridge) : bridge :=
  let '(Bridge p w d u sent done errors) := b in
  match e with
  | ECall op args signal posting =>
      let '(p, m, _) := call op args signal posting p in
      Bridge p w (d ++ m) u (sent ++ omap call_of m) done (errors ++ option_list posting)
  | ESignal s reason =>
      let '(p, m) := abort_signal s reason p in Bridge p w (d ++ m) u sent done (errors ++ [reason])
  | ENotify op args => Bridge p w (d ++ notify op args p) u sent done errors
  | ECloseWorker e => Bridge (close e p) w d u sent done (errors ++ [e])
  | EMessageError => let p' := onmessageerror p in
      Bridge p' w d u sent done (errors ++ [Exn (Some "TRANSPORT_ERROR"%string) "Invalid ciphertext bridge response"])
  | EDown now => match d with
                 | [] => b
                 | m :: d => Bridge p (receive m now w) d u sent done errors
                 end
  | ESettle i o now =>
      let '(w, m, x) := settle_task i o now w in Bridge p w d (u ++ m) sent (record_done x done) errors
  | EUp => match u with [] => b | m :: u => Bridge (onmessage m p) w d u sent done errors end
  | EProgress session v => Bridge p w d (u ++ progress session v w) sent done errors
  | EPrefetchFailed session h e => Bridge p w d (u ++ prefetch_failed session h e w) sent done errors
  | ECloseWindow => Bridge p (close_window w) d u sent done errors
  | EClosed => Bridge p (window_closed w) d u sent done errors
  end.
Definition run (l : list event) : bridge := foldl (λ b e, step e b) new_bridge l.

(** ** The calls in flight *)
Definition task_call (k : task) : option (Z * (string * jsval)) :=
  match k_id k with Some id => Some (id, (k_op k, k_args k)) | None => None end.
Definition reply_of (m : up) : option (Z * result jsval) :=
  match m with Reply (Some id) r => Some (id, r) | _ => None end.
Definition down_calls (d : list down) := omap call_of d.
Definition task_calls (l : list task) := omap task_call l.
Definition replies (u : list up) := omap reply_of u.

(** Every call, where it is: sent, running or answered. *)
Definition known (d : list down) (l : list task) (done : list (Z * (string * jsval) * outcome)) :
    list (Z * (string * jsval)) :=
  down_calls d ++ task_calls l ++ done.*1.

Record worker_ok (p : port) : Prop := {
  wo_nodup : NoDup ((p_pending p).*1 ++ (p_settled p).*1);
  wo_all : ∀ id, 1 ≤ id ≤ p_next p ↔ id ∈ (p_pending p).*1 ++ (p_settled p).*1;
  wo_next : 0 ≤ p_next p;
  wo_closed : p_closed p = true → p_pending p = []
}.

(** The sent calls and the calls known on the way are the same kind of thing. *)
Record transit_ok (next : Z) (d : list down) (l : list task) (u : list up)
    (sent : list (Z * (string * jsval))) (done : list (Z * (string * jsval) * outcome)) : Prop := {
  to_nodup : NoDup (known d l done).*1;
  to_sent : ∀ x, x ∈ known d l done → x ∈ sent;
  to_next : ∀ x, x ∈ sent → 1 ≤ x.1 ≤ next;
  to_sent_nodup : NoDup sent.*1;
  to_up : ∀ id r, (id, r) ∈ replies u → ∃ c o, (id, c, o) ∈ done ∧ r = answer o
}.

(** Who settled a call: its execution or an error from outside. *)
Definition justified (done : list (Z * (string * jsval) * outcome)) (errors : list exn) (x : Z * result jsval) : Prop :=
  (∃ c o, (x.1, c, o) ∈ done ∧ x.2 = answer o) ∨ (∃ e, x.2 = Throw e ∧ e ∈ errors).

Definition awaited (d : list down) (l : list task) (u : list up) : list Z :=
  (down_calls d).*1 ++ (task_calls l).*1 ++ (replies u).*1.

Record bridge_ok (b : bridge) : Prop := {
  bo_worker : worker_ok (b_port b);
  bo_transit : transit_ok (p_next (b_port b)) (b_down b) (v_tasks (b_window b)) (b_up b) (b_sent b) (b_done b);
  bo_aborted : ∀ x, x ∈ p_aborted (b_port b) → x.2 ∈ b_errors b;
  bo_settled : ∀ x, x ∈ p_settled (b_port b) → justified (b_done b) (b_errors b) x;
  bo_live : v_closed (b_window b) = false →
    ∀ id, id ∈ (p_pending (b_port b)).*1 → id ∈ awaited (b_down b) (v_tasks (b_window b)) (b_up b)
}.

(** ** The Worker's port *)
Lemma map_delete_keys_perm {V} k (m : list (Z * V)) :
  k ∈ m.*1 → NoDup m.*1 → m.*1 ≡ₚ k :: (map_delete k m).*1.
Proof.
  induction m as [|[i s] m IH]; cbn; [by intros ?%elem_of_nil|].
  intros Hk [Hi Hm]%NoDup_cons. unfold map_delete. cbn [List.filter fst]. fold (map_delete k m).
  destruct (i =? k) eqn:E; cbn [negb].
  - apply Z.eqb_eq in E as ->. f_equiv. rewrite map_delete_absent; [done|]. by apply map_get_None.
  - apply Z.eqb_neq in E. cbn. rewrite Permutation_swap. f_equiv. apply IH; [set_solver|done].
Qed.

Lemma worker_settle id r p :
  id ∈ (p_pending p).*1 → worker_ok p → worker_ok (settle id r p).
Proof.
  intros Hid [HN HA H0 HC]. assert (HP : (map_delete id (p_pending p)).*1 ++ (p_settled p ++ [(id, r)]).*1 ≡ₚ
    (p_pending p).*1 ++ (p_settled p).*1).
  { apply NoDup_app in HN as (HN1 & _ & _). rewrite (map_delete_keys_perm _ _ Hid HN1), fmap_app. cbn.
    rewrite app_assoc. by rewrite Permutation_app_comm. }
  split; cbn.
  - by rewrite HP.
  - intros i. rewrite HP. apply HA.
  - done.
  - intros E. rewrite HC in Hid by done. by apply elem_of_nil in Hid.
Qed.

Lemma worker_call op args signal posting p :
  worker_ok p → worker_ok (call op args signal posting p).1.1.
Proof.
  intros H. unfold call. destruct (p_closed p) eqn:EC; [done|]. destruct (signal ≫= _); [done|].
  pose proof H as [HN HA H0 HC].
  assert (HW : worker_ok (Port (p_pending p ++ [(p_next p + 1, signal)]) (p_next p + 1) (p_closed p) (p_aborted p) (p_settled p))).
  { assert (HP : (p_pending p ++ [(p_next p + 1, signal)]).*1 ++ (p_settled p).*1 ≡ₚ
      (p_next p + 1) :: (p_pending p).*1 ++ (p_settled p).*1).
    { rewrite fmap_app. cbn. rewrite <- app_assoc. cbn. by rewrite Permutation_middle. }
    split; cbn; [|intros id|lia|congruence].
    - rewrite HP. constructor; [|done]. rewrite <- HA. lia.
    - rewrite HP, elem_of_cons, <- HA. lia. }
  rewrite <- EC. destruct posting as [e|]; [|exact HW]. apply worker_settle; [|exact HW].
  cbn. rewrite fmap_app. set_solver.
Qed.

Lemma worker_close e p : worker_ok p → worker_ok (close e p).
Proof.
  intros [HN HA H0 HC]. split; cbn; rewrite ?fmap_app, <- ?list_fmap_compose.
  - rewrite Permutation_app_comm. exact HN.
  - intros id. rewrite HA, !elem_of_app. split; intros [?|?]; by (left + right).
  - done.
  - done.
Qed.

Lemma worker_message m p : worker_ok p → worker_ok (onmessage m p).
Proof.
  intros H. destruct m as [[id|] r|]; cbn; try done. destruct (map_get id (p_pending p)) eqn:E; [|done].
  apply worker_settle; [|done]. apply map_get_elem in E. by apply (list_elem_of_fmap_2 fst _ _ E).
Qed.

(** The listeners of a signal settle the pending calls it was given to. *)
Lemma abort_fold reason ids p m :
  NoDup ids → (∀ id, id ∈ ids → id ∈ (p_pending p).*1) → worker_ok p →
  let x := foldl (abort reason) (p, m) ids in
  worker_ok x.1 ∧ p_next x.1 = p_next p ∧ p_aborted x.1 = p_aborted p ∧ x.2 = m ++ (Abort <$> ids) ∧
  p_settled x.1 = p_settled p ++ ((λ id, (id, Throw reason)) <$> ids) ∧
  (∀ id, id ∈ (p_pending x.1).*1 → id ∈ (p_pending p).*1).
Proof.
  revert p m. induction ids as [|id ids IH]; intros p m HN Hin HW; cbn zeta.
  { cbn. split_and!; try done; by rewrite app_nil_r. }
  apply NoDup_cons in HN as [Hid HN]. cbn [foldl].
  change (abort reason (p, m) id) with (settle id (Throw reason) p, m ++ [Abort id]).
  assert (HD : ∀ i, i ∈ (map_delete id (p_pending p)).*1 ↔ i ∈ (p_pending p).*1 ∧ i ≠ id).
  { intros i. assert (HP := Hin id ltac:(set_solver)). destruct HW as [HNp _ _ _]. apply NoDup_app in HNp as (HNp & _ & _).
    rewrite (map_delete_keys_perm _ _ HP HNp). pose proof (map_delete_get id (p_pending p)). set_solver. }
  destruct (IH (settle id (Throw reason) p) (m ++ [Abort id]) HN) as (H1 & H2 & H3 & H4 & H5 & H6).
  - intros i Hi. cbn. apply HD. split; [apply Hin; set_solver|]. by intros ->.
  - apply worker_settle; [apply Hin; set_solver|done].
  - split_and!; try done.
    + rewrite H4. cbn. by rewrite <- app_assoc.
    + rewrite H5. cbn. by rewrite <- app_assoc.
    + intros i Hi%H6. cbn in Hi. by apply HD in Hi as [? _].
Qed.

Lemma listeners_pending s p : (∀ id, id ∈ listeners s p → id ∈ (p_pending p).*1).
Proof.
  intros id. unfold listeners. rewrite !list_elem_of_fmap. intros (q & -> & [_ Hq]%list_elem_of_filter). by exists q.
Qed.
Lemma listeners_nodup s p : worker_ok p → NoDup (listeners s p).
Proof.
  intros [HN _ _ _]. apply NoDup_app in HN as (HN & _ & _). unfold listeners.
  apply (sublist_NoDup _ _ HN), fmap_sublist, sublist_filter.
Qed.

(** ** The messages on the way *)
Lemma known_app d d' l done : known (d ++ d') l done ≡ₚ down_calls d' ++ known d l done.
Proof. unfold known, down_calls. rewrite omap_app, <- app_assoc. by rewrite Permutation_app_swap_app. Qed.

(** Messages that carry no call, and replies that are none, change nothing. *)
Lemma transit_silent next d d' l u u' sent done :
  transit_ok next d l u sent done → down_calls d' = [] → replies u' = [] →
  transit_ok next (d ++ d') l (u ++ u') sent done.
Proof.
  intros [H1 H2 H3 H4 H5] Ed Eu.
  assert (E : known (d ++ d') l done = known d l done) by (unfold known, down_calls in *; by rewrite omap_app, Ed, app_nil_r).
  assert (E' : replies (u ++ u') = replies u) by (unfold replies in *; by rewrite omap_app, Eu, app_nil_r).
  split; rewrite ?E, ?E'; done.
Qed.

(** Calls may be lost on the way, and change place. *)
Lemma transit_move next d l u sent done d' l' u' done' extra :
  transit_ok next d l u sent done → known d l done ≡ₚ extra ++ known d' l' done' →
  (∀ id r, (id, r) ∈ replies u' → ∃ c o, (id, c, o) ∈ done' ∧ r = answer o) →
  transit_ok next d' l' u' sent done'.
Proof.
  intros [H1 H2 H3 H4 H5] HP HU. split; try done.
  - rewrite HP, fmap_app in H1. by apply NoDup_app in H1 as (_ & _ & ?).
  - intros x Hx. apply H2. rewrite HP. set_solver.
Qed.

Lemma transit_sent next d l u sent done op args :
  0 ≤ next → transit_ok next d l u sent done →
  transit_ok (next + 1) (d ++ [Call (next + 1) op args]) l u (sent ++ [(next + 1, (op, args))]) done.
Proof.
  intros H0 [H1 H2 H3 H4 H5]. assert (HF : next + 1 ∉ sent.*1).
  { intros ([id c] & E & Hin%H3)%list_elem_of_fmap. cbn in *. lia. }
  pose proof (known_app d [Call (next + 1) op args] l done) as HP. split; try done.
  - rewrite HP. cbn. constructor; [|done]. intros (x & E & Hx%H2)%list_elem_of_fmap. apply HF.
    rewrite E. by apply list_elem_of_fmap_2.
  - intros x. rewrite HP. cbn. intros [->|Hx%H2]%elem_of_cons; set_solver.
  - intros x [Hx%H3|Hx]%elem_of_app; [lia|]. apply list_elem_of_singleton in Hx as ->. cbn.
    lia.
  - rewrite fmap_app. apply NoDup_app. split_and!; [done| |apply NoDup_singleton].
    intros i Hi. cbn. rewrite list_elem_of_singleton. intros ->. by apply HF.
Qed.

Lemma transit_next next next' d l u sent done :
  next ≤ next' → transit_ok next d l u sent done → transit_ok next' d l u sent done.
Proof. intros H [H1 H2 H3 H4 H5]. split; try done. intros x Hx%H3. lia. Qed.

(** ** The window's port *)
Lemma execute_frame op args now w :
  v_tasks (execute op args now w).1 = v_tasks w ∧ v_closed (execute op args now w).1 = v_closed w.
Proof.
  unfold execute. destruct (if truthy args then _ else _); try done.
  repeat match goal with |- context [if ?b then _ else _] => destruct b; [done|] end.
  destruct (String.eqb op "create").
  - destruct (v_sessions w !! s); [done|]. by destruct now.
  - destruct (v_sessions w !! s); [|done]. by repeat (match goal with |- context [if ?b then _ else _] => destruct b end).
Qed.

Lemma window_message m now w :
  v_closed w = false →
  v_closed (receive m now w) = false ∧
  task_calls (v_tasks (receive m now w)) = task_calls (v_tasks w) ++ option_list (call_of m).
Proof.
  intros EC. unfold receive. rewrite EC.
  assert (HR : ∀ id op args, v_closed (request id op args now w) = false ∧
    task_calls (v_tasks (request id op args now w)) =
    task_calls (v_tasks w) ++ match id with Some id => [(id, (op, args))] | None => [] end).
  { intros id op args. unfold request. pose proof (execute_frame op args now w) as [E1 E2].
    destruct (execute op args now w) as [w' st]. cbn in *. rewrite E1, E2. split; [done|].
    unfold task_calls. rewrite omap_app. f_equal. cbn. unfold task_call. cbn. by destruct id. }
  destruct m as [id op args|id|op args]; cbn [call_of option_list].
  - apply HR.
  - rewrite app_nil_r. cbn. split; [done|]. unfold task_calls. clear HR. induction (v_tasks w) as [|k l IH]; [done|].
    cbn. rewrite IH. unfold has_id. by case_bool_decide.
  - destruct (String.eqb op "cancel"); [|apply (HR None)]. rewrite app_nil_r.
    destruct (get args "session"); try done. destruct (v_sessions w !! s); done.
Qed.

Lemma omap_insert_same {A B} (f : A → option B) (l : list A) i x y :
  l !! i = Some x → f y = f x → omap f (<[i:=y]> l) = omap f l.
Proof.
  intros Hi Hf. rewrite <- (take_drop_middle l i x Hi) at 2. rewrite insert_take_drop by (by eapply lookup_lt_Some).
  rewrite !omap_app. cbn. by rewrite Hf.
Qed.

Lemma settle_spec i o now w :
  match settle_task i o now w with
  | (w', m, None) => v_closed w' = v_closed w ∧ task_calls (v_tasks w') = task_calls (v_tasks w) ∧ m = []
  | (w', m, Some (k, r)) =>
      v_closed w' = v_closed w ∧
      task_calls (v_tasks w) ≡ₚ option_list (task_call k) ++ task_calls (v_tasks w') ∧
      m = if v_closed w then [] else [Reply (k_id k) (answer r)]
  end.
Proof.
  unfold settle_task. destruct (v_tasks w !! i) as [k|] eqn:Ei; [|done].
  assert (HA : let w' := (advance k o now w).1 in v_tasks w' = v_tasks w ∧ v_closed w' = v_closed w).
  { unfold advance. destruct (k_stage k); try done. destruct o; [|done]. by destruct (k_aborted k). }
  destruct HA as (E1 & E2).
  destruct (advance k o now w) as [w' [s|r]]; cbn [fst] in E1, E2; cbn [with_tasks v_tasks v_closed]; rewrite ?E1, ?E2.
  - split_and!; [done| |done]. unfold task_calls. by eapply omap_insert_same.
  - split_and!; [done| |done]. apply delete_Permutation in Ei as HP. unfold task_calls.
    rewrite HP at 1. cbn. by destruct (task_call k).
Qed.

(** ** Every step *)
#[local] Arguments awaited : simpl never.
#[local] Arguments replies : simpl never.
#[local] Arguments down_calls : simpl never.
#[local] Arguments task_calls : simpl never.
#[local] Arguments known : simpl never.

Lemma elem_of_replies id r u : (id, r) ∈ replies u → Reply (Some id) r ∈ u.
Proof.
  unfold replies. rewrite list_elem_of_omap. intros (m & Hm & E). destruct m as [[i|] r'|]; try discriminate.
  cbn in E. by injection E as -> ->.
Qed.

Lemma justified_mono done done' errors errors' x :
  (∀ y, y ∈ done → y ∈ done') → (∀ e, e ∈ errors → e ∈ errors') → justified done errors x → justified done' errors' x.
Proof. intros HD HE [(c & o & H & E)|(e & E & H)]; [left; exists c, o|right; exists e]; auto. Qed.

Lemma awaited_app d d' l u u' id : id ∈ awaited d l u → id ∈ awaited (d ++ d') l (u ++ u').
Proof. unfold awaited, down_calls, replies. rewrite !omap_app, !fmap_app. set_solver. Qed.

Lemma down_calls_abort ids : down_calls (Abort <$> ids) = [].
Proof. unfold down_calls. by induction ids. Qed.

Lemma ok_errors p w d u sent done errors errors' :
  bridge_ok (Bridge p w d u sent done errors) → bridge_ok (Bridge p w d u sent done (errors ++ errors')).
Proof.
  intros [HW HT HA HS HL]. split; cbn in *; try done; intros x Hx.
  - apply elem_of_app. left. by apply HA.
  - eapply justified_mono; [..|by apply HS]; set_solver.
Qed.

Lemma step_call op args signal posting b : bridge_ok b → bridge_ok (step (ECall op args signal posting) b).
Proof.
  intros HB. pose proof HB as [HW HT HA HS HL]. destruct b as [p w d u sent done errors]. cbn in *.
  pose proof (worker_call op args signal posting p HW) as HW'. unfold call in *.
  destruct (p_closed p) eqn:EC.
  { cbn in *. rewrite !app_nil_r. by apply ok_errors. }
  destruct (signal ≫= _).
  { cbn in *. rewrite !app_nil_r. by apply ok_errors. }
  destruct posting as [e|]; cbn in *.
  - rewrite !app_nil_r. split; cbn; [done| | | |].
    + eapply transit_next; [|exact HT]. lia.
    + intros x Hx. set_solver.
    + intros x [Hx|Hx]%elem_of_app; [eapply justified_mono; [..|by apply HS]; set_solver|].
      apply list_elem_of_singleton in Hx as ->. right. exists e. cbn. split; [done|]. set_solver.
    + intros Hv id Hid. apply HL; [done|]. revert Hid. rewrite !list_elem_of_fmap.
      intros ([i s] & -> & [Hin Hne]%elem_of_map_delete). apply elem_of_app in Hin as [Hin|Hin]; [by exists (i, s)|].
      apply list_elem_of_singleton in Hin. injection Hin as -> ->. done.
  - rewrite !app_nil_r. split; cbn; [done| |done|done|].
    + destruct HW. by apply transit_sent.
    + intros Hv id. rewrite fmap_app, elem_of_app. intros [Hid|Hid].
      * rewrite <- (app_nil_r u). apply awaited_app. by apply HL.
      * unfold awaited, down_calls. rewrite omap_app, fmap_app. set_solver.
Qed.

Lemma step_signal s reason b : bridge_ok b → bridge_ok (step (ESignal s reason) b).
Proof.
  intros HB. pose proof HB as [HW HT HA HS HL]. destruct b as [p w d u sent done errors]. cbn in *. unfold abort_signal.
  destruct (map_get s (p_aborted p)).
  { rewrite app_nil_r. by apply ok_errors. }
  set (p1 := Port _ _ _ _ _). assert (HW1 : worker_ok p1) by (destruct HW; by split).
  destruct (abort_fold reason (listeners s p) p1 [] (listeners_nodup s p HW) (listeners_pending s p) HW1)
    as (H1 & H2 & H3 & H4 & H5 & H6).
  destruct (foldl _ _ _) as [p2 m]. cbn in *. subst m.
  pose proof (down_calls_abort (listeners s p)) as Ed.
  split; cbn; [done| | | |].
  - rewrite H2. rewrite <- (app_nil_r u). by apply transit_silent.
  - intros x. rewrite H3. intros [Hx%HA|Hx]%elem_of_app; [set_solver|]. apply list_elem_of_singleton in Hx as ->. set_solver.
  - intros x. rewrite H5. intros [Hx|Hx]%elem_of_app; [eapply justified_mono; [..|by apply HS]; set_solver|].
    apply list_elem_of_fmap in Hx as (i & -> & _). right. exists reason. split; [done|]. set_solver.
  - intros Hv id Hid. rewrite <- (app_nil_r u). apply awaited_app, HL; [done|by apply H6].
Qed.

Lemma step_closed_worker e b :
  bridge_ok b → bridge_ok (Bridge (close e (b_port b)) (b_window b) (b_down b) (b_up b) (b_sent b) (b_done b)
    (b_errors b ++ [e])).
Proof.
  intros [HW HT HA HS HL]. split; cbn; [by apply worker_close|done|set_solver| |by intros _ id ?%elem_of_nil].
  intros x [Hx|Hx]%elem_of_app; [eapply justified_mono; [..|by apply HS]; set_solver|].
  apply list_elem_of_fmap in Hx as (q & -> & _). right. exists e. split; [done|]. set_solver.
Qed.

Lemma step_down now b : bridge_ok b → bridge_ok (step (EDown now) b).
Proof.
  intros H. destruct b as [p w [|m d] u sent done errors]; [exact H|]. destruct H as [HW HT HA HS HL]. cbn in *.
  destruct (v_closed w) eqn:EC.
  - assert (E : receive m now w = w) by (unfold receive; by rewrite EC). rewrite E.
    split; cbn; try done; [|by rewrite EC].
    eapply (transit_move _ _ _ _ _ _ _ _ _ _ (option_list (call_of m))); [exact HT| |apply HT].
    unfold known, down_calls. cbn. by destruct (call_of m).
  - destruct (window_message m now w EC) as [E1 E2]. split; cbn; try done.
    + eapply (transit_move _ _ _ _ _ _ _ _ _ _ []); [exact HT| |apply HT]. unfold known. rewrite E2. cbn.
      unfold down_calls. cbn. destruct (call_of m); cbn; [|by rewrite app_nil_r]. rewrite <- app_assoc. cbn.
      by rewrite !Permutation_middle.
    + intros _ id Hid. specialize (HL eq_refl id Hid). revert HL. unfold awaited. rewrite E2. cbn.
      unfold down_calls. cbn. destruct (call_of m) as [[i c]|]; cbn; rewrite ?app_nil_r, ?fmap_app; set_solver.
Qed.

Lemma step_settle i o now b : bridge_ok b → bridge_ok (step (ESettle i o now) b).
Proof.
  intros [HW HT HA HS HL]. destruct b as [p w d u sent done errors]. cbn in *.
  pose proof (settle_spec i o now w) as HP. destruct (settle_task i o now w) as [[w' m] [[k r]|]].
  - destruct HP as (EC & HK & ->). unfold task_call in HK. cbn [record_done].
    destruct (k_id k) as [id|] eqn:Ek; cbn in HK.
    + assert (HU : ∀ i r0, (i, r0) ∈ replies (u ++ (if v_closed w then [] else [Reply (Some id) (answer r)])) →
        ∃ c o, (i, c, o) ∈ done ++ [(id, (k_op k, k_args k), r)] ∧ r0 = answer o).
      { intros j r0. unfold replies. rewrite omap_app, elem_of_app. intros [Hj|Hj].
        - destruct (to_up _ _ _ _ _ _ HT j r0 Hj) as (c & o' & Hin & ->). exists c, o'. set_solver.
        - destruct (v_closed w); cbn in Hj; [by apply elem_of_nil in Hj|]. apply list_elem_of_singleton in Hj.
          injection Hj as -> ->. exists (k_op k, k_args k), r. set_solver. }
      split; cbn; [done| |done| |].
      * eapply (transit_move _ _ _ _ _ _ _ _ _ _ []); [exact HT| |exact HU]. unfold known. rewrite HK, fmap_app. cbn.
        solve_Permutation.
      * intros x Hx. eapply justified_mono; [..|by apply HS]; set_solver.
      * rewrite EC. intros Hv j Hj. specialize (HL Hv j Hj). revert HL. unfold awaited, replies.
        rewrite Hv, omap_app, fmap_app. cbn. rewrite !elem_of_app, HK. cbn. set_solver.
    + assert (E : replies (u ++ (if v_closed w then [] else [Reply None (answer r)])) = replies u).
      { unfold replies. rewrite omap_app. destruct (v_closed w); cbn; by rewrite app_nil_r. }
      split; cbn; [done| |done|done|].
      * eapply (transit_move _ _ _ _ _ _ _ _ _ _ []); [exact HT| |rewrite E; apply HT]. unfold known. by rewrite HK.
      * rewrite EC. intros Hv j Hj. specialize (HL Hv j Hj). revert HL. unfold awaited. rewrite E.
        rewrite !elem_of_app, HK. done.
  - destruct HP as (EC & HK & ->). cbn. rewrite app_nil_r. split; cbn; try done.
    + eapply (transit_move _ _ _ _ _ _ _ _ _ _ []); [exact HT| |apply HT]. unfold known. by rewrite HK.
    + rewrite EC. unfold awaited. by rewrite HK.
Qed.

Lemma step_up b : bridge_ok b → bridge_ok (step EUp b).
Proof.
  intros H. destruct b as [p w d [|m u] sent done errors]; [exact H|]. destruct H as [HW HT HA HS HL]. cbn in *.
  assert (HT' : transit_ok (p_next p) d (v_tasks w) u sent done).
  { eapply (transit_move _ _ _ _ _ _ _ _ _ _ []); [exact HT|done|]. intros i r Hi. apply (to_up _ _ _ _ _ _ HT).
    unfold replies in *. cbn. destruct (reply_of m); set_solver. }
  assert (HL' : ∀ q, (∀ i, i ∈ (p_pending q).*1 → i ∈ (p_pending p).*1 ∧ ∀ r, m ≠ Reply (Some i) r) →
    v_closed w = false → ∀ i, i ∈ (p_pending q).*1 → i ∈ awaited d (v_tasks w) u).
  { intros q Hq Hv i [Hi Hne]%Hq. specialize (HL Hv i Hi). revert HL. unfold awaited, replies. cbn.
    destruct m as [[j|] r|]; cbn; try done. assert (i ≠ j) by (intros ->; by apply (Hne r)). set_solver. }
  pose proof (worker_message m p HW) as HW'.
  destruct m as [[id|] r|]; cbn in *; [|split; cbn; try done; by apply HL'..].
  destruct (map_get id (p_pending p)) as [s|] eqn:E.
  - split; cbn; try done.
    + intros x [Hx|Hx]%elem_of_app; [by apply HS|]. apply list_elem_of_singleton in Hx as ->. left.
      apply (to_up _ _ _ _ _ _ HT). unfold replies. cbn. set_solver.
    + apply (HL' (settle id r p)). cbn. intros i. rewrite !list_elem_of_fmap.
      intros ([j t] & -> & [Hin Hne]%elem_of_map_delete). cbn in *. split; [by exists (j, t)|]. congruence.
  - split; cbn; try done. apply (HL' p). intros i Hi. split; [done|]. intros r' [= <- _].
    by apply map_get_None in E.
Qed.

Lemma step_silent p w d u sent done errors d' u' :
  bridge_ok (Bridge p w d u sent done errors) → down_calls d' = [] → replies u' = [] →
  bridge_ok (Bridge p w (d ++ d') (u ++ u') sent done errors).
Proof.
  intros [HW HT HA HS HL] Ed Eu. split; cbn in *; try done.
  - by apply transit_silent.
  - intros Hv id Hid. by apply awaited_app, HL.
Qed.

Lemma task_calls_cancel l : task_calls (cancel_task <$> l) = task_calls l.
Proof. unfold task_calls. induction l as [|k l IH]; [done|]. cbn. by rewrite IH. Qed.

Lemma progress_silent session v w : replies (progress session v w) = [].
Proof. unfold progress. by destruct (v_closed w). Qed.

Lemma bridge_step_ok e b : bridge_ok b → bridge_ok (step e b).
Proof.
  intros H. destruct e.
  - by apply step_call.
  - by apply step_signal.
  - destruct b as [p w d u sent done errors]. cbn. rewrite <- (app_nil_r u). apply step_silent; [done| |done].
    unfold notify. by destruct (p_closed p).
  - destruct b. by apply (step_closed_worker e) in H.
  - destruct b. by apply (step_closed_worker (Exn (Some "TRANSPORT_ERROR"%string) "Invalid ciphertext bridge response")) in H.
  - by apply step_down.
  - by apply step_settle.
  - by apply step_up.
  - destruct b as [p w d u sent done errors]. cbn. rewrite <- (app_nil_r d). apply step_silent; [done|done|].
    apply progress_silent.
  - destruct b as [p w d u sent done errors]. cbn. rewrite <- (app_nil_r d). apply step_silent; [done|done|].
    unfold prefetch_failed. case_bool_decide; [done|apply progress_silent].
  - destruct b as [p w d u sent done errors]. destruct H as [HW HT HA HS HL]. cbn in *.
    assert (E : task_calls (cancel_task <$> v_tasks w) = task_calls (v_tasks w)).
    { apply task_calls_cancel. }
    split; cbn; try done. eapply (transit_move _ _ _ _ _ _ _ _ _ _ []); [exact HT| |apply HT]. unfold known. by rewrite E.
  - destruct b as [p w d u sent done errors]. by destruct H as [HW HT HA HS HL]; split.
Qed.

Lemma bridge_run_ok l : bridge_ok (run l).
Proof.
  unfold run. assert (H : bridge_ok new_bridge).
  { split.
    - split; cbn; [constructor|intros id; split; [lia|by intros ?%elem_of_nil]|done|done].
    - split; cbn; [constructor|by intros ? ?%elem_of_nil|by intros ? ?%elem_of_nil|constructor|by intros ? ? ?%elem_of_nil].
    - cbn. by intros ? ?%elem_of_nil.
    - cbn. by intros ? ?%elem_of_nil.
    - cbn. by intros _ ? ?%elem_of_nil. }
  revert H. generalize new_bridge. induction l as [|e l IH]; intros b H; [exact H|]. cbn. by apply IH, bridge_step_ok.
Qed.

(** C25: the bridge is a faithful remote call.  However calls, aborts, replies, failures
    and closings interleave: the window answers a call at most once; a call that
    resolves got the value its own execution in the window produced, for the
    operation and the arguments it was made with, and one that is rejected got the
    error of its own execution or an abort, posting or closing error; every numbered
    call is either pending or settled, and settled once; a closed port leaves none
    pending; and while the window is open, a pending call's request or reply is
    still on its way. *)
Theorem bridge_faithful (l : list event) :
  let b := run l in let p := b_port b in
  NoDup (p_settled p).*1 ∧ NoDup (b_sent b).*1 ∧ NoDup (b_done b).*1.*1 ∧
  (∀ id v, (id, Ok v) ∈ p_settled p → ∃ c, (id, c) ∈ b_sent b ∧ (id, c, Value v) ∈ b_done b) ∧
  (∀ id e, (id, Throw e) ∈ p_settled p →
     e ∈ b_errors b ∨ ∃ c t, (id, c) ∈ b_sent b ∧ (id, c, Fails t) ∈ b_done b ∧ e = errorValue t) ∧
  (∀ id, 1 ≤ id ≤ p_next p → (id ∈ (p_pending p).*1 ∧ id ∉ (p_settled p).*1) ∨ (id ∉ (p_pending p).*1 ∧ id ∈ (p_settled p).*1)) ∧
  (p_closed p = true → p_pending p = []) ∧
  (v_closed (b_window b) = false → b_down b = [] → v_tasks (b_window b) = [] → b_up b = [] → p_pending p = []).
Proof.
  cbn zeta. destruct (bridge_run_ok l) as [[HN HA H0 HC] HT Hab HS HL]. generalize dependent (run l). intros b HN HA H0 HC HT _ HS HL.
  apply NoDup_app in HN as (HN1 & HN2 & HN3).
  assert (HD : ∀ id c o, (id, c, o) ∈ b_done b → (id, c) ∈ b_sent b).
  { intros id c o Hin. apply (to_sent _ _ _ _ _ _ HT). unfold known. rewrite !elem_of_app. right. right.
    by apply (list_elem_of_fmap_2 fst _ (id, c, o)). }
  split_and!; [done|apply HT| | | | |done|].
  - pose proof (to_nodup _ _ _ _ _ _ HT) as HK. unfold known in HK. rewrite !fmap_app in HK.
    apply NoDup_app in HK as (_ & _ & HK). by apply NoDup_app in HK as (_ & _ & ?).
  - intros id v Hin. destruct (HS _ Hin) as [(c & o & Ho & E)|(e & E & _)]; [|discriminate E]. cbn in *.
    destruct o as [v'|t]; [|discriminate E]. injection E as <-. exists c. split; [by eapply HD|done].
  - intros id e Hin. destruct (HS _ Hin) as [(c & o & Ho & E)|(e' & E & He)]; cbn in *.
    + destruct o as [v'|t]; [discriminate E|]. injection E as ->. right. exists c, t. split_and!; [by eapply HD|done|done].
    + injection E as ->. by left.
  - intros id Hid. apply HA, elem_of_app in Hid as [Hid|Hid]; [left|right].
    + split; [done|by apply HN2].
    + split; [|done]. intros Hp. by apply (HN2 _ Hp).
  - intros Hv Ed Et Eu. specialize (HL Hv). unfold awaited in HL. rewrite Ed, Et, Eu in HL. cbn in HL.
    destruct (p_pending (b_port b)) as [|q l']; [done|]. exfalso.
    apply (not_elem_of_nil q.1), (HL q.1). set_solver.
Qed.

(** Two calls of a session that exists, one of which is aborted. *)
Definition session_args : jsval := JObj [field "session" (JStr "torrent:1")].
Example bridge_example :
  let b := run [ECall "create" session_args None None; ECall "read" session_args (Some 1) None;
                ECall "stats" session_args None None; EDown (Value JUndefined); EDown (Value JUndefined);
                ESignal 1 (Exn (Some "CANCELLED"%string) "stop"); EDown (Value (JStr "state"));
                ESettle 0 (Value JUndefined) (Value JUndefined); ESettle 0 (Value (JStr "bytes")) (Value JUndefined);
                ESettle 0 (Value JUndefined) (Value JUndefined); EUp; EUp; EUp] in
  p_settled (b_port b) = [(2, Throw (Exn (Some "CANCELLED"%string) "stop")); (1, Ok JNull); (3, Ok (JStr "state"))] ∧
  p_pending (b_port b) = [] ∧ (b_done b).*1.*1 = [1; 2; 3].
Proof. vm_compute. by split_and!. Qed.
