(* ===== verification/DriveImages.v ===== *)
(** * Images for the drives (src/src/browser/win98.js: readDisk)

    A file that the user chooses becomes the disk of a floppy or CD drive.  Its size has to
    suit the drive; of a CD image, a partial last sector is cut off when the image holds
    a complete ISO9660 volume without it.  Large CD images are read lazily. *)
From S2P Require Import Prelude.
#[local] Open Scope Z_scope.

Inductive drive := cdrom | fda | fdb.
#[export] Instance drive_eq_dec : EqDecision drive.
Proof. solve_decision. Defined.
(** [buffer] read into memory, or the file itself with [async]. *)
Inductive image := Whole (buffer : bytes) | Lazy (file : bytes).

(** [view.getUint32(offset,littleEndian)] and [getUint16]. *)
Definition getUint32 (header : bytes) (offset : Z) (little : bool) : Z :=
  let l := slice header offset (offset + 4) in le_value (if little then l else rev l).
Definition getUint16 (header : bytes) (offset : Z) (little : bool) : Z :=
  let l := slice header offset (offset + 2) in le_value (if little then l else rev l).
Definition FLOPPIES : list Z :=
  [160; 180; 200; 320; 360; 400; 410; 420; 640; 720; 800; 820; 830; 880; 1040; 1120; 1200; 1440; 1476; 1494; 1600; 1680; 1722; 1743; 1760; 1840; 1920; 2880; 3120; 3200; 3520; 3840].
Definition alignment (d : drive) : Z := match d with cdrom => 2048 | _ => 512 end.
(** The primary volume descriptor at sector 16: "CD001" and a volume of [sectors]. *)
Definition volume_fits (header : bytes) (end_ : Z) : bool :=
  if (byteLength header =? 2048) && bool_decide (header !! 0%nat = Some 1) && bool_decide (header !! 6%nat = Some 1) && bool_decide (slice header 1 6 = [67; 68; 48; 48; 49])
  then
    let sectors := getUint32 header 80 true in
    (17 <=? sectors) && (sectors =? getUint32 header 84 false) && (getUint16 header 128 true =? 2048) && (getUint16 header 130 false =? 2048) && (sectors * 2048 <=? end_)
  else false.
(** [content] is the file; [read start end_] is what reading a part of it gives. *)
Section read.
Context (read : bytes → Z → Z → result bytes).

Definition EMPTY : exn := Exn None "The file is empty. Choose a disk image.".
Definition INVALID : exn := Exn None "The image size is invalid for this drive.".
Definition NONSTANDARD : exn := Exn None "Choose a standard-size floppy image.".
Definition readDisk (file : option bytes) (d : drive) : result image :=
  match file with
  | None => Throw EMPTY
  | Some file =>
      if byteLength file =? 0 then Throw EMPTY
      else
        let a := alignment d in
        file ← (if bool_decide (d = cdrom) && negb (byteLength file mod a =? 0) then
                  let end_ := byteLength file - byteLength file mod a in
                  header ← read file (16 * a) (17 * a);
                  Ok (if volume_fits header end_ then slice file 0 end_ else file)
                else Ok file);
        if negb (byteLength file mod a =? 0) then Throw INVALID
        else if negb (bool_decide (d = cdrom)) && negb ((byteLength file mod 1024 =? 0) && bool_decide (byteLength file / 1024 ∈ FLOPPIES)) then Throw NONSTANDARD
        else if (byteLength file <? 256 * 1024 * 1024) || negb (bool_decide (d = cdrom)) then
          buffer ← read file 0 (byteLength file); Ok (Whole buffer)
        else
          _ ← read file 0 a; Ok (Lazy file)
  end.
End read.

Definition content (i : image) : bytes := match i with Whole b | Lazy b => b end.
(** A complete ISO9660 volume: its first descriptor, in both byte orders, and all its sectors. *)
Definition iso_volume (file : bytes) : Prop :=
  ∃ sectors, 17 ≤ sectors ∧ sectors * 2048 ≤ byteLength file ∧
    let header := slice file (16 * 2048) (17 * 2048) in
    header !! 0%nat = Some 1 ∧ slice header 1 6 = [67; 68; 48; 48; 49] ∧ header !! 6%nat = Some 1 ∧
    getUint32 header 80 true = sectors ∧ getUint32 header 84 false = sectors ∧ getUint16 header 128 true = 2048 ∧ getUint16 header 130 false = 2048.

Section facts.
Context (read : bytes → Z → Z → result bytes).
(** What is read is a part of the file. *)
Hypothesis read_exact : ∀ file a b r, read file a b = Ok r → r = slice file a b.

Lemma slice_prefix (l : bytes) n : slice l 0 n `prefix_of` l.
Proof using Type. unfold slice. rewrite drop_0, Z.sub_0_r. exists (drop (Z.to_nat n) l). by rewrite take_drop. Qed.
Lemma slice_all (l : bytes) : slice l 0 (byteLength l) = l.
Proof using Type. unfold slice, byteLength. rewrite drop_0, Z.sub_0_r, Nat2Z.id. apply take_ge. lia. Qed.
Lemma byteLength_slice (l : bytes) n : 0 ≤ n ≤ byteLength l → byteLength (slice l 0 n) = n.
Proof using Type. unfold byteLength. intros. rewrite length_slice by lia. lia. Qed.
Lemma slice_slice (l : bytes) a b n : 0 ≤ a → b ≤ n → slice (slice l 0 n) a b = slice l a b.
Proof using Type.
  intros Ha Hb. unfold slice. rewrite drop_0, Z.sub_0_r. destruct (decide (a ≤ b)) as [Hab|Hab]; [|by replace (Z.to_nat (b - a)) with 0%nat by lia].
  rewrite skipn_firstn_comm, take_take. f_equal. lia.
Qed.
Lemma volume_fits_iso file :
  volume_fits (slice file (16 * 2048) (17 * 2048)) (byteLength file - byteLength file mod 2048) = true →
  iso_volume (slice file 0 (byteLength file - byteLength file mod 2048)) ∧ 17 * 2048 ≤ byteLength file - byteLength file mod 2048.
Proof using Type.
  unfold volume_fits. set (header := slice file _ _). set (e := byteLength file - _). destruct (_ && _) eqn:E; [|done]. rewrite !andb_true_iff, !bool_decide_eq_true in E. destruct E as [[[E1 E2] E3] E4].
  rewrite !andb_true_iff, !Z.eqb_eq, !Z.leb_le. intros ((((H1 & H2) & H3) & H4) & H5). split; [|lia].
  assert (Hm : 0 ≤ byteLength file mod 2048) by (apply Z.mod_pos_bound; lia).
  exists (getUint32 header 80 true). rewrite slice_slice by lia. fold header.
  assert (EL : byteLength (slice file 0 e) = e) by (apply byteLength_slice; lia).
  rewrite EL. by split_and!.
Qed.

(** An image that a drive gets is not empty, is a multiple of its sectors and the file from
    its beginning, all of it or, for a CD only, all but a partial last sector that lies
    after a complete ISO9660 volume; a floppy has a standard size.  Files are read
    lazily just for CDs of at least 256 MiB. *)
Theorem drive_image file d i :
  readDisk read (Some file) d = Ok i →
  0 < byteLength (content i) ∧ byteLength (content i) mod alignment d = 0 ∧ content i `prefix_of` file ∧
  byteLength file - byteLength (content i) < alignment d ∧
  (content i = file ∨ (d = cdrom ∧ iso_volume (content i))) ∧
  (d ≠ cdrom → ∃ n, n ∈ FLOPPIES ∧ byteLength (content i) = 1024 * n) ∧
  (match i with Lazy _ => true | Whole _ => false end = true ↔ d = cdrom ∧ 256 * 1024 * 1024 ≤ byteLength (content i)).
Proof using read_exact.
  unfold readDisk. destruct (byteLength file =? 0) eqn:E0; [done|]. intros H. apply bind_ok in H as (f & Hf & H).
  assert (Hpos : 0 < byteLength file) by (apply Z.eqb_neq in E0; unfold byteLength in *; lia).
  assert (HF : 0 < byteLength f ∧ f `prefix_of` file ∧ (f = file ∨ (d = cdrom ∧ iso_volume f ∧ byteLength file - byteLength f < 2048))).
  { destruct (_ && _) eqn:EC in Hf; [|injection Hf as <-; by split_and!; [|done|left]]. apply andb_true_iff in EC as [->%bool_decide_eq_true EM].
    apply bind_ok in Hf as (header & Hh & Hf). apply read_exact in Hh as ->. injection Hf as <-. destruct (volume_fits _ _) eqn:EV; [|by split_and!; [|done|left]].
    cbn [alignment] in *. apply volume_fits_iso in EV as [HV Hlen]. assert (Hm : 0 ≤ byteLength file mod 2048 < 2048) by (apply Z.mod_pos_bound; lia).
    assert (EL : byteLength (slice file 0 (byteLength file - byteLength file mod 2048)) = byteLength file - byteLength file mod 2048)
      by (apply byteLength_slice; lia).
    rewrite EL. split_and!; [lia|apply slice_prefix|right; split_and!; [done|done|lia]]. }
  destruct HF as (H1 & H2 & H3). destruct (negb (byteLength f mod alignment d =? 0)) eqn:EM; [done|]. apply negb_false_iff, Z.eqb_eq in EM.
  destruct (negb (bool_decide (d = cdrom)) && _) eqn:EF; [done|].
  assert (HS : d ≠ cdrom → ∃ n, n ∈ FLOPPIES ∧ byteLength f = 1024 * n).
  { intros Hd. rewrite bool_decide_false in EF by done. cbn in EF. apply negb_false_iff, andb_true_iff in EF as [E1%Z.eqb_eq E2%bool_decide_eq_true].
    exists (byteLength f / 1024). split; [done|]. by apply Z_div_exact_full_2. }
  assert (HC : content i = f ∧ (match i with Lazy _ => true | Whole _ => false end = true ↔ d = cdrom ∧ 256 * 1024 * 1024 ≤ byteLength f)).
  { destruct (_ || _) eqn:EL in H; apply bind_ok in H as (b & Hb & [= <-]).
    - apply read_exact in Hb as ->. cbn [content]. rewrite slice_all. split; [done|]. split; [done|]. intros [-> Hl].
      rewrite bool_decide_true, orb_false_r in EL by done. apply Z.ltb_lt in EL. lia.
    - split; [done|]. split; [|done]. intros _. apply orb_false_iff in EL as [El%Z.ltb_ge Ec%negb_false_iff%bool_decide_eq_true]. done. }
  destruct HC as [-> HL]. split_and!; [done|done|done| | |done|done].
  - destruct H3 as [->|(-> & _ & ?)]; [destruct d; cbn; lia|done].
  - destruct H3 as [|(? & ? & _)]; [by left|by right].
Qed.
End facts.

(** A CD image of 17 sectors with 100 bytes after them. *)
Definition example_header : bytes :=
  [1; 67; 68; 48; 48; 49; 1] ++ replicate 73 0 ++ [17; 0; 0; 0; 0; 0; 0; 17] ++ replicate 40 0 ++ [0; 8; 8; 0] ++ replicate 1916 0.
Definition example_cd : bytes := replicate (Z.to_nat 32768) 0 ++ example_header.
Definition example_file : bytes := example_cd ++ replicate 100 7.
Lemma drive_image_witness :
  readDisk (λ f a b, Ok (slice f a b)) (Some example_file) cdrom = Ok (Whole example_cd) ∧ example_cd ≠ example_file ∧ iso_volume example_cd.
Proof.
  assert (EH : length example_header = 2048%nat) by (vm_compute; reflexivity).
  assert (EC : byteLength example_cd = 34816) by (unfold byteLength, example_cd; rewrite length_app, length_replicate, EH; reflexivity).
  assert (EF : byteLength example_file = 34916) by (unfold byteLength, example_file in *; rewrite length_app, length_replicate; lia).
  assert (ES : slice example_file (16 * 2048) (17 * 2048) = example_header).
  { unfold slice, example_file, example_cd. rewrite <- app_assoc. change (Z.to_nat (17 * 2048 - 16 * 2048)) with (Z.to_nat 2048). change (16 * 2048) with 32768.
    rewrite drop_app_length' by by rewrite length_replicate. rewrite take_app_length'; [done|]. rewrite EH. reflexivity. }
  assert (ET : slice example_file 0 34816 = example_cd).
  { unfold slice. rewrite drop_0, Z.sub_0_r. unfold example_file. apply take_app_length'. unfold byteLength in EC. lia. }
  assert (EV : volume_fits example_header 34816 = true) by (vm_compute; reflexivity).
  assert (ER : readDisk (λ f a b, Ok (slice f a b)) (Some example_file) cdrom = Ok (Whole example_cd)).
  { unfold readDisk. rewrite EF. change (34916 =? 0) with false. cbn [alignment]. change (34916 mod 2048) with 100. change (34916 - 100) with 34816. cbn [mbind result_bind].
    rewrite ES, EV, ET.
    change (bool_decide (cdrom = cdrom)) with true. change (true && negb (100 =? 0)) with true. cbn [mbind result_bind]. rewrite EC.
    change (negb (34816 mod 2048 =? 0)) with false. cbn [negb andb]. change ((34816 <? 256 * 1024 * 1024) || false) with true. cbn iota.
    assert (ES2 : slice example_cd 0 34816 = example_cd) by (rewrite <- EC; apply slice_all). rewrite ES2. reflexivity. }
  assert (EN : example_cd ≠ example_file) by (intros E; apply (f_equal byteLength) in E; rewrite EC, EF in E; discriminate E).
  split; [exact ER|]. split; [exact EN|].
  destruct (drive_image (λ f a b, Ok (slice f a b)) (λ f a b r H, ltac:(by injection H)) example_file cdrom _ ER) as (_ & _ & _ & _ & [H|[_ H]] & _); [by destruct EN|exact H].
Defined.
