(* ===== verification/StateFormat.v ===== *)
(** * Saved machine states (src/src/disk/web/state-format.js)

    A saved state is [MY98STAT], a JSON header and the gzip compression of the
    machine's memory cut into records of 1 MiB, each encrypted and authenticated by the
    Vault under the header and its number.  [encodeState] writes one from memory,
    [decodeState] reads one from a stream whose chunks have nothing to do with that
    structure.

    The Vault, gzip, JSON and SHA-256 are parameters.  [check] is the caller's test for
    cancellation: [interrupt] says which of its calls throw.  The three readers and the
    pull of the stream of compressed bytes are as in the code; as each stream is a
    queue, the compressed bytes are taken out in one go before the raw ones are read,
    up to the first error.  The log keeps what happens to buffers that hold plaintext
    and to streams; the progress callbacks are left out. *)
From S2P Require Import Prelude JsValue Hex.
#[local] Open Scope Z_scope.

Module StateFormat.

(** [enc.encode("MY98STAT")]. *)
Definition MAGIC : bytes := [77; 89; 57; 56; 83; 84; 65; 84].
Definition CHUNK : Z := 1024 * 1024.
Definition LIMIT : Z := 1024 * 1024 * 1024.
Definition PIECE : Z := 16384.
Definition invalid {A} (message : string) : result A := throw "INVALID_STATE" message.
Definition u32 (n : Z) : bytes := le_bytes 4 n.
Definition number (b : bytes) : Z := le_value (take 4 b).
Definition context (header : bytes) (index : Z) : bytes := header ++ u32 index.

(** A stream: its chunks ([None] is not a [Uint8Array]) and how it ends. *)
Record stream := Stream { s_chunks : list (option bytes); s_error : option exn }.

(** ** Effects *)
Inductive buffer := Overlay | Chunk | Plain | Pending | MachineState | RestoredOverlay.
#[export] Instance buffer_eq_dec : EqDecision buffer.
Proof. solve_decision. Defined.
Inductive effect :=
| Alloc (b : buffer) | Wipe (b : buffer)      (** the buffer holds plaintext; [fill(0)] *)
| OpenRaw | CloseSource | CloseRaw | CancelStream.
#[export] Instance effect_eq_dec : EqDecision effect.
Proof. solve_decision. Defined.

(** The calls of [check] so far, the log, and the variables of [decodeState] that its
    pull shares. *)
Record st := St {
  t_tick : nat;
  t_log : list effect;
  t_pending : option bytes;
  t_position : Z;
  t_index : Z;
  t_hash : bytes                          (** fed to the hash *)
}.
Definition new_st : st := St 0 [] None 0 0 [].

Definition M (A : Type) : Type := st → st * result A.
#[export] Instance M_ret : MRet M := λ A a s, (s, Ok a).
#[export] Instance M_bind : MBind M := λ A B f m s,
  match m s with (s, Ok a) => f a s | (s, Throw e) => (s, Throw e) end.
Definition gets : M st := λ s, (s, Ok s).
Definition modify (f : st → st) : M unit := λ s, (f s, Ok tt).
Definition lift {A} (x : result A) : M A := λ s, (s, x).
Definition catch {A} (m : M A) (h : exn → M A) : M A := λ s,
  match m s with (s, Throw e) => h e s | x => x end.
(** [try {m} finally {f}] for an [f] that does not throw. *)
Definition finally {A} (m : M A) (f : st → st) : M A := λ s, let '(s, x) := m s in (f s, x).
Definition note (e : effect) (s : st) : st :=
  St (t_tick s) (t_log s ++ [e]) (t_pending s) (t_position s) (t_index s) (t_hash s).
Definition tell (e : effect) : M unit := modify (note e).

(** ** StateReader *)
Record reader := Reader {
  rd_in : list (option bytes);            (** not yet read *)
  rd_error : option exn;
  rd_max : Z;
  rd_chunk : bytes;
  rd_offset : Z;
  rd_received : Z;
  rd_copied : Z
}.
Definition new_reader (s : stream) (max : Z) : reader := Reader (s_chunks s) (s_error s) max [] 0 0 0.
Definition with_max (max : Z) (r : reader) : reader :=
  Reader (rd_in r) (rd_error r) max (rd_chunk r) (rd_offset r) (rd_received r) (rd_copied r).

Section format.
Context (interrupt : nat → option exn).
Context (state_base : result bytes) (state_overlay : result bytes).
Context (seal_state open_state : bytes → bytes → result bytes).
Context (deflate inflate : stream → stream).
Context (stringify : jsval → bytes) (parse : bytes → option jsval).
Context (sha256 : bytes → bytes).

Definition check : M unit := λ s,
  (St (S (t_tick s)) (t_log s) (t_pending s) (t_position s) (t_index s) (t_hash s),
   match interrupt (t_tick s) with Some e => Throw e | None => Ok tt end).

(** [available()]: the loop runs over the chunks. *)
Fixpoint available_loop (inp : list (option bytes)) (r : reader) : M (bool * reader) :=
  if negb (rd_offset r =? byteLength (rd_chunk r)) then mret (true, r)
  else
    match inp with
    | [] =>
        match rd_error r with
        | Some e => lift (Throw e)
        | None => check ;; mret (false, Reader [] None (rd_max r) (rd_chunk r) (rd_offset r) (rd_received r) (rd_copied r))
        end
    | value :: inp =>
        check ;;
        match value with
        | None => lift (invalid "Invalid state stream")
        | Some chunk =>
            let received := rd_received r + byteLength chunk in
            if rd_max r <? received then lift (invalid "State exceeds its declared size")
            else available_loop inp (Reader inp (rd_error r) (rd_max r) chunk 0 received (rd_copied r))
        end
    end.
Definition available (r : reader) : M (bool * reader) := check ;; available_loop (rd_in r) r.

(** [into(bytes)] for [n] bytes.  Each turn ends the loop or the current chunk. *)
Fixpoint into_loop (fuel : nat) (n : Z) (acc : bytes) (r : reader) : M (bytes * reader) :=
  if n <=? 0 then mret (acc, r)
  else
    match fuel with
    | O => lift (throw_plain "into")
    | S fuel =>
        '(more, r) ← available r;
        if negb more then lift (invalid "Truncated state")
        else
          let count := Z.min n (byteLength (rd_chunk r) - rd_offset r) in
          let data := slice (rd_chunk r) (rd_offset r) (rd_offset r + count) in
          let copied := rd_copied r + count in
          let r' c := Reader (rd_in r) (rd_error r) (rd_max r) (rd_chunk r) (rd_offset r + count) (rd_received r) c in
          if 8 * CHUNK <=? copied
          then check ;; into_loop fuel (n - count) (acc ++ data) (r' 0)
          else into_loop fuel (n - count) (acc ++ data) (r' copied)
    end.
Definition into (n : Z) (r : reader) : M (bytes * reader) := into_loop (2 + length (rd_in r)) n [] r.
Definition read (n : Z) (r : reader) : M (bytes * reader) := check ;; into n r.
Definition end_ (r : reader) : M reader :=
  '(more, r) ← available r;
  if more : bool then lift (invalid "Trailing state bytes") else mret r.

(** ** encodeState *)

(** [collect]: the loop runs over the chunks of the stream. *)
Fixpoint collect_loop (max : Z) (error : option exn) (chunks : list (option bytes)) (size : Z) (parts : bytes) : M bytes :=
  check ;;
  match chunks with
  | [] => match error with Some e => lift (Throw e) | None => check ;; mret parts end
  | value :: chunks =>
      check ;;
      let value := default [] value in
      let size := size + byteLength value in
      if max <? size then lift (invalid "State exceeds the supported size")
      else collect_loop max error chunks size (parts ++ value)
  end.
Definition collect (s : stream) (max : Z) : M bytes :=
  catch (collect_loop max (s_error s) (s_chunks s) 0 []) (λ e, tell CancelStream ;; lift (Throw e)).

Fixpoint seal_loop (fuel : nat) (header compressed : bytes) (offset index : Z) : M (list bytes) :=
  if negb (offset <? byteLength compressed) then mret []
  else
    match fuel with
    | O => lift (throw_plain "encodeState")
    | S fuel =>
        check ;; tell (Alloc Chunk) ;;
        sealed ← finally (lift (seal_state (context header index)
                                  (slice compressed offset (Z.min (offset + CHUNK) (byteLength compressed)))))
                         (note (Wipe Chunk));
        check ;;
        rest ← seal_loop fuel header compressed (offset + CHUNK) (index + 1);
        mret (sealed :: rest)
    end.

Definition JInt (n : Z) : jsval := JNum (NInt n).
Definition full_metadata (metadata : jsval) (state overlay : bytes) : jsval :=
  set_field (set_field metadata "stateLength" (JInt (byteLength state))) "overlayLength" (JInt (byteLength overlay)).
Definition header_of (base nonce : bytes) (raw packed : Z) : jsval :=
  JObj [("version", JInt 1); ("base", JArr (JInt <$> base)); ("nonce", JArr (JInt <$> nonce));
        ("raw", JInt raw); ("packed", JInt packed)]%string.

Definition encode_raw (metadata : jsval) (state : bytes) : M bytes :=
  overlay ← lift state_overlay;
  tell (Alloc Overlay) ;;
  finally (let meta := stringify (full_metadata metadata state overlay) in
           if 65536 <? byteLength meta then lift (invalid "State metadata exceeds the supported size")
           else mret (u32 (byteLength meta) ++ meta ++ state ++ overlay))
          (note (Wipe Overlay)).

Definition encodeState (metadata : jsval) (state : option bytes) (nonce : bytes) : M bytes :=
  match state with
  | None => lift (invalid "Invalid machine state")
  | Some state =>
      if (byteLength state =? 0) || (LIMIT <? byteLength state) then lift (invalid "Invalid machine state")
      else
        raw ← encode_raw metadata state;
        if LIMIT <? byteLength raw then lift (invalid "State exceeds 1 GiB uncompressed")
        else
          check ;;
          compressed ← collect (deflate (Stream [Some raw] None)) LIMIT;
          base ← lift state_base;
          check ;;
          let header := stringify (header_of base nonce (byteLength raw) (byteLength compressed)) in
          records ← seal_loop (Z.to_nat (ceil_div (byteLength compressed) CHUNK)) header compressed 0 0;
          mret (MAGIC ++ u32 (byteLength header) ++ header ++ concat records)
  end.

(** ** decodeState: the stream of compressed bytes *)
Definition set_pending (p : option bytes) (position index : Z) (hash : bytes) (s : st) : st :=
  St (t_tick s) (t_log s) p position index hash.
(** [pending?.fill(0);pending=undefined;position=0]. *)
Definition discard (s : st) : st :=
  let s := match t_pending s with Some _ => note (Wipe Pending) s | None => s end in
  set_pending None 0 (t_index s) (t_hash s) s.

(** A record of the file, opened: it becomes [pending]. *)
Definition open_record (header : bytes) (packed : Z) (src : reader) : M reader :=
  s ← gets;
  let index := t_index s in
  let size := Z.min CHUNK (packed - index * CHUNK) + 62 in
  '(sealed, src) ← read size src;
  modify (λ s, set_pending None 0 (index + 1) (t_hash s ++ sealed) s) ;;
  plain ← lift (open_state (context header index) sealed);
  tell (Alloc Plain) ;;
  finally (if negb (byteLength plain =? size - 62) then lift (invalid "Invalid decrypted record length")
           else tell (Alloc Pending) ;; modify (λ s, set_pending (Some plain) 0 (t_index s) (t_hash s) s))
          (note (Wipe Plain)) ;;
  check ;; mret src.

Inductive pulled := Enqueued (piece : bytes) | Closed | Errored (e : exn).
Definition enqueue : M pulled :=
  s ← gets;
  let pending := default [] (t_pending s) in
  let end_ := Z.min (t_position s + PIECE) (byteLength pending) in
  let piece := slice pending (t_position s) end_ in
  modify (set_pending (t_pending s) end_ (t_index s) (t_hash s)) ;;
  (if end_ =? byteLength pending then modify discard else mret tt) ;;
  mret (Enqueued piece).

Definition pull (header : bytes) (packed : Z) (src : reader) : M (reader * pulled) :=
  catch (check ;;
         s ← gets;
         match t_pending s with
         | Some _ => p ← enqueue; mret (src, p)
         | None =>
             if t_index s =? ceil_div packed CHUNK then src ← end_ src; mret (src, Closed)
             else src ← open_record header packed src; p ← enqueue; mret (src, p)
         end)
        (λ e, modify discard ;; tell CloseSource ;; mret (src, Errored e)).

(** Everything the stream gives. *)
Fixpoint drain (fuel : nat) (header : bytes) (packed : Z) (src : reader) : M (reader * stream) :=
  match fuel with
  | O => mret (src, Stream [] (Some (Exn None "drain")))
  | S fuel =>
      '(src, p) ← pull header packed src;
      match p with
      | Enqueued piece =>
          '(src, s) ← drain fuel header packed src; mret (src, Stream (Some piece :: s_chunks s) (s_error s))
      | Closed => mret (src, Stream [] None)
      | Errored e => mret (src, Stream [] (Some e))
      end
  end.
(** A record is at most 64 pieces. *)
Definition drain_fuel (packed : Z) : nat := S (64 * Z.to_nat (ceil_div packed CHUNK)).

(** ** decodeState *)
Record response := Response { rs_ok : bool; rs_body : option stream }.
Inductive input :=
| Url (response : result response)            (** of [fetch] *)
| BlobInput (content : bytes) (s : stream)    (** [size] and [stream()] *)
| Object (size : jsval) (s : option stream).
Record decoded := Decoded { dc_metadata : jsval; dc_state : bytes; dc_overlay : bytes; dc_stateSha256 : string }.

Definition open_input (i : input) : M (jsval * option stream) :=
  match i with
  | Url r =>
      r ← lift r;
      match rs_ok r, rs_body r with
      | true, Some s => mret (JUndefined, Some s)
      | _, _ => lift (invalid "Could not download state")
      end
  | BlobInput content s => mret (JInt (byteLength content), Some s)
  | Object size s => mret (size, s)
  end.
Definition size_ok (size : jsval) : bool :=
  is_undefined size ||
  match as_safe_integer size with Some n => (12 <=? n) && (n <=? LIMIT + 65536) | None => false end.

(** [h.raw] and [h.packed] when the header is acceptable; [h.version] of [null] throws. *)
Definition TYPE_ERROR {A} : result A := throw_plain "undefined is not an object".
Definition bounded_field (h : jsval) (key : string) (lo : Z) : option Z :=
  match as_safe_integer (get h key) with
  | Some n => if (lo <=? n) && (n <=? LIMIT) then Some n else None
  | None => None
  end.
Definition header_sizes (h : jsval) : result (Z * Z) :=
  match h with
  | JUndefined | JNull => TYPE_ERROR
  | _ =>
      match bounded_field h "raw" 4, bounded_field h "packed" 1 with
      | Some raw, Some packed =>
          if is_int (get h "version") 1 then Ok (raw, packed) else invalid "Unsupported state size or version"
      | _, _ => invalid "Unsupported state size or version"
      end
  end.
Definition base_matches (h : jsval) (base : bytes) : bool :=
  match get h "base" with
  | JArr l => (Z.of_nat (length l) =? byteLength base) && forallb (λ p, is_int p.1 p.2) (zip l base)
  | _ => false
  end.

(** The fixed part of the file. *)
Definition read_header (src : reader) : M (bytes * reader) :=
  '(prefix, src) ← read 12 src;
  check ;;
  if negb (bool_decide (take 8 prefix = MAGIC)) then lift (invalid "Unsupported state format")
  else
    let len := number (drop 8 prefix) in
    if (len <? 1) || (4096 <? len) then lift (invalid "Invalid state header")
    else
      '(header, src) ← read len src;
      modify (λ s, set_pending (t_pending s) (t_position s) (t_index s) (prefix ++ header) s) ;;
      mret (header, src).

(** The sizes of the file, checked before any record is read. *)
Definition check_header (size : jsval) (header : bytes) : M (Z * Z * Z) :=
  match parse header with
  | None => lift (throw_plain "SyntaxError")
  | Some h =>
      '(raw, packed) ← lift (header_sizes h);
      base ← lift state_base;
      check ;;
      if negb (base_matches h base) then lift (invalid "State belongs to a different base disk")
      else
        let expected := 12 + byteLength header + packed + ceil_div packed CHUNK * 62 in
        if (LIMIT + 65536 <? expected) || negb (is_undefined size || is_int size expected)
        then lift (invalid "Truncated state or trailing bytes")
        else mret (raw, packed, expected)
  end.

(** The sections of the raw bytes. *)
Definition section_lengths (metadata : jsval) (metaLength raw : Z) : result (Z * Z) :=
  match metadata with
  | JUndefined | JNull => TYPE_ERROR
  | _ =>
      match as_safe_integer (get metadata "stateLength"), as_safe_integer (get metadata "overlayLength") with
      | Some s, Some o =>
          if (s <? 1) || (o <? 0) || negb (4 + metaLength + s + o =? raw) then invalid "Invalid state sections" else Ok (s, o)
      | _, _ => invalid "Invalid state sections"
      end
  end.
Definition read_sections (raw : Z) (r : reader) : M (jsval * bytes * bytes * reader) :=
  '(b, r) ← read 4 r;
  let metaLength := number b in
  if (65536 <? metaLength) || (raw <? metaLength + 4) then lift (invalid "Invalid state metadata")
  else
    '(meta, r) ← read metaLength r;
    match parse meta with
    | None => lift (throw_plain "SyntaxError")
    | Some metadata =>
        '(stateLength, overlayLength) ← lift (section_lengths metadata metaLength raw);
        check ;;
        tell (Alloc MachineState) ;; tell (Alloc RestoredOverlay) ;;
        '(state, r) ← into stateLength r;
        '(overlay, r) ← into overlayLength r;
        r ← end_ r;
        check ;;
        mret (metadata, state, overlay, r)
    end.

(** The [finally] of [decodeState]. *)
Definition wipe_allocated (b : buffer) (s : st) : st :=
  if bool_decide (Alloc b ∈ t_log s) then note (Wipe b) s else s.
Definition close_all (complete : bool) (s : st) : st :=
  let s := note CloseSource s in
  let s := if bool_decide (OpenRaw ∈ t_log s) then note CloseRaw s else s in
  if complete then s else wipe_allocated RestoredOverlay (wipe_allocated MachineState s).

Definition decode_body (size : jsval) (s : stream) : M decoded :=
  check ;;
  '(header, src) ← read_header (new_reader s (LIMIT + 65536));
  '(raw, packed, expected) ← check_header size header;
  '(src, compressed) ← drain (drain_fuel packed) header packed (with_max expected src);
  tell OpenRaw ;;
  '(metadata, state, overlay, r) ← read_sections raw (new_reader (inflate compressed) raw);
  s ← gets;
  if negb (rd_received r =? raw) || negb (rd_received src =? expected) then lift (invalid "Invalid state length")
  else mret (Decoded metadata state overlay (hex (sha256 (t_hash s)))).

Definition closing {A} (m : M A) : M A := λ s,
  match m s with
  | (s, Ok a) => (close_all true s, Ok a)
  | (s, Throw e) => (close_all false s, Throw e)
  end.
Definition decodeState (i : input) : M decoded :=
  check ;;
  '(size, s) ← open_input i;
  match s with
  | Some s =>
      if size_ok size then closing (decode_body size s)
      else tell CancelStream ;; lift (invalid "Invalid state file size")
  | None => lift (invalid "Invalid state file size")
  end.

End format.
End StateFormat.
