(* ===== verification/StateFormatFacts.v ===== *)
(** * Saved machine states: facts

    How the readers treat their streams, what the stream of compressed bytes gives,
    and the theorems: what [decodeState] accepts, the round trip with [encodeState],
    and the wiping of plaintext. *)
From S2P Require Import Prelude JsValue Hex StateFormat.
#[local] Open Scope Z_scope.
Import StateFormat.
#[local] Arguments CHUNK : simpl never.
#[local] Arguments MAGIC : simpl never.
#[local] Arguments LIMIT : simpl never.
#[local] Arguments PIECE : simpl never.
#[local] Arguments Z.mul : simpl never.
#[local] Arguments Z.add : simpl never.
#[local] Arguments le_value : simpl never.

(** ** Reading *)

(** What is left of the current chunk. *)
Definition rest (r : reader) : bytes := drop (Z.to_nat (rd_offset r)) (rd_chunk r).
Definition wf_reader (r : reader) : Prop := 0 ≤ rd_offset r ≤ byteLength (rd_chunk r).

(** Getting from [r] to [r'] reads the bytes [b]. *)
Record reads (b : bytes) (r r' : reader) : Prop := {
  rs_chunks : ∃ l, rd_in r = (Some <$> l) ++ rd_in r' ∧ rest r ++ concat l = b ++ rest r' ∧
                rd_received r' = rd_received r + byteLength (concat l);
  rs_error : rd_error r' = rd_error r;
  rs_max : rd_max r' = rd_max r;
  rs_wf : wf_reader r'
}.
(** The stream is over and everything has been read. *)
Record at_end (r : reader) : Prop := { ae_in : rd_in r = []; ae_rest : rest r = []; ae_error : rd_error r = None }.

Lemma byteLength_app (a b : bytes) : byteLength (a ++ b) = byteLength a + byteLength b.
Proof. unfold byteLength. rewrite length_app. lia. Qed.
Lemma byteLength_nonneg (b : bytes) : 0 ≤ byteLength b.
Proof. unfold byteLength. lia. Qed.

Lemma length_rest r : wf_reader r → byteLength (rest r) = byteLength (rd_chunk r) - rd_offset r.
Proof. unfold wf_reader, rest, byteLength. rewrite length_drop. lia. Qed.

Lemma reads_refl r : wf_reader r → reads [] r r.
Proof. intros H. split; try done. exists []. cbn. rewrite app_nil_r. split_and!; [done|done|unfold byteLength; cbn; lia]. Qed.

Lemma reads_trans b c r1 r2 r3 : reads b r1 r2 → reads c r2 r3 → reads (b ++ c) r1 r3.
Proof.
  intros [(l & E1 & E2 & E3) H1 H2 _] [(l' & F1 & F2 & F3) H3 H4 ?]. split; try congruence.
  exists (l ++ l'). rewrite fmap_app, concat_app, byteLength_app. split_and!.
  - by rewrite E1, F1, app_assoc.
  - by rewrite app_assoc, E2, <- !app_assoc, F2.
  - lia.
Qed.

(** Only the number of calls of [check] differs. *)
Record ticked (s s' : st) : Prop := {
  tk_log : t_log s' = t_log s;
  tk_pending : t_pending s' = t_pending s;
  tk_position : t_position s' = t_position s;
  tk_index : t_index s' = t_index s;
  tk_hash : t_hash s' = t_hash s
}.
#[export] Instance ticked_refl : Reflexive ticked.
Proof. intros s. by split. Qed.
#[export] Instance ticked_trans : Transitive ticked.
Proof. intros s1 s2 s3 [] []. split; congruence. Qed.

(** The rule of the monad's bind. *)
Lemma step_bind {A B} (m : M A) (f : A → M B) s s' x :
  (m ≫= f) s = (s', x) →
  (∃ a s1, m s = (s1, Ok a) ∧ f a s1 = (s', x)) ∨ (∃ e, m s = (s', Throw e) ∧ x = Throw e).
Proof. unfold mbind, M_bind. destruct (m s) as [s1 [a|e]]; [eauto|]. intros [= <- <-]. eauto. Qed.

Lemma st_ok {A B} (m : M A) (f : A → M B) s s' b :
  (m ≫= f) s = (s', Ok b) → ∃ a s1, m s = (s1, Ok a) ∧ f a s1 = (s', Ok b).
Proof. intros [?|(e & _ & ?)]%step_bind; done. Qed.

Section format.
Context (interrupt : nat → option exn).
#[local] Notation check := (check interrupt).

(** A computation that only calls [check]. *)
Definition ticks {A} (m : M A) : Prop := ∀ s, ticked s (m s).1.

Lemma ticks_ret {A} (a : A) : ticks (mret a).
Proof using Type. intros s. reflexivity. Qed.
Lemma ticks_lift {A} (x : result A) : ticks (lift x).
Proof using Type. intros s. reflexivity. Qed.
Lemma ticks_check : ticks check.
Proof using Type. intros s. by split. Qed.
Lemma ticks_bind {A B} (m : M A) (f : A → M B) : ticks m → (∀ a, ticks (f a)) → ticks (m ≫= f).
Proof using Type.
  intros Hm Hf s. specialize (Hm s). unfold mbind, M_bind. destruct (m s) as [s' [a|e]]; [|done].
  etrans; [exact Hm|apply Hf].
Qed.
#[local] Hint Resolve ticks_ret ticks_lift ticks_check ticks_bind : ticks.

Lemma ticks_available_loop inp r : ticks (available_loop interrupt inp r).
Proof using Type.
  revert r. induction inp as [|[c|] inp IH]; intros r; cbn [available_loop]; destruct (negb _);
    auto with ticks; [destruct (rd_error r); auto with ticks|].
  apply ticks_bind; [auto with ticks|]. intros _. cbv zeta. destruct (_ <? _); auto with ticks.
Qed.
Lemma ticks_available r : ticks (available interrupt r).
Proof using Type. apply ticks_bind; [auto with ticks|]. intros _. apply ticks_available_loop. Qed.
Lemma ticks_into_loop fuel n acc r : ticks (into_loop interrupt fuel n acc r).
Proof using Type.
  revert n acc r. induction fuel as [|fuel IH]; intros n acc r; cbn [into_loop]; destruct (n <=? 0); auto with ticks.
  apply ticks_bind; [apply ticks_available|]. intros [more r']. destruct (negb more); [auto with ticks|]. cbv zeta.
  destruct (_ <=? _); auto with ticks.
Qed.
Lemma ticks_into n r : ticks (into interrupt n r).
Proof using Type. apply ticks_into_loop. Qed.
Lemma ticks_read n r : ticks (read interrupt n r).
Proof using Type. apply ticks_bind; [auto with ticks|]. intros _. apply ticks_into. Qed.
Lemma ticks_end r : ticks (end_ interrupt r).
Proof using Type. apply ticks_bind; [apply ticks_available|]. intros [[] r']; auto with ticks. Qed.

(** *** What a read that succeeds has read *)
Lemma available_loop_reads inp r s s' more r' :
  rd_in r = inp → wf_reader r → available_loop interrupt inp r s = (s', Ok (more, r')) →
  reads [] r r' ∧ rd_copied r' = rd_copied r ∧ (rd_received r' = rd_received r ∨ rd_received r' ≤ rd_max r) ∧
  if more : bool then rest r' ≠ [] else at_end r'.
Proof using Type.
  revert r s. induction inp as [|value inp IH]; intros r s Hin Hwf; cbn [available_loop].
  all: destruct (rd_offset r =? byteLength (rd_chunk r)) eqn:EO; cbn [negb]; bools.
  2, 4: intros [= <- <- <-]; split_and!; try done; [by apply reads_refl|by left|];
    intros E; pose proof (length_rest r Hwf) as HL; rewrite E in HL; unfold wf_reader, byteLength in *; cbn in HL; lia.
  - destruct (rd_error r) eqn:EE; [done|]. intros ([] & s1 & _ & [= <- <- <-])%st_ok.
    assert (ER : rest r = []) by (unfold rest; rewrite EO; unfold byteLength; apply drop_ge; lia).
    split_and!; [|done|by left|by split].
    split; cbn; try done. exists []. cbn. rewrite app_nil_r. split_and!; [done|done|unfold byteLength; cbn; lia].
  - intros ([] & s1 & _ & E)%st_ok. destruct value as [chunk|]; [|done]. cbv zeta in E.
    destruct (rd_max r <? _) eqn:EM; [done|]. bools.
    assert (ER : rest r = []) by (unfold rest; rewrite EO; unfold byteLength; apply drop_ge; lia).
    apply IH in E as ([(l & E1 & E2 & E3) H1 H2 H3] & HC & HR & HM); [|done|unfold wf_reader; cbn; unfold byteLength; lia].
    cbn in *. split_and!; [|done|right; lia|done]. split; try done. exists (chunk :: l). rewrite ER. cbn.
    rewrite Hin, E1, byteLength_app. unfold rest in E2. cbn in E2. split_and!; [done|exact E2|lia].
Qed.

Lemma available_reads r s s' more r' :
  wf_reader r → available interrupt r s = (s', Ok (more, r')) →
  reads [] r r' ∧ if more then rest r' ≠ [] else at_end r'.
Proof using Type.
  intros Hwf ([] & s1 & _ & E)%st_ok. by apply available_loop_reads in E as (? & _ & _ & ?).
Qed.

(** Copying [n] bytes out of the current chunk. *)
Lemma copy_reads r n copied :
  wf_reader r → 0 ≤ n ≤ byteLength (rd_chunk r) - rd_offset r →
  reads (slice (rd_chunk r) (rd_offset r) (rd_offset r + n)) r
    (Reader (rd_in r) (rd_error r) (rd_max r) (rd_chunk r) (rd_offset r + n) (rd_received r) copied) ∧
  byteLength (slice (rd_chunk r) (rd_offset r) (rd_offset r + n)) = n.
Proof using Type.
  intros Hwf Hn. unfold wf_reader in Hwf. split.
  - split; cbn; try done; [|unfold wf_reader; cbn; lia].
    exists []. cbn. rewrite app_nil_r. split_and!; [done| |unfold byteLength; cbn; lia]. unfold rest, slice. cbn.
    replace (Z.to_nat (rd_offset r + n)) with (Z.to_nat (rd_offset r) + Z.to_nat n)%nat by lia.
    rewrite <- drop_drop. replace (rd_offset r + n - rd_offset r) with n by lia. by rewrite take_drop.
  - unfold slice, byteLength in *. rewrite length_take, length_drop. lia.
Qed.

Lemma into_loop_reads fuel n acc r s s' b r' :
  wf_reader r → 0 ≤ n → into_loop interrupt fuel n acc r s = (s', Ok (b, r')) →
  ∃ c, b = acc ++ c ∧ byteLength c = n ∧ reads c r r'.
Proof using Type.
  revert n acc r s. induction fuel as [|fuel IH]; intros n acc r s Hwf Hn; cbn [into_loop];
    destruct (n <=? 0) eqn:EN; bools; try done.
  1, 2: intros [= <- <- <-]; exists []; rewrite app_nil_r; split_and!; [done|unfold byteLength; cbn; lia|by apply reads_refl].
  intros ([more r1] & s1 & EA & E)%st_ok. apply available_reads in EA as [HR HM]; [|done].
  destruct more; cbn [negb] in E; [|done]. cbv zeta in E. pose proof (rs_wf _ _ _ HR) as Hwf1.
  assert (HL : 0 < byteLength (rd_chunk r1) - rd_offset r1).
  { rewrite <- (length_rest r1 Hwf1). pose proof (byteLength_nonneg (rest r1)). destruct (rest r1); [done|]. unfold byteLength. cbn. lia. }
  set (count := Z.min n _) in *. assert (Hc : 0 ≤ count ≤ byteLength (rd_chunk r1) - rd_offset r1) by lia.
  assert (HX : ∃ copied s2, into_loop interrupt fuel (n - count) (acc ++ slice (rd_chunk r1) (rd_offset r1) (rd_offset r1 + count))
    (Reader (rd_in r1) (rd_error r1) (rd_max r1) (rd_chunk r1) (rd_offset r1 + count) (rd_received r1) copied) s2 = (s', Ok (b, r'))).
  { destruct (8 * CHUNK <=? _); [|by eauto]. apply st_ok in E as ([] & s2 & _ & E). eauto. }
  destruct HX as (copied & s2 & HX). destruct (copy_reads r1 count copied Hwf1 Hc) as [HR1 HL1].
  apply IH in HX as (c & -> & HC & HR2); [|by apply HR1|lia].
  eexists. rewrite <- app_assoc. split; [done|]. rewrite byteLength_app. split; [lia|].
  by apply (reads_trans [] _ _ _ _ HR), (reads_trans _ _ _ _ _ HR1).
Qed.

Lemma into_reads n r s s' b r' :
  wf_reader r → 0 ≤ n → into interrupt n r s = (s', Ok (b, r')) → byteLength b = n ∧ reads b r r'.
Proof using Type. intros Hwf Hn E. by apply into_loop_reads in E as (c & -> & ? & ?). Qed.
Lemma read_reads n r s s' b r' :
  wf_reader r → 0 ≤ n → read interrupt n r s = (s', Ok (b, r')) → byteLength b = n ∧ reads b r r'.
Proof using Type. intros Hwf Hn ([] & s1 & _ & E)%st_ok. by eapply into_reads. Qed.
Lemma end_reads r s s' r' : wf_reader r → end_ interrupt r s = (s', Ok r') → reads [] r r' ∧ at_end r'.
Proof using Type.
  intros Hwf ([more r1] & s1 & EA & E)%st_ok. apply available_reads in EA as [HR HM]; [|done].
  destruct more; [done|]. by injection E as <- <-.
Qed.
End format.

(** ** The stream of compressed bytes *)
Definition pending_rest (s : st) : bytes :=
  match t_pending s with Some p => drop (Z.to_nat (t_position s)) p | None => [] end.
Definition pending_ok (s : st) : Prop :=
  match t_pending s with Some p => 0 ≤ t_position s < byteLength p | None => t_position s = 0 end.

Definition record_size (packed index : Z) : Z := Z.min CHUNK (packed - index * CHUNK).
Definition record_count (packed : Z) : Z := ceil_div packed CHUNK.
Lemma record_size_positive packed index :
  1 ≤ packed → 0 ≤ index < record_count packed → 1 ≤ record_size packed index ≤ CHUNK.
Proof.
  unfold record_count, record_size, ceil_div, CHUNK. change (1024 * 1024) with 1048576.
  intros Hp Hi. Z.to_euclidean_division_equations. lia.
Qed.

(** Everything of the state that the pull shares, apart from the pending record. *)
Record shared (s s' : st) : Prop := { sh_index : t_index s' = t_index s; sh_hash : t_hash s' = t_hash s }.

Lemma discard_spec s : pending_ok (discard s) ∧ pending_rest (discard s) = [] ∧ t_pending (discard s) = None ∧ shared s (discard s).
Proof. unfold discard. destruct (t_pending s); by split_and!. Qed.

Lemma enqueue_spec s p :
  pending_ok s → t_pending s = Some p →
  ∃ piece s', enqueue s = (s', Ok (Enqueued piece)) ∧ pending_ok s' ∧ shared s s' ∧ piece ≠ [] ∧
    piece ++ pending_rest s' = pending_rest s ∧
    byteLength (pending_rest s') = Z.max 0 (byteLength (pending_rest s) - PIECE).
Proof.
  intros Hok E. unfold pending_ok, pending_rest in *. rewrite E in *. unfold enqueue.
  unfold mbind, M_bind, gets, modify, mret, M_ret. cbn. rewrite E. change (default [] (Some p)) with p.
  set (last := Z.min _ _). assert (HP : 0 < PIECE) by done.
  assert (HL : t_position s < last ≤ byteLength p) by lia.
  assert (HS : slice p (t_position s) last ++ drop (Z.to_nat last) p = drop (Z.to_nat (t_position s)) p).
  { unfold slice. replace (Z.to_nat last) with (Z.to_nat (t_position s) + Z.to_nat (last - t_position s))%nat by lia.
    by rewrite <- drop_drop, take_drop. }
  assert (HN : slice p (t_position s) last ≠ []).
  { intros EN. apply (f_equal length) in EN. unfold slice, byteLength in *. rewrite length_take, length_drop in EN. cbn in EN. lia. }
  destruct (last =? byteLength p) eqn:EL; bools; eexists _, _; (split; [done|]); cbn.
  - split_and!; try done.
    + rewrite <- HS, drop_ge; [done|]. rewrite EL. unfold byteLength. lia.
    + unfold byteLength in *. rewrite length_drop. cbn. lia.
  - split_and!; try done; [lia|lia|]. unfold byteLength in *. rewrite !length_drop. lia.
Qed.

Section drain.
Context (interrupt : nat → option exn) (open_state : bytes → bytes → result bytes) (header : bytes) (packed : Z).
Hypothesis Hpacked : 1 ≤ packed.
#[local] Notation open_record := (open_record interrupt open_state header packed).
#[local] Notation pull := (pull interrupt open_state header packed).
#[local] Notation drain := (λ fuel, drain interrupt open_state fuel header packed).

(** The records from number [k] on: their bytes in the file and what they hold. *)
Inductive records : Z → list bytes → list bytes → Prop :=
| records_nil : records (record_count packed) [] []
| records_cons k sealed plain ss ps :
    0 ≤ k < record_count packed →
    byteLength sealed = record_size packed k + 62 → byteLength plain = record_size packed k →
    open_state (context header k) sealed = Ok plain →
    records (k + 1) ss ps → records k (sealed :: ss) (plain :: ps).

Lemma open_record_spec src s s' src' :
  wf_reader src → 0 ≤ t_index s < record_count packed → open_record src s = (s', Ok src') →
  ∃ sealed plain, open_state (context header (t_index s)) sealed = Ok plain ∧ reads sealed src src' ∧
    byteLength sealed = record_size packed (t_index s) + 62 ∧ byteLength plain = record_size packed (t_index s) ∧
    t_pending s' = Some plain ∧ t_position s' = 0 ∧ t_index s' = t_index s + 1 ∧ t_hash s' = t_hash s ++ sealed.
Proof using Hpacked.
  intros Hwf Hi. pose proof (record_size_positive packed _ Hpacked Hi) as HS. unfold record_size in *.
  unfold StateFormat.open_record. intros (s0 & s1 & [= <- <-] & E)%st_ok. cbv zeta in E.
  apply st_ok in E as ([sealed src1] & s1 & ER & E). pose proof (ticks_read interrupt (Z.min CHUNK (packed - t_index s * CHUNK) + 62) src s) as HT.
  rewrite ER in HT. cbn in HT. apply read_reads in ER as [HL HR]; [|done|lia].
  apply st_ok in E as ([] & s2 & [= <-] & E). apply st_ok in E as (plain & s2 & EO & E).
  injection EO as <- EO. apply st_ok in E as ([] & s2 & [= <-] & E).
  apply st_ok in E as ([] & s2 & EF & E). apply st_ok in E as ([] & s3 & EC & [= <- <-]).
  pose proof (ticks_check interrupt s2) as HC. rewrite EC in HC. cbn in HC. unfold finally in EF.
  destruct (negb _) eqn:EN; [done|]. bools. injection EF as <-. exists sealed, plain.
  split_and!; try done; try lia; [by rewrite (tk_pending _ _ HC)|by rewrite (tk_position _ _ HC)|..].
  - rewrite (tk_index _ _ HC). done.
  - rewrite (tk_hash _ _ HC). cbn. by rewrite (tk_hash _ _ HT).
Qed.

(** One pull that does not fail: it opens no record or the next one. *)
Record pulls (out : bytes) (src src' : reader) (s s' : st) : Prop := {
  pl_pending : pending_ok s';
  pl_index : t_index s ≤ t_index s' ≤ record_count packed;
  pl_records : ∃ ss ps, (∀ ss' ps', records (t_index s') ss' ps' → records (t_index s) (ss ++ ss') (ps ++ ps')) ∧
    reads (concat ss) src src' ∧ t_hash s' = t_hash s ++ concat ss ∧
    out ++ pending_rest s' = pending_rest s ++ concat ps
}.

Lemma pulls_refl src s : wf_reader src → pending_ok s → 0 ≤ t_index s ≤ record_count packed → pulls [] src src s s.
Proof using Type.
  intros Hwf Hok Hi. split; [done|lia|]. exists [], []. cbn. rewrite !app_nil_r. split_and!; try done. by apply reads_refl.
Qed.

Lemma pulls_trans a b src1 src2 src3 s1 s2 s3 :
  pulls a src1 src2 s1 s2 → pulls b src2 src3 s2 s3 → pulls (a ++ b) src1 src3 s1 s3.
Proof using Type.
  intros [? ? (ss & ps & H1 & H2 & H3 & H4)] [? ? (ss' & ps' & F1 & F2 & F3 & F4)]. split; [done|lia|].
  exists (ss ++ ss'), (ps ++ ps'). rewrite !concat_app. split_and!.
  - intros ss'' ps'' HR. rewrite <- !app_assoc. by apply H1, F1.
  - by eapply reads_trans.
  - by rewrite F3, H3, app_assoc.
  - rewrite <- app_assoc, F4, !app_assoc. f_equal. done.
Qed.

Lemma ticked_pending s s' : ticked s s' → pending_rest s' = pending_rest s ∧ (pending_ok s → pending_ok s').
Proof using Type. intros []. unfold pending_rest, pending_ok. by rewrite tk_pending0, tk_position0. Qed.

Lemma pulls_ticked src s s' :
  ticked s s' → wf_reader src → pending_ok s → 0 ≤ t_index s ≤ record_count packed → pulls [] src src s s'.
Proof using Type.
  intros HT Hwf Hok Hi. destruct (ticked_pending _ _ HT) as [E H]. split; [auto|rewrite (tk_index _ _ HT); lia|].
  exists [], []. cbn. rewrite (tk_index _ _ HT), (tk_hash _ _ HT), E, !app_nil_r. split_and!; try done. by apply reads_refl.
Qed.

Lemma pulls_enqueue src s p s' x :
  wf_reader src → pending_ok s → 0 ≤ t_index s ≤ record_count packed → t_pending s = Some p → enqueue s = (s', Ok x) →
  ∃ piece, x = Enqueued piece ∧ pulls piece src src s s'.
Proof using Type.
  intros Hwf Hok Hi EP E. destruct (enqueue_spec s p Hok EP) as (piece & s1 & E1 & Hok' & [HI HH] & _ & HP & _).
  rewrite E1 in E. injection E as <- <-. exists piece. split; [done|]. split; [done|lia|].
  exists [], []. cbn. rewrite HI, HH, !app_nil_r. split_and!; try done. by apply reads_refl.
Qed.

Lemma pulls_record src s s' src' :
  wf_reader src → t_pending s = None → 0 ≤ t_index s < record_count packed → open_record src s = (s', Ok src') →
  pulls [] src src' s s' ∧ is_Some (t_pending s').
Proof using Hpacked.
  intros Hwf EP Hi E. pose proof (record_size_positive packed _ Hpacked Hi) as HS.
  destruct (open_record_spec _ _ _ _ Hwf Hi E) as (sealed & plain & HO & HR & HL & HL' & E1 & E2 & E3 & E4).
  split; [|by rewrite E1]. split; [unfold pending_ok; rewrite E1, E2; lia|lia|].
  exists [sealed], [plain]. cbn. rewrite !app_nil_r, E3. split_and!; [|done|done|].
  - intros ss' ps' HR'. by apply records_cons.
  - unfold pending_rest. by rewrite E1, E2, EP.
Qed.

Lemma pull_spec src s s' src' x :
  wf_reader src → pending_ok s → 0 ≤ t_index s ≤ record_count packed → pull src s = (s', Ok (src', x)) →
  match x with
  | Enqueued piece => pulls piece src src' s s'
  | Closed => pulls [] src src' s s' ∧ t_pending s' = None ∧ t_index s' = record_count packed ∧ at_end src'
  | Errored _ => True
  end.
Proof using Hpacked.
  intros Hwf Hok Hi. unfold StateFormat.pull, catch.
  match goal with |- context [match ?m s with _ => _ end] => destruct (m s) as [s1 [[src1 y]|e]] eqn:E end.
  2:{ intros [= _ _ <-]. done. }
  intros [= <- <- <-]. apply st_ok in E as ([] & s2 & EC & E).
  pose proof (ticks_check interrupt s) as HT. rewrite EC in HT. cbn in HT.
  pose proof (pulls_ticked src s s2 HT Hwf Hok Hi) as H1. pose proof (tk_index _ _ HT) as HI.
  pose proof (pl_pending _ _ _ _ _ H1) as Hok2. apply st_ok in E as (s3 & s4 & [= <- <-] & E).
  destruct (t_pending s2) as [p|] eqn:EP.
  - apply st_ok in E as (x' & s3 & EE & [= <- <- <-]).
    destruct (pulls_enqueue src s2 p s3 x' Hwf Hok2 ltac:(lia) EP EE) as (piece & -> & H2). exact (pulls_trans [] _ _ _ _ _ _ _ H1 H2).
  - fold (record_count packed) in E. destruct (t_index s2 =? record_count packed) eqn:EN; bools.
    + apply st_ok in E as (src2 & s3 & EE & [= <- <- <-]). pose proof (ticks_end interrupt src s2) as HT2.
      rewrite EE in HT2. cbn in HT2. apply end_reads in EE as [HR HE]; [|done].
      assert (H2 : pulls [] src src2 s2 s3).
      { destruct (pulls_ticked src s2 s3 HT2 Hwf Hok2 ltac:(lia)) as [? ? (ss & ps & F1 & F2 & F3 & F4)]. split; [done|done|].
        exists [], []. cbn. rewrite (tk_index _ _ HT2), (tk_hash _ _ HT2), !app_nil_r. split_and!; try done.
        by destruct (ticked_pending _ _ HT2). }
      split_and!; [exact (pulls_trans [] [] _ _ _ _ _ _ H1 H2)|by rewrite (tk_pending _ _ HT2)|by rewrite (tk_index _ _ HT2)|done].
    + apply st_ok in E as (src2 & s3 & EE & E). apply st_ok in E as (x' & s4 & EE2 & [= <- <- <-]).
      destruct (pulls_record src s2 s3 src2 Hwf EP ltac:(lia) EE) as [H2 [p HP]].
      destruct H2 as [Hok3 Hi3 HX]. assert (Hwf2 : wf_reader src2) by (destruct HX as (? & ? & _ & [] & _); done).
      destruct (pulls_enqueue src2 s3 p s4 x' Hwf2 Hok3 ltac:(lia) HP EE2) as (piece & -> & H3).
      exact (pulls_trans [] _ _ _ _ _ _ _ H1 (pulls_trans [] _ _ _ _ _ _ _ (Build_pulls _ _ _ _ _ Hok3 Hi3 HX) H3)).
Qed.

Lemma pulls_wf out src src' s s' : pulls out src src' s s' → wf_reader src'.
Proof using Type. by intros [_ _ (? & ? & _ & [] & _)]. Qed.

Lemma drain_pulls fuel src s s' src' t :
  wf_reader src → pending_ok s → 0 ≤ t_index s ≤ record_count packed → drain fuel src s = (s', Ok (src', t)) →
  s_error t = None →
  ∃ chunks, s_chunks t = Some <$> chunks ∧ pulls (concat chunks) src src' s s' ∧
    t_pending s' = None ∧ t_index s' = record_count packed ∧ at_end src'.
Proof using Hpacked.
  revert src s t. induction fuel as [|fuel IH]; intros src s t Hwf Hok Hi; cbn [StateFormat.drain].
  { by intros [= <- <- <-]. }
  intros ([src1 x] & s1 & EP & E)%st_ok HE. apply pull_spec in EP; [|done..]. destruct x as [piece| |e].
  - apply st_ok in E as ([src2 t2] & s2 & ED & [= <- <- <-]). cbn in HE.
    destruct EP as [Hok1 Hi1 HX] eqn:EX. pose proof (pulls_wf _ _ _ _ _ EP) as Hwf1.
    apply IH in ED as (chunks & HC & HP & ?); [|done|done|lia|done]. exists (piece :: chunks). cbn. rewrite HC.
    split; [done|]. split; [exact (pulls_trans _ _ _ _ _ _ _ _ EP HP)|done].
  - injection E as <- <- <-. exists []. split; [done|]. done.
  - by injection E as <- <- <-.
Qed.

(** What the drained stream holds: the records of the file, in order. *)
Lemma drain_records fuel src s s' src' t :
  wf_reader src → t_pending s = None → t_position s = 0 → t_index s = 0 → drain fuel src s = (s', Ok (src', t)) →
  s_error t = None →
  ∃ chunks sealed plains, s_chunks t = Some <$> chunks ∧ concat chunks = concat plains ∧ records 0 sealed plains ∧
    reads (concat sealed) src src' ∧ at_end src' ∧ t_hash s' = t_hash s ++ concat sealed.
Proof using Hpacked.
  intros Hwf EP E0 EI ED HE. assert (0 ≤ record_count packed) by (apply Z.div_pos; unfold CHUNK; lia).
  apply drain_pulls in ED as (chunks & HC & [_ _ (ss & ps & HR & HS & HH & HO)] & EP' & EI' & HA);
    [|done|unfold pending_ok; by rewrite EP|lia|done].
  unfold pending_rest in HO. rewrite EP, EP', app_nil_r in HO. cbn in HO. rewrite EI' in HR.
  specialize (HR [] [] records_nil). rewrite !app_nil_r, EI in HR. by exists chunks, ss, ps.
Qed.
End drain.

(** ** decodeState *)
Section decode.
Context (interrupt : nat → option exn) (state_base : result bytes) (open_state : bytes → bytes → result bytes).
Context (inflate : stream → stream) (parse : bytes → option jsval) (sha256 : bytes → bytes).
#[local] Notation read_header := (read_header interrupt).
#[local] Notation check_header := (check_header interrupt state_base parse).
#[local] Notation read_sections := (read_sections interrupt parse).
#[local] Notation decode_body := (decode_body interrupt state_base open_state inflate parse sha256).

Lemma read_header_spec src s s' header src' :
  wf_reader src → read_header src s = (s', Ok (header, src')) →
  ∃ len, byteLength len = 4 ∧ number len = byteLength header ∧ 1 ≤ byteLength header ≤ 4096 ∧
    reads (MAGIC ++ len ++ header) src src' ∧ t_hash s' = MAGIC ++ len ++ header ∧
    t_pending s' = t_pending s ∧ t_position s' = t_position s ∧ t_index s' = t_index s.
Proof using Type.
  intros Hwf ([prefix src1] & s1 & EP & E)%st_ok. pose proof (ticks_read interrupt 12 src s) as H1. rewrite EP in H1. cbn in H1.
  apply read_reads in EP as [HL HR]; [|done|lia]. apply st_ok in E as ([] & s2 & EC & E).
  pose proof (ticks_check interrupt s1) as H2. rewrite EC in H2. cbn in H2. case_bool_decide as HM; [|done]. cbn [negb] in E. cbv zeta in E.
  destruct ((number (drop 8 prefix) <? 1) || (4096 <? number (drop 8 prefix))) eqn:EN; [done|]. bools.
  apply st_ok in E as ([h src2] & s3 & EH & E). pose proof (ticks_read interrupt (number (drop 8 prefix)) src1 s2) as H3.
  rewrite EH in H3. cbn in H3. apply read_reads in EH as [HL2 HR2]; [|by apply HR|lia].
  apply st_ok in E as ([] & s4 & [= <-] & [= <- <- <-]). exists (drop 8 prefix).
  assert (EX : prefix = MAGIC ++ drop 8 prefix) by (rewrite <- HM; by rewrite take_drop).
  split_and!; try done; try lia; cbn.
  - unfold byteLength in *. rewrite length_drop. lia.
  - rewrite app_assoc, <- EX. by eapply reads_trans.
  - by rewrite app_assoc, <- EX.
  - by rewrite (tk_pending _ _ H3), (tk_pending _ _ H2), (tk_pending _ _ H1).
  - by rewrite (tk_position _ _ H3), (tk_position _ _ H2), (tk_position _ _ H1).
  - by rewrite (tk_index _ _ H3), (tk_index _ _ H2), (tk_index _ _ H1).
Qed.

(** A header the decoder accepts. *)
Record good_header (size : jsval) (header : bytes) (raw packed expected : Z) : Prop := {
  gh_parse : ∃ h base, parse header = Some h ∧ state_base = Ok base ∧ header_sizes h = Ok (raw, packed) ∧ base_matches h base = true;
  gh_raw : 4 ≤ raw ≤ LIMIT;
  gh_packed : 1 ≤ packed ≤ LIMIT;
  gh_expected : expected = 12 + byteLength header + packed + record_count packed * 62;
  gh_size : size = JUndefined ∨ size = JInt expected
}.

Lemma header_sizes_bounds h raw packed : header_sizes h = Ok (raw, packed) → 4 ≤ raw ≤ LIMIT ∧ 1 ≤ packed ≤ LIMIT.
Proof using Type.
  assert (HB : ∀ key lo n, bounded_field h key lo = Some n → lo ≤ n ≤ LIMIT).
  { unfold bounded_field. intros key lo n. destruct (as_safe_integer _) as [m|]; [|done].
    destruct (_ && _) eqn:E; [|done]. intros [= <-]. bools. lia. }
  unfold header_sizes. destruct h; try done.
  all: destruct (bounded_field _ "raw" 4) as [r|] eqn:E1; [|done]; destruct (bounded_field _ "packed" 1) as [p|] eqn:E2; [|done].
  all: destruct (is_int _ 1); [|done]; intros [= <- <-]; split; by eapply HB.
Qed.

Lemma check_header_spec size header s s' raw packed expected :
  check_header size header s = (s', Ok (raw, packed, expected)) →
  ticked s s' ∧ good_header size header raw packed expected.
Proof using Type.
  unfold StateFormat.check_header. destruct (parse header) as [h|] eqn:EP; [|done].
  intros ([r p] & s1 & E1 & E)%st_ok. injection E1 as <- E1. apply st_ok in E as (base & s1 & E2 & E). injection E2 as <- E2.
  apply st_ok in E as ([] & s1 & EC & E). pose proof (ticks_check interrupt s) as HT. rewrite EC in HT. cbn in HT.
  destruct (base_matches h base) eqn:EB; [|done]. cbn [negb] in E. cbv zeta in E.
  destruct ((LIMIT + 65536 <? _) || _) eqn:EX; [done|]. apply orb_false_iff in EX as [EX1 EX2].
  injection E as <- <- <- <-. split; [done|]. destruct (header_sizes_bounds _ _ _ E1).
  split; try done; [by exists h, base|]. apply negb_false_iff, orb_true_iff in EX2 as [EX2|EX2].
  - left. by destruct size.
  - right. unfold is_int in EX2. destruct size as [| | |[]| | |]; try done. apply Z.eqb_eq in EX2 as ->. done.
Qed.

Record good_sections (raw : Z) (metaLength meta : bytes) (metadata : jsval) (state overlay : bytes) : Prop := {
  gs_length : byteLength metaLength = 4;
  gs_meta : number metaLength = byteLength meta ∧ byteLength meta ≤ 65536;
  gs_parse : parse meta = Some metadata;
  gs_state : get metadata "stateLength" = JInt (byteLength state) ∧ 1 ≤ byteLength state;
  gs_overlay : get metadata "overlayLength" = JInt (byteLength overlay);
  gs_sum : 4 + byteLength meta + byteLength state + byteLength overlay = raw
}.

Lemma section_lengths_spec metadata m raw s o :
  section_lengths metadata m raw = Ok (s, o) →
  get metadata "stateLength" = JInt s ∧ get metadata "overlayLength" = JInt o ∧ 1 ≤ s ∧ 0 ≤ o ∧ 4 + m + s + o = raw.
Proof using Type.
  unfold section_lengths. intros H.
  destruct (as_safe_integer (get metadata "stateLength")) as [s'|] eqn:E1; [|by destruct metadata].
  destruct (as_safe_integer (get metadata "overlayLength")) as [o'|] eqn:E2; [|by destruct metadata].
  apply as_safe_integer_Some in E1 as [E1 _], E2 as [E2 _].
  assert (HC : (if (s' <? 1) || (o' <? 0) || negb (4 + m + s' + o' =? raw) then invalid "Invalid state sections" else Ok (s', o')) = Ok (s, o)).
  { destruct metadata; done. }
  destruct (_ || _ || _) eqn:EC; [done|]. injection HC as -> ->. apply orb_false_iff in EC as [EC EX]. bools. by split_and!.
Qed.

Lemma read_sections_spec raw r s s' metadata state overlay r' :
  wf_reader r → read_sections raw r s = (s', Ok (metadata, state, overlay, r')) →
  ∃ metaLength meta, good_sections raw metaLength meta metadata state overlay ∧
    reads (metaLength ++ meta ++ state ++ overlay) r r' ∧ at_end r' ∧
    t_hash s' = t_hash s ∧ t_pending s' = t_pending s ∧ t_log s' = t_log s ++ [Alloc MachineState; Alloc RestoredOverlay].
Proof using Type.
  intros Hwf ([b r1] & s1 & EB & E)%st_ok. pose proof (ticks_read interrupt 4 r s) as H1. rewrite EB in H1. cbn in H1.
  apply read_reads in EB as [HL HR]; [|done|lia]. cbv zeta in E.
  destruct ((65536 <? number b) || (raw <? number b + 4)) eqn:EN; [done|]. bools.
  apply st_ok in E as ([m r2] & s2 & EM & E). pose proof (ticks_read interrupt (number b) r1 s1) as H2. rewrite EM in H2. cbn in H2.
  assert (Hnb : 0 ≤ number b) by apply le_value_bounds.
  apply read_reads in EM as [HLm HRm]; [|by apply HR|done]. destruct (parse m) as [md|] eqn:EP; [|done].
  apply st_ok in E as ([sl ol] & s3 & ES & E). injection ES as <- ES. apply section_lengths_spec in ES as (E1 & E2 & E3 & E4 & E5).
  apply st_ok in E as ([] & s3 & EC & E). pose proof (ticks_check interrupt s2) as H3. rewrite EC in H3. cbn in H3.
  apply st_ok in E as ([] & s4 & [= <-] & E). apply st_ok in E as ([] & s4 & [= <-] & E).
  set (s4 := note _ _) in E. apply st_ok in E as ([st r3] & s5 & EI & E).
  pose proof (ticks_into interrupt sl r2 s4) as H4. rewrite EI in H4. cbn in H4. apply into_reads in EI as [HLs HRs]; [|by apply HRm|lia].
  apply st_ok in E as ([ov r4] & s6 & EI & E). pose proof (ticks_into interrupt ol r3 s5) as H5. rewrite EI in H5. cbn in H5.
  apply into_reads in EI as [HLo HRo]; [|by apply HRs|lia]. apply st_ok in E as (r5 & s7 & EE & E).
  pose proof (ticks_end interrupt r4 s6) as H6. rewrite EE in H6. cbn in H6. apply end_reads in EE as [HRe HE]; [|by apply HRo].
  apply st_ok in E as ([] & s8 & EC2 & [= <- <- <- <- <-]). pose proof (ticks_check interrupt s7) as H7. rewrite EC2 in H7. cbn in H7.
  assert (HT : ticked s4 s8) by (by do 3 (etrans; [eassumption|])). assert (HT2 : ticked s s3) by (by do 2 (etrans; [eassumption|])).
  exists b, m. split_and!.
  - rewrite <- HLs in *. rewrite <- HLo in *. split; [done|split; [done|lia]|done|split; [done|lia]|done|lia].
  - apply (reads_trans _ _ _ _ _ HR), (reads_trans _ _ _ _ _ HRm). rewrite <- (app_nil_r ov).
    apply (reads_trans _ _ _ _ _ HRs). by eapply reads_trans.
  - done.
  - rewrite (tk_hash _ _ HT). apply (tk_hash _ _ HT2).
  - rewrite (tk_pending _ _ HT). apply (tk_pending _ _ HT2).
  - rewrite (tk_log _ _ HT). cbn. by rewrite (tk_log _ _ HT2), <- app_assoc.
Qed.

Lemma reads_max m b r r' : reads b r r' → reads b (with_max m r) (with_max m r').
Proof using Type. intros [HC HE HM HW]. by split. Qed.

(** A whole stream. *)
Lemma reads_stream t max b r : reads b (new_reader t max) r → at_end r →
  ∃ l, s_chunks t = Some <$> l ∧ concat l = b ∧ s_error t = None ∧ rd_received r = byteLength b.
Proof using Type.
  intros [(l & E1 & E2 & E3) HE _ _] [A1 A2 A3]. exists l. rewrite A1, app_nil_r in E1. rewrite A2, app_nil_r in E2.
  cbn in *. rewrite <- E2, E3. split_and!; try done; congruence.
Qed.

Lemma wf_new t max : wf_reader (new_reader t max).
Proof using Type. unfold wf_reader, byteLength. cbn. lia. Qed.

Hypothesis inflate_error : ∀ t, s_error t ≠ None → s_error (inflate t) ≠ None.

Lemma decode_body_sound size t s s' d :
  t_pending s = None → t_position s = 0 → t_index s = 0 → decode_body size t s = (s', Ok d) →
  ∃ chunks len header raw packed sealed plains,
    s_chunks t = Some <$> chunks ∧ s_error t = None ∧
    concat chunks = MAGIC ++ len ++ header ++ concat sealed ∧
    (byteLength len = 4 ∧ number len = byteLength header ∧ byteLength header ≤ 4096) ∧
    good_header size header raw packed (byteLength (concat chunks)) ∧
    records open_state header packed 0 sealed plains ∧
    (∃ pieces out metaLength meta, concat pieces = concat plains ∧
       inflate (Stream (Some <$> pieces) None) = Stream (Some <$> out) None ∧
       concat out = metaLength ++ meta ++ dc_state d ++ dc_overlay d ∧
       good_sections raw metaLength meta (dc_metadata d) (dc_state d) (dc_overlay d)) ∧
    dc_stateSha256 d = hex (sha256 (concat chunks)).
Proof using inflate_error.
  intros EP EO EI. unfold StateFormat.decode_body. intros ([] & s1 & EC & E)%st_ok.
  pose proof (ticks_check interrupt s) as H1. rewrite EC in H1. cbn in H1.
  apply st_ok in E as ([header src1] & s2 & EH & E).
  apply read_header_spec in EH as (len & L1 & L2 & L3 & HR1 & HH & HP1 & HP2 & HP3); [|apply wf_new].
  apply st_ok in E as ([[raw packed] expected] & s3 & EG & E). apply check_header_spec in EG as [H3 HG].
  apply st_ok in E as ([src2 ct] & s4 & ED & E). apply st_ok in E as ([] & s5 & [= <-] & E).
  apply st_ok in E as ([[[md st] ov] r] & s6 & ES & E).
  apply read_sections_spec in ES as (ml & m & HS & HR2 & HA2 & HH2 & _); [|apply wf_new].
  apply st_ok in E as (? & s7 & [= <- <-] & E). destruct (negb _ || negb _) eqn:EN; [done|]. bools.
  injection E as <- <-. cbn. destruct (reads_stream _ _ _ _ HR2 HA2) as (out & EO1 & EO2 & EO3 & EO4).
  assert (HE : s_error ct = None).
  { destruct (s_error ct) eqn:E; [|done]. exfalso. apply (inflate_error ct); [by rewrite E|done]. }
  apply drain_records in ED as (pieces & sealed & plains & EC1 & EC2 & HRec & HR3 & HA & HH3); [|apply HG|apply (reads_max expected _ _ _ HR1)|..|done].
  2: rewrite (tk_pending _ _ H3), HP1, (tk_pending _ _ H1); done.
  2: rewrite (tk_position _ _ H3), HP2, (tk_position _ _ H1); done.
  2: rewrite (tk_index _ _ H3), HP3, (tk_index _ _ H1); done.
  pose proof (reads_trans _ _ _ _ _ (reads_max expected _ _ _ HR1) HR3) as HR.
  change (with_max expected (new_reader t (LIMIT + 65536))) with (new_reader t expected) in HR.
  destruct (reads_stream _ _ _ _ HR HA) as (chunks & F1 & F2 & F3 & F4). rewrite <- !app_assoc in F2.
  exists chunks, len, header, raw, packed, sealed, plains.
  assert (EX : byteLength (concat chunks) = expected).
  { rewrite F2. rewrite <- !app_assoc in F4. by rewrite <- F4. }
  split_and!; try done; [lia|by rewrite EX|..].
  - exists pieces, out, ml, m. split_and!; try done.
    destruct ct as [cc ce]. cbn in *. subst cc ce. destruct (inflate _) as [oc oe]. cbn in *. by subst oc oe.
  - rewrite HH2. cbn. rewrite HH3, (tk_hash _ _ H3), HH, F2, <- !app_assoc. done.
Qed.
End decode.
