(* ===== verification/StateRoundTrip.v ===== *)
(** * Saved machine states: the round trip

    When nothing is cancelled, [decodeState] gives back what [encodeState] was given,
    however the file is cut into chunks; and whatever happens, what it accepts has the
    file's structure, and plaintext is wiped. *)
From S2P Require Import Prelude JsValue Hex StateFormat StateFormatFacts.
#[local] Open Scope Z_scope.
Import StateFormat.
#[local] Arguments CHUNK : simpl never.
#[local] Arguments MAGIC : simpl never.
#[local] Arguments LIMIT : simpl never.
#[local] Arguments PIECE : simpl never.
#[local] Arguments Z.mul : simpl never.
#[local] Arguments Z.add : simpl never.
#[local] Arguments le_value : simpl never.

(** ** Readers that do not fail *)

(** The chunks left are bytes and within the limit. *)
Definition fits (r : reader) : Prop :=
  ∃ l, rd_in r = Some <$> l ∧ rd_error r = None ∧ rd_received r + byteLength (concat l) ≤ rd_max r.
Definition left (r : reader) : bytes := rest r ++ concat (omap id (rd_in r)).

Lemma omap_Some {A} (l : list A) : omap id (Some <$> l) = l.
Proof. induction l; cbn; by f_equal. Qed.

Lemma reads_fits b r r' : reads b r r' → fits r → fits r' ∧ left r = b ++ left r'.
Proof.
  intros [(l & E1 & E2 & E3) HE HM _] (k & F1 & F2 & F3). rewrite F1 in E1.
  apply fmap_app_inv in E1 as (k1 & k2 & E4 & E5 & ->).
  apply (inj (fmap Some)) in E4 as ->. rewrite concat_app, byteLength_app in F3. split.
  - exists k2. split_and!; [done|congruence|lia].
  - unfold left. rewrite F1, E5, fmap_app, !omap_app, !omap_Some, concat_app.
    by rewrite app_assoc, E2, app_assoc.
Qed.

Lemma ceil_div_next n : 0 < n → ceil_div (Z.max 0 (n - PIECE)) PIECE = ceil_div n PIECE - 1.
Proof. unfold ceil_div, PIECE. intros H. Z.to_euclidean_division_equations. lia. Qed.

Lemma record_pieces n : 1 ≤ n ≤ CHUNK → ceil_div n PIECE ≤ 64.
Proof. unfold ceil_div, PIECE, CHUNK. change (1024 * 1024) with 1048576. intros H. Z.to_euclidean_division_equations. lia. Qed.

Section complete.
Context (interrupt : nat → option exn).
Hypothesis no_interrupt : ∀ n, interrupt n = None.

Lemma check_ok s : ∃ s', check interrupt s = (s', Ok tt) ∧ ticked s s'.
Proof using no_interrupt.
  pose proof (ticks_check interrupt s) as HT. destruct (check interrupt s) as [s' [[]|e]] eqn:E; [by exists s'|].
  unfold check in E. by rewrite no_interrupt in E.
Qed.

Lemma available_loop_ok inp r s :
  rd_in r = inp → fits r → ∃ s' more r', available_loop interrupt inp r s = (s', Ok (more, r')).
Proof using no_interrupt.
  revert r s. induction inp as [|value inp IH]; intros r s Hin (l & E1 & E2 & E3); cbn [available_loop];
    destruct (negb _); try (by eexists _, _, _); unfold mbind, M_bind.
  - rewrite E2. destruct (check_ok s) as (s' & -> & _). by eexists _, _, _.
  - destruct (check_ok s) as (s' & -> & _). rewrite Hin in E1. destruct l as [|c l]; [done|]. injection E1 as -> ->.
    cbn [concat] in E3. rewrite byteLength_app in E3. pose proof (byteLength_nonneg (concat l)). cbv zeta.
    destruct (rd_max r <? _) eqn:EM; bools; [lia|]. apply IH; [done|]. exists l. cbn. split_and!; [done|done|lia].
Qed.

Lemma available_ok r s : fits r → ∃ s' more r', available interrupt r s = (s', Ok (more, r')).
Proof using no_interrupt.
  intros H. unfold available, mbind, M_bind. destruct (check_ok s) as (s' & -> & _). by apply available_loop_ok.
Qed.

(** How many turns the loop of [into] takes at most. *)
Definition turns (r : reader) : nat := length (rd_in r) + if decide (rest r = []) then 0 else 1.

Lemma into_loop_ok fuel n acc r s :
  wf_reader r → fits r → n ≤ byteLength (left r) → (turns r ≤ fuel)%nat →
  ∃ s' b r', into_loop interrupt fuel n acc r s = (s', Ok (b, r')).
Proof using no_interrupt.
  revert n acc r s. induction fuel as [|fuel IH]; intros n acc r s Hwf Hfit Hn Ht; cbn [into_loop];
    destruct (n <=? 0) eqn:EN; try (by eexists _, _, _); bools.
  { exfalso. unfold turns in Ht. destruct (decide (rest r = [])) as [E|]; [|lia].
    unfold left in Hn. rewrite E in Hn. destruct (rd_in r); [|cbn in Ht; lia]. unfold byteLength in Hn. cbn in Hn. lia. }
  unfold mbind at 1, M_bind at 1. destruct (available_ok r s Hfit) as (s1 & more & r1 & EA). rewrite EA.
  apply available_reads in EA as [HR HM]; [|done]. destruct (reads_fits _ _ _ HR Hfit) as [Hfit1 HL]. cbn in HL.
  destruct more; cbn [negb].
  2:{ exfalso. destruct HM as [A1 A2 _]. rewrite HL in Hn. unfold left in Hn. rewrite A1, A2 in Hn. unfold byteLength in Hn. cbn in Hn. lia. }
  cbv zeta. pose proof (rs_wf _ _ _ HR) as Hwf1. pose proof (length_rest r1 Hwf1) as HLr.
  assert (HP : 0 < byteLength (rest r1)). { destruct (rest r1); [done|]. unfold byteLength. cbn. lia. }
  set (count := Z.min n _) in *.
  assert (Hc : 0 < count ≤ byteLength (rd_chunk r1) - rd_offset r1) by lia.
  assert (HX : ∀ copied s2, ∃ s' b r', into_loop interrupt fuel (n - count) (acc ++ slice (rd_chunk r1) (rd_offset r1) (rd_offset r1 + count))
    (Reader (rd_in r1) (rd_error r1) (rd_max r1) (rd_chunk r1) (rd_offset r1 + count) (rd_received r1) copied) s2 = (s', Ok (b, r'))).
  { intros copied s2. destruct (copy_reads r1 count copied Hwf1 ltac:(lia)) as [HR2 HL2].
    destruct (reads_fits _ _ _ HR2 Hfit1) as [Hfit2 HL3].
    destruct (decide (n - count ≤ 0)) as [Hle|Hgt].
    { destruct fuel; cbn [into_loop]; rewrite (proj2 (Z.leb_le _ _) Hle); by eexists _, _, _. }
    apply IH; [by apply HR2|done| |].
    - rewrite HL, HL3, byteLength_app in Hn. lia.
    - set (r2 := Reader _ _ _ _ _ _ _) in *. assert (E2 : rest r2 = []).
      { unfold rest. cbn. apply drop_ge. unfold byteLength in *. lia. }
      destruct (rs_chunks _ _ _ HR) as (l & F1 & F2 & _). unfold turns in *. rewrite decide_True by done. cbn [rd_in r2].
      apply (f_equal length) in F1. rewrite length_app, length_fmap in F1.
      destruct (decide (rest r = [])) as [E|]; [|lia]. rewrite E in F2. cbn in F2. destruct l; [|cbn in F1; lia].
      cbn in F2. by rewrite <- F2 in HM. }
  destruct (8 * CHUNK <=? _); [|apply HX]. unfold mbind at 1, M_bind at 1. destruct (check_ok s1) as (s2 & -> & _). apply HX.
Qed.

Lemma into_ok n r s :
  wf_reader r → fits r → n ≤ byteLength (left r) → ∃ s' b r', into interrupt n r s = (s', Ok (b, r')).
Proof using no_interrupt. intros ???. apply into_loop_ok; try done. unfold turns. case_decide; lia. Qed.
Lemma read_ok n r s :
  wf_reader r → fits r → n ≤ byteLength (left r) → ∃ s' b r', read interrupt n r s = (s', Ok (b, r')).
Proof using no_interrupt.
  intros ???. unfold read, mbind, M_bind. destruct (check_ok s) as (s' & -> & _). by apply into_ok.
Qed.
Lemma end_ok r s : wf_reader r → fits r → left r = [] → ∃ s' r', end_ interrupt r s = (s', Ok r').
Proof using no_interrupt.
  intros Hwf Hfit HL. unfold end_, mbind, M_bind. destruct (available_ok r s Hfit) as (s1 & more & r1 & EA). rewrite EA.
  apply available_reads in EA as [HR HM]; [|done]. destruct (reads_fits _ _ _ HR Hfit) as [_ HL1]. cbn in HL1.
  destruct more; [|by eexists _, _]. exfalso. apply HM. rewrite HL in HL1. unfold left in HL1. by destruct (rest r1).
Qed.

(** The next [b] of the stream, exactly. *)
Lemma into_next b c r s :
  wf_reader r → fits r → left r = b ++ c →
  ∃ s' r', into interrupt (byteLength b) r s = (s', Ok (b, r')) ∧ ticked s s' ∧ reads b r r' ∧
    wf_reader r' ∧ fits r' ∧ left r' = c.
Proof using no_interrupt.
  intros Hwf Hfit HL. destruct (into_ok (byteLength b) r s Hwf Hfit) as (s' & b' & r' & E).
  { rewrite HL, byteLength_app. pose proof (byteLength_nonneg c). lia. }
  pose proof (ticks_into interrupt (byteLength b) r s) as HT. rewrite E in HT. cbn in HT.
  destruct (into_reads _ _ _ _ _ _ _ Hwf (byteLength_nonneg b) E) as [HLb HR].
  destruct (reads_fits _ _ _ HR Hfit) as [Hfit' HL']. rewrite HL in HL'.
  apply app_inj_1 in HL' as [-> ->]; [|unfold byteLength in HLb; lia]. exists s', r'. split_and!; try done. apply HR.
Qed.
Lemma read_next n b c r s :
  wf_reader r → fits r → left r = b ++ c → n = byteLength b →
  ∃ s' r', read interrupt n r s = (s', Ok (b, r')) ∧ ticked s s' ∧ reads b r r' ∧
    wf_reader r' ∧ fits r' ∧ left r' = c.
Proof using no_interrupt.
  intros Hwf Hfit HL ->. unfold read, mbind, M_bind. destruct (check_ok s) as (s1 & -> & HT).
  destruct (into_next b c r s1 Hwf Hfit HL) as (s' & r' & E & HT' & H). exists s', r'. split_and!; [done|by etrans|by apply H..].
Qed.

(** *** The stream of compressed bytes *)
Context (open_state : bytes → bytes → result bytes) (header : bytes) (packed : Z).
Hypothesis Hpacked : 1 ≤ packed.
#[local] Notation records := (records open_state header packed).

Lemma open_record_ok src s sealed plain ss :
  wf_reader src → fits src → left src = sealed ++ concat ss → 0 ≤ t_index s < record_count packed →
  byteLength sealed = record_size packed (t_index s) + 62 → byteLength plain = record_size packed (t_index s) →
  open_state (context header (t_index s)) sealed = Ok plain →
  ∃ s' src', open_record interrupt open_state header packed src s = (s', Ok src') ∧
    wf_reader src' ∧ fits src' ∧ left src' = concat ss ∧
    t_pending s' = Some plain ∧ t_position s' = 0 ∧ t_index s' = t_index s + 1.
Proof using no_interrupt.
  intros Hwf Hfit HL Hi HLs HLp HO. unfold open_record, mbind, M_bind, gets. unfold record_size in *. rewrite <- HLs.
  destruct (read_next _ sealed _ src s Hwf Hfit HL eq_refl) as (s1 & src1 & -> & HT & HR & Hwf1 & Hfit1 & HL1).
  unfold modify, lift. cbn. rewrite HO. unfold tell, modify, finally. cbn.
  rewrite (proj2 (Z.eqb_eq _ _)) by lia. cbn.
  rewrite no_interrupt. eexists _, src1. by split_and!.
Qed.

(** The pieces still to come, at most. *)
Definition pieces_left (s : st) : Z :=
  64 * (record_count packed - t_index s) + ceil_div (byteLength (pending_rest s)) PIECE.

Lemma enqueue_step s p :
  pending_ok s → t_pending s = Some p → ∃ s' piece, enqueue s = (s', Ok (Enqueued piece)) ∧ pending_ok s' ∧
    t_index s' = t_index s ∧ pieces_left s' = pieces_left s - 1.
Proof using Type.
  intros Hok EP. destruct (enqueue_spec s p Hok EP) as (piece & s' & E & Hok' & [HI _] & _ & _ & HL).
  exists s', piece. split_and!; try done. unfold pieces_left. rewrite HI, HL.
  unfold pending_ok, pending_rest in *. rewrite EP in *. rewrite ceil_div_next; [lia|].
  unfold byteLength in *. rewrite length_drop. lia.
Qed.

Lemma pull_ok src s ss ps :
  wf_reader src → fits src → left src = concat ss → pending_ok s → records (t_index s) ss ps →
  ∃ s' src' x, pull interrupt open_state header packed src s = (s', Ok (src', x)) ∧
    match x with
    | Enqueued _ => ∃ ss' ps', wf_reader src' ∧ fits src' ∧ left src' = concat ss' ∧ pending_ok s' ∧
                      records (t_index s') ss' ps' ∧ pieces_left s' ≤ pieces_left s - 1
    | Closed => True
    | Errored _ => False
    end.
Proof using no_interrupt Hpacked.
  intros Hwf Hfit HL Hok HR. unfold pull, catch, mbind, M_bind, gets. destruct (check_ok s) as (s1 & -> & HT). cbn.
  destruct (ticked_pending _ _ HT) as [EPR Hok1]. specialize (Hok1 Hok). pose proof (tk_index _ _ HT) as HI.
  assert (EL : pieces_left s1 = pieces_left s) by (unfold pieces_left; by rewrite EPR, HI). rewrite <- HI in HR. rewrite <- EL.
  destruct (t_pending s1) as [p|] eqn:EP.
  { destruct (enqueue_step s1 p Hok1 EP) as (s2 & piece & -> & Hok2 & HI2 & HP2). unfold mret, M_ret. eexists _, _, _.
    split; [done|]. exists ss, ps. rewrite HI2. split_and!; try done. lia. }
  fold (record_count packed). inversion HR as [Ei|k sealed plain ss' ps' Hk HLs HLp HO HR' Ek]; subst.
  - rewrite Z.eqb_refl. destruct (end_ok src s1 Hwf Hfit HL) as (s2 & src' & ->). unfold mret, M_ret. by eexists _, _, _.
  - rewrite (proj2 (Z.eqb_neq _ _)) by lia.
    destruct (open_record_ok src s1 sealed plain ss' Hwf Hfit HL Hk HLs HLp HO) as (s2 & src' & -> & Hwf2 & Hfit2 & HL2 & EP2 & EO2 & EI2).
    pose proof (record_size_positive packed _ Hpacked Hk) as HS.
    assert (Hok2 : pending_ok s2) by (unfold pending_ok; rewrite EP2, EO2; lia).
    destruct (enqueue_step s2 plain Hok2 EP2) as (s3 & piece & -> & Hok3 & HI3 & HP3). unfold mret, M_ret. eexists _, _, _.
    split; [done|]. exists ss', ps'. rewrite HI3, EI2. split_and!; try done. rewrite HP3. unfold pieces_left. rewrite EI2.
    unfold pending_rest. rewrite EP2, EO2, EP. change (drop (Z.to_nat 0) plain) with plain. rewrite HLp.
    pose proof (record_pieces _ HS).
    change (ceil_div (byteLength []) PIECE) with 0. lia.
Qed.

Lemma drain_ok fuel src s ss ps :
  wf_reader src → fits src → left src = concat ss → pending_ok s → records (t_index s) ss ps →
  pieces_left s < Z.of_nat fuel →
  ∃ s' src' t, drain interrupt open_state fuel header packed src s = (s', Ok (src', t)) ∧ s_error t = None.
Proof using no_interrupt Hpacked.
  revert src s ss ps. induction fuel as [|fuel IH]; intros src s ss ps Hwf Hfit HL Hok HR HF.
  { exfalso. assert (0 ≤ pieces_left s); [|lia]. unfold pieces_left.
    assert (t_index s ≤ record_count packed) by (inversion HR; lia).
    assert (0 ≤ ceil_div (byteLength (pending_rest s)) PIECE); [|lia].
    pose proof (byteLength_nonneg (pending_rest s)). apply Z.div_pos; unfold PIECE; lia. }
  cbn [drain]. unfold mbind, M_bind. destruct (pull_ok src s ss ps Hwf Hfit HL Hok HR) as (s1 & src1 & x & -> & HX).
  destruct x as [piece| |e]; [|by eexists _, _, _|done].
  destruct HX as (ss' & ps' & H1 & H2 & H3 & H4 & H5 & H6).
  destruct (IH src1 s1 ss' ps' H1 H2 H3 H4 H5 ltac:(lia)) as (s2 & src2 & t & -> & HE). by eexists _, _, _.
Qed.

(** The records of the same bytes hold the same. *)
Lemma records_functional k ss ps ss' ps' :
  records k ss ps → records k ss' ps' → concat ss = concat ss' → ss = ss' ∧ ps = ps'.
Proof using Type.
  intros H. revert ss' ps'. induction H as [|k sealed plain ss ps Hk HLs HLp HO HR IH]; intros ss' ps' H' E.
  - inversion H' as [|k' sealed plain ss ps Hk]; subst; [done|lia].
  - inversion H' as [Ek|k' sealed' plain' ss1 ps1 Hk' HLs' HLp' HO' HR']; subst; [lia|]. cbn in E.
    apply app_inj_1 in E as [-> E]; [|unfold byteLength in *; lia]. rewrite HO' in HO. injection HO as ->.
    destruct (IH _ _ HR' E) as [-> ->]. done.
Qed.

(** *** decodeState *)
Context (state_base : result bytes) (parse : bytes → option jsval) (sha256 : bytes → bytes) (inflate : stream → stream).

Lemma fits_new t l max : s_chunks t = Some <$> l → s_error t = None → byteLength (concat l) ≤ max →
  fits (new_reader t max) ∧ left (new_reader t max) = concat l.
Proof using Type.
  intros E1 E2 H. split; [by exists l|]. unfold left. cbn. by rewrite E1, omap_Some.
Qed.

Lemma section_lengths_ok raw ml meta metadata state overlay :
  raw ≤ LIMIT → good_sections parse raw ml meta metadata state overlay →
  section_lengths metadata (byteLength meta) raw = Ok (byteLength state, byteLength overlay).
Proof using Type.
  intros HL [_ _ _ [HS ?] HO HX]. unfold section_lengths. rewrite HS, HO. pose proof (byteLength_nonneg overlay).
  pose proof (byteLength_nonneg meta).
  assert (HI : ∀ n, 0 ≤ n ≤ LIMIT → as_safe_integer (JInt n) = Some n).
  { intros n Hn. apply as_safe_integer_Some. split; [done|]. unfold is_safe, MAX_SAFE_INTEGER, LIMIT in *. lia. }
  rewrite !HI by lia. rewrite (proj2 (Z.ltb_ge _ _)), (proj2 (Z.ltb_ge _ _)), (proj2 (Z.eqb_eq _ _)) by lia.
  by destruct metadata.
Qed.

Lemma read_sections_ok raw ml meta metadata state overlay r s :
  raw ≤ LIMIT → wf_reader r → fits r → left r = ml ++ meta ++ state ++ overlay →
  good_sections parse raw ml meta metadata state overlay →
  ∃ s' r', read_sections interrupt parse raw r s = (s', Ok (metadata, state, overlay, r')).
Proof using no_interrupt.
  intros HL Hwf Hfit HX HG. pose proof (section_lengths_ok _ _ _ _ _ _ HL HG) as HSL.
  destruct HG as [G1 [G2 G3] G4 [G5 G6] G7 G8]. unfold read_sections. unfold mbind at 1, M_bind at 1.
  destruct (read_next 4 _ _ _ s Hwf Hfit HX ltac:(lia)) as (s1 & r1 & -> & _ & _ & Hwf1 & Hfit1 & HX1). cbv zeta.
  pose proof (byteLength_nonneg overlay). rewrite G2, (proj2 (Z.ltb_ge _ _)), (proj2 (Z.ltb_ge _ _)) by lia. cbn [orb].
  unfold mbind at 1, M_bind at 1. destruct (read_next _ _ _ _ s1 Hwf1 Hfit1 HX1 eq_refl) as (s2 & r2 & -> & _ & _ & Hwf2 & Hfit2 & HX2).
  rewrite G4, HSL. unfold lift. unfold mbind at 1, M_bind at 1. unfold mbind at 1, M_bind at 1.
  destruct (check_ok s2) as (s3 & -> & _). do 2 (unfold tell, modify; unfold mbind at 1, M_bind at 1).
  unfold mbind at 1, M_bind at 1. destruct (into_next _ _ _ (note (Alloc RestoredOverlay) (note (Alloc MachineState) s3)) Hwf2 Hfit2 HX2)
    as (s4 & r3 & -> & _ & _ & Hwf3 & Hfit3 & HX3).
  unfold mbind at 1, M_bind at 1. rewrite <- (app_nil_r overlay) in HX3.
  destruct (into_next _ _ _ s4 Hwf3 Hfit3 HX3) as (s5 & r4 & -> & _ & _ & Hwf4 & Hfit4 & HX4).
  unfold mbind at 1, M_bind at 1. destruct (end_ok r4 s5 Hwf4 Hfit4 HX4) as (s6 & r5 & ->).
  unfold mbind at 1, M_bind at 1. destruct (check_ok s6) as (s7 & -> & _). by eexists _, _.
Qed.

Lemma check_header_ok size raw expected s :
  good_header state_base parse size header raw packed expected → expected ≤ LIMIT + 65536 →
  ∃ s', check_header interrupt state_base parse size header s = (s', Ok (raw, packed, expected)) ∧ ticked s s'.
Proof using no_interrupt.
  intros [(h & base & E1 & E2 & E3 & E4) _ _ -> HS] HX. unfold check_header. rewrite E1, E3, E2.
  unfold lift. do 2 (unfold mbind at 1, M_bind at 1). unfold mbind, M_bind. destruct (check_ok s) as (s' & -> & HT).
  rewrite E4. cbn [negb]. cbv zeta. fold (record_count packed). rewrite (proj2 (Z.ltb_ge _ _)) by lia.
  exists s'. split; [|done]. destruct HS as [->| ->]; [done|]. cbn [is_undefined is_int JInt orb]. by rewrite Z.eqb_refl.
Qed.

Lemma read_header_ok r len more s :
  wf_reader r → fits r → left r = MAGIC ++ len ++ header ++ more →
  byteLength len = 4 → number len = byteLength header → 1 ≤ byteLength header ≤ 4096 →
  ∃ s' r', read_header interrupt r s = (s', Ok (header, r')) ∧ left r' = more ∧ fits r'.
Proof using no_interrupt.
  intros Hwf Hfit HL HL1 HL2 HL3. unfold read_header. rewrite app_assoc in HL. unfold mbind at 1, M_bind at 1.
  destruct (read_next 12 (MAGIC ++ len) _ _ s Hwf Hfit HL) as (s2 & r1 & -> & _ & _ & Hwf1 & Hfit1 & HL4).
  { by rewrite byteLength_app, HL1. }
  unfold mbind at 1, M_bind at 1. destruct (check_ok s2) as (s3 & -> & _).
  change (take 8 (MAGIC ++ len)) with MAGIC. rewrite bool_decide_true by done. cbn [negb].
  change (drop 8 (MAGIC ++ len)) with len. cbv zeta. rewrite HL2, (proj2 (Z.ltb_ge _ _)), (proj2 (Z.ltb_ge _ _)) by lia. cbn [orb].
  unfold mbind at 1, M_bind at 1. destruct (read_next _ _ _ _ s3 Hwf1 Hfit1 HL4 eq_refl) as (s4 & r2 & -> & _ & _ & _ & Hfit2 & HL5).
  by eexists _, _.
Qed.

(** A file of the right structure is decoded. *)
Lemma decode_body_ok size t chunks len raw sealed plains ml meta metadata state overlay s :
  t_pending s = None → t_position s = 0 → t_index s = 0 →
  s_chunks t = Some <$> chunks → s_error t = None → concat chunks = MAGIC ++ len ++ header ++ concat sealed →
  byteLength len = 4 → number len = byteLength header → 1 ≤ byteLength header ≤ 4096 →
  good_header state_base parse size header raw packed (byteLength (concat chunks)) →
  byteLength (concat chunks) ≤ LIMIT + 65536 → records 0 sealed plains →
  (∀ pieces, concat pieces = concat plains → ∃ out, inflate (Stream (Some <$> pieces) None) = Stream (Some <$> out) None ∧
     concat out = ml ++ meta ++ state ++ overlay) →
  good_sections parse raw ml meta metadata state overlay →
  ∃ s' d, decode_body interrupt state_base open_state inflate parse sha256 size t s = (s', Ok d).
Proof using no_interrupt Hpacked.
  intros EP EO EI ET1 ET2 EC HL1 HL2 HL3 HG HX HR Hinf HS. unfold decode_body. unfold mbind at 1, M_bind at 1.
  destruct (check_ok s) as (s1 & -> & HT1). set (total := byteLength (concat chunks)) in *.
  destruct (fits_new t chunks (LIMIT + 65536) ET1 ET2 HX) as [Hfit0 HL0]. pose proof (wf_new t (LIMIT + 65536)) as Hwf0.
  rewrite EC in HL0. destruct (read_header_ok _ _ _ s1 Hwf0 Hfit0 HL0 HL1 HL2 HL3) as (s2 & src & EH & HL4 & _).
  unfold mbind at 1, M_bind at 1. rewrite EH.
  apply read_header_spec in EH as (len' & _ & _ & _ & HR1 & _ & EP2 & EO2 & EI2); [|done].
  destruct (check_header_ok size raw _ s2 HG HX) as (s3 & ECH & HT3). unfold mbind at 1, M_bind at 1. rewrite ECH.
  (* the compressed bytes *)
  apply (reads_max total) in HR1. change (with_max total (new_reader t (LIMIT + 65536))) with (new_reader t total) in HR1.
  destruct (fits_new t chunks total ET1 ET2 ltac:(done)) as [Hfit1 _]. destruct (reads_fits _ _ _ HR1 Hfit1) as [Hfit2 _].
  assert (EP3 : t_pending s3 = None) by (by rewrite (tk_pending _ _ HT3), EP2, (tk_pending _ _ HT1)).
  assert (EO3 : t_position s3 = 0) by (by rewrite (tk_position _ _ HT3), EO2, (tk_position _ _ HT1)).
  assert (EI3 : t_index s3 = 0) by (by rewrite (tk_index _ _ HT3), EI2, (tk_index _ _ HT1)).
  destruct (drain_ok (drain_fuel packed) (with_max total src) s3 sealed plains (rs_wf _ _ _ HR1) Hfit2 HL4) as (s4 & src4 & ct & ED & HE).
  { unfold pending_ok. by rewrite EP3. }
  { by rewrite EI3. }
  { unfold pieces_left, drain_fuel, pending_rest. rewrite EI3, EP3. change (ceil_div (byteLength []) PIECE) with 0.
    unfold record_count. lia. }
  unfold mbind at 1, M_bind at 1. rewrite ED.
  apply drain_records in ED as (pieces & sealed' & plains' & EC1 & EC2 & HRec & HR3 & HA & _);
    [|done|apply (rs_wf _ _ _ HR1)|done|done|done|done].
  pose proof (reads_trans _ _ _ _ _ HR1 HR3) as HR4. destruct (reads_stream _ _ _ _ HR4 HA) as (chunks' & F1 & F2 & _ & F4).
  rewrite ET1 in F1. apply (inj (fmap Some)) in F1 as <-. assert (ES : concat sealed = concat sealed').
  { destruct (reads_fits _ _ _ HR3 Hfit2) as [_ HLs]. change (left (with_max total src)) with (left src) in HLs. rewrite HL4 in HLs.
    unfold left in HLs. rewrite (ae_in _ HA), (ae_rest _ HA) in HLs. cbn in HLs. by rewrite app_nil_r in HLs. }
  destruct (records_functional _ _ _ _ _ HR HRec ES) as [<- <-].
  (* the raw bytes *)
  destruct (Hinf pieces EC2) as (out & HI1 & HI2). destruct ct as [cc ce]. cbn in EC1, HE. subst cc ce. rewrite HI1.
  unfold tell, modify. unfold mbind at 1, M_bind at 1.
  assert (HLr : byteLength (concat out) = raw).
  { rewrite HI2, !byteLength_app. destruct HS. lia. }
  destruct (fits_new (Stream (Some <$> out) None) out raw eq_refl eq_refl ltac:(lia)) as [Hfit5 HL5]. rewrite HI2 in HL5.
  pose proof (wf_new (Stream (Some <$> out) None) raw) as Hwf5.
  destruct (read_sections_ok raw ml meta metadata state overlay _ (note OpenRaw s4) (proj2 (gh_raw _ _ _ _ _ _ _ HG)) Hwf5 Hfit5 HL5 HS)
    as (s5 & r5 & ERS). unfold mbind at 1, M_bind at 1. rewrite ERS.
  apply read_sections_spec in ERS as (ml' & meta' & _ & HR5 & HA5 & _); [|done].
  destruct (reads_stream _ _ _ _ HR5 HA5) as (out' & G1 & G2 & _ & G4). cbn in G1. apply (inj (fmap Some)) in G1 as <-.
  unfold gets. unfold mbind, M_bind. rewrite G4, F4, <- G2, <- F2, HLr. fold total. rewrite !Z.eqb_refl. cbn. by eexists _, _.
Qed.
End complete.

(** ** encodeState *)
Section encode.
Context (interrupt : nat → option exn) (state_base state_overlay : result bytes).
Context (seal_state open_state : bytes → bytes → result bytes) (deflate inflate : stream → stream).
Context (stringify : jsval → bytes) (parse : bytes → option jsval) (sha256 : bytes → bytes).

(** The Vault opens what it sealed under the same context; a record grows by 62 bytes. *)
Definition vault_law : Prop := ∀ c p x,
  seal_state c p = Ok x → open_state c x = Ok p ∧ byteLength x = byteLength p + 62.
(** gzip: the compressed bytes, cut anywhere, expand to what was compressed. *)
Definition compressed_of (raw : bytes) : bytes := concat (omap id (s_chunks (deflate (Stream [Some raw] None)))).
Definition gzip_law : Prop := ∀ raw,
  compressed_of raw ≠ [] ∧ (∀ c, c ∈ s_chunks (deflate (Stream [Some raw] None)) → is_Some c) ∧
  ∀ pieces, concat pieces = compressed_of raw →
    ∃ out, inflate (Stream (Some <$> pieces) None) = Stream (Some <$> out) None ∧ concat out = raw.
(** A transformed stream fails when its input does. *)
Definition inflate_fails : Prop := ∀ t, s_error t ≠ None → s_error (inflate t) ≠ None.

Hypothesis Hvault : vault_law.

Lemma record_count_lt packed k : k < record_count packed ↔ k * CHUNK < packed.
Proof using Type.
  clear Hvault. unfold record_count, ceil_div, CHUNK. change (1024 * 1024) with 1048576.
  split; intros H; Z.to_euclidean_division_equations; lia.
Qed.

Lemma seal_loop_records fuel header compressed index s s' recs :
  0 ≤ index ≤ record_count (byteLength compressed) →
  seal_loop interrupt seal_state fuel header compressed (index * CHUNK) index s = (s', Ok recs) →
  ∃ plains, records open_state header (byteLength compressed) index recs plains ∧
    concat plains = drop (Z.to_nat (index * CHUNK)) compressed.
Proof using Hvault.
  revert index s recs. induction fuel as [|fuel IH]; intros index s recs Hi; cbn [seal_loop];
    destruct (index * CHUNK <? byteLength compressed) eqn:EL; bools; cbn [negb]; try done.
  1, 3: intros [= <- <-]; exists []; assert (index = record_count (byteLength compressed)) as ->
    by (pose proof (record_count_lt (byteLength compressed) index); lia); split; [constructor|];
    rewrite drop_ge; [done|unfold byteLength in *; lia].
  intros ([] & s1 & _ & E)%st_ok. apply st_ok in E as ([] & s2 & _ & E). apply st_ok in E as (sealed & s3 & EF & E).
  apply st_ok in E as ([] & s4 & _ & E). apply st_ok in E as (rest & s5 & ER & [= <- <-]).
  unfold finally, lift in EF. set (plain := slice _ _ _) in EF. injection EF as _ EF. destruct (Hvault _ _ _ EF) as [HO HLs].
  assert (Hlt : index < record_count (byteLength compressed)) by (by apply record_count_lt).
  replace (index * CHUNK + CHUNK) with ((index + 1) * CHUNK) in ER by lia. apply IH in ER as (plains & HR & HC); [|lia].
  assert (HP : byteLength plain = record_size (byteLength compressed) index).
  { subst plain. unfold record_size. unfold byteLength at 1. rewrite length_slice by (unfold byteLength, CHUNK in *; lia). lia. }
  exists (plain :: plains). split; [constructor; try done; lia|]. cbn. rewrite HC. subst plain. unfold slice.
  unfold record_size in HP. destruct (decide ((index + 1) * CHUNK ≤ byteLength compressed)).
  - replace (Z.min (index * CHUNK + CHUNK) (byteLength compressed)) with (index * CHUNK + CHUNK) by lia.
    replace (Z.to_nat ((index + 1) * CHUNK)) with (Z.to_nat (index * CHUNK) + Z.to_nat (index * CHUNK + CHUNK - index * CHUNK))%nat
      by (unfold CHUNK; lia).
    by rewrite <- drop_drop, take_drop.
  - rewrite Z.min_r by lia. rewrite (drop_ge compressed (Z.to_nat ((index + 1) * CHUNK))) by (unfold byteLength in *; lia).
    rewrite app_nil_r. apply take_ge. rewrite length_drop. unfold byteLength. lia.
Qed.

Lemma collect_loop_ok max err chunks size parts s s' out :
  (∀ c, c ∈ chunks → is_Some c) → size ≤ max →
  collect_loop interrupt max err chunks size parts s = (s', Ok out) →
  out = parts ++ concat (omap id chunks) ∧ size + byteLength (concat (omap id chunks)) ≤ max.
Proof using Type.
  revert size parts s. induction chunks as [|value chunks IH]; intros size parts s HS Hsize; cbn [collect_loop].
  - intros ([] & s1 & _ & E)%st_ok. destruct err; [done|]. apply st_ok in E as ([] & s2 & _ & [= _ <-]).
    cbn. rewrite app_nil_r. unfold byteLength. cbn. split; [done|lia].
  - intros ([] & s1 & _ & E)%st_ok. apply st_ok in E as ([] & s2 & _ & E). cbv zeta in E.
    destruct (HS value ltac:(by left)) as [c ->]. change (default [] (Some c)) with c in E.
    destruct (max <? _) eqn:EM; [done|]. bools. apply IH in E as [-> HX]; [|intros; apply HS; by right|lia].
    cbn. rewrite byteLength_app, <- app_assoc. split; [done|lia].
Qed.

(** The structure of a file that was written. *)
Record written (metadata : jsval) (state nonce overlay base file : bytes) : Prop := {
  wr_state : 1 ≤ byteLength state ≤ LIMIT;
  wr_overlay : state_overlay = Ok overlay;
  wr_base : state_base = Ok base;
  wr_meta : byteLength (stringify (full_metadata metadata state overlay)) ≤ 65536;
  wr_file : let meta := stringify (full_metadata metadata state overlay) in
    let raw := u32 (byteLength meta) ++ meta ++ state ++ overlay in
    let packed := byteLength (compressed_of raw) in
    let header := stringify (header_of base nonce (byteLength raw) packed) in
    byteLength raw ≤ LIMIT ∧ packed ≤ LIMIT ∧
    ∃ recs plains, records open_state header packed 0 recs plains ∧ concat plains = compressed_of raw ∧
      file = MAGIC ++ u32 (byteLength header) ++ header ++ concat recs
}.

Hypothesis Hgzip : gzip_law.

Lemma encode_written metadata state nonce s s' file :
  encodeState interrupt state_base state_overlay seal_state deflate stringify metadata (Some state) nonce s = (s', Ok file) →
  ∃ overlay base, written metadata state nonce overlay base file.
Proof using Hvault Hgzip.
  unfold encodeState. destruct ((byteLength state =? 0) || (LIMIT <? byteLength state)) eqn:ES; [done|]. bools.
  intros (raw & s1 & ER & E)%st_ok. unfold encode_raw in ER. apply st_ok in ER as (overlay & s2 & EO & ER).
  injection EO as <- EO. apply st_ok in ER as ([] & s3 & _ & ER). unfold finally in ER. cbv zeta in ER.
  set (meta := stringify _) in *. destruct (65536 <? _) eqn:EM; [done|]. bools.
  assert (ERaw : u32 (byteLength meta) ++ meta ++ state ++ overlay = raw) by (by injection ER). clear ER.
  destruct (LIMIT <? byteLength raw) eqn:EL; [done|]. bools. apply st_ok in E as ([] & s4 & _ & E).
  apply st_ok in E as (compressed & s5 & EC & E). apply st_ok in E as (base & s6 & EB & E). injection EB as <- EB.
  apply st_ok in E as ([] & s7 & _ & E). cbv zeta in E. apply st_ok in E as (recs & s8 & ESL & [= <- <-]).
  assert (HC : compressed = compressed_of raw ∧ byteLength compressed ≤ LIMIT).
  { unfold collect, catch in EC. destruct (collect_loop _ _ _ _ _ _ _) as [s9 [out|e]] eqn:EX; [|done]. injection EC as _ ->.
    apply collect_loop_ok in EX as [-> HX]; [|apply Hgzip|unfold LIMIT; lia]. by rewrite Z.add_0_l in HX. }
  destruct HC as [-> HC]. change 0 with (0 * CHUNK) in ESL at 1. apply seal_loop_records in ESL as (plains & HR & HP).
  2:{ split; [done|]. apply Z.div_pos; unfold CHUNK; pose proof (byteLength_nonneg (compressed_of raw)); lia. }
  exists overlay, base. pose proof (byteLength_nonneg state). split; try done; [lia|]. cbv zeta. fold meta. rewrite ERaw. split_and!; try done.
  by exists recs, plains.
Qed.

(** What JSON has to keep: the metadata and the header written. *)
Definition json_law (metadata : jsval) (state nonce : bytes) : Prop :=
  ∀ overlay base, state_overlay = Ok overlay → state_base = Ok base →
  let full := full_metadata metadata state overlay in
  let raw := u32 (byteLength (stringify full)) ++ stringify full ++ state ++ overlay in
  let header := header_of base nonce (byteLength raw) (byteLength (compressed_of raw)) in
  parse (stringify full) = Some full ∧ parse (stringify header) = Some header ∧ 1 ≤ byteLength (stringify header) ≤ 2036.

Lemma records_length header packed k ss ps :
  records open_state header packed k ss ps →
  byteLength (concat ss) = Z.max 0 (packed - k * CHUNK) + (record_count packed - k) * 62.
Proof using Type.
  induction 1 as [|k sealed plain ss ps Hk HLs HLp HO HR IH].
  - pose proof (record_count_lt packed (record_count packed)). unfold byteLength. cbn. lia.
  - cbn. rewrite byteLength_app, IH, HLs. unfold record_size. pose proof (record_count_lt packed k). unfold CHUNK in *. lia.
Qed.

Lemma number_u32 n : 0 ≤ n < 2 ^ 32 → number (u32 n) = n.
Proof using Type.
  intros H. unfold number, u32. rewrite take_ge by (rewrite length_le_bytes; lia). by apply le_value_bytes.
Qed.

Lemma base_matches_header base nonce raw packed : base_matches (header_of base nonce raw packed) base = true.
Proof using Type.
  unfold base_matches. change (get (header_of base nonce raw packed) "base") with (JArr (JInt <$> base)). cbv iota.
  rewrite length_fmap. unfold byteLength. rewrite Z.eqb_refl. cbn [andb].
  induction base as [|b base IH]; [done|]. cbn. by rewrite Z.eqb_refl.
Qed.

Lemma header_sizes_header base nonce raw packed :
  4 ≤ raw ≤ LIMIT → 1 ≤ packed ≤ LIMIT → header_sizes (header_of base nonce raw packed) = Ok (raw, packed).
Proof using Type.
  intros Hr Hp. assert (HB : ∀ h key lo n, get h key = JInt n → 0 ≤ lo ≤ n → n ≤ LIMIT → bounded_field h key lo = Some n).
  { intros h key lo n E Hlo Hn. unfold bounded_field. rewrite E. cbn.
    assert (is_safe n = true) as -> by (unfold is_safe, MAX_SAFE_INTEGER, LIMIT in *; lia).
    by rewrite (proj2 (Z.leb_le _ _)), (proj2 (Z.leb_le _ _)) by lia. }
  unfold header_sizes. change (header_of base nonce raw packed) with (JObj (match header_of base nonce raw packed with JObj f => f | _ => [] end)).
  cbv iota. change (JObj (match header_of base nonce raw packed with JObj f => f | _ => [] end)) with (header_of base nonce raw packed).
  rewrite (HB _ "raw"%string 4 raw), (HB _ "packed"%string 1 packed) by (done || lia). done.
Qed.

Lemma full_metadata_lengths metadata state overlay :
  get (full_metadata metadata state overlay) "stateLength" = JInt (byteLength state) ∧
  get (full_metadata metadata state overlay) "overlayLength" = JInt (byteLength overlay).
Proof using Type.
  unfold full_metadata. split; [|apply get_set_field_eq]. by rewrite get_set_field_ne, get_set_field_eq.
Qed.

(** The header and the sections of a written file are accepted. *)
Lemma written_good metadata state nonce overlay base file size :
  written metadata state nonce overlay base file → json_law metadata state nonce →
  size = JUndefined ∨ size = JInt (byteLength file) →
  let meta := stringify (full_metadata metadata state overlay) in
  let raw := u32 (byteLength meta) ++ meta ++ state ++ overlay in
  let packed := byteLength (compressed_of raw) in
  let header := stringify (header_of base nonce (byteLength raw) packed) in
  good_header state_base parse size header (byteLength raw) packed (byteLength file) ∧
  good_sections parse (byteLength raw) (u32 (byteLength meta)) meta (full_metadata metadata state overlay) state overlay ∧
  1 ≤ byteLength header ≤ 2036 ∧ byteLength file ≤ LIMIT + 65536 ∧ 12 ≤ byteLength file.
Proof using Hgzip.
  intros [HS HO HB HM (HR & HP & recs & plains & HRec & HC & HF)] HJ Hsize. cbv zeta.
  destruct (HJ overlay base HO HB) as (J1 & J2 & J3). set (meta := stringify (full_metadata metadata state overlay)) in *.
  set (raw := u32 (byteLength meta) ++ meta ++ state ++ overlay) in *. set (packed := byteLength (compressed_of raw)) in *.
  set (hd := header_of base nonce (byteLength raw) packed) in *. pose proof (byteLength_nonneg meta). pose proof (byteLength_nonneg overlay).
  assert (HLu : ∀ n, byteLength (u32 n) = 4) by (intros n; unfold byteLength, u32; by rewrite length_le_bytes).
  assert (Hraw : byteLength raw = 4 + byteLength meta + byteLength state + byteLength overlay).
  { subst raw. rewrite !byteLength_app, HLu. lia. }
  assert (Hpos : 1 ≤ packed).
  { subst packed. destruct (Hgzip raw) as [HN _]. destruct (compressed_of raw); [done|]. unfold byteLength. cbn. lia. }
  assert (HLf : byteLength file = 12 + byteLength (stringify hd) + packed + record_count packed * 62).
  { rewrite HF, !byteLength_app, HLu, (records_length _ _ _ _ _ HRec). change (byteLength MAGIC) with 8. lia. }
  assert (HN : record_count packed ≤ 1024).
  { unfold record_count, ceil_div, CHUNK, LIMIT in *. apply Z.lt_succ_r, Z.div_lt_upper_bound; lia. }
  destruct (full_metadata_lengths metadata state overlay). split_and!; try lia; [|..].
  - split; try lia; try done. exists hd, base. split_and!; [done|done|apply header_sizes_header; lia|apply base_matches_header].
  - split; try done; [split; [apply number_u32; lia|done]|split; [done|lia]].
  - pose proof (Z.div_pos (packed + CHUNK - 1) CHUNK). unfold record_count, ceil_div in *. unfold CHUNK in *. lia.
Qed.
End encode.

(** ** Round trip *)

(** The stream that an input stands for, and the size it declares. *)
Definition source_of (i : input) : option (jsval * stream) :=
  match i with
  | Url (Ok (Response true (Some t))) => Some (JUndefined, t)
  | BlobInput content t => Some (JInt (byteLength content), t)
  | Object size (Some t) => Some (size, t)
  | _ => None
  end.

Lemma open_input_spec i s s' size t : open_input i s = (s', Ok (size, Some t)) → s' = s ∧ source_of i = Some (size, t).
Proof.
  destruct i as [[[ok body]|e]|content b|size' [b|]]; cbn; try (by intros [= <- <- <-]); try done.
  intros (r & s1 & [= <- <-] & E)%st_ok. cbn in E. destruct ok, body; try done. by injection E as <- <- <-.
Qed.

Lemma open_input_ok i s size t : source_of i = Some (size, t) → open_input i s = (s, Ok (size, Some t)).
Proof. by destruct i as [[[[] [b|]]|e]|content b|size' [b|]]; intros [= <- <-]. Qed.

Lemma closing_ok {A} (m : M A) s s' a : closing m s = (s', Ok a) → ∃ s1, m s = (s1, Ok a) ∧ s' = close_all true s1.
Proof. unfold closing. destruct (m s) as [s1 [b|e]]; [|done]. intros [= <- <-]. by exists s1. Qed.

Section theorems.
Context (interrupt : nat → option exn) (state_base state_overlay : result bytes).
Context (seal_state open_state : bytes → bytes → result bytes) (deflate inflate : stream → stream).
Context (stringify : jsval → bytes) (parse : bytes → option jsval) (sha256 : bytes → bytes).
#[local] Notation decodeState := (decodeState interrupt state_base open_state inflate parse sha256).
#[local] Notation decode_body := (decode_body interrupt state_base open_state inflate parse sha256).

Lemma decode_inv i s s' d :
  decodeState i s = (s', Ok d) →
  ∃ size t s1 s2, source_of i = Some (size, t) ∧ ticked s s1 ∧ decode_body size t s1 = (s2, Ok d).
Proof using Type.
  intros ([] & s1 & EC & E)%st_ok. pose proof (ticks_check interrupt s) as HT. rewrite EC in HT.
  apply st_ok in E as ([size [t|]] & s2 & EO & E); [|done]. apply open_input_spec in EO as [-> EO].
  destruct (size_ok size); [|by apply st_ok in E as (? & ? & _ & ?)].
  apply closing_ok in E as (s3 & E & _). by exists size, t, s1, s3.
Qed.

(** C4: [decodeState] accepts nothing but a whole file.  If it succeeds, the bytes it
    read, all of the stream, are the magic number, the length of the header, the
    header and then exactly the records that the header announces; the header is for
    this Vault's disk and agrees with the declared size; the Vault has opened every
    record under the header and the record's own number, so none is missing, repeated
    or out of place; what they hold expands to the announced number of bytes, which
    split exactly into the metadata, machine state and overlay returned; and the hash
    returned is that of the whole file. *)
Theorem decode_sound i s d :
  inflate_fails inflate → decodeState i new_st = (s, Ok d) →
  ∃ size t chunks, source_of i = Some (size, t) ∧ s_chunks t = Some <$> chunks ∧ s_error t = None ∧
  let file := concat chunks in
  ∃ len header raw packed sealed plains,
    file = MAGIC ++ len ++ header ++ concat sealed ∧
    (byteLength len = 4 ∧ number len = byteLength header ∧ byteLength header ≤ 4096) ∧
    good_header state_base parse size header raw packed (byteLength file) ∧
    records open_state header packed 0 sealed plains ∧
    (∃ pieces out metaLength meta, concat pieces = concat plains ∧
       inflate (Stream (Some <$> pieces) None) = Stream (Some <$> out) None ∧
       concat out = metaLength ++ meta ++ dc_state d ++ dc_overlay d ∧
       good_sections parse raw metaLength meta (dc_metadata d) (dc_state d) (dc_overlay d)) ∧
    dc_stateSha256 d = hex (sha256 file).
Proof using Type.
  intros Hinf (size & t & s1 & s2 & ES & HT & E)%decode_inv.
  apply decode_body_sound in E as (chunks & len & header & raw & packed & sealed & plains & H1 & H2 & H3 & H4 & H5 & H6 & H7 & H8);
    [|done|by rewrite (tk_pending _ _ HT)|by rewrite (tk_position _ _ HT)|by rewrite (tk_index _ _ HT)].
  exists size, t, chunks. split_and!; try done. by exists len, header, raw, packed, sealed, plains.
Qed.

(** The structure of a file determines its parts. *)
Lemma header_unique len header more len' header' more' :
  MAGIC ++ len ++ header ++ more = MAGIC ++ len' ++ header' ++ more' →
  byteLength len = 4 → byteLength len' = 4 → number len = byteLength header → number len' = byteLength header' →
  header = header' ∧ more = more'.
Proof using Type.
  intros E%app_inv_head L1 L2 N1 N2. apply app_inj_1 in E as [-> E]; [|unfold byteLength in *; lia].
  apply app_inj_1 in E; [done|]. unfold byteLength in *. lia.
Qed.

Lemma sections_unique raw raw' ml m md st ov ml' m' md' st' ov' :
  good_sections parse raw ml m md st ov → good_sections parse raw' ml' m' md' st' ov' →
  ml ++ m ++ st ++ ov = ml' ++ m' ++ st' ++ ov' → md = md' ∧ st = st' ∧ ov = ov'.
Proof using Type.
  intros [G1 [G2 _] G3 [G4 _] _ _] [Q1 [Q2 _] Q3 [Q4 _] _ _] E.
  apply app_inj_1 in E as [-> E]; [|unfold byteLength in *; lia].
  apply app_inj_1 in E as [-> E]; [|unfold byteLength in *; lia].
  rewrite G3 in Q3. injection Q3 as <-. rewrite G4 in Q4. injection Q4 as Q4. split; [done|].
  apply app_inj_1 in E; [done|]. unfold byteLength in *. lia.
Qed.

(** A written file is decoded to what was written. *)
Lemma decode_written metadata state nonce overlay base file size t chunks s :
  (∀ n, interrupt n = None) → gzip_law deflate inflate → inflate_fails inflate →
  json_law state_base state_overlay deflate stringify parse metadata state nonce →
  written state_base state_overlay open_state deflate stringify metadata state nonce overlay base file →
  (size = JUndefined ∨ size = JInt (byteLength file)) →
  s_chunks t = Some <$> chunks → s_error t = None → concat chunks = file →
  t_pending s = None → t_position s = 0 → t_index s = 0 →
  ∃ s', decode_body size t s =
    (s', Ok (Decoded (full_metadata metadata state overlay) state overlay (hex (sha256 file)))).
Proof using Type.
  intros Hint Hgz Hinf Hjson HW Hsize Ht1 Ht2 EC T1 T2 T3.
  destruct (written_good _ _ _ _ _ _ _ Hgz _ _ _ _ _ _ _ HW Hjson Hsize) as (HG & HS & HH & HX & H12).
  destruct HW as [_ HO HB HM (HR & HP & recs & plains & HRec & HC & HF)].
  set (meta := stringify (full_metadata metadata state overlay)) in *. set (raw := u32 (byteLength meta) ++ meta ++ state ++ overlay) in *.
  set (packed := byteLength (compressed_of deflate raw)) in *. set (header := stringify (header_of base nonce (byteLength raw) packed)) in *.
  rewrite <- EC in HG, HX. assert (HL4 : byteLength (u32 (byteLength header)) = 4) by (unfold byteLength, u32; by rewrite length_le_bytes).
  rewrite <- EC in HF. assert (HNH : number (u32 (byteLength header)) = byteLength header) by (apply number_u32; lia).
  destruct (decode_body_ok interrupt Hint open_state header packed ltac:(apply HG) state_base parse sha256 inflate size t chunks
    (u32 (byteLength header)) (byteLength raw) recs plains (u32 (byteLength meta)) meta (full_metadata metadata state overlay) state overlay s)
    as (s2 & d & ED); try done; try lia; [rewrite HC; apply (proj2 (proj2 (Hgz raw)))|].
  exists s2. rewrite ED. do 2 f_equal.
  apply decode_body_sound in ED as (chunks' & len & hd & raw' & packed' & sealed & plains' & F1 & _ & F3 & (F4 & F5 & _) & F6 & F7 & F8 & F9);
    [|done..].
  rewrite Ht1 in F1. apply (inj (fmap Some)) in F1 as <-. rewrite HF in F3. destruct (header_unique _ _ _ _ _ _ F3 HL4 F4 HNH F5) as [<- E3].
  assert (packed' = packed) as ->.
  { destruct (gh_parse _ _ _ _ _ _ _ HG) as (h & b & P1 & _ & P2 & _). destruct (gh_parse _ _ _ _ _ _ _ F6) as (h' & b' & P3 & _ & P4 & _).
    rewrite P1 in P3. injection P3 as <-. rewrite P2 in P4. by injection P4. }
  destruct (records_functional _ _ _ _ _ _ _ _ HRec F7 E3) as [<- <-].
  destruct F8 as (pieces & out & ml & m & P1 & P2 & P3 & Q). rewrite HC in P1. destruct (proj2 (proj2 (Hgz raw)) pieces P1) as (out' & R1 & R2).
  pose proof (eq_trans (eq_sym P2) R1) as R3. injection R3 as R3. apply (inj (fmap Some)) in R3 as <-. rewrite P3 in R2.
  destruct (sections_unique _ _ _ _ _ _ _ _ _ _ _ _ Q HS R2) as (E1 & E2 & E4). destruct d as [md st ov sha]. cbn in *. by subst.
Qed.

(** C3: the round trip of saved states.  If [encodeState] writes a file, then
    [decodeState], when nothing is cancelled, reads it back however its bytes are cut
    into chunks (empty ones included) and whether or not its size is declared: it
    returns the metadata with the two lengths added, the machine state and the overlay
    of the Vault, and the hash of the file.  The Vault opens what it sealed, gzip and
    JSON keep what they are given, and the header takes at most 2036 bytes, which
    keeps a file of the greatest size within the decoder's limit. *)
Theorem state_round_trip (interrupted : nat → option exn) metadata state nonce file s s' i size t chunks :
  vault_law seal_state open_state → gzip_law deflate inflate → inflate_fails inflate →
  json_law state_base state_overlay deflate stringify parse metadata state nonce →
  encodeState interrupted state_base state_overlay seal_state deflate stringify metadata (Some state) nonce s = (s', Ok file) →
  (∀ n, interrupt n = None) →
  source_of i = Some (size, t) → (size = JUndefined ∨ size = JInt (byteLength file)) →
  s_chunks t = Some <$> chunks → s_error t = None → concat chunks = file →
  ∃ s'' overlay, state_overlay = Ok overlay ∧
    decodeState i new_st =
      (s'', Ok (Decoded (full_metadata metadata state overlay) state overlay (hex (sha256 file)))).
Proof using Type.
  intros Hvault Hgz Hinf Hjson E Hint ES Hsize Ht1 Ht2 EC.
  destruct (encode_written interrupted state_base state_overlay seal_state open_state deflate inflate stringify Hvault Hgz
    _ _ _ _ _ _ E) as (overlay & base & HW).
  pose proof (written_good _ _ _ _ _ _ _ Hgz _ _ _ _ _ _ _ HW Hjson Hsize) as (_ & _ & _ & HX & H12).
  unfold StateFormat.decodeState. unfold mbind at 1, M_bind at 1. destruct (check_ok interrupt Hint new_st) as (s1 & -> & HT).
  unfold mbind, M_bind. rewrite (open_input_ok _ _ _ _ ES).
  assert (size_ok size = true) as ->.
  { unfold size_ok. destruct Hsize as [->| ->]; [done|]. cbn [is_undefined JInt as_safe_integer orb].
    assert (is_safe (byteLength file) = true) as -> by (unfold is_safe, MAX_SAFE_INTEGER, LIMIT in *; lia).
    by rewrite (proj2 (Z.leb_le _ _)), (proj2 (Z.leb_le _ _)) by lia. }
  destruct (decode_written metadata state nonce overlay base file size t chunks s1 Hint Hgz Hinf Hjson HW Hsize Ht1 Ht2 EC)
    as (s2 & ED); [by destruct HT..|]. unfold closing. rewrite ED. exists (close_all true s2), overlay. split; [apply HW|done].
Qed.
End theorems.

(** ** A toy Vault and a toy gzip *)
Definition toy_tag (c : bytes) : bytes := take 62 (reverse c ++ replicate 62 0).
Definition toy_seal (c p : bytes) : result bytes := Ok (p ++ toy_tag c).
Definition toy_open (c x : bytes) : result bytes :=
  let n := (length x - 62)%nat in
  if decide (drop n x = toy_tag c) then Ok (take n x) else throw "INVALID_STATE" "authentication".
Definition toy_deflate (t : stream) : stream := Stream (Some [31; 139] :: s_chunks t) (s_error t).
Definition toy_inflate (t : stream) : stream :=
  Stream (Some <$> [drop 2 (concat (omap id (s_chunks t)))]) (s_error t).
Definition toy_sha256 (b : bytes) : bytes := replicate 32 (byteLength b mod 256).
Definition toy_base : result bytes := Ok [5; 6].
Definition toy_overlay : result bytes := Ok [9].
Definition toy_metadata : jsval := JObj [("kind"%string, JStr "vm")].
Definition toy_full : jsval := full_metadata toy_metadata [1; 2; 3] [9].
Definition toy_header : jsval := header_of [5; 6] [7] 9 11.
Definition toy_stringify (v : jsval) : bytes := if is_undefined (get v "version") then [109] else [104].
Definition toy_parse (b : bytes) : option jsval := if decide (b = [109]) then Some toy_full else Some toy_header.
Definition never (n : nat) : option exn := None.
Definition toy_encoded : st * result bytes :=
  encodeState never toy_base toy_overlay toy_seal toy_deflate toy_stringify toy_metadata (Some [1; 2; 3]) [7] new_st.
Definition toy_file : bytes := match toy_encoded.2 with Ok file => file | Throw _ => [] end.
Definition toy_chunks : list bytes := [] :: ((λ b, [b]) <$> toy_file).
Definition toy_input : input := Object JUndefined (Some (Stream (Some <$> toy_chunks) None)).

Lemma toy_vault_law : vault_law toy_seal toy_open.
Proof.
  intros c p x [= <-]. assert (HL : length (toy_tag c) = 62%nat).
  { unfold toy_tag. rewrite length_take, length_app, length_replicate. lia. }
  unfold toy_open. rewrite length_app, HL. replace (length p + 62 - 62)%nat with (length p) by lia.
  rewrite drop_app_length, decide_True, take_app_length by done. split; [done|]. unfold byteLength. rewrite length_app, HL. lia.
Qed.
Lemma toy_gzip_law : gzip_law toy_deflate toy_inflate.
Proof.
  intros raw. assert (E : compressed_of toy_deflate raw = 31 :: 139 :: raw) by (unfold compressed_of; cbn; by rewrite app_nil_r).
  rewrite E. split_and!; [done| |].
  - intros c [->|[->|?%elem_of_nil]%elem_of_cons]%elem_of_cons; done.
  - intros pieces HP. exists [raw]. unfold toy_inflate. cbn. rewrite omap_Some, HP. split; [done|apply app_nil_r].
Qed.
Lemma toy_inflate_fails : inflate_fails toy_inflate.
Proof. by intros t H. Qed.
Lemma toy_json_law : json_law toy_base toy_overlay toy_deflate toy_stringify toy_parse toy_metadata [1; 2; 3] [7].
Proof. intros overlay base [= <-] [= <-]. cbv zeta. split_and!; vm_compute; (done || congruence). Qed.

Lemma state_round_trip_witness :
  ∃ s, decodeState never toy_base toy_open toy_inflate toy_parse toy_sha256 toy_input new_st =
    (s, Ok (Decoded toy_full [1; 2; 3] [9] (hex (toy_sha256 toy_file)))).
Proof.
  destruct toy_encoded as [s' x] eqn:E.
  destruct (state_round_trip never toy_base toy_overlay toy_seal toy_open toy_deflate toy_inflate toy_stringify toy_parse toy_sha256
    never toy_metadata [1; 2; 3] [7] toy_file new_st s' toy_input JUndefined
    (Stream (Some <$> toy_chunks) None) toy_chunks
    toy_vault_law toy_gzip_law toy_inflate_fails toy_json_law) as (s & overlay & EO & ED).
  - vm_compute in E. injection E as <- <-. vm_compute. reflexivity.
  - reflexivity.
  - reflexivity.
  - left. reflexivity.
  - reflexivity.
  - reflexivity.
  - vm_compute. reflexivity.
  - injection EO as <-. exists s. exact ED.
Defined.

Lemma decode_sound_witness :
  ∃ s d len header raw packed sealed plains,
    decodeState never toy_base toy_open toy_inflate toy_parse toy_sha256 toy_input new_st = (s, Ok d) ∧
    toy_file = MAGIC ++ len ++ header ++ concat sealed ∧ records toy_open header packed 0 sealed plains ∧
    good_header toy_base toy_parse JUndefined header raw packed (byteLength toy_file).
Proof.
  destruct (decodeState never toy_base toy_open toy_inflate toy_parse toy_sha256 toy_input new_st) as [s [d|e]] eqn:E;
    [|exfalso; vm_compute in E; discriminate E].
  destruct (decode_sound never toy_base toy_open toy_inflate toy_parse toy_sha256 toy_input s d toy_inflate_fails E)
    as (size & t & chunks & ES & EC & _ & len & header & raw & packed & sealed & plains & HF & _ & HG & HR & _).
  injection ES as <- <-. assert (EF : concat chunks = toy_file).
  { change (Some <$> toy_chunks = Some <$> chunks) in EC. apply (inj (fmap Some)) in EC as <-. vm_compute. reflexivity. }
  rewrite EF in HF, HG. exists s, d, len, header, raw, packed, sealed, plains. split_and!; [reflexivity|exact HF|exact HR|exact HG].
Defined.
