(* ===== verification/StateWiping.v ===== *)
(** * Saved machine states: buffers and streams

    Whatever is cancelled or fails, the buffers in which [encodeState] and [decodeState]
    hold plaintext are wiped, apart from the state and overlay that are returned, and
    the streams are closed; and the stream of compressed bytes ends. *)
From S2P Require Import Prelude JsValue Hex StateFormat StateFormatFacts StateRoundTrip.
#[local] Open Scope Z_scope.
Import StateFormat.
#[local] Arguments CHUNK : simpl never.
#[local] Arguments LIMIT : simpl never.
#[local] Arguments Z.mul : simpl never.

(** ** Counting *)

(** The buffers [b] that hold plaintext after the events [l]. *)
Definition change (b : buffer) (e : effect) : Z :=
  match e with
  | Alloc c => if decide (c = b) then 1 else 0
  | Wipe c => if decide (c = b) then -1 else 0
  | _ => 0
  end.
Definition live (b : buffer) (l : list effect) : Z := sum_list_Z (change b <$> l).
Lemma live_app b l1 l2 : live b (l1 ++ l2) = live b l1 + live b l2.
Proof. unfold live. by rewrite fmap_app, sum_list_Z_app. Qed.

#[local] Arguments live : simpl never.
Definition pending_count (b : buffer) (s : st) : Z :=
  match b, t_pending s with Pending, Some _ => 1 | _, _ => 0 end.
Definition restored (b : buffer) : bool := match b with MachineState | RestoredOverlay => true | _ => false end.

(** [d] says which buffers are live apart from the pending record. *)
Record balanced (d : buffer → Z) (s : st) : Prop := {
  bl_live : ∀ b, live b (t_log s) = d b + pending_count b s;
  bl_restored : ∀ b, restored b = true → Alloc b ∈ t_log s ↔ d b = 1;
  bl_raw : CloseRaw ∉ t_log s
}.

Definition bump (b : buffer) (d : buffer → Z) : buffer → Z := λ c, d c + if decide (b = c) then 1 else 0.

Lemma balanced_ticked d s s' : balanced d s → ticked s s' → balanced d s'.
Proof.
  intros [H1 H2 H3] HT. split; rewrite (tk_log _ _ HT); try done. intros b. rewrite H1. unfold pending_count.
  by rewrite (tk_pending _ _ HT).
Qed.

(** An event that is neither of the restored buffers. *)
Lemma balanced_note d d' e s :
  balanced d s → (∀ b, d' b = d b + change b e) → e ≠ CloseRaw → (∀ b, restored b = true → e ≠ Alloc b ∧ d' b = d b) →
  balanced d' (note e s).
Proof.
  intros [H1 H2 H3] Hd He Hr. split; cbn.
  - intros b. rewrite live_app, H1, Hd. unfold pending_count, live. cbn. destruct b, (t_pending s); lia.
  - intros b Hb. destruct (Hr b Hb) as [Hne ->]. rewrite elem_of_app, list_elem_of_singleton, H2 by done. intuition congruence.
  - rewrite not_elem_of_app, list_elem_of_singleton. split; congruence.
Qed.
Lemma balanced_alloc d b s : balanced d s → restored b = false → balanced (bump b d) (note (Alloc b) s).
Proof.
  intros H Hb. apply (balanced_note d); [done|done|done|]. intros c Hc. assert (b ≠ c) by (by intros ->; rewrite Hb in Hc).
  unfold bump. rewrite decide_False by done. split; [congruence|lia].
Qed.
Lemma balanced_wipe d b s : balanced (bump b d) s → restored b = false → balanced d (note (Wipe b) s).
Proof.
  intros H Hb. apply (balanced_note (bump b d)); [done| |done|].
  - intros c. unfold bump, change. destruct (decide (b = c)); lia.
  - intros c Hc. assert (b ≠ c) by (by intros ->; rewrite Hb in Hc). unfold bump. rewrite decide_False by done. split; [congruence|lia].
Qed.
Lemma balanced_close d e s :
  balanced d s → e = OpenRaw ∨ e = CloseSource ∨ e = CancelStream → balanced d (note e s).
Proof.
  intros H He. apply (balanced_note d); [done|..].
  - intros b. destruct He as [->|[->| ->]]; cbn; lia.
  - by destruct He as [->|[->| ->]].
  - intros b _. by destruct He as [->|[->| ->]].
Qed.

Definition keeps {A} (m : M A) : Prop := ∀ d s, balanced d s → balanced d (m s).1.

Lemma balanced_ret {A} (a : A) : keeps (mret a).
Proof. by intros d s. Qed.
Lemma balanced_lift {A} (x : result A) : keeps (lift x).
Proof. by intros d s. Qed.
Lemma keeps_ticks {A} (m : M A) : ticks m → keeps m.
Proof. intros H d s Hs. by eapply balanced_ticked. Qed.
Lemma balanced_bind {A B} (m : M A) (f : A → M B) : keeps m → (∀ a, keeps (f a)) → keeps (m ≫= f).
Proof.
  intros Hm Hf d s Hs. specialize (Hm d s Hs). unfold mbind, M_bind. destruct (m s) as [s1 [a|e]]; [by apply Hf|done].
Qed.
Lemma balanced_catch {A} (m : M A) h : keeps m → (∀ e, keeps (h e)) → keeps (catch m h).
Proof. intros Hm Hh d s Hs. specialize (Hm d s Hs). unfold catch. destruct (m s) as [s1 [a|e]]; [done|by apply Hh]. Qed.

(** A buffer that lives as long as a [try]. *)
Lemma keeps_try {A} b (m : M A) : restored b = false → keeps m → keeps (tell (Alloc b) ;; finally m (note (Wipe b))).
Proof.
  intros Hb Hm d s Hs. unfold mbind, M_bind, tell, modify, finally.
  specialize (Hm _ _ (balanced_alloc d b s Hs Hb)). destruct (m _) as [s1 x]. by apply balanced_wipe.
Qed.
Lemma keeps_try_bind {A B} b (m : M A) (f : A → M B) :
  restored b = false → keeps m → (∀ a, keeps (f a)) → keeps (tell (Alloc b) ;; (finally m (note (Wipe b)) ≫= f)).
Proof.
  intros Hb Hm Hf d s Hs. pose proof (keeps_try b m Hb Hm d s Hs) as H.
  unfold mbind, M_bind, tell, modify in *. destruct (finally m _ _) as [s1 [a|e]]; [by apply Hf|done].
Qed.

Section wiping.
Context (interrupt : nat → option exn) (state_base state_overlay : result bytes).
Context (seal_state open_state : bytes → bytes → result bytes) (deflate inflate : stream → stream).
Context (stringify : jsval → bytes) (parse : bytes → option jsval) (sha256 : bytes → bytes).

Lemma keeps_check : keeps (check interrupt).
Proof using Type. apply keeps_ticks, ticks_check. Qed.
#[local] Hint Resolve balanced_ret balanced_lift keeps_check : keeps.

(** ** encodeState *)
Lemma keeps_collect t max : keeps (collect interrupt t max).
Proof using Type.
  apply balanced_catch.
  - generalize 0 (@nil Z). induction (s_chunks t) as [|v l IH]; intros size parts; cbn [collect_loop];
      (apply balanced_bind; [apply keeps_check|]); intros _.
    + destruct (s_error t); [apply balanced_lift|]. apply balanced_bind; [apply keeps_check|]. intros _. apply balanced_ret.
    + apply balanced_bind; [apply keeps_check|]. intros _. cbv zeta. destruct (_ <? _); [apply balanced_lift|apply IH].
  - intros e. apply balanced_bind; [|intros _; apply balanced_lift]. intros d s Hs. apply balanced_close; auto.
Qed.

Lemma keeps_seal_loop fuel header compressed offset index :
  keeps (seal_loop interrupt seal_state fuel header compressed offset index).
Proof using Type.
  revert offset index. induction fuel as [|fuel IH]; intros offset index; cbn [seal_loop]; destruct (negb _); auto with keeps.
  apply balanced_bind; [apply keeps_check|]. intros _. apply keeps_try_bind; [done|apply balanced_lift|]. intros sealed.
  apply balanced_bind; [apply keeps_check|]. intros _. apply balanced_bind; [apply IH|]. intros rest. apply balanced_ret.
Qed.

Lemma keeps_encode metadata state nonce :
  keeps (encodeState interrupt state_base state_overlay seal_state deflate stringify metadata state nonce).
Proof using Type.
  unfold encodeState. destruct state as [state|]; [|apply balanced_lift]. destruct (_ || _); [apply balanced_lift|].
  apply balanced_bind.
  { unfold encode_raw. apply balanced_bind; [apply balanced_lift|]. intros overlay. apply keeps_try; [done|].
    cbv zeta. destruct (_ <? _); [apply balanced_lift|apply balanced_ret]. }
  intros raw. destruct (_ <? _); [apply balanced_lift|]. apply balanced_bind; [apply keeps_check|]. intros _.
  apply balanced_bind; [apply keeps_collect|]. intros compressed. apply balanced_bind; [apply balanced_lift|]. intros base.
  apply balanced_bind; [apply keeps_check|]. intros _. cbv zeta. apply balanced_bind; [apply keeps_seal_loop|]. intros records.
  apply balanced_ret.
Qed.

(** ** The stream of compressed bytes *)

(** Without a pending record nothing of it is live. *)
Lemma balanced_pending d s p position index hash :
  balanced d s → is_Some (t_pending s) ↔ is_Some p → balanced d (set_pending p position index hash s).
Proof using Type.
  intros [H1 H2 H3] Hp. split; try done. intros b. cbn [t_log set_pending]. rewrite (H1 b). unfold pending_count. cbn.
  destruct b; try done. destruct (t_pending s) as [q|], p; try done; exfalso.
  - destruct (proj1 Hp (mk_is_Some _ _ eq_refl)); done.
  - destruct (proj2 Hp (mk_is_Some _ _ eq_refl)); done.
Qed.

Lemma balanced_discard d s : balanced d s → balanced d (discard s).
Proof using Type.
  intros H. unfold discard. destruct (t_pending s) as [p|] eqn:E; [|by apply balanced_pending; [|rewrite E]].
  assert (HW : balanced d (note (Wipe Pending) (set_pending None 0 (t_index s) (t_hash s) s))).
  { apply balanced_wipe; [|done]. destruct H as [H1 H2 H3]. split; try done.
    - intros b. cbn [t_log set_pending]. rewrite (H1 b). unfold pending_count, bump. rewrite E. cbn. destruct b; cbn; repeat case_decide; try congruence; lia.
    - intros b Hb. cbn [t_log set_pending]. rewrite (H2 b Hb). unfold bump. rewrite decide_False by (by intros <-). by rewrite Z.add_0_r. }
  exact HW.
Qed.

Lemma keeps_enqueue : keeps enqueue.
Proof using Type.
  intros d s Hs. unfold enqueue, mbind, M_bind, gets, modify, mret, M_ret. cbn.
  assert (HP : ∀ p i h, balanced d (set_pending (t_pending s) p i h s)) by (intros; by apply balanced_pending).
  destruct (_ =? _); [apply balanced_discard, HP|apply HP].
Qed.

Lemma balanced_open_record header packed src d s :
  t_pending s = None → balanced d s → balanced d (open_record interrupt open_state header packed src s).1.
Proof using Type.
  intros EP Hs. unfold open_record, mbind, M_bind, gets. set (size := Z.min _ _ + 62).
  pose proof (ticks_read interrupt size src s) as HT. pose proof (balanced_ticked _ _ _ Hs HT) as H1.
  destruct (read interrupt size src s) as [s1 [[sealed src1]|e]]; [|done]. cbn in HT, H1. pose proof (tk_pending _ _ HT) as EP1.
  rewrite EP in EP1. unfold modify, lift. set (s2 := set_pending None _ _ _ s1).
  assert (H2 : balanced d s2) by (by apply balanced_pending; [|rewrite EP1]).
  destruct (open_state _ sealed) as [plain|e]; [|done]. unfold tell, modify, finally.
  pose proof (balanced_alloc d Plain s2 H2 eq_refl) as H3.
  destruct (negb (byteLength plain =? size - 62)); [by apply balanced_wipe|].
  set (s3 := note (Wipe Plain) _). assert (H4 : balanced d s3).
  { apply balanced_wipe; [|done]. destruct H3 as [B1 B2 B3]. split; cbn.
    - intros b. rewrite live_app. cbn in B1. rewrite B1. unfold pending_count, live. cbn. destruct b; cbn; repeat case_decide; try congruence; lia.
    - intros b Hb. rewrite elem_of_app, list_elem_of_singleton. cbn in B2. rewrite B2 by done. split; [intros [?|[= ->]]; done|by left].
    - cbn in B3. rewrite not_elem_of_app, list_elem_of_singleton. split; [done|congruence]. }
  pose proof (ticks_check interrupt s3) as HT3. pose proof (balanced_ticked _ _ _ H4 HT3) as H5.
  by destruct (check interrupt s3) as [s4 [[]|e]].
Qed.

Lemma keeps_pull header packed src : keeps (pull interrupt open_state header packed src).
Proof using Type.
  apply balanced_catch.
  - apply balanced_bind; [apply keeps_check|]. intros _ d s Hs. unfold mbind at 1, M_bind at 1, gets.
    destruct (t_pending s) as [p|] eqn:EP.
    + revert d s Hs EP. intros d s Hs _. revert d s Hs. apply (balanced_bind _ _ keeps_enqueue). intros x. apply balanced_ret.
    + destruct (_ =? _).
      * revert d s Hs EP. intros d s Hs _. revert d s Hs.
        apply (balanced_bind _ _ (keeps_ticks _ (ticks_end interrupt src))). intros x. apply balanced_ret.
      * pose proof (balanced_open_record header packed src d s EP Hs) as H1. unfold mbind at 1, M_bind at 1.
        destruct (open_record interrupt open_state header packed src s) as [s1 [src1|e]]; [|done].
        apply (balanced_bind _ _ keeps_enqueue); [|done]. intros x. apply balanced_ret.
  - intros e. apply balanced_bind; [intros d s Hs; by apply balanced_discard|]. intros _.
    apply balanced_bind; [|intros _; apply balanced_ret]. intros d s Hs. apply balanced_close; auto.
Qed.

Lemma keeps_drain fuel header packed src : keeps (drain interrupt open_state fuel header packed src).
Proof using Type.
  revert src. induction fuel as [|fuel IH]; intros src; cbn [drain]; [apply balanced_ret|].
  apply balanced_bind; [apply keeps_pull|]. intros [src1 [piece| |e]]; try apply balanced_ret.
  apply balanced_bind; [apply IH|]. intros [src2 t]. apply balanced_ret.
Qed.

(** *** It ends *)
Section ends.
Context (header : bytes) (packed : Z).
Hypothesis Hpacked : 1 ≤ packed.

Record pulling (s : st) : Prop := { pu_ok : pending_ok s; pu_index : 0 ≤ t_index s ≤ record_count packed }.

Lemma pull_ends src s s' src' x :
  wf_reader src → pulling s → pull interrupt open_state header packed src s = (s', Ok (src', x)) →
  match x with
  | Enqueued _ => wf_reader src' ∧ pulling s' ∧ pieces_left packed s' ≤ pieces_left packed s - 1
  | _ => t_pending s' = None
  end.
Proof using Hpacked.
  intros Hwf [Hok Hi]. unfold pull, catch.
  match goal with |- context [match ?m s with _ => _ end] => destruct (m s) as [s1 [[src1 y]|e]] eqn:E end.
  2:{ intros [= <- _ <-]. apply discard_spec. }
  intros [= <- <- <-]. apply st_ok in E as ([] & s2 & EC & E).
  pose proof (ticks_check interrupt s) as HT. rewrite EC in HT. cbn in HT. destruct (ticked_pending _ _ HT) as [EPR Hok2].
  specialize (Hok2 Hok). pose proof (tk_index _ _ HT) as HI.
  assert (EL : pieces_left packed s2 = pieces_left packed s) by (unfold pieces_left; by rewrite EPR, HI). rewrite <- EL.
  apply st_ok in E as (s3 & s4 & [= <- <-] & E). destruct (t_pending s2) as [p|] eqn:EP.
  - apply st_ok in E as (x' & s3 & EE & [= <- <- <-]).
    destruct (enqueue_step packed s2 p Hok2 EP) as (s4 & piece & E4 & Hok4 & HI4 & HP4). rewrite EE in E4. injection E4 as <- ->.
    split_and!; [done|split; [done|lia]|lia].
  - fold (record_count packed) in E. destruct (t_index s2 =? record_count packed) eqn:EN; bools.
    + apply st_ok in E as (src2 & s3 & EE & [= <- <- <-]). pose proof (ticks_end interrupt src s2) as HT2.
      rewrite EE in HT2. exact (eq_trans (tk_pending _ _ HT2) EP).
    + apply st_ok in E as (src2 & s3 & EE & E). apply st_ok in E as (x' & s4 & EE2 & [= <- <- <-]).
      assert (Hi2 : 0 ≤ t_index s2 < record_count packed) by lia.
      destruct (open_record_spec _ _ _ _ Hpacked _ _ _ _ Hwf Hi2 EE) as (sealed & plain & _ & HR & _ & HLp & EP3 & EO3 & EI3 & _).
      pose proof (record_size_positive packed _ Hpacked Hi2) as HS. pose proof (record_pieces _ HS).
      assert (Hok3 : pending_ok s3) by (unfold pending_ok; rewrite EP3, EO3; lia).
      destruct (enqueue_step packed s3 plain Hok3 EP3) as (s5 & piece & E5 & Hok5 & HI5 & HP5). rewrite EE2 in E5. injection E5 as <- ->.
      split_and!; [by apply HR|split; [done|lia]|]. rewrite HP5. unfold pieces_left. rewrite EI3.
      unfold pending_rest. rewrite EP3, EO3, EP. change (drop (Z.to_nat 0) plain) with plain. rewrite HLp.
      change (ceil_div (byteLength []) PIECE) with 0. lia.
Qed.

Lemma pull_returns src s : ∃ s' src' x, pull interrupt open_state header packed src s = (s', Ok (src', x)).
Proof using Type.
  unfold pull, catch. match goal with |- context [match ?m s with _ => _ end] => destruct (m s) as [s1 [[src1 y]|e]] end; by eexists _, _, _.
Qed.

Lemma drain_ends fuel src s :
  wf_reader src → pulling s → pieces_left packed s < Z.of_nat fuel →
  ∃ s' src' t, drain interrupt open_state fuel header packed src s = (s', Ok (src', t)) ∧ t_pending s' = None.
Proof using Hpacked.
  revert src s. induction fuel as [|fuel IH]; intros src s Hwf Hpu HF.
  { exfalso. pose proof (pu_index _ Hpu). assert (0 ≤ ceil_div (byteLength (pending_rest s)) PIECE).
    { pose proof (byteLength_nonneg (pending_rest s)). apply Z.div_pos; unfold PIECE; lia. }
    unfold pieces_left in HF. lia. }
  cbn [drain]. unfold mbind, M_bind. destruct (pull_returns src s) as (s1 & src1 & x & E). rewrite E.
  apply pull_ends in E; [|done|done]. destruct x as [piece| |e]; [|by eexists _, _, _..].
  destruct E as (H1 & H2 & H3). destruct (IH src1 s1 H1 H2 ltac:(lia)) as (s2 & src2 & t & -> & ?). by eexists _, _, _.
Qed.
End ends.

(** ** decodeState *)

(** The two buffers handed out. *)
Definition both (b : buffer) : Z := if restored b then 1 else 0.
Definition none (b : buffer) : Z := 0.

Lemma ticks_buffers (md : jsval) sl ol r :
  ticks ('(state, r) ← into interrupt sl r; '(overlay, r) ← into interrupt ol r; r ← end_ interrupt r;
         check interrupt ;; mret (md, state, overlay, r)).
Proof using Type.
  apply ticks_bind; [apply ticks_into|]. intros [state r1]. apply ticks_bind; [apply ticks_into|]. intros [overlay r2].
  apply ticks_bind; [apply ticks_end|]. intros r3. apply ticks_bind; [apply ticks_check|]. intros _. apply ticks_ret.
Qed.

(** A computation that fails or allocates both buffers. *)
Definition allocated (s : st) : st := note (Alloc RestoredOverlay) (note (Alloc MachineState) s).
Definition allocates {A} (m : M A) : Prop := ∀ s,
  (ticked s (m s).1 ∧ is_ok (m s).2 = false) ∨ ticked (allocated s) (m s).1.

Lemma allocates_throw {A} (e : exn) : allocates (lift (Throw e) : M A).
Proof using Type. intros s. by left. Qed.
Lemma allocates_bind {A B} (m : M A) (f : A → M B) : ticks m → (∀ a, allocates (f a)) → allocates (m ≫= f).
Proof using Type.
  intros Hm Hf s. specialize (Hm s). unfold mbind, M_bind. destruct (m s) as [s1 [a|e]]; [|by left]. cbn in Hm.
  destruct (Hf a s1) as [[H1 H2]|H1]; [left; split; [by etrans|done]|right].
  etrans; [|exact H1]. destruct Hm. split; cbn; congruence.
Qed.
Lemma allocates_both {A} (m : M A) : ticks m → allocates (tell (Alloc MachineState) ;; (tell (Alloc RestoredOverlay) ;; m)).
Proof using Type. intros Hm s. right. apply (Hm (allocated s)). Qed.

Lemma read_sections_allocates raw r : allocates (read_sections interrupt parse raw r).
Proof using Type.
  unfold read_sections. apply allocates_bind; [apply ticks_read|]. intros [b r1]. cbv zeta.
  destruct (_ || _); [apply allocates_throw|]. apply allocates_bind; [apply ticks_read|]. intros [m r2].
  destruct (parse m); [|apply allocates_throw]. apply allocates_bind; [apply ticks_lift|]. intros [sl ol].
  apply allocates_bind; [apply ticks_check|]. intros _. apply allocates_both, ticks_buffers.
Qed.

(** Before [read_sections] nothing is allocated for good, afterwards both buffers. *)
Definition settled_st (s : st) : Prop := t_pending s = None ∧ (balanced none s ∨ balanced both s).

Lemma balanced_allocated s : balanced none s → balanced both (allocated s).
Proof using Type.
  intros [H1 H2 H3]. split; cbn.
  - intros b. rewrite !live_app, H1. unfold none, both, pending_count, live. cbn. destruct b, (t_pending s); cbn; repeat case_decide; try congruence; lia.
  - intros b Hb. rewrite !elem_of_app, !list_elem_of_singleton. unfold both. rewrite Hb. destruct b; try done; intuition congruence.
  - rewrite !not_elem_of_app, !list_elem_of_singleton. split_and!; [done|congruence|congruence].
Qed.

(** The decoder before its first record. *)
Record fresh (s : st) : Prop := {
  fr_pending : t_pending s = None; fr_position : t_position s = 0; fr_index : t_index s = 0; fr_balanced : balanced none s
}.
Definition keeps_fresh {A} (m : M A) : Prop := ∀ s, fresh s → fresh (m s).1.
Lemma fresh_ticks {A} (m : M A) : ticks m → keeps_fresh m.
Proof using Type.
  intros H s [H1 H2 H3 H4]. specialize (H s). split; [..|by eapply balanced_ticked]; destruct H; congruence.
Qed.
Lemma fresh_bind {A B} (m : M A) (f : A → M B) : keeps_fresh m → (∀ a, keeps_fresh (f a)) → keeps_fresh (m ≫= f).
Proof using Type. intros Hm Hf s Hs. specialize (Hm s Hs). unfold mbind, M_bind. destruct (m s) as [s1 [a|e]]; [by apply Hf|done]. Qed.

Lemma fresh_read_header src : keeps_fresh (read_header interrupt src).
Proof using Type.
  unfold read_header. apply fresh_bind; [apply fresh_ticks, ticks_read|]. intros [prefix src1].
  apply fresh_bind; [apply fresh_ticks, ticks_check|]. intros _. destruct (negb _); [by intros s|]. cbv zeta. destruct (_ || _); [by intros s|].
  apply fresh_bind; [apply fresh_ticks, ticks_read|]. intros [header src2]. apply fresh_bind; [|by intros _ s].
  intros s [H1 H2 H3 H4]. split; cbn; try done. by apply balanced_pending.
Qed.
Lemma ticks_check_header size header : ticks (check_header interrupt state_base parse size header).
Proof using Type.
  unfold check_header. destruct (parse header); [|apply ticks_lift]. apply ticks_bind; [apply ticks_lift|]. intros [raw packed].
  apply ticks_bind; [apply ticks_lift|]. intros base. apply ticks_bind; [apply ticks_check|]. intros _.
  destruct (negb _); [apply ticks_lift|]. cbv zeta. destruct (_ || _); [apply ticks_lift|apply ticks_ret].
Qed.

(** [m] from states that satisfy [P]: on success [Q], and always settled. *)
Definition settles {A} (P : st → Prop) (m : M A) (Q : A → st → Prop) : Prop := ∀ s, P s →
  let y := m s in match y.2 with Ok a => Q a y.1 | Throw _ => settled_st y.1 end.
Lemma settles_bind {A B} P (m : M A) (f : A → M B) Q R :
  settles P m Q → (∀ a, settles (Q a) (f a) R) → settles P (m ≫= f) R.
Proof using Type.
  intros Hm Hf s Hs. specialize (Hm s Hs). unfold mbind, M_bind. cbv zeta in *. destruct (m s) as [s1 [a|e]]; [by apply Hf|done].
Qed.
Lemma settles_fresh {A} (m : M A) (Q : A → Prop) :
  keeps_fresh m → (∀ s s' a, m s = (s', Ok a) → Q a) → settles fresh m (λ a s, fresh s ∧ Q a).
Proof using Type.
  intros Hm HQ s Hs. specialize (Hm s Hs). specialize (HQ s). cbv zeta. destruct (m s) as [s1 [a|e]]; [split; [done|by eapply HQ]|].
  split; [apply Hm|left; apply Hm].
Qed.

Lemma settles_drain header packed expected src :
  1 ≤ packed → wf_reader src →
  settles fresh (drain interrupt open_state (drain_fuel packed) header packed (with_max expected src))
    (λ _ s, t_pending s = None ∧ balanced none s).
Proof using Type.
  intros Hp Hwf s [H1 H2 H3 H4]. assert (0 ≤ record_count packed) by (apply Z.div_pos; unfold CHUNK; lia).
  destruct (drain_ends header packed Hp (drain_fuel packed) (with_max expected src) s Hwf) as (s' & src' & t & E & HN).
  - split; [unfold pending_ok; by rewrite H1|lia].
  - unfold pieces_left, drain_fuel, pending_rest. rewrite H1, H3. change (ceil_div (byteLength []) PIECE) with 0. unfold record_count. lia.
  - pose proof (keeps_drain (drain_fuel packed) header packed (with_max expected src) none s H4) as HB. rewrite E in *. done.
Qed.

Lemma decode_body_settles size t :
  settles fresh (decode_body interrupt state_base open_state inflate parse sha256 size t)
    (λ _ s, t_pending s = None ∧ balanced both s).
Proof using Type.
  unfold decode_body.
  refine (settles_bind _ _ _ _ _ (settles_fresh _ (λ _, True) (fresh_ticks _ (ticks_check _)) (λ _ _ _ _, I)) _). intros [].
  eapply settles_bind.
  { intros s [Hs _]. revert s Hs. refine (settles_fresh _ (λ y, wf_reader y.2) (fresh_read_header _) _).
    intros s s' [header src] E. apply read_header_spec in E as (len & _ & _ & _ & HR & _); [apply HR|apply wf_new]. }
  intros [header src]. eapply settles_bind.
  { intros s [Hs Hwf]. revert s Hs. refine (settles_fresh _ (λ y, wf_reader src ∧ 1 ≤ y.1.2) (fresh_ticks _ (ticks_check_header _ _)) _).
    intros s s' [[raw packed] expected] E. apply check_header_spec in E as [_ HG]. split; [done|apply HG]. }
  intros [[raw packed] expected]. eapply settles_bind.
  { intros s [Hs [Hwf Hp]]. exact (settles_drain header packed expected src Hp Hwf s Hs). }
  intros [src2 ct]. eapply settles_bind with (Q := λ _ s, t_pending s = None ∧ balanced none s).
  { intros s [Hp Hs]. split; [done|]. apply balanced_close; auto. }
  intros []. eapply settles_bind with (Q := λ _ s, t_pending s = None ∧ balanced both s).
  { intros s [Hp Hs]. cbv zeta. pose proof (read_sections_allocates raw (new_reader (inflate ct) raw) s) as HA.
    destruct (read_sections interrupt parse raw _ s) as [s1 x]. cbn in *.
    destruct HA as [[HT HN]|HT].
    - destruct x; [done|]. split; [by rewrite (tk_pending _ _ HT)|left; by eapply balanced_ticked].
    - assert (HX : t_pending s1 = None ∧ balanced both s1).
      { split; [by rewrite (tk_pending _ _ HT)|]. by eapply balanced_ticked; [apply balanced_allocated|]. }
      destruct x; [done|]. destruct HX. split; [done|by right]. }
  intros [[[md stt] ov] r] s [Hp Hs]. unfold mbind, M_bind, gets. destruct (_ || _); [|done]. split; [done|by right].
Qed.

(** ** The end of decodeState *)
Definition final_live (ok : bool) (b : buffer) : Z := if ok then both b else 0.

(** What [wipe_allocated] adds. *)
Definition wipes (b : buffer) (l : list effect) : list effect := if decide (Alloc b ∈ l) then [Wipe b] else [].
Lemma wipe_log b t : t_log (wipe_allocated b t) = t_log t ++ wipes b (t_log t).
Proof using Type. unfold wipe_allocated, wipes. case_bool_decide; case_decide; cbn; by rewrite ?app_nil_r. Qed.
Lemma wipes_ext b l l' : (Alloc b ∈ l ↔ Alloc b ∈ l') → wipes b l = wipes b l'.
Proof using Type. intros H. unfold wipes. do 2 case_decide; tauto. Qed.
Lemma wipes_no_alloc b c l : Alloc b ∉ wipes c l.
Proof using Type. unfold wipes. case_decide; rewrite ?list_elem_of_singleton; [congruence|by intros ?%elem_of_nil]. Qed.

(** The streams are closed, the source first. *)
Lemma close_all_log complete s : ∃ closed,
  t_log (close_all complete s) = t_log s ++ (CloseSource :: closed) ++
    (if complete then [] else wipes MachineState (t_log s) ++ wipes RestoredOverlay (t_log s)) ∧
  Forall (λ e, e = CloseRaw) closed ∧ (OpenRaw ∈ t_log s → CloseRaw ∈ closed).
Proof using Type.
  unfold close_all. set (s1 := note CloseSource s). set (s2 := if bool_decide _ then _ else _).
  assert (H2 : ∃ closed, t_log s2 = t_log s ++ CloseSource :: closed ∧ Forall (λ e, e = CloseRaw) closed ∧ (OpenRaw ∈ t_log s → CloseRaw ∈ closed)).
  { subst s2. case_bool_decide as HR.
    - exists [CloseRaw]. cbn. rewrite <- app_assoc. split_and!; [done|by repeat constructor|intros _; by left].
    - exists []. split_and!; [done|done|]. intros HO. destruct HR. cbn. apply elem_of_app. by left. }
  destruct H2 as (closed & E & HF & HO). exists closed. split_and!; [|done|done].
  assert (HA : ∀ b, Alloc b ∈ t_log s2 ↔ Alloc b ∈ t_log s).
  { intros b. rewrite E, elem_of_app, elem_of_cons. rewrite Forall_forall in HF. split; [intros [?|[?|Hin%HF]]; done|by left]. }
  destruct complete; [by rewrite app_nil_r|]. rewrite !wipe_log. rewrite (wipes_ext MachineState _ _ (HA _)).
  rewrite (wipes_ext RestoredOverlay _ (t_log s)), E; [by rewrite <- !app_assoc|].
  rewrite elem_of_app, HA. pose proof (wipes_no_alloc RestoredOverlay MachineState (t_log s)). tauto.
Qed.

Lemma live_closed b l : Forall (λ e, e = CloseRaw) l → live b l = 0.
Proof using Type. induction 1 as [|e l -> _ IH]; [done|]. change (live b (CloseRaw :: l)) with (0 + live b l). lia. Qed.

Lemma close_all_live complete d s :
  t_pending s = None → balanced d s → (d = both ∨ complete = false ∧ d = none) →
  ∀ b, live b (t_log (close_all complete s)) = final_live complete b.
Proof using Type.
  intros EP [H1 H2 H3] Hd b. destruct (close_all_log complete s) as (closed & -> & HF & _).
  rewrite !live_app, H1. change (CloseSource :: closed) with ([CloseSource] ++ closed).
  rewrite live_app, (live_closed b closed HF). change (live b [CloseSource]) with 0.
  assert (HP : pending_count b s = 0) by (unfold pending_count; rewrite EP; by destruct b). rewrite HP.
  assert (HW : ∀ c, restored c = true → wipes c (t_log s) = if decide (d c = 1) then [Wipe c] else []).
  { intros c Hc. unfold wipes. specialize (H2 c Hc). do 2 case_decide; tauto. }
  rewrite !HW by done. destruct Hd as [->|[-> ->]].
  - destruct complete; destruct b; done.
  - destruct b; done.
Qed.

(** What is said of a decoder that has stopped. *)
Definition tidy (ok : bool) (s : st) : Prop :=
  (∀ b, live b (t_log s) = if ok then both b else 0) ∧
  (t_log s = [] ∨ CloseSource ∈ t_log s ∨ CancelStream ∈ t_log s) ∧
  (OpenRaw ∈ t_log s → CloseRaw ∈ t_log s).

Lemma tidy_close_all complete d s :
  t_pending s = None → balanced d s → (d = both ∨ complete = false ∧ d = none) → tidy complete (close_all complete s).
Proof using Type.
  intros HP HB Hd. split; [exact (close_all_live complete d s HP HB Hd)|].
  destruct (close_all_log complete s) as (closed & -> & HF & HO). rewrite Forall_forall in HF. split.
  - right. left. apply elem_of_app. right. by left.
  - intros HR. apply elem_of_app. right. apply elem_of_app. left. right. apply HO.
    apply elem_of_app in HR as [HR|HR]; [done|]. apply elem_of_app in HR as [HR|HR].
    { apply elem_of_cons in HR as [HR|HR%HF]; done. }
    destruct complete; [by apply elem_of_nil in HR|]. unfold wipes in HR. apply elem_of_app in HR as [HR|HR]; case_decide;
      rewrite ?list_elem_of_singleton in HR; try done; by apply elem_of_nil in HR.
Qed.

Lemma tidy_closing {A} (m : M A) s :
  fresh s → settles fresh m (λ _ s, t_pending s = None ∧ balanced both s) → tidy (is_ok (closing m s).2) (closing m s).1.
Proof using Type.
  intros Hs Hm. specialize (Hm s Hs). unfold closing. cbv zeta in Hm. destruct (m s) as [s1 [a|e]]; cbn in *.
  - destruct Hm as [HP HB]. apply (tidy_close_all true both); auto.
  - destruct Hm as [HP [HB|HB]]; [apply (tidy_close_all false none)|apply (tidy_close_all false both)]; auto.
Qed.

Lemma open_input_state i s : (open_input i s).1 = s.
Proof using Type. by destruct i as [[[[] [b|]]|e]|content b|size' b]. Qed.

Lemma tidy_empty s : t_log s = [] → tidy false s.
Proof using Type. intros E. unfold tidy. rewrite E. split_and!; [done|by left|by intros ?%elem_of_nil]. Qed.

End wiping.
