(* ===== verification/CryptoWorker.v ===== *)
(** * The crypto Worker (src/src/crypto/web/worker.js)

    The Worker keeps identities and disks of the Rust code (compiled to WebAssembly)
    behind numeric handles and executes one request after the other.

    As in VaultWorker.v, everything outside the file is a [call]; the parameter [env]
    answers it from the calls made so far.  An object of the Rust code is named by the
    order of its allocation.  Messages are taken to be postable. *)
From S2P Require Import Prelude JsValue.
#[local] Open Scope Z_scope.

Module CryptoWorker.

(** ** Data *)
Inductive call :=
| DeriveIdentity (o : Z) (username : string) (password : bytes) (machine : string)
| PublicKey (o : Z) | RelayPublicKey (o : Z)
| Sign (o : Z) (message : bytes)
| SignRelayChallenge (o : Z) (url origin : string) (nonce : bytes) (expires : Z)
| CreateDisk (o owner : Z) | OpenDisk (o owner : Z) (descriptor : bytes)
| SealDescriptor (owner o : Z)
| DiskId (o : Z)
| SealUnit (o : Z) (unit bytes : bytes) | OpenUnit (o : Z) (unit envelope : bytes)
| SealMetadata (o : Z) (bytes : bytes) | OpenMetadata (o : Z) (envelope : bytes)
| Close (o : Z) | Free (o : Z)
| Verify (publicKey message signature : bytes)
| ObjectHash (bytes : bytes).
Definition answer (c : call) : Type :=
  match c with
  | DeriveIdentity _ _ _ _ | CreateDisk _ _ | OpenDisk _ _ _ | Close _ | Free _ => unit
  | Verify _ _ _ => bool
  | ObjectHash _ => string
  | _ => bytes
  end.

(** A request, with the fields of its arguments; [expires] is what [BigInt] makes of
    it, [None] when it throws. *)
Inductive request :=
| RDerive (username : string) (password : bytes) (machine : string)
| RCreateDisk (identity : Z) | ROpenDisk (identity : Z) (descriptor : bytes)
| RSealUnit (disk : Z) (unit bytes : bytes) | ROpenUnit (disk : Z) (unit envelope : bytes)
| RSealMetadata (disk : Z) (bytes : bytes) | ROpenMetadata (disk : Z) (envelope : bytes)
| RSign (identity : Z) (message : bytes) | RRelayPublicKey (identity : Z)
| RSignRelayChallenge (identity : Z) (url origin : string) (nonce : bytes) (expires : option Z)
| RVerify (publicKey message signature : bytes) | RHash (bytes : bytes)
| RCloseDisk (disk : Z) | RCloseIdentity (identity : Z) | RShutdown
| RUnknown.
Inductive reply :=
| Identity (handle : Z) (publicKey : bytes)
| Disk (handle : Z) (diskId descriptor : bytes) (sha256 : string)
| Encrypted (bytes : bytes) (sha256 : string)
| Data (bytes : bytes) | Verified (b : bool) | Hash (sha256 : string) | Null.

(** What leaves the Worker: a posted message and the wiping of a request's arguments. *)
Inductive output := Posted (id : Z) (r : result reply) | Wiped (id : Z).

Record worker := Worker {
  w_identities : list (Z * Z);            (** handle, object *)
  w_disks : list (Z * (Z * Z));           (** handle, object and owner *)
  w_next : Z;                             (** [nextHandle] *)
  w_stopped : bool;
  w_objects : Z;                          (** the objects allocated so far *)
  w_log : list (call * bool);             (** the calls and whether they succeeded *)
  w_out : list output
}.
(** [init()] decides whether the Worker starts stopped. *)
Definition new_worker (ready : bool) : worker := Worker [] [] 0 (negb ready) 0 [] [].

Definition set_identities (x : list (Z * Z)) (w : worker) : worker :=
  Worker x (w_disks w) (w_next w) (w_stopped w) (w_objects w) (w_log w) (w_out w).
Definition set_disks (x : list (Z * (Z * Z))) (w : worker) : worker :=
  Worker (w_identities w) x (w_next w) (w_stopped w) (w_objects w) (w_log w) (w_out w).
Definition set_next (x : Z) (w : worker) : worker :=
  Worker (w_identities w) (w_disks w) x (w_stopped w) (w_objects w) (w_log w) (w_out w).
Definition set_stopped (x : bool) (w : worker) : worker :=
  Worker (w_identities w) (w_disks w) (w_next w) x (w_objects w) (w_log w) (w_out w).
Definition log_call (c : call * bool) (w : worker) : worker :=
  Worker (w_identities w) (w_disks w) (w_next w) (w_stopped w) (w_objects w) (w_log w ++ [c]) (w_out w).
Definition set_objects (x : Z) (w : worker) : worker :=
  Worker (w_identities w) (w_disks w) (w_next w) (w_stopped w) x (w_log w) (w_out w).
Definition put (o : output) (w : worker) : worker :=
  Worker (w_identities w) (w_disks w) (w_next w) (w_stopped w) (w_objects w) (w_log w) (w_out w ++ [o]).

(** ** The monad *)
Definition M (A : Type) : Type := worker → worker * result A.
#[export] Instance M_ret : MRet M := λ A a w, (w, Ok a).
#[export] Instance M_bind : MBind M := λ A B f m w,
  match m w with (w, Ok a) => f a w | (w, Throw e) => (w, Throw e) end.
Definition getw : M worker := λ w, (w, Ok w).
Definition modify (f : worker → worker) : M unit := λ w, (f w, Ok tt).
Definition fail {A} (message : string) : M A := λ w, (w, throw_plain message).
Definition catch {A} (m : M A) (h : exn → M A) : M A := λ w,
  match m w with (w, Throw e) => h e w | x => x end.
Definition rethrow {A} (e : exn) : M A := λ w, (w, Throw e).

Section worker.
Context (env : list (call * bool) → ∀ c : call, result (answer c)).

Definition invoke (c : call) : M (answer c) := λ w,
  let x := env (w_log w) c in (log_call (c, is_ok x) w, x).
(** A call that allocates the next object when it succeeds. *)
Definition allocate (c : Z → call) : M Z := λ w,
  match env (w_log w) (c (w_objects w)) with
  | Ok _ => (set_objects (w_objects w + 1) (log_call (c (w_objects w), true) w), Ok (w_objects w))
  | Throw e => (log_call (c (w_objects w), false) w, Throw e)
  end.

(** ** Handles *)
Definition identity (handle : Z) : M Z :=
  w ← getw;
  match map_get handle (w_identities w) with
  | Some o => mret o
  | None => fail "Unknown or closed identity"
  end.
Definition disk (handle : Z) : M Z :=
  w ← getw;
  match map_get handle (w_disks w) with
  | Some (o, _) => mret o
  | None => fail "Unknown or closed disk"
  end.
Definition dropDisk (handle : Z) : M unit :=
  w ← getw;
  match map_get handle (w_disks w) with
  | Some (o, _) =>
      invoke (Close o) ;; invoke (Free o) ;;
      modify (λ w, set_disks (map_delete handle (w_disks w)) w)
  | None => mret tt
  end.
(** The loop over [disks]: the only entry it removes is the current one. *)
Fixpoint drop_disks (owner : Z) (l : list (Z * (Z * Z))) : M unit :=
  match l with
  | [] => mret tt
  | (id, (_, owner')) :: l => (if owner' =? owner then dropDisk id else mret tt) ;; drop_disks owner l
  end.
Definition dropIdentity (handle : Z) : M unit :=
  w ← getw;
  drop_disks handle (w_disks w) ;;
  w ← getw;
  match map_get handle (w_identities w) with
  | Some o =>
      invoke (Close o) ;; invoke (Free o) ;;
      modify (λ w, set_identities (map_delete handle (w_identities w)) w)
  | None => mret tt
  end.
Fixpoint drop_identities (l : list Z) : M unit :=
  match l with
  | [] => mret tt
  | handle :: l => dropIdentity handle ;; drop_identities l
  end.
Definition next_handle : M Z :=
  modify (λ w, set_next (w_next w + 1) w) ;; w ← getw; mret (w_next w).
Definition addDisk (o owner : Z) (descriptor : bytes) : M reply :=
  handle ← next_handle;
  modify (λ w, set_disks (map_set handle (o, owner) (w_disks w)) w) ;;
  diskId ← invoke (DiskId o);
  sha256 ← invoke (ObjectHash descriptor);
  mret (Disk handle diskId descriptor sha256).
Definition encrypted (bytes : bytes) : M reply :=
  sha256 ← invoke (ObjectHash bytes); mret (Encrypted bytes sha256).

(** ** execute *)
Definition createDisk (handle : Z) : M reply :=
  owner ← identity handle;
  o ← allocate (λ o, CreateDisk o owner);
  catch (descriptor ← invoke (SealDescriptor owner o); addDisk o handle descriptor)
        (λ e, invoke (Close o) ;; invoke (Free o) ;; rethrow e).
Definition derive (username : string) (password : bytes) (machine : string) : M reply :=
  o ← allocate (λ o, DeriveIdentity o username password machine);
  handle ← next_handle;
  modify (λ w, set_identities (map_set handle o (w_identities w)) w) ;;
  publicKey ← invoke (PublicKey o);
  mret (Identity handle publicKey).

Definition execute (r : request) : M reply :=
  match r with
  | RDerive username password machine => derive username password machine
  | RCreateDisk handle => createDisk handle
  | ROpenDisk handle descriptor =>
      owner ← identity handle; o ← allocate (λ o, OpenDisk o owner descriptor); addDisk o handle descriptor
  | RSealUnit handle unit bytes => o ← disk handle; sealed ← invoke (SealUnit o unit bytes); encrypted sealed
  | ROpenUnit handle unit envelope => o ← disk handle; data ← invoke (OpenUnit o unit envelope); mret (Data data)
  | RSealMetadata handle bytes => o ← disk handle; sealed ← invoke (SealMetadata o bytes); encrypted sealed
  | ROpenMetadata handle envelope => o ← disk handle; data ← invoke (OpenMetadata o envelope); mret (Data data)
  | RSign handle message => o ← identity handle; data ← invoke (Sign o message); mret (Data data)
  | RRelayPublicKey handle => o ← identity handle; data ← invoke (RelayPublicKey o); mret (Data data)
  | RSignRelayChallenge handle url origin nonce expires =>
      o ← identity handle;
      match expires with
      | Some expires => data ← invoke (SignRelayChallenge o url origin nonce expires); mret (Data data)
      | None => fail "Cannot convert to a BigInt"
      end
  | RVerify publicKey message signature => b ← invoke (Verify publicKey message signature); mret (Verified b)
  | RHash bytes => h ← invoke (ObjectHash bytes); mret (Hash h)
  | RCloseDisk handle => disk handle ;; dropDisk handle ;; mret Null
  | RCloseIdentity handle => identity handle ;; dropIdentity handle ;; mret Null
  | RShutdown =>
      w ← getw; drop_identities ((w_identities w).*1) ;; modify (set_stopped true) ;; mret Null
  | RUnknown => fail "Unknown crypto operation"
  end.

(** One message: the reply is posted and the arguments are wiped. *)
Definition onmessage (m : Z * request) (w : worker) : worker :=
  let '(w, r) := (if w_stopped w then fail "Crypto Worker is closed" else execute m.2) w in
  put (Wiped m.1) (put (Posted m.1 r) w).
Definition run (l : list (Z * request)) (w : worker) : worker := foldl (λ w m, onmessage m w) w l.

End worker.
End CryptoWorker.
