(* ===== verification/CryptoHandles.v ===== *)
(** * The crypto Worker: handles and objects

    When the Rust code keeps its contract (an open object knows its identifier, and
    [close] and [free] succeed), the objects alive are exactly the ones behind a handle,
    each is closed and freed once and never used again. *)
From S2P Require Import Prelude CryptoWorker.
#[local] Open Scope Z_scope.
Import CryptoWorker.

(** ** Calls and objects *)
Definition uses (c : call) : list Z :=
  match c with
  | DeriveIdentity _ _ _ _ | Verify _ _ _ | ObjectHash _ => []
  | CreateDisk _ owner | OpenDisk _ owner _ => [owner]
  | SealDescriptor owner o => [owner; o]
  | PublicKey o | RelayPublicKey o | Sign o _ | SignRelayChallenge o _ _ _ _ | DiskId o
  | SealUnit o _ _ | OpenUnit o _ _ | SealMetadata o _ | OpenMetadata o _ | Close o | Free o => [o]
  end.
Definition creates (c : call) : option Z :=
  match c with DeriveIdentity o _ _ _ | CreateDisk o _ | OpenDisk o _ _ => Some o | _ => None end.
Definition ends (c : call) : bool := match c with Close _ | Free _ => true | _ => false end.

Definition created (o : Z) (l : list (call * bool)) : Prop := ∃ c, (c, true) ∈ l ∧ creates c = Some o.
Definition closed (o : Z) (l : list (call * bool)) : Prop := ∃ b, (Close o, b) ∈ l.
Definition freed (o : Z) (l : list (call * bool)) : Prop := ∃ b, (Free o, b) ∈ l.

(** A call is lawful after [past]: its objects exist, none has been freed, and none
    closed unless this is the call that frees it, which comes after the closing. *)
Definition lawful (past : list (call * bool)) (c : call * bool) : Prop :=
  ∀ o, o ∈ uses c.1 → created o past ∧ ¬ freed o past ∧ (closed o past ↔ c.1 = Free o).

Lemma created_snoc o l c : created o (l ++ [c]) ↔ created o l ∨ c.2 = true ∧ creates c.1 = Some o.
Proof.
  unfold created. destruct c as [c b]. setoid_rewrite elem_of_app. setoid_rewrite list_elem_of_singleton. cbn. split.
  - intros (c' & [H|[= -> <-]] & E); eauto.
  - intros [(c' & H & E)|[-> E]]; eauto.
Qed.
Lemma closed_snoc o l c : closed o (l ++ [c]) ↔ closed o l ∨ c.1 = Close o.
Proof.
  unfold closed. destruct c as [c b]. setoid_rewrite elem_of_app. setoid_rewrite list_elem_of_singleton. cbn. split.
  - intros (b' & [H|[= -> <-]]); eauto.
  - intros [(b' & H)| ->]; eauto.
Qed.
Lemma freed_snoc o l c : freed o (l ++ [c]) ↔ freed o l ∨ c.1 = Free o.
Proof.
  unfold freed. destruct c as [c b]. setoid_rewrite elem_of_app. setoid_rewrite list_elem_of_singleton. cbn. split.
  - intros (b' & [H|[= -> <-]]); eauto.
  - intros [(b' & H)| ->]; eauto.
Qed.

(** ** The invariant *)
Definition objs (w : worker) : list Z := (w_identities w).*2 ++ (w_disks w).*2.*1.
Definition keys (w : worker) : list Z := (w_identities w).*1 ++ (w_disks w).*1.

(** [loose]: objects alive that have no handle yet or any more. *)
Record inv (loose : list Z) (w : worker) : Prop := {
  iv_created : ∀ o, created o (w_log w) ↔ 0 ≤ o < w_objects w;
  iv_objects : 0 ≤ w_objects w;
  iv_alive : ∀ o, o ∈ loose ++ objs w ↔ created o (w_log w) ∧ ¬ freed o (w_log w);
  iv_nodup : NoDup (loose ++ objs w);
  iv_open : ∀ o, o ∈ loose ++ objs w → ¬ closed o (w_log w);
  iv_log : past_ok lawful (w_log w);
  iv_keys : NoDup (keys w);
  iv_next : ∀ h, h ∈ keys w → h ≤ w_next w;
  iv_owner : ∀ p, p ∈ w_disks w → p.2.2 ∈ (w_identities w).*1
}.

(** What the Rust code promises. *)
Record reliable (env : list (call * bool) → ∀ c : call, result (answer c)) : Prop := {
  re_id : ∀ l o, ¬ closed o l → is_ok (env l (DiskId o)) = true;
  re_key : ∀ l o, ¬ closed o l → is_ok (env l (PublicKey o)) = true;
  re_hash : ∀ l b, is_ok (env l (ObjectHash b)) = true;
  re_close : ∀ l o, ¬ freed o l → is_ok (env l (Close o)) = true;
  re_free : ∀ l o, ¬ freed o l → is_ok (env l (Free o)) = true
}.

Lemma inv_new ready : inv [] (new_worker ready).
Proof.
  assert (HC : ∀ o, ¬ created o []) by (intros o (c & H%elem_of_nil & _); done).
  split; cbn; try done; try (by intros ? ?%elem_of_nil); try apply NoDup_nil_2.
  - intros o. split; [by intros ?%HC|lia].
  - intros o. split; [by intros ?%elem_of_nil|by intros [?%HC _]].
Qed.

(** *** Calls *)
Lemma inv_use L w c b :
  inv L w → (∀ o, o ∈ uses c → o ∈ L ++ objs w) → ends c = false → (creates c = None ∨ b = false) →
  inv L (log_call (c, b) w).
Proof.
  intros [H1 H2 H3 H4 H5 H6 H7 H8 H9] Hu He Hc.
  assert (HC : ∀ o, created o (w_log w ++ [(c, b)]) ↔ created o (w_log w)).
  { intros o. rewrite created_snoc. cbn. split; [|by left]. intros [?|[-> E]]; [done|]. destruct Hc; congruence. }
  assert (HF : ∀ o, freed o (w_log w ++ [(c, b)]) ↔ freed o (w_log w)).
  { intros o. rewrite freed_snoc. cbn. split; [|by left]. intros [?| ->]; done. }
  assert (HX : ∀ o, closed o (w_log w ++ [(c, b)]) ↔ closed o (w_log w)).
  { intros o. rewrite closed_snoc. cbn. split; [|by left]. intros [?| ->]; done. }
  split; cbn; try done.
  - intros o. by rewrite HC.
  - intros o. rewrite HC, HF. apply H3.
  - intros o Ho. rewrite HX. by apply H5.
  - apply past_ok_snoc; [done|]. intros o Ho. specialize (Hu o Ho). destruct (proj1 (H3 o) Hu) as [? ?].
    split_and!; [done|done|]. split; [intros Hcl; by destruct (H5 o Hu)|]. cbn. intros ->. done.
Qed.

Lemma inv_alloc L w c :
  inv L w → (∀ o, o ∈ uses c → o ∈ L ++ objs w) → creates c = Some (w_objects w) →
  inv (w_objects w :: L) (set_objects (w_objects w + 1) (log_call (c, true) w)).
Proof.
  intros [H1 H2 H3 H4 H5 H6 H7 H8 H9] Hu Hc. set (n := w_objects w) in *.
  assert (He : ends c = false) by (by destruct c).
  assert (HC : ∀ o, created o (w_log w ++ [(c, true)]) ↔ created o (w_log w) ∨ o = n).
  { intros o. rewrite created_snoc. cbn. rewrite Hc. intuition congruence. }
  assert (HF : ∀ o, freed o (w_log w ++ [(c, true)]) ↔ freed o (w_log w)).
  { intros o. rewrite freed_snoc. cbn. split; [|by left]. intros [?| ->]; done. }
  assert (HX : ∀ o, closed o (w_log w ++ [(c, true)]) ↔ closed o (w_log w)).
  { intros o. rewrite closed_snoc. cbn. split; [|by left]. intros [?| ->]; done. }
  assert (HN : ¬ created n (w_log w)) by (rewrite H1; lia).
  assert (Hfr : ∀ o l, past_ok lawful l → freed o l ∨ closed o l → created o l).
  { intros o l Hl. induction l as [|e l IH] using rev_ind; [intros [(? & ?%elem_of_nil)|(? & ?%elem_of_nil)]; done|].
    apply past_ok_snoc_inv in Hl as [Hl He']. rewrite freed_snoc, closed_snoc, created_snoc. intros [[?|E]|[?|E]]; eauto; left;
      apply (He' o); rewrite E; by left. }
  split; cbn; try done.
  - intros o. rewrite HC, H1. lia.
  - lia.
  - intros o. rewrite elem_of_cons, HC, HF, H3. split; [|intuition].
    intros [->|[? ?]]; [|intuition]. split; [by right|]. intros Hf. apply HN. eauto.
  - constructor; [|done]. intros Hin. apply H3 in Hin as [? _]. done.
  - intros o. rewrite elem_of_cons, HX. intros [->|Hin]; [|by apply H5]. intros Hcl. apply HN. eauto.
  - apply past_ok_snoc; [done|]. intros o Ho. specialize (Hu o Ho). destruct (proj1 (H3 o) Hu) as [? ?].
    split_and!; [done|done|]. split; [intros Hcl; by destruct (H5 o Hu)|]. cbn. intros ->. done.
Qed.

(** *** Destroying an object without a handle *)
Section worker.
Context (env : list (call * bool) → ∀ c : call, result (answer c)).
Hypothesis Henv : reliable env.

Definition destroyed (o : Z) (w : worker) : worker := log_call (Free o, true) (log_call (Close o, true) w).

Lemma inv_destroyed L o w : inv (o :: L) w → inv L (destroyed o w).
Proof using Type.
  intros [H1 H2 H3 H4 H5 H6 H7 H8 H9]. assert (Ho : o ∈ (o :: L) ++ objs w) by (by left).
  destruct (proj1 (H3 o) Ho) as [Hc Hf]. pose proof (H5 o Ho) as Hn. apply NoDup_cons in H4 as [Hni H4].
  assert (HC : ∀ p, created p (w_log (destroyed o w)) ↔ created p (w_log w)).
  { intros p. cbn. rewrite !created_snoc. cbn. intuition discriminate. }
  assert (HF : ∀ p, freed p (w_log (destroyed o w)) ↔ freed p (w_log w) ∨ p = o).
  { intros p. cbn. rewrite !freed_snoc. cbn. intuition congruence. }
  assert (HX : ∀ p, closed p (w_log (destroyed o w)) ↔ closed p (w_log w) ∨ p = o).
  { intros p. cbn. rewrite !closed_snoc. cbn. intuition congruence. }
  split; try done.
  - intros p. rewrite HC. apply H1.
  - intros p. change (objs (destroyed o w)) with (objs w). rewrite HC, HF. specialize (H3 p). cbn in H3. rewrite elem_of_cons in H3.
    split.
    + intros Hp. destruct (proj1 H3 (or_intror Hp)). split; [done|]. intros [?| ->]; done.
    + intros [? Hn']. destruct (proj2 H3) as [->|?]; [|by destruct Hn'; right|done]. tauto.
  - intros p Hp. rewrite HX. intros [Hcl| ->]; [|done]. by apply (H5 p); [right|].
  - cbn. apply past_ok_snoc; [apply past_ok_snoc; [done|]|]; intros p ->%list_elem_of_singleton; cbn.
    + split_and!; [done|done|]. split; [done|congruence].
    + rewrite created_snoc, freed_snoc, closed_snoc. cbn. split_and!; [by left|by intros [?|?]|]. split; [done|by right].
Qed.

Lemma destroy_ok {A} o w (f : M A) :
  ¬ freed o (w_log w) → (invoke env (Close o) ;; (invoke env (Free o) ;; f)) w = f (destroyed o w).
Proof using Henv.
  intros Hf. unfold mbind, M_bind, invoke. cbv zeta.
  pose proof (re_close _ Henv (w_log w) o Hf) as HC. destruct (env (w_log w) (Close o)); [cbn [is_ok]|done].
  assert (Hf' : ¬ freed o (w_log w ++ [(Close o, true)])) by (rewrite freed_snoc; intros [?|?]; done).
  pose proof (re_free _ Henv _ o Hf') as HF. change (w_log (log_call (Close o, true) w)) with (w_log w ++ [(Close o, true)]).
  by destruct (env (w_log w ++ _) (Free o)).
Qed.

End worker.

(** *** Handles *)

(** The tables change; the objects stay the same ones. *)
Lemma inv_tables L L' w w' :
  inv L w → w_log w' = w_log w → w_objects w' = w_objects w → L' ++ objs w' ≡ₚ L ++ objs w →
  NoDup (keys w') → (∀ h, h ∈ keys w' → h ≤ w_next w') → (∀ p, p ∈ w_disks w' → p.2.2 ∈ (w_identities w').*1) → inv L' w'.
Proof.
  intros [H1 H2 H3 H4 H5 H6 H7 H8 H9] E1 E2 HP K1 K2 K3. split; rewrite ?E1, ?E2; try done.
  - intros o. rewrite HP. apply H3.
  - by rewrite HP.
  - intros o. rewrite HP. apply H5.
Qed.

Lemma keys_nodup L w : inv L w → NoDup (w_identities w).*1 ∧ NoDup (w_disks w).*1.
Proof. intros H. pose proof (iv_keys _ _ H) as HK. by apply NoDup_app in HK as (? & _ & ?). Qed.

Lemma inv_unregister_disk L w h o ow :
  inv L w → map_get h (w_disks w) = Some (o, ow) → inv (o :: L) (set_disks (map_delete h (w_disks w)) w).
Proof.
  intros H E. destruct (keys_nodup _ _ H) as [_ K3]. pose proof (map_delete_entry _ _ _ K3 E) as HP.
  assert (HQ : keys w ≡ₚ h :: keys (set_disks (map_delete h (w_disks w)) w)).
  { unfold keys. cbn. rewrite HP at 1. cbn. by rewrite <- Permutation_middle. }
  pose proof (iv_keys _ _ H) as HK. rewrite HQ in HK. apply NoDup_cons in HK as [_ HK].
  apply (inv_tables L _ w); try done.
  - unfold objs. cbn. rewrite HP at 2. cbn. rewrite !app_assoc. by rewrite <- Permutation_middle.
  - intros k Hk. apply (iv_next _ _ H). rewrite HQ. by right.
  - intros p. cbn. rewrite elem_of_map_delete. intros [? _]. by apply (iv_owner _ _ H).
Qed.

Lemma inv_unregister_identity L w h o :
  inv L w → map_get h (w_identities w) = Some o → (∀ p, p ∈ w_disks w → p.2.2 ≠ h) →
  inv (o :: L) (set_identities (map_delete h (w_identities w)) w).
Proof.
  intros H E Hno. destruct (keys_nodup _ _ H) as [K1 _]. pose proof (map_delete_entry _ _ _ K1 E) as HP.
  assert (HQ : keys w ≡ₚ h :: keys (set_identities (map_delete h (w_identities w)) w)).
  { unfold keys. cbn. by rewrite HP at 1. }
  pose proof (iv_keys _ _ H) as HK. rewrite HQ in HK. apply NoDup_cons in HK as [_ HK].
  apply (inv_tables L _ w); try done.
  - unfold objs. cbn. rewrite HP at 2. cbn. by rewrite <- Permutation_middle.
  - intros k Hk. apply (iv_next _ _ H). rewrite HQ. by right.
  - intros p Hp. cbn. pose proof (iv_owner _ _ H p Hp) as Ho. specialize (Hno p Hp).
    apply list_elem_of_fmap in Ho as ([k v] & E' & Hin).
    apply list_elem_of_fmap. exists (k, v). split; [done|]. apply elem_of_map_delete. split; [done|]. cbn in *. congruence.
Qed.

Lemma next_fresh L w : inv L w → map_get (w_next w + 1) (w_disks w) = None ∧ map_get (w_next w + 1) (w_identities w) = None ∧ w_next w + 1 ∉ keys w.
Proof.
  intros H. assert (HN : w_next w + 1 ∉ keys w) by (intros Hin%(iv_next _ _ H); lia).
  split_and!; [..|done]; apply map_get_None; intros Hin; apply HN; unfold keys; apply elem_of_app; auto.
Qed.

Lemma inv_register_disk L w o ow :
  inv (o :: L) w → ow ∈ (w_identities w).*1 →
  inv L (set_disks (map_set (w_next w + 1) (o, ow) (w_disks w)) (set_next (w_next w + 1) w)).
Proof.
  intros H How. destruct (next_fresh _ _ H) as (HG & _ & HN). rewrite (map_set_new _ _ _ HG). set (w' := set_disks _ _).
  assert (HQ : keys w' ≡ₚ (w_next w + 1) :: keys w).
  { unfold keys, w'. cbn. rewrite fmap_app. cbn. rewrite !app_assoc, Permutation_app_comm. done. }
  apply (inv_tables (o :: L) _ w); try done.
  - unfold objs, w'. cbn. rewrite !fmap_app. cbn. rewrite !app_assoc, Permutation_app_comm. done.
  - rewrite HQ. constructor; [done|apply (iv_keys _ _ H)].
  - intros k. rewrite HQ. intros [->|Hk%(iv_next _ _ H)]%elem_of_cons; unfold w'; cbn; lia.
  - intros p. unfold w'. cbn. rewrite elem_of_app, list_elem_of_singleton. intros [Hp| ->]; [by apply (iv_owner _ _ H)|done].
Qed.

Lemma inv_register_identity L w o :
  inv (o :: L) w → inv L (set_identities (map_set (w_next w + 1) o (w_identities w)) (set_next (w_next w + 1) w)).
Proof.
  intros H. destruct (next_fresh _ _ H) as (_ & HG & HN). rewrite (map_set_new _ _ _ HG). set (w' := set_identities _ _).
  assert (HQ : keys w' ≡ₚ (w_next w + 1) :: keys w).
  { unfold keys, w'. cbn. rewrite fmap_app. cbn. rewrite <- app_assoc. cbn. by rewrite <- Permutation_middle. }
  apply (inv_tables (o :: L) _ w); try done.
  - unfold objs, w'. cbn. rewrite !fmap_app. cbn. rewrite <- app_assoc. cbn. by rewrite <- !Permutation_middle.
  - rewrite HQ. constructor; [done|apply (iv_keys _ _ H)].
  - intros k. rewrite HQ. intros [->|Hk%(iv_next _ _ H)]%elem_of_cons; unfold w'; cbn; lia.
  - intros p Hp. unfold w'. cbn. rewrite fmap_app, elem_of_app. left. by apply (iv_owner _ _ H).
Qed.

(** ** The operations *)
Section operations.
Context (env : list (call * bool) → ∀ c : call, result (answer c)).
Hypothesis Henv : reliable env.

Lemma registered_disk L w h o ow : map_get h (w_disks w) = Some (o, ow) → o ∈ L ++ objs w.
Proof using Type.
  intros E%map_get_elem. unfold objs. rewrite !elem_of_app. right. right. apply list_elem_of_fmap. exists (o, ow). split; [done|].
  apply list_elem_of_fmap. by exists (h, (o, ow)).
Qed.
Lemma registered_identity L w h o : map_get h (w_identities w) = Some o → o ∈ L ++ objs w.
Proof using Type.
  intros E%map_get_elem. unfold objs. rewrite !elem_of_app. right. left. apply list_elem_of_fmap. by exists (h, o).
Qed.

(** What an operation leaves alone. *)
Record same_rest (w w' : worker) : Prop := {
  sr_next : w_next w' = w_next w; sr_stopped : w_stopped w' = w_stopped w; sr_out : w_out w' = w_out w
}.

Lemma dropDisk_ok h w :
  inv [] w → ∃ w', dropDisk env h w = (w', Ok tt) ∧ inv [] w' ∧ w_identities w' = w_identities w ∧
    w_disks w' = map_delete h (w_disks w) ∧ same_rest w w'.
Proof using Henv.
  intros H. unfold dropDisk. unfold mbind at 1, M_bind at 1, getw. destruct (map_get h (w_disks w)) as [[o ow]|] eqn:E.
  - destruct (proj1 (iv_alive _ _ H o) (registered_disk [] _ _ _ _ E)) as [_ Hf]. rewrite (destroy_ok env Henv) by done.
    eexists. split; [done|]. split; [|done]. exact (inv_destroyed _ _ _ (inv_unregister_disk _ _ _ _ _ H E)).
  - exists w. rewrite map_delete_absent by done. by split_and!.
Qed.

Lemma drop_disks_ok owner l w :
  inv [] w → ∃ w', drop_disks env owner l w = (w', Ok tt) ∧ inv [] w' ∧ w_identities w' = w_identities w ∧
    (∀ p, p ∈ w_disks w' → p ∈ w_disks w ∧ ∀ q, q ∈ l → q.2.2 = owner → q.1 ≠ p.1) ∧ same_rest w w'.
Proof using Henv.
  revert w. induction l as [|[id [o ow]] l IH]; intros w H.
  { exists w. split_and!; try done. intros p Hp. split; [done|]. by intros q ?%elem_of_nil. }
  cbn [drop_disks]. unfold mbind, M_bind. destruct (ow =? owner) eqn:E; bools.
  - destruct (dropDisk_ok id w H) as (w1 & -> & H1 & E1 & E2 & [? ? ?]).
    destruct (IH w1 H1) as (w2 & -> & H2 & E3 & HD & [? ? ?]). exists w2.
    split_and!; [done|done|congruence| |split; congruence]. intros p Hp. destruct (HD p Hp) as [Hp1 Hq].
    rewrite E2 in Hp1. apply elem_of_map_delete in Hp1 as [Hp1 Hne]. split; [done|].
    intros q [->|Hin]%elem_of_cons; [cbn; congruence|by apply Hq].
  - destruct (IH w H) as (w2 & EQ & H2 & E3 & HD & HS). unfold mret, M_ret. exists w2. rewrite EQ. split_and!; [done|done|done| |done].
    intros p Hp. destruct (HD p Hp) as [Hp1 Hq]. split; [done|]. intros q [->|Hin]%elem_of_cons; [done|by apply Hq].
Qed.

Lemma dropIdentity_ok h w :
  inv [] w → ∃ w', dropIdentity env h w = (w', Ok tt) ∧ inv [] w' ∧ w_identities w' = map_delete h (w_identities w) ∧
    (∀ p, p ∈ w_disks w' → p.2.2 ≠ h) ∧ same_rest w w'.
Proof using Henv.
  intros H. unfold dropIdentity. unfold mbind at 1, M_bind at 1, getw. unfold mbind at 1, M_bind at 1.
  destruct (drop_disks_ok h (w_disks w) w H) as (w1 & -> & H1 & E1 & HD & [S1 S2 S3]). unfold mbind at 1, M_bind at 1.
  assert (HN : ∀ p, p ∈ w_disks w1 → p.2.2 ≠ h).
  { intros p Hp Heq. destruct (HD p Hp) as [Hp0 Hq]. by apply (Hq p Hp0 Heq). }
  destruct (map_get h (w_identities w1)) as [o|] eqn:E.
  - destruct (proj1 (iv_alive _ _ H1 o) (registered_identity [] _ _ _ E)) as [_ Hf]. rewrite (destroy_ok env Henv) by done.
    eexists. split; [done|]. split; [exact (inv_destroyed _ _ _ (inv_unregister_identity _ _ _ _ H1 E HN))|].
    cbn. rewrite E1. split_and!; [done|done|by split].
  - exists w1. rewrite E1 in *. rewrite map_delete_absent by done. by split_and!.
Qed.

Lemma drop_identities_ok l w :
  inv [] w → ∃ w', drop_identities env l w = (w', Ok tt) ∧ inv [] w' ∧
    (∀ p, p ∈ w_identities w' → p ∈ w_identities w ∧ p.1 ∉ l) ∧ same_rest w w'.
Proof using Henv.
  revert w. induction l as [|h l IH]; intros w H.
  { exists w. split_and!; try done. intros p Hp. split; [done|by intros ?%elem_of_nil]. }
  cbn [drop_identities]. unfold mbind, M_bind. destruct (dropIdentity_ok h w H) as (w1 & -> & H1 & E1 & _ & [? ? ?]).
  destruct (IH w1 H1) as (w2 & -> & H2 & HD & [? ? ?]). exists w2. split_and!; [done|done| |split; congruence].
  intros p Hp. destruct (HD p Hp) as [Hp1 Hn]. rewrite E1 in Hp1. apply elem_of_map_delete in Hp1 as [? ?].
  split; [done|]. by rewrite elem_of_cons; intros [?|?].
Qed.

Lemma inv_call w c b :
  inv [] w → (∀ o, o ∈ uses c → o ∈ objs w) → ends c = false → creates c = None → inv [] (log_call (c, b) w).
Proof using Type. intros H Hu He Hc. apply inv_use; auto. Qed.

(** What a request leaves behind. *)
Definition kept {A} (w : worker) (y : worker * result A) : Prop :=
  inv [] y.1 ∧ w_out y.1 = w_out w ∧ w_stopped y.1 = w_stopped w.

Lemma kept_throw {A} w e : inv [] w → kept w (w, @Throw A e).
Proof using Type. done. Qed.

(** A call on the object behind a handle, and what follows it. *)
Lemma kept_invoke {A} w0 w c (f : answer c → M A) :
  inv [] w → w_out w = w_out w0 → w_stopped w = w_stopped w0 →
  (∀ o, o ∈ uses c → o ∈ objs w) → ends c = false → creates c = None →
  (∀ a w', inv [] w' → w_out w' = w_out w0 → w_stopped w' = w_stopped w0 → kept w0 (f a w')) →
  kept w0 ((invoke env c ≫= f) w).
Proof using Type.
  intros H E1 E2 Hu He Hc Hf. unfold mbind, M_bind, invoke. cbv zeta. pose proof (λ b, inv_call w c b H Hu He Hc) as HI.
  destruct (env (w_log w) c) as [a|e]; [by apply Hf; [apply HI|..]|]. by split; [apply HI|].
Qed.

Lemma kept_hash {A} w0 w bytes (f : string → M A) :
  inv [] w → w_out w = w_out w0 → w_stopped w = w_stopped w0 →
  (∀ a w', inv [] w' → w_out w' = w_out w0 → w_stopped w' = w_stopped w0 → kept w0 (f a w')) →
  kept w0 ((invoke env (ObjectHash bytes) ≫= f) w).
Proof using Type. intros H E1 E2 Hf. refine (kept_invoke w0 w (ObjectHash bytes) _ H E1 E2 _ eq_refl eq_refl Hf). by intros o ?%elem_of_nil. Qed.

(** A request that looks up a disk or an identity and makes one call on it. *)
Lemma kept_disk {A} w h (f : Z → M A) :
  inv [] w → (∀ o, o ∈ objs w → kept w (f o w)) → kept w ((disk h ≫= f) w).
Proof using Type.
  intros H Hf. unfold disk, mbind, M_bind, getw. cbn [mbind]. destruct (map_get h (w_disks w)) as [[o ow]|] eqn:E; [|done].
  exact (Hf o (registered_disk [] _ _ _ _ E)).
Qed.
Lemma kept_identity {A} w h (f : Z → M A) :
  inv [] w → (∀ o, map_get h (w_identities w) = Some o → o ∈ objs w → kept w (f o w)) → kept w ((identity h ≫= f) w).
Proof using Type.
  intros H Hf. unfold identity, mbind, M_bind, getw. cbn [mbind]. destruct (map_get h (w_identities w)) as [o|] eqn:E; [|done].
  exact (Hf o eq_refl (registered_identity [] _ _ _ E)).
Qed.

(** What an object just allocated or behind a handle can answer. *)
Lemma loose_open L o w : inv (o :: L) w → ¬ closed o (w_log w).
Proof using Type. intros H. apply (iv_open _ _ H). by left. Qed.
Lemma registered_open w o : inv [] w → o ∈ objs w → ¬ closed o (w_log w).
Proof using Type. intros H. apply (iv_open _ _ H). Qed.

Lemma addDisk_ok o ow d w :
  inv [o] w → ow ∈ (w_identities w).*1 → ∃ r, (addDisk env o ow d w).2 = Ok r ∧ kept w (addDisk env o ow d w).
Proof using Henv.
  intros H How. pose proof (inv_register_disk _ _ _ _ H How) as H1.
  assert (Hin : o ∈ objs (set_disks (map_set (w_next w + 1) (o, ow) (w_disks w)) (set_next (w_next w + 1) w))).
  { destruct (next_fresh _ _ H) as (HG & _ & _). unfold objs. cbn. rewrite (map_set_new _ _ _ HG), !fmap_app. cbn.
    rewrite !elem_of_app. right. right. by left. }
  set (w1 := set_disks _ _) in *.
  change (addDisk env o ow d w) with
    ((diskId ← invoke env (DiskId o); sha256 ← invoke env (ObjectHash d); mret (Disk (w_next w + 1) diskId d sha256)) w1).
  unfold mbind, M_bind, mret, M_ret, invoke. cbv zeta. pose proof (re_id _ Henv (w_log w1) o (registered_open _ _ H1 Hin)) as HI.
  destruct (env (w_log w1) (DiskId o)) as [i|]; [|done].
  pose proof (re_hash _ Henv (w_log (log_call (DiskId o, true) w1)) d) as HH. cbn [is_ok].
  destruct (env (w_log (log_call _ _)) (ObjectHash d)) as [x|]; [|done]. eexists. split; [done|]. split; [|done].
  apply inv_call; [apply inv_call; [done| |done|done]|by intros ? ?%elem_of_nil|done|done]. by intros p ->%list_elem_of_singleton.
Qed.

(** *** Allocating requests *)
Lemma kept_allocate {A} w c (f : Z → M A) :
  inv [] w → (∀ o, creates (c o) = Some o ∧ ends (c o) = false) → (∀ n o, o ∈ uses (c n) → o ∈ objs w) →
  (∀ w', inv [w_objects w] w' → w_identities w' = w_identities w → w_out w' = w_out w → w_stopped w' = w_stopped w →
         kept w (f (w_objects w) w')) →
  kept w ((allocate env c ≫= f) w).
Proof using Type.
  intros H Hc Hu Hf. unfold mbind, M_bind, allocate. destruct (Hc (w_objects w)) as [E1 E2]. destruct (env _ _) as [a|e].
  - apply Hf; [|done..]. apply inv_alloc; [done|apply Hu|done].
  - split; [|done]. apply inv_use; [done|apply Hu|done|by right].
Qed.

Lemma kept_createDisk w h : inv [] w → kept w (createDisk env h w).
Proof using Henv.
  intros H. refine (kept_identity w h _ H _). intros owner Eo Ho.
  refine (kept_allocate w (λ o, CreateDisk o owner) _ H _ _ _); [done|by intros _ o ->%list_elem_of_singleton|].
  intros w1 H1 E1 E2 E3. unfold catch, invoke at 1. unfold mbind at 1, M_bind at 1. cbv zeta.
  set (o := w_objects w) in *. set (c := SealDescriptor owner o).
  assert (HU : ∀ b, inv [o] (log_call (c, b) w1)).
  { intros b. apply inv_use; [done| |done|by left]. intros p [->|Hp]%elem_of_cons; [|apply list_elem_of_singleton in Hp as ->; by left].
    apply (registered_identity [o] w1 h). by rewrite E1. }
  destruct (env (w_log w1) c) as [d|e]; cbn [is_ok].
  - destruct (addDisk_ok o h d (log_call (c, true) w1) (HU true)) as (r & Er & K1 & K2 & K3).
    { cbn. rewrite E1. apply map_get_elem in Eo. apply list_elem_of_fmap. by exists (h, owner). }
    destruct (addDisk _ _ _ _ _) as [w2 x]. cbn in Er, K1, K2, K3. subst x. unfold kept. cbn.
    split_and!; [done|by rewrite K2|by rewrite K3].
  - rewrite (destroy_ok env Henv).
    + split; [|done]. exact (inv_destroyed _ _ _ (HU false)).
    + destruct (proj1 (iv_alive _ _ (HU false) o)) as [_ Hf]; [by left|done].
Qed.

Lemma kept_openDisk w h d : inv [] w → kept w (execute env (ROpenDisk h d) w).
Proof using Henv.
  intros H. refine (kept_identity w h _ H _). intros owner Eo Ho.
  refine (kept_allocate w (λ o, OpenDisk o owner d) _ H _ _ _); [done|by intros _ o ->%list_elem_of_singleton|].
  intros w1 H1 E1 E2 E3. destruct (addDisk_ok (w_objects w) h d w1 H1) as (r & Er & K1 & K2 & K3).
  { rewrite E1. apply map_get_elem in Eo. apply list_elem_of_fmap. by exists (h, owner). }
  split_and!; [done|congruence..].
Qed.

Lemma kept_derive w u p m : inv [] w → kept w (derive env u p m w).
Proof using Henv.
  intros H. refine (kept_allocate w (λ o, DeriveIdentity o u p m) _ H _ _ _); [done|by intros _ o ?%elem_of_nil|].
  intros w1 H1 E1 E2 E3. set (o := w_objects w) in *. pose proof (inv_register_identity _ _ _ H1) as H2.
  set (w2 := set_identities _ _) in H2.
  change (kept w ((publicKey ← invoke env (PublicKey o); mret (Identity (w_next w1 + 1) publicKey)) w2)).
  refine (kept_invoke w w2 (PublicKey o) _ H2 E2 E3 _ eq_refl eq_refl _); [|done].
  intros q ->%list_elem_of_singleton. unfold w2, objs. cbn. destruct (next_fresh _ _ H1) as (_ & HG & _).
  rewrite (map_set_new _ _ _ HG), !fmap_app. cbn. rewrite !elem_of_app. left. right. by left.
Qed.

(** *** Every request *)
Definition emptied (w : worker) : Prop := w_identities w = [] ∧ w_disks w = [].

Lemma kept_shutdown w :
  inv [] w → let y := execute env RShutdown w in
  inv [] y.1 ∧ w_out y.1 = w_out w ∧ w_stopped y.1 = true ∧ emptied y.1.
Proof using Henv.
  intros H. cbn [execute]. unfold mbind, M_bind, getw, modify, mret, M_ret.
  destruct (drop_identities_ok (w_identities w).*1 w H) as (w1 & -> & H1 & HD & [? ? ?]). cbv zeta.
  assert (HI : w_identities w1 = []).
  { destruct (w_identities w1) as [|p l]; [done|]. destruct (HD p) as [Hp Hn]; [by left|]. destruct Hn. by apply list_elem_of_fmap_2. }
  assert (HX : w_disks w1 = []).
  { pose proof (iv_owner _ _ H1) as HO. rewrite HI in HO. destruct (w_disks w1) as [|p l]; [done|]. specialize (HO p (list_elem_of_here _ _)). by apply elem_of_nil in HO. }
  split_and!; [|done..]. apply (inv_tables [] _ w1); try done; apply H1.
Qed.

Lemma kept_execute w r : inv [] w → r ≠ RShutdown → kept w (execute env r w).
Proof using Henv.
  intros H Hr. destruct r as [u p m|h|h d|h u b|h u b|h b|h b|h b|h|h url origin nonce expires|k m s|b|h|h| |]; try done.
  all: try (refine (kept_disk w h _ H _); intros o Ho;
    (refine (kept_invoke w w _ _ H eq_refl eq_refl _ _ _ _); [by intros q ->%list_elem_of_singleton|done|done|]);
    intros a w' H' E1 E2; first [done|refine (kept_hash w w' _ _ H' E1 E2 _); done]).
  all: try (refine (kept_identity w h _ H _); intros o _ Ho;
    (refine (kept_invoke w w _ _ H eq_refl eq_refl _ _ _ _); [by intros q ->%list_elem_of_singleton|done|done|]); done).
  - by apply kept_derive.
  - by apply kept_createDisk.
  - by apply kept_openDisk.
  - refine (kept_identity w h _ H _). intros o _ Ho. destruct expires as [e|]; [|done].
    refine (kept_invoke w w (SignRelayChallenge o url origin nonce e) _ H eq_refl eq_refl _ eq_refl eq_refl _); [|done].
    by intros q ->%list_elem_of_singleton.
  - refine (kept_invoke w w (Verify k m s) _ H eq_refl eq_refl _ eq_refl eq_refl _); [|done]. by intros q ?%elem_of_nil.
  - by refine (kept_hash w w b _ H eq_refl eq_refl _).
  - refine (kept_disk w h _ H _). intros o Ho. unfold mbind, M_bind.
    destruct (dropDisk_ok h w H) as (w1 & -> & H1 & _ & _ & [? ? ?]). by split_and!.
  - refine (kept_identity w h _ H _). intros o _ Ho. unfold mbind, M_bind.
    destruct (dropIdentity_ok h w H) as (w1 & -> & H1 & _ & _ & [? ? ?]). by split_and!.
Qed.

(** *** Messages *)
Definition sound (w : worker) : Prop := inv [] w ∧ (w_stopped w = true → emptied w).

Lemma sound_message m w :
  sound w → ∃ r, sound (onmessage env m w) ∧ w_out (onmessage env m w) = w_out w ++ [Posted m.1 r; Wiped m.1].
Proof using Henv.
  intros [H HS]. assert (HP : ∀ w' r, inv [] w' → (w_stopped w' = true → emptied w') → w_out w' = w_out w →
    sound (put (Wiped m.1) (put (Posted m.1 r) w')) ∧ w_out (put (Wiped m.1) (put (Posted m.1 r) w')) = w_out w ++ [Posted m.1 r; Wiped m.1]).
  { intros w' r H' HS' E. split; [split; [|done]|cbn; by rewrite E, <- app_assoc]. apply (inv_tables [] _ w'); try done; apply H'. }
  unfold onmessage. destruct (w_stopped w) eqn:ES; [eexists; by apply HP; [|rewrite ES|]|].
  destruct (execute env m.2 w) as [w1 r] eqn:E. exists r. assert (m.2 = RShutdown ∨ m.2 ≠ RShutdown) as [Hr|Hr] by (destruct m.2; (by left) || (by right)).
  - rewrite Hr in E. pose proof (kept_shutdown w H) as K. rewrite E in K. destruct K as (K1 & K2 & K3 & K4). by apply HP.
  - pose proof (kept_execute w m.2 H Hr) as K. rewrite E in K. destruct K as (K1 & K2 & K3). apply HP; [done| |done].
    cbn in K3. by rewrite K3, ES.
Qed.
End operations.

(** The output for [l], answered with [rs]. *)
Definition answered (l : list (Z * request)) (rs : list (result reply)) : list output :=
  concat (zip_with (λ m r, [Posted m.1 r; Wiped m.1]) l rs).

Lemma sound_run env l w :
  reliable env → sound w →
  ∃ rs, length rs = length l ∧ sound (run env l w) ∧ w_out (run env l w) = w_out w ++ answered l rs.
Proof.
  intros Henv. revert w. induction l as [|m l IH]; intros w HS; [exists []; by rewrite app_nil_r|].
  destruct (sound_message env Henv m w HS) as (r & H1 & E1). destruct (IH _ H1) as (rs & E2 & H2 & E3).
  exists (r :: rs). split_and!; [cbn; congruence|done|]. unfold run in *. cbn [foldl]. rewrite E3, E1, <- app_assoc. done.
Qed.

(** C15: When the Rust code keeps its contract, whatever messages arrive, in whatever
    order and with whatever handles: no call uses an object that does not exist, has been
    freed, or has been closed (but to free it), so each object is freed at most once and
    closed right before; the objects alive are exactly the ones behind a handle, each
    behind one; every disk belongs to an open identity; after a shutdown nothing is
    alive; and each message gets one reply, in the order of arrival, after which its
    arguments are wiped. *)
Theorem handles_sound env l ready :
  reliable env →
  let w := run env l (new_worker ready) in
  past_ok lawful (w_log w) ∧
  (∀ o, o ∈ objs w ↔ created o (w_log w) ∧ ¬ freed o (w_log w)) ∧ NoDup (objs w) ∧
  (∀ p, p ∈ w_disks w → p.2.2 ∈ (w_identities w).*1) ∧
  (w_stopped w = true → objs w = []) ∧
  ∃ rs, length rs = length l ∧ w_out w = answered l rs.
Proof.
  intros Henv w. assert (HS : sound (new_worker ready)) by (split; [apply inv_new|done]).
  destruct (sound_run env l _ Henv HS) as (rs & E & [H HT] & EO). fold w in H, HT, EO.
  split_and!; [apply H|apply (iv_alive _ _ H)|apply (iv_nodup _ _ H)|apply (iv_owner _ _ H)| |by exists rs].
  intros Hs. destruct (HT Hs) as [E1 E2]. unfold objs. by rewrite E1, E2.
Qed.

(** *** At work *)
Module Toy.
(** Rust code whose disks cannot be opened from a bad descriptor. *)
Definition env (id_fails : bool) (past : list (call * bool)) (c : call) : result (answer c) :=
  match c as c return result (answer c) with
  | DeriveIdentity _ _ _ _ | CreateDisk _ _ | Close _ | Free _ => Ok tt
  | OpenDisk _ _ d => if decide (d = []) then throw_plain "Invalid disk descriptor" else Ok tt
  | Verify _ _ _ => Ok true
  | ObjectHash _ => Ok "00"%string
  | DiskId _ => if id_fails then throw_plain "Disk is closed" else Ok [1]
  | SealDescriptor _ _ => Ok [9]
  | PublicKey _ => Ok [2] | RelayPublicKey _ => Ok [3] | Sign _ _ => Ok [4] | SignRelayChallenge _ _ _ _ _ => Ok [5]
  | SealUnit _ _ b | OpenUnit _ _ b | SealMetadata _ b | OpenMetadata _ b => Ok b
  end.
Definition messages : list (Z * request) :=
  [(1, RDerive "user" [1] "pc"); (2, RCreateDisk 1); (3, ROpenDisk 1 []); (4, ROpenDisk 1 [7]); (5, RCloseDisk 2);
   (6, RSealUnit 2 [0] [5]); (7, RSealUnit 3 [0] [5]); (8, RDerive "other" [1] "pc"); (9, RCloseIdentity 1);
   (10, RSealMetadata 3 [6]); (11, RShutdown); (12, RHash [1])].
Lemma reliable_env : reliable (env false).
Proof. by split. Defined.

(** Identity 1 has the disks 2 and 3; the failed opening takes no handle. *)
Example replies :
  w_out (run (env false) messages (new_worker true)) = answered messages
    [Ok (Identity 1 [2]); Ok (Disk 2 [1] [9] "00"); throw_plain "Invalid disk descriptor"; Ok (Disk 3 [1] [7] "00"); Ok Null;
     throw_plain "Unknown or closed disk"; Ok (Encrypted [5] "00"); Ok (Identity 4 [2]); Ok Null;
     throw_plain "Unknown or closed disk"; Ok Null; throw_plain "Crypto Worker is closed"].
Proof. by vm_compute. Qed.

(** Without the contract: when a disk just created does not know its identifier,
    [createDisk] frees it but it stays registered (worker.js:31-34 and 48-49), and
    closing its handle closes it again. *)
Example unreliable :
  let w := run (env true) [(1, RDerive "user" [1] "pc"); (2, RCreateDisk 1); (3, RCloseDisk 2)] (new_worker true) in
  (w_log w).*1 = [DeriveIdentity 0 "user" [1] "pc"; PublicKey 0; CreateDisk 1 0; SealDescriptor 0 1; DiskId 1; Close 1; Free 1;
                  Close 1; Free 1].
Proof. by vm_compute. Qed.
End Toy.

Lemma handles_sound_witness :
  let w := run (Toy.env false) Toy.messages (new_worker true) in
  w_stopped w = true ∧ objs w = [] ∧ past_ok lawful (w_log w) ∧ length (w_log w) = 22%nat.
Proof.
  intros w. destruct (handles_sound (Toy.env false) Toy.messages true Toy.reliable_env) as (H1 & _ & _ & _ & H2 & _).
  split_and!; [by vm_compute|apply H2; by vm_compute|exact H1|by vm_compute].
Defined.
