(* ===== verification/CryptoClient.v ===== *)
(** * The crypto client and its Worker (src/src/crypto/web/client.js)

    [Slop86Crypto] checks and copies the arguments of a call, waits for the Worker to be
    ready, posts the request under a new number and settles the call with the Worker's
    reply, or with an error once it has failed or was closed.

    Client, Worker (CryptoWorker.v) and the two message queues between them form one
    state; an [event] is whatever happens next on either side, so a list of events is an
    interleaving of both threads. *)
From S2P Require Import Prelude JsValue CryptoWorker.
#[local] Open Scope Z_scope.
Import CryptoWorker.

(** ** Arguments *)

(** [copy(bytes)]; a value that is not a [Uint8Array] is [None]. *)
Definition MAX_TRANSFER : Z := 16 * 1024 * 1024 + 62.
Definition copy (b : option bytes) : result bytes :=
  match b with
  | None => throw_plain "Expected Uint8Array"
  | Some b =>
      if Z.of_nat (length b) >? MAX_TRANSFER then throw_plain "Transfer exceeds maximum envelope size" else Ok b
  end.
(** [unitId(value)]; a value that is not a BigInt is [None]. *)
Definition unitId (v : option Z) : result bytes :=
  match v with
  | Some v =>
      if (v <? 0) || (v >=? Z.shiftl 1 96) then throw_plain "Unit ID must be an unsigned 96-bit BigInt"
      else Ok (le_bytes 12 v)
  | None => throw_plain "Unit ID must be an unsigned 96-bit BigInt"
  end.

(** The methods that make a request, with their arguments; a credential that is not a
    string is [None], and so is an [expires] that [BigInt] refuses. *)
Inductive method :=
| deriveIdentity (username password machine : option string)
| createDisk_ (identity : Z) | openDisk (identity : Z) (descriptor : option bytes)
| sealUnit (disk : Z) (unit : option Z) (bytes : option bytes)
| openUnit (disk : Z) (unit : option Z) (envelope : option bytes)
| sealMetadata (disk : Z) (bytes : option bytes) | openMetadata (disk : Z) (envelope : option bytes)
| sign (identity : Z) (message : option bytes) | relayPublicKey (identity : Z)
| signRelayChallenge (identity : Z) (url origin : string) (nonce : option bytes) (expires : option Z)
| verify (publicKey message signature : option bytes) | hash (bytes : option bytes)
| closeDisk (disk : Z) | closeIdentity (identity : Z).

Section methods.
Context (encode : string → bytes).        (** [TextEncoder.encode] *)

Definition request_of (m : method) : result request :=
  match m with
  | deriveIdentity (Some username) (Some password) (Some machine) => Ok (RDerive username (encode password) machine)
  | deriveIdentity _ _ _ => throw_plain "Credentials must be strings"
  | createDisk_ h => Ok (RCreateDisk h)
  | openDisk h d => d ← copy d; Ok (ROpenDisk h d)
  | sealUnit h u b => u ← unitId u; b ← copy b; Ok (RSealUnit h u b)
  | openUnit h u b => u ← unitId u; b ← copy b; Ok (ROpenUnit h u b)
  | sealMetadata h b => b ← copy b; Ok (RSealMetadata h b)
  | openMetadata h b => b ← copy b; Ok (ROpenMetadata h b)
  | sign h b => b ← copy b; Ok (RSign h b)
  | relayPublicKey h => Ok (RRelayPublicKey h)
  | signRelayChallenge h url origin nonce expires => nonce ← copy nonce; Ok (RSignRelayChallenge h url origin nonce expires)
  | verify k m s => k ← copy k; m ← copy m; s ← copy s; Ok (RVerify k m s)
  | hash b => b ← copy b; Ok (RHash b)
  | closeDisk h => Ok (RCloseDisk h)
  | closeIdentity h => Ok (RCloseIdentity h)
  end.
End methods.

(** ** The client *)
Inductive message := MReady | MFatal (error : string) | MReply (id : Z) (r : result reply).

Record client := Client {
  c_pending : list (Z * Z);            (** number of the request, call *)
  c_sequence : Z;
  c_closed : bool;
  c_ready : option (result unit);      (** how [#ready] settled *)
  c_waiting : list (Z * request);      (** calls that await [#ready] *)
  c_closing : list Z;                  (** calls of [close()] *)
  c_finally : list (Z * result reply)  (** calls of [close()] whose shutdown has settled *)
}.
Definition new_client : client := Client [] 0 false None [] [] [].

Record system := System {
  s_client : client;
  s_worker : worker;
  s_started : bool;                    (** [loaded] has settled *)
  s_terminated : bool;                 (** [worker.terminate()] was called *)
  s_down : list (Z * request);         (** posted to the Worker *)
  s_up : list message;                 (** posted to the client *)
  s_calls : list (option method);      (** the calls so far; [None] is [close()] *)
  s_settled : list (Z * result reply); (** the calls settled *)
  s_wiped : list Z;                    (** calls whose arguments the client has wiped *)
  s_handled : list (Z * request);      (** requests the Worker has taken *)
  s_posted : list (Z * Z)              (** numbers and calls of the requests posted *)
}.
(** [ready]: whether [init()] is going to succeed. *)
Definition new_system (ready : bool) : system :=
  System new_client (new_worker ready) false false [] [] [] [] [] [] [].

Definition set_client (c : client) (s : system) : system :=
  System c (s_worker s) (s_started s) (s_terminated s) (s_down s) (s_up s) (s_calls s) (s_settled s) (s_wiped s) (s_handled s) (s_posted s).
Definition set_up (x : list message) (s : system) : system :=
  System (s_client s) (s_worker s) (s_started s) (s_terminated s) (s_down s) x (s_calls s) (s_settled s) (s_wiped s) (s_handled s) (s_posted s).
Definition add_call (x : option method) (s : system) : system :=
  System (s_client s) (s_worker s) (s_started s) (s_terminated s) (s_down s) (s_up s) (s_calls s ++ [x]) (s_settled s) (s_wiped s) (s_handled s) (s_posted s).
Definition set_pending (x : list (Z * Z)) (c : client) : client :=
  Client x (c_sequence c) (c_closed c) (c_ready c) (c_waiting c) (c_closing c) (c_finally c).
Definition set_waiting (x : list (Z * request)) (c : client) : client :=
  Client (c_pending c) (c_sequence c) (c_closed c) (c_ready c) x (c_closing c) (c_finally c).
Definition set_ready (x : option (result unit)) (c : client) : client :=
  Client (c_pending c) (c_sequence c) (c_closed c) x (c_waiting c) (c_closing c) (c_finally c).
Definition settled_with (x : list (Z * result reply)) (s : system) : system :=
  System (s_client s) (s_worker s) (s_started s) (s_terminated s) (s_down s) (s_up s) (s_calls s) (s_settled s ++ x) (s_wiped s) (s_handled s) (s_posted s).
Definition wipe (k : Z) (s : system) : system :=
  System (s_client s) (s_worker s) (s_started s) (s_terminated s) (s_down s) (s_up s) (s_calls s) (s_settled s) (s_wiped s ++ [k]) (s_handled s) (s_posted s).

(** The request of call [k] settles: a [close()] still has its [finally] to run. *)
Definition settle (k : Z) (r : result reply) (s : system) : system :=
  let c := s_client s in
  if bool_decide (k ∈ c_closing c) then
    set_client (Client (c_pending c) (c_sequence c) (c_closed c) (c_ready c) (c_waiting c) (c_closing c) (c_finally c ++ [(k, r)])) s
  else settled_with [(k, r)] s.
Fixpoint settle_all (l : list Z) (r : result reply) (s : system) : system :=
  match l with [] => s | k :: l => settle_all l r (settle k r s) end.

(** [#resolveReady] and [#rejectReady]: only the first one counts. *)
Definition ready_with (x : result unit) (c : client) : client :=
  match c_ready c with None => set_ready (Some x) c | Some _ => c end.

(** [#fail(error)]. *)
Definition fail_client (e : exn) (s : system) : system :=
  let c := ready_with (Throw e) (s_client s) in
  let s := set_client (Client [] (c_sequence c) true (c_ready c) (c_waiting c) (c_closing c) (c_finally c)) s in
  let s := settle_all ((c_pending c).*2) (Throw e) s in
  System (s_client s) (s_worker s) (s_started s) true (s_down s) (s_up s) (s_calls s) (s_settled s) (s_wiped s) (s_handled s) (s_posted s).

(** [#request(op,args)] up to its first await. *)
Definition request_ (k : Z) (r : request) (s : system) : system :=
  set_client (set_waiting (c_waiting (s_client s) ++ [(k, r)]) (s_client s)) s.
(** The rest of it; [posted] tells whether [postMessage] succeeds. *)
Definition resume (k : Z) (posted : bool) (s : system) : system :=
  match map_get k (c_waiting (s_client s)), c_ready (s_client s) with
  | Some r, Some ready =>
      let s := set_client (set_waiting (map_delete k (c_waiting (s_client s))) (s_client s)) s in
      let c := s_client s in
      match ready, c_closed c with
      | Throw e, _ => settle k (Throw e) (wipe k s)
      | Ok _, true => settle k (throw_plain "Crypto client is closed") (wipe k s)
      | Ok _, false =>
          let id := c_sequence c + 1 in
          let c := Client (c_pending c) id (c_closed c) (c_ready c) (c_waiting c) (c_closing c) (c_finally c) in
          if posted then
            System (set_pending (map_set id k (c_pending c)) c) (s_worker s) (s_started s) (s_terminated s) (s_down s ++ [(id, r)])
              (s_up s) (s_calls s) (s_settled s) (s_wiped s) (s_handled s) (s_posted s ++ [(id, k)])
          else settle k (throw_plain "Failed to execute postMessage") (wipe k (set_client c s))
      end
  | _, _ => s
  end.

(** [onmessage]. *)
Definition on_message (m : message) (s : system) : system :=
  match m with
  | MReady => set_client (ready_with (Ok tt) (s_client s)) s
  | MFatal e => fail_client (Exn None e) s
  | MReply id r =>
      match map_get id (c_pending (s_client s)) with
      | Some k => settle k r (set_client (set_pending (map_delete id (c_pending (s_client s))) (s_client s)) s)
      | None => s
      end
  end.

(** What the Worker posts for an outcome (worker.js:79-80), as the client rethrows it. *)
Definition reply_error (e : exn) : exn :=
  Exn None (if decide (exn_message e = EmptyString) then "Crypto operation failed" else exn_message e).
Definition as_reply (r : result reply) : result reply :=
  match r with Ok v => Ok v | Throw e => Throw (reply_error e) end.
Definition posted_reply (o : output) : option message :=
  match o with Posted id r => Some (MReply id (as_reply r)) | Wiped _ => None end.

Inductive event :=
| ECall (m : method) | EClose | ETerminate
| EResume (k : Z) (posted : bool)
| EFinally (k : Z)
| ETimeout | EWorkerError | EMessageError
| EStart                                 (** the Worker's [init()] settles *)
| EWorker                                (** the Worker takes its next message *)
| EDeliver.                              (** the client takes its next message *)

Section client.
Context (encode : string → bytes).
Context (env : list (call * bool) → ∀ c : call, result (answer c)).

Definition call_method (m : method) (s : system) : system :=
  let k := Z.of_nat (length (s_calls s)) in
  let s := add_call (Some m) s in
  match request_of encode m with Ok r => request_ k r s | Throw e => settled_with [(k, Throw e)] s end.

(** [close()]. *)
Definition close (s : system) : system :=
  let k := Z.of_nat (length (s_calls s)) in
  let s := add_call None s in
  if c_closed (s_client s) then settled_with [(k, Ok Null)] s
  else
    let c := s_client s in
    request_ k RShutdown
      (set_client (Client (c_pending c) (c_sequence c) (c_closed c) (c_ready c) (c_waiting c) (c_closing c ++ [k]) (c_finally c)) s).
Definition finally (k : Z) (s : system) : system :=
  match map_get k (c_finally (s_client s)) with
  | Some r =>
      let c := s_client s in
      let c := Client (c_pending c) (c_sequence c) (c_closed c) (c_ready c) (c_waiting c) (c_closing c) (map_delete k (c_finally c)) in
      settled_with [(k, r)] (fail_client (Exn None "Crypto client is closed") (set_client c s))
  | None => s
  end.

(** The Worker's side. *)
Definition start (s : system) : system :=
  if s_started s || s_terminated s then s
  else
    System (s_client s) (s_worker s) true (s_terminated s) (s_down s)
      (s_up s ++ [if w_stopped (s_worker s) then MFatal "Could not initialize crypto WASM" else MReady])
      (s_calls s) (s_settled s) (s_wiped s) (s_handled s) (s_posted s).
Definition work (s : system) : system :=
  match s_down s with
  | m :: down =>
      if negb (s_started s) || s_terminated s then s
      else
        let w := onmessage env m (s_worker s) in
        System (s_client s) w (s_started s) (s_terminated s) down
          (s_up s ++ omap posted_reply (drop (length (w_out (s_worker s))) (w_out w)))
          (s_calls s) (s_settled s) (s_wiped s) (s_handled s ++ [m]) (s_posted s)
  | [] => s
  end.

Definition step (e : event) (s : system) : system :=
  match e with
  | ECall m => call_method m s
  | EClose => close s
  | ETerminate => fail_client (Exn None "Crypto client was terminated") s
  | EResume k posted => resume k posted s
  | EFinally k => finally k s
  | ETimeout =>          (** the timer is cleared when [#ready] settles *)
      match c_ready (s_client s) with
      | None => fail_client (Exn None "Crypto Worker initialization timed out") s
      | Some _ => s
      end
  | EWorkerError => fail_client (Exn None "Crypto Worker failed") s
  | EMessageError => fail_client (Exn None "Crypto Worker message failed") s
  | EStart => start s
  | EWorker => work s
  | EDeliver =>
      match s_up s with
      | m :: up => if s_terminated s then s else on_message m (set_up up s)
      | [] => s
      end
  end.
Definition run_events (l : list event) (s : system) : system := foldl (λ s e, step e s) s l.
End client.
