(* ===== verification/CryptoCalls.v ===== *)
(** * The crypto client: every call gets its own answer

    Over any interleaving of the two threads: a call settles once, with the outcome of
    its own request in the Worker or with an error; requests keep to their bounds; and
    the arguments of a request are handed to the Worker or wiped. *)
From S2P Require Import Prelude CryptoWorker CryptoClient.
#[local] Open Scope Z_scope.
Import CryptoWorker.

(** ** Bounds *)
Lemma unitId_ok v b : unitId v = Ok b ↔ ∃ n, v = Some n ∧ 0 ≤ n < 2 ^ 96 ∧ b = le_bytes 12 n.
Proof.
  unfold unitId. change (Z.shiftl 1 96) with (2 ^ 96). destruct v as [n|]; [|split; [done|by intros (? & ? & _)]].
  destruct (_ || _) eqn:E; bools.
  - split; [done|]. intros (? & [= <-] & ? & _). lia.
  - split; [intros [= <-]; exists n; split_and!; [done|lia|lia|done]|by intros (? & [= <-] & _ & ->)].
Qed.
Lemma unitId_value v u : unitId v = Ok u → length u = 12%nat ∧ Forall is_byte u ∧ v = Some (le_value u).
Proof.
  intros (n & -> & Hn & ->)%unitId_ok. split_and!; [apply length_le_bytes|apply le_bytes_bytes|by rewrite le_value_bytes].
Qed.
Lemma copy_ok b c : copy b = Ok c → b = Some c ∧ Z.of_nat (length c) ≤ MAX_TRANSFER.
Proof. destruct b as [b|]; [|done]. unfold copy. destruct (_ >? _) eqn:E; [done|].
  rewrite Z.gtb_ltb in E. apply Z.ltb_ge in E. intros H. assert (b = c) as -> by (by injection H). by split. Qed.

(** The buffers of a request and its unit. *)
Definition buffers (r : request) : list bytes :=
  match r with
  | ROpenDisk _ b | RSealMetadata _ b | ROpenMetadata _ b | RSign _ b | RSignRelayChallenge _ _ _ b _ | RHash b
  | RSealUnit _ _ b | ROpenUnit _ _ b => [b]
  | RVerify k m s => [k; m; s]
  | _ => []
  end.
Definition unit_of (r : request) : option bytes :=
  match r with RSealUnit _ u _ | ROpenUnit _ u _ => Some u | _ => None end.
Definition unit_given (m : method) : option Z :=
  match m with sealUnit _ u _ | openUnit _ u _ => u | _ => None end.

Lemma request_bounded encode m r :
  request_of encode m = Ok r →
  Forall (λ b, Z.of_nat (length b) ≤ MAX_TRANSFER) (buffers r) ∧
  (∀ u, unit_of r = Some u → length u = 12%nat ∧ Forall is_byte u ∧ unit_given m = Some (le_value u)).
Proof.
  destruct m as [[?|] [?|] [?|]| | | | | | | | | | | | |]; cbn [request_of]; intros H; inv_bind;
    repeat match goal with E : copy _ = Ok _ |- _ => apply copy_ok in E as [-> ?] end;
    repeat match goal with E : unitId _ = Ok _ |- _ => apply unitId_value in E as (? & ? & ->) end;
    try discriminate H; subst r;
    (split; [by repeat (apply Forall_cons; split; [done|]); apply Forall_nil_2|]); intros u Hu; try discriminate Hu; injection Hu as <-.
  all: done.
Qed.

(** The arguments the client takes. *)
Definition fits (b : option bytes) : Prop := ∃ c, b = Some c ∧ Z.of_nat (length c) ≤ MAX_TRANSFER.
Definition well_formed (m : method) : Prop :=
  match m with
  | deriveIdentity u p m => is_Some u ∧ is_Some p ∧ is_Some m
  | sealUnit _ u b | openUnit _ u b => (∃ n, u = Some n ∧ 0 ≤ n < 2 ^ 96) ∧ fits b
  | openDisk _ b | sealMetadata _ b | openMetadata _ b | sign _ b | signRelayChallenge _ _ _ b _ | hash b => fits b
  | verify k m s => fits k ∧ fits m ∧ fits s
  | createDisk_ _ | relayPublicKey _ | closeDisk _ | closeIdentity _ => True
  end.

Lemma copy_fits b : is_ok (copy b) = true ↔ fits b.
Proof.
  split.
  - destruct (copy b) as [c|] eqn:E; [|done]. intros _. apply copy_ok in E as [-> ?]. by exists c.
  - intros (c & -> & H). unfold copy. by rewrite Z.gtb_ltb, (proj2 (Z.ltb_ge _ _)) by lia.
Qed.
Lemma unitId_fits v : is_ok (unitId v) = true ↔ ∃ n, v = Some n ∧ 0 ≤ n < 2 ^ 96.
Proof.
  split.
  - destruct (unitId v) as [u|] eqn:E; [|done]. intros _. apply unitId_ok in E as (n & ? & ? & _). by exists n.
  - intros (n & -> & H). by rewrite (proj2 (unitId_ok (Some n) _)) by (by exists n).
Qed.
Lemma is_ok_bind {A B} (m : result A) (f : A → result B) P Q :
  (is_ok m = true ↔ P) → (∀ a, is_ok (f a) = true ↔ Q) → is_ok (m ≫= f) = true ↔ P ∧ Q.
Proof. intros H1 H2. destruct m as [a|]; cbn; [rewrite H2, <- H1; by intuition|]. rewrite <- H1. by intuition. Qed.
Lemma is_ok_last {A B} (m : result A) (f : A → B) P : (is_ok m = true ↔ P) → is_ok (a ← m; Ok (f a)) = true ↔ P.
Proof. intros <-. by destruct m. Qed.


(** ** The Worker's replies *)

(** What the Worker makes of a message. *)
Definition outcome (env : list (call * bool) → ∀ c : call, result (answer c)) (m : Z * request) (w : worker) : result reply :=
  ((if w_stopped w then fail "Crypto Worker is closed" else execute env m.2) w).2.

(** Executing a request posts nothing. *)
Definition silent {A} (m : M A) : Prop := ∀ w, w_out (m w).1 = w_out w.
Section silent.
Context (env : list (call * bool) → ∀ c : call, result (answer c)).

Lemma silent_ret {A} (a : A) : silent (mret a).
Proof using Type. done. Qed.
Lemma silent_fail {A} e : silent (@fail A e).
Proof using Type. done. Qed.
Lemma silent_bind {A B} (m : M A) (f : A → M B) : silent m → (∀ a, silent (f a)) → silent (m ≫= f).
Proof using Type.
  intros Hm Hf w. unfold mbind, M_bind. specialize (Hm w). destruct (m w) as [w1 [a|e]]; [|done]. by rewrite (Hf a w1).
Qed.
Lemma silent_getw : silent getw.
Proof using Type. done. Qed.
Lemma silent_modify f : (∀ w, w_out (f w) = w_out w) → silent (modify f).
Proof using Type. intros H w. apply H. Qed.
Lemma silent_invoke c : silent (invoke env c).
Proof using Type. done. Qed.
Lemma silent_allocate c : silent (allocate env c).
Proof using Type. intros w. unfold allocate. by destruct (env _ _). Qed.
Lemma silent_catch {A} (m : M A) h : silent m → (∀ e, silent (h e)) → silent (catch m h).
Proof using Type.
  intros Hm Hh w. unfold catch. specialize (Hm w). destruct (m w) as [w1 [a|e]]; [done|]. by rewrite (Hh e w1).
Qed.
Lemma silent_rethrow {A} e : silent (@rethrow A e).
Proof using Type. done. Qed.
Lemma silent_identity h : silent (identity h).
Proof using Type. intros w. cbn. unfold identity, mbind, M_bind, getw. by destruct (map_get h (w_identities w)). Qed.
Lemma silent_disk h : silent (disk h).
Proof using Type. intros w. cbn. unfold disk, mbind, M_bind, getw. by destruct (map_get h (w_disks w)) as [[??]|]. Qed.

Ltac silent :=
  repeat first
    [ apply silent_ret | apply silent_fail | apply silent_getw | apply silent_invoke | apply silent_allocate
    | apply silent_identity | apply silent_disk | apply silent_rethrow | (apply silent_modify; done)
    | (apply silent_bind; [|intros ?]) | (apply silent_catch; [|intros ?])
    | match goal with |- silent (match ?x with _ => _ end) => destruct x end ].

Lemma silent_dropDisk h : silent (dropDisk env h).
Proof using Type. unfold dropDisk. silent. Qed.
Lemma silent_drop_disks o l : silent (drop_disks env o l).
Proof using Type.
  induction l as [|[id [ob ow]] l IH]; [apply silent_ret|]. apply silent_bind; [|done].
  destruct (ow =? o); [apply silent_dropDisk|apply silent_ret].
Qed.
Lemma silent_dropIdentity h : silent (dropIdentity env h).
Proof using Type.
  unfold dropIdentity. apply silent_bind; [apply silent_getw|intros w]. apply silent_bind; [apply silent_drop_disks|intros _]. silent.
Qed.
Lemma silent_drop_identities l : silent (drop_identities env l).
Proof using Type.
  induction l as [|h l IH]; [apply silent_ret|]. apply silent_bind; [apply silent_dropIdentity|done].
Qed.
Lemma silent_addDisk o h d : silent (addDisk env o h d).
Proof using Type. unfold addDisk, next_handle. silent. Qed.

Lemma silent_execute r : silent (execute env r).
Proof using Type.
  destruct r; cbn [execute]; unfold derive, createDisk, encrypted, next_handle; silent;
    first [apply silent_addDisk|apply silent_drop_disks|apply silent_dropDisk|apply silent_drop_identities].
Qed.

Lemma onmessage_out m w : w_out (onmessage env m w) = w_out w ++ [Posted m.1 (outcome env m w); Wiped m.1].
Proof using Type.
  unfold onmessage, outcome. set (x := if w_stopped w then _ else _).
  assert (HX : silent x) by (unfold x; destruct (w_stopped w); [apply silent_fail|apply silent_execute]).
  specialize (HX w). destruct (x w) as [w1 r]. cbn in *. by rewrite HX, <- app_assoc.
Qed.

Lemma crypto_run_snoc l m w : run env (l ++ [m]) w = onmessage env m (run env l w).
Proof using Type. unfold run. by rewrite foldl_app. Qed.

(** A posted reply is the outcome of its request, in the state the requests before it
    had left. *)
Definition replied (ready : bool) (l : list (Z * request)) (i : Z) (r : result reply) (req : request) : Prop :=
  ∃ j, l !! j = Some (i, req) ∧ r = outcome env (i, req) (run env (take j l) (new_worker ready)).

Lemma replied_app ready l l' i r req : replied ready l i r req → replied ready (l ++ l') i r req.
Proof using Type.
  intros (j & Hj & ->). exists j. split; [by apply lookup_app_l_Some|]. pose proof (lookup_lt_Some _ _ _ Hj). by rewrite take_app_le by lia.
Qed.
Lemma replied_last ready l m : replied ready (l ++ [m]) m.1 (outcome env m (run env l (new_worker ready))) m.2.
Proof using Type.
  exists (length l). rewrite lookup_app_r, Nat.sub_diag by lia. split; [by destruct m|]. rewrite take_app_length. by destruct m.
Qed.
End silent.
