(* ===== verification/CryptoSystem.v ===== *)
(** * Crypto client and Worker together

    The invariant of the two threads and their queues, kept by every event, and what it
    gives: every call settles once, with its own answer or an error, and once the client
    has closed the calls still open settle. *)
From S2P Require Import Prelude CryptoWorker CryptoClient CryptoCalls.
#[local] Open Scope Z_scope.
Import CryptoWorker.

Section system.
Context (encode : string → bytes).
Context (env : list (call * bool) → ∀ c : call, result (answer c)).
Context (ready : bool).

(** ** The invariant *)

(** Every call is in one place. *)
Definition account (s : system) : list Z :=
  (s_settled s).*1 ++ (c_pending (s_client s)).*2 ++ (c_waiting (s_client s)).*1 ++ (c_finally (s_client s)).*1.
(** Call [k] made the request [req]. *)
Definition requested (calls : list (option method)) (k : Z) (req : request) : Prop :=
  0 ≤ k ∧ match calls !! Z.to_nat k with
          | Some (Some m) => request_of encode m = Ok req
          | Some None => req = RShutdown
          | None => False
          end.
(** An answer that is not an error is the one the Worker gave to the call's request, or
    the [close()] of a closed client. *)
Definition backed (calls : list (option method)) (handled : list (Z * request)) (k : Z) (r : result reply) : Prop :=
  ∀ v, r = Ok v →
  (calls !! Z.to_nat k = Some None ∧ v = Null) ∨
  ∃ i req, requested calls k req ∧ replied env ready handled i (Ok v) req.

#[local] Arguments account : simpl never.
#[local] Arguments zrange : simpl never.

(** [L]: the calls that an operation has taken out and not settled yet. *)
Record good (L : list Z) (s : system) : Prop := {
  g_account : L ++ account s ≡ₚ zrange 0 (length (s_calls s));
  g_closed : c_closed (s_client s) = true → c_pending (s_client s) = [] ∧ c_ready (s_client s) ≠ None;
  g_pending : ∀ p, p ∈ c_pending (s_client s) → p ∈ s_posted s;
  g_keys : NoDup (c_pending (s_client s)).*1;
  g_numbers : NoDup (s_posted s).*1 ∧ ∀ i, i ∈ (s_posted s).*1 → i ≤ c_sequence (s_client s);
  g_posts : Forall2 (λ p m, p.1 = m.1 ∧ requested (s_calls s) p.2 m.2) (s_posted s) (s_handled s ++ s_down s);
  g_waiting : ∀ p, p ∈ c_waiting (s_client s) → requested (s_calls s) p.1 p.2;
  g_worker : s_worker s = run env (s_handled s) (new_worker ready);
  g_up : ∀ i r, MReply i r ∈ s_up s → ∃ r' req, r = as_reply r' ∧ replied env ready (s_handled s) i r' req;
  g_settled : ∀ p, p ∈ s_settled s ++ c_finally (s_client s) → backed (s_calls s) (s_handled s) p.1 p.2
}.

Lemma good_new : good [] (new_system ready).
Proof using Type.
  split; cbn; try done.
  - apply NoDup_nil_2.
  - split; [apply NoDup_nil_2|by intros ? ?%elem_of_nil].
  - by intros ? ?%elem_of_nil.
  - by intros ? ? ?%elem_of_nil.
  - by intros ? ?%elem_of_nil.
Qed.

(** *** Growing histories *)
Lemma requested_app calls x k req : requested calls k req → requested (calls ++ x) k req.
Proof using Type.
  intros [Hk H]. split; [done|]. destruct (calls !! Z.to_nat k) as [c|] eqn:E; [|done]. by rewrite (lookup_app_l_Some _ _ _ _ E).
Qed.
Lemma backed_app calls x handled y k r : backed calls handled k r → backed (calls ++ x) (handled ++ y) k r.
Proof using Type.
  intros H v Hv. destruct (H v Hv) as [[H1 H2]|(i & req & H1 & H2)]; [left|right].
  - split; [by apply lookup_app_l_Some|done].
  - exists i, req. split; [by apply requested_app|by apply replied_app].
Qed.
Lemma backed_throw calls handled k e : backed calls handled k (Throw e).
Proof using Type. by intros v. Qed.

(** *** Settling *)
Lemma settled_good k r L s :
  good (k :: L) s → backed (s_calls s) (s_handled s) k r → good L (settled_with [(k, r)] s).
Proof using Type.
  intros [H1 H2 H3 HK H4 H5 H6 H7 H8 H9] Hb. split; cbn; try done.
  - rewrite <- H1. unfold account. cbn. rewrite fmap_app. cbn. solve_Permutation.
  - intros p. rewrite !elem_of_app, list_elem_of_singleton. intros [[?| ->]|?]; [|done|]; apply H9, elem_of_app; tauto.
Qed.
Lemma settle_good k r L s :
  good (k :: L) s → backed (s_calls s) (s_handled s) k r → good L (settle k r s).
Proof using Type.
  intros H Hb. unfold settle. destruct (bool_decide _); [|by apply settled_good].
  destruct H as [H1 H2 H3 HK H4 H5 H6 H7 H8 H9]. split; cbn; try done.
  - rewrite <- H1. unfold account. cbn. rewrite fmap_app. cbn. solve_Permutation.
  - intros p. rewrite !elem_of_app, list_elem_of_singleton. intros [?|[?| ->]]; [| |done]; apply H9, elem_of_app; tauto.
Qed.

Lemma settle_all_good l e L s : good (l ++ L) s → good L (settle_all l (Throw e) s).
Proof using Type.
  revert s. induction l as [|k l IH]; intros s H; [done|]. cbn [settle_all]. apply IH. apply settle_good; [done|apply backed_throw].
Qed.

Lemma fail_good e L s : good L s → good L (fail_client e s).
Proof using Type.
  intros H. unfold fail_client. set (c := ready_with _ _). set (s1 := set_client _ s).
  assert (Ec : c_pending c = c_pending (s_client s) ∧ c_waiting c = c_waiting (s_client s) ∧ c_finally c = c_finally (s_client s) ∧
               c_sequence c = c_sequence (s_client s) ∧ c_ready c ≠ None).
  { unfold c, ready_with. destruct (c_ready (s_client s)) eqn:E; cbn; by rewrite ?E. }
  destruct Ec as (E1 & E2 & E3 & E4 & E5). clearbody c.
  assert (H1 : good ((c_pending c).*2 ++ L) s1).
  { destruct H. split; cbn; rewrite ?E2, ?E3, ?E4; try done; [|by intros ? ?%elem_of_nil|by apply NoDup_nil_2].
    rewrite <- g_account0. unfold account. cbn. rewrite E1, E2, E3. solve_Permutation. }
  apply settle_all_good with (e := e) in H1. destruct H1. by split.
Qed.

(** What settling and failing leave alone. *)
Record framed (s s' : system) : Prop := {
  f_calls : s_calls s' = s_calls s; f_handled : s_handled s' = s_handled s; f_wiped : s_wiped s' = s_wiped s;
  f_posted : s_posted s' = s_posted s; f_waiting : c_waiting (s_client s') = c_waiting (s_client s)
}.
Lemma settle_frame k r s :
  framed s (settle k r s) ∧ c_closed (s_client (settle k r s)) = c_closed (s_client s) ∧
  c_ready (s_client (settle k r s)) = c_ready (s_client s) ∧ c_pending (s_client (settle k r s)) = c_pending (s_client s).
Proof using Type. unfold settle. by destruct (bool_decide _). Qed.
Lemma settle_all_frame l r s : framed s (settle_all l r s) ∧ c_closed (s_client (settle_all l r s)) = c_closed (s_client s).
Proof using Type.
  revert s. induction l as [|k l IH]; intros s; [done|]. cbn [settle_all].
  destruct (IH (settle k r s)) as [[? ? ? ? ?] ->]. destruct (settle_frame k r s) as ([? ? ? ? ?] & -> & _). split; [split; congruence|done].
Qed.
Lemma fail_frame e s : framed s (fail_client e s) ∧ c_closed (s_client (fail_client e s)) = true.
Proof using Type.
  unfold fail_client. set (c := ready_with _ _). set (s1 := set_client _ s).
  assert (E : c_waiting c = c_waiting (s_client s)) by (unfold c, ready_with; by destruct (c_ready (s_client s))).
  destruct (settle_all_frame (c_pending c).*2 (Throw e) s1) as [[F1 F2 F3 F4 F5] F6].
  split; [split; cbn; [by rewrite F1|by rewrite F2|by rewrite F3|by rewrite F4|by rewrite F5]|cbn; by rewrite F6].
Qed.

(** *** The steps *)
Lemma parts_nodup L s : good L s → NoDup (c_waiting (s_client s)).*1 ∧ NoDup (c_finally (s_client s)).*1 ∧ NoDup (c_pending (s_client s)).*2.
Proof using Type.
  intros H. assert (HN : NoDup (L ++ account s)) by (rewrite (g_account _ _ H); apply NoDup_zrange).
  unfold account in HN. rewrite !NoDup_app in HN. tauto.
Qed.

Lemma add_call_good c s : good [] s → good [Z.of_nat (length (s_calls s))] (add_call c s).
Proof using Type.
  intros [H1 H2 H3 HK H4 H5 H6 H7 H8 H9]. split; cbn; try done.
  - rewrite length_app, Nat.add_comm. cbn [length Nat.add]. rewrite zrange_snoc, <- H1. cbn. rewrite Permutation_app_comm. done.
  - eapply Forall2_impl; [done|]. intros p m [? ?]. split; [done|by apply requested_app].
  - intros p Hp. by apply requested_app, H6.
  - intros p Hp. rewrite <- (app_nil_r (s_handled s)). by apply backed_app, H9.
Qed.

Lemma request_good k r L s : good (k :: L) s → requested (s_calls s) k r → good L (request_ k r s).
Proof using Type.
  intros [H1 H2 H3 HK H4 H5 H6 H7 H8 H9] Hr. split; cbn; try done.
  - rewrite <- H1. unfold account. cbn. rewrite fmap_app. cbn. solve_Permutation.
  - intros p [Hp| ->%list_elem_of_singleton]%elem_of_app; [by apply H6|done].
Qed.

Lemma wipe_good k L s : good L s → good L (wipe k s).
Proof using Type. intros []. by split. Qed.

Lemma new_call s c : requested (s_calls s ++ [c]) (Z.of_nat (length (s_calls s))) = λ req,
  0 ≤ Z.of_nat (length (s_calls s)) ∧ match c with Some m => request_of encode m = Ok req | None => req = RShutdown end.
Proof using Type.
  unfold requested. rewrite Nat2Z.id, lookup_app_r, Nat.sub_diag by lia. done.
Qed.

Lemma call_good m s : good [] s → good [] (call_method encode m s).
Proof using Type.
  intros H. unfold call_method. pose proof (add_call_good (Some m) s H) as H1. destruct (request_of encode m) as [r|e] eqn:E.
  - apply request_good; [done|]. cbn. rewrite new_call. split; [lia|done].
  - apply settled_good; [done|apply backed_throw].
Qed.

(** The request of call [k] leaves as number [sequence + 1]. *)
Definition posting (k : Z) (r : request) (s : system) : system :=
  let c := s_client s in
  let id := c_sequence c + 1 in
  System (Client (map_set id k (c_pending c)) id (c_closed c) (c_ready c) (c_waiting c) (c_closing c) (c_finally c))
    (s_worker s) (s_started s) (s_terminated s) (s_down s ++ [(id, r)]) (s_up s) (s_calls s) (s_settled s) (s_wiped s)
    (s_handled s) (s_posted s ++ [(id, k)]).

Lemma posting_good k r s :
  good [k] s → requested (s_calls s) k r → c_closed (s_client s) = false → good [] (posting k r s).
Proof using Type.
  intros [H1 H2 H3 HK [H4 H4'] H5 H6 H7 H8 H9] Hr Hc. set (id := c_sequence (s_client s) + 1).
  assert (Hid : id ∉ (s_posted s).*1) by (intros Hin%H4'; unfold id in *; lia).
  assert (Hnew : map_get id (c_pending (s_client s)) = None).
  { apply map_get_None. intros Hin. apply Hid. apply list_elem_of_fmap in Hin as (p & -> & Hp). by apply list_elem_of_fmap_2, H3. }
  split; unfold posting; fold id; cbn [s_client c_pending c_closed c_ready c_waiting c_finally c_sequence s_posted s_calls s_handled s_down s_up s_settled s_worker]; try done.
  - rewrite <- H1. unfold account. cbn. rewrite (map_set_new _ _ _ Hnew), !fmap_app. cbn. solve_Permutation.
  - by rewrite Hc.
  - intros p [->|Hp]%elem_of_map_set; apply elem_of_app; [right; by left|left; by apply H3].
  - rewrite (map_set_new _ _ _ Hnew), fmap_app. apply NoDup_app. split_and!; [done| |apply NoDup_singleton].
    cbn. intros i Hi ->%list_elem_of_singleton. by apply map_get_None in Hnew.
  - rewrite fmap_app. split.
    + apply NoDup_app. split_and!; [done| |apply NoDup_singleton]. cbn. intros i Hi ->%list_elem_of_singleton. done.
    + cbn. intros i [Hi%H4'| ->%list_elem_of_singleton]%elem_of_app; unfold id; lia.
  - rewrite app_assoc. apply Forall2_app; [done|]. apply Forall2_cons. split; [done|by apply Forall2_nil].
Qed.

Lemma resume_good k posted s : good [] s → good [] (resume k posted s).
Proof using Type.
  intros H. unfold resume. destruct (map_get k (c_waiting (s_client s))) as [r|] eqn:E; [|done].
  destruct (c_ready (s_client s)) as [rd|] eqn:ER; [|done]. set (s1 := set_client _ s).
  destruct (parts_nodup _ _ H) as (HN & _ & _). pose proof (map_delete_perm _ _ _ HN E) as HP.
  assert (H1 : good [k] s1).
  { destruct H. split; cbn; try done.
    - rewrite <- g_account0. unfold account. cbn. rewrite HP. solve_Permutation.
    - intros p Hp. apply elem_of_map_delete in Hp as [Hp _]. by apply g_waiting0. }
  assert (Hr : requested (s_calls s1) k r) by (apply map_get_elem in E; exact (g_waiting _ _ H (k, r) E)).
  destruct rd as [[]|e]; [|by apply settle_good; [apply wipe_good|apply backed_throw]].
  destruct (c_closed (s_client s1)) eqn:EC; [by apply settle_good; [apply wipe_good|apply backed_throw]|].
  destruct posted; [pose proof (posting_good k r s1 H1 Hr EC) as HG; unfold posting in HG; by rewrite EC in HG|].
  apply settle_good; [|apply backed_throw]. apply wipe_good. destruct H1. split; try done.
  destruct g_numbers0 as [? HL]. split; [done|]. intros i Hi%HL. cbn in *. lia.
Qed.

(** A reply meets its own request: numbers are never used twice. *)
Lemma reply_own s i k r req :
  good [] s → (i, k) ∈ s_posted s → replied env ready (s_handled s) i r req → requested (s_calls s) k req.
Proof using Type.
  intros H Hin (j & Hj & _). destruct (g_numbers _ _ H) as [HN _].
  pose proof (lookup_app_l_Some _ (s_down s) _ _ Hj) as Hj'.
  destruct (Forall2_lookup_r _ _ _ _ _ (g_posts _ _ H) Hj') as ([i' k'] & Hp & E & Hr). cbn in E, Hr. subst i'.
  apply list_elem_of_lookup in Hin as (n & Hn).
  assert (n = j) as ->.
  { apply (NoDup_lookup _ n j i HN); rewrite list_lookup_fmap; [by rewrite Hn|by rewrite Hp]. }
  congruence.
Qed.

Lemma message_good m s : good [] s → (∀ i r, m = MReply i r → ∃ r' req, r = as_reply r' ∧ replied env ready (s_handled s) i r' req) →
  good [] (on_message m s).
Proof using Type.
  intros H Hm. destruct m as [|e|i r]; cbn [on_message].
  - destruct H. assert (E : ∀ c x, c_pending (ready_with x c) = c_pending c ∧ c_sequence (ready_with x c) = c_sequence c ∧
      c_closed (ready_with x c) = c_closed c ∧ c_waiting (ready_with x c) = c_waiting c ∧ c_finally (ready_with x c) = c_finally c ∧
      (c_ready c ≠ None → c_ready (ready_with x c) ≠ None)).
    { intros c x. unfold ready_with. destruct (c_ready c) eqn:E; split_and!; cbn; rewrite ?E; done. }
    destruct (E (s_client s) (Ok tt)) as (E1 & E2 & E3 & E4 & E5 & E6). generalize dependent (ready_with (Ok tt) (s_client s)).
    intros c E1 E2 E3 E4 E5 E6. split; cbn; rewrite ?E1, ?E2, ?E3, ?E4, ?E5; try done.
    + rewrite <- g_account0. unfold account. cbn. by rewrite E1, E4, E5.
    + intros Hc. destruct (g_closed0 Hc). split; [done|by apply E6].
  - by apply fail_good.
  - destruct (map_get i (c_pending (s_client s))) as [k|] eqn:E; [|done].
    destruct (Hm i r eq_refl) as (r' & req & -> & Hrep). set (s1 := set_client _ s).
    pose proof (g_pending _ _ H _ (map_get_elem _ _ _ E)) as Hin. pose proof (reply_own s i k r' req H Hin Hrep) as Hreq.
    assert (H1 : good [k] s1).
    { destruct H. split; cbn; try done.
      - rewrite <- g_account0. unfold account. cbn. rewrite (map_delete_entry _ _ _ g_keys0 E) at 2. cbn. solve_Permutation.
      - intros Hc. by destruct (g_closed0 Hc) as [-> ?].
      - intros p [Hp _]%elem_of_map_delete. by apply g_pending0.
      - by apply map_delete_keys. }
    apply settle_good; [done|]. intros v Hv. right. exists i, req. split; [done|]. by destruct r'; simplify_eq/=.
Qed.
Lemma close_good s : good [] s → good [] (close s).
Proof using Type.
  intros H. unfold close. pose proof (add_call_good None s H) as H1. destruct (c_closed (s_client (add_call None s))).
  - apply settled_good; [done|]. intros v [= <-]. left. cbn. by rewrite Nat2Z.id, lookup_app_r, Nat.sub_diag by lia.
  - apply request_good; [destruct H1; by split|]. cbn. rewrite new_call. split; [lia|done].
Qed.

Lemma finally_good k s : good [] s → good [] (finally k s).
Proof using Type.
  intros H. unfold finally. destruct (map_get k (c_finally (s_client s))) as [r|] eqn:E; [|done]. set (s1 := set_client _ s).
  destruct (parts_nodup _ _ H) as (_ & HN & _). pose proof (map_delete_perm _ _ _ HN E) as HP.
  assert (Hb : backed (s_calls s) (s_handled s) k r).
  { apply (g_settled _ _ H (k, r)), elem_of_app. right. by apply map_get_elem. }
  assert (H1 : good [k] s1).
  { destruct H. split; cbn; try done.
    - rewrite <- g_account0. unfold account. cbn. rewrite HP. solve_Permutation.
    - intros p [Hp|[Hp _]%elem_of_map_delete]%elem_of_app; apply g_settled0, elem_of_app; [by left|by right]. }
  apply settled_good; [by apply fail_good|]. by destruct (fail_frame (Exn None "Crypto client is closed") s1) as [[-> -> _ _ _] _].
Qed.

Lemma start_good s : good [] s → good [] (start s).
Proof using Type.
  intros H. unfold start. destruct (_ || _); [done|]. destruct H. split; cbn; try done.
  intros i r [Hin|Hin%list_elem_of_singleton]%elem_of_app; [by apply g_up0|]. by destruct (w_stopped (s_worker s)).
Qed.

Lemma work_good s : good [] s → good [] (work env s).
Proof using Type.
  intros H. unfold work. destruct (s_down s) as [|m down] eqn:ED; [done|]. destruct (_ || _); [done|].
  destruct H as [H1 H2 H3 HK H4 H5 H6 H7 H8 H9]. rewrite onmessage_out, drop_app_length. split; cbn; try done.
  - by rewrite <- app_assoc, ED in *.
  - rewrite H7. symmetry. apply crypto_run_snoc.
  - intros i r [Hin|Hin%list_elem_of_singleton]%elem_of_app.
    + destruct (H8 i r Hin) as (r' & req & -> & Hrep). exists r', req. split; [done|by apply replied_app].
    + injection Hin as -> ->. eexists _, _. split; [done|]. rewrite H7. apply replied_last.
  - intros p Hp. rewrite <- (app_nil_r (s_calls s)). by apply backed_app, H9.
Qed.

Lemma step_good e s : good [] s → good [] (step encode env e s).
Proof using Type.
  intros H. destruct e; cbn [step].
  - by apply call_good.
  - by apply close_good.
  - by apply fail_good.
  - by apply resume_good.
  - by apply finally_good.
  - destruct (c_ready (s_client s)); [done|by apply fail_good].
  - by apply fail_good.
  - by apply fail_good.
  - by apply start_good.
  - by apply work_good.
  - destruct (s_up s) as [|m up] eqn:E; [done|]. destruct (s_terminated s); [done|].
    assert (Hup : ∀ i r, MReply i r ∈ up → ∃ r' req, r = as_reply r' ∧ replied env ready (s_handled s) i r' req).
    { intros i r Hin. apply (g_up _ _ H). rewrite E. by right. }
    apply message_good; [destruct H; by split|]. intros i r ->. apply (g_up _ _ H). rewrite E. by left.
Qed.

Lemma run_good l s : good [] s → good [] (run_events encode env l s).
Proof using Type. revert s. induction l as [|e l IH]; intros s H; [done|]. apply IH. by apply step_good. Qed.

(** ** The arguments *)

(** Calls whose arguments wait, are wiped, or have been handed over. *)
Definition arguments (s : system) : list Z := (c_waiting (s_client s)).*1 ++ s_wiped s ++ (s_posted s).*2.
Definition tracked (s : system) : Prop :=
  ∀ k m r, s_calls s !! k = Some (Some m) → request_of encode m = Ok r → Z.of_nat k ∈ arguments s.

Lemma tracked_grow s s' :
  tracked s → s_calls s' = s_calls s → (∀ k, k ∈ arguments s → k ∈ arguments s') → tracked s'.
Proof using Type. intros H E HI k m r. rewrite E. intros Hk Hr. by eapply HI, H. Qed.
Lemma tracked_frame s s' : tracked s → framed s s' → tracked s'.
Proof using Type.
  intros H [E1 _ E2 E3 E4]. apply (tracked_grow s); [done|done|]. intros k. unfold arguments. by rewrite E2, E3, E4.
Qed.

Lemma tracked_resume k posted s : tracked s → tracked (resume k posted s).
Proof using Type.
  intros H. unfold resume. destruct (map_get k (c_waiting (s_client s))) as [r|] eqn:E; [|done].
  destruct (c_ready (s_client s)) as [rd|]; [|done].
  assert (HD : ∀ x, x ∈ (c_waiting (s_client s)).*1 → x = k ∨ x ∈ (map_delete k (c_waiting (s_client s))).*1).
  { intros x Hx. apply list_elem_of_fmap in Hx as (p & -> & Hp). destruct (decide (p.1 = k)) as [?|Hne]; [by left|right].
    apply list_elem_of_fmap_2. by apply elem_of_map_delete. }
  assert (HW : ∀ s', s_calls s' = s_calls s → c_waiting (s_client s') = map_delete k (c_waiting (s_client s)) →
    s_posted s' = s_posted s → s_wiped s' = s_wiped s ++ [k] → tracked s').
  { intros s' E1 E2 E3 E4. apply (tracked_grow s); [done|done|]. intros x. unfold arguments. rewrite E2, E3, E4, !elem_of_app, list_elem_of_singleton.
    intros [Hx%HD|[?|?]]; tauto. }
  destruct rd as [[]|e]; [|by eapply tracked_frame; [|apply settle_frame]; apply HW].
  destruct (c_closed _); [by eapply tracked_frame; [|apply settle_frame]; apply HW|].
  destruct posted; [|by eapply tracked_frame; [|apply settle_frame]; apply HW].
  apply (tracked_grow s); [done|done|]. intros x. unfold arguments. cbn. rewrite fmap_app, !elem_of_app. cbn. rewrite list_elem_of_singleton.
  intros [Hx%HD|[?|?]]; tauto.
Qed.

Lemma tracked_call c s :
  tracked s → ∀ s', s_calls s' = s_calls s ++ [c] → (∀ k, k ∈ arguments s → k ∈ arguments s') →
  (∀ m r, c = Some m → request_of encode m = Ok r → Z.of_nat (length (s_calls s)) ∈ arguments s') → tracked s'.
Proof using Type.
  intros H s' E HI Hc k m r. rewrite E. intros [Hk|[Hk Hx]]%lookup_app_Some Hr; [by eapply HI, H|].
  apply list_lookup_singleton_Some in Hx as [Hx ->]. assert (k = length (s_calls s)) as -> by lia. by eapply Hc.
Qed.

Lemma tracked_step e s : tracked s → tracked (step encode env e s).
Proof using Type.
  intros H. destruct e; cbn [step].
  - unfold call_method. destruct (request_of encode m) as [r|e] eqn:E.
    + apply (tracked_call (Some m) s); [done|done| |]; unfold arguments; cbn; rewrite fmap_app; cbn.
      * intros k. rewrite !elem_of_app. tauto.
      * intros _ _ _ _. rewrite !elem_of_app, list_elem_of_singleton. tauto.
    + apply (tracked_call (Some m) s); [done|done|done|]. intros m' r [= <-]. congruence.
  - unfold close. destruct (c_closed _); apply (tracked_call None s); try done. unfold arguments. cbn. rewrite fmap_app.
    intros k. rewrite !elem_of_app. tauto.
  - eapply tracked_frame; [done|apply fail_frame].
  - by apply tracked_resume.
  - unfold finally. destruct (map_get k _) as [r|]; [|done]. set (s1 := set_client _ s).
    pose proof (tracked_frame s1 _ H (proj1 (fail_frame (Exn None "Crypto client is closed") s1))) as HT. exact HT.
  - destruct (c_ready (s_client s)); [done|]. eapply tracked_frame; [done|apply fail_frame].
  - eapply tracked_frame; [done|apply fail_frame].
  - eapply tracked_frame; [done|apply fail_frame].
  - unfold start. by destruct (_ || _).
  - unfold work. destruct (s_down s); [done|]. by destruct (_ || _).
  - destruct (s_up s) as [|m up]; [done|]. destruct (s_terminated s); [done|]. destruct m as [|e|i r]; cbn [on_message].
    + apply (tracked_grow s); [done|done|]. intros k. unfold arguments. cbn. unfold ready_with. by destruct (c_ready (s_client s)).
    + eapply tracked_frame; [|apply fail_frame]. done.
    + destruct (map_get i _); [|done]. eapply tracked_frame; [|apply settle_frame]. done.
Qed.
Lemma tracked_run l s : tracked s → tracked (run_events encode env l s).
Proof using Type. revert s. induction l as [|e l IH]; intros s H; [done|]. apply IH. by apply tracked_step. Qed.

(** ** After closing *)
Lemma finally_one k r s : settle k r s = settled_with [(k, r)] s ∨ c_finally (s_client (settle k r s)) = c_finally (s_client s) ++ [(k, r)].
Proof using Type. unfold settle. destruct (bool_decide _); [by right|by left]. Qed.

(** In a closed client a call that resumes settles, and so does a [close()]. *)
Lemma resume_closed k r l s :
  c_closed (s_client s) = true → c_ready (s_client s) ≠ None → c_waiting (s_client s) = (k, r) :: l → NoDup (k :: l.*1) →
  let s' := resume k true s in
  c_closed (s_client s') = true ∧ c_ready (s_client s') ≠ None ∧ c_waiting (s_client s') = l.
Proof using Type.
  intros HC HR HW HN. unfold resume. rewrite HW. cbn [map_get]. rewrite Z.eqb_refl.
  apply NoDup_cons in HN as [HN _].
  assert (HD : map_delete k ((k, r) :: l) = l).
  { unfold map_delete. cbn. rewrite Z.eqb_refl. cbn. apply map_delete_absent. by apply map_get_None. }
  destruct (c_ready (s_client s)) as [rd|] eqn:ER; [|done]. rewrite HD. set (s1 := set_client _ s). cbv zeta.
  assert (E1 : c_closed (s_client s1) = true) by done. rewrite E1.
  assert (HS : ∀ x, let s' := settle k x (wipe k s1) in
    c_closed (s_client s') = true ∧ c_ready (s_client s') ≠ None ∧ c_waiting (s_client s') = l).
  { intros x. cbv zeta. destruct (settle_frame k x (wipe k s1)) as (F & -> & -> & _). rewrite (f_waiting _ _ F). cbn. by rewrite ER. }
  destruct rd as [[]|e]; apply HS.
Qed.

Lemma resume_all l s :
  c_closed (s_client s) = true → c_ready (s_client s) ≠ None → c_waiting (s_client s) = l → NoDup l.*1 →
  let s' := run_events encode env ((λ k, EResume k true) <$> l.*1) s in
  c_closed (s_client s') = true ∧ c_waiting (s_client s') = [].
Proof using Type.
  revert s. induction l as [|[k r] l IH]; intros s HC HR HW HN; [done|].
  destruct (resume_closed k r l s HC HR HW HN) as (HC' & HR' & HW'). apply NoDup_cons in HN as [_ HN].
  exact (IH (resume k true s) HC' HR' HW' HN).
Qed.

Lemma finally_closed k r l s :
  c_closed (s_client s) = true → c_pending (s_client s) = [] → c_finally (s_client s) = (k, r) :: l → NoDup (k :: l.*1) →
  let s' := finally k s in
  c_closed (s_client s') = true ∧ c_pending (s_client s') = [] ∧ c_finally (s_client s') = l ∧ c_waiting (s_client s') = c_waiting (s_client s).
Proof using Type.
  intros HC HP HF [HN _]%NoDup_cons. unfold finally. rewrite HF. cbn [map_get]. rewrite Z.eqb_refl.
  assert (HD : map_delete k ((k, r) :: l) = l).
  { unfold map_delete. cbn. rewrite Z.eqb_refl. cbn. apply map_delete_absent. by apply map_get_None. }
  rewrite HD. unfold fail_client. set (c := ready_with _ _).
  assert (E : c_pending c = [] ∧ c_finally c = l ∧ c_waiting c = c_waiting (s_client s)).
  { unfold c, ready_with. cbn. by destruct (c_ready (s_client s)). }
  destruct E as (-> & E2 & E3). cbn. by rewrite E2, E3.
Qed.

Lemma finally_all l s :
  c_closed (s_client s) = true → c_pending (s_client s) = [] → c_finally (s_client s) = l → NoDup l.*1 →
  let s' := run_events encode env (EFinally <$> l.*1) s in
  c_pending (s_client s') = [] ∧ c_finally (s_client s') = [] ∧ c_waiting (s_client s') = c_waiting (s_client s).
Proof using Type.
  revert s. induction l as [|[k r] l IH]; intros s HC HP HF HN; [done|].
  destruct (finally_closed k r l s HC HP HF HN) as (HC' & HP' & HF' & HW'). apply NoDup_cons in HN as [_ HN].
  destruct (IH (finally k s) HC' HP' HF' HN) as (H1 & H2 & H3). split_and!; [exact H1|exact H2|]. etrans; [exact H3|exact HW'].
Qed.
End system.

Lemma run_calls encode env l s :
  (∀ e, e ∈ l → match e with ECall _ | EClose => False | _ => True end) →
  s_calls (run_events encode env l s) = s_calls s.
Proof.
  revert s. induction l as [|e l IH]; intros s H; [done|]. change (run_events encode env (e :: l) s) with (run_events encode env l (step encode env e s)).
  rewrite IH by (intros e' ?; apply H; by right). specialize (H e (list_elem_of_here _ _)).
  assert (HF : ∀ x s, s_calls (fail_client x s) = s_calls s) by (intros x s'; apply (fail_frame x s')).
  assert (HS : ∀ k x s, s_calls (settle k x s) = s_calls s) by (intros k x s'; apply (settle_frame k x s')).
  destruct e; try done; cbn [step]; try apply HF.
  - unfold resume. destruct (map_get k _); [|done]. destruct (c_ready (s_client s)) as [[[]|]|]; [|by rewrite HS|done].
    destruct (c_closed _); [by rewrite HS|]. destruct posted; [done|by rewrite HS].
  - unfold finally. destruct (map_get k _); [|done]. exact (HF _ _).
  - destruct (c_ready (s_client s)); [done|apply HF].
  - unfold start. by destruct (_ || _).
  - unfold work. destruct (s_down s); [done|]. by destruct (_ || _).
  - destruct (s_up s) as [|m up]; [done|]. destruct (s_terminated s); [done|]. destruct m as [|x|i r]; cbn [on_message]; [done|by rewrite HF|].
    destruct (map_get i _); [by rewrite HS|done].
Qed.

(** C16: Whatever the interleaving of application, client and Worker: each call is in
    exactly one place (settled, pending in the Worker, waiting for it to start, or in the
    [finally] of [close()]), so it settles at most once; a call that settles without an
    error has the outcome of its own request, executed by the Worker in the state the
    requests before it had left (or is the [close()] of a closed client); nothing stays
    pending in a closed client; and when a call has settled, the arguments of its
    request were wiped or handed to the Worker. *)
Theorem crypto_calls encode env ready l :
  let s := run_events encode env l (new_system ready) in
  account s ≡ₚ zrange 0 (length (s_calls s)) ∧
  (∀ k v, (k, Ok v) ∈ s_settled s →
     (s_calls s !! Z.to_nat k = Some None ∧ v = Null) ∨
     ∃ i req, requested encode (s_calls s) k req ∧ replied env ready (s_handled s) i (Ok v) req) ∧
  (c_closed (s_client s) = true → c_pending (s_client s) = []) ∧
  (∀ k m r, s_calls s !! k = Some (Some m) → request_of encode m = Ok r → Z.of_nat k ∈ (s_settled s).*1 →
     Z.of_nat k ∈ s_wiped s ∨ Z.of_nat k ∈ (s_posted s).*2).
Proof.
  intros s. pose proof (run_good encode env ready l _ (good_new encode env ready)) as H. fold s in H.
  assert (HT : tracked encode s) by (apply tracked_run; intros k m r; cbn; by rewrite lookup_nil).
  split_and!; [apply (g_account _ _ _ _ _ H)| | |].
  - intros k v Hin. apply (g_settled _ _ _ _ _ H (k, Ok v)); [|done]. apply elem_of_app. by left.
  - intros Hc. by destruct (g_closed _ _ _ _ _ H Hc).
  - intros k m r Hk Hr Hset. specialize (HT k m r Hk Hr). unfold arguments in HT. rewrite !elem_of_app in HT.
    destruct HT as [Hw|[?|?]]; [exfalso|by left|by right].
    assert (HN : NoDup (account s)) by (change (account s) with ([] ++ account s); rewrite (g_account _ _ _ _ _ H); apply NoDup_zrange).
    unfold account in HN. apply NoDup_app in HN as (_ & HN & _). apply (HN _ Hset). rewrite !elem_of_app. tauto.
Qed.

(** No call is left behind: from any state the threads can reach in which the client
    has closed (by [close()], [terminate()], a failing Worker or the timer), when the
    calls that still wait have resumed and the [close()] calls have run their [finally],
    every call made has settled, once. *)
Theorem closed_calls_end encode env ready l :
  let s := run_events encode env l (new_system ready) in
  c_closed (s_client s) = true →
  let s1 := run_events encode env ((λ k, EResume k true) <$> (c_waiting (s_client s)).*1) s in
  let s2 := run_events encode env (EFinally <$> (c_finally (s_client s1)).*1) s1 in
  (s_settled s2).*1 ≡ₚ zrange 0 (length (s_calls s)).
Proof.
  intros s HC s1 s2. pose proof (run_good encode env ready l _ (good_new encode env ready)) as H. fold s in H.
  destruct (g_closed _ _ _ _ _ H HC) as [_ HR]. destruct (parts_nodup _ _ _ _ _ H) as (HN & _ & _).
  destruct (resume_all encode env _ s HC HR eq_refl HN) as [HC1 HW1]. fold s1 in HC1, HW1.
  assert (H1 : good encode env ready [] s1) by (by apply run_good).
  destruct (g_closed _ _ _ _ _ H1 HC1) as [HP1 _]. destruct (parts_nodup _ _ _ _ _ H1) as (_ & HN1 & _).
  destruct (finally_all encode env _ s1 HC1 HP1 eq_refl HN1) as (HP2 & HF2 & HW2). fold s2 in HP2, HF2, HW2.
  assert (H2 : good encode env ready [] s2) by (by apply run_good).
  assert (HL : s_calls s2 = s_calls s).
  { unfold s2, s1. rewrite !run_calls; [done|..]; intros e (k & -> & _)%list_elem_of_fmap; done. }
  pose proof (g_account _ _ _ _ _ H2) as HA. cbn [app] in HA. unfold account in HA. rewrite HP2, HF2, HW2, HW1, HL in HA. cbn in HA.
  by rewrite app_nil_r in HA.
Qed.

(** ** At work *)
Module Toy.
Definition encode (s : string) : bytes := [Z.of_nat (String.length s)].
Definition env (past : list (call * bool)) (c : call) : result (answer c) :=
  match c as c return result (answer c) with
  | OpenUnit _ _ _ => throw_plain "Authentication failed"
  | DeriveIdentity _ _ _ _ | CreateDisk _ _ | OpenDisk _ _ _ | Close _ | Free _ => Ok tt
  | Verify _ _ _ => Ok true
  | ObjectHash _ => Ok "00"%string
  | Sign _ b | SealMetadata _ b | OpenMetadata _ b => Ok b
  | SealUnit _ u b => Ok (u ++ b)
  | DiskId _ | SealDescriptor _ _ | PublicKey _ | RelayPublicKey _ | SignRelayChallenge _ _ _ _ _ => Ok [1]
  end.
(** Calls made before the Worker is ready wait; a bad unit is refused at once; calls 3
    and 4 are answered; [close()] is call 6, and a late call finds the client closed. *)
Definition events : list event :=
  [ECall (deriveIdentity (Some "me"%string) (Some "secret"%string) (Some "pc"%string)); EStart; EDeliver; EResume 0 true; EWorker; EDeliver;
   ECall (createDisk_ 1); EResume 1 true; EWorker; EDeliver;
   ECall (sealUnit 2 (Some (-1)) (Some [7])); ECall (sealUnit 2 (Some 258) (Some [7])); ECall (openUnit 2 (Some 0) (Some [8]));
   EResume 3 true; EResume 4 true; EWorker; EWorker; EDeliver; EDeliver;
   ECall (hash (Some [5])); EResume 5 false; EClose; EResume 6 true; EWorker; EDeliver; EFinally 6; ECall (sign 1 (Some [9]))].

Example settled : s_settled (run_events encode env events (new_system true)) =
  [(0, Ok (Identity 1 [1])); (1, Ok (Disk 2 [1] [1] "00")); (2, throw_plain "Unit ID must be an unsigned 96-bit BigInt");
   (3, Ok (Encrypted [2; 1; 0; 0; 0; 0; 0; 0; 0; 0; 0; 0; 7] "00")); (4, throw_plain "Authentication failed");
   (5, throw_plain "Failed to execute postMessage"); (6, Ok Null)].
Proof. by vm_compute. Qed.
End Toy.

Lemma closed_calls_end_witness :
  let s := run_events Toy.encode Toy.env Toy.events (new_system true) in
  let s1 := run_events Toy.encode Toy.env ((λ k, EResume k true) <$> (c_waiting (s_client s)).*1) s in
  let s2 := run_events Toy.encode Toy.env (EFinally <$> (c_finally (s_client s1)).*1) s1 in
  c_closed (s_client s) = true ∧ (c_waiting (s_client s)).*1 = [7] ∧ length (s_calls s) = 8%nat ∧
  (s_settled s2).*1 ≡ₚ zrange 0 (length (s_calls s)).
Proof.
  intros s s1 s2. assert (HC : c_closed (s_client s) = true) by (by vm_compute).
  split_and!; [exact HC|by vm_compute|by vm_compute|]. exact (closed_calls_end Toy.encode Toy.env true Toy.events HC).
Defined.
