(* ===== verification/StateInput.v ===== *)
(** * The read-ahead of a published state (src/src/disk/web/torrent-remote.js: stateInput)

    [stateInput] gives a machine state as a stream: ranges of 256 KiB are requested
    ahead of the consumer, at most four at a time and at most sixteen not yet
    consumed, and handed on in order.  The first failure, an abort or the consumer's
    cancellation stops everything.

    Events are the stream's [pull], a settled read, the continuation of a [pull] whose
    range has settled, the abort of the caller's signal and the consumer's
    cancellation.  A [ReadableStream] does not pull while a pull is under way or after
    it has closed.  Requests are numbered in the order they are made. *)
From S2P Require Import Prelude.
#[local] Open Scope Z_scope.

Module StateInput.

Definition RANGE : Z := 262144.

Inductive status := InFlight | Got (data : bytes) | Failed (e : exn).
Record request := Request { q_start : Z; q_count : Z; q_status : status }.
Inductive stream := Readable | Closed | Errored (e : exn).

Record input := Input {
  i_size : Z;                    (** [meta.size] *)
  i_offset : Z;
  i_next : Z;
  i_requests : list request;     (** every read started *)
  i_pending : list nat;          (** [pending], as numbers of requests *)
  i_active : Z;
  i_stopped : option exn;        (** [stopped], with the controller's reason *)
  i_pull : option (option nat);  (** a [pull] awaits [pending[0]] *)
  i_stream : stream;
  i_output : list bytes          (** enqueued *)
}.
Definition new_input (size : Z) : input := Input size 0 0 [] [] 0 None None Readable [].

(** [stop(reason)]. *)
Definition stop (reason : exn) (i : input) : input :=
  match i_stopped i with
  | Some _ => i
  | None => Input (i_size i) (i_offset i) (i_next i) (i_requests i) [] (i_active i) (Some reason) (i_pull i)
              (i_stream i) (i_output i)
  end.

(** One turn of the loop of [fill()], and the loop: it turns at most four times. *)
Definition can_fill (i : input) : bool :=
  match i_stopped i with Some _ => false | None => true end &&
  (i_active i <? 4) && (Z.of_nat (length (i_pending i)) <? 16) && (i_next i <? i_size i).
Definition start_read (i : input) : input :=
  let start := i_next i in
  let count := Z.min RANGE (i_size i - start) in
  Input (i_size i) (i_offset i) (start + count) (i_requests i ++ [Request start count InFlight])
    (i_pending i ++ [length (i_requests i)]) (i_active i + 1) (i_stopped i) (i_pull i) (i_stream i) (i_output i).
Fixpoint fill_loop (fuel : nat) (i : input) : input :=
  match fuel with
  | O => i
  | S fuel => if can_fill i then fill_loop fuel (start_read i) else i
  end.
Definition fill (i : input) : input := fill_loop 4 i.
#[local] Arguments fill : simpl never.

Definition with_pull (p : option (option nat)) (i : input) : input :=
  Input (i_size i) (i_offset i) (i_next i) (i_requests i) (i_pending i) (i_active i) (i_stopped i) p
    (i_stream i) (i_output i).
Definition with_stream (s : stream) (i : input) : input :=
  Input (i_size i) (i_offset i) (i_next i) (i_requests i) (i_pending i) (i_active i) (i_stopped i) (i_pull i)
    s (i_output i).

(** [catch(error) {stop(error);output.error(error);}]; a stream that is not readable
    ignores [error]. *)
Definition fail_pull (e : exn) (i : input) : input :=
  let i := with_pull None (stop e i) in
  match i_stream i with Readable => with_stream (Errored e) i | _ => i end.

(** [pull(output)], up to its [await]. *)
Definition pull (i : input) : input :=
  match i_pull i, i_stream i with
  | None, Readable =>
      match i_stopped i with
      | Some reason => fail_pull reason i
      | None =>
          if i_offset i =? i_size i then with_stream Closed i
          else let i := fill i in with_pull (Some (head (i_pending i))) i
      end
  | _, _ => i
  end.

Definition TYPE_ERROR : exn := Exn None "undefined is not an object".

(** The rest of [pull], once what it awaits has settled. *)
Definition resume (i : input) : input :=
  match i_pull i with
  | None => i
  | Some p =>
      match p ≫= λ k, i_requests i !! k with
      | Some (Request _ _ InFlight) => i
      | r =>
          match i_stopped i with
          | Some reason => fail_pull reason i
          | None =>
              match r with
              | Some (Request _ _ (Failed e)) => fail_pull e i
              | Some (Request _ _ (Got data)) =>
                  fill (Input (i_size i) (i_offset i + byteLength data) (i_next i) (i_requests i) (tail (i_pending i))
                          (i_active i) None None (i_stream i) (i_output i ++ [data]))
              | _ => fail_pull TYPE_ERROR i
              end
          end
      end
  end.

(** What [remote.bytes] gives: bytes, something else, or an error. *)
Inductive answer := Bytes (data : bytes) | Other | Rejected (e : exn).
Definition SHORT : exn := Exn (Some "TRANSPORT_ERROR"%string) "Short published state range".

Definition settled (k : nat) (a : answer) (i : input) : input :=
  match i_requests i !! k with
  | Some (Request start count InFlight) =>
      let s := match a with
               | Bytes data => if byteLength data =? count then Got data else Failed SHORT
               | Other => Failed SHORT
               | Rejected e => Failed e
               end in
      let i := Input (i_size i) (i_offset i) (i_next i) (<[k := Request start count s]> (i_requests i)) (i_pending i)
                 (i_active i) (i_stopped i) (i_pull i) (i_stream i) (i_output i) in
      let i := match s with Failed e => stop e i | _ => i end in
      fill (Input (i_size i) (i_offset i) (i_next i) (i_requests i) (i_pending i) (i_active i - 1) (i_stopped i)
              (i_pull i) (i_stream i) (i_output i))
  | _ => i
  end.

(** The consumer cancels the stream. *)
Definition cancel (reason : exn) (i : input) : input :=
  match i_stream i with Readable => with_stream Closed (stop reason i) | _ => i end.

Inductive event :=
| Pull
| Resume
| Settled (k : nat) (a : answer)
| Abort (reason : exn)
| Cancel (reason : exn).

Definition step (e : event) (i : input) : input :=
  match e with
  | Pull => pull i
  | Resume => resume i
  | Settled k a => settled k a i
  | Abort reason => stop reason i
  | Cancel reason => cancel reason i
  end.
Definition run (l : list event) (size : Z) : input := foldl (λ i e, step e i) (new_input size) l.

(** ** The invariant *)
Definition in_flight (q : request) : bool := match q_status q with InFlight => true | _ => false end.
Definition flying (l : list request) : Z := Z.of_nat (length (List.filter in_flight l)).
Definition is_failed (q : request) : bool := match q_status q with Failed _ => true | _ => false end.
Definition is_got (q : request) : bool := match q_status q with Got _ => true | _ => false end.

(** The [k]-th range of [size] bytes. *)
Definition range_start (k : nat) : Z := Z.of_nat k * RANGE.
Definition reach (size : Z) (k : nat) : Z := Z.min size (range_start k).

Section content.
Context (content : bytes).
#[local] Notation size := (byteLength content).
Definition chunk (k : nat) : bytes := slice content (reach size k) (reach size (S k)).

Record request_ok (k : nat) (q : request) : Prop := {
  ro_start : q_start q = range_start k;
  ro_count : q_start q + q_count q = reach size (S k);
  ro_positive : range_start k < size;
  ro_data : ∀ data, q_status q = Got data → data = chunk k
}.

Record sound (i : input) : Prop := {
  so_size : i_size i = size;
  so_requests : ∀ k q, i_requests i !! k = Some q → request_ok k q;
  so_next : i_next i = reach size (length (i_requests i));
  so_active : i_active i = flying (i_requests i);
  so_four : i_active i ≤ 4;
  so_offset : i_offset i = reach size (length (i_output i));
  so_output : concat (i_output i) = take (Z.to_nat (i_offset i)) content;
  so_delivered : (length (i_output i) ≤ length (i_requests i))%nat;
  so_sixteen : (length (i_pending i) ≤ 16)%nat;
  so_pending : i_pending i = match i_stopped i with
    | None => seq (length (i_output i)) (length (i_requests i) - length (i_output i))
    | Some _ => []
    end;
  so_got : ∀ k q, i_requests i !! k = Some q → (k < length (i_output i))%nat → is_got q = true;
  so_failed : i_stopped i = None → ∀ q, q ∈ i_requests i → is_failed q = false;
  so_pull : ∀ p, i_pull i = Some p → ∃ k, p = Some k ∧ (k < length (i_requests i))%nat ∧
    (i_stopped i = None → k = length (i_output i) ∧ i_offset i < size);
  so_closed : i_stream i = Closed → i_stopped i = None → i_offset i = size ∧ i_pull i = None;
  so_errored : ∀ e, i_stream i = Errored e → i_stopped i = Some e
}.

(** As many reads as allowed are under way. *)
Definition full (i : input) : Prop :=
  i_stopped i = None → i_active i = 4 ∨ length (i_pending i) = 16%nat ∨ i_next i = size.

Lemma reach_S k : reach size (S k) = Z.min size (reach size k + RANGE).
Proof using Type. unfold reach, range_start, RANGE. lia. Qed.
Lemma reach_bounds k : 0 ≤ reach size k ≤ size.
Proof using Type. unfold reach, range_start, RANGE, byteLength. lia. Qed.

Lemma flying_snoc l q : flying (l ++ [q]) = flying l + (if in_flight q then 1 else 0).
Proof using Type. unfold flying. rewrite List.filter_app, length_app. cbn. destruct (in_flight q); cbn; lia. Qed.
Lemma flying_insert l k q q' :
  l !! k = Some q → in_flight q = true → in_flight q' = false → flying (<[k := q']> l) = flying l - 1.
Proof using Type.
  intros Hk H H'. rewrite <- (take_drop_middle l k q Hk) at 2. rewrite insert_take_drop by (by eapply lookup_lt_Some).
  unfold flying. rewrite !List.filter_app, !length_app. cbn. rewrite H, H'. cbn. lia.
Qed.
Lemma flying_nonneg l : 0 ≤ flying l.
Proof using Type. unfold flying. lia. Qed.

Lemma input_new : sound (new_input size).
Proof using Type.
  split; cbn; try done; try (unfold reach, range_start, byteLength; lia).
  by intros _ q ?%elem_of_nil.
Qed.

Lemma sound_stop reason i : sound i → sound (stop reason i).
Proof using Type.
  intros H. unfold stop. destruct (i_stopped i) eqn:E; [done|]. destruct H as [H1 H2 H3 H4 H5 H6 H7 H8 H9 H10 HG H11 H12 H13 H14].
  split; cbn; try done; try lia.
  - intros p Hp. destruct (H12 p Hp) as (k & -> & Hk & _). exists k. by split_and!.
  - intros e He. rewrite E in H14. by specialize (H14 e He).
Qed.

Lemma sound_start_read i : sound i → can_fill i = true → sound (start_read i).
Proof using Type.
  intros [H1 H2 H3 H4 H5 H6 H7 H8 H9 H10 HG H11 H12 H13 H14] HC. unfold can_fill in HC.
  destruct (i_stopped i) eqn:ES; [done|]. cbn in HC. bools.
  assert (EN : range_start (length (i_requests i)) = i_next i) by (rewrite H3 in *; unfold reach in *; lia).
  unfold start_read. split; cbn; try done; rewrite ?ES.
  - intros k q [Hq|[Hk Hq]]%lookup_app_Some; [by apply H2|]. apply list_lookup_singleton_Some in Hq as [E <-].
    assert (k = length (i_requests i)) as -> by lia. split; cbn; try done.
    + rewrite reach_S, <- H3. lia.
    + lia.
  - rewrite length_app. cbn. rewrite Nat.add_1_r, reach_S, <- H3, H1. lia.
  - rewrite flying_snoc. cbn. lia.
  - lia.
  - rewrite length_app. lia.
  - rewrite length_app. cbn. lia.
  - rewrite H10, length_app. cbn.
    replace (length (i_requests i) + 1 - length (i_output i))%nat
      with (S (length (i_requests i) - length (i_output i)))%nat by lia.
    rewrite seq_S. do 2 f_equal. lia.
  - intros k q [Hq|[Hk Hq]]%lookup_app_Some; [by apply HG|lia].
  - intros _ q [Hq|Hq]%elem_of_app; [by apply H11|]. apply list_elem_of_singleton in Hq as ->. done.
  - intros p Hp. destruct (H12 p Hp) as (k & -> & Hk & HN). exists k. rewrite length_app. split_and!; [done|lia|auto].
  - intros HS _. by apply H13.
  - intros e He. specialize (H14 e He). congruence.
Qed.

Lemma sound_fill i : sound i → sound (fill i) ∧ full (fill i).
Proof using Type.
  intros H. unfold fill. assert (HA : 4 ≤ i_active i + Z.of_nat 4).
  { rewrite (so_active _ H). pose proof (flying_nonneg (i_requests i)). lia. }
  revert HA. generalize 4%nat. intros n. revert i H. induction n as [|n IH]; intros i H HA; cbn [fill_loop].
  - split; [done|]. intros _. pose proof (so_four _ H). left. lia.
  - destruct (can_fill i) eqn:EC.
    + apply IH; [by apply sound_start_read|]. cbn. lia.
    + split; [done|]. intros ES. unfold can_fill in EC. rewrite ES in EC. cbn in EC.
      pose proof (so_four _ H). pose proof (so_sixteen _ H). rewrite (so_size _ H) in EC.
      pose proof (reach_bounds (length (i_requests i))). rewrite <- (so_next _ H) in *.
      destruct (i_active i <? 4) eqn:E1; [|left; bools; lia].
      destruct (Z.of_nat (length (i_pending i)) <? 16) eqn:E2; [|right; left; bools; lia].
      right. right. cbn in EC. bools. lia.
Qed.

(** ** Every step *)
Lemma sound_fail_pull e i :
  sound i → (i_stopped i = None ∨ i_stopped i = Some e) → sound (fail_pull e i).
Proof using Type.
  intros H HE. pose proof (sound_stop e i H) as HS. unfold fail_pull.
  assert (E : i_stopped (stop e i) = Some e) by (unfold stop; by destruct HE as [->| E]; [|rewrite E]).
  assert (HW : sound (with_pull None (stop e i))) by (destruct HS; split; cbn; try done; by rewrite E).
  destruct (i_stream (with_pull None (stop e i))) eqn:ES; [|done..].
  destruct HW. split; cbn in *; try done; congruence.
Qed.

Lemma full_stopped e i : i_stopped i = Some e → full i.
Proof using Type. intros H. unfold full. by rewrite H. Qed.

Lemma fail_pull_stopped e i : i_stopped (fail_pull e i) ≠ None.
Proof using Type.
  unfold fail_pull. assert (E : i_stopped (stop e i) ≠ None) by (unfold stop; destruct (i_stopped i) eqn:E; cbn; congruence).
  by destruct (i_stream _).
Qed.
Lemma full_fail_pull e i : full (fail_pull e i).
Proof using Type. intros H. by apply fail_pull_stopped in H. Qed.

Definition inv (i : input) : Prop := sound i ∧ (i_requests i ≠ [] → full i).

(** What [fill] leaves alone. *)
Lemma fill_frame i :
  i_stopped (fill i) = i_stopped i ∧ i_offset (fill i) = i_offset i ∧ i_output (fill i) = i_output i ∧
  i_stream (fill i) = i_stream i ∧ i_pull (fill i) = i_pull i.
Proof using Type.
  unfold fill. generalize 4%nat. intros n. revert i. induction n as [|n IH]; intros i; cbn [fill_loop]; [done|].
  destruct (can_fill i); [|done]. by destruct (IH (start_read i)) as (-> & -> & -> & -> & ->).
Qed.

Lemma flying_got l : (∀ q, q ∈ l → is_got q = true) → flying l = 0.
Proof using Type.
  induction l as [|q l IH]; intros H; [done|]. unfold flying in *. cbn.
  assert (in_flight q = false) as ->; [|apply IH; set_solver].
  specialize (H q ltac:(set_solver)). unfold is_got, in_flight in *. by destruct (q_status q).
Qed.

(** While ranges are missing, a full pipeline has one at its head. *)
Lemma full_head i :
  sound i → full i → i_stopped i = None → i_offset i < size →
  head (i_pending i) = Some (length (i_output i)) ∧ (length (i_output i) < length (i_requests i))%nat.
Proof using Type.
  intros H HF ES HO. rewrite (so_pending _ H), ES. pose proof (so_delivered _ H) as HD.
  destruct (length (i_requests i) - length (i_output i))%nat eqn:EL; [exfalso|split; [done|lia]].
  assert (EQ : length (i_requests i) = length (i_output i)) by lia.
  destruct (HF ES) as [HA|[HP|HX]].
  - rewrite (so_active _ H), flying_got in HA; [lia|]. intros q [k Hk]%list_elem_of_lookup.
    apply (so_got _ H k q Hk). apply lookup_lt_Some in Hk. lia.
  - rewrite (so_pending _ H), ES, EL in HP. done.
  - rewrite (so_next _ H), EQ, <- (so_offset _ H) in HX. lia.
Qed.

Lemma inv_pull i : inv i → inv (pull i).
Proof using Type.
  intros [H HF]. unfold pull. destruct (i_pull i) eqn:EP; [done|]. destruct (i_stream i) eqn:ES; [|done..].
  destruct (i_stopped i) as [reason|] eqn:ET.
  { split; [apply sound_fail_pull; auto|intros _; apply full_fail_pull]. }
  destruct (i_offset i =? i_size i) eqn:EO; bools.
  { split; [|done]. rewrite (so_size _ H) in EO. destruct H. split; cbn; try done; by rewrite ET. }
  destruct (sound_fill i H) as [HS HF']. destruct (fill_frame i) as (E1 & E2 & E3 & E4 & E5).
  assert (HO : i_offset (fill i) < size).
  { rewrite (so_size _ H) in EO. rewrite (so_offset _ HS).
    pose proof (reach_bounds (length (i_output (fill i)))). rewrite <- (so_offset _ HS) in *. rewrite E2 in *. lia. }
  rewrite ET in E1. destruct (full_head _ HS HF' E1 HO) as [HH HL]. cbv zeta. rewrite HH.
  split; [|by intros _]. destruct HS. split; cbn; try done.
  - intros p [= <-]. eexists. by split_and!.
  - intros HC. rewrite E4, ES in HC. done.
Qed.

Lemma inv_stop reason i : inv i → inv (stop reason i).
Proof using Type.
  intros [H HF]. split; [by apply sound_stop|]. unfold stop. destruct (i_stopped i) eqn:E; [|done].
  intros _. by eapply full_stopped.
Qed.

Lemma inv_cancel reason i : inv i → inv (cancel reason i).
Proof using Type.
  intros H. unfold cancel. destruct (i_stream i) eqn:ES; [|done..]. apply (inv_stop reason) in H as [H HF].
  assert (E : i_stopped (stop reason i) ≠ None) by (unfold stop; destruct (i_stopped i) eqn:E; cbn; congruence).
  split; [|exact HF]. destruct H. split; cbn; try done.
Qed.

Lemma length_chunk k : range_start k < size → byteLength (chunk k) = reach size (S k) - reach size k.
Proof using Type.
  intros H. unfold chunk, byteLength at 1. apply length_slice; [|unfold reach; unfold byteLength; lia].
  unfold reach, range_start, RANGE, byteLength in *. lia.
Qed.

(** The bytes handed on so far and the next range. *)
Lemma take_chunk k :
  take (Z.to_nat (reach size k)) content ++ chunk k = take (Z.to_nat (reach size (S k))) content.
Proof using Type.
  unfold chunk, slice. pose proof (reach_bounds k). pose proof (reach_bounds (S k)). pose proof (reach_S k).
  unfold RANGE in *. rewrite <- (take_drop (Z.to_nat (reach size k)) (take (Z.to_nat (reach size (S k))) content)) at 1.
  rewrite take_take, Nat.min_l by lia. f_equal. rewrite skipn_firstn_comm. f_equal. lia.
Qed.

(** The step that hands the next range on. *)
Lemma inv_deliver i k q data :
  sound i → i_stopped i = None → i_pull i = Some (Some k) → i_requests i !! k = Some q → q_status q = Got data →
  inv (fill (Input (i_size i) (i_offset i + byteLength data) (i_next i) (i_requests i) (tail (i_pending i))
               (i_active i) None None (i_stream i) (i_output i ++ [data]))).
Proof using Type.
  intros H ES EP Eq EG. destruct (so_pull _ H _ EP) as (k' & [= <-] & Hk & HN). destruct (HN ES) as [Ek HO]. clear HN.
  pose proof (so_requests _ H k q Eq) as HR. rewrite (ro_data _ _ HR _ EG).
  set (j := Input _ _ _ _ _ _ _ _ _ _). assert (HJ : sound j); [|destruct (sound_fill j HJ); by split].
  pose proof (length_chunk k (ro_positive _ _ HR)) as HC.
  assert (Eoff : i_offset i + byteLength (chunk k) = reach size (S k)).
  { rewrite (so_offset _ H), <- Ek, HC. lia. }
  destruct H as [H1 H2 H3 H4 H5 H6 H7 H8 H9 H10 HG H11 H12 H13 H14]. rewrite ES in *.
  subst j. split; cbn; try done; rewrite ?length_app; cbn; rewrite ?Nat.add_1_r, <- ?Ek.
  - by rewrite Eoff.
  - rewrite concat_app, H7, Eoff. cbn. rewrite app_nil_r, H6, <- Ek. apply take_chunk.
  - lia.
  - rewrite H10. destruct (length (i_requests i) - _)%nat; cbn; [lia|]. rewrite length_seq. rewrite H10, length_seq in H9. lia.
  - rewrite H10, <- Ek. destruct (length (i_requests i) - k)%nat as [|m] eqn:E; [lia|]. cbn. f_equal. lia.
  - intros k' q' Hk' Hlt. destruct (decide (k' = k)) as [->|]; [|apply (HG k' q' Hk'); lia].
    rewrite Eq in Hk'. injection Hk' as <-. unfold is_got. by rewrite EG.
  - intros HC' _. destruct (H13 HC' eq_refl) as [_ E]. congruence.
Qed.

Lemma inv_resume i : inv i → inv (resume i).
Proof using Type.
  intros [H HF]. unfold resume. destruct (i_pull i) as [p|] eqn:EP; [|done].
  destruct (so_pull _ H _ EP) as (k & -> & Hk & HN). cbn [mbind option_bind].
  destruct (lookup_lt_is_Some_2 _ _ Hk) as [[start count s] Eq]. rewrite Eq.
  assert (HX : ∀ e, i_stopped i = None ∨ i_stopped i = Some e → inv (fail_pull e i)).
  { intros e He. split; [by apply sound_fail_pull|intros _; apply full_fail_pull]. }
  destruct s as [|data|e]; [done|..].
  - destruct (i_stopped i) as [reason|] eqn:ES; [auto|]. by apply (inv_deliver i k _ data H ES EP Eq).
  - destruct (i_stopped i) as [reason|] eqn:ES; auto.
Qed.

Lemma sound_settled k start count s i :
  sound i → i_requests i !! k = Some (Request start count InFlight) → s ≠ InFlight →
  (∀ data, s = Got data → data = chunk k) → (∀ e, s = Failed e → i_stopped i ≠ None) →
  sound (Input (i_size i) (i_offset i) (i_next i) (<[k := Request start count s]> (i_requests i)) (i_pending i)
           (i_active i - 1) (i_stopped i) (i_pull i) (i_stream i) (i_output i)).
Proof using Type.
  intros [H1 H2 H3 H4 H5 H6 H7 H8 H9 H10 HG H11 H12 H13 H14] Eq Hs Hdata Hfail.
  split; cbn; rewrite ?length_insert; try done; try lia.
  - intros k' q [(<- & <- & _)|[Hne Hq]]%list_lookup_insert_Some; [|by apply H2].
    destruct (H2 _ _ Eq). split; cbn in *; auto.
  - rewrite (flying_insert _ _ _ _ Eq); [lia|done|]. unfold in_flight. cbn. by destruct s.
  - intros k' q [(<- & <- & _)|[Hne Hq]]%list_lookup_insert_Some Hlt; [|by apply (HG k')].
    by specialize (HG k _ Eq Hlt).
  - intros ES q [k' [(<- & <- & _)|[Hne Hq]]%list_lookup_insert_Some]%list_elem_of_lookup.
    + unfold is_failed. cbn. destruct s as [| |e]; try done. by destruct (Hfail e eq_refl).
    + apply (H11 ES). by eapply list_elem_of_lookup_2.
Qed.

(** What a verified transport returns for the [k]-th range. *)
Definition genuine (k : nat) (a : answer) : Prop :=
  ∀ data, a = Bytes data → byteLength data = reach size (S k) - reach size k → data = chunk k.

Lemma input_settled k a i : inv i → genuine k a → inv (settled k a i).
Proof using Type.
  intros [H HF] HG. unfold settled. destruct (i_requests i !! k) as [[start count []]|] eqn:Eq; try done.
  pose proof (so_requests _ H k _ Eq) as HR. cbv zeta.
  set (s := match a with Bytes _ => _ | _ => _ end).
  assert (HS : s ≠ InFlight) by (subst s; destruct a; try done; by destruct (_ =? _)).
  assert (HD : ∀ data, s = Got data → data = chunk k).
  { intros data. subst s. destruct a as [b| |]; try done. destruct (byteLength b =? count) eqn:E; [|done].
    intros [= <-]. apply (HG b eq_refl). bools. destruct HR as [R1 R2 R3 _]. cbn in *.
    rewrite <- R2, R1. unfold reach. unfold range_start, RANGE in *. lia. }
  destruct s as [|data|e] eqn:Es; [done|..].
  - match goal with |- inv (fill ?j) => assert (HJ : sound j) end.
    { by apply (sound_settled k start count (Got data) i H Eq). }
    destruct (sound_fill _ HJ). by split.
  - assert (HJ : sound (stop e i)) by by apply sound_stop.
    assert (Eq' : i_requests (stop e i) !! k = Some (Request start count InFlight)) by (unfold stop; by destruct (i_stopped i)).
    assert (HN : i_stopped (stop e i) ≠ None) by (unfold stop; destruct (i_stopped i) eqn:E; cbn; congruence).
    pose proof (sound_settled k start count (Failed e) _ HJ Eq' HS ltac:(done) (λ _ _, HN)) as HK.
    match type of HK with sound ?j => match goal with |- inv (fill ?j') => assert (EJ : j' = j) end end.
    { unfold stop. destruct (i_stopped i) eqn:E; cbn; by rewrite ?E. }
    rewrite EJ. destruct (sound_fill _ HK). by split.
Qed.

Lemma inv_run l : (∀ k a, Settled k a ∈ l → genuine k a) → inv (run l size).
Proof using Type.
  intros Hl. assert (H0 : inv (new_input size)) by (split; [apply input_new|done]).
  unfold run. revert H0. generalize (new_input size). induction l as [|e l IH]; intros i H; [done|]. cbn.
  apply IH; [intros k a Hin; apply Hl; set_solver|]. destruct e; cbn.
  - by apply inv_pull.
  - by apply inv_resume.
  - apply input_settled; [done|]. apply Hl. set_solver.
  - by apply inv_stop.
  - by apply inv_cancel.
Qed.
End content.

(** The read-ahead of a published state delivers the state.  If the transport
    returns only verified bytes, then however pulls, answers, failures, aborts and
    cancellations interleave: what the consumer has received is a prefix of the
    state, all of it when the stream closes by itself, and an errored stream reports
    the first failure; the [k]-th read asks for the [k]-th range of 256 KiB; at most
    four reads are under way and at most sixteen ranges wait; and a [pull] that waits
    waits for a read, the one of the next range unless the input has been stopped. *)
Theorem state_input_delivers (content : bytes) (l : list event) :
  (∀ k a, Settled k a ∈ l → genuine content k a) →
  let i := run l (byteLength content) in
  concat (i_output i) = take (length (concat (i_output i))) content ∧
  (i_stream i = Closed → i_stopped i = None → concat (i_output i) = content) ∧
  (∀ e, i_stream i = Errored e → i_stopped i = Some e) ∧
  (∀ k q, i_requests i !! k = Some q →
     q_start q = Z.of_nat k * RANGE ∧ q_start q + q_count q = Z.min (byteLength content) (Z.of_nat (S k) * RANGE)) ∧
  flying (i_requests i) ≤ 4 ∧ (length (i_pending i) ≤ 16)%nat ∧
  (i_requests i ≠ [] → i_stopped i = None →
     flying (i_requests i) = 4 ∨ length (i_pending i) = 16%nat ∨ i_next i = byteLength content) ∧
  (∀ p, i_pull i = Some p → ∃ k q, p = Some k ∧ i_requests i !! k = Some q ∧
     (i_stopped i = None → q_start q = Z.of_nat (length (concat (i_output i))))).
Proof.
  intros Hl. cbv zeta. destruct (inv_run content l Hl) as [H HF]. generalize dependent (run l (byteLength content)).
  intros i H HF. pose proof (reach_bounds content (length (i_output i))) as HB. rewrite <- (so_offset _ _ H) in HB.
  assert (HL : Z.of_nat (length (concat (i_output i))) = i_offset i).
  { rewrite (so_output _ _ H), length_take. unfold byteLength in HB. lia. }
  split_and!.
  - rewrite (so_output _ _ H) at 1. f_equal. lia.
  - intros EC ES. destruct (so_closed _ _ H EC ES) as [EO _]. rewrite (so_output _ _ H), EO. apply take_ge.
    unfold byteLength. lia.
  - apply (so_errored _ _ H).
  - intros k q Hq. by destruct (so_requests _ _ H k q Hq).
  - rewrite <- (so_active _ _ H). apply (so_four _ _ H).
  - apply (so_sixteen _ _ H).
  - intros Hne ES. rewrite <- (so_active _ _ H). by apply HF.
  - intros p Hp. destruct (so_pull _ _ H p Hp) as (k & -> & Hk & HN).
    destruct (lookup_lt_is_Some_2 _ _ Hk) as [q Hq]. exists k, q. split_and!; [done|done|].
    intros ES. destruct (HN ES) as [Ek HO]. destruct (so_requests _ _ H k q Hq) as [R1 _ R3 _].
    rewrite R1, HL, (so_offset _ _ H), Ek. unfold reach. rewrite <- Ek. unfold range_start in *. lia.
Qed.

(** A state of four bytes, delivered and closed. *)
Definition sample_events : list event := [Pull; Settled 0 (Bytes [1; 2; 3; 4]); Resume; Pull].
Lemma state_input_delivers_witness :
  let i := run sample_events (byteLength [1; 2; 3; 4]) in
  i_stream i = Closed ∧ concat (i_output i) = [1; 2; 3; 4] ∧ flying (i_requests i) ≤ 4.
Proof.
  assert (HG : ∀ k a, Settled k a ∈ sample_events → genuine [1; 2; 3; 4] k a).
  { intros k a Hin. unfold sample_events in Hin. repeat (apply elem_of_cons in Hin as [Hin|Hin]; [try discriminate|]);
      [|by apply elem_of_nil in Hin]. injection Hin as -> ->. intros data [= <-] _. reflexivity. }
  pose proof (state_input_delivers [1; 2; 3; 4] sample_events HG) as (_ & HC & _ & _ & H4 & _).
  cbv zeta. split; [vm_compute; reflexivity|]. split; [apply HC; vm_compute; reflexivity|exact H4].
Defined.

End StateInput.
