(* ===== verification/TorrentRemote.v ===== *)
(** * The publication client (src/src/disk/web/torrent-remote.js: RemotePublication)

    A [RemotePublication] reads a published disk through the torrent bridge: it
    verifies and caches the torrents' metadata, reads ranges, chooses what is
    downloaded ahead and owns the startup prefetch of a state.  [stateInput] is
    StateInput.v, the prefetch job StartupPrefetch.v.

    The methods are written in a state and error monad.  Every awaited call is a
    [call]; the parameter [env] answers it from the calls made so far, and says what
    else happened meanwhile: progress messages, steps of the startup job and of its
    own runs of [metadataFor], [torrent] and [profiles], a conflict of records or
    the closing of the publication.  [sha1] is the browser's digest and [parse_json] is
    [JSON.parse] after a fatal UTF-8 decoding. *)
From S2P Require Import Prelude JsValue Metadata LoadProfiles RangePrefetch StartupPrefetch.
#[local] Open Scope Z_scope.

Module TorrentRemote.

(** ** Data *)
Record publication := Publication {
  pub_disk : string; pub_state : option string; pub_profile : option string
}.

Inductive call :=
| CacheGet (hash : string) | CachePut (hash : string) (metadata : bytes)   (** [metadataCache] *)
| IoMetadata (hash : string) (kind : component) (startup : bool)
| IoOpen (hash : string) (kind : component) (metadata : bytes) (startup : bool)
| IoRead (hash : string) (offset length : Z) (recover : bool)
| IoBackground (hash : string) (enabled : bool)
| IoStopPrefetch (hash : string)
| IoPrefetch (hash : string) (ranges : list (Z * Z))
| IoClear
| IoCancel                                (** a notification *)
| IoClose.
Definition answer (c : call) : Type :=
  match c with
  | CacheGet _ => option bytes
  | IoMetadata _ _ _ => option bytes      (** [None]: not a byte array *)
  | IoRead _ _ _ _ => bytes
  | _ => unit
  end.

Inductive happening :=
| HProgress (value : jsval)
| HJob (id : Z) (e : event)
| HMetadata (hash : string) (kind : component) (document : option bytes)
| HOpened (hash : string)
| HForgotten (hash : string)              (** [opened.delete(hash)] of the job's [recover] *)
| HProfiles (units : Z) (value : jsval)
| HConflict (e : exn)
| HClose.

(** What is downloaded ahead. *)
Record plan := Plan { pl_scope : string; pl_origin : jsval; pl_logicalSize : Z }.

(** The startup jobs; a job's [id] is the session's name and its number. *)
Record jobs := Jobs {
  jb_jobs : list (Z * (config * job));
  jb_current : option Z;                  (** [startupJob] *)
  jb_serial : Z;
  jb_recovery : bool
}.

Record remote := Remote {
  r_session : string;
  r_pub : publication;
  r_size : Z;
  r_metadata : gmap string metadata;
  r_opened : gset string;
  r_network : list (string * jsval);
  r_plan : plan;
  r_trace : list jsval;
  r_rangeRequests : Z;
  r_closed : bool;
  r_jobs : jobs;
  r_discoveryError : option exn;
  r_profileCache : option (Z * list jsval);
  r_log : list call
}.
Definition new_remote (session : string) (p : publication) (size : Z) (scope : string) : remote :=
  Remote session p size ∅ ∅ [] (Plan scope JUndefined 0) [] 0 false (Jobs [] None 0 false) None None [].

Definition with_metadata (m : gmap string metadata) (r : remote) : remote :=
  Remote (r_session r) (r_pub r) (r_size r) m (r_opened r) (r_network r) (r_plan r) (r_trace r) (r_rangeRequests r)
    (r_closed r) (r_jobs r) (r_discoveryError r) (r_profileCache r) (r_log r).
Definition with_opened (o : gset string) (r : remote) : remote :=
  Remote (r_session r) (r_pub r) (r_size r) (r_metadata r) o (r_network r) (r_plan r) (r_trace r) (r_rangeRequests r)
    (r_closed r) (r_jobs r) (r_discoveryError r) (r_profileCache r) (r_log r).
Definition with_network (n : list (string * jsval)) (r : remote) : remote :=
  Remote (r_session r) (r_pub r) (r_size r) (r_metadata r) (r_opened r) n (r_plan r) (r_trace r) (r_rangeRequests r)
    (r_closed r) (r_jobs r) (r_discoveryError r) (r_profileCache r) (r_log r).
Definition with_plan (p : plan) (r : remote) : remote :=
  Remote (r_session r) (r_pub r) (r_size r) (r_metadata r) (r_opened r) (r_network r) p (r_trace r) (r_rangeRequests r)
    (r_closed r) (r_jobs r) (r_discoveryError r) (r_profileCache r) (r_log r).
Definition with_trace (t : list jsval) (n : Z) (r : remote) : remote :=
  Remote (r_session r) (r_pub r) (r_size r) (r_metadata r) (r_opened r) (r_network r) (r_plan r) t n
    (r_closed r) (r_jobs r) (r_discoveryError r) (r_profileCache r) (r_log r).
Definition with_closed (b : bool) (e : option exn) (r : remote) : remote :=
  Remote (r_session r) (r_pub r) (r_size r) (r_metadata r) (r_opened r) (r_network r) (r_plan r) (r_trace r)
    (r_rangeRequests r) b (r_jobs r) e (r_profileCache r) (r_log r).
Definition with_jobs (j : jobs) (r : remote) : remote :=
  Remote (r_session r) (r_pub r) (r_size r) (r_metadata r) (r_opened r) (r_network r) (r_plan r) (r_trace r)
    (r_rangeRequests r) (r_closed r) j (r_discoveryError r) (r_profileCache r) (r_log r).
Definition with_cache (c : option (Z * list jsval)) (r : remote) : remote :=
  Remote (r_session r) (r_pub r) (r_size r) (r_metadata r) (r_opened r) (r_network r) (r_plan r) (r_trace r)
    (r_rangeRequests r) (r_closed r) (r_jobs r) (r_discoveryError r) c (r_log r).
Definition with_log (l : list call) (r : remote) : remote :=
  Remote (r_session r) (r_pub r) (r_size r) (r_metadata r) (r_opened r) (r_network r) (r_plan r) (r_trace r)
    (r_rangeRequests r) (r_closed r) (r_jobs r) (r_discoveryError r) (r_profileCache r) l.
Definition with_scope (s : string) (r : remote) : remote :=
  with_plan (Plan s (pl_origin (r_plan r)) (pl_logicalSize (r_plan r))) r.

(** ** The startup job *)

(** A step of the job [id]; when it settles, [onOutcome] runs. *)
Definition job_step (id : Z) (e : event) (r : remote) : remote :=
  match map_get id (jb_jobs (r_jobs r)) with
  | None => r
  | Some (cfg, j) =>
      let j' := step cfg j e in
      let js := r_jobs r in
      let r := with_jobs (Jobs (map_set id (cfg, j') (jb_jobs js)) (jb_current js) (jb_serial js) (jb_recovery js)) r in
      if negb (j_settled j) && j_settled j' && bool_decide (jb_current js = Some id) && negb (r_closed r) then
        with_scope match j_outcome j' with
                   | Some (Outcome kind _ _) => if String.eqb kind "complete" then "profile"%string else "none"%string
                   | None => "none"%string
                   end r
      else r
  end.

(** [discardStartupPrefetch(id=this.startupJob?.id)]; [cancel()] of the job gives
    [CANCELLED]. *)
Definition discardStartupPrefetch (id : option Z) (r : remote) : remote :=
  match (match id with Some id => Some id | None => jb_current (r_jobs r) end) with
  | Some id => job_step id (ECancel "CANCELLED") r
  | None => r
  end.

(** [Map.set] on [network]. *)
Fixpoint network_set (k : string) (v : jsval) (l : list (string * jsval)) : list (string * jsval) :=
  match l with
  | [] => [(k, v)]
  | (k', v') :: l => if String.eqb k' k then (k, v) :: l else (k', v') :: network_set k v l
  end.

(** [progress(value)]; a reported [infoHash] is a string. *)
Definition progress (value : jsval) (r : remote) : remote :=
  let r := match get value "infoHash" with
           | JStr hash => if String.eqb hash "" then r else with_network (network_set hash value (r_network r)) r
           | _ => r
           end in
  match jb_current (r_jobs r) with
  | Some id => job_step id (EProgress value) r
  | None => r
  end.

(** [cancel()] and [close()] up to its first [await]. *)
Definition cancel_jobs (r : remote) : remote :=
  foldl (λ r p, job_step p.1 (ECancel "CANCELLED") r) r (jb_jobs (r_jobs r)).

(** The profiles of a validated document, and what [profiles] still checks. *)
Definition is_state (p : jsval) : bool := is_str (get (get p "origin") "kind") "state".
Definition check_published (p : publication) (value : jsval) (units : Z) : result (list jsval) :=
  value ← validateLoadProfiles value (JStr (pub_disk p)) units;
  let l := default [] (as_array value) in
  match pub_state p with
  | None => if existsb is_state l then throw "INVALID_PROFILE" "State load profile has no published state" else Ok l
  | Some _ => Ok l
  end.

Section remote.
Context (sha1 : bytes → bytes).
Context (parse_json : bytes → option jsval).
Context (env : list call → ∀ c : call, result (answer c) * list happening).

Definition happen (r : remote) (h : happening) : remote :=
  match h with
  | HProgress value => progress value r
  | HJob id e => job_step id e r
  | HMetadata hash kind document =>
      match verifyMetadata sha1 document hash (Some kind) with
      | Ok m => with_metadata (<[hash := m]> (r_metadata r)) r
      | Throw _ => r
      end
  | HOpened hash => with_opened ({[hash]} ∪ r_opened r) r
  | HForgotten hash => with_opened (r_opened r ∖ {[hash]}) r
  | HProfiles units value =>
      match check_published (r_pub r) value units with
      | Ok l => with_cache (Some (units, l)) r
      | Throw _ => r
      end
  | HConflict e => if r_closed r then r else with_closed false (Some e) r
  | HClose => cancel_jobs (with_closed true (r_discoveryError r) r)
  end.

(** ** The monad *)
Definition M (A : Type) : Type := remote → remote * result A.
#[local] Instance M_ret : MRet M := λ A a r, (r, Ok a).
#[local] Instance M_bind : MBind M := λ A B f m r,
  match m r with (r, Ok a) => f a r | (r, Throw e) => (r, Throw e) end.
Definition getr : M remote := λ r, (r, Ok r).
Definition modify (f : remote → remote) : M unit := λ r, (f r, Ok tt).
Definition lift {A} (x : result A) : M A := λ r, (r, x).
Definition fail {A} (code message : string) : M A := lift (throw code message).
Definition catch {A} (m : M A) (h : exn → M A) : M A := λ r,
  match m r with (r, Throw e) => h e r | x => x end.

Definition invoke (c : call) : M (answer c) := λ r,
  let '(x, hs) := env (r_log r) c in
  (foldl happen (with_log (r_log r ++ [c]) r) hs, x).
Definition notify (c : call) : M unit := modify (λ r, with_log (r_log r ++ [c]) r).

(** ** Metadata and reads *)
Definition metadataFor (hash : string) (kind : component) (startup : bool) : M metadata :=
  r ← getr;
  match r_metadata r !! hash with
  | Some m => mret m
  | None =>
      invoke (CacheGet hash) ≫= λ cached : option bytes,
      match cached ≫= (λ c, match verifyMetadata sha1 (Some c) hash (Some kind) with Ok m => Some m | Throw _ => None end) with
      | Some m => modify (λ r, with_metadata (<[hash := m]> (r_metadata r)) r) ;; mret m
      | None =>
          invoke (IoMetadata hash kind startup) ≫= λ data : option bytes,
          m ← lift (verifyMetadata sha1 data hash (Some kind));
          invoke (CachePut hash (m_metadata m)) ;;
          modify (λ r, with_metadata (<[hash := m]> (r_metadata r)) r) ;;
          mret m
      end
  end.

Definition torrent (hash : string) (kind : component) (startup : bool) : M metadata :=
  m ← metadataFor hash kind startup;
  r ← getr;
  (if decide (hash ∈ r_opened r) then mret tt
   else invoke (IoOpen hash kind (m_metadata m) startup) ;; modify (λ r, with_opened ({[hash]} ∪ r_opened r) r)) ;;
  mret m.

Definition read_bytes (hash : string) (offset length : Z) : M bytes :=
  r ← getr;
  match r_discoveryError r with
  | Some e => lift (Throw e)
  | None =>
      if r_closed r then fail "CANCELLED" "Publication is closed"
      else
        modify (with_trace (r_trace r) (r_rangeRequests r + 1)) ;;
        invoke (IoRead hash offset length (jb_recovery (r_jobs r) && String.eqb hash (pub_disk (r_pub r))))
  end.
Definition read (offset length : Z) : M bytes := r ← getr; read_bytes (pub_disk (r_pub r)) offset length.

Definition traceEvent (entry : jsval) : M unit :=
  modify (λ r, let t := r_trace r ++ [entry] in
               with_trace (if 2048 <? Z.of_nat (length t) then drop (length t - 2048) t else t) (r_rangeRequests r) r).

(** ** The startup prefetch *)
Definition job_name (r : remote) (n : Z) : string := r_session r +:+ ":startup:" +:+ pretty.pretty n.
Definition startStartupPrefetch (value : jsval) (size : Z) : M Z :=
  options ← lift (startupPrefetchOptions value);
  modify (discardStartupPrefetch None) ;;
  r ← getr;
  let n := jb_serial (r_jobs r) + 1 in
  let hash (o : option string) := match o with Some h => JStr h | None => JNull end in
  let cfg := Config (job_name r n) options size (r_size r) (hash (pub_state (r_pub r))) (hash (pub_profile (r_pub r))) in
  modify (λ r, with_plan (Plan "none" (pl_origin (r_plan r)) size)
                 (with_jobs (Jobs [(n, (cfg, new_job))] (Some n) n true) r)) ;;
  modify (λ r, foldl (λ r p, job_step n (EProgress p.2) r) r (r_network r)) ;;
  mret n.

Definition the_job {A} (id : Z) (m : M A) : M A :=
  r ← getr;
  match map_get id (jb_jobs (r_jobs r)) with
  | Some _ => m
  | None => fail "INVALID_STATE" "Expired startup prefetch"
  end.
Definition validateStartupPrefetch (id : Z) (origin : jsval) : M unit :=
  the_job id (modify (λ r, with_plan (Plan (pl_scope (r_plan r)) origin (pl_logicalSize (r_plan r))) r) ;;
              modify (job_step id (EValidate origin))).
Definition commitStartupPrefetch (id : Z) : M unit := the_job id (modify (job_step id ECommit)).

(** ** What is downloaded ahead *)
Definition cached_profiles (units : Z) (r : remote) : option (list jsval) :=
  match r_profileCache r with
  | Some (u, l) => if u =? units then Some l else None
  | None => None
  end.
Definition profiles (units : Z) (startup : bool) : M (list jsval) :=
  r ← getr;
  match pub_profile (r_pub r) with
  | None => mret []
  | Some hash =>
      match cached_profiles units r with
      | Some l => mret l
      | None =>
          m ← torrent hash Profile startup;
          data ← read_bytes hash 0 (m_size m);
          match parse_json data with
          | None => fail "INVALID_PROFILE" "Invalid published load profiles"
          | Some value =>
              l ← lift (check_published (r_pub r) value units);
              modify (with_cache (Some (units, l))) ;; mret l
          end
      end
  end.

(** The ranges of a validated profile, and the bytes of the disk file they stand for. *)
Definition profile_ranges (p : jsval) : list (Z * Z) :=
  omap (λ s, match s with JArr [JNum (NInt a); JNum (NInt b)] => Some (a, b) | _ => None end)
    (default [] (as_array (get p "ranges"))).
Definition file_range (size : Z) (r : Z * Z) : Z * Z :=
  let begin := 198 + r.1 * (65536 + 62) in
  (begin, Z.min size (198 + (r.2 + 1) * (65536 + 62)) - begin).

Definition find_profile (origin : jsval) (l : list jsval) : option jsval :=
  List.find (λ p, sameOrigin (get p "origin") origin) l.
Definition SCOPES : list string := ["none"; "profile"; "disk"; "auto"]%string.
Definition optional_hint (e : exn) : bool :=
  match exn_code e with
  | Some c => existsb (String.eqb c) ["INVALID_PROFILE"; "PUBLICATION_UNAVAILABLE"; "TRANSPORT_TIMEOUT"]%string
  | None => false
  end.

(** The choice of [auto]. *)
Definition choose (origin : jsval) (units : Z) : M string :=
  scope ← catch (l ← profiles units false;
                 mret (if existsb (λ p, sameOrigin (get p "origin") origin) l then "profile" else "disk")%string)
                (λ e, if optional_hint e then mret "disk"%string else lift (Throw e));
  modify (with_scope scope) ;; mret scope.

Definition setLoadPrefetch (origin : jsval) (scope : string) (size : Z) : M unit :=
  if negb (existsb (String.eqb scope) SCOPES) then fail "INVALID_PROFILE" "Invalid load prefetch scope"
  else
    r ← getr;
    let disk := pub_disk (r_pub r) in
    modify (discardStartupPrefetch None) ;;
    modify (with_plan (Plan scope origin size)) ;;
    invoke (IoBackground disk false) ;;
    invoke (IoStopPrefetch disk) ;;
    if String.eqb scope "none" then mret tt
    else
      let units := ceil_div size 65536 in
      scope ← (if String.eqb scope "auto" then choose origin units else mret scope);
      (if String.eqb scope "profile" then
         l ← profiles units false;
         match find_profile origin l with
         | None => fail "INVALID_PROFILE" "No load profile matches this disk/state"
         | Some p => invoke (IoPrefetch disk (file_range (r_size r) <$> profile_ranges p))
         end
       else mret tt) ;;
      if String.eqb scope "disk" then invoke (IoBackground disk true) else mret tt.

Definition startPrefetch : M unit :=
  r ← getr;
  if String.eqb (pl_scope (r_plan r)) "profile"
  then setLoadPrefetch (pl_origin (r_plan r)) (pl_scope (r_plan r)) (pl_logicalSize (r_plan r))
  else invoke (IoBackground (pub_disk (r_pub r)) (negb (String.eqb (pl_scope (r_plan r)) "none"))).

(** ** The rest *)
Definition cancel : M unit := modify cancel_jobs ;; notify IoCancel.

Definition clearCache : M unit :=
  r ← getr;
  modify (discardStartupPrefetch None) ;;
  invoke IoClear ;;
  modify (with_opened ∅) ;; modify (with_network []) ;;
  torrent (pub_disk (r_pub r)) Disk false ;;
  modify (with_scope "none").

(** The first part of [stateInput]: the size of the state. *)
Definition stateInput : M Z :=
  r ← getr;
  match pub_state (r_pub r) with
  | None => fail "NO_PUBLISHED_STATE" "This publication has no state"
  | Some hash => m ← torrent hash State false; mret (m_size m)
  end.

Definition close : M unit :=
  r ← getr;
  if r_closed r then mret tt
  else
    modify (λ r, with_closed true (r_discoveryError r) r) ;;
    cancel ;;
    catch (invoke IoClose) (λ _, mret tt) ;;
    modify (with_opened ∅) ;; modify (with_metadata ∅).

(** One method call. *)
Inductive op :=
| OpRead (offset length : Z) | OpStartup (value : jsval) (size : Z) | OpValidate (id : Z) (origin : jsval)
| OpCommit (id : Z) | OpDiscard (id : option Z) | OpSetLoadPrefetch (origin : jsval) (scope : string) (size : Z)
| OpStartPrefetch | OpCancel | OpClearCache | OpStateInput | OpClose | OpTrace (entry : jsval)
| OpProgress (value : jsval).
Definition perform (o : op) : M unit :=
  match o with
  | OpRead offset length => read offset length ;; mret tt
  | OpStartup value size => startStartupPrefetch value size ;; mret tt
  | OpValidate id origin => validateStartupPrefetch id origin
  | OpCommit id => commitStartupPrefetch id
  | OpDiscard id => modify (discardStartupPrefetch id)
  | OpSetLoadPrefetch origin scope size => setLoadPrefetch origin scope size
  | OpStartPrefetch => startPrefetch
  | OpCancel => cancel
  | OpClearCache => clearCache
  | OpStateInput => stateInput ;; mret tt
  | OpClose => close
  | OpTrace entry => traceEvent entry
  | OpProgress value => modify (progress value)
  end.
Definition run (l : list op) (r : remote) : remote := foldl (λ r o, (perform o r).1) r l.

End remote.
End TorrentRemote.
