(* ===== verification/TorrentRemoteFacts.v ===== *)
(** * The publication client: facts

    What a publication keeps is always of the right kind, whatever the network and the
    startup job do, and [setLoadPrefetch] does what its scope says. *)
From S2P Require Import Prelude JsValue Hex Bencode Protocol Metadata LoadProfiles RangePrefetch StartupPrefetch StartupPrefetchFacts.
From S2P Require Import TorrentRemote.
#[local] Open Scope Z_scope.
Import TorrentRemote.
#[local] Arguments verifyMetadata : simpl never.
#[local] Arguments job_step : simpl never.
#[local] Arguments check_published : simpl never.

(** ** The startup job *)
Lemma settled_step cfg j e : j_settled j = true → j_settled (step cfg j e) = true.
Proof. intros H. by destruct (gr_settled _ _ (step_grows cfg j e) H). Qed.

Lemma cancel_settles cfg j reason : j_settled (step cfg j (ECancel reason)) = true.
Proof. destruct j as [ph]. cbn. destruct ph; cbn; unfold fallback, finish; cbn; by case_match. Qed.

(** The jobs are the current one alone. *)
Definition jobs_ok (js : jobs) : Prop :=
  match jb_current js with
  | Some id => ∃ c j, jb_jobs js = [(id, (c, j))]
  | None => jb_jobs js = []
  end.
(** The current job, if any, has settled. *)
Definition quiet (r : remote) : Prop := ∀ id c j, (id, (c, j)) ∈ jb_jobs (r_jobs r) → j_settled j = true.

(** What a step of a job leaves alone; [scope] says whether the scope is among it. *)
Record job_frame (r r' : remote) : Prop := {
  jf_pub : r_pub r' = r_pub r;
  jf_size : r_size r' = r_size r;
  jf_metadata : r_metadata r' = r_metadata r;
  jf_opened : r_opened r' = r_opened r;
  jf_network : r_network r' = r_network r;
  jf_trace : r_trace r' = r_trace r;
  jf_cache : r_profileCache r' = r_profileCache r;
  jf_log : r_log r' = r_log r;
  jf_closed : r_closed r' = r_closed r;
  jf_jobs : jobs_ok (r_jobs r) → jobs_ok (r_jobs r');
  jf_scope : pl_scope (r_plan r) ∈ SCOPES → pl_scope (r_plan r') ∈ SCOPES;
  jf_quiet : quiet r → quiet r' ∧ r_plan r' = r_plan r
}.
#[export] Instance job_frame_refl : Reflexive job_frame.
Proof. intros r. by split. Qed.
#[export] Instance job_frame_trans : Transitive job_frame.
Proof.
  intros r1 r2 r3 [] []. split; try congruence; auto.
  intros H. destruct jf_quiet0 as [Q E]; [done|]. destruct jf_quiet1 as [Q' E']; [done|]. split; [done|congruence].
Qed.

Lemma map_set_single {V} k (v v' : V) : map_set k v' [(k, v)] = [(k, v')].
Proof. unfold map_set. cbn. by rewrite Z.eqb_refl; cbn; rewrite ?Z.eqb_refl. Qed.

Lemma job_step_frame id e r : job_frame r (job_step id e r).
Proof.
  unfold job_step. destruct (map_get id (jb_jobs (r_jobs r))) as [[cfg j]|] eqn:E; [|reflexivity].
  pose proof (map_get_elem _ _ _ E) as Hin.
  assert (HJ : jobs_ok (r_jobs r) → jobs_ok (Jobs (map_set id (cfg, step cfg j e) (jb_jobs (r_jobs r))) (jb_current (r_jobs r))
    (jb_serial (r_jobs r)) (jb_recovery (r_jobs r)))).
  { unfold jobs_ok. cbn. destruct (jb_current (r_jobs r)) as [i|]; [|intros EJ; by rewrite EJ in E].
    intros (c & j0 & EJ). rewrite EJ in *. cbn in E. destruct (i =? id) eqn:Ei; [|done]. apply Z.eqb_eq in Ei as ->.
    rewrite map_set_single. eauto. }
  assert (HQ : quiet r → ∀ i c j', (i, (c, j')) ∈ map_set id (cfg, step cfg j e) (jb_jobs (r_jobs r)) → j_settled j' = true).
  { intros HQ i c j' [[= -> -> ->]|Hin']%elem_of_map_set; [|by eapply HQ]. exact (settled_step _ _ _ (HQ _ _ _ Hin)). }
  cbv zeta. destruct (negb (j_settled j) && _ && _ && _) eqn:EB.
  - split; try done.
    + intros _. cbn. destruct (j_outcome (step cfg j e)) as [[k ? ?]|]; [destruct (String.eqb k "complete")|];
        unfold SCOPES; set_solver.
    + intros Hq. specialize (Hq _ _ _ Hin). by rewrite Hq in EB.
  - split; try done. intros Hq. split; [|done]. unfold quiet. cbn. by apply HQ.
Qed.

Lemma discard_frame id r : job_frame r (discardStartupPrefetch id r).
Proof.
  unfold discardStartupPrefetch. destruct id; [apply job_step_frame|].
  destruct (jb_current _); [apply job_step_frame|reflexivity].
Qed.

Lemma discard_quiet r : jobs_ok (r_jobs r) → quiet (discardStartupPrefetch None r).
Proof.
  unfold discardStartupPrefetch, jobs_ok. destruct (jb_current (r_jobs r)) as [id|].
  - intros (c & j & E). unfold job_step. rewrite E. cbn [map_get]. rewrite Z.eqb_refl. cbv zeta.
    assert (HQ : ∀ i c' j', (i, (c', j')) ∈ map_set id (c, step c j (ECancel "CANCELLED")) [(id, (c, j))] → j_settled j' = true).
    { rewrite map_set_single. intros i c' j' Hin%list_elem_of_singleton. injection Hin as -> -> ->. apply (cancel_settles c). }
    by destruct (_ && _ && _ && _).
  - intros E i c j Hin. rewrite E in Hin. by apply elem_of_nil in Hin.
Qed.

Lemma cancel_jobs_frame r : job_frame r (cancel_jobs r).
Proof.
  unfold cancel_jobs. generalize (jb_jobs (r_jobs r)). intros l. revert r.
  induction l as [|p l IH]; intros r; [reflexivity|]. cbn. etrans; [apply job_step_frame|apply IH].
Qed.

Lemma progress_frame value r :
  job_frame (with_network (r_network (progress value r)) r) (progress value r).
Proof.
  unfold progress. set (r1 := match get value "infoHash" with JStr _ => _ | _ => _ end).
  assert (E1 : r1 = with_network (r_network r1) r).
  { subst r1. destruct r. cbn. destruct (get value "infoHash"); try done. by destruct (String.eqb s ""). }
  assert (HF : job_frame r1 (match jb_current (r_jobs r1) with Some id => job_step id (EProgress value) r1 | None => r1 end)).
  { destruct (jb_current _); [apply job_step_frame|reflexivity]. }
  rewrite (jf_network _ _ HF), <- E1. exact HF.
Qed.

(** ** Everything kept is of its kind *)
Section typed.
Context (sha1 : bytes → bytes) (parse_json : bytes → option jsval).
Context (env : list call → ∀ c : call, result (answer c) * list happening).
Context (pub : publication) (size : Z).

Definition verified (hash : string) (m : metadata) : Prop :=
  ∃ input kind, verifyMetadata sha1 input hash (Some kind) = Ok m.
Definition published (units : Z) (l : list jsval) : Prop := ∃ value, check_published pub value units = Ok l.

Definition call_ok (c : call) : Prop :=
  match c with
  | CachePut hash md | IoOpen hash _ md _ => ∃ m, verified hash m ∧ m_metadata m = md
  | IoPrefetch hash ranges => hash = pub_disk pub ∧ ∃ units l p, published units l ∧ p ∈ l ∧
      ranges = file_range size <$> profile_ranges p
  | _ => True
  end.

Record typed (r : remote) : Prop := {
  ty_pub : r_pub r = pub;
  ty_size : r_size r = size;
  ty_metadata : ∀ hash m, r_metadata r !! hash = Some m → verified hash m;
  ty_profiles : ∀ units l, r_profileCache r = Some (units, l) → published units l;
  ty_trace : (length (r_trace r) ≤ 2048)%nat;
  ty_jobs : jobs_ok (r_jobs r);
  ty_scope : pl_scope (r_plan r) ∈ SCOPES;
  ty_log : Forall call_ok (r_log r)
}.

Lemma typed_frame r r' : typed r → job_frame r r' → typed r'.
Proof using Type.
  intros [] []. split; try congruence; auto; intros.
  - apply ty_metadata0. congruence.
  - apply ty_profiles0. congruence.
Qed.

Lemma typed_metadata hash m r : typed r → verified hash m → typed (with_metadata (<[hash := m]> (r_metadata r)) r).
Proof using Type.
  intros [] H. split; cbn; try done. intros h m' [[-> ->]|[_ ?]]%lookup_insert_Some; eauto.
Qed.
Lemma typed_network n r : typed r → typed (with_network n r).
Proof using Type. intros []. by split. Qed.
Lemma typed_opened o r : typed r → typed (with_opened o r).
Proof using Type. intros []. by split. Qed.
Lemma typed_closed b e r : typed r → typed (with_closed b e r).
Proof using Type. intros []. by split. Qed.
Lemma typed_cache units l r : typed r → published units l → typed (with_cache (Some (units, l)) r).
Proof using Type. intros [] H. split; cbn; try done. by intros u l' [= <- <-]. Qed.
Lemma typed_progress value r : typed r → typed (progress value r).
Proof using Type.
  intros H. exact (typed_frame _ _ (typed_network _ _ H) (progress_frame value r)).
Qed.

Lemma typed_happen r h : typed r → typed (happen sha1 r h).
Proof using Type.
  intros H. destruct h; cbn [happen].
  - by apply typed_progress.
  - exact (typed_frame _ _ H (job_step_frame _ _ _)).
  - destruct (verifyMetadata sha1 document hash (Some kind)) eqn:E; [|done].
    apply typed_metadata; [done|]. by exists document, kind.
  - by apply typed_opened.
  - by apply typed_opened.
  - destruct (check_published (r_pub r) value units) eqn:E; [|done]. apply typed_cache; [done|].
    rewrite (ty_pub _ H) in E. by exists value.
  - destruct (r_closed r); [done|]. by apply typed_closed.
  - exact (typed_frame _ _ (typed_closed _ _ _ H) (cancel_jobs_frame _)).
Qed.

(** ** Rules for the monad *)
#[local] Existing Instance M_ret.
#[local] Existing Instance M_bind.

Definition keeps {A} (m : M A) (Q : A → Prop) : Prop :=
  ∀ r, typed r → typed (m r).1 ∧ ∀ a, (m r).2 = Ok a → Q a.

Lemma keeps_mono {A} (m : M A) (Q Q' : A → Prop) : keeps m Q → (∀ a, Q a → Q' a) → keeps m Q'.
Proof using Type. intros H HQ r Hr. destruct (H r Hr). split; auto. Qed.
Lemma keeps_ret {A} (a : A) (Q : A → Prop) : Q a → keeps (mret a) Q.
Proof using Type. intros H r Hr. split; [done|]. by intros ? [= <-]. Qed.
Lemma keeps_lift {A} (x : result A) (Q : A → Prop) : (∀ a, x = Ok a → Q a) → keeps (lift x) Q.
Proof using Type. intros H r Hr. split; [done|]. apply H. Qed.
Lemma keeps_fail {A} c msg (Q : A → Prop) : keeps (fail c msg) Q.
Proof using Type. by apply keeps_lift. Qed.
Lemma keeps_bind {A B} (m : M A) (f : A → M B) (P : A → Prop) (Q : B → Prop) :
  keeps m P → (∀ a, P a → keeps (f a) Q) → keeps (m ≫= f) Q.
Proof using Type.
  intros Hm Hf r Hr. unfold mbind, M_bind. destruct (Hm r Hr) as [Hr' HP]. destruct (m r) as [r' [a|e]]; cbn in *.
  - by apply Hf; [apply HP|].
  - split; [done|]. by intros a.
Qed.
Lemma keeps_getr (Q : remote → Prop) : (∀ r, typed r → Q r) → keeps getr Q.
Proof using Type. intros H r Hr. split; [done|]. intros a [= <-]. auto. Qed.
Lemma keeps_modify f (Q : unit → Prop) : (∀ r, typed r → typed (f r)) → Q tt → keeps (modify f) Q.
Proof using Type. intros H HQ r Hr. split; [by apply H|]. by intros [] _. Qed.
Lemma keeps_catch {A} (m : M A) h (Q : A → Prop) : keeps m Q → (∀ e, keeps (h e) Q) → keeps (catch m h) Q.
Proof using Type.
  intros Hm Hh r Hr. unfold catch. destruct (Hm r Hr) as [Hr' HP]. destruct (m r) as [r' [a|e]]; cbn in *.
  - split; [done|]. intros a' [= <-]. by apply HP.
  - by apply Hh.
Qed.

Lemma typed_log c r : typed r → call_ok c → typed (with_log (r_log r ++ [c]) r).
Proof using Type. intros [] H. split; cbn; try done. apply Forall_app. by split; [|constructor]. Qed.
Lemma typed_happens hs r : typed r → typed (foldl (happen sha1) r hs).
Proof using Type. revert r. induction hs as [|h hs IH]; intros r Hr; [done|]. cbn. by apply IH, typed_happen. Qed.

Lemma keeps_invoke c (Q : answer c → Prop) : call_ok c → (∀ a, Q a) → keeps (invoke sha1 env c) Q.
Proof using Type.
  intros Hc HQ r Hr. unfold invoke. destruct (env (r_log r) c) as [x hs]. cbn. split; [|auto].
  by apply typed_happens, typed_log.
Qed.

Lemma keeps_notify c : call_ok c → keeps (notify c) (λ _, True).
Proof using Type. intros Hc. apply keeps_modify; [|done]. intros r Hr. by apply typed_log. Qed.

(** ** The methods *)
Ltac keep :=
  repeat match goal with
  | |- keeps (mret _) _ => apply keeps_ret; try done
  | |- keeps (fail _ _) _ => apply keeps_fail
  | |- keeps (mbind _ getr) _ => apply keeps_bind with (P := typed); [by apply keeps_getr|intros ? ?]
  | |- keeps (if ?b then _ else _) _ => destruct b
  end.

Lemma keeps_metadataFor hash kind startup :
  keeps (metadataFor sha1 env hash kind startup) (verified hash).
Proof using Type.
  unfold metadataFor. keep. destruct (r_metadata a !! hash) as [m|] eqn:E.
  { apply keeps_ret. eapply ty_metadata; eauto. }
  apply keeps_bind with (P := λ _, True); [by apply (keeps_invoke (CacheGet hash))|]. intros cached _.
  destruct (cached ≫= _) as [m|] eqn:EC.
  - destruct cached as [c|]; [|done]. cbn in EC.
    destruct (verifyMetadata sha1 (Some c) hash (Some kind)) eqn:EV; [|done]. injection EC as ->.
    assert (HV : verified hash m) by (by exists (Some c), kind).
    apply keeps_bind with (P := λ _, True); [|intros _ _; by apply keeps_ret].
    apply keeps_modify; [|done]. intros r Hr. by apply typed_metadata.
  - apply keeps_bind with (P := λ _, True); [by apply (keeps_invoke (IoMetadata hash kind startup))|]. intros data _.
    apply keeps_bind with (P := verified hash); [apply keeps_lift; intros m Hm; by exists data, kind|]. intros m HV.
    apply keeps_bind with (P := λ _, True); [apply (keeps_invoke (CachePut hash (m_metadata m))); [by exists m|done]|].
    intros _ _. apply keeps_bind with (P := λ _, True); [|intros _ _; by apply keeps_ret].
    apply keeps_modify; [|done]. intros r Hr. by apply typed_metadata.
Qed.

Lemma keeps_torrent hash kind startup : keeps (torrent sha1 env hash kind startup) (verified hash).
Proof using Type.
  unfold torrent. apply keeps_bind with (P := verified hash); [apply keeps_metadataFor|]. intros m HV. keep.
  apply keeps_bind with (P := λ _, True); [|intros _ _; by apply keeps_ret].
  destruct (decide _); [by apply keeps_ret|].
  apply keeps_bind with (P := λ _, True);
    [apply (keeps_invoke (IoOpen hash kind (m_metadata m) startup)); [by exists m|done]|intros _ _].
  apply keeps_modify; [|done]. intros r Hr. by apply typed_opened.
Qed.

Lemma keeps_read_bytes hash offset len : keeps (read_bytes sha1 env hash offset len) (λ _, True).
Proof using Type.
  unfold read_bytes. keep. destruct (r_discoveryError a); [by apply keeps_lift|]. destruct (r_closed a); [apply keeps_fail|].
  apply keeps_bind with (P := λ _, True); [|intros _ _; by apply (keeps_invoke (IoRead _ _ _ _))].
  apply keeps_modify; [|done]. intros r []. split; cbn; try done. by apply (ty_trace a).
Qed.

Lemma keeps_profiles units startup :
  keeps (profiles sha1 parse_json env units startup) (λ l, l = [] ∨ published units l).
Proof using Type.
  unfold profiles. keep. destruct (pub_profile (r_pub a)) as [hash|]; [|apply keeps_ret; by left].
  unfold cached_profiles. destruct (match r_profileCache a with Some _ => _ | None => _ end) as [l|] eqn:E.
  { apply keeps_ret. right. destruct (r_profileCache a) as [[u l']|] eqn:EC; [|done].
    destruct (u =? units) eqn:EU; [|done]. injection E as ->. apply Z.eqb_eq in EU as ->. eapply ty_profiles; eauto. }
  apply keeps_bind with (P := verified hash); [apply keeps_torrent|]. intros m _.
  apply keeps_bind with (P := λ _, True); [apply keeps_read_bytes|]. intros data _.
  destruct (parse_json data) as [value|]; [|apply keeps_fail].
  apply keeps_bind with (P := published units).
  { apply keeps_lift. intros l Hl. rewrite (ty_pub _ H) in Hl. by exists value. }
  intros l Hl. apply keeps_bind with (P := λ _, True); [|intros _ _; apply keeps_ret; by right].
  apply keeps_modify; [|done]. intros r Hr. by apply typed_cache.
Qed.

Lemma keeps_plan p : pl_scope p ∈ SCOPES → keeps (modify (with_plan p)) (λ _, True).
Proof using Type. intros Hp. apply keeps_modify; [|done]. intros r []. by split. Qed.
Lemma keeps_scope s : s ∈ SCOPES → keeps (modify (with_scope s)) (λ _, True).
Proof using Type. intros Hp. apply keeps_modify; [|done]. intros r []. by split. Qed.
Lemma keeps_frame f : (∀ r, job_frame r (f r)) → keeps (modify f) (λ _, True).
Proof using Type. intros Hf. apply keeps_modify; [|done]. intros r Hr. by eapply typed_frame. Qed.

Lemma keeps_choose origin units : keeps (choose sha1 parse_json env origin units) (λ s, s ∈ ["profile"; "disk"]%string).
Proof using Type.
  unfold choose. apply keeps_bind with (P := λ s, s ∈ ["profile"; "disk"]%string).
  - apply keeps_catch.
    + apply keeps_bind with (P := λ _, True); [eapply keeps_mono; [apply keeps_profiles|done]|].
      intros l _. apply keeps_ret. destruct (existsb _ l); set_solver.
    + intros e. destruct (optional_hint e); [apply keeps_ret; set_solver|by apply keeps_lift].
  - intros s Hs. apply keeps_bind with (P := λ _, True); [|intros _ _; by apply keeps_ret].
    apply keeps_scope. unfold SCOPES. set_solver.
Qed.

Lemma find_profile_in origin l p : find_profile origin l = Some p → p ∈ l.
Proof using Type. intros [H _]%List.find_some. by apply list_elem_of_In. Qed.

Lemma keeps_setLoadPrefetch origin scope n : keeps (setLoadPrefetch sha1 parse_json env origin scope n) (λ _, True).
Proof using Type.
  unfold setLoadPrefetch. destruct (negb _) eqn:ES; [apply keeps_fail|]. keep. cbv zeta.
  assert (HS : scope ∈ SCOPES).
  { apply negb_false_iff, existsb_exists in ES as (x & Hx & ->%String.eqb_eq). by apply list_elem_of_In. }
  apply keeps_bind with (P := λ _, True); [apply keeps_frame; intros; apply discard_frame|intros _ _].
  apply keeps_bind with (P := λ _, True); [by apply keeps_plan|intros _ _].
  apply keeps_bind with (P := λ _, True); [by apply (keeps_invoke (IoBackground _ _))|intros _ _].
  apply keeps_bind with (P := λ _, True); [by apply (keeps_invoke (IoStopPrefetch _))|intros _ _].
  destruct (String.eqb scope "none"); [by apply keeps_ret|].
  apply keeps_bind with (P := λ s, True).
  { destruct (String.eqb scope "auto"); [|by apply keeps_ret]. eapply keeps_mono; [apply keeps_choose|done]. }
  intros s _. apply keeps_bind with (P := λ _, True).
  - destruct (String.eqb s "profile"); [|by apply keeps_ret].
    apply keeps_bind with (P := λ l, l = [] ∨ published (ceil_div n 65536) l); [apply keeps_profiles|].
    intros l Hl. destruct (find_profile origin l) as [p|] eqn:EF; [|apply keeps_fail].
    apply (keeps_invoke (IoPrefetch _ _)); [|done]. cbn. rewrite (ty_pub _ H), (ty_size _ H). split; [done|].
    apply find_profile_in in EF. destruct Hl as [->|Hl]; [by apply elem_of_nil in EF|].
    by exists (ceil_div n 65536), l, p.
  - intros _ _. destruct (String.eqb s "disk"); [by apply (keeps_invoke (IoBackground _ _))|by apply keeps_ret].
Qed.

Lemma jobs_new_frame r n cfg size' :
  typed r → typed (with_plan (Plan "none" (pl_origin (r_plan r)) size') (with_jobs (Jobs [(n, (cfg, new_job))] (Some n) n true) r)).
Proof using Type. intros []. split; cbn; try done; [by eexists _, _|unfold SCOPES; set_solver]. Qed.

Lemma keeps_startup value n : keeps (startStartupPrefetch value n) (λ _, True).
Proof using Type.
  unfold startStartupPrefetch. apply keeps_bind with (P := λ _, True); [by apply keeps_lift|]. intros o _.
  apply keeps_bind with (P := λ _, True); [apply keeps_frame; intros; apply discard_frame|intros _ _]. keep. cbv zeta.
  apply keeps_bind with (P := λ _, True).
  { apply keeps_modify; [|done]. intros r Hr. by apply jobs_new_frame. }
  intros _ _. apply keeps_bind with (P := λ _, True); [|intros _ _; by apply keeps_ret].
  apply keeps_frame. intros r. generalize (r_network r). intros l. revert r.
  induction l as [|q l IH]; intros r; [reflexivity|]. cbn. etrans; [apply job_step_frame|apply IH].
Qed.

Lemma keeps_the_job {A} id (m : M A) : keeps m (λ _, True) → keeps (the_job id m) (λ _, True).
Proof using Type. intros Hm. unfold the_job. by keep. Qed.

Lemma keeps_cancel : keeps cancel (λ _, True).
Proof using Type.
  unfold cancel. apply keeps_bind with (P := λ _, True); [apply keeps_frame; intros; apply cancel_jobs_frame|intros _ _].
  by apply keeps_notify.
Qed.

Lemma keeps_perform o : keeps (perform sha1 parse_json env o) (λ _, True).
Proof using Type.
  destruct o; cbn [perform].
  - unfold read. apply keeps_bind with (P := λ _, True); [|intros _ _; by apply keeps_ret]. keep. apply keeps_read_bytes.
  - apply keeps_bind with (P := λ _, True); [apply keeps_startup|intros _ _; by apply keeps_ret].
  - apply keeps_the_job, keeps_bind with (P := λ _, True).
    + apply keeps_modify; [|done]. intros r []. by split.
    + intros _ _. apply keeps_frame. intros. apply job_step_frame.
  - apply keeps_the_job, keeps_frame. intros. apply job_step_frame.
  - apply keeps_frame. intros. apply discard_frame.
  - apply keeps_setLoadPrefetch.
  - unfold startPrefetch. keep; [apply keeps_setLoadPrefetch|]. by apply (keeps_invoke (IoBackground _ _)).
  - apply keeps_cancel.
  - unfold clearCache. keep.
    apply keeps_bind with (P := λ _, True); [apply keeps_frame; intros; apply discard_frame|intros _ _].
    apply keeps_bind with (P := λ _, True); [by apply (keeps_invoke IoClear)|intros _ _].
    apply keeps_bind with (P := λ _, True); [apply keeps_modify; [intros; by apply typed_opened|done]|intros _ _].
    apply keeps_bind with (P := λ _, True); [apply keeps_modify; [intros; by apply typed_network|done]|intros _ _].
    apply keeps_bind with (P := λ _, True); [eapply keeps_mono; [apply keeps_torrent|done]|intros _ _].
    apply keeps_scope. unfold SCOPES. set_solver.
  - unfold stateInput. apply keeps_bind with (P := λ _, True); [|intros _ _; by apply keeps_ret]. keep.
    destruct (pub_state _) as [hash|]; [|apply keeps_fail].
    apply keeps_bind with (P := λ _, True); [eapply keeps_mono; [apply keeps_torrent|done]|intros m _; by apply keeps_ret].
  - unfold close. keep.
    apply keeps_bind with (P := λ _, True); [apply keeps_modify; [intros; by apply typed_closed|done]|intros _ _].
    apply keeps_bind with (P := λ _, True); [apply keeps_cancel|intros _ _].
    apply keeps_bind with (P := λ _, True).
    { apply keeps_catch; [by apply (keeps_invoke IoClose)|intros e; by apply keeps_ret]. }
    intros _ _. apply keeps_bind with (P := λ _, True); [apply keeps_modify; [intros; by apply typed_opened|done]|intros _ _].
    apply keeps_modify; [|done]. intros r []. by split.
  - unfold traceEvent. apply keeps_modify; [|done]. intros r []. split; cbn; try done.
    destruct (2048 <? Z.of_nat (length (r_trace r ++ [entry]))) eqn:E; [rewrite length_drop; lia|].
    apply Z.ltb_ge in E. lia.
  - apply keeps_modify; [|done]. intros r Hr. by apply typed_progress.
Qed.

Lemma typed_run l r : typed r → typed (run sha1 parse_json env l r).
Proof using Type.
  unfold run. revert r. induction l as [|o l IH]; intros r Hr; [done|]. cbn. apply IH. by apply keeps_perform.
Qed.
End typed.

(** ** What is asked for ahead of time *)

(** The published profile that a request for ranges carries out. *)
Lemma profile_ranges_slots h units p kind slots :
  valid_profile h units p kind slots → profile_ranges p = omap id slots.
Proof.
  intros HV. unfold profile_ranges. rewrite (vp_slots _ _ _ _ _ HV). cbn. clear HV.
  induction slots as [|[[a b]|] l IH]; cbn in *; by rewrite ?IH.
Qed.

Lemma published_valid pub units l p :
  published pub units l → p ∈ l → ∃ kind slots, valid_profile (pub_disk pub) units p kind slots.
Proof.
  intros [value HC] Hp. unfold check_published in HC. pose proof (validateLoadProfiles_iff value (pub_disk pub) units) as HV.
  destruct (validateLoadProfiles value _ units) as [v|]; [|done]. destruct HV as [-> (l' & kinds & -> & _ & HF)].
  assert (l = l') as ->.
  { cbn in HC. destruct (pub_state pub); [by injection HC|]. destruct (existsb is_state l'); [done|by injection HC]. }
  apply list_elem_of_lookup in Hp as [i Hi]. destruct (Forall2_lookup_l _ _ _ _ _ HF Hi) as (k & _ & slots & Hs). eauto.
Qed.

(** The unit ranges of a disk of [units] units of 64 KiB lie in its file when the
    file holds the last of them. *)
Lemma file_range_bounds size units r :
  valid_range units r → 198 + (units - 1) * 65598 < size →
  198 ≤ (file_range size r).1 ∧ 0 < (file_range size r).2 ∧ (file_range size r).1 + (file_range size r).2 ≤ size.
Proof. intros (? & ? & _) Hs. unfold file_range. cbn. lia. Qed.

Lemma file_range_disjoint size r s :
  r.2 < s.1 → (file_range size r).1 + (file_range size r).2 ≤ (file_range size s).1.
Proof. intros H. unfold file_range. cbn. lia. Qed.

Lemma file_ranges_disjoint size l :
  disjoint_ranges l → ForallOrdPairs (λ r s, r.1 + r.2 ≤ s.1 ∨ s.1 + s.2 ≤ r.1) (file_range size <$> l).
Proof.
  unfold disjoint_ranges. induction 1 as [|r l Hr _ IH]; [constructor|]. rewrite fmap_cons. constructor; [|exact IH].
  apply Forall_fmap. eapply Forall_impl; [exact Hr|]. intros s [H|H]; [left|right]; by apply file_range_disjoint.
Qed.

Lemma typed_new session pub size scope :
  scope ∈ ["none"; "disk"]%string → ∀ sha1, typed sha1 pub size (new_remote session pub size scope).
Proof.
  intros HS sha1. split; try done; cbn; try lia. unfold SCOPES. set_solver.
Qed.

(** C28: what a publication keeps and asks for is of its kind.  Whatever the network
    answers, whatever the startup job does meanwhile and whatever methods are called,
    failed ones included: each torrent kept has been verified for its hash; cached
    load profiles are those of a document that the validator accepts for this disk;
    at most 2048 events are traced, one startup job is alive and the scope is one of
    the four; a torrent is opened only with verified metadata; and ranges are fetched
    ahead only for the published disk, only those of an accepted profile, disjoint,
    and inside the file when it holds the units the profile speaks of. *)
Theorem remote_typed sha1 parse_json env session pub size scope l :
  scope ∈ ["none"; "disk"]%string →
  let r := run sha1 parse_json env l (new_remote session pub size scope) in
  (∀ hash m, r_metadata r !! hash = Some m → ∃ input kind, verifyMetadata sha1 input hash (Some kind) = Ok m) ∧
  (∀ units ps, r_profileCache r = Some (units, ps) → ∃ value, check_published pub value units = Ok ps) ∧
  (length (r_trace r) ≤ 2048)%nat ∧ (length (jb_jobs (r_jobs r)) ≤ 1)%nat ∧ pl_scope (r_plan r) ∈ SCOPES ∧
  (∀ hash kind md startup, IoOpen hash kind md startup ∈ r_log r →
     ∃ input k m, verifyMetadata sha1 input hash (Some k) = Ok m ∧ m_metadata m = md) ∧
  (∀ hash ranges, IoPrefetch hash ranges ∈ r_log r → hash = pub_disk pub ∧
     ∃ units p kind slots, valid_profile (pub_disk pub) units p kind slots ∧
       ranges = file_range size <$> omap id slots ∧
       ForallOrdPairs (λ r s, r.1 + r.2 ≤ s.1 ∨ s.1 + s.2 ≤ r.1) ranges ∧
       (198 + (units - 1) * 65598 < size → Forall (λ r, 198 ≤ r.1 ∧ 0 < r.2 ∧ r.1 + r.2 ≤ size) ranges)).
Proof.
  intros HS. cbv zeta. pose proof (typed_run sha1 parse_json env pub size l _ (typed_new session pub size scope HS sha1)) as [].
  generalize dependent (run sha1 parse_json env l (new_remote session pub size scope)). intros r ? ? ? ? ? HJ ? HL.
  rewrite Forall_forall in HL. split_and!; try done.
  - unfold jobs_ok in HJ. destruct (jb_current (r_jobs r)); [destruct HJ as (? & ? & ->)|rewrite HJ]; cbn; lia.
  - intros hash kind md startup Hin. destruct (HL _ Hin) as (m & (input & k & HV) & HE). by exists input, k, m.
  - intros hash ranges Hin. destruct (HL _ Hin) as [-> (units & ps & p & HP & Hp & ->)]. split; [done|].
    destruct (published_valid _ _ _ _ HP Hp) as (kind & slots & HV). exists units, p, kind, slots.
    rewrite (profile_ranges_slots _ _ _ _ _ HV).
    split_and!; [done|done|by apply file_ranges_disjoint, (vp_disjoint _ _ _ _ _ HV)|]. intros Hs. apply Forall_fmap.
    eapply Forall_impl; [exact (vp_bounds _ _ _ _ _ HV)|]. intros s Hr. by apply (file_range_bounds size units).
Qed.

(** A publication of a disk of 70000 bytes and a profile for booting it, with a toy
    hash; [auto] chooses the profile. *)
Definition sample_info (name : string) (size : string) : bytes :=
  ascii_bytes "d6:lengthi" ++ ascii_bytes size ++ ascii_bytes "e4:name" ++ ascii_bytes name ++
  ascii_bytes "12:piece lengthi262144e6:pieces20:" ++ replicate 20 65 ++ ascii_bytes "e".
Definition disk_info : bytes := sample_info "9:disk.my98" "70000".
Definition profile_info : bytes := sample_info "12:profile.json" "10".
Definition disk_hash : string := hex (demo_sha1 disk_info).
Definition profile_hash : string := hex (demo_sha1 profile_info).
Definition sample_pub : publication := Publication disk_hash None (Some profile_hash).
Definition boot : jsval := JObj [("kind"%string, JStr "boot")].
Definition sample_profile : jsval :=
  JObj [("version", JNum (NInt 2)); ("infoHash", JStr disk_hash); ("unitBytes", JNum (NInt 65536)); ("origin", boot);
        ("ranges", JArr (JArr [JNum (NInt 0); JNum (NInt 0)] :: replicate 31 JNull))]%string.
Definition sample_json (data : bytes) : option jsval := Some (JArr [sample_profile]).
Definition sample_env (log : list call) (c : call) : result (answer c) * list happening :=
  match c return result (answer c) * list happening with
  | CacheGet _ => (Ok None, [])
  | IoMetadata hash _ _ =>
      (Ok (Some (rebuild (if String.eqb hash disk_hash then disk_info else profile_info))), [])
  | IoRead _ _ _ _ => (Ok [], [HProgress (JObj [("infoHash"%string, JStr disk_hash)])])
  | IoOpen _ _ _ _ => (Ok tt, []) | CachePut _ _ => (Ok tt, []) | IoBackground _ _ => (Ok tt, [])
  | IoStopPrefetch _ => (Ok tt, []) | IoPrefetch _ _ => (Ok tt, []) | IoClear => (Ok tt, [])
  | IoCancel => (Ok tt, []) | IoClose => (Ok tt, [])
  end.

Lemma remote_typed_witness :
  let r := run demo_sha1 sample_json sample_env [OpSetLoadPrefetch boot "auto" 65536; OpClearCache]
             (new_remote "torrent:1" sample_pub 70000 "disk") in
  IoPrefetch disk_hash [(198, 65598)] ∈ r_log r ∧ is_Some (r_metadata r !! disk_hash) ∧ is_Some (r_profileCache r) ∧
  pl_scope (r_plan r) ∈ SCOPES.
Proof.
  pose proof (remote_typed demo_sha1 sample_json sample_env "torrent:1" sample_pub 70000 "disk"
    [OpSetLoadPrefetch boot "auto" 65536; OpClearCache] ltac:(set_solver)) as (_ & _ & _ & _ & HS & _).
  cbv zeta. split_and!; [|vm_compute; eauto..|exact HS].
  apply (list_elem_of_lookup_2 _ 7%nat). vm_compute. reflexivity.
Defined.
