(* ===== verification/TorrentScope.v ===== *)
(** * The publication client: what [setLoadPrefetch] does

    The scope decides what is downloaded ahead.  Looking up the published profiles may
    call the network many times, but neither these calls nor what happens meanwhile
    moves the scope: the startup job has been cancelled first. *)
From S2P Require Import Prelude JsValue Metadata LoadProfiles RangePrefetch StartupPrefetch StartupPrefetchFacts.
From S2P Require Import TorrentRemote TorrentRemoteFacts.
#[local] Open Scope Z_scope.
Import TorrentRemote.
#[local] Arguments verifyMetadata : simpl never.
#[local] Arguments job_step : simpl never.
#[local] Arguments check_published : simpl never.
#[local] Arguments validateLoadProfiles : simpl never.

(** The calls that look a torrent up and read it. *)
Definition lookup_call (hash : string) (c : call) : Prop :=
  match c with
  | CacheGet h | CachePut h _ | IoMetadata h _ _ | IoOpen h _ _ _ | IoRead h _ _ _ => h = hash
  | _ => False
  end.

(** From [r] to [r'] only calls that satisfy [P] are made, and while the job is quiet
    the plan stays. *)
Record looked (P : call → Prop) (r r' : remote) : Prop := {
  lk_pub : r_pub r' = r_pub r;
  lk_size : r_size r' = r_size r;
  lk_log : ∃ t, r_log r' = r_log r ++ t ∧ Forall P t;
  lk_quiet : quiet r → quiet r' ∧ r_plan r' = r_plan r
}.
#[export] Instance looked_refl P : Reflexive (looked P).
Proof. intros r. split; try done. exists []. by rewrite app_nil_r. Qed.
#[export] Instance looked_trans P : Transitive (looked P).
Proof.
  intros r1 r2 r3 [E1 E2 (t & E3 & HP) HQ] [F1 F2 (t' & F3 & HP') HQ']. split; try congruence.
  - exists (t ++ t'). rewrite F3, E3, app_assoc. split; [done|]. by apply Forall_app.
  - intros Hr. destruct (HQ Hr) as [Q E]. destruct (HQ' Q) as [Q' E']. split; [done|congruence].
Qed.

Lemma looked_frame P r r' : job_frame r r' → looked P r r'.
Proof. intros []. split; try done. exists []. by rewrite app_nil_r. Qed.

Section looks.
Context (sha1 : bytes → bytes) (parse_json : bytes → option jsval).
Context (env : list call → ∀ c : call, result (answer c) * list happening).
Context (pub : publication) (P : call → Prop).
#[local] Existing Instance M_ret.
#[local] Existing Instance M_bind.

Lemma looked_happen r h : looked P r (happen sha1 r h).
Proof using Type.
  destruct h; cbn [happen].
  - etrans; [|apply looked_frame, progress_frame]. split; try done. exists []. by rewrite app_nil_r.
  - apply looked_frame, job_step_frame.
  - destruct (verifyMetadata sha1 document hash (Some kind)); [|reflexivity].
    split; try done. exists []. by rewrite app_nil_r.
  - split; try done. exists []. by rewrite app_nil_r.
  - split; try done. exists []. by rewrite app_nil_r.
  - destruct (check_published (r_pub r) value units); [|reflexivity]. split; try done. exists []. by rewrite app_nil_r.
  - destruct (r_closed r); [reflexivity|]. split; try done. exists []. by rewrite app_nil_r.
  - etrans; [|apply looked_frame, cancel_jobs_frame]. split; try done. exists []. by rewrite app_nil_r.
Qed.

Lemma looked_happens hs r : looked P r (foldl (happen sha1) r hs).
Proof using Type. revert r. induction hs as [|h hs IH]; intros r; [reflexivity|]. cbn. etrans; [apply looked_happen|apply IH]. Qed.

Definition looks {A} (m : M A) : Prop := ∀ r, r_pub r = pub → looked P r (m r).1.

Lemma looks_ret {A} (a : A) : looks (mret a).
Proof using Type. intros r _. reflexivity. Qed.
Lemma looks_lift {A} (x : result A) : looks (lift x).
Proof using Type. intros r _. reflexivity. Qed.
Lemma looks_bind {A B} (m : M A) (f : A → M B) : looks m → (∀ a, looks (f a)) → looks (m ≫= f).
Proof using Type.
  intros Hm Hf r Hr. specialize (Hm r Hr). unfold mbind, M_bind. destruct (m r) as [r' [a|e]]; [|done].
  etrans; [exact Hm|apply Hf]. exact (eq_trans (lk_pub _ _ _ Hm) Hr).
Qed.
Lemma looks_getr {B} (f : remote → M B) : (∀ r, r_pub r = pub → looks (f r)) → looks (getr ≫= f).
Proof using Type. intros Hf r Hr. by apply Hf. Qed.
Lemma looks_catch {A} (m : M A) h : looks m → (∀ e, looks (h e)) → looks (catch m h).
Proof using Type.
  intros Hm Hh r Hr. specialize (Hm r Hr). unfold catch. destruct (m r) as [r' [a|e]]; [done|].
  etrans; [exact Hm|apply Hh]. exact (eq_trans (lk_pub _ _ _ Hm) Hr).
Qed.
Lemma looks_modify f : (∀ r, looked P r (f r)) → looks (modify f).
Proof using Type. intros H r _. apply H. Qed.
Lemma looks_invoke c : P c → looks (invoke sha1 env c).
Proof using Type.
  intros Hc r _. unfold invoke. destruct (env (r_log r) c) as [x hs]. cbn. etrans; [|apply looked_happens].
  split; try done. exists [c]. split; [done|]. by constructor.
Qed.

(** A change of a field that is none of the plan, the jobs, the log or constant. *)
Ltac elsewhere := apply looks_modify; intros ?; split; try done; exists []; by rewrite app_nil_r.

Lemma looks_metadataFor hash kind startup :
  (∀ c, lookup_call hash c → P c) → looks (metadataFor sha1 env hash kind startup).
Proof using Type.
  intros HP. unfold metadataFor. apply looks_getr. intros r Hr.
  destruct (r_metadata r !! hash); [apply looks_ret|].
  apply looks_bind; [by apply (looks_invoke (CacheGet hash)), HP|]. intros cached. cbv zeta.
  destruct (_ ≫= _).
  - apply looks_bind; [elsewhere|]. intros _. apply looks_ret.
  - apply looks_bind; [by apply (looks_invoke (IoMetadata hash kind startup)), HP|]. intros data.
    apply looks_bind; [apply looks_lift|]. intros m.
    apply looks_bind; [by apply (looks_invoke (CachePut hash (m_metadata m))), HP|]. intros _.
    apply looks_bind; [elsewhere|]. intros _. apply looks_ret.
Qed.

Lemma looks_torrent hash kind startup :
  (∀ c, lookup_call hash c → P c) → looks (torrent sha1 env hash kind startup).
Proof using Type.
  intros HP. unfold torrent. apply looks_bind; [by apply looks_metadataFor|]. intros m.
  apply looks_getr. intros r Hr. apply looks_bind; [|intros _; apply looks_ret].
  destruct (decide _); [apply looks_ret|].
  apply looks_bind; [by apply (looks_invoke (IoOpen _ _ _ _)), HP|]. intros _. elsewhere.
Qed.

Lemma looks_read_bytes hash offset len : (∀ c, lookup_call hash c → P c) → looks (read_bytes sha1 env hash offset len).
Proof using Type.
  intros HP. unfold read_bytes. apply looks_getr. intros r Hr.
  destruct (r_discoveryError r); [apply looks_lift|]. destruct (r_closed r); [apply looks_lift|].
  apply looks_bind; [elsewhere|]. intros _. by apply (looks_invoke (IoRead _ _ _ _)), HP.
Qed.

Lemma looks_profiles units startup :
  (∀ hash c, pub_profile pub = Some hash → lookup_call hash c → P c) → looks (profiles sha1 parse_json env units startup).
Proof using Type.
  intros HP. unfold profiles. apply looks_getr. intros r Hr. rewrite Hr.
  destruct (pub_profile pub) as [hash|] eqn:EP; [|apply looks_ret].
  destruct (cached_profiles units r); [apply looks_ret|].
  apply looks_bind; [apply looks_torrent; eauto|]. intros m.
  apply looks_bind; [apply looks_read_bytes; eauto|]. intros data.
  destruct (parse_json data); [|apply looks_lift]. apply looks_bind; [apply looks_lift|]. intros l.
  apply looks_bind; [elsewhere|]. intros _. apply looks_ret.
Qed.
End looks.

(** The calls that look the published profile up. *)
Definition profile_call (p : publication) (c : call) : Prop :=
  match pub_profile p with Some hash => lookup_call hash c | None => False end.

(** The last call: what the final scope asks for. *)
Definition last_call (pub : publication) (size : Z) (origin : jsval) (n : Z) (scope : string) (c : list call) : Prop :=
  if String.eqb scope "profile" then
    ∃ l p, (∃ value, check_published pub value (ceil_div n 65536) = Ok l) ∧ find_profile origin l = Some p ∧
      c = [IoPrefetch (pub_disk pub) (file_range size <$> profile_ranges p)]
  else if String.eqb scope "disk" then c = [IoBackground (pub_disk pub) true]
  else c = [].

Section scope.
Context (sha1 : bytes → bytes) (parse_json : bytes → option jsval).
Context (env : list call → ∀ c : call, result (answer c) * list happening).
Context (pub : publication) (size : Z).
#[local] Existing Instance M_ret.
#[local] Existing Instance M_bind.

(** A publication whose startup job is over, with a plan and a log. *)
Record planned (p : plan) (log : list call) (r : remote) : Prop := {
  pn_typed : typed sha1 pub size r;
  pn_quiet : quiet r;
  pn_plan : r_plan r = p;
  pn_log : r_log r = log
}.

Lemma planned_looked P p log r r' :
  planned p log r → looked P r r' → typed sha1 pub size r' → ∃ t, planned p (log ++ t) r' ∧ Forall P t.
Proof using Type.
  intros [HT HQ HP HL] [_ _ (t & E & HF) HX] HT'. destruct (HX HQ). exists t. split; [|done]. split; try done; congruence.
Qed.

Lemma planned_invoke c p log r :
  planned p log r → call_ok sha1 pub size c → planned p (log ++ [c]) (invoke sha1 env c r).1.
Proof using Type.
  intros H Hc. destruct (keeps_invoke sha1 env pub size c (λ _, True) Hc ltac:(done) r (pn_typed _ _ _ H)) as [HT _].
  unfold invoke in *. destruct (env (r_log r) c) as [x hs]. cbn in *.
  pose proof (looked_happens sha1 (λ _, False) hs (with_log (r_log r ++ [c]) r)) as [_ _ (t & E & HF) HX].
  destruct t; [|by inversion HF]. destruct (HX (pn_quiet _ _ _ H)) as [HQ EP]. split; try done.
  - by rewrite EP; apply (pn_plan _ _ _ H).
  - rewrite E, app_nil_r. cbn. by rewrite (pn_log _ _ _ H).
Qed.

Lemma planned_profiles units p log r r' x :
  planned p log r → profiles sha1 parse_json env units false r = (r', x) →
  ∃ t, planned p (log ++ t) r' ∧ Forall (profile_call pub) t ∧ ∀ l, x = Ok l → l = [] ∨ published pub units l.
Proof using Type.
  intros H E. pose proof (keeps_profiles sha1 parse_json env pub size units false r (pn_typed _ _ _ H)) as [HT HL].
  assert (HC : ∀ hash c, pub_profile pub = Some hash → lookup_call hash c → profile_call pub c).
  { intros hash c EP Hc. unfold profile_call. by rewrite EP. }
  pose proof (looks_profiles sha1 parse_json env pub _ units false HC r (ty_pub _ _ _ _ (pn_typed _ _ _ H))) as HK.
  rewrite E in *. destruct (planned_looked _ _ _ _ _ H HK HT) as (t & ? & ?). eauto.
Qed.

Lemma planned_scope s p log r :
  planned p log r → s ∈ SCOPES → planned (Plan s (pl_origin p) (pl_logicalSize p)) log (with_scope s r).
Proof using Type. intros [[] HQ HP HL] Hs. split; cbn; try done. by rewrite HP. Qed.

(** The choice of [auto]. *)
Lemma planned_choose origin units s n log r r' x :
  planned (Plan s origin n) log r → s ∈ SCOPES → choose sha1 parse_json env origin units r = (r', x) →
  ∃ t s', planned (Plan s' origin n) (log ++ t) r' ∧ Forall (profile_call pub) t ∧
    s' ∈ SCOPES ∧ ∀ c, x = Ok c → s' = c ∧ c ∈ ["profile"; "disk"]%string.
Proof using Type.
  intros H Hs. unfold choose, mbind at 1, M_bind at 1, catch. unfold mbind at 1, M_bind at 1.
  destruct (profiles sha1 parse_json env units false r) as [r1 y] eqn:EP.
  destruct (planned_profiles _ _ _ _ _ _ H EP) as (t & H1 & HF & _). intros E. exists t. revert E.
  assert (HD : ∀ c, c ∈ ["profile"; "disk"]%string → (with_scope c r1, Ok c) = (r', x) →
    ∃ s', planned (Plan s' origin n) (log ++ t) r' ∧ Forall (profile_call pub) t ∧
      s' ∈ SCOPES ∧ ∀ c, x = Ok c → s' = c ∧ c ∈ ["profile"; "disk"]%string).
  { intros c Hc [= <- <-]. assert (c ∈ SCOPES) by (unfold SCOPES; set_solver). exists c.
    split_and!; [by apply (planned_scope c (Plan s origin n))|done|done|]. by intros ? [= <-]. }
  destruct y as [l|e].
  - destruct (existsb _ l); apply HD; set_solver.
  - unfold mret, M_ret, lift. destruct (optional_hint e); [apply HD; set_solver|]. intros [= <- <-]. exists s. by split_and!.
Qed.

Lemma scope_bind {A B} (m : M A) (f : A → M B) r r' x :
  (m ≫= f) r = (r', x) →
  (∃ a r1, m r = (r1, Ok a) ∧ f a r1 = (r', x)) ∨ (∃ e, m r = (r', Throw e) ∧ x = Throw e).
Proof using Type.
  unfold mbind, M_bind. destruct (m r) as [r1 [a|e]]; [eauto|]. intros [= <- <-]. eauto.
Qed.

(** The two parts after the choice. *)
Definition ask_ranges (origin : jsval) (n : Z) (r0 : remote) : M unit :=
  l ← profiles sha1 parse_json env (ceil_div n 65536) false;
  match find_profile origin l with
  | None => fail "INVALID_PROFILE" "No load profile matches this disk/state"
  | Some p => invoke sha1 env (IoPrefetch (pub_disk (r_pub r0)) (file_range (r_size r0) <$> profile_ranges p))
  end.
Definition apply_scope (origin : jsval) (n : Z) (r0 : remote) (scope : string) : M unit :=
  (if String.eqb scope "profile" then ask_ranges origin n r0 else mret tt) ;;
  if String.eqb scope "disk" then invoke sha1 env (IoBackground (pub_disk (r_pub r0)) true) else mret tt.

Lemma planned_ranges origin n p log r0 r r' x :
  planned p log r → r_pub r0 = pub → r_size r0 = size → ask_ranges origin n r0 r = (r', x) →
  ∃ t, planned p (log ++ t) r' ∧
    (x = Ok tt → ∃ looked last, t = looked ++ last ∧ Forall (profile_call pub) looked ∧
       last_call pub size origin n "profile" last).
Proof using Type.
  intros H EP ES [(l & r1 & EL & EB)|(e & EL & ->)]%scope_bind.
  2:{ destruct (planned_profiles _ _ _ _ _ _ H EL) as (t & H2 & _). by exists t. }
  destruct (planned_profiles _ _ _ _ _ _ H EL) as (t & H2 & HF & HL). specialize (HL l eq_refl).
  destruct (find_profile origin l) as [q|] eqn:EF; [|injection EB as <- <-; by exists t].
  assert (HP : published pub (ceil_div n 65536) l) by (by destruct HL as [->|]).
  rewrite EP, ES in EB. set (c := IoPrefetch _ _) in EB.
  assert (Hc : call_ok sha1 pub size c).
  { split; [done|]. exists (ceil_div n 65536), l, q. split_and!; [done|by eapply find_profile_in|done]. }
  pose proof (planned_invoke c _ _ _ H2 Hc) as H3. rewrite EB, <- app_assoc in H3.
  exists (t ++ [c]). split; [exact H3|]. intros _. exists t, [c]. split_and!; [done|done|]. by exists l, q.
Qed.

Lemma planned_apply origin n p log r0 r r' scope x :
  planned p log r → r_pub r0 = pub → r_size r0 = size → apply_scope origin n r0 scope r = (r', x) →
  ∃ t, planned p (log ++ t) r' ∧
    (x = Ok tt → ∃ looked last, t = looked ++ last ∧ Forall (profile_call pub) looked ∧ last_call pub size origin n scope last).
Proof using Type.
  intros H EP ES. unfold apply_scope. destruct (String.eqb scope "profile") eqn:E1.
  - apply String.eqb_eq in E1 as ->. intros [([] & r1 & EB & [= <- <-])|(e & EB & ->)]%scope_bind;
      eapply planned_ranges in EB as (t & ? & ?); try done; by exists t.
  - unfold last_call. rewrite E1, EP. intros EB.
    unfold mbind at 1, M_bind at 1, mret at 1, M_ret at 1 in EB. destruct (String.eqb scope "disk").
    + set (c := IoBackground _ _) in EB. pose proof (planned_invoke c _ _ _ H I) as H3. rewrite EB in H3.
      exists [c]. split; [done|]. intros _. by exists [], [c].
    + injection EB as <- _. exists []. rewrite app_nil_r. split; [done|]. intros _. by exists [], [].
Qed.

Lemma planned_begin r scope origin n :
  typed sha1 pub size r → scope ∈ SCOPES →
  planned (Plan scope origin n) (r_log r) (with_plan (Plan scope origin n) (discardStartupPrefetch None r)).
Proof using Type.
  intros HT HS. pose proof (discard_frame None r) as HF. pose proof (typed_frame _ _ _ _ _ HT HF) as HT2.
  split; [destruct HT2; by split|by apply discard_quiet, (ty_jobs _ _ _ _ HT)|done|]. apply (jf_log _ _ HF).
Qed.

(** Every path of [setLoadPrefetch] after its guard. *)
Lemma set_load_prefetch_paths r origin scope n r' x :
  typed sha1 pub size r → scope ∈ SCOPES → setLoadPrefetch sha1 parse_json env origin scope n r = (r', x) →
  let disk := pub_disk pub in
  ∃ s t, planned (Plan s origin n) (r_log r ++ IoBackground disk false :: t) r' ∧
    (x = Ok tt → ∃ looked last, t = IoStopPrefetch disk :: looked ++ last ∧ Forall (profile_call pub) looked ∧
       last_call pub size origin n s last ∧
       if String.eqb scope "auto" then s ∈ ["profile"; "disk"]%string else s = scope).
Proof using Type.
  intros HT HS. cbv zeta. unfold setLoadPrefetch.
  rewrite (proj2 (existsb_exists _ _)) by (exists scope; split; [by apply list_elem_of_In|apply String.eqb_refl]).
  cbn [negb]. intros E. apply scope_bind in E as [(r0 & r1 & [= <- <-] & E)|(e & [=] & _)]. cbv zeta in E.
  rewrite (ty_pub _ _ _ _ HT) in E. pose proof (planned_begin r scope origin n HT HS) as H0.
  apply scope_bind in E as [([] & r1 & [= <-] & E)|(e & [=] & _)].
  apply scope_bind in E as [([] & r2 & [= <-] & E)|(e & [=] & _)].
  pose proof (planned_invoke (IoBackground (pub_disk pub) false) _ _ _ H0 I) as H1.
  apply scope_bind in E as [([] & r1 & EI & E)|(e & EI & ->)]; rewrite EI in H1; cbn [fst] in H1; [|by exists scope, []].
  pose proof (planned_invoke (IoStopPrefetch (pub_disk pub)) _ _ _ H1 I) as H2. rewrite <- app_assoc in H2.
  apply scope_bind in E as [([] & r2 & ES & E)|(e & ES & ->)]; rewrite ES in H2; cbn [fst] in H2; [|by eexists scope, _].
  destruct (String.eqb scope "none") eqn:EN.
  { apply String.eqb_eq in EN as ->. injection E as <- <-. eexists _, _. split; [exact H2|]. intros _. by exists [], []. }
  apply scope_bind in E as [(s & r3 & EC & E)|(e & EC & ->)].
  - assert (HC : ∃ t, planned (Plan s origin n) (r_log r ++ IoBackground (pub_disk pub) false :: IoStopPrefetch (pub_disk pub) :: t) r3 ∧
      Forall (profile_call pub) t ∧ if String.eqb scope "auto" then s ∈ ["profile"; "disk"]%string else s = scope).
    { destruct (String.eqb scope "auto").
      - eapply planned_choose in EC as (t & s' & H3 & HF & _ & HX); [|exact H2|done].
        destruct (HX s eq_refl) as [-> ?]. exists t. by rewrite <- app_assoc in H3.
      - injection EC as <- <-. by exists []. }
    destruct HC as (t & H3 & HF & HX).
    assert (EA : apply_scope origin n r s r3 = (r', x)) by (unfold apply_scope, ask_ranges; by rewrite (ty_pub _ _ _ _ HT)).
    eapply planned_apply in EA as (t' & H4 & HL); [|exact H3|by apply (ty_pub _ _ _ _ HT)|by apply (ty_size _ _ _ _ HT)].
    rewrite <- app_assoc in H4. eexists s, _. split; [exact H4|]. intros Hx. destruct (HL Hx) as (lk & last & -> & HK & HA).
    exists (t ++ lk), last. split_and!; [by rewrite <- app_assoc|by apply Forall_app|done|done].
  - destruct (String.eqb scope "auto"); [|done].
    eapply planned_choose in EC as (t & s' & H3 & HF & _); [|exact H2|done]. rewrite <- app_assoc in H3. eexists s', _. split; [exact H3|done].
Qed.

(** [setLoadPrefetch].  A scope that is none of the four throws and changes
    nothing.  Otherwise, whatever the network does: the startup job is over, origin
    and size are recorded, and the first call stops the background download.  When it
    succeeds, it has made these calls and no others: background off, prefetch
    stopped, the lookup of the published profile, then what the final scope asks for:
    the ranges of the accepted profile of this origin, the background download of the
    whole disk, or nothing.  The final scope is the given one, or for [auto] the
    profile or the disk; it is the one recorded, even when the job settles meanwhile. *)
Theorem set_load_prefetch_does r origin scope n :
  typed sha1 pub size r →
  let disk := pub_disk pub in
  let '(r', x) := setLoadPrefetch sha1 parse_json env origin scope n r in
  (scope ∉ SCOPES → r' = r ∧ x = throw "INVALID_PROFILE" "Invalid load prefetch scope") ∧
  (scope ∈ SCOPES →
     quiet r' ∧ pl_origin (r_plan r') = origin ∧ pl_logicalSize (r_plan r') = n ∧
     (∃ t, r_log r' = r_log r ++ IoBackground disk false :: t) ∧
     (x = Ok tt → ∃ looked last,
        r_log r' = r_log r ++ [IoBackground disk false; IoStopPrefetch disk] ++ looked ++ last ∧
        Forall (profile_call pub) looked ∧ last_call pub size origin n (pl_scope (r_plan r')) last ∧
        if String.eqb scope "auto" then pl_scope (r_plan r') ∈ ["profile"; "disk"]%string
        else pl_scope (r_plan r') = scope)).
Proof using Type.
  intros HT. cbv zeta. destruct (setLoadPrefetch sha1 parse_json env origin scope n r) as [r' x] eqn:E. split.
  - intros HS. unfold setLoadPrefetch in E. destruct (existsb (String.eqb scope) SCOPES) eqn:EX.
    + apply existsb_exists in EX as (y & Hy & ->%String.eqb_eq). by apply list_elem_of_In in Hy.
    + by injection E as <- <-.
  - intros HS. destruct (set_load_prefetch_paths _ _ _ _ _ _ HT HS E) as (s & t & [_ HQ HP HL] & HX).
    rewrite HP, HL. split_and!; [done|done|done|by exists t|]. intros Hx.
    destruct (HX Hx) as (looked & last & -> & ? & ? & ?). by exists looked, last.
Qed.
End scope.

(** The sample publication has a profile for booting: [auto] asks for its range. *)
Lemma set_load_prefetch_does_witness :
  let r := new_remote "torrent:1" sample_pub 70000 "disk" in
  pl_scope (r_plan (setLoadPrefetch demo_sha1 sample_json sample_env boot "auto" 65536 r).1) = "profile"%string ∧
  quiet (setLoadPrefetch demo_sha1 sample_json sample_env boot "auto" 65536 r).1.
Proof.
  cbv zeta. split; [vm_compute; reflexivity|].
  pose proof (set_load_prefetch_does demo_sha1 sample_json sample_env sample_pub 70000
    (new_remote "torrent:1" sample_pub 70000 "disk") boot "auto" 65536
    (typed_new "torrent:1" sample_pub 70000 "disk" ltac:(set_solver) demo_sha1)) as H. cbv zeta in H.
  destruct (setLoadPrefetch _ _ _ _ _ _ _) as [r' x]. destruct H as [_ H]. apply H. unfold SCOPES. set_solver.
Defined.
