(* ===== verification/NetworkSources.v ===== *)
(** * Where the network is (src/src/disk/web/torrent-sources.js, network-config.js,
    relay-discovery.js, cancellable-webseed.js)

    The addresses of torrent sources and services are checked before they are used;
    a relay is found by asking the configured servers; and a webseed has to send exactly
    the range of bytes it was asked for.

    URLs are parsed by the platform ([new URL]); [parse_url] is that parser, [None] where
    it throws, and [wss_origin] is the origin of a URL after its protocol was set to
    [wss:]. *)
From S2P Require Import Prelude JsValue Hex Protocol.
From Stdlib Require Import Ascii QArith.
#[local] Open Scope Z_scope.

Record address := Address {
  a_href : string; a_origin : string; a_protocol : string; a_hostname : string; a_pathname : string;
  a_username : string; a_password : string; a_search : string; a_hash : string
}.

(** [s.replace(/\/+$/,"")]. *)
Fixpoint strip_slashes (s : string) : string :=
  match s with
  | EmptyString => EmptyString
  | String c s =>
      match strip_slashes s with
      | EmptyString => if bool_decide (c = "/"%char) then EmptyString else String c EmptyString
      | s => String c s
      end
  end.
Definition filled (s : string) : bool := negb (bool_decide (s = EmptyString)).
Definition adorned (u : address) : bool := filled (a_username u) || filled (a_password u) || filled (a_search u) || filled (a_hash u).
Definition loopback (u : address) : bool := bool_decide (a_hostname u ∈ ["127.0.0.1"; "[::1]"; "localhost"]%string).

(** [[...new Set(l)]]. *)
Definition add_once (l : list string) (x : string) : list string := if bool_decide (x ∈ l) then l else l ++ [x].
Definition distinct (l : list string) : list string := foldl add_once [] l.

Fixpoint map_ok {A B} (f : A → result B) (l : list A) : result (list B) :=
  match l with
  | [] => Ok []
  | x :: l => y ← f x; l ← map_ok f l; Ok (y :: l)
  end.

(** Reading a body into at most [limit] bytes: the chunks read so far and those to come. *)
Fixpoint read_limited (oversized : exn) (limit copied : Z) (parts : list bytes) (stream : list (result bytes)) : list bytes * result unit :=
  match stream with
  | [] => (parts, Ok tt)
  | Throw e :: _ => (parts, Throw e)
  | Ok value :: stream =>
      if limit <? copied + byteLength value then (parts, Throw oversized)
      else read_limited oversized limit (copied + byteLength value) (parts ++ [value]) stream
  end.

Section network.
Context (parse_url : string → option address) (wss_origin : string → string).

(** ** Torrent sources *)
Definition invalid_source {A} (message : string) : result A := throw "INVALID_SOURCE" message.
Definition sourceURL (protocols : list string) (value : jsval) : result string :=
  match as_string value with
  | None => invalid_source "Invalid torrent source URL"
  | Some text =>
      match parse_url text with
      | None => invalid_source "Invalid torrent source URL"
      | Some u =>
          if negb (bool_decide (a_protocol u ∈ protocols)) || adorned u ||
             (bool_decide (a_protocol u ∈ ["http:"; "ws:"]%string) && negb (loopback u))
          then invalid_source "Use HTTPS/WSS torrent sources"
          else Ok (strip_slashes (a_href u))
      end
  end.

Record sources := Sources { s_apis : list string; s_trackers : list string; s_webseeds : list string }.
Definition source_list (value : jsval) (key : string) (protocols : list string) : result (list string) :=
  match get value key with
  | JUndefined | JNull => Ok []
  | JArr l => l ← map_ok (sourceURL protocols) l; Ok (distinct l)
  | _ => invalid_source "Invalid torrent sources"
  end.
Definition nodes : list string :=
  ["https://piensa.jlxip.net:8445"; "https://nuc.jlxip.net:8445"; "https://oregon.jlxip.net:8445"]%string.
Definition DEFAULT_TORRENT_SOURCES : jsval :=
  JObj [field "apis" (JArr (JStr <$> nodes)); field "webseeds" (JArr ((λ n, JStr (n +:+ "/content")) <$> nodes));
        field "trackers" (JArr [JStr "wss://nuc.jlxip.net:8445/tracker"; JStr "wss://oregon.jlxip.net:8445/tracker"])].
Definition torrentSources (value : jsval) : result sources :=
  match (if is_undefined value then DEFAULT_TORRENT_SOURCES else value) with
  | JObj fields =>
      if forallb (λ p, bool_decide (p.1 ∈ ["apis"; "trackers"; "webseeds"]%string)) fields then
        apis ← source_list (JObj fields) "apis" ["https:"; "http:"];
        trackers ← source_list (JObj fields) "trackers" ["wss:"; "ws:"];
        webseeds ← source_list (JObj fields) "webseeds" ["https:"; "http:"];
        Ok (Sources apis trackers webseeds)
      else invalid_source "Invalid torrent sources"
  | _ => invalid_source "Invalid torrent sources"
  end.

(** ** Services *)
Definition serviceURL (value : jsval) : result string :=
  match as_string value with
  | None => throw_plain "Invalid service URL"
  | Some text =>
      match parse_url text with
      | None => throw_plain "Invalid service URL"
      | Some u =>
          if adorned u ||
             (negb (bool_decide (a_protocol u = "https:"%string)) &&
              negb (bool_decide (a_protocol u = "http:"%string) && loopback u))
          then throw_plain "Use an HTTPS service URL"
          else Ok (strip_slashes (a_href u))
      end
  end.

(** ** Finding a relay *)
Definition RELAY_CAPABILITIES_PATH : string := "/.well-known/my98-relay.json".
Definition LIMIT : Z := 4096.

Definition service_origin (value : jsval) : result string :=
  text ← serviceURL value;
  match parse_url text with Some u => Ok (a_origin u) | None => throw_plain "Invalid URL" end.
(** The origins asked; a server takes part when its [relay] is true. *)
Fixpoint server_origins (servers : list jsval) (origins : list string) : result (list string) :=
  match servers with
  | [] => Ok origins
  | source :: servers =>
      if negb (truthy source) then throw_plain "Invalid relay discovery source"
      else match get source "relay" with
           | JBool true => origin ← service_origin (get source "url"); server_origins servers (add_once origins origin)
           | JBool false => server_origins servers origins
           | _ => throw_plain "Invalid relay discovery source"
           end
  end.
Definition relay_origins (servers : jsval) (gateways : list jsval) : result (list string) :=
  match as_array servers with
  | Some l =>
      if Z.of_nat (length l) >? 16 then throw_plain "Invalid relay discovery sources"
      else
        origins ← server_origins l [];
        more ← map_ok service_origin (take 16 gateways);
        Ok (take 16 (foldl add_once origins more))
  | None => throw_plain "Invalid relay discovery sources"
  end.

(** [/^application\/json(?:;|$)/i]. *)
Definition lower (c : Ascii.ascii) : Ascii.ascii :=
  let n := Ascii.nat_of_ascii c in if bool_decide (65 ≤ n ∧ n ≤ 90)%nat then Ascii.ascii_of_nat (n + 32) else c.
Fixpoint after_prefix (prefix s : string) : option string :=
  match prefix, s with
  | EmptyString, s => Some s
  | String p prefix, String c s => if bool_decide (lower c = p) then after_prefix prefix s else None
  | String _ _, EmptyString => None
  end.
Definition json_type (s : string) : bool :=
  match after_prefix "application/json" s with
  | Some EmptyString => true
  | Some (String c _) => bool_decide (c = ";"%char)
  | None => false
  end.
Definition exceeds (n : number) (limit : Z) : bool :=
  match n with NInt z => limit <? z | NFrac q => negb (Qle_bool q (inject_Z limit)) | NInfinity negative => negb negative | NNaN => false end.

Record response := Response {
  r_ok : bool;
  r_type : string;                     (** the content type, empty when there is none *)
  r_length : number;                   (** what [Number] makes of the content length *)
  r_stream : list (result bytes)
}.
(** [decode_json]: fatal UTF-8 decoding and [JSON.parse]. *)
Context (decode_json : bytes → option jsval).

Definition announcement_url (announcement : jsval) : result string :=
  match announcement with
  | JUndefined | JNull => throw_plain "Cannot read properties of null"
  | _ =>
      let relay := get announcement "relay" in
      if negb (is_int (get announcement "version") 1) || negb (is_str (get relay "protocol") "my98-relay.v1") ||
         negb (is_str (get relay "authorization") "ed25519-allowlist")
      then throw_plain "Relay unavailable"
      else match as_string (get relay "url") with Some text => Ok text | None => throw_plain "Relay unavailable" end
  end.
Definition check_relay (origin : string) (r : response) : result string :=
  if negb (r_ok r) || negb (json_type (r_type r)) || exceeds (r_length r) LIMIT then throw_plain "No relay announcement"
  else
    let '(parts, read) := read_limited (Exn None "Relay announcement too large") LIMIT 0 [] (r_stream r) in
    read ;;
    match decode_json (concat parts) with
    | None => throw_plain "Unexpected token"
    | Some announcement =>
        text ← announcement_url announcement;
        match parse_url text with
        | None => throw_plain "Invalid URL"
        | Some u =>
            if negb (bool_decide (a_origin u = wss_origin origin)) || negb (bool_decide (a_pathname u = "/my98-relay/v1"%string)) ||
               adorned u || negb (bool_decide (a_protocol u = "wss:"%string))
            then throw_plain "Invalid relay announcement"
            else Ok (a_href u)
        end
    end.
(** [Promise.any]: what the origins answer, in the order in which they do. *)
Fixpoint any (l : list (result string)) : result string :=
  match l with
  | [] => throw_plain "All promises were rejected"
  | Ok x :: _ => Ok x
  | Throw _ :: l => any l
  end.
(** [arrivals]: the responses and failures of the fetches, each with its origin. *)
Definition discoverRelay (servers : jsval) (gateways : list jsval) (arrivals : list (string * result response)) : result string :=
  origins ← relay_origins servers gateways;
  any ((λ p, r ← p.2; check_relay p.1 r) <$> filter (λ p, p.1 ∈ origins) arrivals).
End network.

(** ** A range of a webseed *)
Record range_response := RangeResponse { g_status : Z; g_range : option string; g_stream : list (result bytes) }.
(** [httpRequest]: the arguments of its callback, which it calls once.  [torrent] is the
    length of a piece and of the whole torrent, [None] once the connection is destroyed;
    [aborted] the reason of its signal after the body was read. *)
Definition content_range (start end_ total : Z) : bytes :=
  ascii_bytes "bytes " ++ decimal start ++ ascii_bytes "-" ++ decimal end_ ++ ascii_bytes "/" ++ decimal total.
Definition pad (n : Z) (b : bytes) : bytes := b ++ replicate (Z.to_nat n - length b) 0.
Definition httpRequest (torrent : option (Z * Z)) (piece offset length_ : Z) (r : result range_response) (aborted : option exn) :
    result unit * option bytes :=
  match torrent with
  | None => (throw_plain "Webseed closed", None)
  | Some (pieceLength, total) =>
      let start := piece * pieceLength + offset in
      let end_ := start + length_ - 1 in
      match r with
      | Throw e => (Throw e, None)
      | Ok r =>
          if negb (g_status r =? 206) ||
             negb (bool_decide (ascii_bytes <$> g_range r = Some (content_range start end_ total)))
          then (throw_plain "Invalid webseed range response", None)
          else
            let '(parts, read) := read_limited (Exn None "Oversized webseed range") length_ 0 [] (g_stream r) in
            let bytes := pad length_ (concat parts) in
            match read, aborted with
            | Throw e, _ => (Throw e, Some bytes)
            | Ok _, aborted =>
                if negb (byteLength (concat parts) =? length_) then (throw_plain "Short webseed range", Some bytes)
                else match aborted with Some e => (Throw e, Some bytes) | None => (Ok tt, Some bytes) end
            end
      end
  end.
