(* ===== verification/NetworkFacts.v ===== *)
(** * Addresses, relays and ranges: what the checks guarantee *)
From S2P Require Import Prelude JsValue Hex Protocol NetworkSources.
From Stdlib Require Import Ascii.
#[local] Open Scope Z_scope.

(** ** Lists *)
Lemma map_ok_elem {A B} (f : A → result B) l l' y : map_ok f l = Ok l' → y ∈ l' → ∃ x, x ∈ l ∧ f x = Ok y.
Proof.
  induction l as [|x l IH] in l' |- *; cbn [map_ok]; intros H Hy; inv_bind; subst; [by apply elem_of_nil in Hy|].
  apply elem_of_cons in Hy as [->|Hy]; [exists x; split; [by left|done]|].
  destruct (IH _ H1 Hy) as (z & Hz & E). exists z. split; [by right|done].
Qed.
Lemma add_once_spec l x y : (y ∈ add_once l x ↔ y ∈ l ∨ y = x) ∧ (NoDup l → NoDup (add_once l x)).
Proof.
  unfold add_once. case_bool_decide as H.
  - split; [|done]. split; [by left|by intros [?| ->]].
  - rewrite elem_of_app, list_elem_of_singleton. split; [done|]. intros HN. apply NoDup_app. split_and!; [done| |apply NoDup_singleton].
    by intros z Hz ->%list_elem_of_singleton.
Qed.
Lemma add_all_spec xs l : (∀ y, y ∈ foldl add_once l xs ↔ y ∈ l ∨ y ∈ xs) ∧ (NoDup l → NoDup (foldl add_once l xs)).
Proof.
  induction xs as [|x xs IH] in l |- *; [by split; [intros y; rewrite elem_of_nil; tauto|]|]. cbn [foldl].
  destruct (IH (add_once l x)) as [H1 H2]. split; [|intros HN; by apply H2, (add_once_spec l x EmptyString)].
  intros y. rewrite H1, elem_of_cons. destruct (add_once_spec l x y) as [-> _]. tauto.
Qed.
Lemma distinct_spec l : (∀ y, y ∈ distinct l ↔ y ∈ l) ∧ NoDup (distinct l).
Proof. destruct (add_all_spec l []) as [H1 H2]. split; [intros y; rewrite H1, elem_of_nil; tauto|by apply H2, NoDup_nil_2]. Qed.

Lemma strip_no_slash s : ends_with_slash (strip_slashes s) = false.
Proof.
  induction s as [|c s IH]; [done|]. cbn [strip_slashes]. destruct (strip_slashes s) as [|c' s']; [|exact IH].
  case_bool_decide as H; [done|]. cbn. by apply bool_decide_false.
Qed.

Section network.
Context (parse_url : string → option address) (wss_origin : string → string) (decode_json : bytes → option jsval).

(** An address that may be used: encrypted, or on this machine; with no credentials, query
    or fragment, and no slash at its end. *)
Definition secure (scheme plain url : string) : Prop :=
  ∃ text u, parse_url text = Some u ∧ url = strip_slashes (a_href u) ∧ adorned u = false ∧ ends_with_slash url = false ∧
    (a_protocol u = scheme ∨ (a_protocol u = plain ∧ loopback u = true)).

Lemma sourceURL_secure scheme plain value url :
  plain ∈ ["http:"; "ws:"]%string → sourceURL parse_url [scheme; plain] value = Ok url → secure scheme plain url.
Proof using Type.
  intros Hp. unfold sourceURL. destruct (as_string value) as [text|]; [|done]. destruct (parse_url text) as [u|] eqn:E; [|done].
  destruct (_ || _) eqn:EB; [done|]. rewrite !orb_false_iff, negb_false_iff, bool_decide_eq_true in EB. destruct EB as [[EP EA] EL].
  intros [= <-]. exists text, u. split_and!; [done|done|done|apply strip_no_slash|].
  rewrite !elem_of_cons in EP. destruct EP as [EP|[EP|?%elem_of_nil]]; [by left| |done]. right. split; [done|].
  rewrite EP, bool_decide_true in EL by done. by destruct (loopback u).
Qed.

Lemma source_list_secure scheme plain value key l :
  plain ∈ ["http:"; "ws:"]%string → source_list parse_url value key [scheme; plain] = Ok l → NoDup l ∧ ∀ url, url ∈ l → secure scheme plain url.
Proof using Type.
  intros Hp. unfold source_list. destruct (get value key) as [| | | | |vs|]; try done.
  1, 2: intros [= <-]; split; [apply NoDup_nil_2|by intros ? ?%elem_of_nil].
  intros H. inv_bind. subst l. destruct (distinct_spec a) as [H1 H2]. split; [done|]. intros url Hu%H1.
  destruct (map_ok_elem _ _ _ _ H0 Hu) as (v & _ & Hv). by eapply sourceURL_secure.
Qed.

Lemma serviceURL_secure value url : serviceURL parse_url value = Ok url → secure "https:" "http:" url.
Proof using Type.
  unfold serviceURL. destruct (as_string value) as [text|]; [|done]. destruct (parse_url text) as [u|] eqn:E; [|done].
  destruct (_ || _) eqn:EB; [done|]. rewrite orb_false_iff in EB. destruct EB as [EA EL].
  intros [= <-]. exists text, u. split_and!; [done|done|done|apply strip_no_slash|].
  case_bool_decide as H1; [by left|]. case_bool_decide as H2; [|done]. cbn in EL. right. split; [done|]. by destruct (loopback u).
Qed.

(** ** Relays *)
(** An origin that the configuration lets announce a relay. *)
Definition may_announce (servers : jsval) (gateways : list jsval) (origin : string) : Prop :=
  (∃ l source, as_array servers = Some l ∧ source ∈ l ∧ get source "relay" = JBool true ∧ service_origin parse_url (get source "url") = Ok origin) ∨
  (∃ gateway, gateway ∈ take 16 gateways ∧ service_origin parse_url gateway = Ok origin).

Lemma server_origins_spec l origins origins' o :
  server_origins parse_url l origins = Ok origins' → o ∈ origins' →
  o ∈ origins ∨ ∃ source, source ∈ l ∧ get source "relay" = JBool true ∧ service_origin parse_url (get source "url") = Ok o.
Proof using Type.
  induction l as [|s l IH] in origins |- *; cbn [server_origins]; [intros [= <-]; by left|]. destruct (negb (truthy s)); [done|].
  destruct (get s "relay") as [| |b| | | |] eqn:ER; try done. destruct b.
  - intros H Ho. inv_bind. destruct (IH _ H Ho) as [Hin|(s' & ? & ? & ?)]; [|right; exists s'; split; [by right|done]].
    apply add_once_spec in Hin as [?| ->]; [by left|right]. exists s. split; [by left|done].
  - intros H Ho. destruct (IH _ H Ho) as [?|(s' & ? & ? & ?)]; [by left|right; exists s'; split; [by right|done]].
Qed.
Lemma relay_origins_spec servers gateways origins o :
  relay_origins parse_url servers gateways = Ok origins → o ∈ origins → may_announce servers gateways o.
Proof using Type.
  unfold relay_origins. destruct (as_array servers) as [l|] eqn:EA; [|done]. destruct (_ >? _); [done|]. intros H Ho. inv_bind. subst origins.
  apply elem_of_take in Ho as (i & Ho%list_elem_of_lookup_2 & _). apply add_all_spec in Ho as [Ho|Ho].
  - left. destruct (server_origins_spec _ _ _ _ H0 Ho) as [?%elem_of_nil|(s & ? & ? & ?)]; [done|]. by exists l, s.
  - right. destruct (map_ok_elem _ _ _ _ H1 Ho) as (g & ? & ?). by exists g.
Qed.

(** What a relay's address looks like. *)
Definition relay_address (origin url : string) : Prop :=
  ∃ text u, parse_url text = Some u ∧ url = a_href u ∧ a_protocol u = "wss:"%string ∧ a_origin u = wss_origin origin ∧
    a_pathname u = "/my98-relay/v1"%string ∧ adorned u = false.

Lemma check_relay_spec origin r url : check_relay parse_url wss_origin decode_json origin r = Ok url → relay_address origin url ∧ r_ok r = true.
Proof using Type.
  unfold check_relay. destruct (_ || _ || _) eqn:E1; [done|]. rewrite !orb_false_iff, negb_false_iff in E1. destruct E1 as [[E1 _] _].
  destruct (read_limited _ _ _ _ _) as [parts read]. intros H. destruct read; [cbn in H|done].
  destruct (decode_json (concat parts)); [|done]. inv_bind. destruct (parse_url _) as [u|] eqn:EU; [|done].
  destruct (_ || _ || _) eqn:E2; [done|]. rewrite !orb_false_iff, !negb_false_iff, !bool_decide_eq_true in E2. destruct E2 as [[[? ?] ?] ?].
  injection H as <-. split; [|done]. by eexists _, u.
Qed.

Lemma any_ok l x : any l = Ok x → Ok x ∈ l.
Proof using Type. induction l as [|[y|e] l IH]; cbn; [done|intros [= ->]; by left|intros H; right; by apply IH]. Qed.

(** C30: The page connects only where it may: an accepted configuration of torrent sources
    holds no source twice, and every one is an encrypted address (HTTPS for APIs and
    webseeds, WSS for trackers) or one on this machine, without credentials, query,
    fragment or final slash; and a relay is accepted only as a WSS address with the
    relay's path, no credentials, query or fragment, and the very origin of a
    configured server or gateway that announced it. *)
Theorem network_safe :
  (∀ value r, torrentSources parse_url value = Ok r →
     NoDup (s_apis r) ∧ NoDup (s_trackers r) ∧ NoDup (s_webseeds r) ∧
     (∀ url, url ∈ s_apis r ++ s_webseeds r → secure "https:" "http:" url) ∧
     (∀ url, url ∈ s_trackers r → secure "wss:" "ws:" url)) ∧
  (∀ servers gateways arrivals url,
     discoverRelay parse_url wss_origin decode_json servers gateways arrivals = Ok url →
     ∃ origin r, (origin, Ok r) ∈ arrivals ∧ may_announce servers gateways origin ∧ relay_address origin url).
Proof using Type.
  split.
  - intros value r. unfold torrentSources. destruct (if is_undefined value then _ else _); try done. destruct (forallb _ _); [|done].
    intros H. inv_bind. subst r. cbn [s_apis s_trackers s_webseeds].
    destruct (source_list_secure "https:" "http:" _ _ _ ltac:(set_solver) H0) as [? ?].
    destruct (source_list_secure "wss:" "ws:" _ _ _ ltac:(set_solver) H1) as [? ?].
    destruct (source_list_secure "https:" "http:" _ _ _ ltac:(set_solver) H2) as [? ?].
    split_and!; try done. intros url [?|?]%elem_of_app; auto.
  - intros servers gateways arrivals url H. unfold discoverRelay in H. inv_bind. apply any_ok in H.
    apply list_elem_of_fmap in H as ([origin x] & E & Hin). apply list_elem_of_filter in Hin as [Ho Hin]. cbn in *.
    destruct x as [r|e]; [|done]. exists origin, r. symmetry in E. apply check_relay_spec in E as [? _].
    split_and!; [done|by eapply relay_origins_spec|done].
Qed.
End network.

(** ** Ranges of a webseed *)
Definition chunks (stream : list (result bytes)) : list bytes := omap (λ x, match x with Ok b => Some b | Throw _ => None end) stream.
Definition all_read (stream : list (result bytes)) : Prop := ∀ x, x ∈ stream → is_ok x = true.

Lemma byteLength_concat_cons b l : byteLength (concat (b :: l)) = byteLength b + byteLength (concat l).
Proof. unfold byteLength. cbn. rewrite length_app. lia. Qed.
Lemma byteLength_concat_app l1 l2 : byteLength (concat (l1 ++ l2)) = byteLength (concat l1) + byteLength (concat l2).
Proof. unfold byteLength. rewrite concat_app, length_app. lia. Qed.

Lemma read_limited_ok oversized limit copied parts stream :
  copied = byteLength (concat parts) → copied ≤ limit →
  let '(parts', read) := read_limited oversized limit copied parts stream in
  byteLength (concat parts') ≤ limit ∧
  (read = Ok tt ↔ all_read stream ∧ copied + byteLength (concat (chunks stream)) ≤ limit) ∧
  (read = Ok tt → parts' = parts ++ chunks stream).
Proof.
  induction stream as [|x stream IH] in copied, parts |- *; intros Hc Hl.
  { cbn. split_and!; [lia| |by rewrite app_nil_r]. split; [|done]. split; [by intros ? ?%elem_of_nil|unfold byteLength; cbn; lia]. }
  destruct x as [b|e]; cbn [read_limited].
  - change (chunks (Ok b :: stream)) with (b :: chunks stream). rewrite byteLength_concat_cons.
    assert (HA : all_read (Ok b :: stream) ↔ all_read stream).
    { unfold all_read. setoid_rewrite elem_of_cons. split; [auto|]. intros H x [->|?]; auto. }
    destruct (limit <? copied + byteLength b) eqn:E; bools.
    + split_and!; [lia| |done]. split; [done|]. intros [_ ?]. unfold byteLength in *. lia.
    + specialize (IH (copied + byteLength b) (parts ++ [b])). rewrite byteLength_concat_app, byteLength_concat_cons in IH.
      change (byteLength (concat [])) with 0 in IH. specialize (IH ltac:(lia) E). destruct (read_limited _ _ _ _ _) as [parts' read].
      destruct IH as (I1 & I2 & I3). split_and!; [done|rewrite I2, HA; split; intros [? ?]; (split; [done|lia])|].
      intros Hr. rewrite (I3 Hr), <- app_assoc. done.
  - split_and!; [lia| |done]. split; [done|]. intros [HA _]. specialize (HA (Throw e) (list_elem_of_here _ _)). done.
Qed.

(** The answer a range asks for: the status and the exact range, and as many bytes. *)
Definition exact_answer (torrent : option (Z * Z)) (piece offset length_ : Z) (r : result range_response) (aborted : option exn) (data : bytes) : Prop :=
  ∃ pieceLength total a, torrent = Some (pieceLength, total) ∧ r = Ok a ∧ g_status a = 206 ∧
    ascii_bytes <$> g_range a = Some (content_range (piece * pieceLength + offset) (piece * pieceLength + offset + length_ - 1) total) ∧
    all_read (g_stream a) ∧ data = concat (chunks (g_stream a)) ∧ byteLength data = length_ ∧ aborted = None.

(** C31: A webseed request succeeds exactly when the source answers 206 with the very range
    that was asked for, of a torrent of that length, and its body has as many bytes (no
    byte more or less, no failed read) and the request was not aborted; the bytes handed
    on are then the body; and a buffer handed on, even with an error, has the length of
    the request. *)
Theorem range_exact torrent piece offset length_ r aborted :
  0 ≤ length_ →
  let '(outcome, data) := httpRequest torrent piece offset length_ r aborted in
  (outcome = Ok tt ↔ ∃ b, exact_answer torrent piece offset length_ r aborted b) ∧
  (∀ b, exact_answer torrent piece offset length_ r aborted b → data = Some b) ∧
  (∀ b, data = Some b → byteLength b = length_).
Proof.
  intros H0. unfold httpRequest. destruct torrent as [[pieceLength total]|].
  2: { unfold exact_answer. split_and!; [split; [done|by intros (? & ? & ? & ? & ? & _)]|by intros ? (? & ? & ? & ? & _)|done]. }
  destruct r as [a|e].
  2: { unfold exact_answer. split_and!; [split; [done|by intros (? & ? & ? & ? & ? & ? & _)]|by intros ? (? & ? & ? & ? & ? & _)|done]. }
  destruct (_ || _) eqn:EB.
  { assert (HN : ¬ (g_status a = 206 ∧ ascii_bytes <$> g_range a =
      Some (content_range (piece * pieceLength + offset) (piece * pieceLength + offset + length_ - 1) total))).
    { intros [E1 E2]. rewrite E1, E2, bool_decide_true in EB by done. done. }
    unfold exact_answer. split_and!; [split; [done|]|..|done]; [intros (b & p & t & a' & [= <- <-] & [= <-] & ? & ? & _); by destruct HN|].
    intros b (p & t & a' & [= <- <-] & [= <-] & ? & ? & _). by destruct HN. }
  rewrite orb_false_iff, !negb_false_iff, bool_decide_eq_true in EB. destruct EB as [ES ER]. bools.
  pose proof (read_limited_ok (Exn None "Oversized webseed range") length_ 0 [] (g_stream a) eq_refl H0) as HR.
  destruct (read_limited _ _ _ _ _) as [parts read]. destruct HR as (R1 & R2 & R3). rewrite Z.add_0_l in R2. cbn [app] in R3.
  assert (HP : byteLength (pad length_ (concat parts)) = length_) by (unfold pad, byteLength in *; rewrite length_app, length_replicate; lia).
  assert (HX : ∀ b, exact_answer (Some (pieceLength, total)) piece offset length_ (Ok a) aborted b ↔
    read = Ok tt ∧ b = concat parts ∧ byteLength (concat parts) = length_ ∧ aborted = None).
  { intros b. split.
    - intros (pl & t & a' & [= <- <-] & [= <-] & _ & _ & HA & -> & HL & ->). assert (read = Ok tt) as -> by (apply R2; split; [done|lia]).
      by rewrite (R3 eq_refl).
    - intros (-> & -> & HL & ->). exists pieceLength, total, a. rewrite (R3 eq_refl) in *. destruct (proj1 R2 eq_refl). done. }
  assert (HE : byteLength (concat parts) = length_ → pad length_ (concat parts) = concat parts).
  { intros <-. unfold pad, byteLength. rewrite Nat2Z.id, Nat.sub_diag. apply app_nil_r. }
  destruct read as [[]|e].
  - destruct (byteLength (concat parts) =? length_) eqn:EL; bools; cbn [negb].
    + destruct aborted as [e|]; setoid_rewrite HX.
      * split_and!; [split; [done|by intros (? & _ & _ & _ & ?)]|by intros ? (_ & _ & _ & ?)|by intros b [= <-]].
      * split_and!; [split; [by exists (concat parts)|done]|by intros b (_ & -> & ? & _); rewrite HE|by intros b [= <-]].
    + setoid_rewrite HX. split_and!; [split; [done|by intros (? & _ & _ & ? & _)]|by intros ? (_ & _ & ? & _)|by intros b [= <-]].
  - setoid_rewrite HX. split_and!; [split; [done|by intros (? & ? & _)]|by intros ? (? & _)|by intros b [= <-]].
Qed.

(** Five bytes in two chunks; a short body is refused. *)
Definition example_answer : result range_response :=
  Ok (RangeResponse 206 (Some "bytes 262147-262151/300000"%string) [Ok [1; 2]; Ok [3; 4; 5]]).
Lemma range_exact_witness :
  0 ≤ 5 ∧ (httpRequest (Some (262144, 300000)) 1 3 5 example_answer None).2 = Some [1; 2; 3; 4; 5] ∧
  (httpRequest (Some (262144, 300000)) 1 3 5 example_answer None).1 = Ok tt ∧
  (∃ b, exact_answer (Some (262144, 300000)) 1 3 5 example_answer None b).
Proof.
  split_and!; [done|by vm_compute|by vm_compute|].
  pose proof (range_exact (Some (262144, 300000)) 1 3 5 example_answer None ltac:(done)) as H.
  destruct (httpRequest _ _ _ _ _ _) as [o d] eqn:E. vm_compute in E. injection E as <- <-. by apply H.
Defined.
