(* ===== verification/WindowPieces.v ===== *)
(** * Pieces in the Window (src/src/disk/web/torrent-window.js)

    What [WindowTorrents] does with the pieces of one torrent: it counts the verified
    bytes ([describe]), reads a range of ciphertext ([read]) and downloads the pieces of a
    startup profile through a window of at most [windowPieces] selections
    ([prefetchStartup]).

    The bit field is the WebTorrent client's; the code sees its buffer and its [get]. *)
From S2P Require Import Prelude JsValue.
#[local] Open Scope Z_scope.

Definition PIECE : Z := 262144.

(** ** Verified bytes *)

(** [bitCounts]: [value &= value-1] clears the lowest bit, so a byte takes at most
    eight rounds. *)
Fixpoint count_bits (fuel : nat) (value : Z) : Z :=
  match fuel with
  | O => 0
  | S fuel => if value =? 0 then 0 else 1 + count_bits fuel (Z.land value (value - 1))
  end.
Definition bitCounts (value : Z) : Z := count_bits 8 value.

Record bitfield := BitField { bf_buffer : list Z; bf_get : Z → bool }.
Record torrent := Torrent { t_pieces : Z; t_size : Z }.

(** The bits of a byte that stand for pieces. *)
Definition mask (pieces index : Z) : Z :=
  if (index =? ceil_div pieces 8 - 1) && negb (pieces mod 8 =? 0) then Z.shiftl 255 (8 - pieces mod 8) else 255.
Definition verified_pieces (t : torrent) (bits : option bitfield) : Z :=
  match bits with
  | Some b =>
      foldl (λ n index, n + bitCounts (Z.land (nth (Z.to_nat index) (bf_buffer b) 0) (mask (t_pieces t) index))) 0
        (zrange 0 (Z.to_nat (ceil_div (t_pieces t) 8)))
  | None => 0
  end.
Definition coveredBytes (t : torrent) (bits : option bitfield) : Z :=
  verified_pieces t bits * PIECE -
  match bits with
  | Some b => if bf_get b (t_pieces t - 1) then t_pieces t * PIECE - t_size t else 0
  | None => 0
  end.
Definition complete (t : torrent) (bits : option bitfield) : bool := coveredBytes t bits =? t_size t.

(** ** Reading a range *)
Definition invalid_range {A} (message : string) : result A := throw "INVALID_RANGE" message.

(** The arguments [read] accepts. *)
Definition read_range (size : Z) (offset length : jsval) : result (Z * Z) :=
  match as_safe_integer offset, as_safe_integer length with
  | Some offset, Some length =>
      if (offset <? 0) || (length <? 0) || (length >? 1024 * 1024) || (offset + length >? size)
      then invalid_range "Invalid ciphertext range" else Ok (offset, length)
  | _, _ => invalid_range "Invalid ciphertext range"
  end.
(** The last byte asked of the stream, which treats an [end] of 0 as unspecified. *)
Definition stream_end (size offset length : Z) : Z := Z.max (offset + length - 1) (Z.min 1 (size - 1)).

(** What [reader.read()] answers; [aborted] is the signal's reason once it resolves. *)
Inductive answer := Chunk (value : bytes) | Done | Failed (e : exn).
Record turn := Turn { r_before : option exn; r_answer : answer; r_after : option exn }.
(** The loop over the stream; [None] when it still waits after these answers. *)
Fixpoint copy_loop (l : list turn) (missing : nat) (output : bytes) : option (result bytes) :=
  match missing with
  | O => Some (Ok output)
  | _ =>
      match l with
      | [] => None
      | r :: l =>
          match r_before r, r_answer r, r_after r with
          | Some e, _, _ => Some (Throw e)
          | None, Failed e, _ => Some (Throw e)
          | None, _, Some e => Some (Throw e)
          | None, Done, None => Some (throw "TRANSPORT_ERROR" "Short ciphertext range")
          | None, Chunk value, None => copy_loop l (missing - length value) (output ++ take missing value)
          end
      end
  end.

(** ** The startup window *)

(** [targets] is a [Set]: it keeps the order of first insertion. *)
Definition add_target (l : list Z) (index : Z) : list Z := if bool_decide (index ∈ l) then l else l ++ [index].
Definition range_pieces (offset length : Z) : list Z :=
  let first := offset / PIECE in
  let last := (offset + length - 1) / PIECE in
  zrange first (Z.to_nat (last - first + 1)).
Fixpoint add_ranges (size : Z) (ranges : list jsval) (targets : list Z) : result (list Z) :=
  match ranges with
  | [] => Ok targets
  | JArr [offset; length] :: ranges =>
      match as_safe_integer offset, as_safe_integer length with
      | Some offset, Some length =>
          if (offset <? 0) || (length <? 1) || (offset + length >? size) then invalid_range "Invalid startup prefetch range"
          else add_ranges size ranges (foldl add_target targets (range_pieces offset length))
      | _, _ => invalid_range "Invalid startup prefetch range"
      end
  | _ => invalid_range "Invalid startup prefetch range"
  end.
Definition piece_bytes (size index : Z) : Z := Z.min PIECE (size - index * PIECE).

Inductive phase := Verifying | Pumping | Settled (r : result (Z * Z)).
Record job := Job {
  j_size : Z;
  j_window : Z;
  j_indices : list Z;
  j_owned : list Z;                 (** the keys of [owned] *)
  j_next : nat;
  j_last : Z;                       (** [lastCompleted] *)
  j_aborted : option exn;
  j_phase : phase;
  j_selections : list Z;            (** the torrent's selections that notify an owner *)
  j_selected : list Z;              (** every piece selected so far *)
  j_destroyed : bool;               (** a release found the torrent destroyed *)
  j_reports : list (Z * Z)
}.
Definition j_total (j : job) : Z := sum_list_Z (piece_bytes (j_size j) <$> j_indices j).

Definition set_owned (owned : list Z) (selections : list Z) (destroyed : bool) (j : job) : job :=
  Job (j_size j) (j_window j) (j_indices j) owned (j_next j) (j_last j) (j_aborted j) (j_phase j) selections (j_selected j) destroyed (j_reports j).
Definition set_phase (x : phase) (j : job) : job :=
  Job (j_size j) (j_window j) (j_indices j) (j_owned j) (j_next j) (j_last j) (j_aborted j) x (j_selections j) (j_selected j) (j_destroyed j) (j_reports j).
Definition set_aborted (e : exn) (j : job) : job :=
  Job (j_size j) (j_window j) (j_indices j) (j_owned j) (j_next j) (j_last j) (Some e) (j_phase j) (j_selections j) (j_selected j) (j_destroyed j) (j_reports j).
Definition skip (j : job) : job :=
  Job (j_size j) (j_window j) (j_indices j) (j_owned j) (S (j_next j)) (j_last j) (j_aborted j) (j_phase j) (j_selections j) (j_selected j) (j_destroyed j) (j_reports j).

(** [snapshot().completed] and [report()]. *)
Definition completed (bits : Z → bool) (j : job) : Z :=
  sum_list_Z ((λ index, if bits index then piece_bytes (j_size j) index else 0) <$> j_indices j).
Definition report (bits : Z → bool) (j : job) : job :=
  let c := completed bits j in
  if c =? j_last j then j
  else Job (j_size j) (j_window j) (j_indices j) (j_owned j) (j_next j) c (j_aborted j) (j_phase j) (j_selections j) (j_selected j)
         (j_destroyed j) (j_reports j ++ [(c, j_total j)]).

(** [release(index)]. *)
Definition release (destroyed : bool) (index : Z) (j : job) : job :=
  if bool_decide (index ∈ j_owned j) then
    set_owned (filter (λ i, i ≠ index) (j_owned j))
      (if destroyed then j_selections j else filter (λ i, i ≠ index) (j_selections j)) (destroyed || j_destroyed j) j
  else j.
Definition release_all (destroyed : bool) (l : list Z) (j : job) : job := foldl (λ j index, release destroyed index j) j l.

(** [finish(error)]; [bits] is what the last [report()] reads. *)
Definition finish (e : option exn) (bits : Z → bool) (j : job) : job :=
  match j_phase j with
  | Settled _ => j
  | _ =>
      match e with
      | Some e => set_phase (Settled (Throw e)) j
      | None => let j := report bits j in set_phase (Settled (Ok (completed bits j, j_total j))) j
      end
  end.

(** One round of [pump]: the bits as it reads them to release, to select and to report;
    and whether selecting a piece throws. *)
Record round := Round {
  p_release : Z → bool; p_select : Z → bool; p_report : Z → bool;
  p_destroyed : bool; p_throws : Z → option exn
}.
(** [torrent._select(index,index,0,owner,true)]. *)
Definition select (throws : bool) (index : Z) (j : job) : job :=
  Job (j_size j) (j_window j) (j_indices j) (j_owned j ++ [index]) (j_next j) (j_last j) (j_aborted j) (j_phase j)
    (if throws then j_selections j else j_selections j ++ [index]) (j_selected j ++ [index]) (j_destroyed j) (j_reports j).
(** The loop that fills the window; [l] is [indices] from [next] on. *)
Fixpoint fill (p : round) (l : list Z) (j : job) : job * option exn :=
  match l with
  | [] => (j, None)
  | index :: l =>
      if Z.of_nat (length (j_owned j)) <? j_window j then
        let j := skip j in
        if p_select p index then fill p l j
        else match p_throws p index with
             | Some e => (select true index j, Some e)
             | None => fill p l (select false index j)
             end
      else (j, None)
  end.
Definition pump_round (p : round) (j : job) : job :=
  match j_aborted j with
  | Some e => finish (Some e) (p_report p) j
  | None =>
      let j := release_all (p_destroyed p) (filter (λ i, p_release p i = true) (j_owned j)) j in
      let '(j, thrown) := fill p (drop (j_next j) (j_indices j)) j in
      match thrown with
      | Some e => finish (Some e) (p_report p) j
      | None =>
          let j := report (p_report p) j in
          if completed (p_report p) j =? j_total j then finish None (p_report p) j else j
      end
  end.
(** [pump]: a piece verified during a round asks for another one ([again]). *)
Fixpoint pump (l : list round) (j : job) : job :=
  match l with
  | [] => j
  | p :: l => match j_phase j with Settled _ => j | _ => pump l (pump_round p j) end
  end.

(** ** A whole job *)
Definition prefetchStartup (size : Z) (aborted : option exn) (ranges windowPieces : jsval) (bits : Z → bool) : result job :=
  match aborted with
  | Some e => Throw e
  | None =>
      match as_array ranges, as_safe_integer windowPieces with
      | Some ranges, Some window =>
          if (window <? 1) || (window >? 32) then invalid_range "Invalid startup prefetch window"
          else
            indices ← add_ranges size ranges [];
            Ok (report bits (Job size window indices [] 0 (-1) None Verifying [] [] false []))
      | _, _ => invalid_range "Invalid startup prefetch window"
      end
  end.

Inductive event :=
| EAbort (e : exn)                                            (** the caller, the timer or the transport aborts *)
| EChecked (r : result unit) (bits : Z → bool) (l : list round) (** [verifyCachedPieces] settles *)
| EVerified (index : Z) (l : list round)                      (** the torrent verified a piece *)
| EFinally (destroyed : bool).
Definition step (e : event) (j : job) : job :=
  match e with
  | EAbort e =>
      match j_aborted j with
      | Some _ => j
      | None =>
          let j := set_aborted e j in
          match j_phase j with Pumping => finish (Some e) (λ _, false) j | _ => j end
      end
  | EChecked r bits l =>
      match j_phase j, r, j_aborted j with
      | Verifying, Throw e, _ | Verifying, Ok _, Some e => set_phase (Settled (Throw e)) j
      | Verifying, Ok _, None => pump l (set_phase Pumping (report bits j))
      | _, _, _ => j
      end
  | EVerified index l =>
      match j_phase j with
      | Pumping => if bool_decide (index ∈ j_indices j) then pump l j else j
      | _ => j
      end
  | EFinally destroyed =>
      match j_phase j with Settled _ => release_all destroyed (j_owned j) j | _ => j end
  end.
Definition run (l : list event) (j : job) : job := foldl (λ j e, step e j) j l.
