(* ===== verification/WindowCovered.v ===== *)
(** * The verified bytes of a torrent

    [describe] counts set bits byte by byte and corrects for the short last piece; this
    is the sum of the sizes of the verified pieces. *)
From S2P Require Import Prelude WindowPieces.
#[local] Open Scope Z_scope.

(** Bit fields number their bits from the highest of each byte, and a bit beyond the
    buffer is clear: the documented [get] of the bitfield package. *)
Definition bit_of (buffer : list Z) (index : Z) : bool :=
  Z.testbit (nth (Z.to_nat (index / 8)) buffer 0) (7 - index mod 8).
Definition lawful (b : bitfield) : Prop :=
  Forall (λ x, 0 ≤ x < 256) (bf_buffer b) ∧ ∀ index, 0 ≤ index → bf_get b index = bit_of (bf_buffer b) index.

(** ** One byte *)
Definition byte_bits (x : Z) (width : nat) : Z :=
  sum_list_Z ((λ j, Z.b2z (Z.testbit x (7 - j))) <$> zrange 0 width).
Definition byte_ok (x r : Z) : bool :=
  bitCounts (Z.land x (if r =? 0 then 255 else Z.shiftl 255 (8 - r))) =? byte_bits x (if r =? 0 then 8 else Z.to_nat r).
Lemma bytes_ok : forallb (λ x, forallb (byte_ok x) (zrange 0 8)) (zrange 0 256) = true.
Proof. by vm_compute. Qed.

Lemma bitCounts_masked x r : 0 ≤ x < 256 → 0 ≤ r < 8 →
  bitCounts (Z.land x (if r =? 0 then 255 else Z.shiftl 255 (8 - r))) = byte_bits x (if r =? 0 then 8 else Z.to_nat r).
Proof.
  intros Hx Hr. pose proof bytes_ok as H.
  assert (HI : ∀ n z, 0 ≤ z < Z.of_nat n → In z (zrange 0 n)) by (intros n z Hz; apply list_elem_of_In, elem_of_zrange; lia).
  pose proof (proj1 (forallb_forall _ _) H x (HI 256%nat x ltac:(lia))) as H1.
  pose proof (proj1 (forallb_forall _ _) H1 r (HI 8%nat r ltac:(lia))) as H2. by apply Z.eqb_eq.
Qed.

(** ** All bytes *)
Lemma foldl_add f (l : list Z) n : foldl (λ n x, n + f x) n l = n + sum_list_Z (f <$> l).
Proof. revert n. induction l as [|x l IH]; intros n; [cbn; lia|].
  change (sum_list_Z (f <$> x :: l)) with (f x + sum_list_Z (f <$> l)). cbn [foldl]. rewrite IH. lia.
Qed.
Lemma zrange_app first a b : zrange first (a + b) = zrange first a ++ zrange (first + Z.of_nat a) b.
Proof.
  induction a as [|a IH] in first |- *; [by rewrite Z.add_0_r|]. cbn [Nat.add]. rewrite !zrange_S, IH. cbn. do 3 f_equal. lia.
Qed.
Lemma zrange_shift first d n : zrange (d + first) n = (λ j, d + j) <$> zrange first n.
Proof.
  induction n as [|n IH] in first |- *; [done|]. rewrite !zrange_S. cbn. f_equal. by rewrite <- Z.add_assoc, IH.
Qed.
Lemma sum_ext (f g : Z → Z) l : (∀ x, x ∈ l → f x = g x) → sum_list_Z (f <$> l) = sum_list_Z (g <$> l).
Proof. intros H. induction l as [|x l IH]; [done|].
  change (f x + sum_list_Z (f <$> l) = g x + sum_list_Z (g <$> l)). rewrite (H x), IH; [done| |by left]. intros y Hy. apply H. by right.
Qed.

(** A sum over [8 n] pieces, eight at a time. *)
Lemma sum_eights (f : Z → Z) n :
  sum_list_Z (f <$> zrange 0 (8 * n)) = sum_list_Z ((λ i, sum_list_Z ((λ j, f (8 * i + j)) <$> zrange 0 8)) <$> zrange 0 n).
Proof.
  induction n as [|n IH]; [done|]. replace (8 * S n)%nat with (8 * n + 8)%nat by lia.
  replace (S n) with (n + 1)%nat by lia. rewrite !zrange_app, !fmap_app, !sum_list_Z_app, IH. f_equal.
  change (zrange (0 + Z.of_nat n) 1) with [0 + Z.of_nat n + 0]. cbn [fmap list_fmap sum_list_Z foldr]. rewrite Z.add_0_r.
  replace (0 + Z.of_nat (8 * n)) with (8 * (0 + Z.of_nat n + 0) + 0) by lia. rewrite zrange_shift, <- list_fmap_compose. done.
Qed.

Lemma bit_of_byte buffer i j : 0 ≤ j < 8 → bit_of buffer (8 * i + j) = Z.testbit (nth (Z.to_nat i) buffer 0) (7 - j).
Proof.
  intros Hj. unfold bit_of. replace (8 * i + j) with (j + i * 8) by lia.
  by rewrite Z.div_add, Z.mod_add, (Z.div_small j), (Z.mod_small j) by lia.
Qed.
Lemma nth_byte buffer k : Forall (λ x, 0 ≤ x < 256) buffer → 0 ≤ nth k buffer 0 < 256.
Proof.
  intros H. destruct (nth_in_or_default k buffer 0) as [Hin| ->]; [|lia].
  rewrite Forall_forall in H. by apply H, list_elem_of_In.
Qed.

(** The sizes that verified metadata gives (Metadata.v). *)
Definition well_sized (t : torrent) : Prop := 1 ≤ t_size t ∧ t_pieces t = ceil_div (t_size t) PIECE.

Lemma well_sized_bounds t : well_sized t → 1 ≤ t_pieces t ∧ (t_pieces t - 1) * PIECE < t_size t ≤ t_pieces t * PIECE.
Proof.
  intros [H1 H2]. unfold ceil_div, PIECE in *. Z.to_euclidean_division_equations. lia.
Qed.

Section covered.
Context (b : bitfield) (Hb : lawful b).
Let verified (i : Z) : Z := Z.b2z (bf_get b i).

Lemma byte_sum i w r :
  0 ≤ i → 0 ≤ r < 8 → w = (if r =? 0 then 8%nat else Z.to_nat r) →
  bitCounts (Z.land (nth (Z.to_nat i) (bf_buffer b) 0) (if r =? 0 then 255 else Z.shiftl 255 (8 - r))) =
  sum_list_Z ((λ j, verified (8 * i + j)) <$> zrange 0 w).
Proof using Hb.
  intros Hi Hr ->. destruct Hb as [Hby Hg]. rewrite bitCounts_masked by (done || by apply nth_byte). unfold byte_bits.
  apply sum_ext. intros j Hj%elem_of_zrange. assert (0 ≤ j < 8) by (destruct (r =? 0) eqn:E; bools; lia).
  unfold verified. by rewrite Hg, bit_of_byte by lia.
Qed.

Lemma verified_pieces_sum t :
  0 ≤ t_pieces t → verified_pieces t (Some b) = sum_list_Z (verified <$> zrange 0 (Z.to_nat (t_pieces t))).
Proof using Hb.
  intros Hp. unfold verified_pieces. rewrite foldl_add, Z.add_0_l. set (p := t_pieces t) in *.
  assert (Hc : p = 8 * (p / 8) + p mod 8 ∧ 0 ≤ p mod 8 < 8 ∧ 0 ≤ p / 8 ∧ ceil_div p 8 = p / 8 + if p mod 8 =? 0 then 0 else 1).
  { unfold ceil_div. destruct (p mod 8 =? 0) eqn:E; bools; Z.to_euclidean_division_equations; lia. }
  destruct Hc as (Ep & Hr & Hq & Ec). set (q := p / 8) in *. set (r := p mod 8) in *.
  assert (Hfull : sum_list_Z ((λ i, bitCounts (Z.land (nth (Z.to_nat i) (bf_buffer b) 0) (mask p i))) <$> zrange 0 (Z.to_nat q)) =
    sum_list_Z (verified <$> zrange 0 (8 * Z.to_nat q))).
  { rewrite sum_eights. apply sum_ext. intros i Hi%elem_of_zrange. unfold mask. fold r. rewrite Ec.
    replace (_ && _) with false; [apply (byte_sum i 8 0); [lia|lia|done]|]. symmetry. apply andb_false_iff.
    destruct (r =? 0); [by right|left]. apply Z.eqb_neq. lia. }
  destruct (r =? 0) eqn:E; bools.
  - rewrite Ec, Z.add_0_r, Hfull. do 3 f_equal. lia.
  - assert (HE : Z.to_nat (ceil_div p 8) = (Z.to_nat q + 1)%nat) by lia.
    assert (HP : Z.to_nat p = (8 * Z.to_nat q + Z.to_nat r)%nat) by lia.
    rewrite HE, HP, !zrange_app, !fmap_app, !sum_list_Z_app, Hfull. f_equal.
    replace (0 + Z.of_nat (8 * Z.to_nat q)) with (8 * q + 0) by lia. rewrite (zrange_shift 0 (8 * q)), <- list_fmap_compose.
    replace (0 + Z.of_nat (Z.to_nat q)) with q by lia. change (zrange q 1) with [q + 0]. rewrite Z.add_0_r.
    cbn [fmap list_fmap]. change (sum_list_Z [?x]) with (x + 0). unfold mask. fold r.
    replace (q =? ceil_div p 8 - 1) with true by (symmetry; apply Z.eqb_eq; lia).
    assert (HN : (r =? 0) = false) by (by apply Z.eqb_neq). rewrite HN. cbn [andb negb].
    pose proof (byte_sum q (Z.to_nat r) r Hq Hr) as HB. rewrite HN in HB. etrans; [apply Z.add_0_r|exact (HB eq_refl)].
Qed.

Lemma covered_sum t :
  well_sized t →
  coveredBytes t (Some b) = sum_list_Z ((λ i, if bf_get b i then piece_bytes (t_size t) i else 0) <$> zrange 0 (Z.to_nat (t_pieces t))).
Proof using Hb.
  intros H. destruct (well_sized_bounds t H) as [Hp Hs]. unfold coveredBytes. rewrite verified_pieces_sum by lia.
  replace (Z.to_nat (t_pieces t)) with (Z.to_nat (t_pieces t - 1) + 1)%nat by lia.
  rewrite !zrange_app, !fmap_app, !sum_list_Z_app.
  replace (0 + Z.of_nat (Z.to_nat (t_pieces t - 1))) with (t_pieces t - 1) by lia.
  change (zrange (t_pieces t - 1) 1) with [t_pieces t - 1 + 0]. rewrite Z.add_0_r. cbn [fmap list_fmap].
  assert (HE : sum_list_Z ((λ i, if bf_get b i then piece_bytes (t_size t) i else 0) <$> zrange 0 (Z.to_nat (t_pieces t - 1))) =
    sum_list_Z (verified <$> zrange 0 (Z.to_nat (t_pieces t - 1))) * PIECE).
  { rewrite (sum_ext _ (λ i, verified i * PIECE)).
    - induction (zrange 0 _) as [|x l IH]; [done|].
      change (verified x * PIECE + sum_list_Z ((λ i, verified i * PIECE) <$> l) = (verified x + sum_list_Z (verified <$> l)) * PIECE).
      rewrite IH. lia.
    - intros i Hi%elem_of_zrange. unfold verified, piece_bytes, PIECE in *. destruct (bf_get b i); cbn; lia. }
  rewrite HE. change (sum_list_Z [?x]) with (x + 0). unfold verified at 2. unfold piece_bytes, PIECE in *.
  destruct (bf_get b (t_pieces t - 1)); cbn [Z.b2z sum_list_Z foldr]; lia.
Qed.
End covered.

Lemma piece_bytes_positive t i : well_sized t → 0 ≤ i < t_pieces t → 1 ≤ piece_bytes (t_size t) i.
Proof. intros H Hi. destruct (well_sized_bounds t H) as [? ?]. unfold piece_bytes, PIECE in *. lia. Qed.

Lemma pieces_prefix t n :
  well_sized t → (n ≤ Z.to_nat (t_pieces t))%nat →
  sum_list_Z (piece_bytes (t_size t) <$> zrange 0 n) = Z.min (t_size t) (Z.of_nat n * PIECE).
Proof.
  intros H. destruct (well_sized_bounds t H) as [Hp Hs]. destruct H as [H1 _].
  induction n as [|n IH]; intros Hn; [cbn; lia|].
  rewrite zrange_snoc, fmap_app, sum_list_Z_app, IH by lia. cbn [fmap list_fmap]. change (sum_list_Z [?x]) with (x + 0).
  unfold piece_bytes, PIECE in *. lia.
Qed.
Lemma pieces_sum t : well_sized t → sum_list_Z (piece_bytes (t_size t) <$> zrange 0 (Z.to_nat (t_pieces t))) = t_size t.
Proof. intros H. rewrite pieces_prefix by done. destruct (well_sized_bounds t H). rewrite Z2Nat.id; lia. Qed.

(** A sum over the chosen elements is the whole sum just when all are chosen. *)
Lemma chosen_sum (f : Z → bool) (w : Z → Z) l :
  (∀ i, i ∈ l → 1 ≤ w i) →
  0 ≤ sum_list_Z ((λ i, if f i then w i else 0) <$> l) ≤ sum_list_Z (w <$> l) ∧
  (sum_list_Z ((λ i, if f i then w i else 0) <$> l) = sum_list_Z (w <$> l) ↔ ∀ i, i ∈ l → f i = true).
Proof.
  induction l as [|x l IH]; intros Hw; [split; [done|]; split; [by intros _ i ?%elem_of_nil|done]|].
  change (sum_list_Z (w <$> x :: l)) with (w x + sum_list_Z (w <$> l)).
  change (sum_list_Z ((λ i, if f i then w i else 0) <$> x :: l)) with ((if f x then w x else 0) + sum_list_Z ((λ i, if f i then w i else 0) <$> l)).
  destruct IH as [IH1 IH2]; [intros i ?; apply Hw; by right|]. pose proof (Hw x (list_elem_of_here _ _)). split; [destruct (f x); lia|].
  setoid_rewrite elem_of_cons. destruct (f x) eqn:E; split.
  - intros HE i [->|Hi]; [done|]. apply IH2; [lia|done].
  - intros Hall. f_equal. apply IH2. intros i Hi. apply Hall. by right.
  - lia.
  - intros Hall. specialize (Hall x (or_introl eq_refl)). congruence.
Qed.

(** The progress the Window reports is exact: the number [describe] computes from the
    bytes of the bit field (bits counted by clearing the lowest one, the unused bits of
    the last byte masked, and a correction for the short last piece) is the sum of the
    sizes of the verified pieces; it lies between 0 and the size of the file, and the
    component counts as complete just when every piece is verified. *)
Theorem covered_correct t b :
  well_sized t → lawful b →
  coveredBytes t (Some b) =
    sum_list_Z ((λ i, if bf_get b i then piece_bytes (t_size t) i else 0) <$> zrange 0 (Z.to_nat (t_pieces t))) ∧
  0 ≤ coveredBytes t (Some b) ≤ t_size t ∧
  (complete t (Some b) = true ↔ ∀ i, 0 ≤ i < t_pieces t → bf_get b i = true).
Proof.
  intros Ht Hb. rewrite (covered_sum b Hb t Ht). unfold complete. rewrite (covered_sum b Hb t Ht), Z.eqb_eq.
  assert (Hin : ∀ i, i ∈ zrange 0 (Z.to_nat (t_pieces t)) ↔ 0 ≤ i < t_pieces t).
  { intros i. rewrite elem_of_zrange. destruct (well_sized_bounds t Ht). lia. }
  destruct (chosen_sum (bf_get b) (piece_bytes (t_size t)) (zrange 0 (Z.to_nat (t_pieces t)))) as [H1 H2].
  { intros i Hi%Hin. by apply piece_bytes_positive. }
  rewrite (pieces_sum t Ht) in H1, H2. split_and!; [done|lia|lia|]. rewrite H2. by setoid_rewrite Hin.
Qed.

(** Three pieces, the last of five bytes; the first and the last are verified, and a
    stray bit beyond them is not counted. *)
Definition example_bits : bitfield := BitField [168] (bit_of [168]).
Lemma covered_correct_witness :
  let t := Torrent 3 (2 * 262144 + 5) in
  lawful example_bits ∧ well_sized t ∧ coveredBytes t (Some example_bits) = 262149 ∧ complete t (Some example_bits) = false ∧
  0 ≤ coveredBytes t (Some example_bits) ≤ t_size t.
Proof.
  intros t. assert (Hb : lawful example_bits) by (split; [by repeat constructor|done]).
  assert (Ht : well_sized t) by (split; [by vm_compute|by vm_compute]).
  split_and!; [exact Hb|exact Ht|by vm_compute|by vm_compute|..]; apply (covered_correct t example_bits Ht Hb).
Defined.
