(* ===== verification/WindowStartup.v ===== *)
(** * The startup window

    [prefetchStartup] (WindowPieces.v) selects the pieces of a startup profile a few at a
    time.  Its window stays within its bound, it takes back every selection it made, it
    succeeds only with all its pieces verified, and it never stalls. *)
From S2P Require Import Prelude JsValue WindowPieces WindowCovered.
#[local] Open Scope Z_scope.

(** ** Reading a range *)
Definition chunks (l : list turn) : bytes := concat (omap (λ r, match r_answer r with Chunk v => Some v | _ => None end) l).

Lemma copy_loop_exact l n output out :
  copy_loop l n output = Some (Ok out) → out = output ++ take n (chunks l) ∧ length out = (length output + n)%nat.
Proof.
  revert n output. induction l as [|[before a after] l IH]; intros n output; destruct n as [|n]; cbn [copy_loop]; try done.
  1, 2: intros [= <-]; rewrite app_nil_r, Nat.add_0_r; done.
  cbn [r_before r_answer r_after]. destruct before; [done|]. destruct a as [v| |e]; [|by destruct after|done]. destruct after; [done|].
  intros H. destruct (IH _ _ H) as [-> HL]. clear IH H. change (chunks (Turn None (Chunk v) None :: l)) with (v ++ chunks l).
  rewrite !length_app, !length_take in *. split; [by rewrite take_app, app_assoc|lia].
Qed.

(** An accepted range, and the bytes asked of the stream, lie within the file. *)
Lemma read_range_bounds size offset length o n :
  read_range size offset length = Ok (o, n) → 0 < n →
  0 ≤ o ∧ n ≤ 1048576 ∧ o + n ≤ size ∧ o ≤ stream_end size o n < size ∧ o + n - 1 ≤ stream_end size o n.
Proof.
  unfold read_range, stream_end. destruct (as_safe_integer offset) as [x|]; [|done]. destruct (as_safe_integer length) as [y|]; [|done].
  destruct (_ || _) eqn:E; [done|]. rewrite !orb_false_iff, !Z.gtb_ltb, !Z.ltb_ge in E. change (1024 * 1024) with 1048576 in E.
  intros [= <- <-]. lia.
Qed.

(** ** The targets *)
Lemma add_target_spec l x y : (y ∈ add_target l x ↔ y ∈ l ∨ y = x) ∧ (NoDup l → NoDup (add_target l x)).
Proof.
  unfold add_target. case_bool_decide as H.
  - split; [|done]. split; [by left|]. by intros [?| ->].
  - rewrite elem_of_app, list_elem_of_singleton. split; [done|]. intros HN. apply NoDup_app. split_and!; [done| |apply NoDup_singleton].
    by intros z Hz ->%list_elem_of_singleton.
Qed.
Lemma add_targets_spec xs l : (∀ y, y ∈ foldl add_target l xs ↔ y ∈ l ∨ y ∈ xs) ∧ (NoDup l → NoDup (foldl add_target l xs)).
Proof.
  induction xs as [|x xs IH] in l |- *; [by split; [intros y; rewrite elem_of_nil; tauto|]|]. cbn [foldl].
  destruct (IH (add_target l x)) as [H1 H2]. split.
  - intros y. rewrite H1, elem_of_cons. destruct (add_target_spec l x y) as [-> _]. tauto.
  - intros HN. apply H2. by apply (add_target_spec l x 0).
Qed.

(** A range as the job reads it. *)
Definition range_value (v : jsval) : option (Z * Z) :=
  match v with JArr [JNum (NInt o); JNum (NInt n)] => Some (o, n) | _ => None end.

Lemma range_pieces_spec o n i : 0 ≤ o → 1 ≤ n → i ∈ range_pieces o n ↔ ∃ x, o ≤ x < o + n ∧ i = x / PIECE.
Proof.
  intros Ho Hn. unfold range_pieces. rewrite elem_of_zrange. split.
  - intros Hi. exists (Z.max o (i * PIECE)). unfold PIECE in *. Z.to_euclidean_division_equations. lia.
  - intros (x & Hx & ->). unfold PIECE in *. Z.to_euclidean_division_equations. lia.
Qed.

Lemma add_ranges_spec size ranges l indices :
  add_ranges size ranges l = Ok indices →
  (NoDup l → NoDup indices) ∧
  (∀ i, i ∈ indices ↔ i ∈ l ∨ ∃ v o n x, v ∈ ranges ∧ range_value v = Some (o, n) ∧ o ≤ x < o + n ∧ i = x / PIECE) ∧
  (∀ v, v ∈ ranges → ∃ o n, range_value v = Some (o, n) ∧ 0 ≤ o ∧ 1 ≤ n ∧ o + n ≤ size).
Proof.
  induction ranges as [|v ranges IH] in l |- *.
  { intros [= <-]. split_and!; [done| |by intros v ?%elem_of_nil]. intros i. split; [by left|]. intros [?|(v & o & n & x & Hv%elem_of_nil & _)]; done. }
  cbn [add_ranges]. destruct v as [| | | | |[|a [|b [|c vs]]]|]; try done.
  destruct (as_safe_integer a) as [o|] eqn:Ea; [|done]. destruct (as_safe_integer b) as [n|] eqn:Eb; [|done].
  destruct (_ || _) eqn:E; [done|]. rewrite !orb_false_iff, Z.gtb_ltb, !Z.ltb_ge in E. destruct E as [[Ho Hn] Hs].
  apply as_safe_integer_Some in Ea as [-> _]. apply as_safe_integer_Some in Eb as [-> _].
  intros H. destruct (IH _ H) as (H1 & H2 & H3). destruct (add_targets_spec (range_pieces o n) l) as [T1 T2]. split_and!.
  - intros HN. by apply H1, T2.
  - intros i. rewrite H2, T1, range_pieces_spec by done. setoid_rewrite elem_of_cons. split.
    + intros [[?|(x & ? & ?)]|(v & o' & n' & x & ? & ?)]; [by left|right; eexists _, o, n, x; split; [by left|done]|right; eexists v, o', n', x; split; [by right|done]].
    + intros [?|(v & o' & n' & x & [->|Hv] & Er & ?)]; [by left; left| |right; by exists v, o', n', x].
      left. right. injection Er as <- <-. by exists x.
  - intros v [->|Hv]%elem_of_cons; [by exists o, n|by apply H3].
Qed.

(** Every target has bytes. *)
Lemma targets_positive size ranges indices i : add_ranges size ranges [] = Ok indices → i ∈ indices → 0 ≤ i ∧ 1 ≤ piece_bytes size i.
Proof.
  intros H Hi. destruct (add_ranges_spec _ _ _ _ H) as (_ & H2 & H3). apply H2 in Hi as [?%elem_of_nil|(v & o & n & x & Hv & Er & Hx & ->)]; [done|].
  destruct (H3 v Hv) as (o' & n' & Er' & ? & ? & ?). rewrite Er in Er'. injection Er' as <- <-.
  unfold piece_bytes, PIECE. Z.to_euclidean_division_equations. lia.
Qed.

(** ** The invariant of a job *)
Record sound (j : job) : Prop := {
  so_indices : NoDup (j_indices j);
  so_positive : ∀ i, i ∈ j_indices j → 1 ≤ piece_bytes (j_size j) i;
  so_window : 1 ≤ j_window j ≤ 32 ∧ Z.of_nat (length (j_owned j)) ≤ j_window j;
  so_owned : NoDup (j_owned j) ∧ ∀ i, i ∈ j_owned j → i ∈ take (j_next j) (j_indices j);
  so_selections : j_destroyed j = false → ∀ i, i ∈ j_selections j → i ∈ j_owned j;
  so_selected : NoDup (j_selected j) ∧ ∀ i, i ∈ j_selected j → i ∈ take (j_next j) (j_indices j)
}.

(** The target pieces are the ones with all their bytes verified. *)
Lemma completed_total j bits :
  sound j → completed bits j = j_total j ↔ ∀ i, i ∈ j_indices j → bits i = true.
Proof. intros H. by apply (chosen_sum bits (piece_bytes (j_size j)) (j_indices j)), (so_positive _ H). Qed.

(** What only the window itself changes. *)
Record same (j j' : job) : Prop := {
  sa_size : j_size j' = j_size j; sa_window : j_window j' = j_window j; sa_indices : j_indices j' = j_indices j; sa_aborted : j_aborted j' = j_aborted j
}.
Lemma same_refl j : same j j.
Proof. done. Qed.
Lemma same_trans j1 j2 j3 : same j1 j2 → same j2 j3 → same j1 j3.
Proof. intros [] []. split; congruence. Qed.

Lemma report_same bits j :
  same j (report bits j) ∧ j_owned (report bits j) = j_owned j ∧ j_next (report bits j) = j_next j ∧ j_phase (report bits j) = j_phase j ∧
  j_selections (report bits j) = j_selections j ∧ j_selected (report bits j) = j_selected j ∧ j_destroyed (report bits j) = j_destroyed j.
Proof. unfold report. by destruct (_ =? _). Qed.
Lemma sound_report bits j : sound j → sound (report bits j).
Proof. intros H. unfold report. destruct (_ =? _); [done|]. destruct H. by split. Qed.
Lemma completed_report bits bits' j : completed bits' (report bits j) = completed bits' j.
Proof. unfold report. by destruct (_ =? _). Qed.

Lemma finish_spec e bits j :
  same j (finish e bits j) ∧ j_owned (finish e bits j) = j_owned j ∧ (sound j → sound (finish e bits j)).
Proof.
  unfold finish. assert (HP : ∀ x j, sound j → sound (set_phase x j)) by (intros x j' []; by split).
  destruct (report_same bits j) as ([? ? ? ?] & O & _).
  destruct (j_phase j); [| |done]; (destruct e; split_and!; [done|done|by intros; apply HP|by split|done|by intros; apply HP, sound_report]).
Qed.

Lemma release_spec d i j :
  same j (release d i j) ∧ j_next (release d i j) = j_next j ∧ j_phase (release d i j) = j_phase j ∧
  j_owned (release d i j) = filter (λ x, x ≠ i) (j_owned j) ∧ (sound j → sound (release d i j)).
Proof.
  unfold release. case_bool_decide as Hi.
  - split_and!; try done. intros [H1 H2 H3 [H4 H4'] H5 H6]. split; try done.
    + cbn. pose proof (length_filter (λ x, x ≠ i) (j_owned j)). lia.
    + cbn. split; [by apply NoDup_filter|]. intros x [_ Hx]%list_elem_of_filter. by apply H4'.
    + cbn. destruct d; [done|]. intros Hd x [? Hx]%list_elem_of_filter. apply list_elem_of_filter. split; [done|by apply H5].
  - split_and!; try done. symmetry. apply filter_all. apply Forall_forall. intros x Hx ->. done.
Qed.
Lemma release_all_spec d l j :
  same j (release_all d l j) ∧ j_next (release_all d l j) = j_next j ∧ j_phase (release_all d l j) = j_phase j ∧
  (∀ x, x ∈ j_owned (release_all d l j) ↔ x ∈ j_owned j ∧ x ∉ l) ∧ (sound j → sound (release_all d l j)).
Proof.
  unfold release_all. induction l as [|i l IH] in j |- *; [split_and!; try done; intros x; rewrite elem_of_nil; tauto|]. cbn [foldl].
  destruct (release_spec d i j) as (A1 & A2 & A3 & A4 & A5). destruct (IH (release d i j)) as (B1 & B2 & B3 & B4 & B5).
  split_and!; [by eapply same_trans|congruence|congruence| |tauto].
  intros x. rewrite B4, A4, list_elem_of_filter, elem_of_cons. tauto.
Qed.

(** *** Filling the window *)
Lemma take_next j i l :
  drop (j_next j) (j_indices j) = i :: l →
  take (S (j_next j)) (j_indices j) = take (j_next j) (j_indices j) ++ [i] ∧ drop (S (j_next j)) (j_indices j) = l ∧
  (j_next j < length (j_indices j))%nat.
Proof.
  intros E. assert (Hi : j_indices j !! j_next j = Some i).
  { rewrite <- (Nat.add_0_r (j_next j)), <- lookup_drop, E. done. }
  split_and!; [by apply take_S_r|rewrite (drop_S _ _ _ Hi) in E; congruence|by eapply lookup_lt_Some].
Qed.

Lemma sound_skip j i l : drop (j_next j) (j_indices j) = i :: l → sound j → sound (skip j).
Proof.
  intros E [H1 H2 H3 [H4 H4'] H5 [H6 H6']]. destruct (take_next _ _ _ E) as (T & _). split; cbn [skip j_indices j_size j_window j_owned j_next j_selections j_selected j_destroyed]; try done.
  - split; [done|]. intros x Hx. rewrite T. apply elem_of_app. left. by apply H4'.
  - split; [done|]. intros x Hx. rewrite T. apply elem_of_app. left. by apply H6'.
Qed.

Lemma sound_select j i l throws :
  drop (j_next j) (j_indices j) = i :: l → Z.of_nat (length (j_owned j)) < j_window j → sound j → sound (select throws i (skip j)).
Proof.
  intros E Hw H. pose proof (sound_skip _ _ _ E H) as [H1 H2 H3 [H4 H4'] H5 [H6 H6']]. destruct (take_next _ _ _ E) as (T & _ & _).
  assert (Hni : i ∉ take (j_next j) (j_indices j)).
  { pose proof H1 as HN. change (j_indices (skip j)) with (j_indices j) in HN. rewrite <- (take_drop (j_next j) (j_indices j)), E in HN.
    apply NoDup_app in HN as (_ & HN & _). intros Hi. apply (HN i Hi). by left. }
  assert (Hnew : i ∈ take (S (j_next j)) (j_indices j)) by (rewrite T; apply elem_of_app; right; by left).
  assert (HA : ∀ m, NoDup m → (∀ x, x ∈ m → x ∈ take (j_next j) (j_indices j)) → NoDup (m ++ [i]) ∧ ∀ x, x ∈ m ++ [i] → x ∈ take (S (j_next j)) (j_indices j)).
  { intros m Hm Hin. split.
    - apply NoDup_app. split_and!; [done| |apply NoDup_singleton]. by intros x Hx%Hin ->%list_elem_of_singleton.
    - intros x [Hx%Hin| ->%list_elem_of_singleton]%elem_of_app; [|done]. rewrite T. apply elem_of_app. by left. }
  split; cbn [select skip j_indices j_size j_window j_owned j_next j_selections j_selected j_destroyed]; try done.
  - split; [apply H3|]. rewrite length_app. cbn. lia.
  - apply HA; [done|apply (so_owned _ H)].
  - intros Hd x Hx. apply elem_of_app. destruct throws; [left; by apply H5|].
    apply elem_of_app in Hx as [Hx|Hx]; [left; by apply H5|by right].
  - apply HA; [done|apply (so_selected _ H)].
Qed.

Definition rest (j : job) : nat := (length (j_owned j) + (length (j_indices j) - j_next j))%nat.

Lemma fill_spec p l j :
  drop (j_next j) (j_indices j) = l → sound j →
  let '(j', thrown) := fill p l j in
  same j j' ∧ j_phase j' = j_phase j ∧ sound j' ∧ (rest j' ≤ rest j)%nat ∧
  (∀ x, x ∈ take (j_next j') (j_indices j) → x ∈ take (j_next j) (j_indices j) ∨ p_select p x = true ∨ x ∈ j_owned j') ∧
  (∀ x, x ∈ j_owned j → x ∈ j_owned j') ∧ (∀ x, x ∈ j_owned j' → x ∈ j_owned j ∨ p_select p x = false) ∧
  (thrown = None → take (j_next j') (j_indices j) = j_indices j ∨ j_window j ≤ Z.of_nat (length (j_owned j'))) ∧
  ((∀ x, p_throws p x = None) → thrown = None).
Proof.
  induction l as [|i l IH] in j |- *; intros E H.
  { cbn. split_and!; try done; try tauto. intros _. left. apply take_ge. apply (f_equal length) in E. rewrite length_drop in E. cbn in E. lia. }
  cbn [fill]. destruct (Z.of_nat (length (j_owned j)) <? j_window j) eqn:EW; bools.
  2: { split_and!; first [done|tauto]. }
  destruct (take_next _ _ _ E) as (T & D & HL). pose proof (sound_skip _ _ _ E H) as HS.
  destruct (p_select p i) eqn:EP.
  - specialize (IH (skip j) D HS). destruct (fill p l (skip j)) as [j' th]. destruct IH as ([? ? ? ?] & I2 & I3 & I4 & I5 & I6 & I7 & I8 & I9).
    split_and!; try done; [unfold rest in *; cbn in I4; lia|].
    intros x Hx. destruct (I5 x Hx) as [Hx'|?]; [|by right]. cbn [skip j_next j_indices] in Hx'. rewrite T in Hx'.
    apply elem_of_app in Hx' as [?| ->%list_elem_of_singleton]; [by left|by right; left].
  - assert (HR : ∀ b, (rest (select b i (skip j)) ≤ rest j)%nat) by (intros b; unfold rest; cbn; rewrite length_app; cbn; lia).
    destruct (p_throws p i) as [e|] eqn:ET.
    + split_and!; try done; [by eapply sound_select| | | |].
      * intros x. cbn [select skip j_next j_owned]. rewrite T, !elem_of_app. tauto.
      * intros x Hx. cbn. apply elem_of_app. by left.
      * intros x. cbn. intros [?| ->%list_elem_of_singleton]%elem_of_app; [by left|by right].
      * intros Hn. by rewrite Hn in ET.
    + specialize (IH (select false i (skip j)) D (sound_select _ _ _ false E EW H)). destruct (fill p l _) as [j' th].
      destruct IH as ([? ? ? ?] & I2 & I3 & I4 & I5 & I6 & I7 & I8 & I9). split_and!; try done.
      * specialize (HR false). lia.
      * intros x Hx. destruct (I5 x Hx) as [Hx'|?]; [|by right]. cbn [select skip j_next j_indices] in Hx'. rewrite T in Hx'.
        apply elem_of_app in Hx' as [?| ->%list_elem_of_singleton]; [by left|right; right]. apply I6. cbn. apply elem_of_app. right. by left.
      * intros x Hx. apply I6. cbn. apply elem_of_app. by left.
      * intros x Hx. destruct (I7 x Hx) as [Hx'|?]; [|by right]. cbn in Hx'. apply elem_of_app in Hx' as [?| ->%list_elem_of_singleton]; [by left|by right].
Qed.

(** *** A round *)
Lemma pump_round_sound p j :
  sound j → same j (pump_round p j) ∧ sound (pump_round p j) ∧
  ((∀ x, j_phase j ≠ Settled x) → ∀ c t, j_phase (pump_round p j) = Settled (Ok (c, t)) →
     c = j_total j ∧ t = j_total j ∧ ∀ i, i ∈ j_indices j → p_report p i = true).
Proof.
  intros H. unfold pump_round. destruct (j_aborted j) as [e|] eqn:EA.
  { destruct (finish_spec (Some e) (p_report p) j) as (F1 & _ & F3). split_and!; [done|by apply F3|].
    intros HN c t. unfold finish. destruct (j_phase j) eqn:EP; [done..|]. by destruct (HN r). }
  destruct (release_all_spec (p_destroyed p) (filter (λ i, p_release p i = true) (j_owned j)) j) as (R1 & R2 & R3 & _ & R5).
  set (j1 := release_all _ _ j) in *. pose proof (fill_spec p _ j1 eq_refl (R5 H)) as HF. destruct (fill p _ j1) as [j2 th].
  destruct HF as (F1 & F2 & F3 & _). pose proof (same_trans _ _ _ R1 F1) as HS. destruct th as [e|].
  { destruct (finish_spec (Some e) (p_report p) j2) as (G1 & _ & G3). split_and!; [by eapply same_trans|by apply G3|].
    intros HN c t. unfold finish. destruct (j_phase j2) eqn:EP; [done..|]. destruct (HN r). congruence. }
  destruct (report_same (p_report p) j2) as (P1 & _ & _ & P4 & _). pose proof (sound_report (p_report p) _ F3) as P5.
  set (j3 := report _ j2) in *. pose proof (same_trans _ _ _ HS P1) as HS3. destruct (_ =? _) eqn:EC; bools.
  - destruct (finish_spec None (p_report p) j3) as (G1 & _ & G3). split_and!; [by eapply same_trans|by apply G3|].
    intros HN c t. pose proof (proj1 (completed_total _ _ P5) EC) as HA. rewrite (sa_indices _ _ HS3) in HA.
    assert (ET : j_total j3 = j_total j) by (destruct HS3; unfold j_total; congruence).
    assert (ER : j_total (report (p_report p) j3) = j_total j3) by (destruct (report_same (p_report p) j3) as ([] & _); unfold j_total; congruence).
    unfold finish. destruct (j_phase j3) eqn:EP; [..|destruct (HN r); congruence]; cbn; rewrite completed_report, ER; intros [= <- <-]; (split_and!; [by rewrite EC, ET|by rewrite ET|done]).
  - split_and!; [done|done|]. intros HN c t EP. destruct (HN (Ok (c, t))). congruence.
Qed.

(** *** A whole job *)
Definition unsettled (j : job) : Prop := ∀ x, j_phase j ≠ Settled x.
(** All target pieces were verified when the job read them for its last report. *)
Definition all_verified (j : job) (l : list round) : Prop := ∃ p, p ∈ l ∧ ∀ i, i ∈ j_indices j → p_report p i = true.

Lemma settled_or_not j : unsettled j ∨ ∃ x, j_phase j = Settled x.
Proof. unfold unsettled. destruct (j_phase j); [by left|by left|right; eauto]. Qed.

Lemma pump_sound l j :
  sound j → same j (pump l j) ∧ sound (pump l j) ∧
  (unsettled j → ∀ c t, j_phase (pump l j) = Settled (Ok (c, t)) → c = j_total j ∧ t = j_total j ∧ all_verified j l).
Proof.
  induction l as [|p l IH] in j |- *; intros H.
  { split_and!; [done..|]. intros HN c t E. by destruct (HN (Ok (c, t))). }
  destruct (pump_round_sound p j H) as (P1 & P2 & P3). destruct (IH _ P2) as (Q1 & Q2 & Q3).
  destruct (settled_or_not j) as [HN|[x E]]; cbn [pump].
  2: { rewrite E. split_and!; [done..|]. intros HN. by destruct (HN x). }
  replace (match j_phase j with Settled _ => j | _ => pump l (pump_round p j) end) with (pump l (pump_round p j))
    by (destruct (j_phase j) as [| |x] eqn:EP; [done|done|by destruct (HN x EP)]).
  split_and!; [by eapply same_trans|done|]. intros _ c t E.
  destruct (settled_or_not (pump_round p j)) as [HN'|[x E']].
  - destruct (Q3 HN' c t E) as (-> & -> & q & Hq & Ha). rewrite (sa_indices _ _ P1) in Ha.
    assert (ET : j_total (pump_round p j) = j_total j) by (destruct P1; unfold j_total; congruence).
    split_and!; [done|done|]. exists q. split; [by right|done].
  - assert (Ep : pump l (pump_round p j) = pump_round p j) by (destruct l; cbn; [done|by rewrite E']).
    rewrite Ep in E. destruct (P3 HN c t E) as (-> & -> & Ha). split_and!; [done|done|]. exists p. split; [by left|done].
Qed.

Definition rounds (e : event) : list round := match e with EChecked _ _ l | EVerified _ l => l | _ => [] end.
Definition same_job (j j' : job) : Prop := j_size j' = j_size j ∧ j_indices j' = j_indices j ∧ j_window j' = j_window j.

Lemma step_sound e j :
  sound j → same_job j (step e j) ∧ sound (step e j) ∧
  (∀ x, j_phase j = Settled x → j_phase (step e j) = Settled x) ∧
  (unsettled j → ∀ c t, j_phase (step e j) = Settled (Ok (c, t)) → c = j_total j ∧ t = j_total j ∧ all_verified j (rounds e)).
Proof.
  assert (HP : ∀ x j, sound j → sound (set_phase x j)) by (intros x j' []; by split).
  assert (HA : ∀ e j, sound j → sound (set_aborted e j)) by (intros x j' []; by split).
  intros H. destruct e as [e|r bits l|i l|d]; cbn [step rounds].
  - assert (HN : unsettled j → ∀ c t, j_phase j = Settled (Ok (c, t)) → c = j_total j ∧ t = j_total j ∧ all_verified j []).
    { intros HN c t E. by destruct (HN (Ok (c, t))). }
    destruct (j_aborted j); [by split_and!|]. pose proof (HA e j H) as HS.
    destruct (j_phase j) eqn:EP; cbn [set_aborted j_phase]; rewrite ?EP.
    + split_and!; try done. cbn. rewrite EP. done.
    + unfold finish. cbn [set_aborted j_phase]. rewrite EP. split_and!; [done|by apply HP|done|done].
    + split_and!; try done; cbn; rewrite EP; [by intros x [= ->]|]. intros HU. by destruct (HU r).
  - assert (HN : unsettled j → ∀ c t, j_phase j = Settled (Ok (c, t)) → c = j_total j ∧ t = j_total j ∧ all_verified j l).
    { intros HN c t E. by destruct (HN (Ok (c, t))). }
    destruct (j_phase j) eqn:EP; [|destruct r; by split_and!; try done; rewrite EP|destruct r; split_and!; try done; rewrite EP; [by intros ? [= ->]|done|by intros ? [= ->]|done]].
    destruct r as [u|e]; [|by split_and!; [..|apply HP|done|]]. destruct (j_aborted j); [by split_and!; [..|apply HP|done|]|].
    destruct (pump_sound l (set_phase Pumping (report bits j)) (HP _ _ (sound_report bits _ H))) as (P1 & P2 & P3).
    destruct (report_same bits j) as ([S1 S2 S3 _] & _). destruct P1 as [Q1 Q2 Q3 _]. cbn in Q1, Q2, Q3.
    split_and!; [by split_and!; congruence|done|done|]. intros _ c t E. destruct (P3 ltac:(done) c t E) as (-> & -> & q & Hq & Ha).
    cbn in Ha. rewrite S3 in Ha. assert (ET : j_total (set_phase Pumping (report bits j)) = j_total j) by (unfold j_total; cbn [set_phase j_size j_indices]; by rewrite S1, S3).
    split_and!; [done|done|by exists q].
  - destruct (j_phase j) eqn:EP.
    + split_and!; try done; rewrite EP; done.
    + destruct (bool_decide _); [|by split_and!; try done; rewrite EP].
      destruct (pump_sound l j H) as ([] & P2 & P3). by split_and!.
    + split_and!; try done; rewrite EP; [by intros ? [= ->]|]. intros HU. by destruct (HU r).
  - destruct (j_phase j) eqn:EP; [by split_and!; try done; rewrite EP..|].
    destruct (release_all_spec d (j_owned j) j) as ([] & _ & R3 & _ & R5). rewrite EP in R3.
    split_and!; [done|by apply R5|by intros x [= <-]|]. intros HU. by destruct (HU r).
Qed.

Lemma startup_run_sound l j :
  sound j → unsettled j →
  let j' := run l j in
  same_job j j' ∧ sound j' ∧
  (∀ c t, j_phase j' = Settled (Ok (c, t)) → c = j_total j ∧ t = j_total j ∧ ∃ e, e ∈ l ∧ all_verified j (rounds e)).
Proof.
  intros H HN. unfold run. induction l as [|e l IH] using rev_ind; [split_and!; [done..|]; intros c t E; by destruct (HN (Ok (c, t)))|].
  rewrite foldl_app. cbn [foldl]. destruct IH as ((I1 & I2 & I3) & I4 & I5). set (j1 := foldl _ j l) in *.
  destruct (step_sound e j1 I4) as ((S1 & S2 & S3) & S4 & S5 & S6).
  assert (ET : j_total j1 = j_total j) by (unfold j_total; congruence).
  split_and!; [by split_and!; congruence|done|]. intros c t E. destruct (settled_or_not j1) as [HU|[x Ex]].
  - destruct (S6 HU c t E) as (-> & -> & q & Hq & Ha). split_and!; [done|done|]. exists e. split; [apply elem_of_app; right; by left|].
    exists q. split; [done|]. by rewrite I2 in Ha.
  - pose proof (S5 x Ex) as Ex'. rewrite E in Ex'. injection Ex' as <-. destruct (I5 c t Ex) as (-> & -> & e' & He & Ha).
    split_and!; [done|done|]. exists e'. split; [apply elem_of_app; by left|done].
Qed.

Lemma start_sound size aborted ranges window bits j :
  prefetchStartup size aborted ranges window bits = Ok j →
  ∃ l, as_array ranges = Some l ∧ add_ranges size l [] = Ok (j_indices j) ∧ j_size j = size ∧ as_safe_integer window = Some (j_window j) ∧
  sound j ∧ j_phase j = Verifying ∧ j_aborted j = None.
Proof.
  unfold prefetchStartup. destruct aborted; [done|]. destruct (as_array ranges) as [l|]; [|done]. destruct (as_safe_integer window) as [w|]; [|done].
  destruct (_ || _) eqn:E; [done|]. rewrite orb_false_iff, Z.gtb_ltb, !Z.ltb_ge in E. intros H. inv_bind. subst j.
  set (j0 := Job _ _ _ _ _ _ _ _ _ _ _ _). destruct (report_same bits j0) as ([S1 S2 S3 S4] & _ & _ & S5 & _).
  exists l. rewrite S1, S2, S3, S4, S5. cbn. split_and!; try done. apply sound_report. destruct (add_ranges_spec _ _ _ _ H0) as (A1 & _).
  split; cbn; try done; [apply A1, NoDup_nil_2|by intros i Hi; eapply targets_positive|lia|..].
  all: by split; [apply NoDup_nil_2|intros i ?%elem_of_nil].
Qed.

(** C23: A startup prefetch that was accepted, whatever its torrent, its caller and its
    timer do: its targets are the pieces its ranges touch, each once; it selects none of
    them twice and at most [windowPieces] (at most 32) are selected at a time; it
    succeeds only after one of its rounds has read every target piece as verified, and
    then reports the whole total; and when it ends it gives up all it owns, so none of
    its selections stays behind in a live torrent. *)
Theorem startup_window size aborted ranges window bits j l :
  prefetchStartup size aborted ranges window bits = Ok j →
  let j' := run l j in
  NoDup (j_indices j') ∧
  (∀ i, i ∈ j_indices j' ↔
     ∃ rs v o n x, as_array ranges = Some rs ∧ v ∈ rs ∧ range_value v = Some (o, n) ∧ o ≤ x < o + n ∧ i = x / PIECE) ∧
  NoDup (j_selected j') ∧ Z.of_nat (length (j_owned j')) ≤ j_window j' ≤ 32 ∧
  (j_destroyed j' = false → ∀ i, i ∈ j_selections j' → i ∈ j_owned j') ∧
  (∀ c t, j_phase j' = Settled (Ok (c, t)) → c = j_total j' ∧ t = j_total j' ∧ ∃ e, e ∈ l ∧ all_verified j' (rounds e)) ∧
  (∀ r, j_phase j' = Settled r →
     let j'' := step (EFinally false) j' in j_owned j'' = [] ∧ (j_destroyed j'' = false → j_selections j'' = [])).
Proof.
  intros H. destruct (start_sound _ _ _ _ _ _ H) as (rs & Er & Ea & _ & _ & HS & HP & _).
  destruct (startup_run_sound l j HS) as ((E1 & E2 & E3) & HS' & HOk); [by intros x; rewrite HP|]. cbv zeta. set (j' := run l j) in *.
  destruct (add_ranges_spec _ _ _ _ Ea) as (_ & HI & _).
  assert (ET : j_total j' = j_total j) by (unfold j_total; by rewrite E1, E2).
  split_and!; [apply HS'| |apply HS'|apply HS'|apply HS'|apply HS'| |].
  - intros i. rewrite E2, HI. split.
    + intros [?%elem_of_nil|(v & o & n & x & ?)]; [done|]. by exists rs, v, o, n, x.
    + intros (rs' & v & o & n & x & Er' & ?). right. exists v, o, n, x. by rewrite Er in Er'; injection Er' as <-.
  - intros c t E. destruct (HOk c t E) as (-> & -> & e & He & p & Hp & Hall). rewrite ET. split_and!; [done|done|].
    exists e. split; [done|]. exists p. by rewrite E2.
  - intros r E. cbn [step]. rewrite E. destruct (release_all_spec false (j_owned j') j') as (_ & _ & _ & R4 & R5).
    assert (HO : j_owned (release_all false (j_owned j') j') = []).
    { destruct (j_owned (release_all false (j_owned j') j')) as [|x m] eqn:EO; [done|]. destruct (proj1 (R4 x) (list_elem_of_here _ _)) as [? []]. done. }
    split; [done|]. intros Hd. pose proof (so_selections _ (R5 HS') Hd) as HN. rewrite HO in HN.
    destruct (j_selections _) as [|x m]; [done|]. specialize (HN x (list_elem_of_here _ _)). by apply elem_of_nil in HN.
Qed.

(** ** Progress *)

(** A round in which nothing interferes: the torrent is alive and verified pieces stay
    verified, as for [bits]. *)
Definition steady (bits : Z → bool) : round := Round bits bits bits false (λ _, None).
(** The pieces the job has passed and does not own are verified. *)
Definition passed (bits : Z → bool) (j : job) : Prop := ∀ i, i ∈ take (j_next j) (j_indices j) → i ∉ j_owned j → bits i = true.

Lemma steady_round bits j :
  sound j → unsettled j → j_aborted j = None → passed bits j →
  let j' := pump_round (steady bits) j in
  j_phase j' = Settled (Ok (j_total j, j_total j)) ∨
  (j_phase j' = j_phase j ∧ passed bits j' ∧ (∃ i, i ∈ j_owned j') ∧ (∀ i, i ∈ j_owned j' → bits i = false) ∧
   (rest j' ≤ rest j)%nat ∧ ((∃ i, i ∈ j_owned j ∧ bits i = true) → (rest j' < rest j)%nat)).
Proof.
  intros H HU HA HK. cbv zeta. unfold pump_round. rewrite HA. cbn [steady p_destroyed p_release p_report].
  set (verified := filter _ (j_owned j)).
  destruct (release_all_spec false verified j) as ([R1 R1' R2 R2'] & R3 & R4 & R5 & R6). set (j1 := release_all _ _ j) in *. specialize (R6 H).
  assert (HO1 : ∀ i, i ∈ j_owned j1 ↔ i ∈ j_owned j ∧ bits i = false).
  { intros i. rewrite R5. unfold verified. rewrite list_elem_of_filter. destruct (bits i); intuition congruence. }
  assert (HR : (rest j1 ≤ rest j)%nat ∧ ((∃ i, i ∈ j_owned j ∧ bits i = true) → (rest j1 < rest j)%nat)).
  { unfold rest. rewrite R3, R2. destruct (so_owned _ R6) as [HN1 _]. split.
    - assert (length (j_owned j1) ≤ length (j_owned j))%nat; [|lia]. apply submseteq_length, NoDup_submseteq; [done|]. intros i Hi. by apply HO1.
    - intros (i & Hi & Hb). assert (length (i :: j_owned j1) ≤ length (j_owned j))%nat as HL; [|cbn in HL; lia].
      apply submseteq_length, NoDup_submseteq.
      + apply NoDup_cons. split; [|done]. intros Hin%HO1. destruct Hin. congruence.
      + intros x [->|Hx]%elem_of_cons; [done|]. by apply HO1. }
  pose proof (fill_spec (steady bits) _ j1 eq_refl R6) as HF. cbn [steady] in HF. fold (steady bits) in HF. destruct (fill (steady bits) _ j1) as [j2 th].
  destruct HF as ([F1 F1' F2 F2'] & F3 & F4 & F5 & F6 & F7 & F8 & F9 & F10). rewrite (F10 ltac:(done)) in *. clear F10.
  destruct (report_same bits j2) as ([P1 P1' P2 P2'] & PO & PN & PP & _). pose proof (sound_report bits _ F4) as PS. set (j3 := report bits j2) in *.
  assert (ET : j_total j3 = j_total j) by (unfold j_total; congruence).
  destruct (_ =? _) eqn:EC; bools.
  - left. unfold finish. destruct (j_phase j3) as [| |x] eqn:EP; [..|by destruct (HU x); congruence].
    all: cbn [set_phase j_phase]; rewrite completed_report, EC, ET; do 3 f_equal; destruct (report_same bits j3) as ([] & _); unfold j_total; congruence.
  - right. assert (HK3 : passed bits j3).
    { intros i Hi Hni. rewrite PN, P2, F2 in Hi. rewrite PO in Hni. destruct (F6 i Hi) as [Hi'|[Hb|Ho]]; [|done|done].
      rewrite R3, R2 in Hi'. destruct (bits i) eqn:Eb; [done|]. rewrite <- Eb. apply HK; [done|]. intros Ho. apply Hni, F7, HO1. done. }
    split_and!; [congruence|done| | |unfold rest in *; rewrite PO, PN, P2; rewrite F2 in *; lia|].
    + assert (Hex : ¬ ∀ i, i ∈ j_indices j3 → bits i = true) by (intros Hall; apply EC, completed_total; done).
      destruct (j_owned j3) as [|i m] eqn:EO; [exfalso|by exists i; left]. apply Hex. intros i Hi.
      apply HK3; [|rewrite EO; apply not_elem_of_nil]. rewrite PN, P2, F2. rewrite P2, F2 in Hi. destruct (F9 eq_refl) as [E|Hw]; [by rewrite E|].
      rewrite <- PO in Hw. cbn in Hw. destruct (so_window _ F4). lia.
    + intros i. rewrite PO. intros [Hi|Hi]%F8; [by apply HO1|done].
    + intros Hex. destruct HR as [_ HR]. specialize (HR Hex). unfold rest in *. rewrite PO, PN, P2. rewrite F2 in *. lia.
Qed.

(** The torrent verifies, one after the other, pieces that the job owns then; what was
    verified stays so. *)
Fixpoint answers (l : list (Z * (Z → bool))) (bits : Z → bool) (j : job) : Prop :=
  match l with
  | [] => True
  | (i, b) :: l =>
      (unsettled j → i ∈ j_owned j) ∧ b i = true ∧ (∀ x, bits x = true → b x = true) ∧ answers l b (step (EVerified i [steady b]) j)
  end.
Definition verifications (l : list (Z * (Z → bool))) : list event := (λ p, EVerified p.1 [steady p.2]) <$> l.
Definition finished (total : Z) (j : job) : Prop := j_phase j = Settled (Ok (total, total)).
Definition waits (bits : Z → bool) (j : job) : Prop :=
  sound j ∧ j_phase j = Pumping ∧ j_aborted j = None ∧ passed bits j ∧ (∃ i, i ∈ j_owned j) ∧ ∀ i, i ∈ j_owned j → bits i = false.

Lemma finished_stays e t j : finished t j → finished t (step e j).
Proof.
  unfold finished. intros E. destruct e as [e|r b l|i l|d]; cbn [step].
  - destruct (j_aborted j); [done|]. cbn [set_aborted j_phase]. by rewrite E.
  - rewrite E. by destruct r.
  - by rewrite E.
  - rewrite E. destruct (release_all_spec d (j_owned j) j) as (_ & _ & R & _). congruence.
Qed.

Lemma waits_step i b bits j :
  waits bits j → i ∈ j_owned j → b i = true → (∀ x, bits x = true → b x = true) →
  let j' := step (EVerified i [steady b]) j in
  finished (j_total j) j' ∨ (waits b j' ∧ (rest j' < rest j)%nat).
Proof.
  intros (HS & HP & HA & HK & _ & _) Hi Hb Hm. cbn [step]. rewrite HP.
  assert (Hin : i ∈ j_indices j).
  { destruct (so_owned _ HS) as [_ HO]. apply HO in Hi. rewrite <- (take_drop (j_next j) (j_indices j)). apply elem_of_app. by left. }
  rewrite bool_decide_true by done. cbn [pump]. rewrite HP.
  assert (HU : unsettled j) by (intros x; by rewrite HP). assert (HKb : passed b j) by (intros x ? ?; by apply Hm, HK).
  destruct (pump_round_sound (steady b) j HS) as ([] & HS' & _).
  destruct (steady_round b j HS HU HA HKb) as [E|(E & H1 & H2 & H3 & H4 & H5)]; [by left|right].
  split; [|by apply H5; exists i]. unfold waits. split_and!; [done|congruence|congruence|done|done|done].
Qed.

(** The bits after the last verification. *)
Definition last_bits (bits : Z → bool) (l : list (Z * (Z → bool))) : Z → bool := from_option snd bits (last l).

Lemma last_bits_cons bits p l : last_bits bits (p :: l) = last_bits p.2 l.
Proof. unfold last_bits. destruct l as [|q l]; [done|]. rewrite last_cons_cons. destruct (last (q :: l)) eqn:E; [done|]. by apply last_None in E. Qed.

Lemma finished_run l t j : finished t j → finished t (run l j).
Proof. induction l as [|e l IH] in j |- *; intros E; [done|]. by apply (IH (step e j)), finished_stays. Qed.

Lemma answers_end l bits j t :
  t = j_total j → finished t j ∨ waits bits j → answers l bits j →
  let j' := run (verifications l) j in
  finished t j' ∨ (waits (last_bits bits l) j' ∧ (rest j' + length l ≤ rest j)%nat).
Proof.
  induction l as [|[i b] l IH] in bits, j |- *; intros -> H HL; [destruct H; [by left|right; split; [done|cbn; lia]]|].
  destruct H as [H|H]; [left; by apply finished_run|]. destruct HL as (Hi & Hb & Hm & HL).
  assert (HU : unsettled j) by (destruct H as (_ & E & _); intros x; by rewrite E).
  change (run (verifications ((i, b) :: l)) j) with (run (verifications l) (step (EVerified i [steady b]) j)).
  rewrite last_bits_cons. cbn [snd].
  destruct (step_sound (EVerified i [steady b]) j (proj1 H)) as ((E1 & E2 & _) & _).
  assert (ET : j_total j = j_total (step (EVerified i [steady b]) j)) by (unfold j_total; by rewrite E1, E2).
  destruct (waits_step i b bits j H (Hi HU) Hb Hm) as [HF|[HW HR]]; [left; by apply finished_run|].
  destruct (IH b (step (EVerified i [steady b]) j) ET (or_intror HW) HL) as [?|[? ?]]; [by left|right; split; [done|cbn [length]; lia]].
Qed.

(** C24: The startup window never stalls.  When verified pieces stay verified and nothing
    aborts, then from the start of the window on, however the torrent orders its
    verifications of pieces that the job owns: the job has succeeded, or it owns a piece
    that is not verified yet, so that the torrent is still working for it; and as many
    verifications as there are target pieces are always enough. *)
Theorem startup_finishes size ranges window bits0 j bits l :
  prefetchStartup size None ranges window bits0 = Ok j →
  let j1 := step (EChecked (Ok tt) bits [steady bits]) j in
  answers l bits j1 →
  let j2 := run (verifications l) j1 in
  j_phase j2 = Settled (Ok (j_total j, j_total j)) ∨
  ((length l < length (j_indices j))%nat ∧ ∃ i, i ∈ j_owned j2 ∧ last_bits bits l i = false).
Proof.
  intros H j1 HL j2. destruct (start_sound _ _ _ _ _ _ H) as (rs & _ & _ & _ & _ & HS & HP & HA).
  assert (E0 : j_owned j = [] ∧ j_next j = 0%nat).
  { unfold prefetchStartup in H. destruct (as_array ranges); [|done]. destruct (as_safe_integer window); [|done]. destruct (_ || _); [done|]. inv_bind.
    subst j. by destruct (report_same bits0 (Job size z a [] 0 (-1) None Verifying [] [] false [])) as (_ & -> & -> & _). }
  destruct E0 as [EO EN]. set (j0 := set_phase Pumping (report bits j)).
  destruct (report_same bits j) as ([R1 R1' R2 R2'] & RO & RN & _).
  assert (HS0 : sound j0) by (destruct (sound_report bits j HS); by split).
  assert (E1 : j1 = pump_round (steady bits) j0) by (unfold j1; cbn [step]; rewrite HP, HA; done).
  assert (HT : j_total j0 = j_total j) by (unfold j_total; cbn [j0 set_phase j_size j_indices]; by rewrite R1, R2).
  assert (HK : passed bits j0) by (intros i Hi; cbn in Hi; rewrite RN, EN in Hi; by apply elem_of_nil in Hi).
  assert (HA0 : j_aborted j0 = None) by (cbn; by rewrite R2').
  destruct (pump_round_sound (steady bits) j0 HS0) as (S1 & S2 & _).
  assert (HT1 : j_total j = j_total j1) by (rewrite E1, <- HT; destruct S1; unfold j_total; congruence).
  assert (HW : finished (j_total j) j1 ∨ (waits bits j1 ∧ (rest j1 ≤ length (j_indices j))%nat)).
  { rewrite E1. destruct (steady_round bits j0 HS0 ltac:(done) HA0 HK) as [E|(E & K1 & K2 & K3 & K4 & _)]; [left; by rewrite <- HT|right].
    split; [unfold waits; split_and!; [done|by rewrite E|by rewrite (sa_aborted _ _ S1)|done|done|done]|].
    unfold rest in K4 at 2. cbn in K4. rewrite RO, EO, R2 in K4. cbn in K4. lia. }
  destruct (answers_end l bits j1 (j_total j) HT1) as [HF|[HW2 HR]]; [tauto|done|by left|right].
  destruct HW as [HF|[_ HR1]].
  - exfalso. assert (E : finished (j_total j) j2) by (by apply finished_run). destruct HW2 as (_ & EP & _). unfold finished in E. unfold j2 in E. congruence.
  - destruct HW2 as (_ & _ & _ & _ & (i & Hi) & HB). split; [|exists i; split; [done|by apply HB]].
    assert (1 ≤ rest j2)%nat; [|unfold j2 in *; lia]. unfold rest. fold j2 in Hi. destruct (j_owned j2); [by apply elem_of_nil in Hi|cbn; lia].
Qed.

(** ** At work *)
Module Toy.
Definition range (o n : Z) : jsval := JArr [JNum (NInt o); JNum (NInt n)].
Definition size : Z := 5 * PIECE + 7.
(** The pieces 0, 1, 4 and 5, a window of two; piece 1 is in the cache. *)
Definition ranges : jsval := JArr [range 10 300000; range (4 * PIECE) (PIECE + 7)].
Definition cached : Z → bool := λ i, i =? 1.
Definition start : result job := prefetchStartup size None ranges (JNum (NInt 2)) (λ _, false).
Definition upto (l : list Z) : Z → bool := λ i, bool_decide (i ∈ 1 :: l).
Definition order : list (Z * (Z → bool)) := [(4, upto [4]); (0, upto [4; 0]); (5, upto [4; 0; 5])].
Definition checked : event := EChecked (Ok tt) cached [steady cached].
End Toy.

Lemma startup_window_witness :
  match Toy.start with
  | Ok j =>
      let j' := run (Toy.checked :: verifications Toy.order) j in
      j_indices j' = [0; 1; 4; 5] ∧ j_reports j' = [(0, 786439); (262144, 786439); (524288, 786439); (786432, 786439); (786439, 786439)] ∧
      j_selected j' = [0; 4; 5] ∧ j_phase j' = Settled (Ok (786439, 786439)) ∧ NoDup (j_selected j')
  | Throw _ => False
  end.
Proof.
  destruct Toy.start as [j|e] eqn:E; [|by vm_compute in E].
  destruct (startup_window _ _ _ _ _ _ (Toy.checked :: verifications Toy.order) E) as (_ & _ & HN & _).
  vm_compute in E. injection E as E. subst j. split_and!; [by vm_compute..|exact HN].
Defined.

Lemma startup_finishes_witness :
  match Toy.start with
  | Ok j =>
      let j1 := step (EChecked (Ok tt) Toy.cached [steady Toy.cached]) j in
      (length Toy.order < length (j_indices j))%nat ∧
      (j_phase (run (verifications Toy.order) j1) = Settled (Ok (j_total j, j_total j)) ∨ ∃ i, i ∈ j_owned (run (verifications Toy.order) j1))
  | Throw _ => False
  end.
Proof.
  destruct Toy.start as [j|e] eqn:E; [|by vm_compute in E]. pose proof E as E'. vm_compute in E'. injection E' as E'.
  assert (HL : answers Toy.order Toy.cached (step (EChecked (Ok tt) Toy.cached [steady Toy.cached]) j)).
  { assert (HM : ∀ l l' x, (∀ y, y ∈ l → y ∈ l') → Toy.upto l x = true → Toy.upto l' x = true).
    { intros l l' x Hl. unfold Toy.upto. rewrite !bool_decide_eq_true, !elem_of_cons. intuition. }
    subst j. cbn [answers Toy.order]. split_and!; try (by vm_compute);
      try (intros _; apply (bool_decide_unpack _); by vm_compute); try (intros x; apply HM; set_solver).
    intros x. unfold Toy.cached, Toy.upto. intros Hx. bools. subst x. by vm_compute. }
  destruct (startup_finishes _ _ _ _ _ _ Toy.order E HL) as [HF|[_ (i & Hi & _)]].
  - split; [subst j; by vm_compute|by left].
  - split; [subst j; by vm_compute|right; by exists i].
Defined.
