(* ===== verification/WindowOpening.v ===== *)
(** * Opening a torrent once (src/src/disk/web/torrent-window.js: WindowTorrents.open)

    Several readers may open one torrent at the same time; they share one job.  A reader
    may give up; the job is aborted when its last reader has, and a reader that comes
    then waits for the aborted job to end before it starts another one.

    One infohash is modelled, with every job it ever had.  The body of a job (finding the
    metadata, [add]) is the environment: an event settles it. *)
From S2P Require Import Prelude.
#[local] Open Scope Z_scope.

(** ** State *)
Record job := Job {
  j_aborted : bool;                    (** [controller.signal.aborted] *)
  j_waiters : Z;
  j_settled : option (result Z)        (** how the promise settled; a value stands for a description *)
}.
Inductive call :=
| Draining (n : nat)                   (** awaits the end of the aborted job [n] *)
| Waiting (n : nat)                    (** awaits job [n] *)
| Over (r : result Z).

Record opening := Opening {
  o_jobs : list job;                   (** every job of this infohash, by age *)
  o_current : option nat;              (** [openingJobs.get(hash)] *)
  o_entry : option (result Z);         (** [entries.get(hash)]: its description or its error *)
  o_barred : bool;                     (** closed, or clearing the cache *)
  o_calls : list call                  (** the calls of [open] so far *)
}.
Definition new_opening : opening := Opening [] None None false [].

Definition CANCELLED : exn := Exn (Some "CANCELLED"%string) "Torrent operation cancelled".
Definition BARRED : exn := Exn (Some "CANCELLED"%string) "Torrent transport is closed or clearing its cache".

Definition set_jobs (x : list job) (s : opening) : opening := Opening x (o_current s) (o_entry s) (o_barred s) (o_calls s).
Definition set_current (x : option nat) (s : opening) : opening := Opening (o_jobs s) x (o_entry s) (o_barred s) (o_calls s).
Definition set_calls (x : list call) (s : opening) : opening := Opening (o_jobs s) (o_current s) (o_entry s) (o_barred s) x.
Definition change_job (n : nat) (f : job → job) (s : opening) : opening := set_jobs (alter f n (o_jobs s)) s.

Definition add_waiter (j : job) : job := Job (j_aborted j) (j_waiters j + 1) (j_settled j).
(** The [finally] of [open]. *)
Definition drop_waiter (j : job) : job :=
  let waiters := j_waiters j - 1 in
  Job (j_aborted j || ((waiters =? 0) && match j_settled j with None => true | Some _ => false end)) waiters (j_settled j).
Definition abort_job (j : job) : job := Job true (j_waiters j) (j_settled j).
Definition settle_job (r : result Z) (j : job) : job :=
  match j_settled j with None => Job (j_aborted j) (j_waiters j) (Some r) | Some _ => j end.

(** [open] up to its first await, for the call [k]; [signalled]: its signal is aborted. *)
Definition enter (k : nat) (signalled : bool) (s : opening) : opening :=
  let over r := set_calls (<[k := Over r]> (o_calls s)) s in
  if signalled then over (Throw CANCELLED)
  else if o_barred s then over (Throw BARRED)
  else
    match o_current s with
    | Some n =>
        match o_jobs s !! n with
        | Some j =>
            if j_aborted j then set_calls (<[k := Draining n]> (o_calls s)) s
            else change_job n add_waiter (set_calls (<[k := Waiting n]> (o_calls s)) s)
        | None => s
        end
    | None =>
        match o_entry s with
        | Some r => over r
        | None =>
            let n := length (o_jobs s) in
            Opening (o_jobs s ++ [add_waiter (Job false 0 None)]) (Some n) None (o_barred s) (<[k := Waiting n]> (o_calls s))
        end
    end.

(** [waitFor] of call [k] ends with [r]. *)
Definition leave (k n : nat) (r : result Z) (s : opening) : opening :=
  change_job n drop_waiter (set_calls (<[k := Over r]> (o_calls s)) s).

Inductive event :=
| EOpen (signalled : bool)             (** a new call *)
| EAbort (k : nat)                     (** the signal of call [k] *)
| EWake (k : nat)                      (** call [k] goes on after the job it awaits has settled *)
| ESettle (r : result Z) (entry : option (result Z)) (** the current job ends and leaves [entry] *)
| EEntry (entry : option (result Z))   (** the torrent is removed or fails *)
| ECancel                              (** [cancel()] *)
| EBar (barred : bool).                (** [close()], and [clearCaches()] around its work *)
Definition step (e : event) (s : opening) : opening :=
  match e with
  | EOpen signalled =>
      let s' := set_calls (o_calls s ++ [Over (Throw CANCELLED)]) s in
      enter (length (o_calls s)) signalled s'
  | EAbort k =>
      match o_calls s !! k with
      | Some (Waiting n) => leave k n (Throw CANCELLED) s
      | Some (Draining n) => set_calls (<[k := Over (Throw CANCELLED)]> (o_calls s)) s
      | _ => s
      end
  | EWake k =>
      match o_calls s !! k with
      | Some (Waiting n) =>
          match o_jobs s !! n with
          | Some j => match j_settled j with Some r => leave k n r s | None => s end
          | None => s
          end
      | Some (Draining n) =>
          match o_jobs s !! n with
          | Some j => match j_settled j with Some _ => enter k false s | None => s end
          | None => s
          end
      | _ => s
      end
  | ESettle r entry =>
      match o_current s with
      | Some n =>
          let s := change_job n (settle_job r) s in
          Opening (o_jobs s) None entry (o_barred s) (o_calls s)
      | None => s
      end
  | EEntry entry => match o_current s with None => Opening (o_jobs s) None entry (o_barred s) (o_calls s) | Some _ => s end
  | ECancel => match o_current s with Some n => change_job n abort_job s | None => s end
  | EBar barred => Opening (o_jobs s) (o_current s) (o_entry s) barred (o_calls s)
  end.
Definition run (l : list event) (s : opening) : opening := foldl (λ s e, step e s) s l.

(** ** Facts *)
#[export] Instance call_eq_dec : EqDecision call.
Proof. solve_decision. Defined.

Definition awaits (n : nat) (c : call) : Z := if decide (c = Waiting n) then 1 else 0.
Definition waiting (n : nat) (calls : list call) : Z := sum_list_Z (awaits n <$> calls).

Lemma waiting_insert n k c c' calls :
  calls !! k = Some c → waiting n (<[k := c']> calls) = waiting n calls - awaits n c + awaits n c'.
Proof.
  unfold waiting. induction calls as [|x calls IH] in k |- *; [done|]. destruct k as [|k]; cbn [lookup list_lookup].
  - intros [= ->]. cbn. lia.
  - intros H. change (<[S k := c']> (x :: calls)) with (x :: <[k := c']> calls).
    change (awaits n x + sum_list_Z (awaits n <$> <[k:=c']> calls) = awaits n x + sum_list_Z (awaits n <$> calls) - awaits n c + awaits n c').
    rewrite (IH k) by done. lia.
Qed.
Lemma awaits_nonneg n c : 0 ≤ awaits n c.
Proof. unfold awaits. by case_decide. Qed.
Lemma waiting_nonneg n calls : 0 ≤ waiting n calls.
Proof. apply sum_list_Z_nonneg, Forall_fmap, Forall_forall. intros c _. apply awaits_nonneg. Qed.
Lemma waiting_snoc n calls c : waiting n (calls ++ [c]) = waiting n calls + awaits n c.
Proof. unfold waiting. rewrite fmap_app, sum_list_Z_app. cbn. lia. Qed.

#[local] Arguments waiting : simpl never.
#[local] Arguments awaits : simpl never.

(** [cancelled]: whether [cancel()] may have aborted jobs. *)
Record shared (cancelled : bool) (s : opening) : Prop := {
  sh_current : ∀ n, o_current s = Some n ↔ ∃ j, o_jobs s !! n = Some j ∧ j_settled j = None;
  sh_waiters : ∀ n j, o_jobs s !! n = Some j → j_waiters j = waiting n (o_calls s);
  sh_known : ∀ n, n ∉ seq 0 (length (o_jobs s)) → waiting n (o_calls s) = 0;
  sh_needed : ∀ n j, o_jobs s !! n = Some j → j_settled j = None → j_aborted j = false → 1 ≤ j_waiters j;
  sh_aborted : cancelled = false → ∀ n j, o_jobs s !! n = Some j → j_settled j = None → j_aborted j = true → j_waiters j = 0
}.

Lemma shared_new b : shared b new_opening.
Proof. split; try done. intros n. split; [done|]. by intros (j & H & _). Qed.

(** A call changes between states that await no job. *)
Lemma shared_calls b s calls :
  shared b s → (∀ n, waiting n calls = waiting n (o_calls s)) → shared b (set_calls calls s).
Proof. intros [H1 H2 H3 H4 H5] HW. split; cbn; [done| | |done|done]; intros n; [intros j Hj|intros Hn]; rewrite HW; auto. Qed.

Lemma awaits_over n r : awaits n (Over r) = 0.
Proof. done. Qed.
Lemma awaits_draining n m : awaits n (Draining m) = 0.
Proof. done. Qed.
Lemma awaits_waiting n m : awaits n (Waiting m) = if decide (n = m) then 1 else 0.
Proof. unfold awaits. do 2 case_decide; congruence. Qed.

Lemma shared_quiet b s k c c' :
  shared b s → o_calls s !! k = Some c → (∀ n, awaits n c = 0) → (∀ n, awaits n c' = 0) → shared b (set_calls (<[k := c']> (o_calls s)) s).
Proof. intros H Hk H1 H2. apply shared_calls; [done|]. intros n. rewrite (waiting_insert _ _ c) by done. rewrite H1, H2. lia. Qed.

(** A waiter joins or leaves job [n]: [f] changes its count by as much. *)
Lemma shared_change b s k c c' n j f :
  shared b s → o_calls s !! k = Some c → o_jobs s !! n = Some j →
  (∀ m, awaits m c' - awaits m c = if decide (m = n) then j_waiters (f j) - j_waiters j else 0) →
  j_settled (f j) = j_settled j →
  (j_settled j = None → j_aborted (f j) = false → 1 ≤ j_waiters (f j)) →
  (b = false → j_settled j = None → j_aborted (f j) = true → j_waiters (f j) = 0) →
  shared b (change_job n f (set_calls (<[k := c']> (o_calls s)) s)).
Proof.
  intros [H1 H2 H3 H4 H5] Hk Hn HD HS HN HA.
  assert (HL : ∀ m x, alter f n (o_jobs s) !! m = Some x → (m = n ∧ x = f j) ∨ (m ≠ n ∧ o_jobs s !! m = Some x)).
  { intros m x. destruct (decide (m = n)) as [->|Hne]; [rewrite list_lookup_alter_eq, Hn|rewrite list_lookup_alter_ne by done]; [intros [= <-]; by left|by right]. }
  assert (HW : ∀ m, waiting m (<[k := c']> (o_calls s)) = waiting m (o_calls s) + if decide (m = n) then j_waiters (f j) - j_waiters j else 0).
  { intros m. rewrite (waiting_insert _ _ c) by done. rewrite <- HD. lia. }
  split; cbn.
  - intros m. rewrite H1. split.
    + intros (x & Hx & Ex). destruct (decide (m = n)) as [->|Hne].
      * exists (f j). rewrite list_lookup_alter_eq, Hn. split; [done|]. rewrite HS. congruence.
      * exists x. by rewrite list_lookup_alter_ne.
    + intros (x & [[-> ->]|[Hne Hx]]%HL & Ex); [exists j; split; [done|congruence]|by exists x].
  - intros m x [[-> ->]|[Hne Hx]]%HL; rewrite HW; case_decide; try done; [rewrite <- (H2 n j Hn); lia|rewrite <- (H2 m x Hx); lia].
  - intros m Hm. rewrite length_alter in Hm. rewrite HW, H3 by done. case_decide as E; [|done]. subst m. destruct Hm.
    apply elem_of_seq. split; [lia|]. by eapply lookup_lt_Some.
  - intros m x [[-> ->]|[Hne Hx]]%HL; [rewrite HS; apply HN|by apply (H4 m)].
  - intros Hb m x [[-> ->]|[Hne Hx]]%HL; [rewrite HS; by apply HA|by apply (H5 Hb m)].
Qed.

Lemma shared_enter b k signalled c s :
  shared b s → o_calls s !! k = Some c → (∀ n, awaits n c = 0) → shared b (enter k signalled s).
Proof.
  intros H Hk Hc. unfold enter. destruct signalled; [by eapply shared_quiet|]. destruct (o_barred s); [by eapply shared_quiet|].
  destruct (o_current s) as [n|] eqn:EC.
  - destruct (o_jobs s !! n) as [j|] eqn:EJ; [|done]. destruct (j_aborted j) eqn:EA; [by eapply shared_quiet|].
    apply (shared_change b s k c (Waiting n) n j); try done.
    + intros m. rewrite Hc, awaits_waiting. cbn. case_decide; lia.
    + intros HN _. cbn. pose proof (sh_needed _ _ H n j EJ HN EA). lia.
    + cbn. congruence.
  - destruct (o_entry s) as [r|]; [by eapply shared_quiet|]. destruct H as [H1 H2 H3 H4 H5]. set (n := length (o_jobs s)).
    assert (Hset : ∀ m x, o_jobs s !! m = Some x → j_settled x ≠ None).
    { intros m x Hx Ex. assert (o_current s = Some m) by (apply H1; by exists x). congruence. }
    assert (HL : ∀ m x, (o_jobs s ++ [add_waiter (Job false 0 None)]) !! m = Some x →
      (m = n ∧ x = add_waiter (Job false 0 None)) ∨ (m ≠ n ∧ o_jobs s !! m = Some x)).
    { intros m x [Hx|[Hm Hx]]%lookup_app_Some; [right; split; [apply lookup_lt_Some in Hx; unfold n; lia|done]|left].
      apply list_lookup_singleton_Some in Hx as [? <-]. unfold n. split; [lia|done]. }
    assert (HW : ∀ m, waiting m (<[k := Waiting n]> (o_calls s)) = waiting m (o_calls s) + if decide (m = n) then 1 else 0).
    { intros m. rewrite (waiting_insert _ _ c) by done. rewrite Hc, awaits_waiting. lia. }
    assert (H0 : waiting n (o_calls s) = 0) by (apply H3; rewrite elem_of_seq; unfold n; lia).
    split; cbn.
    + intros m. split.
      * intros [= <-]. exists (Job false 1 None). split; [|done]. by rewrite lookup_app_r, Nat.sub_diag by (unfold n; lia).
      * intros (x & [[-> ->]|[Hne Hx]]%HL & Ex); [done|]. by destruct (Hset m x Hx).
    + intros m x [[-> ->]|[Hne Hx]]%HL; rewrite HW; case_decide; try done; [cbn; lia|rewrite <- (H2 m x Hx); lia].
    + intros m Hm. rewrite length_app in Hm. rewrite HW, H3; [|intros Hin; apply Hm; apply elem_of_seq; apply elem_of_seq in Hin; cbn; lia].
      case_decide as E; [|done]. destruct Hm. apply elem_of_seq. unfold n in E. cbn. lia.
    + intros m x [[-> ->]|[Hne Hx]]%HL Ex; [cbn; lia|by destruct (Hset m x Hx)].
    + intros _ m x [[-> ->]|[Hne Hx]]%HL Ex; [done|by destruct (Hset m x Hx)].
Qed.

Lemma shared_leave b k n r s :
  shared b s → o_calls s !! k = Some (Waiting n) → shared b (leave k n r s).
Proof.
  intros H Hk. unfold leave. destruct (o_jobs s !! n) as [j|] eqn:EJ.
  - apply (shared_change b s k (Waiting n) (Over r) n j); try done.
    + intros m. rewrite awaits_waiting, awaits_over. cbn. case_decide; lia.
    + cbn. intros Hs Ha. rewrite Hs in Ha. apply orb_false_iff in Ha as [Ha Hz]. pose proof (sh_needed _ _ H n j EJ Hs Ha).
      rewrite andb_true_r in Hz. apply Z.eqb_neq in Hz. lia.
    + cbn. intros Hb Hs Ha. rewrite Hs in Ha. apply orb_true_iff in Ha as [Ha|Ha].
      * exfalso. pose proof (sh_aborted _ _ H Hb n j EJ Hs Ha) as H0. pose proof (sh_waiters _ _ H n j EJ) as HW.
        assert (1 ≤ waiting n (o_calls s)); [|lia]. pose proof (waiting_insert n k (Waiting n) (Over r) _ Hk) as HI.
        rewrite awaits_waiting, awaits_over, decide_True in HI by done. pose proof (waiting_nonneg n (<[k:=Over r]> (o_calls s))). lia.
      * rewrite andb_true_r in Ha. by apply Z.eqb_eq in Ha.
  - exfalso. pose proof (waiting_insert n k (Waiting n) (Over r) _ Hk) as HI. rewrite awaits_waiting, awaits_over, decide_True in HI by done.
    pose proof (waiting_nonneg n (<[k:=Over r]> (o_calls s))). pose proof (sh_known _ _ H n) as HK.
    rewrite HK in HI; [lia|]. rewrite elem_of_seq. apply lookup_ge_None in EJ. lia.
Qed.

Lemma shared_job b s n j f entry :
  shared b s → o_current s = Some n → o_jobs s !! n = Some j →
  (∀ x, j_waiters (f x) = j_waiters x) → j_settled (f j) ≠ None →
  shared b (Opening (alter f n (o_jobs s)) None entry (o_barred s) (o_calls s)).
Proof.
  intros [H1 H2 H3 H4 H5] HC Hn HW HS.
  assert (HL : ∀ m x, alter f n (o_jobs s) !! m = Some x → (m = n ∧ x = f j) ∨ (m ≠ n ∧ o_jobs s !! m = Some x)).
  { intros m x. destruct (decide (m = n)) as [->|Hne]; [rewrite list_lookup_alter_eq, Hn|rewrite list_lookup_alter_ne by done]; [intros [= <-]; by left|by right]. }
  assert (HO : ∀ m x, o_jobs s !! m = Some x → m ≠ n → j_settled x ≠ None).
  { intros m x Hx Hne Ex. assert (o_current s = Some m) by (apply H1; by exists x). congruence. }
  split; cbn.
  - intros m. split; [done|]. intros (x & [[-> ->]|[Hne Hx]]%HL & Ex); [done|]. by destruct (HO m x Hx Hne).
  - intros m x [[-> ->]|[Hne Hx]]%HL; [rewrite HW|]; by apply H2.
  - intros m. rewrite length_alter. apply H3.
  - intros m x [[-> ->]|[Hne Hx]]%HL Ex; [done|]. by destruct (HO m x Hx Hne).
  - intros _ m x [[-> ->]|[Hne Hx]]%HL Ex; [done|]. by destruct (HO m x Hx Hne).
Qed.

Lemma shared_cancel b s n : shared b s → o_current s = Some n → shared true (change_job n abort_job s).
Proof.
  intros [H1 H2 H3 H4 H5] HC. split; cbn; try done.
  - intros m. rewrite H1. destruct (decide (m = n)) as [->|Hne]; [|by rewrite list_lookup_alter_ne].
    rewrite list_lookup_alter_eq. split; [intros (j & -> & ?); by exists (abort_job j)|]. intros (j & Hj & ?).
    destruct (o_jobs s !! n) as [x|]; [|done]. injection Hj as <-. by exists x.
  - intros m x. destruct (decide (m = n)) as [->|Hne]; [|rewrite list_lookup_alter_ne by done; apply H2].
    rewrite list_lookup_alter_eq. destruct (o_jobs s !! n) as [y|] eqn:E; [|done]. intros [= <-]. by apply (H2 n y).
  - intros m. rewrite length_alter. apply H3.
  - intros m x. destruct (decide (m = n)) as [->|Hne]; [|rewrite list_lookup_alter_ne by done; apply H4].
    rewrite list_lookup_alter_eq. destruct (o_jobs s !! n) as [y|]; [|done]. by intros [= <-].
Qed.

Lemma shared_weaken b s : shared b s → shared true s.
Proof. intros []. by split. Qed.

Lemma shared_step b e s : shared b s → (b = false → e ≠ ECancel) → shared b (step e s).
Proof.
  intros H Hb. destruct e as [sg|k|k|r entry|entry| |barred]; cbn [step].
  - eapply shared_enter; [|cbn; by rewrite lookup_app_r, Nat.sub_diag by lia|done].
    apply shared_calls; [done|]. intros n. rewrite waiting_snoc, awaits_over. lia.
  - destruct (o_calls s !! k) as [[n|n|r]|] eqn:E; [by eapply shared_quiet|by apply shared_leave|done|done].
  - destruct (o_calls s !! k) as [[n|n|r]|] eqn:E; try done; destruct (o_jobs s !! n) as [j|]; try done; destruct (j_settled j); try done.
    + by eapply shared_enter.
    + by apply shared_leave.
  - destruct (o_current s) as [n|] eqn:EC; [|done]. destruct (proj1 (sh_current _ _ H n) EC) as (j & Hj & Ej).
    apply (shared_job b s n j (settle_job r) entry); try done.
    + intros x. unfold settle_job. by destruct (j_settled x).
    + unfold settle_job. by rewrite Ej.
  - destruct (o_current s) eqn:EC; [done|]. destruct H as [H1 H2 H3 H4 H5]. split; try done. intros n. rewrite <- H1. by rewrite EC.
  - destruct (o_current s) as [n|] eqn:EC; [|done]. destruct b; [by eapply shared_cancel|]. by destruct (Hb eq_refl).
  - destruct H. by split.
Qed.
Lemma shared_run b l s : shared b s → (b = false → ECancel ∉ l) → shared b (run l s).
Proof.
  intros H Hb. unfold run. induction l as [|e l IH] in s, H, Hb |- *; [done|]. cbn [foldl]. apply IH.
  - apply shared_step; [done|]. intros Hf ->. apply (Hb Hf). by left.
  - intros Hf Hin. apply (Hb Hf). by right.
Qed.

(** A call that is over stays so. *)
Definition is_over (s : opening) (k : nat) (r : result Z) : Prop := o_calls s !! k = Some (Over r).
Lemma over_insert s k r k' c c' : is_over s k r → o_calls s !! k' = Some c → (∀ r, c ≠ Over r) → <[k' := c']> (o_calls s) !! k = Some (Over r).
Proof.
  unfold is_over. intros H Hk' Hc. destruct (decide (k' = k)) as [->|Hne]; [|by rewrite list_lookup_insert_ne]. rewrite H in Hk'. injection Hk' as <-. by destruct (Hc r).
Qed.
Lemma over_enter s k r k' sg : (∀ c, <[k' := c]> (o_calls s) !! k = Some (Over r)) → is_over s k r → is_over (enter k' sg s) k r.
Proof.
  intros HI H. unfold is_over, enter. destruct sg; [apply HI|]. destruct (o_barred s); [apply HI|]. destruct (o_current s) as [n|].
  - destruct (o_jobs s !! n) as [j|]; [|done]. destruct (j_aborted j); apply HI.
  - destruct (o_entry s); apply HI.
Qed.
Lemma over_step e s k r : is_over s k r → is_over (step e s) k r.
Proof.
  intros H. destruct e as [sg|k'|k'|x entry|entry| |barred]; cbn [step].
  - assert (Hl : (k < length (o_calls s))%nat) by (by eapply lookup_lt_Some).
    assert (HA : ∀ y, (o_calls s ++ [y]) !! k = Some (Over r)) by (intros y; by apply lookup_app_l_Some).
    apply over_enter; [|apply HA]. intros c. cbn. rewrite list_lookup_insert_ne by lia. apply HA.
  - destruct (o_calls s !! k') as [[n|n|y]|] eqn:E; try done; eapply over_insert; done.
  - destruct (o_calls s !! k') as [[n|n|y]|] eqn:E; try done; destruct (o_jobs s !! n) as [j|]; try done; destruct (j_settled j); try done.
    + apply over_enter; [|done]. intros c. by eapply over_insert.
    + by eapply over_insert.
  - by destruct (o_current s).
  - by destruct (o_current s).
  - by destruct (o_current s).
  - done.
Qed.

(** Readers that open a torrent together share one job, and only what they need of it:
    at any time at most one job of the torrent is unfinished; its count of waiters is the
    number of calls that await it; an unfinished job that was not aborted is awaited by
    somebody; unless the whole transport was cancelled, an aborted one is awaited by
    nobody, so no reader loses the torrent because another gave up; and a call that ended
    keeps its result, whatever happens next. *)
Theorem opening_shared l :
  let s := run l new_opening in
  (∀ n j, o_jobs s !! n = Some j → (j_settled j = None ↔ o_current s = Some n) ∧ j_waiters j = waiting n (o_calls s)) ∧
  (∀ n j, o_jobs s !! n = Some j → j_settled j = None → j_aborted j = false → 1 ≤ waiting n (o_calls s)) ∧
  (ECancel ∉ l → ∀ n j, o_jobs s !! n = Some j → j_settled j = None → j_aborted j = true → waiting n (o_calls s) = 0) ∧
  (∀ k r l', is_over s k r → is_over (run l' s) k r).
Proof.
  intros s. assert (H : shared true s) by (by apply shared_run; [apply shared_new|]). split_and!.
  - intros n j Hj. split; [|by apply (sh_waiters _ _ H)]. rewrite (sh_current _ _ H n). split; [by exists j|].
    intros (x & Hx & Ex). congruence.
  - intros n j Hj Hs Ha. rewrite <- (sh_waiters _ _ H n j Hj). by apply (sh_needed _ _ H n j).
  - intros HC n j Hj Hs Ha. assert (H' : shared false s) by (apply shared_run; [apply shared_new|done]).
    rewrite <- (sh_waiters _ _ H n j Hj). by apply (sh_aborted _ _ H' eq_refl n j).
  - intros k r l'. unfold run. induction l' as [|e l' IH] in s |- *; [done|]. intros Ho. cbn [foldl].
    assert (HG : ∀ s, is_over s k r → is_over (foldl (λ s e, step e s) s l') k r); [|by apply HG, over_step].
    clear. intros s. induction l' as [|e l' IH] in s |- *; [done|]. intros Ho. by apply IH, over_step.
Qed.

(** Two readers share a job; the first gives up, the second keeps it.  Then the second
    gives up too, and a third waits for the aborted job before it starts another. *)
Example readers :
  let s := run [EOpen false; EOpen false; EAbort 0; EAbort 1; EOpen false; ESettle (Throw CANCELLED) None; EWake 2; ESettle (Ok 7) (Some (Ok 7)); EWake 2;
                EOpen false] new_opening in
  o_calls s = [Over (Throw CANCELLED); Over (Throw CANCELLED); Over (Ok 7); Over (Ok 7)] ∧
  o_jobs s = [Job true 0 (Some (Throw CANCELLED)); Job false 0 (Some (Ok 7))].
Proof. by vm_compute. Qed.
