(* ===== verification/WindowSeeds.v ===== *)
(** * HTTPS sources of a torrent (src/src/disk/web/torrent-window.js: offerWebseed, checkWebseed)

    A torrent downloads from one webseed at a time.  Sources that answer a probe are
    offered as candidates; when no piece has been verified for a second although some
    are wanted, peers are asked for, the active source is dropped and the next candidate
    takes its place.

    One entry of [WindowTorrents] is modelled; the WebTorrent client appears as the list
    of its webseeds and of the requests for more peers. *)
From S2P Require Import Prelude.
#[local] Open Scope Z_scope.

Record entry := Entry {
  e_candidates : list string;          (** [seedCandidates] *)
  e_active : option string;            (** [activeSeed] *)
  e_verified : Z;                      (** [lastVerified], in milliseconds *)
  e_rtc : bool;                        (** [rtcEnabled] *)
  e_ready : bool; e_done : bool; e_stopped : bool;   (** of the torrent; [e_stopped]: destroyed, failed or paused, or the transport closed *)
  e_wanted : bool;                     (** readers, a prefetch, a startup job or the background *)
  e_seeds : list string;               (** the webseeds of the torrent *)
  e_peers : Z                          (** times that more peers were asked for *)
}.

Definition set_candidates (l : list string) (e : entry) : entry :=
  Entry l (e_active e) (e_verified e) (e_rtc e) (e_ready e) (e_done e) (e_stopped e) (e_wanted e) (e_seeds e) (e_peers e).
Definition set_verified (now : Z) (e : entry) : entry :=
  Entry (e_candidates e) (e_active e) now (e_rtc e) (e_ready e) (e_done e) (e_stopped e) (e_wanted e) (e_seeds e) (e_peers e).
Definition set_status (ready done_ stopped wanted : bool) (e : entry) : entry :=
  Entry (e_candidates e) (e_active e) (e_verified e) (e_rtc e) ready done_ stopped wanted (e_seeds e) (e_peers e).
(** [activeSeed=url; lastVerified=now; addWebseed(url)]. *)
Definition activate (url : string) (now : Z) (e : entry) : entry :=
  Entry (e_candidates e) (Some url) now (e_rtc e) (e_ready e) (e_done e) (e_stopped e) (e_wanted e) (e_seeds e ++ [url]) (e_peers e).
(** [torrent.removePeer(url)]. *)
Definition removePeer (url : string) (e : entry) : entry :=
  Entry (e_candidates e) (e_active e) (e_verified e) (e_rtc e) (e_ready e) (e_done e) (e_stopped e) (e_wanted e) (filter (λ u, u ≠ url) (e_seeds e)) (e_peers e).

(** [client.add]: the candidates that have answered by then; without webseeds peers are
    used at once. *)
Definition new_entry (candidates : list string) (webseeds : bool) (now : Z) : entry :=
  Entry candidates None now (negb webseeds) false false false false [] 0.

Definition offerWebseed (url : string) (now : Z) (e : entry) : entry :=
  let e := if bool_decide (url ∈ e_candidates e) then e else set_candidates (e_candidates e ++ [url]) e in
  if negb (e_ready e) then e
  else match e_active e with None => activate url now e | Some _ => e end.
Definition enablePeerBackup (e : entry) : entry :=
  if e_rtc e then e
  else Entry (e_candidates e) (e_active e) (e_verified e) true (e_ready e) (e_done e) (e_stopped e) (e_wanted e) (e_seeds e) (e_peers e + 1).
(** The torrent becomes ready (torrent-window.js:367). *)
Definition ready (now : Z) (e : entry) : entry :=
  let e := set_status true (e_done e) (e_stopped e) (e_wanted e) e in
  match e_candidates e, e_active e with
  | url :: _, None => offerWebseed url now e
  | _, _ => e
  end.

Definition option_list (o : option string) : list string := match o with Some x => [x] | None => [] end.
Definition checkWebseed (now : Z) (e : entry) : entry :=
  if e_stopped e || negb (e_ready e) then e
  else if e_done e then set_verified now e
  else if negb (e_wanted e) then set_verified now e
  else if now - e_verified e <? 1000 then e
  else
    let e := enablePeerBackup e in
    if Z.of_nat (length (e_candidates e)) <? 2 then e
    else
      let previous := e_active e in
      let others := filter (λ url, Some url ≠ previous) (e_candidates e) in
      let e := set_candidates (others ++ option_list previous) e in
      let e := match previous with Some url => removePeer url e | None => e end in
      match others with
      | next :: _ => activate next now e
      | [] => e     (** [next] is undefined: unreachable, as the candidates differ *)
      end.

Inductive event :=
| EOffer (url : string) (now : Z)
| EReady (now : Z)
| EVerified (now : Z)                  (** a piece was verified *)
| EStatus (done_ stopped wanted : bool)
| EPeers                               (** no source has answered *)
| ECheck (now : Z).
Definition step (ev : event) (e : entry) : entry :=
  match ev with
  | EOffer url now => offerWebseed url now e
  | EReady now => ready now e
  | EVerified now => set_verified now e
  | EStatus done_ stopped wanted => set_status (e_ready e) done_ stopped wanted e
  | EPeers => enablePeerBackup e
  | ECheck now => checkWebseed now e
  end.
Definition run (l : list event) (e : entry) : entry := foldl (λ e ev, step ev e) e l.

(** ** The invariant *)
Record sound (e : entry) : Prop := {
  so_distinct : NoDup (e_candidates e);
  so_seeds : e_seeds e = option_list (e_active e);
  so_active : ∀ url, e_active e = Some url → url ∈ e_candidates e ∧ e_ready e = true;
  so_idle : e_ready e = true → e_active e = None → e_candidates e = [];
  so_head : ∀ url, e_active e = Some url → head (e_candidates e) = Some url;
  so_peers : 0 ≤ e_peers e ≤ 1 ∧ (e_rtc e = false → e_peers e = 0)
}.

Lemma seeds_sound_new candidates webseeds now : NoDup candidates → sound (new_entry candidates webseeds now).
Proof. intros H. by split. Qed.

Lemma sound_verified now e : sound e → sound (set_verified now e).
Proof. intros []. by split. Qed.
Lemma sound_status d s w e : sound e → sound (set_status (e_ready e) d s w e).
Proof. intros []. by split. Qed.

Lemma NoDup_snoc {A} (l : list A) x : NoDup l → x ∉ l → NoDup (l ++ [x]).
Proof. intros H Hx. apply NoDup_app. split_and!; [done| |apply NoDup_singleton]. by intros y Hy ->%list_elem_of_singleton. Qed.

Lemma sound_offer url now e : sound e → sound (offerWebseed url now e).
Proof.
  intros H. pose proof H as [H1 H2 H3 H4 H5 H6]. unfold offerWebseed. case_bool_decide as Hin.
  - destruct (e_ready e) eqn:ER; [cbn [negb]|exact H]. destruct (e_active e) as [u|] eqn:EA; [exact H|].
    rewrite (H4 eq_refl eq_refl) in Hin. by apply elem_of_nil in Hin.
  - assert (HN : NoDup (e_candidates e ++ [url])) by (by apply NoDup_snoc). cbn [set_candidates e_ready e_active].
    assert (HC : (∃ u, e_active e = Some u) ∨ e_ready e = false → sound (set_candidates (e_candidates e ++ [url]) e)).
    { intros HC. split; cbn [set_candidates e_candidates e_seeds e_active e_ready e_peers e_rtc]; try done.
      - intros u Hu. destruct (H3 u Hu). split; [apply elem_of_app; by left|done].
      - intros Hr Ha. destruct HC as [[u Hu]|?]; congruence.
      - intros u Hu. specialize (H5 u Hu). by destruct (e_candidates e). }
    destruct (e_ready e) eqn:ER; [cbn [negb]|by apply HC; right]. destruct (e_active e) as [u|] eqn:EA; [by apply HC; left; exists u|].
    pose proof (H4 eq_refl eq_refl) as EC. split; cbn; rewrite ?EC, ?H2, ?ER; try done; [by rewrite EC in HN|]. intros u [= <-]. split; [by left|done].
Qed.

Lemma sound_ready now e : sound e → sound (ready now e).
Proof.
  intros H. pose proof H as [H1 H2 H3 H4 H5 H6]. unfold ready. cbn [set_status e_candidates e_active].
  destruct (e_candidates e) as [|c l] eqn:EC; [|destruct (e_active e) as [u|] eqn:EA].
  - split; cbn; rewrite ?EC; try done. intros u Hu. destruct (H3 u Hu). by split.
  - split; cbn; rewrite ?EC, ?EA; try done; [intros u' [= <-]; destruct (H3 u eq_refl); by split].
  - unfold offerWebseed. cbn [set_status e_candidates e_ready e_active]. rewrite EC. rewrite bool_decide_true by (by left). cbn [negb].
    change (e_active (set_status true (e_done e) (e_stopped e) (e_wanted e) e)) with (e_active e). rewrite ?EA.
    split; cbn; rewrite ?EC; try done; [by rewrite H2|]. intros u [= <-]. split; [by left|done].
Qed.

(** *** A check *)
Definition stalled (now : Z) (e : entry) : bool :=
  negb (e_stopped e) && e_ready e && negb (e_done e) && e_wanted e && (1000 <=? now - e_verified e).

Lemma sound_backup e : sound e → sound (enablePeerBackup e).
Proof.
  intros H. unfold enablePeerBackup. destruct (e_rtc e) eqn:E; [done|]. destruct H as [H1 H2 H3 H4 H5 [H6 H7]].
  split; cbn; try done. rewrite (H7 E). by split.
Qed.
Lemma backup_frame e :
  e_candidates (enablePeerBackup e) = e_candidates e ∧ e_active (enablePeerBackup e) = e_active e ∧ e_seeds (enablePeerBackup e) = e_seeds e ∧
  e_ready (enablePeerBackup e) = e_ready e.
Proof. unfold enablePeerBackup. by destruct (e_rtc e). Qed.

(** The sources turn: the first one goes to the end. *)
Lemma check_turns now e a b l :
  sound e → stalled now e = true → e_candidates e = a :: b :: l →
  let e' := checkWebseed now e in
  e_candidates e' = b :: l ++ [a] ∧ e_active e' = Some b ∧ e_seeds e' = [b] ∧ e_verified e' = now ∧ sound e'.
Proof.
  intros H HS EC. unfold stalled in HS. rewrite !andb_true_iff, !negb_true_iff in HS. destruct HS as [[[[S1 S2] S3] S4] S5]. bools.
  unfold checkWebseed. rewrite S1, S2, S3, S4. cbn [orb negb]. rewrite (proj2 (Z.ltb_ge (now - e_verified e) 1000)) by lia.
  pose proof (sound_backup e H) as [H1 H2 H3 H4 H5 H6]. destruct (backup_frame e) as (B1 & B2 & B3 & B4).
  set (e1 := enablePeerBackup e) in *. rewrite EC in B1. rewrite B1. change (Z.of_nat (length (a :: b :: l)) <? 2) with (Z.of_nat (S (S (length l))) <? 2).
  rewrite (proj2 (Z.ltb_ge _ _)) by lia. rewrite S2 in B4.
  assert (EA : e_active e1 = Some a).
  { destruct (e_active e1) as [u|] eqn:EA; [|by specialize (H4 B4 eq_refl); rewrite B1 in H4]. specialize (H5 u eq_refl). rewrite B1 in H5. by injection H5 as ->. }
  rewrite EA in *. rewrite B1 in H1. apply NoDup_cons in H1 as [Hna H1].
  assert (EF : filter (λ url, Some url ≠ Some a) (a :: b :: l) = b :: l).
  { rewrite filter_cons, decide_False by (by intros []). apply filter_all, Forall_forall. intros x Hx [= ->]. done. }
  rewrite EF. cbv zeta. cbn [option_list set_candidates removePeer].
  assert (ES : e_seeds (activate b now (removePeer a (set_candidates ((b :: l) ++ [a]) e1))) = [b]).
  { change (filter (λ u, u ≠ a) (e_seeds e1) ++ [b] = [b]). rewrite H2. cbn [option_list].
    by rewrite filter_cons, decide_False by (by intros []). }
  split_and!; try done. split; try done.
  - change (NoDup ((b :: l) ++ [a])). by apply NoDup_snoc.
  - intros u [= <-]. split; [by left|done].
Qed.

Lemma sound_check now e : sound e → sound (checkWebseed now e).
Proof.
  intros H. destruct (stalled now e) eqn:HS.
  - destruct (e_candidates e) as [|a [|b l]] eqn:EC; [..|by destruct (check_turns now e a b l H HS EC) as (_ & _ & _ & _ & ?)].
    all: unfold stalled in HS; rewrite !andb_true_iff, !negb_true_iff in HS; destruct HS as [[[[S1 S2] S3] S4] S5]; bools.
    all: unfold checkWebseed; rewrite S1, S2, S3, S4; cbn [orb negb]; rewrite (proj2 (Z.ltb_ge (now - e_verified e) 1000)) by lia.
    all: destruct (backup_frame e) as (B1 & _); rewrite B1, EC; cbn; by apply sound_backup.
  - unfold checkWebseed. unfold stalled in HS. destruct (e_stopped e); [done|]. destruct (e_ready e); [|done]. cbn [orb negb andb] in *.
    destruct (e_done e); [by apply sound_verified|]. cbn [negb andb] in *. destruct (e_wanted e); cbn [negb andb] in *; [|by apply sound_verified].
    by rewrite (proj2 (Z.ltb_lt _ _)) by (apply Z.leb_gt in HS; lia).
Qed.

Lemma sound_step ev e : sound e → sound (step ev e).
Proof.
  intros H. destruct ev; cbn [step]; [by apply sound_offer|by apply sound_ready|by apply sound_verified|by apply sound_status|by apply sound_backup|by apply sound_check].
Qed.
Lemma seeds_sound_run l e : sound e → sound (run l e).
Proof. revert e. induction l as [|ev l IH]; intros e H; [done|]. by apply IH, sound_step. Qed.

(** ** Turns *)

(** Checks at the given times, each of which finds the torrent stalled. *)
Fixpoint stalls (times : list Z) (e : entry) : Prop :=
  match times with
  | [] => True
  | t :: times => stalled t e = true ∧ stalls times (checkWebseed t e)
  end.
Definition checks (times : list Z) (e : entry) : entry := run (ECheck <$> times) e.

Lemma turn_lookup {A} (a : A) m k : (m ++ [a]) !! (k mod S (length m))%nat = (a :: m) !! (S k mod S (length m))%nat.
Proof.
  set (n := S (length m)). assert (Hn : n ≠ 0%nat) by done.
  pose proof (Nat.mod_upper_bound k n Hn) as Hk. destruct (decide (k mod n = length m)%nat) as [E|E].
  - rewrite E. replace (S k mod n)%nat with 0%nat; [by rewrite lookup_app_r, Nat.sub_diag by lia|].
    rewrite <- Nat.add_1_r, Nat.Div0.add_mod, E. destruct m as [|b m]; [done|]. rewrite (Nat.mod_small 1) by (unfold n; cbn; lia).
    replace (length (b :: m) + 1)%nat with n by (unfold n; lia). by rewrite Nat.Div0.mod_same.
  - assert (Hlt : (k mod n < length m)%nat) by (revert Hk E; generalize (k mod n)%nat; unfold n; lia).
    assert (H1 : (1 < n)%nat) by (unfold n; lia).
    assert (HS : (S k mod n = S (k mod n))%nat).
    { rewrite <- Nat.add_1_r, Nat.Div0.add_mod, (Nat.mod_small 1 n H1), Nat.add_1_r. apply Nat.mod_small. unfold n at 2. lia. }
    rewrite HS. change ((a :: m) !! S (k mod n)%nat) with (m !! (k mod n)%nat). by apply lookup_app_l.
Qed.

Lemma turns times e :
  sound e → stalls times e → e_active e = head (e_candidates e) → (2 ≤ length (e_candidates e))%nat →
  let e' := checks times e in
  e_active e' = e_candidates e !! (length times mod length (e_candidates e))%nat ∧ length (e_candidates e') = length (e_candidates e).
Proof.
  induction times as [|t times IH] in e |- *; intros H HT HA HL.
  { cbn. rewrite HA. split; [|done]. destruct (e_candidates e); [done|]. by rewrite Nat.Div0.mod_0_l. }
  destruct (e_candidates e) as [|a [|b l]] eqn:EC; [cbn in HL; lia..|]. destruct HT as [HS HT].
  destruct (check_turns t e a b l H HS EC) as (E1 & E2 & _ & _ & H1).
  destruct (IH (checkWebseed t e) H1 HT) as [I1 I2]; [by rewrite E1, E2|rewrite E1; cbn; rewrite length_app; cbn; lia|].
  cbv zeta. change (checks (t :: times) e) with (checks times (checkWebseed t e)). rewrite I1, I2, E1.
  assert (EL : length (b :: l ++ [a]) = S (length (b :: l))) by (cbn; rewrite length_app; cbn; lia).
  rewrite EL. split; [|done]. exact (turn_lookup a (b :: l) (length times)).
Qed.

Lemma calm_check now e : stalled now e = false → e_active (checkWebseed now e) = e_active e ∧ e_seeds (checkWebseed now e) = e_seeds e ∧
  e_candidates (checkWebseed now e) = e_candidates e ∧ e_peers (checkWebseed now e) = e_peers e.
Proof.
  intros HS. unfold checkWebseed. unfold stalled in HS. destruct (e_stopped e); [done|]. destruct (e_ready e); [|done]. cbn [orb negb andb] in *.
  destruct (e_done e); [done|]. cbn [negb andb] in *. destruct (e_wanted e); cbn [negb andb] in *; [|done].
  by rewrite (proj2 (Z.ltb_lt _ _)) by (apply Z.leb_gt in HS; lia).
Qed.

(** Whatever a torrent and its probes do: it downloads from at most one webseed, the
    active one, which is a candidate; no source is a candidate twice; more peers are
    asked for at most once; a check changes nothing of this unless the torrent wants
    pieces and has verified none for a second.  And the sources take turns: after [k]
    stalls in a row the active one is the candidate [k] places after the first, around
    the list, so every candidate gets its second before one is tried again. *)
Theorem seeds_take_turns candidates webseeds start l :
  NoDup candidates →
  let e := run l (new_entry candidates webseeds start) in
  e_seeds e = option_list (e_active e) ∧ (∀ url, e_active e = Some url → url ∈ e_candidates e) ∧ NoDup (e_candidates e) ∧
  0 ≤ e_peers e ≤ 1 ∧
  (∀ now, stalled now e = false → e_active (checkWebseed now e) = e_active e ∧ e_seeds (checkWebseed now e) = e_seeds e) ∧
  (∀ times, stalls times e → e_active e ≠ None → (2 ≤ length (e_candidates e))%nat →
     e_active (checks times e) = e_candidates e !! (length times mod length (e_candidates e))%nat).
Proof.
  intros HN e. assert (H : sound e) by (by apply seeds_sound_run, seeds_sound_new). split_and!; try apply H.
  - intros now Hn. by destruct (calm_check now e Hn) as (? & ? & _).
  - intros times HT HA HL. apply turns; [done|done| |done]. destruct (e_active e) as [u|] eqn:EA; [|done]. by rewrite (so_head _ H u EA).
Qed.

(** Three sources that stall in turn. *)
Definition example_events : list event :=
  [EOffer "a" 10; EStatus false false true; EReady 100; EOffer "b" 150; EOffer "c" 160; EVerified 500].
Lemma seeds_take_turns_witness :
  let e := run example_events (new_entry [] true 0) in
  NoDup (@nil string) ∧ e_active e = Some "a"%string ∧ stalls [1500; 2500; 3500; 4500] e ∧
  e_active (checks [1500] e) = Some "b"%string ∧ e_active (checks [1500; 2500; 3500; 4500] e) = Some "b"%string.
Proof.
  intros e. destruct (seeds_take_turns [] true 0 example_events (NoDup_nil_2 (A := string))) as (_ & _ & _ & _ & _ & HT). fold e in HT.
  assert (HS : stalls [1500; 2500; 3500; 4500] e) by (by vm_compute).
  split_and!; [apply NoDup_nil_2|by vm_compute|exact HS|by vm_compute|]. rewrite (HT _ HS); [by vm_compute|by vm_compute|vm_compute; lia].
Defined.
