(* ===== verification/WindowDiscovery.v ===== *)
(** * Finding a torrent's metadata (src/src/disk/web/torrent-window.js:
    WindowTorrents.discoverMetadata)

    The seedboxes are all asked over HTTPS, and peers after a grace period, or at once
    when HTTPS has failed or there is none.  The first answer with the right infohash
    wins; a torrent added to ask peers is destroyed before the search ends.

    Answers, timers, cancellation and the torrent's events are events of the model, in any
    order.  SHA-1 is a parameter.  An abort rejects what is pending with its reason. *)
From S2P Require Import Prelude JsValue Hex Bencode Protocol Metadata NetworkSources.
From Stdlib Require Import Ascii.
#[local] Open Scope Z_scope.

Definition is_invalid (e : exn) : bool := bool_decide (exn_code e = Some "INVALID_PUBLICATION"%string).
(** [error.errors.find(cause=>...)||error.errors[0]]. *)
Definition choose (errors : list exn) : exn :=
  match List.find is_invalid errors, errors with
  | Some e, _ => e
  | None, e :: _ => e
  | None, [] => Exn None "undefined"
  end.
(** [Promise.any] of promises of which some have settled. *)
Fixpoint first_ok {A} (l : list (option (result A))) : option A :=
  match l with [] => None | Some (Ok a) :: _ => Some a | _ :: l => first_ok l end.
Fixpoint all_errors {A} (l : list (option (result A))) : option (list exn) :=
  match l with
  | [] => Some []
  | Some (Throw e) :: l => cons e <$> all_errors l
  | _ :: _ => None
  end.
Definition any_of {A} (l : list (option (result A))) : option (result A) :=
  match first_ok l with
  | Some a => Some (Ok a)
  | None => (λ errors, Throw (choose errors)) <$> all_errors l
  end.

(** ** State *)
Inductive peers :=
| NoPeers                              (** no tracker, or no WebRTC *)
| Grace                                (** HTTPS is given 250 ms *)
| Running
| Ended (r : result bytes).
Record discovery := Discovery {
  d_https : bool;                      (** there is an HTTPS lookup *)
  d_ready : bool;                      (** the sources are known *)
  d_answers : list (option (result bytes)); (** of the APIs, in the order of the sources *)
  d_over : option (result bytes);      (** how the HTTPS lookup ended *)
  d_peers : peers;
  d_probe : option bool;               (** the torrent that asks peers; whether it is alive *)
  d_any : option (result bytes);       (** [Promise.any(lookups)] *)
  d_aborted : option exn;              (** the reason of [controller] *)
  d_stale : bool;                      (** closed, or another epoch *)
  d_decided : option (result bytes)    (** what the [finally] will return *)
}.
Definition set_answers (x : list (option (result bytes))) (s : discovery) : discovery :=
  Discovery (d_https s) (d_ready s) x (d_over s) (d_peers s) (d_probe s) (d_any s) (d_aborted s) (d_stale s) (d_decided s).
Definition set_over (x : option (result bytes)) (s : discovery) : discovery :=
  Discovery (d_https s) true (d_answers s) x (d_peers s) (d_probe s) (d_any s) (d_aborted s) (d_stale s) (d_decided s).
Definition set_peers (x : peers) (probe : option bool) (s : discovery) : discovery :=
  Discovery (d_https s) (d_ready s) (d_answers s) (d_over s) x probe (d_any s) (d_aborted s) (d_stale s) (d_decided s).
Definition set_any (x : option (result bytes)) (s : discovery) : discovery :=
  Discovery (d_https s) (d_ready s) (d_answers s) (d_over s) (d_peers s) (d_probe s) x (d_aborted s) (d_stale s) (d_decided s).
Definition set_decided (x : option (result bytes)) (s : discovery) : discovery :=
  Discovery (d_https s) (d_ready s) (d_answers s) (d_over s) (d_peers s) (d_probe s) (d_any s) (d_aborted s) (d_stale s) x.
Definition set_aborted (e : exn) (stale : bool) (s : discovery) : discovery :=
  Discovery (d_https s) (d_ready s) (d_answers s) (d_over s) (d_peers s) (d_probe s) (d_any s)
    (match d_aborted s with Some e => Some e | None => Some e end) (d_stale s || stale) (d_decided s).

Definition UNAVAILABLE (message : string) : exn := Exn (Some "PUBLICATION_UNAVAILABLE"%string) message.
Definition TIMEOUT (message : string) : exn := Exn (Some "TRANSPORT_TIMEOUT"%string) message.
Definition CANCELLED (message : string) : exn := Exn (Some "CANCELLED"%string) message.
Definition OVERSIZED : exn := Exn (Some "INVALID_PUBLICATION"%string) "Torrent info exceeds size limit".

(** What a search returned: its decision, once its torrent is gone. *)
Definition outcome (s : discovery) : option (result bytes) :=
  match d_probe s with Some true => None | _ => d_decided s end.

Section discovery.
Context (sha1 : bytes → bytes) (hash : string) (kind : option component).

(** [https]: the metadata in an API's answer; [body] is read after the checks. *)
Record answer := Answer { a_ok : bool; a_length : JsValue.number; a_stream : list (result bytes) }.
Definition read_answer (a : answer) : result bytes :=
  if negb (a_ok a) then Throw (UNAVAILABLE "Torrent info source returned an error")
  else if exceeds (a_length a) (metadata_limit kind) then Throw OVERSIZED
  else
    let '(parts, read) := read_limited OVERSIZED (metadata_limit kind) 0 [] (a_stream a) in
    read ;;
    m ← verifyMetadata sha1 (Some (rebuild (concat parts))) hash kind;
    Ok (m_metadata m).
Definition https (r : result answer) : result bytes :=
  match (a ← r; read_answer a) with
  | Ok m => Ok m
  | Throw e => Throw (if is_invalid e then e else UNAVAILABLE "No verified torrent info is available from this seedbox")
  end.

(** ** The lookups *)
Definition peers_lookup (p : peers) : list (option (result bytes)) :=
  match p with NoPeers => [] | Grace | Running => [None] | Ended r => [Some r] end.
Definition lookups (s : discovery) : list (option (result bytes)) :=
  (if d_https s then [d_over s] else []) ++ peers_lookup (d_peers s).
Definition settle_any (s : discovery) : discovery :=
  match d_any s with None => set_any (any_of (lookups s)) s | Some _ => s end.
(** [peers()], and [start] after the grace period. *)
Definition start_peers (s : discovery) : discovery :=
  match d_aborted s with
  | Some e => set_peers (Ended (Throw e)) (d_probe s) s
  | None => set_peers Running (Some true) s
  end.
Definition settle_over (s : discovery) : discovery :=
  match d_over s with
  | Some _ => s
  | None =>
      if d_ready s then
        match any_of (d_answers s) with
        | None => s
        | Some r =>
            let s := set_over (Some r) s in
            match r, d_peers s with Throw _, Grace => start_peers s | _, _ => s end
        end
      else s
  end.
Definition settle (s : discovery) : discovery := settle_any (settle_over s).

(** The sources are known: [n] APIs to ask. *)
Definition ask (n : nat) (s : discovery) : discovery :=
  match n with
  | O =>
      let s := set_over (Some (Throw (UNAVAILABLE "No HTTPS metadata sources are available"))) s in
      match d_peers s with Grace => start_peers s | _ => s end
  | S _ => set_answers (replicate n None) (set_over None s)
  end.
(** What has not answered fails with [e]. *)
Definition fail_answers (e : exn) (s : discovery) : discovery :=
  set_answers ((λ a, match a with None => Some (Throw e) | Some r => Some r end) <$> d_answers s) s.
Definition end_peers (e : exn) (s : discovery) : discovery :=
  match d_peers s with Grace | Running => set_peers (Ended (Throw e)) (d_probe s) s | _ => s end.
Definition abort (e : exn) (stale : bool) (s : discovery) : discovery :=
  let s := fail_answers e s in
  let s := if d_https s && negb (d_ready s) then set_over (Some (Throw e)) s else s in
  settle (set_aborted e stale (end_peers e s)).

(** The start: [sources] is [None] while they are not known; [peering] says that there are
    WebRTC and trackers. *)
Definition discover (sources : option nat) (peering : bool) (aborted : option exn) : discovery :=
  let https := match sources with None => true | Some n => (0 <? n)%nat end in
  let s := Discovery https false [] None (if peering then Grace else NoPeers) None None aborted false None in
  let s := match sources with Some (S n) => ask (S n) s | _ => s end in
  if negb https && negb peering then set_decided (Some (Throw (UNAVAILABLE "No torrent metadata sources are configured"))) s
  else
    let s := if peering && negb https then start_peers s else s in
    match aborted with Some e => abort e false s | None => settle s end.

Inductive event :=
| EReady (n : nat)                     (** the deferred sources are set *)
| EAnswer (i : nat) (r : result answer)
| EDeadline                            (** 10 s of HTTPS *)
| EGrace                               (** 250 ms *)
| EMetadata (input : bytes)            (** from peers *)
| EPeers (e : exn) (destroyed : bool)  (** the torrent fails, or its time is over *)
| EAbort (e : exn)                     (** the caller's signal *)
| ECancel                              (** [cancel()] and [close()] *)
| EResume                              (** after [Promise.any] *)
| EDestroyed.                          (** [probe.destroy] calls back *)
Definition finish_peers (r : result bytes) (probe : option bool) (s : discovery) : discovery :=
  match d_peers s with Running => settle (set_peers (Ended r) probe s) | _ => s end.
Definition step (e : event) (s : discovery) : discovery :=
  match d_decided s with
  | Some _ => match e with EDestroyed => set_peers (d_peers s) (match d_probe s with Some _ => Some false | None => None end) s | _ => s end
  | None =>
      match e with
      | EReady n => if d_https s && negb (d_ready s) then settle (ask n s) else s
      | EAnswer i r =>
          match d_answers s !! i with
          | Some None => settle (set_answers (<[i := Some (https r)]> (d_answers s)) s)
          | _ => s
          end
      | EDeadline =>
          match d_over s with None => settle (fail_answers (TIMEOUT "HTTPS metadata lookup timed out") s) | Some _ => s end
      | EGrace => match d_peers s with Grace => settle (start_peers s) | _ => s end
      | EMetadata input => finish_peers (m ← verifyMetadata sha1 (Some input) hash kind; Ok (m_metadata m)) (d_probe s) s
      | EPeers e destroyed => finish_peers (Throw e) (if destroyed then Some false else d_probe s) s
      | EAbort e => match d_aborted s with None => abort e false s | Some _ => s end
      | ECancel => abort (CANCELLED "Metadata lookup cancelled") true s
      | EResume =>
          match d_any s with
          | None => s
          | Some r =>
              set_decided (Some (match d_aborted s with
                | Some e => Throw e
                | None => if d_stale s then Throw (CANCELLED "Metadata lookup cancelled") else r
                end)) s
          end
      | EDestroyed => s
      end
  end.
Definition run (l : list event) (s : discovery) : discovery := foldl (λ s e, step e s) s l.
End discovery.
