(* ===== verification/WindowDiscoveryFacts.v ===== *)
(** * Finding a torrent's metadata: what a search returns *)
From S2P Require Import Prelude JsValue Hex Bencode Protocol Metadata NetworkSources WindowDiscovery.
#[local] Open Scope Z_scope.

(** ** [Promise.any] *)
Lemma first_ok_elem {A} (l : list (option (result A))) a : first_ok l = Some a → Some (Ok a) ∈ l.
Proof.
  induction l as [|x l IH]; [done|]. destruct x as [[b|e]|]; cbn; [intros [= ->]; by left|..]; intros H; right; by apply IH.
Qed.
Lemma all_errors_spec {A} (l : list (option (result A))) es :
  all_errors l = Some es → l = (λ e, Some (Throw e)) <$> es.
Proof.
  induction l as [|x l IH] in es |- *; cbn; [by intros [= <-]|]. destruct x as [[b|e]|]; [done| |done].
  destruct (all_errors l) as [es'|]; [|done]. intros [= <-]. cbn. by rewrite (IH es').
Qed.
Lemma any_of_pending {A} (l : list (option (result A))) : any_of l = None → None ∈ l.
Proof.
  unfold any_of. destruct (first_ok l) eqn:E; [done|]. intros H. destruct (all_errors l) eqn:EA; [done|]. clear H.
  induction l as [|x l IH]; [done|]. destruct x as [[b|e]|]; cbn in *; [done| |by left].
  right. apply IH; [done|]. by destruct (all_errors l).
Qed.
Lemma any_of_ok {A} (l : list (option (result A))) a : any_of l = Some (Ok a) → Some (Ok a) ∈ l.
Proof.
  unfold any_of. destruct (first_ok l) eqn:E; [intros [= <-]; by apply first_ok_elem|]. by destruct (all_errors l).
Qed.
Lemma any_of_errors {A} (l : list (option (result A))) e :
  any_of l = Some (Throw e) → ∃ es, l = (λ e, Some (Throw e)) <$> es ∧ e = choose es.
Proof.
  unfold any_of. destruct (first_ok l) eqn:E; [done|]. destruct (all_errors l) as [es|] eqn:EA; [|done].
  intros [= <-]. exists es. split; [by apply all_errors_spec|done].
Qed.
Lemma choose_best es e : is_invalid (choose es) = false → e ∈ es → is_invalid e = false.
Proof.
  unfold choose. destruct (List.find is_invalid es) as [x|] eqn:E.
  - apply List.find_some in E as [_ ->]. done.
  - intros _ H%list_elem_of_In. by apply (List.find_none _ _ E).
Qed.
Lemma choose_elem es : es ≠ [] → choose es ∈ es.
Proof.
  intros Hn. unfold choose. destruct (List.find is_invalid es) as [x|] eqn:E.
  - apply list_elem_of_In. by apply List.find_some in E as [? _].
  - destruct es; [done|by left].
Qed.

Section facts.
Context (sha1 : bytes → bytes) (hash : string) (kind : option component).

(** A document that verifies, and is what verification keeps of it. *)
Definition authentic (data : bytes) : Prop := ∃ m, verifyMetadata sha1 (Some data) hash kind = Ok m ∧ m_metadata m = data.
Lemma verified_authentic input m : verifyMetadata sha1 (Some input) hash kind = Ok m → authentic (m_metadata m).
Proof using Type. intros (_ & _ & _ & _ & _ & _ & _ & H)%verifyMetadata_ok. by exists m. Qed.
Lemma https_authentic r data : https sha1 hash kind r = Ok data → authentic data.
Proof using Type.
  unfold https. destruct (a ← r; read_answer sha1 hash kind a) as [m|e] eqn:E; [|done]. intros [= <-]. inv_bind.
  unfold read_answer in E. destruct (negb _); [done|]. destruct (exceeds _ _); [done|]. destruct (read_limited _ _ _ _ _) as [parts [|]]; [|done].
  cbn [mbind result_bind] in E. inv_bind. subst. by eapply verified_authentic.
Qed.

(** ** The invariant *)
Definition failed (l : list (option (result bytes))) : Prop := ∃ es, l = (λ e, Some (Throw e)) <$> es.
Definition holds (s : discovery) (data : bytes) : Prop :=
  Some (Ok data) ∈ d_answers s ∨ d_over s = Some (Ok data) ∨ d_peers s = Ended (Ok data) ∨ d_any s = Some (Ok data) ∨ d_decided s = Some (Ok data).
(** The error of the HTTPS lookup is that of an API, unless there was none to ask. *)
Definition over_error (s : discovery) : Prop := ∀ e, d_over s = Some (Throw e) →
  ∃ es, d_answers s = (λ e, Some (Throw e)) <$> es ∧ (es = [] ∨ e = choose es).
Definition any_error (s : discovery) : Prop := ∀ e, d_any s = Some (Throw e) →
  ∃ es, lookups s = (λ e, Some (Throw e)) <$> es ∧ e = choose es.
(** What holds before the lookups have been looked at again. *)
Record unsettled (s : discovery) : Prop := {
  u_auth : ∀ data, holds s data → authentic data;
  u_probe : match d_peers s with Running => d_probe s = Some true | Grace | NoPeers => d_probe s = None | Ended _ => True end;
  u_over : over_error s;
  u_any : any_error s;
  u_ready : (d_over s ≠ None ∨ d_answers s ≠ [] → d_ready s = true) ∧ (d_ready s = true → d_https s = true);
  u_stale : d_stale s = true → d_aborted s ≠ None;
  u_grace : d_peers s = Grace → d_https s = true;
  u_undecided : d_decided s = None
}.
Record settled (s : discovery) : Prop := {
  t_over : d_over s = None → d_ready s = true → any_of (d_answers s) = None;
  t_any : d_any s = None → any_of (lookups s) = None
}.

Lemma unsettled_any s : unsettled s → unsettled (settle_any s).
Proof using Type.
  intros [HA HP HO HE HR HS HG HU]. unfold settle_any. destruct (d_any s) eqn:E; [by split|]. split; try done.
  - intros data [?|[?|[?|[H|?]]]]; [apply HA; unfold holds; tauto..| |apply HA; unfold holds; tauto].
    apply any_of_ok in H. unfold lookups in H. apply elem_of_app in H as [H|H].
    + destruct (d_https s); [|by apply elem_of_nil in H]. apply list_elem_of_singleton in H. apply HA. right. by left.
    + apply HA. right. right. left. destruct (d_peers s); cbn in H; try (by apply elem_of_nil in H); apply list_elem_of_singleton in H; by simplify_eq.
  - intros e H. by apply any_of_errors in H.
Qed.
Lemma settle_any_settled s : (d_over s = None → d_ready s = true → any_of (d_answers s) = None) → settled (settle_any s).
Proof using Type.
  intros H. unfold settle_any. destruct (d_any s) eqn:E; split; try done; cbn; try congruence.
Qed.

Lemma unsettled_peers r probe s :
  unsettled s → d_peers s = Running ∨ d_peers s = Grace → (∀ data, r = Ok data → authentic data) →
  unsettled (set_peers (Ended r) probe s).
Proof using Type.
  intros [HA HP HO HE HR HS HG HU] Hp Hok. split; try done.
  - intros data [?|[?|[[= ->]|[?|?]]]]; [..|by apply Hok| |]; apply HA; unfold holds; tauto.
  - intros e H. destruct (HE e H) as (es & H1 & _). exfalso. unfold lookups in H1.
    assert (HN : @None (result bytes) ∈ (λ e, Some (Throw e)) <$> es).
    { rewrite <- H1. apply elem_of_app. right. destruct Hp as [-> | ->]; by left. }
    apply list_elem_of_fmap in HN as (? & ? & _). done.
Qed.
Lemma unsettled_start s : unsettled s → d_https s = true → d_peers s = Grace → unsettled (start_peers s).
Proof using Type.
  intros H Hh Hp. unfold start_peers. destruct (d_aborted s) as [e|]; [apply unsettled_peers; [done|by right|done]|].
  destruct H as [HA HP HO HE HR HS HG HU]. split; try done.
  - intros data [?|[?|[?|[?|?]]]]; try done; apply HA; unfold holds; tauto.
  - intros e H. destruct (HE e H) as (es & H1 & ->). unfold lookups in H1. rewrite Hh, Hp in H1. cbn in H1.
    by destruct es as [|? [|]].
Qed.

Lemma unsettled_set_over r s :
  unsettled s → d_over s = None → d_https s = true → (∀ data, r = Ok data → authentic data) →
  (∀ e, r = Throw e → ∃ es, d_answers s = (λ e, Some (Throw e)) <$> es ∧ (es = [] ∨ e = choose es)) →
  unsettled (set_over (Some r) s).
Proof using Type.
  intros [HA HP HO HE HR HS HG HU] Ho Hh Hok Herr. split; try done.
  - intros data [?|[[= ->]|[?|[?|?]]]]; [..|by apply Hok| | |]; apply HA; unfold holds; tauto.
  - intros e [= ->]. by apply Herr.
  - intros e H. destruct (HE e H) as (es & H1 & _). unfold lookups in H1. rewrite Hh, Ho in H1. by destruct es.
Qed.
Lemma settled_over s : unsettled s → unsettled (settle_over s) ∧ (d_over (settle_over s) = None → d_ready (settle_over s) = true → any_of (d_answers (settle_over s)) = None).
Proof using Type.
  intros H. unfold settle_over. destruct (d_over s) as [o|] eqn:Eo; [split; [done|congruence]|].
  destruct (d_ready s) eqn:ER; [|split; [done|congruence]]. destruct (any_of (d_answers s)) as [r|] eqn:Er; [|done].
  assert (HW : unsettled (set_over (Some r) s)).
  { apply unsettled_set_over; [done|done|by apply (u_ready _ H)|..].
    - intros data ->. apply any_of_ok in Er. apply (u_auth _ H). by left.
    - intros e ->. apply any_of_errors in Er as (es & -> & ->). exists es. split; [done|by right]. }
  destruct r as [a|e]; [done|]. cbn [d_peers set_over]. destruct (d_peers s) eqn:EP; try done.
  assert (HX : unsettled (start_peers (set_over (Some (Throw e)) s))).
  { apply unsettled_start; [done|by apply (u_ready _ H)|done]. }
  split; [done|]. unfold start_peers. cbn. by destruct (d_aborted s).
Qed.
Lemma settle_inv s : unsettled s → unsettled (settle s) ∧ settled (settle s).
Proof using Type.
  intros H. unfold settle. destruct (settled_over s H) as [H1 H2]. split; [by apply unsettled_any|by apply settle_any_settled].
Qed.

(** ** The events *)
(** Answers that arrive: only those that were missing change. *)
Definition refines (l l' : list (option (result bytes))) : Prop := Forall2 (λ a b, a = None ∨ a = b) l l'.
Lemma refines_failed l l' es : refines l l' → l = (λ e, Some (Throw e)) <$> es → l' = l.
Proof using Type.
  intros H. revert es. induction H as [|a b l l' Hab H IH]; intros es E; [done|]. destruct es as [|e es]; [done|].
  cbn in E. injection E as -> E. destruct Hab as [?|<-]; [done|]. by rewrite (IH es E).
Qed.
Lemma unsettled_answers l s :
  unsettled s → refines (d_answers s) l → (∀ data, Some (Ok data) ∈ l → authentic data) → unsettled (set_answers l s).
Proof using Type.
  intros [HA HP HO HE HR HS HG HU] Hl Hok. split; try done.
  - intros data [?|[?|[?|[?|?]]]]; [by apply Hok|..]; apply HA; unfold holds; tauto.
  - intros e H. destruct (HO e H) as (es & H1 & H2). exists es. cbn. by rewrite (refines_failed _ _ _ Hl H1).
  - split; [|apply HR]. intros [?|Hn]; apply HR; [by left|right]. cbn in Hn. intros E. rewrite E in Hl. by apply Forall2_nil_inv_l in Hl.
Qed.
Lemma refines_fail e l : refines l ((λ a, match a with None => Some (Throw e) | Some r => Some r end) <$> l).
Proof using Type. induction l as [|[r|] l IH]; constructor; [by right|done|by left|done]. Qed.
Lemma unsettled_fail e s : unsettled s → unsettled (fail_answers e s).
Proof using Type.
  intros H. apply unsettled_answers; [done|apply refines_fail|]. intros data Hd. apply list_elem_of_fmap in Hd as ([r|] & E & Hin); [|done].
  apply (u_auth _ H). left. by rewrite E.
Qed.
Lemma refines_insert l i r : l !! i = Some None → refines l (<[i := Some r]> l).
Proof using Type.
  intros H. apply Forall2_same_length_lookup. split; [by rewrite length_insert|]. intros j a b Ha Hb.
  destruct (decide (i = j)) as [<-|]; [left; congruence|]. rewrite list_lookup_insert_ne in Hb by done. right. congruence.
Qed.

Lemma not_ready s : unsettled s → d_ready s = false → d_over s = None ∧ d_answers s = [].
Proof using Type.
  intros H E. destruct (u_ready _ H) as [HR _]. split.
  - destruct (d_over s); [|done]. by rewrite HR in E by by left.
  - destruct (d_answers s); [done|]. by rewrite HR in E by by right.
Qed.
Lemma unsettled_end e s : unsettled s → unsettled (end_peers e s).
Proof using Type.
  intros H. unfold end_peers. destruct (d_peers s) eqn:E; try done; (apply unsettled_peers; [done|by auto|done]).
Qed.
Lemma unsettled_aborted e stale s : unsettled s → unsettled (set_aborted e stale s).
Proof using Type.
  intros [HA HP HO HE HR HS HG HU]. split; try done. cbn. by destruct (d_aborted s).
Qed.
Lemma abort_inv e stale s : unsettled s → unsettled (abort e stale s) ∧ settled (abort e stale s).
Proof using Type.
  intros H. unfold abort. apply settle_inv. set (s1 := fail_answers e s). assert (H1 : unsettled s1) by by apply unsettled_fail.
  assert (H2 : unsettled (if d_https s1 && negb (d_ready s1) then set_over (Some (Throw e)) s1 else s1)).
  { destruct (d_https s1) eqn:EH, (d_ready s1) eqn:ER; try done. cbn. destruct (not_ready _ H1 ER) as [EO EA].
    apply unsettled_set_over; try done. intros e' _. exists []. by rewrite EA; split; [|left]. }
  by apply unsettled_aborted, unsettled_end.
Qed.
Lemma unsettled_ask n s : unsettled s → d_https s = true → d_ready s = false → unsettled (ask n s).
Proof using Type.
  intros H Hh Hr. destruct (not_ready _ H Hr) as [EO EA]. destruct n as [|n]; cbn [ask].
  - assert (HW : unsettled (set_over (Some (Throw (UNAVAILABLE "No HTTPS metadata sources are available"))) s)).
    { apply unsettled_set_over; try done. intros e' _. exists []. by rewrite EA; split; [|left]. }
    cbn [d_peers set_over]. destruct (d_peers s) eqn:EP; try done. by apply unsettled_start.
  - destruct H as [HA HP HO HE HR HS HG HU]. split; try done.
    + intros data [Hd|[?|[?|[?|?]]]]; [|done|..]; [|apply HA; unfold holds; tauto..].
      apply elem_of_replicate in Hd as [? _]. done.
    + intros e He. destruct (HE e He) as (es & H1 & _). unfold lookups in H1. rewrite Hh, EO in H1. by destruct es.
Qed.

Definition alive (s : discovery) : Prop := unsettled s ∧ settled s.
Lemma alive_step e s : alive s → e ≠ EResume → alive (step sha1 hash kind e s).
Proof using Type.
  intros [H HT] HD. unfold step. rewrite (u_undecided _ H). destruct e; [..|done|done].
  - destruct (d_https s && negb (d_ready s)) eqn:E; [|done]. bools. apply settle_inv, unsettled_ask; [done|done|by destruct (d_ready s)].
  - destruct (d_answers s !! i) as [[|]|] eqn:E; try done. apply settle_inv, unsettled_answers; [done|by apply refines_insert|].
    intros data Hd. apply list_elem_of_lookup in Hd as (j & Hj). apply list_lookup_insert_Some in Hj as [(<- & [= Hx] & _)|[_ Hj]].
    + by eapply https_authentic.
    + apply (u_auth _ H). left. by eapply list_elem_of_lookup_2.
  - destruct (d_over s); [done|]. by apply settle_inv, unsettled_fail.
  - destruct (d_peers s) eqn:E; try done. apply settle_inv, unsettled_start; [done|by apply (u_grace _ H)|done].
  - unfold finish_peers. destruct (d_peers s) eqn:E; try done. apply settle_inv, unsettled_peers; [done|by left|].
    intros data Hd. inv_bind. subst. by eapply verified_authentic.
  - unfold finish_peers. destruct (d_peers s) eqn:E; try done. apply settle_inv, unsettled_peers; [done|by left|done].
  - destruct (d_aborted s); [done|]. by apply abort_inv.
  - by apply abort_inv.
Qed.

(** Every error of a search that nobody cancelled: the APIs' and the peers'. *)
Definition seen (s : discovery) (e : exn) : Prop := Some (Throw e) ∈ d_answers s ∨ d_peers s = Ended (Throw e).
(** The search has been decided. *)
Definition ended (s : discovery) : Prop := ∃ r, d_decided s = Some r ∧
  (∀ data, r = Ok data → authentic data ∧ d_aborted s = None) ∧
  (∀ e, r = Throw e →
     d_aborted s = Some e ∨ (d_https s = false ∧ d_peers s = NoPeers) ∨
     (d_aborted s = None ∧ failed (d_answers s) ∧ d_peers s ≠ Grace ∧ d_peers s ≠ Running ∧ (is_invalid e = false → ∀ e', seen s e' → is_invalid e' = false))).
Lemma ended_step e s : ended s → ended (step sha1 hash kind e s).
Proof using Type. intros (r & E & H). unfold step. rewrite E. destruct e; by exists r. Qed.
Lemma failed_lookups s es : unsettled s → lookups s = (λ e, Some (Throw e)) <$> es →
  failed (d_answers s) ∧ d_peers s ≠ Grace ∧ d_peers s ≠ Running ∧ (is_invalid (choose es) = false → ∀ e', seen s e' → is_invalid e' = false).
Proof using Type.
  intros H E. unfold lookups in E.
  assert (HP : ∀ x, x ∈ peers_lookup (d_peers s) → ∃ e, x = Some (Throw e) ∧ e ∈ es).
  { intros x Hx. assert (Hin : x ∈ (λ e, Some (Throw e)) <$> es) by (rewrite <- E; apply elem_of_app; by right).
    apply list_elem_of_fmap in Hin as (e & -> & ?). by exists e. }
  assert (HO : d_https s = true → ∃ e, d_over s = Some (Throw e) ∧ e ∈ es).
  { intros Hh. rewrite Hh in E. assert (Hin : d_over s ∈ (λ e, Some (Throw e)) <$> es) by (rewrite <- E; by left).
    apply list_elem_of_fmap in Hin as (e & ? & ?). by exists e. }
  assert (HA : ∃ es', d_answers s = (λ e, Some (Throw e)) <$> es' ∧ (es' = [] ∨ choose es' ∈ es)).
  { destruct (u_ready _ H) as [HR HH]. destruct (d_https s) eqn:Hh.
    - destruct (HO eq_refl) as (e & Ho & Hin). destruct (u_over _ H e Ho) as (es' & EA & [H1|H1]); exists es'; (split; [done|]); [by left|right; by rewrite <- H1].
    - exists []. destruct (d_answers s); [split; [done|by left]|]. by assert (false = true) by (apply HH, HR; by right). }
  destruct HA as (es' & EA & Hes).
  assert (HN : ∀ x, x = Grace ∨ x = Running → d_peers s ≠ x).
  { intros x Hx Ep. destruct (HP None) as (? & ? & _); [|done]. rewrite Ep. destruct Hx as [-> | ->]; by left. }
  split_and!; [by exists es'|by apply HN; left|by apply HN; right|].
  intros Hc e' [Hs|Hs].
  - rewrite EA in Hs. apply list_elem_of_fmap in Hs as (? & [= <-] & Hs). destruct Hes as [->|Hes]; [by apply elem_of_nil in Hs|].
    apply (choose_best es'); [|done]. by apply (choose_best es).
  - destruct (HP (Some (Throw e'))) as (? & [= <-] & ?); [rewrite Hs; by left|]. by apply (choose_best es).
Qed.

(** A search that nobody has decided goes on, or ends as it should. *)
Lemma goes_on e s : alive s → alive (step sha1 hash kind e s) ∨ ended (step sha1 hash kind e s).
Proof using Type.
  intros Hs. destruct (match e with EResume => true | _ => false end) eqn:EE; [|left; apply alive_step; [done|by intros ->]].
  destruct e; try done.
  pose proof Hs as [H HT]. unfold step. rewrite (u_undecided _ H). destruct (d_any s) as [r|] eqn:EA; [|by left]. right.
  eexists. split; [done|]. cbn.
destruct (d_aborted s) as [a|] eqn:EB.
  { split; [done|]. intros e [= ->]. by left. }
  assert (d_stale s = false) as -> by (destruct (d_stale s) eqn:ES; [by apply (u_stale _ H) in ES|done]).
  split; [intros data ->; split; [|done]; apply (u_auth _ H); unfold holds; tauto|].
  intros e ->. right. right. destruct (u_any _ H e EA) as (es & EL & ->). split; [done|]. exact (failed_lookups s es H EL).
Qed.

Lemma discover_alive sources peering aborted : alive (discover sources peering aborted) ∨ ended (discover sources peering aborted).
Proof using Type.
  unfold discover. destruct (negb _ && negb peering) eqn:EN.
  { right. eexists. split; [done|]. split; [done|]. intros e _. right. left.
    destruct sources as [[|n]|], peering; done. }
  left. set (s0 := Discovery _ _ _ _ _ _ _ _ _ _). set (s1 := match sources with Some (S n) => ask (S n) s0 | _ => s0 end).
  set (s2 := if peering && negb (match sources with None => true | Some n => (0 <? n)%nat end) then start_peers s1 else s1).
  assert (H2 : unsettled s2).
  { subst s2 s1 s0. destruct sources as [[|n]|], peering, aborted; try done; (split; cbn; try done; try tauto).
    all: try (by intros data [?%elem_of_nil|[?|[?|[?|?]]]]); try (by intros data [[?|[? _]%elem_of_replicate]%elem_of_cons|[?|[?|[?|?]]]]).
    all: try (by intros [?|?]). }
  destruct aborted as [e|]; [by apply abort_inv|by apply settle_inv].
Qed.
Lemma run_alive events s : alive s ∨ ended s → alive (run sha1 hash kind events s) ∨ ended (run sha1 hash kind events s).
Proof using Type.
  induction events as [|e events IH] in s |- *; [done|]. intros [H|H]; apply IH; [by apply goes_on|right; by apply ended_step].
Qed.

(** C20: Whatever order the answers of the seedboxes and of the peers, the timers and the
    cancellations come in, a search for a torrent's metadata returns only a document that
    verifies against the infohash, and only if it was not cancelled; it fails only with
    the reason it was cancelled for, for want of any source, or after every source has
    failed, and then reports an invalid publication if any source gave one; the torrent
    that asked peers is gone when it returns; and it returns once every source it asks has
    answered. *)
Theorem discovery_sound sources peering aborted events :
  let s := run sha1 hash kind events (discover sources peering aborted) in
  (∀ data, outcome s = Some (Ok data) → authentic data ∧ d_aborted s = None ∧ d_probe s ≠ Some true) ∧
  (∀ e, outcome s = Some (Throw e) → d_probe s ≠ Some true ∧
     (d_aborted s = Some e ∨ (d_https s = false ∧ d_peers s = NoPeers) ∨
      (failed (d_answers s) ∧ d_peers s ≠ Grace ∧ d_peers s ≠ Running ∧ (is_invalid e = false → ∀ e', seen s e' → is_invalid e' = false)))) ∧
  ((d_https s = true → d_ready s = true ∧ None ∉ d_answers s) → d_peers s ≠ Grace → d_peers s ≠ Running →
     ∃ r, outcome (step sha1 hash kind EDestroyed (step sha1 hash kind EResume s)) = Some r).
Proof using Type.
  intros s. assert (Hs : alive s ∨ ended s) by apply run_alive, discover_alive.
  assert (HO : ∀ r, outcome s = Some r → d_decided s = Some r ∧ d_probe s ≠ Some true) by (unfold outcome; intros r; by destruct (d_probe s) as [[]|]).
  split_and!.
  - intros data [Hd Hp]%HO. destruct Hs as [[H _]|(r & E & H & _)]; [by rewrite (u_undecided _ H) in Hd|].
    rewrite E in Hd. injection Hd as ->. by destruct (H data eq_refl).
  - intros e [Hd Hp]%HO. destruct Hs as [[H _]|(r & E & _ & H)]; [by rewrite (u_undecided _ H) in Hd|].
    rewrite E in Hd. injection Hd as ->. split; [done|]. destruct (H e eq_refl) as [?|[?|[_ ?]]]; auto.
  - intros Hh Hg Hr. destruct Hs as [[H HT]|(r & E & _)].
    + assert (HA : d_any s ≠ None).
      { intros EA. apply (t_any _ HT), any_of_pending in EA. unfold lookups in EA. apply elem_of_app in EA as [EA|EA].
        - destruct (d_https s) eqn:EH; [|by apply elem_of_nil in EA]. destruct (Hh eq_refl) as [ER HN].
          apply list_elem_of_singleton in EA. by apply HN, any_of_pending, (t_over _ HT).
        - destruct (d_peers s); cbn in EA; try done; [by apply elem_of_nil in EA|]. by apply list_elem_of_singleton in EA. }
      unfold step at 2. rewrite (u_undecided _ H). destruct (d_any s) as [r|]; [|done]. eexists. unfold step. cbn. unfold outcome. cbn.
      by destruct (d_probe s).
    + exists r. unfold step at 2. rewrite E. unfold step. rewrite E. unfold outcome. cbn. rewrite E. by destruct (d_probe s).
Qed.
End facts.

(** The first seedbox sends nothing useful, the grace period ends, and a peer has the
    document before the second seedbox answers. *)
Definition example_events : list event :=
  [EReady 2; EAnswer 0 (Ok (Answer false (NInt 0) [])); EGrace; EMetadata demo_document; EAnswer 1 (throw_plain "Failed to fetch"); EResume; EDestroyed].
Lemma discovery_sound_witness :
  let s := run demo_sha1 (hex (demo_sha1 demo_info)) (Some Descriptor) example_events (discover None true None) in
  outcome s = Some (Ok (rebuild demo_info)) ∧ authentic demo_sha1 (hex (demo_sha1 demo_info)) (Some Descriptor) (rebuild demo_info).
Proof.
  set (s := run _ _ _ _ _). assert (E : outcome s = Some (Ok (rebuild demo_info))) by (by vm_compute). split; [exact E|].
  by apply (proj1 (discovery_sound demo_sha1 (hex (demo_sha1 demo_info)) (Some Descriptor) None true None example_events)).
Defined.
