(* ===== verification/WindowPrefetch.v ===== *)
(** * Prefetch and background download of a torrent (src/src/disk/web/torrent-window.js:
    prefetch, stopPrefetch, setBackground, backgroundSelection, failed, cancel, remove)

    One torrent and every call of [prefetch] on it.  A call first aborts the one before it
    and waits for it to end; then it selects its ranges one by one and waits for their
    pieces.  WebTorrent is the environment: it verifies pieces and may find that one it
    had is not valid; what the code asks of it is a log.

    A call that finds nothing to wait for goes on at once; between a wait and what follows
    it other events may come. *)
From S2P Require Import Prelude.
#[local] Open Scope Z_scope.

Definition PIECE : Z := 262144.
Definition fail {A} (code message : string) : result A := throw code message.

(** What the torrent is asked. *)
Inductive act :=
| Select (k : nat) (first last : Z)    (** a range of call [k] *)
| Deselect (k : nat) (first last : Z)
| SelectAll | DeselectAll              (** [select(0,pieces-1,0)] and [deselect(0,pieces-1)] *)
| Resume | Pause.

Inductive phase :=
| Awaiting (task : option nat)         (** awaits the task of a call before it *)
| Fetching (first last piece : Z) (pieces : list Z) (ranges : list (Z * Z))
    (** waits for [piece]; [pieces] and [ranges] are left to do *)
| TaskOver (r : result unit)           (** [prefetchTask] has settled *)
| Returned (r : result unit).
Record pcall := PCall { p_phase : phase; p_aborted : option exn; p_ranges : list (Z * Z) }.

Record entry := Entry {
  e_size : Z; e_pieces : Z;
  e_bits : gset Z;                     (** [torrent.bitfield] *)
  e_background : bool; e_paused : bool; e_rescanned : bool;
  e_destroyed : bool; e_error : option exn;
  e_removed : bool;                    (** no longer in [entries] *)
  e_prefetch : option nat;             (** the call whose controller is [entry.prefetch] *)
  e_task : option nat;                 (** the call whose task is [entry.prefetchTask] *)
  e_startups : nat;                    (** [entry.startupPrefetches.size] *)
  e_calls : list pcall;
  e_log : list act
}.
Definition set_bits (x : gset Z) (e : entry) : entry :=
  Entry (e_size e) (e_pieces e) x (e_background e) (e_paused e) (e_rescanned e) (e_destroyed e) (e_error e) (e_removed e) (e_prefetch e) (e_task e) (e_startups e) (e_calls e) (e_log e).
Definition set_modes (background paused rescanned : bool) (e : entry) : entry :=
  Entry (e_size e) (e_pieces e) (e_bits e) background paused rescanned (e_destroyed e) (e_error e) (e_removed e) (e_prefetch e) (e_task e) (e_startups e) (e_calls e) (e_log e).
Definition set_life (destroyed : bool) (error : option exn) (removed : bool) (e : entry) : entry :=
  Entry (e_size e) (e_pieces e) (e_bits e) (e_background e) (e_paused e) (e_rescanned e) destroyed error removed (e_prefetch e) (e_task e) (e_startups e) (e_calls e) (e_log e).
Definition set_prefetch (prefetch task : option nat) (e : entry) : entry :=
  Entry (e_size e) (e_pieces e) (e_bits e) (e_background e) (e_paused e) (e_rescanned e) (e_destroyed e) (e_error e) (e_removed e) prefetch task (e_startups e) (e_calls e) (e_log e).
Definition set_startups (x : nat) (e : entry) : entry :=
  Entry (e_size e) (e_pieces e) (e_bits e) (e_background e) (e_paused e) (e_rescanned e) (e_destroyed e) (e_error e) (e_removed e) (e_prefetch e) (e_task e) x (e_calls e) (e_log e).
Definition set_calls (x : list pcall) (e : entry) : entry :=
  Entry (e_size e) (e_pieces e) (e_bits e) (e_background e) (e_paused e) (e_rescanned e) (e_destroyed e) (e_error e) (e_removed e) (e_prefetch e) (e_task e) (e_startups e) x (e_log e).
Definition say (a : act) (e : entry) : entry :=
  Entry (e_size e) (e_pieces e) (e_bits e) (e_background e) (e_paused e) (e_rescanned e) (e_destroyed e) (e_error e) (e_removed e) (e_prefetch e) (e_task e) (e_startups e) (e_calls e) (e_log e ++ [a]).
Definition new_entry (size pieces : Z) (bits : gset Z) : entry :=
  Entry size pieces bits false false false false None false None None 0 [] [].
Definition set_phase (k : nat) (x : phase) (e : entry) : entry :=
  set_calls (alter (λ c, PCall x (p_aborted c) (p_ranges c)) k (e_calls e)) e.

(** [entry(hash)]. *)
Definition get_entry (e : entry) : result unit :=
  if e_removed e then fail "TRANSPORT_ERROR" "Torrent is unavailable"
  else match e_error e with
       | Some error => Throw error
       | None => if e_destroyed e then fail "TRANSPORT_ERROR" "Torrent is unavailable" else Ok tt
       end.

Definition backgroundSelection (e : entry) : entry :=
  if e_destroyed e || e_paused e || bool_decide (e_prefetch e ≠ None) || negb (e_startups e =? 0)%nat then e
  else if e_background e && e_rescanned e then say SelectAll e else say DeselectAll e.
(** [entry.paused=false; monitorWebseeds; torrent.resume()]. *)
Definition wake_up (e : entry) : entry := say Resume (set_modes (e_background e) false (e_rescanned e) e).

(** ** The task of a call *)
Definition valid_range (e : entry) (r : Z * Z) : bool :=
  let '(offset, length_) := r in
  is_safe offset && is_safe length_ && (0 <=? offset) && (1 <=? length_) && (offset + length_ <=? e_size e).
Definition range_first (r : Z * Z) : Z := r.1 / PIECE.
Definition range_last (r : Z * Z) : Z := (r.1 + r.2 - 1) / PIECE.
Definition range_pieces (r : Z * Z) : list Z := seqZ (range_first r) (range_last r - range_first r + 1).
(** Leaves a range; with [r], the call's task is over. *)
Definition release (k : nat) (first last : Z) (e : entry) : entry :=
  if e_destroyed e then e else say (Deselect k first last) e.
(** The first piece that is missing, and those after it. *)
Fixpoint missing (bits : gset Z) (pieces : list Z) : option (Z * list Z) :=
  match pieces with
  | [] => None
  | piece :: pieces => if decide (piece ∈ bits) then missing bits pieces else Some (piece, pieces)
  end.
Fixpoint fetch (k : nat) (ranges : list (Z * Z)) (e : entry) : entry :=
  match ranges with
  | [] => set_phase k (TaskOver (Ok tt)) e
  | r :: ranges =>
      if negb (valid_range e r) then set_phase k (TaskOver (fail "INVALID_RANGE" "Invalid prefetch range")) e
      else
        let e := say (Select k (range_first r) (range_last r)) e in
        match missing (e_bits e) (range_pieces r) with
        | Some (piece, pieces) => set_phase k (Fetching (range_first r) (range_last r) piece pieces ranges) e
        | None => fetch k ranges (release k (range_first r) (range_last r) e)
        end
  end.
(** After its piece was verified. *)
Definition go_on (k : nat) (first last : Z) (pieces : list Z) (ranges : list (Z * Z)) (e : entry) : entry :=
  match missing (e_bits e) pieces with
  | Some (piece, pieces) => set_phase k (Fetching first last piece pieces ranges) e
  | None => fetch k ranges (release k first last e)
  end.
Definition verified_call (index : Z) (e : entry) (k : nat) : entry :=
  match p_phase <$> e_calls e !! k with
  | Some (Fetching first last piece pieces ranges) => if piece =? index then go_on k first last pieces ranges e else e
  | _ => e
  end.
(** [controller.abort(error)] of call [k]. *)
Definition abort_call (error : exn) (k : nat) (e : entry) : entry :=
  match e_calls e !! k with
  | Some (PCall p None ranges) =>
      let e := set_calls (<[k := PCall p (Some error) ranges]> (e_calls e)) e in
      match p with
      | Fetching first last _ _ _ => set_phase k (TaskOver (Throw error)) (release k first last e)
      | _ => e
      end
  | _ => e
  end.
Definition abort_prefetch (error : exn) (e : entry) : entry :=
  match e_prefetch e with Some k => abort_call error k e | None => e end.
Definition CANCELLED (message : string) : exn := Exn (Some "CANCELLED"%string) message.

(** ** Operations *)
Definition prefetch (ranges : list (Z * Z)) (e : entry) : entry :=
  match get_entry e with
  | Throw error => set_calls (e_calls e ++ [PCall (Returned (Throw error)) None ranges]) e
  | Ok _ =>
      let e := abort_prefetch (CANCELLED "Prefetch replaced") e in
      set_calls (e_calls e ++ [PCall (Awaiting (e_task e)) None ranges]) e
  end.
Definition task_over (t : option nat) (e : entry) : bool :=
  match t with
  | None => true
  | Some t => match p_phase <$> e_calls e !! t with Some (TaskOver _) | Some (Returned _) => true | _ => false end
  end.
(** Call [k] after the task it awaited. *)
Definition begin_prefetch (k : nat) (ranges : list (Z * Z)) (e : entry) : entry :=
  let e := say DeselectAll e in
  let e := set_prefetch (Some k) (e_task e) e in
  let e := backgroundSelection (wake_up e) in
  fetch k ranges (set_prefetch (Some k) (Some k) e).
(** The [finally] of call [k]. *)
Definition end_prefetch (k : nat) (r : result unit) (e : entry) : entry :=
  let e := set_phase k (Returned r) e in
  if bool_decide (e_prefetch e = Some k) then backgroundSelection (set_prefetch None (e_task e) e) else e.
Definition stopPrefetch (e : entry) : entry :=
  match get_entry e with Throw _ => e | Ok _ => abort_prefetch (CANCELLED "Prefetch replaced") e end.
Definition setBackground (enabled : bool) (e : entry) : entry :=
  match get_entry e with
  | Throw _ => e
  | Ok _ =>
      let e := set_modes enabled (e_paused e) (e_rescanned e) e in
      backgroundSelection (if enabled then wake_up e else e)
  end.
Definition failed (error : exn) (e : entry) : entry := abort_prefetch error (set_life (e_destroyed e) (Some error) (e_removed e) e).
Definition cancel (e : entry) : entry :=
  let e := abort_prefetch (CANCELLED "Torrent prefetch cancelled") e in
  let e := set_modes (e_background e) true (e_rescanned e) e in
  if e_destroyed e then e else say Pause (say DeselectAll e).
(** [remove], up to [torrent.destroy]. *)
Definition remove (e : entry) : entry :=
  if e_removed e then e else failed (CANCELLED "Torrent closed") (set_life (e_destroyed e) (e_error e) true e).

Inductive event :=
| EPrefetch (ranges : list (Z * Z)) | EWake (k : nat) | EReturn (k : nat)
| ETimeout (k : nat)                   (** the timer of call [k] *)
| EStop | EBackground (enabled : bool)
| ERead                                (** a read of the torrent wakes it up *)
| EStartup (starts : bool)             (** a startup prefetch starts or ends *)
| ERescanned                           (** the scan of the cache is over *)
| EVerified (index : Z) | EUnverified (index : Z)
| EFailed (error : exn) | ECancel | ERemove | EDestroyed.
Definition step (ev : event) (e : entry) : entry :=
  match ev with
  | EPrefetch ranges => prefetch ranges e
  | EWake k =>
      match e_calls e !! k with
      | Some (PCall (Awaiting t) _ ranges) => if task_over t e then begin_prefetch k ranges e else e
      | _ => e
      end
  | EReturn k => match p_phase <$> e_calls e !! k with Some (TaskOver r) => end_prefetch k r e | _ => e end
  | ETimeout k =>
      match p_phase <$> e_calls e !! k with
      | Some (Fetching _ _ _ _ _) => abort_call (Exn (Some "TRANSPORT_TIMEOUT"%string) "Torrent prefetch timed out") k e
      | _ => e
      end
  | EStop => stopPrefetch e
  | EBackground enabled => setBackground enabled e
  | ERead => match get_entry e with Ok _ => wake_up e | Throw _ => e end
  | EStartup true => set_startups (S (e_startups e)) e
  | EStartup false => set_startups (pred (e_startups e)) e
  | ERescanned => if e_destroyed e then e else backgroundSelection (set_modes (e_background e) (e_paused e) true e)
  | EVerified index => foldl (verified_call index) (set_bits ({[index]} ∪ e_bits e) e) (seq 0 (length (e_calls e)))
  | EUnverified index => set_bits (e_bits e ∖ {[index]}) e
  | EFailed error => failed error e
  | ECancel => cancel e
  | ERemove => remove e
  | EDestroyed => set_life true (e_error e) (e_removed e) e
  end.
Definition run (l : list event) (e : entry) : entry := foldl (λ e ev, step ev e) e l.
