(* ===== verification/WindowPrefetchFacts.v ===== *)
(** * Prefetch and background download: what is selected, and what is done *)
From S2P Require Import Prelude WindowPrefetch.
#[local] Open Scope Z_scope.

(** ** The log *)
(** Ranges that call [k] has selected and not released. *)
Definition weight (k : nat) (a : act) : Z :=
  match a with
  | Select j _ _ => if decide (j = k) then 1 else 0
  | Deselect j _ _ => if decide (j = k) then -1 else 0
  | _ => 0
  end.
Definition held (k : nat) (l : list act) : Z := sum_list_Z (weight k <$> l).
Lemma held_snoc k l a : held k (l ++ [a]) = held k l + weight k a.
Proof. unfold held. rewrite fmap_app, sum_list_Z_app. unfold sum_list_Z at 2. cbn. lia. Qed.
(** Whether the torrent as a whole is selected for download. *)
Definition all_selected (l : list act) : bool :=
  foldl (λ b a, match a with SelectAll => true | DeselectAll => false | _ => b end) false l.
Lemma all_selected_snoc l a :
  all_selected (l ++ [a]) = match a with SelectAll => true | DeselectAll => false | _ => all_selected l end.
Proof. unfold all_selected. by rewrite foldl_app. Qed.

#[global] Arguments held : simpl never.
#[global] Arguments all_selected : simpl never.

Section facts.
(** [seen]: pieces that were there at first or verified since; [started]: a startup
    prefetch has run. *)
Context (seen : gset Z) (started : bool).

Definition done_range (e : entry) (r : Z * Z) : Prop := valid_range e r = true ∧ ∀ x, x ∈ range_pieces r → x ∈ seen.
Definition busy (c : pcall) : bool := match p_phase c with Fetching _ _ _ _ _ | TaskOver _ => true | _ => false end.
Definition call_ok (e : entry) (k : nat) (c : pcall) : Prop :=
  match p_phase c with
  | Awaiting _ => p_aborted c = None ∧ (e_destroyed e = false → held k (e_log e) = 0)
  | Fetching first last piece pieces ranges =>
      p_aborted c = None ∧ (e_destroyed e = false → held k (e_log e) = 1) ∧
      ∃ past r before, p_ranges c = past ++ r :: ranges ∧ range_pieces r = before ++ piece :: pieces ∧
        first = range_first r ∧ last = range_last r ∧ valid_range e r = true ∧
        (∀ x, x ∈ before → x ∈ seen) ∧ (∀ r, r ∈ past → done_range e r)
  | TaskOver r | Returned r =>
      (r = Ok tt → ∀ r, r ∈ p_ranges c → done_range e r) ∧ (e_destroyed e = false → held k (e_log e) = 0)
  end.
(** The invariant but for call [k]. *)
Record rest (k : nat) (e : entry) : Prop := {
  r_bits : e_bits e ⊆ seen;
  r_calls : ∀ j c, j ≠ k → e_calls e !! j = Some c → call_ok e j c;
  r_new : ∀ j, (length (e_calls e) ≤ j)%nat → j ≠ k → e_destroyed e = false → held j (e_log e) = 0;
  r_prefetch : ∀ j, e_prefetch e = Some j → e_task e = Some j ∧ (j = k ∨ ∃ c, e_calls e !! j = Some c ∧ busy c = true);
  r_back : e_destroyed e = false → all_selected (e_log e) = true →
    e_rescanned e = true ∧ e_paused e = false ∧ e_prefetch e = None ∧ (e_background e = true ∨ started = true);
  r_started : e_startups e ≠ 0%nat → started = true
}.
Record inv (e : entry) : Prop := {
  i_bits : e_bits e ⊆ seen;
  i_calls : ∀ j c, e_calls e !! j = Some c → call_ok e j c;
  i_new : ∀ j, (length (e_calls e) ≤ j)%nat → e_destroyed e = false → held j (e_log e) = 0;
  i_prefetch : ∀ j, e_prefetch e = Some j → e_task e = Some j ∧ ∃ c, e_calls e !! j = Some c ∧ busy c = true;
  i_back : e_destroyed e = false → all_selected (e_log e) = true →
    e_rescanned e = true ∧ e_paused e = false ∧ e_prefetch e = None ∧ (e_background e = true ∨ started = true);
  i_started : e_startups e ≠ 0%nat → started = true
}.
Lemma inv_rest k e : inv e → rest k e.
Proof using Type. intros [H1 H2 H3 H4 H5 H6]. split; try done; [eauto|auto|]. intros j Hj. destruct (H4 j Hj); auto. Qed.
Lemma rest_inv k c e :
  rest k e → e_calls e !! k = Some c → call_ok e k c → (e_prefetch e = Some k → busy c = true) → inv e.
Proof using Type.
  intros [H1 H2 H3 H4 H5 H6] Hk Hc Hb. split; try done.
  - intros j d Hj. destruct (decide (j = k)) as [->|]; [congruence|by apply H2].
  - intros j Hj Hd. destruct (decide (j = k)) as [->|]; [apply lookup_lt_Some in Hk; lia|by apply H3].
  - intros j Hj. destruct (H4 j Hj) as [? [->|?]]; [|done]. split; [done|]. exists c. auto.
Qed.
Lemma set_phase_lookup k x e : e_calls (set_phase k x e) !! k = (λ c, PCall x (p_aborted c) (p_ranges c)) <$> e_calls e !! k.
Proof using Type. unfold set_phase. cbn. by rewrite list_lookup_alter_eq. Qed.
Lemma release_calls k first last e : e_calls (release k first last e) = e_calls e.
Proof using Type. unfold release. by destruct (e_destroyed e). Qed.
Lemma rest_phase k x e : rest k e → rest k (set_phase k x e).
Proof using Type.
  intros [H1 H2 H3 H4 H5 H6]. unfold set_phase. split; try done; cbn.
  - intros j c Hj Hc. rewrite list_lookup_alter_ne in Hc by done. by apply H2.
  - intros j. rewrite length_alter. by apply H3.
  - intros j Hj. destruct (H4 j Hj) as [? [->|(c & ? & ?)]]; [by auto|]. split; [done|].
    destruct (decide (j = k)) as [->|]; [by left|]. right. exists c. by rewrite list_lookup_alter_ne.
Qed.
(** An act of call [k] leaves the others alone. *)
Lemma rest_say k a e :
  (match a with Select j _ _ | Deselect j _ _ => j = k | _ => False end) → rest k e → rest k (say a e).
Proof using Type.
  intros Ha [H1 H2 H3 H4 H5 H6].
  assert (HW : ∀ j, j ≠ k → held j (e_log e ++ [a]) = held j (e_log e)).
  { intros j Hj. rewrite held_snoc. destruct a; try done; subst; unfold weight; rewrite decide_False by done; lia. }
  split; try done; cbn.
  - intros j c Hj Hc. specialize (H2 j c Hj Hc). unfold call_ok in *. cbn. rewrite HW by done. by destruct (p_phase c).
  - intros j Hj Hn Hd. rewrite HW by done. by apply H3.
  - intros Hd. rewrite all_selected_snoc. destruct a; try done; by apply H5.
Qed.

(** ** The task of a call *)
Lemma missing_spec bits pieces :
  bits ⊆ seen →
  match missing bits pieces with
  | Some (piece, later) => ∃ before, pieces = before ++ piece :: later ∧ ∀ x, x ∈ before → x ∈ seen
  | None => ∀ x, x ∈ pieces → x ∈ seen
  end.
Proof using Type.
  intros Hb. induction pieces as [|p pieces IH]; cbn; [by intros x ?%elem_of_nil|]. destruct (decide (p ∈ bits)) as [Hp|Hp].
  - destruct (missing bits pieces) as [[q later]|].
    + destruct IH as (before & -> & H). exists (p :: before). split; [done|]. intros x [->|?]%elem_of_cons; [by apply Hb|auto].
    + intros x [->|?]%elem_of_cons; [by apply Hb|auto].
  - exists []. split; [done|]. by intros x ?%elem_of_nil.
Qed.
Lemma fetch_inv k ranges past c e :
  rest k e → e_calls e !! k = Some c → p_aborted c = None → p_ranges c = past ++ ranges → (∀ r, r ∈ past → done_range e r) →
  (e_destroyed e = false → held k (e_log e) = 0) → inv (fetch k ranges e).
Proof using Type.
  revert past c e. induction ranges as [|r ranges IH]; intros past c e HR Hc Ha Hp Hd Hh; cbn [fetch].
  { eapply (rest_inv k); [by apply rest_phase|cbn; rewrite list_lookup_alter_eq, Hc; done| |done].
    unfold call_ok. cbn. split; [|done]. intros _ r Hr. rewrite Hp, app_nil_r in Hr. by apply Hd. }
  destruct (valid_range e r) eqn:Ev; cbn [negb].
  2: { eapply (rest_inv k); [by apply rest_phase|cbn; rewrite list_lookup_alter_eq, Hc; done| |done].
       unfold call_ok. cbn. split; [done|done]. }
  set (e1 := say (Select k (range_first r) (range_last r)) e). assert (HR1 : rest k e1) by by apply rest_say.
  assert (Hw1 : e_destroyed e1 = false → held k (e_log e1) = 1).
  { intros Hx. cbn. rewrite held_snoc, Hh by done. unfold weight. by rewrite decide_True. }
  pose proof (missing_spec (e_bits e1) (range_pieces r) (r_bits _ _ HR1)) as HM.
  destruct (missing (e_bits e1) (range_pieces r)) as [[piece later]|].
  - destruct HM as (before & Eb & Hb). eapply (rest_inv k); [by apply rest_phase|cbn; rewrite list_lookup_alter_eq, Hc; done| |done].
    unfold call_ok. cbn. split_and!; [done|done|]. by exists past, r, before.
  - assert (HD : ∀ x, x ∈ past ++ [r] → done_range e x).
    { intros x [?|Hx]%elem_of_app; [by apply Hd|]. apply list_elem_of_singleton in Hx as ->. split; [done|exact HM]. }
    unfold release. destruct (e_destroyed e1) eqn:Ed.
    + apply (IH (past ++ [r]) c); try done; [by rewrite <- app_assoc|congruence].
    + apply (IH (past ++ [r]) c); try done; [by apply rest_say|by rewrite <- app_assoc|].
      intros _. change (e_log (say ?a e1)) with (e_log e1 ++ [a]). rewrite held_snoc, Hw1 by done. unfold weight. by rewrite decide_True.
Qed.

(** ** The events *)
(** What changes neither the calls nor the log. *)
Definition same (e e' : entry) : Prop :=
  e_size e' = e_size e ∧ e_destroyed e' = e_destroyed e ∧ e_calls e' = e_calls e ∧ e_log e' = e_log e ∧
  e_prefetch e' = e_prefetch e ∧ e_task e' = e_task e.
Lemma done_size e e' r : e_size e' = e_size e → done_range e r → done_range e' r.
Proof using Type. intros E [H1 H2]. split; [|done]. unfold valid_range in *. by rewrite E. Qed.
Lemma call_ok_same e e' k c :
  e_size e' = e_size e → (e_destroyed e' = false → e_destroyed e = false ∧ held k (e_log e') = held k (e_log e)) →
  call_ok e k c → call_ok e' k c.
Proof using Type.
  intros ES EH. unfold call_ok. destruct (p_phase c).
  - intros [? H]. split; [done|]. intros Hd. destruct (EH Hd) as [? ->]. by apply H.
  - intros (Ha & Hh & past & r & before & ? & ? & ? & ? & Hv & ? & Hp). split_and!; [done|intros Hd; destruct (EH Hd) as [? ->]; by apply Hh|].
    exists past, r, before. split_and!; try done; [unfold valid_range in *; by rewrite ES|]. intros x Hx. by eapply done_size, Hp.
  - intros [Hr H]. split; [|intros Hd; destruct (EH Hd) as [? ->]; by apply H]. intros E x Hx. by eapply done_size, (Hr E).
  - intros [Hr H]. split; [|intros Hd; destruct (EH Hd) as [? ->]; by apply H]. intros E x Hx. by eapply done_size, (Hr E).
Qed.
(** An entry that differs only in modes, life, bits and acts on the whole torrent. *)
Lemma inv_change e e' :
  e_size e' = e_size e → e_calls e' = e_calls e → e_prefetch e' = e_prefetch e → e_task e' = e_task e → e_startups e' = e_startups e → e_bits e' ⊆ seen →
  (e_destroyed e' = false → e_destroyed e = false ∧ ∀ k, held k (e_log e') = held k (e_log e)) →
  (e_destroyed e' = false → all_selected (e_log e') = true →
    e_rescanned e' = true ∧ e_paused e' = false ∧ e_prefetch e' = None ∧ (e_background e' = true ∨ started = true)) →
  inv e → inv e'.
Proof using Type.
  intros ES EC EP ET EU HB HL HS [H1 H2 H3 H4 H5 H6]. split; try done.
  - intros j c. rewrite EC. intros Hc. eapply call_ok_same; [done| |by apply H2]. intros Hd. by destruct (HL Hd).
  - intros j. rewrite EC. intros Hj Hd. destruct (HL Hd) as [? ->]. by apply H3.
  - intros j. rewrite EP, ET, EC. apply H4.
  - by rewrite EU.
Qed.
Lemma held_whole k l a : (match a with Select _ _ _ | Deselect _ _ _ => False | _ => True end) → held k (l ++ [a]) = held k l.
Proof using Type. intros Ha. rewrite held_snoc. destruct a; try done; cbn; lia. Qed.

Lemma inv_say_all a e :
  (a = Resume ∨ a = Pause ∨ a = DeselectAll ∨ (a = SelectAll ∧ e_rescanned e = true ∧ e_paused e = false ∧ e_prefetch e = None ∧ (e_background e = true ∨ started = true))) →
  inv e → inv (say a e).
Proof using Type.
  intros Ha H. apply (inv_change e); try done; [apply (i_bits _ H)|..].
  - intros Hd. split; [done|]. intros k. cbn. apply held_whole. by destruct Ha as [->|[->|[->|[-> _]]]].
  - intros Hd. cbn. rewrite all_selected_snoc. destruct Ha as [->|[->|[->|[-> ?]]]]; try done; by apply (i_back _ H).
Qed.
Lemma inv_background e : inv e → inv (backgroundSelection e).
Proof using Type.
  intros H. unfold backgroundSelection. destruct (_ || _) eqn:E; [done|]. bools. destruct (e_background e && e_rescanned e) eqn:EB; bools.
  - apply inv_say_all; [|done]. right. right. right. split_and!; try done; [by apply dec_stable|by left].
  - apply inv_say_all; [auto|done].
Qed.

Lemma inv_abort error k e : inv e → (∀ c, e_calls e !! k = Some c → busy c = true) → inv (abort_call error k e).
Proof using Type.
  intros H HB. unfold abort_call. destruct (e_calls e !! k) as [[p [|] ranges]|] eqn:Hc; try done.
  pose proof (i_calls _ H k _ Hc) as Hok. set (e1 := set_calls _ e).
  assert (HR : rest k e1).
  { destruct (inv_rest k e H) as [H1 H2 H3 H4 H5 H6]. split; try done; cbn.
    - intros j c Hj. rewrite list_lookup_insert_ne by done. by apply H2.
    - intros j. rewrite length_insert. by apply H3.
    - intros j Hj. destruct (H4 j Hj) as [? [->|(c & ? & ?)]]; [by auto|]. split; [done|].
      destruct (decide (j = k)) as [->|]; [by left|]. right. exists c. by rewrite list_lookup_insert_ne. }
  assert (Hc1 : e_calls e1 !! k = Some (PCall p (Some error) ranges)) by (cbn; apply list_lookup_insert_eq; by eapply lookup_lt_Some).
  specialize (HB _ eq_refl).
destruct p as [|first last piece pieces rs| |]; try done.
  - destruct Hok as (_ & Hh & _).
    assert (HR2 : rest k (release k first last e1)) by (unfold release; destruct (e_destroyed e1); [done|by apply rest_say]).
    apply (rest_inv k (PCall (TaskOver (Throw error)) (Some error) ranges)); [by apply rest_phase| | |done].
    + by rewrite set_phase_lookup, release_calls, Hc1.
    + unfold call_ok. cbn [p_phase]. split; [done|]. intros Hd. unfold release in *. destruct (e_destroyed e1) eqn:Ed; [by cbn in *; congruence|].
      change (held k (e_log e ++ [Deselect k first last]) = 0). rewrite held_snoc, Hh by done. unfold weight. by rewrite decide_True.
  - by eapply (rest_inv k).
Qed.
Lemma inv_abort_prefetch error e : inv e → inv (abort_prefetch error e).
Proof using Type.
  intros H. unfold abort_prefetch. destruct (e_prefetch e) as [k|] eqn:E; [|done]. apply inv_abort; [done|].
  intros c Hc. destruct (i_prefetch _ H k E) as (_ & d & ? & ?). congruence.
Qed.
(** Aborting touches neither modes nor life. *)
Lemma abort_same error e :
  let e' := abort_prefetch error e in
  e_size e' = e_size e ∧ e_destroyed e' = e_destroyed e ∧ e_prefetch e' = e_prefetch e ∧ e_task e' = e_task e ∧ e_bits e' = e_bits e ∧
  length (e_calls e') = length (e_calls e).
Proof using Type.
  unfold abort_prefetch, abort_call. destruct (e_prefetch e) as [k|] eqn:EP; [|done]. destruct (e_calls e !! k) as [[p [|] ranges]|]; try done.
  destruct p; cbn; rewrite ?length_insert; try done. rewrite length_alter, release_calls. unfold release. cbn. rewrite <- EP.
  destruct (e_destroyed e) eqn:E; cbn; rewrite length_insert, ?E; done.
Qed.
Lemma inv_failed error e : inv e → inv (failed error e).
Proof using Type. intros H. apply inv_abort_prefetch, (inv_change e); try done; [apply (i_bits _ H)|apply (i_back _ H)]. Qed.
Lemma inv_prefetch ranges e : inv e → inv (prefetch ranges e).
Proof using Type.
  intros H. unfold prefetch.
  assert (HA : ∀ c e, inv e → call_ok e (length (e_calls e)) c → inv (set_calls (e_calls e ++ [c]) e)).
  { clear. intros c e [H1 H2 H3 H4 H5 H6] Hc. split; try done; cbn.
    - intros j d Hj. apply lookup_app_Some in Hj as [Hj|[Hl Hj]]; [by apply H2|]. apply list_lookup_singleton_Some in Hj as [Hj <-].
      assert (j = length (e_calls e)) as -> by lia. exact Hc.
    - intros j. rewrite length_app. cbn. intros Hj. apply H3. lia.
    - intros j Hj. destruct (H4 j Hj) as (? & d & Hd & ?). split; [done|]. exists d. split; [|done]. apply lookup_app_Some. by left. }
  destruct (get_entry e) as [[]|error]; [|apply HA; [done|]].
  - apply HA; [by apply inv_abort_prefetch|]. split; [done|]. intros Hd. apply (i_new _ (inv_abort_prefetch _ _ H)); [done|done].
  - split; [done|]. intros Hd. by apply (i_new _ H).
Qed.
Lemma inv_modes background paused rescanned e :
  inv e → (all_selected (e_log e) = true → e_destroyed e = false → rescanned = true ∧ paused = false ∧ (background = true ∨ started = true)) →
  inv (set_modes background paused rescanned e).
Proof using Type.
  intros H HS. apply (inv_change e); try done; [apply (i_bits _ H)|]. intros Hd Ha. cbn in *. destruct (HS Ha Hd) as (? & ? & ?).
  destruct (i_back _ H Hd Ha) as (_ & _ & ? & _). done.
Qed.
Lemma inv_wake e : inv e → inv (wake_up e).
Proof using Type.
  intros H. apply inv_say_all; [by left|]. apply inv_modes; [done|]. intros Ha Hd. by destruct (i_back _ H Hd Ha) as (? & ? & ? & ?).
Qed.

Lemma background_same e :
  e_calls (backgroundSelection e) = e_calls e ∧ e_destroyed (backgroundSelection e) = e_destroyed e ∧
  (∀ k, held k (e_log (backgroundSelection e)) = held k (e_log e)) ∧ e_prefetch (backgroundSelection e) = e_prefetch e.
Proof using Type.
  unfold backgroundSelection. destruct (_ || _); [done|]. destruct (_ && _); split_and!; try done; intros k; by apply held_whole.
Qed.
Lemma inv_begin k t ranges e : inv e → e_calls e !! k = Some (PCall (Awaiting t) None ranges) → inv (begin_prefetch k ranges e).
Proof using Type.
  intros H Hc. unfold begin_prefetch. set (e1 := say DeselectAll e). set (e2 := wake_up (set_prefetch (Some k) (e_task e1) e1)).
  assert (HB : backgroundSelection e2 = e2).
  { unfold backgroundSelection. rewrite (bool_decide_true (e_prefetch e2 ≠ None)) by done. by rewrite orb_true_r. }
  rewrite HB. pose proof (i_calls _ H k _ Hc) as [_ Hh].
  assert (HL : ∀ j, held j (e_log e2) = held j (e_log e)).
  { intros j. change (e_log e2) with ((e_log e ++ [DeselectAll]) ++ [Resume]). by rewrite !held_whole. }
  destruct H as [H1 H2 H3 H4 H5 H6].
  apply (fetch_inv k ranges [] (PCall (Awaiting t) None ranges)); try done.
  - split; try done.
    + intros j c Hj Hcj. apply (call_ok_same e); [done| |exact (H2 j c Hcj)]. intros Hd. split; [done|]. apply HL.
    + intros j Hj _ Hd. change (held j (e_log e2) = 0). rewrite HL. by apply H3.
    + intros j [= <-]. split; [done|by left].
    + intros Hd. cbn. rewrite !all_selected_snoc. done.
  - by intros r ?%elem_of_nil.
  - intros Hd. change (held k (e_log e2) = 0). rewrite HL. by apply Hh.
Qed.
Lemma inv_end k c r e : inv e → e_calls e !! k = Some c → p_phase c = TaskOver r → inv (end_prefetch k r e).
Proof using Type.
  intros H Hc Hp. unfold end_prefetch. pose proof (i_calls _ H k _ Hc) as Hok. unfold call_ok in Hok. rewrite Hp in Hok.
  assert (HR : rest k (set_phase k (Returned r) e)) by by apply rest_phase, inv_rest.
  assert (HC : e_calls (set_phase k (Returned r) e) !! k = Some (PCall (Returned r) (p_aborted c) (p_ranges c))) by (by rewrite set_phase_lookup, Hc).
  case_bool_decide as HE.
  - apply inv_background. apply (rest_inv k (PCall (Returned r) (p_aborted c) (p_ranges c))); [|exact HC|exact Hok|done].
    destruct HR as [H1 H2 H3 H4 H5 H6]. split; try done. intros Hd Ha. by destruct (H5 Hd Ha) as (? & ? & ? & ?).
  - by apply (rest_inv k _ _ HR HC).
Qed.
Lemma inv_setBackground enabled e : inv e → inv (setBackground enabled e).
Proof using Type.
  intros H. unfold setBackground. destruct (get_entry e) as [[]|]; [|done]. destruct enabled.
  { apply inv_background, inv_wake, inv_modes; [done|]. intros Ha Hd. destruct (i_back _ H Hd Ha) as (? & ? & ? & ?). auto. }
  unfold backgroundSelection. destruct (_ || _) eqn:E.
  - apply inv_modes; [done|]. intros Ha Hd. destruct (i_back _ H Hd Ha) as (? & HP & HN & _). split_and!; [done|done|right].
    cbn in E. rewrite Hd, HP, HN in E. cbn in E. apply (i_started _ H). intros E0. by rewrite E0 in E.
  - cbn. apply (inv_change e); try done; [apply (i_bits _ H)|..].
    + intros Hd. split; [done|]. intros k. by apply held_whole.
    + intros _. cbn. by rewrite all_selected_snoc.
Qed.
Lemma entry_cancel e : inv e → inv (cancel e).
Proof using Type.
  intros H. unfold cancel. set (e1 := abort_prefetch _ e). assert (H1 : inv e1) by by apply inv_abort_prefetch.
  assert (HM : inv (say DeselectAll (set_modes (e_background e1) true (e_rescanned e1) e1))).
  { apply (inv_change e1); try done; [apply (i_bits _ H1)|..].
    - intros Hd. split; [done|]. intros k. by apply held_whole.
    - intros _. cbn. by rewrite all_selected_snoc. }
  cbn [e_destroyed set_modes]. destruct (e_destroyed e1) eqn:E.
  - apply inv_modes; [done|]. congruence.
  - apply inv_say_all; [auto|exact HM].
Qed.
Lemma inv_life destroyed error removed e : (destroyed = false → e_destroyed e = false) → inv e → inv (set_life destroyed error removed e).
Proof using Type.
  intros Hd H. apply (inv_change e); try done; [apply (i_bits _ H)|intros E; split; [by apply Hd|done]|]. intros E Ha. apply (i_back _ H); [by apply Hd|done].
Qed.
Lemma inv_remove e : inv e → inv (remove e).
Proof using Type. intros H. unfold remove. destruct (e_removed e); [done|]. apply inv_failed. by apply inv_life. Qed.
Lemma inv_verified index e k : inv e → index ∈ seen → inv (verified_call index e k).
Proof using Type.
  intros H Hi. unfold verified_call. destruct (e_calls e !! k) as [c|] eqn:Hc; [|done]. cbn. destruct (p_phase c) as [|first last piece pieces ranges| |] eqn:Hp; try done.
  destruct (Z.eqb_spec piece index) as [->|]; [|done].
  pose proof (i_calls _ H k _ Hc) as Hok. unfold call_ok in Hok. rewrite Hp in Hok.
  destruct Hok as (Ha & Hh & past & r & before & ER & EP & Ef & El & Hv & Hb & Hd). unfold go_on.
  pose proof (missing_spec (e_bits e) pieces (i_bits _ H)) as HM. pose proof (inv_rest k e H) as HR.
  destruct (missing (e_bits e) pieces) as [[p later]|].
  - destruct HM as (before' & -> & Hb'). eapply (rest_inv k); [by apply rest_phase|by rewrite set_phase_lookup, Hc| |done].
    unfold call_ok. cbn. split_and!; [done|done|]. exists past, r, (before ++ index :: before'). rewrite <- app_assoc. split_and!; try done.
    intros x. rewrite elem_of_app, elem_of_cons. intros [?|[->|?]]; auto.
  - assert (HD : ∀ x, x ∈ past ++ [r] → done_range e x).
    { intros x [?|Hx]%elem_of_app; [by apply Hd|]. apply list_elem_of_singleton in Hx as ->. split; [done|]. rewrite EP.
      intros y. rewrite elem_of_app, elem_of_cons. intros [?|[->|?]]; auto. }
    apply (fetch_inv k ranges (past ++ [r]) c); try done.
    + unfold release. destruct (e_destroyed e); [done|by apply rest_say].
    + by rewrite release_calls.
    + by rewrite <- app_assoc.
    + intros x Hx. eapply done_size; [|by apply HD]. unfold release. by destruct (e_destroyed e).
    + unfold release. destruct (e_destroyed e) eqn:Ed; [congruence|]. intros _.
      change (held k (e_log e ++ [Deselect k first last]) = 0). rewrite held_snoc, Hh by done. unfold weight. by rewrite decide_True.
Qed.

Definition fits (ev : event) : Prop :=
  match ev with EVerified index => index ∈ seen | EStartup true => started = true | _ => True end.
Lemma inv_foldl index l e : index ∈ seen → inv e → inv (foldl (verified_call index) e l).
Proof using Type. intros Hi. induction l as [|k l IH] in e |- *; [done|]. intros H. by apply IH, inv_verified. Qed.
Lemma inv_step ev e : fits ev → inv e → inv (step ev e).
Proof using Type.
  intros Hf H. destruct ev; cbn [step].
  - by apply inv_prefetch.
  - destruct (e_calls e !! k) as [[[t| | |] a rs]|] eqn:Hc; try done. destruct (task_over t e); [|done].
    pose proof (i_calls _ H k _ Hc) as [Ha _]. cbn in Ha. subst a. by apply (inv_begin k t).
  - destruct (e_calls e !! k) as [c|] eqn:Hc; [|done]. cbn. destruct (p_phase c) eqn:Hp; try done. by eapply inv_end.
  - destruct (e_calls e !! k) as [c|] eqn:Hc; [|done]. cbn. destruct (p_phase c) eqn:Hp; try done.
    apply inv_abort; [done|]. rewrite Hc. intros ? [= <-]. unfold busy. by rewrite Hp.
  - unfold stopPrefetch. destruct (get_entry e); [by apply inv_abort_prefetch|done].
  - by apply inv_setBackground.
  - destruct (get_entry e); [by apply inv_wake|done].
  - destruct H as [H1 H2 H3 H4 H5 H6]. destruct starts; split; try done; cbn; try (by intros). intros ?. apply H6. lia.
  - destruct (e_destroyed e) eqn:Ed; [done|]. apply inv_background, inv_modes; [done|]. intros Ha Hd.
    by destruct (i_back _ H Hd Ha) as (? & ? & ? & ?).
  - apply inv_foldl; [done|]. apply (inv_change e); try done; [cbn; pose proof (i_bits _ H); set_solver|apply (i_back _ H)].
  - apply (inv_change e); try done; [cbn; pose proof (i_bits _ H); set_solver|apply (i_back _ H)].
  - by apply inv_failed.
  - by apply entry_cancel.
  - by apply inv_remove.
  - by apply inv_life.
Qed.
Lemma entry_run l e : Forall fits l → inv e → inv (run l e).
Proof using Type. intros Hl. induction Hl as [|ev l Hev Hl IH] in e |- *; [done|]. intros H. by apply IH, inv_step. Qed.
Lemma inv_start size pieces bits : bits ⊆ seen → inv (new_entry size pieces bits).
Proof using Type. intros H. by split. Qed.
End facts.

(** ** Nobody waits for a piece that is there *)
Definition stuck (e : entry) (k : nat) (piece : Z) : Prop :=
  piece ∈ e_bits e ∧ ∃ c first last pieces ranges, e_calls e !! k = Some c ∧ p_phase c = Fetching first last piece pieces ranges.
Lemma stuck_phase k x e j piece :
  stuck (set_phase k x e) j piece → (j ≠ k ∧ stuck e j piece) ∨ (j = k ∧ piece ∈ e_bits e ∧ ∃ first last pieces ranges, x = Fetching first last piece pieces ranges).
Proof.
  intros (Hb & c & f & l & ps & rs & Hc & Hp). destruct (decide (j = k)) as [->|Hj].
  - right. rewrite set_phase_lookup in Hc. destruct (e_calls e !! k); [|done]. injection Hc as <-. cbn in Hp. split_and!; [done|done|]. by exists f, l, ps, rs.
  - left. split; [done|]. split; [done|]. exists c, f, l, ps, rs. split; [|done]. unfold set_phase in Hc. cbn in Hc. by rewrite list_lookup_alter_ne in Hc.
Qed.
Lemma missing_not bits l piece later : missing bits l = Some (piece, later) → piece ∉ bits.
Proof. induction l as [|p l IH]; cbn; [done|]. destruct (decide (p ∈ bits)); [done|]. by intros [= -> ->]. Qed.
Lemma stuck_release k first last e j piece : stuck (release k first last e) j piece ↔ stuck e j piece.
Proof. unfold release. by destruct (e_destroyed e). Qed.
Lemma stuck_fetch k ranges e j piece : stuck (fetch k ranges e) j piece → j ≠ k ∧ stuck e j piece.
Proof.
  induction ranges as [|r ranges IH] in e |- *; cbn [fetch].
  { intros [?|(_ & _ & ? & ? & ? & ? & ?)]%stuck_phase; done. }
  destruct (negb _); [intros [?|(_ & _ & ? & ? & ? & ? & ?)]%stuck_phase; done|].
  destruct (missing _ _) as [[p later]|] eqn:EM.
  - intros [?|(_ & Hb & ? & ? & ? & ? & [= ? ? -> ? ?])]%stuck_phase; [done|]. by apply missing_not in EM.
  - intros [Hj H]%IH. split; [done|]. by apply stuck_release in H.
Qed.
Lemma fetch_bits k ranges e : e_bits (fetch k ranges e) = e_bits e ∧ length (e_calls (fetch k ranges e)) = length (e_calls e).
Proof.
  induction ranges as [|r ranges IH] in e |- *; cbn [fetch]; [cbn; by rewrite length_alter|].
  destruct (negb _); [cbn; by rewrite length_alter|]. destruct (missing _ _) as [[p later]|]; [cbn; by rewrite length_alter|].
  set (e1 := release _ _ _ _). destruct (IH e1) as [-> ->]. subst e1. rewrite release_calls. unfold release. by destruct (e_destroyed _).
Qed.
Lemma stuck_verified index e k j piece :
  stuck (verified_call index e k) j piece → stuck e j piece ∧ (j = k → piece ≠ index).
Proof.
  unfold verified_call. destruct (e_calls e !! k) as [c|] eqn:Hc; cbn.
  2: { intros H. split; [done|]. intros ->. destruct H as (_ & d & ? & ? & ? & ? & Hd & _). congruence. }
  assert (HN : ∀ p, (∀ f l ps rs, p_phase c ≠ Fetching f l p ps rs) → stuck e j p → j ≠ k).
  { intros p Hp (_ & d & ? & ? & ? & ? & Hd & Hpd) ->. assert (d = c) as -> by congruence. by eapply Hp. }
  destruct (p_phase c) as [|first last p ps rs| |] eqn:Hp; try (intros H; split; [done|]; intros ->; by destruct (HN piece)).
  destruct (Z.eqb_spec p index) as [->|Hn].
  - unfold go_on. destruct (missing _ _) as [[q later]|] eqn:EM.
    + intros [[? ?]|(_ & Hb & ? & ? & ? & ? & [= ? ? -> ? ?])]%stuck_phase; [done|]. by apply missing_not in EM.
    + intros [? H]%stuck_fetch. by apply stuck_release in H.
  - intros H. split; [done|]. intros -> ->. destruct H as (_ & d & ? & ? & ? & ? & Hd & Hpd). assert (d = c) as -> by congruence. congruence.
Qed.
Lemma stuck_abort error k e j piece : stuck (abort_call error k e) j piece → stuck e j piece.
Proof.
  unfold abort_call. destruct (e_calls e !! k) as [[p [|] ranges]|] eqn:Hc; try done.
  assert (HS : stuck (set_calls (<[k:=PCall p (Some error) ranges]> (e_calls e)) e) j piece → stuck e j piece).
  { intros (Hb & c & f & l & ps & rs & Hj & Hp). split; [done|]. cbn in Hj. apply list_lookup_insert_Some in Hj as [(<- & <- & _)|[_ Hj]].
    - by exists (PCall p None ranges), f, l, ps, rs.
    - by exists c, f, l, ps, rs. }
  destruct p; try exact HS. intros [[_ H]|(_ & _ & ? & ? & ? & ? & ?)]%stuck_phase; [|done]. by apply stuck_release, HS in H.
Qed.
Lemma stuck_abort_prefetch error e j piece : stuck (abort_prefetch error e) j piece → stuck e j piece.
Proof. unfold abort_prefetch. destruct (e_prefetch e); [apply stuck_abort|done]. Qed.
Lemma stuck_background e j piece : stuck (backgroundSelection e) j piece → stuck e j piece.
Proof. unfold backgroundSelection. destruct (_ || _); [done|]. by destruct (_ && _). Qed.
Lemma stuck_new e c j piece :
  (match p_phase c with Fetching _ _ _ _ _ => False | _ => True end) → stuck (set_calls (e_calls e ++ [c]) e) j piece → stuck e j piece.
Proof.
  intros Hc (Hb & d & f & l & ps & rs & Hd & Hp). split; [done|]. cbn in Hd. apply lookup_app_Some in Hd as [Hd|[_ Hd]]; [by exists d, f, l, ps, rs|].
  apply list_lookup_singleton_Some in Hd as [_ <-]. by rewrite Hp in Hc.
Qed.
(** After [EVerified index], those that the fold has passed do not wait for it. *)
Lemma stuck_fold index l e j piece :
  stuck (foldl (verified_call index) e l) j piece → stuck e j piece ∧ (j ∈ l → piece ≠ index).
Proof.
  induction l as [|k l IH] in e |- *; cbn; [by split; [|intros ?%elem_of_nil]|]. intros [H Hl]%IH.
  apply stuck_verified in H as [H Hk]. split; [done|]. intros [->|?]%elem_of_cons; auto.
Qed.
Lemma stuck_call e j piece : stuck e j piece → (j < length (e_calls e))%nat.
Proof. intros (_ & c & ? & ? & ? & ? & Hc & _). by eapply lookup_lt_Some. Qed.

Lemma verified_length index l e : length (e_calls (foldl (verified_call index) e l)) = length (e_calls e).
Proof.
  induction l as [|k l IH] in e |- *; [done|]. cbn. rewrite IH. unfold verified_call. destruct (p_phase <$> e_calls e !! k) as [[|f la p ps rs| |]|]; try done.
  destruct (p =? index); [|done]. unfold go_on. destruct (missing _ _) as [[q later]|]; [cbn; by rewrite length_alter|].
  destruct (fetch_bits k rs (release k f la e)) as [_ ->]. by rewrite release_calls.
Qed.

Definition no_stuck (e : entry) : Prop := ∀ j piece, ¬ stuck e j piece.
Lemma no_stuck_step ev e : no_stuck e → no_stuck (step ev e).
Proof.
  intros H j piece HS. revert HS. destruct ev; cbn [step].
  - unfold prefetch. destruct (get_entry e) as [[]|]; intros HS; apply stuck_new in HS; try done; [apply stuck_abort_prefetch in HS|]; by eapply H.
  - destruct (e_calls e !! k) as [[[t| | |] a rs]|]; try apply H. destruct (task_over t e); [|apply H]. unfold begin_prefetch.
    intros [_ HS]%stuck_fetch. change (stuck (backgroundSelection (wake_up (set_prefetch (Some k) (e_task e) (say DeselectAll e)))) j piece) in HS.
    apply stuck_background in HS. by eapply H.
  - destruct (p_phase <$> e_calls e !! k) as [[| |r|]|]; try apply H. unfold end_prefetch. case_bool_decide; intros HS; [apply stuck_background in HS; change (stuck (set_phase k (Returned r) e) j piece) in HS|];
      apply stuck_phase in HS as [[_ HS]|(_ & _ & ? & ? & ? & ? & ?)]; try done; by eapply H.
  - destruct (p_phase <$> e_calls e !! k) as [[| | |]|]; try apply H. intros HS%stuck_abort. by eapply H.
  - unfold stopPrefetch. destruct (get_entry e); [|apply H]. intros HS%stuck_abort_prefetch. by eapply H.
  - unfold setBackground. destruct (get_entry e); [|apply H]. intros HS%stuck_background. destruct enabled; by eapply H.
  - destruct (get_entry e); intros HS; by eapply H.
  - destruct starts; intros HS; by eapply H.
  - destruct (e_destroyed e); [apply H|]. intros HS%stuck_background. by eapply H.
  - intros HS. pose proof (stuck_call _ _ _ HS) as Hj.
rewrite verified_length in Hj. apply stuck_fold in HS as [(Hb & HS) Hp]. cbn in Hj, Hb.
    specialize (Hp ltac:(apply elem_of_seq; lia)). apply (H j piece). split; [set_solver|done].
  - intros [Hb HS]. apply (H j piece). split; [cbn in Hb; set_solver|done].
  - intros HS%stuck_abort_prefetch. by eapply H.
  - unfold cancel. cbn [e_destroyed set_modes]. destruct (e_destroyed _); intros HS; apply (stuck_abort_prefetch (CANCELLED "Torrent prefetch cancelled")) in HS; by eapply H.
  - unfold remove. destruct (e_removed e); [apply H|]. intros HS%stuck_abort_prefetch. by eapply H.
  - intros HS. by eapply H.
Qed.
Lemma no_stuck_run l e : no_stuck e → no_stuck (run l e).
Proof. induction l as [|ev l IH] in e |- *; [done|]. intros H. by apply IH, no_stuck_step. Qed.

(** ** The property *)
Definition verifications (events : list event) : list Z := omap (λ ev, match ev with EVerified index => Some index | _ => None end) events.
Definition starts (events : list event) : bool := existsb (λ ev, match ev with EStartup true => true | _ => false end) events.
Definition fetching (c : pcall) : bool := match p_phase c with Fetching _ _ _ _ _ => true | _ => false end.


(** Two pieces: the second is verified while the first is awaited, and background download
    resumes after the prefetch. *)
Definition example_events : list event :=
  [ERescanned; EBackground true; EPrefetch [(0, 300000)]; EWake 0; EVerified 1; EVerified 0; EReturn 0].

(** Two calls that wait for the same prefetch both go on, and the first of them is not
    aborted by the second. *)
Lemma two_prefetches :
  let e := run [EPrefetch [(0, 1)]; EWake 0; EPrefetch [(262144, 1)]; EPrefetch [(262144, 2)]; EWake 1; EWake 2] (new_entry 300000 2 ∅) in
  map fetching (e_calls e) = [false; true; true] ∧ map p_aborted (e_calls e) = [Some (CANCELLED "Prefetch replaced"); None; None].
Proof. by vm_compute. Qed.
