(* ===== verification/WindowScan.v ===== *)
(** * Cached pieces (src/src/disk/web/torrent-window.js: rescanCachedPieces,
    verifyCachedPieces, waitFor)

    When a torrent opens, WebTorrent hash-checks the pieces in the store in the background.
    Meanwhile pieces are downloaded, and a startup prefetch may verify its own pieces
    first, several at a time.  A check that began before a download can answer that the
    piece is missing after it has arrived; [rescanCachedPieces] wraps the torrent's
    [_verifyPiece] so that such an answer does no harm.

    One entry is modelled.  WebTorrent is the environment: it asks for checks itself,
    answers them in any order, marks pieces verified (and says so with its event
    "verified") and clears their bits at any time. *)
From S2P Require Import Prelude.
#[local] Open Scope Z_scope.

(** ** State *)
(** A call of [torrent._verifyPiece]. *)
Record read := Read {
  r_index : Z;
  r_guard : option Z;                  (** [version], if it was the guarded function *)
  r_check : bool;                      (** an entry of [cacheChecks]; otherwise WebTorrent asked *)
  r_told : option (result bool)        (** what its callback was told *)
}.
Inductive phase :=
| Waiting (index : Z) (read : nat) (settled : option (result bool))  (** [waitFor(check,signal)] *)
| Ended (r : result unit).
(** One of the concurrent loops of a call. *)
Record worker := Worker { w_call : nat; w_phase : phase }.
Record call := Call { k_indices : list Z; k_window : Z; k_cursor : nat; k_aborted : option exn }.
Record scan := Scan { c_targets : gset Z; c_versions : gmap Z Z; c_active : bool }.
Inductive note :=
| Verified (index : Z)                 (** the event of the torrent *)
| Asked (read : nat)
| Told (read : nat) (index : Z) (stored told protected : bool).

Record state := State {
  t_bits : gset Z;                     (** [torrent.bitfield] *)
  t_scan : option scan;                (** the scan of this entry, once begun *)
  t_current : bool; t_destroyed : bool;  (** the entry is the one in the map; its torrent was destroyed *)
  t_rescanned : bool; t_failed : option exn;
  t_checks : gmap Z nat;               (** [cacheChecks], by number of the read *)
  t_reads : list read; t_calls : list call; t_workers : list worker;
  t_log : list note                    (** the newest first *)
}.
Definition new_state (bits : gset Z) : state := State bits None true false false None ∅ [] [] [] [].

Definition set_bits (x : gset Z) (log : list note) (s : state) : state :=
  State x (t_scan s) (t_current s) (t_destroyed s) (t_rescanned s) (t_failed s) (t_checks s) (t_reads s) (t_calls s) (t_workers s) log.
Definition set_scan (x : option scan) (s : state) : state :=
  State (t_bits s) x (t_current s) (t_destroyed s) (t_rescanned s) (t_failed s) (t_checks s) (t_reads s) (t_calls s) (t_workers s) (t_log s).
Definition set_entry (current destroyed rescanned : bool) (failed : option exn) (s : state) : state :=
  State (t_bits s) (t_scan s) current destroyed rescanned failed (t_checks s) (t_reads s) (t_calls s) (t_workers s) (t_log s).
Definition set_checks (x : gmap Z nat) (s : state) : state :=
  State (t_bits s) (t_scan s) (t_current s) (t_destroyed s) (t_rescanned s) (t_failed s) x (t_reads s) (t_calls s) (t_workers s) (t_log s).
Definition set_reads (x : list read) (log : list note) (s : state) : state :=
  State (t_bits s) (t_scan s) (t_current s) (t_destroyed s) (t_rescanned s) (t_failed s) (t_checks s) x (t_calls s) (t_workers s) log.
Definition set_calls (x : list call) (s : state) : state :=
  State (t_bits s) (t_scan s) (t_current s) (t_destroyed s) (t_rescanned s) (t_failed s) (t_checks s) (t_reads s) x (t_workers s) (t_log s).
Definition set_workers (x : list worker) (s : state) : state :=
  State (t_bits s) (t_scan s) (t_current s) (t_destroyed s) (t_rescanned s) (t_failed s) (t_checks s) (t_reads s) (t_calls s) x (t_log s).

(** ** The guard of the scan *)
Definition active (s : state) : bool := match t_scan s with Some c => c_active c | None => false end.
Definition version (index : Z) (s : state) : Z :=
  match t_scan s with Some c => default 0 (c_versions c !! index) | None => 0 end.
Definition is_target (index : Z) (s : state) : bool :=
  match t_scan s with Some c => bool_decide (index ∈ c_targets c) | None => false end.
(** WebTorrent marks a piece; the listener [verified] of an active scan counts it. *)
Definition mark (index : Z) (s : state) : state :=
  let s := set_bits ({[index]} ∪ t_bits s) (Verified index :: t_log s) s in
  match t_scan s with
  | Some c =>
      if c_active c then set_scan (Some (Scan (c_targets c) (<[index := version index s + 1]> (c_versions c)) true)) s
      else s
  | None => s
  end.
(** [torrent._verifyPiece(index,callback)], the guarded one while the scan is active. *)
Definition verifyPiece (index : Z) (check : bool) (s : state) : state :=
  let guard := if active s then Some (version index s) else None in
  set_reads (t_reads s ++ [Read index guard check None]) (Asked (length (t_reads s)) :: t_log s) s.
(** The store's answer to read [n]: what the callback is told. *)
Definition protected (rd : read) (s : state) : bool :=
  bool_decide (r_guard rd ≠ None) && active s && is_target (r_index rd) s && bool_decide (r_index rd ∈ t_bits s).
Definition guarded (rd : read) (valid : bool) (s : state) : bool :=
  if negb valid && protected rd s && negb (bool_decide (r_guard rd = Some (version (r_index rd) s))) then true else valid.
Definition tell (n : nat) (r : result bool) (w : worker) : worker :=
  match w_phase w with
  | Waiting index m None => if bool_decide (m = n) then Worker (w_call w) (Waiting index m (Some r)) else w
  | _ => w
  end.
Definition answered (n : nat) (r : result bool) (s : state) : state :=
  match t_reads s !! n with
  | Some rd =>
      match r_told rd with
      | Some _ => s
      | None =>
          let told := match r with Ok valid => Ok (guarded rd valid s) | Throw e => Throw e end in
          let log := match r with Ok valid => Told n (r_index rd) valid (guarded rd valid s) (protected rd s) :: t_log s | Throw _ => t_log s end in
          let s := set_reads (<[n := Read (r_index rd) (r_guard rd) (r_check rd) (Some told)]> (t_reads s)) log s in
          set_workers (tell n told <$> t_workers s) s
      end
  | None => s
  end.
(** [rescanCachedPieces]: the torrent became ready. *)
Definition rescanCachedPieces (s : state) : state :=
  match t_scan s with None => set_scan (Some (Scan ∅ ∅ true)) s | Some _ => s end.
(** The callback of [rescanFiles]. *)
Definition finish (error : option exn) (s : state) : state :=
  match t_scan s with
  | Some c =>
      if c_active c then
        let s := set_scan (Some (Scan (c_targets c) (c_versions c) false)) s in
        if t_destroyed s then s
        else match error with
             | Some e => set_entry (t_current s) (t_destroyed s) (t_rescanned s) (Some e) s
             | None => set_entry (t_current s) (t_destroyed s) true (t_failed s) s
             end
      else s
  | None => s
  end.

(** ** Verifying some pieces *)
Inductive turn := Return | Fails (e : exn) | Await (index : Z).
(** The loop of a worker up to its next await: the cursor and what it does then. *)
Fixpoint loop (aborted : option exn) (bits : gset Z) (rest : list Z) (cursor : nat) : nat * turn :=
  match rest with
  | [] => (S cursor, Return)
  | index :: rest =>
      match aborted with
      | Some e => (S cursor, Fails e)
      | None => if bool_decide (index ∈ bits) then loop aborted bits rest (S cursor) else (S cursor, Await index)
      end
  end.
(** The check of a piece: the one under way or a new one. *)
Definition check_of (index : Z) (s : state) : state * nat :=
  match t_checks s !! index with
  | Some n => (s, n)
  | None => let n := length (t_reads s) in (set_checks (<[index := n]> (t_checks s)) (verifyPiece index true s), n)
  end.
(** Worker [j] of call [k] goes on. *)
Definition resume (k j : nat) (s : state) : state :=
  match t_calls s !! k with
  | None => s
  | Some c =>
      let '(cursor, t) := loop (k_aborted c) (t_bits s) (drop (k_cursor c) (k_indices c)) (k_cursor c) in
      let s := set_calls (<[k := Call (k_indices c) (k_window c) cursor (k_aborted c)]> (t_calls s)) s in
      match t with
      | Return => set_workers (<[j := Worker k (Ended (Ok tt))]> (t_workers s)) s
      | Fails e => set_workers (<[j := Worker k (Ended (Throw e))]> (t_workers s)) s
      | Await index =>
          let '(s, n) := check_of index s in
          let settled := match t_reads s !! n with Some rd => r_told rd | None => None end in
          set_workers (<[j := Worker k (Waiting index n settled)]> (t_workers s)) s
      end
  end.
(** [verifyCachedPieces] up to the first await of every worker. *)
Definition add_targets (indices : list Z) (s : state) : state :=
  match t_scan s with
  | Some c => if c_active c then set_scan (Some (Scan (list_to_set indices ∪ c_targets c) (c_versions c) true)) s else s
  | None => s
  end.
Definition spawn (k : nat) (s : state) : state :=
  resume k (length (t_workers s)) (set_workers (t_workers s ++ [Worker k (Ended (Ok tt))]) s).
Definition verifyCachedPieces (indices : list Z) (aborted : option exn) (windowPieces : Z) (s : state) : state :=
  let s := add_targets indices s in
  let k := length (t_calls s) in
  let s := set_calls (t_calls s ++ [Call indices windowPieces 0 aborted]) s in
  Nat.iter (Z.to_nat (Z.min windowPieces (Z.of_nat (length indices)))) (spawn k) s.
Definition REPLACED : exn := Exn (Some "CANCELLED"%string) "Torrent was replaced".
(** Worker [j] after [waitFor]. *)
Definition wake (j : nat) (s : state) : state :=
  match t_workers s !! j with
  | Some (Worker k (Waiting index n (Some r))) =>
      let ended e := set_workers (<[j := Worker k (Ended (Throw e))]> (t_workers s)) s in
      match r with
      | Throw e => ended e
      | Ok valid =>
          match (match t_calls s !! k with Some c => k_aborted c | None => None end) with
          | Some e => ended e
          | None =>
              if negb (t_current s) || t_destroyed s then ended REPLACED
              else resume k j (if valid && negb (bool_decide (index ∈ t_bits s)) then mark index s else s)
          end
      end
  | _ => s
  end.
(** The signal of call [k]. *)
Definition cancel (k : nat) (e : exn) (w : worker) : worker :=
  match w_phase w with
  | Waiting index n None => if bool_decide (w_call w = k) then Worker k (Waiting index n (Some (Throw e))) else w
  | _ => w
  end.
Definition abort (k : nat) (e : exn) (s : state) : state :=
  match t_calls s !! k with
  | Some c =>
      match k_aborted c with
      | Some _ => s
      | None => set_workers (cancel k e <$> t_workers s) (set_calls (<[k := Call (k_indices c) (k_window c) (k_cursor c) (Some e)]> (t_calls s)) s)
      end
  | None => s
  end.

Inductive event :=
| EVerify (indices : list Z) (aborted : option exn) (windowPieces : Z)
| EWake (j : nat)
| EAbort (k : nat) (e : exn)
| EForget (n : nat)                    (** the [finally] of a check *)
| ERescan | EFinish (error : option exn)
| EAsk (index : Z)                     (** WebTorrent asks for a check *)
| EAnswer (n : nat) (r : result bool)
| EMark (index : Z) | EUnmark (index : Z)
| EReplace | EDestroy.                 (** the entry is removed from the map, its torrent destroyed *)
Definition step (e : event) (s : state) : state :=
  match e with
  | EVerify indices aborted windowPieces => verifyCachedPieces indices aborted windowPieces s
  | EWake j => wake j s
  | EAbort k e => abort k e s
  | EForget n =>
      match t_reads s !! n with
      | Some rd => if bool_decide (r_told rd ≠ None) && bool_decide (t_checks s !! r_index rd = Some n) then set_checks (delete (r_index rd) (t_checks s)) s else s
      | None => s
      end
  | ERescan => rescanCachedPieces s
  | EFinish error => finish error s
  | EAsk index => verifyPiece index false s
  | EAnswer n r => answered n r s
  | EMark index => mark index s
  | EUnmark index => set_bits (t_bits s ∖ {[index]}) (t_log s) s
  | EReplace => set_entry false (t_destroyed s) (t_rescanned s) (t_failed s) s
  | EDestroy => set_entry (t_current s) true (t_rescanned s) (t_failed s) s
  end.
Definition run (l : list event) (s : state) : state := foldl (λ s e, step e s) s l.
