(* ===== verification/WindowScanFacts.v ===== *)
(** * Cached pieces: stale answers do no harm, and a call checks what it promises *)
From S2P Require Import Prelude WindowScan.
#[local] Open Scope Z_scope.

(** ** Versions tell whether a piece was verified since it was read *)
(** A verification of [index] since read [n] was asked for; the log has the newest first. *)
Fixpoint fresh (n : nat) (index : Z) (log : list note) : bool :=
  match log with
  | [] => false
  | Verified i :: log => bool_decide (i = index) || fresh n index log
  | Asked m :: log => if bool_decide (m = n) then false else fresh n index log
  | Told _ _ _ _ _ :: log => fresh n index log
  end.
Fixpoint log_ok (log : list note) : Prop :=
  match log with
  | [] => True
  | Told n index stored told p :: log => told = stored || (p && fresh n index log) ∧ log_ok log
  | _ :: log => log_ok log
  end.
Lemma log_ok_split newer n index stored told p older :
  log_ok (newer ++ Told n index stored told p :: older) → told = stored || (p && fresh n index older).
Proof. induction newer as [|x newer IH]; cbn; [by intros [? _]|]. destruct x; [done|done|]. intros [_ ?]. by apply IH. Qed.

Record guards (s : state) : Prop := {
  g_log : log_ok (t_log s);
  g_none : t_scan s = None → ∀ n rd, t_reads s !! n = Some rd → r_guard rd = None;
  g_version : active s = true → ∀ n rd v, t_reads s !! n = Some rd → r_guard rd = Some v →
    v ≤ version (r_index rd) s ∧ (fresh n (r_index rd) (t_log s) = true ↔ v ≠ version (r_index rd) s)
}.
(** Only the scan, the reads and the log matter. *)
Lemma guards_same s s' : t_scan s' = t_scan s → t_reads s' = t_reads s → t_log s' = t_log s → guards s → guards s'.
Proof. intros E1 E2 E3 [HL HN HV]. unfold active, version in *. split; unfold active, version; by rewrite ?E1, ?E2, ?E3. Qed.
Ltac unset := match goal with |- guards (_ _ ?x) => apply (guards_same x); [done|done|done|] | |- guards (set_entry _ _ _ _ ?x) => apply (guards_same x); [done|done|done|] end.
Lemma guards_mark index s : guards s → guards (mark index s).
Proof.
  intros [HL HN HV]. unfold mark. cbn [t_scan set_bits]. unfold active, version in *. destruct (t_scan s) as [c|] eqn:EC.
  2: { split; unfold active, version; cbn; rewrite ?EC; try done. }
  destruct (c_active c) eqn:EA; [|split; unfold active, version; cbn; rewrite ?EC, ?EA; done].
  split; [done|done|]. unfold active, version. cbn. rewrite EC. intros _ n rd v Hrd Hg.
  destruct (HV eq_refl n rd v Hrd Hg) as [Hle Hfresh]. destruct (decide (index = r_index rd)) as [->|Hne].
  - rewrite lookup_insert, decide_True by done. cbn. split; [lia|]. rewrite bool_decide_true by done. cbn. split; [intros _; lia|done].
  - rewrite lookup_insert_ne by done. rewrite bool_decide_false by done. cbn. done.
Qed.
Lemma guards_verifyPiece index check s : guards s → guards (verifyPiece index check s).
Proof.
  intros [HL HN HV]. unfold verifyPiece. split; cbn [set_reads t_log t_scan t_reads log_ok]; [done| |].
  - intros EC n rd [[_ H]|[_ <-]]%lookup_snoc_Some; [by apply (HN EC n rd)|]. cbn. unfold active. by rewrite EC.
  - change (active (set_reads _ _ s)) with (active s). intros EA n rd v. change (version ?i (set_reads _ _ s)) with (version i s).
    intros [[Hlt H]|[-> <-]]%lookup_snoc_Some Hg; cbn [fresh].
    + rewrite bool_decide_false by lia. by apply HV.
    + cbn in Hg. rewrite EA in Hg. injection Hg as <-. cbn [r_index]. rewrite bool_decide_true by done. split; [lia|]. split; [done|lia].
Qed.
Lemma guards_answered n r s : guards s → guards (answered n r s).
Proof.
  intros HG. pose proof HG as [HL HN HV]. unfold answered. destruct (t_reads s !! n) as [rd|] eqn:Er; [|done]. destruct (r_told rd); [done|].
  assert (HB : ∀ told log, log_ok log → (∀ m i, fresh m i log = fresh m i (t_log s)) →
    guards (set_reads (<[n := Read (r_index rd) (r_guard rd) (r_check rd) (Some told)]> (t_reads s)) log s)).
  { intros told log Hlog Hf. split; cbn [set_reads t_log t_scan t_reads]; [done| |].
    - intros EC m rd' [(-> & <- & _)|[_ H]]%list_lookup_insert_Some; [by apply (HN EC m rd)|by apply (HN EC m)].
    - intros EA m rd' v. change (version ?i (set_reads _ _ s)) with (version i s).
      intros [(-> & <- & _)|[_ H]]%list_lookup_insert_Some Hg; rewrite Hf; cbn [r_index]; [by apply HV|by apply HV]. }
  unset. apply HB; [|by destruct r].
  destruct r as [valid|e]; [|done]. split; [|done]. unfold guarded.
  destruct valid; [done|]. cbn [negb andb orb]. destruct (protected rd s) eqn:EP; [|done]. cbn [andb].
  unfold protected in EP. apply andb_true_iff in EP as [EP _]. apply andb_true_iff in EP as [EP _]. apply andb_true_iff in EP as [Eg EA].
  apply bool_decide_eq_true in Eg. destruct (r_guard rd) as [v|] eqn:EG; [|done]. destruct (HV EA n rd v Er EG) as [_ Hf].
  destruct (fresh n (r_index rd) (t_log s)).
  - rewrite bool_decide_false; [done|]. intros [= Ev]. by apply (proj1 Hf).
  - rewrite bool_decide_true; [done|]. f_equal. destruct (decide (v = version (r_index rd) s)) as [|Hv]; [done|]. by apply Hf in Hv.
Qed.
Lemma guards_scan sc s :
  (∀ c, sc = Some c → c_active c = true → ∃ c0, t_scan s = Some c0 ∧ c_active c0 = true ∧ c_versions c = c_versions c0) →
  (sc = None → t_scan s = None) → guards s → guards (set_scan sc s).
Proof.
  intros H0 H1 [HL HN HV]. split; [done|intros E; apply HN, H1, E|]. unfold active, version in *. cbn. destruct sc as [c|]; [|done]. intros EA.
  destruct (H0 c eq_refl EA) as (c0 & E0 & EA0 & ->). rewrite E0 in HV. by apply HV.
Qed.
Lemma guards_rescan s : guards s → guards (rescanCachedPieces s).
Proof.
  intros H; pose proof H as [HL HN HV]. unfold rescanCachedPieces. destruct (t_scan s) eqn:EC; [done|]. split; [done|done|].
  cbn. intros _ n rd v Hrd Hg. rewrite (HN eq_refl n rd Hrd) in Hg. done.
Qed.
Lemma guards_finish error s : guards s → guards (finish error s).
Proof.
  intros H. unfold finish. destruct (t_scan s) as [c|]; [|done]. destruct (c_active c); [|done].
  cbn zeta. cbn [t_destroyed set_scan]. destruct (t_destroyed s); [|destruct error; unset]; (apply guards_scan; [intros ? [= <-] [=]|done|done]).
Qed.
Lemma guards_add_targets indices s : guards s → guards (add_targets indices s).
Proof.
  intros H. unfold add_targets. destruct (t_scan s) as [c|] eqn:EC; [|done]. destruct (c_active c) eqn:EA; [|done].
  apply guards_scan; [|done|done]. intros ? [= <-] _. by exists c.
Qed.
Lemma guards_check_of index s : guards s → guards (check_of index s).1.
Proof.
  intros H. unfold check_of. destruct (t_checks s !! index); [done|]. cbn [fst]. unset. by apply guards_verifyPiece.
Qed.
Lemma guards_resume k j s : guards s → guards (resume k j s).
Proof.
  intros H. unfold resume. destruct (t_calls s !! k) as [c|]; [|done]. destruct (loop _ _ _ _) as [cursor []].
  - by eapply guards_same, H.
  - by eapply guards_same, H.
  - match goal with |- context [check_of ?i ?x] => assert (HC : guards (check_of i x).1) by (apply guards_check_of; by eapply guards_same, H) end.
    destruct (check_of _ _) as [s' n]. by eapply guards_same, HC.
Qed.
Lemma guards_verifyCachedPieces indices aborted w s : guards s → guards (verifyCachedPieces indices aborted w s).
Proof.
  intros H. unfold verifyCachedPieces. generalize (length (t_calls (add_targets indices s))) as k. intros k.
  induction (Z.to_nat _) as [|n IH]; cbn [Nat.iter].
  - unset. unset. by apply guards_add_targets.
  - unfold spawn at 1. apply guards_resume. by eapply guards_same, IH.
Qed.
Lemma guards_wake j s : guards s → guards (wake j s).
Proof.
  intros H. unfold wake. destruct (t_workers s !! j) as [[k [i n [[valid|e]|]|]]|]; try done; [|by eapply guards_same, H].
  destruct (match t_calls s !! k with Some c => k_aborted c | None => None end); [by eapply guards_same, H|].
  destruct (_ || _); [by eapply guards_same, H|]. apply guards_resume. destruct (_ && _); [by apply guards_mark|done].
Qed.
Lemma guards_step e s : guards s → guards (step e s).
Proof.
  intros H. destruct e; cbn [step].
  - by apply guards_verifyCachedPieces.
  - by apply guards_wake.
  - unfold abort. destruct (t_calls s !! k) as [c|]; [|done]. destruct (k_aborted c); [done|]. by eapply guards_same, H.
  - destruct (t_reads s !! n); [|done]. destruct (_ && _); [|done]. by eapply guards_same, H.
  - by apply guards_rescan.
  - by apply guards_finish.
  - by apply guards_verifyPiece.
  - by apply guards_answered.
  - by apply guards_mark.
  - by eapply guards_same, H.
  - by eapply guards_same, H.
  - by eapply guards_same, H.
Qed.

(** ** What a call claims *)
Definition told_invalid (index : Z) (s : state) : Prop :=
  ∃ n rd, t_reads s !! n = Some rd ∧ r_index rd = index ∧ r_told rd = Some (Ok false).
Definition busy (index : Z) (x : phase) : Prop :=
  match x with Waiting i _ _ => i = index | Ended (Throw _) => True | Ended (Ok _) => False end.

(** [hole] is a worker that is being run, [claim] the call and the piece it has claimed;
    [past] tells which pieces were seen verified since a call began. *)
Section tidy.
Context (past : nat → Z → Prop).
Definition handled (hole : option nat) (claim : option (nat * Z)) (s : state) (k : nat) (index : Z) : Prop :=
  past k index ∨ told_invalid index s ∨ claim = Some (k, index) ∨
  ∃ j w, t_workers s !! j = Some w ∧ Some j ≠ hole ∧ w_call w = k ∧ busy index (w_phase w).
Definition awaits (s : state) (x : phase) : Prop :=
  match x with
  | Waiting i n st => ∃ rd, t_reads s !! n = Some rd ∧ r_index rd = i ∧ r_check rd = true ∧
      (∀ v, st = Some (Ok v) → r_told rd = Some (Ok v)) ∧ (st = None → r_told rd = None)
  | Ended _ => True
  end.
Definition exhausted (s : state) (w : worker) : Prop :=
  w_phase w = Ended (Ok tt) → ∀ c, t_calls s !! w_call w = Some c → (length (k_indices c) ≤ k_cursor c)%nat.
Record tidy (hole : option nat) (claim : option (nat * Z)) (s : state) : Prop := {
  w_workers : ∀ j w, t_workers s !! j = Some w → Some j ≠ hole → awaits s (w_phase w) ∧ exhausted s w;
  w_calls : ∀ j w, t_workers s !! j = Some w → (w_call w < length (t_calls s))%nat;
  w_checks : ∀ i n, t_checks s !! i = Some n → ∃ rd, t_reads s !! n = Some rd ∧ r_index rd = i ∧ r_check rd = true;
  w_pending : ∀ n rd, t_reads s !! n = Some rd → r_check rd = true → r_told rd = None → t_checks s !! r_index rd = Some n;
  w_claims : ∀ k c p i, t_calls s !! k = Some c → k_indices c !! p = Some i → (p < k_cursor c)%nat → handled hole claim s k i;
  w_now : ∀ k i, (k < length (t_calls s))%nat → i ∈ t_bits s → past k i
}.

(** What does not touch the workers, calls, checks and reads. *)
Lemma checks_same hole claim s s' :
  t_workers s' = t_workers s → t_calls s' = t_calls s → t_checks s' = t_checks s → t_reads s' = t_reads s →
  (∀ k i, (k < length (t_calls s'))%nat → i ∈ t_bits s' → past k i) → tidy hole claim s → tidy hole claim s'.
Proof using Type.
  intros EW EC EK ER HN [H1 H2 H3 H4 H5 _]. unfold awaits, exhausted, handled, told_invalid in *.
  split; unfold awaits, exhausted, handled, told_invalid; [..|exact HN]; by rewrite ?EW, ?EC, ?EK, ?ER.
Qed.
(** The worker that was run ends or awaits again. *)
Lemma checks_set_worker j claim w s :
  tidy (Some j) claim s → (w_call w < length (t_calls s))%nat → awaits s (w_phase w) → exhausted s w →
  (∀ k i, claim = Some (k, i) → w_call w = k ∧ busy i (w_phase w)) → (j < length (t_workers s))%nat →
  tidy None None (set_workers (<[j := w]> (t_workers s)) s).
Proof using Type.
  intros [H1 H2 H3 H4 H5 HN] Hk Ha He Hc Hj. split; cbn [set_workers t_workers t_calls t_checks t_reads t_bits]; [| |done|done| |done].
  - intros j' w' [(-> & <- & _)|[Hne H]]%list_lookup_insert_Some _; [done|]. apply (H1 j' w' H). congruence.
  - intros j' w' [(-> & <- & _)|[Hne H]]%list_lookup_insert_Some; [done|]. by apply (H2 j' w').
  - intros k c p i Hc' Hp Hlt. destruct (H5 k c p i Hc' Hp Hlt) as [H|[H|[H|(j' & w' & H & Hne & <- & Hb)]]]; [by left|by right; left| |].
    + right. right. right. destruct (Hc k i H). exists j, w. split_and!; [|done|done|done]. by apply list_lookup_insert_eq.
    + right. right. right. exists j', w'. split_and!; [|done|done|done]. cbn. rewrite list_lookup_insert_ne; [done|congruence].
Qed.
Lemma checks_check_of hole claim index s :
  tidy hole claim s → let '(s', n) := check_of index s in
  tidy hole claim s' ∧ t_workers s' = t_workers s ∧ t_calls s' = t_calls s ∧ t_bits s' = t_bits s ∧
  ∃ rd, t_reads s' !! n = Some rd ∧ r_index rd = index ∧ r_check rd = true.
Proof using Type.
  intros H. pose proof H as [H1 H2 H3 H4 H5 HN]. unfold check_of. destruct (t_checks s !! index) as [n|] eqn:EK; [by split_and!; eauto|].
  set (rd := Read index (if active s then Some (version index s) else None) true None).
  assert (HR : ∀ n x, t_reads s !! n = Some x → (t_reads s ++ [rd]) !! n = Some x) by (intros n x Hx; by apply lookup_app_l_Some).
  split; [|split_and!; try done]; cycle 1.
  { exists rd. split_and!; [|done|done]. cbn. by apply list_lookup_middle. }
  split; cbn [set_checks set_reads verifyPiece t_workers t_calls t_checks t_reads t_bits]; [|done| | | |done].
  - intros j w Hw Hh. destruct (H1 j w Hw Hh) as [Ha He]. split; [|done]. destruct (w_phase w); [|done].
    destruct Ha as (x & Hx & ?). exists x. split; [|done]. by apply HR.
  - intros i n [(<- & <-)|[Hne Hi]]%lookup_insert_Some; [exists rd; split_and!; [by apply list_lookup_middle|done|done]|].
    destruct (H3 i n Hi) as (x & Hx & ?). exists x. split; [by apply HR|done].
  - intros n x [[_ Hx]|[-> <-]]%lookup_snoc_Some Hc Ht; [|cbn; by rewrite lookup_insert, decide_True].
    rewrite lookup_insert_ne; [by apply H4|]. intros E. by rewrite E, (H4 n x) in EK.
  - intros k c p i Hc Hp Hlt. destruct (H5 k c p i Hc Hp Hlt) as [H'|[(n & x & Hx & ?)|H']]; [by left| |by right; right].
    right. left. exists n, x. split; [by apply HR|done].
Qed.
Lemma loop_spec aborted bits rest cursor :
  ∃ pre post, rest = pre ++ post ∧ (∀ i, i ∈ pre → i ∈ bits) ∧
    (loop aborted bits rest cursor).1 = S (cursor + length pre) ∧
    match (loop aborted bits rest cursor).2 with
    | Return => post = []
    | Fails _ => ∃ i, head post = Some i
    | Await i => head post = Some i ∧ i ∉ bits
    end.
Proof using Type.
  induction rest as [|i rest IH] in cursor |- *; cbn [loop].
  - exists [], []. split_and!; [done|by intros ? ?%elem_of_nil|cbn; lia|done].
  - destruct aborted as [e|]; [exists [], (i :: rest); split_and!; [done|by intros ? ?%elem_of_nil|cbn; lia|by exists i]|].
    case_bool_decide as Hi; [|exists [], (i :: rest); split_and!; [done|by intros ? ?%elem_of_nil|cbn; lia|by split]].
    destruct (IH (S cursor)) as (pre & post & -> & Hpre & -> & Ht). exists (i :: pre), post. split_and!; [done| |cbn; lia|done].
    intros x [->|Hx]%elem_of_cons; [done|by apply Hpre].
Qed.
Lemma checks_resume k j s :
  tidy (Some j) None s → (j < length (t_workers s))%nat → (k < length (t_calls s))%nat → tidy None None (resume k j s).
Proof using Type.
  intros H Hj Hk. unfold resume. destruct (t_calls s !! k) as [c|] eqn:Ec; [|by apply lookup_ge_None in Ec; lia].
  destruct (loop_spec (k_aborted c) (t_bits s) (drop (k_cursor c) (k_indices c)) (k_cursor c)) as (pre & post & Erest & Hpre & Ecur & Ht).
  destruct (loop _ _ _ _) as [cursor t]. cbn [fst snd] in Ecur, Ht.
  set (s1 := set_calls _ s). pose (claim := match head post with Some i => Some (k, i) | None => None end).
  assert (H1 : tidy (Some j) claim s1 ∧ (t = Return → (length (k_indices c) ≤ cursor)%nat)).
  { assert (Hmono : (k_cursor c ≤ cursor)%nat) by lia. destruct H as [H1 H2 H3 H4 H5 HN]. split; [split|]; unfold s1; cbn [set_calls t_workers t_calls t_checks t_reads t_bits].
    - intros j' w Hw Hne. destruct (H1 j' w Hw Hne) as [Ha He]. split; [done|]. intros Ew c'. cbn.
      intros [(Ek & <- & _)|[_ Hc']]%list_lookup_insert_Some; [|by apply (He Ew c')]. cbn. specialize (He Ew c). rewrite <- Ek in He. specialize (He Ec). lia.
    - intros j' w Hw. rewrite length_insert. by apply (H2 j' w).
    - done.
    - done.
    - intros k' c' p i [(<- & <- & _)|[_ Hc']]%list_lookup_insert_Some Hp Hlt; cbn in *.
      + destruct (decide (p < k_cursor c)%nat) as [Hp'|Hp']; [destruct (H5 k c p i Ec Hp Hp') as [?|[?|[?|?]]]; [by left|by right; left|done|by right; right; right]|].
        replace p with (k_cursor c + (p - k_cursor c))%nat in Hp by lia. rewrite <- lookup_drop, Erest in Hp.
        destruct (decide (p - k_cursor c < length pre)%nat) as [Hl|Hl].
        * left. apply HN; [lia|]. rewrite lookup_app_l in Hp by done. apply Hpre. by eapply list_elem_of_lookup_2.
        * replace (p - k_cursor c)%nat with (length pre + 0)%nat in Hp by lia. rewrite lookup_app_r, Nat.add_comm, Nat.add_sub in Hp by lia.
          right. right. left. unfold claim. destruct post; [done|]. cbn in *. congruence.
      + destruct (H5 k' c' p i Hc' Hp Hlt) as [?|[?|[?|?]]]; [by left|by right; left|done|by right; right; right].
    - intros k' i. rewrite length_insert. apply HN.
    - intros ->. rewrite Ht, app_nil_r in Erest. apply (f_equal length) in Erest. rewrite length_drop in Erest. lia. }
  destruct H1 as [H1 Hret]. assert (Hk1 : (k < length (t_calls s1))%nat) by (unfold s1; cbn; by rewrite length_insert).
  destruct t as [|e|index].
  - apply (checks_set_worker j claim); [done|done|done| | |done].
    + intros _ c'. unfold s1. cbn. rewrite list_lookup_insert_eq by done. intros [= <-]. by apply Hret.
    + unfold claim. rewrite Ht. done.
  - apply (checks_set_worker j claim); [done|done|done|done| |done]. unfold claim. destruct Ht as [i ->]. by intros ? ? [= <- <-].
  - destruct Ht as [Ei _]. pose proof (checks_check_of (Some j) claim index s1 H1) as HC. destruct (check_of index s1) as [s2 n].
    destruct HC as (H2 & EW & EK & _ & rd & Hrd & Hx & Hch).
    apply (checks_set_worker j claim); [done|by rewrite EK| |done| |by rewrite EW].
    + cbn. exists rd. rewrite Hrd. split_and!; [done|done|done|by intros v|done].
    + unfold claim. rewrite Ei. by intros ? ? [= <- <-].
Qed.

(** The other operations. *)
Lemma checks_verifyPiece index s : tidy None None s → tidy None None (verifyPiece index false s).
Proof using Type.
  intros [H1 H2 H3 H4 H5 HN]. set (rd := Read index (if active s then Some (version index s) else None) false None).
  assert (HR : ∀ n x, t_reads s !! n = Some x → (t_reads s ++ [rd]) !! n = Some x) by (intros n x Hx; by apply lookup_app_l_Some).
  split; cbn [set_reads verifyPiece t_workers t_calls t_checks t_reads t_bits]; [|done| | | |done].
  - intros j w Hw Hh. destruct (H1 j w Hw Hh) as [Ha He]. split; [|done]. destruct (w_phase w); [|done].
    destruct Ha as (x & Hx & ?). exists x. split; [|done]. by apply HR.
  - intros i n Hi. destruct (H3 i n Hi) as (x & Hx & ?). exists x. split; [by apply HR|done].
  - intros n x [[_ Hx]|[_ <-]]%lookup_snoc_Some; [by apply H4|done].
  - intros k c p i Hc Hp Hlt. destruct (H5 k c p i Hc Hp Hlt) as [H'|[(n & x & Hx & ?)|H']]; [by left| |by right; right].
    right. left. exists n, x. split; [by apply HR|done].
Qed.
(** Workers are told something about what they await. *)
Lemma checks_told f s s' :
  t_workers s' = f <$> t_workers s → t_checks s' = t_checks s → t_bits s' = t_bits s →
  (length (t_calls s') = length (t_calls s) ∧ ∀ k c', t_calls s' !! k = Some c' → ∃ c, t_calls s !! k = Some c ∧ k_indices c' = k_indices c ∧ k_cursor c' = k_cursor c) →
  (∀ n rd, t_reads s !! n = Some rd → ∃ rd', t_reads s' !! n = Some rd' ∧ r_index rd' = r_index rd ∧ r_check rd' = r_check rd ∧ (∀ r, r_told rd = Some r → r_told rd' = Some r)) →
  length (t_reads s') = length (t_reads s) →
  (∀ w, w_call (f w) = w_call w ∧
     match w_phase w with Waiting i n _ => ∃ st, w_phase (f w) = Waiting i n st | Ended r => w_phase (f w) = Ended r end) →
  (∀ j w, t_workers s !! j = Some w → awaits s (w_phase w) → awaits s' (w_phase (f w))) →
  tidy None None s → tidy None None s'.
Proof using Type.
  intros EW EK EB [EL HC] HR ER Hf Ha [H1 H2 H3 H4 H5 HN].
  assert (HR' : ∀ n rd', t_reads s' !! n = Some rd' → ∃ rd, t_reads s !! n = Some rd ∧ r_index rd' = r_index rd ∧ r_check rd' = r_check rd ∧ (∀ r, r_told rd = Some r → r_told rd' = Some r)).
  { intros n rd' Hrd'. destruct (lookup_lt_is_Some_2 (t_reads s) n) as [rd Hrd]; [rewrite <- ER; by eapply lookup_lt_Some|].
    exists rd. destruct (HR n rd Hrd) as (x & Hx & ?). replace rd' with x by congruence. done. }
  split; rewrite ?EW, ?EK, ?EB, ?EL; [| | | | |done].
  - intros j w [w0 [-> Hw]]%list_lookup_fmap_Some _. destruct (H1 j w0 Hw) as [Ha0 He]; [done|]. split; [by apply (Ha j)|].
    destruct (Hf w0) as [Ec Hp]. intros Ew c' Hc'. rewrite Ec in Hc'. destruct (HC _ _ Hc') as (c & Hc & -> & ->). apply He; [|done].
    destruct (w_phase w0); [destruct Hp as [? Hp]|]; congruence.
  - intros j w [w0 [-> Hw]]%list_lookup_fmap_Some. destruct (Hf w0) as [-> _]. by apply (H2 j).
  - intros i n Hi. destruct (H3 i n Hi) as (rd & Hrd & <- & <-). destruct (HR n rd Hrd) as (rd' & ? & ? & ? & _). by exists rd'.
  - intros n rd' Hrd' Hc Ht. destruct (HR' n rd' Hrd') as (rd & Hrd & Ei & Ec & Hmono). rewrite Ei. apply H4; [done|congruence|].
    destruct (r_told rd) as [r|]; [|done]. by rewrite (Hmono r) in Ht.
  - intros k c' p i Hc' Hp Hlt. destruct (HC k c' Hc') as (c & Hc & E1 & E2). rewrite E1 in Hp. rewrite E2 in Hlt.
    destruct (H5 k c p i Hc Hp Hlt) as [?|[(n & rd & Hrd & <- & Ht)|[?|(j & w & Hw & _ & <- & Hb)]]]; [by left| |done|].
    + right. left. destruct (HR n rd Hrd) as (rd' & ? & <- & _ & Hmono). exists n, rd'. split_and!; [done|done|by apply Hmono].
    + right. right. right. exists j, (f w). destruct (Hf w) as [-> Hp']. split_and!; [rewrite EW; by apply list_lookup_fmap_Some_2|done|done|].
      destruct (w_phase w); [destruct Hp' as [? ->]; done|by rewrite Hp'].
Qed.
Lemma checks_answered n r s : tidy None None s → tidy None None (answered n r s).
Proof using Type.
  intros H. unfold answered. destruct (t_reads s !! n) as [rd|] eqn:Er; [|done]. destruct (r_told rd) eqn:Et; [done|].
  set (told := match r with Ok _ => _ | Throw e => _ end). eapply (checks_told (tell n told) s); [done|done|done|by split; [|intros k c Hc; exists c]| | | | |done].
  - intros m x Hx. cbn. destruct (decide (m = n)) as [->|Hm].
    + rewrite list_lookup_insert_eq by (by eapply lookup_lt_Some). eexists. split; [done|]. cbn. replace x with rd by congruence. split_and!; [done|done|congruence].
    + rewrite list_lookup_insert_ne by done. by exists x.
  - cbn. by rewrite length_insert.
  - intros w. unfold tell. destruct (w_phase w) as [i m [st|]|] eqn:Ew; [by rewrite Ew; eauto| |by rewrite Ew].
    case_bool_decide; cbn; [by eauto|]. rewrite Ew. by eauto.
  - intros j w _. unfold tell. destruct (w_phase w) as [i m st|] eqn:Ew; [|by rewrite Ew]. intros (x & Hx & Ei & Ec & Hs & Hn).
    assert (HX : m ≠ n → awaits (set_workers (tell n told <$> t_workers s) (set_reads (<[n:=Read (r_index rd) (r_guard rd) (r_check rd) (Some told)]> (t_reads s))
      (match r with Ok valid => Told n (r_index rd) valid (guarded rd valid s) (protected rd s) :: t_log s | Throw _ => t_log s end) s)) (Waiting i m st)).
    { intros Hm. exists x. cbn. rewrite list_lookup_insert_ne by done. done. }
    destruct st as [st|]; [|case_bool_decide as Hm].
    + rewrite Ew. destruct (decide (m = n)) as [->|Hm]; [|by apply HX]. eexists. cbn. rewrite list_lookup_insert_eq by (by eapply lookup_lt_Some).
      split_and!; [done|cbn; congruence|cbn; congruence| |done]. intros v [= ->]. specialize (Hs v eq_refl). congruence.
    + subst m. eexists. cbn. rewrite list_lookup_insert_eq by (by eapply lookup_lt_Some).
      split_and!; [done|cbn; congruence|cbn; congruence| |done]. by intros v [= ->].
    + rewrite Ew. by apply HX.
Qed.
Lemma checks_abort k e s : tidy None None s → tidy None None (abort k e s).
Proof using Type.
  intros H. unfold abort. destruct (t_calls s !! k) as [c|] eqn:Ec; [|done]. destruct (k_aborted c); [done|].
  eapply (checks_told (cancel k e) s); [done|done|done| | |done| | |done].
  - split; [cbn; by rewrite length_insert|]. intros k' c' [(-> & <- & _)|[_ Hc]]%list_lookup_insert_Some; [by exists c|by exists c'].
  - intros n rd Hrd. by exists rd.
  - intros w. unfold cancel. destruct (w_phase w) as [i m [st|]|] eqn:Ew; [by rewrite Ew; eauto| |by rewrite Ew].
    case_bool_decide as Hk; cbn; [by eauto|]. rewrite Ew. by eauto.
  - intros j w _. unfold cancel. destruct (w_phase w) as [i m [st|]|] eqn:Ew; [by rewrite Ew| |by rewrite Ew].
    case_bool_decide as Hk; [|by rewrite Ew]. cbn. intros (x & Hx & Ei & Ech & _). exists x. by split_and!.
Qed.
Lemma checks_forget n s : tidy None None s → tidy None None (step (EForget n) s).
Proof using Type.
  intros H. pose proof H as [H1 H2 H3 H4 H5 HN]. cbn [step]. destruct (t_reads s !! n) as [rd|] eqn:Er; [|done]. destruct (_ && _) eqn:E; [|done].
  apply andb_true_iff in E as [Et Ek]. apply bool_decide_eq_true in Et, Ek. split; cbn [set_checks t_workers t_calls t_checks t_reads t_bits]; [done|done| | |done|done].
  - intros i m [_ Hi]%lookup_delete_Some. by apply H3.
  - intros m x Hx Hc Ht. rewrite lookup_delete_ne; [by apply H4|]. intros E. rewrite E, (H4 m x) in Ek by done. congruence.
Qed.
Lemma resume_keeps k j s :
  t_bits (resume k j s) = t_bits s ∧ length (t_calls (resume k j s)) = length (t_calls s) ∧ length (t_workers (resume k j s)) = length (t_workers s).
Proof using Type.
  unfold resume. destruct (t_calls s !! k) as [c|]; [|done]. destruct (loop _ _ _ _) as [cursor []]; [cbn; by rewrite !length_insert|cbn; by rewrite !length_insert|].
  unfold check_of. destruct (_ !! index); cbn; by rewrite !length_insert.
Qed.
Lemma checks_spawn k s : tidy None None s → (k < length (t_calls s))%nat → tidy None None (spawn k s).
Proof using Type.
  intros [H1 H2 H3 H4 H5 HN] Hk. unfold spawn. apply checks_resume; [|cbn; rewrite length_app; cbn; lia|done].
  split; cbn [set_workers t_workers t_calls t_checks t_reads t_bits]; [| |done|done| |done].
  - intros j w [[_ Hw]|[-> _]]%lookup_snoc_Some Hj; [by apply (H1 j w)|done].
  - intros j w [[_ Hw]|[_ <-]]%lookup_snoc_Some; [by apply (H2 j w)|done].
  - intros k' c p i Hc Hp Hlt. destruct (H5 k' c p i Hc Hp Hlt) as [?|[?|[?|(j & w & Hw & _ & ?)]]]; [by left|by right; left|done|].
    right. right. right. exists j, w. cbn. apply lookup_lt_Some in Hw as Hl. split; [by apply lookup_app_l_Some|]. split; [|done]. intros [= ->]. lia.
Qed.
Lemma checks_verifyCachedPieces indices aborted w s :
  tidy None None s → (∀ k i, (k ≤ length (t_calls s))%nat → i ∈ t_bits s → past k i) →
  tidy None None (verifyCachedPieces indices aborted w s).
Proof using Type.
  intros H Hpast. unfold verifyCachedPieces. set (s1 := add_targets indices s).
  assert (E1 : t_workers s1 = t_workers s ∧ t_calls s1 = t_calls s ∧ t_checks s1 = t_checks s ∧ t_reads s1 = t_reads s ∧ t_bits s1 = t_bits s)
    by (unfold s1, add_targets; destruct (t_scan s) as [c|]; [destruct (c_active c)|]; done).
  destruct E1 as (EW & EC & EK & ER & EB). set (k := length (t_calls s1)). set (s2 := set_calls _ s1).
  assert (H2 : tidy None None s2 ∧ (k < length (t_calls s2))%nat).
  { split; [|unfold s2, k; cbn; rewrite length_app; cbn; lia]. pose proof H as [H1 H2 H3 H4 H5 _].
    split; unfold s2; cbn [set_calls t_workers t_calls t_checks t_reads t_bits]; rewrite ?EW, ?EK, ?EC, ?ER, ?EB.
    - intros j x Hx Hh. destruct (H1 j x Hx Hh) as [Ha He]. split; [unfold awaits in *; cbn; by rewrite ER|].
      intros Ex c. cbn. intros [[_ Hc]|[Hc _]]%lookup_snoc_Some; [by apply He|]. specialize (H2 j x Hx). lia.
    - intros j x Hx. rewrite length_app. specialize (H2 j x Hx). lia.
    - done.
    - done.
    - intros k' c p i [[_ Hc]|[_ <-]]%lookup_snoc_Some Hp Hlt; [|cbn in Hlt; lia].
      unfold handled, told_invalid. cbn [set_calls t_workers t_reads]. rewrite EW, ER. by apply (H5 k' c p).
    - intros k' i. rewrite length_app. cbn. intros ??. apply Hpast; [lia|done]. }
  destruct H2 as [H2 Hk]. clearbody s2 k. induction (Z.to_nat _) as [|n IH] in s2, H2, Hk |- *; cbn [Nat.iter nat_rect]; [done|].
  assert (HI : tidy None None (Nat.iter n (spawn k) s2) ∧ (k < length (t_calls (Nat.iter n (spawn k) s2)))%nat).
  { clear -H2 Hk. induction n as [|n [IH1 IH2]]; [done|]. cbn [Nat.iter nat_rect]. split; [by apply checks_spawn|].
    unfold spawn at 1. by rewrite (proj1 (proj2 (resume_keeps _ _ _))). }
  destruct HI as [HI1 HI2]. by apply (checks_spawn k).
Qed.
Lemma checks_wake j s :
  tidy None None s → (∀ k i, (k < length (t_calls (wake j s)))%nat → i ∈ t_bits (wake j s) → past k i) → tidy None None (wake j s).
Proof using Type.
  intros H Hpast. unfold wake in *. destruct (t_workers s !! j) as [[k [i n [r|]|]]|] eqn:Ew; try done.
  assert (Hj : (j < length (t_workers s))%nat) by by eapply lookup_lt_Some. pose proof (w_calls _ _ _ H j _ Ew) as Hk. cbn in Hk.
  assert (H0 : tidy (Some j) (Some (k, i)) s).
  { pose proof H as [H1 H2 H3 H4 H5 HN]. split; [|done|done|done| |done].
    - intros j' w Hw _. by apply (H1 j' w).
    - intros k' c p x Hc Hp Hlt. destruct (H5 k' c p x Hc Hp Hlt) as [?|[?|[?|(j' & w & Hw & _ & <- & Hb)]]]; [by left|by right; left|done|].
      right. right. destruct (decide (j' = j)) as [->|Hne]; [|right; exists j', w; split_and!; [done|congruence|done|done]].
      left. rewrite Ew in Hw. injection Hw as <-. cbn in Hb. by subst x. }
  assert (HE : ∀ e, tidy None None (set_workers (<[j:=Worker k (Ended (Throw e))]> (t_workers s)) s)).
  { intros e. eapply (checks_set_worker j); [exact H0|done|done|done| |done]. by intros ? ? [= <- <-]. }
  destruct (proj1 (w_workers _ _ _ H j _ Ew ltac:(done))) as (rd & Hrd & Ei & _ & Ht & _).
  destruct r as [valid|e]; [|by apply HE]. destruct (t_calls s !! k) as [c|] eqn:Ec; [|by apply lookup_ge_None in Ec; lia].
  destruct (k_aborted c); [by apply HE|]. destruct (_ || _); [by apply HE|]. rewrite (proj1 (resume_keeps _ _ _)), (proj1 (proj2 (resume_keeps _ _ _))) in Hpast.
  set (s1 := if valid && _ then mark i s else s) in *.
  assert (E1 : t_workers s1 = t_workers s ∧ t_calls s1 = t_calls s ∧ t_checks s1 = t_checks s ∧ t_reads s1 = t_reads s ∧ (valid = true → i ∈ t_bits s1)).
  { unfold s1. destruct valid; [|done]. cbn [andb]. case_bool_decide; [done|]. cbn [negb]. unfold mark. cbn [t_scan set_bits].
    destruct (t_scan s) as [c'|]; [destruct (c_active c')|]; cbn; split_and!; try done; set_solver. }
  destruct E1 as (EW & EC & EK & ER & Hv). rewrite EC in Hpast.
  assert (H1 : tidy (Some j) (Some (k, i)) s1) by (apply (checks_same _ _ s); [done|done|done|done|by rewrite EC|done]).
  apply checks_resume; [|by rewrite EW|by rewrite EC]. pose proof H1 as [? ? ? ? H5 ?]. split; [done|done|done|done| |done].
  intros k' c' p x Hc Hp Hlt. destruct (H5 k' c' p x Hc Hp Hlt) as [?|[?|[[= <- <-]|?]]]; [by left|by right; left| |by right; right; right].
  destruct valid; [left; apply Hpast; [done|by apply Hv]|]. right. left. exists n, rd. rewrite ER. split_and!; [done|done|by apply Ht].
Qed.
Lemma spawn_keeps k n s :
  t_bits (Nat.iter n (spawn k) s) = t_bits s ∧ length (t_calls (Nat.iter n (spawn k) s)) = length (t_calls s).
Proof using Type.
  induction n as [|n [IH1 IH2]]; [done|]. 
  destruct (resume_keeps k (length (t_workers (Nat.iter n (spawn k) s)))
    (set_workers (t_workers (Nat.iter n (spawn k) s) ++ [Worker k (Ended (Ok tt))]) (Nat.iter n (spawn k) s))) as (E1 & E2 & _).
  split; [exact (eq_trans E1 IH1)|exact (eq_trans E2 IH2)].
Qed.
Lemma add_targets_keeps indices s :
  t_bits (add_targets indices s) = t_bits s ∧ t_calls (add_targets indices s) = t_calls s ∧ t_workers (add_targets indices s) = t_workers s.
Proof using Type. unfold add_targets. destruct (t_scan s) as [c|]; [destruct (c_active c)|]; done. Qed.
Lemma verify_keeps indices aborted w s :
  t_bits (verifyCachedPieces indices aborted w s) = t_bits s ∧
  length (t_calls (verifyCachedPieces indices aborted w s)) = S (length (t_calls s)).
Proof using Type.
  unfold verifyCachedPieces. destruct (spawn_keeps (length (t_calls (add_targets indices s))) (Z.to_nat (Z.min w (Z.of_nat (length indices))))
    (set_calls (t_calls (add_targets indices s) ++ [Call indices w 0 aborted]) (add_targets indices s))) as [-> ->].
  cbn. rewrite length_app. destruct (add_targets_keeps indices s) as (-> & -> & _). split; [done|cbn; lia].
Qed.
Lemma checks_step e s :
  tidy None None s → (∀ k i, (k < length (t_calls (step e s)))%nat → i ∈ t_bits (step e s) → past k i) →
  tidy None None (step e s).
Proof using Type.
  intros H Hpast. destruct e; cbn [step] in *.
  - apply checks_verifyCachedPieces; [done|]. destruct (verify_keeps indices aborted windowPieces s) as [EB EL]. rewrite EB, EL in Hpast.
    intros k i Hk. apply Hpast. lia.
  - by apply checks_wake.
  - by apply checks_abort.
  - by apply checks_forget.
  - unfold rescanCachedPieces in *. destruct (t_scan s); [done|]. by eapply (checks_same _ _ s).
  - unfold finish in *. destruct (t_scan s) as [c|]; [|done]. destruct (c_active c); [|done]. cbn [t_destroyed set_scan] in *.
    destruct (t_destroyed s); [|destruct error]; by eapply (checks_same _ _ s).
  - by apply checks_verifyPiece.
  - by apply checks_answered.
  - unfold mark in *. cbn [t_scan set_bits] in *. destruct (t_scan s) as [c|]; [destruct (c_active c)|]; by eapply (checks_same _ _ s).
  - by eapply (checks_same _ _ s).
  - by eapply (checks_same _ _ s).
  - by eapply (checks_same _ _ s).
Qed.
End tidy.
Lemma checks_weaken (past past' : nat → Z → Prop) s :
  (∀ k i, past k i → past' k i) → tidy past None None s → tidy past' None None s.
Proof.
  intros H [H1 H2 H3 H4 H5 HN]. split; [done|done|done|done| |by intros k i ??; apply H, HN].
  intros k c p i Hc Hp Hlt. destruct (H5 k c p i Hc Hp Hlt) as [?|?]; [by left; apply H|by right].
Qed.

(** ** The window *)
(** The calls of the workers, and what the calls were given. *)
Definition frame (s : state) : list nat * list (list Z * Z) := (w_call <$> t_workers s, (λ c, (k_indices c, k_window c)) <$> t_calls s).
Lemma frame_resume k j w s : t_workers s !! j = Some w → w_call w = k → frame (resume k j s) = frame s.
Proof.
  intros Hw Hk. unfold resume. destruct (t_calls s !! k) as [c|] eqn:Ec; [|done]. destruct (loop _ _ _ _) as [cursor t].
  assert (HS : ∀ x, w_call x = k → w_call <$> <[j := x]> (t_workers s) = w_call <$> t_workers s).
  { intros x Hx. rewrite list_fmap_insert. apply list_insert_id. rewrite list_lookup_fmap, Hw. cbn. by rewrite Hx, Hk. }
  assert (HC : (λ c, (k_indices c, k_window c)) <$> <[k := Call (k_indices c) (k_window c) cursor (k_aborted c)]> (t_calls s) = (λ c, (k_indices c, k_window c)) <$> t_calls s).
  { rewrite list_fmap_insert. apply list_insert_id. by rewrite list_lookup_fmap, Ec. }
  destruct t; [unfold frame; cbn; by rewrite HS, HC|unfold frame; cbn; by rewrite HS, HC|].
  unfold check_of. destruct (_ !! index); unfold frame; cbn; by rewrite HS, HC.
Qed.
Lemma frame_spawn k n s : frame (Nat.iter n (spawn k) s) = ((frame s).1 ++ replicate n k, (frame s).2).
Proof.
  induction n as [|n IH]; cbn [Nat.iter nat_rect replicate]; [by rewrite app_nil_r; destruct (frame s)|]. unfold spawn at 1.
  erewrite frame_resume; [|by apply list_lookup_middle|done].
  transitivity ((frame (Nat.iter n (spawn k) s)).1 ++ [k], (frame (Nat.iter n (spawn k) s)).2); [unfold frame; cbn; by rewrite fmap_app|].
  rewrite IH. cbn. f_equal. rewrite <- app_assoc. f_equal. change [k] with (replicate 1 k). rewrite <- replicate_add. by rewrite Nat.add_comm.
Qed.
Lemma frame_told f s s' :
  t_workers s' = f <$> t_workers s → (∀ w, w_call (f w) = w_call w) →
  (λ c, (k_indices c, k_window c)) <$> t_calls s' = (λ c, (k_indices c, k_window c)) <$> t_calls s → frame s' = frame s.
Proof.
  intros EW Hf EC. unfold frame. rewrite EW, EC. f_equal. rewrite <- list_fmap_compose. apply list_fmap_ext. intros _ w _. apply Hf.
Qed.
Lemma frame_step e s :
  tidy (λ _ _, True) None None s →
  frame (step e s) =
  match e with
  | EVerify indices _ w => ((frame s).1 ++ replicate (Z.to_nat (Z.min w (Z.of_nat (length indices)))) (length (t_calls s)), (frame s).2 ++ [(indices, w)])
  | _ => frame s
  end.
Proof.
  intros HT. destruct e; cbn [step]; try done.
  - unfold verifyCachedPieces. rewrite frame_spawn. destruct (add_targets_keeps indices s) as (_ & EC & EW).
    unfold frame. cbn. by rewrite EC, EW, fmap_app.
  - unfold wake. destruct (t_workers s !! j) as [[k [i n [[valid|e]|]|]]|] eqn:Ew; try done.
    + assert (HE : ∀ x, w_call x = k → frame (set_workers (<[j := x]> (t_workers s)) s) = frame s).
      { intros x Hx. unfold frame. cbn. f_equal. rewrite list_fmap_insert. apply list_insert_id. rewrite list_lookup_fmap, Ew. cbn. by rewrite Hx. }
      destruct (match t_calls s !! k with Some c => k_aborted c | None => None end); [by apply HE|]. destruct (_ || _); [by apply HE|].
      set (s1 := if valid && _ then mark i s else s).
      assert (E1 : frame s1 = frame s ∧ t_workers s1 = t_workers s).
      { unfold s1. destruct (_ && _); [|done]. unfold mark. cbn [t_scan set_bits]. destruct (t_scan s) as [c|]; [destruct (c_active c)|]; done. }
      destruct E1 as [<- EW]. eapply frame_resume; [by rewrite EW|done].
    + unfold frame. cbn. f_equal. rewrite list_fmap_insert. apply list_insert_id. by rewrite list_lookup_fmap, Ew.
  - unfold abort. destruct (t_calls s !! k) as [c|] eqn:Ec; [|done]. destruct (k_aborted c); [done|]. eapply (frame_told (cancel k e)); [done| |].
    + intros w. unfold cancel. destruct (w_phase w) as [? ? []|]; [done| |done]. by case_bool_decide.
    + cbn. rewrite list_fmap_insert. apply list_insert_id. by rewrite list_lookup_fmap, Ec.
  - destruct (t_reads s !! n); [|done]. by destruct (_ && _).
  - unfold rescanCachedPieces. by destruct (t_scan s).
  - unfold finish. destruct (t_scan s) as [c|]; [|done]. destruct (c_active c); [|done]. cbn [t_destroyed set_scan]. by destruct (t_destroyed s), error.
  - unfold answered. destruct (t_reads s !! n) as [rd|]; [|done]. destruct (r_told rd); [done|]. eapply frame_told; [done| |done].
    intros w. unfold tell. destruct (w_phase w) as [? ? []|]; [done| |done]. by case_bool_decide.
  - unfold mark. cbn [t_scan set_bits]. destruct (t_scan s) as [c|]; [destruct (c_active c)|]; done.
Qed.

(** ** The theorem *)
(** Piece [index] was verified at some time since call [k] began. *)
Definition seen (s0 : state) (events : list event) (k : nat) (index : Z) : Prop :=
  ∃ l1 l2, events = l1 ++ l2 ∧ (k < length (t_calls (run l1 s0)))%nat ∧ index ∈ t_bits (run l1 s0).
Definition counted (s : state) : Prop :=
  ∀ k indices w, (frame s).2 !! k = Some (indices, w) →
    length (filter (λ x, x = k) (frame s).1) = Z.to_nat (Z.min w (Z.of_nat (length indices))).
Lemma counted_step e s : tidy (λ _ _, True) None None s → counted s → counted (step e s).
Proof.
  intros HT HC k indices w. rewrite frame_step by done. destruct e; try apply HC. cbn [fst snd]. rewrite filter_app, length_app.
  assert (HR : ∀ n x, length (filter (λ y, y = k) (replicate n x)) = if decide (x = k) then n else 0%nat).
  { intros n x. induction n as [|n IH]; cbn [replicate]; [by case_decide|]. rewrite filter_cons. by case_decide; cbn; rewrite ?IH. }
  rewrite HR. assert (EL : length (frame s).2 = length (t_calls s)) by (unfold frame; cbn; by rewrite length_fmap).
  intros [[Hlt H]|[-> [= <- <-]]]%lookup_snoc_Some.
  - rewrite decide_False by lia. rewrite (HC k indices w H). lia.
  - rewrite EL, decide_True by done. replace (length (filter _ (frame s).1)) with 0%nat; [lia|]. symmetry.
    destruct (filter _ _) as [|x l] eqn:EF; [done|]. assert (Hx : x ∈ filter (λ y, y = length (t_calls s)) (frame s).1) by (rewrite EF; by left).
    apply list_elem_of_filter in Hx as [E (y & -> & [j Hj]%list_elem_of_lookup)%list_elem_of_fmap]. pose proof (w_calls _ _ _ _ HT j y Hj). lia.
Qed.
Lemma scan_reachable bits events :
  let s := run events (new_state bits) in guards s ∧ tidy (seen (new_state bits) events) None None s ∧ counted s.
Proof.
  induction events as [|e events IH] using rev_ind; cbn zeta.
  - split_and!; [by split|split; try done; cbn; intros; lia|done].
  - destruct IH as (HG & HT & HC). assert (E : run (events ++ [e]) (new_state bits) = step e (run events (new_state bits))) by (unfold run; by rewrite foldl_app).
    rewrite E. split_and!; [by apply guards_step| |apply counted_step; [by eapply checks_weaken, HT|done]].
    apply checks_step; [|intros k i Hk Hi; exists (events ++ [e]), []; by rewrite app_nil_r, E].
    eapply checks_weaken, HT. intros k i (l1 & l2 & -> & Hk & Hi). exists l1, (l2 ++ [e]). by rewrite <- app_assoc.
Qed.
Definition succeeded (k : nat) (s : state) : Prop :=
  ∀ j w, t_workers s !! j = Some w → w_call w = k → w_phase w = Ended (Ok tt).

(** C34: However checks, downloads, cancellations and WebTorrent's scan interleave: a check
    reports a piece missing although it arrived since only where nothing protects it, and
    valid just when the store said so or the piece, a target of the running scan, was
    verified since the check began and still is.  A call runs as many checks at a time
    as its window allows, shares those under way, waits for unanswered checks only, and when
    it succeeds each of its pieces was verified since the call began or was reported missing
    by the store. *)
Theorem cached_pieces_checked bits events :
  let s := run events (new_state bits) in
  (∀ newer older n i stored told p, t_log s = newer ++ Told n i stored told p :: older → told = stored || (p && fresh n i older)) ∧
  (∀ j k i n, t_workers s !! j = Some (Worker k (Waiting i n None)) → ∃ rd, t_reads s !! n = Some rd ∧ r_index rd = i ∧ r_told rd = None) ∧
  (∀ n m rd rd', t_reads s !! n = Some rd → t_reads s !! m = Some rd' → r_check rd = true → r_check rd' = true →
     r_told rd = None → r_told rd' = None → r_index rd = r_index rd' → n = m) ∧
  (∀ k c, t_calls s !! k = Some c →
     Z.of_nat (length (filter (λ w, w_call w = k) (t_workers s))) = Z.max 0 (Z.min (k_window c) (Z.of_nat (length (k_indices c))))) ∧
  (∀ k c i, t_calls s !! k = Some c → 1 ≤ k_window c → succeeded k s → i ∈ k_indices c →
     seen (new_state bits) events k i ∨ told_invalid i s).
Proof.
  intros s. destruct (scan_reachable bits events) as (HG & HT & HC). fold s in HG, HT, HC.
  assert (HK : ∀ k c, t_calls s !! k = Some c → length (filter (λ w, w_call w = k) (t_workers s)) = Z.to_nat (Z.min (k_window c) (Z.of_nat (length (k_indices c))))).
  { intros k c Hc. rewrite <- (HC k (k_indices c) (k_window c)) by (unfold frame; cbn; by rewrite list_lookup_fmap, Hc). unfold frame. cbn.
    clear. induction (t_workers s) as [|w l IH]; [done|]. rewrite filter_cons, fmap_cons, filter_cons. by case_decide; cbn; rewrite ?IH. }
  split_and!.
  - intros newer older n i stored told p E. eapply log_ok_split. rewrite <- E. apply (g_log _ HG).
  - intros j k i n Hw. destruct (proj1 (w_workers _ _ _ _ HT j _ Hw ltac:(done))) as (rd & Hrd & Ei & _ & _ & Ht). exists rd. split_and!; [done|done|by apply Ht].
  - intros n m rd rd' Hn Hm Hc Hc' Ht Ht' E. pose proof (w_pending _ _ _ _ HT n rd Hn Hc Ht). pose proof (w_pending _ _ _ _ HT m rd' Hm Hc' Ht'). congruence.
  - intros k c Hc. rewrite (HK k c Hc). lia.
  - intros k c i Hc Hw Hs Hi. apply list_elem_of_lookup in Hi as [p Hp]. apply lookup_lt_Some in Hp as Hlt.
    assert (Hlen : length (filter (λ w, w_call w = k) (t_workers s)) ≠ 0%nat) by (rewrite (HK k c Hc); lia).
    destruct (filter (λ w, w_call w = k) (t_workers s)) as [|w l] eqn:EF; [done|].
    assert (Hin : w ∈ filter (λ w, w_call w = k) (t_workers s)) by (rewrite EF; by left). apply list_elem_of_filter in Hin as [Ek [j Hj]%list_elem_of_lookup].
    pose proof (proj2 (w_workers _ _ _ _ HT j w Hj ltac:(done)) (Hs j w Hj Ek) c) as Hcur. rewrite Ek in Hcur. specialize (Hcur Hc).
    destruct (w_claims _ _ _ _ HT k c p i Hc Hp) as [?|[?|[?|(j' & w' & Hj' & _ & Ek' & Hb)]]]; [lia|by left|by right|done|].
    rewrite (Hs j' w' Hj' Ek') in Hb. done.
Qed.

(** WebTorrent begins to check piece 5, a startup prefetch asks for the pieces 5 and 6, then
    piece 5 is downloaded; the answers about piece 5 come too late and count as valid. *)
Definition example_events : list event :=
  [ERescan; EAsk 5; EVerify [5; 6] None 8; EMark 5; EAnswer 0 (Ok false); EAnswer 1 (Ok false); EAnswer 2 (Ok true); EForget 1; EForget 2; EWake 1; EWake 0].
Lemma cached_pieces_checked_witness :
  let s := run example_events (new_state ∅) in
  r_told <$> t_reads s = [Some (Ok true); Some (Ok true); Some (Ok true)] ∧ t_bits s = {[5; 6]} ∧
  (∀ i, i ∈ [5; 6] → seen (new_state ∅) example_events 0 i ∨ told_invalid i s).
Proof.
  intros s. split; [by vm_compute|]. split; [by vm_compute|]. intros i Hi.
  destruct (cached_pieces_checked ∅ example_events) as (_ & _ & _ & _ & H).
  assert (EW : t_workers s = [Worker 0 (Ended (Ok tt)); Worker 0 (Ended (Ok tt))]) by (by vm_compute).
  apply (H 0%nat (Call [5; 6] 8 4 None) i); [by vm_compute|cbn; lia| |done].
  intros j w. change (run example_events (new_state ∅)) with s. rewrite EW. destruct j as [|[|j]]; cbn; [by intros [= <-]|by intros [= <-]|done].
Defined.
