(* ===== verification/WindowEntries.v ===== *)
(** * The torrents of an infohash (src/src/disk/web/torrent-window.js: add, entry, failed,
    recover, cancel, remove, clearCaches, close)

    A job of [open] (WindowOpening.v shares it between readers) finds the metadata and gives
    it to [add], which creates a torrent and waits until it is ready.  Meanwhile the
    job may be aborted, the torrent may fail or close, the transport may be cancelled
    or closed, and a reader may ask to recover the torrent.

    One infohash is modelled, with every entry it ever had.  WebTorrent, timers, signals
    and the results of awaited calls are events. *)
From S2P Require Import Prelude.
#[local] Open Scope Z_scope.

(** ** State *)
Record entry := Entry {
  n_state : bool;                      (** [kind==="state"] *)
  n_epoch : Z;                         (** [epoch] of [add] *)
  n_error : option exn;
  n_ready : bool; n_destroyed : bool; n_gone : bool;  (** of the torrent; [n_gone]: it has emitted "close" *)
  n_settled : option (result unit);    (** the promise that [add] returns *)
  n_timer : bool;                      (** its timer runs *)
  n_listens : bool;                    (** [abortOpening] listens to the signal *)
  n_seedTimer : bool;                  (** [monitorWebseeds] *)
  n_seedsAborted : bool;               (** [seedController] *)
  n_paused : bool;
  n_rescanned : bool; n_rescans : Z    (** [rescanCachedPieces] was called so often *)
}.
Inductive stage :=
| Discovering                          (** awaits the metadata *)
| Verifying (epoch : Z)                (** awaits [verifyMetadata] *)
| AwaitClient (epoch : Z)              (** awaits [initialize] *)
| Opening (n : nat)                    (** awaits the promise of entry [n] *)
| Failed (e : exn).
Record job := Job { j_stage : stage; j_state : bool; j_aborted : option exn }.
Inductive recovery :=
| Removing (n : nat)                   (** awaits the end of the torrent of entry [n] *)
| Reopening                            (** awaits [open] *)
| Recovered (r : result unit).
Inductive rcall := Waits (m : nat) | Returned (r : result unit).

Record window := Window {
  t_entries : list entry;              (** every entry, by age *)
  t_current : option nat;              (** [entries.get(hash)] *)
  t_job : option job;                  (** [openingJobs.get(hash)] *)
  t_epoch : Z; t_closed : bool; t_clearing : bool;
  t_known : bool;                      (** [componentMetadata.has(hash)] *)
  t_recoveries : list recovery;
  t_recovering : option nat;           (** [recovering.get(hash)] *)
  t_calls : list rcall;                (** the calls of [recover] *)
  t_reported : list exn                (** the errors given to [onProgress] *)
}.
Definition new_window : window := Window [] None None 0 false false false [] None [] [].

Definition set_entries (x : list entry) (current : option nat) (s : window) : window :=
  Window x current (t_job s) (t_epoch s) (t_closed s) (t_clearing s) (t_known s) (t_recoveries s) (t_recovering s) (t_calls s) (t_reported s).
Definition set_job (x : option job) (s : window) : window :=
  Window (t_entries s) (t_current s) x (t_epoch s) (t_closed s) (t_clearing s) (t_known s) (t_recoveries s) (t_recovering s) (t_calls s) (t_reported s).
Definition set_life (epoch : Z) (closed clearing known : bool) (s : window) : window :=
  Window (t_entries s) (t_current s) (t_job s) epoch closed clearing known (t_recoveries s) (t_recovering s) (t_calls s) (t_reported s).
Definition set_recoveries (x : list recovery) (recovering : option nat) (calls : list rcall) (s : window) : window :=
  Window (t_entries s) (t_current s) (t_job s) (t_epoch s) (t_closed s) (t_clearing s) (t_known s) x recovering calls (t_reported s).
Definition report (e : exn) (s : window) : window :=
  Window (t_entries s) (t_current s) (t_job s) (t_epoch s) (t_closed s) (t_clearing s) (t_known s) (t_recoveries s) (t_recovering s) (t_calls s) (t_reported s ++ [e]).
Definition change (n : nat) (f : entry → entry) (s : window) : window := set_entries (alter f n (t_entries s)) (t_current s) s.

Definition fail (message : string) : exn := Exn (Some "CANCELLED"%string) message.
Definition TIMEOUT : exn := Exn (Some "TRANSPORT_TIMEOUT"%string) "Torrent storage initialization timed out".

(** ** What happens to one entry *)
Definition stop_seeds (e : entry) : entry :=
  Entry (n_state e) (n_epoch e) (n_error e) (n_ready e) (n_destroyed e) (n_gone e) (n_settled e) (n_timer e) (n_listens e) false true (n_paused e) (n_rescanned e) (n_rescans e).
Definition set_error (x : exn) (e : entry) : entry :=
  Entry (n_state e) (n_epoch e) (Some x) (n_ready e) (n_destroyed e) (n_gone e) (n_settled e) (n_timer e) (n_listens e) false (n_seedsAborted e) (n_paused e) (n_rescanned e) (n_rescans e).
Definition set_torrent (ready destroyed gone : bool) (e : entry) : entry :=
  Entry (n_state e) (n_epoch e) (n_error e) ready destroyed gone (n_settled e) (n_timer e) (n_listens e) (n_seedTimer e) (n_seedsAborted e) (n_paused e) (n_rescanned e) (n_rescans e).
(** [settled=true; clearTimeout(timer); detach()] with [resolve] or [reject]. *)
Definition settle (r : result unit) (e : entry) : entry :=
  match n_settled e with
  | Some _ => e
  | None => Entry (n_state e) (n_epoch e) (n_error e) (n_ready e) (n_destroyed e) (n_gone e) (Some r) false false (n_seedTimer e) (n_seedsAborted e) (n_paused e) (n_rescanned e) (n_rescans e)
  end.
Definition abort_seeds (e : entry) : entry :=
  Entry (n_state e) (n_epoch e) (n_error e) (n_ready e) (n_destroyed e) (n_gone e) (n_settled e) (n_timer e) (n_listens e) (n_seedTimer e) true (n_paused e) (n_rescanned e) (n_rescans e).
Definition pause (e : entry) : entry :=
  Entry (n_state e) (n_epoch e) (n_error e) (n_ready e) (n_destroyed e) (n_gone e) (n_settled e) (n_timer e) (n_listens e) (n_seedTimer e) (n_seedsAborted e) true (n_rescanned e) (n_rescans e).
(** The state's pieces are verified before "ready"; a disk's are rescanned after it. *)
Definition start_rescan (e : entry) : entry :=
  Entry (n_state e) (n_epoch e) (n_error e) (n_ready e) (n_destroyed e) (n_gone e) (n_settled e) (n_timer e) (n_listens e) (n_seedTimer e) (n_seedsAborted e) (n_paused e)
    (n_state e || n_rescanned e) (if n_state e then n_rescans e else n_rescans e + 1).
Definition new_entry (state : bool) (epoch : Z) (seedsAborted : bool) : entry :=
  Entry state epoch None false false false None true true true seedsAborted false false 0.

(** [failed(entry,error)]: errors other than cancellations are reported. *)
Definition failed (n : nat) (e : exn) (s : window) : window :=
  let s := change n (set_error e) s in
  if bool_decide (exn_code e = Some "CANCELLED"%string) then s else report e s.
(** [torrent.destroy], which WebTorrent may also do by itself. *)
Definition torrent_destroyed (n : nat) (s : window) : window := change n (λ x, set_torrent (n_ready x) true (n_gone x) x) s.
(** [remove(hash)] up to its await. *)
Definition remove (s : window) : window :=
  match t_current s with
  | Some n =>
      let s := change n stop_seeds s in
      let s := failed n (fail "Torrent closed") (set_entries (t_entries s) None s) in
      torrent_destroyed n s
  | None => s
  end.
Definition remove_if (n : nat) (s : window) : window := if bool_decide (t_current s = Some n) then remove s else s.
(** [abortOpening]. *)
Definition abort_opening (n : nat) (e : exn) (s : window) : window :=
  match t_entries s !! n with
  | Some x =>
      match n_settled x with
      | Some _ => s
      | None => remove_if n (change n (settle (Throw e)) s)
      end
  | None => s
  end.
(** The signal of the job is aborted. *)
Definition abort_job (e : exn) (s : window) : window :=
  match t_job s with
  | Some j =>
      match j_aborted j with
      | Some _ => s
      | None =>
          let s' := set_job (Some (Job (j_stage j) (j_state j) (Some e))) s in
          match j_stage j with
          | AwaitClient _ => set_job (Some (Job (Failed e) (j_state j) (Some e))) s'
          | Opening n =>
              match t_entries s !! n with
              | Some x => if n_listens x then abort_opening n e (change n abort_seeds s') else s'
              | None => s'
              end
          | _ => s'
          end
      end
  | None => s
  end.
Definition cancel (s : window) : window :=
  let s := set_life (t_epoch s + 1) (t_closed s) (t_clearing s) (t_known s) s in
  let s := abort_job (fail "Torrent opening cancelled") s in
  match t_current s with Some n => change n (λ e, pause (stop_seeds e)) s | None => s end.
Definition close (s : window) : window := remove (cancel (set_life (t_epoch s) true (t_clearing s) (t_known s) s)).
Definition clearCaches (s : window) : window := remove (cancel (set_life (t_epoch s) (t_closed s) true (t_known s) s)).

(** ** Opening *)
(** A job of [open]: there is no other one and no entry. *)
Definition start_job (state : bool) (s : window) : window :=
  if t_closed s || t_clearing s then s
  else match t_job s, t_current s with
       | None, None => set_job (Some (Job Discovering state None)) s
       | _, _ => s
       end.
Definition with_stage (x : stage) (j : job) (s : window) : window := set_job (Some (Job x (j_state j) (j_aborted j))) s.
Definition CANCELLED : exn := fail "Torrent opening was cancelled".
(** [add] after [initialize]; [threw]: [client.add] throws. *)
Definition create (epoch : Z) (j : job) (threw : option exn) (s : window) : window :=
  match j_aborted j with
  | Some e => with_stage (Failed e) j s
  | None =>
      if t_closed s || negb (epoch =? t_epoch s) then with_stage (Failed CANCELLED) j s
      else match threw with
           | Some e => with_stage (Failed e) j s
           | None =>
               let n := length (t_entries s) in
               with_stage (Opening n) j (set_entries (t_entries s ++ [new_entry (j_state j) epoch false]) (Some n) s)
           end
  end.
(** The torrent is ready. *)
Definition ready (n : nat) (s : window) : window :=
  match t_entries s !! n with
  | Some x =>
      if n_ready x || n_destroyed x then s
      else
        let s := change n (λ x, set_torrent true (n_destroyed x) (n_gone x) x) s in
        match n_settled x with
        | Some _ => s
        | None =>
            if negb (n_epoch x =? t_epoch s) || t_closed s then remove (change n (settle (Throw CANCELLED)) s)
            else change n (λ e, settle (Ok tt) (start_rescan e)) s
        end
  | None => s
  end.
Definition torrent_error (n : nat) (e : exn) (s : window) : window :=
  match t_entries s !! n with
  | Some _ => change n (settle (Throw e)) (failed n e s)
  | None => s
  end.
(** The torrent has closed. *)
Definition torrent_closed (n : nat) (s : window) : window :=
  match t_entries s !! n with
  | Some x =>
      if n_gone x then s
      else
        let s := change n stop_seeds (torrent_destroyed n s) in
        let e := default (fail "Torrent closed") (n_error x) in
        let s := change n (settle (Throw e)) (failed n e s) in
        change n (λ x, set_torrent (n_ready x) (n_destroyed x) true x) s
  | None => s
  end.
Definition timed_out (n : nat) (s : window) : window :=
  match t_entries s !! n with
  | Some x => if n_timer x then remove_if n (failed n TIMEOUT (change n (settle (Throw TIMEOUT)) s)) else s
  | None => s
  end.

(** ** Recovery *)
Definition healthy (e : entry) : bool := bool_decide (n_error e = None) && negb (n_destroyed e).
Definition BARRED : exn := fail "Torrent transport is closed or clearing its cache".
Definition NO_METADATA : exn := Exn (Some "TRANSPORT_ERROR"%string) "No immutable metadata is available for recovery".
Definition return_ (r : result unit) (s : window) : window := set_recoveries (t_recoveries s) (t_recovering s) (t_calls s ++ [Returned r]) s.
(** [given]: the call names metadata and a kind. *)
Definition recover (given : bool) (aborted : option exn) (s : window) : window :=
  match aborted with
  | Some e => return_ (Throw e) s
  | None =>
      if t_closed s || t_clearing s then return_ (Throw BARRED) s
      else
        match t_recovering s with
        | Some m => set_recoveries (t_recoveries s) (Some m) (t_calls s ++ [Waits m]) s
        | None =>
            let entry := n ← t_current s; t_entries s !! n in
            match entry with
            | Some e =>
                if healthy e then return_ (Ok tt) s
                else
                  let m := length (t_recoveries s) in
                  let next := if n_destroyed e then Reopening else Removing (default 0%nat (t_current s)) in
                  let s := remove (set_life (t_epoch s) (t_closed s) (t_clearing s) true s) in
                  set_recoveries (t_recoveries s ++ [next]) (Some m) (t_calls s ++ [Waits m]) s
            | None =>
                if negb (given || t_known s) then return_ (Throw NO_METADATA) s
                else
                  let m := length (t_recoveries s) in
                  set_recoveries (t_recoveries s ++ [Reopening]) (Some m) (t_calls s ++ [Waits m]) s
            end
        end
  end.
Definition set_recovery (m : nat) (x : recovery) (s : window) : window :=
  set_recoveries (<[m := x]> (t_recoveries s)) (t_recovering s) (t_calls s) s.

Inductive event :=
| EOpen (state : bool) | EData (r : result unit) | EVerified (r : result unit) | EClient (r : result unit) (threw : option exn)
| EEnd                                 (** the [finally] of the job *)
| EAbort (e : exn)                     (** the job has lost its last reader *)
| EReady (n : nat) | EError (n : nat) (e : exn) | EDestroyed (n : nat) | EGone (n : nat) | ETimer (n : nat)
| EClientError (e : exn)               (** the client's "error" *)
| ECancel | EClose | EClear
| ECleared (ok : bool)                 (** [clearCaches] ends *)
| ERecover (given : bool) (aborted : option exn)
| ERemoved (m : nat) | EOpened (m : nat) (r : result unit) | EForget (m : nat)
| ELeave (k : nat) (e : exn) | EReturn (k : nat).  (** the signal of call [k] of [recover], its end *)
Definition step (ev : event) (s : window) : window :=
  match ev with
  | EOpen state => start_job state s
  | EData r =>
      match t_job s with
      | Some (Job Discovering _ aborted as j) =>
          match r, aborted with
          | Throw e, _ | _, Some e => with_stage (Failed e) j s
          | Ok _, None => with_stage (Verifying (t_epoch s)) j s
          end
      | _ => s
      end
  | EVerified r =>
      match t_job s with
      | Some (Job (Verifying epoch) _ aborted as j) =>
          match r, aborted with
          | Throw e, _ | _, Some e => with_stage (Failed e) j s
          | Ok _, None => with_stage (AwaitClient epoch) j (set_life (t_epoch s) (t_closed s) (t_clearing s) true s)
          end
      | _ => s
      end
  | EClient r threw =>
      match t_job s with
      | Some (Job (AwaitClient epoch) _ _ as j) =>
          match r with Throw e => with_stage (Failed e) j s | Ok _ => create epoch j threw s end
      | _ => s
      end
  | EEnd =>
      match t_job s with
      | Some (Job (Failed _) _ _) => set_job None s
      | Some (Job (Opening n) _ _) =>
          match t_entries s !! n with Some x => match n_settled x with Some _ => set_job None s | None => s end | None => s end
      | _ => s
      end
  | EAbort e => abort_job e s
  | EReady n => ready n s
  | EError n e => torrent_error n e s
  | EDestroyed n => torrent_destroyed n s
  | EGone n => torrent_closed n s
  | ETimer n => timed_out n s
  | EClientError e => match t_current s with Some n => failed n e s | None => s end
  | ECancel => cancel s
  | EClose => close s
  | EClear => clearCaches s
  | ECleared ok => set_life (t_epoch s) (t_closed s) false (negb ok && t_known s) s
  | ERecover given aborted => recover given aborted s
  | ERemoved m =>
      match t_recoveries s !! m with
      | Some (Removing n) =>
          match t_entries s !! n with Some x => if n_gone x then set_recovery m Reopening s else s | None => s end
      | _ => s
      end
  | EOpened m r => match t_recoveries s !! m with Some Reopening => set_recovery m (Recovered r) s | _ => s end
  | EForget m =>
      match t_recoveries s !! m with
      | Some (Recovered _) => if bool_decide (t_recovering s = Some m) then set_recoveries (t_recoveries s) None (t_calls s) s else s
      | _ => s
      end
  | ELeave k e =>
      match t_calls s !! k with
      | Some (Waits _) => set_recoveries (t_recoveries s) (t_recovering s) (<[k := Returned (Throw e)]> (t_calls s)) s
      | _ => s
      end
  | EReturn k =>
      match t_calls s !! k with
      | Some (Waits m) =>
          match t_recoveries s !! m with
          | Some (Recovered r) => set_recoveries (t_recoveries s) (t_recovering s) (<[k := Returned r]> (t_calls s)) s
          | _ => s
          end
      | _ => s
      end
  end.
Definition run (l : list event) (s : window) : window := foldl (λ s e, step e s) s l.
