(* ===== verification/WindowEntriesFacts.v ===== *)
(** * The torrents of an infohash: one at a time, and none left behind *)
From S2P Require Import Prelude WindowEntries.
#[local] Open Scope Z_scope.

(** ** The invariant *)
Record local (x : entry) : Prop := {
  l_timer : n_timer x = bool_decide (n_settled x = None);
  l_listens : n_listens x = bool_decide (n_settled x = None);
  l_gone : n_gone x = true → n_destroyed x = true ∧ n_settled x ≠ None;
  l_ready : n_settled x = Some (Ok tt) → n_ready x = true;
  l_rescans : n_rescans x = if bool_decide (n_settled x = Some (Ok tt)) && negb (n_state x) then 1 else 0
}.
(** Its torrent is destroyed, its probes and its monitor are stopped. *)
Definition dead (x : entry) : Prop := n_destroyed x = true ∧ n_error x ≠ None ∧ n_seedTimer x = false ∧ n_seedsAborted x = true.
Definition global (current : option nat) (job : option job) (n : nat) (x : entry) : Prop :=
  (current ≠ Some n → dead x) ∧ (∀ e, n_settled x = Some (Throw e) → n_error x ≠ None) ∧
  (n_settled x = None → ∃ state, job = Some (Job (Opening n) state None)).
Definition job_ok (s : window) : Prop :=
  ∀ j, t_job s = Some j →
    match j_stage j with
    | Opening n => (n < length (t_entries s))%nat ∧ ∀ m, t_current s = Some m → m = n
    | _ => t_current s = None
    end.
Definition unfinished (r : recovery) : bool := match r with Recovered _ => false | _ => true end.
(** [hole] is an entry that is being changed. *)
Record sound (hole : option nat) (s : window) : Prop := {
  s_local : ∀ n x, t_entries s !! n = Some x → local x;
  s_global : ∀ n x, t_entries s !! n = Some x → Some n ≠ hole → global (t_current s) (t_job s) n x;
  s_current : ∀ n, t_current s = Some n → (n < length (t_entries s))%nat;
  s_job : job_ok s;
  s_closed : t_closed s = true → t_current s = None;
  s_recovery : ∀ m r, t_recoveries s !! m = Some r → unfinished r = true → t_recovering s = Some m;
  s_reported : ∀ e, e ∈ t_reported s → exn_code e ≠ Some "CANCELLED"%string
}.
Lemma open_hole n s : sound None s → sound (Some n) s.
Proof. intros []. split; try done. intros m x Hx _. by apply s_global0. Qed.
Lemma close_hole n s :
  sound (Some n) s → (∀ x, t_entries s !! n = Some x → global (t_current s) (t_job s) n x) → sound None s.
Proof.
  intros [] H. split; try done. intros m x Hx _. destruct (decide (m = n)) as [->|Hm]; [by apply H|]. apply s_global0; [done|congruence].
Qed.
Lemma lookup_change n m f s x :
  t_entries (change n f s) !! m = Some x → ∃ y, t_entries s !! m = Some y ∧ x = if decide (m = n) then f y else y.
Proof.
  cbn. destruct (decide (m = n)) as [->|Hm].
  - rewrite list_lookup_alter_eq. destruct (t_entries s !! n) as [y|]; [|done]. cbn. intros [= <-]. by exists y.
  - rewrite list_lookup_alter_ne by done. intros Hx. by exists x.
Qed.
Lemma change_eq n f s x : t_entries s !! n = Some x → t_entries (change n f s) !! n = Some (f x).
Proof. intros H. cbn. by rewrite list_lookup_alter_eq, H. Qed.
Lemma solo_change hole n f s :
  (∀ x, t_entries s !! n = Some x → local x → local (f x)) →
  (Some n ≠ hole → ∀ x, t_entries s !! n = Some x → global (t_current s) (t_job s) n x → global (t_current s) (t_job s) n (f x)) →
  sound hole s → sound hole (change n f s).
Proof.
  intros HL HG []. split; try done.
  - intros m x (y & Hy & ->)%lookup_change. destruct (decide (m = n)) as [->|]; [apply HL; [done|]|]; by eapply s_local0.
  - intros m x (y & Hy & ->)%lookup_change Hm. destruct (decide (m = n)) as [->|]; [apply HG; [done|done|]|]; by apply s_global0.
  - intros m Hm. cbn. rewrite length_alter. by apply s_current0.
  - intros j Hj. specialize (s_job0 j Hj). cbn. by rewrite length_alter.
Qed.
Lemma solo_inside n f s :
  (∀ x, t_entries s !! n = Some x → local x → local (f x)) → sound (Some n) s → sound (Some n) (change n f s).
Proof. intros H. apply solo_change; [done|]. by intros []. Qed.

(** What one entry can undergo. *)
Ltac by_local := intros x _ []; by split.
Lemma local_stop_seeds n s x : t_entries s !! n = Some x → local x → local (stop_seeds x).
Proof. revert x. by_local. Qed.
Lemma local_error n s e x : t_entries s !! n = Some x → local x → local (set_error e x).
Proof. revert x. by_local. Qed.
Lemma local_destroy n s x : t_entries s !! n = Some x → local x → local (set_torrent (n_ready x) true (n_gone x) x).
Proof. intros _ []. split; cbn; try done. intros H. by destruct (l_gone0 H). Qed.
Lemma local_reject n s e x : t_entries s !! n = Some x → local x → local (settle (Throw e) x).
Proof.
  intros _ []. unfold settle. destruct (n_settled x) as [r|] eqn:E; [by split; rewrite ?E|]. split; cbn; try done. intros H. by destruct (l_gone0 H).
Qed.
Lemma local_resolve n s x : t_entries s !! n = Some x → n_settled x = None → n_ready x = true → local x → local (settle (Ok tt) (start_rescan x)).
Proof.
  intros _ E ER []. unfold settle. cbn. rewrite E. split; cbn; try done.
  - intros H. by destruct (l_gone0 H).
  - rewrite l_rescans0, E. cbn. by destruct (n_state x).
Qed.

(** ** Failures and removals *)
Lemma solo_report hole e s : sound hole s → exn_code e ≠ Some "CANCELLED"%string → sound hole (report e s).
Proof. intros [] He. split; try done. cbn. intros x [Hx| ->%list_elem_of_singleton]%elem_of_app; [by apply s_reported0|done]. Qed.
Lemma failed_entries n e s : t_entries (failed n e s) = t_entries (change n (set_error e) s) ∧ t_current (failed n e s) = t_current s ∧ t_job (failed n e s) = t_job s.
Proof. unfold failed. by case_bool_decide. Qed.
Lemma solo_failed_inside n e s : sound (Some n) s → sound (Some n) (failed n e s).
Proof.
  intros H. unfold failed. assert (H1 : sound (Some n) (change n (set_error e) s)) by (apply solo_inside; [by apply local_error|done]).
  case_bool_decide; [done|]. by apply solo_report.
Qed.
Lemma solo_failed n e s : sound None s → sound None (failed n e s).
Proof.
  intros H. apply (close_hole n); [by apply solo_failed_inside, open_hole|]. destruct (failed_entries n e s) as (EE & -> & ->). rewrite EE.
  intros x (y & Hy & ->)%lookup_change. rewrite decide_True by done. destruct (s_global _ _ H n y Hy ltac:(done)) as (HD & HT & HJ).
  split_and!; [|done|done]. intros Hc. by destruct (HD Hc) as (? & _ & _ & ?).
Qed.
Lemma solo_destroy n s : sound None s → sound None (torrent_destroyed n s).
Proof.
  apply solo_change; [by apply (local_destroy n s)|]. intros _ x _ (HD & HT & HJ). split_and!; [|done|done].
  intros Hc. by destruct (HD Hc) as (_ & ? & ? & ?).
Qed.
Lemma solo_forget_current n s : sound (Some n) s → t_current s = Some n → sound (Some n) (set_entries (t_entries s) None s).
Proof.
  intros [] EC. split; try done.
  - intros m x Hm Hne. destruct (s_global0 m x Hm Hne) as (HD & HT & HJ). split_and!; [|done|done]. intros _. apply HD. congruence.
  - intros j Hj. specialize (s_job0 j Hj). cbn. destruct (j_stage j); [done|done|done| |done]. by split; [apply s_job0|].
Qed.
Lemma remove_entries n s x :
  t_current s = Some n → t_entries s !! n = Some x →
  t_entries (remove s) !! n = Some (set_torrent (n_ready x) true (n_gone x) (set_error (fail "Torrent closed") (stop_seeds x))) ∧
  t_current (remove s) = None ∧ t_job (remove s) = t_job s.
Proof.
  intros EC Hx. unfold remove. rewrite EC. unfold torrent_destroyed. split; [|done].
  apply (change_eq n (λ x, set_torrent (n_ready x) true (n_gone x) x) _ (set_error (fail "Torrent closed") (stop_seeds x))).
  apply (change_eq n (set_error (fail "Torrent closed")) _ (stop_seeds x)). by apply (change_eq n stop_seeds).
Qed.
Lemma solo_remove_inside n s :
  t_current s = Some n → sound (Some n) s →
  (∀ x, t_entries s !! n = Some x → n_settled x = None → ∃ state, t_job s = Some (Job (Opening n) state None)) → sound None (remove s).
Proof.
  intros EC H HJ. apply (close_hole n).
  - unfold remove. rewrite EC. apply solo_inside; [by apply (local_destroy n)|]. apply solo_failed_inside.
    apply (solo_forget_current n (change n stop_seeds s)); [|done]. apply solo_inside; [by apply local_stop_seeds|done].
  - destruct (lookup_lt_is_Some_2 _ _ (s_current _ _ H n EC)) as [x Hx]. destruct (remove_entries n s x EC Hx) as (EE & -> & ->).
    rewrite EE. intros y [= <-]. split_and!; [done|done|]. apply (HJ x Hx).
Qed.
Lemma solo_remove s : sound None s → sound None (remove s).
Proof.
  intros H. destruct (t_current s) as [n|] eqn:EC; [|unfold remove; by rewrite EC].
  apply (solo_remove_inside n); [done|by apply open_hole|]. intros x Hx. by apply (s_global _ _ H n x Hx).
Qed.
Lemma solo_remove_if n s :
  sound (Some n) s → (∀ x, t_entries s !! n = Some x → n_settled x ≠ None ∧ (t_current s ≠ Some n → dead x)) → sound None (remove_if n s).
Proof.
  intros H HX. unfold remove_if. case_bool_decide as EC.
  - apply (solo_remove_inside n); [done|done|]. intros x Hx ?. by destruct (HX x Hx).
  - apply (close_hole n); [done|]. intros x Hx. destruct (HX x Hx) as [Hs HD]. destruct (HD EC) as (? & ? & ? & ?). by split_and!.
Qed.
(** The opening of [n] fails. *)
Lemma settled_reject n e s x : t_entries (change n (settle (Throw e)) s) !! n = Some x → n_settled x ≠ None.
Proof. intros (y & Hy & ->)%lookup_change. rewrite decide_True by done. unfold settle. by destruct (n_settled y) eqn:E; rewrite ?E. Qed.
Lemma dead_settle r x : dead x → dead (settle r x).
Proof. unfold settle. by destruct (n_settled x). Qed.
Lemma solo_abort_opening n e s :
  sound (Some n) s → (∀ x, t_entries s !! n = Some x → n_settled x = None → t_current s ≠ Some n → dead x) →
  (∀ x, t_entries s !! n = Some x → n_settled x ≠ None → global (t_current s) (t_job s) n x) → sound None (abort_opening n e s).
Proof.
  intros H HD HG. unfold abort_opening. destruct (t_entries s !! n) as [x|] eqn:Ex; [|apply (close_hole n); [done|by rewrite Ex]].
  destruct (n_settled x) eqn:Es; [apply (close_hole n); [done|]; rewrite Ex; intros y [= <-]; by apply HG; [|rewrite Es]|].
  apply solo_remove_if; [by apply solo_inside; [apply local_reject|]|]. intros y Hy. split; [by apply (settled_reject _ _ _ _ Hy)|].
  rewrite (change_eq _ _ _ _ Ex) in Hy. injection Hy as <-. intros Hc. by apply dead_settle, HD.
Qed.
Lemma solo_timed_out n s : sound None s → sound None (timed_out n s).
Proof.
  intros H. unfold timed_out. destruct (t_entries s !! n) as [x|] eqn:Ex; [|done]. destruct (n_timer x) eqn:Et; [|done].
  destruct (failed_entries n TIMEOUT (change n (settle (Throw TIMEOUT)) s)) as (EE & EC & _).
  apply solo_remove_if; [apply solo_failed_inside, solo_inside; [by apply local_reject|by apply open_hole]|]. rewrite EE, EC.
  intros y (z & Hz & ->)%lookup_change. rewrite decide_True by done. split; [by apply (settled_reject _ _ _ _ Hz)|].
  apply lookup_change in Hz as (w & Hw & ->). rewrite decide_True by done. intros Hc. destruct (s_global _ _ H n w Hw ltac:(done)) as (HD & _).
  by destruct (dead_settle (Throw TIMEOUT) w (HD Hc)) as (? & _ & _ & ?).
Qed.
Lemma solo_torrent_error n e s : sound None s → sound None (torrent_error n e s).
Proof.
  intros H. unfold torrent_error. destruct (t_entries s !! n) as [x|] eqn:Ex; [|done]. destruct (failed_entries n e s) as (EE & EC & EJ).
  apply (close_hole n); [apply solo_inside; [by apply local_reject|by apply solo_failed_inside, open_hole]|].
  cbn [change set_entries t_current t_job]. rewrite EC, EJ. intros y Hy. pose proof (settled_reject _ _ _ _ Hy) as Hs. apply lookup_change in Hy as (z & Hz & ->).
  rewrite decide_True in * by done. rewrite EE in Hz. apply lookup_change in Hz as (w & Hw & ->). rewrite decide_True in * by done.
  destruct (s_global _ _ H n w Hw ltac:(done)) as (HD & _). split_and!; [|intros ? _; unfold settle; cbn; by destruct (n_settled w)|done].
  intros Hc. apply dead_settle. by destruct (HD Hc) as (? & _ & _ & ?).
Qed.
Lemma solo_torrent_closed n s : sound None s → sound None (torrent_closed n s).
Proof.
  intros H. unfold torrent_closed. destruct (t_entries s !! n) as [x|] eqn:Ex; [|done]. destruct (n_gone x); [done|].
  set (e := default _ _). set (s1 := change n stop_seeds (torrent_destroyed n s)). destruct (failed_entries n e s1) as (EE & EC & EJ).
  assert (H1 : sound (Some n) (change n (settle (Throw e)) (failed n e s1))).
  { apply solo_inside; [by apply local_reject|]. apply solo_failed_inside, solo_inside; [by apply local_stop_seeds|]. by apply open_hole, solo_destroy. }
  set (s2 := change n (settle _) _) in *.
  assert (EX : t_entries s2 !! n = Some (settle (Throw e) (set_error e (stop_seeds (set_torrent (n_ready x) true (n_gone x) x))))).
  { apply (change_eq n (settle (Throw e))). rewrite EE. apply (change_eq n (set_error e)), (change_eq n stop_seeds), (change_eq n (λ x, set_torrent (n_ready x) true (n_gone x) x)), Ex. }
  pose proof (settled_reject n e (failed n e s1) _ EX) as Hs.
  set (y := settle _ _) in *. assert (Hd : dead y) by (unfold y, settle; cbn; by destruct (n_settled x)).
  clearbody y s2. destruct Hd as (D1 & D2 & D3 & D4). apply (close_hole n).
  - apply solo_inside; [|done]. rewrite EX. intros ? [= <-] []. by split.
  - intros z Hz. rewrite (change_eq _ _ _ _ EX) in Hz. injection Hz as <-. by split_and!.
Qed.
Lemma solo_ready n s : sound None s → sound None (ready n s).
Proof.
  intros H. unfold ready. destruct (t_entries s !! n) as [x|] eqn:Ex; [|done]. destruct (n_ready x || n_destroyed x) eqn:Er; [done|].
  apply orb_false_iff in Er as [Er Ed]. set (s1 := change n _ s).
  assert (EC : t_current s = Some n).
  { destruct (s_global _ _ H n x Ex ltac:(done)) as (HD & _). destruct (decide (t_current s = Some n)) as [|Hc]; [done|]. destruct (HD Hc). congruence. }
  assert (H1 : sound None s1).
  { apply solo_change; [| |done].
    - intros y _ []. by split.
    - intros _ y _ (HD & HT & HJ). split_and!; [done|done|done]. }
  assert (E1 : t_entries s1 !! n = Some (set_torrent true (n_destroyed x) (n_gone x) x)) by (by apply (change_eq n (λ x, set_torrent true (n_destroyed x) (n_gone x) x))).
  destruct (n_settled x) eqn:Es; [done|]. destruct (_ || _).
  - apply (solo_remove_inside n); [done|apply solo_inside; [by apply local_reject|by apply open_hole]|]. intros y Hy. by pose proof (settled_reject _ _ _ _ Hy).
  - apply solo_change; [|intros _|done].
    + intros y Hy. rewrite E1 in Hy. injection Hy as <-. by eapply local_resolve.
    + intros y Hy _. rewrite E1 in Hy. injection Hy as <-. unfold settle. cbn. rewrite Es. by split_and!.
Qed.

(** ** Jobs *)
Lemma all_settled s n x : sound None s → (∀ m state, t_job s ≠ Some (Job (Opening m) state None)) → t_entries s !! n = Some x → n_settled x ≠ None.
Proof. intros H HJ Hx Hs. destruct (s_global _ _ H n x Hx ltac:(done)) as (_ & _ & HE). destruct (HE Hs) as [st E]. by apply (HJ n st). Qed.
Lemma solo_set_job o s :
  sound None s → (∀ n x, t_entries s !! n = Some x → n_settled x ≠ None) → job_ok (set_job o s) → sound None (set_job o s).
Proof.
  intros [] HS HJ. split; try done. intros n x Hx Hh. destruct (s_global0 n x Hx Hh) as (HD & HT & _). split_and!; [done|done|].
  intros E. by destruct (HS n x Hx).
Qed.
Lemma solo_stage x j s :
  sound None s → t_job s = Some j → (∀ n, j_stage j ≠ Opening n) → (∀ n, x ≠ Opening n) → sound None (with_stage x j s).
Proof.
  intros H EJ Hj Hx. pose proof (s_job _ _ H j EJ) as HO. apply solo_set_job; [done| |].
  - intros n y Hy. apply (all_settled s n); [done| |done]. rewrite EJ. intros m st [= ->]. by apply (Hj m).
  - intros j' [= <-]. cbn. destruct (j_stage j); try by destruct (Hj n). all: by destruct x; try destruct (Hx n).
Qed.
Lemma solo_abort_job e s : sound None s → sound None (abort_job e s).
Proof.
  intros H. unfold abort_job. destruct (t_job s) as [[st state [a|]]|] eqn:EJ; [done| |done]. cbn [j_aborted j_stage j_state].
  pose proof (s_job _ _ H _ EJ) as HO. cbn in HO.
  assert (HB : (∀ n, st ≠ Opening n) → ∀ st', (∀ n, st' ≠ Opening n) → sound None (set_job (Some (Job st' state (Some e))) s)).
  { intros Hst st' Hst'. apply solo_set_job; [done| |].
    - intros n y Hy. apply (all_settled s n); [done| |done]. rewrite EJ. intros m ? [= -> _]. by apply (Hst m).
    - intros j' [= <-]. cbn. destruct st; try by destruct (Hst n). all: by destruct st'; try destruct (Hst' n). }
  destruct st as [|ep|ep|n|e']; [by apply HB|by apply HB| | |by apply HB].
  { change (sound None (set_job (Some (Job (Failed e) state (Some e))) s)). by apply HB. }
  destruct HO as [Hn HO]. destruct (lookup_lt_is_Some_2 _ _ Hn) as [x Hx]. cbn [set_job t_entries]. rewrite Hx.
  destruct (s_global _ _ H n x Hx ltac:(done)) as (HD & HT & _). pose proof (s_local _ _ H n x Hx) as HL.
  assert (Hothers : ∀ m y, t_entries s !! m = Some y → m ≠ n → n_settled y ≠ None).
  { intros m y Hy Hm Hs. destruct (s_global _ _ H m y Hy ltac:(done)) as (_ & _ & HE). destruct (HE Hs) as [? E]. rewrite EJ in E. congruence. }
  destruct (n_listens x) eqn:EL.
  - apply solo_abort_opening.
    + apply solo_inside; [intros y _ []; by split|]. destruct H as []. split; try done.
      * intros m y Hy Hm. destruct (s_global0 m y Hy ltac:(done)) as (? & ? & _). split_and!; [done|done|]. intros Hs. destruct (Hothers m y Hy); [congruence|done].
      * intros j [= <-]. done.
    + intros y Hy _ Hc. rewrite (change_eq _ _ _ x) in Hy by done. injection Hy as <-. by destruct (HD Hc) as (? & ? & ? & _).
    + intros y Hy Hs. rewrite (change_eq _ _ _ x) in Hy by done. injection Hy as <-. split_and!; [|done|done]. intros Hc. by destruct (HD Hc) as (? & ? & ? & _).
  - apply solo_set_job; [done| |].
    + intros m y Hy. destruct (decide (m = n)) as [->|Hm]; [|by apply (Hothers m)]. replace y with x by congruence.
      pose proof (l_listens _ HL) as E. rewrite EL in E. intros Hs. by rewrite Hs in E.
    + intros j [= <-]. done.
Qed.
Lemma solo_set_life ep closed clearing known s : sound None s → (closed = true → t_current s = None) → sound None (set_life ep closed clearing known s).
Proof. intros [] H. by split. Qed.
Lemma solo_cancel_open ep clearing known s :
  sound None s → sound None (let s := abort_job (fail "Torrent opening cancelled") (set_life ep (t_closed s) clearing known s) in
    match t_current s with Some n => change n (λ e, pause (stop_seeds e)) s | None => s end).
Proof.
  intros H. assert (H1 : sound None (abort_job (fail "Torrent opening cancelled") (set_life ep (t_closed s) clearing known s))).
  { apply solo_abort_job, solo_set_life; [done|]. apply (s_closed _ _ H). }
  cbn zeta. destruct (t_current _) as [n|] eqn:EC; [|done]. apply solo_change; [intros x _ []; by split| |done].
  intros _ x _ (HD & HT & HJ). split_and!; [|done|done]. intros Hc. congruence.
Qed.
Lemma solo_cancel s : sound None s → sound None (cancel s).
Proof. intros H. apply (solo_cancel_open (t_epoch s + 1)), H. Qed.
Lemma solo_clear s : sound None s → sound None (clearCaches s).
Proof. intros H. apply solo_remove, solo_cancel, solo_set_life; [done|]. apply (s_closed _ _ H). Qed.
(** Nothing of this looks whether the transport is closed. *)
Definition bar (s : window) : window := set_life (t_epoch s) true (t_clearing s) (t_known s) s.
Lemma remove_bar s : remove (bar s) = bar (remove s).
Proof. unfold remove. cbn [bar set_life t_current]. destruct (t_current s); [|done]. unfold failed. by case_bool_decide. Qed.
Lemma cancel_bar s : cancel (bar s) = bar (cancel s).
Proof.
  assert (HA : ∀ e s, abort_job e (bar s) = bar (abort_job e s)).
  { clear s. intros e s. unfold abort_job. cbn [bar set_life t_job]. destruct (t_job s) as [[st state [a|]]|]; [done| |done]. cbn [j_aborted j_stage j_state].
    destruct st; try done. cbn [bar set_life set_job t_entries]. destruct (t_entries s !! n) as [x|]; [|done]. destruct (n_listens x); [|done].
    unfold abort_opening. cbn [bar set_life change set_entries t_entries set_job]. destruct (alter abort_seeds n (t_entries s) !! n) as [y|]; [|done]. destruct (n_settled y); [done|].
    unfold remove_if. cbn [bar set_life change set_entries t_current set_job]. case_bool_decide; [|done]. rewrite <- remove_bar. done. }
  unfold cancel. change (set_life (t_epoch (bar s) + 1) (t_closed (bar s)) (t_clearing (bar s)) (t_known (bar s)) (bar s))
    with (bar (set_life (t_epoch s + 1) (t_closed s) (t_clearing s) (t_known s) s)). rewrite HA.
  set (s1 := abort_job _ _). cbn [bar set_life t_current]. by destruct (t_current s1).
Qed.
Lemma solo_close s : sound None s → sound None (close s).
Proof.
  intros H. unfold close. change (set_life (t_epoch s) true (t_clearing s) (t_known s) s) with (bar s). rewrite cancel_bar, remove_bar.
  assert (H1 : sound None (remove (cancel s))) by by apply solo_remove, solo_cancel. apply solo_set_life; [done|]. intros _.
  unfold remove. by destruct (t_current (cancel s)) eqn:E.
Qed.
Lemma solo_start_job state s : sound None s → sound None (start_job state s).
Proof.
  intros H. unfold start_job. destruct (_ || _); [done|]. destruct (t_job s) eqn:EJ; [done|]. destruct (t_current s) eqn:EC; [done|].
  apply solo_set_job; [done| |by intros j [= <-]]. intros n x Hx. apply (all_settled s n); [done| |done]. by rewrite EJ.
Qed.
Lemma solo_create epoch j threw s : sound None s → t_job s = Some j → j_stage j = AwaitClient epoch → sound None (create epoch j threw s).
Proof.
  intros H EJ ES. assert (HF : ∀ e, sound None (with_stage (Failed e) j s)) by (intros e; apply solo_stage; [done|done|by rewrite ES|done]).
  unfold create. destruct (j_aborted j) eqn:EA; [done|]. destruct (_ || _) eqn:EC; [done|]. destruct threw; [done|].
  apply orb_false_iff in EC as [EC _]. pose proof (s_job _ _ H j EJ) as HO. rewrite ES in HO.
  assert (HS : ∀ n x, t_entries s !! n = Some x → n_settled x ≠ None) by (intros n x; apply all_settled; [done|]; rewrite EJ; by intros m st [= ->]).
  pose proof H as []. split; cbn [with_stage set_job set_entries t_entries t_current t_job t_closed t_recoveries t_recovering t_reported j_state]; try done.
  - intros n x [[_ Hx]|[_ <-]]%lookup_snoc_Some; [by apply (s_local0 n)|by split].
  - intros n x [[Hlt Hx]|[-> <-]]%lookup_snoc_Some _.
    + destruct (s_global0 n x Hx ltac:(done)) as (HD & HT & _). split_and!; [|done|].
      * intros _. apply HD. by rewrite HO.
      * intros Hs. by destruct (HS n x Hx).
    + split_and!; [done|done|]. intros _. rewrite EA. by eexists.
  - intros n [= <-]. rewrite length_app. cbn. lia.
  - intros j' [= <-]. cbn. rewrite length_app. split; [cbn; lia|]. by intros m [= <-].
  - by rewrite EC.
Qed.
Lemma solo_end s : sound None s → sound None (step EEnd s).
Proof.
  intros H. cbn [step]. destruct (t_job s) as [[st state a]|] eqn:EJ; [|done]. destruct st as [| | |n|e]; try done.
  - destruct (t_entries s !! n) as [x|] eqn:Ex; [|done]. destruct (n_settled x) eqn:Es; [|done]. apply solo_set_job; [done| |done].
    intros m y Hy Hs. destruct (s_global _ _ H m y Hy ltac:(done)) as (_ & _ & HE). destruct (HE Hs) as [? E]. rewrite EJ in E. injection E as -> _ _. congruence.
  - apply solo_set_job; [done| |done]. intros m y Hy. apply (all_settled s m); [done| |done]. by rewrite EJ.
Qed.

(** ** Recoveries *)
Lemma solo_recoveries rs recovering calls s :
  sound None s → (∀ m r, rs !! m = Some r → unfinished r = true → recovering = Some m) → sound None (set_recoveries rs recovering calls s).
Proof. intros [] H. by split. Qed.
Lemma solo_set_recovery m x s r :
  sound None s → t_recoveries s !! m = Some r → unfinished r = true → sound None (set_recovery m x s).
Proof.
  intros H Hm Hr. apply solo_recoveries; [done|]. intros m' r' [(-> & <- & _)|[_ Hx]]%list_lookup_insert_Some Hu; [exact (s_recovery _ _ H _ _ Hm Hr)|exact (s_recovery _ _ H _ _ Hx Hu)].
Qed.
Lemma solo_recover given aborted s : sound None s → sound None (recover given aborted s).
Proof.
  intros H. assert (HR : ∀ r, sound None (return_ r s)) by (intros r; apply solo_recoveries; [done|exact (s_recovery _ _ H)]).
  unfold recover. destruct aborted; [done|]. destruct (_ || _); [done|].
  destruct (t_recovering s) as [m|] eqn:ER; [apply solo_recoveries; [done|]; intros ?? Hx Hu; rewrite <- ER; exact (s_recovery _ _ H _ _ Hx Hu)|].
  assert (HN : ∀ rs next, rs = t_recoveries s → ∀ m r, (rs ++ [next]) !! m = Some r → unfinished r = true → Some (length (t_recoveries s)) = Some m).
  { intros rs next -> m r [[_ Hx]|[-> _]]%lookup_snoc_Some Hu; [|done]. by rewrite (s_recovery _ _ H m r Hx Hu) in ER. }
  destruct (t_current s ≫= _) as [e|] eqn:Ee.
  - destruct (healthy e); [done|]. apply solo_recoveries; [apply solo_remove, solo_set_life; [done|exact (s_closed _ _ H)]|]. apply HN. unfold remove. cbn [set_life t_current]. destruct (t_current s); [|done]. unfold failed. by case_bool_decide.
  - destruct (negb _); [done|]. apply solo_recoveries; [done|by apply HN].
Qed.
Lemma solo_step ev s : sound None s → sound None (step ev s).
Proof.
  intros H. destruct ev; cbn [step]; try done.
  - by apply solo_start_job.
  - destruct (t_job s) as [[[| | | |] state a]|] eqn:EJ; try done. destruct r; [destruct a|]; by apply solo_stage.
  - destruct (t_job s) as [[[| | | |] state a]|] eqn:EJ; try done. destruct r; [destruct a|]; apply solo_stage; try done.
    apply solo_set_life; [done|]. apply (s_closed _ _ H).
  - destruct (t_job s) as [[[| | | |] state a]|] eqn:EJ; try done. destruct r; [by eapply solo_create|by apply solo_stage].
  - by apply solo_end.
  - by apply solo_abort_job.
  - by apply solo_ready.
  - by apply solo_torrent_error.
  - by apply solo_destroy.
  - by apply solo_torrent_closed.
  - by apply solo_timed_out.
  - destruct (t_current s); [by apply solo_failed|done].
  - by apply solo_cancel.
  - by apply solo_close.
  - by apply solo_clear.
  - apply solo_set_life; [done|]. apply (s_closed _ _ H).
  - by apply solo_recover.
  - destruct (t_recoveries s !! m) as [[n| |]|] eqn:Em; try done. destruct (t_entries s !! n) as [x|]; [|done]. destruct (n_gone x); [|done]. by eapply solo_set_recovery.
  - destruct (t_recoveries s !! m) as [[n| |]|] eqn:Em; try done. by eapply solo_set_recovery.
  - destruct (t_recoveries s !! m) as [[n| |r]|] eqn:Em; try done. case_bool_decide as ER; [|done]. apply solo_recoveries; [done|].
    intros m' r' Hr Hu. pose proof (s_recovery _ _ H m' r' Hr Hu) as E. rewrite ER in E. injection E as ->. rewrite Em in Hr. by injection Hr as <-.
  - destruct (t_calls s !! k) as [[]|]; try done. apply solo_recoveries; [done|exact (s_recovery _ _ H)].
  - destruct (t_calls s !! k) as [[m|]|]; try done. destruct (t_recoveries s !! m) as [[| |r]|]; try done. apply solo_recoveries; [done|exact (s_recovery _ _ H)].
Qed.
Lemma solo_run events s : sound None s → sound None (run events s).
Proof. revert s. induction events as [|e events IH]; intros s H; [done|]. by apply IH, solo_step. Qed.
Lemma solo_new : sound None new_window.
Proof. split; try done. cbn. by intros e ?%elem_of_nil. Qed.

(** C35: However jobs, failures, timeouts, cancellations, recoveries and closing interleave: at
    most one torrent of an infohash is not destroyed, that of the entry in the map, and
    none once the transport has closed; entries that are not in the map have an error
    and neither probe nor monitor webseeds.  An opening that has not settled has its timer,
    listens to the signal of the job that awaits it, and that signal is not aborted; a settled
    one has neither, succeeded only with a ready torrent and failed only with an error
    on its entry.  Recoveries run one at a time and leave a healthy entry alone, and
    cancellations are not reported. *)
Theorem one_torrent events :
  let s := run events new_window in
  (∀ n x, t_entries s !! n = Some x → n_destroyed x = false → t_current s = Some n ∧ t_closed s = false) ∧
  (∀ n x, t_entries s !! n = Some x → t_current s ≠ Some n → n_seedTimer x = false ∧ n_seedsAborted x = true ∧ n_error x ≠ None) ∧
  (∀ n x, t_entries s !! n = Some x →
     match n_settled x with
     | None => n_timer x = true ∧ n_listens x = true ∧ n_gone x = false ∧ ∃ state, t_job s = Some (Job (Opening n) state None)
     | Some r => n_timer x = false ∧ n_listens x = false ∧ match r with Ok _ => n_ready x = true | Throw _ => n_error x ≠ None end
     end) ∧
  (∀ n x, t_entries s !! n = Some x → n_rescans x ≤ 1) ∧
  (∀ m m' r r', t_recoveries s !! m = Some r → t_recoveries s !! m' = Some r' → unfinished r = true → unfinished r' = true → m = m') ∧
  (∀ n x given aborted, t_current s = Some n → t_entries s !! n = Some x → healthy x = true →
     t_entries (recover given aborted s) = t_entries s ∧ t_current (recover given aborted s) = Some n) ∧
  (∀ e, e ∈ t_reported s → exn_code e ≠ Some "CANCELLED"%string).
Proof.
  intros s. assert (H : sound None s) by apply solo_run, solo_new. split_and!.
  - intros n x Hx Hd. destruct (s_global _ _ H n x Hx ltac:(done)) as (HD & _). destruct (decide (t_current s = Some n)) as [E|E]; [|destruct (HD E); congruence].
    split; [done|]. destruct (t_closed s) eqn:EC; [|done]. by rewrite (s_closed _ _ H EC) in E.
  - intros n x Hx Hc. destruct (s_global _ _ H n x Hx ltac:(done)) as (HD & _). by destruct (HD Hc) as (_ & ? & ? & ?).
  - intros n x Hx. destruct (s_global _ _ H n x Hx ltac:(done)) as (_ & HT & HJ). pose proof (s_local _ _ H n x Hx) as [ET EL HG HR _].
    destruct (n_settled x) as [r|] eqn:Es; rewrite ET, EL.
    + split_and!; [done|done|]. destruct r as [[]|e]; [by apply HR|by eapply HT].
    + split_and!; [done|done| |by apply HJ]. destruct (n_gone x) eqn:EG; [|done]. by destruct (HG eq_refl).
  - intros n x Hx. rewrite (l_rescans _ (s_local _ _ H n x Hx)). destruct (_ && _); lia.
  - intros m m' r r' Hr Hr' Hu Hu'. pose proof (s_recovery _ _ H m r Hr Hu). pose proof (s_recovery _ _ H m' r' Hr' Hu'). congruence.
  - intros n x given aborted EC Ex Eh. unfold recover. destruct aborted; [done|]. destruct (_ || _); [done|]. destruct (t_recovering s); [done|].
    rewrite EC. cbn [mbind option_bind]. rewrite Ex, Eh. done.
  - apply (s_reported _ _ H).
Qed.

(** A torrent opens, fails and is recovered; the second one is not ready in time. *)
Definition example_error : exn := Exn (Some "TRANSPORT_ERROR"%string) "Invalid piece".
Definition example_events : list event :=
  [EOpen false; EData (Ok tt); EVerified (Ok tt); EClient (Ok tt) None; EReady 0; EEnd; EError 0 example_error;
   ERecover false None; ERecover false None; EGone 0; ERemoved 0;
   EOpen false; EData (Ok tt); EVerified (Ok tt); EClient (Ok tt) None; ETimer 1; EEnd; EOpened 0 (Throw TIMEOUT); EReturn 0; EForget 0].
Lemma one_torrent_witness :
  let s := run example_events new_window in
  t_current s = None ∧ t_reported s = [example_error; TIMEOUT] ∧ t_calls s = [Returned (Throw TIMEOUT); Waits 0] ∧
  (n_settled <$> t_entries s = [Some (Ok tt); Some (Throw TIMEOUT)]) ∧ ∀ n x, t_entries s !! n = Some x → n_destroyed x = true.
Proof.
  intros s. do 4 (split; [by vm_compute|]). intros n x Hx. destruct (n_destroyed x) eqn:E; [done|].
  destruct (one_torrent example_events) as (H & _). destruct (H n x Hx E) as [EC _].
  assert (EN : t_current (run example_events new_window) = None) by (by vm_compute). congruence.
Defined.
