(* ===== verification/WindowProbes.v ===== *)
(** * Probing webseeds (src/src/disk/web/torrent-window.js: webseeds, setSources,
    refreshWebseeds and their use in add)

    Before a webseed is offered to a torrent (WindowSeeds.v) a HEAD request tests it.  A
    round of probes starts with [add] and again whenever the sources are replaced, which
    aborts the round before.  Without a webseed that answers, peers are asked at once.

    One entry is modelled, over its state in WindowSeeds.v.  Replies, timers and the
    transport are events. *)
From S2P Require Import Prelude JsValue NetworkSources WindowSeeds.
#[local] Open Scope Z_scope.

(** ** Replies *)
(** [length]: the header Content-Length as a number, [Some None] when it is not one. *)
Record reply := Reply { y_status : Z; y_ok : bool; y_length : option (option Z) }.
#[export] Instance reply_eq_dec : EqDecision reply.
Proof. solve_decision. Defined.
Definition acceptable (size : Z) (y : reply) : bool :=
  bool_decide (y_status y ∈ [400; 405; 501]) ||
  (y_ok y && match y_length y with None => true | Some n => bool_decide (n = Some size) end).

(** ** State *)
Record probe := Probe { b_url : string; b_stopped : bool; b_result : option (option reply) }.  (** [Some None]: it failed *)
Record round := Round {
  r_roots : list string;               (** [sources.webseeds] *)
  r_probes : list probe;
  r_aborted : bool;                    (** the signal given to [webseeds] *)
  r_first : option (option string)     (** how [Promise.any] settled; [Some None]: [null] *)
}.
Record probing := Probing {
  p_roots : list string; p_version : Z;  (** [this.sources] and how often it was replaced *)
  p_opened : Z; p_openedRoots : list string;  (** [sources] of [add] *)
  p_closed : bool; p_cancelled : bool;  (** [cancel()] was called, so [epoch] differs *)
  p_rounds : list round;
  p_controller : nat;                  (** the round of [seedController] *)
  p_candidates : list string;          (** [candidates] of [add], until there is an entry *)
  p_shared : bool;                     (** [entry.seedCandidates] is still that array *)
  p_entry : option entry;
  p_destroyed : bool
}.
Definition set_roots (roots : list string) (s : probing) : probing :=
  Probing roots (p_version s + 1) (p_opened s) (p_openedRoots s) (p_closed s) (p_cancelled s) (p_rounds s) (p_controller s) (p_candidates s) (p_shared s) (p_entry s) (p_destroyed s).
Definition set_rounds (x : list round) (controller : nat) (s : probing) : probing :=
  Probing (p_roots s) (p_version s) (p_opened s) (p_openedRoots s) (p_closed s) (p_cancelled s) x controller (p_candidates s) (p_shared s) (p_entry s) (p_destroyed s).
Definition set_entry (candidates : list string) (shared : bool) (x : option entry) (s : probing) : probing :=
  Probing (p_roots s) (p_version s) (p_opened s) (p_openedRoots s) (p_closed s) (p_cancelled s) (p_rounds s) (p_controller s) candidates shared x (p_destroyed s).
Definition set_end (closed cancelled destroyed : bool) (s : probing) : probing :=
  Probing (p_roots s) (p_version s) (p_opened s) (p_openedRoots s) closed cancelled (p_rounds s) (p_controller s) (p_candidates s) (p_shared s) (p_entry s) destroyed.

Section probes.
Context (parse_url : string → option address) (infoHash filename : string) (size : Z).

Definition seed_url (root : string) : string := root +:+ "/" +:+ infoHash +:+ "/" +:+ filename.
(** [webseeds] up to its await. *)
Definition new_round (roots : list string) : round :=
  Round roots ((λ root, Probe (seed_url root) false None) <$> roots) false (match roots with [] => Some None | _ => None end).
Definition stop_probe (p : probe) : probe := Probe (b_url p) true (b_result p).
Definition abort_round (r : round) : round := Round (r_roots r) (stop_probe <$> r_probes r) true (r_first r).
Definition abort_seeds (s : probing) : probing := set_rounds (alter abort_round (p_controller s) (p_rounds s)) (p_controller s) s.
(** [refreshWebseeds]. *)
Definition refreshWebseeds (s : probing) : probing :=
  let s := abort_seeds s in
  set_rounds (p_rounds s ++ [new_round (p_roots s)]) (length (p_rounds s)) s.
Definition is_ready (s : probing) : bool := match p_entry s with Some e => e_ready e | None => false end.
Definition setSources (value : jsval) (s : probing) : probing :=
  if p_closed s then s
  else match torrentSources parse_url value with
       | Throw _ => s
       | Ok sources =>
           let s := set_roots (s_webseeds sources) s in
           if is_ready s then refreshWebseeds s else s
       end.

(** ** The callback [onAvailable] *)
Definition with_entry (f : entry → entry) (s : probing) : probing := set_entry (p_candidates s) (p_shared s) (f <$> p_entry s) s.
Definition offered (k : nat) (url : string) (now : Z) (aborted : bool) (s : probing) : probing :=
  let live := negb (p_closed s) && negb (p_destroyed s) && negb aborted in
  match k with
  | O =>
      match p_entry s with
      | None => set_entry (p_candidates s ++ [url]) (p_shared s) None s
      | Some _ =>
          let s := if p_shared s then with_entry (λ e, set_candidates (e_candidates e ++ [url]) e) s else s in
          if live then with_entry (offerWebseed url now) s else s
      end
  | S _ => if live then with_entry (offerWebseed url now) s else s
  end.
(** [Promise.any] after probe [i] has ended. *)
Definition settle_first (r : round) : option (option string) :=
  match r_first r with
  | Some x => Some x
  | None => if forallb (λ p, bool_decide (b_result p = Some None)) (r_probes r) then Some None else None
  end.
Definition end_in_round (i : nat) (y : option reply) (r : round) : round :=
  let r := Round (r_roots r) (alter (λ p, Probe (b_url p) (b_stopped p) (Some y)) i (r_probes r)) (r_aborted r) (r_first r) in
  Round (r_roots r) (r_probes r) (r_aborted r)
    (match y, r_first r with Some _, None => Some (b_url <$> r_probes r !! i) | _, _ => settle_first r end).
Definition end_probe (k i : nat) (y : option reply) (s : probing) : probing :=
  set_rounds (alter (end_in_round i y) k (p_rounds s)) (p_controller s) s.
(** A probe has an answer: a reply, or its request failed. *)
Definition replied (k i : nat) (y : option reply) (now : Z) (s : probing) : probing :=
  match p_rounds s !! k with
  | Some r =>
      match r_probes r !! i with
      | Some (Probe url stopped None) =>
          match y with
          | Some y =>
              if stopped || negb (acceptable size y) then end_probe k i None s
              else end_probe k i (Some y) (offered k url now (r_aborted r) s)
          | None => end_probe k i None s
          end
      | _ => s
      end
  | None => s
  end.
(** [add] creates the torrent. *)
Definition create (now : Z) (s : probing) : probing :=
  match p_entry s with
  | None =>
      let e := new_entry (p_candidates s) (match p_openedRoots s with [] => false | _ => true end) now in
      set_entry (p_candidates s) true (Some match p_candidates s with url :: _ => offerWebseed url now e | [] => e end) s
  | Some _ => s
  end.
(** The torrent is ready. *)
Definition now_ready (now : Z) (s : probing) : probing :=
  match p_entry s with
  | Some e =>
      if e_ready e || p_destroyed s then s
      else if p_closed s || p_cancelled s then set_end (p_closed s) (p_cancelled s) true s    (** the entry is removed *)
      else
        let s := with_entry (ready now) s in
        if bool_decide (p_version s = p_opened s) then s else refreshWebseeds s
  | None => s
  end.
(** The first round has ended: no webseed, so peers are asked. *)
Definition first_over (s : probing) : probing :=
  match p_rounds s with
  | r :: _ => match r_first r with
              | Some None => if r_aborted r || p_destroyed s then s else with_entry enablePeerBackup s
              | _ => s
              end
  | [] => s
  end.
Definition start (value : jsval) : result probing :=
  sources ← torrentSources parse_url value;
  Ok (Probing (s_webseeds sources) 0 0 (s_webseeds sources) false false [new_round (s_webseeds sources)] 0 [] true None false).

Inductive event :=
| EReply (k i : nat) (y : option reply) (now : Z)
| ETimer (k i : nat)                   (** a probe has taken three seconds *)
| ECreate (now : Z) | EReady (now : Z)
| EFirst                               (** the result of the first round *)
| ESources (value : jsval)
| EAbort                               (** [seedController] is aborted: opening cancelled, torrent closed or failed *)
| ECancel | EClose | EDestroyed
| ESeeds (e : WindowSeeds.event).      (** a piece, a check, the state of the torrent *)
Definition stop_all (s : probing) : probing :=
  set_rounds ((λ r, Round (r_roots r) (stop_probe <$> r_probes r) (r_aborted r) (r_first r)) <$> p_rounds s) (p_controller s) s.
Definition step (ev : event) (s : probing) : probing :=
  match ev with
  | EReply k i y now => replied k i y now s
  | ETimer k i => set_rounds (alter (λ r, Round (r_roots r) (alter stop_probe i (r_probes r)) (r_aborted r) (r_first r)) k (p_rounds s)) (p_controller s) s
  | ECreate now => create now s
  | EReady now => now_ready now s
  | EFirst => match p_entry s with Some _ => first_over s | None => s end
  | ESources value => setSources value s
  | EAbort => abort_seeds s
  | ECancel => abort_seeds (stop_all (set_end (p_closed s) true (p_destroyed s) s))
  | EClose => abort_seeds (stop_all (set_end true true (p_destroyed s) s))
  | EDestroyed => set_end (p_closed s) (p_cancelled s) true s
  | ESeeds ev =>
      match p_entry s, ev with
      | Some e, (WindowSeeds.EVerified _ | WindowSeeds.EStatus _ _ _ | WindowSeeds.ECheck _) =>
          let e' := WindowSeeds.step ev e in
          set_entry (p_candidates s) (p_shared s && bool_decide (e_active e' = e_active e)) (Some e') s
      | _, _ => s
      end
  end.
Definition run (l : list event) (s : probing) : probing := foldl (λ s e, step e s) s l.
End probes.
