(* ===== verification/WindowProbesFacts.v ===== *)
(** * Probing webseeds: only sources that answered are used *)
From S2P Require Import Prelude JsValue NetworkSources NetworkFacts WindowSeeds WindowProbes.
#[local] Open Scope Z_scope.

Lemma append_inj_tail t s1 s2 : s1 +:+ t = s2 +:+ t → s1 = s2.
Proof.
  assert (HC : ∀ c s, String c s +:+ t = String c (s +:+ t)) by done.
  assert (HL : ∀ s, String.length (s +:+ t) = (String.length s + String.length t)%nat) by (induction s as [|c s IH]; [done|]; rewrite HC; cbn; by rewrite IH).
  revert s2. induction s1 as [|c s1 IH]; intros [|d s2] E; [done| | |]; pose proof (f_equal String.length E) as EL; rewrite !HL in EL; cbn in EL; [lia|lia|].
  rewrite !HC in E. injection E as -> E. f_equal. by apply IH.
Qed.

Section facts.
Context (parse_url : string → option address) (infoHash filename : string) (size : Z).

(** A probe of [url] was answered acceptably. *)
Definition reached (rounds : list round) (url : string) : Prop :=
  ∃ k r i p y, rounds !! k = Some r ∧ r_probes r !! i = Some p ∧ b_url p = url ∧ b_result p = Some (Some y).
Definition web_secure (roots : list string) : Prop := NoDup roots ∧ ∀ root, root ∈ roots → secure parse_url "https:" "http:" root.
Record round_ok (r : round) : Prop := {
  o_roots : web_secure (r_roots r);
  o_urls : b_url <$> r_probes r = seed_url infoHash filename <$> r_roots r;
  o_accepted : ∀ i p y, r_probes r !! i = Some p → b_result p = Some (Some y) → acceptable size y = true;
  o_aborted : r_aborted r = true → ∀ i p, r_probes r !! i = Some p → b_stopped p = true;
  o_none : r_first r = Some None → ∀ i p, r_probes r !! i = Some p → b_result p = Some None;
  o_pending : r_first r = None → ∃ i p, r_probes r !! i = Some p ∧ b_result p = None;
  o_unreached : r_first r = None → ∀ i p y, r_probes r !! i = Some p → b_result p ≠ Some (Some y);
  o_first : ∀ url, r_first r = Some (Some url) → ∃ i p y, r_probes r !! i = Some p ∧ b_url p = url ∧ b_result p = Some (Some y)
}.
Definition stopped (r : round) : Prop := ∀ i p, r_probes r !! i = Some p → b_stopped p = true.
Record probed (s : probing) : Prop := {
  pr_rounds : ∀ k r, p_rounds s !! k = Some r → round_ok r;
  pr_last : length (p_rounds s) = S (p_controller s);
  pr_aborted : ∀ k r, p_rounds s !! k = Some r → k ≠ p_controller s → r_aborted r = true;
  pr_closed : p_closed s = true → ∀ k r, p_rounds s !! k = Some r → stopped r;
  pr_roots : web_secure (p_roots s);
  pr_entry : ∀ e, p_entry s = Some e → p_destroyed s = false → sound e ∧ ∀ url, url ∈ e_candidates e → reached (p_rounds s) url;
  pr_early : p_entry s = None → p_controller s = 0%nat ∧ NoDup (p_candidates s) ∧ ∀ url, url ∈ p_candidates s → reached (p_rounds s) url
}.

(** *** Rounds *)
Lemma new_round_ok roots : web_secure roots → round_ok (new_round infoHash filename roots).
Proof using Type.
  intros H. assert (HP : ∀ i p, r_probes (new_round infoHash filename roots) !! i = Some p → b_result p = None) by by intros i p (root & -> & _)%list_lookup_fmap_Some.
  split; cbn [new_round r_roots r_first r_aborted].
  - done.
  - cbn. rewrite <- list_fmap_compose. done.
  - intros i p y Hp. by rewrite (HP i p Hp).
  - done.
  - destruct roots; [by intros _ i p|done].
  - destruct roots as [|root roots]; [done|]. intros _. by exists 0%nat, (Probe (seed_url infoHash filename root) false None).
  - intros _ i p y Hp. by rewrite (HP i p Hp).
  - by destruct roots.
Qed.
Lemma distinct_probes r i j p q : round_ok r → r_probes r !! i = Some p → r_probes r !! j = Some q → b_url p = b_url q → i = j.
Proof using Type.
  intros H Hp Hq E. destruct (o_roots _ H) as [HN _].
  assert (HN' : NoDup (b_url <$> r_probes r)).
  { rewrite (o_urls _ H). apply NoDup_fmap_2; [|done]. intros x y. unfold seed_url. apply append_inj_tail. }
  eapply (NoDup_lookup _ i j (b_url p) HN'); rewrite list_lookup_fmap; [by rewrite Hp|]. rewrite Hq. cbn. by rewrite E.
Qed.
(** Stopping probes. *)
Lemma stop_round_ok f aborted r :
  round_ok r → (∀ p, b_url (f p) = b_url p ∧ b_result (f p) = b_result p ∧ (b_stopped p = true → b_stopped (f p) = true)) →
  (aborted = true → r_aborted r = true ∨ ∀ p, b_stopped (f p) = true) →
  round_ok (Round (r_roots r) (f <$> r_probes r) aborted (r_first r)).
Proof using Type.
  intros [] Hf Ha. split; cbn [r_roots r_probes r_aborted r_first]; [done| | | | | | |].
  - rewrite <- list_fmap_compose, <- o_urls0. apply list_fmap_ext. intros _ p _. apply Hf.
  - intros i p y (q & -> & Hq)%list_lookup_fmap_Some. rewrite (proj1 (proj2 (Hf q))). by apply (o_accepted0 i).
  - intros E i p (q & -> & Hq)%list_lookup_fmap_Some. destruct (Ha E) as [Er|Hs]; [|by apply Hs]. apply Hf. by apply (o_aborted0 Er i).
  - intros E i p (q & -> & Hq)%list_lookup_fmap_Some. rewrite (proj1 (proj2 (Hf q))). by apply (o_none0 E i).
  - intros E. destruct (o_pending0 E) as (i & p & Hp & Hr). exists i, (f p). split; [by apply list_lookup_fmap_Some_2|]. by rewrite (proj1 (proj2 (Hf p))).
  - intros E i p y (q & -> & Hq)%list_lookup_fmap_Some. rewrite (proj1 (proj2 (Hf q))). by apply (o_unreached0 E i).
  - intros url E. destruct (o_first0 url E) as (i & p & y & Hp & Hu & Hr). exists i, (f p), y. destruct (Hf p) as (-> & -> & _). by split; [apply list_lookup_fmap_Some_2|].
Qed.
Lemma abort_round_ok r : round_ok r → round_ok (abort_round r).
Proof using Type. intros H. apply stop_round_ok; [done|by intros p|by intros _; right]. Qed.
Lemma stop_one_ok i r : round_ok r → round_ok (Round (r_roots r) (alter stop_probe i (r_probes r)) (r_aborted r) (r_first r)).
Proof using Type.
  intros []. assert (HL : ∀ j p, alter stop_probe i (r_probes r) !! j = Some p → ∃ q, r_probes r !! j = Some q ∧ (p = q ∨ p = stop_probe q)).
  { intros j p. destruct (decide (j = i)) as [->|Hj]; [rewrite list_lookup_alter_eq|rewrite list_lookup_alter_ne by done; eauto].
    destruct (r_probes r !! i) as [q|]; [|done]. cbn. intros [= <-]. eauto. }
  assert (HR : ∀ j q, r_probes r !! j = Some q → ∃ p, alter stop_probe i (r_probes r) !! j = Some p ∧ b_url p = b_url q ∧ b_result p = b_result q).
  { intros j q Hq. destruct (decide (j = i)) as [->|Hj]; [rewrite list_lookup_alter_eq, Hq; cbn; eauto|rewrite list_lookup_alter_ne by done; eauto]. }
  split; cbn [r_roots r_probes r_aborted r_first]; [done| | | | | | |].
  - rewrite <- o_urls0. clear. induction (r_probes r) as [|p l IH] in i |- *; [done|]. destruct i; cbn; [done|]. f_equal. apply IH.
  - intros j p y (q & Hq & [-> | ->])%HL; [by apply (o_accepted0 j)|by apply (o_accepted0 j q)].
  - intros E j p (q & Hq & [-> | ->])%HL; [by apply (o_aborted0 E j)|done].
  - intros E j p (q & Hq & [-> | ->])%HL; [by apply (o_none0 E j)|by apply (o_none0 E j q)].
  - intros E. destruct (o_pending0 E) as (j & q & Hq & Hr). destruct (HR j q Hq) as (p & Hp & _ & Er). exists j, p. by rewrite Er.
  - intros E j p y (q & Hq & [-> | ->])%HL; [by apply (o_unreached0 E j)|by apply (o_unreached0 E j q)].
  - intros url E. destruct (o_first0 url E) as (j & q & y & Hq & Hu & Hr). destruct (HR j q Hq) as (p & Hp & Eu & Er). exists j, p, y. by rewrite Eu, Er.
Qed.
(** A probe ends. *)
Lemma end_probe_ok i y r url b :
  round_ok r → r_probes r !! i = Some (Probe url b None) → (∀ v, y = Some v → acceptable size v = true) → round_ok (end_in_round i y r).
Proof using Type.
  intros H Hi Hy. pose proof H as []. set (f := λ p, Probe (b_url p) (b_stopped p) (Some y)).
  assert (Ei : alter f i (r_probes r) !! i = Some (Probe url b (Some y))) by (by rewrite list_lookup_alter_eq, Hi).
  assert (HL : ∀ j p, alter f i (r_probes r) !! j = Some p → (j = i ∧ p = Probe url b (Some y)) ∨ (j ≠ i ∧ r_probes r !! j = Some p)).
  { intros j p. destruct (decide (j = i)) as [->|Hj]; [rewrite Ei; intros [= <-]; by left|rewrite list_lookup_alter_ne by done; by right]. }
  assert (HN : r_first r = Some None → False) by (intros E; specialize (o_none0 E i _ Hi); done).
  split; unfold end_in_round; cbn [r_roots r_probes r_aborted r_first]; fold f; [done| | | | | | |].
  - rewrite <- o_urls0. clear -f. induction (r_probes r) as [|p l IH] in i |- *; [done|]. destruct i; cbn; [done|]. f_equal. apply IH.
  - intros j p v [[-> ->]|[_ Hp]]%HL; [intros [= E]; by apply Hy|by apply (o_accepted0 j)].
  - intros E j p [[-> ->]|[_ Hp]]%HL; [exact (o_aborted0 E i _ Hi)|by apply (o_aborted0 E j)].
  - intros E j p Hp. destruct (r_first r) as [[u|]|] eqn:EF; [by destruct y|done|]. destruct y as [v|]; [by rewrite Ei in E|].
    unfold settle_first in E. cbn in E. destruct (forallb _ _) eqn:EA; [|done]. rewrite forallb_forall in EA.
    eapply bool_decide_eq_true, EA. apply list_elem_of_In. by eapply list_elem_of_lookup_2.
  - intros E. destruct (r_first r) as [[u|]|] eqn:EF; [by destruct y|done|]. destruct y as [v|]; [done|].
    unfold settle_first in E. cbn in E. destruct (forallb _ _) eqn:EA; [done|].
    assert (EX : ∃ p, p ∈ alter f i (r_probes r) ∧ b_result p ≠ Some None).
    { clear -EA. induction (alter f i (r_probes r)) as [|p l IH]; [done|]. cbn in EA. apply andb_false_iff in EA as [EA|EA].
      - apply bool_decide_eq_false in EA. exists p. split; [by left|done].
      - destruct (IH EA) as (q & Hq & ?). exists q. split; [by right|done]. }
    destruct EX as (p & [j Hj]%list_elem_of_lookup & Hne). exists j, p. split; [done|]. destruct (b_result p) as [[v|]|] eqn:Er; [|done|done].
    apply HL in Hj as [[-> ->]|[_ Hj]]; [by cbn in Er|]. by destruct (o_unreached0 eq_refl j p v Hj).
  - intros E j p v Hp. destruct (r_first r) as [[u|]|] eqn:EF; [by destruct y|done|]. destruct y as [w|]; [done|].
    apply HL in Hp as [[-> ->]|[_ Hp]]; [done|]. by apply (o_unreached0 eq_refl j).
  - intros u E. destruct (r_first r) as [[u'|]|] eqn:EF; [|done|].
    + assert (E' : Some (Some u') = Some (Some u)) by (by destruct y). injection E' as ->. destruct (o_first0 u eq_refl) as (j & p & v & Hp & Hu & Hr).
      exists j, p, v. split; [|done]. rewrite list_lookup_alter_ne; [done|]. intros <-. rewrite Hi in Hp. by injection Hp as <-.
    + destruct y as [v|].
      * rewrite Ei in E. injection E as <-. by exists i, (Probe url b (Some (Some v))), v.
      * unfold settle_first in E. cbn in E. by destruct (forallb _ _).
Qed.

(** *** What was reached stays so *)
Definition keeps (r r' : round) : Prop :=
  ∀ i p y, r_probes r !! i = Some p → b_result p = Some (Some y) → ∃ q, r_probes r' !! i = Some q ∧ b_url q = b_url p ∧ b_result q = Some (Some y).
Lemma reached_alter f k rounds url : (∀ r, rounds !! k = Some r → keeps r (f r)) → reached rounds url → reached (alter f k rounds) url.
Proof using Type.
  intros Hf (k' & r & i & p & y & Hr & Hp & <- & Hy). destruct (decide (k' = k)) as [->|Hk].
  - destruct (Hf r Hr i p y Hp Hy) as (q & Hq & <- & ?). exists k, (f r), i, q, y. by rewrite list_lookup_alter_eq, Hr.
  - exists k', r, i, p, y. by rewrite list_lookup_alter_ne.
Qed.
Lemma reached_fmap f rounds url : (∀ r, keeps r (f r)) → reached rounds url → reached (f <$> rounds) url.
Proof using Type.
  intros Hf (k & r & i & p & y & Hr & Hp & <- & Hy). destruct (Hf r i p y Hp Hy) as (q & Hq & <- & ?). exists k, (f r), i, q, y.
  by rewrite list_lookup_fmap, Hr.
Qed.
Lemma reached_snoc rounds r url : reached rounds url → reached (rounds ++ [r]) url.
Proof using Type. intros (k & x & i & p & y & Hr & ?). exists k, x, i, p, y. split; [by apply lookup_app_l_Some|done]. Qed.
Lemma keeps_stop g aborted r : (∀ p, b_url (g p) = b_url p ∧ b_result (g p) = b_result p) → keeps r (Round (r_roots r) (g <$> r_probes r) aborted (r_first r)).
Proof using Type. intros Hg i p y Hp Hy. exists (g p). destruct (Hg p) as [-> ->]. by split; [apply list_lookup_fmap_Some_2|]. Qed.
Lemma keeps_stop_one i r : keeps r (Round (r_roots r) (alter stop_probe i (r_probes r)) (r_aborted r) (r_first r)).
Proof using Type.
  intros j p y Hp Hy. cbn. destruct (decide (j = i)) as [->|Hj]; [rewrite list_lookup_alter_eq, Hp; by exists (stop_probe p)|rewrite list_lookup_alter_ne by done; by exists p].
Qed.
Lemma keeps_end i y r url b : r_probes r !! i = Some (Probe url b None) → keeps r (end_in_round i y r).
Proof using Type.
  intros Hi j p v Hp Hv. cbn. rewrite list_lookup_alter_ne; [by exists p|]. intros <-. rewrite Hi in Hp. by injection Hp as <-.
Qed.

(** *** Steps *)
(** The rounds change, and what was reached stays so. *)
Lemma probed_rounds f s :
  probed s → (∀ k r, p_rounds s !! k = Some r → round_ok r → round_ok (f k r) ∧ keeps r (f k r) ∧ (r_aborted r = true → r_aborted (f k r) = true) ∧ (stopped r → stopped (f k r))) →
  probed (set_rounds (imap f (p_rounds s)) (p_controller s) s).
Proof using Type.
  intros [] Hf. assert (HR : ∀ k r, imap f (p_rounds s) !! k = Some r → ∃ r0, p_rounds s !! k = Some r0 ∧ r = f k r0)
    by (intros k r; rewrite list_lookup_imap; destruct (p_rounds s !! k) as [r0|]; [|done]; cbn; intros [= <-]; eauto).
  assert (HM : ∀ url, reached (p_rounds s) url → reached (imap f (p_rounds s)) url).
  { intros url (k & r & j & p & y & Hr & Hp & <- & Hy). destruct (Hf k r Hr (pr_rounds0 k r Hr)) as (_ & HK & _). destruct (HK j p y Hp Hy) as (q & Hq & <- & ?).
    exists k, (f k r), j, q, y. by rewrite list_lookup_imap, Hr. }
  split; cbn [set_rounds p_rounds p_controller p_closed p_roots p_entry p_destroyed p_candidates].
  - intros k r (r0 & Hr & ->)%HR. by apply Hf; [|eapply pr_rounds0].
  - by rewrite length_imap.
  - intros k r (r0 & Hr & ->)%HR Hk. apply (Hf k r0 Hr); [by eapply pr_rounds0|by eapply pr_aborted0].
  - intros HC k r (r0 & Hr & ->)%HR. apply (Hf k r0 Hr); [by eapply pr_rounds0|by eapply pr_closed0].
  - done.
  - intros e He Hd. destruct (pr_entry0 e He Hd) as [HS HC]. split; [done|]. intros url Hu. by apply HM, HC.
  - intros He. destruct (pr_early0 He) as (HC & HN & HU). split_and!; [done|done|]. intros url Hu. by apply HM, HU.
Qed.
Lemma alter_imap {A} (f : A → A) k l : alter f k l = imap (λ i x, if decide (i = k) then f x else x) l.
Proof using Type.
  apply list_eq. intros i. rewrite list_lookup_imap. destruct (decide (i = k)) as [->|Hi].
  - by rewrite list_lookup_alter_eq.
  - rewrite list_lookup_alter_ne by done. by destruct (l !! i).
Qed.
Lemma probed_alter f k s :
  probed s → (∀ r, p_rounds s !! k = Some r → round_ok r → round_ok (f r) ∧ keeps r (f r) ∧ (r_aborted r = true → r_aborted (f r) = true) ∧ (stopped r → stopped (f r))) →
  probed (set_rounds (alter f k (p_rounds s)) (p_controller s) s).
Proof using Type.
  intros H Hf. rewrite alter_imap. apply probed_rounds; [done|]. intros j r Hr Hok. destruct (decide (j = k)) as [->|]; [by apply Hf|].
  split_and!; [done|by intros i p y ??; exists p|done|done].
Qed.
Lemma abort_keeps r : round_ok r → round_ok (abort_round r) ∧ keeps r (abort_round r) ∧ (r_aborted r = true → r_aborted (abort_round r) = true) ∧ (stopped r → stopped (abort_round r)).
Proof using Type.
  intros H. split_and!; [by apply abort_round_ok|by apply keeps_stop|done|]. by intros _ i p (q & -> & _)%list_lookup_fmap_Some.
Qed.
Lemma probed_abort s : probed s → probed (abort_seeds s).
Proof using Type. intros H. apply probed_alter; [done|]. intros r _. apply abort_keeps. Qed.
Lemma probed_stop_all s : probed s → probed (stop_all s).
Proof using Type.
  intros H. unfold stop_all. set (g := λ r, Round (r_roots r) (stop_probe <$> r_probes r) (r_aborted r) (r_first r)).
  replace (g <$> p_rounds s) with (imap (λ _, g) (p_rounds s)) by (apply list_eq; intros i; by rewrite list_lookup_imap, list_lookup_fmap). apply probed_rounds; [done|].
  intros _ r _ Hr. split_and!; [apply stop_round_ok; [done|by intros p|by left]|by apply keeps_stop|done|]. by intros _ i p (q & -> & _)%list_lookup_fmap_Some.
Qed.
Lemma stop_all_stopped s k r : p_rounds (stop_all s) !! k = Some r → stopped r.
Proof using Type. intros (r0 & -> & _)%list_lookup_fmap_Some i p (q & -> & _)%list_lookup_fmap_Some. done. Qed.
Lemma probed_end closed cancelled destroyed s :
  probed s → (closed = true → ∀ k r, p_rounds s !! k = Some r → stopped r) → (p_destroyed s = true → destroyed = true) → probed (set_end closed cancelled destroyed s).
Proof using Type.
  intros [] HC HD. split; try done. intros e He Hd. apply pr_entry0; [done|]. cbn in Hd. destruct (p_destroyed s); [by rewrite HD in Hd|done].
Qed.
Lemma probed_refresh s : probed s → p_closed s = false → (∃ e, p_entry s = Some e) → probed (refreshWebseeds infoHash filename s).
Proof using Type.
  intros H HC [e He]. pose proof (probed_abort s H) as [R1 R2 R3 R4 R5 R6 R7]. unfold refreshWebseeds. set (s1 := abort_seeds s) in *.
  assert (EC : p_closed s1 = false) by done. assert (EE : p_entry s1 = Some e) by done. split; cbn [set_rounds p_rounds p_controller p_closed p_roots p_entry p_destroyed p_candidates].
  - intros k r [[_ Hr]|[_ <-]]%lookup_snoc_Some; [by apply (R1 k)|by apply new_round_ok].
  - rewrite length_app. cbn. lia.
  - intros k r [[Hlt Hr]|[-> <-]]%lookup_snoc_Some Hk; [|done]. destruct (decide (k = p_controller s1)) as [->|Hne]; [|by apply (R3 k)].
    unfold s1, abort_seeds in Hr. cbn in Hr. rewrite list_lookup_alter_eq in Hr. destruct (p_rounds s !! _); [|done]. by injection Hr as <-.
  - by rewrite EC.
  - done.
  - intros e' He' Hd. destruct (R6 e' He' Hd) as [HS HU]. split; [done|]. intros url Hu. by apply reached_snoc, HU.
  - by rewrite EE.
Qed.
(** The entry changes. *)
Lemma probed_with_entry f s :
  probed s → (∀ e, p_entry s = Some e → p_destroyed s = false → sound e → sound (f e) ∧ ∀ url, url ∈ e_candidates (f e) → url ∈ e_candidates e) →
  probed (with_entry f s).
Proof using Type.
  intros [] Hf. split; try done.
  - cbn. intros e' He' Hd. destruct (p_entry s) as [e|] eqn:Ee; [|done]. injection He' as <-. destruct (pr_entry0 e eq_refl Hd) as [HS HU].
    destruct (Hf e eq_refl Hd HS) as [HS' HU']. split; [done|]. intros url Hu. by apply HU, HU'.
  - cbn. destruct (p_entry s); [done|]. intros _. by apply pr_early0.
Qed.
Lemma offer_candidates url now e x : x ∈ e_candidates (offerWebseed url now e) → x = url ∨ x ∈ e_candidates e.
Proof using Type.
  unfold offerWebseed. case_bool_decide as Hin.
  - destruct (negb (e_ready e)); [by right|]. destruct (e_active e); by right.
  - cbn [set_candidates e_ready e_active]. destruct (negb (e_ready e)); [|destruct (e_active e)]; cbn;
      (intros [?| ->%list_elem_of_singleton]%elem_of_app; [by right|by left]).
Qed.
Lemma offer_pushed url now e : url ∉ e_candidates e → offerWebseed url now (set_candidates (e_candidates e ++ [url]) e) = offerWebseed url now e.
Proof using Type.
  intros Hu. unfold offerWebseed. cbn [set_candidates e_candidates e_ready e_active]. rewrite bool_decide_true by (apply elem_of_app; right; by left).
  by rewrite bool_decide_false.
Qed.
Lemma probed_create now s : probed s → probed (create now s).
Proof using Type.
  intros H. unfold create. destruct (p_entry s) eqn:Ee; [done|]. pose proof H as []. destruct (pr_early0 Ee) as (HC & HN & HU). split; try done.
  cbn. intros e [= <-] _. pose proof (seeds_sound_new (p_candidates s) (match p_openedRoots s with [] => false | _ => true end) now HN) as HS.
  destruct (p_candidates s) as [|c l] eqn:EC; [by split; [|intros ? ?%elem_of_nil]|]. split; [by apply sound_offer|].
  intros url [->|Hu]%offer_candidates; apply HU; [by left|done].
Qed.
Lemma ready_candidates now e url : url ∈ e_candidates (ready now e) → url ∈ e_candidates e.
Proof using Type.
  unfold ready. cbn [set_status e_candidates e_active]. destruct (e_candidates e) as [|c l] eqn:EC; [cbn; by rewrite EC|].
  destruct (e_active e); [cbn; by rewrite EC|]. intros [->|H]%offer_candidates; [by left|]. cbn in H. by rewrite EC in H.
Qed.
Lemma probed_ready now s : probed s → probed (now_ready infoHash filename now s).
Proof using Type.
  intros H. unfold now_ready. destruct (p_entry s) as [e|] eqn:Ee; [|done]. destruct (_ || _) eqn:ER; [done|]. destruct (p_closed s || p_cancelled s) eqn:EC.
  { apply probed_end; [done|exact (pr_closed _ H)|done]. }
  apply orb_false_iff in EC as [EC _]. assert (H1 : probed (with_entry (ready now) s)).
  { apply probed_with_entry; [done|]. intros e' _ _ HS. split; [by apply sound_ready|]. apply ready_candidates. }
  case_bool_decide; [done|]. apply probed_refresh; [done|done|]. cbn. rewrite Ee. by eexists.
Qed.
Lemma probed_first s : probed s → probed (first_over s).
Proof using Type.
  intros H. unfold first_over. destruct (p_rounds s) as [|r l]; [done|]. destruct (r_first r) as [[]|]; [done| |done]. destruct (_ || _); [done|].
  apply probed_with_entry; [done|]. intros e _ _ HS. split; [by apply sound_backup|]. by destruct (backup_frame e) as (-> & _).
Qed.
Lemma torrentSources_secure v sources : torrentSources parse_url v = Ok sources → web_secure (s_webseeds sources).
Proof using Type.
  unfold torrentSources. destruct (if is_undefined v then _ else v); try done. destruct (forallb _ _); [|done].
  intros H. inv_bind. subst sources. cbn. by eapply source_list_secure; [|done]; left.
Qed.
Lemma probed_sources value s : probed s → probed (setSources parse_url infoHash filename value s).
Proof using Type.
  intros H. unfold setSources. destruct (p_closed s) eqn:EC; [done|]. destruct (torrentSources parse_url value) as [sources|] eqn:ES; [|done].
  assert (H1 : probed (set_roots (s_webseeds sources) s)) by (destruct H as []; split; try done; by apply (torrentSources_secure value)).
  destruct (is_ready _) eqn:ER; [|done]. apply probed_refresh; [done|done|]. unfold is_ready in ER. destruct (p_entry _) as [e|]; [by exists e|done].
Qed.
Lemma check_candidates now e url : sound e → url ∈ e_candidates (checkWebseed now e) → url ∈ e_candidates e.
Proof using Type.
  intros H. destruct (stalled now e) eqn:HS.
  - destruct (e_candidates e) as [|a [|b l]] eqn:EC.
    3: { destruct (check_turns now e a b l H HS EC) as (-> & _). cbn. intros [->|[Hu| ->%list_elem_of_singleton]%elem_of_app]%elem_of_cons; [by right; left|by right; right|by left]. }
    all: unfold stalled in HS; rewrite !andb_true_iff, !negb_true_iff in HS; destruct HS as [[[[S1 S2] S3] S4] S5]; bools.
    all: unfold checkWebseed; rewrite S1, S2, S3, S4; cbn [orb negb]; rewrite (proj2 (Z.ltb_ge (now - e_verified e) 1000)) by lia.
    all: destruct (backup_frame e) as (B1 & _).
    all: assert (E2 : (Z.of_nat (length (e_candidates (enablePeerBackup e))) <? 2) = true) by (by rewrite B1, EC); rewrite E2, B1, EC; done.
  - unfold checkWebseed. unfold stalled in HS. destruct (e_stopped e); [done|]. destruct (e_ready e); [|done]. cbn [orb negb andb] in *.
    destruct (e_done e); [done|]. cbn [negb andb] in *. destruct (e_wanted e); cbn [negb andb] in *; [|done].
    by rewrite (proj2 (Z.ltb_lt _ _)) by (apply Z.leb_gt in HS; lia).
Qed.

(** *** Replies *)
Lemma end_keeps k i y s r url b :
  probed s → p_rounds s !! k = Some r → r_probes r !! i = Some (Probe url b None) → (∀ v, y = Some v → acceptable size v = true) → probed (end_probe k i y s).
Proof using Type.
  intros H Hk Hi Hy. apply probed_alter; [done|]. intros r' Hr' Hok. replace r' with r in * by congruence.
  split_and!; [by eapply end_probe_ok|by eapply keeps_end|done|]. intros Hs j p. cbn. destruct (decide (j = i)) as [->|Hj].
  - rewrite list_lookup_alter_eq, Hi. cbn. intros [= <-]. exact (Hs i _ Hi).
  - rewrite list_lookup_alter_ne by done. apply Hs.
Qed.
(** A reply makes its webseed a candidate, once. *)
Lemma replied_new k i s r url :
  probed s → p_rounds s !! k = Some r → r_probes r !! i = Some (Probe url false None) →
  p_closed s = false ∧ r_aborted r = false ∧ k = p_controller s ∧ (k = 0%nat → ¬ reached (p_rounds s) url).
Proof using Type.
  intros [] Hk Hi. pose proof (pr_rounds0 k r Hk) as Hr.
  assert (HA : r_aborted r = false) by (destruct (r_aborted r) eqn:E; [by pose proof (o_aborted _ Hr E i _ Hi)|done]).
  assert (Hc : k = p_controller s) by (destruct (decide (k = p_controller s)) as [|Hne]; [done|]; by rewrite (pr_aborted0 k r Hk Hne) in HA).
  split_and!; [|done|done|].
  - destruct (p_closed s) eqn:E; [|done]. by pose proof (pr_closed0 eq_refl k r Hk i _ Hi).
  - intros -> (k' & r' & j & p & y & Hk' & Hp & Hu & Hy). apply lookup_lt_Some in Hk' as Hlt. replace k' with 0%nat in * by lia.
    replace r' with r in * by congruence. assert (j = i) as -> by by eapply (distinct_probes r). rewrite Hi in Hp. by injection Hp as <-.
Qed.
Lemma probed_replied k i y now s : probed s → probed (replied size k i y now s).
Proof using Type.
  intros H. unfold replied. destruct (p_rounds s !! k) as [r|] eqn:Ek; [|done]. destruct (r_probes r !! i) as [[url b [res|]]|] eqn:Ei; [done| |done].
  destruct y as [y|]; [|by eapply end_keeps]. destruct (b || _) eqn:EB; [by eapply end_keeps|]. apply orb_false_iff in EB as [-> EA]. apply negb_false_iff in EA.
  destruct (replied_new k i s r url H Ek Ei) as (EC & EAb & Ekc & Hnew). rewrite EAb.
  assert (H2 : probed (end_probe k i (Some y) s)) by (eapply end_keeps; [done|done|done|by intros v [= <-]]).
  assert (HU : reached (p_rounds (end_probe k i (Some y) s)) url).
  { exists k, (end_in_round i (Some y) r), i, (Probe url false (Some (Some y))), y. cbn. rewrite list_lookup_alter_eq, Ek. split_and!; try done. cbn. by rewrite list_lookup_alter_eq, Ei. }
  set (R := p_rounds (end_probe k i (Some y) s)) in *. pose proof H2 as [Q1 Q2 Q3 Q4 Q5 Q6 Q7].
  (* the rounds do not depend on the entry *)
  assert (HE : ∀ candidates x, p_entry s = None ∧ x = None ∧ (k = 0%nat ∧ candidates = p_candidates s ++ [url]) ∨
      (∃ e e', p_entry s = Some e ∧ x = Some e' ∧ (p_destroyed s = false → sound e' ∧ ∀ u, u ∈ e_candidates e' → u = url ∨ u ∈ e_candidates e)) →
      probed (end_probe k i (Some y) (set_entry candidates (p_shared s) x s))).
  { intros candidates x Hx. split; try done; cbn [end_probe set_rounds set_entry p_entry p_rounds p_controller p_destroyed p_candidates].
    - intros e' He' Hd. destruct Hx as [(_ & -> & _)|(e & e2 & Ee & -> & Hx)]; [done|]. injection He' as ->. destruct (Hx Hd) as [HS HC]. split; [done|].
      intros u [->|Hu]%HC; [done|]. by apply (Q6 e Ee Hd).
    - intros E. destruct Hx as [(Ee & _ & _ & ->)|(e & e2 & _ & -> & _)]; [|done]. destruct (Q7 Ee) as (? & HN & HR). split_and!; [done| |].
      + apply NoDup_snoc; [done|]. intros Hu. destruct (pr_early _ H Ee) as (E0 & _ & HR0). apply Hnew; [congruence|by apply HR0].
      + intros u [Hu| ->%list_elem_of_singleton]%elem_of_app; [by apply HR|done]. }
  unfold offered. rewrite EC, andb_true_r. cbn [negb]. destruct (p_entry s) as [e|] eqn:Ee.
  2: { destruct k as [|k]; [apply HE; by left|]. destruct (pr_early _ H Ee) as (E0 & _). congruence. }
  assert (HO : ∀ f, (p_destroyed s = false → f e = offerWebseed url now e) → probed (end_probe k i (Some y) (set_entry (p_candidates s) (p_shared s) (Some (f e)) s))).
  { intros f Hf. apply HE. right. exists e, (f e). split_and!; [done|done|]. intros Hd. rewrite (Hf Hd). destruct (pr_entry _ H e Ee Hd) as [HS _].
    split; [by apply sound_offer|]. intros u. apply offer_candidates. }
  assert (Hid : p_destroyed s = true → probed (end_probe k i (Some y) s)) by done.
  destruct k as [|k].
  - destruct (p_shared s) eqn:ESh.
    + set (push := λ e, set_candidates (e_candidates e ++ [url]) e). set (s1 := with_entry push s).
      assert (E1 : s1 = set_entry (p_candidates s) true (Some (push e)) s) by (unfold s1, with_entry; by rewrite Ee, ESh).
      destruct (p_destroyed s) eqn:ED; cbn [negb andb]; rewrite E1; [by apply (HO push)|].
      apply (HO (λ e, offerWebseed url now (push e))). intros _. apply offer_pushed. intros Hu. apply (Hnew eq_refl). by apply (pr_entry _ H e Ee ED).
    + destruct (p_destroyed s) eqn:ED; cbn [negb]; [done|]. unfold with_entry. rewrite Ee, ESh. by apply (HO (offerWebseed url now)).
  - destruct (p_destroyed s) eqn:ED; cbn [negb]; [done|]. unfold with_entry. rewrite Ee. by apply (HO (offerWebseed url now)).
Qed.
Lemma probed_step ev s : probed s → probed (step parse_url infoHash filename size ev s).
Proof using Type.
  intros H. destruct ev; cbn [step].
  - by apply probed_replied.
  - apply probed_alter; [done|]. intros r _ Hr. split_and!; [by apply stop_one_ok|apply keeps_stop_one|done|]. intros Hs j p. cbn.
    destruct (decide (j = i)) as [->|Hj]; [rewrite list_lookup_alter_eq|rewrite list_lookup_alter_ne by done; apply Hs].
    destruct (r_probes r !! i); [|done]. by intros [= <-].
  - by apply probed_create.
  - by apply probed_ready.
  - destruct (p_entry s); [by apply probed_first|done].
  - by apply probed_sources.
  - by apply probed_abort.
  - apply probed_abort, probed_stop_all, probed_end; [done|exact (pr_closed _ H)|done].
  - apply probed_abort. assert (HS : probed (stop_all s)) by by apply probed_stop_all.
    change (probed (set_end true true (p_destroyed (stop_all s)) (stop_all s))). apply probed_end; [done| |done]. intros _ k r. apply stop_all_stopped.
  - apply probed_end; [done|exact (pr_closed _ H)|done].
  - destruct (p_entry s) as [x|] eqn:Ee; [|done].
    assert (HE : ∀ shared x', (sound x → sound x' ∧ ∀ u, u ∈ e_candidates x' → u ∈ e_candidates x) → probed (set_entry (p_candidates s) shared (Some x') s)).
    { intros shared x' Hx. pose proof H as []. split; try done. cbn. intros ? [= <-] Hd. destruct (pr_entry0 x Ee Hd) as [HS HU]. destruct (Hx HS) as [? Hc].
      split; [done|]. intros u Hu. by apply HU, Hc. }
    destruct e; try done; apply HE; intros HS; cbn [WindowSeeds.step].
    + by split; [apply sound_verified|].
    + by split; [apply sound_status|].
    + split; [by apply sound_check|]. intros u. by apply check_candidates.
Qed.
Lemma probed_run l s : probed s → probed (run parse_url infoHash filename size l s).
Proof using Type. revert s. induction l as [|ev l IH]; intros s H; [done|]. by apply IH, probed_step. Qed.
Lemma probed_start value s : start parse_url infoHash filename value = Ok s → probed s.
Proof using Type.
  unfold start. intros H. inv_bind. subst s. apply torrentSources_secure in H0. split; cbn; try done.
  - intros [|k] r; [|done]. intros [= <-]. by apply new_round_ok.
  - intros [|k] r; done.
  - intros _. split_and!; [done|by apply NoDup_nil_2|by intros ? ?%elem_of_nil].
Qed.

(** C36: However probes, timers, changes of the sources, stalls, cancellations and closing
    interleave, a torrent that was not destroyed uses one webseed at a time, and it and its distinct
    candidates are all files of configured, secure sources that answered their probe
    acceptably (a size, if given, is the torrent's).  Only the probes of the latest
    sources go on, and none after closing; the result of a round is the first of its
    webseeds to answer, or none when all of them have failed. *)
Theorem webseeds_probed value s0 events :
  start parse_url infoHash filename value = Ok s0 →
  let s := run parse_url infoHash filename size events s0 in
  (∀ e, p_entry s = Some e → p_destroyed s = false →
     e_seeds e = option_list (e_active e) ∧ NoDup (e_candidates e) ∧
     ∀ url, url ∈ e_candidates e ∨ url ∈ e_seeds e → ∃ root y, url = seed_url infoHash filename root ∧ secure parse_url "https:" "http:" root ∧
       acceptable size y = true ∧ ∃ k r i p, p_rounds s !! k = Some r ∧ root ∈ r_roots r ∧ r_probes r !! i = Some p ∧ b_url p = url ∧ b_result p = Some (Some y)) ∧
  (∀ k r i p, p_rounds s !! k = Some r → r_probes r !! i = Some p → k ≠ p_controller s ∨ p_closed s = true → b_stopped p = true) ∧
  (∀ k r, p_rounds s !! k = Some r →
     match r_first r with
     | None => ∃ i p, r_probes r !! i = Some p ∧ b_result p = None
     | Some None => ∀ i p, r_probes r !! i = Some p → b_result p = Some None
     | Some (Some url) => ∃ i p y, r_probes r !! i = Some p ∧ b_url p = url ∧ b_result p = Some (Some y)
     end).
Proof using Type.
  intros E s. assert (H : probed s) by by eapply probed_run, probed_start. split_and!.
  - intros e He Hd. destruct (pr_entry _ H e He Hd) as [HS HU]. split_and!; [apply (so_seeds _ HS)|apply (so_distinct _ HS)|].
    intros url Hurl. assert (Hin : url ∈ e_candidates e).
    { destruct Hurl as [?|Hs]; [done|]. rewrite (so_seeds _ HS) in Hs. destruct (e_active e) as [a|] eqn:Ea; [|by apply elem_of_nil in Hs].
      apply list_elem_of_singleton in Hs as ->. by apply (so_active _ HS). }
    destruct (HU url Hin) as (k & r & i & p & y & Hr & Hp & Eu & Hy). pose proof (pr_rounds _ H k r Hr) as Hok.
    assert (Hroot : url ∈ b_url <$> r_probes r) by (apply list_elem_of_fmap; exists p; split; [done|by eapply list_elem_of_lookup_2]).
    rewrite (o_urls _ Hok) in Hroot. apply list_elem_of_fmap in Hroot as (root & -> & Hroot). exists root, y.
    split_and!; [done|by apply (o_roots _ Hok)|by eapply (o_accepted _ Hok)|]. exists k, r, i, p. by split_and!.
  - intros k r i p Hr Hp [Hk|HC]; [|by eapply (pr_closed _ H)]. eapply (o_aborted _ (pr_rounds _ H k r Hr)); [by eapply (pr_aborted _ H)|done].
  - intros k r Hr. pose proof (pr_rounds _ H k r Hr) as Hok. destruct (r_first r) as [[url|]|] eqn:EF; [by apply (o_first _ Hok)|by apply (o_none _ Hok)|by apply (o_pending _ Hok)].
Qed.
End facts.

(** Two webseeds: the first one sends a file of another size; then the sources are replaced. *)
Definition example_address (s : string) : option address := Some (Address s s "https:" "seed" "/" "" "" "" "").
Definition example_sources (l : list string) : jsval := JObj [field "webseeds" (JArr (JStr <$> l))].
Definition example_events : list event :=
  [EReply 0 0 (Some (Reply 200 true (Some (Some 7)))) 10; ECreate 20; EReady 30; EReply 0 1 (Some (Reply 200 true (Some (Some 4096)))) 40;
   ESources (example_sources ["https://c"; "https://d"]); EReply 1 0 None 50; EReply 1 1 (Some (Reply 405 false None)) 60;
   ESeeds (WindowSeeds.EStatus false false true); ESeeds (WindowSeeds.ECheck 2000)].
Definition example_start : probing :=
  match start example_address "00ff" "disk.enc" (example_sources ["https://a"; "https://b"]) with
  | Ok s => s
  | Throw _ => Probing [] 0 0 [] false false [] 0 [] true None false
  end.
Lemma webseeds_probed_witness :
  let s := run example_address "00ff" "disk.enc" 4096 example_events example_start in
  start example_address "00ff" "disk.enc" (example_sources ["https://a"; "https://b"]) = Ok example_start ∧
  (e_seeds <$> p_entry s = Some ["https://d/00ff/disk.enc"%string]) ∧ (e_candidates <$> p_entry s = Some ["https://d/00ff/disk.enc"; "https://b/00ff/disk.enc"]%string) ∧
  (∀ e url, p_entry s = Some e → url ∈ e_candidates e → ∃ root, url = seed_url "00ff" "disk.enc" root ∧ secure example_address "https:" "http:" root).
Proof.
  intros s. assert (E : start example_address "00ff" "disk.enc" (example_sources ["https://a"; "https://b"]) = Ok example_start) by (by vm_compute).
  split; [exact E|]. split; [by vm_compute|]. split; [by vm_compute|]. intros e url He Hu.
  destruct (webseeds_probed example_address "00ff" "disk.enc" 4096 _ example_start example_events E) as [H _].
  assert (Hd : p_destroyed (run example_address "00ff" "disk.enc" 4096 example_events example_start) = false) by (by vm_compute).
  destruct (H e He Hd) as (_ & _ & HU). destruct (HU url (or_introl Hu)) as (root & y & E1 & E2 & _). exists root. split; [exact E1|exact E2].
Defined.
