(* ===== verification/ReadKey.v ===== *)
(** * Read-only keys (src/src/disk/web/client.js: decodeReadKey, readOnlyPublicKey,
    exportReadOnlyKey)

    A read-only capability of 64 bytes is given to users as text: a prefix with the
    version and the bytes in base64url without padding.  [btoa] and [atob] are the
    browser's, written out for the strings of single bytes they take. *)
From S2P Require Import Prelude JsValue.
From Stdlib Require Import Ascii.
#[local] Open Scope Z_scope.

(** ** Base64 *)
Definition alphabet : list ascii := String.list_ascii_of_string "ABCDEFGHIJKLMNOPQRSTUVWXYZabcdefghijklmnopqrstuvwxyz0123456789+/".
Definition b64_char (d : Z) : ascii := nth (Z.to_nat d) alphabet "="%char.
Definition b64_value (c : ascii) : option Z := (λ p, Z.of_nat p.1) <$> list_find (λ x, x = c) alphabet.
Fixpoint btoa (l : bytes) : list ascii :=
  match l with
  | [] => []
  | [a] => [b64_char (a / 4); b64_char (a mod 4 * 16); "="%char; "="%char]
  | [a; b] => [b64_char (a / 4); b64_char (a mod 4 * 16 + b / 16); b64_char (b mod 16 * 4); "="%char]
  | a :: b :: c :: l =>
      b64_char (a / 4) :: b64_char (a mod 4 * 16 + b / 16) :: b64_char (b mod 16 * 4 + c / 64) :: b64_char (c mod 64) :: btoa l
  end.
Fixpoint join_digits (l : list Z) : bytes :=
  match l with
  | d1 :: d2 :: d3 :: d4 :: l => d1 * 4 + d2 / 16 :: d2 mod 16 * 16 + d3 / 4 :: d3 mod 4 * 64 + d4 :: join_digits l
  | [d1; d2; d3] => [d1 * 4 + d2 / 16; d2 mod 16 * 16 + d3 / 4]
  | [d1; d2] => [d1 * 4 + d2 / 16]
  | _ => []
  end.
Definition space (c : ascii) : bool := bool_decide (Ascii.nat_of_ascii c ∈ [9; 10; 12; 13; 32]%nat).
(** Up to [n] padding characters at the end. *)
Fixpoint strip_padding (n : nat) (l : list ascii) : list ascii :=
  match n with
  | O => l
  | S n => match reverse l with
           | c :: r => if bool_decide (c = "="%char) then strip_padding n (reverse r) else l
           | [] => l
           end
  end.
Definition atob (l : list ascii) : option bytes :=
  let l := List.filter (λ c, negb (space c)) l in
  let l := if (length l mod 4 =? 0)%nat then strip_padding 2 l else l in
  if (length l mod 4 =? 1)%nat then None else join_digits <$> mapM b64_value l.

(** ** Keys *)
Definition to_url (c : ascii) : ascii := if bool_decide (c = "+"%char) then "-"%char else if bool_decide (c = "/"%char) then "_"%char else c.
Definition from_url (c : ascii) : ascii := if bool_decide (c = "-"%char) then "+"%char else if bool_decide (c = "_"%char) then "/"%char else c.
(** [[A-Za-z0-9_-]] and [[AQgw]]. *)
Definition url_class (c : ascii) : bool :=
  let n := Ascii.nat_of_ascii c in
  bool_decide (65 ≤ n ≤ 90)%nat || bool_decide (97 ≤ n ≤ 122)%nat || bool_decide (48 ≤ n ≤ 57)%nat || bool_decide (c = "_"%char) || bool_decide (c = "-"%char).
Definition last_class (c : ascii) : bool := bool_decide (c ∈ ["A"; "Q"; "g"; "w"]%char).
Definition after (p : string) (s : list ascii) : option (list ascii) :=
  let p := String.list_ascii_of_string p in
  if bool_decide (take (length p) s = p) then Some (drop (length p) s) else None.
Definition v1 : string := "my98-ro-v1.".
Definition v2 : string := "my98-ro-v2.".
(** The characters after the prefix, where [/^my98-ro-v2\.[A-Za-z0-9_-]{85}[AQgw]$/] accepts. *)
Definition key_text (s : list ascii) : option (list ascii) :=
  match after v2 s with
  | Some r =>
      if (length r =? 86)%nat && forallb url_class (take 85 r) && forallb last_class (drop 85 r) then Some r else None
  | None => None
  end.
Definition invalid {A} (message : string) : result A := throw "INVALID_READ_KEY" message.
Definition decodeReadKey (readKey : jsval) : result bytes :=
  match as_string readKey with
  | None => invalid "Invalid read key"
  | Some s =>
      let s := String.list_ascii_of_string s in
      match after v1 s with
      | Some _ => invalid "This read key is outdated. Export a new read-only key."
      | None =>
          match key_text s with
          | None => invalid "Invalid read key"
          | Some r =>
              match atob ((from_url <$> r) ++ ["="; "="]%char) with
              | Some b => Ok b
              | None => throw_plain "The string to be decoded is not correctly encoded."
              end
          end
      end
  end.
(** The public key of a capability. *)
Definition readOnlyPublicKey (readKey : jsval) : result bytes := b ← decodeReadKey readKey; Ok (take 32 b).
(** What [exportReadOnlyKey] makes of the Worker's answer. *)
Definition exportReadOnlyKey (b : bytes) : string :=
  v2 +:+ String.string_of_list_ascii (strip_padding (length (btoa b)) (to_url <$> btoa b)).

(** ** Base64 facts *)
#[local] Arguments b64_char : simpl never.
Lemma b64_value_char d : 0 ≤ d < 64 → b64_value (b64_char d) = Some d.
Proof.
  assert (H : forallb (λ d, bool_decide (b64_value (b64_char d) = Some d)) (seqZ 0 64) = true) by (by vm_compute).
  rewrite forallb_forall in H. intros Hd. specialize (H d). rewrite bool_decide_eq_true in H. apply H, list_elem_of_In, elem_of_seqZ. lia.
Qed.
Definition digit_fine (d : Z) : bool :=
  let c := to_url (b64_char d) in
  bool_decide (from_url c = b64_char d) && url_class c && negb (bool_decide (c = "="%char)) && negb (space (b64_char d)) && negb (bool_decide (b64_char d = "="%char)) &&
  bool_decide (last_class c = (d mod 16 =? 0)).
Lemma digit_all_fine d : 0 ≤ d < 64 → digit_fine d = true.
Proof.
  assert (H : forallb digit_fine (seqZ 0 64) = true) by (by vm_compute).
  rewrite forallb_forall in H. intros Hd. apply H, list_elem_of_In, elem_of_seqZ. lia.
Qed.
Definition class_fine (c : ascii) : bool :=
  implb (url_class c) (match b64_value (from_url c) with Some d => bool_decide (0 ≤ d < 64) && bool_decide (c = to_url (b64_char d)) | None => false end).
Lemma class_all_fine c : class_fine c = true.
Proof.
  assert (H : forallb (λ n, class_fine (Ascii.ascii_of_nat n)) (seq 0 256) = true) by (by vm_compute).
  rewrite forallb_forall in H. rewrite <- (Ascii.ascii_nat_embedding c). apply H, in_seq. pose proof (Ascii.nat_ascii_bounded c). lia.
Qed.
Lemma class_digit c : url_class c = true → ∃ d, 0 ≤ d < 64 ∧ c = to_url (b64_char d).
Proof.
  intros Hc. pose proof (class_all_fine c) as H. unfold class_fine in H. rewrite Hc in H. cbn [implb] in H.
  destruct (b64_value (from_url c)) as [d|]; [|done]. bools. by exists d.
Qed.

(** The digits of a key: the last one holds two bits only. *)
Definition key_digits (n : nat) (ds : list Z) : Prop :=
  length ds = (4 * n + 2)%nat ∧ Forall (λ d, 0 ≤ d < 64) ds ∧ ∀ d, last ds = Some d → d mod 16 = 0.
Lemma key_digits_cons n d1 d2 d3 d4 ds : key_digits (S n) (d1 :: d2 :: d3 :: d4 :: ds) → key_digits n ds.
Proof.
  intros (Hl & Hd & Hm). decompose_Forall_hyps. cbn in Hl. split; [lia|]. split; [done|].
  intros d E. apply Hm. destruct ds as [|x ds]; [done|]. exact E.
Qed.
Lemma bytes_to_digits n l :
  length l = (3 * n + 1)%nat → Forall is_byte l →
  ∃ ds, key_digits n ds ∧ btoa l = (b64_char <$> ds) ++ ["="; "="]%char ∧ join_digits ds = l.
Proof.
  induction n as [|n IH] in l |- *; intros Hl Hb.
  - destruct l as [|a [|]]; try done. decompose_Forall_hyps. unfold is_byte in *. exists [a / 4; a mod 4 * 16].
    split_and!; [|done|cbn; f_equal; Z.to_euclidean_division_equations; lia]. split; [done|]. split.
    + repeat constructor; Z.to_euclidean_division_equations; lia.
    + intros d [= <-]. by rewrite Z.mod_mul.
  - destruct l as [|a [|b [|c l]]]; cbn in Hl; try lia. decompose_Forall_hyps.
    destruct (IH l) as (ds & (HL & HD & HM) & E & J); [lia|done|]. unfold is_byte in *.
    exists (a / 4 :: a mod 4 * 16 + b / 16 :: b mod 16 * 4 + c / 64 :: c mod 64 :: ds). split_and!.
    + split; [cbn; lia|]. split; [repeat constructor; [Z.to_euclidean_division_equations; lia..|done]|].
      intros d Hd. apply HM. destruct ds as [|x ds]; [cbn in HL; lia|]. exact Hd.
    + cbn. by rewrite E.
    + cbn [join_digits]. rewrite J. f_equal; [|f_equal; [|f_equal]]; Z.to_euclidean_division_equations; lia.
Qed.
Lemma digits_to_bytes n ds :
  key_digits n ds → length (join_digits ds) = (3 * n + 1)%nat ∧ Forall is_byte (join_digits ds) ∧ btoa (join_digits ds) = (b64_char <$> ds) ++ ["="; "="]%char.
Proof.
  induction n as [|n IH] in ds |- *; intros H.
  - destruct H as (Hl & Hd & Hm). destruct ds as [|d1 [|d2 [|]]]; try done. decompose_Forall_hyps. specialize (Hm d2 eq_refl). unfold is_byte.
    cbn. split_and!; [done|constructor; [Z.to_euclidean_division_equations; lia|done]|].
    repeat f_equal; Z.to_euclidean_division_equations; lia.
  - destruct H as (Hl & Hd & Hm). destruct ds as [|d1 [|d2 [|d3 [|d4 ds]]]]; cbn in Hl; try lia.
    destruct (IH ds) as (HL & HB & E); [by eapply (key_digits_cons n d1 d2 d3 d4)|]. decompose_Forall_hyps. unfold is_byte in *.
    cbn [join_digits]. split_and!; [cbn; lia|repeat constructor; [Z.to_euclidean_division_equations; lia..|done]|].
    cbn [btoa]. rewrite E. cbn. repeat f_equal; Z.to_euclidean_division_equations; lia.
Qed.

Lemma strip_stop n l : (∀ c, last l = Some c → c ≠ "="%char) → strip_padding n l = l.
Proof.
  intros H. destruct n as [|n]; [done|]. cbn. destruct (reverse l) as [|c r] eqn:E; [done|].
  assert (last l = Some c) as Hc by (rewrite last_reverse_head || rewrite <- head_reverse; by rewrite E).
  rewrite bool_decide_false; [done|]. by apply H.
Qed.
Lemma strip_two n l : (∀ c, last l = Some c → c ≠ "="%char) → strip_padding (S (S n)) (l ++ ["="; "="]%char) = l.
Proof.
  intros H. cbn [strip_padding]. change (l ++ ["="; "="]%char) with (l ++ (["="] ++ ["="])%char). rewrite app_assoc, !reverse_snoc.
  rewrite bool_decide_true by done. rewrite <- reverse_snoc, reverse_involutive, reverse_snoc, bool_decide_true by done.
  rewrite reverse_involutive. by apply strip_stop.
Qed.

(** ** Keys and digits *)
Lemma digit_not_padding ds c : Forall (λ d, 0 ≤ d < 64) ds → last (b64_char <$> ds) = Some c → c ≠ "="%char.
Proof.
  intros Hd Hc. apply last_Some_elem_of, list_elem_of_fmap in Hc as (d & -> & Hin). rewrite Forall_forall in Hd.
  pose proof (digit_all_fine d (Hd d Hin)) as H. unfold digit_fine in H. by bools.
Qed.
Lemma url_not_padding ds c : Forall (λ d, 0 ≤ d < 64) ds → last (to_url <$> (b64_char <$> ds)) = Some c → c ≠ "="%char.
Proof.
  intros Hd Hc. apply last_Some_elem_of, list_elem_of_fmap in Hc as (x & -> & Hx). apply list_elem_of_fmap in Hx as (d & -> & Hin). rewrite Forall_forall in Hd.
  pose proof (digit_all_fine d (Hd d Hin)) as H. unfold digit_fine in H. by bools.
Qed.
Lemma from_to_url ds : Forall (λ d, 0 ≤ d < 64) ds → from_url <$> (to_url <$> (b64_char <$> ds)) = b64_char <$> ds.
Proof.
  induction 1 as [|d ds Hd _ IH]; [done|]. cbn. f_equal; [|exact IH].
  pose proof (digit_all_fine d Hd) as H. unfold digit_fine in H. by bools.
Qed.
Lemma values_chars ds : Forall (λ d, 0 ≤ d < 64) ds → mapM b64_value (b64_char <$> ds) = Some ds.
Proof. intros H. apply mapM_Some_2. rewrite Forall2_fmap_l. induction H; constructor; [by apply b64_value_char|done]. Qed.
Lemma atob_key ds : key_digits 21 ds → atob ((b64_char <$> ds) ++ ["="; "="]%char) = Some (join_digits ds).
Proof.
  intros (HL & HD & _). unfold atob.
  assert (HF : List.filter (λ c, negb (space c)) ((b64_char <$> ds) ++ ["="; "="]%char) = (b64_char <$> ds) ++ ["="; "="]%char).
  { apply forallb_filter_id, forallb_forall. intros c Hc%list_elem_of_In. apply elem_of_app in Hc as [Hc|Hc].
    - apply list_elem_of_fmap in Hc as (d & -> & Hin). rewrite Forall_forall in HD.
      pose proof (digit_all_fine d (HD d Hin)) as H. unfold digit_fine in H. apply negb_true_iff. by bools.
    - repeat (apply elem_of_cons in Hc as [->|Hc]; [done|]). by apply elem_of_nil in Hc. }
  assert (H1 : (length ((b64_char <$> ds) ++ ["="; "="]%char) mod 4 =? 0)%nat = true) by (by rewrite length_app, length_fmap, HL).
  assert (H2 : (length (b64_char <$> ds) mod 4 =? 1)%nat = false) by (by rewrite length_fmap, HL).
  rewrite HF, H1, strip_two, H2, values_chars; [done|done|intros c; by apply digit_not_padding].
Qed.
Lemma chars_digits l : Forall (λ c, url_class c = true) l → ∃ ds, Forall (λ d, 0 ≤ d < 64) ds ∧ l = to_url <$> (b64_char <$> ds).
Proof.
  induction 1 as [|c l Hc _ (ds & Hd & ->)]; [by exists []|]. destruct (class_digit c Hc) as (d & Hb & ->). exists (d :: ds). by split; [constructor|].
Qed.
Lemma last_url c : last_class c = true → url_class c = true.
Proof. unfold last_class. rewrite bool_decide_eq_true, !elem_of_cons. intros [->|[->|[->|[->|?%elem_of_nil]]]]; done. Qed.
Lemma last_class_digit d : 0 ≤ d < 64 → last_class (to_url (b64_char d)) = (d mod 16 =? 0).
Proof. intros Hd. pose proof (digit_all_fine d Hd) as H. unfold digit_fine in H. by bools. Qed.
Lemma key_text_digits s r : key_text s = Some r → s = String.list_ascii_of_string v2 ++ r ∧ ∃ ds, key_digits 21 ds ∧ r = to_url <$> (b64_char <$> ds).
Proof.
  unfold key_text, after. case_bool_decide as Hp; [|done]. destruct (_ && _) eqn:E; [|done]. intros [= <-]. bools.
  match goal with H : forallb url_class _ = true |- _ => rename H into H1 end.
  match goal with H : forallb last_class _ = true |- _ => rename H into H2 end.
  match goal with H : (length _ =? 86)%nat = true |- _ => apply Nat.eqb_eq in H; rename H into HL end.
  set (r := drop _ s) in *. split; [rewrite <- (take_drop (length (String.list_ascii_of_string v2)) s) at 1; by rewrite Hp|].
  assert (HA : Forall (λ c, url_class c = true) r).
  { rewrite <- (take_drop 85 r). apply Forall_app. split; apply Forall_forall; intros c Hc%list_elem_of_In; [by eapply forallb_forall in H1|].
    eapply forallb_forall in H2; [by apply last_url|done]. }
  destruct (chars_digits r HA) as (ds & HD & E). exists ds. split; [|done]. rewrite E in HL, H2. rewrite !length_fmap in HL.
  split; [done|]. split; [done|]. intros d Hd. rewrite <- !fmap_drop in H2.
  assert (E2 : drop 85 ds = [d]).
  { destruct (drop 85 ds) as [|x [|y l]] eqn:ED; apply (f_equal length) in ED as EL; rewrite length_drop, HL in EL; try done.
    rewrite <- (take_drop 85 ds), ED, last_snoc in Hd. by injection Hd as ->. }
  rewrite E2 in H2. cbn in H2. rewrite andb_true_r, last_class_digit in H2; [by apply Z.eqb_eq|]. rewrite Forall_forall in HD. apply HD. by apply last_Some_elem_of.
Qed.

Lemma list_ascii_app a b : String.list_ascii_of_string (a +:+ b) = String.list_ascii_of_string a ++ String.list_ascii_of_string b.
Proof. induction a as [|c a IH]; [done|]. cbn. by rewrite <- IH. Qed.
Lemma key_text_ok ds : key_digits 21 ds → key_text (String.list_ascii_of_string v2 ++ (to_url <$> (b64_char <$> ds))) = Some (to_url <$> (b64_char <$> ds)).
Proof.
  intros (HL & HD & HM). unfold key_text, after. set (r := to_url <$> (b64_char <$> ds)).
  assert (Hlen : length r = 86%nat) by (unfold r; by rewrite !length_fmap).
  rewrite take_app_length, drop_app_length, bool_decide_true by done. rewrite Hlen.
  assert (HC : ∀ c, c ∈ r → url_class c = true).
  { intros c Hc. apply list_elem_of_fmap in Hc as (x & -> & Hx). apply list_elem_of_fmap in Hx as (d & -> & Hin). rewrite Forall_forall in HD.
    pose proof (digit_all_fine d (HD d Hin)) as H. unfold digit_fine in H. by bools. }
  assert (H1 : forallb url_class (take 85 r) = true).
  { apply forallb_forall. intros c Hc%list_elem_of_In. apply HC. apply elem_of_take in Hc as (i & Hi & _). by eapply list_elem_of_lookup_2. }
  assert (H2 : forallb last_class (drop 85 r) = true).
  { unfold r. rewrite <- !fmap_drop. destruct (drop 85 ds) as [|d [|y l]] eqn:ED; apply (f_equal length) in ED as EL; rewrite length_drop, HL in EL; try done.
    assert (Hd : last ds = Some d) by (by rewrite <- (take_drop 85 ds), ED, last_snoc). cbn. rewrite last_class_digit.
    - rewrite (HM d Hd). done.
    - rewrite Forall_forall in HD. apply HD. by apply last_Some_elem_of. }
  by rewrite H1, H2.
Qed.
Lemma export_text ds b : key_digits 21 ds → btoa b = (b64_char <$> ds) ++ ["="; "="]%char →
  String.list_ascii_of_string (exportReadOnlyKey b) = String.list_ascii_of_string v2 ++ (to_url <$> (b64_char <$> ds)).
Proof.
  intros (HL & HD & _) E. unfold exportReadOnlyKey. rewrite list_ascii_app, String.list_ascii_of_string_of_list_ascii. f_equal.
  rewrite E. rewrite length_app, length_fmap, HL, fmap_app. change (to_url <$> ["="; "="]%char) with ["="; "="]%char.
  replace (4 * 21 + 2 + length ["="; "="]%char)%nat with (S (S 86)) by done. apply strip_two. intros c. by apply url_not_padding.
Qed.

(** C22: Read-only keys round-trip, and have one spelling: a text is accepted just when it is
    the export of a capability of 64 bytes, and is then read as that capability, whose
    first half is the public key; every other value, of whatever type, is refused with
    INVALID_READ_KEY. *)
Theorem read_key_round_trip readKey :
  (∀ b, decodeReadKey readKey = Ok b ↔ length b = 64%nat ∧ Forall is_byte b ∧ readKey = JStr (exportReadOnlyKey b)) ∧
  (∀ b, decodeReadKey readKey = Ok b → readOnlyPublicKey readKey = Ok (take 32 b)) ∧
  (∀ e, decodeReadKey readKey = Throw e → exn_code e = Some "INVALID_READ_KEY"%string).
Proof.
  assert (HK : ∀ ds, key_digits 21 ds → ∀ s, String.list_ascii_of_string s = String.list_ascii_of_string v2 ++ (to_url <$> (b64_char <$> ds)) →
    decodeReadKey (JStr s) = Ok (join_digits ds)).
  { intros ds Hd s E. unfold decodeReadKey. cbn [as_string]. rewrite E.
    assert (after v1 (String.list_ascii_of_string v2 ++ (to_url <$> (b64_char <$> ds))) = None) as -> by (by vm_compute).
    rewrite key_text_ok by done. rewrite from_to_url by by destruct Hd as (_ & ? & _). by rewrite atob_key. }
  assert (HT : ∀ b, decodeReadKey readKey = Ok b → ∃ s ds, readKey = JStr s ∧ key_digits 21 ds ∧ String.list_ascii_of_string s = String.list_ascii_of_string v2 ++ (to_url <$> (b64_char <$> ds))).
  { intros b. destruct readKey; try done. unfold decodeReadKey. cbn [as_string]. destruct (after v1 _); [done|].
    destruct (key_text _) as [r|] eqn:EK; [|done]. apply key_text_digits in EK as (E & ds & Hd & ->). intros _. by exists s, ds. }
  split_and!.
  - intros b. split.
    + intros H. destruct (HT b H) as (s & ds & -> & Hd & E). rewrite (HK ds Hd s E) in H. injection H as <-.
      destruct (digits_to_bytes 21 ds Hd) as (Hl & Hb & Ht). split_and!; [done|done|]. f_equal.
      rewrite <- (String.string_of_list_ascii_of_string s), <- (String.string_of_list_ascii_of_string (exportReadOnlyKey _)).
      by rewrite E, (export_text ds).
    + intros (Hl & Hb & ->). destruct (bytes_to_digits 21 b Hl Hb) as (ds & Hd & Ht & Hj). rewrite (HK ds Hd); [by rewrite Hj|].
      by apply export_text.
  - intros b H. unfold readOnlyPublicKey. by rewrite H.
  - intros e. unfold decodeReadKey. destruct (as_string readKey) as [s|]; [|by intros [= <-]].
    destruct (after v1 _); [by intros [= <-]|]. destruct (key_text _) as [r|] eqn:EK; [|by intros [= <-]].
    apply key_text_digits in EK as (_ & ds & Hd & ->). rewrite from_to_url by by destruct Hd as (_ & ? & _). by rewrite atob_key.
Qed.

Definition example_capability : bytes := (λ n, (n * 37 + 11) mod 256) <$> seqZ 0 64.
Lemma read_key_round_trip_witness :
  decodeReadKey (JStr (exportReadOnlyKey example_capability)) = Ok example_capability ∧
  decodeReadKey (JStr "my98-ro-v2.AAAA") = invalid "Invalid read key".
Proof.
  split; [|by vm_compute]. apply (proj1 (read_key_round_trip (JStr (exportReadOnlyKey example_capability))) example_capability).
  split_and!; [done| |done]. apply Forall_forall. intros x Hx. unfold is_byte. apply list_elem_of_fmap in Hx as (n & -> & _). by apply Z.mod_pos_bound.
Defined.
