(* ===== verification/Descriptor.v ===== *)
(** * Publication descriptors (src/src/disk/web/torrent-protocol.js: parseDescriptor)

    The descriptor of a publication names its disk, state and profile by infohash.  It
    comes from the network; JSON.parse accepts repeated fields and other spellings of
    the version, so its text is scanned once more.

    [decode] is the fatal UTF-8 decoder and [parse_json] is JSON.parse.  The scan
    looks at ASCII characters only; what JSON allows between tokens is ASCII. *)
From S2P Require Import Prelude JsValue Hex Protocol.
From Stdlib Require Import Ascii.
#[local] Open Scope Z_scope.

Record descriptor := Descriptor { d_disk : string; d_state : option string; d_profile : option string }.

(** [/\s/] on ASCII. *)
Definition is_space (c : ascii) : bool := let n := Ascii.nat_of_ascii c in bool_decide (9 ≤ n ≤ 13)%nat || bool_decide (n = 32)%nat.
Fixpoint skip_spaces (l : list ascii) : list ascii :=
  match l with c :: r => if is_space c then skip_spaces r else l | [] => [] end.
(** [/^\s*1\s*[,}]/]. *)
Definition exact_one (l : list ascii) : bool :=
  match skip_spaces l with
  | c :: r => bool_decide (c = "1"%char) && match skip_spaces r with d :: _ => bool_decide (d ∈ [","; "}"]%char) | [] => false end
  | [] => false
  end.
Definition QUOTE : ascii := Ascii.ascii_of_nat 34.
Definition BACKSLASH : ascii := Ascii.ascii_of_nat 92.

Section descriptor.
Context (decode : bytes → option string) (parse_json : string → option jsval).

(** A string token at depth one, and the text after it. *)
Definition check_key (seen : list string) (token rest : list ascii) : result (list string) :=
  match skip_spaces rest with
  | c :: after =>
      if bool_decide (c = ":"%char) then
        match parse_json (String.string_of_list_ascii token) with
        | None => throw_plain "Unexpected token"
        | Some key =>
            match as_string key with
            | None => throw_plain "Unexpected token"
            | Some key =>
                if bool_decide (key ∈ seen) then invalid_publication "Duplicate publication descriptor field"
                else if bool_decide (key = "version"%string) && negb (exact_one after)
                then invalid_publication "Descriptor version must be an exact JSON integer"
                else Ok (seen ++ [key])
            end
        end
      else Ok seen
  | [] => Ok seen
  end.
(** The loop over the text; [token] is the part of a string read so far. *)
Fixpoint scan (depth : Z) (seen : list string) (token : option (list ascii)) (l : list ascii) : result unit :=
  match l with
  | [] => Ok tt
  | c :: l =>
      match token with
      | Some t =>
          if bool_decide (c = BACKSLASH) then
            match l with [] => Ok tt | d :: l => scan depth seen (Some (t ++ [c; d])) l end
          else if bool_decide (c = QUOTE) then
            if depth =? 1 then seen ← check_key seen (t ++ [c]) l; scan depth seen None l
            else scan depth seen None l
          else scan depth seen (Some (t ++ [c])) l
      | None =>
          if bool_decide (c = QUOTE) then scan depth seen (Some [c]) l
          else if bool_decide (c ∈ ["{"; "["]%char) then scan (depth + 1) seen None l
          else if bool_decide (c ∈ ["}"; "]"]%char) then scan (depth - 1) seen None l
          else scan depth seen None l
      end
  end.
Definition optional_hash (v : jsval) : result (option string) :=
  match v with
  | JNull => Ok None
  | v => h ← infoHash v; match as_string h with Some s => Ok (Some s) | None => invalid_publication "Invalid canonical hexadecimal value" end
  end.
(** [None]: neither text nor bytes. *)
Definition parseDescriptor (input : option bytes) : result descriptor :=
  match input with
  | None => invalid_publication "Invalid descriptor size"
  | Some b =>
      if 4096 <? byteLength b then invalid_publication "Invalid descriptor size"
      else
        match (text ← decode b; value ← parse_json text; Some (text, value)) with
        | None => invalid_publication "Invalid publication descriptor JSON"
        | Some (text, value) =>
            if negb (keysAre value ["version"; "disk"; "state"; "profile"]%string) || negb (is_int (get value "version") 1)
            then invalid_publication "Invalid publication descriptor fields"
            else
              scan 0 [] None (String.list_ascii_of_string text) ;;
              disk ← infoHash (get value "disk");
              state ← optional_hash (get value "state");
              profile ← optional_hash (get value "profile");
              match as_string disk with
              | Some disk => Ok (Descriptor disk state profile)
              | None => invalid_publication "Invalid canonical hexadecimal value"
              end
        end
  end.

(** ** The reference: the keys of a text *)
(** The string tokens that are keys at depth one, each with the text after its colon. *)
Definition key_of (token rest : list ascii) : list (list ascii * list ascii) :=
  match skip_spaces rest with c :: after => if decide (c = ":"%char) then [(token, after)] else [] | [] => [] end.
Fixpoint keys_of (depth : Z) (token : option (list ascii)) (l : list ascii) : list (list ascii * list ascii) :=
  match l with
  | [] => []
  | c :: l =>
      match token with
      | Some t =>
          if decide (c = BACKSLASH) then match l with [] => [] | d :: l => keys_of depth (Some (t ++ [c; d])) l end
          else if decide (c = QUOTE) then (if depth =? 1 then key_of (t ++ [c]) l else []) ++ keys_of depth None l
          else keys_of depth (Some (t ++ [c])) l
      | None =>
          if decide (c = QUOTE) then keys_of depth (Some [c]) l
          else keys_of (if decide (c ∈ ["{"; "["]%char) then depth + 1 else if decide (c ∈ ["}"; "]"]%char) then depth - 1 else depth) None l
      end
  end.
Definition key_name (token : list ascii) : option string := v ← parse_json (String.string_of_list_ascii token); as_string v.
(** Every field is spelled once, and the version as an exact integer. *)
Definition canonical (text : string) : Prop :=
  ∃ names, mapM (λ k, key_name k.1) (keys_of 0 None (String.list_ascii_of_string text)) = Some names ∧ NoDup names ∧
    ∀ k, k ∈ keys_of 0 None (String.list_ascii_of_string text) → key_name k.1 = Some "version"%string → exact_one k.2 = true.
End descriptor.

Section facts.
Context (decode : bytes → option string) (parse_json : string → option jsval).

(** What the scan asks of the keys it will meet. *)
Definition keys_ok (seen : list string) (keys : list (list ascii * list ascii)) : Prop :=
  ∃ names, mapM (λ k, key_name parse_json k.1) keys = Some names ∧ NoDup names ∧ (∀ x, x ∈ names → x ∉ seen) ∧
    ∀ k, k ∈ keys → key_name parse_json k.1 = Some "version"%string → exact_one k.2 = true.
Lemma keys_ok_nil seen : keys_ok seen [].
Proof using Type. exists []. split_and!; [done|apply NoDup_nil_2|by intros x ?%elem_of_nil|by intros k ?%elem_of_nil]. Qed.
Lemma keys_ok_cons seen token after keys :
  keys_ok seen ((token, after) :: keys) ↔
  ∃ key, key_name parse_json token = Some key ∧ key ∉ seen ∧ (key = "version"%string → exact_one after = true) ∧ keys_ok (seen ++ [key]) keys.
Proof using Type.
  split.
  - intros (names & HM & HN & HS & HV). cbn in HM. destruct (key_name parse_json token) as [key|] eqn:EK; [|done]. cbn in HM.
    destruct (mapM _ keys) as [ns|] eqn:EM; [|done]. injection HM as <-. apply NoDup_cons in HN as [Hk HN].
    exists key. split_and!; [done|apply HS; by left| |exists ns; split_and!; try done].
    + intros ->. by apply (HV (token, after)); [left|].
    + intros x Hx. rewrite elem_of_app, list_elem_of_singleton. intros [?| ->]; [|done]. by apply (HS x); [right|].
    + intros k Hin. apply HV. by right.
  - intros (key & EK & Hs & Hv & names & HM & HN & HS & HV). exists (key :: names). split_and!.
    + cbn. rewrite EK. cbn. by rewrite HM.
    + apply NoDup_cons. split; [|done]. intros Hin. apply (HS key Hin), elem_of_app. right. by left.
    + intros x [->|Hx]%elem_of_cons; [done|]. intros Hin. apply (HS x Hx), elem_of_app. by left.
    + intros k [->|Hk]%elem_of_cons; [|by apply HV]. cbn. intros E. apply Hv. congruence.
Qed.
Lemma check_key_spec seen token rest keys :
  (∃ seen', check_key parse_json seen token rest = Ok seen' ∧ keys_ok seen' keys) ↔ keys_ok seen (key_of token rest ++ keys).
Proof using Type.
  unfold check_key, key_of. destruct (skip_spaces rest) as [|c after]; [cbn; split; [by intros (? & [= <-] & ?)|by exists seen]|].
  case_bool_decide as Hc.
  2: { rewrite decide_False by done. cbn. split; [by intros (? & [= <-] & ?)|by exists seen]. }
  rewrite decide_True by done. cbn [app]. rewrite keys_ok_cons. unfold key_name.
  destruct (parse_json _) as [v|]; cbn; [|by split; [intros (? & ? & _)|intros (? & ? & _)]].
  destruct (as_string v) as [key|]; [|by split; [intros (? & ? & _)|intros (? & ? & _)]].
  case_bool_decide as Hk; [by split; [intros (? & ? & _)|intros (? & [= <-] & ? & _)]|].
  destruct (_ && _) eqn:E.
  - bools. split; [by intros (? & ? & _)|]. intros (? & [= <-] & _ & Hv & _). rewrite Hv in *; done.
  - split.
    + intros (? & [= <-] & H). exists key. split_and!; [done|done| |done]. intros ->. rewrite bool_decide_true in E by done. by destruct (exact_one after).
    + intros (? & [= <-] & _ & _ & H). by exists (seen ++ [key]).
Qed.
Lemma scan_spec n depth seen token l :
  (length l ≤ n)%nat → scan parse_json depth seen token l = Ok tt ↔ keys_ok seen (keys_of depth token l).
Proof using Type.
  induction n as [|n IH] in depth, seen, token, l |- *; intros Hl.
  { destruct l; [|cbn in Hl; lia]. cbn. split; [intros _; apply keys_ok_nil|done]. }
  destruct l as [|c l]; [cbn; split; [intros _; apply keys_ok_nil|done]|]. cbn in Hl. cbn [scan keys_of]. destruct token as [t|].
  - case_bool_decide as H1; [rewrite decide_True by done|rewrite decide_False by done].
    { destruct l as [|d l]; [split; [intros _; apply keys_ok_nil|done]|]. apply IH. cbn in Hl. lia. }
    case_bool_decide as H2; [rewrite decide_True by done|rewrite decide_False by done; apply IH; lia].
    destruct (depth =? 1); [|apply IH; lia]. rewrite <- check_key_spec. split.
    + intros H. inv_bind. eexists. split; [done|]. by apply IH; [lia|].
    + intros (seen' & E & H). rewrite E. cbn. by apply IH; [lia|].
  - case_bool_decide as H1; [rewrite decide_True by done; apply IH; lia|rewrite decide_False by done].
    case_bool_decide as H2; [rewrite decide_True by done; apply IH; lia|rewrite decide_False by done].
    case_bool_decide as H3; [rewrite decide_True by done; apply IH; lia|rewrite decide_False by done; apply IH; lia].
Qed.

Definition is_hash (v : jsval) (s : string) : Prop := v = JStr s ∧ infoHash (JStr s) = Ok (JStr s).
Definition is_optional (v : jsval) (o : option string) : Prop := match o with Some s => is_hash v s | None => v = JNull end.
Lemma infoHash_ok v h : infoHash v = Ok h ↔ ∃ s, h = JStr s ∧ is_hash v s.
Proof using Type.
  unfold is_hash, infoHash. split.
  - intros H. inv_bind. subst h. destruct v as [| | | |s| |]; try done. exists s. rewrite H0. done.
  - intros (s & -> & -> & H). done.
Qed.
Lemma optional_hash_ok v o : optional_hash v = Ok o ↔ is_optional v o.
Proof using Type.
  assert (HN : v ≠ JNull → optional_hash v = Ok o ↔ ∃ s, o = Some s ∧ is_hash v s).
  { intros Hv. transitivity ((h ← infoHash v; match as_string h with Some s => Ok (Some s) | None => invalid_publication "Invalid canonical hexadecimal value" end) = Ok o); [by destruct v|].
    split.
    - intros H. apply bind_ok in H as (h & Hh & H). apply infoHash_ok in Hh as (s & -> & Hs). cbn in H. injection H as <-. by exists s.
    - intros (s & -> & Hs). rewrite (proj2 (infoHash_ok v (JStr s))) by by exists s. done. }
  assert (v = JNull ∨ v ≠ JNull) as [->|Hv] by (destruct v; (by left) || by right).
  - cbn. destruct o as [s|]; [|done]. split; [done|]. by intros [? _].
  - rewrite HN by done. destruct o as [s|]; cbn; [split; [by intros (? & [= <-] & ?)|by exists s]|]. split; [by intros (? & ? & _)|done].
Qed.

(** C32: A descriptor is accepted just when it has at most 4096 bytes of JSON text with the
    four fields and no others, every field spelled once and the version as the integer
    1, and names its disk, state and profile by canonical infohashes (the last two may
    be null); it is then read as these names. *)
Theorem descriptor_accepted b d :
  parseDescriptor decode parse_json (Some b) = Ok d ↔
  byteLength b ≤ 4096 ∧ ∃ text value, decode b = Some text ∧ parse_json text = Some value ∧
    keysAre value ["version"; "disk"; "state"; "profile"]%string = true ∧ is_int (get value "version") 1 = true ∧ canonical parse_json text ∧
    is_hash (get value "disk") (d_disk d) ∧ is_optional (get value "state") (d_state d) ∧ is_optional (get value "profile") (d_profile d).
Proof using Type.
  assert (HC : ∀ text, scan parse_json 0 [] None (String.list_ascii_of_string text) = Ok tt ↔ canonical parse_json text).
  { intros text. rewrite (scan_spec (length (String.list_ascii_of_string text))) by done. unfold keys_ok, canonical.
    split; intros (names & ? & ? & H); exists names; [by destruct H|split_and!; [done|done|by intros x _ ?%elem_of_nil|done]]. }
  unfold parseDescriptor. split.
  - destruct (4096 <? byteLength b) eqn:EL; [done|]. bools. intros H. split; [done|].
    destruct (decode b) as [text|] eqn:ED; [|done]. cbn in H. destruct (parse_json text) as [value|] eqn:EJ; [|done]. cbn in H.
    destruct (_ || _) eqn:EK; [done|]. apply orb_false_iff in EK as [EK EV]. apply negb_false_iff in EK, EV. inv_bind. destruct a. apply HC in H0. apply infoHash_ok in H1 as (disk & -> & Hd).
    apply optional_hash_ok in H2, H3. cbn in H. injection H as <-. exists text, value. by split_and!.
  - intros (EL & text & value & ED & EJ & EK & EV & Hc & Hd & Hs & Hp). rewrite (proj2 (Z.ltb_ge _ _)) by done. rewrite ED. cbn. rewrite EJ. cbn.
    rewrite EK, EV. cbn [negb orb]. rewrite (proj2 (HC text) Hc). cbn [mbind result_bind].
    rewrite (proj2 (infoHash_ok _ (JStr (d_disk d)))) by by exists (d_disk d). cbn [mbind result_bind].
    rewrite (proj2 (optional_hash_ok _ _) Hs). cbn [mbind result_bind]. rewrite (proj2 (optional_hash_ok _ _) Hp). cbn. by destruct d.
Qed.
End facts.

(** A descriptor without state and profile, and the same with its disk named twice: JSON
    reads both as the same value. *)
Definition example_hash : string := "00112233445566778899aabbccddeeff00112233".
Definition quoted (s : string) : string := String QUOTE (s +:+ String QUOTE EmptyString).
Definition example_text (more : string) : string :=
  "{" +:+ quoted "version" +:+ ": 1 ," +:+ more +:+ quoted "disk" +:+ ":" +:+ quoted example_hash +:+ "," +:+ quoted "state" +:+ ":null," +:+ quoted "profile" +:+ ":null}".
Definition example_value : jsval :=
  JObj [field "version" (JNum (NInt 1)); field "disk" (JStr example_hash); field "state" JNull; field "profile" JNull].
Definition example_json (s : string) : option jsval :=
  match List.find (λ k, bool_decide (s = quoted k)) ["version"; "disk"; "state"; "profile"]%string with
  | Some k => Some (JStr k)
  | None => Some example_value
  end.
Lemma descriptor_accepted_witness :
  parseDescriptor (λ _, Some (example_text EmptyString)) example_json (Some []) = Ok (Descriptor example_hash None None) ∧
  is_ok (parseDescriptor (λ _, Some (example_text (quoted "disk" +:+ ":" +:+ quoted example_hash +:+ ","))) example_json (Some [])) = false.
Proof.
  split; [|by vm_compute]. apply descriptor_accepted. split; [by vm_compute|]. exists (example_text EmptyString), example_value.
  split_and!; [reflexivity|by vm_compute|by vm_compute|by vm_compute| |by split; vm_compute|by vm_compute|by vm_compute].
  let K := eval vm_compute in (keys_of 0 None (String.list_ascii_of_string (example_text EmptyString))) in
  assert (EK : keys_of 0 None (String.list_ascii_of_string (example_text EmptyString)) = K) by (vm_compute; reflexivity).
  unfold canonical. rewrite EK. exists ["version"; "disk"; "state"; "profile"]%string. split; [by vm_compute|]. split.
  - apply (bool_decide_unpack _). by vm_compute.
  - refine (proj1 (Forall_forall _ _) _). repeat (apply Forall_cons; split; [vm_compute; congruence|]). apply Forall_nil_2.
Defined.
