(* ===== verification/RemoteOpen.v ===== *)
(** * Opening a publication (src/src/disk/web/torrent-remote.js: discoverRecord,
    RemotePublication.open and close)

    The newest signed record names the descriptor, the descriptor the disk.  The search for
    records goes on after the first one; the seedboxes' locations are searched in the
    background and sent to the window when they are known, first the first ones found and
    then the final ones.

    What the searches find, the answers of awaited calls, the caller's abort and [close]
    are events, in any order.  A record stands for the fields that are used. *)
From S2P Require Import Prelude JsValue Hex Protocol NetworkSources Descriptor.
#[local] Open Scope Z_scope.

Record found := Found { f_infoHash : string; f_sequence : Z }.
(** [discoverRecord]: [first] settles with the first record or with the end of the search. *)
Record lookup (A : Type) := Lookup { l_first : option (result (option A)); l_settled : option (result (option A)) }.
Arguments Lookup {A}.
Arguments l_first {A}.
Arguments l_settled {A}.
Definition new_lookup {A} : lookup A := Lookup None None.
Definition on_record {A} (a : A) (l : lookup A) : lookup A :=
  match l_first l with None => Lookup (Some (Ok (Some a))) (l_settled l) | Some _ => l end.
Definition on_end {A} (r : result (option A)) (l : lookup A) : lookup A :=
  match l_settled l with
  | None => Lookup (match l_first l with None => Some r | x => x end) (Some r)
  | Some _ => l
  end.
(** [.catch(()=>null)]. *)
Definition or_null {A} (r : result (option A)) : option A := match r with Ok a => a | Throw _ => None end.

Inductive call :=
| ICreate (sourcesPending : bool)
| ISources (s : sources)
| ITorrent (hash kind : string)
| IBytes (hash : string) (size : Z)
| ICancel | IClose.
Record info := Info {
  n_infoHash : string; n_publicationInfoHash : string; n_publicKey : string; n_sequence : option Z;
  n_publication : descriptor; n_size : Z
}.
Inductive phase :=
| AwaitRecord
| Failing (e : exn)                    (** awaits the first locations *)
| Creating | OpeningDescriptor | Reading | OpeningDisk (d : descriptor)
| Closing (e : exn)                    (** awaits the close call *)
| ClosingLocations (e : exn)           (** awaits [locationsTask] *)
| Done (r : result info).
(** [remote.locationsTask] after the session was created. *)
Inductive background :=
| NoBackground
| AwaitFirst
| Sending (s : sources) (final : bool)
| AwaitSettled
| Over.

Record opening := Opening {
  o_phase : phase; o_background : background;
  o_record : lookup found;
  o_locations : option (lookup (list string));  (** [None]: the descriptor was given *)
  o_hash : string;                     (** [descriptorInfoHash] *)
  o_sequence : option Z;
  o_config : sources;
  o_created : bool;                    (** there is a [remote] *)
  o_aborted : bool;                    (** [locationsController] *)
  o_closed : bool;
  o_discoveryError : option exn;
  o_sources : option sources;          (** [remote.sources], where it was replaced *)
  o_log : list call
}.
Definition set_phase (x : phase) (s : opening) : opening :=
  Opening x (o_background s) (o_record s) (o_locations s) (o_hash s) (o_sequence s) (o_config s) (o_created s) (o_aborted s) (o_closed s) (o_discoveryError s) (o_sources s) (o_log s).
Definition set_background (x : background) (s : opening) : opening :=
  Opening (o_phase s) x (o_record s) (o_locations s) (o_hash s) (o_sequence s) (o_config s) (o_created s) (o_aborted s) (o_closed s) (o_discoveryError s) (o_sources s) (o_log s).
Definition set_lookups (record : lookup found) (locations : option (lookup (list string))) (s : opening) : opening :=
  Opening (o_phase s) (o_background s) record locations (o_hash s) (o_sequence s) (o_config s) (o_created s) (o_aborted s) (o_closed s) (o_discoveryError s) (o_sources s) (o_log s).
Definition set_remote (hash : string) (sequence : option Z) (config : sources) (s : opening) : opening :=
  Opening (o_phase s) (o_background s) (o_record s) (o_locations s) hash sequence config true (o_aborted s) (o_closed s) (o_discoveryError s) (o_sources s) (o_log s).
Definition set_aborted (s : opening) : opening :=
  Opening (o_phase s) (o_background s) (o_record s) (o_locations s) (o_hash s) (o_sequence s) (o_config s) (o_created s) true (o_closed s) (o_discoveryError s) (o_sources s) (o_log s).
Definition set_closed (s : opening) : opening :=
  Opening (o_phase s) (o_background s) (o_record s) (o_locations s) (o_hash s) (o_sequence s) (o_config s) (o_created s) (o_aborted s) true (o_discoveryError s) (o_sources s) (o_log s).
Definition set_discoveryError (e : option exn) (s : opening) : opening :=
  Opening (o_phase s) (o_background s) (o_record s) (o_locations s) (o_hash s) (o_sequence s) (o_config s) (o_created s) (o_aborted s) (o_closed s) e (o_sources s) (o_log s).
Definition set_sources (x : option sources) (s : opening) : opening :=
  Opening (o_phase s) (o_background s) (o_record s) (o_locations s) (o_hash s) (o_sequence s) (o_config s) (o_created s) (o_aborted s) (o_closed s) (o_discoveryError s) x (o_log s).
Definition say (c : call) (s : opening) : opening :=
  Opening (o_phase s) (o_background s) (o_record s) (o_locations s) (o_hash s) (o_sequence s) (o_config s) (o_created s) (o_aborted s) (o_closed s) (o_discoveryError s) (o_sources s) (o_log s ++ [c]).

Record args := Args { g_publicKey : option string; g_descriptorInfoHash : option string; g_owner : string; g_sources : jsval }.
Definition given (o : option string) : bool := match o with Some s => filled s | None => false end.

Section opening.
Context (parse_url : string → option address) (decode : bytes → option string) (parse_json : string → option jsval) (a : args).

(** ** Before the first await *)
Definition sources_value (apis trackers webseeds : list string) : jsval :=
  JObj [field "apis" (JArr (JStr <$> apis)); field "trackers" (JArr (JStr <$> trackers)); field "webseeds" (JArr (JStr <$> webseeds))].
(** The [remote] is made and its session created. *)
Definition create (hash : string) (sequence : option Z) (config : sources) (s : opening) : opening :=
  let s := set_remote hash sequence config s in
  let s := match l_settled (o_record s) with
           | Some (Throw e) => if o_aborted s then s else set_discoveryError (Some e) s
           | _ => s
           end in
  set_phase Creating (say (ICreate (bool_decide (o_locations s ≠ None))) s).
Definition open (aborted : bool) : result opening :=
  _ ← unhex (JStr (g_owner a)) 32;
  if given (g_publicKey a) && given (g_descriptorInfoHash a) then invalid_publication "Choose a public key or descriptor infohash"
  else if bool_decide (g_publicKey a ≠ None) && negb (bool_decide (g_publicKey a = Some (g_owner a)))
  then invalid_publication "Publication belongs to a different identity"
  else
    config ← torrentSources parse_url (g_sources a);
    match g_descriptorInfoHash a with
    | Some hash =>
        _ ← infoHash (JStr hash);
        Ok (create hash None config (Opening AwaitRecord NoBackground new_lookup None hash None config false false false None None []))
    | None => Ok (Opening AwaitRecord NoBackground new_lookup (Some new_lookup) "" None config false aborted false None None [])
    end.

(** ** Closing *)
(** [close()] up to its first await. *)
Definition close (s : opening) : opening := say IClose (say ICancel (set_aborted (set_closed s))).
Definition fail_open (e : exn) (s : opening) : opening := set_phase (Closing e) (close s).

(** ** Locations *)
(** [applyLocations]; [final] tells which of the two applications it is. *)
Definition apply_locations (final : bool) (locations : option (list string)) (s : opening) : opening :=
  let next := if final then Over else AwaitSettled in
  if o_closed s then set_background next s
  else
    let origins := if o_aborted s then [] else default [] locations in
    match torrentSources parse_url (sources_value origins (s_trackers (o_config s)) ((λ o, o +:+ "/content") <$> origins)) with
    | Ok sources => set_background (Sending sources final) (say (ISources sources) s)
    | Throw _ => set_background next s
    end.
Definition wake_background (s : opening) : opening :=
  match o_background s, o_locations s with
  | AwaitFirst, Some l => match l_first l with Some r => apply_locations false (or_null r) s | None => s end
  | AwaitSettled, Some l => match l_settled l with Some r => apply_locations true (or_null r) s | None => s end
  | _, _ => s
  end.

(** ** After an await *)
Definition NO_PUBLICATION : exn := Exn (Some "NO_PUBLICATION"%string) "No publication was found for this identity".
Definition wake (s : opening) : opening :=
  match o_phase s with
  | AwaitRecord =>
      match l_first (o_record s) with
      | None => s
      | Some (Throw e) => set_phase (Failing e) (set_aborted s)
      | Some (Ok None) => set_phase (Failing NO_PUBLICATION) (set_aborted s)
      | Some (Ok (Some r)) =>
          match torrentSources parse_url (sources_value [] (s_trackers (o_config s)) []) with
          | Throw e => set_phase (Done (Throw e)) s
          | Ok config => create (f_infoHash r) (Some (f_sequence r)) config s
          end
      end
  | Failing e =>
      match o_locations s with
      | Some l => match l_first l with Some _ => set_phase (Done (Throw e)) s | None => s end
      | None => set_phase (Done (Throw e)) s
      end
  | ClosingLocations e =>
      match o_background s, o_locations s with
      | Over, _ | _, None => set_phase (Done (Throw e)) s
      | NoBackground, Some l => match l_first l with Some _ => set_phase (Done (Throw e)) s | None => s end
      | _, _ => s
      end
  | _ => s
  end.

Inductive answer :=
| ACreate (r : result unit) | ATorrent (r : result (string * Z)) | ABytes (r : result bytes) | AClose (r : result unit).
Definition answered (x : answer) (s : opening) : opening :=
  match o_phase s, x with
  | Creating, ACreate (Ok _) =>
      let s := match o_locations s with Some _ => set_background AwaitFirst s | None => s end in
      set_phase OpeningDescriptor (say (ITorrent (o_hash s) "descriptor") s)
  | OpeningDescriptor, ATorrent (Ok (_, size)) => set_phase Reading (say (IBytes (o_hash s) size) s)
  | Reading, ABytes (Ok b) =>
      match parseDescriptor decode parse_json (Some b) with
      | Ok d => set_phase (OpeningDisk d) (say (ITorrent (d_disk d) "disk") s)
      | Throw e => fail_open e s
      end
  | OpeningDisk d, ATorrent (Ok (hash, size)) => set_phase (Done (Ok (Info hash (o_hash s) (g_owner a) (o_sequence s) d size))) s
  | Creating, ACreate (Throw e) | OpeningDescriptor, ATorrent (Throw e) | Reading, ABytes (Throw e) | OpeningDisk _, ATorrent (Throw e) => fail_open e s
  | Closing e, AClose _ => set_phase (ClosingLocations e) s
  | _, _ => s
  end.

Inductive event :=
| ERecord (r : found) | ERecordEnd (r : result (option found))
| ELocations (l : list string) | ELocationsEnd (r : result (option (list string)))
| EAbort                               (** the caller's signal *)
| EWake | EBackground
| EAnswer (x : answer)
| ESent (r : result unit)              (** the answer to the sources that were sent *)
| EClose.                              (** [close()] of an opened publication *)
Definition step (e : event) (s : opening) : opening :=
  match e with
  | ERecord r => set_lookups (on_record r (o_record s)) (o_locations s) s
  | ERecordEnd r =>
      let late := match l_settled (o_record s), r with
                  | None, Throw e => if o_created s && bool_decide (o_locations s ≠ None) && negb (o_closed s) && negb (o_aborted s) then Some e else o_discoveryError s
                  | _, _ => o_discoveryError s
                  end in
      set_discoveryError late (set_lookups (on_end r (o_record s)) (o_locations s) s)
  | ELocations l => set_lookups (o_record s) (on_record l <$> o_locations s) s
  | ELocationsEnd r => set_lookups (o_record s) (on_end r <$> o_locations s) s
  | EAbort => match o_locations s with Some _ => set_aborted s | None => s end
  | EWake => wake s
  | EBackground => wake_background s
  | EAnswer x => answered x s
  | ESent r =>
      match o_background s with
      | Sending sources final =>
          set_background (if final then Over else AwaitSettled) (if is_ok r then set_sources (Some sources) s else s)
      | _ => s
      end
  | EClose => match o_phase s with Done (Ok _) => if o_closed s then s else close s | _ => s end
  end.
Definition run (l : list event) (s : opening) : opening := foldl (λ s e, step e s) s l.
End opening.
