(* ===== verification/RemoteOpenFacts.v ===== *)
(** * Opening a publication: what is opened, and what is left behind *)
From S2P Require Import Prelude JsValue Hex Protocol NetworkSources Descriptor RemoteOpen.
#[local] Open Scope Z_scope.

Definition is_sources (c : call) : bool := match c with ISources _ => true | _ => false end.
Definition sent (l : list call) : list call := List.filter is_sources l.
(** No sources are sent after the session was closed. *)
Definition quiet (l : list call) : Prop := ∀ before after, l = before ++ IClose :: after → sent after = [].
Lemma sent_snoc l c : sent (l ++ [c]) = sent l ++ (if is_sources c then [c] else []).
Proof. unfold sent. rewrite List.filter_app. cbn. by destruct (is_sources c). Qed.
Lemma quiet_snoc l c : quiet l → (IClose ∈ l → is_sources c = false) → quiet (l ++ [c]).
Proof.
  intros H Hc before after E. destruct after as [|x after _] using rev_ind; [done|].
  assert (E' : l ++ [c] = (before ++ IClose :: after) ++ [x]) by (by rewrite E, <- app_assoc).
  apply app_inj_tail in E' as [-> <-]. rewrite sent_snoc, (H before after) by done. rewrite Hc; [done|]. apply elem_of_app. right. by left.
Qed.

#[local] Arguments sent : simpl never.
#[local] Arguments torrentSources : simpl never.

Section facts.
Context (parse_url : string → option address) (decode : bytes → option string) (parse_json : string → option jsval) (a : args).

(** A descriptor that some bytes were read as. *)
Definition read_from (d : descriptor) : Prop := ∃ b, parseDescriptor decode parse_json (Some b) = Ok d.
(** Where origins may come from. *)
Definition located (s : opening) (origins : list string) : Prop :=
  origins = [] ∨ ∃ l, o_locations s = Some l ∧ (l_first l = Some (Ok (Some origins)) ∨ l_settled l = Some (Ok (Some origins))).
Definition pending (s : opening) : bool := match o_background s with Sending _ _ => true | _ => false end.
Definition phase_ok (s : opening) : Prop :=
  match o_phase s with
  | AwaitRecord => o_created s = false ∧ o_closed s = false ∧ o_background s = NoBackground ∧ o_locations s ≠ None
  | Failing _ => o_created s = false ∧ o_closed s = false ∧ o_background s = NoBackground ∧ o_aborted s = true
  | Creating => o_created s = true ∧ o_closed s = false ∧ o_background s = NoBackground
  | OpeningDescriptor | Reading => o_created s = true ∧ o_closed s = false
  | OpeningDisk d => o_created s = true ∧ o_closed s = false ∧ read_from d
  | Closing _ | ClosingLocations _ => o_created s = true ∧ o_closed s = true
  | Done (Throw _) => o_closed s = o_created s ∧ (o_background s = NoBackground ∨ o_background s = Over)
  | Done (Ok i) => o_created s = true ∧ n_publicationInfoHash i = o_hash s ∧ n_publicKey i = g_owner a ∧ n_sequence i = o_sequence s ∧ read_from (n_publication i)
  end.
Definition stage (b : background) : nat :=
  match b with NoBackground | AwaitFirst => 0 | Sending _ false | AwaitSettled => 1 | Sending _ true | Over => 2 end.
Record inv (s : opening) : Prop := {
  v_closed : (o_closed s = true ↔ IClose ∈ o_log s) ∧ (o_closed s = true → o_aborted s = true ∧ o_created s = true);
  v_quiet : quiet (o_log s);
  v_phase : phase_ok s;
  v_none : o_created s = false → o_log s = [];
  v_hash : o_created s = true →
    match o_locations s with
    | Some _ => ∃ r, l_first (o_record s) = Some (Ok (Some r)) ∧ o_hash s = f_infoHash r ∧ o_sequence s = Some (f_sequence r)
    | None => g_descriptorInfoHash a = Some (o_hash s) ∧ o_sequence s = None
    end;
  v_sources : ∀ x, ISources x ∈ o_log s → ∃ origins, located s origins ∧
    torrentSources parse_url (sources_value origins (s_trackers (o_config s)) ((λ o, o +:+ "/content") <$> origins)) = Ok x;
  v_sent : (length (sent (o_log s)) ≤ stage (o_background s))%nat;
  v_current : (∀ x f, o_background s = Sending x f → ISources x ∈ o_log s) ∧ (∀ x, o_sources s = Some x → ISources x ∈ o_log s);
  v_local : o_locations s = None → o_background s = NoBackground;
  v_error : ∀ e, o_discoveryError s = Some e → l_settled (o_record s) = Some (Throw e) ∧ o_locations s ≠ None ∧ o_created s = true
}.

(** ** Searches *)
Definition extends {A} (l l' : lookup A) : Prop :=
  (∀ r, l_first l = Some r → l_first l' = Some r) ∧ (∀ r, l_settled l = Some r → l_settled l' = Some r).
Lemma extends_record {A} (x : A) l : extends l (on_record x l).
Proof using Type. unfold on_record. destruct (l_first l) as [y|] eqn:E; split; cbn; intros r Hr; congruence. Qed.
Lemma extends_end {A} (r : result (option A)) l : extends l (on_end r l).
Proof using Type. unfold on_end. destruct (l_settled l) eqn:E; [done|]. split; cbn; intros x Hx; [by rewrite Hx|congruence]. Qed.
Lemma inv_lookups record locations s :
  extends (o_record s) record →
  match o_locations s, locations with Some l, Some l' => extends l l' | None, None => True | _, _ => False end →
  inv s → inv (set_lookups record locations s).
Proof using Type.
  intros HR HL [H1 H2 H3 H4 H5 H6 H7 H8 H9 H10].
  assert (HN : o_locations s = None ↔ locations = None) by (destruct (o_locations s), locations; done).
  split; try done.
  - unfold phase_ok in *. cbn. destruct (o_phase s) as [| | | | | | | |[]]; try done. destruct H3 as (? & ? & ? & H). split_and!; try done.
    intros E. by apply H, HN.
  - cbn. intros Hc. specialize (H5 Hc). destruct (o_locations s), locations; try done. destruct H5 as (r & Hr & ?). exists r. split; [by apply HR|done].
  - cbn. intros x Hx. destruct (H6 x Hx) as (origins & Ho & ?). exists origins. split; [|done]. destruct Ho as [?|(l & El & Hl)]; [by left|right].
    rewrite El in HL. cbn. destruct locations as [l'|]; [|done]. exists l'. split; [done|]. destruct HL as [Hf Hs]. destruct Hl as [?|?]; [left; by apply Hf|right; by apply Hs].
  - cbn. intros E. by apply H9, HN.
  - cbn. intros e He. destruct (H10 e He) as (? & ? & ?). split_and!; [by apply HR| |done]. intros E. by apply HN in E.
Qed.

(** ** Steps *)
Lemma opening_background x s :
  inv s → (o_locations s = None → x = NoBackground) → (stage (o_background s) ≤ stage x)%nat → (∀ y f, x = Sending y f → ISources y ∈ o_log s) →
  match o_phase s with Done (Throw _) => x = o_background s | AwaitRecord | Failing _ | Creating => False | _ => True end →
  inv (set_background x s).
Proof using Type.
  intros [H1 H2 H3 H4 H5 H6 H7 H8 H9 H10] HL HS HX HP. split; try done; cbn.
  - unfold phase_ok in *. cbn. destruct (o_phase s) as [| | | | | | | |[]]; try done. by rewrite HP.
  - lia.
  - split; [done|by destruct H8].
Qed.
Lemma opening_send x final s :
  inv s → o_closed s = false → o_created s = true → o_locations s ≠ None →
  (∃ origins, located s origins ∧ torrentSources parse_url (sources_value origins (s_trackers (o_config s)) ((λ o, o +:+ "/content") <$> origins)) = Ok x) →
  (length (sent (o_log s)) < stage (Sending x final))%nat →
  match o_phase s with Done (Throw _) | AwaitRecord | Failing _ | Creating => False | _ => True end →
  inv (set_background (Sending x final) (say (ISources x) s)).
Proof using Type.
  intros [H1 H2 H3 H4 H5 H6 H7 H8 H9 H10] HC HR HL HO HS HP. split; cbn; try done.
  - split; [|apply H1]. rewrite elem_of_app, list_elem_of_singleton. destruct H1 as [H1 _]. rewrite <- H1. split; [by left|by intros [?|?]].
  - apply quiet_snoc; [done|]. intros Hc. apply H1 in Hc. congruence.
  - unfold phase_ok in *. cbn. by destruct (o_phase s) as [| | | | | | | |[]].
  - by rewrite HR.
  - intros y Hy. apply elem_of_app in Hy as [Hy|Hy]; [by apply H6|]. apply list_elem_of_singleton in Hy as [= ->]. done.
  - rewrite sent_snoc, length_app. cbn. cbn in HS. lia.
  - split; [intros y f [= -> ->]; apply elem_of_app; right; by left|]. intros y Hy. apply elem_of_app. left. by apply H8.
Qed.
Lemma inv_aborted s : inv s → inv (set_aborted s).
Proof using Type.
  intros [H1 H2 H3 H4 H5 H6 H7 H8 H9 H10]. split; try done; [cbn; tauto|].
  unfold phase_ok in *. cbn. destruct (o_phase s); try done. by destruct H3 as (? & ? & ? & ?).
Qed.

Lemma inv_create hash sequence config s :
  o_log s = [] → o_closed s = false → o_background s = NoBackground → o_sources s = None → o_discoveryError s = None →
  match o_locations s with
  | Some _ => ∃ r, l_first (o_record s) = Some (Ok (Some r)) ∧ hash = f_infoHash r ∧ sequence = Some (f_sequence r)
  | None => g_descriptorInfoHash a = Some hash ∧ sequence = None ∧ l_settled (o_record s) = None
  end → inv (create hash sequence config s).
Proof using Type.
  intros EL EC EB ES ED HH.
  assert (HI : ∀ d, (∀ e, d = Some e → l_settled (o_record s) = Some (Throw e) ∧ o_locations s ≠ None ∧ true = true) →
    inv (set_phase Creating (say (ICreate (bool_decide (o_locations s ≠ None))) (set_discoveryError d (set_remote hash sequence config s))))).
  { intros d Hd. split; cbn; rewrite ?EL, ?EC, ?EB, ?ES; cbn.
    - split; [|done]. split; [done|]. by intros ?%list_elem_of_singleton.
    - apply (quiet_snoc []); [|done]. intros [|? ?] ? E; discriminate E.
    - done.
    - done.
    - intros _. destruct (o_locations s); [done|]. by destruct HH as (? & ? & ?).
    - by intros x ?%list_elem_of_singleton.
    - done.
    - done.
    - done.
    - done. }
  assert (HN : inv (set_phase Creating (say (ICreate (bool_decide (o_locations s ≠ None))) (set_remote hash sequence config s)))).
  { replace (set_remote hash sequence config s) with (set_discoveryError None (set_remote hash sequence config s)); [by apply HI|].
    unfold set_discoveryError. cbn. unfold set_remote. by rewrite ED. }
  unfold create. cbn [o_record set_remote o_aborted]. destruct (l_settled (o_record s)) as [[o|e]|] eqn:E; [exact HN| |exact HN].
  destruct (o_aborted s); [exact HN|]. apply (HI (Some e)). intros e' [= <-]. split_and!; [done| |done]. intros EN. rewrite EN in HH. by destruct HH as (_ & _ & ?).
Qed.
Lemma inv_fail e s :
  inv s → o_created s = true → match o_phase s with Creating | OpeningDescriptor | Reading | OpeningDisk _ => True | _ => False end →
  inv (fail_open e s).
Proof using Type.
  intros [H1 H2 H3 H4 H5 H6 H7 H8 H9 H10] HC HP. unfold fail_open, close.
  split; cbn; try done.
  - split; [|done]. split; [|done]. intros _. apply elem_of_app. right. by left.
  - apply quiet_snoc; [apply quiet_snoc|]; done.
  - by rewrite HC.
  - intros x Hx. rewrite <- app_assoc in Hx. apply elem_of_app in Hx as [Hx|Hx]; [by apply H6|].
    repeat (apply elem_of_cons in Hx as [Hx|Hx]; [done|]). by apply elem_of_nil in Hx.
  - rewrite !sent_snoc. cbn. by rewrite !app_nil_r.
  - split; [intros x f E; rewrite <- app_assoc; apply elem_of_app; left; by apply (proj1 H8 x f)|].
    intros x E. rewrite <- app_assoc. apply elem_of_app. left. by apply (proj2 H8).
Qed.

Lemma inv_settle_phase p s : inv s → phase_ok (set_phase p s) → inv (set_phase p s).
Proof using Type. intros [H1 H2 H3 H4 H5 H6 H7 H8 H9 H10] HP. by split. Qed.
(** A call that is not for sources, in a session that is open. *)
Lemma inv_say c p s :
  inv s → o_created s = true → o_closed s = false → is_sources c = false → c ≠ IClose → phase_ok (set_phase p s) → inv (set_phase p (say c s)).
Proof using Type.
  intros [H1 H2 H3 H4 H5 H6 H7 H8 H9 H10] HR HC Hc Hn HP. split; try done; cbn.
  - split; [|apply H1]. rewrite elem_of_app, list_elem_of_singleton. destruct H1 as [H1 _]. rewrite <- H1. split; [by left|by intros [?|?]].
  - apply quiet_snoc; [done|]. by intros _.
  - by rewrite HR.
  - intros x Hx. apply elem_of_app in Hx as [Hx|Hx]; [by apply H6|]. apply list_elem_of_singleton in Hx as <-. done.
  - rewrite sent_snoc, Hc, app_nil_r. done.
  - destruct H8 as [Ha Hb]. split; [intros x f E; apply elem_of_app; left; by apply (Ha x f)|intros x E; apply elem_of_app; left; by apply Hb].
Qed.
Lemma opening_wake s : inv s → inv (wake parse_url s).
Proof using Type.
  intros H. unfold wake. destruct (o_phase s) eqn:EP; try done; pose proof (v_phase _ H) as HP; unfold phase_ok in HP; rewrite EP in HP.
  - destruct HP as (HR & HC & HB & HL). destruct (l_first (o_record s)) as [[[r|]|e]|] eqn:EF; [|..|done].
    + destruct (torrentSources _ _) as [config|e] eqn:ET; [|apply inv_settle_phase; [done|]; unfold phase_ok; cbn; rewrite HR, HC; auto].
      apply inv_create; [by apply (v_none _ H)|done|done|..].
      * destruct (o_sources s) as [x|] eqn:ES; [|done]. apply (v_current _ H) in ES. rewrite (v_none _ H HR) in ES. by apply elem_of_nil in ES.
      * destruct (o_discoveryError s) as [x|] eqn:ES; [|done]. apply (v_error _ H) in ES as (_ & _ & ?). congruence.
      * destruct (o_locations s); [|done]. by exists r.
    + apply inv_settle_phase; [by apply inv_aborted|]. by unfold phase_ok.
    + apply inv_settle_phase; [by apply inv_aborted|]. by unfold phase_ok.
  - destruct HP as (HR & HC & HB & HA).
    assert (HD : inv (set_phase (Done (Throw e)) s)) by (apply inv_settle_phase; [done|]; unfold phase_ok; cbn; rewrite HR, HC; auto).
    destruct (o_locations s) as [l|]; [|done]. by destruct (l_first l).
  - destruct HP as (HR & HC).
    assert (HD : o_background s = NoBackground ∨ o_background s = Over → inv (set_phase (Done (Throw e)) s)).
    { intros HB. apply inv_settle_phase; [done|]. unfold phase_ok. cbn. rewrite HR, HC. auto. }
    destruct (o_background s) eqn:EB, (o_locations s) as [l|] eqn:EL; try done; try (by apply HD; auto); try (by rewrite (v_local _ H EL) in EB).
    destruct (l_first l); [by apply HD; auto|done].
Qed.
Lemma opening_answered x s : inv s → inv (answered decode parse_json a x s).
Proof using Type.
  intros H. unfold answered. destruct (o_phase s) eqn:EP; try done; pose proof (v_phase _ H) as HP; unfold phase_ok in HP; rewrite EP in HP; destruct x as [[?|e0]|[[h n]|e0]|[b|e0]|r]; try done.
  - destruct HP as (HR & HC & HB). assert (HX : inv (set_background AwaitFirst (set_phase OpeningDescriptor s)) ∨ o_locations s = None).
    { destruct (o_locations s) eqn:EL; [left|by right]. apply opening_background; [by apply inv_settle_phase|cbn; congruence|cbn; rewrite HB; cbn; lia|done|done]. }
    destruct (o_locations s) eqn:EL.
    + destruct HX as [HX|?]; [|done]. exact (inv_say (ITorrent (o_hash s) "descriptor") OpeningDescriptor _ HX HR HC eq_refl ltac:(done) ltac:(done)).
    + by apply inv_say.
  - by apply inv_fail; [|by destruct HP|rewrite EP].
  - destruct HP. by apply inv_say.
  - by apply inv_fail; [|by destruct HP|rewrite EP].
  - destruct HP as [HR HC]. destruct (parseDescriptor _ _ _) as [d|e] eqn:ED; [|by apply inv_fail; [|done|rewrite EP]].
    apply inv_say; try done. unfold phase_ok. cbn. split_and!; [done|done|by exists b].
  - by apply inv_fail; [|by destruct HP|rewrite EP].
  - destruct HP as (HR & HC & HD). apply inv_settle_phase; [done|]. unfold phase_ok. cbn. by split_and!.
  - by apply inv_fail; [|by destruct HP as (? & _)|rewrite EP].
  - apply inv_settle_phase; [done|]. exact HP.
Qed.

(** Sending and its end happen while the session exists. *)
Definition sending_ok (s : opening) : Prop := match o_phase s with Done (Throw _) | AwaitRecord | Failing _ | Creating => False | _ => True end.
Lemma active_sending s : inv s → o_background s = AwaitFirst ∨ o_background s = AwaitSettled ∨ pending s = true → sending_ok s ∧ o_created s = true.
Proof using Type.
  intros H HB. pose proof (v_phase _ H) as HP. unfold phase_ok, sending_ok, pending in *.
  destruct (o_phase s) as [| | | | | | | |[i|e]]; try (by destruct HP as (? & ?)).
  - destruct HP as (_ & _ & E & _). rewrite E in HB. by destruct HB as [?|[?|?]].
  - destruct HP as (_ & _ & E & _). rewrite E in HB. by destruct HB as [?|[?|?]].
  - destruct HP as (_ & _ & E). rewrite E in HB. by destruct HB as [?|[?|?]].
  - destruct HP as (_ & E). destruct (o_background s), HB as [?|[?|?]], E as [?|?]; done.
Qed.
Lemma inv_apply (final : bool) locations s :
  inv s → o_background s = (if final then AwaitSettled else AwaitFirst) → o_locations s ≠ None →
  (∀ origins, locations = Some origins → located s origins) → inv (apply_locations parse_url final locations s).
Proof using Type.
  intros H HB HL HO. destruct (active_sending s H) as [HS HR]; [destruct final; auto|].
  assert (HN : inv (set_background (if final then Over else AwaitSettled) s)).
  { apply opening_background; [done|done|rewrite HB; destruct final; cbn; lia|by destruct final|]. unfold sending_ok in HS. destruct (o_phase s) as [| | | | | | | |[]]; done. }
  unfold apply_locations. destruct (o_closed s) eqn:EC; [done|]. destruct (torrentSources _ _) as [x|e] eqn:ET; [|done].
  apply opening_send; try done.
  - exists (if o_aborted s then [] else default [] locations). split; [|done]. destruct (o_aborted s); [by left|].
    destruct locations as [origins|]; [by apply HO|by left].
  - pose proof (v_sent _ H) as HV. rewrite HB in HV. destruct final; cbn in *; lia.
Qed.
Lemma inv_wake_background s : inv s → inv (wake_background parse_url s).
Proof using Type.
  intros H. unfold wake_background. destruct (o_background s) eqn:EB; try done; destruct (o_locations s) as [l|] eqn:EL; try done.
  - destruct (l_first l) as [r|] eqn:ER; [|done]. apply inv_apply; [done|done|congruence|]. intros origins Ho. right. exists l.
    split; [done|]. left. destruct r; [by cbn in Ho; subst|done].
  - destruct (l_settled l) as [r|] eqn:ER; [|done]. apply inv_apply; [done|done|congruence|]. intros origins Ho. right. exists l.
    split; [done|]. right. destruct r; [by cbn in Ho; subst|done].
Qed.
Lemma inv_close s i : inv s → o_phase s = Done (Ok i) → inv (close s).
Proof using Type.
  intros [H1 H2 H3 H4 H5 H6 H7 H8 H9 H10] HP. unfold phase_ok in H3. rewrite HP in H3. unfold close. split; cbn; try done.
  - split; [|by destruct H3]. split; [|done]. intros _. apply elem_of_app. right. by left.
  - apply quiet_snoc; [apply quiet_snoc|]; done.
  - unfold phase_ok. cbn. by rewrite HP.
  - destruct H3 as [-> _]. done.
  - intros x Hx. rewrite <- app_assoc in Hx. apply elem_of_app in Hx as [Hx|Hx]; [by apply H6|].
    repeat (apply elem_of_cons in Hx as [Hx|Hx]; [done|]). by apply elem_of_nil in Hx.
  - rewrite !sent_snoc. cbn. by rewrite !app_nil_r.
  - split; [intros x f E; rewrite <- app_assoc; apply elem_of_app; left; by apply (proj1 H8 x f)|].
    intros x E. rewrite <- app_assoc. apply elem_of_app. left. by apply (proj2 H8).
Qed.
Lemma inv_sources x s : inv s → (∀ y, x = Some y → ISources y ∈ o_log s) → inv (set_sources x s).
Proof using Type. intros [H1 H2 H3 H4 H5 H6 H7 H8 H9 H10] HX. split; try done. by destruct H8. Qed.
Lemma extends_refl {A} (l : lookup A) : extends l l.
Proof using Type. done. Qed.
Lemma inv_opening_step e s : inv s → inv (step parse_url decode parse_json a e s).
Proof using Type.
  intros H. destruct e; cbn [step].
  - apply inv_lookups; [apply extends_record|by destruct (o_locations s)|done].
  - assert (HL : inv (set_lookups (on_end r (o_record s)) (o_locations s) s)) by (apply inv_lookups; [apply extends_end|by destruct (o_locations s)|done]).
    destruct HL as [H1 H2 H3 H4 H5 H6 H7 H8 H9 H10]. split; try done. intros e He. cbn in He.
    destruct (l_settled (o_record s)) eqn:ES; [by apply H10|]. destruct r as [o|e']; [by apply H10|].
    destruct (_ && _) eqn:EB in He; [|by apply H10].
    injection He as <-. bools. cbn. unfold on_end. by rewrite ES.
  - apply inv_lookups; [apply extends_refl|destruct (o_locations s); [apply extends_record|done]|done].
  - apply inv_lookups; [apply extends_refl|destruct (o_locations s); [apply extends_end|done]|done].
  - destruct (o_locations s); [by apply inv_aborted|done].
  - by apply opening_wake.
  - by apply inv_wake_background.
  - by apply opening_answered.
  - destruct (o_background s) as [| |x f| |] eqn:EB; try done. destruct (active_sending s H) as [HS HR]; [right; right; unfold pending; by rewrite EB|].
    assert (HN : ∀ s', inv s' → o_background s' = Sending x f → o_phase s' = o_phase s → inv (set_background (if f then Over else AwaitSettled) s')).
    { intros s' H' EB' EP. apply opening_background; [done|..].
      - intros EL. by rewrite (v_local _ H' EL) in EB'.
      - rewrite EB'. by destruct f.
      - by destruct f.
      - rewrite EP. unfold sending_ok in HS. by destruct (o_phase s) as [| | | | | | | |[]]. }
    destruct (is_ok r); apply HN; try done. apply inv_sources; [done|]. intros y [= <-]. by apply (proj1 (v_current _ H) x f).
  - destruct (o_phase s) as [| | | | | | | |[i|]] eqn:EP; try done. destruct (o_closed s); [done|]. by eapply inv_close.
Qed.
Lemma inv_opening_run l s : inv s → inv (run parse_url decode parse_json a l s).
Proof using Type. induction l as [|e l IH] in s |- *; [done|]. intros H. by apply IH, inv_opening_step. Qed.
Lemma inv_open aborted s : open parse_url a aborted = Ok s → inv s.
Proof using Type.
  unfold open. intros H. apply bind_ok in H as (? & _ & H). destruct (_ && _); [done|]. destruct (_ && _); [done|].
  apply bind_ok in H as (config & _ & H). destruct (g_descriptorInfoHash a) as [hash|] eqn:EG.
  - apply bind_ok in H as (? & _ & H). injection H as <-. by apply inv_create.
  - injection H as <-. split; try done; cbn; try (by intros ? ?%elem_of_nil).
    + split; [|done]. split; [done|by intros ?%elem_of_nil].
    + by intros [|] ? ?.
Qed.

(** C33: A publication opens as the descriptor that was given or that the newest record
    found first names, whose bytes were accepted as a descriptor, for the given identity;
    its record's later conflict is remembered.  If opening fails after its session was
    created, the session is closed, the searches are aborted and nothing is being sent; the
    window is sent the sources at most twice, never after closing, and each time
    validated sources at the origins that were found or none. *)
Theorem opening_sound aborted s0 events :
  open parse_url a aborted = Ok s0 →
  let s := run parse_url decode parse_json a events s0 in
  (∀ i, o_phase s = Done (Ok i) →
     n_publicKey i = g_owner a ∧ read_from (n_publication i) ∧
     match o_locations s with
     | Some _ => ∃ r, l_first (o_record s) = Some (Ok (Some r)) ∧ n_publicationInfoHash i = f_infoHash r ∧ n_sequence i = Some (f_sequence r)
     | None => g_descriptorInfoHash a = Some (n_publicationInfoHash i) ∧ n_sequence i = None
     end) ∧
  (∀ e, o_phase s = Done (Throw e) →
     pending s = false ∧ if o_created s then IClose ∈ o_log s ∧ o_aborted s = true else o_log s = []) ∧
  quiet (o_log s) ∧ (length (sent (o_log s)) ≤ 2)%nat ∧
  (∀ x, ISources x ∈ o_log s → ∃ origins, located s origins ∧
     torrentSources parse_url (sources_value origins (s_trackers (o_config s)) ((λ o, o +:+ "/content") <$> origins)) = Ok x) ∧
  (∀ e, o_discoveryError s = Some e → l_settled (o_record s) = Some (Throw e)).
Proof using Type.
  intros E s. assert (H : inv s) by by eapply inv_opening_run, inv_open. pose proof (v_phase _ H) as HP. unfold phase_ok in HP. split_and!.
  - intros i Hi. rewrite Hi in HP. destruct HP as (HR & EH & EK & EQ & HD). split_and!; [done|done|]. rewrite EH, EQ. by apply (v_hash _ H).
  - intros e He. rewrite He in HP. destruct HP as (HC & HB). split; [unfold pending; by destruct HB as [-> | ->]|].
    destruct (o_created s) eqn:ER; [|by apply (v_none _ H)]. split; [by apply (v_closed _ H)|by apply (v_closed _ H)].
  - apply (v_quiet _ H).
  - pose proof (v_sent _ H). assert (stage (o_background s) ≤ 2)%nat by (destruct (o_background s) as [| |? []| |]; cbn; lia). lia.
  - apply (v_sources _ H).
  - intros e He. by destruct (v_error _ H e He).
Qed.
End facts.

(** A publication opens from its first record; its locations come meanwhile, and another
    record with the same sequence at the end. *)
Definition example_url (s : string) : option address :=
  Some (Address s s (if bool_decide (String.prefix "wss" s = true) then "wss:" else "https:")%string "host" "/" "" "" "" "").
Definition example_owner : string := hex (replicate 32 7).
Definition example_args : args := Args None None example_owner JUndefined.
Definition example_conflict : exn := Exn (Some "PUBLICATION_CONFLICT"%string) "Conflicting publications have the same sequence".
Definition example_events : list event :=
  [ERecord (Found example_hash 3); EWake; EAnswer (ACreate (Ok tt)); ELocations ["https://seed"%string]; EBackground;
   EAnswer (ATorrent (Ok (example_hash, 100))); EAnswer (ABytes (Ok [])); ESent (Ok tt);
   EAnswer (ATorrent (Ok (example_hash, 4096))); ERecordEnd (Throw example_conflict)].
Definition example_start : opening :=
  match open example_url example_args false with
  | Ok s => s
  | Throw _ => Opening AwaitRecord NoBackground new_lookup None "" None (Sources [] [] []) false false false None None []
  end.
Definition example_opened : opening :=
  run example_url (λ _, Some (example_text EmptyString)) example_json example_args example_events example_start.
Lemma opening_sound_witness :
  open example_url example_args false = Ok example_start ∧
  o_phase example_opened = Done (Ok (Info example_hash example_hash example_owner (Some 3) (Descriptor example_hash None None) 4096)) ∧
  o_discoveryError example_opened = Some example_conflict ∧ length (sent (o_log example_opened)) = 1%nat ∧
  read_from (λ _, Some (example_text EmptyString)) example_json (Descriptor example_hash None None).
Proof.
  assert (E : open example_url example_args false = Ok example_start) by (by vm_compute).
  assert (EP : o_phase example_opened = Done (Ok (Info example_hash example_hash example_owner (Some 3) (Descriptor example_hash None None) 4096))) by (by vm_compute).
  split; [exact E|]. split; [exact EP|]. split; [by vm_compute|]. split; [by vm_compute|].
  destruct (opening_sound example_url (λ _, Some (example_text EmptyString)) example_json example_args false example_start example_events E) as [H _].
  by destruct (H _ EP) as (_ & ? & _).
Defined.
