(* ===== verification/Session.v ===== *)
(** * The disk session and its machine (src/src/browser/disk-session.js; the host in
    src/src/browser/win98.js)

    [DiskSession] owns the client of the disk Worker, the opened disk and the buffer that
    serves the machine; its host owns the machine.  Both are modelled together: a method
    of the session calls the host, and together they call the client, the emulator and the
    screen, whose answers are the environment's.

    Clients, machines and buffers are named by the order of their creation.  The user may
    press Cancel while a call is pending.  Texts, captions and sizes of the screen are left
    out; a description of a disk stands for its size. *)
From S2P Require Import Prelude.
#[local] Open Scope Z_scope.

Module Session.

(** ** Calls *)
Inductive call :=
| Import                                        (** [import('.../client.js')] *)
| CreateClient (c : Z) | Unlock (c : Z) | OpenReadOnly (c : Z) | CloseClient (c : Z)
| CreateFromImage (c : Z) | CreateEmpty (c size : Z) | OpenFile (c : Z) | OpenRemote (c : Z)
| Describe (c : Z) | Save (c : Z) | Discard (c : Z)
| DownloadCurrent (c : Z) | VerifyImage (c : Z) | ClearCaches (c : Z) | RetryDownload (c : Z)
| StartAnalysis (c : Z) (restored : bool) | FinishAnalysis (c : Z) | CancelAnalysis (c : Z)
| SetPrefetch (c : Z) (restored analyze : bool) | ReadBoot (c : Z)
| CancelClient (c : Z) | AbortState             (** what [cancel()] does *)
| NewAdapter (a c size : Z) | DisposeAdapter (a : Z) | RetryAdapter (a : Z)
| CreateMachine (m a : Z) | RunMachine (m : Z) | StopMachine (m : Z) | DestroyMachine (m : Z)
| Capture (m a : option Z) (c : Z)              (** [captureMachineState] *)
| Restore (m a : Z) (c : Z)                     (** [restoreMachineState], which creates both *)
| EnterScreen | LeaveScreen | ScreenReady | Compatibility.
(** The value of a call that succeeds: a description, or whether the restored machine was
    running and its description. *)
Definition answer (c : call) : Type :=
  match c with
  | CreateFromImage _ | CreateEmpty _ _ | OpenFile _ | OpenRemote _ | OpenReadOnly _ | Describe _ | Save _ | Discard _ => Z
  | Restore _ _ _ => bool * Z
  | _ => unit
  end.

Record session := SessionState {
  s_client : option Z;
  s_description : option Z;
  s_adapter : option Z;
  s_active : bool; s_prepared : bool; s_analyzing : bool;
  s_stateAbort : bool;
  h_emulator : option Z;                        (** [emulator] of the host *)
  h_adapter : option Z;                         (** [machineAdapter] of the host *)
  s_clients : Z; s_adapters : Z; s_machines : Z;  (** created so far *)
  s_log : list (call * bool)
}.
Definition new_session : session := SessionState None None None false false false false None None 0 0 0 [].

Definition set_client (x : option Z) (s : session) : session :=
  SessionState x (s_description s) (s_adapter s) (s_active s) (s_prepared s) (s_analyzing s) (s_stateAbort s) (h_emulator s) (h_adapter s) (s_clients s) (s_adapters s) (s_machines s) (s_log s).
Definition set_description (x : option Z) (s : session) : session :=
  SessionState (s_client s) x (s_adapter s) (s_active s) (s_prepared s) (s_analyzing s) (s_stateAbort s) (h_emulator s) (h_adapter s) (s_clients s) (s_adapters s) (s_machines s) (s_log s).
Definition set_adapter (x : option Z) (s : session) : session :=
  SessionState (s_client s) (s_description s) x (s_active s) (s_prepared s) (s_analyzing s) (s_stateAbort s) (h_emulator s) (h_adapter s) (s_clients s) (s_adapters s) (s_machines s) (s_log s).
Definition set_flags (active prepared analyzing stateAbort : bool) (s : session) : session :=
  SessionState (s_client s) (s_description s) (s_adapter s) active prepared analyzing stateAbort (h_emulator s) (h_adapter s) (s_clients s) (s_adapters s) (s_machines s) (s_log s).
Definition set_active (x : bool) (s : session) : session := set_flags x (s_prepared s) (s_analyzing s) (s_stateAbort s) s.
Definition set_prepared (x : bool) (s : session) : session := set_flags (s_active s) x (s_analyzing s) (s_stateAbort s) s.
Definition set_analyzing (x : bool) (s : session) : session := set_flags (s_active s) (s_prepared s) x (s_stateAbort s) s.
Definition set_stateAbort (x : bool) (s : session) : session := set_flags (s_active s) (s_prepared s) (s_analyzing s) x s.
Definition set_host (emulator adapter : option Z) (s : session) : session :=
  SessionState (s_client s) (s_description s) (s_adapter s) (s_active s) (s_prepared s) (s_analyzing s) (s_stateAbort s) emulator adapter (s_clients s) (s_adapters s) (s_machines s) (s_log s).
Definition set_created (clients adapters machines : Z) (s : session) : session :=
  SessionState (s_client s) (s_description s) (s_adapter s) (s_active s) (s_prepared s) (s_analyzing s) (s_stateAbort s) (h_emulator s) (h_adapter s) clients adapters machines (s_log s).
Definition log (c : call) (ok : bool) (s : session) : session :=
  SessionState (s_client s) (s_description s) (s_adapter s) (s_active s) (s_prepared s) (s_analyzing s) (s_stateAbort s) (h_emulator s) (h_adapter s) (s_clients s) (s_adapters s) (s_machines s) (s_log s ++ [(c, ok)]).

(** ** The monad *)
Definition M (A : Type) : Type := session → session * result A.
#[export] Instance M_ret : MRet M := λ A a s, (s, Ok a).
#[export] Instance M_bind : MBind M := λ A B f m s, match m s with (s, Ok a) => f a s | (s, Throw e) => (s, Throw e) end.
Definition gets {A} (f : session → A) : M A := λ s, (s, Ok (f s)).
Definition modify (f : session → session) : M unit := λ s, (f s, Ok tt).
Definition fail {A} (message : string) : M A := λ s, (s, throw_plain message).
Definition rethrow {A} (e : exn) : M A := λ s, (s, Throw e).
Definition catch {A} (m : M A) (h : exn → M A) : M A := λ s, match m s with (s, Throw e) => h e s | x => x end.
(** [try { m } finally { f }]: an error of [f] replaces the outcome of [m]. *)
Definition finally {A} (m : M A) (f : M unit) : M A := λ s,
  let '(s, r) := m s in
  match f s with (s, Ok _) => (s, r) | (s, Throw e) => (s, Throw e) end.
(** [undefined.f()]. *)
Definition required {A} (o : option A) : M A := match o with Some a => mret a | None => fail "Cannot read properties of undefined" end.
Definition when (b : bool) (m : M unit) : M unit := if b then m else mret tt.
(** [o?.f()] and [if(o) f()]. *)
Definition whenever {A} (o : option A) (f : A → M unit) : M unit := match o with Some a => f a | None => mret tt end.

(** [cancel()] of the session. *)
Definition cancel (s : session) : session :=
  if s_stateAbort s then log AbortState true s
  else match s_client s with Some c => log (CancelClient c) true s | None => s end.

Section session.
(** The environment answers a call from the calls before it; its flag tells whether the
    user cancels meanwhile. *)
Context (env : list (call * bool) → ∀ c : call, bool * result (answer c)).

Definition invoke (c : call) : M (answer c) := λ s,
  let '(pressed, x) := env (s_log s) c in
  let s := if pressed then cancel s else s in
  (log c (is_ok x) s, x).
(** A call that returns at once and cannot fail. *)
Definition now (c : call) : M unit := modify (log c true).
(** Calls that create the next client or machine when they succeed. *)
Definition create_client : M Z :=
  c ← gets s_clients;
  invoke (CreateClient c) ;;
  modify (λ s, set_created (s_clients s + 1) (s_adapters s) (s_machines s) s) ;; mret c.
Definition create_machine (a : Z) : M Z :=
  m ← gets s_machines;
  invoke (CreateMachine m a) ;;
  modify (λ s, set_created (s_clients s) (s_adapters s) (s_machines s + 1) s) ;; mret m.
Definition new_adapter (c size : Z) : M Z :=
  a ← gets s_adapters;
  now (NewAdapter a c size) ;;
  modify (λ s, set_created (s_clients s) (s_adapters s + 1) (s_machines s) s) ;; mret a.

(** ** The host *)
(** [if(emulator) { await emulator.destroy(); emulator=undefined; }]. *)
Definition drop_machine : M unit :=
  m ← gets h_emulator;
  whenever m (λ m, invoke (DestroyMachine m) ;; modify (λ s, set_host None (h_adapter s) s)).
Definition host_start (a : Z) (autoFullscreen : bool) : M unit :=
  now (if autoFullscreen then EnterScreen else LeaveScreen) ;;
  catch (modify (λ s, set_host (h_emulator s) (Some a) s) ;;
         m ← create_machine a;
         modify (λ s, set_host (Some m) (h_adapter s) s) ;;
         now (RunMachine m) ;;
         invoke ScreenReady)
        (λ e, drop_machine ;; invoke LeaveScreen ;; rethrow e).
Definition host_boot (a : Z) (autoFullscreen : bool) : M unit := drop_machine ;; host_start a autoFullscreen.
Definition host_stop : M unit := m ← gets h_emulator; whenever m (λ m, invoke (StopMachine m)).
Definition host_close : M unit := invoke LeaveScreen ;; drop_machine.
Definition host_resume : M unit := m ← gets h_emulator; whenever m (λ m, now (RunMachine m)).
Definition host_capture (c : Z) : M unit :=
  invoke Compatibility ;;
  m ← gets h_emulator; a ← gets h_adapter;
  invoke (Capture m a c).
(** The new buffer and the description. *)
Definition host_restore (c : Z) (analyze : bool) : M (Z * Z) :=
  previous ← gets h_emulator; previousAdapter ← gets h_adapter;
  invoke Compatibility ;;
  m ← gets s_machines; a ← gets s_adapters;
  restored ← invoke (Restore m a c);
  modify (λ s, set_created (s_clients s) (s_adapters s + 1) (s_machines s + 1) s) ;;
  whenever previous (λ m, catch (invoke (DestroyMachine m)) (λ _, mret tt)) ;;
  whenever previousAdapter (λ a, now (DisposeAdapter a)) ;;
  modify (set_host (Some m) (Some a)) ;;
  when analyze (invoke (StartAnalysis c true)) ;;
  invoke (SetPrefetch c true analyze) ;;
  when (restored.1 || analyze) (now (RunMachine m)) ;;
  mret (a, restored.2).

(** ** The session *)
Definition unlock : M unit :=
  invoke Import ;;
  c ← create_client;
  catch (invoke (Unlock c) ;; modify (set_client (Some c)))
        (λ e, catch (invoke (CloseClient c)) (λ _, mret tt) ;; rethrow e).
Definition openRemoteReadOnly : M unit :=
  invoke Import ;;
  c ← create_client;
  catch (d ← invoke (OpenReadOnly c);
         modify (set_description (Some d)) ;; modify (set_client (Some c)) ;; modify (set_prepared false))
        (λ e, catch (invoke (CloseClient c)) (λ _, mret tt) ;; rethrow e).
(** [this.client], where a method needs it. *)
Definition the_client : M Z := c ← gets s_client; required c.
Definition createFromImage : M unit := c ← the_client; d ← invoke (CreateFromImage c); modify (set_description (Some d)).
Definition createEmpty (size : Z) : M unit := c ← the_client; d ← invoke (CreateEmpty c size); modify (set_description (Some d)).
Definition open : M unit :=
  c ← the_client; d ← invoke (OpenFile c); modify (set_description (Some d)) ;; modify (set_prepared false).
Definition openRemote : M unit :=
  c ← the_client; d ← invoke (OpenRemote c); modify (set_description (Some d)) ;; modify (set_prepared false).

Definition dispose_adapter : M unit := a ← gets s_adapter; whenever a (λ a, now (DisposeAdapter a)).
Definition boot (analyze : bool) : M unit :=
  d ← gets s_description;
  size ← required d;
  if negb (size mod 512 =? 0) then fail "The image is preserved exactly, but its length does not allow booting it as an HDD."
  else
    catch (c ← the_client;
           when analyze (invoke (StartAnalysis c false) ;; modify (set_analyzing true)) ;;
           c ← the_client;
           invoke (SetPrefetch c false analyze) ;;
           c ← the_client;
           invoke (ReadBoot c) ;;
           dispose_adapter ;;
           c ← the_client;
           d ← gets s_description; size ← required d;
           a ← new_adapter c size;
           modify (set_adapter (Some a)) ;;
           host_boot a (negb analyze) ;;
           modify (set_active true))
          (λ e, when analyze (catch (c ← the_client; invoke (CancelAnalysis c)) (λ _, mret tt) ;; modify (set_analyzing false)) ;; rethrow e).

Definition withStateOperation (work : M unit) : M unit :=
  modify (set_stateAbort true) ;;
  finally work (modify (set_stateAbort false) ;; c ← the_client; d ← invoke (Describe c); modify (set_description (Some d))).
Definition saveMachineState : M unit := withStateOperation (c ← gets s_client; c ← required c; host_capture c).
Definition restoreState (analyze : bool) : M unit :=
  withStateOperation (
    c ← gets s_client; c ← required c;
    result ← host_restore c analyze;
    modify (λ s, set_adapter (Some result.1) (set_description (Some result.2) s)) ;;
    modify (λ s, set_prepared false (set_active true s)) ;;
    when analyze (modify (set_analyzing true))).
Definition saveDisk : M unit := host_stop ;; c ← the_client; d ← invoke (Save c); modify (set_description (Some d)).
Definition downloadCurrent : M unit := host_stop ;; c ← the_client; invoke (DownloadCurrent c).
Definition verifyImage : M unit := host_stop ;; c ← the_client; invoke (VerifyImage c).
Definition clearCaches : M unit := host_stop ;; c ← the_client; invoke (ClearCaches c).
Definition retryDownload : M unit := c ← the_client; invoke (RetryDownload c).
Definition finishLoadAnalysis : M unit := c ← the_client; invoke (FinishAnalysis c) ;; modify (set_analyzing false).
Definition cancelLoadAnalysis : M unit := c ← the_client; invoke (CancelAnalysis c) ;; modify (set_analyzing false).
Definition retryAdapter : M unit := a ← gets s_adapter; a ← required a; invoke (RetryAdapter a) ;; host_resume.
Definition discardWrites : M unit :=
  active ← gets s_active;
  when active (host_stop ;; dispose_adapter ;; modify (set_adapter None) ;; host_close ;; modify (set_active false)) ;;
  c ← the_client; d ← invoke (Discard c); modify (set_description (Some d)).
Definition close : M unit :=
  active ← gets s_active;
  when active host_stop ;;
  dispose_adapter ;; modify (set_adapter None) ;; host_close ;; modify (set_active false) ;;
  c ← the_client; invoke (CloseClient c) ;;
  modify (λ s, set_description None (set_client None s)) ;;
  modify (λ s, set_flags (s_active s) false false (s_stateAbort s) s).

Inductive method :=
| MUnlock | MOpenRemoteReadOnly | MCreateFromImage | MCreateEmpty (size : Z) | MOpen | MOpenRemote
| MBoot (analyze : bool) | MSaveMachineState | MRestoreState (analyze : bool) | MSaveDisk | MDownloadCurrent | MVerifyImage
| MClearCaches | MRetryDownload | MFinishLoadAnalysis | MCancelLoadAnalysis | MRetryAdapter | MDiscardWrites | MClose.
Definition perform (m : method) : M unit :=
  match m with
  | MUnlock => unlock | MOpenRemoteReadOnly => openRemoteReadOnly | MCreateFromImage => createFromImage
  | MCreateEmpty size => createEmpty size | MOpen => open | MOpenRemote => openRemote | MBoot analyze => boot analyze
  | MSaveMachineState => saveMachineState | MRestoreState analyze => restoreState analyze | MSaveDisk => saveDisk
  | MDownloadCurrent => downloadCurrent | MVerifyImage => verifyImage | MClearCaches => clearCaches
  | MRetryDownload => retryDownload | MFinishLoadAnalysis => finishLoadAnalysis | MCancelLoadAnalysis => cancelLoadAnalysis
  | MRetryAdapter => retryAdapter | MDiscardWrites => discardWrites | MClose => close
  end.
Definition run (l : list method) (s : session) : session := foldl (λ s m, (perform m s).1) s l.
End session.
End Session.
