(* ===== verification/SessionFacts.v ===== *)
(** * The disk session: what is alive, and who owns it

    The log of calls says which machines, buffers and clients exist at each moment
    ([ledger]).  Between the session's methods, that is what its fields name. *)
From S2P Require Import Prelude Session.
Import Session.
#[local] Open Scope Z_scope.

(** ** What the calls have left alive *)
Record ledger := Ledger {
  l_machines : list (Z * Z);                    (** with the buffer each runs on *)
  l_adapters : list Z;
  l_clients : list Z;
  l_analyses : list Z                           (** clients whose analysis is on *)
}.
Definition without (c : Z) (l : list Z) : list Z := filter (λ x, x ≠ c) l.
Definition without_machine (m : Z) (l : list (Z * Z)) : list (Z * Z) := filter (λ p, p.1 ≠ m) l.
Definition entry (L : ledger) (e : call * bool) : ledger :=
  let '(Ledger ms adapters clients analyses) := L in
  match e with
  | (CreateMachine m a, true) => Ledger (ms ++ [(m, a)]) adapters clients analyses
  | (DestroyMachine m, true) => Ledger (without_machine m ms) adapters clients analyses
  | (Restore m a _, true) => Ledger (ms ++ [(m, a)]) (adapters ++ [a]) clients analyses
  | (NewAdapter a _ _, _) => Ledger ms (adapters ++ [a]) clients analyses
  | (DisposeAdapter a, _) => Ledger ms (without a adapters) clients analyses
  | (CreateClient c, true) => Ledger ms adapters (clients ++ [c]) analyses
  | (CloseClient c, _) => Ledger ms adapters (without c clients) analyses  (* [close] ends the Worker even when it fails *)
  | (StartAnalysis c _, true) => Ledger ms adapters clients (c :: analyses)
  | (FinishAnalysis c, true) | (CancelAnalysis c, true) => Ledger ms adapters clients (without c analyses)
  | _ => L
  end.
Definition read_log (l : list (call * bool)) : ledger := foldl entry (Ledger [] [] [] []) l.
Lemma read_log_snoc l e : read_log (l ++ [e]) = entry (read_log l) e.
Proof. unfold read_log. by rewrite foldl_app. Qed.
#[global] Arguments read_log : simpl never.
#[global] Arguments now : simpl never.
#[global] Arguments without : simpl never.
#[global] Arguments without_machine : simpl never.

Lemma without_elem c l x : x ∈ without c l ↔ x ≠ c ∧ x ∈ l.
Proof. unfold without. by rewrite list_elem_of_filter. Qed.
Lemma without_self c l : without c (c :: l) = without c l.
Proof. apply filter_cons_False. by intros []. Qed.
Lemma without_other c d l : d ≠ c → without c (d :: l) = d :: without c l.
Proof. intros H. by apply filter_cons_True. Qed.
Lemma without_machine_nil m : without_machine m [] = [].
Proof. done. Qed.
Lemma without_machine_self m a l : without_machine m ((m, a) :: l) = without_machine m l.
Proof. apply filter_cons_False. by intros []. Qed.
Lemma without_machine_other m n a l : n ≠ m → without_machine m ((n, a) :: l) = (n, a) :: without_machine m l.
Proof. intros H. by apply filter_cons_True. Qed.

Definition set_log (l : list (call * bool)) (s : session) : session :=
  SessionState (s_client s) (s_description s) (s_adapter s) (s_active s) (s_prepared s) (s_analyzing s) (s_stateAbort s) (h_emulator s) (h_adapter s) (s_clients s) (s_adapters s) (s_machines s) l.

Record inv (s : session) : Prop := {
  i_machines : l_machines (read_log (s_log s)) =
    match h_emulator s, h_adapter s with Some m, Some a => [(m, a)] | _, _ => [] end;
  i_buffer : h_emulator s ≠ None → s_adapter s ≠ None;
  i_active : s_active s = false → h_emulator s = None;
  i_adapters : l_adapters (read_log (s_log s)) = option_list (s_adapter s);
  i_same : ∀ a, s_adapter s = Some a → h_adapter s = Some a;
  i_clients : ∀ c, c ∈ l_clients (read_log (s_log s)) → s_client s = Some c;
  i_analyzing : s_analyzing s = true → ∃ c, s_client s = Some c ∧ c ∈ l_analyses (read_log (s_log s));
  i_abort : s_stateAbort s = false;
  i_fresh : (∀ m, h_emulator s = Some m → m < s_machines s) ∧ (∀ a, h_adapter s = Some a → a < s_adapters s)
}.

(** The calls that the page relies on: a machine is destroyed and the screen left when it
    asks for it, and the analysis and the prefetch of a state it has already switched to
    start. *)
Definition relied_on (c : call) : bool :=
  match c with DestroyMachine _ | LeaveScreen | StartAnalysis _ true | SetPrefetch _ true _ => true | _ => false end.
Definition reliable (env : list (call * bool) → ∀ c : call, bool * result (answer c)) : Prop :=
  ∀ l c, relied_on c = true → is_ok (env l c).2 = true.
(** The page offers to log in only when nobody is. *)
Definition allowed (s : session) (m : method) : Prop :=
  match m with MUnlock | MOpenRemoteReadOnly => s_client s = None | _ => True end.

(** ** Weakest preconditions *)
Record after {A} (m : M A) (Q : result A → session → Prop) (s : session) : Prop := After { after_out : let '(s', r) := m s in Q r s' }.
#[global] Arguments After {A m Q s}.
#[global] Arguments after_out {A m Q s}.
Lemma after_ret {A} (a : A) (Q : result A → session → Prop) s : Q (Ok a) s → after (mret a) Q s.
Proof. by split. Qed.
Lemma after_bind {A B} (m : M A) (f : A → M B) Q s :
  after m (λ r s', match r with Ok a => after (f a) Q s' | Throw e => Q (Throw e) s' end) s → after (m ≫= f) Q s.
Proof. intros [H]. split. unfold mbind, M_bind. destruct (m s) as [s' [a|e]]; [by destruct H|done]. Qed.
Lemma after_mono {A} (m : M A) (P Q : result A → session → Prop) s : after m P s → (∀ r s', P r s' → Q r s') → after m Q s.
Proof. intros [H] HQ. split. destruct (m s). by apply HQ. Qed.
Lemma after_catch {A} (m : M A) h Q s :
  after m (λ r s', match r with Throw e => after (h e) Q s' | Ok a => Q (Ok a) s' end) s → after (catch m h) Q s.
Proof. intros [H]. split. unfold catch. destruct (m s) as [s' [a|e]]; [done|by destruct H]. Qed.
Lemma after_finally {A} (m : M A) f Q s :
  after m (λ r s', after f (λ q s'', match q with Ok _ => Q r s'' | Throw e => Q (Throw e) s'' end) s') s → after (finally m f) Q s.
Proof. intros [H]. split. unfold finally. destruct (m s) as [s' r], H as [H]. by destruct (f s') as [s'' [a|e]]. Qed.
Lemma after_gets {A} (f : session → A) (Q : result A → session → Prop) s : Q (Ok (f s)) s → after (gets f) Q s.
Proof. by split. Qed.
Lemma after_modify f (Q : result unit → session → Prop) s : Q (Ok tt) (f s) → after (modify f) Q s.
Proof. by split. Qed.
Lemma after_fail {A} message (Q : result A → session → Prop) s : Q (throw_plain message) s → after (fail message) Q s.
Proof. by split. Qed.
Lemma after_rethrow {A} e (Q : result A → session → Prop) s : Q (Throw e) s → after (rethrow e) Q s.
Proof. by split. Qed.
Lemma after_required {A} (o : option A) Q s :
  (o = None → ∀ e, Q (Throw e) s) → (∀ a, o = Some a → Q (Ok a) s) → after (required o) Q s.
Proof. intros H1 H2. split. destruct o; [by apply H2|by apply H1]. Qed.
Lemma after_when b m Q s : (b = true → after m Q s) → (b = false → Q (Ok tt) s) → after (when b m) Q s.
Proof. destruct b; intros H1 H2; [by apply H1|by apply after_ret, H2]. Qed.
Lemma after_whenever {A} (o : option A) f Q s :
  (∀ a, o = Some a → after (f a) Q s) → (o = None → Q (Ok tt) s) → after (whenever o f) Q s.
Proof. destruct o; intros H1 H2; [by apply H1|by apply after_ret, H2]. Qed.
Lemma after_now c Q s : (∀ l, read_log l = entry (read_log (s_log s)) (c, true) → Q (Ok tt) (set_log l s)) → after (now c) Q s.
Proof. intros H. split. apply (H (s_log s ++ [(c, true)])). by rewrite read_log_snoc. Qed.

Section facts.
Context (env : list (call * bool) → ∀ c : call, bool * result (answer c)) (Henv : reliable env).

Lemma cancel_log s : ∃ l, cancel s = set_log l s ∧ read_log l = read_log (s_log s).
Proof using Type.
  unfold cancel. destruct (s_stateAbort s) eqn:E; [|destruct (s_client s) as [c|] eqn:EC].
  - exists (s_log s ++ [(AbortState, true)]). split; [by destruct s|rewrite read_log_snoc; by destruct (read_log _)].
  - exists (s_log s ++ [(CancelClient c, true)]). split; [by destruct s|rewrite read_log_snoc; by destruct (read_log _)].
  - exists (s_log s). by destruct s.
Qed.
(** A call adds its entry and nothing else changes. *)
Lemma after_invoke c Q s :
  (∀ x l, (relied_on c = true → is_ok x = true) → read_log l = entry (read_log (s_log s)) (c, is_ok x) → Q x (set_log l s)) →
  after (invoke env c) Q s.
Proof using Henv.
  intros H. split. unfold invoke. destruct (env (s_log s) c) as [pressed x] eqn:E.
  assert (HR : relied_on c = true → is_ok x = true) by (intros HR; specialize (Henv (s_log s) c HR); by rewrite E in Henv).
  destruct pressed.
  - destruct (cancel_log s) as (l & -> & Hl). specialize (H x (l ++ [(c, is_ok x)]) HR).
    rewrite read_log_snoc, Hl in H. exact (H eq_refl).
  - apply (H x (s_log s ++ [(c, is_ok x)]) HR). by rewrite read_log_snoc.
Qed.

(** A machine is dropped: none is left. *)
Lemma after_drop_machine Q s :
  Q (Ok tt) s ∧ h_emulator s = None ∨
  (∃ m, h_emulator s = Some m ∧ ∀ l, read_log l = entry (read_log (s_log s)) (DestroyMachine m, true) → Q (Ok tt) (set_host None (h_adapter s) (set_log l s))) →
  after (drop_machine env) Q s.
Proof using Henv.
  intros H. unfold drop_machine. apply after_bind, after_gets, after_whenever.
  - intros m Hm. destruct H as [[_ ?]|(m' & E & H)]; [congruence|]. assert (m' = m) as -> by congruence.
    apply after_bind, after_invoke. intros x l HR Hl. specialize (HR eq_refl). destruct x as [[]|e]; [|done]. by apply after_modify, H.
  - intros Hm. destruct H as [[? _]|(? & ? & _)]; [done|congruence].
Qed.

(** A method that keeps the invariant. *)
Definition preserves {A} (m : M A) : Prop := ∀ s, inv s → after m (λ _ s', inv s') s.

(** Calls that the ledger ignores. *)
Definition ignored (c : call) : bool :=
  match c with
  | CreateMachine _ _ | DestroyMachine _ | Restore _ _ _ | NewAdapter _ _ _ | DisposeAdapter _ | CreateClient _ | CloseClient _
  | StartAnalysis _ _ | FinishAnalysis _ | CancelAnalysis _ => false
  | _ => true
  end.
Lemma entry_ignored L c b : ignored c = true → entry L (c, b) = L.
Proof using Type. destruct L, c, b; done. Qed.
Lemma inv_log l s : read_log l = read_log (s_log s) → inv s → inv (set_log l s).
Proof using Type. intros E [? ? ? ? ? ? ? ? ?]. split; cbn; rewrite ?E; done. Qed.
Lemma preserves_invoke c : ignored c = true → preserves (invoke env c).
Proof using Henv. intros Hc s Hs. apply after_invoke. intros x l _ Hl. rewrite entry_ignored in Hl by done. by apply inv_log. Qed.
Lemma preserves_bind {A B} (m : M A) (f : A → M B) : preserves m → (∀ a, preserves (f a)) → preserves (m ≫= f).
Proof using Type. intros Hm Hf s Hs. apply after_bind. eapply after_mono; [by apply Hm|]. intros [a|e] s' H; [by apply Hf|done]. Qed.
Lemma preserves_ret {A} (a : A) : preserves (mret a).
Proof using Type. by intros s Hs. Qed.
Lemma preserves_gets {A} (f : session → A) : preserves (gets f).
Proof using Type. by intros s Hs. Qed.
Lemma preserves_required {A} (o : option A) : preserves (required o).
Proof using Type. intros s Hs. by apply after_required. Qed.
Lemma preserves_whenever {A} (o : option A) f : (∀ a, preserves (f a)) → preserves (whenever o f).
Proof using Type. intros H. destruct o; [apply H|apply preserves_ret]. Qed.
Lemma preserves_description d : preserves (modify (set_description d)).
Proof using Type. intros s []. by split. Qed.
Lemma preserves_prepared b : preserves (modify (set_prepared b)).
Proof using Type. intros s []. by split. Qed.
Lemma preserves_now c : ignored c = true → preserves (now c).
Proof using Type. intros Hc s Hs. apply after_now. intros l Hl. apply inv_log; [|done]. by rewrite Hl, entry_ignored. Qed.
Lemma preserves_the_client : preserves the_client.
Proof using Type. apply preserves_bind; [apply preserves_gets|intros]. apply preserves_required. Qed.
End facts.
#[export] Hint Resolve preserves_bind preserves_ret preserves_gets preserves_required preserves_whenever preserves_description preserves_prepared preserves_now
  preserves_the_client : session.
Ltac preserves := repeat (intros; match goal with
  | |- preserves (_ ≫= _) => apply preserves_bind
  | |- preserves (whenever _ _) => apply preserves_whenever
  | |- preserves (invoke ?env ?c) => refine (preserves_invoke env _ c _); [assumption|reflexivity]
  | |- preserves _ => solve [eauto 3 with session]
  end); intros.

Section methods.
Context (env : list (call * bool) → ∀ c : call, bool * result (answer c)) (Henv : reliable env).
#[local] Hint Resolve Henv : session.

Lemma preserves_host_stop : preserves (host_stop env).
Proof using Henv. unfold host_stop. preserves. Qed.
#[local] Hint Resolve preserves_host_stop : session.

(** The methods that only call the client. *)
Lemma preserves_calls m :
  match m with
  | MCreateFromImage | MCreateEmpty _ | MOpen | MOpenRemote | MSaveDisk | MDownloadCurrent | MVerifyImage | MClearCaches | MRetryDownload => True
  | _ => False
  end → preserves (perform env m).
Proof using Henv.
  destruct m; try done; intros _; cbn [perform];
    unfold createFromImage, createEmpty, open, openRemote, saveDisk, downloadCurrent, verifyImage, clearCaches, retryDownload; preserves.
Qed.
Lemma preserves_retryAdapter : preserves (retryAdapter env).
Proof using Henv. unfold retryAdapter, host_resume. preserves. Qed.

(** The invariant on the fields of a state, its log read. *)
Ltac read_state s := destruct s as [client description adapter active prepared analyzing stateAbort emulator hadapter clients adapters machines events].
Lemma inv_read s : inv s → ∃ lc ln,
  read_log (s_log s) = Ledger match h_emulator s, h_adapter s with Some m, Some a => [(m, a)] | _, _ => [] end (option_list (s_adapter s)) lc ln ∧
  (∀ c, c ∈ lc → s_client s = Some c) ∧ (s_analyzing s = true → ∃ c, s_client s = Some c ∧ c ∈ ln).
Proof using Type.
  intros [HM _ _ HAD _ HC HAN _ _]. destruct (read_log (s_log s)) as [lm la lc ln]. cbn in *. subst. by exists lc, ln.
Qed.
Ltac read_inv H :=
  let HM := fresh in let HD := fresh in let H1 := fresh in let H2 := fresh in
  pose proof (inv_read _ H) as (lc & ln & L & HC & HN); destruct H as [HM HB HA HD HS H1 H2 HAB [HFM HFA]]; clear HM HD H1 H2;
  cbn in L, HB, HA, HS, HC, HN, HAB, HFM, HFA.
Ltac note HL :=
  cbn in HL;
  match goal with L : read_log ?e = Ledger _ _ _ _ |- _ => rewrite L in HL; cbn in HL; clear L; rename HL into L end.
Ltac step :=
  lazymatch goal with
  | |- after (_ ≫= _) _ _ => apply after_bind
  | |- after (if ?b then _ else _) _ _ => destruct b
  | |- after (mret _) _ _ => apply after_ret
  | |- after (catch _ _) _ _ => apply after_catch
  | |- after (gets _) _ _ => apply after_gets
  | |- after (modify _) _ _ => apply after_modify
  | |- after (rethrow _) _ _ => apply after_rethrow
  | |- after (fail _) _ _ => apply after_fail
  | |- after (now _) _ _ => apply after_now; intros ? HL; note HL
  | |- after (finally _ _) _ _ => apply after_finally
  | |- after (when _ _) _ _ => apply after_when; intros ?
  | |- after (whenever _ _) _ _ => apply after_whenever; [intros ? ?|intros ?]; subst
  | |- after (required _) _ _ => apply after_required; [intros ? ?|intros ? ?]; subst
  | |- after (invoke ?env ?c) ?Q ?s =>
      refine (after_invoke env _ c Q s _); [assumption|]; intros x ? R HL; cbn in R;
      destruct x as [?|?]; [|try (specialize (R eq_refl); discriminate R)]; clear R; note HL
  end; cbn.
Lemma nobody (lc : list Z) (o : option Z) : (∀ c, c ∈ lc → o = Some c) → o = None → lc = [].
Proof using Type. intros H ->. destruct lc as [|c lc]; [done|]. by specialize (H c (list_elem_of_here _ _)). Qed.
Ltac simplify_ledger :=
  repeat first [rewrite without_self | rewrite without_machine_nil | progress (cbn [app]) | rewrite without_machine_self | rewrite without_other by lia | rewrite without_machine_other by lia].
Ltac restore_inv :=
  split; cbn; try (match goal with L : read_log ?e = _ |- context [read_log ?e] => rewrite L end; cbn; simplify_ledger); try done; try (intros; congruence);
  try (split; intros; simplify_eq; lia).
Ltac nobody :=
  match goal with HC : ∀ c, c ∈ ?lc → None = Some c |- _ =>
    pose proof (nobody _ _ HC eq_refl); subst lc; clear HC
  end;
  match goal with HN : ?b = true → ∃ c, None = Some c ∧ _ |- _ => assert (b = false) as -> by (destruct b; [by destruct (HN eq_refl) as (? & ? & _)|done]); clear HN end.
Lemma sole (c c' : Z) : c' ∈ [c] → Some c = Some c'.
Proof using Type. by intros ->%list_elem_of_singleton. Qed.
Lemma none_closed (c : Z) : c ∈ [] → None = Some c.
Proof using Type. by intros ?%elem_of_nil. Qed.
#[local] Hint Resolve sole none_closed : core.
Lemma preserves_unlock s : inv s → s_client s = None → after (unlock env) (λ _ s', inv s') s.
Proof using Henv.
  read_state s. cbn. intros Hs ->. read_inv Hs. nobody. unfold unlock, create_client. repeat step; restore_inv; eauto.
Qed.
Lemma preserves_openRemoteReadOnly s : inv s → s_client s = None → after (openRemoteReadOnly env) (λ _ s', inv s') s.
Proof using Henv.
  read_state s. cbn. intros Hs ->. read_inv Hs. nobody. unfold openRemoteReadOnly, create_client. repeat step; restore_inv; eauto.
Qed.
Lemma preserves_finish : preserves (finishLoadAnalysis env).
Proof using Henv. intros s Hs. read_state s. read_inv Hs. unfold finishLoadAnalysis, the_client. repeat step; restore_inv. Qed.
Lemma preserves_cancel : preserves (cancelLoadAnalysis env).
Proof using Henv. intros s Hs. read_state s. read_inv Hs. unfold cancelLoadAnalysis, the_client. repeat step; restore_inv. Qed.

(** The three kinds of state: nothing, a buffer without a machine, a machine on its buffer. *)
Lemma owned_cases (emulator adapter hadapter : option Z) :
  (emulator ≠ None → adapter ≠ None) → (∀ a, adapter = Some a → hadapter = Some a) →
  (emulator = None ∧ adapter = None) ∨ (∃ a, emulator = None ∧ adapter = Some a ∧ hadapter = Some a) ∨
  (∃ m a, emulator = Some m ∧ adapter = Some a ∧ hadapter = Some a).
Proof using Type.
  intros HB HS. destruct adapter as [a|]; [rewrite (HS a eq_refl); right|]; destruct emulator as [m|].
  - right. by exists m, a.
  - left. by exists a.
  - by destruct HB.
  - by left.
Qed.
Ltac owned HB HS := destruct (owned_cases _ _ _ HB HS) as [[-> ->]|[(a & -> & -> & ->)|(m & a & -> & -> & ->)]]; cbn in *.
Lemma closed a lc (o : option Z) : (∀ c : Z, c ∈ lc → Some a = Some c) → ∀ c, c ∈ without a lc → o = Some c.
Proof using Type. intros H c [Hc Hin]%without_elem. apply H in Hin. congruence. Qed.
Lemma its_analysis c ln : true = true → ∃ d : Z, Some c = Some d ∧ d ∈ c :: ln.
Proof using Type. intros _. exists c. split; [done|by left]. Qed.
Lemma old_buffer a b : (∀ x : Z, Some a = Some x → x < b) → without a [b] = [b].
Proof using Type. intros H. specialize (H a eq_refl). apply without_other. lia. Qed.
Lemma old_machine m n a : (∀ x : Z, Some m = Some x → x < n) → without_machine m [(n, a)] = [(n, a)].
Proof using Type. intros H. specialize (H m eq_refl). apply without_machine_other. lia. Qed.
#[local] Hint Resolve closed its_analysis old_buffer old_machine : core.

Definition all_gone (s : session) : Prop := h_emulator s = None ∧ s_adapter s = None ∧ s_client s = None.
Lemma preserves_close s : inv s → after (close env) (λ r s', inv s' ∧ (is_ok r = true → all_gone s')) s.
Proof using Henv.
  intros Hs. read_state s. read_inv Hs. owned HB HS; destruct active; try (by specialize (HA eq_refl)).
  all: unfold close, host_stop, dispose_adapter, host_close, drop_machine, the_client; cbn; repeat step; (split; [restore_inv; eauto|done]).
Qed.
Lemma preserves_discardWrites : preserves (discardWrites env).
Proof using Henv.
  intros s Hs. read_state s. read_inv Hs. owned HB HS; destruct active; try (by specialize (HA eq_refl)).
  all: unfold discardWrites, host_stop, dispose_adapter, host_close, drop_machine, the_client; cbn; repeat step; restore_inv; eauto.
Qed.
Lemma preserves_boot analyze : preserves (boot env analyze).
Proof using Henv.
  intros s Hs. read_state s. read_inv Hs. owned HB HS; destruct analyze.
  all: unfold boot, host_boot, host_start, create_machine, new_adapter, dispose_adapter, drop_machine, the_client; cbn; repeat step; restore_inv; eauto.
Qed.
Lemma preserves_saveMachineState : preserves (saveMachineState env).
Proof using Henv.
  intros s Hs. read_state s. read_inv Hs. unfold saveMachineState, withStateOperation, host_capture, the_client; cbn; repeat step; restore_inv; eauto.
Qed.
Lemma preserves_restoreState analyze : preserves (restoreState env analyze).
Proof using Henv.
  intros s Hs. read_state s. read_inv Hs. owned HB HS; destruct analyze.
  all: unfold restoreState, withStateOperation, host_restore, the_client; cbn; repeat step; restore_inv; eauto.
Qed.

Lemma inv_new_session : inv new_session.
Proof using Type. split; try done. by intros c ?%elem_of_nil. Qed.
Lemma inv_perform s m : inv s → allowed s m → inv (perform env m s).1.
Proof using Henv.
  intros Hs Ha. cut (after (perform env m) (λ _ s', inv s') s); [intros [H]; by destruct (perform env m s)|].
  destruct m; try (by apply preserves_calls); cbn [perform].
  - by apply preserves_unlock.
  - by apply preserves_openRemoteReadOnly.
  - by apply preserves_boot.
  - by apply preserves_saveMachineState.
  - by apply preserves_restoreState.
  - by apply preserves_finish.
  - by apply preserves_cancel.
  - by apply preserves_retryAdapter.
  - by apply preserves_discardWrites.
  - eapply after_mono; [by apply preserves_close|]. by intros r s' [? _].
Qed.
End methods.

(** The states that the page's methods lead to. *)
Inductive reachable (env : list (call * bool) → ∀ c : call, bool * result (answer c)) : session → Prop :=
| reachable_new : reachable env new_session
| reachable_perform s m : reachable env s → allowed s m → reachable env (perform env m s).1.


(** A wrong password and then the right one, a boot with analysis, a state restored while
    the user presses Cancel, and the end. *)
Definition fine (c : call) : result (answer c) :=
  match c with
  | CreateFromImage _ | CreateEmpty _ _ | OpenFile _ | OpenRemote _ | OpenReadOnly _ | Describe _ | Save _ | Discard _ => Ok 1024
  | Restore _ _ _ => Ok (true, 1024)
  | _ => Ok tt
  end.
Definition example_env (_ : list (call * bool)) (c : call) : bool * result (answer c) :=
  match c with
  | Unlock 0 => (false, throw_plain "WRONG_PASSWORD")
  | Restore _ _ _ => (true, fine c)
  | _ => (false, fine c)
  end.
Definition example_run (env : list (call * bool) → ∀ c : call, bool * result (answer c)) (l : list method) : session := run env l new_session.
Definition example_methods : list method := [MUnlock; MUnlock; MOpenRemote; MBoot true; MFinishLoadAnalysis; MRestoreState false].

Fixpoint all_allowed (env : list (call * bool) → ∀ c : call, bool * result (answer c)) (l : list method) (s : session) : Prop :=
  match l with [] => True | m :: l => allowed s m ∧ all_allowed env l (perform env m s).1 end.
Lemma reachable_run env l s : reachable env s → all_allowed env l s → reachable env (run env l s).
Proof.
  induction l as [|m l IH] in s |- *; [done|]. intros Hs [Ha Hl]. apply IH; [by apply reachable_perform|done].
Qed.


(** What the page is relied on for is needed.  The state has replaced the machine when its
    prefetch fails: the session preserves the disposed buffer, and closing leaves the new one. *)
Definition prefetch_fails (l : list (call * bool)) (c : call) : bool * result (answer c) :=
  match c with SetPrefetch _ true _ => (false, throw_plain "DISK_IO") | _ => (false, fine c) end.
Lemma failed_restore_leaks :
  let s := example_run prefetch_fails [MUnlock; MOpenRemote; MBoot false; MRestoreState false] in
  s_adapter s = Some 0 ∧ h_emulator s = Some 1 ∧ l_machines (read_log (s_log s)) = [(1, 1)] ∧ l_adapters (read_log (s_log s)) = [1] ∧
  (close prefetch_fails s).2 = Ok tt ∧ l_adapters (read_log (s_log (close prefetch_fails s).1)) = [1].
Proof. by vm_compute. Qed.
(** On a session that had not booted, the new machine runs while the session is inactive,
    and discarding the writes does not stop it. *)
Lemma failed_restore_runs :
  let s := example_run prefetch_fails [MUnlock; MOpenRemote; MRestoreState false; MDiscardWrites] in
  s_active s = false ∧ l_machines (read_log (s_log s)) = [(0, 0)] ∧ (StopMachine 0, true) ∉ s_log s.
Proof.
  split_and!; [by vm_compute..|].
  assert (H : forallb (λ e, negb (match e with (StopMachine _, _) => true | _ => false end))
    (s_log (example_run prefetch_fails [MUnlock; MOpenRemote; MRestoreState false; MDiscardWrites])) = true) by (by vm_compute).
  rewrite forallb_forall in H. intros Hin%list_elem_of_In. by specialize (H _ Hin).
Qed.
(** A boot of an active session whose new machine fails leaves it active, with nothing
    running. *)
Definition second_fails (l : list (call * bool)) (c : call) : bool * result (answer c) :=
  match c with CreateMachine 1 _ => (false, throw_plain "RangeError") | _ => (false, fine c) end.
Lemma failed_boot_active :
  let s := example_run second_fails [MUnlock; MOpenRemote; MBoot false; MBoot true] in
  s_active s = true ∧ h_emulator s = None ∧ l_machines (read_log (s_log s)) = [].
Proof. by vm_compute. Qed.
