(* ===== verification/HostPanel.v ===== *)
(** * The buttons of the machine (src/src/browser/win98.js: action, paused, reset, media;
    src/src/browser/disk-ui.js: run)

    Pausing, resetting, taking screenshots and changing media are actions that wait for the
    emulator, the network or the user; the disk panel's operations wait for the disk.  One
    flag, [busy], keeps them apart.  Media are changed while the machine is stopped.

    What is awaited, disk failures and the calls of the disk's session are events; the
    emulator is its running flag and the log of what it is asked. *)
From S2P Require Import Prelude DriveImages.
#[local] Open Scope Z_scope.

Inductive task := Eject (d : drive) | Insert (d : drive) (name : string) | Export (d : drive).
Inductive stage :=
| Toggling                             (** the pause button awaits [stop()] *)
| Unmuting | Shooting
| Picking (d : drive) | Reading (d : drive) (name : string)
| Stopping (running : bool) (t : task) (** [paused] awaits [stop()] *)
| Tasking (running : bool) (t : task)  (** [paused] awaits its work *)
| DiskOperation.                       (** the work of disk-ui.js's [run] *)
Inductive act := Run | Stop | Restart | Keys | DoTask (t : task) | Save (d : drive).
Inductive button := Pause | Reset | CtrlAltDel | Mute | Screenshot | Media (d : drive) | Download (d : drive).

Record panel := Panel {
  p_machine : option bool;             (** the emulator: whether it runs *)
  p_busy : bool; p_blocked : bool;     (** [busy], [diskBlocked] *)
  p_working : bool;                    (** of disk-ui.js *)
  p_confirm : bool;                    (** [reset.dataset.confirm] *)
  p_muted : bool;
  p_media : drive → option string;
  p_stage : option stage;              (** what is awaited *)
  p_acts : list act
}.
Definition new_panel : panel := Panel None false false false false false (λ _, None) None [].
Definition set_machine (x : option bool) (s : panel) : panel := Panel x (p_busy s) (p_blocked s) (p_working s) (p_confirm s) (p_muted s) (p_media s) (p_stage s) (p_acts s).
Definition set_busy (busy working : bool) (x : option stage) (s : panel) : panel := Panel (p_machine s) busy (p_blocked s) working (p_confirm s) (p_muted s) (p_media s) x (p_acts s).
Definition set_blocked (x : bool) (s : panel) : panel := Panel (p_machine s) (p_busy s) x (p_working s) (p_confirm s) (p_muted s) (p_media s) (p_stage s) (p_acts s).
Definition set_confirm (x : bool) (s : panel) : panel := Panel (p_machine s) (p_busy s) (p_blocked s) (p_working s) x (p_muted s) (p_media s) (p_stage s) (p_acts s).
Definition set_muted (x : bool) (s : panel) : panel := Panel (p_machine s) (p_busy s) (p_blocked s) (p_working s) (p_confirm s) x (p_media s) (p_stage s) (p_acts s).
Definition set_media (x : drive → option string) (s : panel) : panel := Panel (p_machine s) (p_busy s) (p_blocked s) (p_working s) (p_confirm s) (p_muted s) x (p_stage s) (p_acts s).
Definition say (a : act) (s : panel) : panel := Panel (p_machine s) (p_busy s) (p_blocked s) (p_working s) (p_confirm s) (p_muted s) (p_media s) (p_stage s) (p_acts s ++ [a]).
Definition put (d : drive) (x : option string) (m : drive → option string) : drive → option string := λ d', if decide (d' = d) then x else m d'.

(** ** Actions *)
(** The [finally] of [action]. *)
Definition finish (s : panel) : panel := set_busy false (p_working s) None s.
Definition await (x : stage) (s : panel) : panel := set_busy (p_busy s) (p_working s) (Some x) s.
(** [paused] up to its await; without an emulator it throws. *)
Definition start_paused (t : task) (s : panel) : panel :=
  match p_machine s with Some running => await (Stopping running t) (say Stop s) | None => finish s end.
(** [work()]; [shown]: the display is available. *)
Definition begin (b : button) (shown : bool) (s : panel) : panel :=
  match b with
  | Pause =>
      match p_machine s with
      | Some true => await Toggling (say Stop s)
      | Some false => finish (set_machine (Some true) (say Run s))
      | None => finish s
      end
  | Reset => finish (say Restart s)
  | CtrlAltDel => finish match p_machine s with Some _ => say Keys s | None => s end
  | Mute =>
      let s := set_muted (negb (p_muted s)) s in
      match p_machine s with
      | None => finish s
      | Some _ => if p_muted s then finish s else await Unmuting s
      end
  | Screenshot => match p_machine s with Some _ => if shown then await Shooting s else finish s | None => finish s end
  | Media d => match p_media s d with Some _ => start_paused (Eject d) s | None => await (Picking d) s end
  | Download d => start_paused (Export d) s
  end.
Definition action (b : button) (shown : bool) (s : panel) : panel :=
  if p_busy s || p_blocked s then s else begin b shown (set_busy true (p_working s) (p_stage s) s).
Definition click (b : button) (shown : bool) (s : panel) : panel :=
  match b with
  | Reset =>
      if p_busy s || p_blocked s || bool_decide (p_machine s = None) then s
      else if negb (p_confirm s) then set_confirm true s
      else action Reset shown (set_confirm false s)
  | _ => action b shown s
  end.

(** ** After an await *)
(** [paused] ends: the machine goes on if it ran before. *)
Definition go_on (running : bool) (s : panel) : panel := if running then set_machine (Some true) (say Run s) else s.
(** [emulator.stop()] has ended; [present]: there is a disk to export. *)
Definition stopped (r : result unit) (present : bool) (s : panel) : panel :=
  match p_stage s with
  | Some Toggling => finish (if is_ok r then set_machine (Some false) s else s)
  | Some (Stopping running t) =>
      if is_ok r then
        let s := set_machine (Some false) s in
        match t with
        | Export _ => if present then await (Tasking running t) s else finish (go_on running s)
        | _ => await (Tasking running t) (say (DoTask t) s)
        end
      else finish s
  | _ => s
  end.
(** The work of [paused] has ended. *)
Definition tasked (r : result unit) (s : panel) : panel :=
  match p_stage s with
  | Some (Tasking running t) =>
      let s := match t with Export d => if is_ok r then say (Save d) s else s | _ => s end in
      let s := go_on running s in
      let s := if is_ok r then
                 match t with
                 | Eject d => set_media (put d None (p_media s)) s
                 | Insert d name => set_media (put d (Some name) (p_media s)) s
                 | Export _ => s
                 end
               else s in
      finish s
  | _ => s
  end.

(** ** The disk panel *)
(** What an operation of the disk's session may do to the machine. *)
Inductive host_call := HStop | HBoot (ok : bool) | HRestore (running : bool) | HClose | HResume.
Definition host (c : host_call) (s : panel) : panel :=
  match c with
  | HStop => match p_machine s with Some _ => set_machine (Some false) (say Stop s) | None => s end
  | HBoot true => set_media (λ _, None) (set_blocked false (set_machine (Some true) (say Run s)))
  | HBoot false => set_blocked false (set_machine None s)
  | HRestore running => set_media (λ _, None) (set_blocked false (set_machine (Some running) (if running then say Run s else s)))
  | HClose => set_blocked false (set_machine None s)
  | HResume => let s := set_blocked false s in match p_machine s with Some _ => set_machine (Some true) (say Run s) | None => s end
  end.
(** [fail(error)]: the disk has failed; the machine is asked to stop. *)
Definition fail (s : panel) : panel :=
  let s := set_blocked true s in match p_machine s with Some _ => say Stop s | None => s end.

(** [run(text,work)] of disk-ui.js up to its await, and its [finally]. *)
Definition start_operation (s : panel) : panel :=
  if p_working s || p_busy s then s else set_busy true true (Some DiskOperation) s.
Definition end_operation (s : panel) : panel :=
  match p_stage s with Some DiskOperation => set_busy false false None s | _ => s end.

Inductive event :=
| EClick (b : button) (shown : bool)
| ECancelReset                         (** the focus is lost, or Escape *)
| EPicked (name : option string) | ERead (r : result unit) | EStopped (r : result unit) (present : bool) | ETasked (r : result unit) | EOver
| EDisk | EHost (c : host_call) | EDiskOver
| EFail | EFailStopped.
Definition step (e : event) (s : panel) : panel :=
  match e with
  | EClick b shown => click b shown s
  | ECancelReset => set_confirm false s
  | EPicked name =>
      match p_stage s with
      | Some (Picking d) => match name with Some name => await (Reading d name) s | None => finish s end
      | _ => s
      end
  | ERead r => match p_stage s with Some (Reading d name) => if is_ok r then start_paused (Insert d name) s else finish s | _ => s end
  | EStopped r present => stopped r present s
  | ETasked r => tasked r s
  | EOver => match p_stage s with Some (Unmuting | Shooting) => finish s | _ => s end
  | EDisk => start_operation s
  | EHost c => match p_stage s with Some DiskOperation => host c s | _ => s end
  | EDiskOver => end_operation s
  | EFail => fail s
  | EFailStopped => match p_machine s with Some true => if p_blocked s then set_machine (Some false) s else s | _ => s end
  end.
Definition run (l : list event) (s : panel) : panel := foldl (λ s e, step e s) s l.
