(* ===== verification/HostPanelFacts.v ===== *)
(** * The buttons of the machine: one action at a time *)
From S2P Require Import Prelude DriveImages HostPanel.
#[local] Open Scope Z_scope.

(** The emulator was asked to stop and not to run since. *)
Definition halted (l : list act) : Prop := ∃ a b, l = a ++ Stop :: b ∧ Run ∉ b.
Lemma halted_stop l : halted (l ++ [Stop]).
Proof. exists l, []. split; [done|apply not_elem_of_nil]. Qed.
Lemma halted_snoc l x : halted l → x ≠ Run → halted (l ++ [x]).
Proof.
  intros (a & b & -> & Hb) Hx. exists a, (b ++ [x]). split; [by rewrite <- app_assoc|]. rewrite elem_of_app, list_elem_of_singleton. intros [?|?]; [done|congruence].
Qed.
Definition careful (l : list act) : Prop := ∀ l1 t l2, l = l1 ++ DoTask t :: l2 → halted l1.
Lemma careful_snoc l x : careful l → ((∃ t, x = DoTask t) → halted l) → careful (l ++ [x]).
Proof.
  intros H Hx l1 t l2 E. destruct l2 as [|y l2 _] using rev_ind.
  - apply app_inj_tail in E as [-> ->]. apply Hx. by exists t.
  - rewrite app_comm_cons, app_assoc in E. apply app_inj_tail in E as [-> _]. by eapply H.
Qed.

Record orderly (s : panel) : Prop := {
  or_busy : p_busy s = bool_decide (p_stage s ≠ None);
  or_working : p_working s = true → p_stage s = Some DiskOperation;
  or_stopping : ∀ running t, p_stage s = Some (Stopping running t) → halted (p_acts s) ∧ ∃ x, p_machine s = Some x ∧ (x = true → running = true);
  or_tasking : ∀ running t, p_stage s = Some (Tasking running t) → p_machine s = Some false;
  or_careful : careful (p_acts s)
}.
(** The stage is one of those that promise nothing. *)
Definition plain (x : option stage) : Prop := match x with Some (Stopping _ _ | Tasking _ _ | DiskOperation) => False | _ => True end.
Lemma orderly_plain s : p_busy s = bool_decide (p_stage s ≠ None) → p_working s = false → plain (p_stage s) → careful (p_acts s) → orderly s.
Proof.
  intros H1 H2 H3 H4. split; [done|by rewrite H2| | |done]; intros running t E; by rewrite E in H3.
Qed.
Ltac settled_ := match goal with |- orderly (if ?b then _ else _) => destruct b; settled_ | |- orderly (match ?b with Some _ => _ | None => _ end) => destruct b eqn:?; settled_ | _ => idtac end.
Lemma orderly_finish s : p_working s = false → careful (p_acts s) → orderly (finish s).
Proof. intros. by apply orderly_plain. Qed.
Lemma orderly_await x s : p_working s = false → p_busy s = true → plain (Some x) → careful (p_acts s) → orderly (await x s).
Proof. intros HW HB HP HC. by apply orderly_plain. Qed.
Lemma careful_say a s : careful (p_acts s) → (∀ t, a ≠ DoTask t) → careful (p_acts (say a s)).
Proof. intros H Ha. apply careful_snoc; [done|]. intros [t ->]. by destruct (Ha t). Qed.
Lemma orderly_start_paused t s : p_working s = false → p_busy s = true → careful (p_acts s) → orderly (start_paused t s).
Proof.
  intros HW HB HC. unfold start_paused. destruct (p_machine s) as [r|] eqn:EM; [|by apply orderly_finish].
  split; cbn; try done.
  - by rewrite HW.
  - intros running t' [= <- <-]. split; [apply halted_stop|]. rewrite EM. by exists r.
  - apply careful_snoc; [done|]. by intros [? ?].
Qed.
Lemma orderly_action b shown s : orderly s → orderly (action b shown s).
Proof.
  intros H. unfold action. destruct (p_busy s || p_blocked s) eqn:EB; [done|]. apply orb_false_iff in EB as [EB _].
  pose proof (or_busy _ H) as HB. rewrite EB in HB. symmetry in HB. apply bool_decide_eq_false in HB.
  assert (HW : p_working s = false).
  { destruct (p_working s) eqn:E; [|done]. apply (or_working _ H) in E. destruct HB. by rewrite E. }
  pose proof (or_careful _ H) as HC. set (s1 := set_busy true _ _ s). assert (H1 : p_working s1 = false ∧ p_busy s1 = true ∧ careful (p_acts s1)) by done.
  destruct H1 as (W1 & B1 & C1). clearbody s1. unfold begin. destruct b; [destruct (p_machine s1) as [[]|]|..].
  - apply orderly_await; [done|done|done|by apply careful_say].
  - apply orderly_finish; [done|by apply careful_say].
  - by apply orderly_finish.
  - apply orderly_finish; [done|by apply careful_say].
  - destruct (p_machine s1); apply orderly_finish; try done. by apply careful_say.
  - cbn [set_muted p_machine]. destruct (p_machine s1); [|by apply orderly_finish]. destruct (p_muted _); [by apply orderly_finish|by apply orderly_await].
  - destruct (p_machine s1); [|by apply orderly_finish]. destruct shown; [by apply orderly_await|by apply orderly_finish].
  - destruct (p_media s1 d); [by apply orderly_start_paused|by apply orderly_await].
  - by apply orderly_start_paused.
Qed.
Lemma orderly_confirm x s : orderly s → orderly (set_confirm x s).
Proof. intros []. by split. Qed.
Lemma orderly_blocked x s : orderly s → orderly (set_blocked x s).
Proof. intros []. by split. Qed.
Lemma orderly_click b shown s : orderly s → orderly (click b shown s).
Proof.
  intros H. unfold click. destruct b; try by apply orderly_action. destruct (_ || _); [done|].
  destruct (negb _); [by apply orderly_confirm|by apply orderly_action, orderly_confirm].
Qed.
(** An action is under way. *)
Lemma acting s x : orderly s → p_stage s = Some x → x ≠ DiskOperation → p_working s = false ∧ p_busy s = true.
Proof.
  intros H E Hx. split; [|by rewrite (or_busy _ H), E]. destruct (p_working s) eqn:EW; [|done]. apply (or_working _ H) in EW. congruence.
Qed.
Lemma orderly_stopped r present s : orderly s → orderly (stopped r present s).
Proof.
  intros H. unfold stopped. destruct (p_stage s) as [[| | | | |running t| |]|] eqn:ES; try done.
  - destruct (acting s _ H ES) as [HW HB]; [done|]. apply orderly_finish; [by destruct (is_ok r)|]. destruct (is_ok r); apply (or_careful _ H).
  - destruct (acting s _ H ES) as [HW HB]; [done|]. destruct (is_ok r); [|apply orderly_finish; [done|apply (or_careful _ H)]].
    destruct (or_stopping _ H running t ES) as (HH & _). pose proof (or_careful _ H) as HC.
    assert (HT : ∀ s', p_working s' = false → p_busy s' = true → p_machine s' = Some false → careful (p_acts s') → orderly (await (Tasking running t) s')).
    { intros s' W B M C. split; cbn; try done. by rewrite W. }
    assert (HD : careful (p_acts (say (DoTask t) (set_machine (Some false) s)))) by by apply careful_snoc.
    destruct t; [by apply HT|by apply HT|]. destruct present; [by apply HT|]. apply orderly_finish; [by destruct running|].
    destruct running; [by apply careful_say|done].
Qed.
Lemma orderly_tasked r s : orderly s → orderly (tasked r s).
Proof.
  intros H. unfold tasked. destruct (p_stage s) as [[| | | | | |running t|]|] eqn:ES; try done. destruct (acting s _ H ES) as [HW HB]; [done|].
  pose proof (or_careful _ H) as HC. set (s1 := match t with Export d => _ | _ => s end).
  assert (H1 : p_working s1 = false ∧ careful (p_acts s1)) by (unfold s1; destruct t; [done|done|destruct (is_ok r); [split; [done|by apply careful_say]|done]]).
  assert (H2 : p_working (go_on running s1) = false ∧ careful (p_acts (go_on running s1))).
  { destruct H1. destruct running; [split; [done|]|done]. by apply careful_say. }
  destruct H2 as [W2 C2]. apply orderly_finish; [|]; destruct (is_ok r); [by destruct t|done|by destruct t|done].
Qed.
Lemma orderly_host c s : orderly s → p_stage s = Some DiskOperation → orderly (host c s).
Proof.
  intros [HB HW _ _ HC] ES. unfold host.
  assert (HX : ∀ s', p_busy s' = p_busy s → p_working s' = p_working s → p_stage s' = p_stage s → careful (p_acts s') → orderly s').
  { intros s' E1 E2 E3 C. split; rewrite ?E1, ?E2, ?E3; [done|done|..|done]; intros ??; by rewrite ES. }
  destruct c as [|[]|[]| |]; [destruct (p_machine s)|..|destruct (p_machine _)]; apply HX; try done; by apply careful_say.
Qed.
Lemma orderly_step e s : orderly s → orderly (step e s).
Proof.
  intros H. pose proof (or_careful _ H) as HC. destruct e; cbn [step]; unfold start_operation, end_operation.
  - by apply orderly_click.
  - by apply orderly_confirm.
  - destruct (p_stage s) as [[]|] eqn:ES; try done. destruct (acting s _ H ES) as [HW HB]; [done|]. destruct name; [by apply orderly_await|by apply orderly_finish].
  - destruct (p_stage s) as [[]|] eqn:ES; try done. destruct (acting s _ H ES) as [HW HB]; [done|]. destruct (is_ok r); [by apply orderly_start_paused|by apply orderly_finish].
  - by apply orderly_stopped.
  - by apply orderly_tasked.
  - destruct (p_stage s) as [[]|] eqn:ES; try done; destruct (acting s _ H ES) as [HW HB]; [done| |done|]; by apply orderly_finish.
  - destruct (p_working s || p_busy s); [done|]. by split.
  - destruct (p_stage s) as [[]|] eqn:ES; try done. by apply orderly_host.
  - destruct (p_stage s) as [[]|] eqn:ES; done.
  - unfold fail. cbn [set_blocked p_machine]. destruct (p_machine s) eqn:EM; [|by apply orderly_blocked]. destruct H as [H1 H2 H3 H4 _].
    split; cbn; try done; rewrite ?EM in *; try done.
    + intros running t E. destruct (H3 running t E) as [Hh ?]. split; [by apply halted_snoc|done].
    + by apply careful_say.
  - destruct (p_machine s) as [[]|] eqn:EM; [|done|done]. destruct (p_blocked s); [|done]. destruct H as [H1 H2 H3 H4 _]. split; cbn; try done.
    intros running t E. destruct (H3 running t E) as [Hh ?]. split; [done|]. by exists false.
Qed.

(** ** Resets *)
(** What happens from [s] to [s'] restarts nothing and does not arm the reset button. *)
Definition calm (s s' : panel) : Prop := (∃ more, p_acts s' = p_acts s ++ more ∧ Restart ∉ more) ∧ (p_confirm s' = true → p_confirm s = true).
Lemma calm_refl s : calm s s.
Proof. split; [|done]. exists []. by rewrite app_nil_r; split; [|apply not_elem_of_nil]. Qed.
Lemma calm_say a s s' : a ≠ Restart → calm s s' → calm s (say a s').
Proof.
  intros Ha [(more & E & Hm) HC]. split; [|done]. exists (more ++ [a]). cbn. rewrite E, <- app_assoc. split; [done|].
  rewrite elem_of_app, list_elem_of_singleton. intros [?|?]; congruence.
Qed.
Lemma calm_machine x s s' : calm s s' → calm s (set_machine x s').
Proof. done. Qed.
Lemma calm_busy b w x s s' : calm s s' → calm s (set_busy b w x s').
Proof. done. Qed.
Lemma calm_blocked x s s' : calm s s' → calm s (set_blocked x s').
Proof. done. Qed.
Lemma calm_muted x s s' : calm s s' → calm s (set_muted x s').
Proof. done. Qed.
Lemma calm_media x s s' : calm s s' → calm s (set_media x s').
Proof. done. Qed.
Lemma calm_disarm s s' : calm s s' → calm s (set_confirm false s').
Proof. intros [H _]. by split. Qed.
Create HintDb calm.
#[local] Hint Resolve calm_refl calm_say calm_machine calm_busy calm_blocked calm_muted calm_media calm_disarm : calm.
#[local] Hint Extern 1 (_ ≠ Restart) => discriminate : calm.
Lemma calm_action b shown s : b ≠ Reset → calm s (action b shown s).
Proof.
  intros Hb. unfold action, begin, start_paused, finish, await. destruct b; try done; repeat case_match; eauto 12 with calm.
Qed.
Lemma calm_step e s : (∀ shown, e ≠ EClick Reset shown) → calm s (step e s).
Proof.
  intros He. destruct e; cbn [step]; unfold start_operation, end_operation, stopped, tasked, host, fail, go_on, start_paused, finish, await; cbn zeta;
    [|repeat case_match; eauto 12 with calm..]. destruct b; try (apply calm_action; done). by destruct (He shown).
Qed.
(** The reset button was clicked and neither the focus was lost nor Escape pressed since. *)
Definition armed (events : list event) : Prop := ∃ l1 shown l2, events = l1 ++ EClick Reset shown :: l2 ∧ ECancelReset ∉ l2.
Lemma confirm_armed events : p_confirm (run events new_panel) = true → armed events.
Proof.
  induction events as [|e events IH] using rev_ind; [done|]. unfold run. rewrite foldl_app. cbn [foldl]. fold (run events new_panel). set (s := run events new_panel) in *.
  intros HC. assert (Hor : (∃ shown, e = EClick Reset shown) ∨ ∀ shown, e ≠ EClick Reset shown).
  { destruct e as [[| | | | | |]| | | | | | | | | | |]; (by right) || (left; by eexists). }
  destruct Hor as [[shown ->]|He]; [exists events, shown, []; split; [done|apply not_elem_of_nil]|].
  destruct (calm_step e s He) as [_ H]. destruct (IH (H HC)) as (l1 & shown & l2 & -> & Hl). exists l1, shown, (l2 ++ [e]). rewrite <- app_assoc. split; [done|].
  rewrite elem_of_app, list_elem_of_singleton. intros [?|<-]; [done|]. done.
Qed.

Lemma orderly_run events : orderly (run events new_panel).
Proof.
  induction events as [|e events IH] using rev_ind; [split; try done; by intros [] ?|]. unfold run. rewrite foldl_app. by apply orderly_step.
Qed.
Lemma prefix_restart l1 e more :
  p_acts (run (l1 ++ [e]) new_panel) = p_acts (run l1 new_panel) ++ more → Restart ∈ more → (∃ shown, e = EClick Reset shown) ∧ armed l1.
Proof.
  unfold run. rewrite foldl_app. cbn [foldl]. fold (run l1 new_panel). set (s := run l1 new_panel). intros EA Hr.
  assert (Hor : (∃ shown, e = EClick Reset shown) ∨ ∀ shown, e ≠ EClick Reset shown).
  { destruct e as [[| | | | | |]| | | | | | | | | | |]; (by right) || (left; by eexists). }
  destruct Hor as [[shown ->]|He].
  - split; [by exists shown|]. apply confirm_armed. fold s. cbn [step click] in EA. destruct (_ || _); [|destruct (p_confirm s); [done|]]; cbn in EA.
    all: rewrite <- (app_nil_r (p_acts s)) in EA at 1; apply app_inv_head in EA as <-; by apply elem_of_nil in Hr.
  - destruct (calm_step e s He) as [(more' & E & Hm) _]. rewrite E in EA. apply app_inv_head in EA as ->. done.
Qed.

(** C37: However clicks, answers, disk operations and disk failures interleave, one operation
    is under way at a time, and clicks do nothing meanwhile or while the disk has failed.
    Media are changed, and floppies exported, while the machine is stopped; afterwards it
    runs just when it did at the click, and the panel names the medium that was put in.  The
    machine is reset only by a second click, with neither a loss of focus nor Escape since
    the first. *)
Theorem one_action events :
  let s := run events new_panel in
  p_busy s = bool_decide (p_stage s ≠ None) ∧ (p_working s = true → p_stage s = Some DiskOperation) ∧
  (p_stage s ≠ None → step EDisk s = s ∧ ∀ b shown, click b shown s = s) ∧ (p_blocked s = true → ∀ b shown, click b shown s = s) ∧
  (∀ l1 t l2, p_acts s = l1 ++ DoTask t :: l2 → halted l1) ∧
  (∀ b shown running t, p_stage s = None → p_stage (click b shown s) = Some (Stopping running t) → p_machine s = Some running) ∧
  (∀ running t r, p_stage s = Some (Tasking running t) →
     p_machine s = Some false ∧ let s' := step (ETasked r) s in p_machine s' = Some running ∧ p_stage s' = None ∧
     ∀ d, p_media s' d = match t with Eject d' => if decide (d = d' ∧ is_ok r = true) then None else p_media s d
                         | Insert d' name => if decide (d = d' ∧ is_ok r = true) then Some name else p_media s d | Export _ => p_media s d end) ∧
  (∀ l1 e l2 more, events = l1 ++ e :: l2 → p_acts (run (l1 ++ [e]) new_panel) = p_acts (run l1 new_panel) ++ more → Restart ∈ more →
     (∃ shown, e = EClick Reset shown) ∧ armed l1).
Proof.
  intros s. pose proof (orderly_run events) as H. fold s in H. assert (HB : ∀ b shown, p_busy s || p_blocked s = true → click b shown s = s)
    by (intros b shown E; unfold click, action; rewrite E; by destruct b).
  split_and!.
  - apply (or_busy _ H).
  - apply (or_working _ H).
  - intros Hs. assert (EB : p_busy s = true) by (rewrite (or_busy _ H); by apply bool_decide_eq_true). split; [cbn [step]; unfold start_operation; by rewrite EB, orb_true_r|].
    intros b shown. apply HB. by rewrite EB.
  - intros EB b shown. apply HB. by rewrite EB, orb_true_r.
  - apply (or_careful _ H).
  - intros b shown running t Hs. unfold click, action, begin, start_paused, finish, await. destruct b; repeat case_match; cbn in *; congruence.
  - intros running t r Hs. pose proof (or_tasking _ H running t Hs) as HM. split; [done|]. cbn [step]. unfold tasked. rewrite Hs. cbn zeta.
    split_and!; [|done|].
    + unfold finish, go_on. destruct running, (is_ok r), t; done.
    + intros d. assert (HG : ∀ x, p_media (go_on running x) = p_media x) by by destruct running.
      assert (HP : ∀ d' name (m : drive → option string), put d' name m d = if decide (d = d' ∧ true = true) then name else m d).
      { intros d' name m. unfold put. destruct (decide (d = d')) as [E|E]; [by rewrite decide_True|rewrite decide_False; [done|]; by intros []]. }
      destruct t as [d'|d' name|d'], (is_ok r); cbn [finish set_busy set_media p_media]; rewrite ?HG; cbn [say p_media]; [apply HP| |apply HP| |done|done].
      all: by rewrite decide_False by by intros [].
  - intros l1 e l2 more _. apply prefix_restart.
Qed.

(** A CD is inserted and a floppy ejected while the machine runs; reset is clicked twice. *)
Definition example_events : list event :=
  [EDisk; EHost (HBoot true); EDiskOver; EClick (Media cdrom) true; EPicked (Some "win98.iso"%string); EClick Pause true; ERead (Ok tt); EStopped (Ok tt) true; ETasked (Ok tt);
   EClick Reset true; EClick Reset true].
Lemma one_action_witness :
  let s := run example_events new_panel in
  p_machine s = Some true ∧ p_acts s = [Run; Stop; DoTask (Insert cdrom "win98.iso"); Run; Restart] ∧ p_media s cdrom = Some "win98.iso"%string ∧
  armed (take 10 example_events) ∧ halted [Run; Stop].
Proof.
  intros s. split; [vm_compute; reflexivity|]. split; [vm_compute; reflexivity|]. split; [vm_compute; reflexivity|].
  destruct (one_action example_events) as (_ & _ & _ & _ & HC & _ & _ & HR). split.
  - refine (proj2 (HR (take 10 example_events) (EClick Reset true) [] [Restart] _ _ _)); [vm_compute; reflexivity|vm_compute; reflexivity|by left].
  - refine (HC [Run; Stop] (Insert cdrom "win98.iso") [Run; Restart] _). vm_compute. reflexivity.
Defined.
(** A disk failure while a medium is changed: the machine goes on although it should stop. *)
Example failed_disk_goes_on :
  let s := run [EDisk; EHost (HBoot true); EDiskOver; EClick (Media fda) true; EPicked (Some "a.img"%string); ERead (Ok tt); EStopped (Ok tt) true; EFail; ETasked (Ok tt)] new_panel in
  p_machine s = Some true ∧ p_blocked s = true.
Proof. split; reflexivity. Qed.
