(* ===== verification/DiskPanel.v ===== *)
(** * The buttons of the disk (src/src/browser/disk-ui.js)

    Every button of the disk panel runs a short dialogue: it may ask the user for a file
    or for a confirmation, then calls the disk's session (Session.v).  A dialogue is a
    tree; the answers of the user, of the page and of the session choose the path. *)
From S2P Require Import Prelude.
#[local] Open Scope Z_scope.

(** What the session is asked to do. *)
Inductive call :=
| unlock | openRemote | openRemoteReadOnly | createFromImage | createEmpty (size : Z) | open_ | boot (analyze : bool)
| saveMachineState | restoreState (analyze published : bool) | finishLoadAnalysis | cancelLoadAnalysis
| saveDisk | downloadCurrent | retryDownload | verifyImage | clearCaches | retryAdapter | discardWrites | close | relayPublicKey.
Inductive question :=
| PickFile                             (** [host.pickFiles()]: a file was chosen *)
| Confirm                              (** [window.confirm(...)] *)
| HasSession                           (** [host.hasSession()] *)
| Options.                             (** [publicationOptions()] has an answer *)
Inductive dialogue :=
| Done | Fails
| Ask (q : question) (yes no : dialogue)
| Call (c : call) (ok failed : dialogue).
(** A call whose failure is shown. *)
Definition try (c : call) : dialogue := Call c Done Fails.
(** [if(host.hasSession()&&!window.confirm(...))return;]. *)
Definition unless_declined (d : dialogue) : dialogue := Ask HasSession (Ask Confirm d Done) d.
Definition restore (analyze published : bool) : dialogue := unless_declined (try (restoreState analyze published)).
Definition local_restore (analyze : bool) : dialogue := Ask PickFile (restore analyze false) Done.

Inductive button :=
| Login | ReadKey | Create | RelayKey | EmptyForm (sizeMiB : option Z) | Open | LoadState | SaveState | ResumeState | Boot
| Analyze | AnalyzeBoot | AnalyzeResume | AnalyzeFile | SaveDisk | Download | Retry | Verify | ClearCache | Resume | Discard | Close.
(** [catch(error) { await session.cancelLoadAnalysis()...; throw error; }] around a dialogue. *)
Fixpoint or_cancel (d : dialogue) : dialogue :=
  match d with
  | Done => Done
  | Fails => Call cancelLoadAnalysis Fails Fails
  | Ask q yes no => Ask q (or_cancel yes) (or_cancel no)
  | Call c ok failed => Call c (or_cancel ok) (or_cancel failed)
  end.
Definition work (b : button) : dialogue :=
  match b with
  | Login => Call unlock (Ask Options (try openRemote) Fails) Fails
  | ReadKey => Ask Options (try openRemoteReadOnly) Fails
  | Create => Ask PickFile (try createFromImage) Done
  | RelayKey => try relayPublicKey
  | EmptyForm sizeMiB => match sizeMiB with Some n => try (createEmpty (n * 1048576)) | None => Done end
  | Open => Ask PickFile (try open_) Done
  | LoadState => local_restore false
  | SaveState => try saveMachineState
  | ResumeState => restore false true
  | Boot => unless_declined (try (boot false))
  | Analyze => try finishLoadAnalysis
  | AnalyzeBoot => unless_declined (try (boot true))
  | AnalyzeResume => or_cancel (restore true true)
  | AnalyzeFile => or_cancel (local_restore true)
  | SaveDisk => Ask Confirm (try saveDisk) Done
  | Download => try downloadCurrent
  | Retry => try retryDownload
  | Verify => try verifyImage
  | ClearCache => try clearCaches
  | Resume => try retryAdapter
  | Discard => Ask Confirm (try discardWrites) Done
  | Close => Ask Confirm (try close) Done
  end.
(** What the panel looks at before it starts. *)
Record view := View { v_working : bool; v_busy : bool; v_client : bool; v_description : bool; v_analyzing : bool }.
Definition press (b : button) (s : view) : dialogue :=
  let run := if v_working s || v_busy s then Done else work b in
  match b with
  | Login | ReadKey => if v_working s || v_busy s || v_client s then Done else run
  | EmptyForm sizeMiB =>
      if negb (v_client s) || v_description s || v_working s || v_busy s then Done
      else match sizeMiB with
           | Some n => if negb (is_safe n) || (n <? 1) || (1048576 <? n) then Done else run
           | None => Done
           end
  | Analyze => if v_analyzing s then run else Done
  | _ => run
  end.

(** ** Playing a dialogue *)
Inductive item := Answered (q : question) (yes : bool) | Called (c : call) (ok : bool).
(** The answers in their order; without an answer the dialogue waits. *)
Fixpoint play (d : dialogue) (answers : list bool) : list item :=
  match d, answers with
  | Ask q yes no, a :: answers => Answered q a :: play (if a then yes else no) answers
  | Call c ok failed, a :: answers => Called c a :: play (if a then ok else failed) answers
  | _, _ => []
  end.

(** ** Facts *)
Definition asked (l : list item) (q : question) (a : bool) : Prop := Answered q a ∈ l.
(** What has to come before a call. *)
Definition allowed (c : call) (before : list item) : Prop :=
  match c with
  | boot _ | restoreState _ true => asked before HasSession false ∨ asked before Confirm true
  | restoreState _ false => asked before PickFile true ∧ (asked before HasSession false ∨ asked before Confirm true)
  | saveDisk | discardWrites | close => asked before Confirm true
  | createFromImage | open_ => asked before PickFile true
  | openRemote => Called unlock true ∈ before
  | createEmpty size => 1048576 ≤ size ≤ 1048576 * 1048576 ∧ size mod 1048576 = 0
  | cancelLoadAnalysis => ∃ published, Called (restoreState true published) false ∈ before
  | _ => True
  end.
Fixpoint permits (d : dialogue) (before : list item) : Prop :=
  match d with
  | Done | Fails => True
  | Ask q yes no => permits yes (before ++ [Answered q true]) ∧ permits no (before ++ [Answered q false])
  | Call c ok failed => allowed c before ∧ permits ok (before ++ [Called c true]) ∧ permits failed (before ++ [Called c false])
  end.
Lemma permits_play d before answers l1 c a l2 :
  permits d before → play d answers = l1 ++ Called c a :: l2 → allowed c (before ++ l1).
Proof.
  induction d as [| |q yes IHy no IHn|c' ok IHo failed IHf] in before, answers, l1 |- *; intros HP E.
  - by destruct l1.
  - by destruct l1.
  - destruct answers as [|b answers]; [by destruct l1|]. cbn in E. destruct l1 as [|x l1]; [done|]. injection E as <- E.
    replace (before ++ Answered q b :: l1) with ((before ++ [Answered q b]) ++ l1) by by rewrite <- app_assoc.
    destruct HP as [Hy Hn]. destruct b; [by eapply IHy|by eapply IHn].
  - destruct answers as [|b answers]; [by destruct l1|]. cbn in E. destruct HP as (HA & Ho & Hf). destruct l1 as [|x l1].
    + injection E as -> -> _. by rewrite app_nil_r.
    + injection E as <- E. replace (before ++ Called c' b :: l1) with ((before ++ [Called c' b]) ++ l1) by by rewrite <- app_assoc.
      destruct b; [by eapply IHo|by eapply IHf].
Qed.
Ltac in_list := unfold asked; repeat first [by left | right].
Lemma permits_press b s : permits (press b s) [].
Proof.
  unfold press. destruct (v_working s), (v_busy s), (v_client s), (v_description s), (v_analyzing s); cbn [orb negb]; destruct b as [| | | |[n|]| | | | | | | | | | | | | | | | |]; try exact I.
  all: try (destruct (_ || _) eqn:E; [exact I|]; apply orb_false_iff in E as [E ?%Z.ltb_ge]; apply orb_false_iff in E as [_ ?%Z.ltb_ge]).
  all: cbn; unfold asked; split_and!; try exact I; try (by apply Z.mod_mul); try lia.
  all: try (by repeat first [by left | right]).
  all: try (by left; repeat first [by left | right]).
  all: try (by right; repeat first [by left | right]).
  all: try (eexists; by repeat first [by left | right]).
Qed.

(** After a failed call comes nothing, or the end of a load analysis. *)
Fixpoint gives_up (d : dialogue) : Prop :=
  match d with
  | Done | Fails => True
  | Ask _ yes no => gives_up yes ∧ gives_up no
  | Call _ ok failed => gives_up ok ∧ (failed = Done ∨ failed = Fails ∨ failed = Call cancelLoadAnalysis Fails Fails)
  end.
Lemma gives_up_play d answers l1 c l2 :
  gives_up d → play d answers = l1 ++ Called c false :: l2 → l2 = [] ∨ ∃ a, l2 = [Called cancelLoadAnalysis a].
Proof.
  induction d as [| |q yes IHy no IHn|c' ok IHo failed IHf] in answers, l1 |- *; intros HG E.
  - by destruct l1.
  - by destruct l1.
  - destruct answers as [|b answers]; [by destruct l1|]. cbn in E. destruct l1 as [|x l1]; [done|]. injection E as _ E. destruct HG. destruct b; [by eapply IHy|by eapply IHn].
  - destruct answers as [|b answers]; [by destruct l1|]. cbn in E. destruct HG as [Ho Hf]. destruct l1 as [|x l1].
    + injection E as -> -> E. destruct Hf as [->|[->| ->]]; [left; by destruct answers|left; by destruct answers|]. destruct answers as [|a answers]; [by left|]. right. exists a.
      cbn in E. rewrite <- E. f_equal. by destruct a, answers.
    + injection E as _ E. destruct b; [by eapply IHo|]. destruct Hf as [->|[->| ->]]; [by destruct answers, l1|by destruct answers, l1|].
      eapply (IHf answers l1); [|done]. by split; [|right; left].
Qed.
Lemma gives_up_press b s : gives_up (press b s).
Proof.
  unfold press. destruct (v_working s), (v_busy s), (v_client s), (v_description s), (v_analyzing s); cbn [orb negb]; destruct b as [| | | |[n|]| | | | | | | | | | | | | | | | |]; try exact I.
  all: try (destruct (_ || _); [exact I|]).
  all: cbn; split_and!; auto.
Qed.
Lemma press_idle b s : press b s ≠ Done → v_working s = false ∧ v_busy s = false ∧ (b = Login ∨ b = ReadKey → v_client s = false).
Proof.
  unfold press. destruct (v_working s), (v_busy s), (v_client s); cbn [orb]; destruct b as [| | | |[n|]| | | | | | | | | | | | | | | | |]; cbn; rewrite ?orb_true_r; try done.
  all: try (destruct (v_analyzing s); done). all: try (destruct (v_description s); cbn; try done; destruct (_ || _); done). all: by intros _; split_and!; try done; intros [|].
Qed.

(** Whatever the user and the session answer: a button does something only when no other
    operation is under way; nothing that ends the Windows session, drops its writes or
    closes the identity is done without a confirmation (where there is a session to lose),
    nothing with a file that was not chosen, no publication is opened before its identity, and an
    empty disk has a whole number of MiB up to 1 TiB.  After a failure nothing more is
    asked of the session but to end a load analysis that was to begin with a restored
    state. *)
Theorem dialogues_careful b s answers l1 c a l2 :
  play (press b s) answers = l1 ++ Called c a :: l2 →
  v_working s = false ∧ v_busy s = false ∧ (b = Login ∨ b = ReadKey → v_client s = false) ∧ allowed c l1 ∧
  (a = false → l2 = [] ∨ ∃ a', l2 = [Called cancelLoadAnalysis a']).
Proof.
  intros E. destruct (press_idle b s) as (HW & HB & HC); [intros EP; rewrite EP in E; by destruct answers, l1|]. split_and!; [done|done|done| |].
  - change l1 with ([] ++ l1). eapply permits_play; [apply permits_press|done].
  - intros ->. eapply gives_up_play; [apply gives_up_press|done].
Qed.
(** A load analysis from a chosen state is confirmed and fails. *)
Lemma dialogues_careful_witness :
  let s := View false false true true false in
  play (press AnalyzeFile s) [true; true; true; false; true] =
    [Answered PickFile true; Answered HasSession true; Answered Confirm true; Called (restoreState true false) false; Called cancelLoadAnalysis true] ∧
  allowed (restoreState true false) [Answered PickFile true; Answered HasSession true; Answered Confirm true].
Proof.
  intros s. split; [reflexivity|].
  apply (dialogues_careful AnalyzeFile s [true; true; true; false; true] [Answered PickFile true; Answered HasSession true; Answered Confirm true] (restoreState true false) false
    [Called cancelLoadAnalysis true]). reflexivity.
Defined.
