(* ===== verification/AgentInput.v ===== *)
(** * Typing for the agent (src/scripts/agent/input.js)

    The development agent types text and key combinations as scan codes.  Text is typed
    with Alt and the code page number of each character on the keypad, so that it does
    not depend on the keyboard's layout.

    Text is its list of code points; key names are ASCII and [toLowerCase] is JavaScript's.
    (The names constructor and __proto__ find inherited properties and fail later.) *)
From S2P Require Import Prelude.
From Stdlib Require Import Ascii.
#[local] Open Scope Z_scope.

Definition codes_of (keys : list (string * Z)) : list (string * list Z) := (λ p, (p.1, [p.2])) <$> keys.
Definition letters : list (string * list Z) :=
  codes_of [("a", 0x1e); ("b", 0x30); ("c", 0x2e); ("d", 0x20); ("e", 0x12); ("f", 0x21); ("g", 0x22); ("h", 0x23); ("i", 0x17); ("j", 0x24); ("k", 0x25); ("l", 0x26); ("m", 0x32);
    ("n", 0x31); ("o", 0x18); ("p", 0x19); ("q", 0x10); ("r", 0x13); ("s", 0x1f); ("t", 0x14); ("u", 0x16); ("v", 0x2f); ("w", 0x11); ("x", 0x2d); ("y", 0x15); ("z", 0x2c)]%string.
Definition digits : list Z := [0x0b; 0x02; 0x03; 0x04; 0x05; 0x06; 0x07; 0x08; 0x09; 0x0a].
Definition keypad : list Z := [0x52; 0x4f; 0x50; 0x51; 0x4b; 0x4c; 0x4d; 0x47; 0x48; 0x49].
Definition special : list (string * list Z) :=
  [("enter", [0x1c]); ("tab", [0x0f]); ("escape", [0x01]); ("esc", [0x01]); ("space", [0x39]); ("backspace", [0x0e]); ("delete", [0xe0; 0x53]); ("insert", [0xe0; 0x52]);
   ("home", [0xe0; 0x47]); ("end", [0xe0; 0x4f]); ("up", [0xe0; 0x48]); ("down", [0xe0; 0x50]); ("left", [0xe0; 0x4b]); ("right", [0xe0; 0x4d]); ("pageup", [0xe0; 0x49]); ("pagedown", [0xe0; 0x51]);
   ("ctrl", [0x1d]); ("control", [0x1d]); ("alt", [0x38]); ("shift", [0x2a]); ("win", [0xe0; 0x5b]); ("meta", [0xe0; 0x5b])]%string.
(** The characters of code page 1252 from 128 to 159. *)
Definition extras : list Z :=
  [0x20AC; 0x81; 0x201A; 0x192; 0x201E; 0x2026; 0x2020; 0x2021; 0x2C6; 0x2030; 0x160; 0x2039; 0x152; 0x8D; 0x17D; 0x8F;
   0x90; 0x2018; 0x2019; 0x201C; 0x201D; 0x2022; 0x2013; 0x2014; 0x2DC; 0x2122; 0x161; 0x203A; 0x153; 0x9D; 0x17E; 0x178].

(** [[...code.slice(0,-1),code.at(-1)|0x80]]. *)
Definition release (code : list Z) : list Z :=
  match last code with Some c => removelast code ++ [Z.lor c 0x80] | None => [0x80] end.
Fixpoint assoc {A} (name : string) (l : list (string * A)) : option A :=
  match l with [] => None | (k, v) :: l => if bool_decide (k = name) then Some v else assoc name l end.
(** The keys whose names have numbers: [/^\d$/], [f1] to [f12] and [num0] to [num9]. *)
Definition digit_name (n : nat) : string := String (Ascii.ascii_of_nat (48 + n)) EmptyString.
Definition numbered : list (string * list Z) :=
  imap (λ n c, (digit_name n, [c])) digits ++
  ((λ n, ("f" +:+ (if (n <? 10)%nat then digit_name n else "1" +:+ digit_name (n - 10)),
          [if (n <=? 10)%nat then 0x3a + Z.of_nat n else if (n =? 11)%nat then 0x57 else 0x58])) <$> seq 1 12) ++
  imap (λ n c, ("num" +:+ digit_name n, [c])) keypad.

Section input.
Context (toLowerCase : string → string).
Definition keyCodes (name : string) : result (list Z) :=
  let n := toLowerCase name in
  match assoc n special with
  | Some c => Ok c
  | None =>
      if bool_decide (n = "numlock"%string) then Ok [0x45]
      else if bool_decide (n = "capslock"%string) then Ok [0x3a]
      else match assoc n letters with
           | Some c => Ok c
           | None => match assoc n numbered with Some c => Ok c | None => throw_plain "Unsupported key" end
           end
  end.
(** [chord.split("+")]. *)
Fixpoint split (s : string) : list string :=
  match s with
  | EmptyString => [EmptyString]
  | String c s =>
      if bool_decide (c = "+"%char) then EmptyString :: split s
      else match split s with n :: l => String c n :: l | [] => [String c EmptyString] end
  end.
Definition modifiers : list string := ["ctrl"; "control"; "alt"; "shift"; "win"; "meta"]%string.
Fixpoint all_codes (names : list string) : result (list (list Z)) :=
  match names with
  | [] => Ok []
  | n :: names => c ← keyCodes n; l ← all_codes names; Ok (c :: l)
  end.
Definition chordCodes (chord : string) : result (list Z) :=
  if 80 <? Z.of_nat (String.length chord) then throw_plain "Invalid key combination"
  else
    let names := split chord in
    if (5 <? Z.of_nat (length names)) || negb (forallb (λ n, bool_decide (toLowerCase n ∈ modifiers)) (removelast names))
    then throw_plain "Use modifiers followed by one key"
    else keys ← all_codes names; Ok (concat keys ++ concat (release <$> rev keys)).
End input.

(** [text.replaceAll("\r\n","\n")]. *)
Fixpoint newlines (text : list Z) : list Z :=
  match text with
  | [] => []
  | c :: text => if (c =? 13) && bool_decide (head text = Some 10) then newlines text else c :: newlines text
  end.
Fixpoint indexOf (l : list Z) (x : Z) : option Z :=
  match l with [] => None | y :: l => if y =? x then Some 0 else i ← indexOf l x; Some (i + 1) end.
Definition cp1252 (point : Z) : option Z :=
  if ((32 <=? point) && (point <=? 126)) || ((160 <=? point) && (point <=? 255)) then Some point
  else extra ← indexOf extras point; if bool_decide (extra + 128 ∈ [129; 141; 143; 144; 157]) then None else Some (extra + 128).
(** One digit on the keypad. *)
Definition strike (digit : Z) : list Z := let k := [default 0 (keypad !! Z.to_nat digit)] in k ++ release k.
Definition charCodes (c : Z) : result (list Z) :=
  if (c =? 10) || (c =? 13) then Ok ([0x1c] ++ release [0x1c])
  else if c =? 9 then Ok ([0x0f] ++ release [0x0f])
  else match cp1252 c with
       | None => throw_plain "Character is not representable in Windows-1252"
       | Some v => Ok ([0x38] ++ strike 0 ++ strike (v / 100) ++ strike (v / 10 mod 10) ++ strike (v mod 10) ++ [0xb8])
       end.
Fixpoint text_loop (text : list Z) : result (list Z) :=
  match text with
  | [] => Ok []
  | c :: text => l ← charCodes c; rest ← text_loop text; Ok (l ++ rest)
  end.
(** The length of a text in UTF-16 units. *)
Definition units (text : list Z) : Z := sum_list_Z ((λ c, if c <? 0x10000 then 1 else 2) <$> text).
Definition textCodes (text : list Z) : result (list Z) :=
  if 16384 <? units text then throw_plain "Text must contain at most 16384 characters" else text_loop (newlines text).

(** ** The keyboard that reads the codes *)
(** A key is its code after the prefix 0xe0, or without it.  While Alt is held, keypad digits
    are collected; its release types the character they number. *)
Record keyboard := Keyboard { y_prefix : bool; y_held : list (bool * Z); y_alt : list Z; y_typed : list Z }.
Definition ready : keyboard := Keyboard false [] [] [].
(** Code page 1252 by number, after a leading zero. *)
Definition character (numbers : list Z) : option Z :=
  match numbers with
  | [0; a; b; c] =>
      let v := 100 * a + 10 * b + c in
      if (128 <=? v) && (v <=? 159) then extras !! Z.to_nat (v - 128) else Some v
  | _ => None
  end.
Definition pressed (p : bool) (c : Z) (k : keyboard) : keyboard :=
  let alt := if bool_decide ((false, 0x38) ∈ y_held k) && negb p then match indexOf keypad c with Some d => y_alt k ++ [d] | None => y_alt k end else y_alt k in
  let typed := if negb p && (c =? 0x1c) then y_typed k ++ [10] else if negb p && (c =? 0x0f) then y_typed k ++ [9] else y_typed k in
  Keyboard false (if bool_decide ((p, c) ∈ y_held k) then y_held k else y_held k ++ [(p, c)]) (if negb p && (c =? 0x38) then [] else alt) typed.
Definition released (p : bool) (c : Z) (k : keyboard) : keyboard :=
  let typed := if negb p && (c =? 0x38) then match character (y_alt k) with Some x => y_typed k ++ [x] | None => y_typed k end else y_typed k in
  Keyboard false (filter (λ x, x ≠ (p, c)) (y_held k)) (y_alt k) typed.
Definition scan (k : keyboard) (code : Z) : keyboard :=
  if code =? 0xe0 then Keyboard true (y_held k) (y_alt k) (y_typed k)
  else if code <? 0x80 then pressed (y_prefix k) code k
  else released (y_prefix k) (code - 0x80) k.
Definition scans (l : list Z) (k : keyboard) : keyboard := foldl scan k l.
