(* ===== verification/AgentInputFacts.v ===== *)
(** * Typing for the agent: the keyboard reads what was meant *)
From S2P Require Import Prelude AgentInput.
#[local] Open Scope Z_scope.

Lemma scans_app a b k : scans (a ++ b) k = scans b (scans a k).
Proof. apply foldl_app. Qed.

(** ** Text *)
(** From rest the codes type one character and end at rest. *)
Definition types (l : list Z) (c : Z) : Prop :=
  ∀ alt typed, ∃ alt', scans l (Keyboard false [] alt typed) = Keyboard false [] alt' (typed ++ [c]).
Definition alt_down : list (bool * Z) := [(false, 0x38)].
Lemma strike_digit d numbers typed : 0 <= d <= 9 →
  scans (strike d) (Keyboard false alt_down numbers typed) = Keyboard false alt_down (numbers ++ [d]) typed.
Proof.
  intros Hd. assert (H : d ∈ [0; 1; 2; 3; 4; 5; 6; 7; 8; 9]) by (rewrite !elem_of_cons; lia).
  clear Hd. repeat (apply elem_of_cons in H as [->|H]; [reflexivity|]). by apply not_elem_of_nil in H.
Qed.
Definition alt_codes (v : Z) : list Z := [0x38] ++ strike 0 ++ strike (v / 100) ++ strike (v / 10 mod 10) ++ strike (v mod 10) ++ [0xb8].
Lemma alt_types v c : 0 <= v <= 255 → character [0; v / 100; v / 10 mod 10; v mod 10] = Some c → types (alt_codes v) c.
Proof.
  intros Hv Hc alt typed. unfold alt_codes. rewrite !scans_app.
  change (scans [0x38] (Keyboard false [] alt typed)) with (Keyboard false alt_down [] typed).
  pose proof (Z.mod_pos_bound v 10). pose proof (Z.mod_pos_bound (v / 10) 10).
  rewrite (strike_digit 0), (strike_digit (v / 100)), (strike_digit (v / 10 mod 10)), (strike_digit (v mod 10)) by (try lia; Z.to_euclidean_division_equations; lia).
  exists [0; v / 100; v / 10 mod 10; v mod 10]. change (scans [0xb8]) with (λ k, scan k 0xb8). cbn [app].
  unfold scan, released, alt_down. cbn [y_alt y_typed y_held y_prefix]. change (184 =? 224) with false. change (184 <? 128) with false. cbn iota. cbv beta iota.
  change (184 - 128 =? 56) with true. cbn [negb andb]. rewrite Hc. reflexivity.
Qed.
Lemma character_number v : 0 <= v <= 255 →
  character [0; v / 100; v / 10 mod 10; v mod 10] = if (128 <=? v) && (v <=? 159) then extras !! Z.to_nat (v - 128) else Some v.
Proof. intros Hv. cbn [character]. by replace (100 * (v / 100) + 10 * (v / 10 mod 10) + v mod 10) with v by (Z.to_euclidean_division_equations; lia). Qed.
Lemma indexOf_lookup l x i : indexOf l x = Some i → 0 <= i ∧ l !! Z.to_nat i = Some x.
Proof.
  revert i. induction l as [|y l IH]; intros i H; cbn in H; [done|].
  destruct (Z.eqb_spec y x) as [->|]; [by simplify_eq|].
  destruct (indexOf l x) as [j|] eqn:E; [|done]. cbn in H. simplify_eq. destruct (IH j eq_refl) as [H0 H1].
  split; [lia|]. by replace (Z.to_nat (j + 1)) with (S (Z.to_nat j)) by lia.
Qed.
Lemma cp1252_reads c v : cp1252 c = Some v → 0 <= v <= 255 ∧ character [0; v / 100; v / 10 mod 10; v mod 10] = Some c.
Proof.
  unfold cp1252. intros H. destruct (_ || _) eqn:E in H; simplify_eq.
  - bools. rewrite character_number by lia. split; [lia|]. by replace ((128 <=? v) && (v <=? 159)) with false by lia.
  - destruct (indexOf extras c) as [i|] eqn:Ei; [|done]. cbn in H. case_bool_decide; [done|]. simplify_eq.
    apply indexOf_lookup in Ei as [Hp Hi]. apply lookup_lt_Some in Hi as Hl. cbn in Hl.
    rewrite character_number by lia. split; [lia|]. replace ((128 <=? i + 128) && (i + 128 <=? 159)) with true by lia.
    by replace (i + 128 - 128) with i by lia.
Qed.
(** A carriage return types a line break. *)
Definition shown (c : Z) : Z := if c =? 13 then 10 else c.
Lemma charCodes_types c l : charCodes c = Ok l → types l (shown c).
Proof.
  unfold charCodes, shown. intros H.
  destruct (_ || _) eqn:E in H.
  { simplify_eq. intros alt typed. exists alt. replace (if c =? 13 then 10 else c) with 10 by (destruct (Z.eqb_spec c 13); lia). reflexivity. }
  destruct (Z.eqb_spec c 9) as [->|].
  { simplify_eq. intros alt typed. exists alt. reflexivity. }
  destruct (cp1252 c) as [v|] eqn:Ev; [|done]. simplify_eq. apply cp1252_reads in Ev as [Hv Hc].
  replace (c =? 13) with false by lia. by apply alt_types.
Qed.
Lemma text_loop_types text l : text_loop text = Ok l →
  ∀ alt typed, ∃ alt', scans l (Keyboard false [] alt typed) = Keyboard false [] alt' (typed ++ (shown <$> text)).
Proof.
  revert l. induction text as [|c text IH]; intros l H alt typed; cbn in H.
  { simplify_eq. exists alt. cbn. by rewrite app_nil_r. }
  destruct (charCodes c) as [a|] eqn:Ec; [|done]. cbn in H. destruct (text_loop text) as [b|]; [|done]. cbn in H. simplify_eq.
  rewrite scans_app. destruct (charCodes_types _ _ Ec alt typed) as [alt' ->].
  destruct (IH b eq_refl alt' (typed ++ [shown c])) as [alt'' ->]. exists alt''. by rewrite <-app_assoc.
Qed.
(** The characters that can be typed. *)
Definition representable (c : Z) : bool :=
  bool_decide (c ∈ [9; 10; 13]) || ((32 <=? c) && (c <=? 126)) || ((160 <=? c) && (c <=? 255)) ||
  bool_decide (c ∈ filter (λ x, 0x100 <= x) extras).
Lemma indexOf_absent l x : x ∉ l → indexOf l x = None.
Proof. induction l as [|y l IH]; [done|]. cbn. rewrite not_elem_of_cons. intros [H1 H2]. replace (y =? x) with false by lia. by rewrite IH. Qed.
Lemma cp1252_extra : Forall (λ c, is_Some (cp1252 c) ↔ 0x100 <= c) extras.
Proof. repeat constructor; vm_compute; first [done|by eexists|by intros [? [=]]]. Qed.
Lemma charCodes_fails c : (∃ l, charCodes c = Ok l) ↔ representable c = true.
Proof.
  unfold charCodes, representable. rewrite (bool_decide_decide (c ∈ [9; 10; 13])).
  case_decide as Hs; rewrite !elem_of_cons in Hs.
  { split; [done|intros _]. destruct (_ || _) eqn:E; [by eexists|]. bools. replace (c =? 9) with true by (destruct Hs as [?|[?|[?|Hs]]]; [lia..|by apply not_elem_of_nil in Hs]). by eexists. }
  replace ((c =? 10) || (c =? 13)) with false by (symmetry; apply orb_false_iff; split; apply Z.eqb_neq; naive_solver).
  replace (c =? 9) with false by (symmetry; apply Z.eqb_neq; naive_solver).
  assert (H : is_Some (cp1252 c) ↔ ((32 <=? c) && (c <=? 126)) || ((160 <=? c) && (c <=? 255)) || bool_decide (c ∈ filter (λ x, 0x100 <= x) extras) = true).
  { destruct (decide (c ∈ extras)) as [He|He].
    - pose proof (proj1 (Forall_forall _ _) cp1252_extra c He) as ->. rewrite !orb_true_iff, bool_decide_eq_true, list_elem_of_filter.
      assert (Hr : c < 0x100 → 127 <= c <= 159).
      { revert He. clear. unfold extras. rewrite !elem_of_cons, elem_of_nil. lia. }
      split; [naive_solver|]. intros [[?|?]|[? _]]; bools; lia.
    - unfold cp1252. rewrite (indexOf_absent _ _ He). rewrite (bool_decide_eq_false_2 (c ∈ filter _ _)) by (rewrite list_elem_of_filter; naive_solver).
      rewrite orb_false_r. destruct (_ || _); split; solve [done|by intros [? [=]]]. }
  cbn [orb]. rewrite <-H. destruct (cp1252 c); split; solve [done|by intros; eexists|by intros [? [=]]].
Qed.
Lemma text_loop_fails text : (∃ l, text_loop text = Ok l) ↔ forallb representable text = true.
Proof.
  induction text as [|c text IH]; cbn; [split; [done|by eexists]|]. rewrite andb_true_iff, <-charCodes_fails, <-IH.
  destruct (charCodes c) as [a|]; cbn; [|naive_solver]. destruct (text_loop text) as [b|]; cbn; naive_solver.
Qed.

(** ** Keys *)
(** The codes of a key: its code, after the prefix for some.  It is below 96, whose release
    would be read as the prefix. *)
Definition code (key : bool * Z) : list Z := (if key.1 then [0xe0] else []) ++ [key.2].
Definition is_key (l : list Z) : Prop := match l with [c] => 0 <= c < 0x60 | [p; c] => p = 0xe0 ∧ 0 <= c < 0x60 | _ => False end.
Lemma is_key_code l : is_key l → ∃ key, l = code key ∧ 0 <= key.2 < 0x60.
Proof.
  destruct l as [|p [|c [|]]]; cbn; [done| | |done].
  - intros H. by exists (false, p).
  - intros [-> H]. by exists (true, c).
Qed.
Lemma assoc_elem {A} name (l : list (string * A)) x : assoc name l = Some x → x ∈ l.*2.
Proof. induction l as [|[k v] l IH]; cbn; [done|]. case_bool_decide; intros; simplify_eq; rewrite elem_of_cons; [by left|right; auto]. Qed.
Lemma tables_keys : Forall is_key (special.*2 ++ letters.*2 ++ numbered.*2).
Proof. vm_compute. repeat first [constructor | split | reflexivity | discriminate]. Qed.
Lemma keyCodes_key lower name l : keyCodes lower name = Ok l → ∃ key, l = code key ∧ 0 <= key.2 < 0x60.
Proof.
  intros H. apply is_key_code. pose proof tables_keys as T. rewrite !Forall_app, !Forall_forall in T. destruct T as (T1 & T2 & T3).
  unfold keyCodes in H. destruct (assoc _ special) eqn:E1; [simplify_eq; eauto using assoc_elem|].
  case_bool_decide; [simplify_eq; cbn; lia|]. case_bool_decide; [simplify_eq; cbn; lia|].
  destruct (assoc _ letters) eqn:E2; [simplify_eq; eauto using assoc_elem|].
  destruct (assoc _ numbered) eqn:E3; [simplify_eq; eauto using assoc_elem|done].
Qed.
Lemma all_codes_keys lower names l : all_codes lower names = Ok l →
  ∃ keys, l = code <$> keys ∧ Forall (λ key, 0 <= key.2 < 0x60) keys ∧ length keys = length names.
Proof.
  revert l. induction names as [|n names IH]; intros l H; cbn in H; [simplify_eq; by exists []|].
  destruct (keyCodes lower n) as [c|] eqn:Ek; [|done]. cbn in H. destruct (all_codes lower names) as [r|]; [|done]. cbn in H. simplify_eq.
  destruct (keyCodes_key _ _ _ Ek) as (key & -> & Hk). destruct (IH r eq_refl) as (keys & -> & Hf & Hl).
  exists (key :: keys). cbn. split_and!; [done|by constructor|by rewrite Hl].
Qed.
Lemma code_pressed key k : 0 <= key.2 < 0x60 → y_prefix k = false → scans (code key) k = pressed key.1 key.2 k.
Proof.
  destruct key as [p c], k as [q held alt typed]. cbn [fst snd]. intros Hc Hp. cbn [y_prefix] in Hp. subst q.
  destruct p; unfold scans, code; cbn [fst snd app foldl]; unfold scan.
  - change (224 =? 224) with true. cbv beta iota. cbn [y_prefix y_held y_alt y_typed].
    replace (c =? 224) with false by lia. by replace (c <? 128) with true by lia.
  - replace (c =? 224) with false by lia. by replace (c <? 128) with true by lia.
Qed.
Lemma break_code c : 0 <= c < 0x60 → Z.lor c 0x80 = c + 0x80.
Proof.
  intros Hc. assert (H : Forall (λ n, Z.lor (Z.of_nat n) 0x80 = Z.of_nat n + 0x80) (seq 0 96)) by (repeat constructor).
  rewrite Forall_forall in H. specialize (H (Z.to_nat c)). rewrite Z2Nat.id in H by lia. apply H. apply elem_of_seq. lia.
Qed.
Lemma code_released key k : 0 <= key.2 < 0x60 → y_prefix k = false → scans (release (code key)) k = released key.1 key.2 k.
Proof.
  destruct key as [p c], k as [q held alt typed]. cbn [fst snd]. intros Hc Hp. cbn [y_prefix] in Hp. subst q.
  destruct p; unfold scans, release, code; cbn [fst snd app foldl last removelast]; rewrite (break_code _ Hc); unfold scan.
  - change (224 =? 224) with true. cbv beta iota. cbn [y_prefix y_held y_alt y_typed].
    replace (c + 128 =? 224) with false by lia. replace (c + 128 <? 128) with false by lia. by replace (c + 128 - 128) with c by lia.
  - replace (c + 128 =? 224) with false by lia. replace (c + 128 <? 128) with false by lia. by replace (c + 128 - 128) with c by lia.
Qed.
(** What is held after keys are pressed, and after they are released. *)
Lemma presses keys k : Forall (λ key, 0 <= key.2 < 0x60) keys → y_prefix k = false →
  let k' := scans (concat (code <$> keys)) k in
  y_prefix k' = false ∧ ∀ x, x ∈ y_held k' ↔ x ∈ y_held k ∨ x ∈ keys.
Proof.
  intros Hk. revert k. induction Hk as [|key keys Hc Hk IH]; intros k Hp; [cbn; split; [done|intros x; rewrite elem_of_nil; tauto]|].
  rewrite !fmap_cons. cbn [concat]. cbv zeta.
  rewrite scans_app, (code_pressed _ _ Hc Hp). destruct (IH (pressed key.1 key.2 k) eq_refl) as [H1 H2].
  split; [done|]. intros x. rewrite H2, elem_of_cons. unfold pressed. cbn [y_held]. rewrite <-surjective_pairing.
  case_bool_decide; [naive_solver|]. rewrite elem_of_app, list_elem_of_singleton. tauto.
Qed.
Lemma releases keys k : Forall (λ key, 0 <= key.2 < 0x60) keys → y_prefix k = false →
  let k' := scans (concat (release <$> (code <$> keys))) k in
  y_prefix k' = false ∧ ∀ x, x ∈ y_held k' ↔ x ∈ y_held k ∧ x ∉ keys.
Proof.
  intros Hk. revert k. induction Hk as [|key keys Hc Hk IH]; intros k Hp; [cbn; split; [done|intros x; rewrite elem_of_nil; tauto]|].
  rewrite !fmap_cons. cbn [concat]. cbv zeta.
  rewrite scans_app, (code_released _ _ Hc Hp). destruct (IH (released key.1 key.2 k) eq_refl) as [H1 H2].
  split; [done|]. intros x. rewrite H2, not_elem_of_cons. unfold released. cbn [y_held]. rewrite <-surjective_pairing, list_elem_of_filter. tauto.
Qed.
Lemma chord_keys lower chord codes : chordCodes lower chord = Ok codes →
  ∃ keys, codes = concat (code <$> keys) ++ concat (release <$> (code <$> rev keys)) ∧
          Forall (λ key, 0 <= key.2 < 0x60) keys ∧ 1 <= Z.of_nat (length keys) <= 5.
Proof.
  unfold chordCodes. intros H. destruct (_ <? _) in H; [done|]. destruct (5 <? _) eqn:E5; [done|]. cbn [orb] in H.
  destruct (negb _); [done|]. destruct (all_codes lower (split chord)) as [l|] eqn:Ea; [|done]. cbn in H. simplify_eq.
  destruct (all_codes_keys _ _ _ Ea) as (keys & -> & Hf & Hl). exists keys.
  rewrite <-map_rev. split_and!; [done|done| |lia].
  assert (split chord ≠ []). { destruct chord as [|c s]; cbn; [done|]. case_bool_decide; [done|]. by destruct (split s). }
  destruct keys; cbn in *; [destruct (split chord); done|lia].
Qed.

Section typing.
Context (toLowerCase : string → string).
End typing.

