(* ===== verification/AgentStore.v ===== *)
(** * Checkpoints of the agent (src/scripts/agent/store.mjs; agent.mjs: checkpoint;
    agent/runtime.js: transfer)

    The development agent keeps the machine it drives in checkpoints: directories with a
    disk, a compressed machine state and metadata, and a file that names the latest.  The
    files are written so that a crash at any moment loses no checkpoint.

    The file system has what is seen and what a crash may leave of it: a file that was not
    synced may have any bytes, and each name of a directory that was not synced has one
    of the values it had since the last time.  Every call may fail, or the machine may
    stop in it, with or without a part of its effect ([fault]).  gzip, SHA-256 and JSON are
    parameters; closing a handle and changing modes do nothing here. *)
From S2P Require Import Prelude.
From Stdlib Require Import Ascii.
#[local] Open Scope Z_scope.

(** ** The file system *)
Definition inode : Type := nat.
(** A directory's names, and those it had since it was synced. *)
Record entries := Entries { now : gmap string inode; past : list (gmap string inode) }.
Definition all (e : entries) : list (gmap string inode) := now e :: past e.
Definition change (f : gmap string inode → gmap string inode) (e : entries) : entries := Entries (f (now e)) (all e).
Definition synced (e : entries) : entries := Entries (now e) [].
Record file := File { f_data : bytes; f_stable : bool }.
(** The directory of the agent, its directory checkpoints, and the directories in that. *)
Record fs := Fs { root : entries; checkpoints : entries; dirs : gmap inode entries; files : gmap inode file }.
Inductive place := InRoot (name : string) | In (dir name : string).

Definition set_root (x : entries) (s : fs) : fs := Fs x (checkpoints s) (dirs s) (files s).
Definition set_checkpoints (x : entries) (s : fs) : fs := Fs (root s) x (dirs s) (files s).
Definition set_dir (d : inode) (x : entries) (s : fs) : fs := Fs (root s) (checkpoints s) (<[d := x]> (dirs s)) (files s).
Definition set_file (i : inode) (x : file) (s : fs) : fs := Fs (root s) (checkpoints s) (dirs s) (<[i := x]> (files s)).
Definition directory (d : string) (s : fs) : option (inode * entries) :=
  i ← now (checkpoints s) !! d; e ← dirs s !! i; Some (i, e).
Definition find (p : place) (s : fs) : option inode :=
  match p with InRoot n => now (root s) !! n | In d n => x ← directory d s; now x.2 !! n end.
Definition load (p : place) (s : fs) : option (inode * file) := i ← find p s; f ← files s !! i; Some (i, f).
(** A new name of a file. *)
Definition link (p : place) (i : inode) (s : fs) : option fs :=
  match p with
  | InRoot n => Some (set_root (change <[n := i]> (root s)) s)
  | In d n => x ← directory d s; Some (set_dir x.1 (change <[n := i]> x.2) s)
  end.
Definition unlink_name (p : place) (s : fs) : fs :=
  match p with
  | InRoot n => set_root (change (delete n) (root s)) s
  | In d n => match directory d s with Some x => set_dir x.1 (change (delete n) x.2) s | None => s end
  end.

(** What a crash leaves. *)
Definition entries_crash (e e' : entries) : Prop := past e' = [] ∧ ∀ name, ∃ m, m ∈ all e ∧ now e' !! name = m !! name.
Definition file_crash (f f' : file) : Prop := f_stable f' = true ∧ (f_stable f = true → f' = f).
Record crash (s s' : fs) : Prop := {
  crash_root : entries_crash (root s) (root s');
  crash_checkpoints : entries_crash (checkpoints s) (checkpoints s');
  crash_dirs : ∀ d e, dirs s !! d = Some e → ∃ e', dirs s' !! d = Some e' ∧ entries_crash e e';
  crash_files : ∀ i f, files s !! i = Some f → ∃ f', files s' !! i = Some f' ∧ file_crash f f'
}.

(** ** Calls that fail *)
(** A fault leaves the call without effect, or with the part that [junk] describes. *)
Inductive fault := Fine | Broken (junk : option bytes) | Halt (junk : option bytes).
Inductive outcome (A : Type) := Returned (a : A) | Threw (e : exn) | Halted.
Arguments Returned {A} a. Arguments Threw {A} e. Arguments Halted {A}.
Record entry := Entry { e_handle : inode; e_offset : Z; e_limit : Z }.
Record meta := Meta { m_size : Z; m_info : bytes; m_version : Z; m_createdAt : string; m_diskSha256 : bytes; m_stateSha256 : bytes }.
(** [transfer], [dir] and [current] of agent.mjs. *)
Record world := World { w_fs : fs; w_transfer : option entry; w_dir : option string; w_current : option (string * meta) }.
Definition set_fs (x : fs) (w : world) : world := World x (w_transfer w) (w_dir w) (w_current w).
Definition M (A : Type) : Type := world → list fault → outcome A * world * list fault.
#[export] Instance M_ret : MRet M := λ A a w l, (Returned a, w, l).
#[export] Instance M_bind : MBind M := λ A B f m w l,
  match m w l with
  | (Returned a, w, l) => f a w l
  | (Threw e, w, l) => (Threw e, w, l)
  | (Halted, w, l) => (Halted, w, l)
  end.
Definition fails {A} (message : string) : M A := λ w l, (Threw (Exn None message), w, l).
Definition modify (f : world → world) : M unit := λ w l, (Returned tt, f w, l).
Definition gets {A} (f : world → A) : M A := λ w l, (Returned (f w), w, l).
Definition require (c : bool) (message : string) : M unit := if c then mret tt else fails message.
(** [try { ... } finally { ... }]; a machine that has stopped does nothing more. *)
Definition finally {A} (m : M A) (f : M unit) : M A := λ w l,
  match m w l with
  | (Halted, w, l) => (Halted, w, l)
  | (r, w, l) => match f w l with (Returned _, w, l) => (r, w, l) | (Threw e, w, l) => (Threw e, w, l) | (Halted, w, l) => (Halted, w, l) end
  end.
Definition ENOENT : exn := Exn (Some "ENOENT") "no such file or directory".
Definition EEXIST : exn := Exn (Some "EEXIST") "file already exists".
Definition EIO : exn := Exn (Some "EIO") "i/o error".
Definition broken (partial : bytes → fs → fs) (junk : option bytes) (w : world) : world :=
  match junk with Some b => set_fs (partial b (w_fs w)) w | None => w end.
Definition io {A} (ok : fs → result (A * fs)) (partial : bytes → fs → fs) : M A := λ w l,
  match l with
  | Broken junk :: l => (Threw EIO, broken partial junk w, l)
  | Halt junk :: l => (Halted, broken partial junk w, l)
  | _ => match ok (w_fs w) with Ok (a, s) => (Returned a, set_fs s w, tail l) | Throw e => (Threw e, w, tail l) end
  end.
Definition whole (b : bytes) (s : fs) : fs := s.

(** [fs.stat(path).size], [fs.readFile(path)]. *)
Definition stat (p : place) : M Z :=
  io (λ s, match load p s with Some x => Ok (byteLength (f_data x.2), s) | None => Throw ENOENT end) whole.
Definition readFile (p : place) : M bytes :=
  io (λ s, match load p s with Some x => Ok (f_data x.2, s) | None => Throw ENOENT end) whole.
(** A new file, with the flag wx. *)
Definition created (p : place) (data : bytes) (s : fs) : result (inode * fs) :=
  match find p s with
  | Some _ => Throw EEXIST
  | None => let i := fresh (dom (files s)) in
            match link p i s with Some s' => Ok (i, set_file i (File data false) s') | None => Throw ENOENT end
  end.
Definition partly_created (p : place) (junk : bytes) (s : fs) : fs := match created p junk s with Ok (_, s') => s' | Throw _ => s end.
Definition create (p : place) (data : bytes) : M inode := io (created p data) (partly_created p).
(** [fs.copyFile(source,destination)]: an existing file is overwritten. *)
Definition overwritten (p : place) (data : bytes) (s : fs) : result (unit * fs) :=
  match find p s with
  | Some i => Ok (tt, set_file i (File data false) s)
  | None => match created p data s with Ok (_, s') => Ok (tt, s') | Throw e => Throw e end
  end.
Definition copyLocalFile (source destination : place) : M unit :=
  io (λ s, match load source s with Some x => overwritten destination (f_data x.2) s | None => Throw ENOENT end)
     (λ junk s, match overwritten destination junk s with Ok (_, s') => s' | Throw _ => s end).
Definition unlink (p : place) : M unit :=
  io (λ s, match find p s with Some _ => Ok (tt, unlink_name p s) | None => Throw ENOENT end) whole.
(** [handle.write] and [handle.sync]. *)
Definition written (i : inode) (offset : Z) (b : bytes) (s : fs) : fs :=
  match files s !! i with
  | Some f => set_file i (File (slice (f_data f) 0 offset ++ b ++ drop (Z.to_nat (offset + byteLength b)) (f_data f)) false) s
  | None => s
  end.
Definition write (i : inode) (offset : Z) (b : bytes) : M unit := io (λ s, Ok (tt, written i offset b s)) (written i offset).
Definition stabilised (i : inode) (s : fs) : fs := match files s !! i with Some f => set_file i (File (f_data f) true) s | None => s end.
Definition sync (i : inode) : M unit := io (λ s, Ok (tt, stabilised i s)) whole.
(** [syncFile] of a file, of a checkpoint's directory and of the directories above. *)
Definition syncFile (p : place) : M unit :=
  io (λ s, match load p s with Some x => Ok (tt, stabilised x.1 s) | None => Throw ENOENT end) whole.
Definition sync_directory (d : string) : M unit :=
  io (λ s, match directory d s with Some x => Ok (tt, set_dir x.1 (synced x.2) s) | None => Throw ENOENT end) whole.
Definition sync_checkpoints : M unit := io (λ s, Ok (tt, set_checkpoints (synced (checkpoints s)) s)) whole.
Definition sync_root : M unit := io (λ s, Ok (tt, set_root (synced (root s)) s)) whole.
(** [fs.rename] of a checkpoint's directory: it may replace an empty one. *)
Definition rename_directory (d d' : string) : M unit :=
  io (λ s, match directory d s with
           | None => Throw ENOENT
           | Some x =>
               match directory d' s with
               | Some y => if bool_decide (now y.2 = ∅) then Ok (tt, set_checkpoints (change (λ m, <[d' := x.1]> (delete d m)) (checkpoints s)) s) else Throw EEXIST
               | None => Ok (tt, set_checkpoints (change (λ m, <[d' := x.1]> (delete d m)) (checkpoints s)) s)
               end
           end) whole.
Definition rename_root (n n' : string) : M unit :=
  io (λ s, match now (root s) !! n with
           | None => Throw ENOENT
           | Some i => Ok (tt, set_root (change (λ m, <[n' := i]> (delete n m)) (root s)) s)
           end) whole.
(** [fs.mkdir] and [fs.rm], both recursive; the latter may have removed the files alone. *)
Definition mkdir (d : string) : M unit :=
  io (λ s, match now (checkpoints s) !! d with
           | Some _ => Ok (tt, s)
           | None => let i := fresh (dom (dirs s)) in Ok (tt, set_checkpoints (change <[d := i]> (checkpoints s)) (set_dir i (Entries ∅ []) s))
           end) whole.
Definition rm (d : string) : M unit :=
  io (λ s, Ok (tt, match directory d s with
                   | Some x => set_checkpoints (change (delete d) (checkpoints s)) (set_dir x.1 (change (λ _, ∅) x.2) s)
                   | None => s
                   end))
     (λ _ s, match directory d s with Some x => set_dir x.1 (change (λ _, ∅) x.2) s | None => s end).

(** ** store.mjs *)
(** [/^checkpoint-\d+-[a-f0-9]{8}$/]. *)
Definition is_hex (c : Ascii.ascii) : bool := let n := Z.of_nat (Ascii.nat_of_ascii c) in ((48 <=? n) && (n <=? 57)) || ((97 <=? n) && (n <=? 102)).
Definition is_digit (c : Ascii.ascii) : bool := let n := Z.of_nat (Ascii.nat_of_ascii c) in (48 <=? n) && (n <=? 57).
Fixpoint hex_run (n : nat) (s : string) : bool :=
  match n, s with O, EmptyString => true | S n, String c s => is_hex c && hex_run n s | _, _ => false end.
Fixpoint digits_then (seen : bool) (s : string) : bool :=
  match s with
  | String c s => if is_digit c then digits_then true s else seen && bool_decide (c = "-"%char) && hex_run 8 s
  | EmptyString => false
  end.
Definition valid_id (id : string) : bool :=
  bool_decide (String.substring 0 11 id = "checkpoint-"%string) && digits_then false (String.substring 11 (String.length id - 11) id).

Section store.
Context (gzip sha256 : bytes → bytes).
(** [JSON.parse] of a pointer and of metadata: [None] if it throws or the fields have other
    types, which the checks below refuse as well. *)
Context (stringify_pointer : string → bytes) (parse_pointer : bytes → option string).
Context (stringify_meta : meta → bytes) (parse_meta : bytes → option meta).

Definition hashFile (p : place) : M bytes := b ← readFile p; mret (sha256 b).
(** [uuid] and [id] come from [randomUUID()] and [Date.now()]. *)
Definition staging (uuid : string) : M string :=
  let dir := (".pending-" +:+ uuid)%string in mkdir dir ;; mret dir.
Definition commit (dir : string) (size : Z) (info : bytes) (createdAt id next : string) : M (string * meta) :=
  let disk := In dir "disk.img" in let raw := In dir "state.bin" in let state := In dir "state.bin.gz" in
  n ← stat disk;
  require (n =? size) "Checkpoint disk size differs from its metadata" ;;
  n ← stat raw;
  require (negb (n =? 0)) "Empty machine state" ;;
  b ← readFile raw; create state (gzip b) ;;
  unlink raw ;;
  h ← hashFile disk; g ← hashFile state;
  let data := Meta size info 1 createdAt h g in
  create (In dir "metadata.json") (stringify_meta data) ;;
  syncFile disk ;; syncFile state ;; syncFile (In dir "metadata.json") ;;
  rename_directory dir id ;;
  sync_directory id ;; sync_checkpoints ;;
  let next := (".latest-" +:+ next)%string in
  create (InRoot next) (stringify_pointer id) ;; syncFile (InRoot next) ;;
  rename_root next "latest.json" ;;
  sync_root ;;
  mret (id, data).
Definition latest : M (string * meta) :=
  b ← readFile (InRoot "latest.json");
  match parse_pointer b with
  | None => fails "Invalid checkpoint pointer"
  | Some id =>
      require (valid_id id) "Invalid checkpoint pointer" ;;
      b ← readFile (In id "metadata.json");
      match parse_meta b with
      | None => fails "Invalid checkpoint metadata"
      | Some m =>
          require ((m_version m =? 1) && is_safe (m_size m) && (0 <? m_size m)) "Invalid checkpoint metadata" ;;
          n ← stat (In id "disk.img");
          require (n =? m_size m) "Invalid checkpoint metadata" ;;
          h ← hashFile (In id "disk.img");
          require (bool_decide (h = m_diskSha256 m)) "Checkpoint integrity check failed" ;;
          g ← hashFile (In id "state.bin.gz");
          require (bool_decide (g = m_stateSha256 m)) "Checkpoint integrity check failed" ;;
          mret (id, m)
      end
  end.

(** The disk that a restored machine works on; [dir] is a checkpoint's name. *)
Definition workingCopy (dir : string) : M unit := copyLocalFile (In dir "disk.img") (InRoot "working.img").

(** ** agent.mjs *)
Definition CHUNK : Z := 1048576.
(** The request that carries a part of the machine's state. *)
Definition receive (offset : Z) (b : bytes) : M unit :=
  t ← gets w_transfer;
  require (byteLength b <=? CHUNK) "Request too large" ;;
  match t with
  | None => fails "Invalid checkpoint transfer"
  | Some t =>
      require (negb (negb (offset =? e_offset t) || (byteLength b =? 0) || (e_limit t <? offset + byteLength b))) "Invalid checkpoint transfer" ;;
      write (e_handle t) offset b ;;
      modify (λ w, World (w_fs w) (Some (Entry (e_handle t) (e_offset t + byteLength b) (e_limit t))) (w_dir w) (w_current w))
  end.
(** [transfer(route,bytes)] of runtime.js, with fuel for as many parts. *)
Fixpoint transfer (fuel : nat) (offset : Z) (b : bytes) : M unit :=
  match fuel with
  | O => mret tt
  | S fuel =>
      if offset <? byteLength b then
        receive offset (slice b offset (offset + Z.min CHUNK (byteLength b - offset))) ;; transfer fuel (offset + CHUNK) b
      else mret tt
  end.
Definition openTransfer (dir : string) : M unit :=
  i ← create (In dir "state.bin") [];
  modify (λ w, World (w_fs w) (Some (Entry i 0 1073741824)) (w_dir w) (w_current w)).
Definition closeTransfer : M unit :=
  t ← gets w_transfer;
  match t with
  | None => mret tt
  | Some t => sync (e_handle t) ;; modify (λ w, World (w_fs w) None (w_dir w) (w_current w))
  end.
(** [checkpoint()] after [beginCapture], which gave the size, the rest of the metadata and
    the machine's state. *)
Definition checkpoint (size : Z) (info state : bytes) (uuid createdAt id next : string) : M (string * meta) :=
  finally
    (modify (λ w, World (w_fs w) (w_transfer w) None (w_current w)) ;;
     syncFile (InRoot "working.img") ;;
     dir ← staging uuid;
     modify (λ w, World (w_fs w) (w_transfer w) (Some dir) (w_current w)) ;;
     copyLocalFile (InRoot "working.img") (In dir "disk.img") ;;
     openTransfer dir ;;
     transfer (length state) 0 state ;;
     closeTransfer ;;
     saved ← commit dir size info createdAt id next;
     modify (λ w, World (w_fs w) (w_transfer w) (w_dir w) (Some saved)) ;;
     mret saved)
    (closeTransfer ;;
     d ← gets w_dir;
     match d with Some d => rm d | None => mret tt end).
End store.
