(* ===== verification/AgentStoreFacts.v ===== *)
(** * Checkpoints of the agent: no crash loses them *)
From S2P Require Import Prelude AgentStore.
#[local] Open Scope Z_scope.

(** ** What is on the disk *)
(** A checkpoint: its name, its metadata and the two files. *)
Record ckpt := Ckpt { k_id : string; k_meta : meta; k_disk : bytes; k_state : bytes }.

Section facts.
Context (sha256 : bytes → bytes) (parse_pointer : bytes → option string) (parse_meta : bytes → option meta).

(** What [latest] checks. *)
Record sound (c : ckpt) : Prop := {
  sound_id : valid_id (k_id c) = true;
  sound_version : m_version (k_meta c) = 1;
  sound_safe : is_safe (m_size (k_meta c)) = true;
  sound_size : 0 < m_size (k_meta c);
  sound_length : byteLength (k_disk c) = m_size (k_meta c);
  sound_disk : sha256 (k_disk c) = m_diskSha256 (k_meta c);
  sound_state : sha256 (k_state c) = m_stateSha256 (k_meta c)
}.
(** A directory whose names and files are all synced where it matters. *)
Definition dir_holds (d : inode) (c : ckpt) (s : fs) : Prop := ∃ e iD iS iM mb,
  dirs s !! d = Some e ∧
  (∀ t, t ∈ all e → t !! "disk.img"%string = Some iD ∧ t !! "state.bin.gz"%string = Some iS ∧ t !! "metadata.json"%string = Some iM) ∧
  files s !! iD = Some (File (k_disk c) true) ∧ files s !! iS = Some (File (k_state c) true) ∧
  files s !! iM = Some (File mb true) ∧ parse_meta mb = Some (k_meta c).
Definition named (id : string) (d : inode) (s : fs) : Prop := ∀ t, t ∈ all (checkpoints s) → t !! id = Some d.
Definition kept (c : ckpt) (d : inode) (s : fs) : Prop := sound c ∧ named (k_id c) d s ∧ dir_holds d c s.
Definition pointed (id : string) (i : inode) (s : fs) : Prop := ∃ b, files s !! i = Some (File b true) ∧ parse_pointer b = Some id.
(** Whatever a crash leaves of latest.json, it names a checkpoint with [P] that is on the
    disk, other than in the directory [X]. *)
Definition safe (X : option inode) (P : ckpt → Prop) (s : fs) : Prop :=
  ∀ t, t ∈ all (root s) → ∃ i c d, t !! "latest.json"%string = Some i ∧ pointed (k_id c) i s ∧ kept c d s ∧ Some d ≠ X ∧ P c.
Definition durable (P : ckpt → Prop) (s : fs) : Prop := safe None P s.

(** What the program finds. *)
Definition latest_ := latest sha256 parse_pointer parse_meta.
Definition recovered (c : ckpt) (s : fs) : Prop :=
  (∀ w, w_fs w = s → latest_ w [] = (Returned (k_id c, k_meta c), w, [])) ∧
  (∃ i f, load (In (k_id c) "disk.img") s = Some (i, f) ∧ f_data f = k_disk c) ∧
  (∃ i f, load (In (k_id c) "state.bin.gz") s = Some (i, f) ∧ f_data f = k_state c).

Lemma fs_world w : set_fs (w_fs w) w = w.
Proof using Type. by destruct w. Qed.
Lemma readFile_load p w i f : load p (w_fs w) = Some (i, f) → readFile p w [] = (Returned (f_data f), w, []).
Proof using Type. intros H. unfold readFile, io. rewrite H. cbn. by rewrite fs_world. Qed.
Lemma stat_load p w i f : load p (w_fs w) = Some (i, f) → stat p w [] = (Returned (byteLength (f_data f)), w, []).
Proof using Type. intros H. unfold stat, io. rewrite H. cbn. by rewrite fs_world. Qed.
Lemma bind_run {A B} (m : M A) (f : A → M B) w l a w' l' : m w l = (Returned a, w', l') → (m ≫= f) w l = f a w' l'.
Proof using Type. unfold mbind, M_bind. by intros ->. Qed.
Lemma bind_require {B} c msg (f : unit → M B) w l : c = true → (require c msg ≫= f) w l = f tt w l.
Proof using Type. by intros ->. Qed.
Lemma latest_found c s i b d e iD iS iM mb :
  sound c → now (root s) !! "latest.json"%string = Some i → files s !! i = Some (File b true) → parse_pointer b = Some (k_id c) →
  now (checkpoints s) !! k_id c = Some d → dirs s !! d = Some e →
  now e !! "disk.img"%string = Some iD → now e !! "state.bin.gz"%string = Some iS → now e !! "metadata.json"%string = Some iM →
  files s !! iD = Some (File (k_disk c) true) → files s !! iS = Some (File (k_state c) true) → files s !! iM = Some (File mb true) →
  parse_meta mb = Some (k_meta c) → recovered c s.
Proof using Type.
  intros [S1 S2 S3 S4 S5 S6 S7] H1 H2 H3 H4 H5 H6 H7 H8 H9 H10 H11 H12.
  assert (LD : load (In (k_id c) "disk.img") s = Some (iD, File (k_disk c) true)) by (unfold load, find, directory; cbn; rewrite H4; cbn; rewrite H5; cbn; rewrite H6; cbn; by rewrite H9).
  assert (LS : load (In (k_id c) "state.bin.gz") s = Some (iS, File (k_state c) true)) by (unfold load, find, directory; cbn; rewrite H4; cbn; rewrite H5; cbn; rewrite H7; cbn; by rewrite H10).
  assert (LM : load (In (k_id c) "metadata.json") s = Some (iM, File mb true)) by (unfold load, find, directory; cbn; rewrite H4; cbn; rewrite H5; cbn; rewrite H8; cbn; by rewrite H11).
  assert (LL : load (InRoot "latest.json") s = Some (i, File b true)) by (unfold load, find; cbn; rewrite H1; cbn; by rewrite H2).
  split; [|split; [by exists iD, (File (k_disk c) true)|by exists iS, (File (k_state c) true)]].
  intros w <-. unfold latest_, latest, hashFile. rewrite (bind_run _ _ _ _ _ _ _ (readFile_load _ _ _ _ LL)). cbn [f_data]. rewrite H3.
  rewrite (bind_require _ _ _ _ _ S1), (bind_run _ _ _ _ _ _ _ (readFile_load _ _ _ _ LM)). cbn [f_data]. rewrite H12.
  rewrite bind_require by (rewrite S2, S3; cbn; lia).
  rewrite (bind_run _ _ _ _ _ _ _ (stat_load _ _ _ _ LD)). cbn [f_data]. rewrite bind_require by lia.
  rewrite (bind_run _ _ _ _ _ _ _ (bind_run _ _ _ _ _ _ _ (readFile_load _ _ _ _ LD))). cbn [f_data].
  rewrite bind_require by by apply bool_decide_eq_true.
  rewrite (bind_run _ _ _ _ _ _ _ (bind_run _ _ _ _ _ _ _ (readFile_load _ _ _ _ LS))). cbn [f_data].
  by rewrite bind_require by by apply bool_decide_eq_true.
Qed.
Lemma crash_file s s' i b : crash s s' → files s !! i = Some (File b true) → files s' !! i = Some (File b true).
Proof using Type. intros H Hi. destruct (crash_files _ _ H _ _ Hi) as (f' & Hf & _ & E). by rewrite Hf, E. Qed.
Lemma crash_recovers X P s s' : safe X P s → crash s s' → ∃ c, P c ∧ recovered c s'.
Proof using Type.
  intros H HC. destruct (crash_root _ _ HC) as [_ HR]. destruct (HR "latest.json"%string) as (t & Ht & ER).
  destruct (H _ Ht) as (i & c & d & Hl & (b & Hb & Pb) & (HS & HN & e & iD & iS & iM & mb & Hd & He & HD & HSt & HM & Pm) & _ & HP).
  exists c. split; [done|]. destruct (crash_checkpoints _ _ HC) as [_ HCk]. destruct (HCk (k_id c)) as (u & Hu & EC).
  destruct (crash_dirs _ _ HC _ _ Hd) as (e' & He' & _ & HE).
  destruct (HE "disk.img"%string) as (t1 & Ht1 & E1), (HE "state.bin.gz"%string) as (t2 & Ht2 & E2), (HE "metadata.json"%string) as (t3 & Ht3 & E3).
  apply (latest_found c s' i b d e' iD iS iM mb); eauto using crash_file.
  - by rewrite ER.
  - rewrite EC. by apply HN.
  - rewrite E1. by apply He.
  - rewrite E2. by apply He.
  - rewrite E3. by apply He.
Qed.

(** ** Steps that keep it *)
Record later (X : option inode) (s s' : fs) : Prop := {
  later_files : ∀ i b, files s !! i = Some (File b true) → files s' !! i = Some (File b true);
  later_dirs : ∀ d e, Some d ≠ X → dirs s !! d = Some e → ∃ e', dirs s' !! d = Some e' ∧ all e' ⊆ all e;
  later_named : ∀ id d e n i, Some d ≠ X → valid_id id = true → named id d s → dirs s !! d = Some e → (∀ t, t ∈ all e → t !! n = Some i) → named id d s';
  later_root : ∀ t', t' ∈ all (root s') → ∃ t, t ∈ all (root s) ∧ t' !! "latest.json"%string = t !! "latest.json"%string
}.
Lemma later_refl X s : later X s s.
Proof using Type. split; eauto. Qed.
Lemma later_trans X s1 s2 s3 : later X s1 s2 → later X s2 s3 → later X s1 s3.
Proof using Type.
  intros A B. split.
  - eauto using later_files.
  - intros d e HX Hd. destruct (later_dirs _ _ _ A _ _ HX Hd) as (e' & Hd' & H'). destruct (later_dirs _ _ _ B _ _ HX Hd') as (e'' & Hd'' & H'').
    exists e''. split; [done|]. by transitivity (all e').
  - intros id d e n i HX Hv Hn Hd He. destruct (later_dirs _ _ _ A _ _ HX Hd) as (e' & Hd' & H').
    eapply (later_named _ _ _ B _ _ e' n i); eauto using later_named.
  - intros t Ht. destruct (later_root _ _ _ B _ Ht) as (t' & Ht' & E). destruct (later_root _ _ _ A _ Ht') as (t'' & Ht'' & E'). exists t''. split; [done|]. by rewrite E.
Qed.
Lemma later_holds X s s' d c : later X s s' → Some d ≠ X → dir_holds d c s → dir_holds d c s'.
Proof using Type.
  intros L HX (e & iD & iS & iM & mb & Hd & He & H). destruct (later_dirs _ _ _ L _ _ HX Hd) as (e' & He' & Hsub).
  exists e', iD, iS, iM, mb. split; [done|]. split; [auto|]. destruct H as (?&?&?&?). split_and!; eauto using later_files.
Qed.
Lemma later_kept X s s' d c : later X s s' → Some d ≠ X → kept c d s → kept c d s'.
Proof using Type.
  intros L HX (HS & HN & HD). split; [done|]. split; [|by eapply later_holds]. destruct HD as (e & iD & iS & iM & mb & Hd & He & H).
  eapply later_named; [done|done|apply HS|done|done|]. intros t Ht. by apply He.
Qed.
Lemma later_pointed X s s' id i : later X s s' → pointed id i s → pointed id i s'.
Proof using Type. intros L (b & Hb & H). exists b. eauto using later_files. Qed.
Lemma later_safe X P s s' : later X s s' → safe X P s → safe X P s'.
Proof using Type.
  intros L H t' Ht'. destruct (later_root _ _ _ L _ Ht') as (t & Ht & E). destruct (H _ Ht) as (i & c & d & H1 & H2 & H3 & H4 & H5).
  exists i, c, d. rewrite E. eauto 10 using later_pointed, later_kept.
Qed.
Lemma safe_weaken X (P Q : ckpt → Prop) s : (∀ c, P c → Q c) → safe X P s → safe None Q s.
Proof using Type. intros HPQ H t Ht. destruct (H t Ht) as (i & c & d & H1 & H2 & H3 & H4 & H5). exists i, c, d. eauto 10. Qed.

(** ** Weakest preconditions *)
(** [E] holds however the calls fail or the machine stops. *)
Definition wp {A} (m : M A) (Q : A → world → Prop) (E : world → Prop) (w : world) : Prop :=
  ∀ l, match m w l with (Returned a, w', _) => Q a w' | (_, w', _) => E w' end.
Lemma store_wp_ret {A} (a : A) (Q : A → world → Prop) E w : Q a w → wp (mret a) Q E w.
Proof using Type. by intros H l. Qed.
Lemma store_wp_bind {A B} (m : M A) (f : A → M B) Q E w : wp m (λ a, wp (f a) Q E) E w → wp (m ≫= f) Q E w.
Proof using Type. intros H l. specialize (H l). unfold mbind, M_bind. destruct (m w l) as [[[a|e|] w'] l']; [apply H|done|done]. Qed.
Lemma store_wp_fails {A} msg (Q : A → world → Prop) (E : world → Prop) w : E w → wp (fails msg) Q E w.
Proof using Type. by intros H l. Qed.
Lemma store_wp_require c msg (Q : unit → world → Prop) (E : world → Prop) w : (c = true → Q tt w) → E w → wp (require c msg) Q E w.
Proof using Type. intros HQ HE. unfold require. destruct c; [apply store_wp_ret; auto|by apply store_wp_fails]. Qed.
Lemma store_wp_modify f (Q : unit → world → Prop) E w : Q tt (f w) → wp (modify f) Q E w.
Proof using Type. by intros H l. Qed.
Lemma store_wp_gets {A} (f : world → A) (Q : A → world → Prop) E w : Q (f w) w → wp (gets f) Q E w.
Proof using Type. by intros H l. Qed.
Lemma wp_io {A} (ok : fs → result (A * fs)) partial (Q : A → world → Prop) (E : world → Prop) w :
  (∀ a s, ok (w_fs w) = Ok (a, s) → Q a (set_fs s w)) → E w → (∀ b, E (set_fs (partial b (w_fs w)) w)) → wp (io ok partial) Q E w.
Proof using Type.
  intros HQ HE HP l. unfold io, broken.
  assert (H : match (match ok (w_fs w) with Ok (a, s) => (Returned a, set_fs s w, tail l) | Throw e => (Threw e, w, tail l) end) with (Returned a, w', _) => Q a w' | (_, w', _) => E w' end).
  { destruct (ok (w_fs w)) as [[a s]|e]; auto. }
  by destruct l as [|[|[b|]|[b|]] l].
Qed.
Lemma store_wp_conseq {A} (m : M A) (Q Q' : A → world → Prop) (E E' : world → Prop) w :
  wp m Q E w → (∀ a w, Q a w → Q' a w) → (∀ w, E w → E' w) → wp m Q' E' w.
Proof using Type. intros H HQ HE l. specialize (H l). destruct (m w l) as [[[a|e|] w'] l']; auto. Qed.
Lemma store_wp_finally {A} (m : M A) f (Q : A → world → Prop) (E E' : world → Prop) w :
  wp m (λ a, wp f (λ _, Q a) E) E' w → (∀ w, E' w → E w ∧ wp f (λ _, E) E w) → wp (finally m f) Q E w.
Proof using Type.
  intros H HE l. specialize (H l). unfold finally. destruct (m w l) as [[[a|e|] w'] l'].
  - specialize (H l'). destruct (f w' l') as [[[[]|e|] w''] l'']; done.
  - destruct (HE _ H) as [_ Hf]. specialize (Hf l'). destruct (f w' l') as [[[[]|e'|] w''] l'']; done.
  - by destruct (HE _ H).
Qed.

(** ** Inside the directory of a new checkpoint *)
Section staged.
Context (P0 : ckpt → Prop) (pend : string) (dS : inode).
Hypothesis pend_other : valid_id pend = false.

Definition staged (s : fs) : Prop :=
  now (checkpoints s) !! pend = Some dS ∧ is_Some (dirs s !! dS) ∧ safe (Some dS) P0 s.
Definition has (n : string) (i : inode) (s : fs) : Prop := ∃ e, dirs s !! dS = Some e ∧ now e !! n = Some i.
Definition holds (i : inode) (x : bytes) (b : bool) (s : fs) : Prop := ∃ st, files s !! i = Some (File x st) ∧ (b = true → st = true).
(** A step that leaves the other names and files of the directory. *)
Record within (N : list string) (I : list inode) (s s' : fs) : Prop := {
  within_checkpoints : checkpoints s' = checkpoints s;
  within_dir : is_Some (dirs s !! dS) → is_Some (dirs s' !! dS);
  within_later : later (Some dS) s s';
  within_has : ∀ n i, n ∉ N → has n i s → has n i s';
  within_holds : ∀ i x b, i ∉ I → holds i x b s → holds i x b s'
}.
Lemma within_refl s : within [] [] s s.
Proof using Type. split; eauto using later_refl. Qed.
Lemma within_staged N I s s' : within N I s s' → staged s → staged s'.
Proof using Type. intros H (H1 & H2 & H3). split_and!; [by rewrite (within_checkpoints _ _ _ _ H)|by eapply within_dir|eapply later_safe; [by eapply within_later|done]]. Qed.
Lemma staged_directory s : staged s → ∃ e, directory pend s = Some (dS, e) ∧ dirs s !! dS = Some e.
Proof using Type. intros (H1 & [e He] & _). exists e. split; [|done]. unfold directory. rewrite H1. cbn. by rewrite He. Qed.
Lemma staged_find n s : staged s → ∀ i, find (In pend n) s = Some i ↔ has n i s.
Proof using Type.
  intros H i. destruct (staged_directory _ H) as (e & E & He). unfold find. rewrite E. cbn. unfold has. rewrite He. naive_solver.
Qed.
Lemma within_set_dir s e e' N :
  dirs s !! dS = Some e → (∀ n i, n ∉ N → now e !! n = Some i → now e' !! n = Some i) → within N [] s (set_dir dS e' s).
Proof using Type.
  intros He HN. split; cbn; [done|by rewrite lookup_insert_eq| | |done].
  - split; cbn; eauto. intros d x Hd Hx. exists x. rewrite lookup_insert_ne by congruence. done.
  - intros n i Hn (x & Hx & Hi). exists e'. cbn. rewrite lookup_insert_eq. split; [done|]. apply HN; [done|]. congruence.
Qed.
Lemma within_set_file s i f I :
  (∀ b, files s !! i = Some (File b true) → f = File b true) → (i ∈ I ∨ files s !! i = None ∨ ∃ st, files s !! i = Some (File (f_data f) st) ∧ (st = true → f_stable f = true)) →
  within [] I s (set_file i f s).
Proof using Type.
  intros Hs HI. split; cbn; [done|done| |done|].
  - split; cbn; eauto. intros j b Hj. destruct (decide (i = j)) as [<-|]; [rewrite lookup_insert_eq; by rewrite (Hs _ Hj)|by rewrite lookup_insert_ne].
  - intros j x b Hj (st & Hx & Hb). unfold holds. cbn. destruct (decide (i = j)) as [<-|]; [|rewrite lookup_insert_ne by done; by exists st].
    rewrite lookup_insert_eq. destruct HI as [?|[?|(st' & E & Hst)]]; [done|congruence|]. exists (f_stable f). rewrite Hx in E. injection E as -> ->.
    split; [by destruct f|auto].
Qed.
Lemma within_trans N N' I s1 s2 s3 : within N I s1 s2 → within N' [] s2 s3 → within (N ++ N') I s1 s3.
Proof using Type.
  intros H H'. split.
  - by rewrite (within_checkpoints _ _ _ _ H'), (within_checkpoints _ _ _ _ H).
  - intros Hd. eapply within_dir, within_dir; done.
  - eapply later_trans; by eapply within_later.
  - intros n i Hn Hh. rewrite not_elem_of_app in Hn. eapply within_has; [done|apply Hn|]. by eapply within_has; [done|apply Hn|].
  - intros i x b Hi Hh. eapply within_holds; [done|apply not_elem_of_nil|]. by eapply within_holds.
Qed.
(** *** Each call *)
Lemma within_created n data s i s' :
  staged s → created (In pend n) data s = Ok (i, s') → within [] [] s s' ∧ has n i s' ∧ holds i data false s' ∧ files s' !! i = Some (File data false) ∧ files s !! i = None.
Proof using Type.
  intros H. unfold created. destruct (find (In pend n) s) as [j|] eqn:Ef; [done|]. destruct (staged_directory _ H) as (e & E & He).
  cbn [link]. rewrite E. cbn [mbind option_bind fst snd]. set (k := fresh (dom (files s))). intros [= <- <-].
  assert (Hk : files s !! k = None) by (apply not_elem_of_dom; unfold k; apply is_fresh).
  assert (W1 : within [] [] s (set_dir dS (change <[n:=k]> e) s)).
  { apply (within_set_dir _ e); [done|]. intros m j _ Hm. cbn. destruct (decide (n = m)) as [<-|]; [|by rewrite lookup_insert_ne].
    assert (Hh : has n j s) by (exists e; done). apply (staged_find n s H) in Hh. congruence. }
  split_and!.
  - apply (within_trans [] [] [] _ _ _ W1). apply within_set_file; cbn; [by rewrite Hk|by right; left].
  - exists (change <[n:=k]> e). cbn. rewrite !lookup_insert_eq. done.
  - exists false. cbn. rewrite lookup_insert_eq. done.
  - cbn. by rewrite lookup_insert_eq.
  - done.
Qed.
Lemma store_wp_create n data (Q : inode → world → Prop) (E : world → Prop) w :
  staged (w_fs w) →
  (∀ i s', within [] [] (w_fs w) s' → has n i s' → files s' !! i = Some (File data false) → files (w_fs w) !! i = None → Q i (set_fs s' w)) →
  (∀ s', within [] [] (w_fs w) s' → E (set_fs s' w)) → wp (create (In pend n) data) Q E w.
Proof using Type.
  intros H HQ HE. apply wp_io.
  - intros i s' Hc. destruct (within_created _ _ _ _ _ H Hc) as (W & Hh & _ & Hf & Hn). eauto.
  - rewrite <- (fs_world w). apply HE, within_refl.
  - intros b. unfold partly_created. destruct (created _ _ _) as [[i s']|e] eqn:Ec; [apply HE|apply HE, within_refl].
    by destruct (within_created _ _ _ _ _ H Ec).
Qed.
Lemma wp_load_stat p (Q : Z → world → Prop) (E : world → Prop) w :
  (∀ i f, load p (w_fs w) = Some (i, f) → Q (byteLength (f_data f)) w) → E w → wp (stat p) Q E w.
Proof using Type.
  intros HQ HE. apply wp_io; [|done|intros c; unfold whole; by rewrite fs_world]. intros n s. destruct (load p (w_fs w)) as [[i f]|] eqn:EL; [|done].
  intros [= <- <-]. rewrite fs_world. by eapply HQ.
Qed.
Lemma wp_load_read p (Q : bytes → world → Prop) (E : world → Prop) w :
  (∀ i f, load p (w_fs w) = Some (i, f) → Q (f_data f) w) → E w → wp (readFile p) Q E w.
Proof using Type.
  intros HQ HE. apply wp_io; [|done|intros c; unfold whole; by rewrite fs_world]. intros n s. destruct (load p (w_fs w)) as [[i f]|] eqn:EL; [|done].
  intros [= <- <-]. rewrite fs_world. by eapply HQ.
Qed.
Lemma staged_load n s i x b : staged s → has n i s → holds i x b s → ∃ f, load (In pend n) s = Some (i, f) ∧ f_data f = x.
Proof using Type.
  intros H Hh (st & Hf & _). exists (File x st). split; [|done]. unfold load. apply (staged_find n s H) in Hh. rewrite Hh. cbn. by rewrite Hf.
Qed.
Lemma wp_stat n i x b (Q : Z → world → Prop) (E : world → Prop) w :
  staged (w_fs w) → has n i (w_fs w) → holds i x b (w_fs w) → Q (byteLength x) w → E w → wp (stat (In pend n)) Q E w.
Proof using Type.
  intros H Hh Hx HQ HE. apply wp_load_stat; [|done]. intros j f Hl. destruct (staged_load _ _ _ _ _ H Hh Hx) as (f' & El & Ef). rewrite El in Hl. injection Hl as <- <-. by rewrite Ef.
Qed.
Lemma wp_read n i x b (Q : bytes → world → Prop) (E : world → Prop) w :
  staged (w_fs w) → has n i (w_fs w) → holds i x b (w_fs w) → Q x w → E w → wp (readFile (In pend n)) Q E w.
Proof using Type.
  intros H Hh Hx HQ HE. apply wp_load_read; [|done]. intros j f Hl. destruct (staged_load _ _ _ _ _ H Hh Hx) as (f' & El & Ef). rewrite El in Hl. injection Hl as <- <-. by rewrite Ef.
Qed.
Lemma within_stabilised i s : within [] [] s (stabilised i s).
Proof using Type.
  unfold stabilised. destruct (files s !! i) as [f|] eqn:Ef; [|apply within_refl]. apply within_set_file.
  - intros b Hb. rewrite Ef in Hb. by injection Hb as ->.
  - right. right. exists (f_stable f). cbn. split; [|done]. by destruct f.
Qed.
Lemma holds_stabilised i x b s : holds i x b s → holds i x true (stabilised i s).
Proof using Type. intros (st & Hf & _). unfold stabilised. rewrite Hf. exists true. cbn. by rewrite lookup_insert_eq. Qed.
Lemma wp_syncFile n i x b (Q : unit → world → Prop) (E : world → Prop) w :
  staged (w_fs w) → has n i (w_fs w) → holds i x b (w_fs w) →
  (∀ s', within [] [] (w_fs w) s' → holds i x true s' → Q tt (set_fs s' w)) → E w → wp (syncFile (In pend n)) Q E w.
Proof using Type.
  intros H Hh Hx HQ HE. apply wp_io; [|done|intros c; unfold whole; by rewrite fs_world]. intros [] s'. destruct (staged_load _ _ _ _ _ H Hh Hx) as (f & El & _). rewrite El.
  intros [= <-]. apply HQ; [apply within_stabilised|]. by eapply holds_stabilised.
Qed.
Lemma wp_unlink n (Q : unit → world → Prop) (E : world → Prop) w :
  staged (w_fs w) → (∀ s', within [n] [] (w_fs w) s' → Q tt (set_fs s' w)) → E w → wp (unlink (In pend n)) Q E w.
Proof using Type.
  intros H HQ HE. apply wp_io; [|done|intros c; unfold whole; by rewrite fs_world]. intros [] s'. destruct (find _ _); [|done]. intros [= <-]. apply HQ.
  destruct (staged_directory _ H) as (e & E1 & He). unfold unlink_name. rewrite E1. apply (within_set_dir _ e); [done|].
  intros m j Hm Hi. cbn. apply not_elem_of_cons in Hm as [Hm _]. by rewrite lookup_delete_ne.
Qed.
(** A handle of a file that was not synced. *)
Lemma within_written i offset b x s :
  files s !! i = Some (File x false) → within [] [i] s (written i offset b s) ∧
  files (written i offset b s) !! i = Some (File (slice x 0 offset ++ b ++ drop (Z.to_nat (offset + byteLength b)) x) false).
Proof using Type.
  intros Hi. unfold written. rewrite Hi. split.
  - apply within_set_file; [by intros c; rewrite Hi|by left; left].
  - cbn. by rewrite lookup_insert_eq.
Qed.
(** *** The directory gets its name *)
Lemma wp_rename_directory id (Q : unit → world → Prop) (E : world → Prop) w :
  staged (w_fs w) → valid_id id = true →
  (∀ s', root s' = root (w_fs w) → dirs s' = dirs (w_fs w) → files s' = files (w_fs w) → now (checkpoints s') !! pend = None →
     now (checkpoints s') !! id = Some dS → safe (Some dS) P0 s' → Q tt (set_fs s' w)) →
  E w → wp (rename_directory pend id) Q E w.
Proof using pend_other.
  intros H Hv HQ HE. apply wp_io; [|done|intros c; unfold whole; by rewrite fs_world]. intros [] s'.
  destruct (staged_directory _ H) as (e & Ed & He). rewrite Ed. cbn [fst].
  assert (Hne : pend ≠ id) by (intros ->; congruence).
  assert (HS : ∀ s', s' = set_checkpoints (change (λ m, <[id:=dS]> (delete pend m)) (checkpoints (w_fs w))) (w_fs w) →
                (∀ y, directory id (w_fs w) = Some y → now y.2 = ∅) → Q tt (set_fs s' w)).
  { intros s1 -> Hempty. apply HQ; cbn; try done.
    - by rewrite lookup_insert_ne, lookup_delete_eq.
    - by rewrite lookup_insert_eq.
    - apply (later_safe (Some dS) P0 (w_fs w)); [|apply H]. split; cbn; eauto.
      intros id' d x n i HX Hv' Hn Hd Hx t Ht. cbn in Ht. apply elem_of_cons in Ht as [->|Ht]; [|by apply Hn].
      assert (Hp : pend ≠ id') by (intros ->; congruence).
      assert (Hnow : now (checkpoints (w_fs w)) !! id' = Some d) by (apply Hn; by left).
      destruct (decide (id = id')) as [<-|]; [|cbn; by rewrite lookup_insert_ne, lookup_delete_ne].
      assert (Hy : directory id (w_fs w) = Some (d, x)) by (unfold directory; rewrite Hnow; cbn; by rewrite Hd).
      apply Hempty in Hy. cbn in Hy. assert (Hi : now x !! n = Some i) by (apply Hx; by left). by rewrite Hy in Hi. }
  destruct (directory id (w_fs w)) as [y|] eqn:Ey; [case_bool_decide; [|done]|]; intros [= <-]; apply HS; try done. by intros ? [= <-].
Qed.
End staged.

(** ** A commit *)
Section commit.
Context (gzip : bytes → bytes) (stringify_pointer : string → bytes) (stringify_meta : meta → bytes).
Hypothesis pointer_read : ∀ id, parse_pointer (stringify_pointer id) = Some id.
Hypothesis meta_read : ∀ m, parse_meta (stringify_meta m) = Some m.
Context (P0 : ckpt → Prop) (pend : string) (dS : inode).
Hypothesis pend_other : valid_id pend = false.
Context (new : ckpt).
Hypothesis new_sound : sound new.
Definition P1 (c : ckpt) : Prop := P0 c ∨ c = new.
(** How the file system is left when something fails. *)
Definition unharmed (w : world) : Prop :=
  w_dir w = Some pend ∧ (staged P0 pend dS (w_fs w) ∨ (now (checkpoints (w_fs w)) !! pend = None ∧ safe None P1 (w_fs w))).

Lemma later_checkpoints_synced X s : later X s (set_checkpoints (synced (checkpoints s)) s).
Proof using Type.
  split; cbn; eauto. intros id d e n i _ _ Hn _ _ t Ht. cbn in Ht. apply list_elem_of_singleton in Ht as ->. apply Hn. by left.
Qed.
Lemma within_synced s e : dirs s !! dS = Some e → within dS [] [] s (set_dir dS (synced e) s).
Proof using Type. intros He. apply (within_set_dir _ _ e); [done|]. by intros. Qed.
(** The new checkpoint is on the disk. *)
Lemma new_kept s e iD iG iM b1 b2 b3 mb :
  past (checkpoints s) = [] → now (checkpoints s) !! k_id new = Some dS → dirs s !! dS = Some e → past e = [] →
  has dS "disk.img" iD s → has dS "state.bin.gz" iG s → has dS "metadata.json" iM s →
  holds iD (k_disk new) b1 s → b1 = true → holds iG (k_state new) b2 s → b2 = true → holds iM mb b3 s → b3 = true → parse_meta mb = Some (k_meta new) →
  kept new dS s.
Proof using new_sound.
  intros Hp Hn He Hpe (e1 & He1 & H1) (e2 & He2 & H2) (e3 & He3 & H3) (t1 & F1 & T1) -> (t2 & F2 & T2) -> (t3 & F3 & T3) -> Hm.
  rewrite (T1 eq_refl) in F1. rewrite (T2 eq_refl) in F2. rewrite (T3 eq_refl) in F3. simplify_eq.
  split; [done|]. split.
  - intros t Ht. unfold all in Ht. rewrite Hp in Ht. by apply list_elem_of_singleton in Ht as ->.
  - exists e, iD, iG, iM, mb. split_and!; try done. intros t Ht. unfold all in Ht. rewrite Hpe in Ht. by apply list_elem_of_singleton in Ht as ->.
Qed.

(** The pointer is replaced. *)
Lemma later_created_root n data s i s' :
  n ≠ "latest.json"%string → created (InRoot n) data s = Ok (i, s') →
  later None s s' ∧ checkpoints s' = checkpoints s ∧ files s' !! i = Some (File data false) ∧ now (root s') !! n = Some i.
Proof using Type.
  intros Hn. unfold created. destruct (find _ s) eqn:Ef; [done|]. cbn [link]. set (k := fresh (dom (files s))). intros [= <- <-].
  assert (Hk : files s !! k = None) by (apply not_elem_of_dom; unfold k; apply is_fresh). split_and!; cbn; [|done|by rewrite lookup_insert_eq|by rewrite lookup_insert_eq].
  split; cbn; eauto.
  - intros j b Hj. rewrite lookup_insert_ne by congruence. done.
  - intros t Ht. apply elem_of_cons in Ht as [->|Ht]; [|eauto]. exists (now (root s)). split; [by left|]. cbn; by rewrite lookup_insert_ne.
Qed.
Lemma later_stabilised X i s : later X s (stabilised i s).
Proof using Type.
  unfold stabilised. destruct (files s !! i) as [f|] eqn:Ef; [|apply later_refl]. split; cbn; eauto.
  intros j b Hj. destruct (decide (i = j)) as [<-|]; [rewrite lookup_insert_eq; rewrite Ef in Hj; by injection Hj as ->|by rewrite lookup_insert_ne].
Qed.
Definition committed (w : world) : Prop :=
  w_dir w = Some pend ∧ now (checkpoints (w_fs w)) !! pend = None ∧ safe None (λ c, c = new) (w_fs w).
Lemma wp_pointer {A} n (k : M A) (w : world) (Q : A → world → Prop) :
  w_dir w = Some pend → now (checkpoints (w_fs w)) !! pend = None → safe None P0 (w_fs w) → kept new dS (w_fs w) →
  (∀ s', committed (set_fs s' w) → wp k Q unharmed (set_fs s' w)) →
  wp (create (InRoot (".latest-" +:+ n)) (stringify_pointer (k_id new)) ;; syncFile (InRoot (".latest-" +:+ n)) ;;
      rename_root (".latest-" +:+ n) "latest.json" ;; sync_root ;; k) Q unharmed w.
Proof using pointer_read.
  intros Hd Hp HS HK HQ. assert (HN : (".latest-" +:+ n)%string ≠ "latest.json"%string) by discriminate. set (nm := (".latest-" +:+ n)%string) in *.
  assert (HU : ∀ s', later None (w_fs w) s' → checkpoints s' = checkpoints (w_fs w) → unharmed (set_fs s' w)).
  { intros s' HL EC. split; [done|]. right. cbn. rewrite EC. split; [done|]. eapply safe_weaken; [|eapply later_safe; done]. by left. }
  apply store_wp_bind, wp_io; [|rewrite <- (fs_world w); apply HU; [apply later_refl|done]|].
  2: { intros b. unfold partly_created. destruct (created _ _ _) as [[i s']|e] eqn:Ec; [|apply HU; [apply later_refl|done]]. destruct (later_created_root _ _ _ _ _ HN Ec) as (?&?&_). by apply HU. }
  intros i s1 Hc. destruct (later_created_root _ _ _ _ _ HN Hc) as (L1 & C1 & F1 & R1).
  assert (EL : load (InRoot nm) s1 = Some (i, File (stringify_pointer (k_id new)) false)) by (unfold load, find; rewrite R1; cbn; by rewrite F1).
  apply store_wp_bind, wp_io; [|by apply HU|intros b; unfold whole; rewrite fs_world; by apply HU].
  intros [] s2. cbn [w_fs set_fs]. rewrite EL. cbn [fst]. intros [= <-].
  assert (L2 : later None (w_fs w) (stabilised i s1)) by (eapply later_trans; [done|apply later_stabilised]).
  assert (E2 : checkpoints (stabilised i s1) = checkpoints (w_fs w) ∧ root (stabilised i s1) = root s1 ∧ files (stabilised i s1) !! i = Some (File (stringify_pointer (k_id new)) true))
    by (unfold stabilised; rewrite F1; cbn; by rewrite lookup_insert_eq).
  set (s2 := stabilised i s1) in *. destruct E2 as (C2 & R2 & F2). change (set_fs s2 (set_fs s1 w)) with (set_fs s2 w).
  assert (K2 : kept new dS s2) by (by apply (later_kept None (w_fs w))).
  assert (G2 : pointed (k_id new) i s2) by (exists (stringify_pointer (k_id new)); by rewrite pointer_read).
  apply store_wp_bind, wp_io; [|by apply HU|intros b; unfold whole; rewrite fs_world; by apply HU].
  intros [] s3. cbn [w_fs set_fs]. rewrite R2, R1. intros [= <-].
  set (s3 := set_root _ s2). change (set_fs s3 (set_fs s2 w)) with (set_fs s3 w).
  assert (HS3 : safe None P1 s3).
  { intros t Ht. unfold s3 in Ht. cbn in Ht. apply elem_of_cons in Ht as [->|Ht].
    - exists i, new, dS. cbn; rewrite lookup_insert_eq. split_and!; [done|exact G2|exact K2|done|by right].
    - assert (Hs2 : safe None P0 s2) by (by eapply later_safe). destruct (Hs2 t) as (j & c & d & ? & ? & ? & ? & ?); [by rewrite R2|]. exists j, c, d. split_and!; try done. by left. }
  apply store_wp_bind, wp_io; [|split; [done|right; by rewrite <- C2 in Hp]|intros b; unfold whole; rewrite fs_world; split; [done|right; by rewrite <- C2 in Hp]].
  intros [] s4 [= <-]. cbn [w_fs set_fs]. apply HQ. split; [done|]. cbn. rewrite C2. split; [done|].
  intros t Ht. cbn in Ht. apply list_elem_of_singleton in Ht as ->. exists i, new, dS. cbn; rewrite lookup_insert_eq. split_and!; [done|exact G2|exact K2|done|done].
Qed.
(** From the name on; the files are synced. *)
Lemma wp_named {A} n (k : M A) iD iG iM (w : world) (Q : A → world → Prop) :
  w_dir w = Some pend → staged P0 pend dS (w_fs w) →
  has dS "disk.img" iD (w_fs w) → has dS "state.bin.gz" iG (w_fs w) → has dS "metadata.json" iM (w_fs w) →
  holds iD (k_disk new) true (w_fs w) → holds iG (k_state new) true (w_fs w) → holds iM (stringify_meta (k_meta new)) true (w_fs w) →
  (∀ s', committed (set_fs s' w) → wp k Q unharmed (set_fs s' w)) →
  wp (rename_directory pend (k_id new) ;; sync_directory (k_id new) ;; sync_checkpoints ;;
      create (InRoot (".latest-" +:+ n)) (stringify_pointer (k_id new)) ;; syncFile (InRoot (".latest-" +:+ n)) ;;
      rename_root (".latest-" +:+ n) "latest.json" ;; sync_root ;; k) Q unharmed w.
Proof using pointer_read meta_read pend_other new_sound.
  intros Hd HS H1 H2 H3 F1 F2 F3 HQ. apply store_wp_bind, (wp_rename_directory P0 pend dS pend_other); [done|apply new_sound| |by split; [|left]].
  intros s1 ER ED EF Hp Hn HS1. assert (HU : ∀ s', later (Some dS) s1 s' → now (checkpoints s') = now (checkpoints s1) → unharmed (set_fs s' w)).
  { intros s' HL EC. split; [done|]. right. cbn. rewrite EC. split; [done|]. apply (safe_weaken (Some dS) P0); [by left|]. by eapply later_safe. }
  assert (W1 : ∀ m i, has dS m i (w_fs w) → has dS m i s1) by (intros m i (e & He & Hi); exists e; by rewrite ED).
  assert (W2 : ∀ i x b, holds i x b (w_fs w) → holds i x b s1) by (intros i x b (st & He & Hi); exists st; by rewrite EF).
  destruct HS as (_ & [e He] & _). rewrite <- ED in He.
  apply store_wp_bind, wp_io; [|by apply HU; [apply later_refl|]|intros b; unfold whole; rewrite fs_world; by apply HU; [apply later_refl|]].
  intros [] s2. cbn [w_fs set_fs]. unfold directory. rewrite Hn. cbn [mbind option_bind]. rewrite He. cbn [mbind option_bind fst snd]. intros [= <-].
  set (s2 := set_dir dS (synced e) s1). change (set_fs s2 (set_fs s1 w)) with (set_fs s2 w). pose proof (within_synced _ _ He) as W3. fold s2 in W3.
  apply store_wp_bind, wp_io; [|apply HU; [apply W3|done]|intros b; unfold whole; rewrite fs_world; apply HU; [apply W3|done]].
  intros [] s3 [= <-]. cbn [w_fs set_fs]. set (s3 := set_checkpoints _ s2). change (set_fs s3 (set_fs s2 w)) with (set_fs s3 w).
  apply wp_pointer; cbn [w_fs w_dir set_fs]; [done|done| | |done].
  - apply (safe_weaken (Some dS) P0); [done|]. apply (later_safe _ _ s2); [exact (later_checkpoints_synced _ s2)|]. eapply later_safe; [apply W3|done].
  - assert (H' : ∀ m i, has dS m i (w_fs w) → has dS m i s3) by (intros m i Hi; apply W1 in Hi; apply (within_has _ _ _ _ _ W3) in Hi; [exact Hi|apply not_elem_of_nil]).
    assert (F' : ∀ i x b, holds i x b (w_fs w) → holds i x b s3) by (intros i x b Hi; apply W2 in Hi; apply (within_holds _ _ _ _ _ W3) in Hi; [exact Hi|apply not_elem_of_nil]).
    eapply (new_kept s3 (synced e)); eauto. cbn. by rewrite lookup_insert_eq.
Qed.
(** The three files are synced. *)
Lemma wp_synced {A} n (k : M A) iD iG iM b1 b2 b3 (w : world) (Q : A → world → Prop) :
  w_dir w = Some pend → staged P0 pend dS (w_fs w) →
  has dS "disk.img" iD (w_fs w) → has dS "state.bin.gz" iG (w_fs w) → has dS "metadata.json" iM (w_fs w) →
  holds iD (k_disk new) b1 (w_fs w) → holds iG (k_state new) b2 (w_fs w) → holds iM (stringify_meta (k_meta new)) b3 (w_fs w) →
  (∀ s', committed (set_fs s' w) → wp k Q unharmed (set_fs s' w)) →
  wp (syncFile (In pend "disk.img") ;; syncFile (In pend "state.bin.gz") ;; syncFile (In pend "metadata.json") ;;
      rename_directory pend (k_id new) ;; sync_directory (k_id new) ;; sync_checkpoints ;;
      create (InRoot (".latest-" +:+ n)) (stringify_pointer (k_id new)) ;; syncFile (InRoot (".latest-" +:+ n)) ;;
      rename_root (".latest-" +:+ n) "latest.json" ;; sync_root ;; k) Q unharmed w.
Proof using pointer_read meta_read pend_other new_sound.
  intros Hd HS H1 H2 H3 F1 F2 F3 HQ. assert (HU : ∀ s', staged P0 pend dS s' → unharmed (set_fs s' w)) by (intros; by split; [|left]).
  assert (HH : ∀ s m i, within dS [] [] (w_fs w) s → has dS m i (w_fs w) → has dS m i s) by (intros s m i W; eapply within_has; [exact W|apply not_elem_of_nil]).
  assert (HF : ∀ s s' i x b, within dS [] [] s s' → holds i x b s → holds i x b s') by (intros s s' i x b W; eapply within_holds; [exact W|apply not_elem_of_nil]).
  apply store_wp_bind. eapply (wp_syncFile P0 pend dS); [done|done|done| |by split; [|left]]. intros s1 W1 G1.
  assert (S1 : staged P0 pend dS s1) by by eapply within_staged.
  apply store_wp_bind. eapply (wp_syncFile P0 pend dS); cbn [w_fs set_fs]; [done|by apply HH|by eapply HF| |by apply HU]. intros s2 W2 G2. change (set_fs s2 (set_fs s1 w)) with (set_fs s2 w).
  assert (S2 : staged P0 pend dS s2) by by eapply within_staged. pose proof (within_trans _ _ _ _ _ _ _ W1 W2) as W12. cbn [app] in W12.
  apply store_wp_bind. eapply (wp_syncFile P0 pend dS); cbn [w_fs set_fs]; [done|by apply HH|by eapply HF| |by apply HU]. intros s3 W3 G3. change (set_fs s3 (set_fs s2 w)) with (set_fs s3 w).
  assert (S3 : staged P0 pend dS s3) by by eapply within_staged. pose proof (within_trans _ _ _ _ _ _ _ W12 W3) as W13. cbn [app] in W13.
  eapply wp_named; cbn [w_fs w_dir set_fs]; [done|done|by apply HH|by apply HH|by apply HH|apply (HF s2); [done|]; by apply (HF s1)|by apply (HF s2)|done|done].
Qed.
(** The whole commit of a staged disk and state. *)
Lemma wp_commit size info createdAt n iD iH raw (w : world) (Q : string * meta → world → Prop) :
  w_dir w = Some pend → staged P0 pend dS (w_fs w) → has dS "disk.img" iD (w_fs w) → has dS "state.bin" iH (w_fs w) →
  holds iD (k_disk new) false (w_fs w) → holds iH raw false (w_fs w) → k_state new = gzip raw →
  k_meta new = Meta size info 1 createdAt (sha256 (k_disk new)) (sha256 (k_state new)) →
  (∀ s', committed (set_fs s' w) → Q (k_id new, k_meta new) (set_fs s' w)) →
  wp (commit gzip sha256 stringify_pointer stringify_meta pend size info createdAt (k_id new) n) Q unharmed w.
Proof using pointer_read meta_read pend_other new_sound.
  intros Hd HS H1 H2 F1 F2 Hst Hm HQ. unfold commit, hashFile.
  assert (HU : ∀ s', staged P0 pend dS s' → unharmed (set_fs s' w)) by (intros; by split; [|left]).
  assert (HU0 : unharmed w) by by split; [|left].
  apply store_wp_bind. eapply (wp_stat P0 pend dS); [done|done|done| |done].
  apply store_wp_bind, store_wp_require; [intros _|done].
  apply store_wp_bind. eapply (wp_stat P0 pend dS); [done|done|done| |done].
  apply store_wp_bind, store_wp_require; [intros _|done].
  apply store_wp_bind. eapply (wp_read P0 pend dS); [done|done|done| |done].
  apply store_wp_bind, (store_wp_create P0 pend dS); [done| |intros s' W; apply HU; by eapply within_staged].
  intros iG s1 W1 G1 GF _. assert (S1 : staged P0 pend dS s1) by by eapply within_staged.
  assert (C1 : holds iG (k_state new) false s1) by (rewrite Hst; by exists false).
  apply store_wp_bind, (wp_unlink P0 pend dS); cbn [w_fs set_fs]; [done| |by apply HU].
  intros s2 W2. change (set_fs s2 (set_fs s1 w)) with (set_fs s2 w). pose proof (within_trans _ _ _ _ _ _ _ W1 W2) as W12. cbn [app] in W12.
  assert (S2 : staged P0 pend dS s2) by (by eapply within_staged).
  assert (D2 : has dS "disk.img" iD s2) by (eapply within_has; [exact W12|set_solver|done]). assert (G2 : has dS "state.bin.gz" iG s2) by (eapply within_has; [exact W2|set_solver|done]).
  assert (B2 : holds iD (k_disk new) false s2) by (eapply within_holds; [exact W12|set_solver|done]). assert (C2 : holds iG (k_state new) false s2) by (eapply within_holds; [exact W2|set_solver|done]).
  apply store_wp_bind, store_wp_bind. eapply (wp_read P0 pend dS); [done|done|done| |by apply HU]. apply store_wp_ret.
  apply store_wp_bind, store_wp_bind. eapply (wp_read P0 pend dS); [done|done|done| |by apply HU]. apply store_wp_ret. rewrite <- Hm.
  apply store_wp_bind, (store_wp_create P0 pend dS); [done| |intros s' W; apply HU; by eapply within_staged].
  intros iM s3 W3 M3 MF _. cbn [w_fs set_fs] in *. change (set_fs s3 (set_fs s2 w)) with (set_fs s3 w).
  assert (S3 : staged P0 pend dS s3) by by eapply within_staged.
  eapply (wp_synced n (mret (k_id new, k_meta new)) iD iG iM); cbn [w_fs w_dir set_fs]; [done|done| | |done| | | |].
  - eapply within_has; [exact W3|apply not_elem_of_nil|done].
  - eapply within_has; [exact W3|apply not_elem_of_nil|done].
  - eapply within_holds; [exact W3|apply not_elem_of_nil|done].
  - eapply within_holds; [exact W3|apply not_elem_of_nil|done].
  - by exists false.
  - intros s4 H4. apply store_wp_ret. by apply HQ.
Qed.
(** A disk of another size is not committed. *)
Lemma wp_commit_size size info createdAt id n iD disk (w : world) (Q : string * meta → world → Prop) :
  unharmed w → staged P0 pend dS (w_fs w) → has dS "disk.img" iD (w_fs w) → holds iD disk false (w_fs w) → byteLength disk ≠ size →
  wp (commit gzip sha256 stringify_pointer stringify_meta pend size info createdAt id n) Q unharmed w.
Proof using Type.
  intros HU HS H1 F1 Hn. unfold commit. apply store_wp_bind. eapply (wp_stat P0 pend dS); [done|done|done| |done].
  apply store_wp_bind, store_wp_require; [intros E; bools; lia|done].
Qed.

(** ** Before and after the commit *)
(** The machine's state arrives in the file. *)
Record receiving (iD iH : inode) (disk state : bytes) (off : Z) (w : world) : Prop := {
  r_dir : w_dir w = Some pend;
  r_staged : staged P0 pend dS (w_fs w);
  r_disk : has dS "disk.img" iD (w_fs w);
  r_disk_file : holds iD disk false (w_fs w);
  r_raw : has dS "state.bin" iH (w_fs w);
  r_other : iD ≠ iH;
  r_raw_file : files (w_fs w) !! iH = Some (File (slice state 0 off) false);
  r_transfer : w_transfer w = Some (Entry iH off 1073741824);
  r_bounds : 0 ≤ off ≤ byteLength state
}.
Lemma receiving_unharmed iD iH disk state off w : receiving iD iH disk state off w → unharmed w.
Proof using Type. intros H. split; [apply H|]. left. apply H. Qed.
Lemma slice_extend (l : bytes) a n : 0 ≤ a → 0 ≤ n → slice l 0 a ++ slice l a (a + n) = slice l 0 (a + n).
Proof using Type.
  intros Ha Hn. unfold slice. rewrite drop_0, !Z.sub_0_r. replace (a + n - a) with n by lia.
  rewrite Z2Nat.inj_add by lia. by rewrite take_take_drop.
Qed.
Lemma wp_receive iD iH disk state off n w (Q : unit → world → Prop) :
  receiving iD iH disk state off w → 0 ≤ n → off + n ≤ byteLength state →
  (∀ w', receiving iD iH disk state (off + n) w' → Q tt w') → wp (receive off (slice state off (off + n))) Q unharmed w.
Proof using Type.
  intros H Hn Hl HQ. pose proof (receiving_unharmed _ _ _ _ _ _ H) as HU. unfold receive.
  apply store_wp_bind, store_wp_gets. apply store_wp_bind, store_wp_require; [intros _|done]. rewrite (r_transfer _ _ _ _ _ _ H).
  apply store_wp_bind, store_wp_require; [intros _|done]. cbn [e_handle e_offset e_limit].
  pose proof (r_bounds _ _ _ _ _ _ H) as HB.
  destruct (within_written dS iH off (slice state off (off + n)) _ _ (r_raw_file _ _ _ _ _ _ H)) as [W F].
  assert (ES : byteLength (slice state off (off + n)) = n) by (unfold byteLength in *; rewrite length_slice; lia).
  assert (E0 : byteLength (slice state 0 off) = off) by (unfold byteLength in *; rewrite length_slice; lia).
  assert (E1 : slice (slice state 0 off) 0 off = slice state 0 off).
  { unfold slice. rewrite drop_0, Z.sub_0_r, take_take. by rewrite Nat.min_id. }
  assert (E2 : drop (Z.to_nat (off + n)) (slice state 0 off) = []) by (apply drop_ge; unfold byteLength in E0; lia).
  rewrite ES, E1, E2, app_nil_r, slice_extend in F by lia.
  assert (HS : staged P0 pend dS (written iH off (slice state off (off + n)) (w_fs w))) by (eapply within_staged; [exact W|apply H]).
  apply store_wp_bind, wp_io; [|done|intros b; split; [apply H|]; left; eapply within_staged; [|apply H]; by eapply within_written, H].
  intros [] s1 [= <-]. apply store_wp_modify. cbn [w_fs w_dir w_current set_fs]. rewrite ES. apply HQ. split; cbn [w_fs w_dir w_transfer]; try (exact F); try done; try apply H; try lia.
  - eapply within_has; [exact W|apply not_elem_of_nil|apply H].
  - eapply within_holds; [exact W| |apply H]. intros ?%list_elem_of_singleton. by apply (r_other _ _ _ _ _ _ H).
  - eapply within_has; [exact W|apply not_elem_of_nil|apply H].
Qed.
Lemma wp_transfer iD iH disk state fuel off w (Q : unit → world → Prop) :
  receiving iD iH disk state (Z.min off (byteLength state)) w → 0 ≤ off → byteLength state ≤ off + Z.of_nat fuel →
  (∀ w', receiving iD iH disk state (byteLength state) w' → Q tt w') → wp (transfer fuel off state) Q unharmed w.
Proof using Type.
  revert off w. induction fuel as [|fuel IH]; intros off w H Ho Hf HQ; cbn [transfer].
  { apply store_wp_ret, HQ. by replace (byteLength state) with (Z.min off (byteLength state)) by lia. }
  destruct (Z.ltb_spec off (byteLength state)) as [Hl|Hl].
  - rewrite Z.min_l in H by lia. unfold CHUNK. apply store_wp_bind. eapply wp_receive; [done|lia|lia|]. intros w' H'. apply IH; [|lia|lia|done].
    by replace (Z.min (off + 1048576) (byteLength state)) with (off + Z.min 1048576 (byteLength state - off)) by lia.
  - apply store_wp_ret, HQ. by replace (byteLength state) with (Z.min off (byteLength state)) by lia.
Qed.
Lemma unharmed_stabilised i w t : unharmed w → unharmed (World (stabilised i (w_fs w)) t (w_dir w) (w_current w)).
Proof using Type.
  intros [Hd [HS|[Hp HS]]]; (split; [done|]); cbn.
  - left. by eapply within_staged; [apply (within_stabilised dS)|].
  - right. split; [by unfold stabilised; destruct (files _ !! i)|]. eapply later_safe; [apply later_stabilised|done].
Qed.
(** What [finally] does after a failure. *)
Lemma wp_cleanup w : unharmed w → wp (closeTransfer ;; d ← gets w_dir; match d with Some d => rm d | None => mret tt end) (λ _ w, safe None P1 (w_fs w)) (λ w, safe None P1 (w_fs w)) w.
Proof using pend_other.
  assert (HU : ∀ w, unharmed w → safe None P1 (w_fs w)) by (intros v [_ [(_ & _ & HS)|[_ HS]]]; [eapply safe_weaken; [|exact HS]; by left|done]).
  assert (HR : ∀ w, unharmed w → wp (d ← gets w_dir; match d with Some d => rm d | None => mret tt end) (λ _ w, safe None P1 (w_fs w)) (λ w, safe None P1 (w_fs w)) w).
  { intros v H. apply store_wp_bind, store_wp_gets. rewrite (proj1 H).
    destruct H as [Hd [HS|[Hp HS]]].
    - destruct (staged_directory _ _ _ _ HS) as (e & E & He). assert (S0 : safe None P1 (w_fs v)) by (eapply safe_weaken; [|apply HS]; by left).
      apply wp_io; [intros [] s'; rewrite E; intros [= <-]|done|intros _; rewrite E]; cbn.
      + apply (safe_weaken (Some dS) P0); [by left|]. eapply later_safe; [|apply HS]. split; cbn; eauto.
        * intros d x HX Hx. exists x. rewrite lookup_insert_ne by congruence. done.
        * intros i d x n k HX Hv Hn _ _ t Ht. cbn in Ht. apply elem_of_cons in Ht as [->|Ht]; [|by apply Hn].
          cbn; rewrite lookup_delete_ne by (intros ->; congruence). apply Hn. by left.
      + apply (safe_weaken (Some dS) P0); [by left|]. eapply later_safe; [|apply HS]. split; cbn; eauto.
        intros d x HX Hx. exists x. rewrite lookup_insert_ne by congruence. done.
    - assert (E : directory pend (w_fs v) = None) by (unfold directory; by rewrite Hp).
      apply wp_io; [intros [] s'; rewrite E; by intros [= <-]|done|intros _; by rewrite E]. }
  intros H. unfold closeTransfer. apply store_wp_bind, store_wp_bind, store_wp_gets. destruct (w_transfer w) as [t|]; [|by apply store_wp_ret, HR].
  apply store_wp_bind, wp_io; [|by apply HU|intros b; unfold whole; rewrite fs_world; by apply HU].
  intros [] s' [= <-]. apply store_wp_modify, HR. by apply (unharmed_stabilised (e_handle t) w None).
Qed.
End commit.

(** ** A checkpoint *)
Section checkpoint.
Context (gzip : bytes → bytes) (stringify_pointer : string → bytes) (stringify_meta : meta → bytes).
Hypothesis pointer_read : ∀ id, parse_pointer (stringify_pointer id) = Some id.
Hypothesis meta_read : ∀ m, parse_meta (stringify_meta m) = Some m.
Context (P : ckpt → Prop) (size : Z) (info state disk : bytes) (uuid createdAt id next : string).

Definition fresh_checkpoint : ckpt := Ckpt id (Meta size info 1 createdAt (sha256 disk) (sha256 (gzip state))) disk (gzip state).
Notation new := fresh_checkpoint.
Notation pend := (".pending-" +:+ uuid)%string.
Lemma pending_invalid : valid_id pend = false.
Proof using Type. unfold valid_id. apply andb_false_iff. left. apply bool_decide_eq_false. by destruct uuid. Qed.

(** The temporary directory is new and empty. *)
Lemma wp_staging (Q : string → world → Prop) (E : world → Prop) w :
  safe None P (w_fs w) → now (checkpoints (w_fs w)) !! pend = None →
  (∀ s' dS, staged P pend dS s' → dirs s' !! dS = Some (Entries ∅ []) → root s' = root (w_fs w) → files s' = files (w_fs w) → Q pend (set_fs s' w)) →
  E w → wp (staging uuid) Q E w.
Proof using Type.
  intros HS Hp HQ HE. unfold staging. apply store_wp_bind, wp_io; [|done|intros b; unfold whole; by rewrite fs_world].
  intros [] s'. rewrite Hp. intros [= <-]. apply store_wp_ret. set (dS := fresh (dom (dirs (w_fs w)))).
  assert (Hd : dirs (w_fs w) !! dS = None) by (apply not_elem_of_dom; unfold dS; apply is_fresh).
  apply (HQ _ dS); cbn; [|by rewrite lookup_insert_eq|done|done]. split_and!; cbn; [by rewrite lookup_insert_eq|by rewrite lookup_insert_eq|].
  intros t Ht. destruct (HS t Ht) as (i & c & d & H1 & H2 & (H3 & H4 & e & iD & iS & iM & mb & He & H5) & H6 & H7). cbn in Ht.
  exists i, c, d. split; [done|]. split; [done|]. split; [|split; [congruence|done]]. split; [done|]. split.
  - intros u Hu. cbn in Hu. apply elem_of_cons in Hu as [->|Hu]; [|by apply H4]. cbn. rewrite lookup_insert_ne; [apply H4; by left|].
    intros Ep. pose proof (sound_id _ H3) as Hv. by rewrite <- Ep, pending_invalid in Hv.
  - exists e, iD, iS, iM, mb. cbn. by rewrite lookup_insert_ne by congruence.
Qed.
Lemma within_overwritten dS data s s' :
  staged P pend dS s → dirs s !! dS = Some (Entries ∅ []) → overwritten (In pend "disk.img") data s = Ok (tt, s') →
  within dS [] [] s s' ∧ ∃ i, has dS "disk.img" i s' ∧ holds i data false s'.
Proof using Type.
  intros HS He. unfold overwritten. destruct (find _ s) as [i|] eqn:Ef.
  { apply (staged_find P pend dS _ _ HS) in Ef as (e & E1 & E2). rewrite He in E1. injection E1 as <-. done. }
  destruct (created _ _ _) as [[i s1]|] eqn:Ec; [|done]. intros [= <-].
  destruct (within_created P pend dS _ _ _ _ _ HS Ec) as (W & H1 & H2 & _). split; [done|]. by exists i.
Qed.
(** What [try] does, with [unharmed] or nothing made when it fails. *)
Definition failed (w : world) : Prop := (w_dir w = None ∧ safe None P (w_fs w)) ∨ ∃ dS, unharmed P pend dS new w.
Lemma wp_try iw fw w :
  safe None P (w_fs w) → now (checkpoints (w_fs w)) !! pend = None → valid_id id = true → is_safe size = true → 0 < size →
  load (InRoot "working.img") (w_fs w) = Some (iw, fw) → f_data fw = disk →
  wp (modify (λ w, World (w_fs w) (w_transfer w) None (w_current w)) ;;
     syncFile (InRoot "working.img") ;;
     dir ← staging uuid;
     modify (λ w, World (w_fs w) (w_transfer w) (Some dir) (w_current w)) ;;
     copyLocalFile (InRoot "working.img") (In dir "disk.img") ;;
     openTransfer dir ;;
     transfer (length state) 0 state ;;
     closeTransfer ;;
     saved ← commit gzip sha256 stringify_pointer stringify_meta dir size info createdAt id next;
     modify (λ w, World (w_fs w) (w_transfer w) (w_dir w) (Some saved)) ;;
     mret saved)
    (λ saved w, saved = (id, k_meta new) ∧ committed pend new w ∧ w_transfer w = None) failed w.
Proof using pointer_read meta_read.
  intros HS Hp Hv Hsz H0 HL Hdisk. apply store_wp_bind, store_wp_modify. set (w0 := World _ _ None _).
  apply store_wp_bind, wp_io; [|by left|intros b; unfold whole; rewrite fs_world; by left]. intros [] s1. cbn [w_fs w0]. rewrite HL. cbn [fst]. intros [= <-].
  set (s1 := stabilised iw (w_fs w)).
  assert (HS1 : safe None P s1) by (eapply later_safe; [apply later_stabilised|done]).
  assert (HL1 : load (InRoot "working.img") s1 = Some (iw, File disk true)).
  { unfold load, find in *. destruct (now (root (w_fs w)) !! _) as [k|] eqn:Ek; [|done]. cbn in HL. destruct (files (w_fs w) !! k) as [g|] eqn:Eg; [|done]. cbn in HL.
    injection HL as -> ->. unfold s1, stabilised. rewrite Eg. cbn. rewrite Ek. cbn. rewrite lookup_insert_eq. cbn. by rewrite Hdisk. }
  assert (Hp1 : now (checkpoints s1) !! pend = None) by (unfold s1, stabilised; by destruct (files (w_fs w) !! iw)).
  apply store_wp_bind, wp_staging; cbn [w_fs set_fs]; [done|done| |by left]. intros s2 dS S2 E2 R2 F2. change (set_fs s2 (set_fs s1 w0)) with (set_fs s2 w0).
  apply store_wp_bind, store_wp_modify. cbn [w_fs w_dir w_transfer w_current set_fs w0]. set (w2 := World s2 _ (Some _) _).
  assert (HU : ∀ s' t, staged P pend dS s' → failed (World s' t (Some pend) (w_current w))) by (intros; right; exists dS; by split; [|left]).
  assert (HL2 : load (InRoot "working.img") s2 = Some (iw, File disk true)) by (unfold load, find in *; by rewrite R2, F2).
  apply store_wp_bind, wp_io; [|by apply HU|].
  2: { intros b. destruct (overwritten _ _ _) as [[[] s']|] eqn:Eo; apply HU; [|done]. eapply within_staged; [|exact S2]. by destruct (within_overwritten _ _ _ _ S2 E2 Eo). }
  intros [] s3. cbn [w_fs w2]. rewrite HL2. cbn [snd f_data]. intros Eo. destruct (within_overwritten _ _ _ _ S2 E2 Eo) as (W3 & iD & D3 & B3).
  assert (S3 : staged P pend dS s3) by by eapply within_staged.
  unfold openTransfer. apply store_wp_bind, store_wp_bind, (store_wp_create P pend dS); cbn [w_fs set_fs]; [done| |intros s' W; apply HU; by eapply within_staged].
  intros iH s4 W4 H4 F4 N4. apply store_wp_modify. cbn [w_fs w_dir w_transfer w_current set_fs]. set (w4 := World _ (Some _) _ _).
  assert (S4 : staged P pend dS s4) by by eapply within_staged.
  assert (R4 : receiving P pend dS iD iH disk state 0 w4).
  { split; cbn; try done.
    - eapply within_has; [exact W4|apply not_elem_of_nil|done].
    - eapply within_holds; [exact W4|apply not_elem_of_nil|done].
    - intros ->. destruct B3 as (st & B3 & _). congruence.
    - unfold byteLength. lia. }
  assert (HF : ∀ w, unharmed P pend dS new w → failed w) by (intros; right; by exists dS).
  apply store_wp_bind. eapply store_wp_conseq; [apply (wp_transfer P pend dS new iD iH disk state) with (Q := λ _ w, receiving P pend dS iD iH disk state (byteLength state) w)| |exact HF].
  { replace (Z.min 0 (byteLength state)) with 0 by (unfold byteLength; lia). exact R4. } { done. } { unfold byteLength. lia. } { done. }
  intros [] w5 R5. apply store_wp_bind. unfold closeTransfer. apply store_wp_bind, store_wp_gets. rewrite (r_transfer _ _ _ _ _ _ _ _ _ R5). cbn [e_handle].
  pose proof (receiving_unharmed _ _ _ new _ _ _ _ _ _ R5) as U5.
  apply store_wp_bind, wp_io; [|by apply HF|intros b; unfold whole; rewrite fs_world; by apply HF]. intros [] s6 [= <-]. apply store_wp_modify. cbn [w_fs w_dir w_transfer w_current set_fs].
  rewrite (r_dir _ _ _ _ _ _ _ _ _ R5). set (s6 := stabilised iH (w_fs w5)). pose proof (within_stabilised dS iH (w_fs w5)) as W6. fold s6 in W6. set (w6 := World s6 None _ _).
  assert (S6 : staged P pend dS s6) by (eapply within_staged; [exact W6|apply R5]).
  assert (D6 : has dS "disk.img" iD s6) by (eapply within_has; [exact W6|apply not_elem_of_nil|apply R5]).
  assert (G6 : has dS "state.bin" iH s6) by (eapply within_has; [exact W6|apply not_elem_of_nil|apply R5]).
  assert (B6 : holds iD disk false s6) by (eapply within_holds; [exact W6|apply not_elem_of_nil|apply R5]).
  assert (C6 : holds iH state false s6).
  { eapply within_holds; [exact W6|apply not_elem_of_nil|]. exists false. split; [|done]. rewrite (r_raw_file _ _ _ _ _ _ _ _ _ R5). do 2 f_equal.
    unfold slice, byteLength. rewrite drop_0, Z.sub_0_r, Nat2Z.id. apply take_ge. lia. }
  assert (U6 : unharmed P pend dS new w6) by by split; [|left].
  apply store_wp_bind. destruct (decide (byteLength disk = size)) as [Hs|Hs].
  - assert (HSound : sound new) by (by split).
    eapply store_wp_conseq; [eapply (wp_commit gzip stringify_pointer stringify_meta pointer_read meta_read P pend dS pending_invalid new HSound) with (Q := λ saved v, saved = (id, k_meta new) ∧ committed pend new v ∧ w_transfer v = None)| |exact HF].
    all: try done.
    intros saved v (-> & HC & HT). apply store_wp_bind, store_wp_modify, store_wp_ret. split_and!; try done.
  - eapply store_wp_conseq; [eapply (wp_commit_size gzip stringify_pointer stringify_meta P pend dS new) with (Q := λ _ _, False); try done| |exact HF]. by intros.
Qed.
Lemma wp_checkpoint iw fw w :
  safe None P (w_fs w) → now (checkpoints (w_fs w)) !! pend = None → valid_id id = true → is_safe size = true → 0 < size →
  load (InRoot "working.img") (w_fs w) = Some (iw, fw) → f_data fw = disk →
  wp (checkpoint gzip sha256 stringify_pointer stringify_meta size info state uuid createdAt id next)
    (λ saved w, saved = (id, k_meta new) ∧ safe None (λ c, c = new) (w_fs w)) (λ w, safe None (λ c, P c ∨ c = new) (w_fs w)) w.
Proof using pointer_read meta_read.
  intros HS Hp Hv Hsz H0 HL Hdisk. unfold checkpoint. eapply store_wp_finally.
  - eapply store_wp_conseq; [by eapply wp_try| |intros v H; exact H]. intros saved v (-> & (Hd & Hpn & HC) & HT).
    apply store_wp_bind. unfold closeTransfer. apply store_wp_bind, store_wp_gets. rewrite HT. apply store_wp_ret, store_wp_bind, store_wp_gets. rewrite Hd.
    assert (E : directory pend (w_fs v) = None) by (unfold directory; by rewrite Hpn).
    assert (HC' : safe None (λ c, P c ∨ c = new) (w_fs v)) by (eapply safe_weaken; [|exact HC]; by right).
    apply wp_io; [intros [] s'; rewrite E; by intros [= <-]|done|intros _; by rewrite E].
  - intros v [[Hd HC]|[dS HU]].
    + assert (HC' : ∀ i, safe None (λ c, P c ∨ c = new) (stabilised i (w_fs v))) by (intros i; eapply safe_weaken; [|eapply later_safe; [apply later_stabilised|exact HC]]; by left).
      assert (HC0 : safe None (λ c, P c ∨ c = new) (w_fs v)) by (eapply safe_weaken; [|exact HC]; by left). split; [done|].
      unfold closeTransfer. apply store_wp_bind, store_wp_bind, store_wp_gets. destruct (w_transfer v) as [t|].
      * apply store_wp_bind, wp_io; [|done|intros b; unfold whole; by rewrite fs_world]. intros [] s' [= <-]. apply store_wp_modify, store_wp_bind, store_wp_gets. cbn. rewrite Hd. apply store_wp_ret. apply HC'.
      * apply store_wp_ret, store_wp_bind, store_wp_gets. rewrite Hd. by apply store_wp_ret.
    + split; [|exact (wp_cleanup P pend dS pending_invalid new v HU)].
      destruct HU as [_ [(_ & _ & H)|[_ H]]]; [|exact H]. eapply safe_weaken; [|exact H]. by left.
Qed.
End checkpoint.

(** C39: Whatever fails while a checkpoint is made, and whenever the machine stops: what a
    crash leaves, with any mixture of what was not synced, has a latest checkpoint that
    passes all checks and is either the one there was or the new one, whole.  Once
    [checkpoint] has returned it is the new one, with the disk and the state as they were. *)
Theorem no_checkpoint_lost gzip stringify_pointer stringify_meta P size info state uuid createdAt id next w l iw fw :
  (∀ id, parse_pointer (stringify_pointer id) = Some id) → (∀ m, parse_meta (stringify_meta m) = Some m) →
  durable P (w_fs w) → now (checkpoints (w_fs w)) !! (".pending-" +:+ uuid)%string = None → valid_id id = true → is_safe size = true → 0 < size →
  load (InRoot "working.img") (w_fs w) = Some (iw, fw) →
  let new := fresh_checkpoint gzip size info state (f_data fw) createdAt id in
  let '(r, w', _) := checkpoint gzip sha256 stringify_pointer stringify_meta size info state uuid createdAt id next w l in
  durable (λ c, P c ∨ c = new) (w_fs w') ∧ (∀ s, crash (w_fs w') s → ∃ c, (P c ∨ c = new) ∧ recovered c s) ∧
  ∀ saved, r = Returned saved → saved = (id, k_meta new) ∧ durable (λ c, c = new) (w_fs w') ∧ ∀ s, crash (w_fs w') s → recovered new s.
Proof using Type.
  intros Hptr Hmeta HS Hp Hv Hsz H0 HL new.
  pose proof (wp_checkpoint gzip stringify_pointer stringify_meta Hptr Hmeta P size info state (f_data fw) uuid createdAt id next iw fw w HS Hp Hv Hsz H0 HL eq_refl l) as H.
  destruct (checkpoint _ _ _ _ _ _ _ _ _ _ _ w l) as [[r w'] l']. fold new in H.
  assert (HD : durable (λ c, P c ∨ c = new) (w_fs w')) by (destruct r as [a|e|]; [|exact H|exact H]; eapply safe_weaken; [|apply H]; by right).
  split; [exact HD|]. split; [intros s HC; exact (crash_recovers _ _ _ _ HD HC)|].
  intros saved ->. destruct H as [-> H]. split; [done|]. split; [exact H|]. intros s HC. by destruct (crash_recovers _ _ _ _ H HC) as (c & -> & HR).
Qed.
End facts.

(** ** A checkpoint after another *)
Definition meta_code (m : meta) : Z * bytes * Z * string * bytes * bytes := (m_size m, m_info m, m_version m, m_createdAt m, m_diskSha256 m, m_stateSha256 m).
Definition meta_of (x : Z * bytes * Z * string * bytes * bytes) : meta := let '(a, b, c, d, e, f) := x in Meta a b c d e f.
Definition write_pointer (id : string) : bytes := [Zpos (encode id)].
Definition read_pointer (b : bytes) : option string := match b with [Zpos p] => decode p | _ => None end.
Definition write_meta (m : meta) : bytes := [Zpos (encode (meta_code m))].
Definition read_meta (b : bytes) : option meta := match b with [Zpos p] => meta_of <$> decode p | _ => None end.
Lemma pointer_codes id : read_pointer (write_pointer id) = Some id.
Proof. apply decode_encode. Qed.
Lemma meta_codes m : read_meta (write_meta m) = Some m.
Proof. unfold read_meta, write_meta. rewrite decode_encode. by destruct m. Qed.
Definition old_ckpt : ckpt := Ckpt "checkpoint-1-00000000" (Meta 2 [] 1 "then" [1; 2] [9]) [1; 2] [9].
Definition old_fs : fs :=
  Fs (Entries {["latest.json"%string := 0%nat; "working.img"%string := 4%nat]} []) (Entries {["checkpoint-1-00000000"%string := 0%nat]} [])
    {[0%nat := Entries {["disk.img"%string := 1%nat; "state.bin.gz"%string := 2%nat; "metadata.json"%string := 3%nat]} []]}
    {[0%nat := File (write_pointer "checkpoint-1-00000000") true; 1%nat := File [1; 2] true; 2%nat := File [9] true;
      3%nat := File (write_meta (k_meta old_ckpt)) true; 4%nat := File [7; 8] false]}.
Definition old_world : world := World old_fs None None None.
Definition run_example : list fault → outcome (string * meta) * world * list fault :=
  checkpoint id id write_pointer write_meta 2 [5] [3; 4] "a" "now" "checkpoint-2-00000000" "b" old_world.
Definition new_ckpt : ckpt := fresh_checkpoint id id 2 [5] [3; 4] [7; 8] "now" "checkpoint-2-00000000".
Lemma old_durable : durable id read_pointer read_meta (λ c, c = old_ckpt) old_fs.
Proof.
  intros t Ht. apply list_elem_of_singleton in Ht as ->. exists 0%nat, old_ckpt, 0%nat. split_and!; [reflexivity| | |done|done].
  - exists (write_pointer "checkpoint-1-00000000"). split; [vm_compute; reflexivity|apply pointer_codes].
  - split; [split; vm_compute; reflexivity|]. split; [intros t Ht; by apply list_elem_of_singleton in Ht as ->|].
    exists (Entries {["disk.img"%string := 1%nat; "state.bin.gz"%string := 2%nat; "metadata.json"%string := 3%nat]} []), 1%nat, 2%nat, 3%nat, (write_meta (k_meta old_ckpt)).
    split; [reflexivity|]. split; [intros t Ht; apply list_elem_of_singleton in Ht as ->; split_and!; reflexivity|].
    split_and!; [vm_compute; reflexivity|vm_compute; reflexivity|vm_compute; reflexivity|apply meta_codes].
Qed.
(** A checkpoint without failures, and one whose machine stops before the directory is
    synced. *)
Lemma no_checkpoint_lost_witness :
  fst (fst (run_example [])) = Returned ("checkpoint-2-00000000"%string, k_meta new_ckpt) ∧
  (∀ s, crash (w_fs (snd (fst (run_example [])))) s → recovered id read_pointer read_meta new_ckpt s) ∧
  (∀ s, crash (w_fs (snd (fst (run_example (replicate 17 Fine ++ [Halt None]))))) s → ∃ c, (c = old_ckpt ∨ c = new_ckpt) ∧ recovered id read_pointer read_meta c s).
Proof.
  assert (HR : fst (fst (run_example [])) = Returned ("checkpoint-2-00000000"%string, k_meta new_ckpt)) by (vm_compute; reflexivity).
  assert (HL : load (InRoot "working.img") (w_fs old_world) = Some (4%nat, File [7; 8] false)) by (vm_compute; reflexivity).
  assert (H : ∀ l, (∀ s, crash (w_fs (snd (fst (run_example l)))) s → ∃ c, (c = old_ckpt ∨ c = new_ckpt) ∧ recovered id read_pointer read_meta c s) ∧
     ∀ saved, fst (fst (run_example l)) = Returned saved → ∀ s, crash (w_fs (snd (fst (run_example l)))) s → recovered id read_pointer read_meta new_ckpt s).
  { intros l. pose proof (no_checkpoint_lost id read_pointer read_meta id write_pointer write_meta (λ c, c = old_ckpt) 2 [5] [3; 4] "a" "now" "checkpoint-2-00000000" "b"
      old_world l 4%nat (File [7; 8] false) pointer_codes meta_codes old_durable eq_refl eq_refl eq_refl eq_refl HL) as H. cbv zeta in H.
    fold (run_example l) in H. destruct (run_example l) as [[r w'] l']. cbn [fst snd]. destruct H as (_ & H & HS). split; [exact H|]. intros saved E. exact (proj2 (proj2 (HS saved E))). }
  split; [exact HR|]. split; [exact (proj2 (H []) _ HR)|exact (proj1 (H (replicate 17 Fine ++ [Halt None])))].
Defined.
