(* ===== verification/AgentDisk.v ===== *)
(** * The agent's disk (src/scripts/agent.mjs: /_agent/disk; agent/runtime.js: client,
    localDiskRequest)

    The page of the development agent reads and writes the working disk with requests to the local
    server, which checks their ranges.  A request whose transport fails is sent again, at
    most three times in all; it may have been executed although its answer was lost.

    The disk is the bytes of working.img; the answers of the transport and of the file
    system are events. *)
From S2P Require Import Prelude.
#[local] Open Scope Z_scope.

(** What [disk.read] and [disk.write] do: all, [n] bytes, or an error. *)
Inductive io := All | Some_ (n : Z) | Failed (e : exn).
(** A request arrives with its answer, is lost, or is executed and its answer is lost. *)
Inductive delivery := Lost (e : exn) | Delivered (i : io) | Unanswered (i : io) (e : exn).

Definition LIMIT : Z := 8388608.
Definition UNKNOWN : exn := Exn None "Invalid disk range".
(** [bytes] written at an offset inside the file. *)
Definition splice (disk : bytes) (offset : Z) (b : bytes) : bytes :=
  take (Z.to_nat offset) disk ++ b ++ drop (Z.to_nat (offset + byteLength b)) disk.
(** [!Number.isSafeInteger(offset)||offset<0||!bytes.length||bytes.length>8388608||offset+bytes.length>diskSize]. *)
Definition invalid (diskSize offset length : Z) : bool :=
  negb (is_safe offset) || (offset <? 0) || (length =? 0) || (LIMIT <? length) || (diskSize <? offset + length).
Definition serve_read (disk : bytes) (offset length : Z) (i : io) : result bytes :=
  if negb (is_safe length) || (length <=? 0) || (LIMIT <? length) then throw_plain "Invalid disk read length"
  else if invalid (byteLength disk) offset length then Throw UNKNOWN
  else match i with
       | Failed e => Throw e
       | All => Ok (slice disk offset (offset + length))
       | Some_ n => if n =? length then Ok (slice disk offset (offset + length)) else throw_plain "Short disk read"
       end.
(** [body(req)] refuses more than one MiB. *)
Definition serve_write (disk : bytes) (offset : Z) (b : bytes) (i : io) : result unit * bytes :=
  if 1048576 <? byteLength b then (throw_plain "Request too large", disk)
  else if invalid (byteLength disk) offset (byteLength b) then (Throw UNKNOWN, disk)
  else match i with
       | Failed e => (Throw e, disk)
       | All => (Ok tt, splice disk offset b)
       | Some_ n => if n =? byteLength b then (Ok tt, splice disk offset b) else (throw_plain "Short disk write", splice disk offset (take (Z.to_nat n) b))
       end.

(** ** The page *)
(** [operation]: an answer with an error status throws an Error, the transport a TypeError. *)
Inductive answer (A : Type) := Answered (r : result A) | TypeError (e : exn).
Arguments Answered {A} r. Arguments TypeError {A} e.
Definition GONE : exn := Exn None "Failed to fetch".
Definition try_read (disk : bytes) (offset length : Z) (d : delivery) : answer bytes * bytes :=
  match d with
  | Lost e | Unanswered _ e => (TypeError e, disk)
  | Delivered i => (Answered (serve_read disk offset length i), disk)
  end.
Definition try_write (disk : bytes) (offset : Z) (b : bytes) (d : delivery) : answer unit * bytes :=
  match d with
  | Lost e => (TypeError e, disk)
  | Delivered i => let '(r, disk) := serve_write disk offset b i in (Answered r, disk)
  | Unanswered i e => (TypeError e, (serve_write disk offset b i).2)
  end.
(** [localDiskRequest(operation)]; a transport without events has gone. *)
Fixpoint localDiskRequest {A} (operation : bytes → delivery → answer A * bytes) (retries : nat) (events : list delivery) (disk : bytes) {struct events} : result A * bytes :=
  match events with
  | [] => (Throw GONE, disk)
  | d :: events =>
      match operation disk d with
      | (Answered r, disk) => (r, disk)
      | (TypeError e, disk) => match retries with O => (Throw e, disk) | S retries => localDiskRequest operation retries events disk end
      end
  end.
Definition read (offset length : Z) (events : list delivery) (disk : bytes) : result bytes * bytes :=
  localDiskRequest (λ disk d, try_read disk offset length d) 2 events disk.
Definition write (offset : Z) (b : bytes) (events : list delivery) (disk : bytes) : result unit * bytes :=
  localDiskRequest (λ disk d, try_write disk offset b d) 2 events disk.

(** ** Facts *)
Lemma length_splice disk offset b : 0 ≤ offset → offset + byteLength b ≤ byteLength disk → byteLength (splice disk offset b) = byteLength disk.
Proof. unfold splice, byteLength. intros. rewrite !length_app, length_take, length_drop. lia. Qed.
Lemma splice_again disk offset a b :
  0 ≤ offset → byteLength a ≤ byteLength b → offset + byteLength b ≤ byteLength disk → splice (splice disk offset a) offset b = splice disk offset b.
Proof.
  intros Ho Hl Hd. unfold splice, byteLength in *. set (n := Z.to_nat offset). assert (Hn : length (take n disk) = n) by (rewrite length_take; lia).
  replace (Z.to_nat (offset + Z.of_nat (length b))) with (n + length b)%nat by lia. replace (Z.to_nat (offset + Z.of_nat (length a))) with (n + length a)%nat by lia.
  f_equal; [by apply take_app_length'|]. f_equal.
  rewrite drop_app, Hn, (drop_ge (take n disk)) by lia. cbn [app]. rewrite drop_app, drop_ge by lia. cbn [app]. rewrite drop_drop. f_equal. lia.
Qed.
(** The disk with a part of the bytes written; [full]: all of them. *)
Definition touched (disk : bytes) (offset : Z) (b : bytes) (disk' : bytes) : Prop := ∃ n, 0 ≤ n ≤ byteLength b ∧ disk' = splice disk offset (take (Z.to_nat n) b).
Lemma splice_nothing disk offset : 0 ≤ offset → splice disk offset [] = disk.
Proof. intros. unfold splice, byteLength. cbn. rewrite Z.add_0_r. apply take_drop. Qed.
Lemma touched_all disk offset b : touched disk offset b (splice disk offset b).
Proof. exists (byteLength b). unfold byteLength. split; [lia|]. by rewrite Nat2Z.id, take_ge. Qed.
Definition inside (disk : bytes) (offset length : Z) : Prop := 0 ≤ offset ∧ 0 < length ∧ offset + length ≤ byteLength disk.
Lemma invalid_inside disk offset length : 0 ≤ length → invalid (byteLength disk) offset length = false → inside disk offset length.
Proof. unfold invalid, inside. intros. bools. lia. Qed.
Lemma splice_same disk offset c rest :
  0 ≤ offset → offset ≤ byteLength disk → splice (take (Z.to_nat offset) disk ++ c ++ rest) offset c = take (Z.to_nat offset) disk ++ c ++ rest.
Proof.
  intros Ho Hd. unfold splice, byteLength in *. assert (Hn : length (take (Z.to_nat offset) disk) = Z.to_nat offset) by (rewrite length_take; lia).
  f_equal; [by apply take_app_length'|]. f_equal. replace (Z.to_nat (offset + Z.of_nat (length c))) with (Z.to_nat offset + length c)%nat by lia.
  rewrite app_assoc. apply drop_app_length'. rewrite length_app. lia.
Qed.
Lemma touched_trans disk offset b d1 d2 : inside disk offset (byteLength b) → touched disk offset b d1 → touched d1 offset b d2 → touched disk offset b d2.
Proof.
  intros (H0 & _ & Hd) (n & Hn & ->) (m & Hm & ->). destruct (Z.le_gt_cases n m) as [Hnm|Hnm].
  - exists m. split; [done|]. apply splice_again; unfold byteLength in *; rewrite ?length_take; lia.
  - exists n. split; [done|]. assert (E : take (Z.to_nat n) b = take (Z.to_nat m) b ++ drop (Z.to_nat m) (take (Z.to_nat n) b)).
    { rewrite <- (take_drop (Z.to_nat m) (take (Z.to_nat n) b)) at 1. rewrite take_take. by replace (Z.to_nat m `min` Z.to_nat n)%nat with (Z.to_nat m) by lia. }
    rewrite E. set (c := take (Z.to_nat m) b). set (x := drop (Z.to_nat m) (take (Z.to_nat n) b)).
    change (splice disk offset (c ++ x)) with (take (Z.to_nat offset) disk ++ (c ++ x) ++ drop (Z.to_nat (offset + byteLength (c ++ x))) disk).
    rewrite <- (app_assoc c). apply splice_same; lia.
Qed.
Lemma length_touched disk offset b d : inside disk offset (byteLength b) → touched disk offset b d → byteLength d = byteLength disk.
Proof. intros (H0 & _ & Hd) (n & Hn & ->). apply length_splice; [done|]. unfold byteLength in *. rewrite length_take. lia. Qed.
Lemma serve_write_touches disk offset b i :
  ((serve_write disk offset b i).2 = disk ∨ (inside disk offset (byteLength b) ∧ touched disk offset b (serve_write disk offset b i).2)) ∧
  ((serve_write disk offset b i).1 = Ok tt → inside disk offset (byteLength b) ∧ (serve_write disk offset b i).2 = splice disk offset b).
Proof.
  unfold serve_write. destruct (_ <? _); [by split; [left|]|]. destruct (invalid _ _ _) eqn:Ei; [by split; [left|]|].
  apply invalid_inside in Ei; [|unfold byteLength; lia]. destruct i as [|n|e].
  - split; [right; split; [done|apply touched_all]|done].
  - destruct (n =? byteLength b); [split; [right; split; [done|apply touched_all]|done]|]. split; [|done]. right. split; [done|].
    exists (Z.max 0 (Z.min n (byteLength b))). unfold byteLength. split; [lia|]. cbn. f_equal. destruct (Z.le_gt_cases n (Z.of_nat (length b))) as [Hn|Hn].
    + f_equal. lia.
    + rewrite !take_ge by lia. done.
  - by split; [left|].
Qed.
(** The state of the disk while a write is tried, relative to the disk it started with. *)
Definition progress (disk : bytes) (offset : Z) (b d : bytes) : Prop := d = disk ∨ (inside disk offset (byteLength b) ∧ touched disk offset b d).
Lemma progress_step disk offset b d d' : progress disk offset b d → progress d offset b d' → progress disk offset b d'.
Proof.
  intros [->|[HI HT]] H'; [done|]. destruct H' as [->|[_ HT']]; [by right|]. right. split; [done|]. by eapply touched_trans.
Qed.
Lemma progress_full disk offset b d : progress disk offset b d → inside d offset (byteLength b) → splice d offset b = splice disk offset b ∧ inside disk offset (byteLength b).
Proof.
  intros [->|[HI (n & Hn & ->)]] Hd; [done|]. split; [|done]. destruct HI as (? & ? & ?). apply splice_again; unfold byteLength in *; rewrite ?length_take; lia.
Qed.
Lemma write_retries disk offset b k events d r d' :
  progress disk offset b d → localDiskRequest (λ disk d, try_write disk offset b d) k events d = (r, d') →
  progress disk offset b d' ∧ (r = Ok tt → inside disk offset (byteLength b) ∧ d' = splice disk offset b).
Proof.
  revert k d. induction events as [|e events IH]; intros k d HP H; cbn in H; [injection H as <- <-; by split|].
  assert (HS : ∀ i, progress disk offset b (serve_write d offset b i).2).
  { intros i. destruct (serve_write_touches d offset b i) as [Ht _]. eapply progress_step; [exact HP|exact Ht]. }
  destruct e as [e|i|i e]; cbn in H.
  - destruct k; [injection H as <- <-; by split|]. by eapply IH.
  - specialize (HS i). destruct (serve_write_touches d offset b i) as [_ Hok]. destruct (serve_write d offset b i) as [r1 d1]. injection H as <- <-. cbn in *.
    split; [done|]. intros ->. destruct (Hok eq_refl) as [Hin ->]. by destruct (progress_full _ _ _ _ HP Hin).
  - specialize (HS i). destruct k; [injection H as <- <-; by split|]. by eapply IH.
Qed.
Lemma read_retries offset length_ k events disk r d' :
  localDiskRequest (λ disk d, try_read disk offset length_ d) k events disk = (r, d') →
  d' = disk ∧ ∀ b, r = Ok b → inside disk offset length_ ∧ b = slice disk offset (offset + length_).
Proof.
  revert k. induction events as [|e events IH]; intros k H; cbn in H; [injection H as <- <-; by split|].
  destruct e as [e|i|i e]; cbn in H; try (destruct k; [injection H as <- <-; by split|by eapply IH]).
  injection H as <- <-. split; [done|]. intros b. unfold serve_read. destruct (negb _ || _ || _) eqn:El; [done|]. bools.
  destruct (invalid _ _ _) eqn:Ei; [done|]. apply invalid_inside in Ei; [|lia]. destruct i as [|n|e]; [by intros [= <-]| |done].
  destruct (n =? length_); [by intros [= <-]|done].
Qed.
(** What does not answer is sent again. *)
Definition unanswered (d : delivery) : bool := match d with Delivered _ => false | _ => true end.

(** However requests and answers are lost: a read that returns gives the bytes of the disk
    and never changes it; a write leaves the disk as it was or with a first part of its
    bytes at their place, inside the disk, whose size stays; when it returns they are all
    there.  A write of at most one MiB inside the disk returns if one of three tries is answered,
    even if earlier ones were executed. *)
Theorem local_disk disk offset :
  (∀ length events r d, read offset length events disk = (r, d) →
     d = disk ∧ ∀ b, r = Ok b → inside disk offset length ∧ b = slice disk offset (offset + length)) ∧
  (∀ b events r d, write offset b events disk = (r, d) →
     (d = disk ∨ (inside disk offset (byteLength b) ∧ touched disk offset b d)) ∧ byteLength d = byteLength disk ∧
     (r = Ok tt → inside disk offset (byteLength b) ∧ d = splice disk offset b)) ∧
  (∀ b lost events, Forall (λ d, unanswered d = true) lost → (length lost ≤ 2)%nat →
     inside disk offset (byteLength b) → byteLength b ≤ 1048576 → byteLength disk ≤ MAX_SAFE_INTEGER →
     write offset b (lost ++ Delivered All :: events) disk = (Ok tt, splice disk offset b)).
Proof.
  split; [intros length_ events r d; apply read_retries|]. split.
  - intros b events r d H. destruct (write_retries disk offset b 2 events disk r d) as [HP Hok]; [by left|done|]. split; [done|]. split; [|done].
    destruct HP as [->|[HI HT]]; [done|by eapply length_touched].
  - intros b lost events HL Hn HI Hb Hs. unfold write.
    enough (HG : ∀ k d, (length lost ≤ k)%nat → progress disk offset b d →
      localDiskRequest (λ disk d, try_write disk offset b d) k (lost ++ Delivered All :: events) d = (Ok tt, splice disk offset b)) by (apply HG; [done|by left]).
    clear Hn. induction HL as [|x lost Hx HL IH]; intros k d Hk HP.
    + cbn. assert (HI' : inside d offset (byteLength b)) by (destruct HP as [->|[_ HT]]; [done|]; unfold inside in *; rewrite (length_touched _ _ _ _ HI HT); done).
      unfold serve_write. replace (1048576 <? byteLength b) with false by (symmetry; by apply Z.ltb_ge).
      assert (Hd : byteLength d = byteLength disk) by (destruct HP as [->|[_ HT]]; [done|by eapply length_touched]).
      destruct HI' as (H0 & H1 & H2). assert (EV : invalid (byteLength d) offset (byteLength b) = false).
      { unfold invalid, is_safe, LIMIT. change MAX_SAFE_INTEGER with 9007199254740991 in *. rewrite !orb_false_iff, negb_false_iff, andb_true_iff, !Z.leb_le, !Z.ltb_ge, Z.eqb_neq. lia. }
      rewrite EV. by destruct (progress_full _ _ _ _ HP (conj H0 (conj H1 H2))) as [-> _].
    + destruct k as [|k]; cbn in Hk; [lia|]. destruct x as [e|i|i e]; [|done|]; cbn.
      * apply IH; [lia|done].
      * apply IH; [lia|]. eapply progress_step; [exact HP|]. apply serve_write_touches.
Qed.
(** A write whose first try is executed in part, and whose second is lost. *)
Lemma local_disk_witness :
  let e := Exn None "Failed to fetch" in
  write 1 [7; 8] [Unanswered (Some_ 1) e; Lost e; Delivered All] [0; 1; 2; 3] = (Ok tt, [0; 7; 8; 3]) ∧
  read 3 2 [Delivered All] [0; 1; 2; 3] = (Throw UNKNOWN, [0; 1; 2; 3]) ∧
  touched [0; 1; 2; 3] 1 [7; 8] (write 1 [7; 8] [Unanswered (Some_ 1) e; Lost e; Lost e] [0; 1; 2; 3]).2.
Proof.
  intros e. split; [|split; [reflexivity|]].
  - apply (proj2 (proj2 (local_disk [0; 1; 2; 3] 1)) [7; 8] [Unanswered (Some_ 1) e; Lost e] []); [by repeat constructor|cbn; lia|split_and!; vm_compute; done|vm_compute; done|vm_compute; done].
  - exists 1. split; [vm_compute; split; discriminate|reflexivity].
Defined.
