(* ===== verification/AgentRuntime.v ===== *)
(** * The machine of the agent (src/scripts/agent/runtime.js)

    The page of the development agent boots or restores a machine, types, moves the mouse,
    changes the CD and captures the machine's state.  Commands come one after another.

    Every await takes the next [reply]: whether it fails, how many scan codes were sent
    when it does, whether the disk fails meanwhile (which stops the machine), and whether
    the guest has an absolute mouse then.  The keyboard is that of AgentInput.v.
    JavaScript's doubles are a parameter: no statement depends on their rounding. *)
From S2P Require Import Prelude AgentInput.
#[local] Open Scope Z_scope.

Record double := Double {
  num : Type; of_Z : Z → num; isFinite : num → bool; ltb : num → num → bool;
  add : num → num → num; sub : num → num → num; mul : num → num → num; div : num → num → num; abs : num → num; neg : num → num
}.
Arguments isFinite {d}. Arguments ltb {d}. Arguments add {d}. Arguments sub {d}. Arguments mul {d}. Arguments div {d}. Arguments abs {d}. Arguments neg {d}.

Section runtime.
Context (D : double) (toLowerCase : string → string).

(** ** State *)
Record machine := Machine { v_running : bool; v_cdrom : bool; v_keyboard : keyboard; v_buttons : bool * bool * bool; v_absolute : bool }.
(** The disk's buffer. *)
Record buffer := Buffer { b_failed : bool; b_ready : bool; b_disposed : bool }.
Inductive act :=
| Create | Destroy | Run | Stop | Drain | Dispose | SetCD | EjectCD | Save | RestoreState
| Keys (codes : list Z) (sent : bool) | Click (buttons : bool * bool * bool) | Lock (on : bool)
| Absolute (x y : num D) (width height : Z) | Delta (dx dy : num D) | Wheel (up : bool).
(** What was done, with the machine's running flag and [snapshotReady]. *)
Record item := Did { i_act : act; i_running : bool; i_ready : bool }.
Record agent := Agent { g_vm : option machine; g_buffer : option buffer; g_pending : bool; g_log : list item }.
Definition new_agent : agent := Agent None None false [].
Record reply := Reply { y_error : option exn; y_sent : nat; y_disk : bool; y_absolute : bool }.
Definition set_vm (x : option machine) (s : agent) : agent := Agent x (g_buffer s) (g_pending s) (g_log s).
Definition set_buffer (x : option buffer) (s : agent) : agent := Agent (g_vm s) x (g_pending s) (g_log s).
Definition set_pending (x : bool) (s : agent) : agent := Agent (g_vm s) (g_buffer s) x (g_log s).
Definition is_running (s : agent) : bool := match g_vm s with Some m => v_running m | None => false end.
Definition is_ready (s : agent) : bool := match g_buffer s with Some b => b_ready b | None => false end.
Definition has_failed (s : agent) : bool := match g_buffer s with Some b => b_failed b | None => false end.
Definition log (a : act) (s : agent) : agent := Agent (g_vm s) (g_buffer s) (g_pending s) (g_log s ++ [Did a (is_running s) (is_ready s)]).
Definition on_vm (f : machine → machine) (s : agent) : agent := set_vm (f <$> g_vm s) s.
Definition on_buffer (f : buffer → buffer) (s : agent) : agent := set_buffer (f <$> g_buffer s) s.
Definition run_as (x : bool) (m : machine) : machine := Machine x (v_cdrom m) (v_keyboard m) (v_buttons m) (v_absolute m).
Definition with_cd (x : bool) (m : machine) : machine := Machine (v_running m) x (v_keyboard m) (v_buttons m) (v_absolute m).
Definition typed (codes : list Z) (m : machine) : machine := Machine (v_running m) (v_cdrom m) (scans codes (v_keyboard m)) (v_buttons m) (v_absolute m).
Definition press (x : bool * bool * bool) (m : machine) : machine := Machine (v_running m) (v_cdrom m) (v_keyboard m) x (v_absolute m).
Definition see (x : bool) (m : machine) : machine := Machine (v_running m) (v_cdrom m) (v_keyboard m) (v_buttons m) x.
Definition make_ready (x : bool) (b : buffer) : buffer := Buffer (b_failed b) x (b_disposed b).
Definition dispose (s : agent) : agent := log Dispose (on_buffer (λ b, Buffer (b_failed b) (b_ready b) true) s).

(** ** Awaits *)
Definition M (A : Type) : Type := agent → list reply → result A * agent * list reply.
#[export] Instance M_ret : MRet M := λ A a s l, (Ok a, s, l).
#[export] Instance M_bind : MBind M := λ A B f m s l, match m s l with (Ok a, s, l) => f a s l | (Throw e, s, l) => (Throw e, s, l) end.
Definition fails {A} (message : string) : M A := λ s l, (throw_plain message, s, l).
Definition throws {A} (e : exn) : M A := λ s l, (Throw e, s, l).
Definition modify (f : agent → agent) : M unit := λ s l, (Ok tt, f s, l).
Definition gets {A} (f : agent → A) : M A := λ s l, (Ok (f s), s, l).
Definition require (c : bool) (message : string) : M unit := if c then mret tt else fails message.
Definition finally {A} (m : M A) (f : M unit) : M A := λ s l,
  match m s l with (r, s, l) => match f s l with (Ok _, s, l) => (r, s, l) | (Throw e, s, l) => (Throw e, s, l) end end.
Definition catch {A} (m : M A) (f : exn → M A) : M A := λ s l, match m s l with (Throw e, s, l) => f e s l | x => x end.
(** The world goes on: the disk may fail, whose callback stops the machine. *)
Definition meanwhile (y : reply) (s : agent) : agent :=
  let s := on_vm (see (y_absolute y)) s in
  if y_disk y then on_vm (run_as false) (on_buffer (λ b, Buffer true (b_ready b) (b_disposed b)) s) else s.
(** [ok] is the effect of what is awaited, [failed] that of one that fails. *)
Definition await (ok : agent → agent) (failed : nat → agent → agent) : M unit := λ s l,
  match l with
  | [] => (Ok tt, ok s, [])
  | y :: l => match y_error y with
              | None => (Ok tt, meanwhile y (ok s), l)
              | Some e => (Throw e, meanwhile y (failed (y_sent y) s), l)
              end
  end.
Definition same (n : nat) (s : agent) : agent := s.
Definition delay : M unit := await id same.
Definition stop : M unit := await (λ s, on_vm (run_as false) (log Stop s)) (λ _, log Stop).
Definition drain : M unit := await (log Drain) same.
Definition send_codes (codes : list Z) : M unit :=
  await (λ s, log (Keys codes true) (on_vm (typed codes) s)) (λ n s, log (Keys codes false) (on_vm (typed (take n codes)) s)).
Definition run_vm : M unit := modify (λ s, on_vm (run_as true) (log Run s)).
Definition click (b : bool * bool * bool) : M unit := modify (λ s, log (Click b) (on_vm (press b) s)).
Definition NONE : bool * bool * bool := (false, false, false).

(** ** Commands *)
Definition requireVM : M unit := s ← gets id; require (bool_decide (is_Some (g_vm s))) "The agent machine is not initialized".
Definition requireRunning : M unit := requireVM ;; s ← gets id; require (is_running s) "Machine paused; use resume".
Definition releaseCodes : list Z :=
  (λ i, 0x81 + Z.of_nat i) <$> seq 0 88 ++ [].
Definition releaseExtended : list Z :=
  concat ((λ c, [0xe0; Z.lor c 0x80]) <$> [0x1d; 0x38; 0x47; 0x48; 0x49; 0x4b; 0x4d; 0x4f; 0x50; 0x51; 0x52; 0x53; 0x5b; 0x5c]).
Definition releaseInput : M unit :=
  s ← gets id;
  match g_vm s with None => mret tt | Some _ => send_codes (releaseCodes ++ releaseExtended) ;; click NONE end.
(** [createMachine]: a machine that does not run. *)
Definition createMachine : M unit :=
  await (λ s, set_vm (Some (Machine false false ready NONE false)) (log Create s)) same.
Definition validate (valid : bool) : M unit := require valid "Invalid configuration".
Definition boot (valid : bool) : M unit :=
  s ← gets id;
  require (negb (bool_decide (is_Some (g_vm s)))) "Machine already loaded" ;;
  validate valid ;;
  modify (set_buffer (Some (Buffer false false false))) ;;
  catch (createMachine ;; run_vm) (λ e, modify dispose ;; throws e).
(** [compatible]: the checkpoint is of this build; the state is requested, restored and drained. *)
Definition restore (compatible valid : bool) : M unit :=
  s ← gets id;
  require (negb (bool_decide (is_Some (g_vm s)))) "Machine already loaded" ;;
  delay ;;
  require compatible "Checkpoint requires a different emulator/BIOS build" ;;
  validate valid ;;
  modify (set_buffer (Some (Buffer false true false))) ;;
  createMachine ;;
  catch (delay ;; delay ;; await (log RestoreState) same ;; drain ;; modify (on_buffer (make_ready false)))
    (λ e, catch (await (log Destroy) same) (λ _, mret tt) ;; modify (set_vm None) ;; modify dispose ;; throws e).
(** The [finally] of the CD's commands. *)
Definition run_again (running : bool) : M unit :=
  s ← gets id; if running && negb (has_failed s) then run_vm else mret tt.
Definition has_disk (s : agent) : bool := match g_vm s with Some m => v_cdrom m | None => false end.
Definition insertCD : M unit :=
  requireVM ;;
  s ← gets id;
  require (negb (has_disk s)) "CD already inserted; use eject" ;;
  delay ;; delay ;;
  running ← gets is_running;
  releaseInput ;; stop ;;
  finally (drain ;; await (λ s, on_vm (with_cd true) (log SetCD s)) (λ _, log SetCD)) (run_again running).
Definition ejectCD : M unit :=
  requireVM ;;
  running ← gets is_running;
  releaseInput ;; stop ;;
  finally (drain ;; modify (λ s, on_vm (with_cd false) (log EjectCD s))) (run_again running).
Definition DISK_FAILED : exn := Exn None "The disk has failed".
Definition resume : M unit := requireVM ;; s ← gets id; if has_failed s then throws DISK_FAILED else run_vm.
Definition pause : M unit := requireVM ;; releaseInput ;; stop ;; drain.
Definition lift {A} (r : result A) : M A := λ s l, (r, s, l).
Definition type (text : list Z) : M unit :=
  requireRunning ;; codes ← lift (textCodes text); finally (send_codes codes) releaseInput.
Definition key (chord : string) : M unit :=
  requireRunning ;; codes ← lift (chordCodes toLowerCase chord); finally (send_codes codes) releaseInput.

(** ** The mouse *)
Inductive action := Relative | Drag | ClickOnce | Double_ | WheelBy (delta : option Z) | Move | OtherAction.
(** [button]: none, a known one, or another value; numbers may be missing. *)
Record input := Input {
  n_action : action; n_button : option (option (bool * bool * bool));
  n_x : option (num D); n_y : option (num D); n_toX : option (num D); n_toY : option (num D); n_dx : option (num D); n_dy : option (num D)
}.
(** [Number.isFinite(x)] and a coordinate inside [0, size). *)
Definition inside (x : num D) (size : Z) : bool := isFinite x && negb (ltb x (of_Z D 0)) && ltb x (of_Z D size).
Definition move (x y : option (num D)) (width height : Z) : M unit :=
  match x, y with
  | Some x, Some y =>
      require (inside x width && inside y height) "Mouse position outside framebuffer" ;;
      s ← gets id;
      require (match g_vm s with Some m => v_absolute m | None => false end) "Absolute pointer unavailable; use relative movement or keyboard" ;;
      modify (log (Lock false)) ;; modify (log (Absolute x y width height))
  | _, _ => fails "Mouse position outside framebuffer"
  end.
Definition bounded (x : num D) : bool := isFinite x && negb (ltb (of_Z D 4096) (abs x)).
Definition relative (dx dy : option (num D)) : M unit :=
  match dx, dy with
  | Some dx, Some dy =>
      require (bounded dx && bounded dy) "Invalid relative movement" ;;
      modify (log (Lock true)) ;; modify (log (Delta dx (neg dy)))
  | _, _ => fails "Invalid relative movement"
  end.
Fixpoint repeat (n : nat) (m : M unit) : M unit := match n with O => mret tt | S n => m ;; repeat n m end.
Fixpoint each (l : list nat) (m : nat → M unit) : M unit := match l with [] => mret tt | i :: l => m i ;; each l m end.
(** [x+(toX-x)*i/12]. *)
Definition between (x toX : option (num D)) (i : nat) : option (num D) :=
  x ← x; toX ← toX; Some (add x (div (mul (sub toX x) (of_Z D (Z.of_nat i))) (of_Z D 12))).
Definition twelfth (x : num D) : num D := div x (of_Z D 12).
Definition buttons (n : input) : bool * bool * bool := match n_button n with Some (Some b) => b | _ => (true, false, false) end.
Definition gesture (n : input) (width height : Z) : M unit :=
  require (match n_button n with Some None => false | _ => true end) "Invalid mouse button" ;;
  match n_action n, n_x n, n_y n with
  | Relative, _, _ => relative (n_dx n) (n_dy n)
  | Drag, None, None =>
      match n_dx n, n_dy n with
      | Some dx, Some dy =>
          require (bounded dx && bounded dy) "Invalid relative drag" ;;
          modify (log (Lock true)) ;; click (buttons n) ;;
          repeat 12 (relative (Some (twelfth dx)) (Some (twelfth dy)) ;; delay)
      | _, _ => fails "Invalid relative drag"
      end
  | a, x, y =>
      (if bool_decide (is_Some x) || bool_decide (is_Some y) then move x y width height else mret tt) ;;
      match a with
      | ClickOnce => click (buttons n) ;; delay ;; click NONE ;; delay
      | Double_ => repeat 2 (click (buttons n) ;; delay ;; click NONE ;; delay)
      | Drag =>
          move x y width height ;; move (n_toX n) (n_toY n) width height ;; move x y width height ;; click (buttons n) ;;
          each (seq 1 12) (λ i, move (between x (n_toX n) i) (between y (n_toY n) i) width height ;; delay)
      | WheelBy delta =>
          match delta with
          | Some d => require (Z.abs d <=? 100) "Invalid wheel delta" ;; repeat (Z.to_nat (Z.abs d)) (modify (log (Wheel (0 <? d))) ;; delay)
          | None => fails "Invalid wheel delta"
          end
      | Move => mret tt
      | _ => fails "Unknown mouse action"
      end
  end.
Definition mouse (n : input) (width height : Z) : M unit := requireRunning ;; finally (gesture n width height) releaseInput.

(** ** Captures and the end *)
Definition beginCapture : M unit :=
  requireVM ;;
  s ← gets id;
  require (negb (has_disk s)) "Eject the transfer CD before checkpoint/stop" ;;
  releaseInput ;; stop ;; drain ;;
  modify (on_buffer (make_ready true)) ;;
  finally (await (λ s, set_pending true (log Save s)) (λ _, log Save) ;; delay) (modify (on_buffer (make_ready false))).
Definition exportCapture : M unit := finally delay (modify (set_pending false)).
Definition close : M unit :=
  releaseInput ;;
  s ← gets id;
  match g_vm s with Some _ => await (log Destroy) same | None => mret tt end ;;
  modify (set_vm None) ;; modify dispose.

Inductive command :=
| Boot (valid : bool) | Restore (compatible valid : bool) | InsertCD | EjectCD_ | Resume | Pause
| Type_ (text : list Z) | Key (chord : string) | Mouse (n : input) (width height : Z) | BeginCapture | ExportCapture | Release | Close.
Definition perform (c : command) : M unit :=
  match c with
  | Boot v => boot v | Restore c v => restore c v | InsertCD => insertCD | EjectCD_ => ejectCD | Resume => resume | Pause => pause
  | Type_ t => type t | Key k => key k | Mouse n w h => mouse n w h | BeginCapture => beginCapture | ExportCapture => exportCapture
  | Release => releaseInput | Close => close
  end.
(** The commands of the queue, whatever each gives. *)
Fixpoint commands (l : list command) (s : agent) (replies : list reply) : agent :=
  match l with [] => s | c :: l => match perform c s replies with (_, s, replies) => commands l s replies end end.
End runtime.
