(* ===== verification/AgentRuntimeFacts.v ===== *)
(** * The machine of the agent: nothing stays pressed *)
From S2P Require Import Prelude AgentInput AgentInputFacts AgentRuntime.
#[local] Open Scope Z_scope.

(** ** Keys *)
(** The keys that [releaseInput] releases. *)
Definition plain_key (c : Z) : bool := (1 <=? c) && (c <=? 0x58).
Definition EXTENDED : list Z := [0x1d; 0x38; 0x47; 0x48; 0x49; 0x4b; 0x4d; 0x4f; 0x50; 0x51; 0x52; 0x53; 0x5b; 0x5c].
Definition known (key : bool * Z) : bool := if key.1 then bool_decide (key.2 ∈ EXTENDED) else plain_key key.2.
Definition ESCAPE : bool * Z := (false, 1).
(** The first code of [releaseInput] is lost if a prefix waits. *)
Definition sane (k : keyboard) : Prop :=
  Forall (λ key, known key = true) (y_held k) ∧ (y_prefix k = true → ESCAPE ∉ y_held k).
Definition up (k : keyboard) : Prop := y_held k = [] ∧ y_prefix k = false.
Lemma up_sane k : up k → sane k.
Proof. intros [H1 H2]. unfold sane. rewrite H1, H2. by split. Qed.

Lemma known_code key : known key = true → 0 <= key.2 < 0x60.
Proof.
  destruct key as [[] c]; unfold known; cbn [fst snd]; intros H; bools; [|unfold plain_key in H; bools; lia].
  unfold EXTENDED in H. rewrite !elem_of_cons, elem_of_nil in H. lia.
Qed.
Definition plain_keys : list (bool * Z) := (λ i, (false, 1 + Z.of_nat i)) <$> seq 0 88.
Definition extended_keys : list (bool * Z) := (λ c, (true, c)) <$> EXTENDED.
Lemma release_keys : releaseCodes ++ releaseExtended = concat (release <$> (code <$> (plain_keys ++ extended_keys))).
Proof. vm_compute. reflexivity. Qed.
Lemma known_released key : known key = true ↔ key ∈ plain_keys ++ extended_keys.
Proof.
  rewrite elem_of_app. unfold plain_keys, extended_keys. rewrite !list_elem_of_fmap. destruct key as [[] c]; unfold known; cbn [fst snd].
  - rewrite bool_decide_eq_true. split; [intros H; right; by exists c|]. intros [(i & [=] & _)|(d & [= ->] & H)]. done.
  - unfold plain_key. rewrite andb_true_iff, !Z.leb_le. split.
    + intros H. left. exists (Z.to_nat (c - 1)). rewrite elem_of_seq. split; [f_equal; lia|lia].
    + intros [(i & [= ->] & H)|(d & [=] & _)]. apply elem_of_seq in H. lia.
Qed.
Lemma known_keys : Forall (λ key, 0 <= key.2 < 0x60) (plain_keys ++ extended_keys).
Proof. apply Forall_forall. intros key H. by apply known_code, known_released. Qed.
(** [releaseInput] releases everything, even if a prefix waits. *)
Lemma release_up k : sane k → up (scans (releaseCodes ++ releaseExtended) k).
Proof.
  intros [Hk Hp]. destruct (y_prefix k) eqn:Ep.
  - rewrite release_keys. change (plain_keys ++ extended_keys) with (ESCAPE :: (tail plain_keys ++ extended_keys)).
    rewrite !fmap_cons. cbn [concat]. change (release (code ESCAPE)) with [0x81]. rewrite scans_app.
    change (scans [129] k) with (released (y_prefix k) 1 k). rewrite Ep.
    assert (Hf : Forall (λ key, 0 <= key.2 < 0x60) (tail plain_keys ++ extended_keys)).
    { pose proof known_keys as H. change (plain_keys ++ extended_keys) with (ESCAPE :: (tail plain_keys ++ extended_keys)) in H. by apply Forall_cons in H as [_ H]. }
    destruct (releases (tail plain_keys ++ extended_keys) (released true 1 k) Hf eq_refl) as [R1 R2]. split; [|exact R1].
    apply elem_of_nil_inv. intros x Hx. apply R2 in Hx as [Hx Hn]. unfold released in Hx. cbn [y_held] in Hx. apply list_elem_of_filter in Hx as [_ Hx].
    rewrite Forall_forall in Hk. specialize (Hk x Hx). apply known_released in Hk.
    change (plain_keys ++ extended_keys) with (ESCAPE :: (tail plain_keys ++ extended_keys)) in Hk. apply elem_of_cons in Hk as [->|Hk]; [by apply Hp|done].
  - rewrite release_keys. destruct (releases (plain_keys ++ extended_keys) k known_keys Ep) as [R1 R2]. split; [|exact R1].
    apply elem_of_nil_inv. intros x Hx. apply R2 in Hx as [Hx Hn]. rewrite Forall_forall in Hk. by apply Hn, known_released, Hk.
Qed.

(** ** What is sent can be broken off anywhere *)
(** From [k], after each first part of the codes the keyboard is sane. *)
Definition breakable (codes : list Z) (k : keyboard) : Prop := ∀ n, sane (scans (take n codes) k).
Lemma breakable_nil k : sane k → breakable [] k.
Proof. intros H n. by rewrite take_nil. Qed.
Lemma breakable_app a b k : breakable a k → breakable b (scans a k) → breakable (a ++ b) k.
Proof.
  intros Ha Hb n. destruct (Nat.le_gt_cases n (length a)).
  - rewrite take_app_le by lia. apply Ha.
  - rewrite take_app_ge by lia. rewrite scans_app. apply Hb.
Qed.
Definition free (key : bool * Z) (k : keyboard) : Prop := key.1 = true → ESCAPE ∉ y_held k.
Lemma sane_prefix k : sane k → ESCAPE ∉ y_held k → sane (Keyboard true (y_held k) (y_alt k) (y_typed k)).
Proof. intros [H _] He. by split. Qed.
Lemma take_code key n : take n (code key) = [] ∨ (key.1 = true ∧ take n (code key) = [0xe0]) ∨ take n (code key) = code key.
Proof. destruct key as [[] c], n as [|[|n]]; cbn; auto. rewrite take_nil. auto. Qed.
Lemma pressed_sane key k : known key = true → sane k → sane (pressed key.1 key.2 k).
Proof.
  intros Hk [H _]. unfold sane, pressed. cbn [y_held y_prefix]. split; [|done]. rewrite <- surjective_pairing. case_bool_decide; [done|]. apply Forall_app. split; [done|]. by constructor.
Qed.
Lemma released_sane key k : sane k → sane (released key.1 key.2 k).
Proof.
  intros [H _]. unfold sane, released. cbn [y_held y_prefix]. split; [|done]. apply Forall_forall. intros x Hx. apply list_elem_of_filter in Hx as [_ Hx].
  rewrite Forall_forall in H. by apply H.
Qed.
Lemma breakable_code key k : known key = true → sane k → y_prefix k = false → free key k → breakable (code key) k.
Proof.
  intros Hk HS Hp Hf n. destruct (take_code key n) as [->|[[H1 ->]| ->]]; [done| |].
  - by apply sane_prefix; [|apply Hf].
  - rewrite code_pressed; [by apply pressed_sane|by apply known_code|done].
Qed.
Lemma take_release key n : 0 <= key.2 < 0x60 → take n (release (code key)) = [] ∨ (key.1 = true ∧ take n (release (code key)) = [0xe0]) ∨ take n (release (code key)) = release (code key).
Proof. intros _. destruct key as [[] c], n as [|[|n]]; cbn; auto. rewrite take_nil. auto. Qed.
Lemma breakable_release key k : known key = true → sane k → y_prefix k = false → free key k → breakable (release (code key)) k.
Proof.
  intros Hk HS Hp Hf n. destruct (take_release key n (known_code _ Hk)) as [->|[[H1 ->]| ->]]; [done| |].
  - by apply sane_prefix; [|apply Hf].
  - rewrite code_released; [by apply released_sane|by apply known_code|done].
Qed.
(** Codes of plain keys. *)
Definition plain_code (x : Z) : bool := negb (x =? 0xe0) && plain_key (if x <? 0x80 then x else x - 0x80).
Lemma plain_scan x k : plain_code x = true → sane k → y_prefix k = false → sane (scan k x) ∧ y_prefix (scan k x) = false.
Proof.
  unfold plain_code. intros H HS Hp. apply andb_true_iff in H as [H1 H2]. apply negb_true_iff in H1. unfold scan. rewrite H1, Hp.
  destruct (x <? 128); (split; [|done]).
  - by apply (pressed_sane (false, x)).
  - by apply (released_sane (false, x - 128)).
Qed.
Lemma breakable_plain codes k : Forall (λ x, plain_code x = true) codes → sane k → y_prefix k = false → breakable codes k.
Proof.
  intros H. revert k. induction H as [|x codes Hx H IH]; intros k HS Hp; [by apply breakable_nil|].
  destruct (plain_scan x k Hx HS Hp) as [HS' Hp']. intros [|n]; [done|]. exact (IH (scan k x) HS' Hp' n).
Qed.
Lemma strike_plain d : 0 <= d <= 9 → Forall (λ x, plain_code x = true) (strike d).
Proof.
  intros Hd. assert (H : d ∈ [0; 1; 2; 3; 4; 5; 6; 7; 8; 9]) by (rewrite !elem_of_cons; lia).
  clear Hd. repeat (apply elem_of_cons in H as [->|H]; [repeat constructor|]). by apply elem_of_nil in H.
Qed.
Lemma charCodes_plain c l : charCodes c = Ok l → Forall (λ x, plain_code x = true) l.
Proof.
  unfold charCodes. intros H. destruct (_ || _) in H; [simplify_eq; repeat constructor|]. destruct (c =? 9); [simplify_eq; repeat constructor|].
  destruct (cp1252 c) as [v|] eqn:Ev; [|done]. change (Ok (alt_codes v) = Ok l) in H. injection H as <-. unfold alt_codes. apply cp1252_reads in Ev as [Hv _].
  pose proof (Z.mod_pos_bound v 10). pose proof (Z.mod_pos_bound (v / 10) 10).
  rewrite !Forall_app. split_and!; try apply strike_plain; try (by repeat constructor); try lia. all: Z.to_euclidean_division_equations; lia.
Qed.
Lemma text_plain text codes : textCodes text = Ok codes → Forall (λ x, plain_code x = true) codes.
Proof.
  unfold textCodes. destruct (_ <? _); [done|]. revert codes. induction (newlines text) as [|c l IH]; intros codes H; cbn in H; [by injection H as <-|].
  destruct (charCodes c) as [a|] eqn:Ec; [|done]. cbn in H. destruct (text_loop l) as [b|]; [|done]. cbn in H. injection H as <-.
  apply Forall_app. split; [by eapply charCodes_plain|by apply IH].
Qed.
(** Combinations: only the last key may be Escape. *)
Lemma tables_known : Forall (λ l, ∃ key, l = code key ∧ known key = true) (special.*2 ++ letters.*2 ++ numbered.*2).
Proof.
  apply Forall_forall. intros l Hl. pose proof tables_keys as T. rewrite Forall_forall in T. apply T in Hl as HT. apply is_key_code in HT as (key & -> & _). exists key. split; [done|].
  assert (HB : Forall (λ l, match l with [c] => known (false, c) = true | [_; c] => known (true, c) = true | _ => False end) (special.*2 ++ letters.*2 ++ numbered.*2))
    by (vm_compute; repeat constructor).
  rewrite Forall_forall in HB. apply HB in Hl. by destruct key as [[] c].
Qed.
Lemma keyCodes_known lower name l : keyCodes lower name = Ok l → ∃ key, l = code key ∧ known key = true ∧ (lower name ∈ modifiers → key ≠ ESCAPE).
Proof.
  intros H. assert (HK : ∃ key, l = code key ∧ known key = true).
  { pose proof tables_known as T. rewrite !Forall_app, !Forall_forall in T. destruct T as (T1 & T2 & T3). unfold keyCodes in H.
    destruct (assoc _ special) eqn:E1; [simplify_eq; eauto using assoc_elem|].
    case_bool_decide; [simplify_eq; by exists (false, 0x45)|]. case_bool_decide; [simplify_eq; by exists (false, 0x3a)|].
    destruct (assoc _ letters) eqn:E2; [injection H as <-; apply T2; by eapply assoc_elem|]. destruct (assoc _ numbered) eqn:E3; [injection H as <-; apply T3; by eapply assoc_elem|done]. }
  destruct HK as (key & -> & Hk). exists key. split_and!; [done|done|]. intros Hm ->. unfold keyCodes in H.
  unfold modifiers in Hm. rewrite !elem_of_cons, elem_of_nil in Hm. destruct Hm as [E|[E|[E|[E|[E|[E|[]]]]]]]; rewrite E in H; vm_compute in H; discriminate H.
Qed.
Lemma all_codes_known lower names l :
  all_codes lower names = Ok l → Forall (λ n, lower n ∈ modifiers) (removelast names) →
  ∃ keys, l = code <$> keys ∧ Forall (λ key, known key = true) keys ∧ ESCAPE ∉ removelast keys ∧ length keys = length names.
Proof.
  revert l. induction names as [|n names IH]; intros l H Hm; cbn in H; [simplify_eq; exists []; split_and!; [done|done|apply not_elem_of_nil|done]|].
  destruct (keyCodes lower n) as [c|] eqn:Ek; [|done]. cbn in H. destruct (all_codes lower names) as [r|]; [|done]. cbn in H. simplify_eq.
  destruct (keyCodes_known _ _ _ Ek) as (key & -> & Hk & He). destruct names as [|n' names].
  - destruct (IH r eq_refl) as (keys & -> & _ & _ & Hl); [done|]. destruct keys; [|done]. exists [key]. split_and!; [done|by constructor|apply not_elem_of_nil|done].
  - change (removelast (n :: n' :: names)) with (n :: removelast (n' :: names)) in Hm. apply Forall_cons in Hm as [Hn Hm].
    destruct (IH r eq_refl Hm) as (keys & -> & Hf & Hne & Hl). destruct keys as [|key' keys]; [done|]. exists (key :: key' :: keys).
    split_and!; [done|by constructor| |cbn in *; lia]. change (removelast (key :: key' :: keys)) with (key :: removelast (key' :: keys)).
    apply not_elem_of_cons. split; [intros E; by apply (He Hn)|done].
Qed.
Lemma breakable_presses keys k :
  Forall (λ key, known key = true) keys → ESCAPE ∉ removelast keys → sane k → y_prefix k = false → ESCAPE ∉ y_held k →
  breakable (concat (code <$> keys)) k ∧ sane (scans (concat (code <$> keys)) k).
Proof.
  intros H. revert k. induction H as [|key keys Hk H IH]; intros k He HS Hp Hn; [by split; [apply breakable_nil|]|].
  rewrite fmap_cons. cbn [concat]. assert (HB : breakable (code key) k) by (apply breakable_code; try done; by intros ?).
  rewrite scans_app, (code_pressed key k (known_code _ Hk) Hp). pose proof (pressed_sane key k Hk HS) as HS'.
  destruct keys as [|key' keys].
  - cbn [fmap list_fmap concat app]. rewrite app_nil_r. by split.
  - change (removelast (key :: key' :: keys)) with (key :: removelast (key' :: keys)) in He. apply not_elem_of_cons in He as [Hne He].
    destruct (IH (pressed key.1 key.2 k) He HS' eq_refl) as [IH1 IH2].
    { unfold pressed. cbn [y_held]. rewrite <- surjective_pairing. case_bool_decide; [done|]. rewrite elem_of_app, list_elem_of_singleton. naive_solver. }
    split; [|exact IH2]. apply breakable_app; [done|]. by rewrite (code_pressed key k (known_code _ Hk) Hp).
Qed.
Lemma breakable_releases keys k :
  Forall (λ key, known key = true) keys → sane k → y_prefix k = false → (ESCAPE ∈ y_held k → head keys = Some ESCAPE) →
  breakable (concat (release <$> (code <$> keys))) k.
Proof.
  intros H. revert k. induction H as [|key keys Hk H IH]; intros k HS Hp He; [by apply breakable_nil|].
  rewrite !fmap_cons. cbn [concat]. apply breakable_app.
  - apply breakable_release; try done. intros Hx Hin. apply He in Hin. cbn in Hin. injection Hin as ->. done.
  - rewrite (code_released key k (known_code _ Hk) Hp). apply IH; [by apply released_sane|done|]. unfold released. cbn [y_held].
    rewrite list_elem_of_filter. intros [Hne Hin]. apply He in Hin. cbn in Hin. injection Hin as ->. by destruct Hne.
Qed.
Lemma chord_breakable lower chord codes k : chordCodes lower chord = Ok codes → up k → breakable codes k.
Proof.
  unfold chordCodes. intros H [Hh Hp]. destruct (_ <? _) in H; [done|]. destruct (_ || _) eqn:E in H; [done|]. apply orb_false_iff in E as [_ Em].
  apply negb_false_iff in Em. pose proof (proj1 (forallb_forall _ _) Em) as Hm. clear Em. destruct (all_codes lower (split chord)) as [l|] eqn:Ea; [|done]. cbn in H. injection H as <-.
  destruct (all_codes_known _ _ _ Ea) as (keys & -> & Hf & Hne & _).
  { apply Forall_forall. intros n Hn. apply list_elem_of_In, Hm in Hn. by apply bool_decide_eq_true in Hn. }
  destruct (breakable_presses keys k) as [B1 S1]; [done|done|by apply up_sane|done|rewrite Hh; apply not_elem_of_nil|].
  apply breakable_app; [done|]. rewrite <- map_rev. destruct (presses keys k) as [P1 P2]; [apply Forall_forall; intros key Hk; rewrite Forall_forall in Hf; by apply known_code, Hf|done|].
  apply breakable_releases; [by apply Forall_rev|done|done|]. intros HE. apply P2 in HE as [HE|HE]; [rewrite Hh in HE; by apply elem_of_nil in HE|].
  destruct (exists_last (l := keys)) as (ks & x & ->); [by intros ->; apply elem_of_nil in HE|]. rewrite removelast_last in Hne. rewrite rev_app_distr. cbn.
  apply elem_of_app in HE as [HE|HE]; [done|]. by apply list_elem_of_singleton in HE as ->.
Qed.

(** ** Between the calls *)
Section facts.
Context (D : double) (lower : string → string).
Notation agent := (agent D).

Definition wp {A} (m : M D A) (Q : A → agent → Prop) (E : agent → Prop) (s : agent) : Prop :=
  ∀ l, match m s l with (Ok a, s', _) => Q a s' | (Throw _, s', _) => E s' end.
Lemma machine_wp_ret {A} (a : A) (Q : A → agent → Prop) E s : Q a s → wp (mret a) Q E s.
Proof using Type. by intros H l. Qed.
Lemma machine_wp_bind {A B} (m : M D A) (f : A → M D B) Q E s : wp m (λ a, wp (f a) Q E) E s → wp (m ≫= f) Q E s.
Proof using Type. intros H l. specialize (H l). unfold mbind, M_bind. destruct (m s l) as [[[a|e] s'] l']; [apply H|done]. Qed.
Lemma machine_wp_require c msg (Q : unit → agent → Prop) (E : agent → Prop) s : (c = true → Q tt s) → E s → wp (require D c msg) Q E s.
Proof using Type. intros HQ HE l. unfold require. destruct c; [by apply HQ|done]. Qed.
Lemma machine_wp_fails {A} msg (Q : A → agent → Prop) (E : agent → Prop) s : E s → wp (fails D msg) Q E s.
Proof using Type. by intros H l. Qed.
Lemma wp_throws {A} e (Q : A → agent → Prop) (E : agent → Prop) s : E s → wp (throws D e) Q E s.
Proof using Type. by intros H l. Qed.
Lemma machine_wp_modify f (Q : unit → agent → Prop) E s : Q tt (f s) → wp (modify D f) Q E s.
Proof using Type. by intros H l. Qed.
Lemma machine_wp_gets {A} (f : agent → A) (Q : A → agent → Prop) E s : Q (f s) s → wp (gets D f) Q E s.
Proof using Type. by intros H l. Qed.
Lemma machine_wp_lift {A} (r : result A) (Q : A → agent → Prop) (E : agent → Prop) s : (∀ a, r = Ok a → Q a s) → E s → wp (lift D r) Q E s.
Proof using Type. intros HQ HE l. unfold lift. destruct r; [by apply HQ|done]. Qed.
Lemma wp_await ok failed (Q : unit → agent → Prop) (E : agent → Prop) s :
  Q tt (ok s) → (∀ y, Q tt (meanwhile D y (ok s))) → (∀ y n, E (meanwhile D y (failed n s))) → wp (await D ok failed) Q E s.
Proof using Type. intros H0 HQ HE l. unfold await. destruct l as [|y l]; [done|]. destruct (y_error y); [apply HE|apply HQ]. Qed.
Lemma machine_wp_conseq {A} (m : M D A) (Q Q' : A → agent → Prop) (E E' : agent → Prop) s :
  wp m Q E s → (∀ a s, Q a s → Q' a s) → (∀ s, E s → E' s) → wp m Q' E' s.
Proof using Type. intros H HQ HE l. specialize (H l). destruct (m s l) as [[[a|e] s'] l']; auto. Qed.
Lemma machine_wp_finally {A} (m : M D A) f (Q : A → agent → Prop) (E E' : agent → Prop) s :
  wp m (λ a, wp f (λ _, Q a) E) E' s → (∀ s, E' s → wp f (λ _, E) E s) → wp (finally D m f) Q E s.
Proof using Type.
  intros H HE l. specialize (H l). unfold finally. destruct (m s l) as [[[a|e] s'] l'].
  - specialize (H l'). destruct (f s' l') as [[[[]|e] s''] l'']; done.
  - specialize (HE s' H l'). destruct (f s' l') as [[[[]|e'] s''] l'']; done.
Qed.
Lemma machine_wp_catch {A} (m : M D A) f (Q : A → agent → Prop) (E E' : agent → Prop) s :
  wp m Q E' s → (∀ e s, E' s → wp (f e) Q E s) → wp (catch D m f) Q E s.
Proof using Type. intros H HE l. specialize (H l). unfold catch. destruct (m s l) as [[[a|e] s'] l']; [done|]. by apply HE. Qed.

(** What may be in the log. *)
Definition fine (i : item D) : Prop :=
  match i_act D i with
  | SetCD _ | EjectCD _ => i_running D i = false
  | Save _ => i_running D i = false ∧ i_ready D i = true
  | Absolute _ x y w h => inside D x w = true ∧ inside D y h = true
  | Delta _ dx dy => bounded D dx = true ∧ ∃ dy', dy = neg dy' ∧ bounded D dy' = true
  | _ => True
  end.
(** No release of the keys was broken off. *)
Definition releases_sent (s : agent) : Prop := ∀ i, i ∈ g_log D s → i_act D i ≠ Keys D (releaseCodes ++ releaseExtended) false.
(** [v]: there is a machine; [r]: the buffer is ready for a snapshot; [h]: the machine does
    not run; [P] holds of keyboard and buttons. *)
Record holds (v r h : bool) (P : keyboard → bool * bool * bool → Prop) (s : agent) : Prop := {
  h_log : Forall fine (g_log D s);
  h_vm : v = true → is_Some (g_vm D s);
  h_buffer : ∀ m, g_vm D s = Some m → ∃ b, g_buffer D s = Some b ∧ b_ready b = r ∧ b_disposed b = false;
  h_halted : h = true → is_running D s = false;
  h_keys : releases_sent s → ∀ m, g_vm D s = Some m → P (v_keyboard m) (v_buttons m)
}.
Definition clean (k : keyboard) (b : bool * bool * bool) : Prop := up k ∧ b = NONE.
Definition dirty (k : keyboard) (b : bool * bool * bool) : Prop := sane k.
Lemma holds_weaken v r h (P Q : keyboard → bool * bool * bool → Prop) v' h' s :
  (∀ k b, P k b → Q k b) → (v' = true → v = true) → (h' = true → h = true) → holds v r h P s → holds v' r h' Q s.
Proof using Type. intros HP Hv Hh [H1 H2 H3 H4 H5]. split; eauto. Qed.
Lemma clean_dirty v r h s : holds v r h clean s → holds v r h dirty s.
Proof using Type. apply holds_weaken; [|done|done]. intros k b [H _]. by apply up_sane. Qed.
Lemma holds_vm v r h h' P Q s f :
  (∀ m, v_running (f m) = true → h' = true → v_running m = true ∧ h = true) → (∀ m, P (v_keyboard m) (v_buttons m) → Q (v_keyboard (f m)) (v_buttons (f m))) →
  holds v r h P s → holds v r h' Q (on_vm D f s).
Proof using Type.
  intros Hr HP [H1 H2 H3 H4 H5]. unfold on_vm. split; cbn; [done| | | |].
  - intros Hv. destruct (H2 Hv) as [m ->]. by eexists.
  - intros m Hm. destruct (g_vm D s) as [m0|] eqn:E; [|done]. by apply (H3 m0).
  - intros Hh. unfold is_running in *. cbn. destruct (g_vm D s) as [m0|] eqn:E; [|done]. cbn. destruct (v_running (f m0)) eqn:Er; [|done].
    destruct (Hr _ Er Hh) as [E1 E2]. by rewrite (H4 E2) in E1.
  - intros Hs m Hm. destruct (g_vm D s) as [m0|] eqn:E; [|done]. cbn in Hm. injection Hm as <-. apply HP. by apply H5.
Qed.
Lemma holds_run v r h P s x : (x = true → h = false) → holds v r h P s → holds v r h P (on_vm D (run_as x) s).
Proof using Type. intros Hx. apply holds_vm; [|done]. intros m E1 E2. cbn in E1. by rewrite (Hx E1) in E2. Qed.
Lemma holds_stop v r h P s : holds v r h P s → holds v r true P (on_vm D (run_as false) s).
Proof using Type. by apply holds_vm. Qed.
Lemma holds_see v r h P s x : holds v r h P s → holds v r h P (on_vm D (see x) s).
Proof using Type. by apply holds_vm. Qed.
Lemma holds_cd v r h P s x : holds v r h P s → holds v r h P (on_vm D (with_cd x) s).
Proof using Type. by apply holds_vm. Qed.
Lemma holds_typed v r h (P Q : keyboard → bool * bool * bool → Prop) s codes : (∀ k b, P k b → Q (scans codes k) b) → holds v r h P s → holds v r h Q (on_vm D (typed codes) s).
Proof using Type. intros HP. apply holds_vm; [done|]. intros m. apply HP. Qed.
Lemma holds_press v r h (P Q : keyboard → bool * bool * bool → Prop) s x : (∀ k b, P k b → Q k x) → holds v r h P s → holds v r h Q (on_vm D (press x) s).
Proof using Type. intros HP. apply holds_vm; [done|]. intros m. apply HP. Qed.
Lemma holds_buffer v r r' h P s f : (∀ b, b_ready b = r → b_ready (f b) = r') → (∀ b, b_disposed (f b) = b_disposed b) → holds v r h P s → holds v r' h P (on_buffer D f s).
Proof using Type.
  intros Hr Hd [H1 H2 H3 H4 H5]. split; cbn; try done. intros m Hm. destruct (H3 m Hm) as (b & -> & E1 & E2). exists (f b). cbn. split_and!; [done|by apply Hr|by rewrite Hd].
Qed.
Lemma holds_log v r h P s a : fine (Did D a (is_running D s) (is_ready D s)) → holds v r h P s → holds v r h P (log D a s).
Proof using Type.
  intros Hf [H1 H2 H3 H4 H5]. split; cbn; try done; [apply Forall_app; by repeat constructor|].
  intros Hs m Hm. apply H5; [|done]. intros i Hi. apply Hs. cbn. rewrite elem_of_app. by left.
Qed.
Lemma holds_release_failed v r h P Q s : holds v r h P s → holds v r h Q (log D (Keys D (releaseCodes ++ releaseExtended) false) s).
Proof using Type.
  intros [H1 H2 H3 H4 H5]. split; cbn; try done; [apply Forall_app; by repeat constructor|].
  intros Hs. exfalso. apply (Hs (Did D (Keys D (releaseCodes ++ releaseExtended) false) (is_running D s) (is_ready D s))); [|done]. cbn. rewrite elem_of_app. right. by left.
Qed.
Lemma holds_meanwhile v r h P s y : holds v r h P s → holds v r h P (meanwhile D y s).
Proof using Type.
  intros H. unfold meanwhile. apply (holds_see v r h P s (y_absolute y)) in H. destruct (y_disk y); [|done].
  apply holds_run; [done|]. eapply holds_buffer; [| |exact H]; done.
Qed.
Lemma wp_awaiting v r h P (ok : agent → agent) failed (Q : unit → agent → Prop) (E : agent → Prop) s v' r' h' P' :
  holds v r h P (ok s) → (∀ n, holds v' r' h' P' (failed n s)) →
  (∀ s, holds v r h P s → Q tt s) → (∀ s, holds v' r' h' P' s → E s) → wp (await D ok failed) Q E s.
Proof using Type. intros H1 H2 HQ HE. apply wp_await; [auto|intros y; apply HQ; by apply holds_meanwhile|intros y n; apply HE; by apply holds_meanwhile]. Qed.

(** ** Each call *)
Notation keeps m v r h P := (∀ s, holds v r h P s → wp m (λ _, holds v r h P) (holds v r h P) s).
Lemma keeps_delay v r h P : keeps (delay D) v r h P.
Proof using Type. intros s H. by apply (wp_awaiting v r h P _ _ _ _ s v r h P). Qed.
Lemma machine_keeps_drain v r h P : keeps (drain D) v r h P.
Proof using Type. intros s H. apply (wp_awaiting v r h P _ _ _ _ s v r h P); try done. by apply holds_log. Qed.
Lemma wp_stop v r h P s : holds v r h P s → wp (stop D) (λ _, holds v r true P) (holds v r h P) s.
Proof using Type.
  intros H. apply (wp_awaiting v r true P _ _ _ _ s v r h P); try done; [|intros n; by apply holds_log]. eapply holds_stop, holds_log; [done|exact H].
Qed.
Lemma wp_releaseInput v r h P s : (∀ k b, P k b → sane k) → holds v r h P s → wp (releaseInput D) (λ _, holds v r h clean) (holds v r h clean) s.
Proof using Type.
  intros HP H. unfold releaseInput. apply machine_wp_bind, machine_wp_gets. cbn [id]. destruct (g_vm D s) as [m|] eqn:Ev.
  - apply machine_wp_bind. apply (wp_awaiting v r h (λ k _, up k) _ _ _ _ s v r h clean); [| | |done].
    + apply holds_log; [done|]. eapply holds_typed; [|exact H]. intros k b Hk. apply release_up. by eapply HP.
    + intros n. apply (holds_release_failed v r h (λ _ _, True)). by eapply holds_typed.
    + intros s' H'. apply machine_wp_modify. apply holds_log; [done|]. eapply holds_press; [|exact H']. by split.
  - apply machine_wp_ret. destruct H as [H1 H2 H3 H4 H5]. split; try done. intros _ m Hm. congruence.
Qed.
Lemma keeps_releaseInput v r h : keeps (releaseInput D) v r h clean.
Proof using Type. intros s H. eapply wp_releaseInput; [|exact H]. intros k b [Hk _]. by apply up_sane. Qed.
Lemma wp_requireVM v r h P (Q : unit → agent → Prop) (E : agent → Prop) s :
  holds v r h P s → (holds true r h P s → Q tt s) → E s → wp (requireVM D) Q E s.
Proof using Type.
  intros H HQ HE. unfold requireVM. apply machine_wp_bind, machine_wp_gets, machine_wp_require; [|done]. intros Hv%bool_decide_eq_true. apply HQ. destruct H. by split.
Qed.
Lemma wp_requireRunning v r h P (Q : unit → agent → Prop) (E : agent → Prop) s :
  holds v r h P s → (holds true r h P s → Q tt s) → E s → wp (requireRunning D) Q E s.
Proof using Type.
  intros H HQ HE. unfold requireRunning. apply machine_wp_bind. eapply wp_requireVM; [exact H| |done]. intros H'. apply machine_wp_bind, machine_wp_gets, machine_wp_require; [auto|done].
Qed.
(** Codes that may be broken off anywhere. *)
Lemma wp_send v r h s codes :
  (∀ k, up k → breakable codes k) → holds v r h clean s → wp (send_codes D codes) (λ _, holds v r h dirty) (holds v r h dirty) s.
Proof using Type.
  intros HB H. apply (wp_awaiting v r h dirty _ _ _ _ s v r h dirty); [| |done|done].
  - apply holds_log; [done|]. eapply holds_typed; [|exact H]. intros k b [Hk _]. specialize (HB k Hk (length codes)). by rewrite take_ge in HB.
  - intros n. apply holds_log; [done|]. eapply holds_typed; [|exact H]. intros k b [Hk _]. apply HB, Hk.
Qed.
Lemma dirty_sane k b : dirty k b → sane k.
Proof using Type. done. Qed.

(** *** Gestures *)
Definition mouse_keeps (m : M D unit) : Prop := keeps m true false false dirty.
Lemma mouse_bind {A} (m : M D A) (f : A → M D unit) : (∀ s, holds true false false dirty s → wp m (λ _, holds true false false dirty) (holds true false false dirty) s) → (∀ a, mouse_keeps (f a)) → mouse_keeps (m ≫= f).
Proof using Type. intros Hm Hf s H. apply machine_wp_bind. eapply machine_wp_conseq; [by apply Hm| |done]. intros a s' H'. by apply Hf. Qed.
Lemma mouse_ret : mouse_keeps (mret tt).
Proof using Type. intros s H. by apply machine_wp_ret. Qed.
Lemma mouse_fails msg : mouse_keeps (fails D msg).
Proof using Type. intros s H. by apply machine_wp_fails. Qed.
Lemma mouse_require c msg (f : M D unit) : (c = true → mouse_keeps f) → mouse_keeps (require D c msg ;; f).
Proof using Type. intros Hf s H. apply machine_wp_bind, machine_wp_require; [|done]. intros Hc. by apply Hf. Qed.
Lemma mouse_log a : (∀ s, fine (Did D a (is_running D s) (is_ready D s))) → mouse_keeps (modify D (log D a)).
Proof using Type. intros Hf s H. apply machine_wp_modify. by apply holds_log. Qed.
Lemma mouse_click b : mouse_keeps (click D b).
Proof using Type. intros s H. apply machine_wp_modify. apply holds_log; [done|]. eapply holds_press; [|exact H]. by intros. Qed.
Lemma mouse_delay : mouse_keeps (delay D).
Proof using Type. exact (keeps_delay true false false dirty). Qed.
Lemma mouse_move x y w h : mouse_keeps (move D x y w h).
Proof using Type.
  unfold move. destruct x as [x|], y as [y|]; try apply mouse_fails. apply mouse_require. intros [Hx Hy]%andb_true_iff.
  apply mouse_bind; [intros s H; by apply machine_wp_gets|]. intros a. apply mouse_require. intros _.
  apply mouse_bind; [by apply mouse_log|]. intros _. by apply mouse_log.
Qed.
Lemma mouse_relative dx dy : mouse_keeps (relative D dx dy).
Proof using Type.
  unfold relative. destruct dx as [dx|], dy as [dy|]; try apply mouse_fails. apply mouse_require. intros [Hx Hy]%andb_true_iff.
  apply mouse_bind; [by apply mouse_log|]. intros _. apply mouse_log. intros s. cbn. split; [done|]. by exists dy.
Qed.
Lemma mouse_repeat n m : mouse_keeps m → mouse_keeps (repeat D n m).
Proof using Type. intros Hm. induction n as [|n IH]; [apply mouse_ret|]. by apply mouse_bind. Qed.
Lemma mouse_each l m : (∀ i, mouse_keeps (m i)) → mouse_keeps (each D l m).
Proof using Type. intros Hm. induction l as [|i l IH]; [apply mouse_ret|]. apply mouse_bind; [apply Hm|done]. Qed.
Lemma mouse_gesture n w h : mouse_keeps (gesture D n w h).
Proof using Type.
  unfold gesture. apply mouse_require. intros _.
  assert (HC : mouse_keeps (click D (buttons D n) ;; delay D ;; click D NONE ;; delay D)) by (repeat first [apply mouse_click | apply mouse_delay | apply mouse_bind; [|intros _]]).
  assert (HO : ∀ a x y, mouse_keeps (
      (if bool_decide (is_Some x) || bool_decide (is_Some y) then move D x y w h else mret tt) ;;
      match a with
      | ClickOnce => click D (buttons D n) ;; delay D ;; click D NONE ;; delay D
      | Double_ => repeat D 2 (click D (buttons D n) ;; delay D ;; click D NONE ;; delay D)
      | Drag =>
          move D x y w h ;; move D (n_toX D n) (n_toY D n) w h ;; move D x y w h ;; click D (buttons D n) ;;
          each D (seq 1 12) (λ i, move D (between D x (n_toX D n) i) (between D y (n_toY D n) i) w h ;; delay D)
      | WheelBy delta =>
          match delta with
          | Some d => require D (Z.abs d <=? 100) "Invalid wheel delta" ;; repeat D (Z.to_nat (Z.abs d)) (modify D (log D (Wheel D (0 <? d))) ;; delay D)
          | None => fails D "Invalid wheel delta"
          end
      | Move => mret tt
      | _ => fails D "Unknown mouse action"
      end)).
  { intros a x y. apply mouse_bind; [destruct (_ || _); [apply mouse_move|apply mouse_ret]|]. intros _. destruct a as [| | | |[d|]| |]; try apply mouse_fails; try apply mouse_ret; try done.
    - repeat (apply mouse_bind; [first [apply mouse_move | apply mouse_click]|intros _]). apply mouse_each. intros i. apply mouse_bind; [apply mouse_move|intros _; apply mouse_delay].
    - by apply mouse_repeat.
    - apply mouse_require. intros _. apply mouse_repeat. apply mouse_bind; [by apply mouse_log|intros _; apply mouse_delay]. }
  destruct (n_action D n) as [| | | |delta| |] eqn:Ea;
    [apply mouse_relative| |exact (HO ClickOnce _ _)|exact (HO Double_ _ _)|exact (HO (WheelBy delta) _ _)|exact (HO Move _ _)|exact (HO OtherAction _ _)].
  destruct (n_x D n) as [x|]; [exact (HO Drag (Some x) (n_y D n))|]. destruct (n_y D n) as [y|]; [exact (HO Drag None (Some y))|].
  destruct (n_dx D n) as [dx|], (n_dy D n) as [dy|]; try apply mouse_fails. apply mouse_require. intros _.
  apply mouse_bind; [by apply mouse_log|intros _]. apply mouse_bind; [apply mouse_click|intros _]. apply mouse_repeat. apply mouse_bind; [apply mouse_relative|intros _; apply mouse_delay].
Qed.

(** ** Commands *)
Notation idle := (holds false false false clean).
Lemma idle_of v h s : holds v false h clean s → idle s.
Proof using Type. by apply holds_weaken. Qed.
Lemma machine_wp_mono {A} (m : M D A) v h (Q : A → agent → Prop) s :
  wp m (λ _, holds v false h clean) (holds v false h clean) s → (∀ a s, idle s → Q a s) → wp m Q idle s.
Proof using Type. intros H HQ. eapply machine_wp_conseq; [exact H|intros a s' H'; by apply HQ, (idle_of v h)|intros s' H'; by apply (idle_of v h)]. Qed.
Lemma wp_run v r h P E s : holds v r h P s → wp (run_vm D) (λ _, holds v r false P) E s.
Proof using Type. intros H. apply machine_wp_modify, holds_run; [done|]. apply holds_log; [done|]. by eapply holds_weaken; [| | |exact H]. Qed.
(** No machine. *)
Lemma idle_none s : Forall fine (g_log D s) → g_vm D s = None → idle s.
Proof using Type. intros H1 H2. split; try done; intros; congruence. Qed.
Lemma machine_wp_create r (Q : unit → agent → Prop) (E : agent → Prop) s b :
  Forall fine (g_log D s) → g_vm D s = None → g_buffer D s = Some b → b_ready b = r → b_disposed b = false →
  (∀ s, holds true r true clean s → Q tt s) → (∀ s, Forall fine (g_log D s) → g_vm D s = None → E s) → wp (createMachine D) Q E s.
Proof using Type.
  intros H1 H2 H3 H4 H5 HQ HE. assert (HC : holds true r true clean (set_vm D (Some (Machine false false ready NONE false)) (log D (Create D) s))).
  { split; cbn; [apply Forall_app; by repeat constructor|by eexists|by intros m [= <-]; exists b|done|]. intros _ m [= <-]. done. }
  apply wp_await; [by apply HQ|intros y; by apply HQ, holds_meanwhile|]. intros y n. unfold same, meanwhile.
  destruct (y_disk y); apply HE; cbn; rewrite ?H2; done.
Qed.
Lemma wp_boot valid s : idle s → wp (boot D valid) (λ _, idle) idle s.
Proof using Type.
  intros H. unfold boot. apply machine_wp_bind, machine_wp_gets, machine_wp_bind, machine_wp_require; [|done]. cbn [id]. intros Hv. destruct (g_vm D s) as [m|] eqn:Ev; [done|].
  apply machine_wp_bind. unfold validate. apply machine_wp_require; [intros _|done]. apply machine_wp_bind, machine_wp_modify.
  eapply (machine_wp_catch _ _ _ _ (λ s, Forall fine (g_log D s) ∧ g_vm D s = None)).
  - apply machine_wp_bind. eapply (machine_wp_create false); [apply H|done|done|done|done| |done].
    intros s' H'. eapply machine_wp_conseq; [eapply wp_run; exact H'|intros ? s''; by apply idle_of|intros s'' H''; exact H''].
  - intros e s' [H1 H2]. apply machine_wp_bind, machine_wp_modify, wp_throws. apply idle_none; cbn; [apply Forall_app; by repeat constructor|done].
Qed.
Lemma wp_abandon e s :
  holds true true true clean s →
  wp (catch D (await D (log D (Destroy D)) (same D)) (λ _, mret tt) ;; modify D (set_vm D None) ;; modify D (dispose D) ;; throws D e) (λ _ : unit, idle) idle s.
Proof using Type.
  intros H. assert (HD : ∀ v, holds true true true clean v → wp (modify D (set_vm D None) ;; modify D (dispose D) ;; throws D e) (λ _ : unit, idle) idle v).
  { intros v Hv. apply machine_wp_bind, machine_wp_modify, machine_wp_bind, machine_wp_modify, wp_throws. apply idle_none; cbn; [apply Forall_app; split; [apply Hv|by repeat constructor]|done]. }
  apply machine_wp_bind. eapply (machine_wp_catch _ _ _ _ (holds true true true clean)).
  - eapply (wp_awaiting true true true clean); [by apply holds_log|intros n; exact H|exact HD|done].
  - intros e' v Hv. apply machine_wp_ret. by apply HD.
Qed.
Lemma wp_restored s :
  holds true true true clean s →
  wp (delay D ;; delay D ;; await D (log D (RestoreState D)) (same D) ;; drain D ;; modify D (on_buffer D (make_ready false))) (λ _, idle) (holds true true true clean) s.
Proof using Type.
  intros H. apply machine_wp_bind. eapply machine_wp_conseq; [by apply keeps_delay| |done]. intros ? s1 H1. cbv beta in H1.
  apply machine_wp_bind. eapply machine_wp_conseq; [by apply keeps_delay| |done]. intros ? s2 H2. cbv beta in H2.
  apply machine_wp_bind. eapply (wp_awaiting true true true clean); [by apply holds_log|intros n; exact H2| |done]. intros s3 H3.
  apply machine_wp_bind. eapply machine_wp_conseq; [by apply machine_keeps_drain| |done]. intros ? s4 H4. cbv beta in H4. apply machine_wp_modify, (idle_of true true). by eapply holds_buffer; [| |exact H4].
Qed.
Lemma wp_restore compatible valid s : idle s → wp (restore D compatible valid) (λ _, idle) idle s.
Proof using Type.
  intros H. unfold restore. apply machine_wp_bind, machine_wp_gets, machine_wp_bind, machine_wp_require; [|done]. cbn [id]. intros Hv. destruct (g_vm D s) as [m|] eqn:Ev; [done|].
  set (N := λ s : agent, Forall fine (g_log D s) ∧ g_vm D s = None).
  assert (HN : ∀ s, N s → idle s) by (intros v [? ?]; by apply idle_none).
  assert (N0 : N s) by (split; [apply H|done]).
  assert (ND : ∀ y, N (meanwhile D y s)) by (intros y; destruct N0 as [H1 H2]; unfold N, meanwhile; destruct (y_disk y); cbn; by rewrite H2).
  assert (HR : ∀ v, N v → wp (require D compatible "Checkpoint requires a different emulator/BIOS build" ;; validate D valid ;; modify D (set_buffer D (Some (Buffer false true false))) ;;
    createMachine D ;;
    catch D (delay D ;; delay D ;; await D (log D (RestoreState D)) (same D) ;; drain D ;; modify D (on_buffer D (make_ready false)))
      (λ e, catch D (await D (log D (Destroy D)) (same D)) (λ _, mret tt) ;; modify D (set_vm D None) ;; modify D (dispose D) ;; throws D e)) (λ _, idle) idle v).
  { intros v Hv'. apply machine_wp_bind, machine_wp_require; [intros _|by apply HN]. apply machine_wp_bind. unfold validate. apply machine_wp_require; [intros _|by apply HN].
    apply machine_wp_bind, machine_wp_modify, machine_wp_bind. eapply (machine_wp_create true); [apply Hv'|apply Hv'|done|done|done| |intros w ? ?; by apply idle_none].
    intros s' H'. eapply (machine_wp_catch _ _ _ _ (holds true true true clean)); [by apply wp_restored|]. intros e w Hw. by apply wp_abandon. }
  apply machine_wp_bind. apply wp_await; [by apply HR|intros y; by apply HR|intros y n; by apply HN, ND].
Qed.
Lemma wp_run_again v r h P running s : holds v r h P s → wp (run_again D running) (λ _, holds v r false P) (holds v r false P) s.
Proof using Type.
  intros H. unfold run_again. apply machine_wp_bind, machine_wp_gets. cbn [id]. destruct (_ && _); [by eapply wp_run|apply machine_wp_ret; by eapply holds_weaken; [| | |exact H]].
Qed.
(** [releaseInput] and [stop], then [finally] the machine runs again. *)
Lemma wp_halted running (work : M D unit) s :
  holds true false false clean s → (∀ s, holds true false true clean s → wp work (λ _, holds true false true clean) (holds true false true clean) s) →
  wp (releaseInput D ;; stop D ;; finally D work (run_again D running)) (λ _, idle) idle s.
Proof using Type.
  intros H HW. apply machine_wp_bind. eapply machine_wp_conseq; [by apply keeps_releaseInput| |intros v; by apply idle_of]. intros ? s1 H1. cbv beta in H1.
  apply machine_wp_bind. eapply machine_wp_conseq; [by eapply wp_stop| |intros v; by apply idle_of]. intros ? s2 H2. cbv beta in H2.
  eapply machine_wp_finally; [eapply machine_wp_conseq; [by apply HW| |intros v Hv; exact Hv]|].
  - intros ? s3 H3. cbv beta in H3. eapply machine_wp_conseq; [by eapply wp_run_again|intros ? v; by apply idle_of|intros v; by apply idle_of].
  - intros s3 H3. eapply machine_wp_conseq; [by eapply wp_run_again|intros ? v; by apply idle_of|intros v; by apply idle_of].
Qed.
Lemma wp_insertCD s : idle s → wp (insertCD D) (λ _, idle) idle s.
Proof using Type.
  intros H. unfold insertCD. apply machine_wp_bind. eapply wp_requireVM; [exact H| |done]. intros H0. apply machine_wp_bind, machine_wp_gets, machine_wp_bind, machine_wp_require; [intros _|done].
  apply machine_wp_bind. eapply machine_wp_conseq; [by apply keeps_delay| |intros v; by apply idle_of]. intros ? s1 H1. cbv beta in H1.
  apply machine_wp_bind. eapply machine_wp_conseq; [by apply keeps_delay| |intros v; by apply idle_of]. intros ? s2 H2. cbv beta in H2. apply machine_wp_bind, machine_wp_gets.
  apply wp_halted; [exact H2|]. intros s3 H3. apply machine_wp_bind. eapply machine_wp_conseq; [by apply machine_keeps_drain| |done]. intros ? s4 H4. cbv beta in H4.
  eapply (wp_awaiting true false true clean); [| |done|done].
  - eapply holds_cd, holds_log; [|exact H4]. by apply (h_halted _ _ _ _ _ H4).
  - intros n. apply holds_log; [|exact H4]. by apply (h_halted _ _ _ _ _ H4).
Qed.
Lemma wp_ejectCD s : idle s → wp (ejectCD D) (λ _, idle) idle s.
Proof using Type.
  intros H. unfold ejectCD. apply machine_wp_bind. eapply wp_requireVM; [exact H| |done]. intros H0. apply machine_wp_bind, machine_wp_gets.
  apply wp_halted; [exact H0|]. intros s3 H3. apply machine_wp_bind. eapply machine_wp_conseq; [by apply machine_keeps_drain| |done]. intros ? s4 H4. cbv beta in H4.
  apply machine_wp_modify. eapply holds_cd, holds_log; [|exact H4]. by apply (h_halted _ _ _ _ _ H4).
Qed.
Lemma wp_beginCapture s : idle s → wp (beginCapture D) (λ _, idle) idle s.
Proof using Type.
  intros H. unfold beginCapture. apply machine_wp_bind. eapply wp_requireVM; [exact H| |done]. intros H0. apply machine_wp_bind, machine_wp_gets, machine_wp_bind, machine_wp_require; [intros _|done].
  apply machine_wp_bind. eapply machine_wp_conseq; [by apply keeps_releaseInput| |intros v; by apply idle_of]. intros ? s1 H1. cbv beta in H1.
  apply machine_wp_bind. eapply machine_wp_conseq; [by eapply wp_stop| |intros v; by apply idle_of]. intros ? s2 H2. cbv beta in H2.
  apply machine_wp_bind. eapply machine_wp_conseq; [by apply machine_keeps_drain| |intros v; by apply idle_of]. intros ? s3 H3. cbv beta in H3. apply machine_wp_bind, machine_wp_modify.
  assert (H4 : holds true true true clean (on_buffer D (make_ready true) s3)) by (by eapply holds_buffer; [| |exact H3]).
  assert (HF : ∀ v, fine (Did D (Save D) (is_running D v) (is_ready D v)) ∨ ¬ holds true true true clean v).
  { intros v. destruct (is_running D v) eqn:Er; [right; intros HH; apply h_halted in HH; [congruence|done]|]. destruct (is_ready D v) eqn:Ey; [by left|]. right. intros HH.
    destruct (h_vm _ _ _ _ _ HH eq_refl) as [m Hm]. destruct (h_buffer _ _ _ _ _ HH m Hm) as (b & Eb & Ebr & _). unfold is_ready in Ey. rewrite Eb in Ey. congruence. }
  destruct (HF (on_buffer D (make_ready true) s3)) as [Hf|Hf]; [|done].
  eapply (machine_wp_finally _ _ _ _ (holds true true true clean)).
  - apply machine_wp_bind. eapply (wp_awaiting true true true clean); [|intros n; by apply holds_log| |done].
    + destruct (holds_log true true true clean _ (Save D) Hf H4). by split.
    + intros s5 H5. eapply machine_wp_conseq; [by apply keeps_delay| |done]. intros ? s6 H6. cbv beta in H6. apply machine_wp_modify, (idle_of true true). by eapply holds_buffer; [| |exact H6].
  - intros s5 H5. apply machine_wp_modify, (idle_of true true). by eapply holds_buffer; [| |exact H5].
Qed.
Lemma wp_typing codes s : (∀ k, up k → breakable codes k) → holds true false false clean s → wp (finally D (send_codes D codes) (releaseInput D)) (λ _, idle) idle s.
Proof using Type.
  intros HB H. assert (HR : ∀ v, holds true false false dirty v → wp (releaseInput D) (λ _, idle) idle v).
  { intros v Hv. eapply machine_wp_conseq; [eapply wp_releaseInput; [exact dirty_sane|exact Hv]|intros ? w; by apply idle_of|intros w; by apply idle_of]. }
  eapply machine_wp_finally; [|exact HR]. eapply machine_wp_conseq; [by apply wp_send|intros ? v Hv; by apply HR|done].
Qed.
Lemma idle_perform c s : idle s → wp (perform D lower c) (λ _, idle) idle s.
Proof using Type.
  intros H. destruct c as [valid|compatible valid| | | | |text|chord|n w h| | | |]; cbn [perform].
  - by apply wp_boot.
  - by apply wp_restore.
  - by apply wp_insertCD.
  - by apply wp_ejectCD.
  - unfold resume. apply machine_wp_bind. eapply wp_requireVM; [exact H| |done]. intros H0. apply machine_wp_bind, machine_wp_gets. destruct (has_failed D _); [by apply wp_throws|].
    eapply machine_wp_conseq; [by eapply wp_run|intros ? v; by apply idle_of|intros v Hv; exact Hv].
  - unfold pause. apply machine_wp_bind. eapply wp_requireVM; [exact H| |done]. intros H0.
    apply machine_wp_bind. eapply machine_wp_conseq; [by apply keeps_releaseInput| |intros v; by apply idle_of]. intros ? s1 H1. cbv beta in H1.
    apply machine_wp_bind. eapply machine_wp_conseq; [by eapply wp_stop| |intros v; by apply idle_of]. intros ? s2 H2. cbv beta in H2.
    eapply machine_wp_conseq; [by apply machine_keeps_drain|intros ? v; by apply idle_of|intros v; by apply idle_of].
  - unfold type. apply machine_wp_bind. eapply wp_requireRunning; [exact H| |done]. intros H0. apply machine_wp_bind, machine_wp_lift; [|done]. intros codes Hc.
    apply wp_typing; [|done]. intros k Hk. apply breakable_plain; [by eapply text_plain|by apply up_sane|apply Hk].
  - unfold key. apply machine_wp_bind. eapply wp_requireRunning; [exact H| |done]. intros H0. apply machine_wp_bind, machine_wp_lift; [|done]. intros codes Hc.
    apply wp_typing; [|done]. intros k Hk. by eapply chord_breakable.
  - unfold mouse. apply machine_wp_bind. eapply wp_requireRunning; [exact H| |done]. intros H0. apply clean_dirty in H0.
    assert (HR : ∀ v, holds true false false dirty v → wp (releaseInput D) (λ _, idle) idle v).
    { intros v Hv. eapply machine_wp_conseq; [eapply wp_releaseInput; [exact dirty_sane|exact Hv]|intros ? w'; by apply idle_of|intros w'; by apply idle_of]. }
    eapply machine_wp_finally; [|exact HR]. eapply machine_wp_conseq; [by apply mouse_gesture|intros ? v Hv; by apply HR|done].
  - by apply wp_beginCapture.
  - unfold exportCapture. assert (HP : ∀ v, idle v → idle (set_pending D false v)) by (intros v [H1 H2 H3 H4 H5]; by split).
    eapply (machine_wp_finally _ _ _ _ idle); [eapply machine_wp_conseq; [by apply keeps_delay|intros ? v Hv; by apply machine_wp_modify, HP|done]|intros v Hv; by apply machine_wp_modify, HP].
  - by apply keeps_releaseInput.
  - unfold close. apply machine_wp_bind. eapply machine_wp_conseq; [by apply keeps_releaseInput| |done]. intros ? s1 H1. cbv beta in H1. apply machine_wp_bind, machine_wp_gets. cbn [id].
    assert (HD : ∀ v, Forall fine (g_log D v) → idle (dispose D (set_vm D None v))) by (intros v Hv; apply idle_none; cbn; [apply Forall_app; by repeat constructor|done]).
    apply machine_wp_bind. destruct (g_vm D s1) as [m|].
    + eapply (wp_awaiting false false false clean); [by apply holds_log|intros n; exact H1| |done]. intros s2 H2. apply machine_wp_bind, machine_wp_modify, machine_wp_modify, HD, H2.
    + apply machine_wp_ret, machine_wp_bind, machine_wp_modify, machine_wp_modify, HD, H1.
Qed.
Lemma idle_commands cs s replies : idle s → idle (commands D lower cs s replies).
Proof using Type.
  revert s replies. induction cs as [|c cs IH]; intros s replies H; [done|]. cbn [commands]. pose proof (idle_perform c s H replies) as Hc.
  destruct (perform D lower c s replies) as [[[]  s'] l']; by apply IH.
Qed.

(** ** The CD's commands leave the machine running or not *)
(** There is a machine; [f]: the disk has failed; [h]: the machine does not run. *)
Record quiet (f h : bool) (s : agent) : Prop := {
  q_vm : is_Some (g_vm D s);
  q_failed : f = true → has_failed D s = true;
  q_halted : h = true → is_running D s = false
}.
Lemma quiet_vm f h h' s g : (∀ m, h' = true → v_running (g m) = true → h = true ∧ v_running m = true) → quiet f h s → quiet f h' (on_vm D g s).
Proof using Type.
  intros Hg [[m E] H2 H3]. split; [unfold on_vm; cbn; rewrite E; by eexists|done|]. intros Hh. unfold is_running, on_vm in *. cbn. rewrite E in *. cbn in *.
  destruct (v_running (g m)) eqn:Er; [|done]. destruct (Hg m Hh Er) as [E1 E2]. by rewrite (H3 E1) in E2.
Qed.
Lemma quiet_log f h s a : quiet f h s → quiet f h (log D a s).
Proof using Type. by intros [H1 H2 H3]; split. Qed.
Lemma quiet_meanwhile f h s y : quiet f h s → quiet f h (meanwhile D y s).
Proof using Type.
  intros H. unfold meanwhile. assert (H' : quiet f h (on_vm D (see (y_absolute y)) s)) by by eapply quiet_vm. destruct (y_disk y); [|done].
  apply (quiet_vm f h); [done|]. destruct H' as [H1 H2 H3]. split; try done. intros Hf. specialize (H2 Hf). unfold has_failed in *. cbn in *. by destruct (g_buffer D s).
Qed.
Lemma wp_quiet f h f' h' ok failed s : quiet f h (ok s) → (∀ n, quiet f' h' (failed n s)) → wp (await D ok failed) (λ _, quiet f h) (quiet f' h') s.
Proof using Type. intros H1 H2. apply wp_await; [done|intros y; by apply quiet_meanwhile|intros y n; by apply quiet_meanwhile]. Qed.
Lemma quiet_release f h s : quiet f h s → wp (releaseInput D) (λ _, quiet f h) (quiet f h) s.
Proof using Type.
  intros H. unfold releaseInput. apply machine_wp_bind, machine_wp_gets. cbn [id]. destruct (g_vm D s); [|by apply machine_wp_ret].
  apply machine_wp_bind. eapply machine_wp_conseq; [apply (wp_quiet f h f h); [|intros n]; by apply quiet_log, (quiet_vm f h)| |done].
  intros ? s' H'. cbv beta in H'. by apply machine_wp_modify, quiet_log, (quiet_vm f h).
Qed.
Lemma quiet_again f running s :
  quiet f true s → wp (run_again D running) (λ _ s', (f = true → has_failed D s' = true) ∧ is_running D s' = running && negb (has_failed D s')) (λ _, True) s.
Proof using Type.
  intros [[m E] H2 H3]. unfold run_again. apply machine_wp_bind, machine_wp_gets. cbn [id]. destruct (running && negb (has_failed D s)) eqn:Er.
  - apply machine_wp_modify. cbn. unfold is_running, has_failed in *. cbn. rewrite E. cbn. split; [done|]. by rewrite Er.
  - apply machine_wp_ret. split; [done|]. by rewrite H3.
Qed.
Lemma quiet_halted f running (work : M D unit) s :
  quiet f false s → (∀ s, quiet f true s → wp work (λ _, quiet f true) (quiet f true) s) →
  wp (releaseInput D ;; stop D ;; finally D work (run_again D running)) (λ _ s', (f = true → has_failed D s' = true) ∧ is_running D s' = running && negb (has_failed D s')) (λ _, True) s.
Proof using Type.
  intros H HW. apply machine_wp_bind. eapply machine_wp_conseq; [by apply quiet_release| |done]. intros ? s1 H1. cbv beta in H1.
  apply machine_wp_bind. unfold stop. eapply machine_wp_conseq; [apply (wp_quiet f true f false); [by apply (quiet_vm f false), quiet_log|intros n; by apply quiet_log]| |done]. intros ? s2 H2. cbv beta in H2.
  eapply machine_wp_finally; [eapply machine_wp_conseq; [by apply HW| |intros v Hv; exact Hv]|].
  - intros ? s3 H3. by apply quiet_again.
  - intros s3 H3. eapply machine_wp_conseq; [by eapply quiet_again|done|done].
Qed.
(** [running] is what the machine did at [s0], unless its disk failed since. *)
Definition since (s0 s : agent) : Prop :=
  is_Some (g_vm D s) ∧ (has_failed D s0 = true → has_failed D s = true) ∧ (is_running D s = true → is_running D s0 = true) ∧
  (is_running D s0 = true → has_failed D s = false → is_running D s = true).
Lemma since_meanwhile s0 s y : is_Some (g_buffer D s) → since s0 s → since s0 (meanwhile D y s) ∧ is_Some (g_buffer D (meanwhile D y s)).
Proof using Type.
  intros [b Eb] ([m E] & H1 & H2 & H3). unfold since, meanwhile, is_running, has_failed in *. destruct (y_disk y); cbn; rewrite ?E, ?Eb in *; cbn; (split; [split_and!|]); eauto; done.
Qed.
Lemma since_delay s0 s (Q : unit → agent → Prop) : is_Some (g_buffer D s) → since s0 s → (∀ s, is_Some (g_buffer D s) → since s0 s → Q tt s) → wp (delay D) Q (λ _, True) s.
Proof using Type. intros Hb H HQ. apply wp_await; [by apply HQ|intros y; destruct (since_meanwhile s0 s y Hb H); by apply HQ|done]. Qed.
Definition runs_on (s0 s : agent) : Prop := (is_running D s = true → is_running D s0 = true) ∧ (is_running D s0 = true → has_failed D s = false → is_running D s = true).
Lemma since_runs s0 s s' : since s0 s → (has_failed D s = true → has_failed D s' = true) → is_running D s' = is_running D s && negb (has_failed D s') → runs_on s0 s'.
Proof using Type.
  intros (_ & _ & H2 & H3) Hf E. split; rewrite E; [intros [? _]%andb_true_iff; auto|]. intros Hr Hn. rewrite Hn, andb_true_r. apply H3; [done|].
  destruct (has_failed D s); [|done]. by rewrite Hf in Hn.
Qed.
Lemma cd_runs (put : bool) s : is_Some (g_buffer D s) → wp (perform D lower (if put then InsertCD D else EjectCD_ D)) (λ _, runs_on s) (λ _, True) s.
Proof using Type.
  intros Hb. assert (HV : ∀ (Q : unit → agent → Prop), (is_Some (g_vm D s) → Q tt s) → wp (requireVM D) Q (λ _, True) s)
    by (intros Q HQ; apply machine_wp_bind, machine_wp_gets, machine_wp_require; [|done]; intros Hv%bool_decide_eq_true; by apply HQ).
  assert (HQ : ∀ v, is_Some (g_vm D v) → quiet (has_failed D v) false v) by (intros v Hv; by split).
  assert (HT : ∀ v (work : M D unit), since s v → (∀ f v, quiet f true v → wp work (λ _, quiet f true) (quiet f true) v) →
     wp (releaseInput D ;; stop D ;; finally D work (run_again D (is_running D v))) (λ _, runs_on s) (λ _, True) v).
  { intros v work Hs Hw. eapply machine_wp_conseq; [eapply (quiet_halted (has_failed D v)); [apply HQ, Hs|apply Hw]| |done]. intros ? v' [Hf E]. by eapply since_runs. }
  destruct put; cbn [perform]; apply machine_wp_bind, HV; intros Hv; assert (Hs : since s s) by (by split_and!).
  - apply machine_wp_bind, machine_wp_gets, machine_wp_bind, machine_wp_require; [intros _|done]. apply machine_wp_bind, (since_delay s); [done|done|]. intros s1 B1 S1. apply machine_wp_bind, (since_delay s); [done|done|]. intros s2 B2 S2.
    apply machine_wp_bind, machine_wp_gets, HT; [done|]. intros f v Hq. apply machine_wp_bind. eapply machine_wp_conseq; [apply (wp_quiet f true f true); [by apply quiet_log|done]| |done]. intros ? v' Hq'. cbv beta in Hq'.
    apply wp_quiet; [by apply (quiet_vm f true), quiet_log|intros n; by apply quiet_log].
  - apply machine_wp_bind, machine_wp_gets, HT; [done|]. intros f v Hq. apply machine_wp_bind. eapply machine_wp_conseq; [apply (wp_quiet f true f true); [by apply quiet_log|done]| |done]. intros ? v' Hq'. cbv beta in Hq'.
    by apply machine_wp_modify, (quiet_vm f true), quiet_log.
Qed.

(** C40: Whatever fails, and wherever: between commands no key and no mouse button of the guest
    is held, unless a release itself was broken off; the machine's buffer is in use
    and not ready for a snapshot.  CDs change and states are saved only while the machine
    stands, states only with a buffer that is ready; every absolute position is inside the
    screen and every movement in its bounds.  A CD's command that succeeds leaves the machine running just when it
    ran before, unless its disk has failed. *)
Theorem agent_tidy cs replies :
  let s := commands D lower cs (new_agent D) replies in
  (∀ m, g_vm D s = Some m → (∃ b, g_buffer D s = Some b ∧ b_ready b = false ∧ b_disposed b = false) ∧
     (releases_sent s → y_held (v_keyboard m) = [] ∧ v_buttons m = NONE)) ∧
  Forall fine (g_log D s) ∧
  (∀ (put : bool) l s' l', is_Some (g_vm D s) → perform D lower (if put then InsertCD D else EjectCD_ D) s l = (Ok tt, s', l') →
     (is_running D s' = true → is_running D s = true) ∧ (is_running D s = true → has_failed D s' = false → is_running D s' = true)).
Proof using Type.
  intros s. assert (H : idle s) by (apply idle_commands; split; try done; by constructor). split_and!.
  - intros m Hm. split; [by eapply h_buffer|]. intros Hs. destruct (h_keys _ _ _ _ _ H Hs m Hm) as [[Hk _] Hb]. done.
  - apply H.
  - intros put l s' l' [m Hm] E. destruct (h_buffer _ _ _ _ _ H m Hm) as (b & Hb & _). assert (HB : is_Some (g_buffer D s)) by (by exists b).
    pose proof (cd_runs put s HB l) as HC. rewrite E in HC. exact HC.
Qed.
End facts.

(** Integers for doubles. *)
Definition whole : double := Double Z id (λ _, true) Z.ltb Z.add Z.sub Z.mul Z.div Z.abs Z.opp.
Definition example_commands : list (command whole) :=
  [Boot whole true; Key whole "ctrl+escape"; Mouse whole (Input whole ClickOnce None (Some 3) (Some 4) None None None None) 640 480; InsertCD whole].
(** The typing is broken off after the prefix and a key; the guest has an absolute mouse. *)
Definition example_replies : list reply :=
  [Reply None 0 false true; Reply (Some (Exn None "gone")) 2 false true].
Definition example_end : agent whole := commands whole id example_commands (new_agent whole) example_replies.
Definition describe (a : act whole) : list Z :=
  match a with
  | Create _ => [0] | Destroy _ => [1] | Run _ => [2] | Stop _ => [3] | Drain _ => [4] | Dispose _ => [5] | SetCD _ => [6] | EjectCD _ => [7] | Save _ => [8] | RestoreState _ => [9]
  | Keys _ codes sent => 10 :: Z.b2z sent :: codes
  | Click _ (l, m, r) => [11; Z.b2z l; Z.b2z m; Z.b2z r]
  | Lock _ on => [12; Z.b2z on]
  | Absolute _ x y w h => [13; x; y; w; h]
  | Delta _ dx dy => [14; dx; dy]
  | Wheel _ up => [15; Z.b2z up]
  end.
Definition RELEASE : list (list Z) := [10 :: 1 :: releaseCodes ++ releaseExtended; [11; 0; 0; 0]].
Definition example_log : list (list Z) :=
  [[0]; [2]; [10; 0; 0x1d; 0x01; 0x81; 0x9d]] ++ RELEASE ++ [[12; 0]; [13; 3; 4; 640; 480]; [11; 1; 0; 0]; [11; 0; 0; 0]] ++ RELEASE ++ RELEASE ++ [[3]; [4]; [6]; [2]].
Lemma agent_tidy_witness :
  describe <$> (i_act whole <$> g_log whole example_end) = example_log ∧ is_running whole example_end = true ∧
  ∃ m, g_vm whole example_end = Some m ∧ y_held (v_keyboard m) = [] ∧ v_buttons m = NONE.
Proof.
  assert (EL : describe <$> (i_act whole <$> g_log whole example_end) = example_log) by (vm_compute; reflexivity).
  assert (ER : is_running whole example_end = true) by (vm_compute; reflexivity).
  assert (HB : forallb (λ l, negb (bool_decide (l = 10 :: 0 :: releaseCodes ++ releaseExtended))) example_log = true) by (vm_compute; reflexivity).
  assert (HR : releases_sent whole example_end).
  { intros i Hi E. apply (list_elem_of_fmap_2 (i_act whole)), (list_elem_of_fmap_2 describe) in Hi. rewrite EL, E in Hi. apply list_elem_of_In in Hi.
    apply (proj1 (forallb_forall _ _) HB) in Hi. apply negb_true_iff, bool_decide_eq_false in Hi. by apply Hi. }
  assert (HG : ∀ s : agent whole, (∀ m, g_vm whole s = Some m → (∃ b, g_buffer whole s = Some b ∧ b_ready b = false ∧ b_disposed b = false) ∧
       (releases_sent whole s → y_held (v_keyboard m) = [] ∧ v_buttons m = NONE)) → is_running whole s = true → releases_sent whole s →
     ∃ m, g_vm whole s = Some m ∧ y_held (v_keyboard m) = [] ∧ v_buttons m = NONE).
  { clear. intros s H ER HR. unfold is_running in ER. destruct (g_vm whole s) as [m|]; [|discriminate ER]. exists m. split; [reflexivity|]. exact (proj2 (H m eq_refl) HR). }
  split; [exact EL|]. split; [exact ER|]. exact (HG example_end (proj1 (agent_tidy whole id example_commands example_replies)) ER HR).
Defined.
