(* ===== verification/AgentMedia.v ===== *)
(** * Transfer CDs of the agent (src/scripts/agent/media.mjs)

    Files are sent to the guest on a CD image.  Their names have to be names of Windows 98
    with distinct DOS aliases, and to fit one directory sector.

    A name is its UTF-16 units; [toUpperCase], SHA-256 and the vendored [generate] are
    parameters.  A file has its base name, what [stat] says, and what reading it gives; one
    that is missing is refused like one that is not regular. *)
From S2P Require Import Prelude.
#[local] Open Scope Z_scope.

Definition name : Type := list Z.
Record file := File { f_name : name; f_isFile : bool; f_size : Z; f_data : result bytes }.
Record entry := Entry { e_file : file; e_alias : name }.
Definition MAX_MEDIA_BYTES : Z := 256 * 1048576.
Definition DOT : Z := 46.
(** [name.lastIndexOf('.')]. *)
Fixpoint lastIndexOf (n : name) : option nat :=
  match n with
  | [] => None
  | c :: n => match lastIndexOf n with Some i => Some (S i) | None => if c =? DOT then Some 0%nat else None end
  end.
Definition shortName (n : name) : name :=
  match lastIndexOf n with
  | None => take 8 n
  | Some dot => take (Nat.min 8 dot) n ++ [DOT] ++ take 3 (drop (S dot) n)
  end.
(** [[A-Z0-9_]]. *)
Definition dos_char (c : Z) : bool := ((65 <=? c) && (c <=? 90)) || ((48 <=? c) && (c <=? 57)) || (c =? 95).
Definition dos_run (n : name) (most : nat) : bool := forallb dos_char n && (1 <=? length n)%nat && (length n <=? most)%nat.
(** [/^[A-Z0-9_]{1,8}(?:\.[A-Z0-9_]{1,3})?$/]. *)
Fixpoint before_dot (n : name) : name := match n with [] => [] | c :: n => if c =? DOT then [] else c :: before_dot n end.
Fixpoint after_dot (n : name) : option name := match n with [] => None | c :: n => if c =? DOT then Some n else after_dot n end.
Definition dos_alias (n : name) : bool := dos_run (before_dot n) 8 && match after_dot n with None => true | Some x => dos_run x 3 end.
(** [/[\x00-\x1f*\/:;?\\'<>|\ud800-\udfff]/] with the double quote for the single one. *)
Definition forbidden (c : Z) : bool :=
  (c <? 32) || bool_decide (c ∈ [42; 47; 58; 59; 63; 92; 34; 60; 62; 124]) || ((0xd800 <=? c) && (c <=? 0xdfff)).
(** [/^(CON|PRN|AUX|NUL|COM[1-9]|LPT[1-9])(?:\.|$)/i]: ASCII letters of any case. *)
Definition ascii_upper (c : Z) : Z := if (97 <=? c) && (c <=? 122) then c - 32 else c.
Definition devices : list name :=
  [[67; 79; 78]; [80; 82; 78]; [65; 85; 88]; [78; 85; 76]] ++
  ((λ i, [67; 79; 77; 49 + Z.of_nat i]) <$> seq 0 9) ++ ((λ i, [76; 80; 84; 49 + Z.of_nat i]) <$> seq 0 9).
Definition reserved (n : name) : bool := bool_decide (before_dot (ascii_upper <$> n) ∈ devices).

Section media.
Context (toUpperCase : name → name) (sha256 : bytes → bytes) (generate : list (name * bytes) → bytes).
Definition dosName (n : name) : name := shortName (filter (λ c, dos_char c || (c =? DOT) = true) (toUpperCase (shortName n))).
Definition unsupported (n : name) : bool :=
  bool_decide (n = []) || (64 <? Z.of_nat (length n)) || existsb forbidden n || bool_decide (last n ∈ [Some 32; Some 46]) ||
  negb (dos_alias (dosName n)) || reserved n.
(** The first loop, with its sets and sums. *)
Fixpoint check (files : list file) (names aliases : list name) (total directoryBytes : Z) (entries : list entry) : result (list entry) :=
  match files with
  | [] => Ok entries
  | f :: files =>
      let n := f_name f in let alias := dosName n in
      if unsupported n then throw_plain "Unsupported Windows 98 CD filename"
      else if bool_decide (toUpperCase n ∈ names) || bool_decide (alias ∈ aliases) then throw_plain "Conflicting CD filename or DOS alias"
      else
        let directoryBytes := directoryBytes + (34 + Z.of_nat (length n) * 2) in
        if 2048 <=? directoryBytes then throw_plain "Too many/long CD filenames; put them in one ZIP"
        else if negb (f_isFile f) then throw_plain "Not a regular file; zip directories first"
        else
          let total := total + f_size f in
          if MAX_MEDIA_BYTES <? total then throw_plain "Files exceed the 256 MiB transfer limit"
          else check files (toUpperCase n :: names) (alias :: aliases) total directoryBytes (entries ++ [Entry f alias])
  end.
(** The second loop: the files are read and must have their sizes still. *)
Fixpoint read (entries : list entry) : result (list (name * bytes)) :=
  match entries with
  | [] => Ok []
  | e :: entries =>
      b ← f_data (e_file e);
      if negb (byteLength b =? f_size (e_file e)) then throw_plain "File changed while preparing transfer"
      else rest ← read entries; Ok ((f_name (e_file e), b) :: rest)
  end.
Record cd := Cd { c_image : bytes; c_files : list (name * name * Z * bytes); c_bytes : Z }.
Definition createCD (paths : list file) : result cd :=
  if bool_decide (paths = []) || (42 <? Z.of_nat (length paths)) then throw_plain "send requires 1–42 file paths; zip directories first"
  else
    entries ← check paths [] [] 0 68 [];
    contents ← read entries;
    let image := generate contents in
    Ok (Cd image (zip_with (λ e c, (f_name (e_file e), e_alias e, f_size (e_file e), sha256 c.2)) entries contents) (byteLength image)).

(** ** Facts *)
(** What a CD can hold. *)
Record suitable (files : list file) : Prop := {
  s_number : 1 ≤ Z.of_nat (length files) ≤ 42;
  s_names : Forall (λ f, unsupported (f_name f) = false ∧ f_isFile f = true) files;
  s_distinct : NoDup ((λ f, toUpperCase (f_name f)) <$> files);
  s_aliases : NoDup ((λ f, dosName (f_name f)) <$> files);
  s_directory : 68 + sum_list_Z ((λ f, 34 + 2 * Z.of_nat (length (f_name f))) <$> files) < 2048;
  s_total : sum_list_Z (f_size <$> files) ≤ MAX_MEDIA_BYTES;
  s_read : Forall (λ f, ∃ b, f_data f = Ok b ∧ byteLength b = f_size f) files
}.
Definition contents (files : list file) : list (name * bytes) := (λ f, (f_name f, match f_data f with Ok b => b | _ => [] end)) <$> files.
Lemma cd_read_ok entries l :
  read entries = Ok l ↔ Forall (λ f, ∃ b, f_data f = Ok b ∧ byteLength b = f_size f) (e_file <$> entries) ∧ l = contents (e_file <$> entries).
Proof using Type.
  revert l. induction entries as [|e entries IH]; intros l; cbn; [split; [by intros [= <-]|by intros [_ ->]]|]. rewrite Forall_cons. unfold contents in *. cbn.
  destruct (f_data (e_file e)) as [b|x] eqn:Eb; cbn; [|split; [done|by intros [[(? & ? & _) _] _]]].
  destruct (Z.eqb_spec (byteLength b) (f_size (e_file e))) as [Es|Es]; cbn.
  - split.
    + intros H. apply bind_ok in H as (r & Hr & [= <-]). apply IH in Hr as [HF ->]. split; [|done]. split; [by exists b|done].
    + intros [[_ HF] ->]. rewrite (proj2 (IH _) (conj HF eq_refl)). done.
  - split; [done|]. intros [[(b' & [= <-] & Es') _] _]. done.
Qed.
Lemma cd_check_ok files names aliases total directory entries l :
  Forall (λ f, 0 ≤ f_size f) files →
  check files names aliases total directory entries = Ok l ↔
  (l = entries ++ ((λ f, Entry f (dosName (f_name f))) <$> files) ∧
   Forall (λ f, unsupported (f_name f) = false ∧ f_isFile f = true) files ∧
   (Forall (λ f, toUpperCase (f_name f) ∉ names) files ∧ NoDup ((λ f, toUpperCase (f_name f)) <$> files)) ∧
   (Forall (λ f, dosName (f_name f) ∉ aliases) files ∧ NoDup ((λ f, dosName (f_name f)) <$> files)) ∧
   (files = [] ∨ directory + sum_list_Z ((λ f, 34 + 2 * Z.of_nat (length (f_name f))) <$> files) < 2048) ∧
   (files = [] ∨ total + sum_list_Z (f_size <$> files) ≤ MAX_MEDIA_BYTES)).
Proof using Type.
  revert names aliases total directory entries. induction files as [|f files IH]; intros names aliases total directory entries HS; cbn [check].
  { cbn. rewrite app_nil_r. split; [intros [= <-]; split_and!; auto using NoDup_nil_2|by intros [-> _]]. }
  apply Forall_cons in HS as [Hf HS]. rewrite !fmap_cons, !Forall_cons, !NoDup_cons. cbn [sum_list_Z foldr].
  assert (HN : ∀ l : list Z, Forall (λ z, 0 ≤ z) l → 0 ≤ foldr Z.add 0 l) by (intros l0; apply sum_list_Z_nonneg).
  assert (HD : 0 ≤ foldr Z.add 0 ((λ f, 34 + 2 * Z.of_nat (length (f_name f))) <$> files)) by (apply HN, Forall_fmap, Forall_forall; intros; cbn; lia).
  assert (HT : 0 ≤ foldr Z.add 0 (f_size <$> files)) by (apply HN, Forall_fmap; done).
  destruct (unsupported (f_name f)); [naive_solver|].
  destruct (bool_decide (toUpperCase (f_name f) ∈ names)) eqn:E1; cbn [orb]; bools; [naive_solver|].
  destruct (bool_decide (dosName (f_name f) ∈ aliases)) eqn:E2; bools; [naive_solver|].
  destruct (Z.leb_spec 2048 (directory + (34 + Z.of_nat (length (f_name f)) * 2))) as [E3|E3]; [split; [done|]; intros (_ & _ & _ & _ & [?|?] & _); [done|lia]|].
  destruct (f_isFile f); cbn [negb]; [|naive_solver].
  destruct (Z.ltb_spec MAX_MEDIA_BYTES (total + f_size f)) as [E4|E4]; [split; [done|]; intros (_ & _ & _ & _ & _ & [?|?]); [done|lia]|].
  rewrite (IH _ _ _ _ _ HS), <- app_assoc. cbn [app].
  assert (HC : ∀ (g : file → name) N, Forall (λ h, g h ∉ g f :: N) files ↔ Forall (λ h, g h ∉ N) files ∧ g f ∉ g <$> files).
  { intros g N. rewrite !Forall_forall, list_elem_of_fmap. setoid_rewrite not_elem_of_cons. naive_solver. }
  rewrite (HC (λ h, toUpperCase (f_name h)) names), (HC (λ h, dosName (f_name h)) aliases).
  assert (HA : (files = [] ∨ directory + (34 + Z.of_nat (length (f_name f)) * 2) + foldr Z.add 0 ((λ f, 34 + 2 * Z.of_nat (length (f_name f))) <$> files) < 2048) ↔
    (f :: files = [] ∨ directory + (34 + 2 * Z.of_nat (length (f_name f)) + foldr Z.add 0 ((λ f, 34 + 2 * Z.of_nat (length (f_name f))) <$> files)) < 2048)).
  { split; [intros [->|?]; right; [cbn; lia|lia]|intros [?|?]; [done|right; lia]]. }
  assert (HB : (files = [] ∨ total + f_size f + foldr Z.add 0 (f_size <$> files) ≤ MAX_MEDIA_BYTES) ↔ (f :: files = [] ∨ total + (f_size f + foldr Z.add 0 (f_size <$> files)) ≤ MAX_MEDIA_BYTES)).
  { split; [intros [->|?]; right; [cbn; lia|lia]|intros [?|?]; [done|right; lia]]. }
  unfold sum_list_Z. rewrite <- HA, <- HB. tauto.
Qed.
(** An alias that passes is a name of at most eight characters and an extension. *)
Lemma createCD_iff files c :
  Forall (λ f, 0 ≤ f_size f) files →
  createCD files = Ok c ↔ suitable files ∧ c = Cd (generate (contents files))
    ((λ f, (f_name f, dosName (f_name f), f_size f, sha256 (match f_data f with Ok b => b | _ => [] end))) <$> files) (byteLength (generate (contents files))).
Proof using Type.
  intros HS. assert (EF : ∀ fs : list file, e_file <$> ((λ f, Entry f (dosName (f_name f))) <$> fs) = fs) by (intros fs; induction fs as [|f fs IH]; [done|cbn; f_equal; exact IH]).
  assert (EZ : ∀ fs : list file, zip_with (λ e c, (f_name (e_file e), e_alias e, f_size (e_file e), sha256 c.2)) ((λ f, Entry f (dosName (f_name f))) <$> fs) (contents fs) =
     (λ f, (f_name f, dosName (f_name f), f_size f, sha256 (match f_data f with Ok b => b | _ => [] end))) <$> fs) by (intros fs; induction fs as [|f fs IH]; [done|cbn; f_equal; exact IH]).
  unfold createCD. destruct (_ || _) eqn:E0.
  { split; [done|]. intros [[H _ _ _ _ _ _] _]. apply orb_true_iff in E0 as [E0|E0]; [bools; subst; cbn in H; lia|apply Z.ltb_lt in E0; lia]. }
  apply orb_false_iff in E0 as [E0 E1]. bools. assert (HL : 1 ≤ Z.of_nat (length files) ≤ 42) by (destruct files; [done|cbn [length] in *; lia]).
  split.
  - intros H. apply bind_ok in H as (entries & Hc & H). apply bind_ok in H as (l & Hr & [= <-]). apply (cd_check_ok _ _ _ _ _ _ _ HS) in Hc as (-> & H1 & [_ H2] & [_ H3] & H4 & H5).
    cbn [app] in *. apply cd_read_ok in Hr as [H6 ->]. rewrite EF in *. rewrite EZ. split; [|done]. split; try done.
    + by destruct H4 as [->|H4].
    + by destruct H5 as [->|H5].
  - intros [[H1 H2 H3 H4 H5 H6 H7] ->].
    rewrite (proj2 (cd_check_ok files [] [] 0 68 [] ((λ f, Entry f (dosName (f_name f))) <$> files) HS)).
    2: { split_and!; try done; try (by right); try (by apply Forall_forall; intros; apply not_elem_of_nil). all: right; lia. }
    cbn [mbind result_bind]. rewrite (proj2 (cd_read_ok _ (contents files))); [|rewrite EF; by split]. cbn [mbind result_bind]. by rewrite EZ.
Qed.
End media.

(** Two files whose aliases are equal are refused, either alone is taken. *)
Definition example_file (n : string) : file := File ((λ c, Z.of_nat (Ascii.nat_of_ascii c)) <$> String.list_ascii_of_string n) true 1 (Ok [7]).
Definition example_upper : name → name := fmap ascii_upper.
Example conflicting_aliases :
  dosName example_upper (f_name (example_file "Read me first.html")) = f_name (example_file "README.HTM") ∧
  createCD example_upper id (λ _, [0]) [example_file "Read me first.html"; example_file "readme.htm"] = throw_plain "Conflicting CD filename or DOS alias" ∧
  c_files <$> createCD example_upper id (λ _, [0]) [example_file "readme.htm"] = Ok [(f_name (example_file "readme.htm"), f_name (example_file "README.HTM"), 1, [7])].
Proof. split_and!; vm_compute; reflexivity. Qed.
